(* ===== verification/_CoqProject ===== *)
-Q . S2P
Prelude.v
Text.v
Bytes.v
Uapi.v
Host.v
Alloc.v
Trace.v
Shadow.v
State.v
Transaction.v
Release.v
Read.v
Write.v
Driver.v
Graph.v
Frames.v
Refinement.v
Transfer.v
Teardown.v
Commands.v
Weight.v
Reading.v
Entry.v
System.v
Scenario.v
Findings.v
Witnesses.v
Abx.v
Base64.v
Fmq.v
Area.v
AreaHeap.v
AreaTrie.v
AreaMap.v
AreaReader.v
AreaUpdate.v
AreaWalk.v
Libbase.v
Double.v
Rules.v
CxxSort.v
CxxOrder.v
CxxInsertion.v
CxxPartition.v
CxxHeap.v
CxxSorted.v
Info.v
InfoEncode.v
InfoOrder.v
InfoWrite.v
InfoRead.v
InfoTrie.v
InfoBuild.v
InfoMatch.v
InfoParse.v
Areas.v
AreasMap.v
AreasSystem.v
Service.v
Protocol.v
ServiceSpec.v
PropertySystem.v
Tokenizer.v
Expand.v
Builtins.v
Image.v
Ids.v
Actions.v
RcService.v
Options.v
Script.v
Scripts.v
ScriptText.v
Engine.v
EngineRun.v
Loader.v
EngineSystem.v
PropLoad.v
PropBoot.v
PropFiles.v
