(* ===== verification/Prelude.v ===== *)
(** * The binder driver and other parts of aim, verified

    aim runs Android user space on another host.  The main part verified here
    is the crate [src/crates/aim-binder-driver]: a user-space implementation of
    the kernel's binder device, the object-capability IPC that all of Android
    rests on.  Processes open the device, map a receive buffer, and exchange
    transactions through [ioctl]; the driver translates the objects and file
    descriptors a transaction carries, counts references to objects, and tells
    processes when objects they hold die.

    The second part is [src/crates/aim-android-init], Android's init: the
    system properties, which it takes from clients by a socket and publishes to
    every process in shared memory ([props]), the scripts of the image, which
    it parses into services and actions ([rc]), and the engine that runs the
    commands of the actions as events and property changes trigger them
    ([engine]).

    Besides there are two formats that processes share without the driver: the
    message queues HALs pass to their clients in binder calls
    ([src/hal/fmq]), and the binary XML in which system services keep their
    state ([src/crates/aim-android-xml]).

    ** The program's parts and where they are modelled

    - [Prelude.v]: the semantics of the Rust the driver uses.  [outcome] is
      what a call does ([Done], [Panicked], or [Spinning] for a loop that has
      used up its fuel), [M S A] a computation on a state, [result] the type
      of fallible calls.  Integers are [Z] at the width of the source:
      [uadd w] and [usub w] panic on overflow in a build with overflow checks
      and wrap in one without ([Env]).  [wpx] is the weakest-precondition
      calculus the proofs use.
    - [Uapi.v] ([uapi.rs]): ioctl numbers, command and return words, structure
      codecs.  [Host.v] ([host.rs]): error numbers, credentials, receive
      memory, and the interface [GuestProcess] of the calling process, which
      is a parameter of everything that uses it: the guest's memory and files
      may answer anything.
    - [Alloc.v] ([alloc.rs]): the best-fit allocator of a receive buffer.
      [Trace.v] ([trace.rs]): call timing and interface names.  [Shadow.v]
      ([shadow.rs]): copies of calls to watched nodes, on bounded channels.
    - [State.v] ([state.rs]): processes, threads, nodes, references, death
      notifications and work queues, as records of finite maps.  A [HashMap]
      is a [gmap]; where the code iterates over one, the order is the
      parameter [hash_order].
    - [Transaction.v] ([transaction.rs]): sending calls, one-way calls and
      replies; translation of binders, handles, fds, fd arrays and pointer
      buffers; failed replies; freeing buffers.  [Release.v] ([release.rs]):
      thread exit and process teardown.  [Read.v] ([read.rs]): queued work
      turned into returns.  [Write.v] ([write.rs]): the command stream.
    - [Driver.v] ([driver.rs]): the entry points.  An ioctl that waits gives
      up the lock, so it is a start and a resumption from each of the two
      places where it lets go ([ioctl_parking], [resume_yield],
      [resume_sleep]); between them other calls run.

    - [Text.v]: the conversions of Rust's standard library between strings and
      UTF-8 or UTF-16.  [Bytes.v]: slices of bytes and C strings.
    - [Fmq.v] ([src/hal/fmq/src/lib.rs]): a queue in shared memory with its
      producer and its consumer, each a program that moves by one access to
      the shared memory or one system call at a time ([local_step]); [run]
      interleaves them by any schedule.  [Module Layout] has the creation of a
      queue and its description to a peer.  The kernel's futex, files and
      mappings are parameters ([Futex], [System]).
    - [Area.v] ([area.rs]): the property area, its writer on the bytes of the
      memory and, in [Module Reader], its reader on a snapshot of them.
    - [Libbase.v] and [Double.v] ([libbase.rs]): the text helpers of init, and
      its numbers; doubles are the Standard Library's.  [CxxSort.v]
      ([cxx_sort.rs]): the port of libc++'s [std::sort], on a vector as state.
    - [Info.v] ([info.rs]): the contexts files, the trie that is built of them,
      its serialization into [property_info], and the lookup of names in those
      bytes ([Module InfoArea]).
    - [Areas.v] ([areas.rs]): an area for every context, the global serial and
      the futex wakes, recorded in order.  [Rules.v] ([props/mod.rs]): legal
      names, values and types.  [Service.v] ([service.rs]): permissions and
      sets, for any policy.  [Protocol.v] ([protocol.rs]): messages as they
      arrive on the socket, and their service.
    - [Tokenizer.v] ([rc/tokenizer.rs]): the words of a script.  [Expand.v]
      ([rc/expand.rs], [lib.rs]): the class of property lookups and the
      expansion of properties in a string.  [Builtins.v] ([rc/keywords.rs],
      [rc/builtins.rs], [engine/command.rs]): the table of commands with their
      arity, and commands built of arguments ([Module Cmd]).  [Image.v]
      ([image.rs]): guest paths on the host, whose file system is the class
      [HostFs].  [Ids.v] ([rc/ids.rs]): user and group names.
    - [Actions.v] ([rc/action.rs]): actions and their triggers.  [RcService.v]
      ([rc/service.rs], [rc/caps.rs]): services and every option of theirs.
      [Script.v] ([rc/parser.rs], [diag.rs]): the parser, a state of parsed
      scripts and pending imports.  [Loader.v] ([rc/loader.rs], [rc/mod.rs]):
      which scripts of an image are parsed, and in which order.
    - [Engine.v] ([engine/mod.rs], [engine/dry_run.rs]): the queue of events,
      the actions that execute, waits, and the commands the engine runs itself;
      what else runs commands is the class [CommandExecutor], and what holds the
      properties the class [InitProperties], which the property service and maps
      implement.
    - [PropLoad.v] ([props/load.rs]): the properties of the boot: the contexts
      of the image, what the kernel gives, the [.prop] files and their imports,
      and the properties derived of them.
    - [Abx.v] ([abx.rs]) and [Base64.v] ([base64.rs]): the binary XML reader
      and writer, and the text form of byte arrays.

    A definition of these files translates the function of the same name (a
    long function is split at its branches; the method [T::f] of a type is
    [T_f]).  The driver's lock makes each part a single step, and [System.v]
    makes the steps a transition system: [step a s s'] is one call for process
    [a], [reachable s] a state some sequence of calls leads to.  The guest of
    each call is arbitrary.

    ** The theorems

    - [Graph.v] is the specification: processes, objects and handles as a
      capability graph, with the few steps a process may cause ([gstep]).
      [Frames.v], [Refinement.v], [Transfer.v], [Teardown.v], [Commands.v],
      [Reading.v] and [Entry.v] show that each operation keeps the state's
      invariant ([Side], [Inv], [Good]) and takes its graph through such
      steps; [Weight.v] gives the measure by which a read pass ends.
    - [System.v] draws the conclusions for reachable states: the driver
      refines the graph; handles are not forged; handle tables, reference
      counts and owners agree exactly; receive buffers do not overlap; call
      chains descend; a released process leaves nothing; the driver's loops
      end.
    - The component files hold what concerns one component: the allocator's
      invariant, best fit, errors and round trip; the codecs' round trips;
      fixup validation against its specification; what a read pass and node
      work report; which commands a write consumes; what the entry points
      check; what tracing and shadowing account for.
    - [Fmq.v]: what a consumer reads is what the producer wrote, in order and
      within the ring, under every interleaving; no sleeper misses its wakeup;
      with matching blocking calls every schedule ends with every message
      delivered; a described queue is mapped as it was created.
    - [AreaHeap.v] shows the writer's accesses to be operations on a heap of
      disjoint objects, [AreaTrie.v] that the searches walk a trie of names
      that grows only at empty links, [AreaMap.v] that the area holds a map
      and takes any property there is room for, [AreaReader.v] that the reader
      sees that map, [AreaUpdate.v] that a reader in the middle of an update
      sees the old or the new value.
    - [CxxOrder.v], [CxxInsertion.v], [CxxPartition.v] and [CxxHeap.v] show what
      the parts of the sort do to a range for any strict weak order, and
      [CxxSorted.v] that the sort ends with a sorted permutation.
    - [InfoEncode.v] gives the bytes of a trie, [InfoOrder.v] and [InfoWrite.v]
      that the serializer writes them, [InfoRead.v] and [InfoTrie.v] that the
      reader walks them as the trie, [InfoBuild.v] what the trie of a list of
      entries is, [InfoMatch.v] that a name finds its best entry, and
      [InfoParse.v] that a contexts file is read back.
    - [AreasMap.v] shows that the areas together hold one map, against an
      interface to the contexts ([Lookup]) which [AreasSystem.v] implements by
      the tries of [Info]; there are the theorems from the entries to the
      readers.  [ServiceSpec.v] gives what a request does ([handle_result]),
      and [PropertySystem.v] the theorems about any number of requests:
      they are answered by the rules, read-only properties stay, and what
      requests store is typed.  [Protocol.v] has the decoding of messages
      in pieces.
    - [Tokenizer.v]: words written in quotes are read back.  [Expand.v]:
      templates expand part by part.  [Image.v]: paths stay inside the image up
      to forty links.  [Options.v] shows that no option of a service panics and
      that services stay within their bounds, [Scripts.v] that the parser ends
      exactly if the imports do and makes well-formed scripts, [ScriptText.v]
      that a printed script is parsed to the actions it was printed from,
      [Loader.v] that the scripts of an image load and which versions of an
      APEX's scripts are taken.
    - [EngineRun.v] gives the invariant of the engine, against an interface to
      the properties ([PropertiesOk]), and the agenda of commands that it
      follows; [EngineSystem.v] has the theorems about the engine with any
      executor and with the property service: it never panics, runs commands in
      order, starts the actions an event is for, and misses no wait.
    - [PropBoot.v] follows the stages of the boot on the properties that readers
      see: every row comes true or is refused with a message.  [PropFiles.v]:
      printed [.prop] files are read back, and reading ends exactly if the
      imports do.
    - [Abx.v] and [Base64.v]: what is written is read back; the reader ends
      without a panic on any bytes.
    - [Findings.v]: three runs that end where the driver's documentation or
      its own checks say they should not.  [Scenario.v] and [Witnesses.v]: a
      concrete run of two processes, and the theorems applied at its states.

    ** Fuel

    Loops that are not structural take fuel and give [Spinning] without it.
    The bounds are: for the failed-reply and call-chain walks the number of
    transactions, since parents are older; for an exiting thread's stack twice
    that, since every turn clears one end of a transaction; for a fixup walk
    the number of placed buffers; for the command stream its length; for a
    read pass the work queued and what freeing the process's buffers can
    queue.  [loops_end] and [release_leaves_nothing] show that none runs out.
    The searches of the property area take as many turns as it has bytes, since
    links lead to later places, and one turn per byte of a name; the binary XML
    reader one per byte.  In the sort the loops that move a bound take the
    length, and the recursion is on the depth the source limits it to.  The
    serializer of the trie takes its height, and the search for a child 34
    turns, since it halves a range of at most 2^32.  The tokenizer takes a turn
    per byte, the parser two per byte and five, since a token takes a byte or a
    newline that is pending, the expansion one per byte.  Their theorems give a
    result, so none runs out.  The recursion over imported files takes its depth
    ([parse_data]), which no number bounds when files import each other;
    [scripts_parse] says exactly when a depth is enough, and [prop_files_read]
    for the imports of [.prop] files.  A step of the engine
    takes one turn, since every identifier it holds names an action.
    The retry around read passes, in [read_loop], is bounded by the same
    measure; that it never runs out is not proved, so the refinement speaks of
    ioctl parts that return.

    ** Assumptions

    The theorems about reachable states are for a build with overflow checks
    ([overflow_checks = true]), as [cargo] builds by default in development: a
    build without them wraps a reference count after 2^32 increments.
    Allocation of host memory does not fail except where [vec![0; n]] asks for
    more than the address space.  The theorems about the properties are for
    names and values without NUL bytes (a legal name has none; what a value
    with one does is [nul_value_mixes]), for entries that are text and have
    contexts, and for areas of 240 bytes or more; init updates no read-only
    property, which the service makes sure of.  Lookups of properties do not
    panic in the theorems about scripts and the engine, which holds for maps and
    for the property service; commands outside of the engine return
    ([CommandExecutor]).

    ** Not modelled

    The condition variables' own behaviour (a wake is an event; that a
    sleeping reader is scheduled again is the host's matter), [IdHasher] (the
    hash of a map affects only [hash_order]), the memory-mapping of
    [HeapReceiveMemory::drop]; of the message queue the byte views of typed
    elements and the unmapping; of the property area the order in which other
    processors see plain stores (the code fences them, and the model stores in
    program order); of the properties the files they are written to, the names
    of error codes, and the precision of [powi] (a parameter, [Powi]); of
    init's scripts the text of its messages, which are constructors, and the
    file system of the host ([HostFs]); the pull readers and the text form of XML; and the
    rest of aim: the other crates, the HALs, the daemons and the Java services,
    which are mostly calls to the host, to the kernel or to each other. *)

From Stdlib Require Import ZArith Lia.
From Stdlib Require Import Strings.Byte.
From stdpp Require Import base numbers list gmap sets sorting strings.

Open Scope Z_scope.

(** ** Outcomes of a computation that may panic

    A Rust call either returns, panics (an index out of range, a missing map
    key under [m[&k]], [unwrap] of [None], an arithmetic overflow in a build
    with overflow checks), or does not return.  [Spinning] is the value of a
    loop whose fuel ran out. *)
Inductive outcome (A : Type) : Type :=
| Done (a : A)
| Panicked
| Spinning.

Arguments Done {A} a.
Arguments Panicked {A}.
Arguments Spinning {A}.

(** [Result<A, E>]. *)
Inductive result (A E : Type) : Type :=
| Ok (a : A)
| Err (e : E).

Arguments Ok {A E} a.
Arguments Err {A E} e.

(** Stateful code over a state [S]. *)
Definition M (S A : Type) : Type := S -> outcome (A * S).

#[export] Instance outcome_ret : MRet outcome := fun A a => Done a.
#[export] Instance outcome_bind : MBind outcome := fun A B f m =>
  match m with
  | Done a => f a
  | Panicked => Panicked
  | Spinning => Spinning
  end.
#[export] Instance outcome_fmap : FMap outcome := fun A B f m =>
  match m with
  | Done a => Done (f a)
  | Panicked => Panicked
  | Spinning => Spinning
  end.
#[export] Instance M_ret {S} : MRet (M S) := fun A a s => Done (a, s).
#[export] Instance M_bind {S} : MBind (M S) := fun A B f m s =>
  match m s with
  | Done (a, s') => f a s'
  | Panicked => Panicked
  | Spinning => Spinning
  end.

Definition get {S} : M S S := fun s => Done (s, s).
Definition gets {S A} (f : S -> A) : M S A := fun s => Done (f s, s).
Definition put {S} (s' : S) : M S unit := fun _ => Done (tt, s').
Definition modify {S} (f : S -> S) : M S unit := fun s => Done (tt, f s).
Definition panic {S A} : M S A := fun _ => Panicked.
Definition spin {S A} : M S A := fun _ => Spinning.
(** A pure computation that may panic, run in the state monad. *)
Definition call {S A} (o : outcome A) : M S A := fun s =>
  match o with
  | Done a => Done (a, s)
  | Panicked => Panicked
  | Spinning => Spinning
  end.
(** [Option::unwrap], and the indexing [m[&k]] of maps and slices. *)
Definition unwrap {A} (o : option A) : outcome A :=
  match o with
  | Some a => Done a
  | None => Panicked
  end.
(** [assert!]. *)
Definition assert_that (b : bool) : outcome unit :=
  if b then Done tt else Panicked.

Declare Scope binder_scope.
Delimit Scope binder_scope with binder.
Open Scope binder_scope.

(** Sequencing is stdpp's [x ← m; k] and [m ;; k].  The [?] operator: an
    [Err] ends the enclosing function. *)
Notation "x '←?' m ; k" :=
  (mbind (fun r => match r with Ok x => k | Err e => mret (Err e) end) m)
  (at level 20, m at level 100, k at level 200, only parsing) : binder_scope.


(** The [?] operator in a function that returns an [Option]. *)
Notation "x '←!' m ; k" :=
  (mbind (fun r => match r with Some x => k | None => mret None end) m)
  (at level 20, m at level 100, k at level 200, only parsing) : binder_scope.

(** ** Record updates

    [r <| f := v |>] is [r] with field [f] set to [v] and [r <| f ::= g |>] is
    [r] with [g] applied to field [f].  A record gives its [Settable] instance
    once; the setters are derived from it. *)
Class Settable (R : Type) := eta : R -> R.
Class Setter {R T : Type} (proj : R -> T) := set_field : (T -> T) -> R -> R.
Arguments set_field {R T} proj {_} _ _.

Ltac solve_setter :=
  lazymatch goal with
  | |- @Setter ?R ?T ?proj =>
      let e := constr:(_ : Settable R) in
      let f := fresh "f" in
      let r := fresh "r" in
      intros f r;
      let body := eval hnf in (e r) in
      let pat := eval pattern (proj r) in body in
      lazymatch pat with
      | ?g _ => let t := eval cbv beta in (g (f (proj r))) in exact t
      end
  end.

#[export] Hint Extern 1 (Setter _) => solve_setter : typeclass_instances.

Notation "r <| proj := v |>" := (set_field proj (fun _ => v) r)
  (at level 1, left associativity, proj at level 9) : binder_scope.
Notation "r <| proj ::= f |>" := (set_field proj f r)
  (at level 1, left associativity, proj at level 9) : binder_scope.

(** ** The build and the host

    [overflow_checks] tells a debug build, where integer overflow panics, from
    a release build, where it wraps.  [hash_order] is the order in which a
    [HashMap] happens to yield its keys, and [clock n] the [n]th value read
    from [Instant::now]. *)
Class Env := {
  overflow_checks : bool;
  hash_order : list Z -> list Z;
  clock : nat -> Z;
}.

(** What the standard library promises of the two: iteration visits every key
    once, and the clock is monotonic. *)
Class EnvLaws (env : Env) : Prop := {
  hash_order_perm : forall l, hash_order l ≡ₚ l;
  clock_mono : forall m n, (m <= n)%nat -> clock m <= clock n;
}.

(** A debug and a release build on a host that iterates in key order. *)
Definition debug_env : Env :=
  {| overflow_checks := true; hash_order := id; clock := Z.of_nat |}.
Definition release_env : Env :=
  {| overflow_checks := false; hash_order := id; clock := Z.of_nat |}.

#[export] Instance debug_env_laws : EnvLaws debug_env.
Proof. split; [done|]. simpl. lia. Qed.
#[export] Instance release_env_laws : EnvLaws release_env.
Proof. split; [done|]. simpl. lia. Qed.

(** ** Machine integers *)

Definition max_u (w : Z) : Z := 2 ^ w - 1.
Definition in_u (w v : Z) : Prop := 0 <= v < 2 ^ w.
Definition in_i (w v : Z) : Prop := - 2 ^ (w - 1) <= v < 2 ^ (w - 1).
(** [v as uN]. *)
Definition as_u (w v : Z) : Z := v mod 2 ^ w.
(** [v as iN] of an unsigned value. *)
Definition as_i (w v : Z) : Z :=
  let u := v mod 2 ^ w in if u <? 2 ^ (w - 1) then u else u - 2 ^ w.

Definition checked_add (w a b : Z) : option Z :=
  if a + b <? 2 ^ w then Some (a + b) else None.
Definition checked_sub (a b : Z) : option Z :=
  if b <=? a then Some (a - b) else None.
Definition checked_mul (w a b : Z) : option Z :=
  if a * b <? 2 ^ w then Some (a * b) else None.
Definition saturating_sub (a b : Z) : Z := Z.max 0 (a - b).

Lemma checked_add_Some w a b c : checked_add w a b = Some c <-> c = a + b /\ a + b < 2 ^ w.
Proof. unfold checked_add. destruct (Z.ltb_spec (a + b) (2 ^ w)); split; intros; destruct_and?; simplify_eq; auto; lia. Qed.

Lemma checked_add_None w a b : checked_add w a b = None <-> 2 ^ w <= a + b.
Proof. unfold checked_add. destruct (Z.ltb_spec (a + b) (2 ^ w)); split; intros; destruct_and?; simplify_eq; auto; lia. Qed.

Lemma checked_sub_Some a b c : checked_sub a b = Some c <-> c = a - b /\ b <= a.
Proof. unfold checked_sub. destruct (Z.leb_spec b a); split; intros; destruct_and?; simplify_eq; auto; lia. Qed.

Section arithmetic.
Context `{Env}.

(** The operators [+] and [-] on an unsigned type of [w] bits. *)
Definition uadd (w a b : Z) : outcome Z :=
  match checked_add w a b with
  | Some c => Done c
  | None => if overflow_checks then Panicked else Done ((a + b) mod 2 ^ w)
  end.

Definition umul (w a b : Z) : outcome Z :=
  if a * b <? 2 ^ w then Done (a * b)
  else if overflow_checks then Panicked else Done (as_u w (a * b)).
Definition usub (w a b : Z) : outcome Z :=
  match checked_sub a b with
  | Some c => Done c
  | None => if overflow_checks then Panicked else Done ((a - b) mod 2 ^ w)
  end.

Lemma uadd_small w a b : a + b < 2 ^ w -> uadd w a b = Done (a + b).
Proof. intros Hlt. unfold uadd, checked_add. by rewrite (proj2 (Z.ltb_lt _ _) Hlt). Qed.

Lemma umul_small w a b : a * b < 2 ^ w -> umul w a b = Done (a * b).
Proof. intros. unfold umul. by rewrite (proj2 (Z.ltb_lt _ _)). Qed.

Lemma usub_small w a b : b <= a -> usub w a b = Done (a - b).
Proof. intros Hle. unfold usub, checked_sub. by rewrite (proj2 (Z.leb_le _ _) Hle). Qed.

(** In a build with overflow checks, arithmetic that ends does not wrap. *)
Lemma uadd_checked w a b c :
  overflow_checks = true -> uadd w a b = Done c -> c = a + b /\ a + b < 2 ^ w.
Proof.
  unfold uadd. intros ->. destruct (checked_add w a b) eqn:Hc; [|done]. intros [= <-].
  by apply checked_add_Some.
Qed.

End arithmetic.

(** ** Bytes and little-endian words *)

Definition byte_of_Z (z : Z) : byte :=
  match Byte.of_N (Z.to_N (z mod 256)) with
  | Some b => b
  | None => x00
  end.
Definition byte_to_Z (b : byte) : Z := Z.of_N (Byte.to_N b).

#[export] Instance byte_eq_dec : EqDecision byte := Byte.byte_eq_dec.
#[export] Program Instance byte_countable : Countable byte := inj_countable Byte.to_N Byte.of_N _.
Next Obligation. intros. apply Byte.of_to_N. Qed.

(** [to_le_bytes] of an [n]-byte integer. *)
Fixpoint le_bytes (n : nat) (v : Z) : list byte :=
  match n with
  | O => []
  | S n => byte_of_Z v :: le_bytes n (v / 256)
  end.
(** [from_le_bytes]. *)
Fixpoint of_le_bytes (bs : list byte) : Z :=
  match bs with
  | [] => 0
  | b :: bs => byte_to_Z b + 256 * of_le_bytes bs
  end.

(** The slice [bytes[from..from + len]], [None] when it is out of range. *)
Definition slice {A} (bytes : list A) (from len : Z) : option (list A) :=
  if decide (0 <= from /\ 0 <= len /\ from + len <= Z.of_nat (length bytes))
  then Some (take (Z.to_nat len) (drop (Z.to_nat from) bytes))
  else None.

(** [bytes[from..from + data.len()].copy_from_slice(data)]. *)
Definition splice {A} (bytes : list A) (from : Z) (data : list A) : option (list A) :=
  if decide (0 <= from /\ from + Z.of_nat (length data) <= Z.of_nat (length bytes))
  then Some (take (Z.to_nat from) bytes ++ data ++
             drop (Z.to_nat from + length data) bytes)
  else None.

(** ** Ordered maps

    The keys of a [BTreeMap], in order. *)
Definition sorted_keys {A} (m : gmap Z A) : list Z :=
  merge_sort Z.le (map_to_list m).*1.

(** [position] and [rposition] on a queue, and removal by index. *)
Definition position {A} (p : A -> bool) (l : list A) : option nat :=
  fst <$> list_find (fun a => p a = true) l.
Definition rposition {A} (p : A -> bool) (l : list A) : option nat :=
  (fun i => length l - 1 - i)%nat <$> position p (rev l).

(** [for x in list { body }]. *)
Fixpoint for_each {S A} (body : A -> M S unit) (l : list A) : M S unit :=
  match l with
  | [] => mret tt
  | a :: l => body a;; for_each body l
  end.

Lemma unwrap_Done {A} (o : option A) a : unwrap o = Done a <-> o = Some a.
Proof. destruct o; simpl; naive_solver. Qed.

(** ** Computations that do not spin *)

Class NoSpin {A} (o : outcome A) : Prop := no_spin : o <> Spinning.

#[export] Instance no_spin_done {A} (a : A) : NoSpin (Done a).
Proof. done. Qed.
#[export] Instance no_spin_ret {A} (a : A) : NoSpin (mret a).
Proof. done. Qed.
#[export] Instance no_spin_panicked {A} : NoSpin (@Panicked A).
Proof. done. Qed.
#[export] Instance no_spin_unwrap {A} (o : option A) : NoSpin (unwrap o).
Proof. by destruct o. Qed.
#[export] Instance no_spin_bind {A B} (m : outcome A) (f : A -> outcome B) :
  NoSpin m -> (forall a, NoSpin (f a)) -> NoSpin (m ≫= f).
Proof. intros Hm Hf. destruct m; [apply Hf|done|done]. Qed.
#[export] Instance no_spin_uadd `{Env} w a b : NoSpin (uadd w a b).
Proof. unfold uadd, NoSpin. destruct (checked_add w a b), overflow_checks; done. Qed.
#[export] Instance no_spin_usub `{Env} w a b : NoSpin (usub w a b).
Proof. unfold usub, NoSpin. destruct (checked_sub a b), overflow_checks; done. Qed.

(** Case analysis in a computation. *)
#[export] Hint Extern 3 (NoSpin (match ?x with _ => _ end)) => destruct x : typeclass_instances.

(** ** Weakest preconditions

    [wpx E T m Q s]: from [s], [m] ends in a state and with a value that satisfy
    [Q], or panics and [E] holds, or spins and [T] holds.  [wp E] rules spinning
    out: with [E := False] it is total correctness, with [E := True] a panic is
    allowed. *)
Definition wpx {S A} (E T : Prop) (m : M S A) (Q : A -> S -> Prop) (s : S) : Prop :=
  match m s with
  | Done (a, s') => Q a s'
  | Panicked => E
  | Spinning => T
  end.

Abbreviation wp E := (wpx E False).

Section wp_rules.
Context {S : Type} (E T : Prop).
Implicit Types s : S.

Lemma wp_ret {A} (a : A) Q s : Q a s -> wpx E T (mret a) Q s.
Proof. done. Qed.

Lemma wp_bind {A B} (m : M S A) (f : A -> M S B) Q s :
  wpx E T m (fun a => wpx E T (f a) Q) s -> wpx E T (m ≫= f) Q s.
Proof. unfold wpx, mbind, M_bind. by destruct (m s) as [[a s']| |]. Qed.

Lemma wp_get Q s : Q s s -> wpx E T get Q s.
Proof. done. Qed.
Lemma wp_gets {A} (f : S -> A) Q s : Q (f s) s -> wpx E T (gets f) Q s.
Proof. done. Qed.
Lemma wp_put s' Q s : Q tt s' -> wpx E T (put s') Q s.
Proof. done. Qed.
Lemma wp_modify f Q s : Q tt (f s) -> wpx E T (modify f) Q s.
Proof. done. Qed.
Lemma wp_panic {A} (Q : A -> S -> Prop) s : E -> wpx E T panic Q s.
Proof. done. Qed.
Lemma wp_spin {A} (Q : A -> S -> Prop) s : T -> wpx E T spin Q s.
Proof. done. Qed.

Lemma wp_call {A} (o : outcome A) Q s :
  NoSpin o -> (o = Panicked -> E) -> (forall a, o = Done a -> Q a s) -> wpx E T (call o) Q s.
Proof. intros Hns HP HQ. unfold wpx, call. destruct o; [by apply HQ|by apply HP|by exfalso]. Qed.

Lemma wp_mono {A} (m : M S A) (Q Q' : A -> S -> Prop) s :
  wpx E T m Q s -> (forall a s', Q a s' -> Q' a s') -> wpx E T m Q' s.
Proof. unfold wpx. intros HQ HQQ'. destruct (m s) as [[a s']| |]; auto. Qed.

Lemma wp_and {A} (m : M S A) (Q Q' : A -> S -> Prop) s :
  wpx E T m Q s -> wpx E T m Q' s -> wpx E T m (fun a s' => Q a s' /\ Q' a s') s.
Proof. unfold wpx. destruct (m s) as [[a s']| |]; auto. Qed.

Lemma wp_done {A} (m : M S A) Q s a s' : m s = Done (a, s') -> wpx E T m Q s -> Q a s'.
Proof. unfold wpx. by intros ->. Qed.

(** The faults of the rule may be weakened. *)
Lemma wp_eq {A} (m : M S A) (Q : A -> S -> Prop) s a s' : m s = Done (a, s') -> Q a s' -> wpx E T m Q s.
Proof. intros Hm HQ. unfold wpx. by rewrite Hm. Qed.

Lemma wp_weaken {A} (E' T' : Prop) (m : M S A) (Q Q' : A -> S -> Prop) s :
  wpx E' T' m Q s -> (E' -> E) -> (T' -> T) -> (forall a s', Q a s' -> Q' a s') -> wpx E T m Q' s.
Proof. unfold wpx. intros HQ ? ? HQQ'. destruct (m s) as [[a s']| |]; auto. Qed.

End wp_rules.

(** What holds of every result holds next to what is proved with
    termination. *)
Lemma wp_partial {S A} E (m : M S A) (Q Q' : A -> S -> Prop) s :
  wp E m Q s -> wpx E True m Q' s -> wp E m (fun a s' => Q a s' /\ Q' a s') s.
Proof. unfold wpx. destruct (m s) as [[a s']| |]; auto. Qed.

Lemma wp_any {S A} (m : M S A) s : wpx True True m (fun _ _ => True) s.
Proof. unfold wpx. by destruct (m s) as [[a s']| |]. Qed.

Lemma wp_no_spin {S A} E (m : M S A) Q s : wp E m Q s -> m s <> Spinning.
Proof. unfold wpx. by destruct (m s). Qed.

(** [gives m P]: every result of [m] satisfies [P]. *)
Definition gives {S A} (m : M S A) (P : A -> Prop) : Prop := forall s, wpx True True m (fun x _ => P x) s.

Lemma gives_ret {S A} (x : A) (P : A -> Prop) : P x -> gives (S := S) (mret x) P.
Proof. intros Hx s. by apply wp_ret. Qed.

Lemma gives_then {S A B} (m : M S A) (f : A -> M S B) P : (forall x, gives (f x) P) -> gives (m ≫= f) P.
Proof. intros Hf s. apply wp_bind. eapply wp_mono; [apply wp_any|]. intros x s' _. apply Hf. Qed.

Lemma gives_bind {S A B} (m : M S A) (f : A -> M S B) P Q :
  gives m P -> (forall x, P x -> gives (f x) Q) -> gives (m ≫= f) Q.
Proof. intros Hm Hf s. apply wp_bind. eapply wp_mono; [apply Hm|]. intros x s' Hx. by apply Hf. Qed.

Lemma gives_call {S A B} (o : outcome A) (f : A -> M S B) P :
  (forall x, o = Done x -> gives (f x) P) -> gives (call o ≫= f) P.
Proof. intros Hf. apply (gives_bind _ _ (fun x => o = Done x)); [|done]. intros s. unfold wpx, call. by destruct o. Qed.

Lemma gives_panic {S A} (P : A -> Prop) : gives (S := S) panic P.
Proof. by intros s. Qed.

Lemma gives_Done {S A} (m : M S A) P s x s' : gives m P -> m s = Done (x, s') -> P x.
Proof. intros Hm Hr. specialize (Hm s). unfold wpx in Hm. by rewrite Hr in Hm. Qed.

(** ** Tactics *)

Ltac gives_step :=
  lazymatch goal with
  | |- gives (mbind _ (call _)) _ => apply gives_call; intros ? ?
  | |- gives (mbind _ _) _ => apply gives_then; intros ?
  | |- gives (match ?x with _ => _ end) _ => destruct x eqn:?
  | |- gives (let _ := _ in _) _ => cbv zeta
  | |- gives (mret _) _ => apply gives_ret
  | |- gives panic _ => apply gives_panic
  end.


(** One step of symbolic execution of the computation under [wpx]. *)
Ltac wp_step :=
  lazymatch goal with
  | |- wpx _ _ (mbind _ _) _ _ => apply wp_bind
  | |- wpx _ _ (mret _) _ _ => apply wp_ret
  | |- wpx _ _ get _ _ => apply wp_get
  | |- wpx _ _ (gets _) _ _ => apply wp_gets
  | |- wpx _ _ (put _) _ _ => apply wp_put
  | |- wpx _ _ (modify _) _ _ => apply wp_modify
  | |- wpx _ _ panic _ _ => apply wp_panic; exact I
  | |- wpx True _ (call _) _ _ => apply wp_call; [apply _|done|intros ? ?]
  | |- wpx _ _ (let _ := _ in _) _ _ => cbv zeta
  | |- wpx _ _ (match ?x with _ => _ end) _ _ => destruct x eqn:?
  end.

(** Membership in an explicit list prefix. *)
Ltac in_list :=
  first [ assumption | apply list_elem_of_here | apply list_elem_of_further; in_list ].

(** Adds a fact unless it is already in the context. *)
Ltac learn pf :=
  let P := type of pf in
  lazymatch goal with
  | _ : P |- _ => fail
  | _ => pose proof pf
  end.

(** ** Facts on bytes and slices *)

(** A boolean fact checked below a bound. *)
Lemma forall_below n (P : Z -> bool) x : forallb P (seqZ 0 n) = true -> 0 <= x < n -> P x = true.
Proof.
  intros Hall Hx. rewrite forallb_forall in Hall. apply Hall, list_elem_of_In, elem_of_seqZ. lia.
Qed.

(** Bits put above others. *)
Lemma lor_add k a b n : a = k * 2 ^ n -> 0 <= n -> 0 <= b < 2 ^ n -> Z.lor a b = a + b.
Proof.
  intros -> Hn Hb. symmetry. apply Z.add_nocarry_lor, Z.bits_inj'. intros i Hi.
  rewrite Z.land_spec, Z.bits_0, <- Z.shiftl_mul_pow2 by done.
  destruct (decide (i < n)); [by rewrite Z.shiftl_spec_low|].
  rewrite (Z.bounded_iff_bits_nonneg n b) in Hb by lia. rewrite (proj2 Hb i) by lia. apply andb_false_r.
Qed.

Lemma byte_to_of_Z z : byte_to_Z (byte_of_Z z) = z mod 256.
Proof.
  unfold byte_to_Z, byte_of_Z.
  pose proof (Z.mod_pos_bound z 256 ltac:(lia)) as Hb.
  destruct (Byte.of_N (Z.to_N (z mod 256))) as [b|] eqn:Hof.
  - apply Byte.to_of_N in Hof. rewrite Hof. lia.
  - apply Byte.of_N_None_iff in Hof. lia.
Qed.

Lemma byte_of_to_Z b : byte_of_Z (byte_to_Z b) = b.
Proof.
  unfold byte_to_Z, byte_of_Z.
  pose proof (Byte.to_N_bounded b).
  rewrite Z.mod_small by lia. by rewrite N2Z.id, Byte.of_to_N.
Qed.

Lemma byte_to_Z_bound b : 0 <= byte_to_Z b < 256.
Proof. unfold byte_to_Z. pose proof (Byte.to_N_bounded b). lia. Qed.

Lemma length_le_bytes n v : length (le_bytes n v) = n.
Proof. revert v. induction n; simpl; auto. Qed.

Lemma of_le_bytes_le_bytes n v : of_le_bytes (le_bytes n v) = v mod 256 ^ Z.of_nat n.
Proof.
  revert v. induction n as [|n IH]; intros v; simpl.
  - by rewrite Z.mod_1_r.
  - rewrite IH, byte_to_of_Z, Nat2Z.inj_succ, Z.pow_succ_r by lia.
    by rewrite Z.rem_mul_r by lia.
Qed.

Lemma of_le_bytes_bound bs : 0 <= of_le_bytes bs < 256 ^ Z.of_nat (length bs).
Proof.
  induction bs as [|b bs IH]; simpl length; simpl of_le_bytes; [lia|].
  pose proof (byte_to_Z_bound b). rewrite Nat2Z.inj_succ, Z.pow_succ_r by lia. lia.
Qed.

Lemma le_bytes_of_le_bytes bs : le_bytes (length bs) (of_le_bytes bs) = bs.
Proof.
  induction bs as [|b bs IH]; simpl; [done|].
  pose proof (byte_to_Z_bound b).
  rewrite (Z.add_comm (byte_to_Z b)), (Z.mul_comm 256), Z.div_add_l, (Z.div_small (byte_to_Z b)) by lia.
  rewrite Z.add_0_r, IH. f_equal.
  rewrite <- (byte_of_to_Z b) at 2. unfold byte_of_Z.
  by rewrite Z.add_comm, Z.mod_add by lia.
Qed.

Lemma as_i_bound w v : 0 < w -> in_i w (as_i w v).
Proof.
  intros Hw. assert (2 ^ w = 2 * 2 ^ (w - 1)) as Hp.
  { rewrite <- Z.pow_succ_r by lia. f_equal. lia. }
  pose proof (Z.mod_pos_bound v (2 ^ w) ltac:(lia)). unfold as_i, in_i. case_match; lia.
Qed.

Lemma as_i_of_mod w v : 0 < w -> in_i w v -> as_i w (v mod 2 ^ w) = v.
Proof.
  intros Hw [Hlo Hhi]. unfold as_i. rewrite Z.mod_mod by lia.
  assert (2 ^ w = 2 * 2 ^ (w - 1)) as Hp.
  { rewrite <- Z.pow_succ_r by lia. f_equal. lia. }
  destruct (decide (0 <= v)).
  - rewrite Z.mod_small by lia. destruct (Z.ltb_spec v (2 ^ (w - 1))); lia.
  - replace (v mod 2 ^ w) with (v + 2 ^ w).
    + destruct (Z.ltb_spec (v + 2 ^ w) (2 ^ (w - 1))); lia.
    + apply (Z.mod_unique _ _ (-1)); lia.
Qed.

Lemma as_i_small w v : 0 < w -> 0 <= v < 2 ^ (w - 1) -> as_i w v = v.
Proof.
  intros Hw Hv. assert (2 ^ w = 2 * 2 ^ (w - 1)) as Hp by (rewrite <- Z.pow_succ_r by lia; f_equal; lia).
  unfold as_i. rewrite Z.mod_small by lia. by rewrite (proj2 (Z.ltb_lt _ _)) by lia.
Qed.

Lemma length_slice {A} (l r : list A) from len :
  slice l from len = Some r -> Z.of_nat (length r) = len.
Proof.
  unfold slice. case_decide; [|done]. intros [= <-].
  rewrite length_take, length_drop. lia.
Qed.

Lemma slice_is_Some {A} (l : list A) from len :
  0 <= from -> 0 <= len -> from + len <= Z.of_nat (length l) -> is_Some (slice l from len).
Proof. intros. unfold slice. rewrite decide_True by lia. eauto. Qed.

Lemma slice_app {A} (l1 l2 l3 : list A) from len :
  from = Z.of_nat (length l1) -> len = Z.of_nat (length l2) -> slice (l1 ++ l2 ++ l3) from len = Some l2.
Proof.
  intros -> ->. unfold slice. rewrite decide_True by (rewrite !length_app; lia).
  by rewrite !Nat2Z.id, drop_app_length, take_app_length.
Qed.

Lemma length_splice {A} (l r data : list A) from :
  splice l from data = Some r -> length r = length l.
Proof.
  unfold splice. case_decide; [|done]. intros [= <-].
  rewrite !length_app, length_take, length_drop. lia.
Qed.

Lemma splice_is_Some {A} (l data : list A) from :
  0 <= from -> from + Z.of_nat (length data) <= Z.of_nat (length l) ->
  is_Some (splice l from data).
Proof. intros. unfold splice. rewrite decide_True by lia. eauto. Qed.

(** Reading back what was just written. *)
Lemma slice_splice_eq {A} (l r data : list A) from :
  splice l from data = Some r -> slice r from (Z.of_nat (length data)) = Some data.
Proof.
  intros Hs. pose proof (length_splice _ _ _ _ Hs) as Hlen.
  unfold splice in Hs. case_decide as Hd; [|done]. injection Hs as Hr.
  unfold slice. rewrite decide_True by lia. f_equal.
  rewrite <- Hr, Nat2Z.id, drop_app_ge; rewrite ?length_take; [|lia].
  replace (Z.to_nat from - Z.to_nat from `min` length l)%nat with 0%nat by lia.
  by rewrite drop_0, take_app_length.
Qed.

(** A write leaves the bytes outside its range as they were. *)
Lemma slice_splice_ne {A} (l r data : list A) from from' len :
  splice l from data = Some r ->
  from' + len <= from \/ from + Z.of_nat (length data) <= from' ->
  slice r from' len = slice l from' len.
Proof.
  intros Hs Hdis. pose proof (length_splice _ _ _ _ Hs) as Hlen.
  unfold splice in Hs. case_decide as Hd; [|done]. injection Hs as Hr.
  unfold slice. rewrite Hlen. case_decide as Hd'; [|done]. f_equal.
  apply list_eq. intros i. rewrite <- Hr.
  destruct (decide (i < Z.to_nat len)%nat) as [Hi|Hi].
  - rewrite !lookup_take_lt, !lookup_drop by done.
    destruct Hdis.
    + rewrite lookup_app_l by (rewrite length_take; lia). by rewrite lookup_take_lt by lia.
    + rewrite lookup_app_r, lookup_app_r by (rewrite ?length_take; lia).
      rewrite lookup_drop, length_take. f_equal. lia.
  - rewrite !lookup_take_ge by lia. done.
Qed.

(** ** Facts on maps *)

Lemma alter_Some {A} (f : A -> A) (m : gmap Z A) i x :
  m !! i = Some x -> alter f i m = <[i := f x]> m.
Proof.
  intros Hi. apply map_eq. intros j. destruct (decide (i = j)) as [->|].
  - by rewrite lookup_alter_eq, lookup_insert_eq, Hi.
  - by rewrite lookup_alter_ne, lookup_insert_ne.
Qed.

Lemma alter_None {A} (f : A -> A) (m : gmap Z A) i : m !! i = None -> alter f i m = m.
Proof.
  intros Hi. apply map_eq. intros j. destruct (decide (i = j)) as [->|].
  - by rewrite lookup_alter_eq, Hi.
  - by rewrite lookup_alter_ne.
Qed.

Lemma position_found {A} (p : A -> bool) l i : position p l = Some i -> exists x, l !! i = Some x /\ p x = true.
Proof.
  unfold position. intros (iy & Hf & ->)%fmap_Some. destruct iy as [j y].
  apply list_find_Some in Hf as (Hj & Hp & _). eauto.
Qed.

Lemma position_lt {A} (p : A -> bool) l i : position p l = Some i -> (i < length l)%nat.
Proof. intros (x & Hx & _)%position_found. by apply lookup_lt_Some in Hx. Qed.

Lemma size_delete_lt {A} (m : gmap Z A) i x : m !! i = Some x -> (size (delete i m) < size m)%nat.
Proof.
  intros Hi. rewrite <- (insert_delete_id m i x Hi) at 2.
  rewrite map_size_insert_None by apply lookup_delete_eq. lia.
Qed.

(** Counting the values that satisfy a predicate. *)
Definition count {A} (P : A -> bool) (m : gmap Z A) : nat :=
  size (filter (fun kv : Z * A => P kv.2 = true) m).

Lemma count_le_size {A} (P : A -> bool) (m : gmap Z A) : (count P m <= size m)%nat.
Proof.
  unfold count. rewrite <- !size_dom. apply subseteq_size, subseteq_dom, map_filter_subseteq.
Qed.

Lemma count_insert {A} (P : A -> bool) (m : gmap Z A) i x :
  m !! i = None -> count P (<[i := x]> m) = ((if P x then 1 else 0) + count P m)%nat.
Proof.
  intros Hi. unfold count. destruct (P x) eqn:HP.
  - rewrite map_filter_insert_True by done. rewrite map_size_insert_None; [done|].
    apply map_lookup_filter_None. by left.
  - rewrite map_filter_insert_False by (simpl; congruence). by rewrite delete_id.
Qed.

Lemma count_alter {A} (P : A -> bool) f (m : gmap Z A) i x :
  m !! i = Some x ->
  (count P (alter f i m) + (if P x then 1 else 0) = count P m + (if P (f x) then 1 else 0))%nat.
Proof.
  intros Hi. rewrite (alter_Some _ _ _ _ Hi).
  rewrite <- (insert_delete_id m i x Hi), insert_insert, decide_True by done.
  rewrite !count_insert by apply lookup_delete_eq. lia.
Qed.

(** Looking up through an update: the other entries, or the updated one. *)
Lemma lookup_alter_cases {A} (f : A -> A) (m : gmap Z A) i j x :
  alter f i m !! j = Some x ->
  (i <> j /\ m !! j = Some x) \/ (i = j /\ exists y, m !! j = Some y /\ x = f y).
Proof.
  rewrite lookup_alter_Some. intros [(-> & y & Hy & ->)|[Hne Hj]]; [right|left]; eauto.
Qed.

Lemma elem_of_sorted_keys {A} (m : gmap Z A) k : k ∈ sorted_keys m <-> is_Some (m !! k).
Proof.
  unfold sorted_keys. rewrite merge_sort_Permutation, list_elem_of_fmap. split.
  - intros [[k' a] [-> Hin]]. apply elem_of_map_to_list in Hin. eauto.
  - intros [a Ha]. exists (k, a). split; [done|]. by apply elem_of_map_to_list.
Qed.

Lemma NoDup_sorted_keys {A} (m : gmap Z A) : NoDup (sorted_keys m).
Proof. unfold sorted_keys. rewrite merge_sort_Permutation. apply NoDup_fst_map_to_list. Qed.

Lemma Sorted_sorted_keys {A} (m : gmap Z A) : StronglySorted Z.le (sorted_keys m).
Proof. apply StronglySorted_merge_sort; apply _. Qed.

Lemma StronglySorted_filter {A} (R : relation A) (P : A -> Prop) `{!forall x, Decision (P x)} l :
  StronglySorted R l -> StronglySorted R (filter P l).
Proof.
  induction 1 as [|x l _ IH Hx]; [constructor|]. rewrite filter_cons. case_decide; [|done].
  constructor; [done|]. apply Forall_forall. intros y [_ Hy]%list_elem_of_filter.
  by eapply Forall_forall in Hx.
Qed.

#[global] Arguments le_bytes : simpl never.
#[global] Arguments of_le_bytes : simpl never.
#[global] Arguments slice : simpl never.
#[global] Arguments splice : simpl never.
#[global] Arguments uadd : simpl never.
#[global] Arguments usub : simpl never.
#[global] Arguments sorted_keys : simpl never.
