(* ===== verification/Text.v ===== *)
(** Unicode text as the standard library of Rust handles it: a [String] is its
    list of code points, and the conversions to and from UTF-16 and UTF-8. *)

From S2P Require Import Prelude.
From Stdlib Require Import ZArith Lia.
From Stdlib Require Import Strings.Byte.
From stdpp Require Import base numbers list.

Open Scope Z_scope.

(** A Unicode scalar value. *)
Definition is_scalar (c : Z) : Prop := 0 <= c < 0xd800 \/ 0xe000 <= c < 0x110000.

(** [str::encode_utf16] on a list of code points. *)
Definition encode_utf16 (name : list Z) : list Z :=
  c ← name;
  if c <? 0x10000 then [c] else [0xd800 + (c - 0x10000) / 0x400; 0xdc00 + (c - 0x10000) mod 0x400].

(** [String::from_utf16_lossy]. *)
Fixpoint utf16_lossy (units : list Z) : list Z :=
  match units with
  | [] => []
  | u :: rest =>
      if (0xd800 <=? u) && (u <? 0xdc00) then
        match rest with
        | v :: rest' =>
            if (0xdc00 <=? v) && (v <? 0xe000)
            then (0x10000 + (u - 0xd800) * 0x400 + (v - 0xdc00)) :: utf16_lossy rest'
            else 0xfffd :: utf16_lossy rest
        | [] => [0xfffd]
        end
      else if (0xdc00 <=? u) && (u <? 0xe000) then 0xfffd :: utf16_lossy rest
      else u :: utf16_lossy rest
  end.

(** [String::from_utf16]: [None] on an unpaired surrogate. *)
Fixpoint from_utf16 (units : list Z) : option (list Z) :=
  match units with
  | [] => Some []
  | u :: rest =>
      if (0xd800 <=? u) && (u <? 0xdc00) then
        match rest with
        | v :: rest' =>
            if (0xdc00 <=? v) && (v <? 0xe000)
            then cons (0x10000 + (u - 0xd800) * 0x400 + (v - 0xdc00)) <$> from_utf16 rest'
            else None
        | [] => None
        end
      else if (0xdc00 <=? u) && (u <? 0xe000) then None
      else cons u <$> from_utf16 rest
  end.

(** [char::encode_utf8]. *)
Definition encode_utf8 (c : Z) : list byte :=
  byte_of_Z <$>
    (if c <? 0x80 then [c]
     else if c <? 0x800 then [0xc0 + c / 64; 0x80 + c mod 64]
     else if c <? 0x10000 then [0xe0 + c / 4096; 0x80 + c / 64 mod 64; 0x80 + c mod 64]
     else [0xf0 + c / 262144; 0x80 + c / 4096 mod 64; 0x80 + c / 64 mod 64; 0x80 + c mod 64]).

(** [String::from_utf8_lossy]: a byte sequence that is not UTF-8 becomes one
    U+FFFD for each longest prefix of a character. *)
Definition is_cont (b : byte) : bool := Z.land (byte_to_Z b) 0xc0 =? 0x80.
Definition between (lo hi : Z) (b : byte) : bool := (lo <=? byte_to_Z b) && (byte_to_Z b <=? hi).

Definition second3 (b0 b1 : byte) : bool :=
  (between 0xe0 0xe0 b0 && between 0xa0 0xbf b1) || (between 0xe1 0xec b0 && between 0x80 0xbf b1) ||
  (between 0xed 0xed b0 && between 0x80 0x9f b1) || (between 0xee 0xef b0 && between 0x80 0xbf b1).
Definition second4 (b0 b1 : byte) : bool :=
  (between 0xf0 0xf0 b0 && between 0x90 0xbf b1) || (between 0xf1 0xf3 b0 && between 0x80 0xbf b1) ||
  (between 0xf4 0xf4 b0 && between 0x80 0x8f b1).

Definition bits (b : byte) (n : Z) : Z := byte_to_Z b mod 2 ^ n.

Fixpoint utf8_lossy (bytes : list byte) : list Z :=
  match bytes with
  | [] => []
  | b0 :: rest =>
      if between 0 0x7f b0 then byte_to_Z b0 :: utf8_lossy rest
      else if between 0xc2 0xdf b0 then
        match rest with
        | b1 :: rest' => if is_cont b1 then bits b0 5 * 64 + bits b1 6 :: utf8_lossy rest' else 0xfffd :: utf8_lossy rest
        | [] => [0xfffd]
        end
      else if between 0xe0 0xef b0 then
        match rest with
        | b1 :: rest1 =>
            if second3 b0 b1 then
              match rest1 with
              | b2 :: rest2 =>
                  if is_cont b2 then bits b0 4 * 4096 + bits b1 6 * 64 + bits b2 6 :: utf8_lossy rest2
                  else 0xfffd :: utf8_lossy rest1
              | [] => [0xfffd]
              end
            else 0xfffd :: utf8_lossy rest
        | [] => [0xfffd]
        end
      else if between 0xf0 0xf4 b0 then
        match rest with
        | b1 :: rest1 =>
            if second4 b0 b1 then
              match rest1 with
              | b2 :: rest2 =>
                  if is_cont b2 then
                    match rest2 with
                    | b3 :: rest3 =>
                        if is_cont b3
                        then bits b0 3 * 262144 + bits b1 6 * 4096 + bits b2 6 * 64 + bits b3 6 :: utf8_lossy rest3
                        else 0xfffd :: utf8_lossy rest2
                    | [] => [0xfffd]
                    end
                  else 0xfffd :: utf8_lossy rest1
              | [] => [0xfffd]
              end
            else 0xfffd :: utf8_lossy rest
        | [] => [0xfffd]
        end
      else 0xfffd :: utf8_lossy rest
  end.

(** The bytes are UTF-8. *)
Fixpoint is_utf8 (bytes : list byte) : bool :=
  match bytes with
  | [] => true
  | b0 :: rest =>
      if between 0 0x7f b0 then is_utf8 rest
      else if between 0xc2 0xdf b0 then
        match rest with b1 :: rest => is_cont b1 && is_utf8 rest | _ => false end
      else if between 0xe0 0xef b0 then
        match rest with b1 :: b2 :: rest => second3 b0 b1 && is_cont b2 && is_utf8 rest | _ => false end
      else if between 0xf0 0xf4 b0 then
        match rest with b1 :: b2 :: b3 :: rest => second4 b0 b1 && is_cont b2 && is_cont b3 && is_utf8 rest | _ => false end
      else false
  end.

(** [str::from_utf8]. *)
Definition from_utf8 (bytes : list byte) : option (list byte) := if is_utf8 bytes then Some bytes else None.

(** ASCII text is itself. *)
Definition is_ascii (b : byte) : bool := between 0 0x7f b.

Lemma utf8_lossy_ascii bytes : forallb is_ascii bytes = true -> utf8_lossy bytes = byte_to_Z <$> bytes.
Proof.
  induction bytes as [|b bytes IH]; [done|]. intros [Hb Hs]%andb_true_iff. cbn [utf8_lossy].
  unfold is_ascii in Hb. rewrite Hb, IH by done. done.
Qed.

Lemma utf16_lossy_scalar c rest :
  is_scalar c -> c < 0x10000 -> utf16_lossy (c :: rest) = c :: utf16_lossy rest.
Proof.
  intros Hc Hlt. unfold is_scalar in Hc. cbn [utf16_lossy].
  replace ((0xd800 <=? c) && (c <? 0xdc00)) with false by lia.
  by replace ((0xdc00 <=? c) && (c <? 0xe000)) with false by lia.
Qed.

Lemma utf16_lossy_pair u v rest :
  0xd800 <= u < 0xdc00 -> 0xdc00 <= v < 0xe000 ->
  utf16_lossy (u :: v :: rest) = 0x10000 + (u - 0xd800) * 0x400 + (v - 0xdc00) :: utf16_lossy rest.
Proof.
  intros Hu Hv. cbn [utf16_lossy]. replace ((0xd800 <=? u) && (u <? 0xdc00)) with true by lia.
  by replace ((0xdc00 <=? v) && (v <? 0xe000)) with true by lia.
Qed.

(** The two halves of a code point past the basic plane. *)
Lemma surrogate_halves c :
  0x10000 <= c < 0x110000 ->
  0 <= (c - 0x10000) / 0x400 < 0x400 /\ 0 <= (c - 0x10000) mod 0x400 < 0x400 /\
  c = 0x10000 + (c - 0x10000) / 0x400 * 0x400 + (c - 0x10000) mod 0x400.
Proof.
  intros Hc. pose proof (Z.mod_pos_bound (c - 0x10000) 0x400 ltac:(lia)).
  pose proof (Z.div_mod (c - 0x10000) 0x400 ltac:(lia)).
  split_and!; [apply Z.div_pos|apply Z.div_lt_upper_bound|..]; lia.
Qed.

Lemma utf16_lossy_encode name : Forall is_scalar name -> utf16_lossy (encode_utf16 name) = name.
Proof.
  unfold encode_utf16. induction 1 as [|c name Hc _ IH]; [done|]. cbn [mbind list_bind].
  destruct (Z.ltb_spec c 0x10000) as [Hlt|Hge]; cbn [app].
  - rewrite utf16_lossy_scalar by done. f_equal. exact IH.
  - destruct Hc as [?|Hc]; [lia|]. destruct (surrogate_halves c ltac:(lia)) as (? & ? & ?).
    rewrite utf16_lossy_pair by lia. f_equal; [lia|exact IH].
Qed.

Lemma encode_utf16_units name : Forall is_scalar name -> Forall (in_u 16) (encode_utf16 name).
Proof.
  unfold encode_utf16, in_u. induction 1 as [|c name Hc _ IH]; [constructor|]. cbn [mbind list_bind].
  apply Forall_app. split; [|exact IH]. destruct (Z.ltb_spec c 0x10000) as [Hlt|Hge].
  - apply Forall_singleton. destruct Hc; lia.
  - destruct Hc as [?|Hc]; [lia|]. destruct (surrogate_halves c ltac:(lia)) as (? & ? & ?).
    repeat constructor; lia.
Qed.

Lemma from_utf16_scalar c rest :
  is_scalar c -> c < 0x10000 -> from_utf16 (c :: rest) = cons c <$> from_utf16 rest.
Proof.
  intros Hc Hlt. unfold is_scalar in Hc. cbn [from_utf16].
  replace ((0xd800 <=? c) && (c <? 0xdc00)) with false by lia.
  by replace ((0xdc00 <=? c) && (c <? 0xe000)) with false by lia.
Qed.

Lemma from_utf16_encode name : Forall is_scalar name -> from_utf16 (encode_utf16 name) = Some name.
Proof.
  unfold encode_utf16. induction 1 as [|c name Hc _ IH]; [done|]. cbn [mbind list_bind].
  destruct (Z.ltb_spec c 0x10000) as [Hlt|Hge]; cbn [app].
  - rewrite from_utf16_scalar by done. by rewrite IH.
  - destruct Hc as [?|Hc]; [lia|]. destruct (surrogate_halves c ltac:(lia)) as (? & ? & ?).
    cbn [from_utf16]. set (u := 0xd800 + _) in *. set (v := 0xdc00 + _) in *.
    replace ((0xd800 <=? u) && (u <? 0xdc00)) with true by lia.
    replace ((0xdc00 <=? v) && (v <? 0xe000)) with true by lia.
    rewrite IH. simpl. do 2 f_equal. lia.
Qed.
