(* ===== verification/Bytes.v ===== *)
(** Bytes in memory: parts that are read and overwritten, strings that end with
    a NUL, sizes rounded up to words. *)

From Stdlib Require Import ZArith Lia.
From Stdlib Require Import Strings.Byte.
From stdpp Require Import base numbers list.
From S2P Require Import Prelude.

Open Scope Z_scope.

Definition zlen {A} (l : list A) : Z := Z.of_nat (length l).

(** [(size + 3) & !3]. *)
Definition align4 (size : Z) : Z := Z.ldiff (size + 3) 3.

(** The bytes up to the first NUL. *)
Fixpoint c_string (bytes : list byte) : list byte :=
  match bytes with
  | [] => []
  | b :: bytes => if decide (b = x00) then [] else b :: c_string bytes
  end.

Definition no_nul (name : list byte) : Prop := x00 ∉ name.

(** ** Parts of slices *)

Lemma slice_Some {A} (l : list A) from n e :
  slice l from n = Some e <->
  0 <= from /\ 0 <= n /\ from + n <= zlen l /\ e = take (Z.to_nat n) (drop (Z.to_nat from) l).
Proof.
  unfold slice, zlen. case_decide as Hd; split; [intros [= <-]; tauto|intros (_ & _ & _ & ->); done|done|tauto].
Qed.

Lemma slice_sub {A} (l e : list A) a n k m :
  slice l a n = Some e -> 0 <= k -> 0 <= m -> k + m <= n -> slice l (a + k) m = slice e k m.
Proof.
  intros Hs Hk Hm Hkm. apply length_slice in Hs as Hlen. apply slice_Some in Hs as (Ha & Hn & Hl & ->).
  unfold slice. rewrite !decide_True by (unfold zlen in *; lia). f_equal.
  rewrite skipn_firstn_comm, take_take, drop_drop. f_equal; [lia|]. f_equal. lia.
Qed.

Lemma lookup_slice {A} (l e : list A) from n (i : nat) :
  slice l from n = Some e -> (Z.of_nat i < n) -> e !! i = l !! (Z.to_nat from + i)%nat.
Proof.
  intros (Ha & Hn & Hl & ->)%slice_Some Hi. rewrite lookup_take_lt, lookup_drop by lia. done.
Qed.

Lemma lookup_splice {A} (l l' d : list A) from (i : nat) :
  splice l from d = Some l' ->
  l' !! i = if decide (from <= Z.of_nat i < from + zlen d) then d !! (i - Z.to_nat from)%nat else l !! i.
Proof.
  unfold splice, zlen. case_decide as Hd; [|done]. intros [= <-]. case_decide as Hi.
  - rewrite lookup_app_r, lookup_app_l by (rewrite length_take; lia). f_equal. rewrite length_take. lia.
  - destruct (decide (Z.of_nat i < from)).
    + rewrite lookup_app_l by (rewrite length_take; lia). by rewrite lookup_take_lt by lia.
    + rewrite lookup_app_r, lookup_app_r by (rewrite length_take; lia). rewrite lookup_drop, length_take. f_equal. lia.
Qed.

(** A part of a slice that is overwritten. *)
Lemma slice_patch {A} (l l' e d : list A) a n k :
  slice l a n = Some e -> splice l (a + k) d = Some l' -> 0 <= k -> k + zlen d <= n ->
  exists e', splice e k d = Some e' /\ slice l' a n = Some e'.
Proof.
  intros Hs Hp Hk Hkn. apply length_splice in Hp as Hl'. apply length_slice in Hs as Hle.
  pose proof Hs as (Ha & Hn & Hl & _)%slice_Some. unfold zlen in *.
  destruct (splice_is_Some e d k) as [e' He']; [done|lia|]. exists e'. split; [done|].
  apply length_splice in He' as Hle'. apply slice_Some. unfold zlen. split_and!; [done|done|lia|].
  apply list_eq. intros i. destruct (decide (Z.of_nat i < n)).
  - rewrite lookup_take_lt, lookup_drop by lia. rewrite (lookup_splice _ _ _ _ _ He'), (lookup_splice _ _ _ _ _ Hp).
    repeat case_decide; try lia; [f_equal; lia|]. by apply (lookup_slice _ _ _ _ _ Hs).
  - rewrite lookup_take_ge by lia. apply lookup_ge_None_2. lia.
Qed.

Lemma zlen_app {A} (l k : list A) : zlen (l ++ k) = zlen l + zlen k.
Proof. unfold zlen. rewrite length_app. lia. Qed.
Lemma zlen_nonneg {A} (l : list A) : 0 <= zlen l.
Proof. unfold zlen. lia. Qed.
Lemma zlen_le_bytes n v : zlen (le_bytes n v) = Z.of_nat n.
Proof. unfold zlen. by rewrite length_le_bytes. Qed.

Lemma slice_at {A} (l1 l2 l3 : list A) k m :
  k = zlen l1 -> m = zlen l2 -> slice (l1 ++ l2 ++ l3) k m = Some l2.
Proof. intros -> ->. by apply slice_app. Qed.

Lemma splice_at {A} (l1 l2 l3 d : list A) k :
  k = zlen l1 -> zlen d = zlen l2 -> splice (l1 ++ l2 ++ l3) k d = Some (l1 ++ d ++ l3).
Proof.
  unfold zlen. intros -> Hd. unfold splice. rewrite decide_True by (rewrite !length_app; lia).
  rewrite Nat2Z.id, take_app_length. do 3 f_equal. rewrite app_assoc.
  rewrite drop_app_ge by (rewrite length_app; lia). rewrite length_app.
  replace (_ - _)%nat with 0%nat by lia. done.
Qed.

Lemma align4_spec n : 0 <= n -> n <= align4 n < n + 4 /\ align4 n mod 4 = 0.
Proof.
  intros Hn. unfold align4. change 3 with (Z.ones 2). rewrite Z.ldiff_ones_r, Z.shiftl_mul_pow2, Z.shiftr_div_pow2 by lia.
  change (Z.ones 2) with 3. change (2 ^ 2) with 4. Z.div_mod_to_equations. lia.
Qed.

Lemma zeros_split a b : 0 <= a -> 0 <= b ->
  replicate (Z.to_nat (a + b)) x00 = replicate (Z.to_nat a) x00 ++ replicate (Z.to_nat b) x00.
Proof. intros. rewrite Z2Nat.inj_add by done. apply replicate_add. Qed.

Lemma zlen_zeros n : 0 <= n -> zlen (replicate (Z.to_nat n) x00) = n.
Proof. intros. unfold zlen. rewrite length_replicate. lia. Qed.

Lemma byte_to_Z_inj a b : byte_to_Z a = byte_to_Z b -> a = b.
Proof. intros Heq. rewrite <- (byte_of_to_Z a), Heq. apply byte_of_to_Z. Qed.

Lemma c_string_app s r : no_nul s -> c_string (s ++ x00 :: r) = s.
Proof.
  unfold no_nul. induction s as [|b s IH]; [done|]. rewrite not_elem_of_cons. intros [Hb Hs]. cbn.
  rewrite decide_False by congruence. f_equal. by apply IH.
Qed.
