(* ===== verification/Uapi.v ===== *)
(** The binder UAPI of [src/crates/aim-binder-driver/src/uapi.rs]: ioctl, command
    and return numbers, and the byte layouts of the structures that cross the
    ioctl boundary. *)

From S2P Require Import Prelude.
From Stdlib Require Import ZArith Lia.
From Stdlib Require Import Strings.Byte.
From stdpp Require Import base numbers list gmap strings.

Open Scope Z_scope.

(** ** ioctl numbers *)

Definition IOC_NONE : Z := 0.
Definition IOC_WRITE : Z := 1.
Definition IOC_READ : Z := 2.

Definition ioc (dir ty nr size : Z) : Z :=
  Z.lor (Z.lor (Z.lor (as_u 32 (Z.shiftl dir 30)) (as_u 32 (Z.shiftl (as_u 32 size) 16)))
               (as_u 32 (Z.shiftl ty 8))) nr.
Definition io (ty nr : Z) : Z := ioc IOC_NONE ty nr 0.
Definition iow (ty nr size : Z) : Z := ioc IOC_WRITE ty nr size.
Definition ior (ty nr size : Z) : Z := ioc IOC_READ ty nr size.
Definition iowr (ty nr size : Z) : Z := ioc (Z.lor IOC_READ IOC_WRITE) ty nr size.

(** [_IOC_SIZE(cmd)]. *)
Definition ioc_size (cmd : Z) : Z := Z.land (Z.shiftr cmd 16) 0x3fff.

(** The type letters [b'b'], [b'r'] and [b'c'] of the three number spaces. *)
Definition ch_b : Z := 98.
Definition ch_r : Z := 114.
Definition ch_c : Z := 99.

Definition CURRENT_PROTOCOL_VERSION : Z := 8.

(** Structure sizes *)
Definition WRITE_READ_SIZE : Z := 48.
Definition TRANSACTION_DATA_SIZE : Z := 64.
Definition TRANSACTION_DATA_SECCTX_SIZE : Z := 72.
Definition TRANSACTION_DATA_SG_SIZE : Z := 72.
Definition FLAT_BINDER_OBJECT_SIZE : Z := 24.
Definition FD_OBJECT_SIZE : Z := 24.
Definition BUFFER_OBJECT_SIZE : Z := 40.
Definition FD_ARRAY_OBJECT_SIZE : Z := 32.
Definition PTR_COOKIE_SIZE : Z := 16.
Definition HANDLE_COOKIE_SIZE : Z := 12.
Definition NODE_DEBUG_INFO_SIZE : Z := 24.
Definition NODE_INFO_FOR_REF_SIZE : Z := 24.
Definition FREEZE_INFO_SIZE : Z := 12.
Definition FROZEN_STATUS_INFO_SIZE : Z := 12.
Definition EXTENDED_ERROR_SIZE : Z := 12.

(** ioctls *)
Definition BINDER_WRITE_READ : Z := iowr ch_b 1 WRITE_READ_SIZE.
Definition BINDER_SET_IDLE_TIMEOUT : Z := iow ch_b 3 8.
Definition BINDER_SET_MAX_THREADS : Z := iow ch_b 5 4.
Definition BINDER_SET_IDLE_PRIORITY : Z := iow ch_b 6 4.
Definition BINDER_SET_CONTEXT_MGR : Z := iow ch_b 7 4.
Definition BINDER_THREAD_EXIT : Z := iow ch_b 8 4.
Definition BINDER_VERSION : Z := iowr ch_b 9 4.
Definition BINDER_GET_NODE_DEBUG_INFO : Z := iowr ch_b 11 NODE_DEBUG_INFO_SIZE.
Definition BINDER_GET_NODE_INFO_FOR_REF : Z := iowr ch_b 12 NODE_INFO_FOR_REF_SIZE.
Definition BINDER_SET_CONTEXT_MGR_EXT : Z := iow ch_b 13 FLAT_BINDER_OBJECT_SIZE.
Definition BINDER_FREEZE : Z := iow ch_b 14 FREEZE_INFO_SIZE.
Definition BINDER_GET_FROZEN_INFO : Z := iowr ch_b 15 FROZEN_STATUS_INFO_SIZE.
Definition BINDER_ENABLE_ONEWAY_SPAM_DETECTION : Z := iow ch_b 16 4.
Definition BINDER_GET_EXTENDED_ERROR : Z := iowr ch_b 17 EXTENDED_ERROR_SIZE.

(** Object types *)
Definition pack_chars (c1 c2 c3 c4 : Z) : Z :=
  Z.lor (Z.lor (Z.lor (as_u 32 (Z.shiftl c1 24)) (as_u 32 (Z.shiftl c2 16)))
               (as_u 32 (Z.shiftl c3 8))) c4.
Definition TYPE_LARGE : Z := 0x85.
Definition BINDER_TYPE_BINDER : Z := pack_chars 115 98 42 TYPE_LARGE.
Definition BINDER_TYPE_WEAK_BINDER : Z := pack_chars 119 98 42 TYPE_LARGE.
Definition BINDER_TYPE_HANDLE : Z := pack_chars 115 104 42 TYPE_LARGE.
Definition BINDER_TYPE_WEAK_HANDLE : Z := pack_chars 119 104 42 TYPE_LARGE.
Definition BINDER_TYPE_FD : Z := pack_chars 102 100 42 TYPE_LARGE.
Definition BINDER_TYPE_FDA : Z := pack_chars 102 100 97 TYPE_LARGE.
Definition BINDER_TYPE_PTR : Z := pack_chars 112 116 42 TYPE_LARGE.

(** flat_binder_object flags *)
Definition FLAT_BINDER_FLAG_PRIORITY_MASK : Z := 0xff.
Definition FLAT_BINDER_FLAG_ACCEPTS_FDS : Z := 0x100.
Definition FLAT_BINDER_FLAG_SCHED_POLICY_MASK : Z := Z.shiftl 3 9.
Definition FLAT_BINDER_FLAG_INHERIT_RT : Z := 0x800.
Definition FLAT_BINDER_FLAG_TXN_SECURITY_CTX : Z := 0x1000.
Definition BINDER_BUFFER_FLAG_HAS_PARENT : Z := 0x01.

(** Transaction flags *)
Definition TF_ONE_WAY : Z := 0x01.
Definition TF_ROOT_OBJECT : Z := 0x04.
Definition TF_STATUS_CODE : Z := 0x08.
Definition TF_ACCEPT_FDS : Z := 0x10.
Definition TF_CLEAR_BUF : Z := 0x20.
Definition TF_UPDATE_TXN : Z := 0x40.

(** Return protocol (driver to user space) *)
Definition BR_ERROR : Z := ior ch_r 0 4.
Definition BR_OK : Z := io ch_r 1.
Definition BR_TRANSACTION_SEC_CTX : Z := ior ch_r 2 TRANSACTION_DATA_SECCTX_SIZE.
Definition BR_TRANSACTION : Z := ior ch_r 2 TRANSACTION_DATA_SIZE.
Definition BR_REPLY : Z := ior ch_r 3 TRANSACTION_DATA_SIZE.
Definition BR_ACQUIRE_RESULT : Z := ior ch_r 4 4.
Definition BR_DEAD_REPLY : Z := io ch_r 5.
Definition BR_TRANSACTION_COMPLETE : Z := io ch_r 6.
Definition BR_INCREFS : Z := ior ch_r 7 PTR_COOKIE_SIZE.
Definition BR_ACQUIRE : Z := ior ch_r 8 PTR_COOKIE_SIZE.
Definition BR_RELEASE : Z := ior ch_r 9 PTR_COOKIE_SIZE.
Definition BR_DECREFS : Z := ior ch_r 10 PTR_COOKIE_SIZE.
Definition BR_ATTEMPT_ACQUIRE : Z := ior ch_r 11 24.
Definition BR_NOOP : Z := io ch_r 12.
Definition BR_SPAWN_LOOPER : Z := io ch_r 13.
Definition BR_FINISHED : Z := io ch_r 14.
Definition BR_DEAD_BINDER : Z := ior ch_r 15 8.
Definition BR_CLEAR_DEATH_NOTIFICATION_DONE : Z := ior ch_r 16 8.
Definition BR_FAILED_REPLY : Z := io ch_r 17.
Definition BR_FROZEN_REPLY : Z := io ch_r 18.
Definition BR_ONEWAY_SPAM_SUSPECT : Z := io ch_r 19.
Definition BR_TRANSACTION_PENDING_FROZEN : Z := io ch_r 20.
Definition BR_FROZEN_BINDER : Z := ior ch_r 21 16.
Definition BR_CLEAR_FREEZE_NOTIFICATION_DONE : Z := ior ch_r 22 8.

(** Command protocol (user space to driver) *)
Definition BC_TRANSACTION : Z := iow ch_c 0 TRANSACTION_DATA_SIZE.
Definition BC_REPLY : Z := iow ch_c 1 TRANSACTION_DATA_SIZE.
Definition BC_ACQUIRE_RESULT : Z := iow ch_c 2 4.
Definition BC_FREE_BUFFER : Z := iow ch_c 3 8.
Definition BC_INCREFS : Z := iow ch_c 4 4.
Definition BC_ACQUIRE : Z := iow ch_c 5 4.
Definition BC_RELEASE : Z := iow ch_c 6 4.
Definition BC_DECREFS : Z := iow ch_c 7 4.
Definition BC_INCREFS_DONE : Z := iow ch_c 8 PTR_COOKIE_SIZE.
Definition BC_ACQUIRE_DONE : Z := iow ch_c 9 PTR_COOKIE_SIZE.
Definition BC_ATTEMPT_ACQUIRE : Z := iow ch_c 10 8.
Definition BC_REGISTER_LOOPER : Z := io ch_c 11.
Definition BC_ENTER_LOOPER : Z := io ch_c 12.
Definition BC_EXIT_LOOPER : Z := io ch_c 13.
Definition BC_REQUEST_DEATH_NOTIFICATION : Z := iow ch_c 14 HANDLE_COOKIE_SIZE.
Definition BC_CLEAR_DEATH_NOTIFICATION : Z := iow ch_c 15 HANDLE_COOKIE_SIZE.
Definition BC_DEAD_BINDER_DONE : Z := iow ch_c 16 8.
Definition BC_TRANSACTION_SG : Z := iow ch_c 17 TRANSACTION_DATA_SG_SIZE.
Definition BC_REPLY_SG : Z := iow ch_c 18 TRANSACTION_DATA_SG_SIZE.
Definition BC_REQUEST_FREEZE_NOTIFICATION : Z := iow ch_c 19 HANDLE_COOKIE_SIZE.
Definition BC_CLEAR_FREEZE_NOTIFICATION : Z := iow ch_c 20 HANDLE_COOKIE_SIZE.
Definition BC_FREEZE_NOTIFICATION_DONE : Z := iow ch_c 21 8.

(** ** Commands and returns *)

(** The commands the protocol defines. *)
Definition commands : list Z :=
  [BC_TRANSACTION;
   BC_REPLY;
   BC_ACQUIRE_RESULT;
   BC_FREE_BUFFER;
   BC_INCREFS;
   BC_ACQUIRE;
   BC_RELEASE;
   BC_DECREFS;
   BC_INCREFS_DONE;
   BC_ACQUIRE_DONE;
   BC_ATTEMPT_ACQUIRE;
   BC_REGISTER_LOOPER;
   BC_ENTER_LOOPER;
   BC_EXIT_LOOPER;
   BC_REQUEST_DEATH_NOTIFICATION;
   BC_CLEAR_DEATH_NOTIFICATION;
   BC_DEAD_BINDER_DONE;
   BC_TRANSACTION_SG;
   BC_REPLY_SG;
   BC_REQUEST_FREEZE_NOTIFICATION;
   BC_CLEAR_FREEZE_NOTIFICATION;
   BC_FREEZE_NOTIFICATION_DONE].

(** The payload size of a BC command word, or [None] for an unknown command. *)
Definition command_payload_size (cmd : Z) : option Z :=
  if bool_decide (cmd ∈ commands) then Some (ioc_size cmd) else None.

(** The return codes and their names. *)
Definition return_names : list (Z * string) :=
  [(BR_ERROR, "BR_ERROR"%string);
   (BR_OK, "BR_OK"%string);
   (BR_TRANSACTION_SEC_CTX, "BR_TRANSACTION_SEC_CTX"%string);
   (BR_TRANSACTION, "BR_TRANSACTION"%string);
   (BR_REPLY, "BR_REPLY"%string);
   (BR_ACQUIRE_RESULT, "BR_ACQUIRE_RESULT"%string);
   (BR_DEAD_REPLY, "BR_DEAD_REPLY"%string);
   (BR_TRANSACTION_COMPLETE, "BR_TRANSACTION_COMPLETE"%string);
   (BR_INCREFS, "BR_INCREFS"%string);
   (BR_ACQUIRE, "BR_ACQUIRE"%string);
   (BR_RELEASE, "BR_RELEASE"%string);
   (BR_DECREFS, "BR_DECREFS"%string);
   (BR_ATTEMPT_ACQUIRE, "BR_ATTEMPT_ACQUIRE"%string);
   (BR_NOOP, "BR_NOOP"%string);
   (BR_SPAWN_LOOPER, "BR_SPAWN_LOOPER"%string);
   (BR_FINISHED, "BR_FINISHED"%string);
   (BR_DEAD_BINDER, "BR_DEAD_BINDER"%string);
   (BR_CLEAR_DEATH_NOTIFICATION_DONE, "BR_CLEAR_DEATH_NOTIFICATION_DONE"%string);
   (BR_FAILED_REPLY, "BR_FAILED_REPLY"%string);
   (BR_FROZEN_REPLY, "BR_FROZEN_REPLY"%string);
   (BR_ONEWAY_SPAM_SUSPECT, "BR_ONEWAY_SPAM_SUSPECT"%string);
   (BR_TRANSACTION_PENDING_FROZEN, "BR_TRANSACTION_PENDING_FROZEN"%string);
   (BR_FROZEN_BINDER, "BR_FROZEN_BINDER"%string);
   (BR_CLEAR_FREEZE_NOTIFICATION_DONE, "BR_CLEAR_FREEZE_NOTIFICATION_DONE"%string)].

Definition return_name (cmd : Z) : string :=
  match list_find (fun p => p.1 = cmd) return_names with
  | Some (_, (_, name)) => name
  | None => "BR_<unknown>"
  end.

(** ** Words at explicit offsets *)

Definition u32_at (bytes : list byte) (offset : Z) : outcome Z :=
  of_le_bytes <$> unwrap (slice bytes offset 4).
Definition i32_at (bytes : list byte) (offset : Z) : outcome Z :=
  (as_i 32 ∘ of_le_bytes) <$> unwrap (slice bytes offset 4).
Definition u64_at (bytes : list byte) (offset : Z) : outcome Z :=
  of_le_bytes <$> unwrap (slice bytes offset 8).
Definition put_u32 (bytes : list byte) (offset value : Z) : outcome (list byte) :=
  unwrap (splice bytes offset (le_bytes 4 value)).
Definition put_i32 (bytes : list byte) (offset value : Z) : outcome (list byte) :=
  unwrap (splice bytes offset (le_bytes 4 value)).
Definition put_u64 (bytes : list byte) (offset value : Z) : outcome (list byte) :=
  unwrap (splice bytes offset (le_bytes 8 value)).

(** ** The structures *)

(** [struct binder_write_read]. *)
Record WriteRead := mkWriteRead {
  wr_write_size : Z;
  wr_write_consumed : Z;
  wr_write_buffer : Z;
  wr_read_size : Z;
  wr_read_consumed : Z;
  wr_read_buffer : Z;
}.

#[export] Instance WriteRead_eta : Settable WriteRead := fun r =>
  mkWriteRead (wr_write_size r) (wr_write_consumed r) (wr_write_buffer r) (wr_read_size r) (wr_read_consumed r) (wr_read_buffer r).

Definition WriteRead_decode (bytes : list byte) : outcome WriteRead :=
  write_size ← u64_at bytes 0;
  write_consumed ← u64_at bytes 8;
  write_buffer ← u64_at bytes 16;
  read_size ← u64_at bytes 24;
  read_consumed ← u64_at bytes 32;
  read_buffer ← u64_at bytes 40;
  mret (mkWriteRead write_size write_consumed write_buffer read_size read_consumed read_buffer).

Definition WriteRead_encode (v : WriteRead) : outcome (list byte) :=
  let bytes := replicate (Z.to_nat WRITE_READ_SIZE) x00 in
  bytes ← put_u64 bytes 0 (wr_write_size v);
  bytes ← put_u64 bytes 8 (wr_write_consumed v);
  bytes ← put_u64 bytes 16 (wr_write_buffer v);
  bytes ← put_u64 bytes 24 (wr_read_size v);
  bytes ← put_u64 bytes 32 (wr_read_consumed v);
  put_u64 bytes 40 (wr_read_buffer v).

(** [struct binder_transaction_data]. *)
Record TransactionData := mkTransactionData {
  td_target : Z;
  td_cookie : Z;
  td_code : Z;
  td_flags : Z;
  td_sender_pid : Z;
  td_sender_euid : Z;
  td_data_size : Z;
  td_offsets_size : Z;
  td_buffer : Z;
  td_offsets : Z;
}.

#[export] Instance TransactionData_eta : Settable TransactionData := fun r =>
  mkTransactionData (td_target r) (td_cookie r) (td_code r) (td_flags r) (td_sender_pid r) (td_sender_euid r) (td_data_size r) (td_offsets_size r) (td_buffer r) (td_offsets r).

Definition TransactionData_decode (bytes : list byte) : outcome TransactionData :=
  target ← u64_at bytes 0;
  cookie ← u64_at bytes 8;
  code ← u32_at bytes 16;
  flags ← u32_at bytes 20;
  sender_pid ← i32_at bytes 24;
  sender_euid ← u32_at bytes 28;
  data_size ← u64_at bytes 32;
  offsets_size ← u64_at bytes 40;
  buffer ← u64_at bytes 48;
  offsets ← u64_at bytes 56;
  mret (mkTransactionData target cookie code flags sender_pid sender_euid data_size offsets_size buffer offsets).

Definition TransactionData_encode (v : TransactionData) : outcome (list byte) :=
  let bytes := replicate (Z.to_nat TRANSACTION_DATA_SIZE) x00 in
  bytes ← put_u64 bytes 0 (td_target v);
  bytes ← put_u64 bytes 8 (td_cookie v);
  bytes ← put_u32 bytes 16 (td_code v);
  bytes ← put_u32 bytes 20 (td_flags v);
  bytes ← put_i32 bytes 24 (td_sender_pid v);
  bytes ← put_u32 bytes 28 (td_sender_euid v);
  bytes ← put_u64 bytes 32 (td_data_size v);
  bytes ← put_u64 bytes 40 (td_offsets_size v);
  bytes ← put_u64 bytes 48 (td_buffer v);
  put_u64 bytes 56 (td_offsets v).

(** The BC target handle: the low 32 bits of the target union. *)
Definition TransactionData_handle (tr : TransactionData) : Z := as_u 32 (td_target tr).

Definition TransactionData_default : TransactionData := mkTransactionData 0 0 0 0 0 0 0 0 0 0.

(** [struct flat_binder_object]. *)
Record FlatBinderObject := mkFlatBinderObject {
  fb_kind : Z;
  fb_flags : Z;
  fb_binder : Z;
  fb_cookie : Z;
}.

#[export] Instance FlatBinderObject_eta : Settable FlatBinderObject := fun r =>
  mkFlatBinderObject (fb_kind r) (fb_flags r) (fb_binder r) (fb_cookie r).

Definition FlatBinderObject_decode (bytes : list byte) : outcome FlatBinderObject :=
  kind ← u32_at bytes 0;
  flags ← u32_at bytes 4;
  binder ← u64_at bytes 8;
  cookie ← u64_at bytes 16;
  mret (mkFlatBinderObject kind flags binder cookie).

Definition FlatBinderObject_encode (v : FlatBinderObject) : outcome (list byte) :=
  let bytes := replicate (Z.to_nat FLAT_BINDER_OBJECT_SIZE) x00 in
  bytes ← put_u32 bytes 0 (fb_kind v);
  bytes ← put_u32 bytes 4 (fb_flags v);
  bytes ← put_u64 bytes 8 (fb_binder v);
  put_u64 bytes 16 (fb_cookie v).

Definition FlatBinderObject_handle (fp : FlatBinderObject) : Z := as_u 32 (fb_binder fp).

Definition FlatBinderObject_default : FlatBinderObject := mkFlatBinderObject 0 0 0 0.

(** [struct binder_buffer_object] (BINDER_TYPE_PTR). *)
Record BufferObject := mkBufferObject {
  bo_flags : Z;
  bo_buffer : Z;
  bo_length : Z;
  bo_parent : Z;
  bo_parent_offset : Z;
}.

#[export] Instance BufferObject_eta : Settable BufferObject := fun r =>
  mkBufferObject (bo_flags r) (bo_buffer r) (bo_length r) (bo_parent r) (bo_parent_offset r).

Definition BufferObject_decode (bytes : list byte) : outcome BufferObject :=
  flags ← u32_at bytes 4;
  buffer ← u64_at bytes 8;
  length ← u64_at bytes 16;
  parent ← u64_at bytes 24;
  parent_offset ← u64_at bytes 32;
  mret (mkBufferObject flags buffer length parent parent_offset).

Definition BufferObject_encode (v : BufferObject) : outcome (list byte) :=
  let bytes := replicate (Z.to_nat BUFFER_OBJECT_SIZE) x00 in
  bytes ← put_u32 bytes 0 BINDER_TYPE_PTR;
  bytes ← put_u32 bytes 4 (bo_flags v);
  bytes ← put_u64 bytes 8 (bo_buffer v);
  bytes ← put_u64 bytes 16 (bo_length v);
  bytes ← put_u64 bytes 24 (bo_parent v);
  put_u64 bytes 32 (bo_parent_offset v).

(** [struct binder_fd_array_object] (BINDER_TYPE_FDA). *)
Record FdArrayObject := mkFdArrayObject {
  fa_num_fds : Z;
  fa_parent : Z;
  fa_parent_offset : Z;
}.

#[export] Instance FdArrayObject_eta : Settable FdArrayObject := fun r =>
  mkFdArrayObject (fa_num_fds r) (fa_parent r) (fa_parent_offset r).

Definition FdArrayObject_decode (bytes : list byte) : outcome FdArrayObject :=
  num_fds ← u64_at bytes 8;
  parent ← u64_at bytes 16;
  parent_offset ← u64_at bytes 24;
  mret (mkFdArrayObject num_fds parent parent_offset).

Definition FdArrayObject_encode (v : FdArrayObject) : outcome (list byte) :=
  let bytes := replicate (Z.to_nat FD_ARRAY_OBJECT_SIZE) x00 in
  bytes ← put_u32 bytes 0 BINDER_TYPE_FDA;
  bytes ← put_u64 bytes 8 (fa_num_fds v);
  bytes ← put_u64 bytes 16 (fa_parent v);
  put_u64 bytes 24 (fa_parent_offset v).

(** The encoded size of an object of type [kind], or [None] for an invalid
    type. *)
Definition object_size (kind : Z) : option Z :=
  if bool_decide (kind ∈ [BINDER_TYPE_BINDER; BINDER_TYPE_WEAK_BINDER;
                          BINDER_TYPE_HANDLE; BINDER_TYPE_WEAK_HANDLE])
  then Some FLAT_BINDER_OBJECT_SIZE
  else if kind =? BINDER_TYPE_FD then Some FD_OBJECT_SIZE
  else if kind =? BINDER_TYPE_PTR then Some BUFFER_OBJECT_SIZE
  else if kind =? BINDER_TYPE_FDA then Some FD_ARRAY_OBJECT_SIZE
  else None.

(** ** Well-formed structures: every field is in the range of its type *)

Definition WriteRead_ok (v : WriteRead) : Prop :=
  in_u 64 (wr_write_size v) /\ in_u 64 (wr_write_consumed v) /\ in_u 64 (wr_write_buffer v) /\
  in_u 64 (wr_read_size v) /\ in_u 64 (wr_read_consumed v) /\ in_u 64 (wr_read_buffer v).

Definition TransactionData_ok (v : TransactionData) : Prop :=
  in_u 64 (td_target v) /\ in_u 64 (td_cookie v) /\ in_u 32 (td_code v) /\
  in_u 32 (td_flags v) /\ in_i 32 (td_sender_pid v) /\ in_u 32 (td_sender_euid v) /\
  in_u 64 (td_data_size v) /\ in_u 64 (td_offsets_size v) /\ in_u 64 (td_buffer v) /\
  in_u 64 (td_offsets v).

Definition FlatBinderObject_ok (v : FlatBinderObject) : Prop :=
  in_u 32 (fb_kind v) /\ in_u 32 (fb_flags v) /\ in_u 64 (fb_binder v) /\ in_u 64 (fb_cookie v).

Definition BufferObject_ok (v : BufferObject) : Prop :=
  in_u 32 (bo_flags v) /\ in_u 64 (bo_buffer v) /\ in_u 64 (bo_length v) /\
  in_u 64 (bo_parent v) /\ in_u 64 (bo_parent_offset v).

Definition FdArrayObject_ok (v : FdArrayObject) : Prop :=
  in_u 64 (fa_num_fds v) /\ in_u 64 (fa_parent v) /\ in_u 64 (fa_parent_offset v).

(** ** Words: reads after writes *)

Lemma u32_at_splice b b' off v :
  splice b off (le_bytes 4 v) = Some b' -> in_u 32 v -> u32_at b' off = Done v.
Proof.
  intros Hs Hv. unfold u32_at. apply slice_splice_eq in Hs.
  rewrite length_le_bytes in Hs. change (Z.of_nat 4) with 4 in Hs. rewrite Hs. simpl. f_equal.
  rewrite of_le_bytes_le_bytes. by apply Z.mod_small.
Qed.

Lemma u64_at_splice b b' off v :
  splice b off (le_bytes 8 v) = Some b' -> in_u 64 v -> u64_at b' off = Done v.
Proof.
  intros Hs Hv. unfold u64_at. apply slice_splice_eq in Hs.
  rewrite length_le_bytes in Hs. change (Z.of_nat 8) with 8 in Hs. rewrite Hs. simpl. f_equal.
  rewrite of_le_bytes_le_bytes. by apply Z.mod_small.
Qed.

Lemma i32_at_splice b b' off v :
  splice b off (le_bytes 4 v) = Some b' -> in_i 32 v -> i32_at b' off = Done v.
Proof.
  intros Hs Hv. unfold i32_at. apply slice_splice_eq in Hs.
  rewrite length_le_bytes in Hs. change (Z.of_nat 4) with 4 in Hs. rewrite Hs. simpl. f_equal.
  rewrite of_le_bytes_le_bytes. by apply (as_i_of_mod 32).
Qed.

(** A word read does not see a write to a disjoint range. *)
Lemma word_at_splice_ne {A} (k : list byte -> A) b b' off data off' n :
  splice b off data = Some b' ->
  off' + n <= off \/ off + Z.of_nat (length data) <= off' ->
  k <$> unwrap (slice b' off' n) = k <$> unwrap (slice b off' n).
Proof. intros Hs Hd. by rewrite (slice_splice_ne _ _ _ _ _ _ Hs Hd). Qed.

(** [put] at an offset inside the slice succeeds and keeps its length. *)
Lemma splice_le_Some b off n v :
  0 <= off -> off + Z.of_nat n <= Z.of_nat (length b) ->
  exists b', splice b off (le_bytes n v) = Some b' /\ length b' = length b.
Proof.
  intros. destruct (splice_is_Some b (le_bytes n v) off) as [b' Hb']; [done| |].
  - by rewrite length_le_bytes.
  - exists b'. split; [done|]. by eapply length_splice.
Qed.

(** Runs an encoder: names each intermediate buffer and keeps its equation. *)
Ltac run_encode :=
  match goal with
  | |- context [replicate (Z.to_nat ?c) _] =>
      let n := eval vm_compute in (Z.to_nat c) in
      change (Z.to_nat c) with n
  end;
  repeat match goal with
  | |- context [splice ?b ?off (le_bytes ?n ?v)] =>
      let b' := fresh "b" in
      let Hb := fresh "Hb" in
      let Hl := fresh "Hl" in
      destruct (splice_le_Some b off n v) as (b' & Hb & Hl);
      [lia | simpl length in *; lia | ];
      rewrite Hb; simpl
  end.

(** Reads each field back through the writes that followed it. *)
Ltac run_decode :=
  repeat match goal with
  | H : splice ?b ?off (le_bytes _ ?v) = Some ?b' |- context [u64_at ?b' ?off] =>
      rewrite (u64_at_splice b b' off v H) by assumption; simpl
  | H : splice ?b ?off (le_bytes _ ?v) = Some ?b' |- context [u32_at ?b' ?off] =>
      rewrite (u32_at_splice b b' off v H) by assumption; simpl
  | H : splice ?b ?off (le_bytes _ ?v) = Some ?b' |- context [i32_at ?b' ?off] =>
      rewrite (i32_at_splice b b' off v H) by assumption; simpl
  | H : splice ?b ?off ?d = Some ?b' |- context [u64_at ?b' ?off'] =>
      unfold u64_at at 1; rewrite (word_at_splice_ne _ b b' off d off' 8 H) by (simpl; lia);
      fold (u64_at b off')
  | H : splice ?b ?off ?d = Some ?b' |- context [u32_at ?b' ?off'] =>
      unfold u32_at at 1; rewrite (word_at_splice_ne _ b b' off d off' 4 H) by (simpl; lia);
      fold (u32_at b off')
  | H : splice ?b ?off ?d = Some ?b' |- context [i32_at ?b' ?off'] =>
      unfold i32_at at 1; rewrite (word_at_splice_ne _ b b' off d off' 4 H) by (simpl; lia);
      fold (i32_at b off')
  end.

Ltac round_trip decode :=
  unfold put_u64, put_u32, put_i32; run_encode; unfold decode; run_decode.

Lemma WriteRead_round_trip v :
  WriteRead_ok v -> (WriteRead_encode v ≫= WriteRead_decode) = Done v.
Proof.
  intros (?&?&?&?&?&?). unfold WriteRead_encode. round_trip WriteRead_decode. by destruct v.
Qed.

Lemma TransactionData_round_trip v :
  TransactionData_ok v -> (TransactionData_encode v ≫= TransactionData_decode) = Done v.
Proof.
  intros (?&?&?&?&?&?&?&?&?&?). unfold TransactionData_encode.
  round_trip TransactionData_decode. by destruct v.
Qed.

Lemma FlatBinderObject_round_trip v :
  FlatBinderObject_ok v -> (FlatBinderObject_encode v ≫= FlatBinderObject_decode) = Done v.
Proof.
  intros (?&?&?&?). unfold FlatBinderObject_encode.
  round_trip FlatBinderObject_decode. by destruct v.
Qed.

Lemma BufferObject_round_trip v :
  BufferObject_ok v -> (BufferObject_encode v ≫= BufferObject_decode) = Done v.
Proof.
  intros (?&?&?&?&?). unfold BufferObject_encode.
  round_trip BufferObject_decode. by destruct v.
Qed.

Lemma FdArrayObject_round_trip v :
  FdArrayObject_ok v -> (FdArrayObject_encode v ≫= FdArrayObject_decode) = Done v.
Proof.
  intros (?&?&?). unfold FdArrayObject_encode.
  round_trip FdArrayObject_decode. by destruct v.
Qed.

(** what the driver writes as a structure of the protocol reads back as
    the same structure, for every value whose fields fit their widths. *)
Theorem structures_round_trip wr td fb bo fa :
  WriteRead_ok wr -> TransactionData_ok td -> FlatBinderObject_ok fb -> BufferObject_ok bo -> FdArrayObject_ok fa ->
  (WriteRead_encode wr ≫= WriteRead_decode) = Done wr /\
  (TransactionData_encode td ≫= TransactionData_decode) = Done td /\
  (FlatBinderObject_encode fb ≫= FlatBinderObject_decode) = Done fb /\
  (BufferObject_encode bo ≫= BufferObject_decode) = Done bo /\
  (FdArrayObject_encode fa ≫= FdArrayObject_decode) = Done fa.
Proof.
  intros. split_and!.
  - by apply WriteRead_round_trip.
  - by apply TransactionData_round_trip.
  - by apply FlatBinderObject_round_trip.
  - by apply BufferObject_round_trip.
  - by apply FdArrayObject_round_trip.
Qed.

Lemma structures_round_trip_witness :
  (TransactionData_encode (mkTransactionData 1 2 3 16 (-5) 6 24 8 4096 8192) ≫= TransactionData_decode) =
  Done (mkTransactionData 1 2 3 16 (-5) 6 24 8 4096 8192).
Proof.
  apply (structures_round_trip (mkWriteRead 1 2 3 4 5 6) (mkTransactionData 1 2 3 16 (-5) 6 24 8 4096 8192)
    (mkFlatBinderObject BINDER_TYPE_BINDER 0 77 88) (mkBufferObject 1 4096 8 0 0) (mkFdArrayObject 1 0 4));
    unfold WriteRead_ok, TransactionData_ok, FlatBinderObject_ok, BufferObject_ok, FdArrayObject_ok, in_u, in_i;
    vm_compute; intuition congruence.
Defined.

(** The command and return words of the protocol are pairwise distinct, so
    a word names one command, and a command's payload size is the one its word
    carries: the size of the structure the protocol defines for it. *)
Theorem protocol_words_distinct :
  NoDup (commands ++ return_names.*1) /\
  (fun cmd => (cmd, command_payload_size cmd)) <$> commands =
    zip commands (Some <$> [64; 64; 4; 8; 4; 4; 4; 4; 16; 16; 8; 0; 0; 0; 12; 12; 8; 72; 72; 12; 12; 8]).
Proof. split; [apply (bool_decide_unpack _); vm_compute; exact I|vm_compute; reflexivity]. Qed.
