(* ===== verification/Host.v ===== *)
(** What the driver needs from the process that issues an ioctl and from the
    memory behind a receive buffer ([src/crates/aim-binder-driver/src/host.rs]),
    and the identifiers shared by every component. *)

From S2P Require Import Prelude.
From Stdlib Require Import ZArith Lia.
From Stdlib Require Import Strings.Byte.
From stdpp Require Import base numbers list gmap.

Open Scope Z_scope.

(** ** Identifiers: all are 64-bit counters, a [Tid] is a guest thread id *)

Abbreviation ProcId := Z (only parsing).
Abbreviation NodeId := Z (only parsing).
Abbreviation TxnId := Z (only parsing).
Abbreviation DeathId := Z (only parsing).
Abbreviation Tid := Z (only parsing).
Abbreviation Errno := Z (only parsing).

(** An open file description, a condition variable, a parked read's resume
    and an external notifier are opaque to the driver: it only moves them. *)
Abbreviation File := Z (only parsing).
Abbreviation Condvar := Z (only parsing).
Abbreviation Resume := Z (only parsing).
Abbreviation Notifier := Z (only parsing).

(** ** [errno] *)

Definition EPERM : Errno := 1.
Definition ESRCH : Errno := 3.
Definition EINTR : Errno := 4.
Definition EBADF : Errno := 9.
Definition EAGAIN : Errno := 11.
Definition ENOMEM : Errno := 12.
Definition EFAULT : Errno := 14.
Definition EBUSY : Errno := 16.
Definition EINVAL : Errno := 22.
Definition ENOSPC : Errno := 28.
Definition EPROTO : Errno := 71.

(** The Android identity a binder process was opened with. *)
Record Credentials := mkCredentials {
  cr_pid : Z;
  cr_euid : Z;
  cr_security_context : option (list byte);
}.

#[export] Instance Credentials_eq_dec : EqDecision Credentials.
Proof. solve_decision. Defined.

(** ** The calling process, as seen from one ioctl

    A trait in the source, implemented by the syscall layer and by the daemon;
    here an interface over the caller's own state [G]. *)
Class GuestProcess (G : Type) := {
  (** [copy_from_user address len] *)
  copy_from_user : Z -> Z -> G -> result (list byte) Errno * G;
  copy_to_user : Z -> list byte -> G -> result unit Errno * G;
  get_file : Z -> G -> result File Errno * G;
  install_file : File -> G -> result Z Errno * G;
  can_install : Z -> G -> bool * G;
  delivered : Z -> Z -> G -> G;
  close_fd : Z -> G -> G;
}.

(** ** [HeapReceiveMemory]: the bytes behind a process's binder mapping *)
Record HeapReceiveMemory := mkHeapReceiveMemory {
  hm_base : Z;
  hm_bytes : list byte;
}.

#[export] Instance HeapReceiveMemory_eta : Settable HeapReceiveMemory := fun r =>
  mkHeapReceiveMemory (hm_base r) (hm_bytes r).

Definition HeapReceiveMemory_new (base len : Z) : HeapReceiveMemory :=
  mkHeapReceiveMemory base (replicate (Z.to_nat len) x00).

Definition HeapReceiveMemory_write (m : HeapReceiveMemory) (offset : Z) (data : list byte) :
    outcome HeapReceiveMemory :=
  bytes ← unwrap (splice (hm_bytes m) offset data);
  mret (m <| hm_bytes := bytes |>).

Definition HeapReceiveMemory_clear (m : HeapReceiveMemory) (offset len : Z) :
    outcome HeapReceiveMemory :=
  bytes ← unwrap (splice (hm_bytes m) offset (replicate (Z.to_nat len) x00));
  mret (m <| hm_bytes := bytes |>).

(** ** Objects translated into a buffer

    [BufferRecord] of [state.rs]: what is released when the buffer is freed. *)
Inductive BufferRecord :=
| RecBinder (node : NodeId) (strong : bool)
| RecHandle (desc : Z) (strong : bool).

#[export] Instance BufferRecord_eq_dec : EqDecision BufferRecord.
Proof. solve_decision. Defined.
