(* ===== verification/Alloc.v ===== *)
(** The per-process receive-buffer allocator
    ([src/crates/aim-binder-driver/src/alloc.rs]): best fit over the mapped range,
    half of it reserved for one-way transactions, and the one-way spam
    heuristic. *)

From S2P Require Import Prelude Host.
From Stdlib Require Import ZArith Lia.
From stdpp Require Import base numbers list gmap sorting.

Open Scope Z_scope.

(** Linux caps a binder mapping at 4 MiB. *)
Definition MAX_MAPPING : Z := 4 * 1024 * 1024.

Definition align8 (value : Z) : option Z :=
  v ← checked_add 64 value 7;
  Some (Z.ldiff v 7).

(** One allocated transaction buffer. *)
Record Buffer := mkBuffer {
  b_size : Z;
  b_data_size : Z;
  b_offsets_size : Z;
  b_txn : option TxnId;
  b_delivery : option (Tid * TxnId);
  b_target_node : option NodeId;
  b_is_async : bool;
  b_allow_user_free : bool;
  b_clear_on_free : bool;
  b_sender_pid : Z;
  b_objects : list BufferRecord;
  b_fda_fds : list Z;
}.

#[export] Instance Buffer_eta : Settable Buffer := fun r =>
  mkBuffer (b_size r) (b_data_size r) (b_offsets_size r) (b_txn r) (b_delivery r)
    (b_target_node r) (b_is_async r) (b_allow_user_free r) (b_clear_on_free r)
    (b_sender_pid r) (b_objects r) (b_fda_fds r).

Record Allocator := mkAllocator {
  a_vm_start : Z;
  a_size : Z;
  a_free : gmap Z Z;
  a_buffers : gmap Z Buffer;
  a_free_async_space : Z;
  a_oneway_spam_detected : bool;
}.

#[export] Instance Allocator_eta : Settable Allocator := fun r =>
  mkAllocator (a_vm_start r) (a_size r) (a_free r) (a_buffers r)
    (a_free_async_space r) (a_oneway_spam_detected r).

Record Allocation := mkAllocation {
  al_offset : Z;
  al_oneway_spam_suspect : bool;
}.

Definition Allocator_new (vm_start size : Z) : Allocator :=
  let size := Z.min size MAX_MAPPING in
  {| a_vm_start := vm_start;
     a_size := size;
     a_free := {[ 0 := size ]};
     a_buffers := ∅;
     a_free_async_space := size / 2;
     a_oneway_spam_detected := false |}.

(** [filter(len >= size).min_by_key((len, offset))] over the free ranges. *)
Definition fits_better (p q : Z * Z) : bool :=
  (p.2 <? q.2) || ((p.2 =? q.2) && (p.1 <? q.1)).

Fixpoint min_by_key (l : list (Z * Z)) : option (Z * Z) :=
  match l with
  | [] => None
  | p :: l =>
      match min_by_key l with
      | Some q => Some (if fits_better q p then q else p)
      | None => Some p
      end
  end.

Definition best_fit (size : Z) (free : gmap Z Z) : option (Z * Z) :=
  min_by_key (filter (fun p => size <= p.2) (map_to_list free)).

(** [range(..offset).next_back()]: the entry with the greatest key below. *)
Fixpoint max_key (l : list (Z * Z)) : option (Z * Z) :=
  match l with
  | [] => None
  | p :: l =>
      match max_key l with
      | Some q => Some (if q.1 <? p.1 then p else q)
      | None => Some p
      end
  end.

Definition last_below (offset : Z) (free : gmap Z Z) : option (Z * Z) :=
  max_key (filter (fun p => p.1 < offset) (map_to_list free)).

Section operations.
Context `{Env}.

(** [align8(data) + align8(offsets) + align8(extra)], and at least 8. *)
Definition allocation_size (data_size offsets_size extra_size : Z) : option Z :=
  a ← align8 data_size;
  b ← align8 offsets_size;
  ab ← checked_add 64 a b;
  c ← align8 extra_size;
  total ← checked_add 64 ab c;
  Some (Z.max total 8).

(** The one-way buffers a sender holds: their count and their bytes. *)
Definition sender_async (sender_pid : Z) (buffers : gmap Z Buffer) : list Buffer :=
  filter (fun b => b_is_async b = true /\ b_sender_pid b = sender_pid)
    (snd <$> map_to_list buffers).

Fixpoint count_total (l : list Buffer) (nt : Z * Z) : outcome (Z * Z) :=
  match l with
  | [] => mret nt
  | b :: l =>
      n ← uadd 64 nt.1 1;
      t ← uadd 64 nt.2 (b_size b);
      count_total l (n, t)
  end.

(** [debug_low_async_space_locked]. *)
Definition low_async_space (sender_pid : Z) : M Allocator bool :=
  a ← get;
  if a_size a / 10 <=? a_free_async_space a then
    put (a <| a_oneway_spam_detected := false |>);;
    mret false
  else
    '(count, total) ← call (count_total (sender_async sender_pid (a_buffers a)) (0, 0));
    count1 ← call (uadd 64 count 1);
    if ((50 <? count1) || (a_size a / 4 <? total)) && negb (a_oneway_spam_detected a) then
      put (a <| a_oneway_spam_detected := true |>);;
      mret true
    else mret false.

(** [binder_alloc_new_buf]. *)
Definition allocate (data_size offsets_size extra_size : Z) (is_async : bool)
    (sender_pid : Z) : M Allocator (result Allocation Errno) :=
  match allocation_size data_size offsets_size extra_size with
  | None => mret (Err EINVAL)
  | Some size =>
      a ← get;
      if is_async && (a_free_async_space a <? size) then mret (Err ENOSPC) else
      match best_fit size (a_free a) with
      | None => mret (Err ENOSPC)
      | Some (offset, len) =>
          modify (set_field a_free (delete offset));;
          (if size <? len then
             rest ← call (uadd 64 offset size);
             rest_len ← call (usub 64 len size);
             modify (set_field a_free (insert rest rest_len))
           else mret tt);;
          oneway_spam_suspect ←
            (if is_async : bool then
               a ← get;
               space ← call (usub 64 (a_free_async_space a) size);
               modify (set_field a_free_async_space (fun _ => space));;
               low_async_space sender_pid
             else mret false);
          modify (set_field a_buffers (insert offset
            {| b_size := size;
               b_data_size := data_size;
               b_offsets_size := offsets_size;
               b_txn := None;
               b_delivery := None;
               b_target_node := None;
               b_is_async := is_async;
               b_allow_user_free := false;
               b_clear_on_free := false;
               b_sender_pid := sender_pid;
               b_objects := [];
               b_fda_fds := [] |}));;
          mret (Ok {| al_offset := offset; al_oneway_spam_suspect := oneway_spam_suspect |})
      end
  end.

(** Resolves a user pointer passed to [BC_FREE_BUFFER]. *)
Definition offset_of (a : Allocator) (user_ptr : Z) : option Z :=
  offset ← checked_sub user_ptr (a_vm_start a);
  match a_buffers a !! offset with
  | Some _ => Some offset
  | None => None
  end.

Definition user_address (a : Allocator) (offset : Z) : outcome Z :=
  uadd 64 (a_vm_start a) offset.

(** Returns a buffer to the free list, coalescing neighbours. *)
Definition free (offset : Z) : M Allocator (option Buffer) :=
  a ← get;
  match a_buffers a !! offset with
  | None => mret None
  | Some buffer =>
      modify (set_field a_buffers (delete offset));;
      (if b_is_async buffer then
         space ← call (uadd 64 (a_free_async_space a) (b_size buffer));
         modify (set_field a_free_async_space (fun _ => space))
       else mret tt);;
      '(start, len) ←
        match last_below offset (a_free a) with
        | Some (prev, prev_len) =>
            prev_end ← call (uadd 64 prev prev_len);
            if prev_end =? offset then
              modify (set_field a_free (delete prev));;
              len ← call (uadd 64 (b_size buffer) prev_len);
              mret (prev, len)
            else mret (offset, b_size buffer)
        | None => mret (offset, b_size buffer)
        end;
      next ← call (uadd 64 offset (b_size buffer));
      a' ← get;
      len ←
        match a_free a' !! next with
        | Some next_len =>
            modify (set_field a_free (delete next));;
            call (uadd 64 len next_len)
        | None => mret len
        end;
      modify (set_field a_free (insert start len));;
      mret (Some buffer)
  end.

(** The bytes on the free list. *)
Definition free_bytes (a : Allocator) : Z :=
  foldr (fun p acc => p.2 + acc) 0 (map_to_list (a_free a)).

End operations.

(** ** The searches over the free list *)

Lemma min_by_key_spec l :
  match min_by_key l with
  | None => l = []
  | Some p => p ∈ l /\ forall q, q ∈ l -> p.2 < q.2 \/ (p.2 = q.2 /\ p.1 <= q.1)
  end.
Proof.
  induction l as [|p l IH]; simpl; [done|].
  destruct (min_by_key l) as [q|].
  - destruct IH as [Hin Hmin]. unfold fits_better.
    destruct (Z.ltb_spec q.2 p.2), (Z.eqb_spec q.2 p.2), (Z.ltb_spec q.1 p.1); simpl;
      (split; [set_solver|]; intros r [->|Hr]%elem_of_cons; [lia|];
       specialize (Hmin r Hr); lia).
  - subst. split; [set_solver|]. intros q ->%list_elem_of_singleton. lia.
Qed.

Lemma best_fit_Some size free o l :
  best_fit size free = Some (o, l) ->
  free !! o = Some l /\ size <= l /\
  forall o' l', free !! o' = Some l' -> size <= l' -> l < l' \/ (l = l' /\ o <= o').
Proof.
  unfold best_fit. intros Hb.
  pose proof (min_by_key_spec (filter (fun p => size <= p.2) (map_to_list free))) as Hs.
  rewrite Hb in Hs. destruct Hs as [Hin Hmin].
  apply list_elem_of_filter in Hin as [Hle Hin]. simpl in Hle.
  apply elem_of_map_to_list in Hin. split_and!; [done..|].
  intros o' l' Hl' Hle'. apply (Hmin (o', l')).
  apply list_elem_of_filter. split; [done|]. by apply elem_of_map_to_list.
Qed.

Lemma best_fit_None size free :
  best_fit size free = None <-> forall o l, free !! o = Some l -> l < size.
Proof.
  unfold best_fit.
  pose proof (min_by_key_spec (filter (fun p => size <= p.2) (map_to_list free))) as Hs.
  destruct (min_by_key _) as [p|]; split; try done.
  - intros Hall. destruct Hs as [Hin _]. apply list_elem_of_filter in Hin as [Hle Hin].
    destruct p as [o l]. apply elem_of_map_to_list, Hall in Hin. simpl in Hle. lia.
  - intros _ o l Hl. destruct (decide (size <= l)); [|lia].
    assert ((o, l) ∈ filter (fun p => size <= p.2) (map_to_list free)) as Hin.
    { apply list_elem_of_filter. split; [done|]. by apply elem_of_map_to_list. }
    rewrite Hs in Hin. set_solver.
Qed.

Lemma max_key_spec l :
  match max_key l with
  | None => l = []
  | Some p => p ∈ l /\ forall q, q ∈ l -> q.1 <= p.1
  end.
Proof.
  induction l as [|p l IH]; simpl; [done|].
  destruct (max_key l) as [q|].
  - destruct IH as [Hin Hmax]. destruct (Z.ltb_spec q.1 p.1);
      (split; [set_solver|]; intros r [->|Hr]%elem_of_cons; [lia|];
       specialize (Hmax r Hr); lia).
  - subst. split; [set_solver|]. intros q ->%list_elem_of_singleton. lia.
Qed.

Lemma last_below_Some offset free o l :
  last_below offset free = Some (o, l) ->
  free !! o = Some l /\ o < offset /\
  forall o' l', free !! o' = Some l' -> o' < offset -> o' <= o.
Proof.
  unfold last_below. intros Hb.
  pose proof (max_key_spec (filter (fun p => p.1 < offset) (map_to_list free))) as Hs.
  rewrite Hb in Hs. destruct Hs as [Hin Hmax].
  apply list_elem_of_filter in Hin as [Hlt Hin]. simpl in Hlt.
  apply elem_of_map_to_list in Hin. split_and!; [done..|].
  intros o' l' Hl' Hlt'. apply (Hmax (o', l')).
  apply list_elem_of_filter. split; [done|]. by apply elem_of_map_to_list.
Qed.

Lemma last_below_None offset free :
  last_below offset free = None -> forall o l, free !! o = Some l -> offset <= o.
Proof.
  unfold last_below. intros Hb o l Hl.
  pose proof (max_key_spec (filter (fun p => p.1 < offset) (map_to_list free))) as Hs.
  rewrite Hb in Hs. destruct (decide (o < offset)); [|lia].
  assert ((o, l) ∈ filter (fun p => p.1 < offset) (map_to_list free)) as Hin.
  { apply list_elem_of_filter. split; [done|]. by apply elem_of_map_to_list. }
  rewrite Hs in Hin. set_solver.
Qed.

(** ** The invariant: free ranges and buffers tile the mapping *)

(** The bytes of one-way buffers. *)
Definition async_bytes (buffers : gmap Z Buffer) : Z :=
  map_fold (fun _ b acc => (if b_is_async b then b_size b else 0) + acc) 0 buffers.

Record Allocator_wf (a : Allocator) : Prop := {
  wf_size : 0 <= a_size a <= MAX_MAPPING;
  (** no offset is both free and allocated *)
  wf_dom : forall o, a_free a !! o = None \/ a_buffers a !! o = None;
  wf_free_range : forall o l, a_free a !! o = Some l -> 0 <= o /\ 0 <= l /\ o + l <= a_size a;
  wf_buffer_range : forall o b, a_buffers a !! o = Some b ->
    0 <= o /\ 8 <= b_size b /\ o + b_size b <= a_size a;
  (** ranges of either sort do not overlap *)
  wf_free_free : forall o l o' l',
    a_free a !! o = Some l -> a_free a !! o' = Some l' -> o < o' -> o + l < o';
  wf_free_buffer : forall o l o' b,
    a_free a !! o = Some l -> a_buffers a !! o' = Some b -> o + l <= o' \/ o' + b_size b <= o;
  wf_buffer_buffer : forall o b o' b',
    a_buffers a !! o = Some b -> a_buffers a !! o' = Some b' -> o < o' -> o + b_size b <= o';
  (** every byte is free or allocated *)
  wf_cover : forall x, 0 <= x < a_size a ->
    (exists o l, a_free a !! o = Some l /\ o <= x < o + l) \/
    (exists o b, a_buffers a !! o = Some b /\ o <= x < o + b_size b);
  (** buffers and the starts of free ranges are 8-aligned *)
  wf_free_aligned : forall o l, a_free a !! o = Some l -> (8 | o);
  wf_buffer_aligned : forall o b, a_buffers a !! o = Some b -> (8 | o) /\ (8 | b_size b);
  (** one-way buffers and the free one-way space make up half the mapping *)
  wf_async : a_free_async_space a + async_bytes (a_buffers a) = a_size a / 2;
  wf_async_pos : 0 <= a_free_async_space a;
}.

(** What the rest of the driver notes in a buffer does not matter to the
    allocator. *)
Lemma async_bytes_alter f o buffers :
  (forall b, b_size (f b) = b_size b /\ b_is_async (f b) = b_is_async b) ->
  async_bytes (alter f o buffers) = async_bytes buffers.
Proof.
  intros Hf. unfold async_bytes. destruct (buffers !! o) as [b|] eqn:Hb; [|by rewrite alter_None].
  rewrite (alter_Some _ _ _ _ Hb), <- (insert_delete_id buffers o b Hb) at 1.
  rewrite insert_insert, decide_True by done.
  rewrite <- (insert_delete_id buffers o b Hb) at 2.
  rewrite !map_fold_insert_L; try apply lookup_delete_eq; try (intros; lia).
  by destruct (Hf b) as [-> ->].
Qed.

Lemma Allocator_wf_alter a f o :
  (forall b, b_size (f b) = b_size b /\ b_is_async (f b) = b_is_async b) ->
  Allocator_wf a -> Allocator_wf (a <| a_buffers ::= alter f o |>).
Proof.
  intros Hf Hwf.
  assert (forall o' b, alter f o (a_buffers a) !! o' = Some b ->
    exists b0, a_buffers a !! o' = Some b0 /\ b_size b = b_size b0) as Hback.
  { intros o' b [[_ Hb]|(-> & b0 & Hb & ->)]%lookup_alter_cases; [by eauto|].
    exists b0. split; [done|apply Hf]. }
  split; simpl; try apply Hwf.
  - intros o'. destruct (wf_dom a Hwf o') as [?|Hn]; [by left|right].
    destruct (decide (o = o')) as [->|]; [by rewrite lookup_alter_eq, Hn|by rewrite lookup_alter_ne].
  - intros o' b (b0 & Hb & ->)%Hback. by eapply wf_buffer_range.
  - intros o1 l o' b Hl (b0 & Hb & ->)%Hback. by eapply wf_free_buffer.
  - intros o1 b1 o2 b2 (c1 & Hc1 & ->)%Hback (c2 & Hc2 & _)%Hback. by eapply wf_buffer_buffer.
  - intros x Hx. destruct (wf_cover a Hwf x Hx) as [?|(o' & b & Hb & Hin)]; [by left|right].
    destruct (decide (o = o')) as [->|].
    + exists o', (f b). rewrite lookup_alter_eq, Hb. split; [done|]. by destruct (Hf b) as [-> _].
    + exists o', b. by rewrite lookup_alter_ne.
  - intros o' b (b0 & Hb & ->)%Hback. by eapply wf_buffer_aligned.
  - rewrite async_bytes_alter by done. apply Hwf.
Qed.

(** ** Sizes *)

Lemma align8_spec v r :
  align8 v = Some r -> 0 <= v -> v <= r < v + 8 /\ (8 | r) /\ r < 2 ^ 64.
Proof.
  unfold align8, checked_add. destruct (Z.ltb_spec (v + 7) (2 ^ 64)) as [Hlt|]; simpl; [|done].
  intros [= <-] Hv. change 7 with (Z.ones 3).
  rewrite Z.ldiff_ones_r, Z.shiftr_div_pow2, Z.shiftl_mul_pow2 by lia.
  change (2 ^ 3) with 8. change (Z.ones 3) with 7.
  pose proof (Z.div_mod (v + 7) 8). pose proof (Z.mod_pos_bound (v + 7) 8).
  split_and!; [lia..|apply Z.divide_factor_r|lia].
Qed.

Lemma allocation_size_spec data offsets extra size :
  0 <= data -> 0 <= offsets -> 0 <= extra ->
  allocation_size data offsets extra = Some size ->
  8 <= size /\ (8 | size) /\ data + offsets + extra <= size.
Proof.
  unfold allocation_size. intros Hd Ho He.
  destruct (align8 data) as [a|] eqn:Ha; simpl; [|done].
  destruct (align8 offsets) as [b|] eqn:Hb; simpl; [|done].
  destruct (checked_add 64 a b) as [ab|] eqn:Hab; simpl; [|done].
  destruct (align8 extra) as [c|] eqn:Hc; simpl; [|done].
  destruct (checked_add 64 ab c) as [t|] eqn:Ht; simpl; [|done]. intros [= <-].
  apply checked_add_Some in Hab as [-> ?], Ht as [-> ?].
  apply align8_spec in Ha as (?&?&?), Hb as (?&?&?), Hc as (?&?&?); [|done..].
  split_and!; [lia| |lia].
  destruct (Z.max_spec (a + b + c) 8) as [[? ->]|[? ->]]; [by exists 1|].
  by repeat apply Z.divide_add_r.
Qed.

(** ** One-way accounting *)

Lemma async_bytes_insert buffers o b :
  buffers !! o = None ->
  async_bytes (<[o := b]> buffers) = (if b_is_async b then b_size b else 0) + async_bytes buffers.
Proof.
  intros Hn. unfold async_bytes. rewrite map_fold_insert_L; [done|intros; lia|done].
Qed.

Lemma async_bytes_delete buffers o b :
  buffers !! o = Some b ->
  async_bytes (delete o buffers) = async_bytes buffers - (if b_is_async b then b_size b else 0).
Proof.
  intros Hb. rewrite <- (insert_delete_id buffers o b Hb) at 2.
  rewrite async_bytes_insert by apply lookup_delete_eq. lia.
Qed.

Lemma async_bytes_list buffers :
  async_bytes buffers =
  foldr (fun b acc => (if b_is_async b then b_size b else 0) + acc) 0 (snd <$> map_to_list buffers).
Proof.
  unfold async_bytes. rewrite map_fold_foldr.
  induction (map_to_list buffers) as [|[o b] l IH]; simpl; [done|]. by rewrite IH.
Qed.

Lemma sender_async_bytes pid buffers :
  (forall o b, buffers !! o = Some b -> 0 <= b_size b) ->
  0 <= foldr (fun b acc => b_size b + acc) 0 (sender_async pid buffers) <= async_bytes buffers.
Proof.
  intros Hpos. rewrite async_bytes_list. unfold sender_async.
  assert (forall b, b ∈ (snd <$> map_to_list buffers) -> 0 <= b_size b) as Hl.
  { intros b ([o b']&->&Hin%elem_of_map_to_list)%list_elem_of_fmap. eauto. }
  induction (snd <$> map_to_list buffers) as [|b l IH]; [done|].
  pose proof (Hl b ltac:(in_list)).
  specialize (IH ltac:(intros; apply Hl; in_list)).
  rewrite filter_cons. case_decide as Hd; simpl; [destruct Hd as [-> _]; lia|].
  destruct (b_is_async b); lia.
Qed.

Section facts.
Context `{Env}.

Lemma count_total_eq l n t :
  (forall b, b ∈ l -> 8 <= b_size b) -> 0 <= n -> 0 <= t ->
  n + Z.of_nat (length l) + t + foldr (fun b acc => b_size b + acc) 0 l < 2 ^ 63 ->
  count_total l (n, t) =
  Done (n + Z.of_nat (length l), t + foldr (fun b acc => b_size b + acc) 0 l).
Proof.
  revert n t. induction l as [|b l IH]; intros n t Hl Hn Ht Hs; simpl in *.
  - by rewrite !Z.add_0_r.
  - assert (0 <= foldr (fun b acc => b_size b + acc) 0 l).
    { clear -Hl. induction l as [|c l IH]; simpl; [lia|].
      pose proof (Hl c ltac:(in_list)).
      assert (0 <= foldr (fun b acc => b_size b + acc) 0 l); [|lia].
      apply IH. intros d Hd. apply Hl. apply elem_of_cons in Hd as [->|]; in_list. }
    pose proof (Hl b ltac:(in_list)).
    rewrite uadd_small by lia. simpl. rewrite uadd_small by lia. simpl.
    rewrite IH; [|intros; apply Hl; in_list|lia..].
    f_equal. f_equal; lia.
Qed.

(** The spam heuristic only ever changes its own flag. *)
Lemma low_async_space_eq pid a :
  0 <= a_size a <= MAX_MAPPING ->
  (forall o b, a_buffers a !! o = Some b -> 8 <= b_size b) ->
  async_bytes (a_buffers a) <= a_size a ->
  exists suspect flag,
    low_async_space pid a = Done (suspect, a <| a_oneway_spam_detected := flag |>) /\
    (suspect = true -> a_free_async_space a < a_size a / 10 /\
                       a_oneway_spam_detected a = false /\ flag = true) /\
    (a_size a / 10 <= a_free_async_space a -> flag = false) /\
    (a_free_async_space a < a_size a / 10 -> a_oneway_spam_detected a = true -> flag = true).
Proof.
  intros Hsz Hb Has. unfold low_async_space, mbind, M_bind, get, put, call. simpl.
  destruct (Z.leb_spec (a_size a / 10) (a_free_async_space a)); simpl.
  { exists false, false. split_and!; [done|done|done|lia]. }
  pose proof (sender_async_bytes pid (a_buffers a)) as Hs.
  destruct Hs as [Hs1 Hs2]; [intros o b Hob; specialize (Hb o b Hob); lia|].
  unfold MAX_MAPPING in Hsz.
  assert (forall b, b ∈ sender_async pid (a_buffers a) -> 8 <= b_size b) as Hall.
  { intros b. unfold sender_async. rewrite list_elem_of_filter.
    intros [_ ([o b']&->&Hin%elem_of_map_to_list)%list_elem_of_fmap]. eauto. }
  assert (Z.of_nat (length (sender_async pid (a_buffers a))) * 8 <=
          foldr (fun b acc => b_size b + acc) 0 (sender_async pid (a_buffers a))) as Hlen.
  { clear -Hall. induction (sender_async _ _) as [|b l IH]; simpl; [lia|].
    pose proof (Hall b ltac:(in_list)).
    specialize (IH ltac:(intros; apply Hall; in_list)). lia. }
  rewrite count_total_eq by (done || lia). simpl.
  rewrite uadd_small by lia. simpl.
  destruct a as [vs sz fr bu fas det]; simpl in *.
  destruct det; simpl.
  - rewrite andb_false_r. exists false, true. split_and!; try done. lia.
  - rewrite andb_true_r. destruct (_ || _); [exists true, true|exists false, false];
      split_and!; try done; lia.
Qed.

(** ** What the two operations do to a well-formed allocator *)

(** The free list after [size] bytes are taken from the start of a range. *)
Definition take_range (size o l : Z) (free : gmap Z Z) : gmap Z Z :=
  if size <? l then <[o + size := l - size]> (delete o free) else delete o free.

Lemma allocate_eq a data offsets extra is_async pid :
  Allocator_wf a -> 0 <= data -> 0 <= offsets -> 0 <= extra ->
  match allocation_size data offsets extra with
  | None => allocate data offsets extra is_async pid a = Done (Err EINVAL, a)
  | Some size =>
      if is_async && (a_free_async_space a <? size)
      then allocate data offsets extra is_async pid a = Done (Err ENOSPC, a)
      else match best_fit size (a_free a) with
      | None => allocate data offsets extra is_async pid a = Done (Err ENOSPC, a)
      | Some (o, l) => exists suspect flag,
          allocate data offsets extra is_async pid a =
          Done (Ok (mkAllocation o suspect),
                {| a_vm_start := a_vm_start a;
                   a_size := a_size a;
                   a_free := take_range size o l (a_free a);
                   a_buffers := <[o := mkBuffer size data offsets None None None is_async
                                         false false pid [] []]> (a_buffers a);
                   a_free_async_space :=
                     if is_async then a_free_async_space a - size else a_free_async_space a;
                   a_oneway_spam_detected := flag |}) /\
          (is_async = false -> suspect = false /\ flag = a_oneway_spam_detected a) /\
          (suspect = true -> a_oneway_spam_detected a = false /\ flag = true /\
                             a_free_async_space a - size < a_size a / 10)
      end
  end.
Proof.
  intros Hwf Hd Ho He. unfold allocate.
  destruct (allocation_size data offsets extra) as [size|] eqn:Hsz; [|done].
  destruct (allocation_size_spec _ _ _ _ Hd Ho He Hsz) as (Hsz8 & Hsza & _).
  unfold mbind, M_bind, get, modify, call, mret, M_ret.
  destruct (is_async && (a_free_async_space a <? size)) eqn:Has; [done|].
  destruct (best_fit size (a_free a)) as [[o l]|] eqn:Hbf; [|done].
  apply best_fit_Some in Hbf as (Hol & Hle & _).
  pose proof (wf_free_range _ Hwf _ _ Hol). pose proof (wf_size _ Hwf). unfold MAX_MAPPING in *.
  unfold take_range.
  assert (async_bytes (a_buffers a) <= a_size a).
  { pose proof (wf_async _ Hwf). pose proof (wf_async_pos _ Hwf).
    pose proof (Z.div_mod (a_size a) 2). pose proof (Z.mod_pos_bound (a_size a) 2). lia. }
  destruct (size <? l) eqn:Hsl; apply Z.ltb_lt in Hsl || apply Z.ltb_ge in Hsl;
    rewrite ?uadd_small, ?usub_small by lia;
    (destruct is_async; simpl in *;
     [apply Z.ltb_ge in Has; rewrite usub_small by lia; simpl;
      match goal with
      | |- context [low_async_space pid ?a'] =>
          destruct (low_async_space_eq pid a') as (suspect & flag & Heq & Hsus & _);
          [done|intros ? ? Hob; by apply (wf_buffer_range _ Hwf _ _ Hob)|simpl; lia|]
      end; rewrite Heq; simpl; exists suspect, flag; split_and!; [done..|];
      intros Hs; destruct (Hsus Hs) as (?&?&?); auto
     |exists false, (a_oneway_spam_detected a); destruct a; done]).
Qed.

(** Two ranges of a well-formed allocator are the same or apart. *)
Lemma wf_ff a x l y m :
  Allocator_wf a -> a_free a !! x = Some l -> a_free a !! y = Some m ->
  (x = y /\ l = m) \/ x + l < y \/ y + m < x.
Proof.
  intros Hwf Hx Hy. destruct (Z.lt_trichotomy x y) as [?|[->|?]].
  - right; left. eauto using wf_free_free.
  - left. split; congruence.
  - right; right. eauto using wf_free_free.
Qed.

Lemma wf_fb a x l y b :
  Allocator_wf a -> a_free a !! x = Some l -> a_buffers a !! y = Some b ->
  x <> y /\ (x + l <= y \/ y + b_size b <= x).
Proof.
  intros Hwf Hx Hy. split; [|eauto using wf_free_buffer].
  intros ->. destruct (wf_dom _ Hwf y); congruence.
Qed.

Lemma wf_bb a x b y c :
  Allocator_wf a -> a_buffers a !! x = Some b -> a_buffers a !! y = Some c ->
  (x = y /\ b = c) \/ x + b_size b <= y \/ y + b_size c <= x.
Proof.
  intros Hwf Hx Hy. destruct (Z.lt_trichotomy x y) as [?|[->|?]].
  - right; left. eauto using wf_buffer_buffer.
  - left. split; congruence.
  - right; right. eauto using wf_buffer_buffer.
Qed.

(** Collects what the invariant says of every range in the context. *)
Ltac ranges a Hwf :=
  repeat match goal with
  | Hx : a_free a !! ?x = Some ?l |- _ => learn (wf_free_range a Hwf x l Hx)
  | Hx : a_buffers a !! ?x = Some ?b |- _ => learn (wf_buffer_range a Hwf x b Hx)
  | Hx : a_free a !! ?x = Some ?l, Hy : a_free a !! ?y = Some ?m |- _ =>
      tryif constr_eq x y then fail else learn (wf_ff a x l y m Hwf Hx Hy)
  | Hx : a_free a !! ?x = Some ?l, Hy : a_buffers a !! ?y = Some ?b |- _ =>
      learn (wf_fb a x l y b Hwf Hx Hy)
  | Hx : a_buffers a !! ?x = Some ?b, Hy : a_buffers a !! ?y = Some ?c |- _ =>
      tryif constr_eq x y then fail else learn (wf_bb a x b y c Hwf Hx Hy)
  end.

(** Splits a lookup in an updated map into its cases. *)
Ltac split_lookups :=
  repeat match goal with
  | Hx : <[_ := _]> _ !! _ = Some _ |- _ => apply lookup_insert_Some in Hx as [[? ?]|[? Hx]]
  | Hx : delete _ _ !! _ = Some _ |- _ => apply lookup_delete_Some in Hx as [? Hx]
  end; simplify_eq/=.

Lemma take_range_Some size o l free o' l' :
  take_range size o l free !! o' = Some l' ->
  (size < l /\ o' = o + size /\ l' = l - size) \/ (o' <> o /\ free !! o' = Some l').
Proof.
  unfold take_range. destruct (Z.ltb_spec size l); intros Hx; split_lookups; auto.
Qed.

Lemma take_range_other size o l free o' l' :
  free !! o' = Some l' -> o' <> o -> o' <> o + size -> take_range size o l free !! o' = Some l'.
Proof.
  intros. unfold take_range. destruct (size <? l);
    rewrite ?lookup_insert_ne, lookup_delete_ne; auto.
Qed.

Lemma take_range_rest size o l free :
  size < l -> take_range size o l free !! (o + size) = Some (l - size).
Proof.
  intros Hl. unfold take_range. rewrite (proj2 (Z.ltb_lt _ _) Hl). apply lookup_insert_eq.
Qed.

(** Taking the first [size] bytes of a free range for a new buffer keeps the
    allocator well formed. *)
Lemma allocate_wf a o l size b flag space :
  Allocator_wf a -> a_free a !! o = Some l -> size <= l -> 8 <= size -> (8 | size) ->
  b_size b = size -> 0 <= space ->
  space = (if b_is_async b then a_free_async_space a - size else a_free_async_space a) ->
  Allocator_wf
    {| a_vm_start := a_vm_start a; a_size := a_size a;
       a_free := take_range size o l (a_free a);
       a_buffers := <[o := b]> (a_buffers a);
       a_free_async_space := space; a_oneway_spam_detected := flag |}.
Proof.
  intros Hwf Hol Hle Hs8 Hsa Hb Hsp Hspace.
  assert (a_buffers a !! o = None) as Hnone by (destruct (wf_dom _ Hwf o); congruence).
  split; simpl.
  - apply Hwf.
  - intros o'. destruct (take_range size o l (a_free a) !! o') as [l'|] eqn:Ht; [right|by left].
    apply take_range_Some in Ht as [(?&->&->)|[? Hf]].
    + rewrite lookup_insert_ne by lia. destruct (a_buffers a !! (o + size)) as [b'|] eqn:Hb'; [|done].
      ranges a Hwf. lia.
    + rewrite lookup_insert_ne by done. destruct (wf_dom _ Hwf o'); congruence.
  - intros o' l' Ht. apply take_range_Some in Ht as [(?&->&->)|[? Hf]]; ranges a Hwf; lia.
  - intros o' b' Hx. split_lookups; ranges a Hwf; lia.
  - intros x m y n Hx Hy.
    apply take_range_Some in Hx as [(?&->&->)|[? Hx]], Hy as [(?&->&->)|[? Hy]]; ranges a Hwf; lia.
  - intros x m y c Hx Hy.
    apply take_range_Some in Hx as [(?&->&->)|[? Hx]]; split_lookups; ranges a Hwf; lia.
  - intros x c y d Hx Hy. split_lookups; ranges a Hwf; lia.
  - intros x Hx. destruct (decide (o <= x < o + size)) as [Hin|Hout].
    { right. exists o, b. rewrite lookup_insert_eq. split; [done|lia]. }
    destruct (wf_cover _ Hwf x Hx) as [(o'&l'&Ho'&Hr)|(o'&b'&Ho'&Hr)].
    + left. destruct (decide (o' = o)) as [->|].
      * exists (o + size), (l - size). simplify_eq. split; [apply take_range_rest; lia|lia].
      * exists o', l'. split; [|done]. ranges a Hwf. apply take_range_other; [done|lia..].
    + right. exists o', b'. rewrite lookup_insert_ne by congruence. done.
  - intros o' l' Ht. apply take_range_Some in Ht as [(?&->&->)|[? Hf]];
      [apply Z.divide_add_r; [|done]|]; by eapply (wf_free_aligned _ Hwf).
  - intros o' b' Hx. split_lookups; [|by eapply (wf_buffer_aligned _ Hwf)].
    split; [by eapply (wf_free_aligned _ Hwf)|done].
  - rewrite async_bytes_insert by done. pose proof (wf_async _ Hwf).
    destruct (b_is_async b); lia.
  - done.
Qed.

(** ** [free] *)

(** The free list after the range [o, o + n) is returned to it. *)
Definition coalesce (o n : Z) (free : gmap Z Z) : gmap Z Z :=
  let '(start, len, free) :=
    match last_below o free with
    | Some (p, pl) => if p + pl =? o then (p, n + pl, delete p free) else (o, n, free)
    | None => (o, n, free)
    end in
  match free !! (o + n) with
  | Some nl => <[start := len + nl]> (delete (o + n) free)
  | None => <[start := len]> free
  end.

Lemma free_eq a o b :
  Allocator_wf a -> a_buffers a !! o = Some b ->
  free o a = Done (Some b,
    {| a_vm_start := a_vm_start a; a_size := a_size a;
       a_free := coalesce o (b_size b) (a_free a);
       a_buffers := delete o (a_buffers a);
       a_free_async_space :=
         if b_is_async b then a_free_async_space a + b_size b else a_free_async_space a;
       a_oneway_spam_detected := a_oneway_spam_detected a |}).
Proof.
  intros Hwf Hb. unfold free, mbind, M_bind, get, modify, call, mret, M_ret. rewrite Hb.
  pose proof (wf_size _ Hwf). unfold MAX_MAPPING in *.
  assert (0 <= a_free_async_space a <= a_size a /\ b_size b <= a_size a).
  { pose proof (wf_async_pos _ Hwf). ranges a Hwf. pose proof (wf_async _ Hwf).
    assert (0 <= async_bytes (a_buffers a)).
    { pose proof (sender_async_bytes 0 (a_buffers a)) as Hs.
      destruct Hs; [|lia]. intros o' b' Hob'. pose proof (wf_buffer_range _ Hwf _ _ Hob'). lia. }
    pose proof (Z.div_mod (a_size a) 2). pose proof (Z.mod_pos_bound (a_size a) 2). lia. }
  unfold coalesce. destruct (b_is_async b); [rewrite uadd_small by lia|]; simpl;
    (destruct (last_below o (a_free a)) as [[p pl]|] eqn:Hlb;
     [apply last_below_Some in Hlb as (Hp&?&_); ranges a Hwf; rewrite uadd_small by lia; simpl;
      destruct (Z.eqb_spec (p + pl) o); simpl; [rewrite uadd_small by lia; simpl|]|];
     ranges a Hwf; rewrite uadd_small by lia; simpl;
     (match goal with
      | |- context [?f !! (o + b_size b)] => destruct (f !! (o + b_size b)) as [nl|] eqn:Hnx
      end; simpl;
      [split_lookups; ranges a Hwf; rewrite uadd_small by lia; done|done])).
Qed.

(** Freeing a range merges it with the free ranges that touch it and leaves
    the others alone. *)
Lemma coalesce_spec a o b :
  Allocator_wf a -> a_buffers a !! o = Some b ->
  exists start len,
    coalesce o (b_size b) (a_free a) !! start = Some len /\
    ((start = o /\ forall p pl, a_free a !! p = Some pl -> p + pl <> o) \/
     (exists pl, a_free a !! start = Some pl /\ start + pl = o)) /\
    ((start + len = o + b_size b /\ a_free a !! (o + b_size b) = None) \/
     (exists nl, a_free a !! (o + b_size b) = Some nl /\ start + len = o + b_size b + nl)) /\
    (forall o' l', coalesce o (b_size b) (a_free a) !! o' = Some l' ->
       (o' = start /\ l' = len) \/
       (o' <> start /\ o' <> o + b_size b /\ a_free a !! o' = Some l')) /\
    (forall o' l', a_free a !! o' = Some l' -> o' <> start -> o' <> o + b_size b ->
       coalesce o (b_size b) (a_free a) !! o' = Some l').
Proof.
  intros Hwf Hb. unfold coalesce.
  assert (exists start len0 fr,
    match last_below o (a_free a) with
    | Some (p, pl) => if p + pl =? o then (p, b_size b + pl, delete p (a_free a)) else (o, b_size b, a_free a)
    | None => (o, b_size b, a_free a)
    end = (start, len0, fr) /\ start + len0 = o + b_size b /\
    fr = delete start (a_free a) /\ start <> o + b_size b /\
    ((start = o /\ forall p pl, a_free a !! p = Some pl -> p + pl <> o) \/
     (exists pl, a_free a !! start = Some pl /\ start + pl = o)))
    as (start & len0 & fr & -> & Hend & -> & Hne & Hstart).
  { assert (delete o (a_free a) = a_free a) as Hdel.
    { apply delete_id. destruct (wf_dom _ Hwf o); congruence. }
    destruct (last_below o (a_free a)) as [[p pl]|] eqn:Hlb.
    - apply last_below_Some in Hlb as (Hp&Hpo&Hmax). destruct (Z.eqb_spec (p + pl) o).
      + ranges a Hwf. eexists p, _, _. split_and!; [done|lia|done|lia|]. eauto.
      + ranges a Hwf. eexists o, _, _. split_and!; [done|lia|done|lia|]. left. split; [done|].
        intros q ql Hq. destruct (decide (q < o)).
        * pose proof (Hmax q ql Hq ltac:(lia)). ranges a Hwf. lia.
        * ranges a Hwf. lia.
    - ranges a Hwf. eexists o, _, _. split_and!; [done|lia|done|lia|]. left. split; [done|].
      intros q ql Hq. pose proof (last_below_None _ _ Hlb q ql Hq). ranges a Hwf. lia. }
  rewrite lookup_delete_ne by done.
  destruct (a_free a !! (o + b_size b)) as [nl|] eqn:Hn; eexists start, _;
    (split_and!; [apply lookup_insert_eq|done|..]).
  - right. exists nl. split; [done|lia].
  - intros o' l' Hx. split_lookups; auto.
  - intros o' l' Hx ? ?. by rewrite lookup_insert_ne, !lookup_delete_ne.
  - left. split; [lia|done].
  - intros o' l' Hx. split_lookups; auto. right. split_and!; congruence.
  - intros o' l' Hx ? ?. by rewrite lookup_insert_ne, !lookup_delete_ne.
Qed.

(** The merged range is apart from every other range. *)
Lemma coalesce_apart a o b start len :
  Allocator_wf a -> a_buffers a !! o = Some b ->
  ((start = o /\ forall p pl, a_free a !! p = Some pl -> p + pl <> o) \/
   (exists pl, a_free a !! start = Some pl /\ start + pl = o)) ->
  ((start + len = o + b_size b /\ a_free a !! (o + b_size b) = None) \/
   (exists nl, a_free a !! (o + b_size b) = Some nl /\ start + len = o + b_size b + nl)) ->
  (0 <= start /\ start <= o /\ o + b_size b <= start + len /\ start + len <= a_size a) /\
  (forall o' l', a_free a !! o' = Some l' -> o' <> start -> o' <> o + b_size b ->
     o' + l' < start \/ start + len < o') /\
  (forall o' c, a_buffers a !! o' = Some c -> o' <> o ->
     o' <> start /\ (o' + b_size c <= start \/ start + len <= o')).
Proof.
  intros Hwf Hb Hst Hen. pose proof (wf_buffer_range _ Hwf _ _ Hb).
  destruct Hst as [[-> Hst]|(pl & Hpl & Hst)];
    [|pose proof (wf_free_range _ Hwf _ _ Hpl)];
    (destruct Hen as [[Hen Hnx]|(nl & Hnl & Hen)]; [|pose proof (wf_free_range _ Hwf _ _ Hnl)]);
    (split_and!; [lia..| |]); intros o' l' Ho' ?.
  all: try pose proof (wf_fb _ _ _ _ _ Hwf Ho' Hb); try pose proof (wf_bb _ _ _ _ _ Hwf Ho' Hb).
  all: try pose proof (wf_ff _ _ _ _ _ Hwf Ho' Hpl); try pose proof (wf_fb _ _ _ _ _ Hwf Hpl Ho').
  all: try pose proof (wf_ff _ _ _ _ _ Hwf Ho' Hnl); try pose proof (wf_fb _ _ _ _ _ Hwf Hnl Ho').
  all: try (pose proof (wf_free_range _ Hwf _ _ Ho')); try (pose proof (wf_buffer_range _ Hwf _ _ Ho')).
  all: try (pose proof (Hst _ _ Ho')).
  all: try lia.
Qed.

Lemma free_wf a o b :
  Allocator_wf a -> a_buffers a !! o = Some b ->
  Allocator_wf
    {| a_vm_start := a_vm_start a; a_size := a_size a;
       a_free := coalesce o (b_size b) (a_free a);
       a_buffers := delete o (a_buffers a);
       a_free_async_space :=
         if b_is_async b then a_free_async_space a + b_size b else a_free_async_space a;
       a_oneway_spam_detected := a_oneway_spam_detected a |}.
Proof.
  intros Hwf Hb.
  destruct (coalesce_spec a o b Hwf Hb) as (start & len & Hc & Hst & Hen & Hold & Hnew).
  destruct (coalesce_apart a o b start len Hwf Hb Hst Hen) as (Hr & Hf & Hbuf).
  pose proof (wf_buffer_range _ Hwf _ _ Hb).
  split; simpl.
  - apply Hwf.
  - intros o'. destruct (coalesce _ _ _ !! o') as [l'|] eqn:Hx; [right|by left].
    apply eq_None_not_Some. intros [b' Hb']. split_lookups.
    apply Hold in Hx as [[-> ->]|(?&?&Hx)].
    + by destruct (Hbuf _ _ Hb').
    + destruct (wf_dom _ Hwf o'); congruence.
  - intros o' l' [[-> ->]|(?&?&Hx)]%Hold; [lia|]. by apply (wf_free_range _ Hwf).
  - intros o' b' Hx. split_lookups. by apply (wf_buffer_range _ Hwf).
  - intros x m y n Hx Hy Hlt. apply Hold in Hx as [[-> ->]|(?&?&Hx)], Hy as [[-> ->]|(?&?&Hy)].
    + lia.
    + pose proof (wf_free_range _ Hwf _ _ Hy). destruct (Hf y n); auto; lia.
    + destruct (Hf x m); auto; lia.
    + by eapply (wf_free_free _ Hwf).
  - intros x m y c Hx Hy. split_lookups. apply Hold in Hx as [[-> ->]|(?&?&Hx)].
    + destruct (Hbuf _ _ Hy) as [_ [?|?]]; auto; lia.
    + by eapply (wf_free_buffer _ Hwf).
  - intros x c y d Hx Hy. split_lookups. by eapply (wf_buffer_buffer _ Hwf).
  - intros x Hx. destruct (decide (start <= x < start + len)); [left; eauto|].
    destruct (wf_cover _ Hwf x Hx) as [(o'&l'&Ho'&Hr')|(o'&b'&Ho'&Hr')].
    + left. exists o', l'. split; [|done]. apply Hnew; [done|..]; intros ->.
      * destruct Hst as [[-> _]|(pl & Hpl & ?)]; [destruct (wf_dom _ Hwf o); congruence|].
        simplify_eq. lia.
      * destruct Hen as [[_ ?]|(nl & Hnl & ?)]; simplify_eq. lia.
    + right. exists o', b'. rewrite lookup_delete_ne; [done|]. intros <-. simplify_eq. lia.
  - intros o' l' [[-> ->]|(?&?&Hx)]%Hold; [|by eapply (wf_free_aligned _ Hwf)].
    destruct Hst as [[-> _]|(pl & Hpl & ?)].
    + by eapply (wf_buffer_aligned _ Hwf).
    + by eapply (wf_free_aligned _ Hwf).
  - intros o' b' Hx. split_lookups. by eapply (wf_buffer_aligned _ Hwf).
  - rewrite (async_bytes_delete _ _ _ Hb). pose proof (wf_async _ Hwf). destruct (b_is_async b); lia.
  - pose proof (wf_async_pos _ Hwf). destruct (b_is_async b); lia.
Qed.

Lemma Allocator_new_wf vm_start size : 0 <= size -> Allocator_wf (Allocator_new vm_start size).
Proof.
  intros Hs. unfold Allocator_new, MAX_MAPPING. split; simpl; unfold MAX_MAPPING; try lia.
  - intros o. right. apply lookup_empty.
  - intros o l [<- <-]%lookup_singleton_Some. lia.
  - intros o b. by rewrite lookup_empty.
  - intros o l o' l' [<- <-]%lookup_singleton_Some [<- <-]%lookup_singleton_Some. lia.
  - intros o l o' b _. by rewrite lookup_empty.
  - intros o b o' b'. by rewrite lookup_empty.
  - intros x Hx. left. eexists 0, _. split; [apply lookup_singleton_eq|lia].
  - intros o l [<- _]%lookup_singleton_Some. apply Z.divide_0_r.
  - intros o b. by rewrite lookup_empty.
  - change (async_bytes ∅) with 0. lia.
  - apply Z.div_pos; lia.
Qed.

Lemma allocate_preserves a data offsets extra is_async pid :
  Allocator_wf a -> 0 <= data -> 0 <= offsets -> 0 <= extra ->
  wp False (allocate data offsets extra is_async pid) (fun _ => Allocator_wf) a.
Proof.
  intros Hwf Hd Ho He. unfold wpx.
  pose proof (allocate_eq a data offsets extra is_async pid Hwf Hd Ho He) as Heq.
  destruct (allocation_size data offsets extra) as [size|] eqn:Hsz; [|by rewrite Heq].
  destruct (is_async && (a_free_async_space a <? size)) eqn:Has; [by rewrite Heq|].
  destruct (best_fit size (a_free a)) as [[o l]|] eqn:Hbf; [|by rewrite Heq].
  destruct Heq as (suspect & flag & -> & _).
  apply best_fit_Some in Hbf as (Hol & Hle & _).
  destruct (allocation_size_spec _ _ _ _ Hd Ho He Hsz) as (? & ? & _).
  pose proof (wf_async_pos _ Hwf).
  eapply allocate_wf; try done. destruct is_async; simpl in *; [|lia].
  apply Z.ltb_ge in Has. lia.
Qed.

Lemma free_preserves a o : Allocator_wf a -> wp False (free o) (fun _ => Allocator_wf) a.
Proof.
  intros Hwf. unfold wpx. destruct (a_buffers a !! o) as [b|] eqn:Hb.
  - rewrite (free_eq a o b Hwf Hb). by apply free_wf.
  - unfold free, mbind, M_bind, get. by rewrite Hb.
Qed.

(** Returning a range just taken from the start of a free range gives the
    free list back. *)
Lemma coalesce_take_range a size o l :
  Allocator_wf a -> a_free a !! o = Some l -> 0 < size <= l ->
  coalesce o size (take_range size o l (a_free a)) = a_free a.
Proof.
  intros Hwf Hol Hs. unfold coalesce.
  assert (match last_below o (take_range size o l (a_free a)) with
    | Some (p, pl) => if p + pl =? o then (p, size + pl, delete p (take_range size o l (a_free a)))
                      else (o, size, take_range size o l (a_free a))
    | None => (o, size, take_range size o l (a_free a))
    end = (o, size, take_range size o l (a_free a))) as ->.
  { destruct (last_below _ _) as [[p pl]|] eqn:Hlb; [|done].
    apply last_below_Some in Hlb as (Hp & Hlt & _).
    apply take_range_Some in Hp as [(?&->&->)|[? Hp]]; [lia|].
    ranges a Hwf. destruct (Z.eqb_spec (p + pl) o); [lia|done]. }
  unfold take_range. destruct (Z.ltb_spec size l).
  - rewrite lookup_insert_eq, delete_insert_id.
    + apply insert_delete_id. rewrite Hol. f_equal. lia.
    + rewrite lookup_delete_ne by lia.
      destruct (a_free a !! (o + size)) eqn:Hn; [|done]. ranges a Hwf. lia.
  - replace l with size in * by lia. rewrite lookup_delete_ne by lia.
    destruct (a_free a !! (o + size)) as [n|] eqn:Hn; [ranges a Hwf; lia|].
    by apply insert_delete_id.
Qed.

(** ** Properties *)

(** a new allocator is well formed (its free ranges and buffers tile the
    mapping without overlap, are 8-aligned and fully coalesced, and its one-way
    space adds up to half the mapping), and [allocate] and [free] never panic
    on a well-formed allocator and keep it well formed, for every request a
    transaction can make. *)
Theorem allocator_invariant vm_start size :
  0 <= size ->
  Allocator_wf (Allocator_new vm_start size) /\
  forall a, Allocator_wf a ->
    (forall data offsets extra is_async pid, 0 <= data -> 0 <= offsets -> 0 <= extra ->
       wp False (allocate data offsets extra is_async pid) (fun _ => Allocator_wf) a) /\
    (forall offset, wp False (free offset) (fun _ => Allocator_wf) a).
Proof.
  intros Hs. split; [by apply Allocator_new_wf|]. intros a Hwf.
  split; intros; [by apply allocate_preserves|by apply free_preserves].
Qed.

(** C8: what a successful allocation returns.  The buffer is 8-aligned, large
    enough for the aligned data, offsets and extra areas, lies inside the
    mapping and overlaps no buffer that was allocated before; it comes from
    the start of a free range, and no shorter free range would have fitted
    (nor an equally long one at a lower offset). *)
Theorem allocate_best_fit a a' data offsets extra is_async pid al :
  Allocator_wf a -> 0 <= data -> 0 <= offsets -> 0 <= extra ->
  allocate data offsets extra is_async pid a = Done (Ok al, a') ->
  exists size len b,
    allocation_size data offsets extra = Some size /\ data + offsets + extra <= size /\
    a_buffers a' !! al_offset al = Some b /\ b_size b = size /\ (8 | al_offset al) /\
    0 <= al_offset al /\ al_offset al + size <= a_size a /\
    (forall o c, a_buffers a !! o = Some c ->
       a_buffers a' !! o = Some c /\
       (o + b_size c <= al_offset al \/ al_offset al + size <= o)) /\
    a_free a !! al_offset al = Some len /\ size <= len /\
    (forall o l, a_free a !! o = Some l -> size <= l ->
       len < l \/ (len = l /\ al_offset al <= o)).
Proof.
  intros Hwf Hd Ho He Hal.
  pose proof (allocate_eq a data offsets extra is_async pid Hwf Hd Ho He) as Heq.
  destruct (allocation_size data offsets extra) as [size|] eqn:Hsz; [|congruence].
  destruct (is_async && _); [congruence|].
  destruct (best_fit size (a_free a)) as [[o l]|] eqn:Hbf; [|congruence].
  destruct Heq as (suspect & flag & Heq & _). rewrite Heq in Hal. injection Hal as <- <-.
  apply best_fit_Some in Hbf as (Hol & Hle & Hmin).
  destruct (allocation_size_spec _ _ _ _ Hd Ho He Hsz) as (? & ? & ?).
  pose proof (wf_free_range _ Hwf _ _ Hol).
  eexists size, l, _. simpl. split_and!; [done..|apply lookup_insert_eq|done| |lia|lia| |done|done|done].
  - by eapply wf_free_aligned.
  - intros o' c Hc. ranges a Hwf. rewrite lookup_insert_ne by lia. split; [done|lia].
Qed.

(** [allocate] fails exactly as the kernel's does: [EINVAL] when the sizes
    overflow, [ENOSPC] when a one-way request exceeds the free one-way space
    or no free range is long enough; a failed request changes nothing. *)
Theorem allocate_errors a data offsets extra is_async pid e a' :
  Allocator_wf a -> 0 <= data -> 0 <= offsets -> 0 <= extra ->
  allocate data offsets extra is_async pid a = Done (Err e, a') ->
  a' = a /\
  ((e = EINVAL /\ allocation_size data offsets extra = None) \/
   (e = ENOSPC /\ exists size, allocation_size data offsets extra = Some size /\
     ((is_async = true /\ a_free_async_space a < size) \/
      (forall o l, a_free a !! o = Some l -> l < size)))).
Proof.
  intros Hwf Hd Ho He Hal.
  pose proof (allocate_eq a data offsets extra is_async pid Hwf Hd Ho He) as Heq.
  destruct (allocation_size data offsets extra) as [size|] eqn:Hsz.
  - destruct (is_async && (a_free_async_space a <? size)) eqn:Has.
    + rewrite Heq in Hal. injection Hal as <- <-. split; [done|right; split; [done|]].
      exists size. split; [done|]. left. apply andb_true_iff in Has as [-> Hlt].
      split; [done|]. by apply Z.ltb_lt.
    + destruct (best_fit size (a_free a)) as [[o l]|] eqn:Hbf.
      * destruct Heq as (? & ? & Heq & _). congruence.
      * rewrite Heq in Hal. injection Hal as <- <-. split; [done|right; split; [done|]].
        exists size. split; [done|]. right. by apply best_fit_None.
  - rewrite Heq in Hal. injection Hal as <- <-. auto.
Qed.

(** Freeing a buffer right after allocating it restores the allocator
    exactly, down to the coalesced free list and the one-way space; only the
    spam episode flag may differ. *)
Theorem allocate_free_round_trip a a' data offsets extra is_async pid al :
  Allocator_wf a -> 0 <= data -> 0 <= offsets -> 0 <= extra ->
  allocate data offsets extra is_async pid a = Done (Ok al, a') ->
  exists b, free (al_offset al) a' =
    Done (Some b, a <| a_oneway_spam_detected := a_oneway_spam_detected a' |>).
Proof.
  intros Hwf Hd Ho He Hal.
  pose proof (allocate_preserves a data offsets extra is_async pid Hwf Hd Ho He) as Hwf'.
  apply (wp_done _ _ _ _ _ _ _ Hal) in Hwf'.
  pose proof (allocate_eq a data offsets extra is_async pid Hwf Hd Ho He) as Heq.
  destruct (allocation_size data offsets extra) as [size|] eqn:Hsz; [|congruence].
  destruct (is_async && _); [congruence|].
  destruct (best_fit size (a_free a)) as [[o l]|] eqn:Hbf; [|congruence].
  destruct Heq as (suspect & flag & Heq & _). rewrite Heq in Hal. injection Hal as <- <-.
  apply best_fit_Some in Hbf as (Hol & Hle & _).
  destruct (allocation_size_spec _ _ _ _ Hd Ho He Hsz) as (? & ? & _).
  eexists. cbn [al_offset]. rewrite (free_eq _ _ _ Hwf' (lookup_insert_eq _ _ _)). simpl.
  rewrite coalesce_take_range by (done || lia).
  rewrite delete_insert_id by (destruct (wf_dom _ Hwf o); congruence).
  unfold set_field; simpl. repeat f_equal. destruct is_async; lia.
Qed.

(** The one-way spam heuristic.  A sender is flagged only by a one-way
    request that leaves less than a tenth of the mapping for one-way calls,
    and at most once per episode: the flag was clear and is now set. *)
Theorem spam_suspect_once a a' data offsets extra is_async pid al :
  Allocator_wf a -> 0 <= data -> 0 <= offsets -> 0 <= extra ->
  allocate data offsets extra is_async pid a = Done (Ok al, a') ->
  al_oneway_spam_suspect al = true ->
  is_async = true /\ a_oneway_spam_detected a = false /\ a_oneway_spam_detected a' = true /\
  a_free_async_space a' < a_size a' / 10.
Proof.
  intros Hwf Hd Ho He Hal Hsus.
  pose proof (allocate_eq a data offsets extra is_async pid Hwf Hd Ho He) as Heq.
  destruct (allocation_size data offsets extra) as [size|] eqn:Hsz; [|congruence].
  destruct (is_async && _); [congruence|].
  destruct (best_fit size (a_free a)) as [[o l]|] eqn:Hbf; [|congruence].
  destruct Heq as (suspect & flag & Heq & Hna & Hsp). rewrite Heq in Hal. injection Hal as <- <-.
  simpl in *. subst. destruct is_async; [|by destruct Hna].
  destruct Hsp as (? & ? & ?); auto.
Qed.
End facts.

(** ** Witnesses: a mapping of 1 KiB *)

#[local] Existing Instance debug_env.

Definition small_mapping : Allocator := Allocator_new 4096 1024.
Definition after_call : outcome (result Allocation Errno * Allocator) := allocate 24 8 0 false 7 small_mapping.

Lemma allocator_invariant_witness :
  wp False (allocate 24 8 0 false 7) (fun _ => Allocator_wf) small_mapping.
Proof.
  apply (allocator_invariant 4096 1024); [lia|apply Allocator_new_wf; lia|lia..].
Defined.

Lemma allocate_best_fit_witness :
  exists a' al, after_call = Done (Ok al, a') /\ (8 | al_offset al).
Proof.
  assert (Hal : exists a' al, after_call = Done (Ok al, a')) by (eexists _, _; vm_compute; reflexivity).
  destruct Hal as (a' & al & Hal). exists a', al. split; [exact Hal|].
  destruct (allocate_best_fit small_mapping a' 24 8 0 false 7 al) as (size & len & b & _ & _ & _ & _ & H8 & _);
    [apply Allocator_new_wf; lia|lia..|exact Hal|exact H8].
Defined.

Lemma allocate_errors_witness :
  exists a', allocate 4096 0 0 false 7 small_mapping = Done (Err ENOSPC, a') /\ a' = small_mapping.
Proof.
  exists small_mapping. split; [vm_compute; reflexivity|].
  apply (allocate_errors small_mapping 4096 0 0 false 7 ENOSPC);
    [apply Allocator_new_wf; lia|lia..|vm_compute; reflexivity].
Defined.

Lemma allocate_free_round_trip_witness :
  exists a' al b, after_call = Done (Ok al, a') /\
    free (al_offset al) a' = Done (Some b, small_mapping <| a_oneway_spam_detected := a_oneway_spam_detected a' |>).
Proof.
  assert (Hal : exists a' al, after_call = Done (Ok al, a')) by (eexists _, _; vm_compute; reflexivity).
  destruct Hal as (a' & al & Hal).
  destruct (allocate_free_round_trip small_mapping a' 24 8 0 false 7 al) as [b Hb];
    [apply Allocator_new_wf; lia|lia..|exact Hal|].
  exists a', al, b. split; [exact Hal|exact Hb].
Defined.

(** The second of two one-way calls that fill the one-way space. *)
Lemma spam_suspect_once_witness :
  exists r a1 al a2, allocate 300 0 0 true 7 small_mapping = Done (r, a1) /\
    allocate 136 0 0 true 7 a1 = Done (Ok al, a2) /\
    al_oneway_spam_suspect al = true /\ a_oneway_spam_detected a2 = true.
Proof.
  assert (Hal : exists r a1 al a2, allocate 300 0 0 true 7 small_mapping = Done (r, a1) /\
    allocate 136 0 0 true 7 a1 = Done (Ok al, a2) /\ al_oneway_spam_suspect al = true).
  { eexists _, _, _, _. split; [vm_compute; reflexivity|]. vm_compute. split; reflexivity. }
  destruct Hal as (r & a1 & al & a2 & H1 & H2 & Hs). exists r, a1, al, a2. split; [exact H1|].
  split; [exact H2|]. split; [exact Hs|].
  destruct (spam_suspect_once a1 a2 136 0 0 true 7 al) as (_ & _ & Hd & _); [|lia..|exact H2|exact Hs|exact Hd].
  apply (wp_done _ _ _ _ _ _ _ H1 (allocate_preserves small_mapping 300 0 0 true 7
    (Allocator_new_wf 4096 1024 ltac:(lia)) ltac:(lia) ltac:(lia) ltac:(lia))).
Defined.
