(* ===== verification/Trace.v ===== *)
(** Transaction tracing ([src/crates/aim-binder-driver/src/trace.rs]): the spans of
    each call and the interface token its data starts with. *)

From S2P Require Import Prelude Text Host Uapi.
From Stdlib Require Import ZArith Lia.
From Stdlib Require Import Strings.Byte.
From stdpp Require Import base numbers list gmap sorting strings.

Open Scope Z_scope.

(** [Duration] and [Instant] are nanosecond counts; a [String] decoded from a
    parcel is its list of code points. *)

(** One transaction, as the driver saw it. *)
Record TraceRecord := mkTraceRecord {
  tr_at : Z;
  tr_transaction_id : TxnId;
  tr_from_parent : option TxnId;
  tr_to_parent : option TxnId;
  tr_device : string;
  tr_from_pid : Z;
  tr_from_euid : Z;
  tr_from_tid : Tid;
  tr_to_pid : Z;
  tr_descriptor : list Z;
  tr_code : Z;
  tr_oneway : bool;
  tr_waiting : Z;
  tr_loopers : Z;
  tr_delivered : option Z;
  tr_to_tid : Tid;
  tr_latency : option Z;
  tr_returned : option Z;
  tr_data : option (list byte);
  tr_reply : option (list byte);
}.

#[export] Instance TraceRecord_eta : Settable TraceRecord := fun r =>
  mkTraceRecord (tr_at r) (tr_transaction_id r) (tr_from_parent r) (tr_to_parent r)
    (tr_device r) (tr_from_pid r) (tr_from_euid r) (tr_from_tid r) (tr_to_pid r)
    (tr_descriptor r) (tr_code r) (tr_oneway r) (tr_waiting r) (tr_loopers r)
    (tr_delivered r) (tr_to_tid r) (tr_latency r) (tr_returned r) (tr_data r) (tr_reply r).

(** An outstanding call, or a reply its sender has not yet read. *)
Record PendingTraceRecord := mkPendingTraceRecord {
  ptr_id : TxnId;
  ptr_returning : bool;
  ptr_age : Z;
  ptr_record : TraceRecord;
  ptr_from_stack : option TxnId;
  ptr_to_stack : option TxnId;
  ptr_from_queued : Z;
  ptr_to_queued : Z;
}.

#[export] Instance PendingTraceRecord_eta : Settable PendingTraceRecord := fun r =>
  mkPendingTraceRecord (ptr_id r) (ptr_returning r) (ptr_age r) (ptr_record r)
    (ptr_from_stack r) (ptr_to_stack r) (ptr_from_queued r) (ptr_to_queued r).

Record PendingTraceSnapshot := mkPendingTraceSnapshot {
  pts_at : Z;
  pts_records : list PendingTraceRecord;
}.

Record Trace := mkTrace {
  tc_start : option Z;
  tc_pending : gmap TxnId (Z * TraceRecord);
  tc_returning : gmap TxnId (Z * TraceRecord);
  tc_done : list TraceRecord;
  tc_captures : list (list Z * Z);
}.

#[export] Instance Trace_eta : Settable Trace := fun r =>
  mkTrace (tc_start r) (tc_pending r) (tc_returning r) (tc_done r) (tc_captures r).

(** [Instant] subtraction saturates at zero. *)
Definition since (now start : Z) : Z := Z.max 0 (now - start).

Definition Trace_new (now : Z) : Trace := mkTrace (Some now) ∅ ∅ [] [].

Definition Trace_capture (descriptor : list Z) (code : Z) (t : Trace) : Trace :=
  t <| tc_captures ::= (fun l => l ++ [(descriptor, code)]) |>.

Definition Trace_captures (descriptor : list Z) (code : Z) (t : Trace) : bool :=
  existsb (fun dc => bool_decide (dc.1 = descriptor) && (dc.2 =? code)) (tc_captures t).

Definition Trace_sent (id : TxnId) (record : TraceRecord) (now : Z) (t : Trace) : Trace :=
  let record := record <| tr_at := since now (default now (tc_start t)) |>
                       <| tr_transaction_id := id |> in
  if tr_oneway record then t <| tc_done ::= (fun l => l ++ [record]) |>
  else t <| tc_pending ::= insert id (now, record) |>.

Definition Trace_delivered (id : TxnId) (tid : Tid) (now : Z) (t : Trace) : Trace :=
  t <| tc_pending ::= alter (fun sr : Z * TraceRecord =>
         (sr.1, sr.2 <| tr_delivered := Some (since now sr.1) |> <| tr_to_tid := tid |>)) id |>.

Definition Trace_captured (id : TxnId) (t : Trace) : bool :=
  match tc_pending t !! id with
  | Some (_, record) => bool_decide (is_Some (tr_data record))
  | None => false
  end.

Definition Trace_reply_data (id : TxnId) (data : list byte) (t : Trace) : Trace :=
  t <| tc_pending ::= alter (fun sr : Z * TraceRecord =>
         (sr.1, sr.2 <| tr_reply := Some data |>)) id |>.

Definition Trace_replied (id reply : TxnId) (to_parent : option TxnId) (now : Z) (t : Trace) : Trace :=
  match tc_pending t !! id with
  | Some (sent, record) =>
      let record := record <| tr_latency := Some (since now sent) |> <| tr_to_parent := to_parent |> in
      t <| tc_pending ::= delete id |> <| tc_returning ::= insert reply (sent, record) |>
  | None => t
  end.

Definition Trace_returned (reply : TxnId) (now : Z) (t : Trace) : Trace :=
  match tc_returning t !! reply with
  | Some (sent, record) =>
      let record := record <| tr_returned := Some (since now sent) |> in
      t <| tc_returning ::= delete reply |> <| tc_done ::= (fun l => l ++ [record]) |>
  | None => t
  end.

(** Both removals run: the argument of [or] is evaluated first. *)
Definition Trace_dropped (id : TxnId) (t : Trace) : Trace :=
  let found := match tc_pending t !! id with Some p => Some p | None => tc_returning t !! id end in
  let t := t <| tc_pending ::= delete id |> <| tc_returning ::= delete id |> in
  match found with
  | Some (_, record) => t <| tc_done ::= (fun l => l ++ [record]) |>
  | None => t
  end.

Definition snapshot_entry (now : Z) (returning : bool) (e : TxnId * (Z * TraceRecord)) :
    PendingTraceRecord :=
  mkPendingTraceRecord e.1 returning (since now e.2.1) e.2.2 None None 0 0.

Definition by_id (a b : PendingTraceRecord) : Prop := ptr_id a <= ptr_id b.
#[export] Instance by_id_dec a b : Decision (by_id a b) := Z_le_dec (ptr_id a) (ptr_id b).

Definition Trace_snapshot (now : Z) (t : Trace) : PendingTraceSnapshot :=
  let records :=
    (snapshot_entry now false <$> map_to_list (tc_pending t)) ++
    (snapshot_entry now true <$> map_to_list (tc_returning t)) in
  mkPendingTraceSnapshot
    (match tc_start t with Some start => since now start | None => 0 end)
    (merge_sort by_id records).

Definition Trace_take (t : Trace) : list TraceRecord * Trace :=
  (tc_done t, t <| tc_done := [] |>).

(** ** The interface token *)

(** [chunks_exact(2)] read as little-endian units. *)
Fixpoint utf16_units (bytes : list byte) : list Z :=
  match bytes with
  | b0 :: b1 :: rest => of_le_bytes [b0; b1] :: utf16_units rest
  | _ => []
  end.

(** [b"SYST"], [b"VNDR"] and [b"RECO"]. *)
Definition HEADERS : list (list byte) :=
  [[x53; x59; x53; x54]; [x56; x4e; x44; x52]; [x52; x45; x43; x4f]].

Definition is_ascii_graphic (b : byte) : bool :=
  (0x21 <=? byte_to_Z b) && (byte_to_Z b <=? 0x7e).

(** libbinder's token: strict-mode policy, work source uid, header, length and
    UTF-16 name. *)
Definition aidl_descriptor (data : list byte) : option (list Z) :=
  header ← slice data 8 4;
  if negb (existsb (fun h => bool_decide (header = rev h)) HEADERS) then None else
  len_bytes ← slice data 12 4;
  let len := as_i 32 (of_le_bytes len_bytes) in
  if len <=? 0 then None else
  let units := take (Z.to_nat len) (utf16_units (drop 16 data)) in
  if Z.of_nat (length units) =? len then Some (utf16_lossy units) else None.

(** The bytes before the first NUL. *)
Fixpoint until_nul (data : list byte) : list byte :=
  match data with
  | [] => []
  | b :: rest => if bool_decide (b = x00) then [] else b :: until_nul rest
  end.

Definition descriptor (data : list byte) : list Z :=
  match aidl_descriptor data with
  | Some name => name
  | None =>
      let name := until_nul data in
      if existsb (fun b => bool_decide (b = x40)) name && forallb is_ascii_graphic name
      then byte_to_Z <$> name
      else []
  end.

(** The token libbinder writes: the strict-mode policy and work source words,
    the header word, the count of units, the units and a terminating zero. *)
Definition token (policy source header : list byte) (name : list Z) : list byte :=
  let units := encode_utf16 name in
  policy ++ source ++ rev header ++ le_bytes 4 (Z.of_nat (length units)) ++
  (u ← units ++ [0]; le_bytes 2 u).

(** ** The life of a traced call *)

(** The spans of a record are ordered as the call passes its four points. *)
Definition spans_ordered (r : TraceRecord) : Prop :=
  (forall d, tr_delivered r = Some d -> 0 <= d) /\
  (forall l, tr_latency r = Some l -> 0 <= l /\ (forall d, tr_delivered r = Some d -> d <= l)) /\
  (forall b, tr_returned r = Some b -> exists l, tr_latency r = Some l /\ l <= b).

(** A record no point of which has passed. *)
Definition unsent (r : TraceRecord) : Prop :=
  tr_delivered r = None /\ tr_latency r = None /\ tr_returned r = None.

(** [traced now sent taken t]: the driver has reported [sent] transactions and
    their progress, under identifiers not in use, by the time [now], and the
    records [taken] have been collected. *)
Inductive traced : Z -> nat -> list TraceRecord -> Trace -> Prop :=
| traced_new now : traced now 0 [] (Trace_new now)
| traced_sent now n l t now' id r :
    traced now n l t -> now <= now' -> unsent r -> tc_pending t !! id = None ->
    traced now' (S n) l (Trace_sent id r now' t)
| traced_delivered now n l t now' id tid :
    traced now n l t -> now <= now' -> traced now' n l (Trace_delivered id tid now' t)
| traced_reply_data now n l t id data :
    traced now n l t -> traced now n l (Trace_reply_data id data t)
| traced_replied now n l t now' id reply parent :
    traced now n l t -> now <= now' -> tc_returning t !! reply = None ->
    traced now' n l (Trace_replied id reply parent now' t)
| traced_returned now n l t now' reply :
    traced now n l t -> now <= now' -> traced now' n l (Trace_returned reply now' t)
| traced_dropped now n l t id :
    traced now n l t -> (tc_pending t !! id = None \/ tc_returning t !! id = None) ->
    traced now n l (Trace_dropped id t)
| traced_take now n l t :
    traced now n l t -> traced now n (l ++ (Trace_take t).1) (Trace_take t).2.

Record TraceInv (now : Z) (n : nat) (l : list TraceRecord) (t : Trace) : Prop := {
  ti_pending : forall id sent r, tc_pending t !! id = Some (sent, r) ->
    sent <= now /\ tr_latency r = None /\ tr_returned r = None /\
    (forall d, tr_delivered r = Some d -> 0 <= d <= now - sent);
  ti_returning : forall id sent r, tc_returning t !! id = Some (sent, r) ->
    sent <= now /\ tr_returned r = None /\ spans_ordered r /\
    exists la, tr_latency r = Some la /\ la <= now - sent;
  ti_done : Forall spans_ordered (l ++ tc_done t);
  ti_count : (length (l ++ tc_done t) + size (tc_pending t) + size (tc_returning t))%nat = n;
}.

Lemma TraceInv_later now now' n l t : now <= now' -> TraceInv now n l t -> TraceInv now' n l t.
Proof.
  intros Hle [Hp Hr Hd Hc]. split; [| |done|done].
  - intros id sent r Hid. destruct (Hp _ _ _ Hid) as (?&?&?&Hdel). split_and!; [lia|done|done|].
    intros d Hd'. specialize (Hdel d Hd'). lia.
  - intros id sent r Hid. destruct (Hr _ _ _ Hid) as (?&?&?&la&?&?). split_and!; [lia|done|done|].
    exists la. split; [done|lia].
Qed.

Lemma pending_ordered now n l t id sent r :
  TraceInv now n l t -> tc_pending t !! id = Some (sent, r) -> spans_ordered r.
Proof.
  intros HI Hid. destruct (ti_pending _ _ _ _ HI _ _ _ Hid) as (_ & Hl & Hb & Hd).
  split_and!; [intros d Hd'; specialize (Hd d Hd'); lia|congruence|congruence].
Qed.

Lemma length_snoc_app {A} (l l' : list A) x : length (l ++ l' ++ [x]) = S (length (l ++ l')).
Proof. rewrite !length_app. simpl. lia. Qed.

Lemma TraceInv_sent now n l t id r :
  unsent r -> tc_pending t !! id = None -> TraceInv now n l t -> TraceInv now (S n) l (Trace_sent id r now t).
Proof.
  intros (Hd0 & Hl0 & Hb0) Hid [Hp Hr Hd Hc]. unfold Trace_sent. simpl. destruct (tr_oneway r); split; simpl; try done.
  - rewrite app_assoc. apply Forall_app. split; [done|]. apply Forall_singleton. split_and!; simpl; congruence.
  - rewrite length_snoc_app. lia.
  - intros i sent r'. rewrite lookup_insert_Some. intros [[<- [= <- <-]]|[_ Hi]]; [|by eapply Hp].
    simpl. split_and!; [lia|done|done|congruence].
  - rewrite map_size_insert_None by done. lia.
Qed.

Lemma size_alter {A} (f : A -> A) (m : gmap TxnId A) i : size (alter f i m) = size m.
Proof.
  rewrite <- !size_dom. f_equal. apply set_eq. intros j. rewrite !elem_of_dom.
  destruct (decide (i = j)) as [->|]; [rewrite lookup_alter_eq|by rewrite lookup_alter_ne].
  by rewrite fmap_is_Some.
Qed.

Lemma TraceInv_alter now n l t id (f : Z * TraceRecord -> Z * TraceRecord) :
  (forall sr, (f sr).1 = sr.1 /\ tr_latency (f sr).2 = tr_latency sr.2 /\ tr_returned (f sr).2 = tr_returned sr.2) ->
  (forall sr d, sr.1 <= now -> (forall d, tr_delivered sr.2 = Some d -> 0 <= d <= now - sr.1) ->
     tr_delivered (f sr).2 = Some d -> 0 <= d <= now - sr.1) ->
  TraceInv now n l t -> TraceInv now n l (t <| tc_pending ::= alter f id |>).
Proof.
  intros Hf Hd' [Hp Hr Hd Hc]. split; simpl; [|done|done|].
  - intros i sent r. rewrite lookup_alter_Some. intros [(<- & [s0 r0] & Hi & Heq)|[_ Hi]]; [|by eapply Hp].
    destruct (Hp _ _ _ Hi) as (Hs & Hl & Hb & Hdel). destruct (Hf (s0, r0)) as (H1 & H2 & H3).
    pose proof (fun d => Hd' (s0, r0) d Hs Hdel) as Hd1. rewrite <- Heq in *. simpl in *. subst.
    split_and!; [done|congruence|congruence|done].
  - by rewrite size_alter.
Qed.

Lemma size_delete_lookup {A} (m : gmap TxnId A) i x : m !! i = Some x -> S (size (delete i m)) = size m.
Proof.
  intros Hi. rewrite <- (insert_delete_id m i x Hi) at 2. by rewrite map_size_insert_None by apply lookup_delete_eq.
Qed.

Lemma TraceInv_replied now n l t id reply parent :
  tc_returning t !! reply = None -> TraceInv now n l t -> TraceInv now n l (Trace_replied id reply parent now t).
Proof.
  intros Hreply HI. unfold Trace_replied. destruct (tc_pending t !! id) as [[sent r]|] eqn:Hid; [|done].
  pose proof (ti_pending _ _ _ _ HI _ _ _ Hid) as (Hs & Hl & Hb & Hdel). destruct HI as [Hp Hr Hd Hc].
  split; simpl; [| |done|].
  - intros i s0 r0. rewrite lookup_delete_Some. intros [_ Hi]. by eapply Hp.
  - intros i s0 r0. rewrite lookup_insert_Some. intros [[<- [= <- <-]]|[_ Hi]]; [|by eapply Hr].
    simpl. unfold since. split_and!; [done|done| |eexists; split; [done|lia]].
    split_and!; simpl; [intros d Hd'; specialize (Hdel d Hd'); lia| |congruence].
    intros la [= <-]. split; [lia|]. intros d Hd'. specialize (Hdel d Hd'). lia.
  - rewrite map_size_insert_None by done. pose proof (size_delete_lookup _ _ _ Hid). lia.
Qed.

Lemma TraceInv_finish now n l t r pending returning :
  TraceInv now n l t -> spans_ordered r -> pending ⊆ tc_pending t -> returning ⊆ tc_returning t ->
  S (size pending + size returning) = (size (tc_pending t) + size (tc_returning t))%nat ->
  TraceInv now n l (mkTrace (tc_start t) pending returning (tc_done t ++ [r]) (tc_captures t)).
Proof.
  intros [Hp Hr Hd Hc] Hro Hsp Hsr Hsize. split; simpl.
  - intros i s0 r0 Hi. eapply Hp, lookup_weaken, Hsp. done.
  - intros i s0 r0 Hi. eapply Hr, lookup_weaken, Hsr. done.
  - rewrite app_assoc. apply Forall_app. auto.
  - rewrite length_snoc_app. lia.
Qed.

Lemma TraceInv_returned now n l t reply : TraceInv now n l t -> TraceInv now n l (Trace_returned reply now t).
Proof.
  intros HI. unfold Trace_returned. destruct (tc_returning t !! reply) as [[sent r]|] eqn:Hid; [|done].
  destruct (ti_returning _ _ _ _ HI _ _ _ Hid) as (Hs & Hb & (Ho1 & Ho2 & _) & la & Hla & Hle).
  apply (TraceInv_finish _ _ _ _ _ _ _ HI); simpl; [|done|apply delete_subseteq|].
  - split_and!; [done|done|]. intros b [= <-]. exists la. unfold since. split; [done|lia].
  - pose proof (size_delete_lookup _ _ _ Hid). lia.
Qed.

Lemma TraceInv_dropped now n l t id :
  tc_pending t !! id = None \/ tc_returning t !! id = None ->
  TraceInv now n l t -> TraceInv now n l (Trace_dropped id t).
Proof.
  intros Hone HI. unfold Trace_dropped. destruct (tc_pending t !! id) as [[sent r]|] eqn:Hid.
  - destruct Hone as [?|Hone]; [done|].
    apply (TraceInv_finish _ _ _ _ _ _ _ HI); simpl; [by eapply pending_ordered|apply delete_subseteq..|].
    rewrite (delete_id (tc_returning t)) by done. pose proof (size_delete_lookup _ _ _ Hid). lia.
  - destruct (tc_returning t !! id) as [[sent r]|] eqn:Hret.
    + apply (TraceInv_finish _ _ _ _ _ _ _ HI); simpl; [|apply delete_subseteq..|].
      * by destruct (ti_returning _ _ _ _ HI _ _ _ Hret) as (_ & _ & ? & _).
      * rewrite (delete_id (tc_pending t)) by done. pose proof (size_delete_lookup _ _ _ Hret). lia.
    + replace (set_field _ _ _) with t; [done|]. destruct t; unfold set_field; simpl in *. by rewrite !delete_id.
Qed.

Lemma traced_inv now n l t : traced now n l t -> TraceInv now n l t.
Proof.
  induction 1 as [now|now n l t now' id r _ IH Hle Hr Hid|now n l t now' id tid _ IH Hle|now n l t id data _ IH
    |now n l t now' id reply parent _ IH Hle Hret|now n l t now' reply _ IH Hle|now n l t id _ IH Hone|now n l t _ IH].
  - split; simpl; [done|done|constructor|reflexivity].
  - apply TraceInv_sent; [done..|by eapply TraceInv_later].
  - apply TraceInv_alter; [done| |by eapply TraceInv_later].
    intros sr d Hs _ [= <-]. unfold since. lia.
  - apply TraceInv_alter; [done|auto|done].
  - apply TraceInv_replied; [done|by eapply TraceInv_later].
  - apply TraceInv_returned. by eapply TraceInv_later.
  - by apply TraceInv_dropped.
  - destruct IH as [Hp Hr Hd Hc]. split; simpl; [done|done|by rewrite app_nil_r|by rewrite app_nil_r].
Qed.

(** C13: tracing loses no call and times each one consistently: however the
    calls interleave, every transaction sent is in exactly one of the records
    collected, the finished ones, the pending and the returning ones, and in a
    finished record delivery comes no later than the reply, and the reply no
    later than the sender's read of it. *)
Theorem traced_calls_accounted now n l t :
  traced now n l t ->
  (length l + length (tc_done t) + size (tc_pending t) + size (tc_returning t))%nat = n /\
  Forall spans_ordered (l ++ tc_done t).
Proof. intros [_ _ Hd Hc]%traced_inv. rewrite length_app in Hc. done. Qed.

Lemma traced_calls_accounted_witness :
  let r := mkTraceRecord 0 0 None None "" 1 2 3 4 [] 5 false 0 0 None 0 None None None None in
  let t := Trace_returned 8 40 (Trace_replied 7 8 None 30 (Trace_delivered 7 9 20
             (Trace_sent 7 r 10 (Trace_new 0)))) in
  length (tc_done t) = 1%nat /\ Forall spans_ordered (tc_done t).
Proof.
  intros r t. destruct (traced_calls_accounted 40 1 [] t) as [Hc Ho]; [|split; [vm_compute; reflexivity|exact Ho]].
  apply (traced_returned 30); [|lia]. apply (traced_replied 20); [|lia|reflexivity].
  apply (traced_delivered 10); [|lia]. apply (traced_sent 0); [apply traced_new|lia|done|reflexivity].
Defined.

(** ** The interface token is read back *)

Lemma utf16_units_bytes units rest :
  Forall (in_u 16) units -> utf16_units ((u ← units; le_bytes 2 u) ++ rest) = units ++ utf16_units rest.
Proof.
  induction 1 as [|u units Hu _ IH]; [done|]. cbn [mbind list_bind]. rewrite <- app_assoc.
  change (le_bytes 2 u) with [byte_of_Z u; byte_of_Z (u / 256)]. cbn [app utf16_units]. f_equal; [|exact IH].
  change [byte_of_Z u; byte_of_Z (u / 256)] with (le_bytes 2 u). rewrite of_le_bytes_le_bytes.
  apply Z.mod_small. exact Hu.
Qed.

Lemma aidl_descriptor_token policy source header name :
  length policy = 4%nat -> length source = 4%nat -> header ∈ HEADERS -> name <> [] -> Forall is_scalar name ->
  Z.of_nat (length (encode_utf16 name)) < 2 ^ 31 ->
  aidl_descriptor (token policy source header name) = Some name.
Proof.
  intros Hp Hs Hh Hne Hsc Hlen. unfold aidl_descriptor, token.
  assert (length header = 4%nat) as Hl4 by (revert Hh; unfold HEADERS; rewrite !elem_of_cons; intros [->|[->|[->|Hn]]]; [done..|by apply not_elem_of_nil in Hn]).
  set (units := encode_utf16 name) in *.
  assert (0 < Z.of_nat (length units)) as Hpos.
  { destruct name as [|c name]; [done|]. unfold units, encode_utf16. cbn [mbind list_bind].
    rewrite length_app. destruct (c <? 0x10000); simpl; lia. }
  rewrite (app_assoc policy), (slice_app (policy ++ source) _ _ 8 4) by (rewrite ?length_app, ?length_rev; lia).
  cbn [mbind option_bind]. replace (existsb _ HEADERS) with true.
  2:{ symmetry. apply existsb_exists. exists header. split; [by apply list_elem_of_In|by apply bool_decide_eq_true]. }
  rewrite (app_assoc (policy ++ source)), (slice_app ((policy ++ source) ++ rev header) _ _ 12 4)
    by (rewrite ?length_app, ?length_rev, ?length_le_bytes; lia).
  cbn [mbind option_bind negb]. rewrite of_le_bytes_le_bytes.
  change (256 ^ Z.of_nat 4) with (2 ^ 32). rewrite (as_i_of_mod 32) by (unfold in_i; lia). replace (Z.of_nat (length units) <=? 0) with false by lia.
  rewrite (app_assoc _ (le_bytes 4 _)).
  rewrite drop_app_length' by (rewrite ?length_app, ?length_rev, ?length_le_bytes; lia).
  rewrite bind_app, utf16_units_bytes by (by apply encode_utf16_units). rewrite take_app_length' by lia.
  rewrite Z.eqb_refl. f_equal. by apply utf16_lossy_encode.
Qed.

(** The interface a call is made on is read back from its data: for a token
    libbinder writes under any of its three headers, with any strict-mode
    policy and work source, the traced descriptor is the interface's name,
    characters outside the basic plane included. *)
Theorem descriptor_reads_token policy source header name :
  length policy = 4%nat -> length source = 4%nat -> header ∈ HEADERS -> name <> [] -> Forall is_scalar name ->
  Z.of_nat (length (encode_utf16 name)) < 2 ^ 31 ->
  descriptor (token policy source header name) = name.
Proof. intros. unfold descriptor. by rewrite aidl_descriptor_token. Qed.

Lemma descriptor_reads_token_witness :
  descriptor (token (le_bytes 4 0x42000004) (le_bytes 4 (2 ^ 32 - 1)) [x53; x59; x53; x54]
    [0x61; 0x2e; 0x49; 0x1f600]) = [0x61; 0x2e; 0x49; 0x1f600].
Proof.
  apply descriptor_reads_token; [reflexivity|reflexivity|left|done| |vm_compute; reflexivity].
  repeat constructor; unfold is_scalar; lia.
Defined.
