(* ===== verification/Shadow.v ===== *)
(** Shadow copies ([src/crates/aim-binder-driver/src/shadow.rs]): each transaction to
    a watched node and its reply, handed to a bounded channel outside the
    driver. *)

From S2P Require Import Prelude Host Uapi.
From Stdlib Require Import ZArith Lia.
From Stdlib Require Import Strings.Byte.
From stdpp Require Import base numbers list gmap.

Open Scope Z_scope.

(** What a file stands for: its device and inode. *)
Definition FileId : Type := Z * Z.

Inductive ShadowKind :=
| ShBinder (node : NodeId) (owner_pid : Z)
| ShFile (id : option FileId)
| ShOther.

Record ShadowObject := mkShadowObject {
  so_offset : Z;
  so_kind : ShadowKind;
}.

(** A parcel as its sender wrote it. *)
Record ShadowParcel := mkShadowParcel {
  sp_data : list byte;
  sp_objects : list ShadowObject;
}.

#[export] Instance ShadowParcel_eta : Settable ShadowParcel := fun r =>
  mkShadowParcel (sp_data r) (sp_objects r).

Inductive ShadowReply :=
| SrReply (flags : Z) (parcel : ShadowParcel)
| SrOneWay
| SrFailed.

(** One transaction and its reply. *)
Record ShadowCopy := mkShadowCopy {
  sc_seq : Z;
  sc_node : NodeId;
  sc_root : NodeId;
  sc_follows : option Z;
  sc_from_pid : Z;
  sc_from_euid : Z;
  sc_from_tid : Tid;
  sc_to_pid : Z;
  sc_sent : Z;
  sc_code : Z;
  sc_flags : Z;
  sc_data : ShadowParcel;
  sc_reply : ShadowReply;
}.

#[export] Instance ShadowCopy_eta : Settable ShadowCopy := fun r =>
  mkShadowCopy (sc_seq r) (sc_node r) (sc_root r) (sc_follows r) (sc_from_pid r)
    (sc_from_euid r) (sc_from_tid r) (sc_to_pid r) (sc_sent r) (sc_code r)
    (sc_flags r) (sc_data r) (sc_reply r).

(** Where copies go: the sending end of a channel, a function that names
    files, and a shared counter of dropped copies. *)
Record ShadowSink := mkShadowSink {
  sk_copies : Z;
  sk_identify : File -> option FileId;
  sk_dropped : Z;
}.

(** The bounded channels and the drop counters the sinks share with the rest
    of the program. *)
Record Channel := mkChannel {
  ch_capacity : Z;
  ch_connected : bool;
  ch_queue : list ShadowCopy;
}.

#[export] Instance Channel_eta : Settable Channel := fun r =>
  mkChannel (ch_capacity r) (ch_connected r) (ch_queue r).

Record Sinks := mkSinks {
  si_channels : gmap Z Channel;
  si_dropped : gmap Z Z;
}.

#[export] Instance Sinks_eta : Settable Sinks := fun r =>
  mkSinks (si_channels r) (si_dropped r).

(** [SyncSender::try_send]: a full channel drops the copy and counts it, a
    disconnected one drops it silently. *)
Definition ShadowSink_send (sink : ShadowSink) (copy : ShadowCopy) (sinks : Sinks) : Sinks :=
  match si_channels sinks !! sk_copies sink with
  | Some ch =>
      if negb (ch_connected ch) then sinks
      else if Z.of_nat (length (ch_queue ch)) <? ch_capacity ch then
        sinks <| si_channels ::=
          insert (sk_copies sink) (ch <| ch_queue ::= (fun q => q ++ [copy]) |>) |>
      else
        sinks <| si_dropped ::= partial_alter
          (fun n => Some (as_u 64 (default 0 n + 1))) (sk_dropped sink) |>
  | None => sinks
  end.

Record Watch := mkWatch {
  wa_sink : ShadowSink;
  wa_root : NodeId;
  wa_follows : option Z;
}.

Record Shadow := mkShadow {
  sh_watched : gmap NodeId Watch;
  sh_pending : gmap TxnId (ShadowSink * ShadowCopy);
  sh_next_seq : Z;
}.

#[export] Instance Shadow_eta : Settable Shadow := fun r =>
  mkShadow (sh_watched r) (sh_pending r) (sh_next_seq r).

Definition Shadow_default : Shadow := mkShadow ∅ ∅ 0.

Definition Shadow_watch (node : NodeId) (sink : ShadowSink) (s : Shadow) : Shadow :=
  s <| sh_watched ::= insert node (mkWatch sink node None) |>.

Definition Shadow_identify (node : option NodeId) (s : Shadow) : option (File -> option FileId) :=
  n ← node;
  w ← sh_watched s !! n;
  Some (sk_identify (wa_sink w)).

Definition Shadow_identify_reply (txn : TxnId) (s : Shadow) : option (File -> option FileId) :=
  p ← sh_pending s !! txn;
  Some (sk_identify p.1).

Section operations.
Context `{Env}.

(** A call to a watched node was sent. *)
Definition Shadow_sent (id : TxnId) (node : NodeId) (copy : ShadowCopy) (oneway : bool) :
    M (Shadow * Sinks) unit :=
  '(s, sinks) ← get;
  match sh_watched s !! node with
  | None => mret tt
  | Some watch =>
      seq ← call (uadd 64 (sh_next_seq s) 1);
      let s := s <| sh_next_seq := seq |> in
      let copy := copy <| sc_seq := seq |> <| sc_node := node |>
                       <| sc_root := wa_root watch |> <| sc_follows := wa_follows watch |> in
      let sink := wa_sink watch in
      if oneway then put (s, ShadowSink_send sink (copy <| sc_reply := SrOneWay |>) sinks)
      else put (s <| sh_pending ::= insert id (sink, copy) |>, sinks)
  end.

End operations.

(** [watched.entry(node).or_insert(watch)] for each node handed out. *)
Fixpoint watch_own (watch : Watch) (own : list NodeId) (watched : gmap NodeId Watch) :
    gmap NodeId Watch :=
  match own with
  | [] => watched
  | node :: own =>
      watch_own watch own
        (match watched !! node with
         | Some _ => watched
         | None => <[node := watch]> watched
         end)
  end.

(** [txn] was replied to; [own] are the nodes the reply hands out. *)
Definition Shadow_replied (txn : TxnId) (flags : Z) (parcel : ShadowParcel) (own : list NodeId)
    (ss : Shadow * Sinks) : Shadow * Sinks :=
  let '(s, sinks) := ss in
  match sh_pending s !! txn with
  | None => ss
  | Some (sink, copy) =>
      let watch := mkWatch sink (sc_root copy) (Some (sc_seq copy)) in
      (s <| sh_pending ::= delete txn |> <| sh_watched ::= watch_own watch own |>,
       ShadowSink_send sink (copy <| sc_reply := SrReply flags parcel |>) sinks)
  end.

(** [txn] ended without a reply. *)
Definition Shadow_failed (txn : TxnId) (ss : Shadow * Sinks) : Shadow * Sinks :=
  let '(s, sinks) := ss in
  match sh_pending s !! txn with
  | None => ss
  | Some (sink, copy) =>
      (s <| sh_pending ::= delete txn |>,
       ShadowSink_send sink (copy <| sc_reply := SrFailed |>) sinks)
  end.

Definition Shadow_node_gone (node : NodeId) (s : Shadow) : Shadow :=
  s <| sh_watched ::= delete node |>.

(** ** The copies a channel sees *)

(** [SyncReceiver::recv] of the thread that replays the copies. *)
Definition receive (channel : Z) (sinks : Sinks) : Sinks :=
  sinks <| si_channels ::= alter (set_field ch_queue tail) channel |>.

(** The states the driver and the replaying thread take the copies through. *)
Inductive shadowed `{Env} : Shadow -> Sinks -> Prop :=
| shadowed_new sinks :
    (forall i ch, si_channels sinks !! i = Some ch -> ch_queue ch = [] /\ 0 <= ch_capacity ch) ->
    shadowed Shadow_default sinks
| shadowed_watch s sinks node sink : shadowed s sinks -> shadowed (Shadow_watch node sink s) sinks
| shadowed_sent s sinks id node copy oneway s' sinks' :
    shadowed s sinks -> Shadow_sent id node copy oneway (s, sinks) = Done (tt, (s', sinks')) -> shadowed s' sinks'
| shadowed_replied s sinks txn flags parcel own s' sinks' :
    shadowed s sinks -> Shadow_replied txn flags parcel own (s, sinks) = (s', sinks') -> shadowed s' sinks'
| shadowed_failed s sinks txn s' sinks' :
    shadowed s sinks -> Shadow_failed txn (s, sinks) = (s', sinks') -> shadowed s' sinks'
| shadowed_node_gone s sinks node : shadowed s sinks -> shadowed (Shadow_node_gone node s) sinks
| shadowed_receive s sinks channel : shadowed s sinks -> shadowed s (receive channel sinks).

(** A copy numbered by now, that follows an earlier one if any. *)
Definition numbered (last : Z) (c : ShadowCopy) : Prop :=
  1 <= sc_seq c <= last /\ forall f, sc_follows c = Some f -> f < sc_seq c.

Definition queued (sinks : Sinks) (i : Z) (c : ShadowCopy) : Prop :=
  exists ch, si_channels sinks !! i = Some ch /\ c ∈ ch_queue ch.

Record SinksInv (last : Z) (sinks : Sinks) : Prop := {
  sn_numbered : forall i c, queued sinks i c -> numbered last c;
  sn_once : forall i ch, si_channels sinks !! i = Some ch -> NoDup (sc_seq <$> ch_queue ch);
  sn_room : forall i ch, si_channels sinks !! i = Some ch -> Z.of_nat (length (ch_queue ch)) <= ch_capacity ch;
}.

Record ShadowInv (s : Shadow) (sinks : Sinks) : Prop := {
  si_sinks : SinksInv (sh_next_seq s) sinks;
  si_next : 0 <= sh_next_seq s;
  si_watched : forall n w f, sh_watched s !! n = Some w -> wa_follows w = Some f -> f <= sh_next_seq s;
  si_pending : forall x sc, sh_pending s !! x = Some sc -> numbered (sh_next_seq s) sc.2;
  si_distinct : forall x y a b, sh_pending s !! x = Some a -> sh_pending s !! y = Some b ->
    sc_seq a.2 = sc_seq b.2 -> x = y;
  si_unsent : forall x a i c, sh_pending s !! x = Some a -> queued sinks i c -> sc_seq c <> sc_seq a.2;
}.

(** A call to a watched node, its reply, which hands out another node, and a
    one-way call to that node. *)
Definition demo_sink : ShadowSink := mkShadowSink 1 (fun _ => None) 1.
Definition demo_copy : ShadowCopy :=
  mkShadowCopy 0 0 0 None 10 20 30 40 0 1 0 (mkShadowParcel [] []) SrFailed.
Definition demo_sinks : Sinks := mkSinks {[1 := mkChannel 2 true []]} ∅.

Definition demo_sent (id : TxnId) (node : NodeId) (oneway : bool) (ss : Shadow * Sinks) : Shadow * Sinks :=
  match Shadow_sent (H := debug_env) id node demo_copy oneway ss with Done (_, ss') => ss' | _ => ss end.

Definition demo_first : Shadow * Sinks :=
  demo_sent 7 5 false (Shadow_watch 5 demo_sink Shadow_default, demo_sinks).
Definition demo_second : Shadow * Sinks := Shadow_replied 7 0 (mkShadowParcel [] []) [9] demo_first.
Definition demo_third : Shadow * Sinks := demo_sent 8 9 true demo_second.

Lemma queued_send sink copy sinks i c :
  queued (ShadowSink_send sink copy sinks) i c -> c = copy \/ queued sinks i c.
Proof.
  unfold ShadowSink_send. destruct (si_channels sinks !! sk_copies sink) as [ch|] eqn:Hch; [|auto].
  destruct (negb _); [auto|]. destruct (_ <? _); [|auto].
  intros (ch' & Hch' & Hin). simpl in Hch'. apply lookup_insert_Some in Hch' as [[<- <-]|[_ Hi]].
  - simpl in Hin. apply elem_of_app in Hin as [Hin|Hin]; [right; by exists ch|left; by apply list_elem_of_singleton].
  - right. by exists ch'.
Qed.

Lemma SinksInv_send last sink copy sinks :
  SinksInv last sinks -> numbered last copy -> (forall i c, queued sinks i c -> sc_seq c <> sc_seq copy) ->
  SinksInv last (ShadowSink_send sink copy sinks).
Proof.
  intros [Hn Ho Hr] Hcopy Hnew. split.
  { intros i c Hc. apply queued_send in Hc as [->|Hc]; eauto. }
  all: intros i ch; unfold ShadowSink_send; destruct (si_channels sinks !! sk_copies sink) as [ch0|] eqn:Hch0; [|eauto];
    destruct (negb _); [eauto|]; destruct (Z.ltb_spec (Z.of_nat (length (ch_queue ch0))) (ch_capacity ch0)); [|eauto];
    simpl; rewrite lookup_insert_Some; intros [[<- <-]|[_ Hi]]; [|eauto]; simpl.
  - rewrite fmap_app. apply NoDup_app. split_and!; [eauto| |apply NoDup_singleton].
    intros q Hq Hq'. apply list_elem_of_fmap in Hq as (c & -> & Hc). apply list_elem_of_singleton in Hq'.
    exact (Hnew (sk_copies sink) c (ex_intro _ ch0 (conj Hch0 Hc)) Hq').
  - rewrite length_app. simpl. lia.
Qed.

Lemma numbered_later last last' c : last <= last' -> numbered last c -> numbered last' c.
Proof. intros Hle [??]. split; [lia|done]. Qed.

Lemma SinksInv_later last last' sinks : last <= last' -> SinksInv last sinks -> SinksInv last' sinks.
Proof. intros Hle [Hn Ho Hr]. split; [|done|done]. intros i c Hc. by eapply numbered_later, Hn. Qed.

Lemma watch_own_lookup watch own watched n w :
  watch_own watch own watched !! n = Some w -> watched !! n = Some w \/ w = watch.
Proof.
  revert watched. induction own as [|node own IH]; intros watched; simpl; [auto|].
  intros Hw. apply IH in Hw as [Hw| ->]; [|auto]. destruct (watched !! node) eqn:Hnode; [auto|].
  apply lookup_insert_Some in Hw as [[_ ->]|[_ ?]]; auto.
Qed.

(** A pending copy leaves for its channel. *)
Lemma ShadowInv_finish s sinks txn sink copy reply watched :
  ShadowInv s sinks -> sh_pending s !! txn = Some (sink, copy) ->
  (forall n w f, watched !! n = Some w -> wa_follows w = Some f -> f <= sh_next_seq s) ->
  ShadowInv (mkShadow watched (delete txn (sh_pending s)) (sh_next_seq s))
    (ShadowSink_send sink (copy <| sc_reply := reply |>) sinks).
Proof.
  intros [Hs Hn Hw Hp Hd Hu] Htxn Hwatched. split; simpl; [|done|done| | |].
  - apply SinksInv_send; [done|exact (Hp _ _ Htxn)|]. intros i c. exact (Hu _ _ i c Htxn).
  - intros x sc [_ Hx]%lookup_delete_Some. eauto.
  - intros x y a b [_ Hx]%lookup_delete_Some [_ Hy]%lookup_delete_Some. eauto.
  - intros x a i c [Hne Hx]%lookup_delete_Some Hc. apply queued_send in Hc as [->|Hc]; [|eauto].
    simpl. intros Heq. by apply Hne, (Hd _ _ _ _ Htxn Hx).
Qed.

(** A new number is above all others. *)
Lemma fresh_number last c sinks i : SinksInv last sinks -> queued sinks i c -> sc_seq c < last + 1.
Proof. intros Hs Hc. destruct (sn_numbered _ _ Hs _ _ Hc). lia. Qed.

Lemma ShadowInv_sent `{Env} s sinks id node copy oneway s' sinks' :
  overflow_checks = true -> ShadowInv s sinks ->
  Shadow_sent id node copy oneway (s, sinks) = Done (tt, (s', sinks')) -> ShadowInv s' sinks'.
Proof.
  intros Hov [Hs Hn Hw Hp Hd Hu]. unfold Shadow_sent, mbind, M_bind, get, call, mret, M_ret, put. simpl.
  destruct (sh_watched s !! node) as [watch|] eqn:Hwatch; [|by intros [= <- <-]].
  destruct (uadd 64 (sh_next_seq s) 1) as [seq| |] eqn:Hseq; [|done..].
  apply uadd_checked in Hseq as [-> _]; [|done].
  assert (forall reply, numbered (sh_next_seq s + 1) (copy <| sc_seq := sh_next_seq s + 1 |> <| sc_node := node |>
    <| sc_root := wa_root watch |> <| sc_follows := wa_follows watch |> <| sc_reply := reply |>)) as Hnum.
  { intros reply. split; simpl; [lia|]. intros f Hf. specialize (Hw _ _ _ Hwatch Hf). lia. }
  pose proof (fun i c => fresh_number (sh_next_seq s) c sinks i Hs) as Hfresh.
  assert (forall x sc, sh_pending s !! x = Some sc -> sc_seq sc.2 < sh_next_seq s + 1) as Hbelow.
  { intros x sc Hx. destruct (Hp _ _ Hx). lia. }
  assert (SinksInv (sh_next_seq s + 1) sinks) by (eapply SinksInv_later; [|done]; lia).
  destruct oneway; intros [= <- <-]; split; simpl; try lia.
  - apply SinksInv_send; [done|apply Hnum|]. intros i c Hc. specialize (Hfresh _ _ Hc). simpl. lia.
  - intros n w f H1 H2. specialize (Hw _ _ _ H1 H2). lia.
  - intros x sc Hx. eapply numbered_later; [|by eapply Hp]. lia.
  - eauto.
  - intros x a i c Hx Hc. apply queued_send in Hc as [->|Hc]; [|eauto]. simpl. specialize (Hbelow _ _ Hx). lia.
  - done.
  - intros n w f H1 H2. specialize (Hw _ _ _ H1 H2). lia.
  - intros x sc Hx. apply lookup_insert_Some in Hx as [[<- <-]|[_ Hx]]; [exact (Hnum (sc_reply copy))|].
    eapply numbered_later; [|by eapply Hp]. lia.
  - intros x y a b Hx Hy Heq. apply lookup_insert_Some in Hx as [[<- <-]|[_ Hx]];
      apply lookup_insert_Some in Hy as [[<- <-]|[_ Hy]]; [done| | |eauto];
      [specialize (Hbelow _ _ Hy)|specialize (Hbelow _ _ Hx)]; simpl in Heq; lia.
  - intros x a i c Hx Hc. apply lookup_insert_Some in Hx as [[<- <-]|[_ Hx]]; [|eauto].
    specialize (Hfresh _ _ Hc). simpl. lia.
Qed.

Lemma queued_receive channel sinks i c : queued (receive channel sinks) i c -> queued sinks i c.
Proof.
  intros (ch & Hch & Hc). unfold receive in Hch. simpl in Hch.
  apply lookup_alter_Some in Hch as [(<- & ch0 & Hch0 & ->)|[_ Hch]]; [|by exists ch].
  exists ch0. split; [done|]. simpl in Hc. destruct (ch_queue ch0); [done|]. by right.
Qed.

Lemma SinksInv_receive last channel sinks : SinksInv last sinks -> SinksInv last (receive channel sinks).
Proof.
  intros [Hn Ho Hr]. split; [intros i c Hc%queued_receive; eauto|..]; intros i ch Hch;
    unfold receive in Hch; simpl in Hch; apply lookup_alter_Some in Hch as [(<- & ch0 & Hch0 & ->)|[_ Hch]]; eauto; simpl.
  - specialize (Ho _ _ Hch0). destruct (ch_queue ch0); [done|]. by apply NoDup_cons in Ho as [_ ?].
  - specialize (Hr _ _ Hch0). destruct (ch_queue ch0); simpl in *; lia.
Qed.

Lemma shadowed_inv `{Env} s sinks : overflow_checks = true -> shadowed s sinks -> ShadowInv s sinks.
Proof.
  intros Hov. induction 1 as [sinks Hnew|s sinks node sink _ IH|s sinks id node copy oneway s' sinks' _ IH Hs
    |s sinks txn flags parcel own s' sinks' _ IH Hs|s sinks txn s' sinks' _ IH Hs|s sinks node _ IH|s sinks ch _ IH].
  - split; simpl; try done. split; [intros i c (ch & Hch & Hc)|intros i ch Hch..];
      destruct (Hnew _ _ Hch) as [Hq ?]; rewrite Hq in *; [by apply not_elem_of_nil in Hc|constructor|done].
  - destruct IH as [? ? Hw ? ? ?]. split; simpl; try done.
    intros n w f Hn Hf. apply lookup_insert_Some in Hn as [[<- <-]|[_ Hn]]; [done|eauto].
  - by eapply ShadowInv_sent.
  - unfold Shadow_replied in Hs. destruct (sh_pending s !! txn) as [[sink copy]|] eqn:Htxn; [|by injection Hs as <- <-].
    injection Hs as <- <-. apply (ShadowInv_finish s sinks txn); [done|done|].
    intros n w f Hn Hf. apply watch_own_lookup in Hn as [Hn| ->]; [by eapply si_watched|].
    simpl in Hf. injection Hf as <-. apply (si_pending _ _ IH _ _ Htxn).
  - unfold Shadow_failed in Hs. destruct (sh_pending s !! txn) as [[sink copy]|] eqn:Htxn; [|by injection Hs as <- <-].
    injection Hs as <- <-. apply (ShadowInv_finish s sinks txn); [done|done|]. apply IH.
  - destruct IH as [? ? Hw ? ? ?]. split; simpl; try done. intros n w f [_ Hn]%lookup_delete_Some Hf. eauto.
  - destruct IH as [? ? ? ? ? Hu]. split; try done; [by apply SinksInv_receive|].
    intros x a i c Hx Hc%queued_receive. eauto.
Qed.

(** C14: a copied call reaches the replaying side at most once and in a
    consistent order: no channel holds two copies of one number, a call still
    waiting for its reply is on no channel, no channel outgrows its capacity,
    and a copy that follows another (its node came in that call's reply) has
    the larger number. *)
Theorem shadow_copies_once `{Env} s sinks :
  overflow_checks = true -> shadowed s sinks ->
  (forall i ch, si_channels sinks !! i = Some ch ->
     NoDup (sc_seq <$> ch_queue ch) /\ Z.of_nat (length (ch_queue ch)) <= ch_capacity ch) /\
  (forall i c, queued sinks i c ->
     (forall x a, sh_pending s !! x = Some a -> sc_seq c <> sc_seq a.2) /\
     (forall f, sc_follows c = Some f -> f < sc_seq c)).
Proof.
  intros Hov Hs%shadowed_inv; [|done]. split.
  - intros i ch Hch. split; [by eapply sn_once, Hch; apply Hs|by eapply sn_room, Hch; apply Hs].
  - intros i c Hc. split; [intros x a Hx; by eapply si_unsent|]. eapply sn_numbered, Hc. apply Hs.
Qed.

Lemma shadow_copies_once_witness :
  exists ch, si_channels demo_third.2 !! 1 = Some ch /\ length (ch_queue ch) = 2%nat /\
    NoDup (sc_seq <$> ch_queue ch) /\ Z.of_nat (length (ch_queue ch)) <= ch_capacity ch.
Proof.
  exists (default (mkChannel 0 true []) (si_channels demo_third.2 !! 1)).
  split; [vm_compute; reflexivity|]. split; [vm_compute; reflexivity|].
  assert (shadowed (H := debug_env) demo_third.1 demo_third.2) as Hs.
  2:{ apply (proj1 (shadow_copies_once (H := debug_env) _ _ eq_refl Hs) 1). vm_compute. reflexivity. }
  eapply (shadowed_sent demo_second.1 demo_second.2 8 9 demo_copy true); [|vm_compute; reflexivity].
  eapply (shadowed_replied demo_first.1 demo_first.2 7 0 (mkShadowParcel [] []) [9]); [|vm_compute; reflexivity].
  eapply (shadowed_sent (Shadow_watch 5 demo_sink Shadow_default) demo_sinks 7 5 demo_copy false); [|vm_compute; reflexivity].
  apply shadowed_watch, shadowed_new. intros i ch Hch. unfold demo_sinks in Hch. simpl in Hch.
  by apply lookup_singleton_Some in Hch as [<- <-].
Defined.
