(* ===== verification/State.v ===== *)
(** Driver state and the reference-counting rules
    ([src/crates/aim-binder-driver/src/state.rs]): contexts, processes, threads,
    nodes, references, death notifications and the work queues.  Every
    function here runs with the driver's lock held. *)

From S2P Require Import Prelude Host Uapi Alloc Trace Shadow.
From Stdlib Require Import ZArith Lia.
From Stdlib Require Import Strings.Byte.
From stdpp Require Import base numbers list gmap sorting strings.

Open Scope Z_scope.

Definition LOOPER_REGISTERED : Z := 0x01.
Definition LOOPER_ENTERED : Z := 0x02.
Definition LOOPER_EXITED : Z := 0x04.
Definition LOOPER_INVALID : Z := 0x08.
Definition LOOPER_WAITING : Z := 0x10.
Definition LOOPER_POLL : Z := 0x20.

(** [looper & mask != 0], [looper |= mask], [looper &= !mask]. *)
Definition has_flag (v mask : Z) : bool := negb (Z.land v mask =? 0).

Inductive ErrorSlot := SlotReturn | SlotReply.

Inductive Work :=
| WTransaction (id : TxnId)
| WTransactionComplete
| WOnewaySpamSuspect
| WReturnError (cmd : Z) (slot : ErrorSlot)
| WNode (id : NodeId)
| WDeath (id : DeathId).

Inductive WorkList :=
| WlProc (proc : ProcId)
| WlThread (proc : ProcId) (tid : Tid).

#[export] Instance ErrorSlot_eq_dec : EqDecision ErrorSlot.
Proof. solve_decision. Defined.
#[export] Instance Work_eq_dec : EqDecision Work.
Proof. solve_decision. Defined.
#[export] Instance WorkList_eq_dec : EqDecision WorkList.
Proof. solve_decision. Defined.

Record ExtendedError := mkExtendedError {
  ee_id : Z;
  ee_command : Z;
  ee_param : Z;
}.

Record Thread := mkThread {
  t_looper : Z;
  t_looper_need_return : bool;
  t_todo : list Work;
  t_process_todo : bool;
  t_transaction_stack : option TxnId;
  t_forwarded_sender : option Credentials;
  t_return_error : option Z;
  t_reply_error : option Z;
  t_ee : ExtendedError;
  t_interrupted : bool;
  t_wait : Condvar;
  t_parked : option Resume;
}.

#[export] Instance Thread_eta : Settable Thread := fun r =>
  mkThread (t_looper r) (t_looper_need_return r) (t_todo r) (t_process_todo r)
    (t_transaction_stack r) (t_forwarded_sender r) (t_return_error r) (t_reply_error r)
    (t_ee r) (t_interrupted r) (t_wait r) (t_parked r).

(** A new thread returns to user space from its first read even without work. *)
Definition Thread_new (wait : Condvar) : Thread :=
  {| t_looper := 0;
     t_looper_need_return := true;
     t_todo := [];
     t_process_todo := false;
     t_transaction_stack := None;
     t_forwarded_sender := None;
     t_return_error := None;
     t_reply_error := None;
     t_ee := mkExtendedError 0 0 0;
     t_interrupted := false;
     t_wait := wait;
     t_parked := None |}.

Record Ref := mkRef {
  r_node : NodeId;
  r_strong : Z;
  r_weak : Z;
  r_death : option DeathId;
}.

#[export] Instance Ref_eta : Settable Ref := fun r =>
  mkRef (r_node r) (r_strong r) (r_weak r) (r_death r).

Record Proc := mkProc {
  p_context : nat;
  p_creds : Credentials;
  p_threads : gmap Tid Thread;
  p_nodes : gmap Z NodeId;
  p_refs_by_desc : gmap Z Ref;
  p_refs_by_node : gmap NodeId Z;
  p_todo : list Work;
  p_waiting_threads : list Tid;
  p_delivered_death : list DeathId;
  p_alloc : option Allocator;
  p_receive : option Z;
  p_max_threads : Z;
  p_requested_threads : Z;
  p_requested_threads_started : Z;
  p_oneway_spam_detection : bool;
  p_nonblocking : bool;
  p_notifier : option Notifier;
  p_outstanding_txns : Z;
}.

#[export] Instance Proc_eta : Settable Proc := fun r =>
  mkProc (p_context r) (p_creds r) (p_threads r) (p_nodes r) (p_refs_by_desc r)
    (p_refs_by_node r) (p_todo r) (p_waiting_threads r) (p_delivered_death r) (p_alloc r)
    (p_receive r) (p_max_threads r) (p_requested_threads r) (p_requested_threads_started r)
    (p_oneway_spam_detection r) (p_nonblocking r) (p_notifier r) (p_outstanding_txns r).

Record Node := mkNode {
  n_proc : option ProcId;
  n_context : nat;
  n_ptr : Z;
  n_cookie : Z;
  n_internal_strong_refs : Z;
  n_local_strong_refs : Z;
  n_local_weak_refs : Z;
  n_refs : gset ProcId;
  n_has_strong_ref : bool;
  n_pending_strong_ref : bool;
  n_has_weak_ref : bool;
  n_pending_weak_ref : bool;
  n_accept_fds : bool;
  n_txn_security_ctx : bool;
  n_has_async_transaction : bool;
  n_async_todo : list TxnId;
  n_work_queued : option WorkList;
}.

#[export] Instance Node_eta : Settable Node := fun r =>
  mkNode (n_proc r) (n_context r) (n_ptr r) (n_cookie r) (n_internal_strong_refs r)
    (n_local_strong_refs r) (n_local_weak_refs r) (n_refs r) (n_has_strong_ref r)
    (n_pending_strong_ref r) (n_has_weak_ref r) (n_pending_weak_ref r) (n_accept_fds r)
    (n_txn_security_ctx r) (n_has_async_transaction r) (n_async_todo r) (n_work_queued r).

Inductive DeathState := Armed | DeadBinder | DeadBinderAndClear | Clear.

#[export] Instance DeathState_eq_dec : EqDecision DeathState.
Proof. solve_decision. Defined.

Inductive DeathLocation :=
| LocQueued (list : WorkList)
| LocDelivered.

Record Death := mkDeath {
  d_proc : ProcId;
  d_cookie : Z;
  d_state : DeathState;
  d_location : option DeathLocation;
}.

#[export] Instance Death_eta : Settable Death := fun r =>
  mkDeath (d_proc r) (d_cookie r) (d_state r) (d_location r).

Record FdFixup := mkFdFixup {
  ff_offset : Z;
  ff_file : File;
  ff_in_array : bool;
}.

Record Txn := mkTxn {
  x_from : option (ProcId * Tid);
  x_from_parent : option TxnId;
  x_to_proc : option ProcId;
  x_to_thread : option Tid;
  x_to_parent : option TxnId;
  x_code : Z;
  x_flags : Z;
  x_sender_euid : Z;
  x_sender_credentials : Credentials;
  x_delegated_sender : bool;
  x_target_node : option NodeId;
  x_buffer : option Z;
  x_security_ctx : Z;
  x_fd_fixups : list FdFixup;
}.

#[export] Instance Txn_eta : Settable Txn := fun r =>
  mkTxn (x_from r) (x_from_parent r) (x_to_proc r) (x_to_thread r) (x_to_parent r)
    (x_code r) (x_flags r) (x_sender_euid r) (x_sender_credentials r) (x_delegated_sender r)
    (x_target_node r) (x_buffer r) (x_security_ctx r) (x_fd_fixups r).

Definition is_oneway (t : Txn) : bool := has_flag (x_flags t) TF_ONE_WAY.

Record Context := mkContext {
  c_name : string;
  c_mgr_node : option NodeId;
  c_mgr_uid : option Z;
}.

#[export] Instance Context_eta : Settable Context := fun r =>
  mkContext (c_name r) (c_mgr_node r) (c_mgr_uid r).

(** What the driver does to the outside once its lock is released. *)
Inductive Event :=
| EvResume (r : Resume)
| EvNotifyOne (c : Condvar)
| EvNotifyAll (c : Condvar)
| EvNotify (n : Notifier) (tid : option Tid).

(** The driver's state.  The fields after [st_shadow] are not the driver's
    own: the receive memories and shadow channels it holds references to, the
    wakes it has delivered, the next condition variable and the next reading
    of the clock. *)
Record State := mkState {
  st_contexts : list Context;
  st_procs : gmap ProcId Proc;
  st_nodes : gmap NodeId Node;
  st_txns : gmap TxnId Txn;
  st_deaths : gmap DeathId Death;
  st_next_id : Z;
  st_wakes : list Condvar;
  st_resumes : list Resume;
  st_notifications : list (Notifier * option Tid);
  st_trace : option Trace;
  st_shadow : option Shadow;
  st_memories : gmap Z HeapReceiveMemory;
  st_sinks : Sinks;
  st_events : list Event;
  st_next_condvar : Condvar;
  st_ticks : nat;
}.

#[export] Instance State_eta : Settable State := fun r =>
  mkState (st_contexts r) (st_procs r) (st_nodes r) (st_txns r) (st_deaths r) (st_next_id r)
    (st_wakes r) (st_resumes r) (st_notifications r) (st_trace r) (st_shadow r)
    (st_memories r) (st_sinks r) (st_events r) (st_next_condvar r) (st_ticks r).

(** ** Access *)

Definition thread_of (s : State) (proc : ProcId) (tid : Tid) : option Thread :=
  p ← st_procs s !! proc; p_threads p !! tid.

(** [if let Some(p) = self.procs.get_mut(&proc) { ... }] and the like. *)
Definition alter_proc (proc : ProcId) (f : Proc -> Proc) (s : State) : State :=
  s <| st_procs ::= alter f proc |>.
Definition alter_thread (proc : ProcId) (tid : Tid) (f : Thread -> Thread) (s : State) : State :=
  alter_proc proc (set_field p_threads (alter f tid)) s.
Definition alter_node (id : NodeId) (f : Node -> Node) (s : State) : State :=
  s <| st_nodes ::= alter f id |>.
Definition alter_txn (id : TxnId) (f : Txn -> Txn) (s : State) : State :=
  s <| st_txns ::= alter f id |>.
Definition alter_death (id : DeathId) (f : Death -> Death) (s : State) : State :=
  s <| st_deaths ::= alter f id |>.
Definition alter_context (index : nat) (f : Context -> Context) (s : State) : State :=
  s <| st_contexts ::= alter f index |>.

(** [self.procs[&proc]], [self.thread(..).unwrap()] and the like panic when
    there is no such entry. *)
Definition the_proc (proc : ProcId) : M State Proc :=
  s ← get; call (unwrap (st_procs s !! proc)).
Definition the_thread (proc : ProcId) (tid : Tid) : M State Thread :=
  s ← get; call (unwrap (thread_of s proc tid)).
Definition the_node (id : NodeId) : M State Node :=
  s ← get; call (unwrap (st_nodes s !! id)).
Definition the_txn (id : TxnId) : M State Txn :=
  s ← get; call (unwrap (st_txns s !! id)).
Definition the_death (id : DeathId) : M State Death :=
  s ← get; call (unwrap (st_deaths s !! id)).
Definition the_context (index : nat) : M State Context :=
  s ← get; call (unwrap (st_contexts s !! index)).

Definition thread_exists (s : State) (proc : ProcId) (tid : Tid) : bool :=
  match thread_of s proc tid with Some _ => true | None => false end.

(** ** Pending wakes *)

Record PendingWakes := mkPendingWakes {
  pw_wakes : list Condvar;
  pw_resumes : list Resume;
  pw_notifications : list (Notifier * option Tid);
}.

Definition PendingWakes_is_empty (w : PendingWakes) : bool :=
  match pw_wakes w, pw_resumes w, pw_notifications w with
  | [], [], [] => true
  | _, _, _ => false
  end.

Definition PendingWakes_deliver (w : PendingWakes) : M State unit :=
  modify (set_field st_events (fun events => events ++
    (EvResume <$> pw_resumes w) ++ (EvNotifyOne <$> pw_wakes w) ++
    ((fun nt => EvNotify nt.1 nt.2) <$> pw_notifications w))).

Definition take_wakes : M State PendingWakes :=
  s ← get;
  put (s <| st_wakes := [] |> <| st_resumes := [] |> <| st_notifications := [] |>);;
  mret (mkPendingWakes (st_wakes s) (st_resumes s) (st_notifications s)).

Section operations.
Context `{Env}.

Definition instant_now : M State Z :=
  s ← get;
  put (s <| st_ticks := S (st_ticks s) |>);;
  mret (clock (st_ticks s)).

Definition next_id : M State Z :=
  s ← get;
  id ← call (uadd 64 (st_next_id s) 1);
  put (s <| st_next_id := id |>);;
  mret id.

Definition context_index (name : string) : M State nat :=
  s ← get;
  match position (fun c => bool_decide (c_name c = name)) (st_contexts s) with
  | Some index => mret index
  | None =>
      put (s <| st_contexts ::= (fun l => l ++ [mkContext name None None]) |>);;
      mret (length (st_contexts s))
  end.

Definition Proc_new (context : nat) (creds : Credentials) : Proc :=
  {| p_context := context;
     p_creds := creds;
     p_threads := ∅;
     p_nodes := ∅;
     p_refs_by_desc := ∅;
     p_refs_by_node := ∅;
     p_todo := [];
     p_waiting_threads := [];
     p_delivered_death := [];
     p_alloc := None;
     p_receive := None;
     p_max_threads := 0;
     p_requested_threads := 0;
     p_requested_threads_started := 0;
     p_oneway_spam_detection := false;
     p_nonblocking := false;
     p_notifier := None;
     p_outstanding_txns := 0 |}.

Definition new_proc (context : nat) (creds : Credentials) : M State ProcId :=
  id ← next_id;
  modify (set_field st_procs (insert id (Proc_new context creds)));;
  mret id.

(** [binder_get_thread]. *)
Definition thread_or_create (proc : ProcId) (tid : Tid) : M State (result unit Errno) :=
  s ← get;
  match st_procs s !! proc with
  | None => mret (Err EBADF)
  | Some p =>
      match p_threads p !! tid with
      | Some _ => mret (Ok tt)
      | None =>
          let wait := st_next_condvar s in
          put ((alter_proc proc (set_field p_threads (insert tid (Thread_new wait))) s)
                 <| st_next_condvar := wait + 1 |>);;
          mret (Ok tt)
      end
  end.

(** ** Work queues *)

(** Wakes the thread if it waits for work: notifies its wait, or resumes its
    parked read. *)
Definition wake_waiter (proc : ProcId) (tid : Tid) : M State unit :=
  s ← get;
  match thread_of s proc tid with
  | None => mret tt
  | Some t =>
      match t_parked t with
      | Some resume =>
          modify (alter_thread proc tid (set_field t_parked (fun _ => None)));;
          modify (alter_proc proc (set_field p_waiting_threads (filter (fun t => t <> tid))));;
          modify (set_field st_resumes (fun l => l ++ [resume]))
      | None => modify (set_field st_wakes (fun l => l ++ [t_wait t]))
      end
  end.

Definition wake_thread (proc : ProcId) (tid : Tid) : M State unit :=
  wake_waiter proc tid;;
  s ← get;
  match st_procs s !! proc with
  | None => mret tt
  | Some p =>
      match p_threads p !! tid, p_notifier p with
      | Some t, Some n =>
          if has_flag (t_looper t) LOOPER_POLL
          then modify (set_field st_notifications (fun l => l ++ [(n, Some tid)]))
          else mret tt
      | _, _ => mret tt
      end
  end.

(** [binder_enqueue_thread_work_ilocked]. *)
Definition enqueue_thread_work (proc : ProcId) (tid : Tid) (work : Work) : M State unit :=
  s ← get;
  if thread_exists s proc tid then
    modify (alter_thread proc tid (fun t =>
      t <| t_todo ::= (fun q => q ++ [work]) |> <| t_process_todo := true |>));;
    wake_thread proc tid
  else mret tt.

(** [binder_enqueue_deferred_thread_work_ilocked]. *)
Definition enqueue_deferred_thread_work (proc : ProcId) (tid : Tid) (work : Work) : M State unit :=
  modify (alter_thread proc tid (set_field t_todo (fun q => q ++ [work]))).

Definition enqueue_proc_work (proc : ProcId) (work : Work) : M State unit :=
  modify (alter_proc proc (set_field p_todo (fun q => q ++ [work]))).

(** [position(|w| *w == work)] and [remove(index)]. *)
Fixpoint remove_first (work : Work) (q : list Work) : list Work :=
  match q with
  | [] => []
  | w :: q => if decide (w = work) then q else w :: remove_first work q
  end.

Definition remove_work (list : WorkList) (work : Work) : M State unit :=
  match list with
  | WlProc p => modify (alter_proc p (set_field p_todo (remove_first work)))
  | WlThread p t => modify (alter_thread p t (set_field t_todo (remove_first work)))
  end.

(** [binder_select_thread_ilocked]. *)
Definition select_thread (proc : ProcId) : M State (option Tid) :=
  s ← get;
  match st_procs s !! proc with
  | None => mret None
  | Some p =>
      match p_waiting_threads p with
      | [] => mret None
      | tid :: rest =>
          modify (alter_proc proc (set_field p_waiting_threads (fun _ => rest)));;
          mret (Some tid)
      end
  end.

(** [binder_wakeup_thread_ilocked]. *)
Definition wakeup_thread (proc : ProcId) (tid : option Tid) : M State unit :=
  match tid with
  | Some tid => wake_thread proc tid
  | None =>
      s ← get;
      match st_procs s !! proc with
      | None => mret tt
      | Some p =>
          match p_notifier p with
          | Some n => modify (set_field st_notifications (fun l => l ++ [(n, None)]))
          | None => mret tt
          end
      end
  end.

(** [binder_wakeup_proc_ilocked]. *)
Definition wakeup_proc (proc : ProcId) : M State unit :=
  tid ← select_thread proc;
  wakeup_thread proc tid.

Definition dequeue_node_work (node : NodeId) : M State unit :=
  s ← get;
  match st_nodes s !! node with
  | None => mret tt
  | Some n =>
      modify (alter_node node (set_field n_work_queued (fun _ => None)));;
      match n_work_queued n with
      | Some list => remove_work list (WNode node)
      | None => mret tt
      end
  end.

Definition dequeue_death_work (death : DeathId) : M State unit :=
  s ← get;
  match st_deaths s !! death with
  | None => mret tt
  | Some d =>
      modify (alter_death death (set_field d_location (fun _ => None)));;
      match d_location d with
      | Some (LocQueued list) => remove_work list (WDeath death)
      | Some LocDelivered =>
          modify (alter_proc (d_proc d)
            (set_field p_delivered_death (filter (fun d => d <> death))))
      | None => mret tt
      end
  end.

(** Queues death work on the looper thread that asked, else on the process. *)
Definition queue_death_for_thread_or_proc (death : DeathId) (proc : ProcId) (tid : Tid) :
    M State unit :=
  s ← get;
  let on_thread :=
    match thread_of s proc tid with
    | Some t => has_flag (t_looper t) (Z.lor LOOPER_REGISTERED LOOPER_ENTERED)
    | None => false
    end in
  the_death death;;
  if on_thread then
    modify (alter_death death (set_field d_location
      (fun _ => Some (LocQueued (WlThread proc tid)))));;
    enqueue_thread_work proc tid (WDeath death)
  else
    modify (alter_death death (set_field d_location (fun _ => Some (LocQueued (WlProc proc)))));;
    enqueue_proc_work proc (WDeath death);;
    wakeup_proc proc.

(** ** Nodes *)

Definition is_context_manager (node : NodeId) : M State bool :=
  s ← get;
  match st_nodes s !! node with
  | None => mret false
  | Some n =>
      c ← the_context (n_context n);
      mret (bool_decide (c_mgr_node c = Some node))
  end.

Definition Node_new (proc : ProcId) (context : nat) (ptr cookie flags : Z) : Node :=
  {| n_proc := Some proc;
     n_context := context;
     n_ptr := ptr;
     n_cookie := cookie;
     n_internal_strong_refs := 0;
     n_local_strong_refs := 0;
     n_local_weak_refs := 0;
     n_refs := ∅;
     n_has_strong_ref := false;
     n_pending_strong_ref := false;
     n_has_weak_ref := false;
     n_pending_weak_ref := false;
     n_accept_fds := has_flag flags FLAT_BINDER_FLAG_ACCEPTS_FDS;
     n_txn_security_ctx := has_flag flags FLAT_BINDER_FLAG_TXN_SECURITY_CTX;
     n_has_async_transaction := false;
     n_async_todo := [];
     n_work_queued := None |}.

(** [binder_new_node]: the existing node for [ptr], or a new one. *)
Definition new_node (proc : ProcId) (ptr cookie flags : Z) : M State NodeId :=
  p ← the_proc proc;
  match p_nodes p !! ptr with
  | Some id => mret id
  | None =>
      id ← next_id;
      p ← the_proc proc;
      modify (set_field st_nodes (insert id (Node_new proc (p_context p) ptr cookie flags)));;
      modify (alter_proc proc (set_field p_nodes (insert ptr id)));;
      mret id
  end.

(** The count of [inc_node]: weak internal references are the set of holders,
    not a count. *)
Definition count_ref (id : NodeId) (strong internal : bool) (node : Node) : M State unit :=
  if strong then
    if internal then
      c ← call (uadd 32 (n_internal_strong_refs node) 1);
      modify (alter_node id (set_field n_internal_strong_refs (fun _ => c)))
    else
      c ← call (uadd 32 (n_local_strong_refs node) 1);
      modify (alter_node id (set_field n_local_strong_refs (fun _ => c)))
  else if internal then mret tt
  else
    c ← call (uadd 32 (n_local_weak_refs node) 1);
    modify (alter_node id (set_field n_local_weak_refs (fun _ => c))).

(** Queues the node on the thread that sends it, for an owner that does not
    hold the reference yet. *)
Definition report_ref (id : NodeId) (strong : bool) (target : option (ProcId * Tid)) (node : Node) :
    M State unit :=
  match target with
  | None => mret tt
  | Some (p, t) =>
      if (if strong then negb (n_has_strong_ref node)
          else negb (n_has_weak_ref node) && bool_decide (n_work_queued node = None)) then
        (if strong then dequeue_node_work id else mret tt);;
        modify (alter_node id (set_field n_work_queued (fun _ => Some (WlThread p t))));;
        enqueue_deferred_thread_work p t (WNode id)
      else mret tt
  end.

(** [binder_inc_node_nilocked].  [target] is the thread whose todo list
    receives the node work. *)
Definition inc_node (id : NodeId) (strong internal : bool) (target : option (ProcId * Tid)) :
    M State (result unit Errno) :=
  is_mgr ← is_context_manager id;
  s ← get;
  match st_nodes s !! id with
  | None => mret (Err EINVAL)
  | Some node =>
      if strong && internal && bool_decide (target = None) && (n_internal_strong_refs node =? 0) &&
         negb (bool_decide (is_Some (n_proc node)) && is_mgr && n_has_strong_ref node)
      then mret (Err EINVAL)
      else
        count_ref id strong internal node;;
        report_ref id strong target node;;
        mret (Ok tt)
  end.

(** Drops a node nothing refers to any more. *)
Definition remove_node (id : NodeId) : M State unit :=
  modify (fun s => s <| st_nodes ::= delete id |>
                     <| st_shadow ::= fmap (Shadow_node_gone id) |>).

(** The counts of a node after a reference is dropped. *)
Definition drop_count (strong internal : bool) (node : Node) : Node :=
  if strong then
    if internal
    then node <| n_internal_strong_refs ::= (fun c => saturating_sub c 1) |>
    else node <| n_local_strong_refs ::= (fun c => saturating_sub c 1) |>
  else if internal then node
  else node <| n_local_weak_refs ::= (fun c => saturating_sub c 1) |>.

(** Whether references of the dropped sort remain. *)
Definition still_held (strong : bool) (node : Node) : bool :=
  if strong
  then negb (n_local_strong_refs node =? 0) || negb (n_internal_strong_refs node =? 0)
  else negb (n_local_weak_refs node =? 0) || negb (bool_decide (n_refs node = ∅)).

(** The node goes when nothing refers to it. *)
Definition free_unreferenced (id : NodeId) (node : Node) : M State unit :=
  if bool_decide (n_refs node = ∅) && (n_local_strong_refs node =? 0) &&
     (n_local_weak_refs node =? 0) then
    match n_proc node with
    | Some proc =>
        dequeue_node_work id;;
        modify (alter_proc proc (set_field p_nodes (delete (n_ptr node))))
    | None => mret tt
    end;;
    remove_node id
  else mret tt.

(** [binder_dec_node_nilocked] plus the free it may call for. *)
Definition dec_node (id : NodeId) (strong internal : bool) : M State unit :=
  s ← get;
  match st_nodes s !! id with
  | None => mret tt
  | Some node0 =>
      let node := drop_count strong internal node0 in
      modify (alter_node id (drop_count strong internal));;
      if still_held strong node then mret tt else
      match n_proc node with
      | Some proc =>
          if n_has_strong_ref node || n_has_weak_ref node then
            match n_work_queued node with
            | None =>
                modify (alter_node id (set_field n_work_queued (fun _ => Some (WlProc proc))));;
                enqueue_proc_work proc (WNode id);;
                wakeup_proc proc
            | Some _ => mret tt
            end
          else free_unreferenced id node
      | None => free_unreferenced id node
      end
  end.

(** ** References *)

(** [binder_get_ref_olocked]. *)
Definition get_ref (s : State) (proc : ProcId) (desc : Z) (need_strong : bool) : option Ref :=
  p ← st_procs s !! proc;
  r ← p_refs_by_desc p !! desc;
  if negb need_strong || negb (r_strong r =? 0) then Some r else None.

(** The lowest descriptor from [desc] on that no key of the table uses; the
    keys are those from [desc] on, in order. *)
Fixpoint lowest_free (desc : Z) (keys : list Z) : outcome Z :=
  match keys with
  | [] => mret desc
  | used :: keys =>
      if desc <? used then mret desc
      else next ← uadd 32 used 1; lowest_free next keys
  end.

(** [binder_cleanup_ref_olocked] + [binder_free_ref]. *)
Definition cleanup_ref (proc : ProcId) (desc : Z) : M State unit :=
  s ← get;
  match st_procs s !! proc with
  | None => mret tt
  | Some p =>
      match p_refs_by_desc p !! desc with
      | None => mret tt
      | Some r =>
          modify (alter_proc proc (fun p =>
            p <| p_refs_by_desc ::= delete desc |> <| p_refs_by_node ::= delete (r_node r) |>));;
          (if negb (r_strong r =? 0) then dec_node (r_node r) true true else mret tt);;
          modify (alter_node (r_node r) (set_field n_refs (fun refs => refs ∖ {[proc]})));;
          dec_node (r_node r) false true;;
          match r_death r with
          | Some death =>
              dequeue_death_work death;;
              modify (set_field st_deaths (delete death))
          | None => mret tt
          end
      end
  end.

(** [binder_inc_ref_olocked]. *)
Definition inc_ref (proc : ProcId) (desc : Z) (strong : bool) (target : option (ProcId * Tid)) :
    M State (result unit Errno) :=
  p ← the_proc proc;
  r ← call (unwrap (p_refs_by_desc p !! desc));
  let count := if strong then r_strong r else r_weak r in
  _ ←? (if count =? 0 then inc_node (r_node r) strong true target else mret (Ok tt));
  p ← the_proc proc;
  r ← call (unwrap (p_refs_by_desc p !! desc));
  r' ←
    (if strong then
       c ← call (uadd 32 (r_strong r) 1); mret (r <| r_strong := c |>)
     else
       c ← call (uadd 32 (r_weak r) 1); mret (r <| r_weak := c |>));
  modify (alter_proc proc (set_field p_refs_by_desc (insert desc r')));;
  mret (Ok tt).

(** [binder_inc_ref_for_node]: the handle [proc] holds for [node], created
    with the lowest free descriptor if needed. *)
Definition inc_ref_for_node (proc : ProcId) (node : NodeId) (strong : bool)
    (target : option (ProcId * Tid)) : M State (result Z Errno) :=
  s ← get;
  match st_procs s !! proc with
  | None => mret (Err ESRCH)
  | Some p =>
      dc ←? match p_refs_by_node p !! node with
        | Some desc => mret (Ok (desc, false))
        | None =>
            is_mgr ← is_context_manager node;
            let first := if is_mgr : bool then 0 else 1 in
            p ← the_proc proc;
            desc ← call (lowest_free first
                           (filter (fun d => first <= d) (sorted_keys (p_refs_by_desc p))));
            modify (alter_proc proc (fun p =>
              p <| p_refs_by_desc ::= insert desc (mkRef node 0 0 None) |>
                <| p_refs_by_node ::= insert node desc |>));;
            s ← get;
            match st_nodes s !! node with
            | None => mret (Err EINVAL)
            | Some _ =>
                modify (alter_node node (set_field n_refs (fun refs => {[proc]} ∪ refs)));;
                mret (Ok (desc, true))
            end
        end;
      let '(desc, created) := dc : Z * bool in
      r ← inc_ref proc desc strong target;
      match r with
      | Err e =>
          (if created then cleanup_ref proc desc else mret tt);;
          mret (Err e)
      | Ok _ => mret (Ok desc)
      end
  end.

(** One of the counts of a reference goes down; the node learns of the last
    strong one. *)
Definition drop_ref_count (proc : ProcId) (desc : Z) (strong : bool) (r : Ref) : M State unit :=
  let r' := if strong then r <| r_strong ::= Z.pred |> else r <| r_weak ::= Z.pred |> in
  modify (alter_proc proc (set_field p_refs_by_desc (insert desc r')));;
  (if strong && (r_strong r' =? 0) then dec_node (r_node r) true true else mret tt).

(** [binder_dec_ref_olocked]; frees the reference when both counts reach
    zero. *)
Definition dec_ref (proc : ProcId) (desc : Z) (strong : bool) : M State (result unit Errno) :=
  s ← get;
  match (p ← st_procs s !! proc; p_refs_by_desc p !! desc) with
  | None => mret (Err EINVAL)
  | Some r =>
      let count := if strong then r_strong r else r_weak r in
      if count =? 0 then mret (Ok tt) else
      drop_ref_count proc desc strong r;;
      p ← the_proc proc;
      r ← call (unwrap (p_refs_by_desc p !! desc));
      (if (r_strong r =? 0) && (r_weak r =? 0) then cleanup_ref proc desc else mret tt);;
      mret (Ok tt)
  end.

(** [binder_update_ref_for_handle]. *)
Definition update_ref_for_handle (proc : ProcId) (desc : Z) (increment strong : bool) :
    M State (result unit Errno) :=
  s ← get;
  match get_ref s proc desc strong with
  | None => mret (Err EINVAL)
  | Some _ =>
      if increment then inc_ref proc desc strong None else dec_ref proc desc strong
  end.

End operations.
