(* ===== verification/Transaction.v ===== *)
(** [binder_transaction()] and what it relies on
    ([src/crates/aim-binder-driver/src/transaction.rs]): target resolution, the
    single copy into the target's receive buffer, object translation, delivery
    to a thread or queue, failed replies and buffer release. *)

From S2P Require Import Prelude Host Uapi Alloc Trace Shadow State.
From Stdlib Require Import ZArith Lia.
From Stdlib Require Import Strings.Byte.
From stdpp Require Import base numbers list gmap sorting.

Open Scope Z_scope.

Definition TOKEN_BYTES : Z := 512.
Definition CAPTURE_BYTES : Z := Z.shiftl 1 20.

(** Why a transaction failed: the BR code for the sender and the errno kept in
    the extended error. *)
Record Failure := mkFailure {
  fl_cmd : Z;
  fl_param : Z;
}.

Definition fail (cmd : Z) (param : Errno) : Failure := mkFailure cmd (- param).

(** A [BINDER_TYPE_PTR] object already placed in the target buffer. *)
Record PlacedPtr := mkPlacedPtr {
  pp_object_offset : Z;
  pp_target_offset : Z;
  pp_length : Z;
  pp_parent : option nat;
  pp_parent_offset : Z;
}.

(** The driver's state together with the calling process. *)
Record World (G : Type) := mkWorld {
  w_st : State;
  w_guest : G;
}.
Arguments mkWorld {G} _ _.
Arguments w_st {G} _.
Arguments w_guest {G} _.

#[export] Instance World_eta G : Settable (World G) := fun r => mkWorld (w_st r) (w_guest r).

(** Driver code run on behalf of a caller. *)
Definition st {G A} (m : M State A) : M (World G) A := fun w =>
  match m (w_st w) with
  | Done (a, s) => Done (a, mkWorld s (w_guest w))
  | Panicked => Panicked
  | Spinning => Spinning
  end.

(** [vec![0u8; len]]: a length beyond [isize::MAX] panics. *)
Definition vec_zeroed (len : Z) : outcome (list byte) :=
  if len <? 2 ^ 63 then Done (replicate (Z.to_nat len) x00) else Panicked.

(** ** Calls into the guest *)
Section guest.
Context {G : Type} `{GuestProcess G}.

Definition guest_copy_from_user (address len : Z) : M (World G) (result (list byte) Errno) := fun w =>
  let '(r, g) := copy_from_user address len (w_guest w) in
  (** the destination slice has exactly [len] bytes *)
  let r := match r with Ok bs => Ok (resize (Z.to_nat len) x00 bs) | Err e => Err e end in
  Done (r, w <| w_guest := g |>).
Definition guest_copy_to_user (address : Z) (data : list byte) : M (World G) (result unit Errno) := fun w =>
  let '(r, g) := copy_to_user address data (w_guest w) in Done (r, w <| w_guest := g |>).
Definition guest_get_file (fd : Z) : M (World G) (result File Errno) := fun w =>
  let '(r, g) := get_file fd (w_guest w) in Done (r, w <| w_guest := g |>).
Definition guest_install_file (file : File) : M (World G) (result Z Errno) := fun w =>
  let '(r, g) := install_file file (w_guest w) in Done (r, w <| w_guest := g |>).
Definition guest_can_install (count : Z) : M (World G) bool := fun w =>
  let '(r, g) := can_install count (w_guest w) in Done (r, w <| w_guest := g |>).
Definition guest_delivered (buffer transaction : Z) : M (World G) unit := fun w =>
  Done (tt, w <| w_guest ::= delivered buffer transaction |>).
Definition guest_close_fd (fd : Z) : M (World G) unit := fun w =>
  Done (tt, w <| w_guest ::= close_fd fd |>).

End guest.

Section operations.
Context `{Env}.

(** [binder_available_for_proc_work_ilocked] (read.rs). *)
Definition available_for_proc_work (s : State) (proc : ProcId) (tid : Tid) : bool :=
  match thread_of s proc tid with
  | Some t => bool_decide (t_transaction_stack t = None) && bool_decide (t_todo t = [])
  | None => false
  end.

(** ** Buffers *)

Definition buffer_of (s : State) (proc : ProcId) (offset : Z) : option Buffer :=
  p ← st_procs s !! proc; a ← p_alloc p; a_buffers a !! offset.

(** [if let Some(b) = self.buffer_mut(proc, offset) { ... }]. *)
Definition alter_buffer (proc : ProcId) (offset : Z) (f : Buffer -> Buffer) (s : State) : State :=
  alter_proc proc (set_field p_alloc (fmap (set_field a_buffers (alter f offset)))) s.

Definition the_buffer (proc : ProcId) (offset : Z) : M State Buffer :=
  s ← get; call (unwrap (buffer_of s proc offset)).

Definition record (proc : ProcId) (offset : Z) (r : BufferRecord) : M State unit :=
  modify (alter_buffer proc offset (set_field b_objects (fun l => l ++ [r]))).

(** Runs an allocator operation on the allocator [proc] has. *)
Definition with_alloc {A} (proc : ProcId) (a : Allocator) (m : M Allocator A) : M State A :=
  '(r, a') ← call (m a);
  modify (alter_proc proc (set_field p_alloc (fun _ => Some a')));;
  mret r.

(** [self.procs[&proc].receive] written through [ReceiveMemory::write] and
    [ReceiveMemory::clear]. *)
Definition memory_write (memory : Z) (offset : Z) (data : list byte) : M State unit :=
  s ← get;
  m ← call (unwrap (st_memories s !! memory));
  m' ← call (HeapReceiveMemory_write m offset data);
  modify (set_field st_memories (insert memory m')).

Definition memory_clear (memory : Z) (offset len : Z) : M State unit :=
  s ← get;
  m ← call (unwrap (st_memories s !! memory));
  m' ← call (HeapReceiveMemory_clear m offset len);
  modify (set_field st_memories (insert memory m')).

(** ** Tracing and shadowing hooks *)

Definition on_trace (f : Z -> Trace -> Trace) : M State unit :=
  s ← get;
  match st_trace s with
  | Some t => now ← instant_now; modify (set_field st_trace (fun _ => Some (f now t)))
  | None => mret tt
  end.

Definition on_shadow (f : Shadow * Sinks -> Shadow * Sinks) : M State unit :=
  modify (fun s =>
    match st_shadow s with
    | Some sh =>
        let '(sh', sinks') := f (sh, st_sinks s) in
        s <| st_shadow := Some sh' |> <| st_sinks := sinks' |>
    | None => s
    end).

(** ** Ending a transaction *)

Definition release_target_node (node : option NodeId) : M State unit :=
  match node with
  | Some node => dec_node node true false
  | None => mret tt
  end.

Definition is_complete (w : Work) : bool :=
  match w with WTransactionComplete | WOnewaySpamSuspect => true | _ => false end.

(** [rposition] and [remove]: drops the last completion of the queue. *)
Fixpoint remove_last (p : Work -> bool) (q : list Work) : list Work :=
  match q with
  | [] => []
  | w :: q => if existsb p q then w :: remove_last p q else if p w then q else w :: q
  end.

Definition remove_last_complete (proc : ProcId) (tid : Tid) : M State unit :=
  modify (alter_thread proc tid (set_field t_todo (remove_last is_complete))).

(** [binder_pop_transaction_ilocked]. *)
Definition pop_transaction (proc : ProcId) (tid : Tid) (id : TxnId) : M State unit :=
  s ← get;
  let parent := t ← st_txns s !! id; x_from_parent t in
  modify (alter_thread proc tid (fun t =>
    if decide (t_transaction_stack t = Some id) then t <| t_transaction_stack := parent |> else t));;
  modify (alter_txn id (set_field x_from (fun _ => None))).

(** [binder_free_transaction]. *)
Definition free_transaction (id : TxnId) : M State unit :=
  s ← get;
  match st_txns s !! id with
  | None => mret tt
  | Some t =>
      modify (set_field st_txns (delete id));;
      modify (set_field st_trace (fmap (Trace_dropped id)));;
      on_shadow (Shadow_failed id);;
      match x_to_proc t with
      | None => mret tt
      | Some to =>
          modify (alter_proc to (set_field p_outstanding_txns (fun n => saturating_sub n 1)));;
          match x_buffer t with
          | Some offset =>
              modify (alter_buffer to offset (fun b => b <| b_txn := None |> <| b_delivery := None |>))
          | None => mret tt
          end
      end
  end.

(** [binder_send_failed_reply]: tells the nearest live caller in the chain.
    Every turn of the loop frees a transaction. *)
Fixpoint send_failed_reply_loop (fuel : nat) (id : TxnId) (cmd : Z) : M State unit :=
  match fuel with
  | O => spin
  | S fuel =>
      s ← get;
      match st_txns s !! id with
      | None => mret tt
      | Some t =>
          let up :=
            free_transaction id;;
            match x_from_parent t with
            | Some n => send_failed_reply_loop fuel n cmd
            | None => mret tt
            end in
          match x_from t with
          | Some (proc, tid) =>
              if thread_exists s proc tid then
                pop_transaction proc tid id;;
                thread ← the_thread proc tid;
                (if decide (t_reply_error thread = None) then
                   modify (alter_thread proc tid (set_field t_reply_error (fun _ => Some cmd)));;
                   enqueue_thread_work proc tid (WReturnError cmd SlotReply)
                 else mret tt);;
                free_transaction id
              else up
          | None => up
          end
      end
  end.

Definition send_failed_reply (id : TxnId) (cmd : Z) : M State unit :=
  s ← get;
  send_failed_reply_loop (S (size (st_txns s))) id cmd.

(** [binder_cleanup_transaction]. *)
Definition cleanup_transaction (id : TxnId) (cmd : Z) : M State unit :=
  s ← get;
  match st_txns s !! id with
  | None => mret tt
  | Some t =>
      if bool_decide (is_Some (x_target_node t)) && negb (is_oneway t)
      then send_failed_reply id cmd
      else free_transaction id
  end.

(** Releases one object a buffer holds. *)
Definition release_record (proc : ProcId) (r : BufferRecord) : M State unit :=
  match r with
  | RecBinder node strong => dec_node node strong false
  | RecHandle desc strong => _ ← dec_ref proc desc strong; mret tt
  end.

(** [binder_free_buf] plus [binder_release_entire_buffer].  Returns the fds
    the owner must close, when it is the caller and nothing failed. *)
Definition free_buffer (proc : ProcId) (offset : Z) (is_failure : bool) : M State (list Z) :=
  s ← get;
  match (p ← st_procs s !! proc; p_alloc p) with
  | None => mret []
  | Some alloc =>
      let sz := match a_buffers alloc !! offset with Some b => b_size b | None => 0 end in
      freed ← with_alloc proc alloc (free offset);
      match freed with
      | None => mret []
      | Some buffer =>
          (if b_clear_on_free buffer then
             p ← the_proc proc;
             match p_receive p with
             | Some memory => memory_clear memory offset sz
             | None => mret tt
             end
           else mret tt);;
          match b_txn buffer with
          | Some txn => modify (alter_txn txn (set_field x_buffer (fun _ => None)))
          | None => mret tt
          end;;
          (if b_is_async buffer then
             match b_target_node buffer with
             | None => mret tt
             | Some node =>
                 s ← get;
                 match st_nodes s !! node with
                 | None => mret tt
                 | Some n =>
                     match n_async_todo n with
                     | [] => modify (alter_node node
                               (set_field n_has_async_transaction (fun _ => false)))
                     | next :: rest =>
                         modify (alter_node node (set_field n_async_todo (fun _ => rest)));;
                         enqueue_proc_work proc (WTransaction next);;
                         wakeup_proc proc
                     end
                 end
             end
           else mret tt);;
          release_target_node (b_target_node buffer);;
          for_each (release_record proc) (b_objects buffer);;
          mret (if is_failure then [] else b_fda_fds buffer)
      end
  end.

(** Undoes an allocated but undelivered transaction. *)
Definition abort_transaction (target_proc : ProcId) (id : TxnId) (buffer_offset : Z) : M State unit :=
  modify (alter_txn id (set_field x_buffer (fun _ => None)));;
  on_shadow (Shadow_failed id);;
  modify (set_field st_txns (delete id));;
  _ ← free_buffer target_proc buffer_offset true;
  mret tt.

(** [binder_proc_transaction]: queues a transaction on a thread, the process,
    or (one-way, while one is outstanding) the node. *)
Definition proc_transaction (id : TxnId) (proc : ProcId) (thread : option Tid) :
    M State (result unit Z) :=
  t ← the_txn id;
  let oneway := is_oneway t in
  node ← call (unwrap (x_target_node t));
  pending_async ←
    (if oneway then
       n ← the_node node;
       if n_has_async_transaction n then mret true
       else modify (alter_node node (set_field n_has_async_transaction (fun _ => true)));;
            mret false
     else mret false);
  s ← get;
  if negb (bool_decide (is_Some (st_procs s !! proc))) ||
     match thread with Some tid => negb (thread_exists s proc tid) | None => false end
  then mret (Err BR_DEAD_REPLY)
  else
    thread ←
      (if bool_decide (thread = None) && negb pending_async then select_thread proc
       else mret thread);
    match thread with
    | Some tid => enqueue_thread_work proc tid (WTransaction id)
    | None =>
        if negb pending_async then
          enqueue_proc_work proc (WTransaction id);;
          wakeup_thread proc None
        else
          the_node node;;
          modify (alter_node node (set_field n_async_todo (fun q => q ++ [id])))
    end;;
    p ← the_proc proc;
    n ← call (uadd 32 (p_outstanding_txns p) 1);
    modify (alter_proc proc (set_field p_outstanding_txns (fun _ => n)));;
    mret (Ok tt).

(** ** Fixups *)

(** [binder_validate_fixup]: fixups must go into the last fixed-up buffer or
    one of its ancestors, at increasing offsets.  A buffer's parent was placed
    before it, so the walk is at most as long as the list. *)
Fixpoint validate_fixup_walk (fuel : nat) (placed : list PlacedPtr) (parent : nat)
    (fixup_offset : Z) (cursor : nat) (min : Z) : outcome bool :=
  match fuel with
  | O => Spinning
  | S fuel =>
      if decide (cursor = parent) then mret (min <=? fixup_offset)
      else
        pp ← unwrap (placed !! cursor);
        match pp_parent pp with
        | Some p =>
            min ← uadd 64 (pp_parent_offset pp) 8;
            validate_fixup_walk fuel placed parent fixup_offset p min
        | None => mret false
        end
  end.

Definition validate_fixup (placed : list PlacedPtr) (parent : nat) (fixup_offset : Z)
    (last_obj : option nat) (last_min : Z) : outcome bool :=
  match last_obj with
  | None => mret false
  | Some cursor =>
      validate_fixup_walk (S (length placed)) placed parent fixup_offset cursor last_min
  end.

(** A binder of a shadow copy: its node and the pid of its owner. *)
Definition shadow_binder (node : NodeId) : M State ShadowKind :=
  n ← the_node node;
  s ← get;
  let owner_pid :=
    match (q ← n_proc n; st_procs s !! q) with
    | Some p => cr_pid (p_creds p)
    | None => 0
    end in
  mret (ShBinder node owner_pid).

(** ** Object translation *)

(** What stays fixed while one transaction is copied. *)
Record CopyEnv := mkCopyEnv {
  ce_proc : ProcId;
  ce_tid : Tid;
  ce_target_proc : ProcId;
  ce_buffer_offset : Z;
  ce_data_size : Z;
  ce_off_start : Z;
  ce_sg_end : Z;
  ce_vm_start : Z;
  ce_accept_fds : bool;
  ce_identify : option (File -> option FileId);
}.

(** The local variables the object loop updates. *)
Record CopyState := mkCopyState {
  cs_image : list byte;
  cs_off_min : Z;
  cs_sg_cursor : Z;
  cs_placed : list PlacedPtr;
  cs_last_fixup_obj : option nat;
  cs_last_fixup_min : Z;
  cs_fixups : list FdFixup;
  cs_shadow : option (ShadowParcel * list NodeId);
}.

#[export] Instance CopyState_eta : Settable CopyState := fun r =>
  mkCopyState (cs_image r) (cs_off_min r) (cs_sg_cursor r) (cs_placed r)
    (cs_last_fixup_obj r) (cs_last_fixup_min r) (cs_fixups r) (cs_shadow r).

(** [object.copy_from_slice(&fp.encode())]. *)
Definition put_flat (fp : FlatBinderObject) (object_offset : Z) (cs : CopyState) : outcome CopyState :=
  bytes ← FlatBinderObject_encode fp;
  image ← unwrap (splice (cs_image cs) object_offset bytes);
  mret (cs <| cs_image := image |>).

(** [BINDER_TYPE_BINDER] and [BINDER_TYPE_WEAK_BINDER]: the sender's own
    object becomes a handle of the target. *)
Definition translate_binder (ce : CopyEnv) (object_offset : Z) (strong : bool)
    (object : list byte) (cs : CopyState) : M State (result (CopyState * ShadowKind) Failure) :=
  fp ← call (FlatBinderObject_decode object);
  node ← new_node (ce_proc ce) (fb_binder fp) (fb_cookie fp) (fb_flags fp);
  n ← the_node node;
  if negb (n_cookie n =? fb_cookie fp) then mret (Err (fail BR_FAILED_REPLY EINVAL)) else
  '(cs, copied) ←
    match cs_shadow cs with
    | Some (parcel, own) =>
        kind ← shadow_binder node;
        mret (cs <| cs_shadow := Some (parcel, own ++ [node]) |>, kind)
    | None => mret (cs, ShOther)
    end;
  r ← inc_ref_for_node (ce_target_proc ce) node strong (Some (ce_proc ce, ce_tid ce));
  match r with
  | Err e => mret (Err (fail BR_FAILED_REPLY e))
  | Ok desc =>
      record (ce_target_proc ce) (ce_buffer_offset ce) (RecHandle desc strong);;
      let kind := if strong then BINDER_TYPE_HANDLE else BINDER_TYPE_WEAK_HANDLE in
      cs ← call (put_flat (fp <| fb_kind := kind |> <| fb_binder := desc |> <| fb_cookie := 0 |>)
                          object_offset cs);
      mret (Ok (cs, copied))
  end.

(** [BINDER_TYPE_HANDLE] and [BINDER_TYPE_WEAK_HANDLE]: a handle becomes the
    target's handle, or the target's own object when it owns the node. *)
Definition translate_handle (ce : CopyEnv) (object_offset : Z) (strong : bool)
    (object : list byte) (cs : CopyState) : M State (result (CopyState * ShadowKind) Failure) :=
  fp ← call (FlatBinderObject_decode object);
  s ← get;
  match get_ref s (ce_proc ce) (FlatBinderObject_handle fp) strong with
  | None => mret (Err (fail BR_FAILED_REPLY EINVAL))
  | Some r =>
      let node := r_node r in
      copied ← match cs_shadow cs with Some _ => shadow_binder node | None => mret ShOther end;
      n ← the_node node;
      if decide (n_proc n = Some (ce_target_proc ce)) then
        let kind := if strong then BINDER_TYPE_BINDER else BINDER_TYPE_WEAK_BINDER in
        r ← inc_node node strong false None;
        match r with
        | Err e => mret (Err (fail BR_FAILED_REPLY e))
        | Ok _ =>
            record (ce_target_proc ce) (ce_buffer_offset ce) (RecBinder node strong);;
            cs ← call (put_flat (fp <| fb_kind := kind |> <| fb_binder := n_ptr n |>
                                    <| fb_cookie := n_cookie n |>) object_offset cs);
            mret (Ok (cs, copied))
        end
      else
        r ← inc_ref_for_node (ce_target_proc ce) node strong None;
        match r with
        | Err e => mret (Err (fail BR_FAILED_REPLY e))
        | Ok desc =>
            record (ce_target_proc ce) (ce_buffer_offset ce) (RecHandle desc strong);;
            cs ← call (put_flat (fp <| fb_binder := desc |> <| fb_cookie := 0 |>) object_offset cs);
            mret (Ok (cs, copied))
        end
  end.

(** The index in [placed] of the object named by the [parent]th entry of the
    offsets array. *)
Definition find_parent (ce : CopyEnv) (index parent : Z) (cs : CopyState) : outcome (option nat) :=
  if bool_decide (cs_placed cs = []) || negb (parent <? index) then mret None
  else
    off ← u64_at (cs_image cs) (ce_off_start ce + parent * 8);
    mret (position (fun p => pp_object_offset p =? off) (cs_placed cs)).

Section guest_objects.
Context {G : Type} `{GuestProcess G}.

(** [BINDER_TYPE_FD]. *)
Definition translate_fd (ce : CopyEnv) (object_offset : Z) (object : list byte) (cs : CopyState) :
    M (World G) (result (CopyState * ShadowKind) Failure) :=
  if negb (ce_accept_fds ce) then mret (Err (fail BR_FAILED_REPLY EPERM)) else
  fd ← call (u32_at object 8);
  r ← guest_get_file fd;
  match r with
  | Err _ => mret (Err (fail BR_FAILED_REPLY EBADF))
  | Ok file =>
      let copied := match ce_identify ce with
                    | Some identify => ShFile (identify file)
                    | None => ShOther
                    end in
      offset ← call (uadd 64 object_offset 8);
      image ← call (unwrap (splice (cs_image cs) offset (replicate 8 x00)));
      mret (Ok (cs <| cs_image := image |>
                   <| cs_fixups ::= (fun l => l ++ [mkFdFixup offset file false]) |>, copied))
  end.

(** The fds of an array, read from the copied parent buffer. *)
Fixpoint array_fixups (image : list byte) (base : Z) (n : nat) (i : Z) (fixups : list FdFixup) :
    M (World G) (result (list FdFixup) Failure) :=
  match n with
  | O => mret (Ok fixups)
  | S n =>
      at_ ← call (uadd 64 base (i * 4));
      fd ← call (u32_at image at_);
      r ← guest_get_file fd;
      match r with
      | Err _ => mret (Err (fail BR_FAILED_REPLY EBADF))
      | Ok file => array_fixups image base n (i + 1) (fixups ++ [mkFdFixup at_ file true])
      end
  end.

(** [BINDER_TYPE_FDA]. *)
Definition translate_fda (ce : CopyEnv) (index : Z) (object : list byte) (cs : CopyState) :
    M (World G) (result (CopyState * ShadowKind) Failure) :=
  let bad := mret (Err (fail BR_FAILED_REPLY EINVAL)) in
  fda ← call (FdArrayObject_decode object);
  parent ← call (find_parent ce index (fa_parent fda) cs);
  match parent with
  | None => bad
  | Some parent =>
      valid ← call (validate_fixup (cs_placed cs) parent (fa_parent_offset fda)
                      (cs_last_fixup_obj cs) (cs_last_fixup_min cs));
      if negb valid then bad else
      match checked_mul 64 (fa_num_fds fda) 4 with
      | None => bad
      | Some fd_bytes =>
          pp ← call (unwrap (cs_placed cs !! parent));
          if (pp_length pp <? fd_bytes) || (pp_length pp - fd_bytes <? fa_parent_offset fda)
          then bad else
          base ← call (uadd 64 (pp_target_offset pp) (fa_parent_offset fda));
          if negb (base mod 4 =? 0) then bad else
          if negb (fa_num_fds fda =? 0) && negb (ce_accept_fds ce)
          then mret (Err (fail BR_FAILED_REPLY EPERM)) else
          fixups ←? array_fixups (cs_image cs) base (Z.to_nat (fa_num_fds fda)) 0 (cs_fixups cs);
          last_min ← call (uadd 64 (fa_parent_offset fda) fd_bytes);
          mret (Ok (cs <| cs_fixups := fixups |> <| cs_last_fixup_obj := Some parent |>
                       <| cs_last_fixup_min := last_min |>, ShOther))
      end
  end.

(** Copies [len] bytes of the sender into the image at [at_]; nothing when
    there are none. *)
Definition copy_in (address at_ len : Z) (image : list byte) :
    M (World G) (result (list byte) Failure) :=
  if len =? 0 then mret (Ok image) else
  (** the destination slice is taken before the copy *)
  call (unwrap (slice image at_ len));;
  r ← guest_copy_from_user address len;
  match r with
  | Err _ => mret (Err (fail BR_FAILED_REPLY EFAULT))
  | Ok bytes => image ← call (unwrap (splice image at_ bytes)); mret (Ok image)
  end.

(** Points the parent's embedded pointer at the copy. *)
Definition fixup_parent (ce : CopyEnv) (index : Z) (bp : BufferObject) (cs : CopyState) :
    outcome (result (CopyState * option nat) Failure) :=
  let bad := mret (Err (fail BR_FAILED_REPLY EINVAL)) in
  if negb (has_flag (bo_flags bp) BINDER_BUFFER_FLAG_HAS_PARENT) then mret (Ok (cs, None)) else
  parent ← find_parent ce index (bo_parent bp) cs;
  match parent with
  | None => bad
  | Some p =>
      valid ← validate_fixup (cs_placed cs) p (bo_parent_offset bp)
                (cs_last_fixup_obj cs) (cs_last_fixup_min cs);
      if negb valid then bad else
      pp ← unwrap (cs_placed cs !! p);
      if (pp_length pp <? 8) || (pp_length pp - 8 <? bo_parent_offset bp) then bad else
      at_ ← uadd 64 (pp_target_offset pp) (bo_parent_offset bp);
      image ← put_u64 (cs_image cs) at_ (bo_buffer bp);
      mret (Ok (cs <| cs_image := image |>, Some p))
  end.

(** [BINDER_TYPE_PTR]: a scatter-gather payload. *)
Definition translate_ptr (ce : CopyEnv) (index object_offset : Z) (object : list byte) (cs : CopyState) :
    M (World G) (result (CopyState * ShadowKind) Failure) :=
  bp ← call (BufferObject_decode object);
  let length := bo_length bp in
  room ← call (usub 64 (ce_sg_end ce) (cs_sg_cursor cs));
  if room <? length then mret (Err (fail BR_FAILED_REPLY EINVAL)) else
  image ←? copy_in (bo_buffer bp) (cs_sg_cursor cs) length (cs_image cs);
  let cs := cs <| cs_image := image |> in
  let target_offset := cs_sg_cursor cs in
  buffer ← call (uadd 64 (ce_vm_start ce) (cs_sg_cursor cs));
  let bp := bp <| bo_buffer := buffer |> in
  aligned ← call (unwrap (align8 length));
  cursor ← call (uadd 64 (cs_sg_cursor cs) aligned);
  csp ←? call (fixup_parent ce index bp (cs <| cs_sg_cursor := cursor |>));
  let '(cs, parent) := csp : CopyState * option nat in
  bytes ← call (BufferObject_encode bp);
  image ← call (unwrap (splice (cs_image cs) object_offset bytes));
  let pp := mkPlacedPtr object_offset target_offset length parent (bo_parent_offset bp) in
  mret (Ok (cs <| cs_image := image |>
               <| cs_placed ::= (fun l => l ++ [pp]) |>
               <| cs_last_fixup_obj := Some (List.length (cs_placed cs)) |>
               <| cs_last_fixup_min := 0 |>, ShOther)).

(** The type of the object at [object_offset], 0 when it does not start
    inside the data. *)
Definition object_kind (data_size object_offset : Z) (image : list byte) : outcome Z :=
  if object_offset mod 4 =? 0 then
    end_ ← uadd 64 object_offset 4;
    if end_ <=? data_size then u32_at image object_offset else mret 0
  else mret 0.

(** One turn of the object loop. *)
Definition translate_object (ce : CopyEnv) (index : Z) (cs : CopyState) :
    M (World G) (result CopyState Failure) :=
  object_offset ← call (u64_at (cs_image cs) (ce_off_start ce + index * 8));
  kind ← call (object_kind (ce_data_size ce) object_offset (cs_image cs));
  match object_size kind with
  | None => mret (Err (fail BR_FAILED_REPLY EINVAL))
  | Some sz =>
      if object_offset <? cs_off_min cs then mret (Err (fail BR_FAILED_REPLY EINVAL)) else
      end_ ← call (uadd 64 object_offset sz);
      if ce_data_size ce <? end_ then mret (Err (fail BR_FAILED_REPLY EINVAL)) else
      let cs := cs <| cs_off_min := end_ |> in
      object ← call (unwrap (slice (cs_image cs) object_offset sz));
      csk ←?
        (if kind =? BINDER_TYPE_BINDER then st (translate_binder ce object_offset true object cs)
         else if kind =? BINDER_TYPE_WEAK_BINDER then st (translate_binder ce object_offset false object cs)
         else if kind =? BINDER_TYPE_HANDLE then st (translate_handle ce object_offset true object cs)
         else if kind =? BINDER_TYPE_WEAK_HANDLE then st (translate_handle ce object_offset false object cs)
         else if kind =? BINDER_TYPE_FD then translate_fd ce object_offset object cs
         else if kind =? BINDER_TYPE_FDA then translate_fda ce index object cs
         else if kind =? BINDER_TYPE_PTR then translate_ptr ce index object_offset object cs
         else panic);
      let '(cs, copied) := csk : CopyState * ShadowKind in
      mret (Ok (cs <| cs_shadow ::= fmap (fun po : ShadowParcel * list NodeId =>
        (po.1 <| sp_objects ::= (fun l => l ++ [mkShadowObject object_offset copied]) |>, po.2)) |>))
  end.

Fixpoint translate_objects (ce : CopyEnv) (n : nat) (index : Z) (cs : CopyState) :
    M (World G) (result CopyState Failure) :=
  match n with
  | O => mret (Ok cs)
  | S n => cs ←? translate_object ce index cs; translate_objects ce n (index + 1) cs
  end.

(** ** Building the target buffer *)

(** The security context at the end of the buffer. *)
Definition put_secctx (id : TxnId) (buffer_size vm_start : Z) (secctx : option (list byte))
    (image : list byte) : M State (list byte) :=
  match secctx with
  | None => mret image
  | Some ctx =>
      aligned ← call (unwrap (align8 (Z.of_nat (length ctx))));
      at_ ← call (usub 64 buffer_size aligned);
      image ← call (unwrap (splice image at_ ctx));
      the_txn id;;
      address ← call (uadd 64 vm_start at_);
      modify (alter_txn id (set_field x_security_ctx (fun _ => address)));;
      mret image
  end.

(** Whether the receiver takes file descriptors: the caller's flag for a
    reply, the node's for a call. *)
Definition accepts_fds (id : TxnId) (in_reply_to : option TxnId) : M State bool :=
  match in_reply_to with
  | Some original => t ← the_txn original; mret (has_flag (x_flags t) TF_ACCEPT_FDS)
  | None =>
      t ← the_txn id;
      match x_target_node t with
      | Some n => n ← the_node n; mret (n_accept_fds n)
      | None => mret false
      end
  end.

(** Data, offsets, scatter-gather payloads and the security context, with
    every object translated, written into the target's mapping in one copy. *)
Definition copy_transaction (proc : ProcId) (tid : Tid) (target_proc : ProcId) (id : TxnId)
    (buffer_offset : Z) (tr : TransactionData) (extra_buffers_size : Z)
    (secctx : option (list byte)) (in_reply_to : option TxnId)
    (identify : option (File -> option FileId)) :
    M (World G) (result (option (ShadowParcel * list NodeId)) Failure) :=
  let data_size := td_data_size tr in
  let offsets_size := td_offsets_size tr in
  if negb (offsets_size mod 8 =? 0) || negb (extra_buffers_size mod 8 =? 0)
  then mret (Err (fail BR_FAILED_REPLY EINVAL)) else
  p ← st (the_proc target_proc);
  alloc ← call (unwrap (p_alloc p));
  buffer ← call (unwrap (a_buffers alloc !! buffer_offset));
  let buffer_size := b_size buffer in
  vm_start ← call (user_address alloc buffer_offset);
  off_start ← call (unwrap (align8 data_size));
  off_end ← call (uadd 64 off_start offsets_size);
  sg_start ← call (unwrap (align8 off_end));
  sg_end ← call (uadd 64 sg_start extra_buffers_size);
  image ← call (vec_zeroed buffer_size);
  image ←? copy_in (td_buffer tr) 0 data_size image;
  image ←? copy_in (td_offsets tr) off_start offsets_size image;
  let shadow := (fun _ => (mkShadowParcel (take (Z.to_nat data_size) image) [], [])) <$> identify in
  image ← st (put_secctx id buffer_size vm_start secctx image);
  accept_fds ← st (accepts_fds id in_reply_to);
  let ce := {| ce_proc := proc; ce_tid := tid; ce_target_proc := target_proc;
               ce_buffer_offset := buffer_offset; ce_data_size := data_size;
               ce_off_start := off_start; ce_sg_end := sg_end; ce_vm_start := vm_start;
               ce_accept_fds := accept_fds; ce_identify := identify |} in
  let cs := {| cs_image := image; cs_off_min := 0; cs_sg_cursor := sg_start; cs_placed := [];
               cs_last_fixup_obj := None; cs_last_fixup_min := 0; cs_fixups := [];
               cs_shadow := shadow |} in
  cs ←? translate_objects ce (Z.to_nat (offsets_size / 8)) 0 cs;
  p ← st (the_proc target_proc);
  memory ← call (unwrap (p_receive p));
  st (memory_write memory buffer_offset (cs_image cs));;
  st (the_txn id);;
  st (modify (alter_txn id (set_field x_fd_fixups (fun _ => cs_fixups cs))));;
  mret (Ok (cs_shadow cs)).

(** [copy_from_user] of the first bytes of the data, for tracing. *)
Definition trace_head (tr : TransactionData) (limit : Z) : M (World G) (result (list byte) Errno) :=
  guest_copy_from_user (td_buffer tr) (Z.min (td_data_size tr) limit).

(** Records a sent transaction with the interface token its data starts with. *)
Definition trace_sent (proc : ProcId) (tid : Tid) (target_proc : ProcId) (id : TxnId)
    (tr : TransactionData) : M (World G) unit :=
  head ← trace_head tr TOKEN_BYTES;
  let desc := descriptor (match head with Ok bytes => bytes | Err _ => [] end) in
  w ← get;
  trace ← call (unwrap (st_trace (w_st w)));
  data ←
    (if Trace_captures desc (td_code tr) trace then
       r ← trace_head tr CAPTURE_BYTES;
       mret (Some (match r with Ok bytes => bytes | Err _ => [] end))
     else mret None);
  from ← st (the_proc proc);
  to ← st (the_proc target_proc);
  context ← st (the_context (p_context from));
  let polling := filter (fun tt : Tid * Thread =>
    has_flag (t_looper tt.2) LOOPER_POLL = true /\
    available_for_proc_work (w_st w) target_proc tt.1 = true) (map_to_list (p_threads to)) in
  let loopers := filter (fun tt : Tid * Thread =>
    has_flag (t_looper tt.2) (Z.lor LOOPER_REGISTERED LOOPER_ENTERED) = true)
    (map_to_list (p_threads to)) in
  waiting ← call (uadd 32 (as_u 32 (Z.of_nat (length (p_waiting_threads to))))
                          (as_u 32 (Z.of_nat (length polling))));
  let record :=
    {| tr_at := 0; tr_transaction_id := 0;
       tr_from_parent := (thread ← p_threads from !! tid; t_transaction_stack thread);
       tr_to_parent := None; tr_device := c_name context;
       tr_from_pid := cr_pid (p_creds from); tr_from_euid := cr_euid (p_creds from);
       tr_from_tid := tid; tr_to_pid := cr_pid (p_creds to);
       tr_descriptor := desc; tr_code := td_code tr;
       tr_oneway := has_flag (td_flags tr) TF_ONE_WAY;
       tr_waiting := waiting; tr_loopers := as_u 32 (Z.of_nat (length loopers));
       tr_delivered := None; tr_to_tid := 0; tr_latency := None; tr_returned := None;
       tr_data := data; tr_reply := None |} in
  st (on_trace (Trace_sent id record)).

End guest_objects.

(** ** Target resolution *)

(** Where a transaction goes. *)
Record Target := mkTarget {
  tg_proc : ProcId;
  tg_thread : option Tid;
  tg_node : option NodeId;
}.

(** A reply goes to the thread that waits for it.  The first component is the
    transaction being replied to, once it is known to be this thread's. *)
Definition resolve_reply (proc : ProcId) (tid : Tid) :
    M State (option TxnId * result Target Failure) :=
  s ← get;
  match (t ← thread_of s proc tid; t_transaction_stack t) with
  | None => mret (None, Err (fail BR_FAILED_REPLY EPROTO))
  | Some in_reply_to =>
      t ← the_txn in_reply_to;
      if negb (bool_decide (x_to_thread t = Some tid)) || negb (bool_decide (x_to_proc t = Some proc))
      then mret (None, Err (fail BR_FAILED_REPLY EPROTO)) else
      modify (alter_thread proc tid (set_field t_transaction_stack (fun _ => x_to_parent t)));;
      match x_from t with
      | None => mret (Some in_reply_to, Err (fail BR_DEAD_REPLY 0))
      | Some (from_proc, from_tid) =>
          s ← get;
          match thread_of s from_proc from_tid with
          | None => mret (Some in_reply_to, Err (fail BR_DEAD_REPLY 0))
          | Some from =>
              if bool_decide (t_transaction_stack from = Some in_reply_to)
              then mret (Some in_reply_to, Ok (mkTarget from_proc (Some from_tid) None))
              else mret (None, Err (fail BR_FAILED_REPLY EPROTO))
          end
      end
  end.

(** A nested call goes back to the thread of the target that waits on this
    thread's call chain. *)
Fixpoint find_nested (fuel : nat) (s : State) (target_proc : ProcId) (cursor : option TxnId) :
    outcome (option Tid) :=
  match fuel, cursor with
  | _, None => mret None
  | O, Some _ => Spinning
  | S fuel, Some id =>
      t ← unwrap (st_txns s !! id);
      match x_from t with
      | Some (from_proc, from_tid) =>
          if decide (from_proc = target_proc) then mret (Some from_tid)
          else find_nested fuel s target_proc (x_from_parent t)
      | None => find_nested fuel s target_proc (x_from_parent t)
      end
  end.

(** The node a call names: a strong handle of the caller, or the context
    manager for handle 0. *)
Definition resolve_node (proc : ProcId) (handle : Z) : M State (result NodeId Failure) :=
  if negb (handle =? 0) then
    s ← get;
    match get_ref s proc handle true with
    | None => mret (Err (fail BR_FAILED_REPLY EINVAL))
    | Some r => mret (Ok (r_node r))
    end
  else
    p ← the_proc proc;
    c ← the_context (p_context p);
    match c_mgr_node c with
    | None => mret (Err (fail BR_DEAD_REPLY EINVAL))
    | Some node => mret (Ok node)
    end.

Definition first_is_transaction (q : list Work) : bool :=
  match q with WTransaction _ :: _ => true | _ => false end.

(** A call's target; it holds a local strong reference of the node, which the
    buffer keeps until it is freed. *)
Definition resolve_call (proc : ProcId) (tid : Tid) (tr : TransactionData) (oneway : bool) :
    M State (result Target Failure) :=
  node ←? resolve_node proc (TransactionData_handle tr);
  n ← the_node node;
  match n_proc n with
  | None => mret (Err (fail BR_DEAD_REPLY EINVAL))
  | Some owner =>
      r ← inc_node node true false None;
      match r with
      | Err e => mret (Err (fail BR_FAILED_REPLY e))
      | Ok _ =>
          if decide (owner = proc) then
            dec_node node true false;;
            mret (Err (fail BR_FAILED_REPLY EINVAL))
          else
          thread ← the_thread proc tid;
          if negb oneway && first_is_transaction (t_todo thread) then
            dec_node node true false;;
            mret (Err (fail BR_FAILED_REPLY EPROTO))
          else
          match (if oneway then None else t_transaction_stack thread) with
          | None => mret (Ok (mkTarget owner None (Some node)))
          | Some top =>
              t ← the_txn top;
              if negb (bool_decide (x_to_thread t = Some tid)) then
                dec_node node true false;;
                mret (Err (fail BR_FAILED_REPLY EPROTO))
              else
              s ← get;
              target_thread ← call (find_nested (S (size (st_txns s))) s owner (Some top));
              mret (Ok (mkTarget owner target_thread (Some node)))
          end
      end
  end.

(** ** Placing the transaction *)

(** The sender's security context, NUL-terminated, for nodes that asked for
    one. *)
Definition security_context (node : option NodeId) (sender : Credentials) :
    M State (option (list byte)) :=
  match node with
  | None => mret None
  | Some node =>
      n ← the_node node;
      mret (if n_txn_security_ctx n then (fun s => s ++ [x00]) <$> cr_security_context sender else None)
  end.

Definition allocate_in (proc : ProcId) (data_size offsets_size extra_size : Z) (is_async : bool)
    (sender_pid : Z) : M State (result Allocation Errno) :=
  s ← get;
  match (p ← st_procs s !! proc; p_alloc p) with
  | None => mret (Err ESRCH)
  | Some alloc => with_alloc proc alloc (allocate data_size offsets_size extra_size is_async sender_pid)
  end.

(** Allocates the target buffer and the transaction; returns the transaction,
    the allocation and the security context. *)
Definition place_transaction (proc : ProcId) (tid : Tid) (tr : TransactionData)
    (reply oneway : bool) (extra_buffers_size : Z) (sender : Credentials) (delegated : bool)
    (tg : Target) : M State (result (TxnId * Allocation * option (list byte)) Failure) :=
  secctx ← security_context (tg_node tg) sender;
  secctx_space ← match secctx with
    | Some s => call (unwrap (align8 (Z.of_nat (length s))))
    | None => mret 0
    end;
  match checked_add 64 extra_buffers_size secctx_space with
  | None =>
      release_target_node (tg_node tg);;
      mret (Err (fail BR_FAILED_REPLY EINVAL))
  | Some extra_total =>
      allocation ← allocate_in (tg_proc tg) (td_data_size tr) (td_offsets_size tr) extra_total
                     oneway (cr_pid sender);
      match allocation with
      | Err e =>
          release_target_node (tg_node tg);;
          mret (Err (fail (if e =? ESRCH then BR_DEAD_REPLY else BR_FAILED_REPLY) e))
      | Ok a =>
          id ← next_id;
          modify (set_field st_txns (insert id
            {| x_from := if negb reply && negb oneway then Some (proc, tid) else None;
               x_from_parent := None;
               x_to_proc := Some (tg_proc tg);
               x_to_thread := tg_thread tg;
               x_to_parent := None;
               x_code := td_code tr;
               x_flags := td_flags tr;
               x_sender_euid := cr_euid sender;
               x_sender_credentials := sender;
               x_delegated_sender := delegated;
               x_target_node := tg_node tg;
               x_buffer := Some (al_offset a);
               x_security_ctx := 0;
               x_fd_fixups := [] |}));;
          the_buffer (tg_proc tg) (al_offset a);;
          modify (alter_buffer (tg_proc tg) (al_offset a) (fun b =>
            b <| b_txn := Some id |> <| b_target_node := tg_node tg |>
              <| b_clear_on_free := has_flag (td_flags tr) TF_CLEAR_BUF |>));;
          mret (Ok (id, a, secctx))
      end
  end.

(** ** Delivery *)

(** A synchronous call: the completion is deferred, so the sender returns to
    user space with the reply. *)
Definition send_call (proc : ProcId) (tid : Tid) (id : TxnId) (tg : Target) (buffer_offset : Z)
    (complete : Work) : M State (result unit Failure) :=
  enqueue_deferred_thread_work proc tid complete;;
  thread ← the_thread proc tid;
  the_txn id;;
  modify (alter_txn id (set_field x_from_parent (fun _ => t_transaction_stack thread)));;
  modify (alter_thread proc tid (set_field t_transaction_stack (fun _ => Some id)));;
  r ← proc_transaction id (tg_proc tg) (tg_thread tg);
  match r with
  | Ok _ => mret (Ok tt)
  | Err cmd =>
      pop_transaction proc tid id;;
      remove_last_complete proc tid;;
      abort_transaction (tg_proc tg) id buffer_offset;;
      mret (Err (fail cmd 0))
  end.

Definition send_oneway (proc : ProcId) (tid : Tid) (id : TxnId) (tg : Target) (buffer_offset : Z)
    (complete : Work) : M State (result unit Failure) :=
  r ← proc_transaction id (tg_proc tg) None;
  enqueue_thread_work proc tid complete;;
  match r with
  | Ok _ => mret (Ok tt)
  | Err cmd =>
      remove_last_complete proc tid;;
      abort_transaction (tg_proc tg) id buffer_offset;;
      mret (Err (fail cmd 0))
  end.

Section transactions.
Context {G : Type} `{GuestProcess G}.

(** What tracing and shadowing record of a reply. *)
Definition observe_reply (tr : TransactionData) (in_reply_to id : TxnId)
    (reply_copy : option (ShadowParcel * list NodeId)) : M (World G) unit :=
  w ← get;
  match st_trace (w_st w) with
  | None => mret tt
  | Some trace =>
      (if Trace_captured in_reply_to trace then
         r ← trace_head tr CAPTURE_BYTES;
         match r with
         | Ok data => st (modify (set_field st_trace (fmap (Trace_reply_data in_reply_to data))))
         | Err _ => mret tt
         end
       else mret tt);;
      t ← st (the_txn in_reply_to);
      st (on_trace (Trace_replied in_reply_to id (x_to_parent t)))
  end;;
  match reply_copy with
  | None => mret tt
  | Some (parcel, own) =>
      w ← get;
      call (unwrap (st_shadow (w_st w)));;
      st (on_shadow (Shadow_replied in_reply_to (td_flags tr) parcel own))
  end.

(** A reply is queued on the thread that waits for it, and ends the
    transaction it replies to. *)
Definition send_reply (proc : ProcId) (tid : Tid) (tr : TransactionData) (id : TxnId) (tg : Target)
    (buffer_offset : Z) (complete : Work) (in_reply_to : option TxnId)
    (reply_copy : option (ShadowParcel * list NodeId)) : M (World G) (result unit Failure) :=
  in_reply_to ← call (unwrap in_reply_to);
  target_tid ← call (unwrap (tg_thread tg));
  st (enqueue_thread_work proc tid complete);;
  w ← get;
  if negb (thread_exists (w_st w) (tg_proc tg) target_tid) then
    st (remove_last_complete proc tid);;
    st (abort_transaction (tg_proc tg) id buffer_offset);;
    mret (Err (fail BR_DEAD_REPLY 0))
  else
  st (pop_transaction (tg_proc tg) target_tid in_reply_to);;
  st (enqueue_thread_work (tg_proc tg) target_tid (WTransaction id));;
  p ← st (the_proc (tg_proc tg));
  n ← call (uadd 32 (p_outstanding_txns p) 1);
  st (modify (alter_proc (tg_proc tg) (set_field p_outstanding_txns (fun _ => n))));;
  observe_reply tr in_reply_to id reply_copy;;
  st (free_transaction in_reply_to);;
  mret (Ok tt).

(** The shadow copy of a call to a watched node. *)
Definition shadow_call (tid : Tid) (tr : TransactionData) (id : TxnId) (tg : Target) (oneway : bool)
    (parcel : ShadowParcel) : M State unit :=
  t ← the_txn id;
  p ← the_proc (tg_proc tg);
  now ← instant_now;
  let copy :=
    {| sc_seq := 0; sc_node := 0; sc_root := 0; sc_follows := None;
       sc_from_pid := cr_pid (x_sender_credentials t);
       sc_from_euid := cr_euid (x_sender_credentials t);
       sc_from_tid := tid; sc_to_pid := cr_pid (p_creds p); sc_sent := now;
       sc_code := td_code tr; sc_flags := td_flags tr; sc_data := parcel;
       sc_reply := SrFailed |} in
  node ← call (unwrap (tg_node tg));
  s ← get;
  shadow ← call (unwrap (st_shadow s));
  '(_, (shadow', sinks')) ← call (Shadow_sent id node copy oneway (shadow, st_sinks s));
  modify (fun s => s <| st_shadow := Some shadow' |> <| st_sinks := sinks' |>).

(** [binder_transaction] up to the failure path.  The first component of the
    result is the transaction a reply answers. *)
Definition transaction_inner (proc : ProcId) (tid : Tid) (tr : TransactionData) (reply : bool)
    (extra_buffers_size : Z) : M (World G) (option TxnId * result unit Failure) :=
  let oneway := negb reply && has_flag (td_flags tr) TF_ONE_WAY in
  w ← get;
  let forwarded := if reply then None
                   else (t ← thread_of (w_st w) proc tid; t_forwarded_sender t) in
  sender ← match forwarded with
    | Some creds => mret creds
    | None => p ← st (the_proc proc); mret (p_creds p)
    end;
  '(in_reply_to, target) ←
    (if reply then st (resolve_reply proc tid)
     else r ← st (resolve_call proc tid tr oneway); mret (None, r));
  match target with
  | Err failure => mret (in_reply_to, Err failure)
  | Ok tg =>
      r ← st (place_transaction proc tid tr reply oneway extra_buffers_size sender
                (bool_decide (is_Some forwarded)) tg);
      match r with
      | Err failure => mret (in_reply_to, Err failure)
      | Ok (id, allocation, secctx) =>
          let buffer_offset := al_offset allocation in
          w ← get;
          let identify := shadow ← st_shadow (w_st w);
            match in_reply_to with
            | Some original => Shadow_identify_reply original shadow
            | None => Shadow_identify (tg_node tg) shadow
            end in
          copied ← copy_transaction proc tid (tg_proc tg) id buffer_offset tr extra_buffers_size
                     secctx in_reply_to identify;
          match copied with
          | Err failure =>
              st (abort_transaction (tg_proc tg) id buffer_offset);;
              mret (in_reply_to, Err failure)
          | Ok shadowed =>
              w ← get;
              (if bool_decide (is_Some (st_trace (w_st w))) && negb reply
               then trace_sent proc tid (tg_proc tg) id tr else mret tt);;
              match shadowed with
              | Some (parcel, _) =>
                  if reply then mret tt else st (shadow_call tid tr id tg oneway parcel)
              | None => mret tt
              end;;
              let complete := if al_oneway_spam_suspect allocation
                              then WOnewaySpamSuspect else WTransactionComplete in
              r ←
                (if reply then
                   send_reply proc tid tr id tg buffer_offset complete in_reply_to shadowed
                 else if oneway then st (send_oneway proc tid id tg buffer_offset complete)
                 else st (send_call proc tid id tg buffer_offset complete));
              mret (in_reply_to, r)
          end
      end
  end.

(** The failure of a transaction, delivered as return work on the calling
    thread, or on whoever waits for the transaction replied to. *)
Definition deliver_failure (proc : ProcId) (tid : Tid) (debug_id : Z) (in_reply_to : option TxnId)
    (failure : Failure) : M State unit :=
  match in_reply_to with
  | Some original =>
      modify (alter_thread proc tid
        (set_field t_return_error (fun _ => Some BR_TRANSACTION_COMPLETE)));;
      enqueue_thread_work proc tid (WReturnError BR_TRANSACTION_COMPLETE SlotReturn);;
      send_failed_reply original (fl_cmd failure)
  | None =>
      modify (alter_thread proc tid (fun t =>
        t <| t_ee := mkExtendedError debug_id (fl_cmd failure) (fl_param failure) |>
          <| t_return_error := Some (fl_cmd failure) |>));;
      enqueue_thread_work proc tid (WReturnError (fl_cmd failure) SlotReturn)
  end.

(** [binder_transaction]. *)
Definition transaction (proc : ProcId) (tid : Tid) (tr : TransactionData) (reply : bool)
    (extra_buffers_size : Z) : M (World G) unit :=
  id ← st next_id;
  let debug_id := as_u 32 id in
  st (modify (alter_thread proc tid (set_field t_ee (fun _ => mkExtendedError debug_id BR_OK 0))));;
  '(in_reply_to, r) ← transaction_inner proc tid tr reply extra_buffers_size;
  match r with
  | Ok _ => mret tt
  | Err failure => st (deliver_failure proc tid debug_id in_reply_to failure)
  end.

End transactions.

End operations.

(** ** Fixups go into the last fixed-up buffer or its ancestors *)

(** [fixup_ok placed parent at_ cursor min]: walking up from [cursor], where
    the last fixup ended at [min], leads to [parent], and [at_] lies at or after
    the place the walk left it from. *)
Inductive fixup_ok (placed : list PlacedPtr) (parent : nat) (at_ : Z) : nat -> Z -> Prop :=
| fo_here min : min <= at_ -> fixup_ok placed parent at_ parent min
| fo_up cursor min pp p :
    cursor <> parent -> placed !! cursor = Some pp -> pp_parent pp = Some p ->
    fixup_ok placed parent at_ p (pp_parent_offset pp + 8) -> fixup_ok placed parent at_ cursor min.

(** What the object loop keeps of the buffers it has placed: a parent was
    placed before its child, and the child's pointer lies inside it. *)
Definition placed_wf (placed : list PlacedPtr) : Prop :=
  forall i pp p, placed !! i = Some pp -> pp_parent pp = Some p ->
    (p < i)%nat /\ pp_parent_offset pp + 8 < 2 ^ 64.

Section fixups.
Context `{Env}.

Lemma validate_fixup_walk_spec placed parent at_ fuel cursor min :
  placed_wf placed -> (cursor < fuel)%nat -> (cursor < length placed)%nat ->
  exists b, validate_fixup_walk fuel placed parent at_ cursor min = Done b /\
    (b = true <-> fixup_ok placed parent at_ cursor min).
Proof.
  intros Hwf. revert cursor min. induction fuel as [|fuel IH]; intros cursor min Hf Hc; [lia|]. simpl.
  case_decide as Heq.
  - subst. exists (min <=? at_). split; [done|]. rewrite Z.leb_le. split; [by constructor|]. by inversion 1.
  - destruct (lookup_lt_is_Some_2 _ _ Hc) as [pp Hpp]. rewrite Hpp. simpl.
    destruct (pp_parent pp) as [p|] eqn:Hp; cycle 1.
    { exists false. split; [done|]. split; [done|]. inversion 1; simplify_eq. }
    destruct (Hwf _ _ _ Hpp Hp) as [Hlt Hov]. rewrite uadd_small by lia. simpl.
    destruct (IH p (pp_parent_offset pp + 8)) as (b & Hb & Hiff); [lia..|].
    exists b. split; [done|]. rewrite Hiff. split; [by eapply fo_up|]. inversion 1; simplify_eq. done.
Qed.

(** C12: the check of a pointer fixup ends, and accepts exactly the fixups that
    go into the last fixed-up buffer or one of its ancestors, at increasing
    offsets. *)
Theorem validate_fixup_exact placed parent at_ last min :
  placed_wf placed -> (forall i, last = Some i -> (i < length placed)%nat) ->
  exists b, validate_fixup placed parent at_ last min = Done b /\
    (b = true <-> exists cursor, last = Some cursor /\ fixup_ok placed parent at_ cursor min).
Proof.
  intros Hwf Hlast. unfold validate_fixup. destruct last as [cursor|]; cycle 1.
  { exists false. split; [done|]. split; [done|]. by intros (? & ? & _). }
  specialize (Hlast cursor eq_refl).
  destruct (validate_fixup_walk_spec placed parent at_ (S (length placed)) cursor min) as (b & Hb & Hiff); [done|lia|done|].
  exists b. split; [done|]. rewrite Hiff. split; [by eauto|]. by intros (? & [= <-] & ?).
Qed.

End fixups.

(** A buffer and its child, and a fixup of the parent after the child's. *)
Lemma validate_fixup_exact_witness :
  exists b, @validate_fixup debug_env [mkPlacedPtr 0 64 32 None 0; mkPlacedPtr 40 96 16 (Some 0%nat) 8] 0 16 (Some 1%nat) 0
    = Done b /\ b = true.
Proof.
  destruct (@validate_fixup_exact debug_env [mkPlacedPtr 0 64 32 None 0; mkPlacedPtr 40 96 16 (Some 0%nat) 8] 0 16 (Some 1%nat) 0)
    as (b & Hb & Hiff).
  - intros [|[|i]] pp p Hpp Hp; [| |done]; injection Hpp as <-; [discriminate Hp|]. injection Hp as <-. simpl. lia.
  - intros i [= <-]. simpl. lia.
  - exists b. split; [exact Hb|]. apply Hiff. exists 1%nat. split; [reflexivity|].
    eapply fo_up; [discriminate|reflexivity|reflexivity|]. apply fo_here. simpl. lia.
Defined.

(** ** Failures *)

Lemma thread_of_alter_thread p t f s :
  thread_of (alter_thread p t f s) p t = f <$> thread_of s p t.
Proof.
  unfold thread_of. simpl. rewrite lookup_alter_eq. destruct (st_procs s !! p) as [P|]; simpl; [|done].
  by rewrite lookup_alter_eq.
Qed.

Lemma thread_of_alter_proc p t f s :
  (forall P, p_threads (f P) = p_threads P) -> thread_of (alter_proc p f s) p t = thread_of s p t.
Proof.
  intros Hf. unfold thread_of. simpl. rewrite lookup_alter_eq.
  destruct (st_procs s !! p) as [P|]; simpl; [by rewrite Hf|done].
Qed.

(** A wake changes nothing of the thread but the read it has parked. *)
Lemma wake_thread_keeps p t T s :
  thread_of s p t = Some T ->
  wpx True True (wake_thread p t)
    (fun _ s' => exists r, thread_of s' p t = Some (T <| t_parked := r |>)) s.
Proof.
  intros HT. unfold wake_thread. wp_step.
  apply (wp_mono _ _ _ (fun _ s' => exists r, thread_of s' p t = Some (T <| t_parked := r |>))).
  - unfold wake_waiter. wp_step. apply wp_get. rewrite HT. destruct (t_parked T) as [r|] eqn:Hr.
    + repeat wp_step. exists None.
      match goal with |- thread_of (set_field st_resumes ?f ?s1) p t = _ =>
        change (thread_of (set_field st_resumes f s1) p t) with (thread_of s1 p t) end.
      rewrite thread_of_alter_proc by done. by rewrite thread_of_alter_thread, HT.
    + repeat wp_step. exists None. replace (T <| t_parked := None |>) with T; [done|].
      destruct T. simpl in Hr. by subst.
  - intros _ s1 [r Hr]. repeat wp_step; eauto.
Qed.

(** a failed call is reported to the thread that made it: the thread's
    next read finds the error as its last item of work and its command stream
    stops until then, and the extended error holds the call's id, the return
    code and the errno. *)
Theorem failed_call_reported p t debug_id failure s s' T :
  thread_of s p t = Some T ->
  deliver_failure p t debug_id None failure s = Done (tt, s') ->
  exists T', thread_of s' p t = Some T' /\ t_return_error T' = Some (fl_cmd failure) /\
    t_ee T' = mkExtendedError debug_id (fl_cmd failure) (fl_param failure) /\
    t_todo T' = t_todo T ++ [WReturnError (fl_cmd failure) SlotReturn] /\ t_process_todo T' = true.
Proof.
  intros HT Hr. match goal with |- ?Q => enough (Hw : wpx True True (deliver_failure p t debug_id None failure)
    (fun _ s1 => s1 = s' -> Q) s) by by apply (wp_done _ _ _ _ _ _ _ Hr Hw) end.
  unfold deliver_failure, enqueue_thread_work. wp_step. apply wp_modify. wp_step. apply wp_get.
  unfold thread_exists. rewrite thread_of_alter_thread, HT. simpl. wp_step. apply wp_modify.
  eapply wp_mono; [apply wake_thread_keeps; by rewrite !thread_of_alter_thread, HT|].
  intros _ s1 [r Hs1] <-. eexists. split; [exact Hs1|]. done.
Qed.

Definition demo_thread : State := {|
  st_contexts := []; st_procs := {[1 := (Proc_new 0 (mkCredentials 1 0 None)) <| p_threads := {[7 := Thread_new 0]} |>]};
  st_nodes := ∅; st_txns := ∅; st_deaths := ∅; st_next_id := 1; st_wakes := []; st_resumes := [];
  st_notifications := []; st_trace := None; st_shadow := None; st_memories := ∅; st_sinks := mkSinks ∅ ∅;
  st_events := []; st_next_condvar := 1; st_ticks := 0 |}.

Lemma failed_call_reported_witness :
  exists s' T', deliver_failure 1 7 3 None (fail BR_FAILED_REPLY EINVAL) demo_thread = Done (tt, s') /\
    thread_of s' 1 7 = Some T' /\ t_return_error T' = Some BR_FAILED_REPLY.
Proof.
  assert (Hr : exists s', deliver_failure 1 7 3 None (fail BR_FAILED_REPLY EINVAL) demo_thread = Done (tt, s'))
    by (eexists; vm_compute; reflexivity).
  destruct Hr as [s' Hr].
  destruct (failed_call_reported 1 7 3 (fail BR_FAILED_REPLY EINVAL) demo_thread s' (Thread_new 0)) as (T' & HT' & He & _);
    [vm_compute; reflexivity|exact Hr|]. exists s', T'. split; [exact Hr|]. split; [exact HT'|exact He].
Defined.
