(* ===== verification/Release.v ===== *)
(** Thread exit and process release
    ([src/crates/aim-binder-driver/src/release.rs]): failed replies to callers, dead
    nodes and their death notifications, and dropped references. *)

From S2P Require Import Prelude Host Uapi Alloc Trace Shadow State Transaction.
From Stdlib Require Import ZArith Lia.
From stdpp Require Import base numbers list gmap sorting.

Open Scope Z_scope.

Section operations.
Context `{Env}.

(** [binder_release_work] on one item. *)
Definition release_one (w : Work) : M State unit :=
  match w with
  | WTransaction id => cleanup_transaction id BR_DEAD_REPLY
  | WDeath id =>
      s ← get;
      let state := d_state <$> st_deaths s !! id in
      modify (alter_death id (set_field d_location (fun _ => None)));;
      match state with
      | Some DeadBinderAndClear | Some Clear => modify (set_field st_deaths (delete id))
      | _ => mret tt
      end
  | WNode id => modify (alter_node id (set_field n_work_queued (fun _ => None)))
  | WTransactionComplete | WOnewaySpamSuspect | WReturnError _ _ => mret tt
  end.

Definition release_work (work : list Work) : M State unit := for_each release_one work.

(** A transaction loses the exiting thread that served it. *)
Definition leave_served (proc : ProcId) (id : TxnId) (t : Txn) : M State unit :=
  modify (alter_txn id (fun t =>
    t <| x_to_proc := None |> <| x_to_thread := None |> <| x_buffer := None |>));;
  modify (alter_proc proc (set_field p_outstanding_txns (fun n => saturating_sub n 1)));;
  match x_buffer t with
  | Some offset => modify (alter_buffer proc offset (set_field b_txn (fun _ => None)))
  | None => mret tt
  end.

(** The transactions of an exiting thread's stack: those it was serving lose
    their target, those it sent lose their sender.  Returns their number. *)
Fixpoint unwind_stack (fuel : nat) (proc : ProcId) (tid : Tid) (cursor : option TxnId) (active : Z) :
    M State Z :=
  match cursor, fuel with
  | None, _ => mret active
  | Some _, O => spin
  | Some id, S fuel =>
      active ← call (uadd 64 active 1);
      s ← get;
      match st_txns s !! id with
      | None => mret active
      | Some t =>
          if bool_decide (x_to_thread t = Some tid) && bool_decide (x_to_proc t = Some proc) then
            leave_served proc id t;;
            unwind_stack fuel proc tid (x_to_parent t) active
          else if bool_decide (x_from t = Some (proc, tid)) then
            modify (alter_txn id (set_field x_from (fun _ => None)));;
            unwind_stack fuel proc tid (x_from_parent t) active
          else mret active
      end
  end.

(** Every turn of the walk but the last clears the thread's end of a
    transaction, and a transaction has two ends. *)
Definition unwind (proc : ProcId) (tid : Tid) (stack : option TxnId) : M State Z :=
  s ← get;
  unwind_stack (S (S (2 * size (st_txns s)))) proc tid stack 0.

(** [binder_thread_release]. *)
Definition thread_release (proc : ProcId) (tid : Tid) : M State Z :=
  s ← get;
  match thread_of s proc tid with
  | None => mret 0
  | Some thread =>
      modify (alter_proc proc (fun p =>
        p <| p_threads ::= delete tid |> <| p_waiting_threads ::= filter (fun t => t <> tid) |>));;
      modify (set_field st_events (fun l => l ++ [EvNotifyAll (t_wait thread)]));;
      modify (set_field st_resumes (fun l => l ++ option_list (t_parked thread)));;
      send_reply ←
        match t_transaction_stack thread with
        | None => mret None
        | Some top =>
            t ← the_txn top;
            mret (if bool_decide (x_to_thread t = Some tid) && bool_decide (x_to_proc t = Some proc)
                  then Some top else None)
        end;
      active ← unwind proc tid (t_transaction_stack thread);
      match send_reply with
      | Some id => send_failed_reply id BR_DEAD_REPLY
      | None => mret tt
      end;;
      release_work (t_todo thread);;
      mret active
  end.

(** The death notification of one holder of a dead node. *)
Definition notify_holder (id : NodeId) (holder : ProcId) : M State unit :=
  s ← get;
  match (p ← st_procs s !! holder; desc ← p_refs_by_node p !! id; Some (p, desc)) with
  | None => mret tt
  | Some (p, desc) =>
      r ← call (unwrap (p_refs_by_desc p !! desc));
      match r_death r with
      | None => mret tt
      | Some death =>
          the_death death;;
          modify (alter_death death (fun d =>
            d <| d_state := DeadBinder |> <| d_location := Some (LocQueued (WlProc holder)) |>));;
          enqueue_proc_work holder (WDeath death);;
          wakeup_proc holder
      end
  end.

(** [binder_node_release]: the owner is gone.  Holders keep the node as a dead
    node and get their death notifications. *)
Definition node_release (id : NodeId) : M State unit :=
  s ← get;
  match st_nodes s !! id with
  | None => mret tt
  | Some node =>
      modify (alter_node id (fun n => n <| n_async_todo := [] |> <| n_work_queued := None |>));;
      release_work (WTransaction <$> n_async_todo node);;
      node ← the_node id;
      if bool_decide (n_refs node = ∅) then remove_node id
      else
        modify (alter_node id (fun n =>
          n <| n_proc := None |> <| n_local_strong_refs := 0 |> <| n_local_weak_refs := 0 |>));;
        for_each (notify_holder id) (merge_sort Z.le (elements (n_refs node)))
  end.

(** The transactions that still point at buffers of a gone process lose them. *)
Definition orphan_buffer (b : Buffer) : M State unit :=
  match b_txn b with
  | Some txn => modify (alter_txn txn (set_field x_buffer (fun _ => None)))
  | None => mret tt
  end.

(** The context forgets a manager that [proc] owns. *)
Definition drop_manager (proc : ProcId) (context : nat) : M State unit :=
  c ← the_context context;
  s ← get;
  match (mgr ← c_mgr_node c; st_nodes s !! mgr) with
  | Some n =>
      if bool_decide (n_proc n = Some proc)
      then modify (alter_context context (set_field c_mgr_node (fun _ => None)))
      else mret tt
  | None => mret tt
  end.

(** [binder_deferred_release]: the process closed its binder fd or died. *)
Definition release_proc (proc : ProcId) : M State unit :=
  s ← get;
  match st_procs s !! proc with
  | None => mret tt
  | Some p =>
      drop_manager proc (p_context p);;
      for_each (fun tid => thread_release proc tid;; mret tt)
        (hash_order (sorted_keys (p_threads p)));;
      p ← the_proc proc;
      modify (alter_proc proc (set_field p_nodes (fun _ => ∅)));;
      for_each node_release (omap (fun ptr => p_nodes p !! ptr) (sorted_keys (p_nodes p)));;
      p ← the_proc proc;
      for_each (cleanup_ref proc) (sorted_keys (p_refs_by_desc p));;
      p ← the_proc proc;
      modify (alter_proc proc (fun p => p <| p_todo := [] |> <| p_delivered_death := [] |>));;
      release_work (p_todo p);;
      release_work (WDeath <$> p_delivered_death p);;
      p ← the_proc proc;
      modify (set_field st_procs (delete proc));;
      match p_alloc p with
      | Some alloc => for_each orphan_buffer (snd <$> map_to_list (a_buffers alloc))
      | None => mret tt
      end
  end.

End operations.
