(* ===== verification/Read.v ===== *)
(** [binder_thread_read]: queued work turned into BR returns
    ([src/crates/aim-binder-driver/src/read.rs]). *)

From S2P Require Import Prelude Host Uapi Alloc Trace Shadow State Transaction.
From Stdlib Require Import ZArith Lia.
From Stdlib Require Import Strings.Byte.
From stdpp Require Import base numbers list gmap sorting.

Open Scope Z_scope.

(** Whether a read pass produced anything worth returning. *)
Inductive Pass := PassRetry | PassDone.

(** [binder_has_work_ilocked]. *)
Definition has_work (s : State) (proc : ProcId) (tid : Tid) (do_proc_work : bool) : bool :=
  match st_procs s !! proc with
  | None => true
  | Some p =>
      match p_threads p !! tid with
      | None => true
      | Some t =>
          t_process_todo t || t_looper_need_return t ||
          (do_proc_work && negb (bool_decide (p_todo p = [])))
      end
  end.

(** The references a node's owner should hold, from the node's counts. *)
Definition wants_strong (n : Node) : bool :=
  negb (n_internal_strong_refs n =? 0) || negb (n_local_strong_refs n =? 0).
Definition wants_weak (n : Node) : bool :=
  negb (bool_decide (n_refs n = ∅)) || negb (n_local_weak_refs n =? 0) || wants_strong n.

(** [cmd], [ptr] and [cookie], as they are written to the reader. *)
Definition node_return (n : Node) (cmd : Z) : list byte :=
  le_bytes 4 cmd ++ le_bytes 8 (n_ptr n) ++ le_bytes 8 (n_cookie n).

Section operations.
Context `{Env}.

(** [BINDER_WORK_NODE]: reports reference state changes to the owner; returns
    what is written. *)
Definition node_work (proc : ProcId) (id : NodeId) : M State (list byte) :=
  s ← get;
  match st_nodes s !! id with
  | None => mret []
  | Some node =>
      let strong := wants_strong node in
      let weak := wants_weak node in
      let has_strong := n_has_strong_ref node in
      let has_weak := n_has_weak_ref node in
      let node1 := node <| n_work_queued := None |> in
      node2 ←
        (if weak && negb has_weak then
           c ← call (uadd 32 (n_local_weak_refs node1) 1);
           mret (node1 <| n_has_weak_ref := true |> <| n_pending_weak_ref := true |>
                       <| n_local_weak_refs := c |>)
         else mret node1);
      node3 ←
        (if strong && negb has_strong then
           c ← call (uadd 32 (n_local_strong_refs node2) 1);
           mret (node2 <| n_has_strong_ref := true |> <| n_pending_strong_ref := true |>
                       <| n_local_strong_refs := c |>)
         else mret node2);
      let node4 := if negb strong && has_strong then node3 <| n_has_strong_ref := false |> else node3 in
      let node5 := if negb weak && has_weak then node4 <| n_has_weak_ref := false |> else node4 in
      modify (alter_node id (fun _ => node5));;
      (if negb weak && negb strong then
         modify (alter_proc proc (set_field p_nodes (delete (n_ptr node))));;
         remove_node id
       else mret tt);;
      mret ((if weak && negb has_weak then node_return node BR_INCREFS else []) ++
            (if strong && negb has_strong then node_return node BR_ACQUIRE else []) ++
            (if negb strong && has_strong then node_return node BR_RELEASE else []) ++
            (if negb weak && has_weak then node_return node BR_DECREFS else []))
  end.

(** [BINDER_WORK_DEAD_BINDER] and its kin: the command, or nothing for a
    notification that is gone. *)
Definition death_work (proc : ProcId) (id : DeathId) : M State (option (Z * Z)) :=
  s ← get;
  match st_deaths s !! id with
  | None => mret None
  | Some d =>
      if decide (d_state d = Clear) then
        modify (set_field st_deaths (delete id));;
        mret (Some (BR_CLEAR_DEATH_NOTIFICATION_DONE, d_cookie d))
      else
        modify (alter_death id (set_field d_location (fun _ => Some LocDelivered)));;
        the_proc proc;;
        modify (alter_proc proc (set_field p_delivered_death (fun l => l ++ [id])));;
        mret (Some (BR_DEAD_BINDER, d_cookie d))
  end.

(** The end of [binder_thread_read]: asks for another looper when none is
    waiting and the pool may grow. *)
Definition should_spawn_looper (proc : ProcId) (tid : Tid) : M State bool :=
  s ← get;
  match st_procs s !! proc with
  | None => mret false
  | Some p =>
      let registered :=
        match p_threads p !! tid with
        | Some t => has_flag (t_looper t) (Z.lor LOOPER_REGISTERED LOOPER_ENTERED)
        | None => false
        end in
      if (p_requested_threads p =? 0) && bool_decide (p_waiting_threads p = []) &&
         (p_requested_threads_started p <? p_max_threads p) && registered then
        n ← call (uadd 32 (p_requested_threads p) 1);
        modify (alter_proc proc (set_field p_requested_threads (fun _ => n)));;
        mret true
      else mret false
  end.

(** The sender's pid, as the receiver of a transaction sees it. *)
Definition reported_pid (s : State) (t : Txn) : Z :=
  if x_delegated_sender t then
    if bool_decide (is_Some (x_from t)) then cr_pid (x_sender_credentials t) else 0
  else
    match (from ← x_from t; st_procs s !! from.1) with
    | Some p => cr_pid (p_creds p)
    | None => 0
    end.

Section guest.
Context {G : Type} `{GuestProcess G}.

(** [binder_apply_fd_fixups]: installs the files in the reader and writes
    their numbers into its buffer; [None] in the second component when one
    does not fit. *)
Fixpoint install_fixups (memory offset : Z) (fixups : list FdFixup) (installed : list (Z * bool)) :
    M (World G) (list (Z * bool) * bool) :=
  match fixups with
  | [] => mret (installed, false)
  | fixup :: fixups =>
      r ← guest_install_file (ff_file fixup);
      match r with
      | Ok fd =>
          at_ ← call (uadd 64 offset (ff_offset fixup));
          st (memory_write memory at_ (le_bytes 4 fd));;
          install_fixups memory offset fixups (installed ++ [(fd, ff_in_array fixup)])
      | Err _ => mret (installed, true)
      end
  end.

(** A transaction whose files do not fit the reader is undone. *)
Definition undo_delivery (proc : ProcId) (id : TxnId) (offset : Z) (installed : list (Z * bool)) :
    M (World G) unit :=
  for_each (fun fd => guest_close_fd fd.1) installed;;
  st (modify (alter_buffer proc offset (set_field b_txn (fun _ => None))));;
  st (cleanup_transaction id BR_FAILED_REPLY);;
  _ ← st (free_buffer proc offset true);
  mret tt.

(** Delivers one transaction or reply.  Returns whether the read loop ends (it
    does after any delivered transaction, and after a failed reply) and what
    is written. *)
Definition deliver_transaction (proc : ProcId) (tid : Tid) (id : TxnId) :
    M (World G) (bool * list byte) :=
  w ← get;
  match st_txns (w_st w) !! id with
  | None => mret (false, [])
  | Some t =>
      match x_buffer t with
      | None => st (cleanup_transaction id BR_DEAD_REPLY);; mret (false, [])
      | Some offset =>
          let target := n ← x_target_node t; st_nodes (w_st w) !! n in
          let '(cmd, ptr, cookie) :=
            match target with
            | Some node => (BR_TRANSACTION, n_ptr node, n_cookie node)
            | None => (BR_REPLY, 0, 0)
            end in
          st (modify (alter_txn id (set_field x_fd_fixups (fun _ => []))));;
          p ← st (the_proc proc);
          memory ← call (unwrap (p_receive p));
          '(installed, failed) ← install_fixups memory offset (x_fd_fixups t) [];
          if failed : bool then
            undo_delivery proc id offset installed;;
            (if cmd =? BR_REPLY then mret (true, le_bytes 4 BR_FAILED_REPLY) else mret (false, []))
          else
          p ← st (the_proc proc);
          alloc ← call (unwrap (p_alloc p));
          buffer ← call (unwrap (a_buffers alloc !! offset));
          address ← call (user_address alloc offset);
          aligned ← call (unwrap (align8 (b_data_size buffer)));
          offsets ← call (uadd 64 address aligned);
          let tr := TransactionData_default
            <| td_target := ptr |> <| td_cookie := cookie |> <| td_code := x_code t |>
            <| td_flags := x_flags t |> <| td_sender_euid := x_sender_euid t |>
            <| td_sender_pid := reported_pid (w_st w) t |>
            <| td_data_size := b_data_size buffer |> <| td_offsets_size := b_offsets_size buffer |>
            <| td_buffer := address |> <| td_offsets := offsets |> in
          let cmd := if negb (x_security_ctx t =? 0) then BR_TRANSACTION_SEC_CTX else cmd in
          bytes ← call (TransactionData_encode tr);
          let out := le_bytes 4 cmd ++ bytes ++
            (if cmd =? BR_TRANSACTION_SEC_CTX then le_bytes 8 (x_security_ctx t) else []) in
          st (the_buffer proc offset);;
          st (modify (alter_buffer proc offset (fun b =>
            b <| b_allow_user_free := true |>
              <| b_fda_fds := fst <$> filter (fun fi : Z * bool => fi.2 = true) installed |>)));;
          st (on_trace (fun now => if cmd =? BR_REPLY then Trace_returned id now
                                   else Trace_delivered id tid now));;
          (if negb (cmd =? BR_REPLY) && negb (is_oneway t) then
             thread ← st (the_thread proc tid);
             st (the_txn id);;
             st (modify (alter_txn id (fun t =>
               t <| x_to_parent := t_transaction_stack thread |> <| x_to_thread := Some tid |>)));;
             st (modify (alter_thread proc tid (set_field t_transaction_stack (fun _ => Some id))))
           else st (free_transaction id));;
          st (the_buffer proc offset);;
          st (modify (alter_buffer proc offset (set_field b_delivery (fun _ => Some (tid, id)))));;
          guest_delivered address id;;
          mret (true, out)
      end
  end.

(** Whether the reader has no room for the files of the next transaction. *)
Definition lacks_room (next : option Work) : M (World G) bool :=
  w ← get;
  match next with
  | Some (WTransaction id) =>
      match st_txns (w_st w) !! id with
      | Some t =>
          match x_fd_fixups t with
          | [] => mret false
          | fixups => ok ← guest_can_install (Z.of_nat (length fixups)); mret (negb ok)
          end
      | None => mret false
      end
  | _ => mret false
  end.

(** Takes the front item of the thread's queue, else of the process's. *)
Definition pop_work (proc : ProcId) (tid : Tid) (from_thread : bool) : M State Work :=
  work ←
    (if from_thread then
       t ← the_thread proc tid;
       work ← call (unwrap (head (t_todo t)));
       modify (alter_thread proc tid (set_field t_todo tail));;
       mret work
     else
       p ← the_proc proc;
       work ← call (unwrap (head (p_todo p)));
       modify (alter_proc proc (set_field p_todo tail));;
       mret work);
  the_thread proc tid;;
  modify (alter_thread proc tid (fun t =>
    if decide (t_todo t = []) then t <| t_process_todo := false |> else t));;
  mret work.

(** One item of work: whether the pass ends, and what is written. *)
Definition execute_work (proc : ProcId) (tid : Tid) (work : Work) : M (World G) (bool * list byte) :=
  match work with
  | WTransaction id => deliver_transaction proc tid id
  | WReturnError cmd slot =>
      st (the_thread proc tid);;
      st (modify (alter_thread proc tid (fun t =>
        match slot with
        | SlotReturn => t <| t_return_error := None |>
        | SlotReply => t <| t_reply_error := None |>
        end)));;
      mret (false, le_bytes 4 cmd)
  | WTransactionComplete => mret (false, le_bytes 4 BR_TRANSACTION_COMPLETE)
  | WOnewaySpamSuspect =>
      p ← st (the_proc proc);
      mret (false, le_bytes 4 (if p_oneway_spam_detection p
                               then BR_ONEWAY_SPAM_SUSPECT else BR_TRANSACTION_COMPLETE))
  | WNode id => out ← st (node_work proc id); mret (false, out)
  | WDeath id =>
      r ← st (death_work proc id);
      match r with
      | None => mret (false, [])
      | Some (cmd, cookie) => mret (cmd =? BR_DEAD_BINDER, le_bytes 4 cmd ++ le_bytes 8 cookie)
      end
  end.

(** What the read loop looks at before it takes an item. *)
Inductive Glance :=
| GlStop (p : Pass)
| GlTake (from_thread : bool).

Definition glance (proc : ProcId) (tid : Tid) (wait_for_proc_work : bool) (out : list byte)
    (start capacity : Z) : M (World G) Glance :=
  w ← get;
  match (p ← st_procs (w_st w) !! proc; t ← p_threads p !! tid; Some (p, t)) with
  | None => mret (GlStop PassDone)
  | Some (p, thread) =>
      let from_thread := negb (bool_decide (t_todo thread = [])) in
      filled ← call (uadd 64 start (Z.of_nat (length out)));
      if negb from_thread && (bool_decide (p_todo p = []) || negb wait_for_proc_work) then
        mret (GlStop (if (filled =? 4) && negb (t_looper_need_return thread)
                      then PassRetry else PassDone))
      else
      room ← call (usub 64 capacity filled);
      if room <? TRANSACTION_DATA_SECCTX_SIZE + 4 then mret (GlStop PassDone) else
      lacks ← lacks_room (head (if from_thread then t_todo thread else p_todo p));
      mret (if lacks : bool then GlStop PassDone else GlTake from_thread)
  end.

(** One pass of the read loop over the thread's and, if allowed, the process's
    work; [out] already holds what earlier passes wrote. *)
Fixpoint read_pass_loop (fuel : nat) (proc : ProcId) (tid : Tid) (wait_for_proc_work : bool)
    (out : list byte) (start capacity : Z) : M (World G) (Pass * list byte) :=
  match fuel with
  | O => spin
  | S fuel =>
      g ← glance proc tid wait_for_proc_work out start capacity;
      match g with
      | GlStop pass => mret (pass, out)
      | GlTake from_thread =>
          work ← st (pop_work proc tid from_thread);
          '(stop, written) ← execute_work proc tid work;
          let out := out ++ written in
          if stop : bool then mret (PassDone, out)
          else read_pass_loop fuel proc tid wait_for_proc_work out start capacity
      end
  end.

End guest.

(** How much work a buffer can queue on its process when it is freed: the
    node's next one-way transaction, and one item per reference dropped. *)
Definition buffer_weight (b : Buffer) : nat := (2 + 3 * length (b_objects b))%nat.

Definition buffers_weight (p : Proc) : nat :=
  match p_alloc p with
  | Some a => sum_list_with buffer_weight (snd <$> map_to_list (a_buffers a))
  | None => O
  end.

(** A bound on the turns of one read pass: the items queued now, and those
    that failed deliveries can queue while the pass runs. *)
Definition read_fuel (s : State) (proc : ProcId) (tid : Tid) : nat :=
  match st_procs s !! proc with
  | None => O
  | Some p =>
      match p_threads p !! tid with
      | None => O
      | Some t =>
          (length (t_todo t) + length (p_todo p) + 2 * size (st_txns s) + buffers_weight p)%nat
      end
  end.

Definition read_pass {G} `{GuestProcess G} (proc : ProcId) (tid : Tid) (wait_for_proc_work : bool)
    (out : list byte) (start capacity : Z) : M (World G) (Pass * list byte) :=
  w ← get;
  read_pass_loop (S (read_fuel (w_st w) proc tid)) proc tid wait_for_proc_work out start capacity.

End operations.

(** ** What a read writes *)

Section writes.
Context `{Env}.

Lemma length_put_u64 bs o v bs' : put_u64 bs o v = Done bs' -> length bs' = length bs.
Proof. unfold put_u64. intros Hp%unwrap_Done. by eapply length_splice. Qed.
Lemma length_put_u32 bs o v bs' : put_u32 bs o v = Done bs' -> length bs' = length bs.
Proof. unfold put_u32. intros Hp%unwrap_Done. by eapply length_splice. Qed.
Lemma length_put_i32 bs o v bs' : put_i32 bs o v = Done bs' -> length bs' = length bs.
Proof. unfold put_i32. intros Hp%unwrap_Done. by eapply length_splice. Qed.

Lemma length_TransactionData_encode tr bs : TransactionData_encode tr = Done bs -> length bs = 64%nat.
Proof.
  unfold TransactionData_encode. cbv zeta. intros Htr.
  repeat lazymatch type of Htr with
  | (?o ≫= _) = _ => let Ho := fresh "Ho" in destruct o eqn:Ho; simpl in Htr; try discriminate Htr
  end.
  repeat match goal with
  | Hp : put_u64 _ _ _ = Done _ |- _ => apply length_put_u64 in Hp
  | Hp : put_u32 _ _ _ = Done _ |- _ => apply length_put_u32 in Hp
  | Hp : put_i32 _ _ _ = Done _ |- _ => apply length_put_i32 in Hp
  end.
  rewrite length_replicate in *. change (Z.to_nat TRANSACTION_DATA_SIZE) with 64%nat in *. congruence.
Qed.

Context {G : Type} `{GuestProcess G}.

Lemma node_work_size p id : gives (node_work p id) (fun out => (length out <= 40)%nat).
Proof.
  unfold node_work. repeat gives_step; simpl; [|lia].
  destruct (wants_weak n), (wants_strong n), (n_has_weak_ref n), (n_has_strong_ref n); simpl;
    unfold node_return; rewrite ?length_app, ?length_le_bytes; simpl; lia.
Qed.

(** What one item of work writes fits the room the pass checks for. *)
Lemma execute_work_size p t work :
  gives (execute_work (G := G) p t work)
    (fun r => Z.of_nat (length r.2) <= TRANSACTION_DATA_SECCTX_SIZE + 4).
Proof.
  change (TRANSACTION_DATA_SECCTX_SIZE + 4) with 76.
  destruct work as [id| | |cmd slot|id|id]; simpl.
  5: { apply (gives_bind _ _ (fun out => (length out <= 40)%nat)).
       - intros w. specialize (node_work_size p id (w_st w)). unfold wpx, st.
         by destruct (node_work p id (w_st w)) as [[out s']| |].
       - intros out Hout. apply gives_ret. simpl. lia. }
  all: unfold deliver_transaction; repeat gives_step; cbn [snd]; rewrite ?length_app, ?length_le_bytes; simpl; try lia.
  match goal with He : TransactionData_encode _ = Done _ |- _ => apply length_TransactionData_encode in He end.
  destruct (_ =? BR_TRANSACTION_SEC_CTX); rewrite ?length_le_bytes; simpl; lia.
Qed.

Lemma glance_room p t wait out start capacity :
  gives (glance (G := G) p t wait out start capacity)
    (fun g => forall ft, g = GlTake ft -> exists filled room, uadd 64 start (Z.of_nat (length out)) = Done filled /\
       usub 64 capacity filled = Done room /\ TRANSACTION_DATA_SECCTX_SIZE + 4 <= room).
Proof.
  unfold glance. repeat gives_step; try done; intros ft Hft; try done.
  match goal with Hr : (_ <? _) = false |- _ => apply Z.ltb_ge in Hr end. eauto.
Qed.

Lemma read_pass_loop_bound fuel p t wait out start capacity :
  0 <= start -> start + Z.of_nat (length out) <= capacity < 2 ^ 64 ->
  gives (read_pass_loop (G := G) fuel p t wait out start capacity)
    (fun r => start + Z.of_nat (length r.2) <= capacity /\ out `prefix_of` r.2).
Proof.
  intros Hs. revert out. induction fuel as [|fuel IH]; intros out Hout; simpl; [by intros w|].
  eapply gives_bind; [apply glance_room|]. intros [pass|ft] Hg; [apply gives_ret; split; [apply Hout|done]|].
  destruct (Hg ft eq_refl) as (filled & room & Hf & Hr & Hroom).
  rewrite uadd_small in Hf by lia. injection Hf as <-. rewrite usub_small in Hr by lia. injection Hr as <-.
  apply gives_then. intros work. eapply gives_bind; [apply execute_work_size|].
  intros [stop written] Hw. simpl in Hw. cbv zeta.
  assert (Hlen : start + Z.of_nat (length (out ++ written)) <= capacity) by (rewrite length_app; lia).
  destruct stop; [apply gives_ret; split; [done|by exists written]|].
  intros w. eapply wp_mono; [apply IH; lia|]. intros [pass out'] w' [? Hp]. split; [done|].
  etrans; [|exact Hp]. by exists written.
Qed.


(** Node work brings what the owner has been told in line with the node's
    counts.  A node that is kept has exactly the references reported that its
    counts call for, and a newly reported strong or weak reference is held by
    a local count until the owner acknowledges it; the node goes only when
    neither is called for.  The owner is told something exactly when what it
    holds changes. *)
Theorem node_work_reports p id s n out s' :
  st_nodes s !! id = Some n -> node_work p id s = Done (out, s') ->
  match st_nodes s' !! id with
  | Some n' =>
      n_has_strong_ref n' = wants_strong n /\ n_has_weak_ref n' = wants_weak n /\ n_work_queued n' = None /\
      (wants_strong n && negb (n_has_strong_ref n) = true ->
       n_pending_strong_ref n' = true /\ uadd 32 (n_local_strong_refs n) 1 = Done (n_local_strong_refs n')) /\
      (wants_weak n && negb (n_has_weak_ref n) = true ->
       n_pending_weak_ref n' = true /\ uadd 32 (n_local_weak_refs n) 1 = Done (n_local_weak_refs n'))
  | None => wants_strong n = false /\ wants_weak n = false
  end /\
  (out = [] <-> n_has_strong_ref n = wants_strong n /\ n_has_weak_ref n = wants_weak n).
Proof.
  intros Hn Hr. assert (Hk : wants_weak n = false -> wants_strong n = false).
  { unfold wants_weak. intros Hw. by apply orb_false_iff in Hw as [_ ?]. }
  match goal with |- ?Q => enough (Hw : wpx True True (node_work p id) (fun out' s1 => out' = out -> s1 = s' -> Q) s)
    by by apply (wp_done _ _ _ _ _ _ _ Hr Hw) end.
  unfold node_work. wp_step. apply wp_get. rewrite Hn. cbv zeta.
  destruct (wants_weak n), (n_has_weak_ref n) eqn:Hhw, (wants_strong n), (n_has_strong_ref n) eqn:Hhs;
    try (specialize (Hk eq_refl); discriminate Hk);
    simpl; repeat (wp_step; simpl); intros <- <-; simpl;
    rewrite ?lookup_delete_eq, ?lookup_alter_eq, ?Hn; simpl; repeat split; intros; try done;
    repeat match goal with Hd : _ /\ _ |- _ => destruct Hd end; try congruence; try done.
Qed.

End writes.
