(* ===== verification/Write.v ===== *)
(** [binder_thread_write]: the BC command stream
    ([src/crates/aim-binder-driver/src/write.rs]). *)

From S2P Require Import Prelude Host Uapi Alloc Trace Shadow State Transaction.
From Stdlib Require Import ZArith Lia.
From Stdlib Require Import Strings.Byte.
From stdpp Require Import base numbers list gmap sorting.

Open Scope Z_scope.

Section operations.
Context `{Env}.

(** [BC_INCREFS], [BC_ACQUIRE], [BC_RELEASE] and [BC_DECREFS]. *)
Definition ref_command (proc : ProcId) (cmd target : Z) : M State (result unit Errno) :=
  let strong := (cmd =? BC_ACQUIRE) || (cmd =? BC_RELEASE) in
  let increment := (cmd =? BC_INCREFS) || (cmd =? BC_ACQUIRE) in
  done ←?
    (if increment && (target =? 0) then
       p ← the_proc proc;
       c ← the_context (p_context p);
       match c_mgr_node c with
       | None => mret (Ok false)
       | Some mgr =>
           n ← the_node mgr;
           if decide (n_proc n = Some proc) then mret (Err EINVAL)
           else
             r ← inc_ref_for_node proc mgr strong None;
             mret (Ok (match r with Ok _ => true | Err _ => false end))
       end
     else mret (Ok false));
  (if done : bool then mret tt
   else _ ← update_ref_for_handle proc target increment strong; mret tt);;
  mret (Ok tt).

(** [BC_INCREFS_DONE] and [BC_ACQUIRE_DONE]. *)
Definition ref_done_command (proc : ProcId) (cmd ptr cookie : Z) : M State unit :=
  p ← the_proc proc;
  match p_nodes p !! ptr with
  | None => mret tt
  | Some node =>
      n ← the_node node;
      if negb (n_cookie n =? cookie) then mret tt else
      let strong := cmd =? BC_ACQUIRE_DONE in
      let pending := if strong then n_pending_strong_ref n else n_pending_weak_ref n in
      if negb pending then mret tt else
      modify (alter_node node (fun n =>
        if strong then n <| n_pending_strong_ref := false |>
        else n <| n_pending_weak_ref := false |>));;
      dec_node node strong false
  end.

(** [BC_REGISTER_LOOPER]. *)
Definition register_looper (proc : ProcId) (tid : Tid) : M State unit :=
  p ← the_proc proc;
  t ← the_thread proc tid;
  (if has_flag (t_looper t) LOOPER_ENTERED || (p_requested_threads p =? 0) then
     modify (alter_thread proc tid (set_field t_looper (fun l => Z.lor l LOOPER_INVALID)))
   else
     started ← call (uadd 32 (p_requested_threads_started p) 1);
     modify (alter_proc proc (fun p =>
       p <| p_requested_threads ::= Z.pred |> <| p_requested_threads_started := started |>)));;
  modify (alter_thread proc tid (set_field t_looper (fun l => Z.lor l LOOPER_REGISTERED))).

(** [BC_ENTER_LOOPER]. *)
Definition enter_looper (proc : ProcId) (tid : Tid) : M State unit :=
  t ← the_thread proc tid;
  (if has_flag (t_looper t) LOOPER_REGISTERED then
     modify (alter_thread proc tid (set_field t_looper (fun l => Z.lor l LOOPER_INVALID)))
   else mret tt);;
  modify (alter_thread proc tid (set_field t_looper (fun l => Z.lor l LOOPER_ENTERED))).

(** [BC_EXIT_LOOPER]. *)
Definition exit_looper (proc : ProcId) (tid : Tid) : M State unit :=
  the_thread proc tid;;
  modify (alter_thread proc tid (set_field t_looper (fun l => Z.lor l LOOPER_EXITED))).

(** [BC_REQUEST_DEATH_NOTIFICATION] and [BC_CLEAR_DEATH_NOTIFICATION]. *)
Definition set_ref_death (proc : ProcId) (handle : Z) (death : option DeathId) : M State unit :=
  modify (alter_proc proc (set_field p_refs_by_desc
    (alter (set_field r_death (fun _ => death)) handle))).

Definition death_command (proc : ProcId) (tid : Tid) (request : bool) (handle cookie : Z) :
    M State unit :=
  p ← the_proc proc;
  match p_refs_by_desc p !! handle with
  | None => mret tt
  | Some r =>
      if request then
        match r_death r with
        | Some _ => mret tt
        | None =>
            id ← next_id;
            s ← get;
            let node_dead := match st_nodes s !! r_node r with
                             | Some n => bool_decide (n_proc n = None)
                             | None => true
                             end in
            modify (set_field st_deaths (insert id (mkDeath proc cookie Armed None)));;
            set_ref_death proc handle (Some id);;
            if node_dead then
              modify (alter_death id (fun d =>
                d <| d_state := DeadBinder |> <| d_location := Some (LocQueued (WlProc proc)) |>));;
              enqueue_proc_work proc (WDeath id);;
              wakeup_proc proc
            else mret tt
        end
      else
        match r_death r with
        | None => mret tt
        | Some id =>
            d ← the_death id;
            if negb (d_cookie d =? cookie) then mret tt else
            set_ref_death proc handle None;;
            if decide (d_location d = None) then
              modify (alter_death id (set_field d_state (fun _ => Clear)));;
              queue_death_for_thread_or_proc id proc tid
            else modify (alter_death id (set_field d_state (fun _ => DeadBinderAndClear)))
        end
  end.

(** The first delivered notification with this cookie. *)
Fixpoint find_delivered (s : State) (cookie : Z) (delivered : list DeathId) : outcome (option DeathId) :=
  match delivered with
  | [] => mret None
  | id :: delivered =>
      d ← unwrap (st_deaths s !! id);
      if d_cookie d =? cookie then mret (Some id) else find_delivered s cookie delivered
  end.

(** [BC_DEAD_BINDER_DONE]. *)
Definition dead_binder_done (proc : ProcId) (tid : Tid) (cookie : Z) : M State unit :=
  p ← the_proc proc;
  s ← get;
  found ← call (find_delivered s cookie (p_delivered_death p));
  match found with
  | None => mret tt
  | Some death =>
      dequeue_death_work death;;
      d ← the_death death;
      if decide (d_state d = DeadBinderAndClear) then
        modify (alter_death death (set_field d_state (fun _ => Clear)));;
        queue_death_for_thread_or_proc death proc tid
      else mret tt
  end.

(** [BC_FREE_BUFFER]: frees a buffer the reader was given; returns the fds to
    close. *)
Definition free_buffer_command (proc : ProcId) (ptr : Z) : M State (list Z) :=
  s ← get;
  match (p ← st_procs s !! proc; a ← p_alloc p; offset_of a ptr) with
  | None => mret []
  | Some offset =>
      b ← the_buffer proc offset;
      if negb (b_allow_user_free b) then mret [] else free_buffer proc offset false
  end.

Section guest.
Context {G : Type} `{GuestProcess G}.

Definition execute_command (proc : ProcId) (tid : Tid) (cmd : Z) (payload : list byte) :
    M (World G) (result unit Errno) :=
  if (cmd =? BC_INCREFS) || (cmd =? BC_ACQUIRE) || (cmd =? BC_RELEASE) || (cmd =? BC_DECREFS) then
    target ← call (u32_at payload 0);
    st (ref_command proc cmd target)
  else if (cmd =? BC_INCREFS_DONE) || (cmd =? BC_ACQUIRE_DONE) then
    ptr ← call (u64_at payload 0);
    cookie ← call (u64_at payload 8);
    st (ref_done_command proc cmd ptr cookie);;
    mret (Ok tt)
  else if (cmd =? BC_ATTEMPT_ACQUIRE) || (cmd =? BC_ACQUIRE_RESULT) then mret (Err EINVAL)
  else if cmd =? BC_FREE_BUFFER then
    ptr ← call (u64_at payload 0);
    fds ← st (free_buffer_command proc ptr);
    for_each guest_close_fd fds;;
    mret (Ok tt)
  else if (cmd =? BC_TRANSACTION) || (cmd =? BC_REPLY) then
    tr ← call (TransactionData_decode payload);
    transaction proc tid tr (cmd =? BC_REPLY) 0;;
    mret (Ok tt)
  else if (cmd =? BC_TRANSACTION_SG) || (cmd =? BC_REPLY_SG) then
    data ← call (unwrap (slice payload 0 TRANSACTION_DATA_SIZE));
    tr ← call (TransactionData_decode data);
    buffers_size ← call (u64_at payload TRANSACTION_DATA_SIZE);
    transaction proc tid tr (cmd =? BC_REPLY_SG) buffers_size;;
    mret (Ok tt)
  else if cmd =? BC_REGISTER_LOOPER then st (register_looper proc tid);; mret (Ok tt)
  else if cmd =? BC_ENTER_LOOPER then st (enter_looper proc tid);; mret (Ok tt)
  else if cmd =? BC_EXIT_LOOPER then st (exit_looper proc tid);; mret (Ok tt)
  else if (cmd =? BC_REQUEST_DEATH_NOTIFICATION) || (cmd =? BC_CLEAR_DEATH_NOTIFICATION) then
    handle ← call (u32_at payload 0);
    cookie ← call (u64_at payload 4);
    st (death_command proc tid (cmd =? BC_REQUEST_DEATH_NOTIFICATION) handle cookie);;
    mret (Ok tt)
  else if cmd =? BC_DEAD_BINDER_DONE then
    cookie ← call (u64_at payload 0);
    st (dead_binder_done proc tid cookie);;
    mret (Ok tt)
  (** freeze notifications and unknown commands are refused *)
  else mret (Err EINVAL).

(** Whether the thread is gone or holds a return error that user space must
    read first. *)
Definition write_stops (s : State) (proc : ProcId) (tid : Tid) : bool :=
  match thread_of s proc tid with
  | None => true
  | Some t => bool_decide (is_Some (t_return_error t))
  end.

(** Runs the commands of [write] from [consumed] on.  Returns the number of
    bytes consumed, past each command once it has run, also when a command
    fails.  A command takes at least four bytes. *)
Fixpoint thread_write_loop (fuel : nat) (proc : ProcId) (tid : Tid) (write : list byte) (consumed : Z) :
    M (World G) (Z * result unit Errno) :=
  if negb (consumed <? Z.of_nat (length write)) then mret (consumed, Ok tt) else
  match fuel with
  | O => spin
  | S fuel =>
      w ← get;
      if write_stops (w_st w) proc tid then mret (consumed, Ok tt) else
      let rest := drop (Z.to_nat consumed) write in
      match slice rest 0 4 with
      | None => mret (consumed, Err EFAULT)
      | Some word =>
          let cmd := of_le_bytes word in
          match command_payload_size cmd with
          | None => mret (consumed, Err EINVAL)
          | Some size =>
              match slice rest 4 size with
              | None => mret (consumed, Err EFAULT)
              | Some payload =>
                  r ← execute_command proc tid cmd payload;
                  match r with
                  | Err e => mret (consumed, Err e)
                  | Ok _ => thread_write_loop fuel proc tid write (consumed + 4 + size)
                  end
              end
          end
      end
  end.

Definition thread_write (proc : ProcId) (tid : Tid) (write : list byte) (consumed : Z) :
    M (World G) (Z * result unit Errno) :=
  thread_write_loop (length write) proc tid write consumed.

End guest.
End operations.

(** ** The command stream *)

(** [commands_between write c c']: the bytes of [write] from [c] to [c'] are
    whole commands of the protocol. *)
Inductive commands_between (write : list byte) : Z -> Z -> Prop :=
| cb_nil c : commands_between write c c
| cb_cons c c' word size payload :
    slice (drop (Z.to_nat c) write) 0 4 = Some word ->
    command_payload_size (of_le_bytes word) = Some size ->
    slice (drop (Z.to_nat c) write) 4 size = Some payload ->
    commands_between write (c + 4 + size) c' -> commands_between write c c'.

Section stream.
Context `{Env} {G : Type} `{GuestProcess G}.

Lemma payload_in_range (write : list byte) c size payload :
  0 <= c <= Z.of_nat (length write) -> slice (drop (Z.to_nat c) write) 4 size = Some payload ->
  0 <= size /\ c + 4 + size <= Z.of_nat (length write).
Proof.
  intros Hc Hp. unfold slice in Hp. case_decide as Hr; [|done]. rewrite length_drop in Hr. lia.
Qed.

Lemma thread_write_loop_consumes fuel p t write consumed w consumed' r w' :
  thread_write_loop (G := G) fuel p t write consumed w = Done ((consumed', r), w') ->
  0 <= consumed <= Z.of_nat (length write) ->
  consumed <= consumed' <= Z.of_nat (length write) /\ commands_between write consumed consumed' /\
  (r = Ok tt -> consumed' = Z.of_nat (length write) \/ write_stops (w_st w') p t = true).
Proof.
  revert consumed w. induction fuel as [|fuel IH]; intros consumed w Hr Hc; simpl in Hr.
  - destruct (Z.ltb_spec consumed (Z.of_nat (length write))) as [|Hge]; simpl in Hr; [done|].
    injection Hr as <- <- <-. split_and!; [lia..|constructor|]. intros _. left. lia.
  - destruct (Z.ltb_spec consumed (Z.of_nat (length write))) as [Hlt|Hge]; simpl in Hr; cycle 1.
    { injection Hr as <- <- <-. split_and!; [lia..|constructor|]. intros _. left. lia. }
    unfold mbind, M_bind, get in Hr.
    destruct (write_stops (w_st w) p t) eqn:Hstop.
    { injection Hr as <- <- <-. split_and!; [lia..|constructor|]. by right. }
    cbv zeta in Hr. destruct (slice _ 0 4) as [word|] eqn:Hword; cycle 1.
    { injection Hr as <- <- <-. split_and!; [lia..|constructor|done]. }
    destruct (command_payload_size _) as [size|] eqn:Hsize; cycle 1.
    { injection Hr as <- <- <-. split_and!; [lia..|constructor|done]. }
    destruct (slice _ 4 size) as [payload|] eqn:Hpayload; cycle 1.
    { injection Hr as <- <- <-. split_and!; [lia..|constructor|done]. }
    destruct (payload_in_range _ _ _ _ Hc Hpayload).
    destruct (execute_command _ _ _ _ w) as [[[[]|e] w1]| |]; [| |done|done].
    + destruct (IH _ _ Hr) as (? & ? & ?); [lia|]. split_and!; [lia..| |done]. by eapply cb_cons.
    + injection Hr as <- <- <-. split_and!; [lia..|constructor|done].
Qed.


End stream.
