(* ===== verification/Driver.v ===== *)
(** The driver's entry points ([src/crates/aim-binder-driver/src/driver.rs]): open,
    mmap, ioctl, poll and release.  An ioctl whose read finds no work gives up
    the lock, so it is modelled by the parts it runs under the lock: a start,
    and a resumption from each of the two places where it lets go. *)

From S2P Require Import Prelude Host Uapi Alloc Trace Shadow State Transaction Release Read Write.
From Stdlib Require Import ZArith Lia.
From Stdlib Require Import Strings.Byte.
From stdpp Require Import base numbers list gmap sorting strings.

Open Scope Z_scope.

Inductive Device := DevBinder | DevHwBinder | DevVndBinder.

Definition Device_path (d : Device) : string :=
  match d with
  | DevBinder => "/dev/binder"
  | DevHwBinder => "/dev/hwbinder"
  | DevVndBinder => "/dev/vndbinder"
  end.

Definition Device_from_path (path : string) : option Device :=
  snd <$> list_find (fun d => Device_path d = path) [DevBinder; DevHwBinder; DevVndBinder].

(** [Driver::default]: no context, no process. *)
Definition State_default : State :=
  {| st_contexts := []; st_procs := ∅; st_nodes := ∅; st_txns := ∅; st_deaths := ∅;
     st_next_id := 0; st_wakes := []; st_resumes := []; st_notifications := [];
     st_trace := None; st_shadow := None; st_memories := ∅; st_sinks := mkSinks ∅ ∅;
     st_events := []; st_next_condvar := 0; st_ticks := 0 |}.

(** A read that has let go of the lock: the ioctl's arguments, what it has
    written so far, and the two locals of the current wait. *)
Record ReadFrame := mkReadFrame {
  rf_proc : ProcId;
  rf_tid : Tid;
  rf_bwr : WriteRead;
  rf_park : option Resume;
  rf_out : list byte;
  rf_wait_for_proc_work : bool;
  rf_nonblocking : bool;
}.

#[export] Instance ReadFrame_eta : Settable ReadFrame := fun r =>
  mkReadFrame (rf_proc r) (rf_tid r) (rf_bwr r) (rf_park r) (rf_out r)
    (rf_wait_for_proc_work r) (rf_nonblocking r).

(** How one look for work ends. *)
Inductive WaitOutcome :=
| WaitReady
| WaitFailed (e : Errno)
| WaitParked
| WaitYield
| WaitSleep (wait : Condvar).

(** How a part of a read run under the lock ends. *)
Inductive ReadStatus :=
| RsReturn (r : result unit Errno) (f : ReadFrame)
| RsYield (f : ReadFrame)
| RsSleep (f : ReadFrame) (wait : Condvar).

(** How a part of an ioctl run under the lock ends: its result, its argument
    as it now is and the resume it did not take; or the read it is in. *)
Inductive IoctlStatus :=
| IsReturn (r : result unit Errno) (arg : list byte) (park : option Resume)
| IsYield (f : ReadFrame)
| IsSleep (f : ReadFrame) (wait : Condvar).

Section entry_points.
Context `{Env}.

(** Delivers the external wakes queued under the lock. *)
Definition unlock : M State unit :=
  pending ← take_wakes;
  PendingWakes_deliver pending.

(** Looks up a receipt owned by this exact receiving process, thread and
    buffer. *)
Definition delivery_id (s : State) (proc : ProcId) (tid : Tid) (buffer : Z) :
    outcome (result TxnId Errno) :=
  match (p ← st_procs s !! proc; p_alloc p) with
  | None => mret (Err EBADF)
  | Some alloc =>
      match offset_of alloc buffer with
      | None => mret (Err EINVAL)
      | Some offset =>
          b ← unwrap (a_buffers alloc !! offset);
          mret (match b_delivery b with
                | Some (owner, id) => if owner =? tid then Ok id else Err EPERM
                | None => Err EPERM
                end)
      end
  end.

(** The part of [reject_delivery] that takes a live transaction off the
    thread's stack; whether the receipt matches it. *)
Definition unstack_delivery (proc : ProcId) (tid : Tid) (offset : Z) (id : TxnId) : M State bool :=
  s ← get;
  match st_txns s !! id with
  | None => mret true
  | Some t =>
      p ← the_proc proc;
      let stack := th ← p_threads p !! tid; t_transaction_stack th in
      if bool_decide (x_to_proc t = Some proc) && bool_decide (x_to_thread t = Some tid) &&
         bool_decide (x_buffer t = Some offset) && bool_decide (stack = Some id) then
        the_thread proc tid;;
        modify (alter_thread proc tid (set_field t_transaction_stack (fun _ => x_to_parent t)));;
        mret true
      else mret false
  end.

Definition reject_delivery (proc : ProcId) (tid : Tid) (buffer : Z) (id : TxnId) :
    M State (result unit Errno) :=
  s ← get;
  match (p ← st_procs s !! proc; p_alloc p) with
  | None => mret (Err EBADF)
  | Some alloc =>
      match offset_of alloc buffer with
      | None => mret (Err EINVAL)
      | Some offset =>
          b ← call (unwrap (a_buffers alloc !! offset));
          if negb (bool_decide (b_delivery b = Some (tid, id))) || negb (b_allow_user_free b)
          then mret (Err EPERM) else
          ok ← unstack_delivery proc tid offset id;
          if negb ok then mret (Err EPERM) else
          the_buffer proc offset;;
          modify (alter_buffer proc offset (set_field b_txn (fun _ => None)));;
          cleanup_transaction id BR_FAILED_REPLY;;
          _ ← free_buffer proc offset true;
          unlock;;
          mret (Ok tt)
      end
  end.

Definition start_trace : M State unit :=
  now ← instant_now;
  modify (set_field st_trace (fun _ => Some (Trace_new now)));;
  unlock.

Definition capture_trace (descriptor : list Z) (code : Z) : M State unit :=
  modify (set_field st_trace (fmap (Trace_capture descriptor code)));;
  unlock.

Definition take_trace : M State (list TraceRecord) :=
  s ← get;
  records ← match st_trace s with
    | Some t =>
        let '(records, t') := Trace_take t in
        modify (set_field st_trace (fun _ => Some t'));;
        mret records
    | None => mret []
    end;
  unlock;;
  mret records.

(** What one process adds to a pending record: the stacks and queues of the
    two threads of the call. *)
Definition annotate_by (s : State) (pending : PendingTraceRecord) (proc : Proc) :
    outcome PendingTraceRecord :=
  let record := ptr_record pending in
  context ← unwrap (st_contexts s !! p_context proc);
  if negb (bool_decide (c_name context = tr_device record)) then mret pending else
  let stack tid := th ← p_threads proc !! tid; t_transaction_stack th in
  let queued tid :=
    uadd 64 (Z.of_nat (length (p_todo proc)))
      (match p_threads proc !! tid with Some th => Z.of_nat (length (t_todo th)) | None => 0 end) in
  pending ←
    (if cr_pid (p_creds proc) =? tr_from_pid record then
       n ← queued (tr_from_tid record);
       mret (pending <| ptr_from_stack := stack (tr_from_tid record) |> <| ptr_from_queued := n |>)
     else mret pending);
  if cr_pid (p_creds proc) =? tr_to_pid record then
    n ← queued (tr_to_tid record);
    mret (pending <| ptr_to_stack := stack (tr_to_tid record) |> <| ptr_to_queued := n |>)
  else mret pending.

Fixpoint annotate_by_all (s : State) (pending : PendingTraceRecord) (procs : list Proc) :
    outcome PendingTraceRecord :=
  match procs with
  | [] => mret pending
  | p :: procs => pending ← annotate_by s pending p; annotate_by_all s pending procs
  end.

Definition annotate (s : State) (pending : PendingTraceRecord) : outcome PendingTraceRecord :=
  let pending :=
    match (if ptr_returning pending then None else st_txns s !! ptr_id pending) with
    | Some txn =>
        pending <| ptr_record ::= (fun r =>
          r <| tr_from_parent := x_from_parent txn |> <| tr_to_parent := x_to_parent txn |>) |>
    | None => pending
    end in
  annotate_by_all s pending
    (omap (fun id => st_procs s !! id) (hash_order (sorted_keys (st_procs s)))).

Fixpoint annotate_all (s : State) (records : list PendingTraceRecord) :
    outcome (list PendingTraceRecord) :=
  match records with
  | [] => mret []
  | r :: records => r ← annotate s r; rs ← annotate_all s records; mret (r :: rs)
  end.

(** A view of the traced calls that still wait for a reply. *)
Definition pending_trace : M State PendingTraceSnapshot :=
  s ← get;
  snapshot ← match st_trace s with
    | Some trace => now ← instant_now; mret (Trace_snapshot now trace)
    | None => mret (mkPendingTraceSnapshot 0 [])
    end;
  records ← call (annotate_all s (pts_records snapshot));
  unlock;;
  mret (mkPendingTraceSnapshot (pts_at snapshot) records).

(** Copies every transaction to the node a handle refers to into [sink]. *)
Definition shadow (proc : ProcId) (handle : Z) (sink : ShadowSink) : M State (result NodeId Errno) :=
  s ← get;
  let node := r_node <$> get_ref s proc handle false in
  match node with
  | Some node =>
      modify (set_field st_shadow (fun sh => Some (Shadow_watch node sink (default Shadow_default sh))))
  | None => mret tt
  end;;
  unlock;;
  mret (match node with Some node => Ok node | None => Err EINVAL end).

(** [binder_open]. *)
Definition open (device : Device) (creds : Credentials) : M State ProcId :=
  context ← context_index (Device_path device);
  id ← new_proc context creds;
  unlock;;
  mret id.

Definition set_nonblocking (proc : ProcId) (nonblocking : bool) : M State unit :=
  modify (alter_proc proc (set_field p_nonblocking (fun _ => nonblocking)));;
  unlock.

Definition set_notifier (proc : ProcId) (notifier : Notifier) : M State unit :=
  modify (alter_proc proc (set_field p_notifier (fun _ => Some notifier)));;
  unlock.

(** [binder_mmap]: installs the receive buffer. *)
Definition mmap (proc : ProcId) (vm_start len : Z) (writable : bool) (memory : Z) :
    M State (result unit Errno) :=
  if writable then mret (Err EPERM) else
  s ← get;
  match st_procs s !! proc with
  | None => mret (Err EBADF)
  | Some p =>
      match p_alloc p with
      | Some _ => mret (Err EBUSY)
      | None =>
          modify (alter_proc proc (fun p =>
            p <| p_alloc := Some (Allocator_new vm_start len) |> <| p_receive := Some memory |>));;
          unlock;;
          mret (Ok tt)
      end
  end.

(** [binder_poll]: marks a poll-mode thread and reports whether a read would
    find work. *)
Definition poll (proc : ProcId) (tid : Tid) : M State (result bool Errno) :=
  _ ←? thread_or_create proc tid;
  the_thread proc tid;;
  modify (alter_thread proc tid (set_field t_looper (fun l => Z.lor l LOOPER_POLL)));;
  s ← get;
  let ready := has_work s proc tid (available_for_proc_work s proc tid) in
  unlock;;
  mret (Ok ready).

(** [binder_flush]: asks every thread to return from its read. *)
Definition flush (proc : ProcId) : M State (result unit Errno) :=
  s ← get;
  match st_procs s !! proc with
  | None => mret (Err EBADF)
  | Some p =>
      for_each (fun tid =>
        the_thread proc tid;;
        modify (alter_thread proc tid (set_field t_looper_need_return (fun _ => true)));;
        wake_waiter proc tid) (hash_order (sorted_keys (p_threads p)));;
      unlock;;
      mret (Ok tt)
  end.

(** Interrupts a thread blocked in a read. *)
Definition interrupt (proc : ProcId) (tid : Tid) : M State unit :=
  s ← get;
  (if thread_exists s proc tid then
     modify (alter_thread proc tid (set_field t_interrupted (fun _ => true)));;
     wake_waiter proc tid
   else mret tt);;
  unlock.

(** [binder_release]: the last reference to the file description is gone. *)
Definition release (proc : ProcId) : M State unit :=
  s ← get;
  let tids := match st_procs s !! proc with
              | Some p => hash_order (sorted_keys (p_threads p))
              | None => []
              end in
  for_each (wake_waiter proc) tids;;
  release_proc proc;;
  unlock.

(** ** The ioctls that do not block *)

(** [binder_ioctl_set_ctx_mgr]. *)
Definition set_context_manager (proc : ProcId) (fbo : option FlatBinderObject) :
    M State (result unit Errno) :=
  p ← the_proc proc;
  let context := p_context p in
  c ← the_context context;
  if bool_decide (is_Some (c_mgr_node c)) then mret (Err EBUSY) else
  let euid := cr_euid (p_creds p) in
  if bool_decide (is_Some (c_mgr_uid c)) && negb (bool_decide (c_mgr_uid c = Some euid))
  then mret (Err EPERM) else
  modify (alter_context context (set_field c_mgr_uid (fun _ => Some euid)));;
  let fbo := default FlatBinderObject_default fbo in
  node ← new_node proc (fb_binder fbo) (fb_cookie fbo) (fb_flags fbo);
  n ← the_node node;
  weak ← call (uadd 32 (n_local_weak_refs n) 1);
  strong ← call (uadd 32 (n_local_strong_refs n) 1);
  modify (alter_node node (fun n =>
    n <| n_local_weak_refs := weak |> <| n_local_strong_refs := strong |>
      <| n_has_strong_ref := true |> <| n_has_weak_ref := true |>));;
  modify (alter_context context (set_field c_mgr_node (fun _ => Some node)));;
  mret (Ok tt).

(** [binder_ioctl_get_node_info_for_ref]: context manager only.  Returns the
    argument as it now is. *)
Definition node_info_for_ref (proc : ProcId) (arg : list byte) :
    M State (list byte * result unit Errno) :=
  handle ← call (u32_at arg 0);
  if negb (bool_decide (Forall (fun b => b = x00) (drop 4 arg))) then mret (arg, Err EINVAL) else
  p ← the_proc proc;
  c ← the_context (p_context p);
  is_mgr ← match c_mgr_node c with
    | Some n => n ← the_node n; mret (bool_decide (n_proc n = Some proc))
    | None => mret false
    end;
  if negb is_mgr then mret (arg, Err EPERM) else
  s ← get;
  match get_ref s proc handle true with
  | None => mret (arg, Err EINVAL)
  | Some r =>
      n ← the_node (r_node r);
      strong ← call (uadd 32 (n_local_strong_refs n) (n_internal_strong_refs n));
      arg ← call (put_u32 arg 4 strong);
      arg ← call (put_u32 arg 8 (n_local_weak_refs n));
      mret (arg, Ok tt)
  end.

(** [binder_ioctl_get_node_debug_info]: the first node above [ptr]. *)
Definition node_debug_info (proc : ProcId) (arg : list byte) : M State (list byte) :=
  ptr ← call (u64_at arg 0);
  let arg := replicate (length arg) x00 in
  p ← the_proc proc;
  match (first ← head (filter (fun q => ptr < q) (sorted_keys (p_nodes p))); p_nodes p !! first) with
  | None => mret arg
  | Some id =>
      n ← the_node id;
      arg ← call (put_u64 arg 0 (n_ptr n));
      arg ← call (put_u64 arg 8 (n_cookie n));
      arg ← call (put_u32 arg 16 (Z.b2z (n_has_strong_ref n)));
      arg ← call (put_u32 arg 20 (Z.b2z (n_has_weak_ref n)));
      mret arg
  end.

Definition get_extended_error (proc : ProcId) (tid : Tid) (arg : list byte) : M State (list byte) :=
  t ← the_thread proc tid;
  let ee := t_ee t in
  modify (alter_thread proc tid (set_field t_ee (fun _ => mkExtendedError 0 BR_OK 0)));;
  arg ← call (put_u32 arg 0 (ee_id ee));
  arg ← call (put_u32 arg 4 (ee_command ee));
  call (put_i32 arg 8 (ee_param ee)).

Definition dispatch (proc : ProcId) (tid : Tid) (cmd : Z) (arg : list byte) :
    M State (list byte * result unit Errno) :=
  if cmd =? BINDER_SET_MAX_THREADS then
    the_proc proc;;
    n ← call (u32_at arg 0);
    modify (alter_proc proc (set_field p_max_threads (fun _ => n)));;
    mret (arg, Ok tt)
  else if cmd =? BINDER_SET_CONTEXT_MGR then
    r ← set_context_manager proc None; mret (arg, r)
  else if cmd =? BINDER_SET_CONTEXT_MGR_EXT then
    fbo ← call (FlatBinderObject_decode arg);
    r ← set_context_manager proc (Some fbo);
    mret (arg, r)
  else if cmd =? BINDER_THREAD_EXIT then
    _ ← thread_release proc tid; mret (arg, Ok tt)
  else if cmd =? BINDER_VERSION then
    arg ← call (put_i32 arg 0 CURRENT_PROTOCOL_VERSION); mret (arg, Ok tt)
  else if cmd =? BINDER_GET_NODE_INFO_FOR_REF then node_info_for_ref proc arg
  else if cmd =? BINDER_GET_NODE_DEBUG_INFO then
    arg ← node_debug_info proc arg; mret (arg, Ok tt)
  else if cmd =? BINDER_ENABLE_ONEWAY_SPAM_DETECTION then
    the_proc proc;;
    n ← call (u32_at arg 0);
    modify (alter_proc proc (set_field p_oneway_spam_detection (fun _ => negb (n =? 0))));;
    mret (arg, Ok tt)
  else if cmd =? BINDER_GET_EXTENDED_ERROR then
    arg ← get_extended_error proc tid arg; mret (arg, Ok tt)
  else mret (arg, Err EINVAL).

(** ** Waiting for work *)

(** The start of a turn of the read loop: the locals of the wait, and the
    thread marked as waiting; [None] when it is gone. *)
Definition begin_wait (f : ReadFrame) : M State (option ReadFrame) :=
  s ← get;
  let f := f <| rf_wait_for_proc_work := available_for_proc_work s (rf_proc f) (rf_tid f) |>
             <| rf_nonblocking := match st_procs s !! rf_proc f with
                                  | Some p => p_nonblocking p
                                  | None => false
                                  end |> in
  if thread_exists s (rf_proc f) (rf_tid f) then
    modify (alter_thread (rf_proc f) (rf_tid f)
      (set_field t_looper (fun l => Z.lor l LOOPER_WAITING)));;
    mret (Some f)
  else mret None.

Definition clear_waiting (proc : ProcId) (tid : Tid) : M State unit :=
  modify (alter_thread proc tid (set_field t_looper (fun l => Z.ldiff l LOOPER_WAITING))).

(** One look for work of [binder_wait_for_work].  Before it sleeps it delivers
    the wakes this ioctl caused and looks again. *)
Definition wait_for_work (f : ReadFrame) : M State WaitOutcome :=
  let proc := rf_proc f in
  let tid := rf_tid f in
  s ← get;
  if has_work s proc tid (rf_wait_for_proc_work f) then mret WaitReady else
  match thread_of s proc tid with
  | None => mret WaitReady
  | Some t =>
      if rf_nonblocking f then clear_waiting proc tid;; mret (WaitFailed EAGAIN)
      else if t_interrupted t then
        modify (alter_thread proc tid (set_field t_interrupted (fun _ => false)));;
        clear_waiting proc tid;;
        mret (WaitFailed EINTR)
      else
      pending ← take_wakes;
      if negb (PendingWakes_is_empty pending) then
        PendingWakes_deliver pending;;
        mret WaitYield
      else
      (if rf_wait_for_proc_work f then
         the_proc proc;;
         modify (alter_proc proc (set_field p_waiting_threads (fun l => l ++ [tid])))
       else mret tt);;
      match rf_park f with
      | Some resume =>
          the_thread proc tid;;
          clear_waiting proc tid;;
          modify (alter_thread proc tid (set_field t_parked (fun _ => Some resume)));;
          mret WaitParked
      | None => mret (WaitSleep (t_wait t))
      end
  end.

(** [wait.wait(st)] has returned. *)
Definition wake_up (f : ReadFrame) : M State unit :=
  modify (alter_proc (rf_proc f) (set_field p_waiting_threads (filter (fun t => t <> rf_tid f)))).

Section guest.
Context {G : Type} `{GuestProcess G}.

(** The end of [binder_thread_read]: the returns go to the reader. *)
Definition finish_read (f : ReadFrame) : M (World G) ReadStatus :=
  let bwr := rf_bwr f in
  let start := wr_read_consumed bwr in
  spawn ← st (should_spawn_looper (rf_proc f) (rf_tid f));
  address ← call (uadd 64 (wr_read_buffer bwr) start);
  r ← guest_copy_to_user address (rf_out f);
  r ← (match r with
       | Ok _ =>
           if spawn : bool then guest_copy_to_user (wr_read_buffer bwr) (le_bytes 4 BR_SPAWN_LOOPER)
           else mret r
       | Err _ => mret r
       end);
  consumed ← call (uadd 64 start (Z.of_nat (length (rf_out f))));
  mret (RsReturn r (f <| rf_bwr := bwr <| wr_read_consumed := consumed |> |>)).

(** The read loop from a look for work on, as long as the lock is held.  The
    fuel bounds the passes that had nothing to return. *)
Fixpoint read_loop (fuel : nat) (f : ReadFrame) : M (World G) ReadStatus :=
  match fuel with
  | O => spin
  | S fuel =>
      o ← st (wait_for_work f);
      match o with
      | WaitFailed e => mret (RsReturn (Err e) f)
      | WaitParked => mret (RsReturn (Ok tt) (f <| rf_park := None |>))
      | WaitYield => mret (RsYield f)
      | WaitSleep wait => mret (RsSleep f wait)
      | WaitReady =>
          w ← get;
          if negb (thread_exists (w_st w) (rf_proc f) (rf_tid f)) then mret (RsReturn (Err EBADF) f) else
          st (clear_waiting (rf_proc f) (rf_tid f));;
          '(pass, out) ← read_pass (rf_proc f) (rf_tid f) (rf_wait_for_proc_work f) (rf_out f)
                           (wr_read_consumed (rf_bwr f)) (wr_read_size (rf_bwr f));
          let f := f <| rf_out := out |> in
          match pass with
          | PassDone => finish_read f
          | PassRetry =>
              next ← st (begin_wait f);
              match next with
              | Some f => read_loop fuel f
              | None => mret (RsReturn (Err EBADF) f)
              end
          end
      end
  end.

Definition read_turns (f : ReadFrame) : M (World G) ReadStatus :=
  w ← get;
  read_loop (S (read_fuel (w_st w) (rf_proc f) (rf_tid f))) f.

(** [binder_thread_read]. *)
Definition thread_read (proc : ProcId) (tid : Tid) (bwr : WriteRead) (park : option Resume) :
    M (World G) ReadStatus :=
  let start := wr_read_consumed bwr in
  let out := if start =? 0 then le_bytes 4 BR_NOOP else [] in
  let f := mkReadFrame proc tid bwr park out false false in
  if wr_read_size bwr <? start then mret (RsReturn (Err EFAULT) f) else
  next ← st (begin_wait f);
  match next with
  | Some f => read_turns f
  | None => mret (RsReturn (Err EBADF) f)
  end.

(** The end of every ioctl. *)
Definition finish_ioctl (proc : ProcId) (tid : Tid) (r : result unit Errno) (arg : list byte)
    (park : option Resume) : M (World G) IoctlStatus :=
  st (modify (alter_thread proc tid (set_field t_looper_need_return (fun _ => false))));;
  st unlock;;
  mret (IsReturn r arg park).

(** The end of [binder_ioctl_write_read], once its read has ended. *)
Definition after_read (status : ReadStatus) : M (World G) IoctlStatus :=
  match status with
  | RsYield f => mret (IsYield f)
  | RsSleep f wait => mret (IsSleep f wait)
  | RsReturn r f =>
      w ← get;
      match st_procs (w_st w) !! rf_proc f with
      | Some p =>
          if negb (bool_decide (p_todo p = [])) then st (wakeup_proc (rf_proc f)) else mret tt
      | None => mret tt
      end;;
      arg ← call (WriteRead_encode (rf_bwr f));
      finish_ioctl (rf_proc f) (rf_tid f) r arg (rf_park f)
  end.

(** The write half of [binder_ioctl_write_read]. *)
Definition write_part (proc : ProcId) (tid : Tid) (bwr : WriteRead) :
    M (World G) (WriteRead * result unit Errno) :=
  if negb (0 <? wr_write_size bwr) then mret (bwr, Ok tt) else
  let consumed := wr_write_consumed bwr in
  let size := wr_write_size bwr in
  if size <? consumed then mret (bwr, Err EFAULT) else
  (** [vec![0u8; size - consumed]] *)
  call (vec_zeroed (size - consumed));;
  address ← call (uadd 64 (wr_write_buffer bwr) consumed);
  r ← guest_copy_from_user address (size - consumed);
  match r with
  | Err e => mret (bwr, Err e)
  | Ok write =>
      '(done, r) ← thread_write proc tid write 0;
      total ← call (uadd 64 consumed done);
      mret (bwr <| wr_write_consumed := total |>, r)
  end.

(** [binder_ioctl_write_read]. *)
Definition write_read (proc : ProcId) (tid : Tid) (arg : list byte) (park : option Resume) :
    M (World G) IoctlStatus :=
  bwr ← call (WriteRead_decode arg);
  '(bwr, r) ← write_part proc tid bwr;
  match r with
  | Err e =>
      arg ← call (WriteRead_encode (bwr <| wr_read_consumed := 0 |>));
      finish_ioctl proc tid (Err e) arg park
  | Ok _ =>
      if 0 <? wr_read_size bwr then
        status ← thread_read proc tid bwr park;
        after_read status
      else
        arg ← call (WriteRead_encode bwr);
        finish_ioctl proc tid (Ok tt) arg park
  end.

(** The start of an ioctl. *)
Definition ioctl_parking (proc : ProcId) (tid : Tid) (cmd : Z) (arg : list byte)
    (park : option Resume) : M (World G) IoctlStatus :=
  if negb (Z.of_nat (length arg) =? ioc_size cmd) then mret (IsReturn (Err EINVAL) arg park) else
  r ← st (thread_or_create proc tid);
  match r with
  | Err e => st unlock;; mret (IsReturn (Err e) arg park)
  | Ok _ =>
      if cmd =? BINDER_WRITE_READ then write_read proc tid arg park
      else
        '(arg, r) ← st (dispatch proc tid cmd arg);
        finish_ioctl proc tid r arg park
  end.

(** An ioctl that gave up the lock goes on: after it delivered wakes, and
    after its wait returned. *)
Definition resume_yield (f : ReadFrame) : M (World G) IoctlStatus :=
  status ← read_turns f; after_read status.
Definition resume_sleep (f : ReadFrame) : M (World G) IoctlStatus :=
  st (wake_up f);;
  status ← read_turns f; after_read status.

Definition ioctl (proc : ProcId) (tid : Tid) (cmd : Z) (arg : list byte) : M (World G) IoctlStatus :=
  ioctl_parking proc tid cmd arg None.

(** [ioctl_or_park]: [None] when the read was parked. *)
Definition parked_result (status : IoctlStatus) : option (option (result unit Errno)) :=
  match status with
  | IsReturn r _ (Some _) => Some (Some r)
  | IsReturn _ _ None => Some None
  | _ => None
  end.

Definition ioctl_or_park (proc : ProcId) (tid : Tid) (cmd : Z) (arg : list byte) (resume : Resume) :
    M (World G) IoctlStatus :=
  ioctl_parking proc tid cmd arg (Some resume).

(** [ioctl(fd, cmd, arg)] with [arg] a guest address: its start, and its end
    once the ioctl has returned. *)
Definition ioctl_user_start (proc : ProcId) (tid : Tid) (cmd arg : Z) :
    M (World G) (result IoctlStatus Errno) :=
  let len := ioc_size cmd in
  let reads_arg := negb (Z.land (Z.shiftr cmd 30) 1 =? 0) in
  bytes ←? (if reads_arg && negb (len =? 0) then guest_copy_from_user arg len
            else mret (Ok (replicate (Z.to_nat len) x00)));
  status ← ioctl proc tid cmd bytes;
  mret (Ok status).

Definition ioctl_user_end (cmd arg : Z) (r : result unit Errno) (bytes : list byte) :
    M (World G) (result unit Errno) :=
  let writes_arg := negb (Z.shiftr cmd 31 =? 0) in
  _ ←? (if writes_arg && negb (bool_decide (bytes = [])) &&
           (match r with Ok _ => true | Err _ => false end || (cmd =? BINDER_WRITE_READ))
        then guest_copy_to_user arg bytes else mret (Ok tt));
  mret r.

(** What [forward_inbound_transaction] checks of the caller: the credentials
    of the live transaction it serves. *)
Definition inbound_sender (s : State) (proc : ProcId) (tid : Tid) (inbound_buffer : Z) :
    result Credentials Errno :=
  match st_procs s !! proc with
  | None => Err ESRCH
  | Some native =>
      if negb (cr_euid (p_creds native) =? 1000) then Err EPERM else
      match (thread ← p_threads native !! tid; id ← t_transaction_stack thread;
             st_txns s !! id) with
      | None => Err EPERM
      | Some inbound =>
          if negb (bool_decide (x_to_proc inbound = Some proc)) ||
             negb (bool_decide (x_to_thread inbound = Some tid)) || is_oneway inbound
          then Err EPERM else
          match (offset ← x_buffer inbound; alloc ← p_alloc native;
                 checked_add 64 (a_vm_start alloc) offset) with
          | Some address =>
              if address =? inbound_buffer then Ok (x_sender_credentials inbound) else Err EPERM
          | None => Err EPERM
          end
      end
  end.

Definition forward_inbound_transaction (proc : ProcId) (tid : Tid) (inbound_buffer : Z)
    (tr : TransactionData) : M (World G) (result unit Errno) :=
  if has_flag (td_flags tr) TF_ONE_WAY then mret (Err EINVAL) else
  w ← get;
  match inbound_sender (w_st w) proc tid inbound_buffer with
  | Err e => st unlock;; mret (Err e)
  | Ok sender =>
      st (the_thread proc tid);;
      st (modify (alter_thread proc tid (set_field t_forwarded_sender (fun _ => Some sender))));;
      transaction proc tid tr false 0;;
      st (the_thread proc tid);;
      st (modify (alter_thread proc tid (set_field t_forwarded_sender (fun _ => None))));;
      st unlock;;
      mret (Ok tt)
  end.

End guest.
End entry_points.

(** ** What the entry points check *)

Section checks.
Context `{Env}.


Lemma unstack_delivery_receipt p t o id s ok s' :
  unstack_delivery p t o id s = Done (ok, s') ->
  if ok then forall x, st_txns s !! id = Some x ->
    x_to_proc x = Some p /\ x_to_thread x = Some t /\ x_buffer x = Some o /\
    (P ← st_procs s !! p; T ← p_threads P !! t; t_transaction_stack T) = Some id
  else s' = s.
Proof.
  unfold unstack_delivery, the_proc, mbind, M_bind, get, mret, M_ret, call. intros Hr.
  destruct (st_txns s !! id) as [x|]; [|by injection Hr as <- <-].
  destruct (st_procs s !! p) as [P|]; simpl in Hr; [|done].
  repeat (case_bool_decide; simpl in Hr; [|by injection Hr as <- <-]).
  destruct (the_thread p t s) as [[T s1]| |]; [|done..].
  injection Hr as <- <-. intros ? [= <-]. split_and!; auto.
Qed.

(** only the thread a transaction was delivered to can reject it: a
    rejection that succeeds names a buffer of the process that is still
    user-freeable and whose receipt is this thread's and this transaction's,
    and a transaction still alive is on top of the thread's stack; one that is
    refused changes nothing. *)
Theorem rejection_needs_receipt p t buffer id s r s' :
  reject_delivery p t buffer id s = Done (r, s') ->
  match r with
  | Ok _ => exists P al o b, st_procs s !! p = Some P /\ p_alloc P = Some al /\ offset_of al buffer = Some o /\
      a_buffers al !! o = Some b /\ b_delivery b = Some (t, id) /\ b_allow_user_free b = true /\
      forall x, st_txns s !! id = Some x ->
        x_to_proc x = Some p /\ x_to_thread x = Some t /\ x_buffer x = Some o /\
        (P ← st_procs s !! p; T ← p_threads P !! t; t_transaction_stack T) = Some id
  | Err _ => s' = s
  end.
Proof.
  unfold reject_delivery, mbind, M_bind, get, call. intros Hr.
  destruct (st_procs s !! p) as [P|] eqn:HP; simpl in Hr; [|by injection Hr as <- <-].
  destruct (p_alloc P) as [al|] eqn:Hal; [|by injection Hr as <- <-].
  destruct (offset_of al buffer) as [o|] eqn:Ho; [|by injection Hr as <- <-].
  destruct (a_buffers al !! o) as [b|] eqn:Hb; simpl in Hr; [|done].
  case_bool_decide as Hd; simpl in Hr; [|by injection Hr as <- <-].
  destruct (b_allow_user_free b) eqn:Hf; simpl in Hr; [|by injection Hr as <- <-].
  destruct (unstack_delivery p t o id s) as [[ok s1]| |] eqn:Hu; [|done..].
  apply unstack_delivery_receipt in Hu. rewrite HP in Hu.
  destruct ok; simpl in Hr; [|by injection Hr as <- <-].
  repeat match type of Hr with
  | context [match ?m with Done _ => _ | Panicked => _ | Spinning => _ end] =>
      destruct m as [[??]| |]; [|done..]
  end.
  injection Hr as <- <-. exists P, al, o, b. split_and!; auto.
Qed.

Lemma new_node_entry p ptr cookie flags s id s' :
  new_node p ptr cookie flags s = Done (id, s') ->
  st_contexts s' = st_contexts s /\ (P ← st_procs s' !! p; p_nodes P !! ptr) = Some id.
Proof.
  unfold new_node, next_id, the_proc, mbind, M_bind, get, put, modify, call, mret, M_ret. intros Hr.
  destruct (st_procs s !! p) as [P|] eqn:HP; simpl in Hr; [|done].
  destruct (p_nodes P !! ptr) as [i|] eqn:Hi.
  - injection Hr as <- <-. by rewrite HP.
  - destruct (uadd 64 (st_next_id s) 1); [|done..]. simpl in Hr. rewrite HP in Hr. simpl in Hr.
    injection Hr as <- <-. split; [done|]. simpl. rewrite lookup_alter_eq, HP. simpl.
    by rewrite lookup_insert_eq.
Qed.

(** A context has at most one manager and it is a process of the uid that
    first managed it: becoming the manager succeeds only where the context has
    none and its recorded uid, if any, is the caller's, and then the context's
    manager is the caller's node for the given pointer, marked as strongly and
    weakly referenced; a refusal changes nothing. *)
Theorem context_manager_exclusive p fbo s r s' P c :
  st_procs s !! p = Some P -> st_contexts s !! p_context P = Some c ->
  set_context_manager p fbo s = Done (r, s') ->
  match r with
  | Ok _ => c_mgr_node c = None /\ (c_mgr_uid c = None \/ c_mgr_uid c = Some (cr_euid (p_creds P))) /\
      exists node n, st_contexts s' !! p_context P = Some (c <| c_mgr_uid := Some (cr_euid (p_creds P)) |>
          <| c_mgr_node := Some node |>) /\
        (P ← st_procs s' !! p; p_nodes P !! fb_binder (default FlatBinderObject_default fbo)) = Some node /\
        st_nodes s' !! node = Some n /\ n_has_strong_ref n = true /\ n_has_weak_ref n = true
  | Err e => s' = s /\ (e = EBUSY <-> is_Some (c_mgr_node c))
  end.
Proof.
  unfold set_context_manager, the_proc, the_context, the_node, mbind, M_bind, get, modify, call, mret, M_ret.
  intros HP Hc Hr. rewrite HP in Hr. simpl in Hr. rewrite Hc in Hr. simpl in Hr.
  case_bool_decide as Hm; [by injection Hr as <- <-|].
  destruct (bool_decide (is_Some (c_mgr_uid c)) && _) eqn:Hu; [by injection Hr as <- <-|].
  destruct (new_node _ _ _ _ _) as [[node s1]| |] eqn:Hn; [|done..].
  apply new_node_entry in Hn as [Hs1 Hptr]. simpl in Hr.
  destruct (st_nodes s1 !! node) as [n|] eqn:Hnode; simpl in Hr; [|done].
  destruct (uadd 32 (n_local_weak_refs n) 1) as [weak| |]; [|done..]. simpl in Hr.
  destruct (uadd 32 (n_local_strong_refs n) 1) as [strong| |]; [|done..].
  injection Hr as <- <-. split; [by apply eq_None_not_Some|]. split.
  { apply andb_false_iff in Hu as [Hu|Hu]; [left|right].
    - apply eq_None_not_Some. by apply bool_decide_eq_false in Hu.
    - apply negb_false_iff in Hu. by apply bool_decide_eq_true in Hu. }
  eexists node, _. split_and!.
  - simpl. rewrite Hs1. simpl. rewrite !list_lookup_alter_eq, Hc. done.
  - exact Hptr.
  - simpl. rewrite lookup_alter_eq, Hnode. reflexivity.
  - done.
  - done.
Qed.

End checks.
