(* ===== verification/Graph.v ===== *)
(** The abstract specification of the reference rules: a graph of processes,
    nodes and handles, the steps a process may take on it, and what every step
    keeps.  The detailed state of [State.v] maps to it in [Refinement.v]. *)

From S2P Require Import Prelude Host.
From Stdlib Require Import ZArith Lia.
From stdpp Require Import base numbers list gmap sorting relations.

Open Scope Z_scope.

(** ** The graph *)

(** A handle: the node it refers to and its two counts. *)
Record GRef := mkGRef {
  gr_node : NodeId;
  gr_strong : Z;
  gr_weak : Z;
}.

(** A process: its own objects by pointer, its handles by descriptor, and the
    descriptor of each node it has a handle for. *)
Record GProc := mkGProc {
  gp_context : nat;
  gp_nodes : gmap Z NodeId;
  gp_desc : gmap Z GRef;
  gp_node : gmap NodeId Z;
}.

#[export] Instance GProc_eta : Settable GProc := fun r =>
  mkGProc (gp_context r) (gp_nodes r) (gp_desc r) (gp_node r).

(** A node: its owner until it dies, the owner's pointer, how many processes
    hold it strongly, and which hold it at all. *)
Record GNode := mkGNode {
  gn_owner : option ProcId;
  gn_ptr : Z;
  gn_strong : Z;
  gn_holders : gset ProcId;
}.

#[export] Instance GNode_eta : Settable GNode := fun r =>
  mkGNode (gn_owner r) (gn_ptr r) (gn_strong r) (gn_holders r).

(** [g_managers] are the context managers, by context; no identifier from
    [g_fresh] on has been used. *)
Record Graph := mkGraph {
  g_procs : gmap ProcId GProc;
  g_nodes : gmap NodeId GNode;
  g_managers : list (option NodeId);
  g_fresh : Z;
}.

#[export] Instance Graph_eta : Settable Graph := fun r =>
  mkGraph (g_procs r) (g_nodes r) (g_managers r) (g_fresh r).

(** The handle of a process for a node: its descriptor and counts. *)
Definition proc_handle (gp : GProc) (n : NodeId) : option (Z * Z * Z) :=
  d ← gp_node gp !! n; r ← gp_desc gp !! d; Some (d, gr_strong r, gr_weak r).

Definition handle (g : Graph) (p : ProcId) (n : NodeId) : option (Z * Z * Z) :=
  gp ← g_procs g !! p; proc_handle gp n.

(** 1 when the process holds the node strongly, else 0. *)
Definition strong_bit (n : NodeId) (gp : GProc) : Z :=
  match proc_handle gp n with
  | Some (_, strong, _) => if 0 <? strong then 1 else 0
  | None => 0
  end.

Definition strong_count (n : NodeId) (procs : gmap ProcId GProc) : Z :=
  map_fold (fun _ gp total => strong_bit n gp + total) 0 procs.

(** ** Steps *)

(** Sets the handle of [p] for [n] to descriptor [d] and these counts, or
    removes it. *)
Definition put_proc (n : NodeId) (d : Z) (counts : option (Z * Z)) (gp : GProc) : GProc :=
  match counts with
  | Some (strong, weak) =>
      gp <| gp_desc ::= insert d (mkGRef n strong weak) |> <| gp_node ::= insert n d |>
  | None => gp <| gp_desc ::= delete d |> <| gp_node ::= delete n |>
  end.

Definition counts_bit (counts : option (Z * Z)) : Z :=
  match counts with
  | Some (strong, _) => if 0 <? strong then 1 else 0
  | None => 0
  end.

Definition put_node (p : ProcId) (delta : Z) (counts : option (Z * Z)) (gn : GNode) : GNode :=
  gn <| gn_strong ::= Z.add delta |>
     <| gn_holders ::= (fun hs => match counts with
                                  | Some _ => {[p]} ∪ hs
                                  | None => hs ∖ {[p]}
                                  end) |>.

Definition old_bit (g : Graph) (p : ProcId) (n : NodeId) : Z :=
  match g_procs g !! p with Some gp => strong_bit n gp | None => 0 end.

Definition put_handle (p : ProcId) (n : NodeId) (d : Z) (counts : option (Z * Z)) (g : Graph) : Graph :=
  g <| g_procs ::= alter (put_proc n d counts) p |>
    <| g_nodes ::= alter (put_node p (counts_bit counts - old_bit g p n) counts) n |>.

(** Removes a node, and the owner's entry for it. *)
Definition collect (n : NodeId) (g : Graph) : Graph :=
  match g_nodes g !! n with
  | None => g
  | Some gn =>
      let g := g <| g_nodes ::= delete n |> in
      match gn_owner gn with
      | Some q => g <| g_procs ::= alter (set_field gp_nodes (delete (gn_ptr gn))) q |>
      | None => g
      end
  end.

(** The node outlives its owner: it leaves the owner's table. *)
Definition orphan (n : NodeId) (g : Graph) : Graph :=
  match g_nodes g !! n with
  | Some gn =>
      match gn_owner gn with
      | Some q =>
          g <| g_nodes ::= insert n (gn <| gn_owner := None |>) |>
            <| g_procs ::= alter (set_field gp_nodes (delete (gn_ptr gn))) q |>
      | None => g
      end
  | None => g
  end.

Definition create (p : ProcId) (ptr : Z) (n : NodeId) (g : Graph) : Graph :=
  g <| g_nodes ::= insert n (mkGNode (Some p) ptr 0 ∅) |>
    <| g_procs ::= alter (set_field gp_nodes (insert ptr n)) p |>
    <| g_fresh := n + 1 |>.

Definition open_proc (p : ProcId) (c : nat) (g : Graph) : Graph :=
  g <| g_procs ::= insert p (mkGProc c ∅ ∅ ∅) |> <| g_fresh := p + 1 |>.

Definition bump (strong : bool) (counts : Z * Z) : Z * Z :=
  if strong then (counts.1 + 1, counts.2) else (counts.1, counts.2 + 1).

(** The lowest descriptor from [first] on that is not in use. *)
Definition lowest (first d : Z) (gp : GProc) : Prop :=
  first <= d /\ gp_desc gp !! d = None /\
  forall d', first <= d' < d -> is_Some (gp_desc gp !! d').

(** What entitles [a] to hand out a reference to [n] to [p]: [a] owns the
    node, holds it (strongly, for a strong reference), or takes the manager of
    its own context. *)
Definition entitled (g : Graph) (a p : ProcId) (n : NodeId) (strong : bool) : Prop :=
  (exists gn, g_nodes g !! n = Some gn /\ gn_owner gn = Some a) \/
  (exists d s w, handle g a n = Some (d, s, w) /\ (strong = true -> 0 < s)) \/
  (p = a /\ exists gp, g_procs g !! a = Some gp /\ g_managers g !! gp_context gp = Some (Some n)).

(** The steps that process [a] may cause. *)
Inductive gstep (a : ProcId) (g : Graph) : Graph -> Prop :=
| gs_open p c :
    g_fresh g <= p ->
    gstep a g (open_proc p c g)
| gs_tick k :
    g_fresh g <= k ->
    gstep a g (g <| g_fresh := k |>)
| gs_context :
    gstep a g (g <| g_managers ::= (fun l => l ++ [None]) |>)
| gs_close p gp :
    g_procs g !! p = Some gp -> gp_nodes gp = ∅ -> gp_desc gp = ∅ ->
    gstep a g (g <| g_procs ::= delete p |>)
| gs_create gp ptr n :
    g_procs g !! a = Some gp -> gp_nodes gp !! ptr = None -> g_fresh g <= n ->
    gstep a g (create a ptr n g)
| gs_grant_new p gp n d strong first :
    entitled g a p n strong -> is_Some (g_nodes g !! n) ->
    g_procs g !! p = Some gp -> gp_node gp !! n = None ->
    first = 0 \/ first = 1 -> lowest first d gp ->
    gstep a g (put_handle p n d (Some (bump strong (0, 0))) g)
| gs_grant p n d s w strong :
    entitled g a p n strong -> handle g p n = Some (d, s, w) ->
    gstep a g (put_handle p n d (Some (bump strong (s, w))) g)
| gs_drop p n d s w s' w' :
    handle g p n = Some (d, s, w) -> 0 <= s' <= s -> 0 <= w' <= w -> 0 < s' + w' ->
    gstep a g (put_handle p n d (Some (s', w')) g)
| gs_forget p n d s w :
    handle g p n = Some (d, s, w) ->
    gstep a g (put_handle p n d None g)
| gs_collect n gn :
    g_nodes g !! n = Some gn -> gn_holders gn = ∅ ->
    gstep a g (collect n g)
| gs_orphan n gn :
    g_nodes g !! n = Some gn -> gn_owner gn = Some a ->
    gstep a g (orphan n g)
| gs_manager c m :
    (forall n, m = Some n -> exists gn, g_nodes g !! n = Some gn /\ gn_owner gn = Some a) ->
    gstep a g (g <| g_managers ::= alter (fun _ => m) c |>).

Abbreviation gsteps a := (rtc (gstep a)).

(** ** Well-formed graphs *)

(** Handles: the two tables of a process are inverse to each other, a node
    knows exactly the processes that have a handle for it and how many of them
    hold it strongly, and no handle has run out of counts. *)
Record handles_wf (g : Graph) : Prop := {
  gw_desc p gp d r :
    g_procs g !! p = Some gp -> gp_desc gp !! d = Some r -> gp_node gp !! gr_node r = Some d;
  gw_node p gp n d :
    g_procs g !! p = Some gp -> gp_node gp !! n = Some d ->
    exists r, gp_desc gp !! d = Some r /\ gr_node r = n;
  gw_holder p gp n d :
    g_procs g !! p = Some gp -> gp_node gp !! n = Some d ->
    exists gn, g_nodes g !! n = Some gn /\ p ∈ gn_holders gn;
  gw_held n gn p :
    g_nodes g !! n = Some gn -> p ∈ gn_holders gn ->
    exists gp d, g_procs g !! p = Some gp /\ gp_node gp !! n = Some d;
  gw_strong n gn :
    g_nodes g !! n = Some gn -> gn_strong gn = strong_count n (g_procs g);
  gw_counts p gp d r :
    g_procs g !! p = Some gp -> gp_desc gp !! d = Some r ->
    0 <= gr_strong r /\ 0 <= gr_weak r /\ 0 < gr_strong r + gr_weak r;
}.

(** Owners: a live node is in its owner's table, and the table holds nothing
    else. *)
Record owners_wf (g : Graph) : Prop := {
  gw_owner n gn q :
    g_nodes g !! n = Some gn -> gn_owner gn = Some q ->
    exists gp, g_procs g !! q = Some gp /\ gp_nodes gp !! gn_ptr gn = Some n;
  gw_owned q gp ptr n :
    g_procs g !! q = Some gp -> gp_nodes gp !! ptr = Some n ->
    exists gn, g_nodes g !! n = Some gn /\ gn_owner gn = Some q /\ gn_ptr gn = ptr;
}.

(** Identifiers are never reused. *)
Record ids_wf (g : Graph) : Prop := {
  gw_proc_id p : is_Some (g_procs g !! p) -> p < g_fresh g;
  gw_node_id n : is_Some (g_nodes g !! n) -> n < g_fresh g;
}.

Record graph_wf (g : Graph) : Prop := {
  gw_handles : handles_wf g;
  gw_owners : owners_wf g;
  gw_ids : ids_wf g;
}.

(** ** What the steps keep *)

Lemma strong_count_insert n p gp procs :
  procs !! p = None -> strong_count n (<[p := gp]> procs) = strong_bit n gp + strong_count n procs.
Proof.
  intros. unfold strong_count. rewrite map_fold_insert_L; [done| |done]. intros; lia.
Qed.

Lemma strong_count_update n p gp gp' procs :
  procs !! p = Some gp ->
  strong_count n (<[p := gp']> procs) = strong_count n procs - strong_bit n gp + strong_bit n gp'.
Proof.
  intros Hp. rewrite <- (insert_delete_id procs p gp Hp), insert_insert, decide_True by done.
  rewrite !strong_count_insert by apply lookup_delete_eq. lia.
Qed.

Lemma strong_count_delete n p gp procs :
  procs !! p = Some gp -> strong_count n (delete p procs) = strong_count n procs - strong_bit n gp.
Proof.
  intros Hp. rewrite <- (insert_delete_id procs p gp Hp) at 2.
  rewrite strong_count_insert by apply lookup_delete_eq. lia.
Qed.

Lemma strong_count_alter n p f procs :
  (forall gp, strong_bit n (f gp) = strong_bit n gp) ->
  strong_count n (alter f p procs) = strong_count n procs.
Proof.
  intros Hf. destruct (procs !! p) as [gp|] eqn:Hp.
  - rewrite (alter_Some _ _ _ _ Hp).
    rewrite (strong_count_update _ _ _ _ _ Hp), Hf. lia.
  - by rewrite alter_None.
Qed.

(** The two tables of a process are inverse to each other. *)
Definition proc_wf (gp : GProc) : Prop :=
  (forall d r, gp_desc gp !! d = Some r -> gp_node gp !! gr_node r = Some d) /\
  (forall n d, gp_node gp !! n = Some d -> exists r, gp_desc gp !! d = Some r /\ gr_node r = n).

Lemma handles_proc_wf g p gp : handles_wf g -> g_procs g !! p = Some gp -> proc_wf gp.
Proof. intros Hwf Hp. split; intros; [by eapply gw_desc|by eapply gw_node]. Qed.

(** Where [put_handle] may put a handle: at the descriptor the node has, or at
    a free one when it has none. *)
Definition slot (gp : GProc) (n : NodeId) (d : Z) : Prop :=
  gp_node gp !! n = Some d \/ (gp_node gp !! n = None /\ gp_desc gp !! d = None).

Lemma slot_desc gp n d m d' :
  proc_wf gp -> slot gp n d -> gp_node gp !! m = Some d' -> m = n <-> d' = d.
Proof.
  intros [_ Hnode] Hslot Hm. split; intros ->.
  - destruct Hslot as [?|[? _]]; congruence.
  - destruct (Hnode _ _ Hm) as (r & Hr & <-). destruct Hslot as [Hs|[_ ?]]; [|congruence].
    destruct (Hnode _ _ Hs) as (r' & Hr' & <-). congruence.
Qed.

Lemma put_proc_wf n d counts gp : proc_wf gp -> slot gp n d -> proc_wf (put_proc n d counts gp).
Proof.
  intros Hwf Hslot.
  assert (Hd : forall m d', gp_node gp !! m = Some d' -> n = m <-> d = d').
  { intros m d' Hm. destruct (slot_desc _ _ _ _ _ Hwf Hslot Hm) as [? ?].
    split; intros; symmetry; auto. }
  destruct Hwf as [Hdesc Hnode].
  destruct counts as [[s w]|]; split; simpl.
  - intros d' r [[-> <-]|[Hne Hr]]%lookup_insert_Some; [by rewrite lookup_insert_eq|].
    pose proof (Hdesc _ _ Hr) as Hn. rewrite lookup_insert_ne; [done|]. by rewrite Hd.
  - intros m d' [[-> <-]|[Hne Hm]]%lookup_insert_Some; [rewrite lookup_insert_eq; eauto|].
    destruct (Hnode _ _ Hm) as (r & Hr & Hrm). exists r. split; [|done].
    rewrite lookup_insert_ne; [done|]. by rewrite <- (Hd _ _ Hm).
  - intros d' r [Hne Hr]%lookup_delete_Some. pose proof (Hdesc _ _ Hr) as Hn.
    rewrite lookup_delete_ne; [done|]. by rewrite Hd.
  - intros m d' [Hne Hm]%lookup_delete_Some. destruct (Hnode _ _ Hm) as (r & Hr & Hrm).
    exists r. split; [|done]. rewrite lookup_delete_ne; [done|]. by rewrite <- (Hd _ _ Hm).
Qed.

Lemma proc_handle_put gp n d counts m :
  proc_wf gp -> slot gp n d ->
  proc_handle (put_proc n d counts gp) m =
    if decide (m = n) then (fun sw => (d, sw.1, sw.2)) <$> counts else proc_handle gp m.
Proof.
  intros Hwf Hslot. unfold proc_handle. case_decide as Hm.
  - subst m. destruct counts as [[s w]|]; simpl.
    + by rewrite lookup_insert_eq; simpl; rewrite lookup_insert_eq.
    + by rewrite lookup_delete_eq.
  - destruct (gp_node gp !! m) as [d'|] eqn:Hmd.
    + pose proof (slot_desc _ _ _ _ _ Hwf Hslot Hmd) as [_ Hd].
      assert (d <> d') by (intros ->; auto).
      destruct counts as [[s w]|]; simpl.
      * by rewrite lookup_insert_ne, Hmd by done; simpl; rewrite lookup_insert_ne.
      * by rewrite lookup_delete_ne, Hmd by done; simpl; rewrite lookup_delete_ne.
    + destruct counts as [[s w]|]; simpl.
      * by rewrite lookup_insert_ne, Hmd by done.
      * by rewrite lookup_delete_ne, Hmd by done.
Qed.

Lemma strong_bit_put gp n d counts m :
  proc_wf gp -> slot gp n d ->
  strong_bit m (put_proc n d counts gp) =
    if decide (m = n) then counts_bit counts else strong_bit m gp.
Proof.
  intros Hwf Hslot. unfold strong_bit. rewrite proc_handle_put by done.
  case_decide; [|done]. by destruct counts as [[s w]|].
Qed.

Lemma put_proc_nodes n d counts gp : gp_nodes (put_proc n d counts gp) = gp_nodes gp.
Proof. by destruct counts as [[s w]|]. Qed.

Lemma put_proc_node_ne n d counts gp m :
  m <> n -> gp_node (put_proc n d counts gp) !! m = gp_node gp !! m.
Proof.
  intros. destruct counts as [[s w]|]; simpl; [by rewrite lookup_insert_ne|by rewrite lookup_delete_ne].
Qed.

Lemma put_proc_node_eq n d counts gp d' :
  gp_node (put_proc n d counts gp) !! n = Some d' -> is_Some counts /\ d' = d.
Proof.
  destruct counts as [[s w]|]; simpl; [rewrite lookup_insert_eq|by rewrite lookup_delete_eq].
  intros [= <-]. eauto.
Qed.

Lemma put_node_holders p delta counts gn q :
  q ∈ gn_holders (put_node p delta counts gn) <->
  (q = p /\ is_Some counts) \/ (q <> p /\ q ∈ gn_holders gn).
Proof.
  destruct counts as [c|]; simpl.
  - rewrite elem_of_union, elem_of_singleton. destruct (decide (q = p)); intuition eauto.
  - rewrite elem_of_difference, elem_of_singleton. split; [intuition eauto|].
    intros [[_ [? ?]]|]; [done|intuition].
Qed.

Section put_handle.
Context (g : Graph) (p : ProcId) (gp : GProc) (n : NodeId) (gn : GNode) (d : Z).
Context (counts : option (Z * Z)).
Hypothesis Hh : handles_wf g.
Hypothesis Hp : g_procs g !! p = Some gp.
Hypothesis Hn : g_nodes g !! n = Some gn.
Hypothesis Hslot : slot gp n d.
Hypothesis Hcounts : forall s w, counts = Some (s, w) -> 0 <= s /\ 0 <= w /\ 0 < s + w.

Let Hpwf : proc_wf gp := handles_proc_wf g p gp Hh Hp.
Let gp' := put_proc n d counts gp.
Let gn' := put_node p (counts_bit counts - strong_bit n gp) counts gn.

Lemma put_handle_eq :
  put_handle p n d counts g =
    g <| g_procs := <[p := gp']> (g_procs g) |> <| g_nodes := <[n := gn']> (g_nodes g) |>.
Proof.
  unfold put_handle, old_bit. rewrite Hp. unfold set_field. simpl.
  by rewrite (alter_Some _ _ _ _ Hp), (alter_Some _ _ _ _ Hn).
Qed.

(** Handles before and after. *)
Lemma handle_put q m :
  handle (put_handle p n d counts g) q m =
    if decide (q = p /\ m = n) then (fun sw => (d, sw.1, sw.2)) <$> counts else handle g q m.
Proof.
  rewrite put_handle_eq. unfold handle. simpl.
  destruct (decide (q = p)) as [->|Hne].
  - rewrite lookup_insert_eq, Hp. simpl. unfold gp'. rewrite proc_handle_put by done.
    destruct (decide (m = n)); [by rewrite decide_True|by rewrite decide_False by tauto].
  - rewrite lookup_insert_ne by done. by rewrite decide_False by tauto.
Qed.

Lemma strong_count_put m :
  strong_count m (<[p := gp']> (g_procs g)) =
    strong_count m (g_procs g) + (if decide (m = n) then counts_bit counts - strong_bit n gp else 0).
Proof.
  rewrite (strong_count_update _ _ _ _ _ Hp). unfold gp'. rewrite strong_bit_put by done.
  case_decide; subst; lia.
Qed.

Lemma put_proc_counts d' r :
  gp_desc gp' !! d' = Some r -> 0 <= gr_strong r /\ 0 <= gr_weak r /\ 0 < gr_strong r + gr_weak r.
Proof.
  unfold gp'. destruct counts as [[s w]|]; simpl.
  - intros [[-> <-]|[_ Hr]]%lookup_insert_Some; [by apply Hcounts|by eapply gw_counts].
  - intros [_ Hr]%lookup_delete_Some. by eapply gw_counts.
Qed.

Lemma put_handle_handles : handles_wf (put_handle p n d counts g).
Proof.
  rewrite put_handle_eq. pose proof (put_proc_wf n d counts gp Hpwf Hslot) as [Hd' Hn'].
  split; simpl.
  - intros q gq d' r [[<- <-]|[_ Hq]]%lookup_insert_Some; [apply Hd'|by eapply gw_desc].
  - intros q gq m d' [[<- <-]|[_ Hq]]%lookup_insert_Some; [apply Hn'|by eapply gw_node].
  - intros q gq m d' [[<- <-]|[Hne Hq]]%lookup_insert_Some Hm.
    + destruct (decide (m = n)) as [->|Hmn].
      * rewrite lookup_insert_eq. exists gn'. split; [done|].
        apply put_node_holders. left. apply put_proc_node_eq in Hm. by destruct Hm.
      * rewrite lookup_insert_ne by done. unfold gp' in Hm. rewrite put_proc_node_ne in Hm by done.
        by eapply gw_holder.
    + destruct (gw_holder _ Hh _ _ _ _ Hq Hm) as (gm & Hgm & Hin).
      destruct (decide (m = n)) as [->|Hmn]; [|by rewrite lookup_insert_ne; eauto].
      rewrite lookup_insert_eq. exists gn'. split; [done|]. apply put_node_holders.
      right. split; [done|]. congruence.
  - intros m gm q [[<- <-]|[Hne Hm]]%lookup_insert_Some Hq.
    + apply put_node_holders in Hq as [[-> [[s w] Hc]]|[Hqp Hq]].
      * rewrite lookup_insert_eq. exists gp', d. split; [done|]. unfold gp'. rewrite Hc. simpl.
        by rewrite lookup_insert_eq.
      * rewrite lookup_insert_ne by done. by eapply gw_held.
    + destruct (gw_held _ Hh _ _ _ Hm Hq) as (gq & d' & Hgq & Hd).
      destruct (decide (q = p)) as [->|Hqp]; [|rewrite lookup_insert_ne by done; eauto].
      rewrite lookup_insert_eq. exists gp', d'. split; [done|]. unfold gp'.
      rewrite put_proc_node_ne by done. congruence.
  - intros m gm Hm. rewrite strong_count_put.
    apply lookup_insert_Some in Hm as [[<- <-]|[Hne Hm]].
    + rewrite decide_True by done. simpl. rewrite (gw_strong _ Hh _ _ Hn). lia.
    + rewrite decide_False by done. rewrite (gw_strong _ Hh _ _ Hm). lia.
  - intros q gq d' r [[<- <-]|[_ Hq]]%lookup_insert_Some; [apply put_proc_counts|by eapply gw_counts].
Qed.

Lemma put_handle_owners : owners_wf g -> owners_wf (put_handle p n d counts g).
Proof.
  intros Ho. rewrite put_handle_eq. split; simpl.
  - intros m gm q Hm Hown.
    assert (exists gm0, g_nodes g !! m = Some gm0 /\ gn_owner gm0 = Some q /\ gn_ptr gm0 = gn_ptr gm)
      as (gm0 & Hm0 & Hown0 & <-).
    { apply lookup_insert_Some in Hm as [[<- <-]|[_ Hm]]; eauto. }
    destruct (gw_owner _ Ho _ _ _ Hm0 Hown0) as (gq & Hgq & Hptr).
    destruct (decide (q = p)) as [->|Hqp]; [|rewrite lookup_insert_ne by done; eauto].
    rewrite lookup_insert_eq. exists gp'. split; [done|]. unfold gp'. rewrite put_proc_nodes. congruence.
  - intros q gq ptr m Hq Hm.
    assert (exists gq0, g_procs g !! q = Some gq0 /\ gp_nodes gq0 !! ptr = Some m) as (gq0 & Hq0 & Hm0).
    { apply lookup_insert_Some in Hq as [[<- <-]|[_ Hq]]; [|by eauto].
      unfold gp' in Hm. rewrite put_proc_nodes in Hm. eauto. }
    destruct (gw_owned _ Ho _ _ _ _ Hq0 Hm0) as (gm & Hgm & Hown & Hptr).
    destruct (decide (m = n)) as [->|Hmn]; [|rewrite lookup_insert_ne by done; eauto].
    rewrite lookup_insert_eq. exists gn'. split; [done|]. simpl. by simplify_eq.
Qed.

End put_handle.

(** Changing the table of own objects keeps everything about handles. *)
Lemma strong_count_nodes n q f procs :
  strong_count n (alter (set_field gp_nodes f) q procs) = strong_count n procs.
Proof. by apply strong_count_alter. Qed.

Lemma lookup_alter_nodes q f (procs : gmap ProcId GProc) p gp :
  alter (set_field gp_nodes f) q procs !! p = Some gp ->
  exists gp0, procs !! p = Some gp0 /\ gp_context gp = gp_context gp0 /\ gp_desc gp = gp_desc gp0 /\
    gp_node gp = gp_node gp0 /\ gp_nodes gp = if decide (p = q) then f (gp_nodes gp0) else gp_nodes gp0.
Proof.
  intros [[Hne Hp]|(-> & gp0 & Hp & ->)]%lookup_alter_cases.
  - exists gp. by rewrite decide_False.
  - exists gp0. by rewrite decide_True.
Qed.

Lemma lookup_alter_nodes_back q f (procs : gmap ProcId GProc) p gp0 :
  procs !! p = Some gp0 ->
  exists gp, alter (set_field gp_nodes f) q procs !! p = Some gp /\ gp_desc gp = gp_desc gp0 /\
    gp_node gp = gp_node gp0 /\ gp_nodes gp = if decide (p = q) then f (gp_nodes gp0) else gp_nodes gp0.
Proof.
  intros Hp. destruct (decide (p = q)) as [->|Hne].
  - rewrite lookup_alter_eq, Hp. simpl. eauto.
  - rewrite lookup_alter_ne, Hp by done. eauto.
Qed.

Lemma handles_alter_nodes g q f :
  handles_wf g -> handles_wf (g <| g_procs ::= alter (set_field gp_nodes f) q |>).
Proof.
  intros Hh. split; simpl.
  - intros p gp d r (gp0 & Hp & _ & -> & -> & _)%lookup_alter_nodes. by eapply gw_desc.
  - intros p gp n d (gp0 & Hp & _ & -> & -> & _)%lookup_alter_nodes. by eapply gw_node.
  - intros p gp n d (gp0 & Hp & _ & _ & -> & _)%lookup_alter_nodes. by eapply gw_holder.
  - intros n gn p Hn Hp. destruct (gw_held _ Hh _ _ _ Hn Hp) as (gp0 & d & Hgp & Hd).
    destruct (lookup_alter_nodes_back q f _ _ _ Hgp) as (gp & Hgp' & _ & Hnode & _).
    exists gp, d. by rewrite Hnode.
  - intros n gn Hn. rewrite strong_count_nodes. by eapply gw_strong.
  - intros p gp d r (gp0 & Hp & _ & -> & _ & _)%lookup_alter_nodes. by eapply gw_counts.
Qed.

Lemma handles_delete_node g n gn :
  handles_wf g -> g_nodes g !! n = Some gn -> gn_holders gn = ∅ ->
  handles_wf (g <| g_nodes ::= delete n |>).
Proof.
  intros Hh Hn He. split; simpl.
  - by apply gw_desc.
  - by apply gw_node.
  - intros p gp m d Hp Hm. destruct (gw_holder _ Hh _ _ _ _ Hp Hm) as (gm & Hgm & Hin).
    exists gm. split; [|done]. rewrite lookup_delete_ne; [done|]. intros ->. simplify_eq. set_solver.
  - intros m gm p [_ Hm]%lookup_delete_Some. by apply gw_held.
  - intros m gm [_ Hm]%lookup_delete_Some. by apply gw_strong.
  - by apply gw_counts.
Qed.

Lemma handles_insert_node g n gn gn' :
  handles_wf g -> g_nodes g !! n = Some gn ->
  gn_holders gn' = gn_holders gn -> gn_strong gn' = gn_strong gn ->
  handles_wf (g <| g_nodes ::= insert n gn' |>).
Proof.
  intros Hh Hn He Hs. split; simpl.
  - by apply gw_desc.
  - by apply gw_node.
  - intros p gp m d Hp Hm. destruct (gw_holder _ Hh _ _ _ _ Hp Hm) as (gm & Hgm & Hin).
    destruct (decide (m = n)) as [->|]; [|by rewrite lookup_insert_ne; eauto].
    rewrite lookup_insert_eq. exists gn'. simplify_eq. by rewrite He.
  - intros m gm p [[<- <-]|[_ Hm]]%lookup_insert_Some; [rewrite He|]; by apply gw_held.
  - intros m gm [[<- <-]|[_ Hm]]%lookup_insert_Some; [rewrite Hs|]; by apply gw_strong.
  - by apply gw_counts.
Qed.

Lemma strong_count_none g n : handles_wf g -> g_nodes g !! n = None -> strong_count n (g_procs g) = 0.
Proof.
  intros Hh Hn.
  assert (forall p gp, g_procs g !! p = Some gp -> strong_bit n gp = 0) as Hbit.
  { intros p gp Hp. unfold strong_bit, proc_handle.
    destruct (gp_node gp !! n) as [d|] eqn:Hd; [|done].
    destruct (gw_holder _ Hh _ _ _ _ Hp Hd) as (? & ? & _). congruence. }
  revert Hbit. generalize (g_procs g). intros procs.
  induction procs as [|p gp procs Hp IH] using map_ind; intros Hbit; [done|].
  rewrite strong_count_insert by done.
  rewrite (Hbit p) by apply lookup_insert_eq. rewrite IH; [done|].
  intros q gq Hq. apply (Hbit q). rewrite lookup_insert_ne; [done|congruence].
Qed.

Lemma handles_new_node g n p ptr :
  handles_wf g -> g_nodes g !! n = None ->
  handles_wf (g <| g_nodes ::= insert n (mkGNode p ptr 0 ∅) |>).
Proof.
  intros Hh Hn. split; simpl.
  - by apply gw_desc.
  - by apply gw_node.
  - intros q gq m d Hq Hm. destruct (gw_holder _ Hh _ _ _ _ Hq Hm) as (gm & Hgm & Hin).
    exists gm. rewrite lookup_insert_ne by congruence. done.
  - intros m gm q [[<- <-]|[_ Hm]]%lookup_insert_Some; [simpl; set_solver|by apply gw_held].
  - intros m gm [[<- <-]|[_ Hm]]%lookup_insert_Some; [|by apply gw_strong].
    by rewrite strong_count_none.
  - by apply gw_counts.
Qed.

(** A node that leaves its owner's table: it is removed, or has no owner. *)
Lemma owners_leave g n gn q nodes' :
  owners_wf g -> g_nodes g !! n = Some gn -> gn_owner gn = Some q ->
  (forall m gm, nodes' !! m = Some gm -> gn_owner gm <> None -> m <> n) ->
  (forall m, m <> n -> nodes' !! m = g_nodes g !! m) ->
  owners_wf (g <| g_nodes := nodes' |>
               <| g_procs ::= alter (set_field gp_nodes (delete (gn_ptr gn))) q |>).
Proof.
  intros Ho Hn Hq Hleft Hsame. split; simpl.
  - intros m gm q' Hm Hown. pose proof (Hleft _ _ Hm ltac:(by rewrite Hown)) as Hne.
    rewrite Hsame in Hm by done.
    destruct (gw_owner _ Ho _ _ _ Hm Hown) as (gp & Hgp & Hptr).
    destruct (lookup_alter_nodes_back q (delete (gn_ptr gn)) _ _ _ Hgp) as (gp' & Hgp' & _ & _ & Hnodes).
    exists gp'. split; [done|]. rewrite Hnodes. case_decide; [subst|done].
    rewrite lookup_delete_ne; [done|]. intros Heq.
    destruct (gw_owner _ Ho _ _ _ Hn Hq) as (gp2 & Hgp2 & Hptr2). congruence.
  - intros q' gp ptr m (gp0 & Hp & _ & _ & _ & Hnodes)%lookup_alter_nodes Hm.
    rewrite Hnodes in Hm.
    assert (gp_nodes gp0 !! ptr = Some m /\ (q' = q -> ptr <> gn_ptr gn)) as [Hm0 Hptr].
    { case_decide; [|done]. apply lookup_delete_Some in Hm as [? ?]. split; [done|congruence]. }
    destruct (gw_owned _ Ho _ _ _ _ Hp Hm0) as (gm & Hgm & Hown & <-).
    exists gm. split; [|done]. rewrite Hsame; [done|]. intros ->. simplify_eq. by apply Hptr.
Qed.

Lemma ids_weaken g g' :
  ids_wf g -> (forall p, is_Some (g_procs g' !! p) -> is_Some (g_procs g !! p)) ->
  (forall n, is_Some (g_nodes g' !! n) -> is_Some (g_nodes g !! n)) ->
  g_fresh g <= g_fresh g' -> ids_wf g'.
Proof. intros [Hp Hn] Hps Hns Hf. split; intros i Hi; [apply Hps, Hp in Hi|apply Hns, Hn in Hi]; lia. Qed.

Lemma is_Some_alter {A} (f : A -> A) (m : gmap Z A) i j : is_Some (alter f i m !! j) <-> is_Some (m !! j).
Proof.
  destruct (decide (i = j)) as [->|]; [|by rewrite lookup_alter_ne].
  by rewrite lookup_alter_eq, fmap_is_Some.
Qed.

Lemma collect_wf g n gn :
  graph_wf g -> g_nodes g !! n = Some gn -> gn_holders gn = ∅ -> graph_wf (collect n g).
Proof.
  intros [Hh Ho Hi] Hn He. pose proof (handles_delete_node _ _ _ Hh Hn He) as Hh'.
  assert (forall m, is_Some (delete n (g_nodes g) !! m) -> is_Some (g_nodes g !! m)) as Hdel.
  { intros m [gm [_ Hm]%lookup_delete_Some]. eauto. }
  unfold collect. rewrite Hn. cbv zeta. destruct (gn_owner gn) as [q|] eqn:Hq.
  - split; [by apply handles_alter_nodes| |].
    + eapply owners_leave; [done..| |].
      * intros m gm [? _]%lookup_delete_Some. done.
      * intros m Hm. by apply lookup_delete_ne.
    + eapply ids_weaken; simpl; [done| |done|done]. intros p. by rewrite is_Some_alter.
  - split; [done| |by eapply ids_weaken]. split; simpl.
    + intros m gm q' [Hne Hm]%lookup_delete_Some. by apply gw_owner.
    + intros q gp ptr m Hp Hm. destruct (gw_owned _ Ho _ _ _ _ Hp Hm) as (gm & Hgm & Hown & Hptr).
      exists gm. split; [|done]. rewrite lookup_delete_ne; [done|]. intros <-. simplify_eq.
Qed.

Lemma orphan_wf g n : graph_wf g -> graph_wf (orphan n g).
Proof.
  intros [Hh Ho Hi]. unfold orphan. destruct (g_nodes g !! n) as [gn|] eqn:Hn; [|done].
  destruct (gn_owner gn) as [q|] eqn:Hq; [|done].
  split; [by eapply handles_alter_nodes, handles_insert_node| |].
  - eapply owners_leave; [done..| |].
    + intros m gm [[<- <-]|[Hne _]]%lookup_insert_Some; done.
    + intros m Hm. by apply lookup_insert_ne.
  - eapply ids_weaken; simpl; [done| | |done].
    + intros p. by rewrite is_Some_alter.
    + intros m [gm [[<- _]|[_ Hm]]%lookup_insert_Some]; eauto.
Qed.

Lemma create_wf g p gp ptr n :
  graph_wf g -> g_procs g !! p = Some gp -> gp_nodes gp !! ptr = None -> g_fresh g <= n ->
  graph_wf (create p ptr n g).
Proof.
  intros [Hh Ho Hi] Hp Hptr Hfresh.
  assert (g_nodes g !! n = None) as Hn.
  { destruct (g_nodes g !! n) eqn:Hn; [|done]. pose proof (gw_node_id _ Hi n ltac:(eauto)). lia. }
  split.
  1: { pose proof (handles_alter_nodes _ p (insert ptr n) (handles_new_node _ _ (Some p) ptr Hh Hn)) as H.
       split; apply H. }
  2: { split; simpl.
       - intros q. rewrite is_Some_alter. intros Hq%(gw_proc_id _ Hi). lia.
       - intros m [gm [[<- _]|[_ Hm]]%lookup_insert_Some]; [lia|].
         pose proof (gw_node_id _ Hi m ltac:(eauto)). lia. }
  unfold create. split; simpl.
  - intros m gm q [[<- <-]|[Hne Hm]]%lookup_insert_Some Hown; simpl in *.
    + simplify_eq. destruct (lookup_alter_nodes_back q (insert ptr n) _ _ _ Hp) as (gp' & Hgp' & _ & _ & Hnodes).
      exists gp'. split; [done|]. by rewrite Hnodes, decide_True, lookup_insert_eq.
    + destruct (gw_owner _ Ho _ _ _ Hm Hown) as (gq & Hgq & Hmq).
      destruct (lookup_alter_nodes_back p (insert ptr n) _ _ _ Hgq) as (gq' & Hgq' & _ & _ & Hnodes).
      exists gq'. split; [done|]. rewrite Hnodes. case_decide; [subst|done].
      rewrite lookup_insert_ne; [done|]. congruence.
  - intros q gq ptr' m (gq0 & Hq & _ & _ & _ & Hnodes)%lookup_alter_nodes Hm. rewrite Hnodes in Hm.
    case_decide; [subst q; apply lookup_insert_Some in Hm as [[<- <-]|[Hne Hm]]|].
    + rewrite lookup_insert_eq. eauto.
    + destruct (gw_owned _ Ho _ _ _ _ Hq Hm) as (gm & Hgm & ?). rewrite lookup_insert_ne by congruence. eauto.
    + destruct (gw_owned _ Ho _ _ _ _ Hq Hm) as (gm & Hgm & ?). rewrite lookup_insert_ne by congruence. eauto.
Qed.

Lemma open_wf g p c :
  graph_wf g -> g_fresh g <= p -> graph_wf (open_proc p c g).
Proof.
  intros [Hh Ho Hi] Hfresh.
  assert (g_procs g !! p = None) as Hp.
  { destruct (g_procs g !! p) eqn:Hp; [|done]. pose proof (gw_proc_id _ Hi p ltac:(eauto)). lia. }
  split; split; simpl.
  - intros q gq d r [[<- <-]|[_ Hq]]%lookup_insert_Some; [simpl; by rewrite lookup_empty|by eapply gw_desc].
  - intros q gq n d [[<- <-]|[_ Hq]]%lookup_insert_Some; [simpl; by rewrite lookup_empty|by eapply gw_node].
  - intros q gq n d [[<- <-]|[_ Hq]]%lookup_insert_Some; [simpl; by rewrite lookup_empty|by eapply gw_holder].
  - intros n gn q Hn Hq. destruct (gw_held _ Hh _ _ _ Hn Hq) as (gq & d & Hgq & Hd).
    exists gq, d. by rewrite lookup_insert_ne by congruence.
  - intros n gn Hn. rewrite strong_count_insert by done. by rewrite (gw_strong _ Hh _ _ Hn).
  - intros q gq d r [[<- <-]|[_ Hq]]%lookup_insert_Some; [simpl; by rewrite lookup_empty|by eapply gw_counts].
  - intros n gn q Hn Hq. destruct (gw_owner _ Ho _ _ _ Hn Hq) as (gq & Hgq & Hptr).
    exists gq. by rewrite lookup_insert_ne by congruence.
  - intros q gq ptr n [[<- <-]|[_ Hq]]%lookup_insert_Some; [simpl; by rewrite lookup_empty|by eapply gw_owned].
  - intros q [gq [[<- _]|[_ Hq]]%lookup_insert_Some]; [lia|].
    pose proof (gw_proc_id _ Hi q ltac:(eauto)). lia.
  - intros n Hn%(gw_node_id _ Hi). lia.
Qed.

Lemma close_wf g p gp :
  graph_wf g -> g_procs g !! p = Some gp -> gp_nodes gp = ∅ -> gp_desc gp = ∅ ->
  graph_wf (g <| g_procs ::= delete p |>).
Proof.
  intros [Hh Ho Hi] Hp Hnodes Hdesc.
  assert (forall n, gp_node gp !! n = None) as Hnode.
  { intros n. destruct (gp_node gp !! n) eqn:Hn; [|done].
    destruct (gw_node _ Hh _ _ _ _ Hp Hn) as (r & Hr & _). by rewrite Hdesc in Hr. }
  split; split; simpl.
  - intros q gq d r [_ Hq]%lookup_delete_Some. by eapply gw_desc.
  - intros q gq n d [_ Hq]%lookup_delete_Some. by eapply gw_node.
  - intros q gq n d [_ Hq]%lookup_delete_Some. by eapply gw_holder.
  - intros n gn q Hn Hq. destruct (gw_held _ Hh _ _ _ Hn Hq) as (gq & d & Hgq & Hd).
    exists gq, d. split; [|done]. rewrite lookup_delete_ne; [done|]. intros ->.
    simplify_eq. by rewrite Hnode in Hd.
  - intros n gn Hn. rewrite (strong_count_delete _ _ _ _ Hp), <- (gw_strong _ Hh _ _ Hn).
    unfold strong_bit, proc_handle. rewrite Hnode. simpl. lia.
  - intros q gq d r [_ Hq]%lookup_delete_Some. by eapply gw_counts.
  - intros n gn q Hn Hq. destruct (gw_owner _ Ho _ _ _ Hn Hq) as (gq & Hgq & Hptr).
    exists gq. split; [|done]. rewrite lookup_delete_ne; [done|]. intros ->.
    simplify_eq. by rewrite Hnodes in Hptr.
  - intros q gq ptr n [_ Hq]%lookup_delete_Some. by eapply gw_owned.
  - intros q [gq [_ Hq]%lookup_delete_Some]. by apply (gw_proc_id _ Hi); eauto.
  - apply (gw_node_id _ Hi).
Qed.

Lemma handle_Some g p n d s w :
  handles_wf g -> handle g p n = Some (d, s, w) ->
  exists gp gn, g_procs g !! p = Some gp /\ g_nodes g !! n = Some gn /\ gp_node gp !! n = Some d /\
    gp_desc gp !! d = Some (mkGRef n s w) /\ 0 <= s /\ 0 <= w /\ 0 < s + w.
Proof.
  intros Hh. unfold handle, proc_handle. intros H.
  destruct (g_procs g !! p) as [gp|] eqn:Hp; [simpl in H|done].
  destruct (gp_node gp !! n) as [d'|] eqn:Hn; [simpl in H|done].
  destruct (gp_desc gp !! d') as [r|] eqn:Hr; [simpl in H|done]. simplify_eq.
  destruct (gw_holder _ Hh _ _ _ _ Hp Hn) as (gn & Hgn & _).
  destruct (gw_node _ Hh _ _ _ _ Hp Hn) as (r' & Hr' & <-). simplify_eq.
  exists gp, gn. destruct (gw_counts _ Hh _ _ _ _ Hp Hr) as (? & ? & ?). split_and!; try done. by destruct r.
Qed.

Lemma put_handle_ids g p n d counts : ids_wf g -> ids_wf (put_handle p n d counts g).
Proof.
  intros Hi. eapply ids_weaken; simpl; [done|intros ?; by rewrite is_Some_alter..|done].
Qed.

Lemma put_handle_wf g p gp n gn d counts :
  graph_wf g -> g_procs g !! p = Some gp -> g_nodes g !! n = Some gn -> slot gp n d ->
  (forall s w, counts = Some (s, w) -> 0 <= s /\ 0 <= w /\ 0 < s + w) ->
  graph_wf (put_handle p n d counts g).
Proof.
  intros [Hh Ho Hi] ? ? ? ?.
  split; [by eapply put_handle_handles|by eapply put_handle_owners|by apply put_handle_ids].
Qed.

Lemma set_handle_wf g p n d s w counts :
  graph_wf g -> handle g p n = Some (d, s, w) ->
  (forall s w, counts = Some (s, w) -> 0 <= s /\ 0 <= w /\ 0 < s + w) ->
  graph_wf (put_handle p n d counts g).
Proof.
  intros Hwf Hx Hc. pose proof Hwf as [Hh _ _].
  destruct (handle_Some _ _ _ _ _ _ Hh Hx) as (gp & gn & Hp & Hn & Hnode & _).
  eapply put_handle_wf; try done. by left.
Qed.

(** Every step keeps the graph well formed. *)
Lemma gstep_wf a g g' : graph_wf g -> gstep a g g' -> graph_wf g'.
Proof.
  intros Hwf Hstep. pose proof Hwf as [Hh Ho Hi].
  destruct Hstep as [p c ?|k ?| |p gp ???|gp ptr n ???|p gp n d strong first ? [gn ?] ?? ? [? [? ?]]
    |p n d s w strong ? Hx|p n d s w s' w' Hx ???|p n d s w Hx|n gn ??|n gn ??|c m ?].
  - by apply open_wf.
  - split; [by split; apply Hh|by split; apply Ho|by eapply ids_weaken].
  - split; [by split; apply Hh|by split; apply Ho|by eapply ids_weaken].
  - by eapply close_wf.
  - by eapply create_wf.
  - eapply put_handle_wf; try done; [by right|]. intros s w [= Hb].
    destruct strong; simpl in Hb; simplify_eq; lia.
  - eapply set_handle_wf; [done..|]. intros s' w' [= Hb].
    destruct (handle_Some _ _ _ _ _ _ Hh Hx) as (? & ? & ? & ? & ? & ? & ?).
    destruct strong; simpl in Hb; simplify_eq; lia.
  - eapply set_handle_wf; [done..|]. intros ? ? [= <- <-]. lia.
  - by eapply set_handle_wf.
  - by eapply collect_wf.
  - by apply orphan_wf.
  - split; [by split; apply Hh|by split; apply Ho|by eapply ids_weaken].
Qed.

Lemma gsteps_wf a g g' : graph_wf g -> gsteps a g g' -> graph_wf g'.
Proof. intros Hwf Hs. induction Hs as [|? ? ? Hstep _ IH]; [done|]. by eapply IH, gstep_wf. Qed.

(** ** Handles set twice *)

Lemma put_proc_put n d c1 c2 gp : put_proc n d c2 (put_proc n d c1 gp) = put_proc n d c2 gp.
Proof.
  destruct gp as [c ns ds nd], c1 as [[s1 w1]|], c2 as [[s2 w2]|]; unfold put_proc, set_field; simpl; f_equal;
    by rewrite ?insert_insert_eq, ?delete_insert_eq, ?insert_delete_eq, ?delete_delete_eq.
Qed.

Lemma put_handle_put p n d c1 c2 g :
  (forall gp, g_procs g !! p = Some gp -> proc_wf gp /\ slot gp n d) -> is_Some (g_procs g !! p) ->
  put_handle p n d c2 (put_handle p n d c1 g) = put_handle p n d c2 g.
Proof.
  intros Hwf [gp Hp]. destruct (Hwf _ Hp) as [Hpwf Hslot]. destruct g as [procs nodes managers fresh].
  unfold put_handle, old_bit, set_field in *. simpl in *. rewrite lookup_alter_eq, Hp. simpl.
  rewrite strong_bit_put, decide_True by done. f_equal.
  - rewrite alter_alter_eq. apply alter_ext. intros x _. apply put_proc_put.
  - rewrite alter_alter_eq. apply alter_ext. intros [o ptr st hs] _. unfold put_node, set_field. simpl.
    assert (forall hs : gset ProcId, {[p]} ∪ hs ∖ {[p]} = {[p]} ∪ hs) as Hin.
    { intros ?. apply set_eq. intros x. destruct (decide (x = p)); set_solver. }
    assert (forall hs : gset ProcId, ({[p]} ∪ hs) ∖ {[p]} = hs ∖ {[p]}) as Hout by set_solver.
    f_equal; [lia|]. destruct c1, c2; rewrite ?Hin, ?Hout; set_solver.
Qed.

(** How many processes hold a node strongly, changed by [k]. *)
Definition add_strong (n : NodeId) (k : Z) (g : Graph) : Graph :=
  g <| g_nodes ::= alter (set_field gn_strong (Z.add k)) n |>.

Lemma add_strong_0 n g : add_strong n 0 g = g.
Proof.
  destruct g as [ps ns ms f]. unfold add_strong, set_field. simpl. f_equal.
  apply map_eq. intros m. destruct (decide (n = m)) as [->|]; [|by rewrite lookup_alter_ne].
  rewrite lookup_alter_eq. by destruct (ns !! m) as [[]|].
Qed.

(** The counts of a handle that is already there. *)
Definition set_counts (p : ProcId) (n : NodeId) (d s w : Z) (g : Graph) : Graph :=
  g <| g_procs ::= alter (set_field gp_desc (insert d (mkGRef n s w))) p |>.

(** The facts about a handle that changing its counts relies on. *)
Record held (g : Graph) (p : ProcId) (n : NodeId) (d s w : Z) : Prop := {
  held_proc : exists gp, g_procs g !! p = Some gp /\ gp_node gp !! n = Some d /\
                gp_desc gp !! d = Some (mkGRef n s w);
  held_node : exists gn, g_nodes g !! n = Some gn /\ p ∈ gn_holders gn;
}.

Lemma held_old_bit g p n d s w : held g p n d s w -> old_bit g p n = if 0 <? s then 1 else 0.
Proof.
  intros [(gp & Hp & Hn & Hd) _]. unfold old_bit, strong_bit, proc_handle. by rewrite Hp, Hn; simpl; rewrite Hd.
Qed.

Lemma put_handle_counts g p n d s w s' w' :
  held g p n d s w ->
  put_handle p n d (Some (s', w')) g =
    add_strong n ((if 0 <? s' then 1 else 0) - (if 0 <? s then 1 else 0)) (set_counts p n d s' w' g).
Proof.
  intros Hh. pose proof (held_old_bit _ _ _ _ _ _ Hh) as Hb.
  destruct Hh as [(gp & Hp & Hn & Hd) (gn & Hgn & Hin)].
  unfold put_handle, add_strong, set_counts, set_field. simpl. rewrite Hb. f_equal.
  - apply alter_ext. intros x Hx. rewrite Hp in Hx. injection Hx as <-. unfold put_proc, set_field. simpl.
    destruct gp; simpl in *. f_equal. by apply insert_id.
  - apply alter_ext. intros x Hx. rewrite Hgn in Hx. injection Hx as <-. unfold put_node, set_field. simpl.
    destruct gn; simpl in *. f_equal. set_solver.
Qed.

Lemma strong_bit_bound n gp : 0 <= strong_bit n gp <= 1.
Proof. unfold strong_bit. destruct (proc_handle gp n) as [[[d s] w]|]; [destruct (0 <? s)|]; lia. Qed.

Lemma strong_count_pos n p gp procs : procs !! p = Some gp -> strong_bit n gp <= strong_count n procs.
Proof.
  intros Hp. rewrite <- (insert_delete_id procs p gp Hp).
  rewrite strong_count_insert by apply lookup_delete_eq.
  enough (0 <= strong_count n (delete p procs)) by lia. generalize (delete p procs). clear.
  intros procs. induction procs as [|p gp procs Hp IH] using map_ind; [done|].
  rewrite strong_count_insert by done. pose proof (strong_bit_bound n gp). lia.
Qed.

(** A handle of a well-formed graph. *)
Lemma handle_held g p n d s w : handles_wf g -> handle g p n = Some (d, s, w) -> held g p n d s w.
Proof.
  intros Hh Hx. destruct (handle_Some _ _ _ _ _ _ Hh Hx) as (gp & gn & Hp & Hn & Hnd & Hd & _).
  split; [by eauto 6|]. destruct (gw_holder _ Hh _ _ _ _ Hp Hnd) as (gn' & ? & ?). eauto.
Qed.

Lemma held_handle g p n d s w : held g p n d s w -> handle g p n = Some (d, s, w).
Proof.
  intros [(gp & Hp & Hn & Hd) _]. unfold handle, proc_handle. rewrite Hp. simpl. rewrite Hn. simpl. by rewrite Hd.
Qed.

Lemma held_strong g p n d s w gn :
  handles_wf g -> held g p n d s w -> g_nodes g !! n = Some gn -> 0 < s -> 0 < gn_strong gn.
Proof.
  intros Hh Hheld Hn Hs. rewrite (gw_strong _ Hh _ _ Hn).
  pose proof (held_old_bit _ _ _ _ _ _ Hheld) as Hb. destruct Hheld as [(gp & Hp & _) _].
  unfold old_bit in Hb. rewrite Hp, (proj2 (Z.ltb_lt 0 s) Hs) in Hb.
  pose proof (strong_count_pos n _ _ _ Hp). lia.
Qed.

Lemma held_put g p n d s w :
  is_Some (g_procs g !! p) -> is_Some (g_nodes g !! n) -> held (put_handle p n d (Some (s, w)) g) p n d s w.
Proof.
  intros [gp Hp] [gn Hn]. split.
  - exists (put_proc n d (Some (s, w)) gp). simpl. rewrite lookup_alter_eq, Hp. simpl.
    by rewrite !lookup_insert_eq.
  - eexists. simpl. rewrite lookup_alter_eq, Hn. split; [done|]. simpl. set_solver.
Qed.

(** Removing what is not there changes nothing. *)
Lemma put_handle_absent g p gp n d :
  handles_wf g -> g_procs g !! p = Some gp -> gp_node gp !! n = None -> gp_desc gp !! d = None ->
  put_handle p n d None g = g.
Proof.
  intros Hh Hp Hn Hd. destruct g as [ps ns ms f]. unfold put_handle, old_bit, set_field. simpl in *.
  rewrite Hp. unfold strong_bit, proc_handle. rewrite Hn. simpl. f_equal.
  - rewrite (alter_Some _ _ _ _ Hp). apply insert_id. rewrite Hp. f_equal. unfold put_proc, set_field. simpl.
    rewrite !delete_id by done. by destruct gp.
  - destruct (ns !! n) as [gn|] eqn:Hgn; [|by apply alter_None].
    rewrite (alter_Some _ _ _ _ Hgn). apply insert_id. rewrite Hgn. f_equal. unfold put_node, set_field. simpl.
    destruct gn as [o ptr st hs]. simpl. f_equal. apply set_eq. intros q.
    destruct (decide (q = p)) as [->|]; [|set_solver]. split; [|set_solver]. intros Hin.
    destruct (gw_held _ Hh n _ p Hgn Hin) as (gp' & d' & Hp' & Hd'). simpl in Hp'. congruence.
Qed.

(** ** Handles are not forged *)

(** The nodes a process can get hold of by itself: new ones, its own, those it
    has a handle for, and its context manager. *)
Definition reaches (g : Graph) (a : ProcId) (n : NodeId) : Prop :=
  g_fresh g <= n \/
  (exists gn, g_nodes g !! n = Some gn /\ gn_owner gn = Some a) \/
  is_Some (handle g a n) \/
  (exists gp, g_procs g !! a = Some gp /\ g_managers g !! gp_context gp = Some (Some n)).

Lemma entitled_reaches g a p n strong : entitled g a p n strong -> reaches g a n.
Proof.
  intros [(gn & ? & ?)|[(d & s & w & Hx & _)|(_ & gp & ? & ?)]]; right; [left|right; left|right; right]; eauto.
Qed.

Lemma handle_alter_nodes f q p n procs nodes managers fresh procs' :
  procs' = alter (set_field gp_nodes f) q procs ->
  handle (mkGraph procs' nodes managers fresh) p n = handle (mkGraph procs nodes managers fresh) p n.
Proof.
  intros ->. unfold handle. simpl. destruct (decide (q = p)) as [->|].
  - rewrite lookup_alter_eq. by destruct (procs !! p).
  - by rewrite lookup_alter_ne.
Qed.

Lemma handle_set g q m d s w counts p n :
  handles_wf g -> handle g q m = Some (d, s, w) ->
  is_Some (handle (put_handle q m d counts g) p n) -> is_Some (handle g p n).
Proof.
  intros Hh Hx. destruct (handle_Some _ _ _ _ _ _ Hh Hx) as (gp & gm & Hq & Hm & Hnode & _).
  rewrite (handle_put g q gp m gm d counts Hh Hq Hm) by by left.
  case_decide as Hd; [|done]. destruct Hd as [-> ->]. by rewrite Hx.
Qed.

(** A step gives a process a handle only for a node its author reaches. *)
Lemma gstep_handle a g g' p n :
  graph_wf g -> gstep a g g' -> is_Some (handle g' p n) -> is_Some (handle g p n) \/ reaches g a n.
Proof.
  intros Hwf Hstep. pose proof Hwf as [Hh Ho Hi].
  destruct Hstep as [q c Hfresh|k ?| |q gp Hq ??|gp ptr m ???|q gp m d strong first He [gm Hm] Hq ? ? [? [? ?]]
    |q m d s w strong He Hx|q m d s w s' w' Hx ???|q m d s w Hx|m gm Hm ?|m gm Hm Hown|c m ?]; intros Hn.
  - destruct (decide (q = p)) as [->|Hne].
    + unfold handle in Hn. simpl in Hn. rewrite lookup_insert_eq in Hn. by destruct Hn.
    + unfold handle in Hn. simpl in Hn. rewrite lookup_insert_ne in Hn by done. by left.
  - by left.
  - by left.
  - unfold handle in Hn. simpl in Hn. destruct (decide (q = p)) as [->|].
    + rewrite lookup_delete_eq in Hn. by destruct Hn.
    + rewrite lookup_delete_ne in Hn by done. by left.
  - left. unfold create, set_field in Hn. simpl in Hn.
    by rewrite (handle_alter_nodes (insert ptr m) a p n (g_procs g)) in Hn.
  - rewrite (handle_put g q gp m gm d _ Hh Hq Hm) in Hn by by right.
    case_decide as Hd; [|by left]. destruct Hd as [-> ->]. right. by eapply entitled_reaches.
  - left. by eapply handle_set.
  - left. by eapply handle_set.
  - left. by eapply handle_set.
  - left. unfold collect in Hn. rewrite Hm in Hn. cbv zeta in Hn.
    destruct (gn_owner gm) as [q|]; [|done]. unfold set_field in Hn. simpl in Hn.
    by rewrite (handle_alter_nodes (delete (gn_ptr gm)) q p n (g_procs g)) in Hn.
  - left. unfold orphan in Hn. rewrite Hm, Hown in Hn. unfold set_field in Hn. simpl in Hn.
    by rewrite (handle_alter_nodes (delete (gn_ptr gm)) a p n (g_procs g)) in Hn.
  - by left.
Qed.

(** The owner, manager and context of what is already there do not change. *)
Lemma gstep_owner a g g' n gn :
  graph_wf g -> gstep a g g' -> g_nodes g' !! n = Some gn -> gn_owner gn = Some a -> reaches g a n.
Proof.
  intros Hwf Hstep. pose proof Hwf as [Hh Ho Hi].
  assert (forall m gm0 gm f, alter f m (g_nodes g) !! n = Some gm -> gn_owner gm = Some a ->
    (forall x, gn_owner (f x) = gn_owner x) -> gm0 = gm -> reaches g a n) as Halter.
  { intros m gm0 gm f Hm Hown Hf _. right. left.
    apply lookup_alter_cases in Hm as [[_ Hm]|(-> & gm1 & Hm & ->)]; [by eauto|].
    rewrite Hf in Hown. eauto. }
  assert (forall gm, g_nodes g !! n = Some gm -> gn_owner gm = Some a -> reaches g a n) as Hsame.
  { intros gm ? ?. right. left. eauto. }
  destruct Hstep as [q c Hfresh|k ?| |q gp Hq ??|gp ptr m ? ? Hfr|q gp m d strong first He [gm Hm] Hq ? ? [? [? ?]]
    |q m d s w strong He Hx|q m d s w s' w' Hx ???|q m d s w Hx|m gm Hm ?|m gm Hm Hown|c m ?];
    intros Hn Hown'; try (by eapply Hsame); try (by eapply Halter; [exact Hn|done|by intros []|]).
  - simpl in Hn. apply lookup_insert_Some in Hn as [[<- _]|[_ Hn]]; [by left|by eapply Hsame].
  - unfold collect in Hn. rewrite Hm in Hn. cbv zeta in Hn.
    destruct (gn_owner gm); simpl in Hn; apply lookup_delete_Some in Hn as [_ Hn]; by eapply Hsame.
  - unfold orphan in Hn. rewrite Hm, Hown in Hn. simpl in Hn.
    apply lookup_insert_Some in Hn as [[<- <-]|[_ Hn]]; [done|by eapply Hsame].
Qed.

Lemma gstep_context a g g' p gp' :
  gstep a g g' -> g_procs g' !! p = Some gp' -> p < g_fresh g ->
  exists gp, g_procs g !! p = Some gp /\ gp_context gp' = gp_context gp.
Proof.
  assert (forall f q, (forall x, gp_context (f x) = gp_context x) ->
    alter f q (g_procs g) !! p = Some gp' ->
    exists gp, g_procs g !! p = Some gp /\ gp_context gp' = gp_context gp) as Halter.
  { intros f q Hf [[_ Hp]|(-> & gp & Hp & ->)]%lookup_alter_cases; eauto. }
  assert (forall n d counts x, gp_context (put_proc n d counts x) = gp_context x) as Hput.
  { by intros n d [[s w]|] x. }
  intros Hstep Hp Hfr.
  destruct Hstep as [q c Hfresh|k ?| |q gp Hq ??|gp ptr m ? ? ?|q gp m d strong first He ? Hq ? ? ?
    |q m d s w strong He Hx|q m d s w s' w' Hx ???|q m d s w Hx|m gm Hm ?|m gm Hm Hown|c m ?];
    simpl in Hp; eauto; try (by eapply Halter; [|exact Hp]).
  - apply lookup_insert_Some in Hp as [[<- <-]|[_ Hp]]; [lia|eauto].
  - apply lookup_delete_Some in Hp as [_ Hp]. eauto.
  - unfold collect in Hp. rewrite Hm in Hp. cbv zeta in Hp.
    destruct (gn_owner gm); simpl in Hp; [by eapply Halter; [|exact Hp]|eauto].
  - unfold orphan in Hp. rewrite Hm, Hown in Hp. simpl in Hp. by eapply Halter; [|exact Hp].
Qed.

Lemma gstep_manager a g g' c n :
  gstep a g g' -> g_managers g' !! c = Some (Some n) ->
  g_managers g !! c = Some (Some n) \/ reaches g a n.
Proof.
  destruct 1 as [q c' Hfresh|k ?| |q gp Hq ??|gp ptr m ? ? ?|q gp m d strong first He ? Hq ? ? ?
    |q m d s w strong He Hx|q m d s w s' w' Hx ???|q m d s w Hx|m gm Hm ?|m gm Hm Hown|c' m Hm];
    simpl; eauto.
  - rewrite lookup_app_Some. intros [?|[_ Hl]]; [by left|].
    by apply list_lookup_singleton_Some in Hl as [_ ?].
  - unfold collect. rewrite Hm. cbv zeta. destruct (gn_owner gm); simpl; eauto.
  - unfold orphan. rewrite Hm, Hown. simpl. eauto.
  - destruct (decide (c' = c)) as [->|Hne].
    + rewrite list_lookup_alter_eq. intros (x & _ & Heq)%fmap_Some. right.
      destruct (Hm n) as (gn & ? & ?); [done|]. right. left. eauto.
    + rewrite list_lookup_alter_ne by done. eauto.
Qed.

Lemma gstep_fresh a g g' : graph_wf g -> gstep a g g' -> g_fresh g <= g_fresh g'.
Proof.
  destruct 2 as [q c' Hfresh|k ?| |q gp Hq ??|gp ptr m ? ? ?|q gp m d strong first He ? Hq ? ? ?
    |q m d s w strong He Hx|q m d s w s' w' Hx ???|q m d s w Hx|m gm Hm ?|m gm Hm Hown|c' m Hm];
    simpl; try lia.
  - unfold collect. rewrite Hm. cbv zeta. destruct (gn_owner gm); simpl; lia.
  - unfold orphan. rewrite Hm, Hown. simpl. lia.
Qed.

Lemma gstep_reaches a g g' n :
  graph_wf g -> a < g_fresh g -> gstep a g g' -> reaches g' a n -> reaches g a n.
Proof.
  intros Hwf Ha Hstep [Hfr|[(gn & Hn & Hown)|[Hx|(gp & Hp & Hmgr)]]].
  - left. pose proof (gstep_fresh _ _ _ Hwf Hstep). lia.
  - by eapply gstep_owner.
  - destruct (gstep_handle _ _ _ _ _ Hwf Hstep Hx) as [?|?]; [|done]. right. right. by left.
  - destruct (gstep_manager _ _ _ _ _ Hstep Hmgr) as [Hm|?]; [|done].
    destruct (gstep_context _ _ _ _ _ Hstep Hp Ha) as (gp0 & Hp0 & Hc). rewrite Hc in Hm.
    right. right. right. eauto.
Qed.

(** In a run of steps caused by [a], a process gets a handle only for a node
    that [a] could reach at the start. *)
Lemma gsteps_handle a g g' p n :
  graph_wf g -> a < g_fresh g -> gsteps a g g' ->
  is_Some (handle g' p n) -> is_Some (handle g p n) \/ reaches g a n.
Proof.
  intros Hwf Ha Hs. induction Hs as [|g g1 g' Hstep _ IH]; [by left|]. intros Hx.
  pose proof (gstep_fresh _ _ _ Hwf Hstep).
  destruct (IH ltac:(by eapply gstep_wf) ltac:(lia) Hx) as [Hx1|Hr].
  - by eapply gstep_handle.
  - right. by eapply gstep_reaches.
Qed.
