(* ===== verification/Frames.v ===== *)
(** The view of the driver's state as a reference graph, the side conditions
    the driver keeps next to it, and the operations that leave the graph
    alone: queues, wakes, transactions, buffers and the observers. *)

From S2P Require Import Prelude Host Uapi Alloc Trace Shadow State Transaction Release Graph.
From Stdlib Require Import ZArith Lia.
From Stdlib Require Import Strings.Byte.
From stdpp Require Import base numbers list gmap sorting relations.

Open Scope Z_scope.

(** ** The view *)

Definition ref_view (r : Ref) : GRef := mkGRef (r_node r) (r_strong r) (r_weak r).

Definition proc_view (p : Proc) : GProc :=
  mkGProc (p_context p) (p_nodes p) (ref_view <$> p_refs_by_desc p) (p_refs_by_node p).

Definition node_view (n : Node) : GNode :=
  mkGNode (n_proc n) (n_ptr n) (n_internal_strong_refs n) (n_refs n).

Definition graph (s : State) : Graph :=
  mkGraph (proc_view <$> st_procs s) (node_view <$> st_nodes s) (c_mgr_node <$> st_contexts s)
    (st_next_id s + 1).

(** ** Side conditions *)

(** The item waits in the process's queue or in one of its threads'. *)
Definition queued (P : Proc) (w : Work) : Prop :=
  w ∈ p_todo P \/ exists t T, p_threads P !! t = Some T /\ w ∈ t_todo T.

(** What holds next to the graph.  [dying] is a process being released, whose
    queues are about to be dropped; [top] bounds the transactions that are on
    a stack. *)
Record Side (dying : option ProcId) (top : Z) (s : State) : Prop := {
  (** reference changes are reported to the owner *)
  side_work q P id n :
    st_procs s !! q = Some P -> dying <> Some q -> queued P (WNode id) ->
    st_nodes s !! id = Some n -> n_proc n = Some q;
  side_queued q P id : st_procs s !! q = Some P -> queued P (WNode id) -> id <= st_next_id s;
  side_alloc q P a : st_procs s !! q = Some P -> p_alloc P = Some a -> Allocator_wf a;
  (** the stacks are built from transactions that exist or existed, and lead
      to older ones *)
  side_top : top <= st_next_id s;
  side_stack q t T x : thread_of s q t = Some T -> t_transaction_stack T = Some x -> x <= top;
  side_txn id x : st_txns s !! id = Some x -> id <= st_next_id s;
  side_from id x q : st_txns s !! id = Some x -> x_from_parent x = Some q -> q < id /\ q <= top;
  side_to id x q : st_txns s !! id = Some x -> x_to_parent x = Some q -> q <= top;
}.

(** [frames m]: [m] keeps the side conditions and does not touch the graph. *)
Definition frames {A} (dying : option ProcId) (top : Z) (m : M State A) : Prop :=
  forall s, Side dying top s ->
    wp True m (fun _ s' => Side dying top s' /\ graph s' = graph s) s.

Create HintDb frames.

(** ** Updates that the view does not see *)

Lemma fmap_alter_id {A B} (g : A -> B) f i (m : gmap Z A) :
  (forall x, g (f x) = g x) -> g <$> alter f i m = g <$> m.
Proof.
  intros Hf. apply map_eq. intros j. rewrite !lookup_fmap.
  destruct (decide (i = j)) as [->|]; [|by rewrite lookup_alter_ne].
  rewrite lookup_alter_eq. destruct (m !! j); simpl; [by rewrite Hf|done].
Qed.

Lemma fmap_alter_comm {A B} (g : A -> B) f f' i (m : gmap Z A) :
  (forall x, m !! i = Some x -> g (f x) = f' (g x)) -> g <$> alter f i m = alter f' i (g <$> m).
Proof.
  intros Hf. apply map_eq. intros j. rewrite !lookup_fmap.
  destruct (decide (i = j)) as [->|]; [|by rewrite !lookup_alter_ne, lookup_fmap].
  rewrite !lookup_alter_eq, lookup_fmap. destruct (m !! j) as [x|] eqn:Hx; simpl; [by rewrite Hf|done].
Qed.

Lemma graph_alter_proc p f s :
  (forall x, proc_view (f x) = proc_view x) -> graph (alter_proc p f s) = graph s.
Proof. intros Hf. unfold graph. simpl. by rewrite fmap_alter_id. Qed.

Lemma graph_alter_thread p t f s : graph (alter_thread p t f s) = graph s.
Proof. by apply graph_alter_proc. Qed.

Lemma graph_alter_node n f s :
  (forall x, node_view (f x) = node_view x) -> graph (alter_node n f s) = graph s.
Proof. intros Hf. unfold graph. simpl. by rewrite fmap_alter_id. Qed.

Lemma graph_alter_buffer p o f s : graph (alter_buffer p o f s) = graph s.
Proof. by apply graph_alter_proc. Qed.

Section frames.
Context (dying : option ProcId) (top : Z).

(** A state that differs in nothing the side conditions are about. *)
Lemma Side_ext s s' :
  st_procs s' = st_procs s -> st_nodes s' = st_nodes s -> st_txns s' = st_txns s ->
  st_next_id s' = st_next_id s -> Side dying top s -> Side dying top s'.
Proof.
  intros Hp Hn Ht Hx Hs.
  split; unfold thread_of; rewrite ?Hp, ?Hn, ?Ht, ?Hx; apply Hs.
Qed.

(** Work on a node that the process owns. *)
Definition own_work (s : State) (p : ProcId) (id : NodeId) : Prop :=
  id <= st_next_id s /\ forall n, st_nodes s !! id = Some n -> n_proc n = Some p.

(** An update of a process that adds work only for its own nodes, keeps its
    allocator well formed and pushes nothing from beyond [top]. *)
Lemma Side_alter_proc p f s :
  (forall P id, st_procs s !! p = Some P -> queued (f P) (WNode id) ->
     queued P (WNode id) \/ own_work s p id) ->
  (forall P a, st_procs s !! p = Some P -> p_alloc (f P) = Some a -> p_alloc P = Some a \/ Allocator_wf a) ->
  (forall P t T x, st_procs s !! p = Some P -> p_threads (f P) !! t = Some T ->
     t_transaction_stack T = Some x ->
     x <= top \/ exists T', p_threads P !! t = Some T' /\ t_transaction_stack T' = Some x) ->
  Side dying top s -> Side dying top (alter_proc p f s).
Proof.
  intros Hq Ha Ht Hs. split; simpl; try apply Hs.
  - intros q P id n [[_ HP]|(-> & P0 & HP & ->)]%lookup_alter_cases Hd Hw.
    + by eapply side_work.
    + destruct (Hq _ _ HP Hw) as [?|[_ ?]]; [by eapply side_work|auto].
  - intros q P id [[_ HP]|(-> & P0 & HP & ->)]%lookup_alter_cases Hw.
    + by eapply side_queued.
    + destruct (Hq _ _ HP Hw) as [?|[? _]]; [by eapply side_queued|done].
  - intros q P a [[_ HP]|(-> & P0 & HP & ->)]%lookup_alter_cases Hal.
    + by eapply side_alloc.
    + destruct (Ha _ _ HP Hal); [by eapply side_alloc|done].
  - intros q t T x HT Hx. unfold thread_of in HT. simpl in HT.
    apply bind_Some in HT as (P & HP & HT).
    apply lookup_alter_cases in HP as [[_ HP]|(-> & P0 & HP & ->)].
    + eapply side_stack; [done| |done]. unfold thread_of. by rewrite HP.
    + destruct (Ht _ _ _ _ HP HT Hx) as [?|(T' & HT' & Hx')]; [done|].
      eapply side_stack; [done| |done]. unfold thread_of. by rewrite HP.
Qed.

Lemma Side_alter_thread p t f s :
  (forall T id, thread_of s p t = Some T -> WNode id ∈ t_todo (f T) ->
     WNode id ∈ t_todo T \/ own_work s p id) ->
  (forall T x, thread_of s p t = Some T -> t_transaction_stack (f T) = Some x ->
     x <= top \/ t_transaction_stack T = Some x) ->
  Side dying top s -> Side dying top (alter_thread p t f s).
Proof.
  intros Hq Ht Hs. unfold thread_of in *. apply Side_alter_proc; [| | |done].
  - intros P id HP [Hw|(t' & T & HT & Hw)]; [by left; left|]. simpl in HT.
    apply lookup_alter_cases in HT as [[_ HT]|(-> & T0 & HT & ->)]; [left; right; by eauto|].
    destruct (Hq T0 id) as [?|?]; [by rewrite HP|done|left; right; eauto|by right].
  - intros P a _ Ha. by left.
  - intros P t' T x HP HT Hx. simpl in HT.
    apply lookup_alter_cases in HT as [[_ HT]|(-> & T0 & HT & ->)]; [by eauto|].
    destruct (Ht T0 x) as [?|?]; eauto. by rewrite HP.
Qed.

(** Node work for the owner. *)
Lemma Side_enqueue_thread_node p t id s :
  own_work s p id -> Side dying top s ->
  Side dying top (alter_thread p t (set_field t_todo (fun q => q ++ [WNode id])) s).
Proof.
  intros Hid Hs. apply Side_alter_thread; [|by auto|done].
  intros T i _. simpl. intros [?|Hin]%elem_of_app; [by left|right].
  apply list_elem_of_singleton in Hin. by simplify_eq.
Qed.

Lemma Side_enqueue_proc_node p id s :
  own_work s p id -> Side dying top s ->
  Side dying top (alter_proc p (set_field p_todo (fun q => q ++ [WNode id])) s).
Proof.
  intros Hid Hs. apply Side_alter_proc; [|by auto|by eauto|done].
  intros P i _ [Hin|?]; simpl in *; [|by left; right].
  apply elem_of_app in Hin as [?|Hin]; [by left; left|right].
  apply list_elem_of_singleton in Hin. by simplify_eq.
Qed.

Lemma Side_alter_node n f s :
  (forall x, st_nodes s !! n = Some x -> n_proc (f x) = n_proc x) ->
  Side dying top s -> Side dying top (alter_node n f s).
Proof.
  intros Hf Hs. split; simpl; try apply Hs.
  intros q P id x HP Hd Hw [[_ Hx]|(-> & x0 & Hx & ->)]%lookup_alter_cases.
  - by eapply side_work.
  - rewrite Hf by done. by eapply side_work.
Qed.

Lemma Side_alter_txn id f s :
  (forall x q, st_txns s !! id = Some x -> x_from_parent (f x) = Some q ->
     (q < id /\ q <= top) \/ x_from_parent x = Some q) ->
  (forall x q, st_txns s !! id = Some x -> x_to_parent (f x) = Some q ->
     q <= top \/ x_to_parent x = Some q) ->
  Side dying top s -> Side dying top (alter_txn id f s).
Proof.
  intros Hfrom Hto Hs. split; simpl; try apply Hs.
  - intros i x [[_ Hx]|(-> & x0 & Hx & _)]%lookup_alter_cases; by eapply side_txn.
  - intros i x q [[_ Hx]|(-> & x0 & Hx & ->)]%lookup_alter_cases Hq; [by eapply side_from|].
    destruct (Hfrom _ _ Hx Hq); [done|by eapply side_from].
  - intros i x q [[_ Hx]|(-> & x0 & Hx & ->)]%lookup_alter_cases Hq; [by eapply side_to|].
    destruct (Hto _ _ Hx Hq); [done|by eapply side_to].
Qed.

Lemma Side_delete_txn id s : Side dying top s -> Side dying top (s <| st_txns ::= delete id |>).
Proof.
  intros Hs. split; simpl; try apply Hs.
  - intros i x [_ Hx]%lookup_delete_Some. by eapply side_txn.
  - intros i x q [_ Hx]%lookup_delete_Some. by eapply side_from.
  - intros i x q [_ Hx]%lookup_delete_Some. by eapply side_to.
Qed.

(** ** Composition *)

Abbreviation frames := (frames dying top).

Lemma frames_wp {A} (m : M State A) s :
  frames m -> Side dying top s -> wp True m (fun _ s' => Side dying top s' /\ graph s' = graph s) s.
Proof. auto. Qed.

Lemma frames_ret {A} (a : A) : frames (mret a).
Proof. intros s Hs. by apply wp_ret. Qed.

Lemma frames_bind {A B} (m : M State A) (f : A -> M State B) :
  frames m -> (forall a, frames (f a)) -> frames (m ≫= f).
Proof.
  intros Hm Hf s Hs. apply wp_bind. eapply wp_mono; [by apply Hm|].
  intros a s1 [Hs1 Hg1]. eapply wp_mono; [by apply Hf|].
  intros b s2 [Hs2 Hg2]. split; [done|congruence].
Qed.

Lemma frames_get : frames get.
Proof. intros s Hs. by apply wp_get. Qed.

Lemma frames_panic {A} : frames (panic (A := A)).
Proof. done. Qed.

Lemma frames_call {A} (o : outcome A) : NoSpin o -> frames (call o).
Proof. intros Ho s Hs. by apply wp_call. Qed.

Lemma frames_modify f :
  (forall s, Side dying top s -> Side dying top (f s) /\ graph (f s) = graph s) -> frames (modify f).
Proof. intros Hf s Hs. by apply wp_modify, Hf. Qed.

Lemma frames_for_each {A} (body : A -> M State unit) l :
  (forall a, frames (body a)) -> frames (for_each body l).
Proof.
  intros Hb. induction l as [|a l IH]; [apply frames_ret|]. by apply frames_bind.
Qed.

End frames.

#[export] Hint Resolve frames_ret frames_get frames_panic frames_for_each : frames.
#[export] Hint Extern 1 (frames _ _ (call _)) => apply frames_call; apply _ : frames.

(** Takes a computation apart, up to the updates it is made of. *)
Ltac frames_step :=
  lazymatch goal with
  | |- frames _ _ (mbind _ _) => apply frames_bind; [|intros ?]
  | |- frames _ _ (match ?x with _ => _ end) => destruct x eqn:?
  | |- frames _ _ (let _ := _ in _) => cbv zeta
  | |- frames _ _ (for_each _ _) => apply frames_for_each; intros ?
  end.
Ltac frames_tac := repeat first [ solve [ eauto with frames ] | frames_step ].

(** ** The updates the driver is made of *)

Definition is_node (w : Work) : bool := match w with WNode _ => true | _ => false end.

Lemma node_in_app q w id : is_node w = false -> WNode id ∈ q ++ [w] -> WNode id ∈ q.
Proof. intros Hw [?|Hin]%elem_of_app; [done|]. apply list_elem_of_singleton in Hin. by subst. Qed.

Lemma elem_of_remove_first x w q : x ∈ remove_first w q -> x ∈ q.
Proof.
  induction q as [|y q IH]; simpl; [done|]. case_decide; [by right|].
  intros [->|?]%elem_of_cons; [by left|right; auto].
Qed.

Lemma elem_of_remove_last x p q : x ∈ remove_last p q -> x ∈ q.
Proof.
  induction q as [|y q IH]; simpl; [done|]. destruct (existsb p q).
  - intros [->|?]%elem_of_cons; [by left|right; auto].
  - destruct (p y); [by right|done].
Qed.

Section updates.
Context (dying : option ProcId) (top : Z).
Abbreviation frames := (frames dying top).

(** The fields neither the graph nor the side conditions look at. *)
Definition unseen (f : State -> State) : Prop :=
  forall s, st_procs (f s) = st_procs s /\ st_nodes (f s) = st_nodes s /\ st_txns (f s) = st_txns s /\
    st_contexts (f s) = st_contexts s /\ st_next_id (f s) = st_next_id s.

Lemma frames_unseen f : unseen f -> frames (modify f).
Proof.
  intros Hf. apply frames_modify. intros s Hs. destruct (Hf s) as (Hp & Hn & Ht & Hc & Hx).
  split; [by apply (Side_ext _ _ s)|]. unfold graph. by rewrite Hp, Hn, Hc, Hx.
Qed.

Lemma frames_thread p t f :
  (forall T id, WNode id ∈ t_todo (f T) -> WNode id ∈ t_todo T) ->
  (forall T x, t_transaction_stack (f T) = Some x -> t_transaction_stack T = Some x \/ x <= top) ->
  frames (modify (alter_thread p t f)).
Proof.
  intros Hq Ht. apply frames_modify. intros s Hs. split; [|apply graph_alter_thread].
  apply Side_alter_thread; [intros; left; by eauto| |done]. intros T x _ Hx. destruct (Ht _ _ Hx); auto.
Qed.

Lemma frames_proc p f :
  (forall P, proc_view (f P) = proc_view P) ->
  (forall P id, WNode id ∈ p_todo (f P) -> WNode id ∈ p_todo P) ->
  (forall P, p_threads (f P) ⊆ p_threads P) -> (forall P, p_alloc (f P) = p_alloc P) ->
  frames (modify (alter_proc p f)).
Proof.
  intros Hv Hq Ht Ha. apply frames_modify. intros s Hs. split; [|by apply graph_alter_proc].
  assert (forall P t T, p_threads (f P) !! t = Some T -> p_threads P !! t = Some T) as Hth.
  { intros P t T HT. by eapply lookup_weaken. }
  apply Side_alter_proc; [| | |done].
  - intros P id _ [Hw|(t & T & HT & Hw)]; left; [left; auto|right; eauto].
  - intros P a _. rewrite Ha. by left.
  - intros P t T x _ HT Hx. right. eauto.
Qed.

Lemma frames_node n f :
  (forall x, node_view (f x) = node_view x) -> frames (modify (alter_node n f)).
Proof.
  intros Hf. apply frames_modify. intros s Hs. split; [|by apply graph_alter_node].
  apply Side_alter_node; [|done]. intros x _. by specialize (Hf x) as [= ? _ _ _].
Qed.

Lemma frames_txn id f :
  (forall x, x_from_parent (f x) = x_from_parent x) -> (forall x, x_to_parent (f x) = x_to_parent x) ->
  frames (modify (alter_txn id f)).
Proof.
  intros Hf Ht. apply frames_modify. intros s Hs. split; [|done].
  apply Side_alter_txn; [| |done]; intros x q _; rewrite ?Hf, ?Ht; by right.
Qed.

Lemma frames_delete_txn id : frames (modify (set_field st_txns (delete id))).
Proof. apply frames_modify. intros s Hs. split; [by apply Side_delete_txn|done]. Qed.

Lemma frames_death id f : frames (modify (alter_death id f)).
Proof. by apply frames_unseen. Qed.

Lemma frames_the_proc p : frames (the_proc p).
Proof. apply frames_bind; [apply frames_get|]. intros s. apply frames_call, _. Qed.
Lemma frames_the_thread p t : frames (the_thread p t).
Proof. apply frames_bind; [apply frames_get|]. intros s. apply frames_call, _. Qed.
Lemma frames_the_node n : frames (the_node n).
Proof. apply frames_bind; [apply frames_get|]. intros s. apply frames_call, _. Qed.
Lemma frames_the_txn id : frames (the_txn id).
Proof. apply frames_bind; [apply frames_get|]. intros s. apply frames_call, _. Qed.
Lemma frames_the_death id : frames (the_death id).
Proof. apply frames_bind; [apply frames_get|]. intros s. apply frames_call, _. Qed.
Lemma frames_the_context c : frames (the_context c).
Proof. apply frames_bind; [apply frames_get|]. intros s. apply frames_call, _. Qed.
Lemma frames_the_buffer p o : frames (the_buffer p o).
Proof. apply frames_bind; [apply frames_get|]. intros s. apply frames_call, _. Qed.

End updates.

#[export] Hint Resolve frames_the_proc frames_the_thread frames_the_node frames_the_txn frames_the_death
  frames_the_context frames_the_buffer frames_death frames_delete_txn : frames.

(** Side conditions of the updates: the queue keeps its node items, the other
    fields are as they were. *)
Ltac update_side :=
  intros; simpl in *;
  first [ done
        | solve [ auto ]
        | eapply node_in_app; [|eassumption]; done
        | eapply elem_of_remove_first; eassumption
        | eapply elem_of_remove_last; eassumption
        | apply delete_subseteq
        | solve [ repeat case_match; simpl in *; auto ] ].

#[export] Hint Extern 2 (frames _ _ (modify (alter_thread _ _ _))) =>
  apply frames_thread; update_side : frames.
#[export] Hint Extern 2 (frames _ _ (modify (alter_proc _ _))) =>
  apply frames_proc; update_side : frames.
#[export] Hint Extern 2 (frames _ _ (modify (alter_node _ _))) =>
  apply frames_node; update_side : frames.
#[export] Hint Extern 2 (frames _ _ (modify (alter_txn _ _))) =>
  apply frames_txn; update_side : frames.
#[export] Hint Extern 3 (frames _ _ (modify _)) => apply frames_unseen; by intros ? : frames.

(** Lookups that panic when there is nothing. *)
Lemma wp_the_proc T p Q s :
  (forall P, st_procs s !! p = Some P -> Q P s) -> wpx True T (the_proc p) Q s.
Proof. intros HQ. unfold the_proc. repeat wp_step. by apply HQ, unwrap_Done. Qed.
Lemma wp_the_thread T p t Q s :
  (forall x, thread_of s p t = Some x -> Q x s) -> wpx True T (the_thread p t) Q s.
Proof. intros HQ. unfold the_thread. repeat wp_step. by apply HQ, unwrap_Done. Qed.
Lemma wp_the_node T n Q s :
  (forall x, st_nodes s !! n = Some x -> Q x s) -> wpx True T (the_node n) Q s.
Proof. intros HQ. unfold the_node. repeat wp_step. by apply HQ, unwrap_Done. Qed.
Lemma wp_the_txn T id Q s :
  (forall x, st_txns s !! id = Some x -> Q x s) -> wpx True T (the_txn id) Q s.
Proof. intros HQ. unfold the_txn. repeat wp_step. by apply HQ, unwrap_Done. Qed.
Lemma wp_the_death T id Q s :
  (forall x, st_deaths s !! id = Some x -> Q x s) -> wpx True T (the_death id) Q s.
Proof. intros HQ. unfold the_death. repeat wp_step. by apply HQ, unwrap_Done. Qed.
Lemma wp_the_context T c Q s :
  (forall x, st_contexts s !! c = Some x -> Q x s) -> wpx True T (the_context c) Q s.
Proof. intros HQ. unfold the_context. repeat wp_step. by apply HQ, unwrap_Done. Qed.

(** Lookups whose result is known. *)
Lemma wp_the_proc_eq E T p P (Q : Proc -> State -> Prop) s :
  st_procs s !! p = Some P -> Q P s -> wpx E T (the_proc p) Q s.
Proof. intros HP HQ. unfold the_proc. apply wp_bind, wp_get. by rewrite HP. Qed.
Lemma wp_the_node_eq E T n x (Q : Node -> State -> Prop) s :
  st_nodes s !! n = Some x -> Q x s -> wpx E T (the_node n) Q s.
Proof. intros Hn HQ. unfold the_node. apply wp_bind, wp_get. by rewrite Hn. Qed.
Lemma wp_unwrap_eq {S A} E T (o : option A) a (Q : A -> S -> Prop) s :
  o = Some a -> Q a s -> wpx E T (call (unwrap o)) Q s.
Proof. by intros ->. Qed.

(** One step of symbolic execution, lookups included. *)
Ltac wp_go :=
  lazymatch goal with
  | |- wpx True _ (the_proc _) _ _ => apply wp_the_proc; intros ? ?
  | |- wpx True _ (the_thread _ _) _ _ => apply wp_the_thread; intros ? ?
  | |- wpx True _ (the_node _) _ _ => apply wp_the_node; intros ? ?
  | |- wpx True _ (the_txn _) _ _ => apply wp_the_txn; intros ? ?
  | |- wpx True _ (the_death _) _ _ => apply wp_the_death; intros ? ?
  | |- wpx True _ (the_context _) _ _ => apply wp_the_context; intros ? ?
  | _ => wp_step
  end.

(** A loop keeps what its body keeps. *)
Lemma wp_for_each {S A} E T (body : A -> M S unit) l (I : S -> Prop) s :
  (forall x s, I s -> wpx E T (body x) (fun _ => I) s) -> I s -> wpx E T (for_each body l) (fun _ => I) s.
Proof.
  intros Hb. revert s. induction l as [|x l IH]; intros s Hs; simpl; [by apply wp_ret|].
  apply wp_bind. eapply wp_mono; [by apply Hb|]. intros ? s1 Hs1. by apply IH.
Qed.

(** ** Queues and wakes *)

Section queues.
Context `{Env} (dying : option ProcId) (top : Z).
Abbreviation frames := (frames dying top).

Lemma frames_instant_now : frames instant_now.
Proof.
  intros s Hs. unfold instant_now. repeat wp_step. split; [by apply (Side_ext _ _ s)|done].
Qed.

Lemma frames_take_wakes : frames take_wakes.
Proof.
  intros s Hs. unfold take_wakes. repeat wp_step. split; [by apply (Side_ext _ _ s)|done].
Qed.

Lemma frames_deliver w : frames (PendingWakes_deliver w).
Proof. unfold PendingWakes_deliver. frames_tac. Qed.

Lemma frames_wake_waiter p t : frames (wake_waiter p t).
Proof. unfold wake_waiter. frames_tac. Qed.
Hint Resolve frames_wake_waiter : frames.

Lemma frames_wake_thread p t : frames (wake_thread p t).
Proof. unfold wake_thread. frames_tac. Qed.
Hint Resolve frames_wake_thread : frames.

Lemma frames_enqueue_thread p t w : is_node w = false -> frames (enqueue_thread_work p t w).
Proof. intros Hw. unfold enqueue_thread_work. frames_tac. Qed.

Lemma frames_enqueue_deferred p t w : is_node w = false -> frames (enqueue_deferred_thread_work p t w).
Proof. intros Hw. unfold enqueue_deferred_thread_work. frames_tac. Qed.

Lemma frames_enqueue_proc p w : is_node w = false -> frames (enqueue_proc_work p w).
Proof. intros Hw. unfold enqueue_proc_work. frames_tac. Qed.

Lemma frames_remove_work l w : frames (remove_work l w).
Proof. unfold remove_work. frames_tac. Qed.
Hint Resolve frames_remove_work : frames.

Lemma frames_select_thread p : frames (select_thread p).
Proof. unfold select_thread. frames_tac. Qed.
Hint Resolve frames_select_thread : frames.

Lemma frames_wakeup_thread p t : frames (wakeup_thread p t).
Proof. unfold wakeup_thread. frames_tac. Qed.
Hint Resolve frames_wakeup_thread : frames.

Lemma frames_wakeup_proc p : frames (wakeup_proc p).
Proof. unfold wakeup_proc. frames_tac. Qed.

Lemma frames_dequeue_node n : frames (dequeue_node_work n).
Proof. unfold dequeue_node_work. frames_tac. Qed.

Lemma frames_dequeue_death d : frames (dequeue_death_work d).
Proof. unfold dequeue_death_work. frames_tac. Qed.

End queues.

#[export] Hint Resolve frames_instant_now frames_take_wakes frames_deliver frames_wake_waiter
  frames_wake_thread frames_remove_work frames_select_thread frames_wakeup_thread frames_wakeup_proc
  frames_dequeue_node frames_dequeue_death : frames.
#[export] Hint Extern 1 (frames _ _ (enqueue_thread_work _ _ _)) =>
  apply frames_enqueue_thread; done : frames.
#[export] Hint Extern 1 (frames _ _ (enqueue_deferred_thread_work _ _ _)) =>
  apply frames_enqueue_deferred; done : frames.
#[export] Hint Extern 1 (frames _ _ (enqueue_proc_work _ _)) =>
  apply frames_enqueue_proc; done : frames.

(** ** Transactions *)

Section transactions.
Context `{Env} (dying : option ProcId) (top : Z).
Abbreviation frames := (frames dying top).

Lemma frames_on_trace f : frames (on_trace f).
Proof. unfold on_trace. frames_tac. Qed.

Lemma frames_on_shadow f : frames (on_shadow f).
Proof.
  apply frames_unseen. intros s. destruct (st_shadow s) as [sh|]; [|done].
  by destruct (f (sh, st_sinks s)).
Qed.

Lemma frames_memory_write m o d : frames (memory_write m o d).
Proof. unfold memory_write. frames_tac. Qed.

Lemma frames_memory_clear m o l : frames (memory_clear m o l).
Proof. unfold memory_clear. frames_tac. Qed.

Lemma frames_remove_last_complete p t : frames (remove_last_complete p t).
Proof. unfold remove_last_complete. frames_tac. Qed.

Lemma frames_buffer p o f :
  (forall b, b_size (f b) = b_size b /\ b_is_async (f b) = b_is_async b) ->
  frames (modify (alter_buffer p o f)).
Proof.
  intros Hf. apply frames_modify. intros s Hs. split; [|apply graph_alter_buffer].
  apply Side_alter_proc; [| | |done].
  - intros P id _ [Hw|Hw]; left; [by left|by right].
  - intros P a HP (a0 & Ha & ->)%fmap_Some. right. apply Allocator_wf_alter; [done|].
    by eapply side_alloc.
  - intros P t T x _ HT Hx. eauto.
Qed.

Lemma frames_pop_transaction p t id : frames (pop_transaction p t id).
Proof.
  intros s Hs. unfold pop_transaction. wp_step. apply wp_get. cbv zeta. wp_step. apply wp_modify.
  assert (Hs1 : Side dying top (alter_thread p t (fun T =>
      if decide (t_transaction_stack T = Some id)
      then T <| t_transaction_stack := (x ← st_txns s !! id; x_from_parent x) |> else T) s)).
  { apply Side_alter_thread; [| |done].
    - intros T i _. case_decide; by left.
    - intros T q _. case_decide; [|by right]. simpl. intros (x & Hx & Hq)%bind_Some. left.
      by eapply side_from in Hq as [_ ?]. }
  eapply wp_mono; [eapply frames_txn; [done..|exact Hs1]|].
  intros _ s' [? Hg]. split; [done|]. by rewrite Hg, graph_alter_thread.
Qed.

End transactions.

#[export] Hint Resolve frames_on_trace frames_on_shadow frames_memory_write frames_memory_clear
  frames_remove_last_complete frames_pop_transaction : frames.
#[export] Hint Extern 2 (frames _ _ (modify (alter_buffer _ _ _))) =>
  apply frames_buffer; intros; split; done : frames.

Section failures.
Context `{Env} (dying : option ProcId) (top : Z).
Abbreviation frames := (frames dying top).

Lemma frames_free_transaction id : frames (free_transaction id).
Proof. unfold free_transaction. frames_tac. Qed.
Hint Resolve frames_free_transaction : frames.

Lemma frames_record p o r : frames (record p o r).
Proof. unfold record. frames_tac. Qed.

(** Freeing a transaction removes it, and no other. *)
Lemma free_transaction_txns id s :
  wp True (free_transaction id) (fun _ s' => st_txns s' = delete id (st_txns s)) s.
Proof.
  unfold free_transaction. wp_step. apply wp_get.
  destruct (st_txns s !! id) as [t|] eqn:Ht; [|apply wp_ret; by rewrite delete_id].
  wp_step. apply wp_modify. wp_step. apply wp_modify. wp_step.
  eapply (wp_mono _ _ _ (fun _ s' => st_txns s' = delete id (st_txns s))).
  { apply wp_modify. simpl. destruct (st_shadow s) as [sh|]; [|done]. by case_match. }
  intros [] s1 Hs1. destruct (x_to_proc t); [|by apply wp_ret].
  wp_step. apply wp_modify. destruct (x_buffer t); [by apply wp_modify|by apply wp_ret].
Qed.

(** The loop ends: every turn frees a transaction. *)
Lemma send_failed_reply_loop_ok fuel id cmd s :
  (size (st_txns s) < fuel)%nat -> Side dying top s ->
  wp True (send_failed_reply_loop fuel id cmd) (fun _ s' => Side dying top s' /\ graph s' = graph s) s.
Proof.
  revert id s. induction fuel as [|fuel IH]; intros id s Hfuel Hs; [lia|]. simpl.
  wp_step. apply wp_get. destruct (st_txns s !! id) as [t|] eqn:Ht; [|by apply wp_ret].
  cbv zeta.
  assert (wp True (free_transaction id;; match x_from_parent t with
    | Some n => send_failed_reply_loop fuel n cmd | None => mret tt end)
    (fun _ s' => Side dying top s' /\ graph s' = graph s) s) as Hup.
  { wp_step. eapply wp_mono.
    { apply wp_and; [by apply frames_free_transaction|apply free_transaction_txns]. }
    intros [] s1 [[Hs1 Hg1] Htx]. destruct (x_from_parent t); [|by apply wp_ret].
    eapply wp_mono; [apply IH; [|done]|by rewrite Hg1].
    rewrite Htx. pose proof (size_delete_lt _ _ _ Ht). lia. }
  destruct (x_from t) as [[p tid]|]; [|done].
  destruct (thread_exists s p tid); [|done]. apply frames_wp; [frames_tac|done].
Qed.

Lemma frames_send_failed_reply id cmd : frames (send_failed_reply id cmd).
Proof.
  intros s Hs. unfold send_failed_reply. wp_step. apply wp_get. apply send_failed_reply_loop_ok; [lia|done].
Qed.
Hint Resolve frames_send_failed_reply : frames.

Lemma frames_cleanup_transaction id cmd : frames (cleanup_transaction id cmd).
Proof. unfold cleanup_transaction. frames_tac. Qed.

End failures.

#[export] Hint Resolve frames_free_transaction frames_record frames_send_failed_reply
  frames_cleanup_transaction : frames.

(** ** Release *)

Section release.
Context `{Env} (dying : option ProcId) (top : Z).
Abbreviation frames := (frames dying top).

Lemma frames_release_one w : frames (release_one w).
Proof. unfold release_one. frames_tac. Qed.

Lemma frames_release_work l : frames (release_work l).
Proof. apply frames_for_each, frames_release_one. Qed.
Hint Resolve frames_release_work : frames.

Lemma frames_notify_holder n p : frames (notify_holder n p).
Proof. unfold notify_holder. frames_tac. Qed.

(** The ends of transactions that a thread is at. *)
Definition serves (p : ProcId) (t : Tid) (x : Txn) : bool :=
  bool_decide (x_to_thread x = Some t) && bool_decide (x_to_proc x = Some p).
Definition sent_by (p : ProcId) (t : Tid) (x : Txn) : bool := bool_decide (x_from x = Some (p, t)).
Definition ends (p : ProcId) (t : Tid) (txns : gmap TxnId Txn) : nat :=
  (count (serves p t) txns + count (sent_by p t) txns)%nat.

Lemma leave_served_ends p t id x s :
  st_txns s !! id = Some x -> serves p t x = true ->
  wp True (leave_served p id x) (fun _ s' => (ends p t (st_txns s') < ends p t (st_txns s))%nat) s.
Proof.
  intros Hx Hserve. unfold leave_served. wp_step. apply wp_modify. wp_step. apply wp_modify.
  pose (f := fun y : Txn => y <| x_to_proc := None |> <| x_to_thread := None |> <| x_buffer := None |>).
  pose proof (count_alter (serves p t) f _ _ _ Hx) as Hc1.
  pose proof (count_alter (sent_by p t) f _ _ _ Hx) as Hc2.
  rewrite Hserve in Hc1. change (sent_by p t (f x)) with (sent_by p t x) in Hc2.
  change (serves p t (f x)) with false in Hc1. cbv iota in Hc1.
  assert (ends p t (alter f id (st_txns s)) < ends p t (st_txns s))%nat by (unfold ends; lia).
  by destruct (x_buffer x); [apply wp_modify|apply wp_ret].
Qed.

(** The walk ends: every turn but the last leaves one end of a transaction. *)
Lemma unwind_stack_ok fuel p t cursor active s :
  (ends p t (st_txns s) < fuel)%nat -> Side dying top s ->
  wp True (unwind_stack fuel p t cursor active) (fun _ s' => Side dying top s' /\ graph s' = graph s) s.
Proof.
  revert cursor active s. induction fuel as [|fuel IH]; intros cursor active s Hf Hs; [lia|].
  destruct cursor as [id|]; simpl; [|by apply wp_ret].
  wp_step. wp_step. wp_step. apply wp_get.
  destruct (st_txns s !! id) as [x|] eqn:Hx; [|by apply wp_ret].
  change (bool_decide _ && bool_decide _) with (serves p t x).
  change (bool_decide (x_from x = _)) with (sent_by p t x).
  destruct (serves p t x) eqn:Hserve; [|destruct (sent_by p t x) eqn:Hsent; [|by apply wp_ret]].
  - wp_step. eapply wp_mono.
    { apply wp_and; [apply frames_wp; [|done]|by apply leave_served_ends].
      unfold leave_served. frames_tac. }
    intros [] s1 [[Hs1 Hg1] Hlt]. eapply wp_mono; [apply IH; [lia|done]|by rewrite Hg1].
  - wp_step. apply wp_modify.
    pose (f := set_field x_from (fun _ => None)).
    pose proof (count_alter (serves p t) f _ _ _ Hx) as Hc1.
    pose proof (count_alter (sent_by p t) f _ _ _ Hx) as Hc2.
    rewrite Hsent in Hc2. change (serves p t (f x)) with (serves p t x) in Hc1.
    change (sent_by p t (f x)) with false in Hc2. cbv iota in Hc2.
    destruct (frames_txn dying top id f ltac:(done) ltac:(done) s Hs) as [Hs1 Hg1].
    assert (ends p t (alter f id (st_txns s)) < fuel)%nat by (unfold ends in *; lia).
    eapply wp_mono; [by apply IH|]. intros ? s2 [? ->]. by split.
Qed.

Lemma frames_unwind p t stack : frames (unwind p t stack).
Proof.
  intros s Hs. unfold unwind. wp_step. apply wp_get. apply unwind_stack_ok; [|done]. unfold ends.
  pose proof (count_le_size (serves p t) (st_txns s)).
  pose proof (count_le_size (sent_by p t) (st_txns s)). lia.
Qed.
Hint Resolve frames_unwind : frames.

Lemma frames_thread_release p t : frames (thread_release p t).
Proof. unfold thread_release. frames_tac. Qed.

End release.

#[export] Hint Resolve frames_release_one frames_release_work frames_notify_holder
  frames_thread_release : frames.
