(* ===== verification/Refinement.v ===== *)
(** The reference rules of [state.rs] implement the graph of [Graph.v]: every
    operation on nodes and handles is a run of graph steps. *)

From S2P Require Import Prelude Host Uapi Alloc Trace Shadow State Transaction Release Graph Frames.
From Stdlib Require Import ZArith Lia.
From stdpp Require Import base numbers list gmap sorting relations.

Open Scope Z_scope.

(** The invariant of the driver. *)
Record Inv (dying : option ProcId) (top : Z) (s : State) : Prop := {
  inv_graph : graph_wf (graph s);
  inv_side : Side dying top s;
}.

(** [tracks a m]: run on behalf of [a], [m] keeps the invariant and takes the
    graph through steps that [a] may cause. *)
Definition tracks {A} (a : ProcId) (dying : option ProcId) (top : Z) (m : M State A) : Prop :=
  forall s, Inv dying top s ->
    wp True m (fun _ s' => Inv dying top s' /\ gsteps a (graph s) (graph s')) s.

Create HintDb tracks.

(** ** Graph facts *)

Lemma lookup_graph_proc s p P : st_procs s !! p = Some P -> g_procs (graph s) !! p = Some (proc_view P).
Proof. intros HP. unfold graph. simpl. by rewrite lookup_fmap, HP. Qed.

Lemma lookup_graph_node s n x : st_nodes s !! n = Some x -> g_nodes (graph s) !! n = Some (node_view x).
Proof. intros Hn. unfold graph. simpl. by rewrite lookup_fmap, Hn. Qed.

Lemma lookup_graph_node_inv s n gn :
  g_nodes (graph s) !! n = Some gn -> exists x, st_nodes s !! n = Some x /\ gn = node_view x.
Proof. unfold graph. simpl. rewrite lookup_fmap. intros (x & Hx & ->)%fmap_Some. eauto. Qed.

Lemma graph_alter_node_strong s n f k :
  (forall x, st_nodes s !! n = Some x -> node_view (f x) = (node_view x) <| gn_strong ::= Z.add k |>) ->
  graph (alter_node n f s) = add_strong n k (graph s).
Proof.
  intros Hf. unfold graph, add_strong, set_field. simpl. f_equal. by apply fmap_alter_comm.
Qed.

Lemma node_id_le dying top s n x : Inv dying top s -> st_nodes s !! n = Some x -> n <= st_next_id s.
Proof.
  intros [[_ _ Hi] _] Hn%lookup_graph_node.
  pose proof (gw_node_id _ Hi n ltac:(eauto)) as Hlt. simpl in Hlt. lia.
Qed.

(** ** Composition *)

Section tracks.
Context (a : ProcId) (dying : option ProcId) (top : Z).
Abbreviation tracks := (tracks a dying top).

Lemma tracks_wp {A} (m : M State A) s :
  tracks m -> Inv dying top s ->
  wp True m (fun _ s' => Inv dying top s' /\ gsteps a (graph s) (graph s')) s.
Proof. auto. Qed.

(** The rest of a run that has got to [s]. *)
Lemma tracks_after {A} (m : M State A) g s :
  tracks m -> gsteps a g (graph s) -> Inv dying top s ->
  wp True m (fun _ s' => Inv dying top s' /\ gsteps a g (graph s')) s.
Proof. intros Hm Hg Hs. eapply wp_mono; [by apply Hm|]. intros x s' [? ?]. split; [done|by etrans]. Qed.

Lemma frames_tracks {A} (m : M State A) : frames dying top m -> tracks m.
Proof.
  intros Hm s [Hg Hs]. eapply wp_mono; [by apply Hm|]. intros x s' [Hs' Hg'].
  rewrite Hg'. split; [split; [by rewrite Hg'|done]|done].
Qed.

Lemma tracks_bind {A B} (m : M State A) (f : A -> M State B) :
  tracks m -> (forall x, tracks (f x)) -> tracks (m ≫= f).
Proof.
  intros Hm Hf s Hs. apply wp_bind. eapply wp_mono; [by apply Hm|].
  intros x s1 [Hs1 Hg1]. eapply wp_mono; [by apply Hf|].
  intros y s2 [Hs2 Hg2]. split; [done|by etrans].
Qed.

Lemma tracks_for_each {A} (body : A -> M State unit) l :
  (forall x, tracks (body x)) -> tracks (for_each body l).
Proof.
  intros Hb. induction l as [|x l IH]; [by apply frames_tracks, frames_ret|]. by apply tracks_bind.
Qed.

End tracks.

#[export] Hint Resolve tracks_for_each : tracks.
#[export] Hint Extern 5 (tracks _ _ _ _) => apply frames_tracks; solve [ eauto with frames ] : tracks.

Ltac tracks_step :=
  lazymatch goal with
  | |- tracks _ _ _ (mbind _ _) => apply tracks_bind; [|intros ?]
  | |- tracks _ _ _ (match ?x with _ => _ end) => destruct x eqn:?
  | |- tracks _ _ _ (let _ := _ in _) => cbv zeta
  | |- tracks _ _ _ (for_each _ _) => apply tracks_for_each; intros ?
  end.
Ltac tracks_tac := repeat first [ solve [ eauto with tracks ] | tracks_step ].

(** ** Identifiers *)

Section operations.
Context `{Env} (Hov : overflow_checks = true).
Context (a : ProcId) (dying : option ProcId) (top : Z).
Abbreviation tracks := (tracks a dying top).

Lemma Side_next s id :
  Side dying top s -> st_next_id s <= id -> Side dying top (s <| st_next_id := id |>).
Proof.
  intros Hs Hid. split; simpl; try apply Hs.
  - intros q P n HP Hw. pose proof (side_queued _ _ _ Hs _ _ _ HP Hw). lia.
  - pose proof (side_top _ _ _ Hs). lia.
  - intros i x Hx. pose proof (side_txn _ _ _ Hs _ _ Hx). lia.
Qed.

Lemma next_id_spec s (Q : Z -> State -> Prop) :
  Q (st_next_id s + 1) (s <| st_next_id := st_next_id s + 1 |>) -> wp True next_id Q s.
Proof.
  intros HQ. unfold next_id. repeat wp_step.
  by match goal with H : uadd _ _ _ = Done _ |- _ => apply uadd_checked in H as [-> _] end.
Qed.

Lemma tracks_next_id : tracks next_id.
Proof.
  intros s [Hg Hs]. apply next_id_spec.
  assert (gstep a (graph s) (graph (s <| st_next_id := st_next_id s + 1 |>))) as Hstep.
  { apply (gs_tick a (graph s) (st_next_id s + 1 + 1)). simpl. lia. }
  split; [|by apply rtc_once]. split; [by eapply gstep_wf|apply Side_next; [done|lia]].
Qed.

(** ** Nodes *)

Lemma graph_new_node proc ptr id c cookie flags s :
  graph (alter_proc proc (set_field p_nodes (insert ptr id))
    (s <| st_next_id := id |> <| st_nodes ::= insert id (Node_new proc c ptr cookie flags) |>)) =
  create proc ptr id (graph s).
Proof.
  unfold graph, create, set_field. simpl. f_equal.
  - by apply fmap_alter_comm.
  - by rewrite fmap_insert.
Qed.

(** A node nobody has work for yet. *)
Lemma Side_new_node id n s :
  Side dying top s -> st_next_id s < id -> Side dying top (s <| st_next_id := id |> <| st_nodes ::= insert id n |>).
Proof.
  intros Hs Hid. assert (Side dying top (s <| st_next_id := id |>)) as Hs' by (apply Side_next; [done|lia]).
  split; simpl; try apply Hs'.
  intros q P m x HP Hd Hw [[<- <-]|[_ Hx]]%lookup_insert_Some; [|by eapply side_work].
  pose proof (side_queued _ _ _ Hs _ _ _ HP Hw). lia.
Qed.

Lemma new_node_spec proc ptr cookie flags s (Q : NodeId -> State -> Prop) :
  Inv dying top s ->
  (forall id s' n, Inv dying top s' -> gsteps proc (graph s) (graph s') ->
     st_nodes s' !! id = Some n -> n_proc n = Some proc -> Q id s') ->
  wp True (new_node proc ptr cookie flags) Q s.
Proof.
  intros [Hg Hs] HQ. unfold new_node. wp_go. apply wp_the_proc. intros P HP.
  destruct (p_nodes P !! ptr) as [id|] eqn:Hid.
  - destruct (gw_owned _ (gw_owners _ Hg) _ _ ptr id (lookup_graph_proc _ _ _ HP)) as (gn & Hgn & Hown & _); [done|].
    apply lookup_graph_node_inv in Hgn as (n & Hn & ->). apply wp_ret. by eapply HQ.
  - wp_go. apply next_id_spec. repeat wp_go.
    assert (Hstep : gstep proc (graph s) (create proc ptr (st_next_id s + 1) (graph s))).
    { eapply gs_create; [by apply (lookup_graph_proc _ _ _ HP)|done|simpl; lia]. }
    eapply HQ; [| | |]; cycle 2.
    + simpl. apply lookup_insert_eq.
    + done.
    + split; [rewrite graph_new_node; by eapply gstep_wf|].
      apply Side_alter_proc; [by auto|by auto|by eauto|]. apply Side_new_node; [done|lia].
    + rewrite graph_new_node. by apply rtc_once.
Qed.

Lemma own_work_graph s s' p id : graph s' = graph s -> own_work s p id -> own_work s' p id.
Proof.
  intros Hg [Hid Hown]. split.
  - assert (g_fresh (graph s') = g_fresh (graph s)) as Hf by by rewrite Hg. simpl in Hf. lia.
  - intros n Hn%lookup_graph_node. rewrite Hg in Hn.
    apply lookup_graph_node_inv in Hn as (n0 & Hn0 & Hv). rewrite <- (Hown _ Hn0).
    by injection Hv.
Qed.

Lemma wp_is_context_manager n (Q : bool -> State -> Prop) s :
  (forall b, Q b s) -> wp True (is_context_manager n) Q s.
Proof. intros HQ. unfold is_context_manager. repeat wp_go; done. Qed.

Lemma count_ref_spec id strong internal s n (Q : unit -> State -> Prop) :
  Side dying top s -> st_nodes s !! id = Some n ->
  (forall s' n', Side dying top s' -> st_nodes s' !! id = Some n' -> n_proc n' = n_proc n ->
     st_next_id s' = st_next_id s ->
     graph s' = (if strong && internal then add_strong id 1 (graph s) else graph s) -> Q tt s') ->
  wp True (count_ref id strong internal n) Q s.
Proof.
  intros Hs Hn HQ. unfold count_ref. destruct strong, internal; simpl.
  - repeat wp_go. eapply HQ; [by apply Side_alter_node|simpl; by rewrite lookup_alter_eq, Hn|done|done|].
    apply graph_alter_node_strong. intros x Hx. simplify_eq.
    match goal with H : uadd _ _ _ = Done _ |- _ => apply uadd_checked in H as [-> _]; [|done] end.
    unfold node_view, set_field. simpl. f_equal. lia.
  - repeat wp_go. eapply HQ; [by apply Side_alter_node|simpl; by rewrite lookup_alter_eq, Hn|done|done|].
    by apply graph_alter_node.
  - apply wp_ret. by eapply HQ.
  - repeat wp_go. eapply HQ; [by apply Side_alter_node|simpl; by rewrite lookup_alter_eq, Hn|done|done|].
    by apply graph_alter_node.
Qed.

(** The owner's thread is told about a node. *)
Lemma report_ref_spec id strong target node s (Q : unit -> State -> Prop) :
  Side dying top s -> (forall p t, target = Some (p, t) -> own_work s p id) ->
  (forall s', Side dying top s' -> graph s' = graph s -> Q tt s') ->
  wp True (report_ref id strong target node) Q s.
Proof.
  intros Hs Hown HQ. unfold report_ref. destruct target as [[p t]|]; [|by apply wp_ret, HQ].
  specialize (Hown p t eq_refl).
  destruct (if strong then _ else _); [|by apply wp_ret, HQ].
  wp_go. eapply wp_mono; [apply frames_wp; [|exact Hs]|].
  { destruct strong; eauto with frames. }
  intros [] s1 [Hs1 Hg1]. apply (own_work_graph _ _ _ _ Hg1) in Hown.
  unfold enqueue_deferred_thread_work. repeat wp_go.
  assert (Hg : graph (alter_node id (set_field n_work_queued (fun _ => Some (WlThread p t))) s1) = graph s1)
    by by apply graph_alter_node.
  apply HQ; [|by rewrite graph_alter_thread, Hg].
  apply Side_enqueue_thread_node; [by eapply own_work_graph|by apply Side_alter_node].
Qed.

(** [inc_node] counts an internal strong reference, and changes nothing else
    in the graph. *)
Lemma inc_node_spec id strong internal target s n (Q : result unit Errno -> State -> Prop) :
  Side dying top s -> st_nodes s !! id = Some n -> id <= st_next_id s ->
  (forall p t, target = Some (p, t) -> n_proc n = Some p) ->
  (forall s', Side dying top s' ->
     graph s' = (if strong && internal then add_strong id 1 (graph s) else graph s) -> Q (Ok tt) s') ->
  (forall s' e, Side dying top s' -> graph s' = graph s -> Q (Err e) s') ->
  wp True (inc_node id strong internal target) Q s.
Proof.
  intros Hs Hn Hid Htarget HOk HErr. unfold inc_node. wp_go. apply wp_is_context_manager. intros is_mgr.
  wp_go. wp_go. rewrite Hn. wp_go; [by apply wp_ret, HErr|].
  wp_go. eapply count_ref_spec; [done..|]. intros s1 n1 Hs1 Hn1 Hp1 Hnext Hg1.
  wp_go. apply report_ref_spec; [done| |].
  - intros p t Ht. split; [lia|]. intros n2 Hn2. simplify_eq. rewrite Hp1. by eapply Htarget.
  - intros s2 Hs2 Hg2. apply wp_ret, HOk; [done|congruence].
Qed.

(** The graph after a reference to a node is dropped. *)
Definition drop_strong (id : NodeId) (strong internal : bool) (g : Graph) : Graph :=
  if strong && internal
  then g <| g_nodes ::= alter (set_field gn_strong (fun c => saturating_sub c 1)) id |>
  else g.

Lemma graph_drop_count id strong internal s :
  graph (alter_node id (drop_count strong internal) s) = drop_strong id strong internal (graph s).
Proof.
  unfold drop_strong. destruct strong, internal; simpl; try by apply graph_alter_node.
  unfold graph, set_field. simpl. f_equal. by apply fmap_alter_comm.
Qed.

Lemma n_proc_drop_count strong internal n : n_proc (drop_count strong internal n) = n_proc n.
Proof. by destruct strong, internal. Qed.

Lemma remove_node_spec id s (Q : unit -> State -> Prop) :
  Side dying top s ->
  (forall s', Side dying top s' -> graph s' = (graph s) <| g_nodes ::= delete id |> -> Q tt s') ->
  wp True (remove_node id) Q s.
Proof.
  intros Hs HQ. unfold remove_node. wp_go. apply HQ.
  - split; simpl; try apply Hs. intros q P m x HP Hd Hw [_ Hx]%lookup_delete_Some. by eapply side_work.
  - unfold graph, set_field. simpl. f_equal. by rewrite fmap_delete.
Qed.

Lemma graph_drop_entry p ptr s :
  graph (alter_proc p (set_field p_nodes (delete ptr)) s) =
  (graph s) <| g_procs ::= alter (set_field gp_nodes (delete ptr)) p |>.
Proof. unfold graph, set_field. simpl. f_equal. by apply fmap_alter_comm. Qed.

Lemma Side_drop_entry p ptr s :
  Side dying top s -> Side dying top (alter_proc p (set_field p_nodes (delete ptr)) s).
Proof. intros Hs. apply Side_alter_proc; [by auto|by auto|by eauto|done]. Qed.

(** A node without holders is collected. *)
Lemma free_unreferenced_spec id n s (Q : unit -> State -> Prop) :
  Side dying top s -> g_nodes (graph s) !! id = Some (node_view n) ->
  (forall s', Side dying top s' -> graph s' = graph s -> Q tt s') ->
  (forall s', Side dying top s' -> n_refs n = ∅ -> graph s' = collect id (graph s) -> Q tt s') ->
  wp True (free_unreferenced id n) Q s.
Proof.
  intros Hs Hn HQ HC. unfold free_unreferenced.
  destruct (bool_decide (n_refs n = ∅)) eqn:Hrefs; simpl; [|by apply wp_ret, HQ].
  apply bool_decide_eq_true in Hrefs.
  destruct ((n_local_strong_refs n =? 0) && _); [|by apply wp_ret, HQ].
  unfold collect in HC. rewrite Hn in HC. simpl in HC. wp_go. destruct (n_proc n) as [p|].
  - wp_go. eapply wp_mono; [apply frames_wp; [|exact Hs]; eauto with frames|].
    intros [] s1 [Hs1 Hg1]. wp_go.
    apply remove_node_spec; [by apply Side_drop_entry|]. intros s2 Hs2 Hg2.
    apply HC; [done..|]. by rewrite Hg2, graph_drop_entry, Hg1.
  - apply wp_ret, remove_node_spec; [done|]. intros s2 Hs2 Hg2. by apply HC.
Qed.

(** [dec_node] drops an internal strong reference from the graph, and may
    collect a node without holders. *)
Lemma dec_node_spec id strong internal s (Q : unit -> State -> Prop) :
  Side dying top s -> (forall n, st_nodes s !! id = Some n -> id <= st_next_id s) ->
  (forall s', Side dying top s' -> graph s' = drop_strong id strong internal (graph s) -> Q tt s') ->
  (forall s' n, Side dying top s' -> st_nodes s !! id = Some n -> n_refs n = ∅ ->
     graph s' = collect id (drop_strong id strong internal (graph s)) -> Q tt s') ->
  wp True (dec_node id strong internal) Q s.
Proof.
  intros Hs Hid HQ HC. unfold dec_node. wp_go. wp_go.
  destruct (st_nodes s !! id) as [n|] eqn:Hn.
  2: { apply wp_ret, HQ; [done|]. rewrite <- graph_drop_count. unfold alter_node, set_field, graph. simpl.
       by rewrite alter_None. }
  cbv zeta. wp_go. wp_go.
  pose proof (graph_drop_count id strong internal s) as Hg1.
  assert (Hs1 : Side dying top (alter_node id (drop_count strong internal) s)).
  { apply Side_alter_node; [|done]. intros x _. apply n_proc_drop_count. }
  assert (Hn1 : st_nodes (alter_node id (drop_count strong internal) s) !! id =
    Some (drop_count strong internal n)) by (simpl; by rewrite lookup_alter_eq, Hn).
  assert (Hrefs : n_refs (drop_count strong internal n) = n_refs n) by by destruct strong, internal.
  revert Hg1 Hs1 Hn1. generalize (alter_node id (drop_count strong internal) s). intros s1 Hg1 Hs1 Hn1.
  assert (Hfree : wp True (free_unreferenced id (drop_count strong internal n)) Q s1).
  { apply free_unreferenced_spec; [done|by apply lookup_graph_node| |].
    - intros s2 Hs2 Hg2. apply HQ; [done|congruence].
    - intros s2 Hs2 He Hg2. eapply HC; [done|done|congruence|congruence]. }
  destruct (still_held strong _); [apply wp_ret, HQ; done|].
  rewrite n_proc_drop_count. destruct (n_proc n) as [p|] eqn:Hp; [|done].
  destruct (n_has_strong_ref _ || _); [|done].
  destruct (n_work_queued _); [by apply wp_ret, HQ|].
  assert (Hown : own_work s1 p id).
  { split; [|intros x Hx; simplify_eq; by rewrite n_proc_drop_count].
    assert (g_fresh (graph s1) = g_fresh (graph s)) as Hf.
    { rewrite Hg1. unfold drop_strong. by destruct (strong && internal). }
    simpl in Hf. specialize (Hid n eq_refl). lia. }
  unfold enqueue_proc_work. repeat (wp_go; []).
  assert (Hg2 : graph (alter_node id (set_field n_work_queued (fun _ => Some (WlProc p))) s1) = graph s1)
    by by apply graph_alter_node.
  eapply wp_mono; [apply frames_wp; [eauto with frames|]|].
  { apply Side_enqueue_proc_node; [by eapply own_work_graph|by apply Side_alter_node]. }
  intros [] s3 [Hs3 Hg3]. apply HQ; [done|]. by rewrite Hg3, graph_alter_proc, Hg2.
Qed.

Lemma tracks_dec_node id strong internal : strong && internal = false -> tracks (dec_node id strong internal).
Proof.
  intros Hsi s Hinv. pose proof Hinv as [Hg Hs]. unfold drop_strong.
  apply dec_node_spec; [done|intros n; by eapply node_id_le|..]; unfold drop_strong; rewrite Hsi.
  - intros s' Hs' Hg'. split; [split; [by rewrite Hg'|done]|by rewrite Hg'].
  - intros s' n Hs' Hn He Hg'.
    assert (Hstep : gstep a (graph s) (graph s')).
    { rewrite Hg'. eapply gs_collect; [by apply lookup_graph_node|done]. }
    split; [split; [by eapply gstep_wf|done]|by apply rtc_once].
Qed.

(** ** Handles *)

Lemma held_ref s p n d st w :
  held (graph s) p n d st w ->
  exists P r, st_procs s !! p = Some P /\ p_refs_by_desc P !! d = Some r /\ ref_view r = mkGRef n st w /\
    p_refs_by_node P !! n = Some d.
Proof.
  intros [(gp & Hp & Hn & Hd) _]. simpl in Hp. rewrite lookup_fmap in Hp.
  apply fmap_Some in Hp as (P & HP & ->). simpl in *. rewrite lookup_fmap in Hd.
  apply fmap_Some in Hd as (r & Hr & Hv). eauto 6.
Qed.

Lemma held_procs g g' p n d st w :
  held g p n d st w -> g_procs g' = g_procs g -> (forall m, gn_holders <$> g_nodes g' !! m = gn_holders <$> g_nodes g !! m) ->
  held g' p n d st w.
Proof.
  intros [Hp (gn & Hn & Hin)] Hps Hns. split; [by rewrite Hps|].
  specialize (Hns n). rewrite Hn in Hns. apply fmap_Some in Hns as (gn' & Hn' & Heq). simpl in *.
  exists gn'. split; [done|]. by rewrite <- Heq.
Qed.

Lemma add_strong_holders n k g m :
  gn_holders <$> g_nodes (add_strong n k g) !! m = gn_holders <$> g_nodes g !! m.
Proof.
  simpl. destruct (decide (n = m)) as [->|]; [|by rewrite lookup_alter_ne].
  rewrite lookup_alter_eq. by destruct (g_nodes g !! m).
Qed.

Lemma graph_set_ref p d r s :
  graph (alter_proc p (set_field p_refs_by_desc (insert d r)) s) =
  set_counts p (r_node r) d (r_strong r) (r_weak r) (graph s).
Proof.
  unfold graph, set_counts, set_field. simpl. f_equal. apply fmap_alter_comm.
  intros P _. unfold proc_view, set_field. simpl. by rewrite fmap_insert.
Qed.

Lemma Side_set_ref p f s :
  Side dying top s -> Side dying top (alter_proc p (set_field p_refs_by_desc f) s).
Proof. intros Hs. apply Side_alter_proc; [by auto|by auto|by eauto|done]. Qed.

(** [inc_ref] counts one more reference on a handle. *)
Lemma inc_ref_spec p d strong target s n st w x (Q : result unit Errno -> State -> Prop) :
  Side dying top s -> held (graph s) p n d st w -> 0 <= st -> 0 <= w ->
  st_nodes s !! n = Some x -> n <= st_next_id s ->
  (forall q t, target = Some (q, t) -> n_proc x = Some q) ->
  (forall s', Side dying top s' ->
     graph s' = put_handle p n d (Some (bump strong (st, w))) (graph s) -> Q (Ok tt) s') ->
  (forall s' e, Side dying top s' -> graph s' = graph s -> Q (Err e) s') ->
  wp True (inc_ref p d strong target) Q s.
Proof.
  intros Hs Hh Hst Hw Hx Hid Htarget HOk HErr. unfold inc_ref.
  destruct (held_ref _ _ _ _ _ _ Hh) as (P & r & HP & Hr & Hv & _). injection Hv as Hrn Hrs Hrw.
  wp_go. apply (wp_the_proc_eq _ _ _ _ _ _ HP). wp_go. apply (wp_unwrap_eq _ _ _ _ _ _ Hr).
  cbv zeta. rewrite Hrn. wp_go.
  set (one := strong && (st =? 0)).
  apply (wp_mono _ _ _ (fun res s' => Side dying top s' /\ match res with
    | Ok _ => graph s' = if one then add_strong n 1 (graph s) else graph s
    | Err _ => graph s' = graph s end)).
  { destruct ((if strong then r_strong r else r_weak r) =? 0) eqn:Hc.
    - eapply inc_node_spec; [done..| |]; [|by intros].
      intros s1 Hs1 Hg1. split; [done|]. rewrite Hg1. unfold one.
      destruct strong; simpl; [|done]. by rewrite <- Hrs, Hc.
    - apply wp_ret. split; [done|]. unfold one. destruct strong; simpl; [|done]. by rewrite <- Hrs, Hc. }
  intros [[]|e] s1 [Hs1 Hg1]; [|by apply wp_ret, HErr].
  assert (Hh1 : held (graph s1) p n d st w).
  { rewrite Hg1. destruct one; [|done]. eapply held_procs; [done|done|apply add_strong_holders]. }
  destruct (held_ref _ _ _ _ _ _ Hh1) as (P1 & r1 & HP1 & Hr1 & Hv1 & _). injection Hv1 as Hrn1 Hrs1 Hrw1.
  wp_go. apply (wp_the_proc_eq _ _ _ _ _ _ HP1). wp_go. apply (wp_unwrap_eq _ _ _ _ _ _ Hr1).
  wp_go. apply (wp_mono _ _ _ (fun r' s' => s' = s1 /\ r_node r' = n /\ (r_strong r', r_weak r') = bump strong (st, w))).
  { destruct strong; repeat wp_go;
      match goal with H : uadd _ _ _ = Done _ |- _ => apply uadd_checked in H as [-> _]; [|done] end;
      split_and!; try done; simpl; congruence. }
  intros r' ? (-> & Hn' & Hc'). wp_go. wp_go. apply wp_ret, HOk; [by apply Side_set_ref|].
  rewrite graph_set_ref, Hn'. destruct (bump strong (st, w)) as [st' w'] eqn:Hb. injection Hc' as -> ->.
  rewrite (put_handle_counts _ _ _ _ _ _ _ _ Hh), Hg1. unfold one, bump in *.
  destruct strong; simpl in *; injection Hb as <- <-.
  - destruct (Z.eqb_spec st 0) as [->|Hne]; [done|].
    rewrite !(proj2 (Z.ltb_lt _ _)) by lia. by rewrite add_strong_0.
  - by rewrite Z.sub_diag, add_strong_0.
Qed.

Lemma graph_forget p n d s :
  graph (alter_proc p (fun P => P <| p_refs_by_desc ::= delete d |> <| p_refs_by_node ::= delete n |>) s) =
  (graph s) <| g_procs ::= alter (put_proc n d None) p |>.
Proof.
  unfold graph, set_field. simpl. f_equal. apply fmap_alter_comm.
  intros P _. unfold proc_view, put_proc, set_field. simpl. by rewrite fmap_delete.
Qed.

Lemma graph_leave p n s :
  graph (alter_node n (set_field n_refs (fun refs => refs ∖ {[p]})) s) =
  (graph s) <| g_nodes ::= alter (set_field gn_holders (fun hs => hs ∖ {[p]})) n |>.
Proof. unfold graph, set_field. simpl. f_equal. by apply fmap_alter_comm. Qed.

(** The strong count a handle contributes is dropped with it. *)
Lemma put_handle_None g p n d st w :
  held g p n d st w -> (forall gn, g_nodes g !! n = Some gn -> 0 < st -> 0 < gn_strong gn) -> 0 <= st ->
  (drop_strong n (negb (st =? 0)) true (g <| g_procs ::= alter (put_proc n d None) p |>))
    <| g_nodes ::= alter (set_field gn_holders (fun hs => hs ∖ {[p]})) n |> =
  put_handle p n d None g.
Proof.
  intros Hh Hpos Hst. pose proof (held_old_bit _ _ _ _ _ _ Hh) as Hb.
  unfold put_handle, drop_strong. rewrite Hb, andb_true_r.
  destruct (Z.eqb_spec st 0) as [->|Hne]; [done|]. unfold set_field. simpl. f_equal.
  - rewrite alter_alter_eq. apply alter_ext. intros gn Hgn. specialize (Hpos _ Hgn ltac:(lia)).
    rewrite (proj2 (Z.ltb_lt 0 st)) by lia. destruct gn. unfold put_node, saturating_sub, set_field in *. simpl in *.
    f_equal. lia.
Qed.

(** [cleanup_ref] removes a handle, and may collect its node. *)
Lemma cleanup_ref_spec p d s n st w x (Q : unit -> State -> Prop) :
  Side dying top s -> held (graph s) p n d st w -> 0 <= st ->
  st_nodes s !! n = Some x -> n <= st_next_id s -> (0 < st -> 0 < n_internal_strong_refs x) ->
  (forall s', Side dying top s' -> graph s' = put_handle p n d None (graph s) -> Q tt s') ->
  (forall s' gn, Side dying top s' -> g_nodes (put_handle p n d None (graph s)) !! n = Some gn ->
     gn_holders gn = ∅ -> graph s' = collect n (put_handle p n d None (graph s)) -> Q tt s') ->
  wp True (cleanup_ref p d) Q s.
Proof.
  intros Hs Hh Hst Hx Hid Hpos HQ HC. unfold cleanup_ref.
  destruct (held_ref _ _ _ _ _ _ Hh) as (P & r & HP & Hr & Hv & _). injection Hv as Hrn Hrs Hrw.
  pose proof (held_node _ _ _ _ _ _ Hh) as (gn & Hgn & Hin).
  rewrite (lookup_graph_node _ _ _ Hx) in Hgn. injection Hgn as <-. simpl in Hin.
  wp_go. wp_go. rewrite HP, Hr, Hrn. wp_go. wp_go.
  pose proof (graph_forget p n d s) as Hg1.
  assert (Hs1 : Side dying top (alter_proc p (fun P =>
    P <| p_refs_by_desc ::= delete d |> <| p_refs_by_node ::= delete n |>) s)).
  { apply Side_alter_proc; [by auto|by auto|by eauto|done]. }
  revert Hg1 Hs1. set (s1 := alter_proc p _ s). intros Hg1 Hs1.
  assert (Hx1 : st_nodes s1 !! n = Some x) by done. assert (Hid1 : n <= st_next_id s1) by done. clearbody s1.
  wp_go. apply (wp_mono _ _ _ (fun _ s2 => Side dying top s2 /\ n <= st_next_id s2 /\
    graph s2 = drop_strong n (negb (st =? 0)) true (graph s1))).
  { rewrite Hrs. destruct (Z.eqb_spec st 0) as [->|Hne]; simpl; [by apply wp_ret|].
    apply dec_node_spec; [done|done| |].
    - intros s2 Hs2 Hg2. split_and!; try done. apply (f_equal g_fresh) in Hg2. simpl in Hg2. lia.
    - intros s2 x' _ Hx' He. simplify_eq. set_solver. }
  intros [] s2 (Hs2 & Hid2 & Hg2). wp_go. wp_go.
  pose proof (graph_leave p n s2) as Hg3. rewrite Hg2, Hg1, (put_handle_None _ _ _ _ _ _ Hh) in Hg3; [| |done].
  2: { intros gn Hgn. rewrite (lookup_graph_node _ _ _ Hx) in Hgn. by injection Hgn as <-. }
  wp_go. apply (wp_mono _ _ _ (fun _ s4 => Side dying top s4 /\
    (graph s4 = put_handle p n d None (graph s) \/ exists gn, g_nodes (put_handle p n d None (graph s)) !! n = Some gn /\
      gn_holders gn = ∅ /\ graph s4 = collect n (put_handle p n d None (graph s))))).
  { apply dec_node_spec; [by apply Side_alter_node|done| |].
    - intros s4 Hs4 Hg4. split; [done|left]. by rewrite Hg4.
    - intros s4 x4 Hs4 Hx4 He Hg4. apply lookup_graph_node in Hx4. rewrite Hg3 in Hx4.
      split; [done|right]. exists (node_view x4). split_and!; [done|done|]. by rewrite Hg4, Hg3. }
  intros [] s4 [Hs4 Hor]. eapply wp_mono; [apply frames_wp; [|exact Hs4]|].
  { destruct (r_death r); frames_tac. }
  intros [] s5 [Hs5 Hg5]. destruct Hor as [?|(gn & ? & ? & ?)].
  - apply HQ; [done|congruence].
  - eapply HC; [done..|congruence].
Qed.

(** A handle of the process at a descriptor. *)
Lemma ref_handle s p P d r :
  graph_wf (graph s) -> st_procs s !! p = Some P -> p_refs_by_desc P !! d = Some r ->
  handle (graph s) p (r_node r) = Some (d, r_strong r, r_weak r).
Proof.
  intros [Hh _ _] HP Hr. pose proof (lookup_graph_proc _ _ _ HP) as Hp.
  assert (gp_desc (proc_view P) !! d = Some (ref_view r)) as Hd by (simpl; by rewrite lookup_fmap, Hr).
  unfold handle, proc_handle. rewrite Hp. simpl.
  pose proof (gw_desc _ Hh _ _ _ _ Hp Hd) as Hnd. simpl in Hnd. rewrite Hnd. simpl. by rewrite lookup_fmap, Hr.
Qed.

(** What the reference operations need to know of a handle. *)
Lemma handle_facts s p n d st w :
  Inv dying top s -> handle (graph s) p n = Some (d, st, w) ->
  held (graph s) p n d st w /\ 0 <= st /\ 0 <= w /\ 0 < st + w /\
  exists x, st_nodes s !! n = Some x /\ n <= st_next_id s /\ (0 < st -> 0 < n_internal_strong_refs x).
Proof.
  intros Hinv Hx. pose proof Hinv as [[Hh Ho Hi] Hs].
  pose proof (handle_held _ _ _ _ _ _ Hh Hx) as Hheld.
  destruct (handle_Some _ _ _ _ _ _ Hh Hx) as (gp & gn & Hp & Hn & _ & _ & ? & ? & ?).
  destruct (lookup_graph_node_inv _ _ _ Hn) as (x & Hnx & ->).
  split_and!; try done. exists x. split_and!; [done|by eapply node_id_le|].
  intros Hpos. by apply (held_strong _ _ _ _ _ _ _ Hh Hheld Hn Hpos).
Qed.

Lemma Inv_step s s' : Inv dying top s -> Side dying top s' -> gsteps a (graph s) (graph s') ->
  Inv dying top s' /\ gsteps a (graph s) (graph s').
Proof. intros [Hg _] Hs' Hsteps. split; [split; [by eapply gsteps_wf|done]|done]. Qed.

Lemma tracks_cleanup_ref p d : tracks (cleanup_ref p d).
Proof.
  intros s Hinv. pose proof Hinv as [Hg Hs].
  destruct (st_procs s !! p) as [P|] eqn:HP.
  2: { unfold cleanup_ref. repeat (wp_go; []). rewrite HP. by apply wp_ret. }
  destruct (p_refs_by_desc P !! d) as [r|] eqn:Hr.
  2: { unfold cleanup_ref. repeat (wp_go; []). rewrite HP, Hr. by apply wp_ret. }
  pose proof (ref_handle _ _ _ _ _ Hg HP Hr) as Hx.
  destruct (handle_facts _ _ _ _ _ _ Hinv Hx) as (Hheld & ? & ? & ? & x & Hn & Hid & Hpos).
  assert (Hstep : gstep a (graph s) (put_handle p (r_node r) d None (graph s))) by by eapply gs_forget.
  eapply cleanup_ref_spec; [done..| |].
  - intros s' Hs' Hg'. apply Inv_step; [done..|]. rewrite Hg'. by apply rtc_once.
  - intros s' gn Hs' Hgn He Hg'. apply Inv_step; [done..|]. rewrite Hg'.
    eapply rtc_l; [done|]. apply rtc_once. by eapply gs_collect.
Qed.

Lemma drop_strong_add n g :
  (forall gn, g_nodes g !! n = Some gn -> 0 < gn_strong gn) -> drop_strong n true true g = add_strong n (-1) g.
Proof.
  intros Hpos. unfold drop_strong, add_strong, set_field. simpl. f_equal. apply alter_ext.
  intros gn Hgn. specialize (Hpos _ Hgn). destruct gn. unfold saturating_sub in *. simpl in *. f_equal. lia.
Qed.

(** The first half of [dec_ref]: the counts of a handle go down. *)
Lemma dec_counts_spec p d r s n st w st' w' x (Q : unit -> State -> Prop) :
  Side dying top s -> held (graph s) p n d st w -> 0 <= st' <= st -> ref_view r = mkGRef n st' w' ->
  st_nodes s !! n = Some x -> n <= st_next_id s -> (0 < st -> 0 < n_internal_strong_refs x) ->
  (forall s', Side dying top s' -> graph s' = put_handle p n d (Some (st', w')) (graph s) -> Q tt s') ->
  wp True (modify (alter_proc p (set_field p_refs_by_desc (insert d r)));;
           if (st' =? 0) && negb (st =? 0) then dec_node n true true else mret tt) Q s.
Proof.
  intros Hs Hh Hst' Hv Hx Hid Hpos HQ. injection Hv as Hrn Hrs Hrw. wp_go. wp_go.
  pose proof (graph_set_ref p d r s) as Hg1. rewrite Hrn, Hrs, Hrw in Hg1.
  pose proof (put_handle_counts _ _ _ _ _ _ st' w' Hh) as Hput. rewrite <- Hg1 in Hput.
  pose proof (Side_set_ref p (insert d r) s Hs) as Hs1.
  destruct ((st' =? 0) && negb (st =? 0)) eqn:Hc.
  - apply andb_prop in Hc as [->%Z.eqb_eq Hne%negb_true_iff%Z.eqb_neq].
    rewrite (proj2 (Z.ltb_lt 0 st)) in Hput by lia.
    apply dec_node_spec; [done|done| |].
    + intros s2 Hs2 Hg2. apply HQ; [done|]. rewrite Hg2, Hput, drop_strong_add; [done|].
      intros gn Hgn. change (g_nodes (graph s) !! n = Some gn) in Hgn.
      rewrite (lookup_graph_node _ _ _ Hx) in Hgn. injection Hgn as <-. apply Hpos. lia.
    + intros s2 x' _ Hx' He. change (st_nodes s !! n = Some x') in Hx'. simplify_eq.
      destruct (held_node _ _ _ _ _ _ Hh) as (gn & Hgn & Hin).
      rewrite (lookup_graph_node _ _ _ Hx) in Hgn. injection Hgn as <-. simpl in Hin. set_solver.
  - apply wp_ret, HQ; [done|]. rewrite Hput.
    assert (((if 0 <? st' then 1 else 0) - (if 0 <? st then 1 else 0)) = 0) as ->; [|by rewrite add_strong_0].
    apply andb_false_iff in Hc as [?%Z.eqb_neq|Hz%negb_false_iff%Z.eqb_eq].
    + rewrite !(proj2 (Z.ltb_lt _ _)) by lia. done.
    + assert (st' = 0) as -> by lia. by rewrite Hz.
Qed.

Lemma drop_ref_count_spec p d (strong : bool) r s st' w' x (Q : unit -> State -> Prop) :
  Side dying top s -> held (graph s) p (r_node r) d (r_strong r) (r_weak r) ->
  0 <= r_strong r -> (if strong then r_strong r else r_weak r) <> 0 ->
  (st', w') = (if strong then (r_strong r - 1, r_weak r) else (r_strong r, r_weak r - 1)) ->
  st_nodes s !! r_node r = Some x -> r_node r <= st_next_id s ->
  (0 < r_strong r -> 0 < n_internal_strong_refs x) ->
  (forall s', Side dying top s' -> graph s' = put_handle p (r_node r) d (Some (st', w')) (graph s) -> Q tt s') ->
  wp True (drop_ref_count p d strong r) Q s.
Proof.
  intros Hs Hh Hst Hc Hsw Hx Hid Hpos HQ. unfold drop_ref_count. cbv zeta.
  match goal with |- context [if ?c then dec_node _ _ _ else _] =>
    replace c with ((st' =? 0) && negb (r_strong r =? 0)) end.
  - destruct strong; injection Hsw as -> ->; eapply dec_counts_spec; try done; lia.
  - destruct strong; injection Hsw as -> ->; simpl.
    + rewrite (proj2 (Z.eqb_neq (r_strong r) 0)) by done. by rewrite andb_true_r, <- Z.sub_1_r.
    + apply andb_negb_r.
Qed.

Lemma tracks_dec_ref p d strong : tracks (dec_ref p d strong).
Proof.
  intros s Hinv. pose proof Hinv as [Hg Hs]. unfold dec_ref. wp_go. wp_go.
  destruct (st_procs s !! p) as [P|] eqn:HP; simpl; [|by apply wp_ret].
  destruct (p_refs_by_desc P !! d) as [r|] eqn:Hr; simpl; [|by apply wp_ret].
  pose proof (ref_handle _ _ _ _ _ Hg HP Hr) as Hh.
  destruct (handle_facts _ _ _ _ _ _ Hinv Hh) as (Hheld & ? & ? & ? & x & Hn & Hid & Hpos).
  destruct (Z.eqb_spec (if strong then r_strong r else r_weak r) 0) as [|Hc]; [by apply wp_ret|].
  wp_go. eapply (drop_ref_count_spec _ _ _ _ _ (if strong then r_strong r - 1 else r_strong r)
    (if strong then r_weak r else r_weak r - 1)); try done; [by destruct strong|].
  set (st' := if strong then r_strong r - 1 else r_strong r).
  set (w' := if strong then r_weak r else r_weak r - 1).
  assert (0 <= st' <= r_strong r /\ 0 <= w' <= r_weak r) as [Hst' Hw'] by (unfold st', w'; destruct strong; lia).
  intros s1 Hs1 Hg1.
  assert (Hheld1 : held (graph s1) p (r_node r) d st' w').
  { rewrite Hg1. apply held_put; [rewrite (lookup_graph_proc _ _ _ HP); eauto|].
    rewrite (lookup_graph_node _ _ _ Hn). eauto. }
  destruct (held_ref _ _ _ _ _ _ Hheld1) as (P1 & r1 & HP1 & Hr1 & Hv1 & _). injection Hv1 as Hrn1 Hrs1 Hrw1.
  wp_go. apply (wp_the_proc_eq _ _ _ _ _ _ HP1). wp_go. apply (wp_unwrap_eq _ _ _ _ _ _ Hr1).
  rewrite Hrs1, Hrw1. wp_go. destruct ((st' =? 0) && (w' =? 0)) eqn:Hz.
  2: { apply wp_ret, wp_ret, Inv_step; [done..|]. rewrite Hg1. apply rtc_once. eapply gs_drop; [done|lia..|].
       apply andb_false_iff in Hz as [?%Z.eqb_neq|?%Z.eqb_neq]; lia. }
  apply andb_prop in Hz as [Hz1%Z.eqb_eq Hz2%Z.eqb_eq].
  assert (Hput : put_handle p (r_node r) d None (graph s1) = put_handle p (r_node r) d None (graph s)).
  { rewrite Hg1. apply put_handle_put; [|rewrite (lookup_graph_proc _ _ _ HP); eauto].
    destruct Hg as [Hhw _ _]. intros gp Hgp. split; [by eapply handles_proc_wf|left].
    destruct (held_proc _ _ _ _ _ _ Hheld) as (gp' & Hgp' & ? & _). congruence. }
  assert (Hstep : gstep a (graph s) (put_handle p (r_node r) d None (graph s))) by by eapply gs_forget.
  destruct (held_node _ _ _ _ _ _ Hheld1) as (gn1 & Hgn1 & _).
  apply lookup_graph_node_inv in Hgn1 as (x1 & Hx1 & _).
  eapply (cleanup_ref_spec p d s1 (r_node r)); [done|done|lia|done| |lia|..].
  - apply (f_equal g_fresh) in Hg1. simpl in Hg1. lia.
  - intros s2 Hs2 Hg2. apply wp_ret, Inv_step; [done..|]. rewrite Hg2, Hput. by apply rtc_once.
  - intros s2 gn Hs2 Hgn He Hg2. apply wp_ret, Inv_step; [done..|]. rewrite Hput in Hgn, Hg2. rewrite Hg2.
    eapply rtc_l; [done|]. apply rtc_once. by eapply gs_collect.
Qed.

(** The descriptor search finds the lowest free one. *)
Lemma lowest_free_spec keys d r :
  StronglySorted Z.le keys -> NoDup keys -> Forall (Z.le d) keys -> lowest_free d keys = Done r ->
  d <= r /\ (r ∉ keys) /\ (forall d', d <= d' < r -> d' ∈ keys).
Proof.
  revert d. induction keys as [|k keys IH]; intros d Hs Hnd Hge Hr; simpl in Hr.
  { injection Hr as <-. split_and!; [lia|apply not_elem_of_nil|lia]. }
  apply StronglySorted_inv in Hs as [Hs Hle]. apply NoDup_cons in Hnd as [Hk Hnd].
  apply Forall_cons in Hge as [Hdk Hge]. rewrite Forall_forall in Hle.
  destruct (Z.ltb_spec d k) as [Hlt|Hle'].
  - injection Hr as <-. split_and!; [lia| |lia].
    intros [->|Hin]%elem_of_cons; [lia|]. specialize (Hle _ Hin). lia.
  - destruct (uadd 32 k 1) as [next| |] eqn:Hu; simpl in Hr; try done.
    apply uadd_checked in Hu as [-> _]; [|done]. assert (k = d) as -> by lia.
    destruct (IH (d + 1)) as (Hr1 & Hr2 & Hr3); [done|done| |done|].
    { apply Forall_forall. intros x Hx. specialize (Hle _ Hx). assert (x <> d) by congruence. lia. }
    split_and!; [lia| |].
    + intros [->|?]%elem_of_cons; [lia|done].
    + intros d' Hd'. destruct (decide (d' = d)) as [->|]; [by left|right]. apply Hr3. lia.
Qed.

#[local] Instance no_spin_lowest_free d keys : NoSpin (lowest_free d keys).
Proof. revert d. induction keys; intros d; simpl; apply _. Qed.

Lemma lowest_free_lowest first d P :
  lowest_free first (filter (fun d => first <= d) (sorted_keys (p_refs_by_desc P))) = Done d ->
  lowest first d (proc_view P).
Proof.
  intros Hl. apply lowest_free_spec in Hl as (Hd & Hnin & Hin).
  - split; [done|]. simpl. rewrite lookup_fmap. split.
    + destruct (p_refs_by_desc P !! d) eqn:Hx; [|done]. exfalso. apply Hnin.
      apply list_elem_of_filter. split; [done|]. apply elem_of_sorted_keys. eauto.
    + intros d' Hd'. rewrite lookup_fmap, fmap_is_Some. specialize (Hin _ Hd').
      apply list_elem_of_filter in Hin as [_ Hin]. by apply elem_of_sorted_keys.
  - apply StronglySorted_filter, Sorted_sorted_keys.
  - apply NoDup_filter, NoDup_sorted_keys.
  - apply Forall_forall. intros x [? _]%list_elem_of_filter. done.
Qed.

Lemma graph_link p n d s :
  (forall P, st_procs s !! p = Some P -> p_refs_by_node P !! n = None) ->
  graph (alter_node n (set_field n_refs (fun refs => {[p]} ∪ refs))
    (alter_proc p (fun P => P <| p_refs_by_desc ::= insert d (mkRef n 0 0 None) |>
                              <| p_refs_by_node ::= insert n d |>) s)) =
  put_handle p n d (Some (0, 0)) (graph s).
Proof.
  intros HP. unfold put_handle, old_bit. simpl. rewrite lookup_fmap.
  unfold graph, set_field. simpl. f_equal.
  - apply fmap_alter_comm. intros P _. unfold proc_view, put_proc, set_field. simpl. by rewrite fmap_insert.
  - apply fmap_alter_comm. intros x _. unfold node_view, put_node, set_field. simpl. f_equal.
    destruct (st_procs s !! p) as [P|] eqn:Hp; simpl; [|done].
    unfold strong_bit, proc_handle. simpl. by rewrite (HP _ eq_refl).
Qed.

Lemma Side_link p n d s :
  Side dying top s -> Side dying top (alter_node n (set_field n_refs (fun refs => {[p]} ∪ refs))
    (alter_proc p (fun P => P <| p_refs_by_desc ::= insert d (mkRef n 0 0 None) |>
                              <| p_refs_by_node ::= insert n d |>) s)).
Proof.
  intros Hs. apply Side_alter_node; [done|]. apply Side_alter_proc; [by auto|by auto|by eauto|done].
Qed.

(** A handle for [n] is granted to [p], new or counted up; when the node
    refuses, nothing is left of it. *)
Lemma inc_ref_existing p n strong target d st w x s (Q : result Z Errno -> State -> Prop) :
  Inv dying top s -> entitled (graph s) a p n strong -> st_nodes s !! n = Some x ->
  (forall q t, target = Some (q, t) -> n_proc x = Some q) ->
  handle (graph s) p n = Some (d, st, w) ->
  (forall r s', Inv dying top s' -> gsteps a (graph s) (graph s') -> Q r s') ->
  wp True (r ← inc_ref p d strong target;
           match r with Err e => mret tt;; mret (Err e) | Ok _ => mret (Ok d) end) Q s.
Proof.
  intros Hinv Hent Hn Htarget Hh HQ. pose proof Hinv as [Hg Hs].
  destruct (handle_facts _ _ _ _ _ _ Hinv Hh) as (Hheld & ? & ? & ? & x' & Hn' & Hid & Hpos).
  rewrite Hn in Hn'. injection Hn' as <-.
  wp_go. eapply inc_ref_spec; [done..| |].
  - intros s1 Hs1 Hg1. destruct (Inv_step s s1) as [? ?]; [done|done| |by apply wp_ret, HQ].
    rewrite Hg1. apply rtc_once. by eapply gs_grant.
  - intros s1 e Hs1 Hg1. destruct (Inv_step s s1) as [? ?]; [done|done|by rewrite Hg1|].
    wp_go. apply wp_ret, wp_ret. by apply HQ.
Qed.

Lemma inc_ref_new p n strong target d first P x s (Q : result Z Errno -> State -> Prop) :
  Inv dying top s -> entitled (graph s) a p n strong -> st_nodes s !! n = Some x ->
  (forall q t, target = Some (q, t) -> n_proc x = Some q) ->
  st_procs s !! p = Some P -> p_refs_by_node P !! n = None ->
  first = 0 \/ first = 1 -> lowest first d (proc_view P) ->
  (forall r s', Inv dying top s' -> gsteps a (graph s) (graph s') -> Q r s') ->
  wp True (r ← inc_ref p d strong target;
           match r with Err e => cleanup_ref p d;; mret (Err e) | Ok _ => mret (Ok d) end) Q
    (alter_node n (set_field n_refs (fun refs => {[p]} ∪ refs))
      (alter_proc p (fun P => P <| p_refs_by_desc ::= insert d (mkRef n 0 0 None) |>
                                <| p_refs_by_node ::= insert n d |>) s)).
Proof.
  intros Hinv Hent Hn Htarget HP Hnone Hfirst Hlow HQ. pose proof Hinv as [Hg Hs]. pose proof Hg as [Hh _ _].
  pose proof (Side_link p n d s Hs) as Hs1.
  assert (Hg1 := graph_link p n d s ltac:(by intros ? [= <-]%(eq_trans (eq_sym HP)))).
  assert (Hid : n <= st_next_id s) by by eapply node_id_le.
  pose proof (lookup_graph_proc _ _ _ HP) as HPv. pose proof Hlow as (_ & Hfree & _).
  assert (Hput : forall c, put_handle p n d c (put_handle p n d (Some (0, 0)) (graph s)) = put_handle p n d c (graph s)).
  { intros c. apply put_handle_put; [|eauto]. intros gp Hgp. rewrite HPv in Hgp. injection Hgp as <-.
    split; [by eapply handles_proc_wf|by right]. }
  assert (Hx1 : exists x1, st_nodes (alter_node n (set_field n_refs (fun refs => {[p]} ∪ refs))
      (alter_proc p (fun P => P <| p_refs_by_desc ::= insert d (mkRef n 0 0 None) |>
                                <| p_refs_by_node ::= insert n d |>) s)) !! n = Some x1 /\ n_proc x1 = n_proc x).
  { simpl. rewrite lookup_alter_eq, Hn. eexists. by split. }
  assert (Hheld : held (put_handle p n d (Some (0, 0)) (graph s)) p n d 0 0).
  { apply held_put; [eauto|]. rewrite (lookup_graph_node _ _ _ Hn). eauto. }
  destruct Hx1 as (x1 & Hx1 & Hp1). rewrite <- Hg1 in Hheld, Hput.
  revert Hs1 Hg1 Hheld Hput Hx1. generalize (alter_node n (set_field n_refs (fun refs => {[p]} ∪ refs))
      (alter_proc p (fun P => P <| p_refs_by_desc ::= insert d (mkRef n 0 0 None) |>
                                <| p_refs_by_node ::= insert n d |>) s)).
  intros s1 Hs1 Hg1 Hheld Hput Hx1.
  assert (Hid1 : n <= st_next_id s1) by (apply (f_equal g_fresh) in Hg1; simpl in Hg1; lia).
  wp_go. eapply (inc_ref_spec p d strong target s1 n 0 0 x1); [done|done|done|done|done|done|by rewrite Hp1| |].
  - intros s2 Hs2 Hg2. destruct (Inv_step s s2) as [? ?]; [done|done| |by apply wp_ret, HQ].
    rewrite Hg2, Hput. apply rtc_once. eapply gs_grant_new; try done. rewrite (lookup_graph_node _ _ _ Hn). eauto.
  - intros s2 e Hs2 Hg2. wp_go. rewrite <- Hg2 in Hheld, Hput.
    destruct (held_node _ _ _ _ _ _ Hheld) as (gn2 & Hgn2 & _). apply lookup_graph_node_inv in Hgn2 as (x2 & Hx2 & _).
    assert (Habs : put_handle p n d None (graph s2) = graph s) by (rewrite Hput; by eapply put_handle_absent).
    eapply (cleanup_ref_spec p d s2 n 0 0 x2); [done|done|done|done| |done| |].
    + apply (f_equal g_fresh) in Hg2. simpl in Hg2. lia.
    + intros s3 Hs3 Hg3. rewrite Habs in Hg3.
      destruct (Inv_step s s3) as [? ?]; [done|done|by rewrite Hg3|by apply wp_ret, HQ].
    + intros s3 gn Hs3 Hgn He Hg3. rewrite Habs in Hgn, Hg3.
      destruct (Inv_step s s3) as [? ?]; [done|done| |by apply wp_ret, HQ].
      rewrite Hg3. apply rtc_once. by eapply gs_collect.
Qed.

Lemma node_handle s p P n d :
  graph_wf (graph s) -> st_procs s !! p = Some P -> p_refs_by_node P !! n = Some d ->
  exists st w, handle (graph s) p n = Some (d, st, w).
Proof.
  intros Hg HP Hd. destruct (gw_node _ (gw_handles _ Hg) p _ n d (lookup_graph_proc _ _ _ HP) Hd) as (r & Hr & <-).
  simpl in Hr. rewrite lookup_fmap in Hr. apply fmap_Some in Hr as (r0 & Hr & ->).
  eexists _, _. by eapply ref_handle.
Qed.

Lemma get_ref_handle s p d strong r :
  graph_wf (graph s) -> get_ref s p d strong = Some r ->
  handle (graph s) p (r_node r) = Some (d, r_strong r, r_weak r) /\ (strong = true -> 0 < r_strong r).
Proof.
  intros Hg Hr. unfold get_ref in Hr. apply bind_Some in Hr as (P & HP & Hr).
  apply bind_Some in Hr as (r' & Hr' & Hr). destruct (_ || _) eqn:Hb; [|done]. injection Hr as <-.
  split; [by eapply ref_handle|]. intros ->. simpl in Hb. apply negb_true_iff, Z.eqb_neq in Hb.
  assert (gp_desc (proc_view P) !! d = Some (ref_view r')) as Hv by (simpl; by rewrite lookup_fmap, Hr').
  pose proof (gw_counts _ (gw_handles _ Hg) p _ d _ (lookup_graph_proc _ _ _ HP) Hv) as Hc. simpl in Hc. lia.
Qed.

Lemma inc_ref_for_node_spec p n strong target x s (Q : result Z Errno -> State -> Prop) :
  Inv dying top s -> entitled (graph s) a p n strong -> st_nodes s !! n = Some x ->
  (forall q t, target = Some (q, t) -> n_proc x = Some q) ->
  (forall r s', Inv dying top s' -> gsteps a (graph s) (graph s') -> Q r s') ->
  wp True (inc_ref_for_node p n strong target) Q s.
Proof.
  intros Hinv Hent Hn Htarget HQ. pose proof Hinv as [Hg Hs].
  unfold inc_ref_for_node. wp_go. wp_go.
  destruct (st_procs s !! p) as [P|] eqn:HP; [|by apply wp_ret, HQ].
  destruct (p_refs_by_node P !! n) as [d|] eqn:Hd.
  - wp_go. wp_go. destruct (node_handle s p P n d) as (st & w & Hh); [done..|].
    eapply inc_ref_existing; eauto.
  - wp_go. wp_go. apply wp_is_context_manager. intros mgr. wp_go. wp_go.
    simplify_map_eq. wp_go. apply wp_call; [apply _|done|]. intros d Hlow.
    apply lowest_free_lowest in Hlow.
    wp_go. wp_go. wp_go. wp_go. simpl. rewrite Hn. wp_go. wp_go. wp_go.
    eapply (inc_ref_new p n strong target d (if mgr then 0 else 1)); eauto. destruct mgr; auto.
Qed.

Lemma update_ref_for_handle_spec p d increment strong s (Q : result unit Errno -> State -> Prop) :
  a = p -> Inv dying top s ->
  (forall r s', Inv dying top s' -> gsteps a (graph s) (graph s') -> Q r s') ->
  wp True (update_ref_for_handle p d increment strong) Q s.
Proof.
  intros Hap Hinv HQ. unfold update_ref_for_handle. wp_go. wp_go.
  destruct (get_ref s p d strong) as [r|] eqn:Hr; [|by apply wp_ret, HQ].
  destruct increment; [|eapply wp_mono; [by apply tracks_dec_ref|]; intros ? ? [? ?]; auto].
  pose proof Hinv as [Hg Hs]. destruct (get_ref_handle _ _ _ _ _ Hg Hr) as [Hh Hst].
  destruct (handle_facts _ _ _ _ _ _ Hinv Hh) as (Hheld & ? & ? & ? & x & Hn & Hid & Hpos).
  eapply inc_ref_spec; [done..| |].
  - intros s1 Hs1 Hg1. destruct (Inv_step s s1) as [? ?]; [done|done| |by apply HQ].
    rewrite Hg1. apply rtc_once. eapply gs_grant; [|done]. right. left. subst. eauto.
  - intros s1 e Hs1 Hg1. destruct (Inv_step s s1) as [? ?]; [done|done|by rewrite Hg1|by apply HQ].
Qed.

End operations.
