(* ===== verification/Transfer.v ===== *)
(** Transactions implement the graph of [Graph.v]: sending, replying, failing
    and freeing a buffer take the graph through steps that the sender may
    cause, and every loop on the way ends. *)

From S2P Require Import Prelude Host Uapi Alloc Trace Shadow State Transaction Graph Frames Refinement.
From Stdlib Require Import ZArith Lia.
From Stdlib Require Import Strings.Byte.
From stdpp Require Import base numbers list gmap sorting relations.

Open Scope Z_scope.

#[export] Hint Resolve tracks_next_id tracks_dec_ref tracks_cleanup_ref : tracks.
#[export] Hint Extern 1 (tracks _ _ _ (dec_node _ _ _)) =>
  apply tracks_dec_node; apply andb_false_r : tracks.

(** ** Buffers *)

Section buffers.
Context `{Env} (Hov : overflow_checks = true).
Context (a : ProcId) (dying : option ProcId) (top : Z).
Abbreviation tracks := (tracks a dying top).
Abbreviation frames := (frames dying top).

(** An allocator operation that keeps the allocator well formed. *)
Lemma frames_with_alloc {A} p alloc (m : M Allocator A) :
  wp True m (fun _ => Allocator_wf) alloc -> frames (with_alloc p alloc m).
Proof.
  intros Hm s Hs. unfold with_alloc. wp_go. apply wp_call.
  { intros Hspin. unfold wpx in Hm. by rewrite Hspin in Hm. }
  { done. }
  intros [r alloc'] Hr. assert (Allocator_wf alloc') by (unfold wpx in Hm; by rewrite Hr in Hm).
  repeat wp_go. split; [|by apply graph_alter_proc].
  apply Side_alter_proc; [by auto| |by eauto|done]. intros P x _ [= <-]. by right.
Qed.

Lemma tracks_release_target_node n : tracks (release_target_node n).
Proof. unfold release_target_node. tracks_tac. Qed.

Lemma tracks_release_record p r : tracks (release_record p r).
Proof. unfold release_record. tracks_tac. Qed.
Hint Resolve tracks_release_target_node tracks_release_record : tracks.

Lemma tracks_free_buffer p o is_failure : tracks (free_buffer p o is_failure).
Proof.
  intros s Hinv. unfold free_buffer. wp_go. wp_go.
  destruct (st_procs s !! p ≫= p_alloc) as [alloc|] eqn:Halloc; [|by apply wp_ret].
  cbv zeta. apply tracks_wp; [|done].
  apply tracks_bind; [|intros freed; tracks_tac].
  apply frames_tracks, frames_with_alloc. apply bind_Some in Halloc as (P & HP & Ha).
  eapply wp_weaken; [by eapply free_preserves, side_alloc; [apply Hinv|..]|done..].
Qed.
Hint Resolve tracks_free_buffer : tracks.

Lemma tracks_abort_transaction p id o : tracks (abort_transaction p id o).
Proof. unfold abort_transaction. tracks_tac. Qed.

Lemma frames_proc_transaction id p t : frames (proc_transaction id p t).
Proof. unfold proc_transaction. frames_tac. Qed.

Lemma frames_shadow_binder n : frames (shadow_binder n).
Proof. unfold shadow_binder. frames_tac. Qed.

End buffers.

#[export] Hint Resolve tracks_release_target_node tracks_release_record tracks_free_buffer
  tracks_abort_transaction : tracks.
#[export] Hint Resolve frames_proc_transaction frames_shadow_binder : frames.

(** ** Fixups *)

(** A placed buffer's parent was placed before it, and the last fixed-up
    buffer is one of them. *)
Record placed_ok (cs : CopyState) : Prop := {
  po_parent i pp p : cs_placed cs !! i = Some pp -> pp_parent pp = Some p -> (p < i)%nat;
  po_last i : cs_last_fixup_obj cs = Some i -> (i < length (cs_placed cs))%nat;
}.

(** The walk to the parent ends. *)
Lemma validate_fixup_walk_no_spin `{Env} placed parent at_ fuel cursor min :
  (forall i pp p, placed !! i = Some pp -> pp_parent pp = Some p -> (p < i)%nat) ->
  (cursor < fuel)%nat -> validate_fixup_walk fuel placed parent at_ cursor min <> Spinning.
Proof.
  intros Hplaced. revert cursor min. induction fuel as [|fuel IH]; intros cursor min Hf; [lia|]. simpl.
  case_decide; [done|]. destruct (placed !! cursor) as [pp|] eqn:Hpp; [|done]. simpl.
  destruct (pp_parent pp) as [p|] eqn:Hp; [|done].
  pose proof (no_spin (o := uadd 64 (pp_parent_offset pp) 8)) as Hu.
  destruct (uadd 64 (pp_parent_offset pp) 8) as [m| |]; [|done|done]. simpl.
  apply IH. specialize (Hplaced _ _ _ Hpp Hp). lia.
Qed.

#[local] Instance no_spin_validate_fixup `{Env} cs parent at_ min :
  placed_ok cs -> NoSpin (validate_fixup (cs_placed cs) parent at_ (cs_last_fixup_obj cs) min).
Proof.
  intros Hok. unfold validate_fixup. destruct (cs_last_fixup_obj cs) as [i|] eqn:Hi; [|done].
  apply validate_fixup_walk_no_spin; [apply Hok|]. pose proof (po_last _ Hok _ Hi). lia.
Qed.

(** A call chain leads to older and older transactions. *)
Lemma find_nested_no_spin s p :
  (forall id x q, st_txns s !! id = Some x -> x_from_parent x = Some q -> q < id) ->
  forall fuel cursor, (size (filter (fun kv : TxnId * Txn => (kv.1 <= cursor)%Z) (st_txns s)) < fuel)%nat ->
  find_nested fuel s p (Some cursor) <> Spinning.
Proof.
  intros Hfrom. induction fuel as [|fuel IH]; intros cursor Hf; [lia|]. simpl.
  destruct (st_txns s !! cursor) as [x|] eqn:Hx; [|done]. simpl.
  assert (Hup : find_nested fuel s p (x_from_parent x) <> Spinning).
  { destruct (x_from_parent x) as [q|] eqn:Hq; [|by destruct fuel]. apply IH.
    specialize (Hfrom _ _ _ Hx Hq).
    assert (Hc : filter (fun kv : TxnId * Txn => (kv.1 <= cursor)%Z) (st_txns s) !! cursor = Some x).
    { apply map_lookup_filter_Some. split; [done|simpl; lia]. }
    pose proof (size_delete_lt _ _ _ Hc) as Hlt. eapply Nat.lt_le_trans; [|apply Nat.lt_succ_r; exact Hf].
    eapply Nat.le_lt_trans; [apply map_subseteq_size|exact Hlt].
    apply map_subseteq_spec. intros i y [Hy Hi]%map_lookup_filter_Some. simpl in Hi.
    apply lookup_delete_Some. split; [lia|]. apply map_lookup_filter_Some. split; [done|simpl; lia]. }
  destruct (x_from x) as [[q t]|]; [|done]. by case_decide.
Qed.

(** ** Codecs and arithmetic never spin *)

#[export] Instance no_spin_u32_at bs o : NoSpin (u32_at bs o).
Proof. unfold u32_at. apply _. Qed.
#[export] Instance no_spin_i32_at bs o : NoSpin (i32_at bs o).
Proof. unfold i32_at. apply _. Qed.
#[export] Instance no_spin_u64_at bs o : NoSpin (u64_at bs o).
Proof. unfold u64_at. apply _. Qed.
#[export] Instance no_spin_put_u32 bs o v : NoSpin (put_u32 bs o v).
Proof. unfold put_u32. apply _. Qed.
#[export] Instance no_spin_put_i32 bs o v : NoSpin (put_i32 bs o v).
Proof. unfold put_i32. apply _. Qed.
#[export] Instance no_spin_put_u64 bs o v : NoSpin (put_u64 bs o v).
Proof. unfold put_u64. apply _. Qed.
#[export] Typeclasses Opaque u32_at i32_at u64_at put_u32 put_i32 put_u64.

Ltac no_spin_tac :=
  repeat lazymatch goal with
  | |- NoSpin (let _ := _ in _) => cbv zeta
  | |- NoSpin (mbind _ _) => apply no_spin_bind; [|intros ?]
  | |- NoSpin (mret _) => apply no_spin_ret
  | |- NoSpin (match ?x with _ => _ end) => destruct x
  | |- NoSpin _ => apply _
  end.

#[export] Instance no_spin_td_decode bs : NoSpin (TransactionData_decode bs).
Proof. unfold TransactionData_decode. no_spin_tac. Qed.
#[export] Instance no_spin_td_encode v : NoSpin (TransactionData_encode v).
Proof. unfold TransactionData_encode. no_spin_tac. Qed.
#[export] Instance no_spin_fb_decode bs : NoSpin (FlatBinderObject_decode bs).
Proof. unfold FlatBinderObject_decode. no_spin_tac. Qed.
#[export] Instance no_spin_bo_decode bs : NoSpin (BufferObject_decode bs).
Proof. unfold BufferObject_decode. no_spin_tac. Qed.
#[export] Instance no_spin_bo_encode v : NoSpin (BufferObject_encode v).
Proof. unfold BufferObject_encode. no_spin_tac. Qed.
#[export] Instance no_spin_fda_decode bs : NoSpin (FdArrayObject_decode bs).
Proof. unfold FdArrayObject_decode. no_spin_tac. Qed.
#[export] Instance no_spin_put_flat fp o cs : NoSpin (put_flat fp o cs).
Proof. unfold put_flat, FlatBinderObject_encode. no_spin_tac. Qed.
#[export] Instance no_spin_find_parent ce i p cs : NoSpin (find_parent ce i p cs).
Proof. unfold find_parent. no_spin_tac. Qed.
#[export] Instance no_spin_object_kind `{Env} size o image : NoSpin (object_kind size o image).
Proof. unfold object_kind. no_spin_tac. Qed.
#[export] Instance no_spin_vec_zeroed n : NoSpin (vec_zeroed n).
Proof. unfold vec_zeroed. no_spin_tac. Qed.
#[export] Instance no_spin_user_address `{Env} al o : NoSpin (user_address al o).
Proof. unfold user_address. no_spin_tac. Qed.
#[export] Typeclasses Opaque TransactionData_decode TransactionData_encode FlatBinderObject_decode
  BufferObject_decode BufferObject_encode FdArrayObject_decode put_flat find_parent object_kind.

(** ** Driver code that calls into the guest *)

(** [tracksw a m P]: like [tracks], next to a guest the driver knows nothing
    about; the result satisfies [P]. *)
Definition tracksw {G A} (a : ProcId) (dying : option ProcId) (top : Z) (m : M (World G) A)
    (P : A -> Prop) : Prop :=
  forall w, Inv dying top (w_st w) ->
    wp True m (fun x w' => Inv dying top (w_st w') /\ gsteps a (graph (w_st w)) (graph (w_st w')) /\ P x) w.

Lemma wp_st {G A} E T (m : M State A) (Q : A -> World G -> Prop) w :
  wpx E T m (fun x s' => Q x (mkWorld s' (w_guest w))) (w_st w) -> wpx E T (st m) Q w.
Proof. unfold wpx, st. by destruct (m (w_st w)) as [[x s']| |]. Qed.

Create HintDb tracksw.

Section tracksw.
Context {G : Type} (a : ProcId) (dying : option ProcId) (top : Z).
Abbreviation tracksw := (tracksw (G := G) a dying top).

Lemma tracksw_wp {A} (m : M (World G) A) P w :
  tracksw m P -> Inv dying top (w_st w) ->
  wp True m (fun x w' => Inv dying top (w_st w') /\ gsteps a (graph (w_st w)) (graph (w_st w')) /\ P x) w.
Proof. auto. Qed.

Lemma tracksw_ret {A} (x : A) (P : A -> Prop) : P x -> tracksw (mret x) P.
Proof. intros Hx w Hw. by apply wp_ret. Qed.

Lemma tracksw_bind {A B} (m : M (World G) A) (f : A -> M (World G) B) P Q :
  tracksw m P -> (forall x, P x -> tracksw (f x) Q) -> tracksw (m ≫= f) Q.
Proof.
  intros Hm Hf w Hw. apply wp_bind. eapply wp_mono; [by apply Hm|].
  intros x w1 (Hw1 & Hg1 & Hx). eapply wp_mono; [by apply Hf|].
  intros y w2 (Hw2 & Hg2 & Hy). split_and!; [done|by etrans|done].
Qed.

Lemma tracksw_seq {A B} (m : M (World G) A) (f : A -> M (World G) B) Q :
  tracksw m (fun _ => True) -> (forall x, tracksw (f x) Q) -> tracksw (m ≫= f) Q.
Proof. intros Hm Hf. by apply (tracksw_bind _ _ (fun _ => True)). Qed.

Lemma tracksw_mono {A} (m : M (World G) A) (P Q : A -> Prop) :
  tracksw m P -> (forall x, P x -> Q x) -> tracksw m Q.
Proof. intros Hm HPQ w Hw. eapply wp_mono; [by apply Hm|]. intros x w' (?&?&?). auto. Qed.

Lemma tracksw_get : tracksw get (fun _ => True).
Proof. intros w Hw. by apply wp_get. Qed.

Lemma tracksw_call {A} (o : outcome A) (P : A -> Prop) :
  NoSpin o -> (forall x, o = Done x -> P x) -> tracksw (call o) P.
Proof. intros Ho HP w Hw. apply wp_call; [done|done|]. intros x Hx. split_and!; auto. done. Qed.

Lemma tracksw_panic {A} (P : A -> Prop) : tracksw panic P.
Proof. done. Qed.

Lemma tracksw_st {A} (m : M State A) (P : A -> Prop) :
  (forall s, Inv dying top s ->
     wp True m (fun x s' => Inv dying top s' /\ gsteps a (graph s) (graph s') /\ P x) s) ->
  tracksw (st m) P.
Proof. intros Hm w Hw. apply wp_st. by apply Hm. Qed.

Lemma tracksw_tracks {A} (m : M State A) : tracks a dying top m -> tracksw (st m) (fun _ => True).
Proof.
  intros Hm. apply tracksw_st. intros s Hs. eapply wp_mono; [by apply Hm|]. intros x s' [? ?]. auto.
Qed.


End tracksw.

Section guest_calls.
Context {G : Type} `{GuestProcess G} (a : ProcId) (dying : option ProcId) (top : Z).
Abbreviation tracksw m := (tracksw (G := G) a dying top m (fun _ => True)).

Lemma tracksw_copy_from_user p n : tracksw (guest_copy_from_user p n).
Proof. intros w Hw. unfold wpx, guest_copy_from_user. by destruct (copy_from_user _ _ _). Qed.
Lemma tracksw_copy_to_user p d : tracksw (guest_copy_to_user p d).
Proof. intros w Hw. unfold wpx, guest_copy_to_user. by destruct (copy_to_user _ _ _). Qed.
Lemma tracksw_get_file fd : tracksw (guest_get_file fd).
Proof. intros w Hw. unfold wpx, guest_get_file. by destruct (get_file _ _). Qed.
Lemma tracksw_install_file f : tracksw (guest_install_file f).
Proof. intros w Hw. unfold wpx, guest_install_file. by destruct (install_file _ _). Qed.
Lemma tracksw_can_install n : tracksw (guest_can_install n).
Proof. intros w Hw. unfold wpx, guest_can_install. by destruct (can_install _ _). Qed.
Lemma tracksw_delivered b t : tracksw (guest_delivered b t).
Proof. intros w Hw. by unfold wpx, guest_delivered. Qed.
Lemma tracksw_close_fd fd : tracksw (guest_close_fd fd).
Proof. intros w Hw. by unfold wpx, guest_close_fd. Qed.

End guest_calls.

#[export] Hint Resolve tracksw_get tracksw_panic tracksw_copy_from_user tracksw_copy_to_user
  tracksw_get_file tracksw_install_file tracksw_can_install tracksw_delivered tracksw_close_fd : tracksw.
#[export] Hint Extern 1 (tracksw _ _ _ (call _) _) => apply tracksw_call; [apply _|auto] : tracksw.
#[export] Hint Extern 1 (tracksw _ _ _ (mret _) _) =>
  apply tracksw_ret; solve [ done | auto ] : tracksw.
#[export] Hint Extern 3 (tracksw _ _ _ (st _) _) =>
  eapply tracksw_mono; [apply tracksw_tracks; solve [ tracks_tac ]|auto] : tracksw.

Ltac tracksw_step :=
  lazymatch goal with
  | |- tracksw _ _ _ (mbind _ _) _ => apply tracksw_seq; [|intros ?]
  | |- tracksw _ _ _ (match ?x with _ => _ end) _ => destruct x eqn:?
  | |- tracksw _ _ _ (let _ := _ in _) _ => cbv zeta
  end.
Ltac tracksw_tac := repeat first [ solve [ eauto with tracksw ] | tracksw_step ].

(** ** Object translation *)

(** The state of the copy after a step that went well. *)
Definition copied {B} (r : result (CopyState * B) Failure) : Prop :=
  match r with Ok (cs, _) => placed_ok cs | Err _ => True end.
Arguments copied {_} !_ /.

Lemma placed_ok_ext cs cs' :
  cs_placed cs' = cs_placed cs -> cs_last_fixup_obj cs' = cs_last_fixup_obj cs ->
  placed_ok cs -> placed_ok cs'.
Proof. intros Hp Hl [H1 H2]. split; rewrite ?Hp, ?Hl; auto. Qed.

Lemma put_flat_placed fp o cs cs' : put_flat fp o cs = Done cs' -> placed_ok cs -> placed_ok cs'.
Proof.
  unfold put_flat. intros Hput. destruct (FlatBinderObject_encode fp) as [bs| |]; simpl in Hput; try done.
  destruct (splice (cs_image cs) o bs); simpl in Hput; try done. injection Hput as <-.
  by apply placed_ok_ext.
Qed.

Section objects.
Context `{Env} (Hov : overflow_checks = true).
Context (a : ProcId) (dying : option ProcId) (top : Z).

(** What follows the grant of a reference. *)
Lemma finish_object s s1 p o r fp at_ cs (kind : ShadowKind) :
  Inv dying top s1 -> gsteps a (graph s) (graph s1) -> placed_ok cs ->
  wp True (record p o r;; cs ← call (put_flat fp at_ cs); mret (Ok (cs, kind)))
    (fun x s' => Inv dying top s' /\ gsteps a (graph s) (graph s') /\ copied x) s1.
Proof.
  intros Hs1 Hg1 Hcs. wp_go.
  eapply wp_mono; [apply (frames_tracks a), Hs1; apply frames_record|]. intros _ s2 [Hs2 Hg2].
  wp_go. apply wp_call; [apply _|done|]. intros cs' Hput. apply wp_ret. split_and!; [done|by etrans|].
  by eapply put_flat_placed.
Qed.

Lemma translate_binder_spec ce o strong object cs s :
  ce_proc ce = a -> placed_ok cs -> Inv dying top s ->
  wp True (translate_binder ce o strong object cs)
    (fun x s' => Inv dying top s' /\ gsteps a (graph s) (graph s') /\ copied x) s.
Proof.
  intros Ha Hcs Hs. unfold translate_binder. wp_go. apply wp_call; [apply _|done|]. intros fp _.
  wp_go. eapply new_node_spec; [done..|]. rewrite Ha. intros node s1 n Hs1 Hg1 Hn Hown.
  wp_go. apply wp_the_node_eq with n; [done|].
  destruct (negb _); [by apply wp_ret|]. wp_go.
  apply (wp_mono _ _ _ (fun x s' => s' = s1 /\ placed_ok x.1)).
  { destruct (cs_shadow cs) as [[parcel own]|]; [|by apply wp_ret].
    unfold shadow_binder. repeat wp_go. split; [done|]. by eapply placed_ok_ext, Hcs. }
  intros [cs1 kind] ? [-> Hcs1]. wp_go.
  eapply inc_ref_for_node_spec; [done|done| |exact Hn| |].
  - left. exists (node_view n). split; [by apply lookup_graph_node|done].
  - intros q t [= <- <-]. done.
  - intros [desc|e] s2 Hs2 Hg2; [|apply wp_ret; by split_and!; [|etrans|]].
    apply finish_object; [done|by etrans|done].
Qed.

Lemma translate_handle_spec ce o strong object cs s :
  ce_proc ce = a -> placed_ok cs -> Inv dying top s ->
  wp True (translate_handle ce o strong object cs)
    (fun x s' => Inv dying top s' /\ gsteps a (graph s) (graph s') /\ copied x) s.
Proof.
  intros Ha Hcs Hs. pose proof Hs as [Hg Hside]. unfold translate_handle. wp_go.
  apply wp_call; [apply _|done|]. intros fp _. wp_go. wp_go. rewrite Ha.
  destruct (get_ref s a _ strong) as [r|] eqn:Hr; [|by apply wp_ret].
  destruct (get_ref_handle _ _ _ _ _ Hg Hr) as [Hh Hst].
  destruct (handle_facts _ _ _ _ _ _ _ _ Hs Hh) as (_ & _ & _ & _ & x & Hx & Hid & _).
  cbv zeta. wp_go. apply (wp_mono _ _ _ (fun _ s' => s' = s)).
  { unfold shadow_binder. destruct (cs_shadow cs); repeat wp_go; done. }
  intros kind ? ->. wp_go. apply wp_the_node_eq with x; [done|].
  case_decide.
  - wp_go. eapply inc_node_spec; [done..| |].
    + intros s1 Hs1 Hg1. rewrite andb_false_r in Hg1. apply finish_object; [|by rewrite Hg1|done].
      split; [by rewrite Hg1|done].
    + intros s1 e Hs1 Hg1. apply wp_ret. split_and!; [split; [by rewrite Hg1|done]|by rewrite Hg1|done].
  - wp_go. eapply inc_ref_for_node_spec; [done|done| |exact Hx|done|].
    + right. left. eauto.
    + intros [desc|e] s2 Hs2 Hg2; [|apply wp_ret; by split_and!].
      by apply finish_object.
Qed.

Context {G : Type} `{GuestProcess G}.
Abbreviation tracksw := (tracksw (G := G) a dying top).

Lemma tracksw_translate_fd ce o object cs : placed_ok cs -> tracksw (translate_fd ce o object cs) copied.
Proof.
  intros Hcs. unfold translate_fd. tracksw_tac. all: apply tracksw_ret; by eapply placed_ok_ext, Hcs.
Qed.

Lemma tracksw_array_fixups image base n i fixups : tracksw (array_fixups image base n i fixups) (fun _ => True).
Proof. revert i fixups. induction n as [|n IH]; intros i fixups; simpl; tracksw_tac. Qed.

Lemma tracksw_copy_in p o n image : tracksw (copy_in p o n image) (fun _ => True).
Proof. unfold copy_in. tracksw_tac. Qed.

(** A parent is one of the placed buffers. *)
Lemma find_parent_lt ce i parent cs p :
  find_parent ce i parent cs = Done (Some p) -> (p < length (cs_placed cs))%nat.
Proof.
  unfold find_parent. destruct (_ || _); [done|].
  destruct (u64_at _ _) as [off| |]; simpl; try done. intros [= Hp]. by apply position_lt in Hp.
Qed.

Lemma tracksw_translate_fda ce i object cs : placed_ok cs -> tracksw (translate_fda ce i object cs) copied.
Proof.
  intros Hcs. unfold translate_fda. cbv zeta. apply tracksw_seq; [tracksw_tac|intros fda].
  apply (tracksw_bind _ _ _ _ _ (fun r => forall p, r = Some p -> (p < length (cs_placed cs))%nat)).
  { apply tracksw_call; [apply _|]. intros r Hr p ->. by eapply find_parent_lt. }
  intros [p|] Hp; [|tracksw_tac]. specialize (Hp p eq_refl).
  apply tracksw_seq; [apply tracksw_call; [by apply no_spin_validate_fixup|done]|intros valid].
  pose proof tracksw_array_fixups. tracksw_tac.
  apply tracksw_ret. split; [apply Hcs|]. by intros ? [= <-].
Qed.

Lemma fixup_parent_ok ce i bp cs :
  placed_ok cs -> NoSpin (fixup_parent ce i bp cs) /\
  forall cs' parent, fixup_parent ce i bp cs = Done (Ok (cs', parent)) ->
    cs_placed cs' = cs_placed cs /\ (forall p, parent = Some p -> (p < length (cs_placed cs))%nat).
Proof.
  intros Hcs. unfold fixup_parent. cbv zeta. destruct (negb _); [split; [apply _|]; by intros ? ? [= <- <-]|].
  destruct (find_parent ce i (bo_parent bp) cs) as [[p|]| |] eqn:Hp; simpl; try by (split; [apply _|]).
  2: { exfalso. by apply (no_spin_find_parent ce i (bo_parent bp) cs). }
  apply find_parent_lt in Hp. pose proof (no_spin_validate_fixup cs p (bo_parent_offset bp) (cs_last_fixup_min cs) Hcs).
  split; [no_spin_tac|].
  intros cs' parent Hr. destruct (validate_fixup _ _ _ _ _) as [[|]| |]; simpl in Hr; try done.
  destruct (cs_placed cs !! p); simpl in Hr; try done. destruct (_ || _); [done|].
  destruct (uadd _ _ _); simpl in Hr; try done. destruct (put_u64 _ _ _); simpl in Hr; try done.
  injection Hr as <- <-. split; [done|]. by intros ? [= <-].
Qed.

Lemma placed_ok_app cs (cs' : CopyState) pp :
  placed_ok cs -> (forall p, pp_parent pp = Some p -> (p < length (cs_placed cs))%nat) ->
  cs_placed cs' = cs_placed cs ++ [pp] -> cs_last_fixup_obj cs' = Some (length (cs_placed cs)) ->
  placed_ok cs'.
Proof.
  intros [Hpar Hlast] Hpp Hp Hl. split; rewrite ?Hp, ?Hl.
  - intros i x p [Hx|[Hi Hx]]%lookup_app_Some; [by eauto|].
    apply list_lookup_singleton_Some in Hx as [? <-]. intros ?%Hpp. lia.
  - intros i [= <-]. rewrite length_app. simpl. lia.
Qed.

Lemma tracksw_translate_ptr ce i o object cs :
  placed_ok cs -> tracksw (translate_ptr ce i o object cs) copied.
Proof.
  intros Hcs. unfold translate_ptr. pose proof tracksw_copy_in.
  do 2 (apply tracksw_seq; [tracksw_tac|intros ?]). cbv zeta. tracksw_step; [tracksw_tac|].
  apply tracksw_seq; [done|intros [image|]; [|tracksw_tac]].
  do 3 (apply tracksw_seq; [tracksw_tac|intros ?]).
  match goal with |- context [fixup_parent ce i ?bp ?cs'] =>
    destruct (fixup_parent_ok ce i bp cs') as [Hns Hfix]; [by eapply placed_ok_ext, Hcs|] end.
  apply (tracksw_bind _ _ _ _ _ (fun r => forall cs' parent, r = Ok (cs', parent) ->
    cs_placed cs' = cs_placed cs /\ (forall p, parent = Some p -> (p < length (cs_placed cs))%nat))).
  { apply tracksw_call; [done|]. intros r Hr cs' parent ->. by apply Hfix in Hr. }
  intros [[cs' parent]|] Hr; [|tracksw_tac]. destruct (Hr _ _ eq_refl) as [Hp Hpar].
  do 2 (apply tracksw_seq; [tracksw_tac|intros ?]).
  apply tracksw_ret. eapply (placed_ok_app cs); [done| |simpl; by rewrite Hp|simpl; by rewrite Hp].
  done.
Qed.

Lemma tracksw_translate_object ce i cs :
  ce_proc ce = a -> placed_ok cs ->
  tracksw (translate_object ce i cs) (fun r => forall cs', r = Ok cs' -> placed_ok cs').
Proof.
  intros Ha Hcs. unfold translate_object. do 2 (apply tracksw_seq; [tracksw_tac|intros ?]).
  destruct (object_size _) as [sz|]; [|tracksw_tac]. tracksw_step; [tracksw_tac|].
  apply tracksw_seq; [tracksw_tac|intros end_]. tracksw_step; [tracksw_tac|]. cbv zeta.
  apply tracksw_seq; [tracksw_tac|intros object].
  assert (Hcs1 : placed_ok (cs <| cs_off_min := end_ |>)) by by eapply placed_ok_ext, Hcs.
  apply (tracksw_bind _ _ _ _ _ copied).
  { repeat tracksw_step;
      first [ apply tracksw_st; intros s Hs; by first [apply translate_binder_spec|apply translate_handle_spec]
            | by apply tracksw_translate_fd | by apply tracksw_translate_fda | by apply tracksw_translate_ptr
            | apply tracksw_panic ]. }
  intros [[cs' kind]|] Hr; [|tracksw_tac]. apply tracksw_ret. intros ? [= <-]. by eapply placed_ok_ext, Hr.
Qed.

Lemma tracksw_translate_objects ce n i cs :
  ce_proc ce = a -> placed_ok cs -> tracksw (translate_objects ce n i cs) (fun _ => True).
Proof.
  intros Ha. revert i cs. induction n as [|n IH]; intros i cs Hcs; simpl; [tracksw_tac|].
  eapply tracksw_bind; [by apply tracksw_translate_object|]. intros [cs'|] Hr; [|tracksw_tac].
  by apply IH, Hr.
Qed.

Lemma tracksw_copy_transaction tid target id o tr extra secctx in_reply_to identify :
  tracksw (copy_transaction a tid target id o tr extra secctx in_reply_to identify) (fun _ => True).
Proof.
  unfold copy_transaction, put_secctx, accepts_fds. pose proof tracksw_copy_in.
  cbv zeta. tracksw_step; [tracksw_tac|].
  do 9 (apply tracksw_seq; [tracksw_tac|intros ?]).
  do 2 (apply tracksw_seq; [done|intros [?|]; [|tracksw_tac]]).
  do 2 (apply tracksw_seq; [tracksw_tac|intros ?]).
  apply tracksw_seq; [apply tracksw_translate_objects; [done|]|intros ?; tracksw_tac].
  by split.
Qed.

Lemma tracksw_trace_head tr n : tracksw (trace_head tr n) (fun _ => True).
Proof. unfold trace_head. tracksw_tac. Qed.

Lemma tracksw_trace_sent tid target id tr : tracksw (trace_sent a tid target id tr) (fun _ => True).
Proof. unfold trace_sent. pose proof tracksw_trace_head. tracksw_tac. Qed.

Lemma tracksw_observe_reply tr in_reply_to id copy :
  tracksw (observe_reply tr in_reply_to id copy) (fun _ => True).
Proof. unfold observe_reply. pose proof tracksw_trace_head. tracksw_tac. Qed.

Lemma tracksw_send_reply tid tr id tg o complete in_reply_to copy :
  is_node complete = false ->
  tracksw (send_reply a tid tr id tg o complete in_reply_to copy) (fun _ => True).
Proof. intros Hc. unfold send_reply. pose proof tracksw_observe_reply. tracksw_tac. Qed.

End objects.

(** ** Targets *)

(** The bound on the stacks may be raised. *)
Lemma Inv_raise dying top top' s :
  Inv dying top s -> top <= top' -> top' <= st_next_id s -> Inv dying top' s.
Proof.
  intros [Hg Hs] Hle Hnext. split; [done|]. split; try apply Hs; try done.
  - intros q t T x HT Hx. pose proof (side_stack _ _ _ Hs _ _ _ _ HT Hx). lia.
  - intros id x q Hx Hq. pose proof (side_from _ _ _ Hs _ _ _ Hx Hq). lia.
  - intros id x q Hx Hq. pose proof (side_to _ _ _ Hs _ _ _ Hx Hq). lia.
Qed.

Lemma gsteps_next_id a dying top s s' :
  Inv dying top s -> gsteps a (graph s) (graph s') -> st_next_id s <= st_next_id s'.
Proof.
  intros [Hg _] Hsteps.
  enough (forall g g', graph_wf g -> gsteps a g g' -> g_fresh g <= g_fresh g') as Hm.
  { specialize (Hm _ _ Hg Hsteps). simpl in Hm. lia. }
  clear. intros g g' Hg. induction 1 as [|g g1 g2 Hstep _ IH]; [done|].
  etrans; [by eapply gstep_fresh|]. apply IH. by eapply gstep_wf.
Qed.

Section targets.
Context `{Env} (Hov : overflow_checks = true).
Context (a : ProcId) (dying : option ProcId) (top : Z).
Abbreviation tracks := (tracks a dying top).

Lemma tracks_resolve_reply p t : tracks (resolve_reply p t).
Proof.
  intros s Hs. unfold resolve_reply. wp_go. wp_go.
  destruct (thread_of s p t ≫= t_transaction_stack) as [id|]; [|by apply wp_ret].
  wp_go. apply wp_the_txn. intros x Hx. destruct (_ || _); [by apply wp_ret|].
  apply tracks_wp; [|done]. tracks_step; [|tracks_tac].
  apply frames_tracks, frames_thread; [done|]. simpl. intros T q Hq. right.
  by eapply (side_to _ _ _ (inv_side _ _ _ Hs)).
Qed.

(** A node of the graph that a transaction may go to. *)
Lemma resolve_node_spec p h s (Q : result NodeId Failure -> State -> Prop) :
  Inv dying top s -> (forall r, Q r s) -> wp True (resolve_node p h) Q s.
Proof. intros Hs HQ. unfold resolve_node. repeat wp_go; done. Qed.

Lemma tracks_inc_node n strong :
  forall s x, Inv dying top s -> st_nodes s !! n = Some x ->
  wp True (inc_node n strong false None) (fun _ s' => Inv dying top s' /\ gsteps a (graph s) (graph s')) s.
Proof.
  intros s x Hs Hx. pose proof Hs as [Hg Hside].
  eapply inc_node_spec; [done|done|done|by eapply node_id_le|done| |]; intros s1; [|intros e]; intros Hs1 Hg1;
    rewrite ?andb_false_r in Hg1; (split; [split; [by rewrite Hg1|done]|by rewrite Hg1]).
Qed.

Lemma tracks_find_nested owner id n :
  tracks (s ← get; t ← call (find_nested (S (size (st_txns s))) s owner (Some id));
          mret (Ok (mkTarget owner t (Some n)) : result Target Failure)).
Proof.
  intros s Hs. wp_go. wp_go. wp_go. apply wp_call; [|done|].
  { apply find_nested_no_spin.
    - intros i y q Hy Hq. by eapply (side_from _ _ _ (inv_side _ _ _ Hs)).
    - apply Nat.lt_succ_r, map_subseteq_size, map_filter_subseteq. }
  intros t _. by apply wp_ret.
Qed.
Hint Resolve tracks_find_nested : tracks.

Lemma tracks_resolve_call p t tr oneway : tracks (resolve_call p t tr oneway).
Proof.
  intros s Hs. unfold resolve_call. wp_go. apply resolve_node_spec; [done|].
  intros [n|]; [|by apply wp_ret]. wp_go. apply wp_the_node. intros x Hx.
  destruct (n_proc x) as [owner|]; [|by apply wp_ret]. wp_go.
  eapply wp_mono; [by eapply tracks_inc_node|]. intros r s1 [Hs1 Hg1].
  apply tracks_after; [|done|done]. tracks_tac.
Qed.

(** The sizes of a transaction, as the command carries them. *)
Record sizes_ok (tr : TransactionData) (extra : Z) : Prop := {
  so_data : 0 <= td_data_size tr;
  so_offsets : 0 <= td_offsets_size tr;
  so_extra : 0 <= extra;
}.

Lemma tracks_allocate_in p data offsets extra is_async pid :
  0 <= data -> 0 <= offsets -> 0 <= extra -> tracks (allocate_in p data offsets extra is_async pid).
Proof.
  intros Hd Ho He s Hs. unfold allocate_in. wp_go. wp_go.
  destruct (st_procs s !! p ≫= p_alloc) as [al|] eqn:Hal; [|by apply wp_ret].
  apply bind_Some in Hal as (P & HP & Hal). apply tracks_wp; [|done].
  apply frames_tracks, frames_with_alloc. eapply wp_weaken; [apply allocate_preserves; try done|done..].
  by eapply (side_alloc _ _ _ (inv_side _ _ _ Hs)).
Qed.

(** A new transaction is on no stack yet. *)
Lemma frames_insert_txn id x :
  x_from_parent x = None -> x_to_parent x = None ->
  forall s, Side dying top s -> id <= st_next_id s ->
  Side dying top (set_field st_txns (insert id x) s).
Proof.
  intros Hf Ht s Hs Hid. split; simpl; try apply Hs.
  - intros i y [[<- <-]|[_ Hy]]%lookup_insert_Some; [done|by eapply side_txn].
  - intros i y q [[<- <-]|[_ Hy]]%lookup_insert_Some Hq; [congruence|by eapply side_from].
  - intros i y q [[<- <-]|[_ Hy]]%lookup_insert_Some Hq; [congruence|by eapply side_to].
Qed.

Lemma wp_security_context node sender (Q : option (list byte) -> State -> Prop) s :
  (forall r, Q r s) -> wp True (security_context node sender) Q s.
Proof. intros HQ. unfold security_context. repeat wp_go; done. Qed.

Definition fresh_txn {B} (r : result (TxnId * Allocation * B) Failure) (s : State) : Prop :=
  match r with Ok (id, _, _) => top < id <= st_next_id s | Err _ => True end.

Lemma place_transaction_spec p t tr reply oneway extra sender delegated tg s :
  sizes_ok tr extra -> Inv dying top s ->
  wp True (place_transaction p t tr reply oneway extra sender delegated tg)
    (fun r s' => Inv dying top s' /\ gsteps a (graph s) (graph s') /\ fresh_txn r s') s.
Proof.
  intros [Hd Ho He] Hs. unfold place_transaction. wp_go. apply wp_security_context. intros ctx.
  wp_go. apply (wp_mono _ _ _ (fun space s' => s' = s /\ 0 <= space)).
  { destruct ctx as [c|]; [|by apply wp_ret]. apply wp_call; [apply _|done|].
    intros space Hsp%unwrap_Done. apply align8_spec in Hsp; [|lia]. split; [done|lia]. }
  intros space ? [-> Hspace].
  assert (Hfail : forall s1 e, Inv dying top s1 -> gsteps a (graph s) (graph s1) ->
    wp True (release_target_node (tg_node tg);; mret (Err e))
      (fun r s' => Inv dying top s' /\ gsteps a (graph s) (graph s') /\
         fresh_txn (B := option (list byte)) r s') s1).
  { intros s1 e Hs1 Hg1. wp_go. eapply wp_mono; [by apply tracks_after; [apply tracks_release_target_node|..]|].
    intros _ s2 [? ?]. by apply wp_ret. }
  destruct (checked_add 64 extra space) as [total|] eqn:Hadd; [|by apply Hfail].
  apply checked_add_Some in Hadd as [-> _]. wp_go.
  eapply wp_mono; [apply tracks_allocate_in; [lia..|done]|]. intros r s1 [Hs1 Hg1].
  destruct r as [al|e]; [|by apply Hfail].
  wp_go. eapply wp_mono; [apply wp_and; [by apply (tracks_next_id Hov a)|by apply (next_id_spec Hov s1 (fun id s' =>
    id = st_next_id s1 + 1 /\ st_next_id s' = st_next_id s1 + 1))]|]. intros id s2 [[Hs2 Hg2] [-> Hnext]].
  wp_go. wp_go. wp_go. pose proof (side_top _ _ _ (inv_side _ _ _ Hs1)).
  match goal with |- wpx _ _ _ _ ?s3 => assert (Hs3 : Inv dying top s3) end.
  { split; [apply Hs2|]. apply frames_insert_txn; [done|done|apply Hs2|lia]. }
  eapply wp_mono; [apply wp_and; [by apply (frames_tracks a _ _ _ (frames_the_buffer dying top (tg_proc tg) (al_offset al)))|]|].
  { unfold the_buffer. repeat wp_go. instantiate (1 := fun _ s' => st_next_id s' = st_next_id s1 + 1). done. }
  intros _ s4 [[Hs4 Hg4] Hn4]. wp_go. wp_go. apply wp_ret.
  destruct (frames_buffer dying top (tg_proc tg) (al_offset al) (fun b =>
    b <| b_txn := Some (st_next_id s1 + 1) |> <| b_target_node := tg_node tg |>
      <| b_clear_on_free := has_flag (td_flags tr) TF_CLEAR_BUF |>) ltac:(by intros) s4 (inv_side _ _ _ Hs4)) as [Hs5 Hg5].
  split_and!.
  - split; [rewrite Hg5; apply Hs4|done].
  - rewrite Hg5. etrans; [exact Hg1|]. etrans; [exact Hg2|exact Hg4].
  - simpl. lia.
Qed.

End targets.

#[export] Hint Resolve tracks_resolve_reply tracks_resolve_call : tracks.

(** ** Delivery *)

#[export] Instance no_spin_Shadow_sent `{Env} id node copy oneway ss :
  NoSpin (Shadow_sent id node copy oneway ss).
Proof.
  destruct ss as [sh sinks]. unfold NoSpin, Shadow_sent. unfold mbind, M_bind, get. simpl.
  destruct (sh_watched sh !! node); [|done]. unfold call.
  pose proof (no_spin (o := uadd 64 (sh_next_seq sh) 1)). destruct (uadd _ _ _); [|done|done].
  by destruct oneway.
Qed.

Section delivery.
Context `{Env} (Hov : overflow_checks = true).
Context (a : ProcId) (dying : option ProcId) (top : Z).
Abbreviation tracks := (tracks a dying top).

Lemma tracks_send_oneway t id tg o complete :
  is_node complete = false -> tracks (send_oneway a t id tg o complete).
Proof. intros Hc. unfold send_oneway. tracks_tac. Qed.

Lemma frames_shadow_call t tr id tg oneway parcel : frames dying top (shadow_call t tr id tg oneway parcel).
Proof. unfold shadow_call. frames_tac. Qed.

Lemma frames_deliver_failure p t debug_id in_reply_to failure :
  frames dying top (deliver_failure p t debug_id in_reply_to failure).
Proof. unfold deliver_failure. frames_tac. Qed.

(** A call pushes its transaction on the sender's stack. *)
Lemma send_call_spec t id tg o complete s :
  is_node complete = false -> Inv dying top s -> top < id <= st_next_id s ->
  wp True (send_call a t id tg o complete)
    (fun _ s' => Inv dying id s' /\ gsteps a (graph s) (graph s')) s.
Proof.
  intros Hc Hs [Htop Hid]. unfold send_call. wp_go.
  eapply wp_mono; [by apply (frames_tracks a), Hs; apply frames_enqueue_deferred|]. intros _ s1 [Hs1 Hg1].
  assert (Hid1 : id <= st_next_id s1) by (pose proof (gsteps_next_id _ _ _ _ _ Hs Hg1); lia).
  wp_go. apply wp_the_thread. intros T HT. wp_go. apply wp_the_txn. intros x Hx. wp_go. wp_go.
  match goal with |- wpx _ _ _ _ ?s2 => assert (Hs2 : Inv dying id s2) end.
  { apply (Inv_raise _ top); [split; [apply Hs1|]|lia|done].
    apply Side_alter_txn; [|by auto|apply Hs1]. intros y q _ Hq. left.
    pose proof (side_stack _ _ _ (inv_side _ _ _ Hs1) _ _ _ _ HT Hq). lia. }
  apply tracks_after; [|done|done]. tracks_step; [|tracks_tac].
  apply frames_tracks, frames_thread; [done|]. intros ? q [= <-]. by right.
Qed.

End delivery.

#[export] Hint Resolve frames_shadow_call frames_deliver_failure : frames.

(** ** The transaction *)

(** The driver's invariant between two operations. *)
Definition Good (dying : option ProcId) (s : State) : Prop := Inv dying (st_next_id s) s.

Lemma Inv_Good dying top s : Inv dying top s -> Good dying s.
Proof. intros Hs. apply (Inv_raise _ top); [done|apply Hs|done]. Qed.

(** [drives a m]: [tracks] between two operations, where the stacks may grow. *)
Definition drives {G A} (a : ProcId) (dying : option ProcId) (m : M (World G) A) : Prop :=
  forall w, Good dying (w_st w) ->
    wp True m (fun _ w' => Good dying (w_st w') /\ gsteps a (graph (w_st w)) (graph (w_st w'))) w.

Section transaction.
Context `{Env} (Hov : overflow_checks = true).
Context {G : Type} `{GuestProcess G} (a : ProcId) (dying : option ProcId).
Abbreviation drives := (drives (G := G) a dying).

Lemma drives_bind {A B} (m : M (World G) A) (f : A -> M (World G) B) :
  drives m -> (forall x, drives (f x)) -> drives (m ≫= f).
Proof.
  intros Hm Hf w Hw. apply wp_bind. eapply wp_mono; [by apply Hm|].
  intros x w1 (Hw1 & Hg1). eapply wp_mono; [by apply Hf|].
  intros y w2 (Hw2 & Hg2). split; [done|by etrans].
Qed.

Lemma drives_tracksw {A} (m : M (World G) A) P : (forall top, tracksw a dying top m P) -> drives m.
Proof.
  intros Hm w Hw. eapply wp_mono; [by apply Hm|]. intros x w' (Hw' & Hg & _).
  split; [by eapply Inv_Good|done].
Qed.

Lemma drives_tracks {A} (m : M State A) : (forall top, tracks a dying top m) -> drives (st m).
Proof. intros Hm. eapply drives_tracksw. intros top. by apply tracksw_tracks. Qed.

(** The rest of a run that has got to [w]. *)
Lemma drives_after {A} (m : M (World G) A) g w :
  drives m -> gsteps a g (graph (w_st w)) -> Good dying (w_st w) ->
  wp True m (fun _ w' => Good dying (w_st w') /\ gsteps a g (graph (w_st w'))) w.
Proof. intros Hm Hg Hw. eapply wp_mono; [by apply Hm|]. intros x w' [? ?]. split; [done|by etrans]. Qed.

(** While transaction [id] is being made: it is on no stack. *)
Definition making (top : Z) (id : TxnId) (g : Graph) (w : World G) : Prop :=
  Inv dying top (w_st w) /\ top < id <= st_next_id (w_st w) /\ gsteps a g (graph (w_st w)).

Lemma making_after {A} top id (m : M (World G) A) P g w :
  tracksw a dying top m P -> making top id g w -> wp True m (fun _ => making top id g) w.
Proof.
  intros Hm (Hw & Hid & Hg). eapply wp_mono; [by apply Hm|]. intros x w' (Hw' & Hg' & _).
  pose proof (gsteps_next_id _ _ _ _ _ Hw Hg'). split_and!; [done|lia|lia|by etrans].
Qed.

Lemma making_done top id g w : making top id g w -> Good dying (w_st w) /\ gsteps a g (graph (w_st w)).
Proof. intros (Hw & _ & Hg). split; [by eapply Inv_Good|done]. Qed.

Lemma send_made t tr top id tg o complete reply in_reply_to shadowed g w :
  let oneway := negb reply && has_flag (td_flags tr) TF_ONE_WAY in
  is_node complete = false -> making top id g w ->
  wp True
    (if reply then send_reply a t tr id tg o complete in_reply_to shadowed
     else if oneway then st (send_oneway a t id tg o complete)
     else st (send_call a t id tg o complete))
    (fun _ w' => Good dying (w_st w') /\ gsteps a g (graph (w_st w'))) w.
Proof.
  intros oneway Hc Hw. destruct reply; [|destruct oneway].
  - eapply wp_mono; [eapply making_after; [by apply tracksw_send_reply|done]|].
    intros ? ? Hm. exact (making_done _ _ _ _ Hm).
  - eapply wp_mono; [eapply making_after; [by apply tracksw_tracks, tracks_send_oneway|done]|].
    intros ? ? Hm. exact (making_done _ _ _ _ Hm).
  - apply wp_st. destruct Hw as (Hw & Hid & Hg).
    eapply wp_mono; [by eapply send_call_spec|]. intros ? s' [? ?]. split; [by eapply Inv_Good|by etrans].
Qed.

Lemma drives_transaction_inner t tr reply extra :
  sizes_ok tr extra -> drives (transaction_inner a t tr reply extra).
Proof.
  intros Hsz. unfold transaction_inner. cbv zeta.
  apply drives_bind; [apply (drives_tracksw _ (fun _ => True)); intros; apply tracksw_get|intros w0].
  apply drives_bind; [apply (drives_tracksw _ (fun _ => True)); intros; tracksw_tac|intros sender].
  apply drives_bind; [apply (drives_tracksw _ (fun _ => True)); intros; tracksw_tac|intros [in_reply_to target]].
  destruct target as [tg|failure]; [|apply (drives_tracksw _ (fun _ => True)); intros; tracksw_tac].
  intros w Hw. wp_go. apply wp_st.
  eapply wp_mono; [by apply place_transaction_spec|]. intros r s1 (Hs1 & Hg1 & Hr).
  destruct r as [[[id al] ctx]|failure]; [|apply wp_ret; split; [by eapply Inv_Good|done]].
  assert (Hw1 : making (st_next_id (w_st w)) id (graph (w_st w)) (mkWorld s1 (w_guest w))) by done.
  revert Hw1. generalize (mkWorld s1 (w_guest w)) (st_next_id (w_st w)) (graph (w_st w)). clear -Hov.
  intros w top g Hw. wp_go. wp_go. wp_go.
  eapply wp_mono; [eapply making_after; [by apply tracksw_copy_transaction|exact Hw]|]. clear -Hov. intros [shadowed|failure] w Hw.
  - wp_go. wp_go. wp_go. eapply wp_mono; [eapply making_after; [|exact Hw]|].
    { pose proof tracksw_trace_sent. instantiate (1 := fun _ => True). tracksw_tac. }
    clear -Hov. intros ? w Hw. wp_go. eapply wp_mono; [eapply making_after; [|exact Hw]|].
    { instantiate (1 := fun _ => True). tracksw_tac. }
    clear -Hov. intros ? w Hw. wp_go.
    eapply wp_mono; [eapply send_made; [by destruct (al_oneway_spam_suspect al)|exact Hw]|]. intros r w' Hw'. by apply wp_ret.
  - eapply wp_mono; [eapply making_after; [|exact Hw]|intros ? ? Hm; exact (making_done _ _ _ _ Hm)].
    instantiate (1 := fun _ => True). tracksw_tac.
Qed.

Lemma drives_transaction t tr reply extra :
  sizes_ok tr extra -> drives (transaction a t tr reply extra).
Proof.
  intros Hsz. unfold transaction.
  apply drives_bind; [apply drives_tracks; intros; by apply tracks_next_id|intros id]. cbv zeta.
  apply drives_bind; [apply drives_tracks; intros; tracks_tac|intros _].
  apply drives_bind; [by apply drives_transaction_inner|]. intros [in_reply_to r].
  apply (drives_tracksw _ (fun _ => True)). intros. tracksw_tac.
Qed.

End transaction.
