(* ===== verification/Teardown.v ===== *)
(** A process that closes its binder fd leaves the graph of [Graph.v] by steps
    it may cause: its objects die, its handles are dropped, and it is gone. *)

From S2P Require Import Prelude Host Uapi Alloc Trace Shadow State Transaction Release Graph Frames.
From S2P Require Import Refinement Transfer.
From Stdlib Require Import ZArith Lia.
From stdpp Require Import base numbers list gmap sorting relations.

Open Scope Z_scope.

(** While the objects of [p] die, the table of its objects is already empty;
    [with_nodes p m g] is the graph with the entries still to come. *)
Definition with_nodes (p : ProcId) (m : gmap Z NodeId) (g : Graph) : Graph :=
  g <| g_procs ::= alter (set_field gp_nodes (fun _ => m)) p |>.

Lemma with_nodes_id p g gp :
  g_procs g !! p = Some gp -> with_nodes p (gp_nodes gp) g = g.
Proof.
  intros Hp. unfold with_nodes, set_field. destruct g as [procs nodes managers fresh]. simpl in *. f_equal.
  rewrite <- (insert_id procs p gp Hp) at 2. rewrite (alter_Some _ _ _ _ Hp). f_equal. by destruct gp.
Qed.

Section release.
Context `{Env} (Hov : overflow_checks = true).
Context (p : ProcId) (top : Z).
Abbreviation tracks := (tracks p (Some p) top).

(** While the objects of [p] die: [m] are those still alive, [g] is where the
    release started. *)
Record Dying (g : Graph) (m : gmap Z NodeId) (s : State) : Prop := {
  dy_side : Side (Some p) top s;
  dy_wf : graph_wf (with_nodes p m (graph s));
  dy_steps : gsteps p g (with_nodes p m (graph s));
  dy_empty : exists P, st_procs s !! p = Some P /\ p_nodes P = ∅;
}.

Lemma Dying_step g m m' s s' :
  Dying g m s -> Side (Some p) top s' -> g_procs (graph s') = g_procs (graph s) ->
  gstep p (with_nodes p m (graph s)) (with_nodes p m' (graph s')) -> Dying g m' s'.
Proof.
  intros [Hs Hwf Hsteps (P & HP & He)] Hs' Hprocs Hstep. split; [done|by eapply gstep_wf|by eapply rtc_r|].
  pose proof (lookup_graph_proc _ _ _ HP) as Hp. rewrite <- Hprocs in Hp. simpl in Hp.
  rewrite lookup_fmap in Hp. apply fmap_Some in Hp as (P' & HP' & Hv). exists P'. split; [done|].
  apply (f_equal gp_nodes) in Hv. simpl in Hv. congruence.
Qed.

(** A dead node loses its owner, in the view of the side conditions. *)
Lemma Side_disown id x f s :
  Side (Some p) top s -> st_nodes s !! id = Some x -> n_proc x = Some p -> Side (Some p) top (alter_node id f s).
Proof.
  intros Hs Hx Hown. split; simpl; try apply Hs.
  intros q P i n HP Hd Hw [[_ Hn]|(-> & x0 & Hn & ->)]%lookup_alter_cases; [by eapply side_work|].
  exfalso. apply Hd. f_equal. pose proof (side_work _ _ _ Hs _ _ _ _ HP Hd Hw Hn). congruence.
Qed.

Lemma Dying_frames {A} g m (c : M State A) s :
  frames (Some p) top c -> Dying g m s -> wp True c (fun _ s' => Dying g m s' /\ graph s' = graph s) s.
Proof.
  intros Hc [Hs Hwf Hsteps (P & HP & He)]. eapply wp_mono; [by apply Hc|]. intros x s' [Hs' Hg].
  split; [|done]. split; rewrite ?Hg; [done..|].
  pose proof (lookup_graph_proc _ _ _ HP) as Hp. rewrite <- Hg in Hp. simpl in Hp.
  rewrite lookup_fmap in Hp. apply fmap_Some in Hp as (P' & HP' & Hv). exists P'. split; [done|].
  apply (f_equal gp_nodes) in Hv. simpl in Hv. congruence.
Qed.

Lemma retire_spec g m id x s :
  Dying g m s -> st_nodes s !! id = Some x -> n_proc x = Some p ->
  wp True (if bool_decide (n_refs x = ∅) then remove_node id
           else modify (alter_node id (fun n =>
                  n <| n_proc := None |> <| n_local_strong_refs := 0 |> <| n_local_weak_refs := 0 |>));;
                for_each (notify_holder id) (merge_sort Z.le (elements (n_refs x))))
    (fun _ => Dying g (delete (n_ptr x) m)) s.
Proof.
  intros Hd Hx Hown. pose proof (dy_side _ _ _ Hd) as Hs. pose proof (lookup_graph_node _ _ _ Hx) as Hgn.
  case_bool_decide as Hrefs.
  - apply (remove_node_spec (Some p) top); [done|]. intros s' Hs' Hg.
    eapply Dying_step; [done|done|by rewrite Hg|].
    replace (with_nodes p (delete (n_ptr x) m) (graph s')) with (collect id (with_nodes p m (graph s))).
    { eapply gs_collect; [exact Hgn|done]. }
    unfold collect. change (g_nodes (with_nodes p m (graph s))) with (g_nodes (graph s)). rewrite Hgn, Hg.
    simpl. rewrite Hown. unfold with_nodes, set_field. simpl. f_equal. rewrite alter_alter_eq. by apply alter_ext.
  - wp_go. wp_go.
    match goal with |- wpx _ _ _ _ ?s1 => assert (Hd1 : Dying g (delete (n_ptr x) m) s1) end.
    { eapply Dying_step; [done|by eapply Side_disown|done|].
      match goal with |- gstep _ _ (with_nodes _ _ ?g1) =>
        replace (with_nodes p (delete (n_ptr x) m) g1) with (orphan id (with_nodes p m (graph s))) end.
      { eapply gs_orphan; [exact Hgn|done]. }
      unfold orphan. change (g_nodes (with_nodes p m (graph s))) with (g_nodes (graph s)). rewrite Hgn.
      simpl. rewrite Hown. unfold with_nodes, set_field, graph. simpl. f_equal.
      - rewrite alter_alter_eq. by apply alter_ext.
      - erewrite alter_Some by done. by rewrite fmap_insert. }
    eapply wp_mono; [apply Dying_frames; [|exact Hd1]|by intros ? ? [? _]].
    apply frames_for_each. intros q. apply frames_notify_holder.
Qed.

Lemma node_release_spec g m ptr id s :
  Dying g m s -> m !! ptr = Some id -> wp True (node_release id) (fun _ => Dying g (delete ptr m)) s.
Proof.
  intros Hd Hm. pose proof Hd as [Hs Hwf Hsteps (P & HP & He)].
  destruct (gw_owned _ (gw_owners _ Hwf) p (set_field gp_nodes (fun _ => m) (proc_view P)) ptr id)
    as (gn & Hgn & Hown & Hptr); [|done|].
  { unfold with_nodes. simpl. by rewrite lookup_alter_eq, lookup_fmap, HP. }
  change (g_nodes (with_nodes p m (graph s))) with (g_nodes (graph s)) in Hgn.
  pose proof Hgn as (x & Hx & ->)%lookup_graph_node_inv. simpl in Hown, Hptr.
  unfold node_release. wp_go. wp_go. rewrite Hx. wp_go.
  eapply wp_mono; [apply Dying_frames; [|exact Hd]; eauto with frames|]. intros _ s1 [Hd1 Hg1].
  wp_go. eapply wp_mono; [apply Dying_frames; [|exact Hd1]; apply frames_release_work|]. intros _ s2 [Hd2 Hg2].
  wp_go. apply wp_the_node. intros y Hy.
  assert (node_view y = node_view x) as Hv.
  { apply lookup_graph_node in Hy. rewrite Hg2, Hg1, Hgn in Hy. congruence. }
  injection Hv as Ho Hp _ _.
  rewrite <- Hptr, <- Hp. apply retire_spec; [done|done|congruence].
Qed.

(** All the objects die. *)
Lemma node_releases g (m0 : gmap Z NodeId) keys m s :
  Dying g m s -> NoDup keys -> (forall ptr, m !! ptr = if decide (ptr ∈ keys) then m0 !! ptr else None) ->
  wp True (for_each node_release (omap (fun ptr => m0 !! ptr) keys)) (fun _ => Dying g ∅) s.
Proof.
  revert m s. induction keys as [|k keys IH]; intros m s Hd Hnd Hm; simpl.
  { apply wp_ret. replace ∅ with m; [done|]. apply map_eq. intros ptr. by rewrite Hm, lookup_empty. }
  apply NoDup_cons in Hnd as [Hk Hnd]. pose proof (Hm k) as Hmk. rewrite decide_True in Hmk by by left.
  destruct (m0 !! k) as [id|] eqn:Hid; simpl.
  - wp_go. eapply wp_mono; [by apply node_release_spec|]. intros ? s1 Hd1. apply (IH (delete k m)); [done|done|].
    intros ptr. destruct (decide (ptr = k)) as [->|].
    + by rewrite lookup_delete_eq, decide_False.
    + rewrite lookup_delete_ne, Hm by done. case_decide as Hin; [|case_decide as Hin'; [|done]].
      * apply elem_of_cons in Hin as [?|?]; [done|]. by rewrite decide_True.
      * by destruct Hin; right.
  - apply (IH m); [done|done|]. intros ptr. rewrite Hm. case_decide as Hin; [|case_decide as Hin'; [|done]].
    + apply elem_of_cons in Hin as [->|?]; [rewrite Hid; by case_decide|by rewrite decide_True].
    + by destruct Hin; right.
Qed.

(** While the handles of [p] are dropped: it has no objects, and its handles
    are among [keys]. *)
Record Closing (g : Graph) (keys : list Z) (s : State) : Prop := {
  cl_inv : Inv (Some p) top s;
  cl_steps : gsteps p g (graph s);
  cl_proc : exists gp, g_procs (graph s) !! p = Some gp /\ gp_nodes gp = ∅ /\
    forall d, is_Some (gp_desc gp !! d) -> d ∈ keys;
}.

Lemma collect_proc n g gp :
  g_procs g !! p = Some gp ->
  exists gp', g_procs (collect n g) !! p = Some gp' /\ gp_desc gp' = gp_desc gp /\ gp_nodes gp' ⊆ gp_nodes gp.
Proof.
  intros Hp. unfold collect. destruct (g_nodes g !! n) as [gn|]; [|by eauto].
  destruct (gn_owner gn) as [q|]; [|by eauto]. simpl. destruct (decide (q = p)) as [->|].
  - rewrite lookup_alter_eq, Hp. eexists. split; [done|]. split; [done|]. simpl. apply delete_subseteq.
  - rewrite lookup_alter_ne by done. eauto.
Qed.

Lemma cleanup_ref_closing g d keys s :
  Closing g (d :: keys) s -> wp True (cleanup_ref p d) (fun _ => Closing g keys) s.
Proof.
  intros [Hinv Hsteps (gp & Hgp & Hnodes & Hkeys)].
  pose proof Hgp as HP. unfold graph in HP. simpl in HP. rewrite lookup_fmap in HP. apply fmap_Some in HP as (P & HP & ->).
  destruct (p_refs_by_desc P !! d) as [r|] eqn:Hr; cycle 1.
  { unfold cleanup_ref. wp_go. wp_go. rewrite HP, Hr. apply wp_ret. split; [done|done|]. exists (proc_view P).
    split_and!; [done|done|]. intros d' Hd'. pose proof (Hkeys _ Hd') as Hin.
    apply elem_of_cons in Hin as [->|?]; [|done]. simpl in Hd'. rewrite lookup_fmap, Hr in Hd'. by destruct Hd'. }
  pose proof (ref_handle s p P d r (inv_graph _ _ _ Hinv) HP Hr) as Hh.
  destruct (handle_facts _ _ _ _ _ _ _ _ Hinv Hh) as (Hheld & ? & ? & ? & x & Hn & Hid & Hpos).
  set (g1 := put_handle p (r_node r) d None (graph s)).
  assert (Hstep : gstep p (graph s) g1) by by eapply gs_forget.
  assert (Hg1 : g_procs g1 !! p = Some (put_proc (r_node r) d None (proc_view P))).
  { unfold g1, put_handle. simpl. rewrite lookup_alter_eq. simpl in Hgp. by rewrite Hgp. }
  assert (Hd : forall d', is_Some (gp_desc (put_proc (r_node r) d None (proc_view P)) !! d') -> d' ∈ keys).
  { intros d' [y Hy]. simpl in Hy. apply lookup_delete_Some in Hy as [? Hy]. specialize (Hkeys d' ltac:(eauto)).
    apply elem_of_cons in Hkeys as [?|?]; [congruence|done]. }
  pose proof Hinv as [Hg Hs].
  eapply cleanup_ref_spec; [exact Hov|exact Hs|done..| |].
  - intros s1 Hs1 Hg2. fold g1 in Hg2. split.
    + split; [rewrite Hg2; by eapply gstep_wf|done].
    + rewrite Hg2. by eapply rtc_r.
    + rewrite Hg2. eauto.
  - intros s1 gn Hs1 Hgn He Hg2. fold g1 in Hg2, Hgn. pose proof (gstep_wf _ _ _ Hg Hstep) as Hwf1.
    assert (Hstep2 : gstep p g1 (collect (r_node r) g1)) by by eapply gs_collect.
    destruct (collect_proc (r_node r) g1 _ Hg1) as (gp' & Hgp' & Hdesc & Hsub). split.
    + split; [rewrite Hg2; by eapply gstep_wf|done].
    + rewrite Hg2. eapply rtc_r; [by eapply rtc_r|done].
    + rewrite Hg2. exists gp'. split_and!; [done| |by rewrite Hdesc].
      simpl in Hsub, Hnodes. rewrite Hnodes in Hsub. apply map_empty. intros i. by eapply lookup_weaken_None, Hsub.
Qed.

Lemma cleanup_refs_closing g keys s :
  Closing g keys s -> wp True (for_each (cleanup_ref p) keys) (fun _ => Closing g []) s.
Proof.
  revert s. induction keys as [|d keys IH]; intros s Hs; simpl; [by apply wp_ret|].
  wp_go. eapply wp_mono; [by apply cleanup_ref_closing|]. intros ? s1 Hs1. by apply IH.
Qed.

Lemma Closing_frames {A} g keys (c : M State A) s :
  frames (Some p) top c -> Closing g keys s -> wp True c (fun _ => Closing g keys) s.
Proof.
  intros Hc [[Hg Hs] Hsteps Hp]. eapply wp_mono; [by apply Hc|]. intros x s' [Hs' Hg'].
  split; rewrite ?Hg'; [|done|done]. split; [by rewrite Hg'|done].
Qed.

Lemma tracks_drop_manager dying c : Refinement.tracks p dying top (drop_manager p c).
Proof.
  intros s Hs. unfold drop_manager. wp_go. apply wp_the_context. intros x Hx. wp_go. wp_go.
  destruct (_ ≫= _) as [n|]; [|by apply wp_ret]. case_bool_decide; [|by apply wp_ret]. apply wp_modify.
  assert (Hg : graph (alter_context c (set_field c_mgr_node (fun _ => None)) s) =
    (graph s) <| g_managers ::= alter (fun _ => None) c |>).
  { unfold graph, set_field. simpl. f_equal. by apply list_fmap_alter, Forall_true. }
  apply Inv_step; [done|by apply (Side_ext _ _ s), Hs|]. rewrite Hg. apply rtc_once. by apply gs_manager.
Qed.

Lemma Inv_dying s : Inv None top s -> Inv (Some p) top s.
Proof. intros [Hg Hs]. split; [done|]. split; try apply Hs. intros q P id n HP _. by apply (side_work _ _ _ Hs). Qed.

(** The table of objects is emptied. *)
Lemma Dying_start g P s :
  Inv (Some p) top s -> gsteps p g (graph s) -> st_procs s !! p = Some P ->
  Dying g (p_nodes P) (alter_proc p (set_field p_nodes (fun _ => ∅)) s).
Proof.
  intros [Hg Hs] Hsteps HP.
  assert (Heq : with_nodes p (p_nodes P) (graph (alter_proc p (set_field p_nodes (fun _ => ∅)) s)) = graph s).
  { rewrite <- (with_nodes_id p (graph s) _ (lookup_graph_proc _ _ _ HP)). unfold with_nodes, graph, set_field.
    simpl. f_equal. rewrite (fmap_alter_comm proc_view _ (set_field gp_nodes (fun _ => ∅))) by done.
    rewrite alter_alter_eq. by apply alter_ext. }
  split; [|by rewrite Heq|by rewrite Heq|].
  - apply Side_alter_proc; [by auto|by auto|by eauto|done].
  - simpl. rewrite lookup_alter_eq, HP. eauto.
Qed.

Lemma Dying_end g P s :
  Dying g ∅ s -> st_procs s !! p = Some P -> Closing g (sorted_keys (p_refs_by_desc P)) s.
Proof.
  intros [Hs Hwf Hsteps (P' & HP' & He)] HP. rewrite HP in HP'. injection HP' as <-.
  pose proof (lookup_graph_proc _ _ _ HP) as Hp. pose proof (with_nodes_id _ _ _ Hp) as Heq. simpl in Heq.
  rewrite He in Heq. rewrite Heq in Hwf, Hsteps. split; [done|done|].
  exists (proc_view P). split_and!; [done|done|]. intros d. simpl. rewrite lookup_fmap, fmap_is_Some.
  by rewrite elem_of_sorted_keys.
Qed.

(** The process leaves. *)
Lemma Closing_end g s :
  Closing g [] s -> Inv None top (set_field st_procs (delete p) s) /\
    gsteps p g (graph (set_field st_procs (delete p) s)).
Proof.
  intros [[Hg Hs] Hsteps (gp & Hgp & Hn & Hd)].
  assert (Heq : graph (set_field st_procs (delete p) s) = (graph s) <| g_procs ::= delete p |>).
  { unfold graph, set_field. simpl. by rewrite fmap_delete. }
  assert (Hstep : gstep p (graph s) ((graph s) <| g_procs ::= delete p |>)).
  { eapply gs_close; [done|done|]. apply map_empty. intros d. destruct (gp_desc gp !! d) eqn:Hx; [|done].
    by specialize (Hd d ltac:(eauto)) as ?%not_elem_of_nil. }
  rewrite Heq. split; [|by eapply rtc_r]. split; [rewrite Heq; by eapply gstep_wf|].
  split; simpl; try apply Hs.
  - intros q P id n [Hq HP]%lookup_delete_Some _ Hw Hx. eapply (side_work _ _ _ Hs); [done| |done|done]. congruence.
  - intros q P id [Hq HP]%lookup_delete_Some. by eapply side_queued.
  - intros q P al [Hq HP]%lookup_delete_Some. by eapply side_alloc.
  - intros q t T x HT. eapply (side_stack _ _ _ Hs). unfold thread_of in *. simpl in HT.
    apply bind_Some in HT as (P & [_ HP]%lookup_delete_Some & HT). by rewrite HP.
Qed.

Lemma tracks_release_proc : Refinement.tracks p None top (release_proc p).
Proof.
  intros s Hs. unfold release_proc. wp_go. wp_go.
  destruct (st_procs s !! p) as [P0|] eqn:HP0; [|by apply wp_ret].
  wp_go. eapply wp_mono; [by apply tracks_drop_manager|]. intros _ s1 [Hs1 Hg1].
  wp_go. eapply wp_mono; [apply tracks_after; [|exact Hg1|exact Hs1]; apply tracks_for_each; intros t; tracks_tac|].
  intros _ s2 [Hs2%Inv_dying Hg2]. wp_go. apply wp_the_proc. intros P HP. wp_go. wp_go.
  pose proof (Dying_start _ _ _ Hs2 Hg2 HP) as Hd. wp_go.
  eapply wp_mono; [apply (node_releases _ _ _ _ _ Hd); [apply NoDup_sorted_keys|]|].
  { intros ptr. case_decide as Hin; [done|]. apply eq_None_not_Some. by rewrite <- elem_of_sorted_keys. }
  intros ? s3 Hd3. wp_go. apply wp_the_proc. intros P3 HP3. pose proof (Dying_end _ _ _ Hd3 HP3) as Hc.
  wp_go. eapply wp_mono; [by apply cleanup_refs_closing|]. intros ? s4 Hc4.
  wp_go. apply wp_the_proc. intros P4 HP4. wp_go.
  eapply wp_mono; [apply (Closing_frames (graph s) []); [|exact Hc4]; apply frames_proc; [done|by intros ? ? ?%not_elem_of_nil|done|done]|]. intros ? s5 Hc5.
  wp_go. eapply wp_mono; [apply Closing_frames; [|exact Hc5]; apply frames_release_work|]. intros ? s6 Hc6.
  wp_go. eapply wp_mono; [apply Closing_frames; [|exact Hc6]; apply frames_release_work|]. intros ? s7 Hc7.
  wp_go. apply wp_the_proc. intros P7 HP7. wp_go. wp_go. destruct (Closing_end _ _ Hc7) as [Hs8 Hg8].
  apply tracks_after; [|done|done]. unfold orphan_buffer. tracks_tac.
Qed.

End release.
