(* ===== verification/Commands.v ===== *)
(** The BC commands implement the graph of [Graph.v]: each command takes it
    through steps the calling process may cause, and the command loop ends. *)

From S2P Require Import Prelude Host Uapi Alloc Trace Shadow State Transaction Write Graph Frames.
From S2P Require Import Refinement Transfer.
From Stdlib Require Import ZArith Lia.
From Stdlib Require Import Strings.Byte.
From stdpp Require Import base numbers list gmap sorting relations.

Open Scope Z_scope.

Section commands.
Context `{Env} (Hov : overflow_checks = true).
Context (a : ProcId) (dying : option ProcId) (top : Z).
Abbreviation tracks := (tracks a dying top).
Abbreviation frames := (frames dying top).

Lemma frames_set_ref_death p d death : frames (set_ref_death p d death).
Proof.
  apply frames_proc; [|done..]. intros P. unfold proc_view, set_field. simpl. f_equal.
  by apply fmap_alter_id.
Qed.
Hint Resolve frames_set_ref_death : frames.

Lemma frames_queue_death d p t : frames (queue_death_for_thread_or_proc d p t).
Proof. unfold queue_death_for_thread_or_proc. frames_tac. Qed.
Hint Resolve frames_queue_death : frames.

Lemma tracks_death_command p t request h cookie : tracks (death_command p t request h cookie).
Proof. unfold death_command. tracks_tac. Qed.

#[local] Instance no_spin_find_delivered s cookie l : NoSpin (find_delivered s cookie l).
Proof. induction l; simpl; no_spin_tac; done. Qed.

Lemma frames_dead_binder_done p t cookie : frames (dead_binder_done p t cookie).
Proof. unfold dead_binder_done. frames_tac. Qed.

Lemma frames_register_looper p t : frames (register_looper p t).
Proof. unfold register_looper. frames_tac. Qed.
Lemma frames_enter_looper p t : frames (enter_looper p t).
Proof. unfold enter_looper. frames_tac. Qed.
Lemma frames_exit_looper p t : frames (exit_looper p t).
Proof. unfold exit_looper. frames_tac. Qed.

Lemma tracks_ref_done_command p cmd ptr cookie : tracks (ref_done_command p cmd ptr cookie).
Proof.
  unfold ref_done_command. tracks_tac. all: apply frames_tracks, frames_node; intros; by case_match.
Qed.

Lemma tracks_free_buffer_command p ptr : tracks (free_buffer_command p ptr).
Proof. unfold free_buffer_command. tracks_tac. Qed.

Lemma tracks_ref_command cmd target : tracks (ref_command a cmd target).
Proof.
  unfold ref_command. cbv zeta.
  assert (Hupd : forall i s, tracks (update_ref_for_handle a target i s)).
  { intros i st s Hs. by eapply update_ref_for_handle_spec. }
  tracks_step; [|tracks_tac]. tracks_step; [|tracks_tac].
  intros s Hs. wp_go. apply wp_the_proc. intros P HP. wp_go. apply wp_the_context. intros c Hc.
  destruct (c_mgr_node c) as [n|] eqn:Hmgr; [|by apply wp_ret].
  wp_go. apply wp_the_node. intros x Hx. case_decide; [by apply wp_ret|].
  wp_go. eapply inc_ref_for_node_spec; [done|done| |done|done|].
  - right. right. split; [done|]. exists (proc_view P). split; [by apply lookup_graph_proc|].
    simpl. by rewrite list_lookup_fmap, Hc, <- Hmgr.
  - intros r s1 Hs1 Hg1. by apply wp_ret.
Qed.

End commands.

#[export] Hint Resolve frames_queue_death frames_dead_binder_done frames_register_looper
  frames_enter_looper frames_exit_looper : frames.
#[export] Hint Resolve tracks_death_command tracks_ref_done_command tracks_free_buffer_command
  tracks_ref_command : tracks.

(** ** The command loop *)

Create HintDb drives.
#[export] Hint Extern 2 (drives _ _ _) =>
  apply (drives_tracksw _ _ _ (fun _ => True)); intros; solve [ eauto with tracksw ] : drives.

Lemma drives_call {G A B} a dying (o : outcome A) (f : A -> M (World G) B) :
  NoSpin o -> (forall x, o = Done x -> drives a dying (f x)) -> drives a dying (call o ≫= f).
Proof. intros Ho Hf w Hw. apply wp_bind, wp_call; [done|done|]. intros x Hx. by apply Hf. Qed.

Ltac drives_step :=
  lazymatch goal with
  | |- drives _ _ (mbind _ (call _)) => apply drives_call; [apply _|intros ? ?]
  | |- drives _ _ (mbind _ _) => apply drives_bind; [|intros ?]
  | |- drives _ _ (match ?x with _ => _ end) => destruct x eqn:?
  | |- drives _ _ (let _ := _ in _) => cbv zeta
  end.
Ltac drives_tac := repeat first [ solve [ eauto with drives ] | drives_step ].

Lemma u64_at_nonneg bs o v : u64_at bs o = Done v -> 0 <= v.
Proof.
  unfold u64_at. destruct (slice bs o 8) as [w|]; simpl; [|done]. intros [= <-].
  apply (proj1 (of_le_bytes_bound w)).
Qed.

Section loop.
Context `{Env} (Hov : overflow_checks = true).
Context {G : Type} `{GuestProcess G} (a : ProcId) (dying : option ProcId).
Abbreviation drives := (drives (G := G) a dying).

Lemma drives_for_each {A} (body : A -> M (World G) unit) l :
  (forall x, drives (body x)) -> drives (for_each body l).
Proof.
  intros Hb. induction l as [|x l IH]; simpl; [|by apply drives_bind].
  apply (drives_tracksw _ _ _ (fun _ => True)). intros. tracksw_tac.
Qed.

Lemma decoded_sizes bs tr : TransactionData_decode bs = Done tr -> 0 <= td_data_size tr /\ 0 <= td_offsets_size tr.
Proof.
  unfold TransactionData_decode. intros Htr.
  repeat lazymatch type of Htr with
  | (?o ≫= _) = _ => let Ho := fresh "Ho" in destruct o eqn:Ho; simpl in Htr; try discriminate Htr
  end.
  injection Htr as <-. split; by eapply u64_at_nonneg.
Qed.

Lemma drives_execute_command t cmd payload : drives (execute_command a t cmd payload).
Proof.
  pose proof (drives_transaction Hov a dying (G := G)) as Htxn.
  assert (Hfds : forall fds, drives (for_each guest_close_fd fds)).
  { intros fds. apply drives_for_each. intros fd. drives_tac. }
  unfold execute_command. drives_tac.
  - apply Htxn. destruct (decoded_sizes payload x); [done|]. by split.
  - apply Htxn. destruct (decoded_sizes x x0); [done|]. split; [done..|by eapply u64_at_nonneg].
Qed.

Lemma command_size_nonneg cmd size : command_payload_size cmd = Some size -> 0 <= size.
Proof.
  unfold command_payload_size. case_bool_decide; [|done]. intros [= <-]. apply Z.land_nonneg. by right.
Qed.

(** Every turn of the loop takes a command of at least four bytes. *)
Lemma drives_thread_write_loop fuel t write consumed :
  Z.of_nat (length write) - consumed <= Z.of_nat fuel ->
  drives (thread_write_loop fuel a t write consumed).
Proof.
  revert consumed. induction fuel as [|fuel IH]; intros consumed Hf; simpl; drives_step; try solve [ drives_tac ].
  { apply negb_false_iff, Z.ltb_lt in Heqb. lia. }
  pose proof drives_execute_command. drives_tac.
  apply IH. match goal with Hs : command_payload_size _ = Some _ |- _ => apply command_size_nonneg in Hs end. lia.
Qed.

Lemma drives_thread_write t write consumed : 0 <= consumed -> drives (thread_write a t write consumed).
Proof. intros Hc. apply drives_thread_write_loop. lia. Qed.

End loop.
