(* ===== verification/Weight.v ===== *)
(** A bound on the work of a read pass: the items that wait for the reader,
    and those that ending a transaction or freeing a buffer can queue.  No
    operation of a read pass raises it. *)

From S2P Require Import Prelude Host Uapi Alloc Trace Shadow State Transaction Read.
From Stdlib Require Import ZArith Lia.
From stdpp Require Import base numbers list gmap sorting.

Open Scope nat_scope.

Section weight.
Context `{Env} (p : ProcId) (t : Tid).

Definition proc_weight (P : Proc) : nat :=
  length (p_todo P) + match p_threads P !! t with Some T => length (t_todo T) | None => 0 end +
  buffers_weight P.

Definition weight (s : State) : nat :=
  match st_procs s !! p with Some P => proc_weight P | None => 0 end + 2 * size (st_txns s).

(** [costs k m]: [m] raises the weight by at most [k]. *)
Definition costs {A} (k : nat) (m : M State A) : Prop :=
  forall s, wpx True True m (fun _ s' => weight s' <= weight s + k) s.

Lemma costs_mono {A} k k' (m : M State A) : costs k m -> k <= k' -> costs k' m.
Proof. intros Hm Hk s. eapply wp_mono; [apply Hm|]. simpl. intros. lia. Qed.

Lemma costs_ret {A} (x : A) : costs 0 (mret x).
Proof. intros s. apply wp_ret. lia. Qed.

Lemma costs_bind {A B} k k' (m : M State A) (f : A -> M State B) :
  costs k m -> (forall x, costs k' (f x)) -> costs (k + k') (m ≫= f).
Proof.
  intros Hm Hf s. apply wp_bind. eapply wp_mono; [apply Hm|]. simpl. intros x s1 Hs1.
  eapply wp_mono; [apply Hf|]. simpl. intros y s2 Hs2. lia.
Qed.

Lemma costs_then {A B} k (m : M State A) (f : A -> M State B) :
  costs 0 m -> (forall x, costs k (f x)) -> costs k (m ≫= f).
Proof. apply (costs_bind 0). Qed.

Lemma costs_first {A B} k (m : M State A) (f : A -> M State B) :
  costs k m -> (forall x, costs 0 (f x)) -> costs k (m ≫= f).
Proof. intros Hm Hf. rewrite <- (Nat.add_0_r k). by apply costs_bind. Qed.

Lemma costs_get : costs 0 get.
Proof. intros s. apply wp_get. lia. Qed.

Lemma costs_call {A} (o : outcome A) : costs 0 (call o).
Proof. intros s. unfold wpx, call. destruct o; simpl; [lia|done|done]. Qed.

Lemma costs_unseen f :
  (forall s, st_procs (f s) = st_procs s /\ st_txns (f s) = st_txns s) -> costs 0 (modify f).
Proof. intros Hf s. apply wp_modify. unfold weight. destruct (Hf s) as [-> ->]. lia. Qed.

Lemma costs_proc k q f :
  (forall P, proc_weight (f P) <= proc_weight P + k) -> costs k (modify (alter_proc q f)).
Proof.
  intros Hf s. apply wp_modify. unfold weight. simpl. destruct (decide (q = p)) as [->|].
  - rewrite lookup_alter_eq. destruct (st_procs s !! p) as [P|]; simpl; [specialize (Hf P)|]; lia.
  - rewrite lookup_alter_ne by done. lia.
Qed.

Lemma costs_thread k q u f :
  (forall T, length (t_todo (f T)) <= length (t_todo T) + k) -> costs k (modify (alter_thread q u f)).
Proof.
  intros Hf. apply costs_proc. intros P. unfold proc_weight. simpl. destruct (decide (u = t)) as [->|].
  - rewrite lookup_alter_eq. destruct (p_threads P !! t) as [T|]; simpl; [specialize (Hf T)|];
      unfold buffers_weight; simpl; lia.
  - rewrite lookup_alter_ne by done. unfold buffers_weight. simpl. lia.
Qed.

Lemma costs_txn id f : costs 0 (modify (alter_txn id f)).
Proof.
  intros s. apply wp_modify. unfold weight. simpl. rewrite <- !size_dom, dom_alter_L. lia.
Qed.

End weight.

Create HintDb costs.
#[export] Hint Resolve costs_ret costs_get costs_call costs_txn : costs.

Lemma length_remove_first w q : length (remove_first w q) <= length q.
Proof. induction q as [|x q IH]; simpl; [lia|]. case_decide; simpl; lia. Qed.

Lemma costs_0 `{Env} {A} p t k (m : M State A) : costs p t 0 m -> costs p t k m.
Proof. intros Hm. eapply costs_mono; [done|lia]. Qed.

(** Queues and threads keep their length, or grow by the item added. *)
Ltac weight_side :=
  intros; unfold proc_weight, buffers_weight, set_field; simpl;
  rewrite ?length_app; simpl; repeat case_match; simpl in *;
  first [ done | lia
        | match goal with |- context [remove_first ?w ?q] => pose proof (length_remove_first w q); lia end ].

#[export] Hint Extern 1 (costs _ _ _ (modify (alter_thread _ _ _))) => apply costs_thread; weight_side : costs.
#[export] Hint Extern 1 (costs _ _ _ (modify (alter_proc _ _))) => apply costs_proc; weight_side : costs.
#[export] Hint Extern 2 (costs _ _ _ (modify _)) => apply costs_unseen; by intros ? : costs.

(** Takes a computation apart; the part that costs is found last. *)
Ltac costs_step :=
  lazymatch goal with
  | |- costs _ _ _ (mbind _ _) =>
      first [ apply costs_then; [solve [ eauto with costs ]|intros ?] | apply costs_first; [|intros ?] ]
  | |- costs _ _ _ (match ?x with _ => _ end) => destruct x eqn:?
  | |- costs _ _ _ (let _ := _ in _) => cbv zeta
  end.
Ltac costs_tac := repeat first [ solve [ eauto with costs ] | solve [ apply costs_0; eauto with costs ] | costs_step ].

(** Sums over the buffers of an allocator. *)
Lemma sum_insert (f : Buffer -> nat) (m : gmap Z Buffer) o b :
  m !! o = None ->
  sum_list_with f (map_to_list (<[o := b]> m)).*2 = f b + sum_list_with f (map_to_list m).*2.
Proof. intros Ho. by rewrite (map_to_list_insert _ _ _ Ho). Qed.

Lemma sum_delete (f : Buffer -> nat) (m : gmap Z Buffer) o b :
  m !! o = Some b ->
  sum_list_with f (map_to_list m).*2 = f b + sum_list_with f (map_to_list (delete o m)).*2.
Proof. intros Ho. rewrite <- (insert_delete_id m o b Ho) at 1. apply sum_insert, lookup_delete_eq. Qed.

Lemma sum_alter (f : Buffer -> nat) g (m : gmap Z Buffer) o :
  (forall b, f (g b) = f b) ->
  sum_list_with f (map_to_list (alter g o m)).*2 = sum_list_with f (map_to_list m).*2.
Proof.
  intros Hg. destruct (m !! o) as [b|] eqn:Ho; [|by rewrite alter_None].
  rewrite (alter_Some _ _ _ _ Ho), (sum_delete f m o b Ho).
  rewrite <- insert_delete_eq, sum_insert by apply lookup_delete_eq. by rewrite Hg.
Qed.

Section queues.
Context `{Env} (p : ProcId) (t : Tid).
Abbreviation costs := (costs p t).

Lemma costs_the_proc q : costs 0 (the_proc q).
Proof. unfold the_proc. costs_tac. Qed.
Lemma costs_the_thread q u : costs 0 (the_thread q u).
Proof. unfold the_thread. costs_tac. Qed.
Lemma costs_the_buffer q o : costs 0 (the_buffer q o).
Proof. unfold the_buffer. costs_tac. Qed.
Hint Resolve costs_the_proc costs_the_thread costs_the_buffer : costs.

Lemma costs_wake_waiter q u : costs 0 (wake_waiter q u).
Proof. unfold wake_waiter. costs_tac. Qed.
Hint Resolve costs_wake_waiter : costs.
Lemma costs_wake_thread q u : costs 0 (wake_thread q u).
Proof. unfold wake_thread. costs_tac. Qed.
Hint Resolve costs_wake_thread : costs.
Lemma costs_enqueue_thread q u w : costs 1 (enqueue_thread_work q u w).
Proof. unfold enqueue_thread_work. costs_tac. Qed.
Lemma costs_enqueue_proc q w : costs 1 (enqueue_proc_work q w).
Proof. unfold enqueue_proc_work. costs_tac. Qed.
Lemma costs_remove_work l w : costs 0 (remove_work l w).
Proof. unfold remove_work. costs_tac. Qed.
Hint Resolve costs_enqueue_thread costs_enqueue_proc costs_remove_work : costs.
Lemma costs_select_thread q : costs 0 (select_thread q).
Proof. unfold select_thread. costs_tac. Qed.
Lemma costs_wakeup_thread q u : costs 0 (wakeup_thread q u).
Proof. unfold wakeup_thread. costs_tac. Qed.
Hint Resolve costs_select_thread costs_wakeup_thread : costs.
Lemma costs_wakeup_proc q : costs 0 (wakeup_proc q).
Proof. unfold wakeup_proc. costs_tac. Qed.
Lemma costs_dequeue_node n : costs 0 (dequeue_node_work n).
Proof. unfold dequeue_node_work. costs_tac. Qed.
Lemma costs_dequeue_death d : costs 0 (dequeue_death_work d).
Proof. unfold dequeue_death_work. costs_tac. Qed.
Hint Resolve costs_wakeup_proc costs_dequeue_node costs_dequeue_death : costs.

Lemma costs_dec_node n strong internal : costs 1 (dec_node n strong internal).
Proof. unfold dec_node, free_unreferenced, remove_node. costs_tac. Qed.
Hint Resolve costs_dec_node : costs.

Lemma costs_cleanup_ref q d : costs 2 (cleanup_ref q d).
Proof.
  unfold cleanup_ref. apply costs_then; [costs_tac|intros s]. destruct (st_procs s !! q); [|costs_tac].
  destruct (p_refs_by_desc _ !! d) as [r|]; [|costs_tac]. apply costs_then; [costs_tac|intros _].
  apply (costs_bind _ _ 1 1); [costs_tac|intros _]. costs_tac.
Qed.
Hint Resolve costs_cleanup_ref : costs.

Lemma costs_dec_ref q d strong : costs 3 (dec_ref q d strong).
Proof.
  unfold dec_ref, drop_ref_count. apply costs_then; [costs_tac|intros s].
  destruct (st_procs s !! q ≫= _) as [r|]; [|costs_tac]. cbv zeta. costs_step; [costs_tac|].
  apply (costs_bind _ _ 1 2); [costs_tac|intros _]. costs_tac.
Qed.
Hint Resolve costs_dec_ref : costs.

Lemma costs_release_record q r : costs 3 (release_record q r).
Proof.
  destruct r as [n strong|d strong]; simpl; [|costs_tac]. eapply costs_mono; [apply costs_dec_node|lia].
Qed.

Lemma costs_release_records q l : costs (3 * length l) (for_each (release_record q) l).
Proof.
  induction l as [|r l IH]; simpl for_each; [apply costs_ret|].
  eapply costs_mono; [apply (costs_bind _ _ 3); [apply costs_release_record|done]|simpl; lia].
Qed.

(** ** Ending a transaction *)

(** The operations that keep the transactions there are. *)
Definition stays {A} (m : M State A) : Prop :=
  forall s, wpx True True m (fun _ s' => dom (st_txns s') = dom (st_txns s)) s.

Lemma stays_bind {A B} (m : M State A) (f : A -> M State B) :
  stays m -> (forall x, stays (f x)) -> stays (m ≫= f).
Proof.
  intros Hm Hf s. apply wp_bind. eapply wp_mono; [apply Hm|]. intros x s1 Hs1. simpl in Hs1. rewrite <- Hs1. apply Hf.
Qed.

Ltac stays_tac :=
  repeat lazymatch goal with
  | |- stays (mbind _ _) => apply stays_bind; [|intros ?]
  | |- stays (let _ := _ in _) => cbv zeta
  | |- stays (match ?x with _ => _ end) => destruct x
  | |- stays get => intros ?; by apply wp_get
  | |- stays (mret _) => intros ?; by apply wp_ret
  | |- stays (modify _) => intros ?; apply wp_modify; simpl; by rewrite ?dom_alter_L
  end.

Lemma stays_pop_transaction q u id : stays (pop_transaction q u id).
Proof. unfold pop_transaction. stays_tac. Qed.

Lemma stays_enqueue_thread q u w : stays (enqueue_thread_work q u w).
Proof. unfold enqueue_thread_work, wake_thread, wake_waiter. stays_tac. Qed.

Lemma costs_pop_transaction q u id : costs 0 (pop_transaction q u id).
Proof. unfold pop_transaction. costs_tac. Qed.

(** A change to a buffer that keeps the objects it holds. *)
Lemma costs_buffer q o f :
  (forall b, b_objects (f b) = b_objects b) -> costs 0 (modify (alter_buffer q o f)).
Proof.
  intros Hf. apply costs_proc. intros P. unfold proc_weight, buffers_weight. simpl.
  destruct (p_alloc P) as [al|]; simpl; [|lia].
  rewrite sum_alter; [lia|]. intros b. unfold buffer_weight. by rewrite Hf.
Qed.
#[local] Hint Extern 0 (costs _ (modify (alter_buffer _ _ _))) => apply costs_buffer; done : costs.

Lemma costs_on_shadow f : costs 0 (on_shadow f).
Proof.
  apply costs_unseen. intros s. destruct (st_shadow s) as [sh|]; [|done]. by destruct (f (sh, st_sinks s)).
Qed.
Hint Resolve costs_pop_transaction costs_on_shadow : costs.

(** Freeing a transaction pays for two items. *)
Lemma free_transaction_pays id s :
  is_Some (st_txns s !! id) -> wpx True True (free_transaction id) (fun _ s' => weight p t s' + 2 <= weight p t s) s.
Proof.
  intros [x Hx]. unfold free_transaction. wp_step. apply wp_get. rewrite Hx. wp_step. apply wp_modify.
  assert (weight p t (set_field st_txns (delete id) s) + 2 <= weight p t s).
  { unfold weight. simpl. pose proof (size_delete_lt _ _ _ Hx). lia. }
  match goal with |- wpx _ _ ?m _ _ => assert (Hc : costs 0 m) by costs_tac end.
  eapply wp_mono; [apply Hc|]. simpl. intros _ s' Hs'. lia.
Qed.

Lemma free_transaction_costs id : costs 0 (free_transaction id).
Proof.
  intros s. destruct (st_txns s !! id) as [x|] eqn:Hx.
  - eapply wp_mono; [apply free_transaction_pays; eauto|]. simpl. intros. lia.
  - unfold free_transaction. wp_step. apply wp_get. rewrite Hx. apply wp_ret. lia.
Qed.
Hint Resolve free_transaction_costs : costs.

(** A failed reply frees the transaction it is about. *)
Lemma costs_send_failed_reply_loop fuel id cmd : costs 0 (send_failed_reply_loop fuel id cmd).
Proof.
  revert id. induction fuel as [|fuel IH]; intros id s; simpl; [done|].
  wp_step. apply wp_get. destruct (st_txns s !! id) as [x|] eqn:Hx; [|apply wp_ret; lia].
  assert (Hup : costs 0 (free_transaction id;; match x_from_parent x with
    | Some n => send_failed_reply_loop fuel n cmd | None => mret tt end)) by costs_tac.
  cbv zeta. destruct (x_from x) as [[q u]|]; [|apply Hup]. destruct (thread_exists s q u); [|apply Hup].
  wp_step. eapply wp_mono; [apply wp_and; [apply costs_pop_transaction|apply stays_pop_transaction]|].
  simpl. intros _ s1 [Hc1 Hd1]. wp_step. eapply wp_mono; [apply wp_and; [apply costs_the_thread|]|].
  { instantiate (1 := fun _ s' => dom (st_txns s') = dom (st_txns s1)). unfold the_thread.
    wp_step. apply wp_get. unfold wpx, call. by destruct (unwrap _). }
  simpl. intros thread s2 [Hc2 Hd2]. wp_step.
  set (report := if decide (t_reply_error thread = None) then _ else _).
  assert (costs 1 report) as Hc3 by (unfold report; costs_tac).
  assert (stays report) as Hd3.
  { unfold report, enqueue_thread_work, wake_thread, wake_waiter. stays_tac. }
  eapply wp_mono; [apply wp_and; [apply Hc3|apply Hd3]|]. simpl. intros _ s3 [Hc Hd].
  eapply wp_mono; [apply free_transaction_pays|simpl; intros; lia].
  apply elem_of_dom. rewrite Hd, Hd2, Hd1. apply elem_of_dom. eauto.
Qed.

Lemma costs_cleanup_transaction id cmd : costs 0 (cleanup_transaction id cmd).
Proof.
  unfold cleanup_transaction, send_failed_reply. pose proof costs_send_failed_reply_loop.
  apply costs_then; [costs_tac|intros s]. destruct (st_txns s !! id); [|costs_tac].
  destruct (_ && _); [|costs_tac]. apply costs_then; [costs_tac|intros s']. done.
Qed.

(** ** Freeing a buffer *)

Lemma free_gives o al :
  wpx True True (free o) (fun r al' => match r with
    | Some b => a_buffers al !! o = Some b /\ a_buffers al' = delete o (a_buffers al)
    | None => al' = al
    end) al.
Proof.
  unfold free. wp_step. apply wp_get. destruct (a_buffers al !! o) as [b|] eqn:Hb; [|by apply wp_ret].
  repeat (wp_step; simpl); done.
Qed.

Lemma costs_memory_clear m o l : costs 0 (memory_clear m o l).
Proof. unfold memory_clear. costs_tac. Qed.
Hint Resolve costs_memory_clear : costs.

(** What follows the removal of a buffer is paid for by its weight. *)
Lemma costs_free_buffer o is_failure : costs 0 (free_buffer p o is_failure).
Proof.
  intros s. unfold free_buffer. wp_step. apply wp_get.
  destruct (st_procs s !! p ≫= p_alloc) as [al|] eqn:Hal; [|apply wp_ret; lia].
  apply bind_Some in Hal as (P & HP & Hal). cbv zeta. wp_step. unfold with_alloc. wp_step.
  pose proof (free_gives o al) as Hfree. unfold wpx at 1, call. unfold wpx in Hfree.
  destruct (free o al) as [[[b|] al']| |]; [|subst al'|done|done].
  - destruct Hfree as [Hb Hdel]. wp_step. apply wp_modify. apply wp_ret.
    match goal with |- wpx _ _ _ _ ?s1 => assert (Hw : weight p t s1 + buffer_weight b <= weight p t s) end.
    { unfold weight, proc_weight, buffers_weight. simpl. rewrite lookup_alter_eq, HP. simpl.
      rewrite Hal, Hdel, (sum_delete _ _ _ _ Hb). lia. }
    match goal with |- wpx _ _ ?m _ _ => assert (Hc : costs (buffer_weight b) m) end.
    { unfold buffer_weight. apply costs_then; [costs_tac|intros _]. apply costs_then; [costs_tac|intros _].
      apply (costs_bind _ _ 1); [costs_tac|intros _].
      apply (costs_bind _ _ 1); [unfold release_target_node; costs_tac|intros _].
      apply costs_first; [apply costs_release_records|intros; costs_tac]. }
    eapply wp_mono; [apply Hc|]. simpl. intros. lia.
  - wp_step. apply wp_modify. apply wp_ret, wp_ret. unfold weight, proc_weight, buffers_weight. simpl.
    rewrite lookup_alter_eq, HP. simpl. rewrite Hal. lia.
Qed.

End queues.

#[export] Hint Resolve costs_the_proc costs_the_thread costs_the_buffer costs_dec_node
  costs_pop_transaction free_transaction_costs costs_cleanup_transaction costs_free_buffer : costs.
#[export] Hint Extern 0 (costs _ _ _ (modify (alter_buffer _ _ _))) => apply costs_buffer; done : costs.

(** ** The items of a read pass *)

Section items.
Context `{Env} {G : Type} `{GuestProcess G} (p : ProcId) (t : Tid).

(** [costs] at no cost, next to a guest. *)
Definition costsw {A} (m : M (World G) A) : Prop :=
  forall w, wpx True True m (fun _ w' => weight p t (w_st w') <= weight p t (w_st w)) w.

Lemma costsw_bind {A B} (m : M (World G) A) (f : A -> M (World G) B) :
  costsw m -> (forall x, costsw (f x)) -> costsw (m ≫= f).
Proof.
  intros Hm Hf w. apply wp_bind. eapply wp_mono; [apply Hm|]. simpl. intros x w1 Hw1.
  eapply wp_mono; [apply Hf|]. simpl. intros y w2 Hw2. lia.
Qed.

Lemma costsw_st {A} (m : M State A) : costs p t 0 m -> costsw (st m).
Proof.
  intros Hm w. specialize (Hm (w_st w)). unfold wpx, st in *. destruct (m (w_st w)) as [[x s']| |]; [simpl; lia|done..].
Qed.

Lemma costsw_ret {A} (x : A) : costsw (mret x).
Proof. intros w. by apply wp_ret. Qed.
Lemma costsw_get : costsw get.
Proof. intros w. by apply wp_get. Qed.
Lemma costsw_call {A} (o : outcome A) : costsw (call o).
Proof. intros w. unfold wpx, call. by destruct o. Qed.
Lemma costsw_install_file f : costsw (guest_install_file f).
Proof. intros w. unfold wpx, guest_install_file. by destruct (install_file _ _). Qed.
Lemma costsw_close_fd fd : costsw (guest_close_fd fd).
Proof. intros w. by unfold wpx, guest_close_fd. Qed.
Lemma costsw_delivered b id : costsw (guest_delivered b id).
Proof. intros w. by unfold wpx, guest_delivered. Qed.

Lemma costs_memory_write m o d : costs p t 0 (memory_write m o d).
Proof. unfold memory_write. costs_tac. Qed.
Lemma costs_on_trace f : costs p t 0 (on_trace f).
Proof. unfold on_trace, instant_now. intros s. repeat wp_step; unfold weight; simpl; try lia. Qed.
Lemma costs_the_txn id : costs p t 0 (the_txn id).
Proof. unfold the_txn. costs_tac. Qed.
Hint Resolve costs_memory_write costs_on_trace costs_the_txn : costs.

Ltac costsw_tac :=
  repeat lazymatch goal with
  | |- costsw (mbind _ _) => apply costsw_bind; [|intros ?]
  | |- costsw (let _ := _ in _) => cbv zeta
  | |- costsw (match ?x with _ => _ end) => destruct x
  | |- costsw (mret _) => apply costsw_ret
  | |- costsw get => apply costsw_get
  | |- costsw (call _) => apply costsw_call
  | |- costsw (guest_install_file _) => apply costsw_install_file
  | |- costsw (guest_close_fd _) => apply costsw_close_fd
  | |- costsw (guest_delivered _ _) => apply costsw_delivered
  | |- costsw (st _) => apply costsw_st; solve [ costs_tac ]
  end.

Lemma costsw_install_fixups m o fixups installed : costsw (install_fixups m o fixups installed).
Proof. revert installed. induction fixups; intros installed; simpl; costsw_tac. done. Qed.

Lemma costsw_undo_delivery id o installed : costsw (undo_delivery p id o installed).
Proof.
  unfold undo_delivery. costsw_tac. induction installed; simpl; costsw_tac. done.
Qed.

Lemma costsw_deliver_transaction id : costsw (deliver_transaction p t id).
Proof.
  unfold deliver_transaction. costsw_tac; [apply costsw_install_fixups|apply costsw_undo_delivery].
Qed.

Lemma costsw_execute_work work : costsw (execute_work p t work).
Proof.
  destruct work as [id| | | |id|id]; simpl; [apply costsw_deliver_transaction|..].
  all: unfold node_work, death_work, remove_node; costsw_tac.
Qed.

End items.

(** An item that is taken pays for itself. *)
Lemma pop_work_pays `{Env} p t from_thread s :
  wpx True True (pop_work p t from_thread) (fun _ s' => weight p t s' + 1 <= weight p t s) s.
Proof.
  unfold pop_work. wp_step.
  apply (wp_mono _ _ _ (fun _ s' => weight p t s' + 1 <= weight p t s)).
  - destruct from_thread.
    + unfold the_thread. wp_step. wp_step. apply wp_get. unfold wpx at 1, call.
      destruct (thread_of s p t) as [T|] eqn:HT; [|done]. simpl. wp_step. unfold wpx at 1, call.
      destruct (t_todo T) as [|x q] eqn:Hq; [done|]. simpl. wp_step. apply wp_modify, wp_ret.
      unfold thread_of in HT. apply bind_Some in HT as (P & HP & HT).
      unfold weight, proc_weight, buffers_weight. simpl. rewrite lookup_alter_eq, HP. simpl.
      rewrite lookup_alter_eq, HT. simpl. rewrite Hq. simpl. lia.
    + unfold the_proc. wp_step. wp_step. apply wp_get. unfold wpx at 1, call.
      destruct (st_procs s !! p) as [P|] eqn:HP; [|done]. simpl. wp_step. unfold wpx at 1, call.
      destruct (p_todo P) as [|x q] eqn:Hq; [done|]. simpl. wp_step. apply wp_modify, wp_ret.
      unfold weight, proc_weight, buffers_weight. simpl. rewrite lookup_alter_eq, HP. simpl. rewrite Hq. simpl. lia.
  - intros work s1 Hs1. match goal with |- wpx _ _ ?m _ _ => assert (Hc : costs p t 0 m) by costs_tac end.
    eapply wp_mono; [apply Hc|]. simpl. intros. lia.
Qed.
