(* ===== verification/Reading.v ===== *)
(** Reading implements the graph of [Graph.v]: each item of work takes it
    through steps the reader may cause, and a read pass ends. *)

From S2P Require Import Prelude Host Uapi Alloc Trace Shadow State Transaction Read Graph Frames.
From S2P Require Import Refinement Transfer Commands Weight.
From Stdlib Require Import ZArith Lia.
From Stdlib Require Import Strings.Byte.
From stdpp Require Import base numbers list gmap sorting relations.

Open Scope Z_scope.

Section work.
Context `{Env} (Hov : overflow_checks = true).
Context (a : ProcId) (dying : option ProcId) (top : Z).
Abbreviation tracks := (tracks a dying top).
Abbreviation frames := (frames dying top).

(** A node nobody wants goes, with the owner's entry for it. *)
Lemma drop_node_spec id n s :
  Inv dying top s -> st_nodes s !! id = Some n -> n_proc n = Some a -> n_refs n = ∅ ->
  wp True (modify (alter_proc a (set_field p_nodes (delete (n_ptr n))));; remove_node id)
    (fun _ s' => Inv dying top s' /\ gsteps a (graph s) (graph s')) s.
Proof.
  intros [Hg Hs] Hn Hown Hrefs. wp_go. wp_go. pose proof (lookup_graph_node _ _ _ Hn) as Hgn.
  apply (remove_node_spec dying top); [by apply Side_drop_entry|]. intros s' Hs' Hg'.
  apply Inv_step; [done|done|]. apply rtc_once.
  replace (graph s') with (collect id (graph s)); [by eapply gs_collect|].
  rewrite Hg', graph_drop_entry. unfold collect. rewrite Hgn. simpl. by rewrite Hown.
Qed.

Lemma node_work_spec id s :
  Inv dying top s -> (forall n, st_nodes s !! id = Some n -> n_proc n = Some a) ->
  wp True (node_work a id) (fun _ s' => Inv dying top s' /\ gsteps a (graph s) (graph s')) s.
Proof.
  intros Hs Hown. unfold node_work. wp_go. wp_go. destruct (st_nodes s !! id) as [n|] eqn:Hn; [|by apply wp_ret].
  specialize (Hown n eq_refl). cbv zeta. wp_go.
  apply (wp_mono _ _ _ (fun n2 s' => s' = s /\ node_view n2 = node_view n)).
  { repeat wp_go; done. }
  intros n2 ? [-> Hn2]. wp_go. apply (wp_mono _ _ _ (fun n3 s' => s' = s /\ node_view n3 = node_view n)).
  { repeat wp_go; done. }
  intros n3 ? [-> Hn3]. wp_go. wp_go.
  match goal with |- wpx _ _ _ _ (alter_node id (fun _ => ?n5) s) =>
    assert (Hn5 : node_view n5 = node_view n) by (rewrite <- Hn3; by repeat case_match); generalize dependent n5 end.
  intros n5 Hn5. set (s1 := alter_node id (fun _ => n5) s).
  assert (Hg1 : graph s1 = graph s).
  { unfold s1, graph. simpl. f_equal. rewrite (alter_Some _ _ _ _ Hn), fmap_insert, Hn5.
    apply insert_id. by rewrite lookup_fmap, Hn. }
  injection Hn5 as Hp5 Hptr5 _ Hrefs5.
  assert (Hs1 : Inv dying top s1).
  { split; [rewrite Hg1; apply Hs|]. apply Side_alter_node; [|apply Hs]. intros y Hy. congruence. }
  assert (Hn1 : st_nodes s1 !! id = Some n5) by (simpl; by rewrite lookup_alter_eq, Hn).
  destruct (wants_weak n) eqn:Hweak; simpl; [repeat wp_go; by rewrite Hg1|].
  destruct (wants_strong n) eqn:Hstrong; simpl; [repeat wp_go; by rewrite Hg1|].
  wp_go. rewrite <- Hptr5. eapply wp_mono; [apply drop_node_spec; [done|done|congruence|]|].
  { rewrite Hrefs5. unfold wants_weak in Hweak. apply orb_false_iff in Hweak as [Hweak _].
    apply orb_false_iff in Hweak as [Hweak _]. by apply negb_false_iff, bool_decide_eq_true in Hweak. }
  intros _ s2 [Hs2 Hg2]. apply wp_ret. split; [done|by rewrite <- Hg1].
Qed.

Lemma frames_death_work p id : frames (death_work p id).
Proof. unfold death_work. frames_tac. Qed.

Lemma frames_should_spawn_looper p t : frames (should_spawn_looper p t).
Proof. unfold should_spawn_looper. frames_tac. Qed.

Context {G : Type} `{GuestProcess G}.
Abbreviation tracksw m := (tracksw (G := G) a dying top m (fun _ => True)).

Lemma tracksw_install_fixups memory o fixups installed : tracksw (install_fixups memory o fixups installed).
Proof. revert installed. induction fixups; intros installed; simpl; tracksw_tac. Qed.

Lemma tracksw_for_each {A} (body : A -> M (World G) unit) l :
  (forall x, tracksw (body x)) -> tracksw (for_each body l).
Proof. intros Hb. induction l as [|x l IH]; simpl; tracksw_tac. Qed.

Lemma tracksw_undo_delivery p id o installed : tracksw (undo_delivery p id o installed).
Proof.
  unfold undo_delivery. apply tracksw_seq; [apply tracksw_for_each; intros fd; tracksw_tac|intros _]. tracksw_tac.
Qed.

(** A delivered call goes on the reader's stack. *)
Lemma tracks_push_delivered p t id :
  id <= top ->
  tracks (thread ← the_thread p t; the_txn id;;
          modify (alter_txn id (fun x => x <| x_to_parent := t_transaction_stack thread |> <| x_to_thread := Some t |>));;
          modify (alter_thread p t (set_field t_transaction_stack (fun _ => Some id)))).
Proof.
  intros Hid s Hs. wp_go. apply wp_the_thread. intros T HT. wp_go. apply wp_the_txn. intros x Hx. wp_go. wp_go.
  match goal with |- wpx _ _ _ _ ?s1 => assert (Hs1 : Inv dying top s1) end.
  { split; [apply Hs|]. apply Side_alter_txn; [by auto| |apply Hs]. intros y q _ Hq. left.
    by eapply (side_stack _ _ _ (inv_side _ _ _ Hs)). }
  eapply (tracks_after a); [|done|exact Hs1]. apply frames_tracks, frames_thread; [done|].
  intros ? q [= <-]. by right.
Qed.

Lemma tracksw_push_delivered p t id :
  id <= top ->
  tracksw (thread ← st (the_thread p t); st (the_txn id);;
           st (modify (alter_txn id (fun x =>
             x <| x_to_parent := t_transaction_stack thread |> <| x_to_thread := Some t |>)));;
           st (modify (alter_thread p t (set_field t_transaction_stack (fun _ => Some id))))).
Proof.
  intros Hid w Hw. pose proof (tracksw_tracks a dying top _ (tracks_push_delivered p t id Hid) w Hw) as Hp.
  unfold wpx, st, the_thread, the_txn, mbind, M_bind, get, call, modify in Hp |- *.
  destruct (thread_of (w_st w) p t); simpl in *; [|done]. by destruct (st_txns (w_st w) !! id).
Qed.

Lemma tracksw_deliver_transaction p t id : id <= top -> tracksw (deliver_transaction p t id).
Proof.
  intros Hid. pose proof tracksw_install_fixups. pose proof tracksw_undo_delivery.
  pose proof (tracksw_push_delivered p t id Hid). unfold deliver_transaction. tracksw_tac.
Qed.

Lemma tracksw_lacks_room next : tracksw (lacks_room next).
Proof. unfold lacks_room. tracksw_tac. Qed.

Lemma tracksw_glance p t wait out start capacity : tracksw (glance p t wait out start capacity).
Proof. unfold glance. pose proof tracksw_lacks_room. tracksw_tac. Qed.

End work.

Lemma elem_of_tail {A} (x : A) l : x ∈ tail l -> x ∈ l.
Proof. destruct l; [done|by right]. Qed.

Section pass.
Context `{Env} (Hov : overflow_checks = true).
Context {G : Type} `{GuestProcess G} (a : ProcId) (dying : option ProcId) (Hdying : dying <> Some a).
Abbreviation drives := (drives (G := G) a dying).

(** Node work that is taken is for a node of the reader. *)
Definition own_node (s : State) (work : Work) : Prop :=
  forall id n, work = WNode id -> st_nodes s !! id = Some n -> n_proc n = Some a.

Lemma own_node_graph s s' work : graph s' = graph s -> own_node s work -> own_node s' work.
Proof.
  intros Hg Hown id n Hw Hn%lookup_graph_node. rewrite Hg in Hn. apply lookup_graph_node_inv in Hn as (x & Hx & Hv).
  injection Hv as -> _ _ _. by eapply Hown.
Qed.

Lemma pop_work_spec top t from_thread s :
  Inv dying top s ->
  wp True (pop_work a t from_thread)
    (fun work s' => Inv dying top s' /\ graph s' = graph s /\ own_node s' work) s.
Proof.
  intros [Hg Hs]. unfold pop_work. wp_go.
  apply (wp_mono _ _ _ (fun work s' => Side dying top s' /\ graph s' = graph s /\ own_node s' work)).
  - assert (Hown : forall P work, st_procs s !! a = Some P -> queued P work -> own_node s work).
    { intros P work HP Hq id n -> Hn. by eapply (side_work _ _ _ Hs). }
    destruct from_thread.
    + wp_go. apply wp_the_thread. intros T HT. wp_go. apply wp_call; [apply _|done|].
      intros work Hw%unwrap_Done%head_Some_elem_of. wp_go.
      eapply wp_mono; [apply frames_thread; [|by auto|exact Hs]|].
      { intros U id. simpl. apply elem_of_tail. }
      intros _ s1 [Hs1 Hg1]. apply wp_ret. split_and!; [done|done|]. apply (own_node_graph s); [done|].
      unfold thread_of in HT. apply bind_Some in HT as (P & HP & HT). eapply Hown; [done|]. right. eauto.
    + wp_go. apply wp_the_proc. intros P HP. wp_go. apply wp_call; [apply _|done|].
      intros work Hw%unwrap_Done%head_Some_elem_of. wp_go.
      eapply wp_mono; [apply frames_proc; [done| |done|done|exact Hs]|].
      { intros U id. simpl. apply elem_of_tail. }
      intros _ s1 [Hs1 Hg1]. apply wp_ret. split_and!; [done|done|]. apply (own_node_graph s); [done|].
      eapply Hown; [done|]. by left.
  - intros work s1 (Hs1 & Hg1 & Hown). 
    match goal with |- wpx _ _ (mbind ?f ?m) _ _ => assert (Hf : frames dying top (mbind f m)) by frames_tac end.
    eapply wp_mono; [apply wp_and; [by apply Hf|]|].
    { instantiate (1 := fun work' _ => work' = work). repeat wp_go. done. }
    intros work' s2 [[Hs2 Hg2] ->]. rewrite Hg2. split_and!; [split; [by rewrite Hg2, Hg1|done]|done|].
    by apply (own_node_graph s1).
Qed.

Lemma execute_work_spec t work w :
  Good dying (w_st w) -> own_node (w_st w) work ->
  wp True (execute_work a t work)
    (fun _ w' => Good dying (w_st w') /\ gsteps a (graph (w_st w)) (graph (w_st w'))) w.
Proof.
  intros Hw Hown. set (top := st_next_id (w_st w)).
  enough (wp True (execute_work a t work) (fun _ w' => Inv dying top (w_st w') /\
    gsteps a (graph (w_st w)) (graph (w_st w')) /\ True) w) as Hx.
  { eapply wp_mono; [exact Hx|]. intros x w' (? & ? & _). split; [by eapply Inv_Good|done]. }
  destruct work as [id| | |cmd slot|id|id]; simpl.
  - destruct (st_txns (w_st w) !! id) as [x|] eqn:Hx.
    + apply tracksw_deliver_transaction; [done| |done]. by eapply (side_txn _ _ _ (inv_side _ _ _ Hw)).
    + unfold deliver_transaction. wp_go. wp_go. rewrite Hx. by apply wp_ret.
  - apply tracksw_wp; [|done]. tracksw_tac.
  - apply tracksw_wp; [|done]. tracksw_tac.
  - apply tracksw_wp; [|done]. tracksw_tac.
  - wp_go. apply wp_st. eapply wp_mono; [apply node_work_spec; [done|]; intros n; by apply Hown|].
    intros x s' [? ?]. by apply wp_ret.
  - apply tracksw_wp; [|done]. pose proof frames_death_work. tracksw_tac.
Qed.

Lemma glance_spec t wait out start capacity w :
  wp True (glance a t wait out start capacity)
    (fun g w' => w_st w' = w_st w /\ (forall ft, g = GlTake ft -> is_Some (thread_of (w_st w) a t))) w.
Proof.
  unfold glance. wp_go. wp_go. unfold thread_of.
  destruct (st_procs (w_st w) !! a) as [P|]; simpl; [|by apply wp_ret].
  destruct (p_threads P !! t) as [T|]; simpl; [|by apply wp_ret].
  wp_go. apply wp_call; [apply _|done|]. intros filled _. destruct (_ && _); [by apply wp_ret|].
  wp_go. apply wp_call; [apply _|done|]. intros room _. destruct (_ <? _); [by apply wp_ret|].
  wp_go. apply (wp_mono _ _ _ (fun _ w' => w_st w' = w_st w)).
  { unfold lacks_room. wp_go. wp_go. destruct (head _) as [[id| | | | |]|]; try by apply wp_ret.
    destruct (st_txns _ !! id) as [x|]; [|by apply wp_ret]. destruct (x_fd_fixups x); [by apply wp_ret|].
    wp_go. unfold wpx at 1, guest_can_install. destruct (can_install _ _). by apply wp_ret. }
  intros lacks w' Hw'. apply wp_ret. split; [done|]. by eauto.
Qed.

(** A pass ends: every turn takes an item, and what its execution queues is
    paid for. *)
Lemma read_pass_loop_spec fuel t wait out start capacity w :
  Good dying (w_st w) ->
  (thread_of (w_st w) a t = None /\ (0 < fuel)%nat) \/ (weight a t (w_st w) < fuel)%nat ->
  wp True (read_pass_loop fuel a t wait out start capacity)
    (fun _ w' => Good dying (w_st w') /\ gsteps a (graph (w_st w)) (graph (w_st w'))) w.
Proof.
  revert out w. induction fuel as [|fuel IH]; intros out w Hw Hf; [lia|]. simpl. wp_go.
  eapply wp_mono; [apply glance_spec|]. intros g w1 [Hw1 Htake].
  destruct g as [pass|ft]; [apply wp_ret; by rewrite Hw1|].
  destruct Hf as [[Hf _]|Hf]; [rewrite Hf in Htake; by destruct (Htake _ eq_refl)|].
  wp_go. apply wp_st. rewrite Hw1.
  eapply wp_mono; [apply wp_partial; [by apply pop_work_spec|apply pop_work_pays]|].
  intros work s2 [(Hs2 & Hg2 & Hown) Hpay]. wp_go.
  eapply wp_mono; [apply wp_partial; [by apply execute_work_spec; [by eapply Inv_Good|]|apply (costsw_execute_work a t)]|].
  simpl. intros [stop written] w3 [[Hw3 Hg3] Hcost]. rewrite Hg2 in Hg3. destruct stop; [by apply wp_ret|].
  eapply wp_mono; [apply IH; [done|right; lia]|]. intros x w4 [Hw4 Hg4]. split; [done|by etrans].
Qed.

Lemma drives_read_pass t wait out start capacity : drives (read_pass a t wait out start capacity).
Proof.
  intros w Hw. unfold read_pass. wp_go. wp_go. apply read_pass_loop_spec; [done|].
  unfold read_fuel, weight, proc_weight, thread_of.
  destruct (st_procs (w_st w) !! a) as [P|]; simpl; [|left; split; [done|lia]].
  destruct (p_threads P !! t) as [T|]; [right; lia|left; split; [done|lia]].
Qed.

End pass.
