(* ===== verification/Entry.v ===== *)
(** The entry points implement the graph of [Graph.v]: what a process does
    through the driver takes the graph through steps it may cause. *)

From S2P Require Import Prelude Host Uapi Alloc Trace Shadow State Transaction Release Read Write Driver.
From S2P Require Import Graph Frames Refinement Transfer Teardown Commands Weight Reading.
From Stdlib Require Import ZArith Lia.
From Stdlib Require Import Strings.Byte.
From stdpp Require Import base numbers list gmap sorting relations.

Open Scope Z_scope.

Section entry_points.
Context `{Env} (Hov : overflow_checks = true).
Context (a : ProcId) (dying : option ProcId) (top : Z).
Abbreviation tracks := (tracks a dying top).
Abbreviation frames := (frames dying top).

Lemma frames_unlock : frames unlock.
Proof. unfold unlock. frames_tac. Qed.
Hint Resolve frames_unlock : frames.

Lemma tracks_reject_delivery p t buffer id : tracks (reject_delivery p t buffer id).
Proof.
  unfold reject_delivery.
  assert (Hunstack : forall o, tracks (unstack_delivery p t o id)).
  { intros o s Hs. unfold unstack_delivery. wp_go. wp_go.
    destruct (st_txns s !! id) as [x|] eqn:Hx; [|by apply wp_ret].
    wp_go. apply wp_the_proc. intros P HP. cbv zeta. destruct (_ && _); [|by apply wp_ret].
    apply tracks_wp; [|done]. tracks_step; [tracks_tac|]. tracks_step; [|tracks_tac].
    apply frames_tracks, frames_thread; [done|]. intros T q Hq. right. by eapply (side_to _ _ _ (inv_side _ _ _ Hs)). }
  tracks_tac.
Qed.

Lemma frames_start_trace : frames start_trace.
Proof. unfold start_trace. frames_tac. Qed.
Lemma frames_capture_trace d c : frames (capture_trace d c).
Proof. unfold capture_trace. frames_tac. Qed.
Lemma frames_take_trace : frames take_trace.
Proof. unfold take_trace. frames_tac. Qed.

#[local] Instance no_spin_annotate_all s rs : NoSpin (annotate_all s rs).
Proof.
  assert (Hby : forall l r, NoSpin (annotate_by_all s r l)).
  { induction l as [|P l IH]; intros r; simpl; [apply _|]. apply no_spin_bind; [|done].
    unfold annotate_by. no_spin_tac. }
  induction rs as [|r rs IH]; simpl; [apply _|]. apply no_spin_bind; [by unfold annotate|]. intros r'. no_spin_tac.
Qed.

Lemma frames_pending_trace : frames pending_trace.
Proof. unfold pending_trace. frames_tac. Qed.
Lemma frames_shadow p h sink : frames (shadow p h sink).
Proof. unfold shadow. frames_tac. Qed.
Lemma frames_set_nonblocking p b : frames (set_nonblocking p b).
Proof. unfold set_nonblocking. frames_tac. Qed.
Lemma frames_set_notifier p n : frames (set_notifier p n).
Proof. unfold set_notifier. frames_tac. Qed.
Lemma frames_interrupt p t : frames (interrupt p t).
Proof. unfold interrupt. frames_tac. Qed.
Lemma frames_flush p : frames (flush p).
Proof. unfold flush. frames_tac. Qed.

Lemma frames_mmap p start len writable memory : 0 <= len -> frames (mmap p start len writable memory).
Proof.
  intros Hlen. unfold mmap. frames_tac. apply frames_modify. intros s Hs. split; [|by apply graph_alter_proc].
  apply Side_alter_proc; [by auto| |by eauto|done]. intros P al _ [= <-]. right. by apply Allocator_new_wf.
Qed.

(** A new thread has nothing to do and is in no call. *)
Lemma frames_thread_or_create p t : frames (thread_or_create p t).
Proof.
  intros s Hs. unfold thread_or_create. wp_go. wp_go.
  destruct (st_procs s !! p) as [P|] eqn:HP; [|by apply wp_ret].
  destruct (p_threads P !! t) as [T|] eqn:HT; [by apply wp_ret|]. cbv zeta. repeat wp_go.
  split; [|by apply (graph_alter_proc p (set_field p_threads (insert t (Thread_new (st_next_condvar s)))))].
  apply (Side_ext _ _ (alter_proc p (set_field p_threads (insert t (Thread_new (st_next_condvar s)))) s)); [done..|].
  apply Side_alter_proc; [|by auto| |done].
  - intros Q id _ [Hw|(u & U & HU & Hw)]; [by left; left|]. simpl in HU.
    apply lookup_insert_Some in HU as [[<- <-]|[_ HU]]; [by apply not_elem_of_nil in Hw|]. left. right. eauto.
  - intros Q u U x _ HU Hx. simpl in HU. apply lookup_insert_Some in HU as [[<- <-]|[_ HU]]; [done|]. eauto.
Qed.
Hint Resolve frames_thread_or_create : frames.

Lemma frames_poll p t : frames (poll p t).
Proof. unfold poll. frames_tac. Qed.

(** A context without a manager. *)
Lemma tracks_context_index name : tracks (context_index name).
Proof.
  intros s Hs. unfold context_index. wp_go. wp_go. destruct (position _ _); [by apply wp_ret|]. repeat wp_go.
  apply Inv_step; [done|by apply (Side_ext _ _ s), Hs|]. apply rtc_once.
  match goal with |- gstep _ _ ?g =>
    replace g with ((graph s) <| g_managers ::= (fun l => l ++ [None]) |>); [apply gs_context|] end.
  unfold graph, set_field. simpl. by rewrite fmap_app.
Qed.

Lemma tracks_new_proc c creds : tracks (new_proc c creds).
Proof.
  intros s [Hg Hs]. unfold new_proc. wp_go. apply (next_id_spec Hov). repeat wp_go.
  set (id := st_next_id s + 1). apply Inv_step; [done| |].
  - assert (Hfresh : forall P, st_procs s !! id = Some P -> False).
    { intros P HP%lookup_graph_proc. pose proof (gw_proc_id _ (gw_ids _ Hg) id ltac:(eauto)) as Hlt. simpl in Hlt. lia. }
    assert (Hs1 : Side dying top (s <| st_next_id := id |>)) by (apply Side_next; [done|lia]).
    split; simpl; try apply Hs1.
    + intros q P i n [[<- <-]|[_ HP]]%lookup_insert_Some; [|by eapply (side_work _ _ _ Hs1)].
      intros _ [?%not_elem_of_nil|(u & U & HU & _)]; [done|simpl in HU; by rewrite lookup_empty in HU].
    + intros q P i [[<- <-]|[_ HP]]%lookup_insert_Some; [|by eapply (side_queued _ _ _ Hs1)].
      intros [?%not_elem_of_nil|(u & U & HU & _)]; [done|simpl in HU; by rewrite lookup_empty in HU].
    + intros q P al [[<- <-]|[_ HP]]%lookup_insert_Some; [done|by eapply (side_alloc _ _ _ Hs1)].
    + intros q t T x HT. unfold thread_of in HT. simpl in HT. apply bind_Some in HT as (P & HP & HT).
      apply lookup_insert_Some in HP as [[<- <-]|[_ HP]]; [simpl in HT; by rewrite lookup_empty in HT|].
      apply (side_stack _ _ _ Hs q t). unfold thread_of. by rewrite HP.
  - apply rtc_once. match goal with |- gstep _ _ ?g =>
      replace g with (open_proc id c (graph s)); [apply gs_open; simpl; lia|] end.
    unfold open_proc, graph, set_field. simpl. by rewrite fmap_insert.
Qed.

Lemma tracks_open device creds : tracks (open device creds).
Proof. unfold open. pose proof tracks_context_index. pose proof tracks_new_proc. tracks_tac. Qed.

Lemma frames_context c f :
  (forall x, c_mgr_node (f x) = c_mgr_node x) -> frames (modify (alter_context c f)).
Proof.
  intros Hf. apply frames_modify. intros s Hs. split; [by apply (Side_ext _ _ s)|].
  unfold graph. simpl. f_equal. apply list_eq. intros i. rewrite !list_lookup_fmap.
  destruct (decide (i = c)) as [->|].
  - rewrite list_lookup_alter_eq. destruct (st_contexts s !! c) as [x|]; simpl; [by rewrite Hf|done].
  - by rewrite list_lookup_alter_ne.
Qed.

(** The manager is an object of the process that asks. *)
Lemma tracks_set_context_manager fbo : tracks (set_context_manager a fbo).
Proof.
  unfold set_context_manager. tracks_step; [tracks_tac|]. cbv zeta. tracks_step; [tracks_tac|].
  do 2 (tracks_step; [tracks_tac|]). tracks_step; [by apply frames_tracks, frames_context|].
  intros s Hs. wp_go. eapply new_node_spec; [done..|]. intros id s1 n Hs1 Hg1 Hn Hown.
  wp_go. apply wp_the_node_eq with n; [done|]. wp_go. apply wp_call; [apply _|done|]. intros weak _.
  wp_go. apply wp_call; [apply _|done|]. intros strong _. wp_go.
  eapply wp_mono; [apply (frames_node dying top); [done|apply Hs1]|]. intros _ s2 [Hs2 Hg2]. wp_go. wp_go. apply wp_ret.
  match goal with |- Inv _ _ ?s3 /\ _ =>
    assert (Hg3 : graph s3 = (graph s2) <| g_managers ::= alter (fun _ => Some id) (p_context x) |>) end.
  { unfold graph, set_field. simpl. f_equal. by apply list_fmap_alter, Forall_true. }
  apply Inv_step; [done|by apply (Side_ext _ _ s2)|]. rewrite Hg3, Hg2. eapply rtc_r; [done|].
  apply gs_manager. intros m [= <-]. exists (node_view n). split; [by apply lookup_graph_node|done].
Qed.

Lemma frames_node_info_for_ref p arg : frames (node_info_for_ref p arg).
Proof. unfold node_info_for_ref. frames_tac. Qed.
Lemma frames_node_debug_info p arg : frames (node_debug_info p arg).
Proof. unfold node_debug_info. frames_tac. Qed.
Lemma frames_get_extended_error p t arg : frames (get_extended_error p t arg).
Proof. unfold get_extended_error. frames_tac. Qed.

Lemma tracks_dispatch t cmd arg : tracks (dispatch a t cmd arg).
Proof.
  unfold dispatch. pose proof tracks_set_context_manager.
  pose proof (fun p => frames_tracks a dying top _ (frames_node_info_for_ref p arg)).
  pose proof (fun p => frames_tracks a dying top _ (frames_node_debug_info p arg)).
  pose proof (fun p => frames_tracks a dying top _ (frames_get_extended_error p t arg)).
  tracks_tac.
Qed.

Lemma frames_begin_wait f : frames (begin_wait f).
Proof. unfold begin_wait. frames_tac. Qed.
Lemma frames_clear_waiting p t : frames (clear_waiting p t).
Proof. unfold clear_waiting. frames_tac. Qed.
Hint Resolve frames_clear_waiting : frames.
Lemma frames_wait_for_work f : frames (wait_for_work f).
Proof. unfold wait_for_work. frames_tac. Qed.
Lemma frames_wake_up f : frames (wake_up f).
Proof. unfold wake_up. frames_tac. Qed.

End entry_points.

#[export] Hint Resolve frames_unlock frames_thread_or_create frames_begin_wait frames_clear_waiting
  frames_wait_for_work frames_wake_up frames_should_spawn_looper : frames.
#[export] Hint Resolve tracks_dispatch : tracks.

Lemma tracks_release `{Env} (Hov : overflow_checks = true) p top : tracks p None top (release p).
Proof.
  unfold release. pose proof (tracks_release_proc Hov p top). tracks_tac.
Qed.

(** ** The ioctls *)

Section ioctls.
Context `{Env} (Hov : overflow_checks = true).
Context {G : Type} `{GuestProcess G} (a : ProcId) (dying : option ProcId) (Hdying : dying <> Some a).
Abbreviation drives := (drives (G := G) a dying).

(** [follows m P]: what [m] does, when it returns, takes the graph through
    steps [a] may cause; the result satisfies [P]. *)
Definition follows {A} (m : M (World G) A) (P : A -> Prop) : Prop :=
  forall w, Good dying (w_st w) ->
    wpx True True m (fun x w' => Good dying (w_st w') /\ gsteps a (graph (w_st w)) (graph (w_st w')) /\ P x) w.

Lemma follows_bind {A B} (m : M (World G) A) (f : A -> M (World G) B) P Q :
  follows m P -> (forall x, P x -> follows (f x) Q) -> follows (m ≫= f) Q.
Proof.
  intros Hm Hf w Hw. apply wp_bind. eapply wp_mono; [by apply Hm|].
  intros x w1 (Hw1 & Hg1 & Hx). eapply wp_mono; [by apply Hf|].
  intros y w2 (Hw2 & Hg2 & Hy). split_and!; [done|by etrans|done].
Qed.

Lemma follows_drives {A} (m : M (World G) A) : drives m -> follows m (fun _ => True).
Proof.
  intros Hm w Hw. eapply wp_weaken; [by apply Hm|done|done|]. intros x w' [? ?]. auto.
Qed.

Lemma follows_seq {A B} (m : M (World G) A) (f : A -> M (World G) B) Q :
  drives m -> (forall x, follows (f x) Q) -> follows (m ≫= f) Q.
Proof. intros Hm Hf. eapply follows_bind; [by apply follows_drives|auto]. Qed.

Lemma follows_ret {A} (x : A) (P : A -> Prop) : P x -> follows (mret x) P.
Proof. intros Hx w Hw. by apply wp_ret. Qed.

(** The read a part of an ioctl is in is the caller's. *)
Definition status_proc (status : ReadStatus) : ProcId :=
  match status with RsReturn _ f | RsYield f | RsSleep f _ => rf_proc f end.

Lemma follows_begin_wait f :
  rf_proc f = a -> follows (st (begin_wait f)) (fun r => forall f', r = Some f' -> rf_proc f' = a).
Proof.
  intros Hf w Hw. apply wp_st. eapply wp_mono.
  { apply wp_and; [eapply wp_weaken; [apply (frames_begin_wait dying (st_next_id (w_st w)) f); apply Hw|done..]|].
    instantiate (1 := fun r _ => forall f', r = Some f' -> rf_proc f' = a).
    unfold begin_wait. repeat wp_go; intros f' [= <-]; done. }
  intros r s' [[Hs' Hg'] Hr]. cbn [w_st]. rewrite Hg'. split_and!; [|done|done].
  eapply Inv_Good. split; [rewrite Hg'; apply Hw|done].
Qed.

Lemma follows_finish_read f :
  rf_proc f = a -> follows (finish_read f) (fun status => status_proc status = a).
Proof.
  intros Hf. unfold finish_read. cbv zeta.
  repeat first [ by apply follows_ret | apply follows_seq; [drives_tac|intros ?] ].
Qed.

Lemma follows_read_loop fuel f :
  rf_proc f = a -> follows (read_loop fuel f) (fun status => status_proc status = a).
Proof.
  revert f. induction fuel as [|fuel IH]; intros f Hf; simpl; [done|].
  apply follows_seq; [drives_tac|]. intros o. destruct o; try by apply follows_ret.
  apply follows_seq; [drives_tac|intros w]. destruct (negb _); [by apply follows_ret|].
  apply follows_seq; [drives_tac|intros _]. rewrite Hf.
  apply follows_seq; [by apply drives_read_pass|]. intros [pass out]. cbv zeta. destruct pass.
  - eapply follows_bind; [by apply follows_begin_wait|]. intros [f'|] Hf'; [by apply IH, Hf'|by apply follows_ret].
  - by apply follows_finish_read.
Qed.

Lemma follows_read_turns f :
  rf_proc f = a -> follows (read_turns f) (fun status => status_proc status = a).
Proof.
  intros Hf. unfold read_turns. apply follows_seq; [drives_tac|intros w]. by apply follows_read_loop.
Qed.

Lemma follows_thread_read t bwr park :
  follows (thread_read a t bwr park) (fun status => status_proc status = a).
Proof.
  unfold thread_read. cbv zeta. destruct (_ <? _); [by apply follows_ret|].
  eapply follows_bind; [by apply follows_begin_wait|]. intros [f|] Hf; [|by apply follows_ret].
  by apply follows_read_turns, Hf.
Qed.

Lemma drives_finish_ioctl p t r arg park : drives (finish_ioctl p t r arg park).
Proof. unfold finish_ioctl. drives_tac. Qed.
Hint Resolve drives_finish_ioctl : drives.

#[local] Instance no_spin_wr_decode bs : NoSpin (WriteRead_decode bs).
Proof. unfold WriteRead_decode. no_spin_tac. Qed.
#[local] Instance no_spin_wr_encode v : NoSpin (WriteRead_encode v).
Proof. unfold WriteRead_encode. no_spin_tac. Qed.

Lemma drives_after_read status : drives (after_read status).
Proof. unfold after_read. drives_tac. Qed.

Lemma drives_write_part t bwr : drives (write_part a t bwr).
Proof.
  assert (forall write, drives (thread_write a t write 0)) by (intros; by apply drives_thread_write).
  unfold write_part. drives_tac.
Qed.

Lemma follows_write_read t arg park : follows (write_read a t arg park) (fun _ => True).
Proof.
  unfold write_read. apply follows_seq; [drives_tac|intros bwr].
  apply follows_seq; [apply drives_write_part|]. intros [bwr' r]. destruct r; [|apply follows_drives; drives_tac].
  destruct (0 <? _); [|apply follows_drives; drives_tac].
  eapply follows_bind; [apply follows_thread_read|]. intros status _. apply follows_drives, drives_after_read.
Qed.

Lemma follows_ioctl_parking t cmd arg park : follows (ioctl_parking a t cmd arg park) (fun _ => True).
Proof.
  unfold ioctl_parking. destruct (negb _); [by apply follows_ret|]. apply follows_seq; [drives_tac|].
  intros [|e]; [|apply follows_drives; drives_tac].
  destruct (cmd =? _); [apply follows_write_read|]. apply follows_drives. drives_tac.
Qed.

Lemma follows_resume_yield f : rf_proc f = a -> follows (resume_yield f) (fun _ => True).
Proof.
  intros Hf. unfold resume_yield. eapply follows_bind; [by apply follows_read_turns|].
  intros status _. apply follows_drives, drives_after_read.
Qed.

Lemma follows_resume_sleep f : rf_proc f = a -> follows (resume_sleep f) (fun _ => True).
Proof.
  intros Hf. unfold resume_sleep. apply follows_seq; [drives_tac|intros _].
  by apply follows_resume_yield.
Qed.

Lemma drives_forward_inbound t buffer tr :
  sizes_ok tr 0 -> drives (forward_inbound_transaction a t buffer tr).
Proof.
  intros Hsz. unfold forward_inbound_transaction.
  pose proof (fun t => drives_transaction Hov (G := G) a dying t tr false 0 Hsz). drives_tac.
Qed.

End ioctls.
