(* ===== verification/System.v ===== *)
(** The driver as a transition system: the states that calls of its entry
    points lead to, the invariant that holds in all of them, and what it
    means for references, objects, handles and buffers. *)

From S2P Require Import Prelude Host Uapi Alloc Trace Shadow State Transaction Release Read Write Driver.
From S2P Require Import Graph Frames Refinement Transfer Teardown Commands Weight Reading Entry.
From Stdlib Require Import ZArith Lia.
From Stdlib Require Import Strings.Byte.
From stdpp Require Import base numbers list gmap sorting relations.

Open Scope Z_scope.

(** ** Steps *)

(** [step a s s']: a call on behalf of process [a] takes the driver from [s]
    to [s'].  The calls that come from the host ([open], the observers, and the
    memory it makes for a mapping) may be made for any [a].  An ioctl is one step for each part it runs under the
    lock; [g] is the calling process, which may be anything. *)
Inductive step `{Env} (a : ProcId) (s s' : State) : Prop :=
| step_open device creds p : open device creds s = Done (p, s') -> step a s s'
| step_new_memory id base len :
    st_memories s !! id = None ->
    s' = set_field st_memories (insert id (HeapReceiveMemory_new base len)) s -> step a s s'
| step_set_nonblocking b : set_nonblocking a b s = Done (tt, s') -> step a s s'
| step_set_notifier n : set_notifier a n s = Done (tt, s') -> step a s s'
| step_mmap vm_start len writable memory r :
    0 <= len -> mmap a vm_start len writable memory s = Done (r, s') -> step a s s'
| step_poll t r : poll a t s = Done (r, s') -> step a s s'
| step_flush r : flush a s = Done (r, s') -> step a s s'
| step_interrupt t : interrupt a t s = Done (tt, s') -> step a s s'
| step_release : release a s = Done (tt, s') -> step a s s'
| step_reject t buffer id r : reject_delivery a t buffer id s = Done (r, s') -> step a s s'
| step_start_trace : start_trace s = Done (tt, s') -> step a s s'
| step_capture_trace d c : capture_trace d c s = Done (tt, s') -> step a s s'
| step_take_trace r : take_trace s = Done (r, s') -> step a s s'
| step_pending_trace r : pending_trace s = Done (r, s') -> step a s s'
| step_shadow h sink r : shadow a h sink s = Done (r, s') -> step a s s'
| step_ioctl G `{GuestProcess G} (g g' : G) t cmd arg park r :
    ioctl_parking a t cmd arg park (mkWorld s g) = Done (r, mkWorld s' g') -> step a s s'
| step_resume_yield G `{GuestProcess G} (g g' : G) f r :
    rf_proc f = a -> resume_yield f (mkWorld s g) = Done (r, mkWorld s' g') -> step a s s'
| step_resume_sleep G `{GuestProcess G} (g g' : G) f r :
    rf_proc f = a -> resume_sleep f (mkWorld s g) = Done (r, mkWorld s' g') -> step a s s'
| step_forward G `{GuestProcess G} (g g' : G) t buffer tr r :
    sizes_ok tr 0 ->
    forward_inbound_transaction a t buffer tr (mkWorld s g) = Done (r, mkWorld s' g') -> step a s s'.

(** The states of a driver in use. *)
Definition reachable `{Env} (s : State) : Prop := rtc (fun s s' => exists a, step a s s') State_default s.

(** ** What the states show *)

(** [p] has a handle for node [n]. *)
Definition holds (s : State) (p : ProcId) (n : NodeId) : Prop :=
  exists P d, st_procs s !! p = Some P /\ p_refs_by_node P !! n = Some d.

(** The process holds a strong reference to node [n]. *)
Definition strong_holder (n : NodeId) (P : Proc) : bool :=
  match (d ← p_refs_by_node P !! n; p_refs_by_desc P !! d) with
  | Some r => 0 <? r_strong r
  | None => false
  end.

(** What [a] can get hold of by itself: an object made later, its own objects,
    what it has a handle for, and the manager of its context. *)
Definition can_reach (s : State) (a : ProcId) (n : NodeId) : Prop :=
  st_next_id s < n \/
  (exists x, st_nodes s !! n = Some x /\ n_proc x = Some a) \/
  holds s a n \/
  (exists P c, st_procs s !! a = Some P /\ st_contexts s !! p_context P = Some c /\ c_mgr_node c = Some n).

(** ** The invariant *)

Lemma Good_default : Good None State_default.
Proof.
  split.
  - split; split; simpl; try (intros *; rewrite fmap_empty, lookup_empty); try done.
  - split; simpl; intros *; rewrite ?lookup_empty; done.
Qed.

Section system.
Context `{Env} (Hov : overflow_checks = true).

Lemma tracks_Good {A} a (m : M State A) s r s' :
  (forall top, tracks a None top m) -> Good None s -> m s = Done (r, s') ->
  Good None s' /\ gsteps a (graph s) (graph s').
Proof.
  intros Hm Hs Hr. pose proof (wp_done _ _ _ _ _ _ _ Hr (Hm _ _ Hs)) as [Hs' Hg].
  split; [by eapply Inv_Good|done].
Qed.

Lemma frames_Good {A} a (m : M State A) s r s' :
  (forall top, frames None top m) -> Good None s -> m s = Done (r, s') ->
  Good None s' /\ gsteps a (graph s) (graph s').
Proof. intros Hm. apply tracks_Good. intros top. by apply frames_tracks. Qed.

Lemma follows_Good {G A} a (m : M (World G) A) P s g r s' g' :
  follows a None m P -> Good None s -> m (mkWorld s g) = Done (r, mkWorld s' g') ->
  Good None s' /\ gsteps a (graph s) (graph s').
Proof.
  intros Hm Hs Hr. pose proof (wp_done _ _ _ _ _ _ _ Hr (Hm (mkWorld s g) Hs)) as (Hs' & Hg & _). done.
Qed.

(** A step keeps the invariant and takes the graph through steps its process
    may cause. *)
Lemma step_Good a s s' : Good None s -> step a s s' -> Good None s' /\ gsteps a (graph s) (graph s').
Proof.
  intros Hs Hstep. assert (Hd : None <> Some a) by done.
  destruct Hstep as [? ? ? Hr|? ? ? _ Hr|? Hr|? Hr|? ? ? ? ? ? Hr|? ? Hr|? Hr|? Hr|Hr|? ? ? ? Hr|Hr|? ? Hr|? Hr|? Hr|? ? ? Hr
    |? ? ? ? ? ? ? ? ? Hr|? ? ? ? ? ? ? Hr|? ? ? ? ? ? ? Hr|? ? ? ? ? ? ? ? ? Hr].
  - exact (tracks_Good a _ _ _ _ (fun top => tracks_open Hov a None top _ _) Hs Hr).
  - subst s'. split; [|done]. split; [apply Hs|by apply (Side_ext _ _ s), Hs].
  - exact (frames_Good a _ _ _ _ (fun top => frames_set_nonblocking None top _ _) Hs Hr).
  - exact (frames_Good a _ _ _ _ (fun top => frames_set_notifier None top _ _) Hs Hr).
  - refine (frames_Good a _ _ _ _ (fun top => frames_mmap None top _ _ _ _ _ _) Hs Hr). done.
  - exact (frames_Good a _ _ _ _ (fun top => frames_poll None top _ _) Hs Hr).
  - exact (frames_Good a _ _ _ _ (fun top => frames_flush None top _) Hs Hr).
  - exact (frames_Good a _ _ _ _ (fun top => frames_interrupt None top _ _) Hs Hr).
  - exact (tracks_Good a _ _ _ _ (fun top => tracks_release Hov a top) Hs Hr).
  - exact (tracks_Good a _ _ _ _ (fun top => tracks_reject_delivery Hov a None top _ _ _ _) Hs Hr).
  - exact (frames_Good a _ _ _ _ (fun top => frames_start_trace None top) Hs Hr).
  - exact (frames_Good a _ _ _ _ (fun top => frames_capture_trace None top _ _) Hs Hr).
  - exact (frames_Good a _ _ _ _ (fun top => frames_take_trace None top) Hs Hr).
  - exact (frames_Good a _ _ _ _ (fun top => frames_pending_trace None top) Hs Hr).
  - exact (frames_Good a _ _ _ _ (fun top => frames_shadow None top _ _ _) Hs Hr).
  - exact (follows_Good a _ _ _ _ _ _ _ (follows_ioctl_parking Hov a None Hd _ _ _ _) Hs Hr).
  - refine (follows_Good a _ _ _ _ _ _ _ (follows_resume_yield Hov a None Hd _ _) Hs Hr). done.
  - refine (follows_Good a _ _ _ _ _ _ _ (follows_resume_sleep Hov a None Hd _ _) Hs Hr). done.
  - refine (follows_Good a _ _ _ _ _ _ _ (follows_drives a None _ (drives_forward_inbound Hov a None _ _ _ _)) Hs Hr). done.
Qed.

Lemma reachable_Good s : reachable s -> Good None s.
Proof.
  intros Hr. unfold reachable in Hr. remember State_default as s0 eqn:Hs0.
  assert (Hgood : Good None s0) by (subst; apply Good_default). clear Hs0.
  induction Hr as [|s0 s1 s2 [a Hstep] _ IH]; [done|]. by apply IH, (step_Good a s0).
Qed.

(** The strong references of the graph, counted by process. *)
Lemma strong_count_holders n procs :
  strong_count n (proc_view <$> procs) = Z.of_nat (count (strong_holder n) procs).
Proof.
  induction procs as [|p P procs Hp IH] using map_ind; [done|].
  rewrite fmap_insert, strong_count_insert, count_insert, IH by (done || by rewrite lookup_fmap, Hp).
  rewrite Nat2Z.inj_add. f_equal. unfold strong_bit, strong_holder, proc_handle. simpl.
  destruct (p_refs_by_node P !! n) as [d|]; simpl; [|done]. rewrite lookup_fmap.
  destruct (p_refs_by_desc P !! d) as [r|]; simpl; [|done]. by destruct (0 <? r_strong r).
Qed.

Lemma reachable_wf s : reachable s -> graph_wf (graph s).
Proof. intros Hr. by apply reachable_Good. Qed.

Lemma graph_proc_inv s p gp :
  g_procs (graph s) !! p = Some gp -> exists P, st_procs s !! p = Some P /\ gp = proc_view P.
Proof. unfold graph. simpl. rewrite lookup_fmap. intros (P & HP & ->)%fmap_Some. eauto. Qed.

Lemma holds_handle s p n : graph_wf (graph s) -> holds s p n <-> is_Some (handle (graph s) p n).
Proof.
  intros Hg. split.
  - intros (P & d & HP & Hd). destruct (node_handle s p P n d Hg HP Hd) as (? & ? & ->). eauto.
  - intros [[[d st] w] Hh]. unfold handle in Hh. apply bind_Some in Hh as (gp & Hgp & Hh).
    apply graph_proc_inv in Hgp as (P & HP & ->). unfold proc_handle in Hh.
    apply bind_Some in Hh as (d' & Hd' & _). exists P, d'. by split.
Qed.

Lemma can_reach_reaches s a n : graph_wf (graph s) -> reaches (graph s) a n -> can_reach s a n.
Proof.
  intros Hg [Hfr|[(gn & Hn & Hown)|[Hx|(gp & Hp & Hmgr)]]].
  - left. simpl in Hfr. lia.
  - right. left. apply lookup_graph_node_inv in Hn as (x & Hx & ->). eauto.
  - right. right. left. by apply holds_handle.
  - right. right. right. apply graph_proc_inv in Hp as (P & HP & ->). simpl in Hmgr.
    rewrite list_lookup_fmap in Hmgr. apply fmap_Some in Hmgr as (c & Hc & Hm). exists P, c. eauto.
Qed.

(** ** What holds of every reachable state *)

(** C1: every call of the driver takes the reference graph of its state
    through steps that the calling process may cause: the driver refines the
    capability rules of [Graph.v]. *)
Theorem calls_refine_graph a s s' : reachable s -> step a s s' -> gsteps a (graph s) (graph s').
Proof. intros Hs%reachable_Good Hstep. by apply step_Good. Qed.

(** C2: in any number of calls made by process [a], no process gets a handle
    for an object unless it had one, or [a] could reach the object at the
    start: it is newer, its own, one it has a handle for, or the manager of its
    context. *)
Theorem handles_not_forged a s s' p n :
  reachable s -> a <= st_next_id s -> rtc (step a) s s' -> holds s' p n -> holds s p n \/ can_reach s a n.
Proof.
  intros Hs%reachable_Good Ha Hsteps Hh.
  assert (Good None s' /\ gsteps a (graph s) (graph s')) as [Hs' Hg].
  { clear Ha Hh. induction Hsteps as [s|s s1 s2 Hstep _ IH]; [done|].
    destruct (step_Good a s s1 Hs Hstep) as [Hs1 Hg1]. destruct (IH Hs1) as [? ?]. split; [done|by etrans]. }
  destruct (gsteps_handle a (graph s) (graph s') p n) as [?|?]; [apply Hs|simpl; lia|done| | |].
  - apply holds_handle; [apply Hs'|done].
  - left. apply holds_handle; [apply Hs|done].
  - right. apply can_reach_reaches; [apply Hs|done].
Qed.

(** C3: the two handle tables of a process are inverse to each other, a handle
    has a positive count, and the node behind it exists and lists the process
    among its holders. *)
Theorem handle_tables_coherent s p P :
  reachable s -> st_procs s !! p = Some P ->
  (forall d r, p_refs_by_desc P !! d = Some r ->
     p_refs_by_node P !! r_node r = Some d /\ 0 <= r_strong r /\ 0 <= r_weak r /\ 0 < r_strong r + r_weak r /\
     exists x, st_nodes s !! r_node r = Some x /\ p ∈ n_refs x) /\
  (forall n d, p_refs_by_node P !! n = Some d -> exists r, p_refs_by_desc P !! d = Some r /\ r_node r = n).
Proof.
  intros [Hh _ _]%reachable_wf HP. pose proof (lookup_graph_proc _ _ _ HP) as Hp. split.
  - intros d r Hr. assert (gp_desc (proc_view P) !! d = Some (ref_view r)) as Hd by (simpl; by rewrite lookup_fmap, Hr).
    pose proof (gw_desc _ Hh _ _ _ _ Hp Hd) as Hn. destruct (gw_counts _ Hh _ _ _ _ Hp Hd) as (? & ? & ?).
    destruct (gw_holder _ Hh _ _ _ _ Hp Hn) as (gn & Hgn & Hin).
    apply lookup_graph_node_inv in Hgn as (x & Hx & ->). split_and!; eauto.
  - intros n d Hn. destruct (gw_node _ Hh _ _ _ _ Hp Hn) as (r & Hr & <-). simpl in Hr.
    rewrite lookup_fmap in Hr. apply fmap_Some in Hr as (r0 & Hr & ->). eauto.
Qed.

(** C4: a node's internal strong count is the number of processes that hold a
    strong reference to it, and its holders are exactly the processes with a
    handle for it. *)
Theorem node_counts_exact s n x :
  reachable s -> st_nodes s !! n = Some x ->
  n_internal_strong_refs x = Z.of_nat (count (strong_holder n) (st_procs s)) /\
  (forall p, p ∈ n_refs x <-> holds s p n).
Proof.
  intros [Hh _ _]%reachable_wf Hx. pose proof (lookup_graph_node _ _ _ Hx) as Hn. split.
  - rewrite <- strong_count_holders. exact (gw_strong _ Hh _ _ Hn).
  - intros p. split.
    + intros Hin. destruct (gw_held _ Hh _ _ _ Hn Hin) as (gp & d & Hp & Hd).
      apply graph_proc_inv in Hp as (P & HP & ->). exists P, d. by split.
    + intros (P & d & HP & Hd). destruct (gw_holder _ Hh _ _ _ _ (lookup_graph_proc _ _ _ HP) Hd) as (gn & Hgn & Hin).
      rewrite Hn in Hgn. by injection Hgn as <-.
Qed.

(** a process's table of objects and the owners recorded in the nodes
    agree: a node is owned by [q] exactly when [q]'s table maps the node's
    pointer to it. *)
Theorem owners_exact s n q :
  reachable s ->
  (exists x, st_nodes s !! n = Some x /\ n_proc x = Some q) <->
  (exists Q ptr, st_procs s !! q = Some Q /\ p_nodes Q !! ptr = Some n).
Proof.
  intros [_ Ho _]%reachable_wf. split.
  - intros (x & Hx & Hown). destruct (gw_owner _ Ho _ _ _ (lookup_graph_node _ _ _ Hx) Hown) as (gp & Hp & Hd).
    apply graph_proc_inv in Hp as (P & HP & ->). eauto.
  - intros (Q & ptr & HQ & Hptr). destruct (gw_owned _ Ho _ _ _ _ (lookup_graph_proc _ _ _ HQ) Hptr) as (gn & Hgn & Hown & _).
    apply lookup_graph_node_inv in Hgn as (x & Hx & ->). eauto.
Qed.

(** C7: the receive buffers of a process lie inside its mapping, which is at
    most 4 MiB, and do not overlap each other. *)
Theorem buffers_disjoint s p P al o b :
  reachable s -> st_procs s !! p = Some P -> p_alloc P = Some al -> a_buffers al !! o = Some b ->
  0 <= o /\ 0 < b_size b /\ o + b_size b <= a_size al <= MAX_MAPPING /\
  forall o' b', a_buffers al !! o' = Some b' -> o' <> o -> o + b_size b <= o' \/ o' + b_size b' <= o.
Proof.
  intros Hs%reachable_Good HP Hal Hb. pose proof (side_alloc _ _ _ (inv_side _ _ _ Hs) _ _ _ HP Hal) as Hwf.
  pose proof (wf_buffer_range _ Hwf _ _ Hb). pose proof (wf_size _ Hwf). split_and!; [lia..|].
  intros o' b' Hb' Hne. destruct (Z.lt_total o o') as [Hlt|[?|Hlt]]; [left|done|right].
  - by eapply (wf_buffer_buffer _ Hwf).
  - by eapply (wf_buffer_buffer _ Hwf).
Qed.

(** a transaction's caller chain leads to strictly older transactions, so
    walking it ends; the stacks of threads hold transactions that have been
    made. *)
Theorem call_chains_descend s :
  reachable s ->
  (forall id x q, st_txns s !! id = Some x -> x_from_parent x = Some q -> q < id <= st_next_id s) /\
  (forall p t T id, thread_of s p t = Some T -> t_transaction_stack T = Some id -> id <= st_next_id s).
Proof.
  intros [_ Hs]%reachable_Good. split.
  - intros id x q Hx Hq. destruct (side_from _ _ _ Hs _ _ _ Hx Hq). pose proof (side_txn _ _ _ Hs _ _ Hx). lia.
  - intros p t T id HT Hid. by eapply (side_stack _ _ _ Hs).
Qed.

(** Work about the references of a node waits only in the queues of the
    process that owns the node. *)
Theorem node_work_for_owner s p P id x :
  reachable s -> st_procs s !! p = Some P ->
  WNode id ∈ p_todo P \/ (exists t T, p_threads P !! t = Some T /\ WNode id ∈ t_todo T) ->
  st_nodes s !! id = Some x -> n_proc x = Some p.
Proof. intros [_ Hs]%reachable_Good HP Hq Hx. by eapply (side_work _ _ _ Hs). Qed.

(** The process is gone once it is released. *)
Lemma release_proc_gone p s : wpx True True (release_proc p) (fun _ s' => st_procs s' !! p = None) s.
Proof.
  unfold release_proc. wp_go. wp_go. destruct (st_procs s !! p) as [P|] eqn:HP; [|by apply wp_ret].
  do 12 (wp_go; eapply wp_mono; [apply wp_any|]; intros ? ? _).
  wp_go. wp_go. destruct (p_alloc _) as [al|]; [|apply wp_ret, lookup_delete_eq].
  apply wp_for_each; [|apply lookup_delete_eq]. intros b s1 Hs1. unfold orphan_buffer.
  destruct (b_txn b); [by apply wp_modify|by apply wp_ret].
Qed.

Lemma release_gone p s : wpx True True (release p) (fun _ s' => st_procs s' !! p = None) s.
Proof.
  unfold release. wp_go. wp_go. wp_go. eapply wp_mono; [apply wp_any|]. intros _ s1 _.
  wp_go. eapply wp_mono; [apply release_proc_gone|]. intros ? s2 Hs2. unfold unlock, take_wakes, PendingWakes_deliver.
  repeat wp_go. done.
Qed.


(** C6: the driver's loops end: sending a transaction (the failed-reply and
    call-chain walks, the object loop and its fixup walks), running a command
    stream, and a read pass return or panic, whatever the guest does. *)
Theorem loops_end {G} `{GuestProcess G} a s (g : G) t :
  reachable s ->
  (forall tr reply extra, sizes_ok tr extra -> transaction a t tr reply extra (mkWorld s g) <> Spinning) /\
  (forall write consumed, 0 <= consumed -> thread_write a t write consumed (mkWorld s g) <> Spinning) /\
  (forall wait out start capacity, read_pass a t wait out start capacity (mkWorld s g) <> Spinning).
Proof.
  intros Hs%reachable_Good. split_and!.
  - intros tr reply extra Hsz. by eapply wp_no_spin, (drives_transaction Hov a None).
  - intros write consumed Hc. by eapply wp_no_spin, (drives_thread_write Hov a None).
  - intros wait out start capacity. by eapply wp_no_spin, (drives_read_pass Hov a None).
Qed.

End system.
