(* ===== verification/Scenario.v ===== *)
(** A concrete run of the driver: two processes on one device, one of them
    the context manager, the other handing it an object.  The states it goes
    through are the inputs at which the theorems are exercised. *)

From S2P Require Import Prelude Host Uapi Alloc Trace Shadow State Transaction Release Read Write Driver.
From S2P Require Import Transfer System.
From Stdlib Require Import ZArith Lia.
From Stdlib Require Import Strings.Byte.
From stdpp Require Import base numbers list gmap relations.

Open Scope Z_scope.

(** ** A guest: its memory is a list of regions, its files are its fds *)

Record Guest := mkGuest { gu_regions : list (Z * list byte) }.

Definition guest_read (address len : Z) (g : Guest) : result (list byte) Errno :=
  match list_find (fun r => r.1 = address) (gu_regions g) with
  | Some (_, (_, bytes)) => if len <=? Z.of_nat (length bytes) then Ok (take (Z.to_nat len) bytes) else Err EFAULT
  | None => Err EFAULT
  end.

#[export] Instance Guest_process : GuestProcess Guest := {|
  copy_from_user address len g := (guest_read address len g, g);
  copy_to_user address data g := (Ok tt, mkGuest ((address, data) :: gu_regions g));
  get_file fd g := (Ok fd, g);
  install_file file g := (Ok file, g);
  can_install _ g := (true, g);
  delivered _ _ g := g;
  close_fd _ g := g;
|}.

(** ** Running the driver *)

Definition run {S A} (m : M S A) (s : S) : S := match m s with Done (_, s') => s' | _ => s end.

Definition finishes {S A} (m : M S A) (s : S) : bool := match m s with Done _ => true | _ => false end.

Lemma run_Done {S A} (m : M S A) s : finishes m s = true -> exists r, m s = Done (r, run m s).
Proof. unfold finishes, run. destruct (m s) as [[r s']| |]; [eauto|done|done]. Qed.

(** The bytes of an encoder that has room. *)
Definition bytes_of (o : outcome (list byte)) : list byte := match o with Done bs => bs | _ => [] end.

Section scenario.
Context `{Env}.

(** One [BINDER_WRITE_READ] of thread [t], with the commands [write] at
    address 256 and room for [read] bytes at address 512. *)
Definition write_read_arg (write : list byte) (read : Z) : list byte :=
  bytes_of (WriteRead_encode (mkWriteRead (Z.of_nat (length write)) 0 256 read 0 512)).

Definition talk (p t : Z) (write : list byte) (read : Z) (regions : list (Z * list byte)) :
    M State IoctlStatus := fun s =>
  match ioctl_parking p t BINDER_WRITE_READ (write_read_arg write read) None
          (mkWorld s (mkGuest ((256, write) :: regions))) with
  | Done (r, w) => Done (r, w_st w)
  | Panicked => Panicked
  | Spinning => Spinning
  end.

Definition manager_creds : Credentials := mkCredentials 100 1000 None.
Definition client_creds : Credentials := mkCredentials 200 10001 None.

Definition new_memory (id base len : Z) : M State unit :=
  modify (set_field st_memories (insert id (HeapReceiveMemory_new base len))).

(** Two processes open the device and map their receive buffers. *)
Definition state_opened : State :=
  run (open DevBinder client_creds) (run (open DevBinder manager_creds) State_default).
Definition state_memory : State := run (new_memory 2 8192 1024) (run (new_memory 1 4096 1024) state_opened).
Definition state_up : State := run (mmap 2 8192 1024 false 2) (run (mmap 1 4096 1024 false 1) state_memory).

(** The object the client hands out, and the call that carries it. *)
Definition client_object : FlatBinderObject := mkFlatBinderObject BINDER_TYPE_BINDER 0 77 88.
Definition call_data : list byte := bytes_of (FlatBinderObject_encode client_object).
Definition call_offsets : list byte := le_bytes 8 0.
Definition the_call : TransactionData :=
  mkTransactionData 0 0 1 TF_ACCEPT_FDS 0 0 (Z.of_nat (length call_data)) 8 1024 2048.

Definition send_call_command : list byte :=
  le_bytes 4 BC_TRANSACTION ++ bytes_of (TransactionData_encode the_call).
Definition call_regions : list (Z * list byte) := [(1024, call_data); (2048, call_offsets)].

Definition become_manager : M State unit := fun s =>
  match ioctl_parking 1 10 BINDER_SET_CONTEXT_MGR (le_bytes 4 0) None (mkWorld s (mkGuest [])) with
  | Done (_, w) => Done (tt, w_st w)
  | Panicked => Panicked
  | Spinning => Spinning
  end.

Definition state_managed : State := run become_manager state_up.
Definition state_called : State := run (talk 2 20 send_call_command 0 call_regions) state_managed.
Definition state_read : State := run (talk 1 10 (le_bytes 4 BC_ENTER_LOOPER) 256 []) state_called.

(** The same client makes one-way calls: a plain one, and one whose object
    table names an offset outside the data. *)
Definition oneway (offsets_size : Z) : TransactionData :=
  mkTransactionData 0 0 2 TF_ONE_WAY 0 0 8 offsets_size 1024 2048.
Definition send_oneway_command (offsets_size : Z) : list byte :=
  le_bytes 4 BC_TRANSACTION ++ bytes_of (TransactionData_encode (oneway offsets_size)).
Definition oneway_regions (offset : Z) : list (Z * list byte) := [(1024, le_bytes 8 5); (2048, le_bytes 8 offset)].

Definition state_first : State := run (talk 2 20 (send_oneway_command 0) 0 (oneway_regions 0)) state_managed.
Definition state_first_read : State := run (talk 1 10 (le_bytes 4 BC_ENTER_LOOPER) 256 []) state_first.
Definition state_failed : State := run (talk 2 20 (send_oneway_command 8) 256 (oneway_regions 4096)) state_first_read.
Definition state_second : State := run (talk 2 20 (send_oneway_command 0) 0 (oneway_regions 0)) state_failed.
Definition state_both_read : State := run (talk 1 10 [] 256 []) state_second.

End scenario.

(** ** The states are reachable, in a build with overflow checks *)

#[local] Existing Instance debug_env.

Lemma step_talk p t write read regions s r s' :
  talk p t write read regions s = Done (r, s') -> step p s s'.
Proof.
  unfold talk. destruct (ioctl_parking _ _ _ _ _ _) as [[r' [s1 g1]]| |] eqn:Hr; intros [= <- <-].
  by eapply step_ioctl.
Qed.

Lemma step_become_manager s s' : become_manager s = Done (tt, s') -> step 1 s s'.
Proof.
  unfold become_manager. destruct (ioctl_parking _ _ _ _ _ _) as [[r' [s1 g1]]| |] eqn:Hr; intros [= <-].
  by eapply step_ioctl.
Qed.

(** A call that finishes leads to its final state. *)
Lemma reachable_run {A} (m : M State A) a s :
  reachable s -> finishes m s = true -> (forall r s', m s = Done (r, s') -> step a s s') -> reachable (run m s).
Proof.
  intros Hs Hf Hstep. destruct (run_Done m s Hf) as [r Hr]. eapply rtc_r; [exact Hs|]. exists a. by eapply Hstep.
Qed.

Ltac finishes_tac := vm_compute; reflexivity.

Lemma state_opened_reachable : reachable state_opened.
Proof.
  apply (reachable_run _ 0); [|finishes_tac|intros; by eapply step_open].
  apply (reachable_run _ 0); [|finishes_tac|intros; by eapply step_open]. apply rtc_refl.
Qed.

Lemma state_up_reachable : reachable state_up.
Proof.
  apply (reachable_run _ 2); [|finishes_tac|intros r s' Hr; by eapply step_mmap, Hr].
  apply (reachable_run _ 1); [|finishes_tac|intros r s' Hr; by eapply step_mmap, Hr].
  apply (reachable_run _ 0); [|finishes_tac|intros r s' [= _ <-]; by eapply (step_new_memory _ _ _ 2)].
  apply (reachable_run _ 0); [|finishes_tac|intros r s' [= _ <-]; by eapply (step_new_memory _ _ _ 1)].
  apply state_opened_reachable.
Qed.

Lemma state_managed_reachable : reachable state_managed.
Proof.
  apply (reachable_run _ 1); [apply state_up_reachable|finishes_tac|intros [] s'; apply step_become_manager].
Qed.

Lemma state_called_reachable : reachable state_called.
Proof.
  apply (reachable_run _ 2); [apply state_managed_reachable|finishes_tac|intros r s'; apply step_talk].
Qed.

Lemma state_read_reachable : reachable state_read.
Proof.
  apply (reachable_run _ 1); [apply state_called_reachable|finishes_tac|intros r s'; apply step_talk].
Qed.

Lemma state_first_reachable : reachable state_first.
Proof.
  apply (reachable_run _ 2); [apply state_managed_reachable|finishes_tac|intros r s'; apply step_talk].
Qed.

Lemma state_both_read_reachable : reachable state_both_read.
Proof.
  apply (reachable_run _ 1); [|finishes_tac|intros r s'; apply step_talk].
  apply (reachable_run _ 2); [|finishes_tac|intros r s'; apply step_talk].
  apply (reachable_run _ 2); [|finishes_tac|intros r s'; apply step_talk].
  apply (reachable_run _ 1); [apply state_first_reachable|finishes_tac|intros r s'; apply step_talk].
Qed.
