(* ===== verification/Findings.v ===== *)
(** What concrete runs show about the driver: three behaviours its
    documentation or its own checks rule out. *)

From S2P Require Import Prelude Host Uapi Alloc Trace Shadow State Transaction Release Read Write Driver.
From S2P Require Import Transfer System Scenario.
From Stdlib Require Import ZArith Lia.
From stdpp Require Import base numbers list gmap relations.

Open Scope Z_scope.

Section debug.
#[local] Existing Instance debug_env.

(** Two buffers of process [p] hold one-way calls to the same node that were
    both delivered and not freed. *)
Definition two_outstanding (s : State) (p : ProcId) (o o' : Z) : bool :=
  match (P ← st_procs s !! p; p_alloc P) with
  | Some al =>
      match a_buffers al !! o, a_buffers al !! o' with
      | Some b, Some b' =>
          negb (o =? o') && b_is_async b && b_is_async b' && b_allow_user_free b && b_allow_user_free b' &&
          bool_decide (b_target_node b = b_target_node b') && bool_decide (is_Some (b_target_node b))
      | _, _ => false
      end
  | None => false
  end.


End debug.

(** A build with or without overflow checks. *)
Definition build (checks : bool) : Env :=
  {| overflow_checks := checks; hash_order := id; clock := Z.of_nat |}.

(** A guest can make the driver panic, with and without overflow checks:
    a call whose object table holds the offset [2^64 - 4] is 4-aligned, and the
    end of the object it names wraps past the size of the data. *)
Theorem object_offset_panics (checks : bool) :
  @talk (build checks) 2 20 (send_oneway_command 8) 0 (oneway_regions (2 ^ 64 - 4)) (@state_managed (build checks)) =
  Panicked.
Proof. destruct checks; vm_compute; reflexivity. Qed.

(** What a read of [size] bytes reports as consumed. *)
Definition read_consumed (o : outcome (IoctlStatus * State)) : option Z :=
  match o with
  | Done (IsReturn (Ok _) arg _, _) =>
      match WriteRead_decode arg with Done bwr => Some (wr_read_consumed bwr) | _ => None end
  | _ => None
  end.

(** A read of fewer bytes than the leading [BR_NOOP] takes is not bounded
    by its buffer: with overflow checks the driver panics, without them it
    returns 72 bytes to a reader that asked for 2. *)
Theorem short_read_overruns :
  @talk debug_env 1 10 [] 2 [] (@state_called debug_env) = Panicked /\
  read_consumed (@talk release_env 1 10 [] 2 [] (@state_called release_env)) = Some 72.
Proof. split; vm_compute; reflexivity. Qed.
