(* ===== verification/Witnesses.v ===== *)
(** The theorems of the driver at the states of the concrete run of
    [Scenario.v]: each is applied where its hypotheses hold by computation. *)

From S2P Require Import Prelude Host Uapi Alloc Trace Shadow State Transaction Release Read Write Driver.
From S2P Require Import Graph Frames Refinement Transfer System Scenario.
From Stdlib Require Import ZArith Lia.
From Stdlib Require Import Strings.Byte.
From stdpp Require Import base numbers list gmap relations.

Open Scope Z_scope.

#[local] Existing Instance debug_env.

(** A thread that enters and leaves the looper. *)
Definition looper_commands : list byte := le_bytes 4 BC_ENTER_LOOPER ++ le_bytes 4 BC_EXIT_LOOPER.

Lemma checked : @overflow_checks debug_env = true.
Proof. reflexivity. Qed.

(** The step of the run in which the client's call is sent. *)
Lemma step_called : step 2 state_managed state_called.
Proof.
  destruct (run_Done (talk 2 20 send_call_command 0 call_regions) state_managed) as [r Hr]; [finishes_tac|].
  by eapply step_talk.
Qed.

Lemma holds_called : holds state_called 1 6.
Proof.
  eexists _, 1. split; [vm_compute; reflexivity|vm_compute; reflexivity].
Qed.

Lemma calls_refine_graph_witness : gsteps 2 (graph state_managed) (graph state_called).
Proof. exact (calls_refine_graph checked 2 _ _ state_managed_reachable step_called). Defined.

Lemma handles_not_forged_witness : holds state_managed 1 6 \/ can_reach state_managed 2 6.
Proof.
  apply (handles_not_forged checked 2 state_managed state_called 1 6).
  - apply state_managed_reachable.
  - vm_compute. done.
  - apply rtc_once, step_called.
  - apply holds_called.
Defined.

Lemma handle_tables_coherent_witness : exists P r,
  st_procs state_called !! 1 = Some P /\ p_refs_by_desc P !! 1 = Some r /\ p_refs_by_node P !! r_node r = Some 1.
Proof.
  assert (exists P, st_procs state_called !! 1 = Some P) as [P HP] by (eexists; vm_compute; reflexivity).
  assert (exists r, p_refs_by_desc P !! 1 = Some r) as [r Hr].
  { vm_compute in HP. injection HP as <-. eexists. vm_compute. reflexivity. }
  exists P, r. split_and!; [done|done|].
  by apply (handle_tables_coherent checked state_called 1 P state_called_reachable HP).
Defined.

Lemma node_counts_exact_witness : exists x,
  st_nodes state_called !! 6 = Some x /\ n_internal_strong_refs x = 1 /\
  n_internal_strong_refs x = Z.of_nat (count (strong_holder 6) (st_procs state_called)) /\ 1 ∈ n_refs x.
Proof.
  assert (exists x, st_nodes state_called !! 6 = Some x /\ n_internal_strong_refs x = 1) as (x & Hx & Hone)
    by (eexists; split; vm_compute; reflexivity).
  destruct (node_counts_exact checked state_called 6 x state_called_reachable Hx) as [Hc Hh].
  exists x. split_and!; [done|done|done|apply Hh, holds_called].
Defined.

Lemma owners_exact_witness :
  exists Q ptr, st_procs state_called !! 2 = Some Q /\ p_nodes Q !! ptr = Some 6.
Proof.
  apply (owners_exact checked state_called 6 2 state_called_reachable).
  eexists. split; vm_compute; reflexivity.
Defined.

Lemma buffers_disjoint_witness : exists P al b,
  st_procs state_called !! 1 = Some P /\ p_alloc P = Some al /\ a_buffers al !! 0 = Some b /\
  0 < b_size b <= a_size al.
Proof.
  assert (exists P al b, st_procs state_called !! 1 = Some P /\ p_alloc P = Some al /\ a_buffers al !! 0 = Some b)
    as (P & al & b & HP & Hal & Hb) by (do 3 eexists; split_and!; vm_compute; reflexivity).
  exists P, al, b. destruct (buffers_disjoint checked state_called 1 P al 0 b state_called_reachable HP Hal Hb)
    as (_ & Hpos & Hin & _).
  split_and!; [done|done|done|lia|lia].
Defined.

Lemma call_chains_descend_witness : exists T id,
  thread_of state_called 2 20 = Some T /\ t_transaction_stack T = Some id /\ id <= st_next_id state_called.
Proof.
  assert (exists T id, thread_of state_called 2 20 = Some T /\ t_transaction_stack T = Some id) as (T & id & HT & Hid)
    by (do 2 eexists; split; vm_compute; reflexivity).
  exists T, id. split_and!; [done..|].
  by apply (proj2 (call_chains_descend checked state_called state_called_reachable) 2 20 T).
Defined.

Lemma node_work_for_owner_witness : exists x, st_nodes state_called !! 6 = Some x /\ n_proc x = Some 2.
Proof.
  assert (exists x, st_nodes state_called !! 6 = Some x) as [x Hx] by (eexists; vm_compute; reflexivity).
  assert (exists P, st_procs state_called !! 2 = Some P) as [P HP] by (eexists; vm_compute; reflexivity).
  exists x. split; [done|]. apply (node_work_for_owner checked state_called 2 P 6 x state_called_reachable HP); [|done].
  right. exists 20. vm_compute in HP. injection HP as <-. eexists. split; [vm_compute; reflexivity|]. vm_compute. left.
Defined.


Lemma loops_end_witness :
  transaction 2 20 the_call false 0 (mkWorld state_managed (mkGuest call_regions)) <> Spinning /\
  read_pass 1 10 false [] 0 256 (mkWorld state_called (mkGuest [])) <> Spinning.
Proof.
  split.
  - apply (loops_end checked 2 state_managed (mkGuest call_regions) 20 state_managed_reachable). split; vm_compute; discriminate.
  - apply (loops_end checked 1 state_called (mkGuest []) 10 state_called_reachable).
Defined.


Lemma node_work_reports_witness : exists n out s',
  st_nodes state_called !! 6 = Some n /\ node_work 2 6 state_called = Done (out, s') /\
  n_has_strong_ref n = false /\ out <> [].
Proof.
  assert (exists n out s', st_nodes state_called !! 6 = Some n /\ node_work 2 6 state_called = Done (out, s') /\
    n_has_strong_ref n = false /\ wants_strong n = true) as (n & out & s' & Hn & Hr & Hs & Hw)
    by (do 3 eexists; split_and!; vm_compute; reflexivity).
  exists n, out, s'. split_and!; [done..|].
  intros Hout. apply (proj2 (node_work_reports 2 6 state_called n out s' Hn Hr)) in Hout as [Hst _]. congruence.
Defined.


(** After its read the manager's thread serves the call in the buffer at the
    start of its mapping: it may reject the call. *)
Lemma rejection_needs_receipt_witness : exists r s' P al b,
  reject_delivery 1 10 4096 5 state_read = Done (Ok r, s') /\ st_procs state_read !! 1 = Some P /\
  p_alloc P = Some al /\ a_buffers al !! 0 = Some b /\ b_delivery b = Some (10, 5).
Proof.
  assert (exists r s', reject_delivery 1 10 4096 5 state_read = Done (Ok r, s')) as (r & s' & Hr)
    by (do 2 eexists; vm_compute; reflexivity).
  destruct (rejection_needs_receipt 1 10 4096 5 state_read (Ok r) s' Hr) as (P & al & o & b & HP & Hal & Ho & Hb & Hd & _).
  exists r, s', P, al, b. vm_compute in HP. injection HP as <-. injection Hal as <-.
  vm_compute in Ho. injection Ho as <-. split_and!; [done|vm_compute; reflexivity|done|done|done].
Defined.

Lemma context_manager_exclusive_witness : exists r s' P c,
  set_context_manager 1 None state_up = Done (r, s') /\ st_procs state_up !! 1 = Some P /\
  st_contexts state_up !! p_context P = Some c /\ c_mgr_node c = None.
Proof.
  assert (exists r s' P c, set_context_manager 1 None state_up = Done (Ok r, s') /\ st_procs state_up !! 1 = Some P /\
    st_contexts state_up !! p_context P = Some c) as (r & s' & P & c & Hr & HP & Hc)
    by (do 4 eexists; split_and!; vm_compute; reflexivity).
  exists (Ok r), s', P, c. split_and!; [done..|].
  by apply (context_manager_exclusive 1 None state_up (Ok r) s' P c HP Hc Hr).
Defined.
