(* ===== verification/Abx.v ===== *)
(** Android's binary XML ([src/crates/aim-android-xml/src/abx.rs], and the
    document types of [lib.rs] beside it): the writer with its table of
    interned strings, the reader with its own, and that a document written is
    read back. *)

From S2P Require Import Prelude Text.
From Stdlib Require Import ZArith Lia.
From Stdlib Require Import Strings.Byte.
From stdpp Require Import base numbers list gmap countable.

Open Scope Z_scope.

(** ** Documents *)

(** A [String] is its list of code points. *)
Definition Str : Type := list Z.

(** An attribute's value, typed as the writer typed it.  Floating-point
    numbers are their bits, by which the code compares them. *)
Inductive Value :=
| VNull
| VString (s : Str)
| VInterned (s : Str)
| VBytesHex (b : list byte)
| VBytesBase64 (b : list byte)
| VInt (v : Z)
| VIntHex (v : Z)
| VLong (v : Z)
| VLongHex (v : Z)
| VFloat (bits : Z)
| VDouble (bits : Z)
| VBool (b : bool).

(** A node of an element's content, over the type of elements: an element, or
    another token by its event type, with its text. *)
Inductive Node (Element : Type) :=
| NElement (e : Element)
| NToken (event : Z) (text : option Str).
Arguments NElement {_} e.
Arguments NToken {_} event text.

Inductive Element :=
| mkElement (name : Str) (attrs : list (Str * Value)) (content : list (Node Element)).

Definition e_name (e : Element) : Str := let '(mkElement name _ _) := e in name.

(** ** The format *)

Definition MAGIC : list byte := [x41; x42; x58; x00].

Definition START_DOCUMENT : Z := 0.
Definition END_DOCUMENT : Z := 1.
Definition START_TAG : Z := 2.
Definition END_TAG : Z := 3.
Definition ATTRIBUTE : Z := 15.

Definition TYPE_NULL : Z := Z.shiftl 1 4.
Definition TYPE_STRING : Z := Z.shiftl 2 4.
Definition TYPE_STRING_INTERNED : Z := Z.shiftl 3 4.
Definition TYPE_BYTES_HEX : Z := Z.shiftl 4 4.
Definition TYPE_BYTES_BASE64 : Z := Z.shiftl 5 4.
Definition TYPE_INT : Z := Z.shiftl 6 4.
Definition TYPE_INT_HEX : Z := Z.shiftl 7 4.
Definition TYPE_LONG : Z := Z.shiftl 8 4.
Definition TYPE_LONG_HEX : Z := Z.shiftl 9 4.
Definition TYPE_FLOAT : Z := Z.shiftl 10 4.
Definition TYPE_DOUBLE : Z := Z.shiftl 11 4.
Definition TYPE_BOOLEAN_TRUE : Z := Z.shiftl 12 4.
Definition TYPE_BOOLEAN_FALSE : Z := Z.shiftl 13 4.

(** [u16::MAX]: the index that marks a new string, and how many strings a
    document can intern. *)
Definition NEW : Z := max_u 16.

(** The messages of the reader and the writer. *)
Inductive AbxError :=
| NotAbx
| Truncated (at_ : Z)
| BadString (at_ : Z)
| NoInterned (index : Z)
| BadValueType (kind : Z)
| AttributeOutside
| EndOutside
| EndMismatch (opened closed : Str)
| BadToken (event : Z) (value : Value)
| Unclosed (name : Str)
| NoRoot
| SecondRoot
| TooLong (n : Z).

(** [to_be_bytes] and [from_be_bytes]. *)
Definition be_bytes (n : nat) (v : Z) : list byte := rev (le_bytes n v).
Definition of_be_bytes (bs : list byte) : Z := of_le_bytes (rev bs).

(** ** Strings *)

(** [cont]: the low six bits of a continuation byte. *)
Definition cont (b : byte) : option Z :=
  let c := byte_to_Z b in if Z.land c 0xc0 =? 0x80 then Some (Z.land c 0x3f) else None.

(** [char::from_u32]. *)
Definition char_from_u32 (c : Z) : option Z :=
  if (c <? 0xd800) || ((0xe000 <=? c) && (c <? 0x110000)) then Some c else None.

(** The UTF-16 units of modified UTF-8, with ART's four-byte form of
    supplementary characters. *)
Fixpoint decode_units (b : list byte) : option (list Z) :=
  match b with
  | [] => Some []
  | b0 :: b =>
      let c := byte_to_Z b0 in
      if (0xf0 <=? c) && (c <=? 0xf4) then
        match b with
        | b1 :: b2 :: b3 :: b =>
            c1 ← cont b1; c2 ← cont b2; c3 ← cont b3;
            let scalar := Z.lor (Z.lor (Z.lor (Z.shiftl (Z.land c 7) 18) (Z.shiftl c1 12)) (Z.shiftl c2 6)) c3 in
            c ← char_from_u32 scalar;
            if c <? 0x10000 then None else
            units ← decode_units b;
            Some (encode_utf16 [c] ++ units)
        | _ => None
        end
      else if (0x01 <=? c) && (c <=? 0x7f) then cons c <$> decode_units b
      else if (0xc0 <=? c) && (c <=? 0xdf) then
        match b with
        | b1 :: b =>
            c1 ← cont b1;
            units ← decode_units b;
            Some (Z.lor (Z.shiftl (Z.land c 0x1f) 6) c1 :: units)
        | _ => None
        end
      else if (0xe0 <=? c) && (c <=? 0xef) then
        match b with
        | b1 :: b2 :: b =>
            c1 ← cont b1; c2 ← cont b2;
            units ← decode_units b;
            Some (Z.lor (Z.lor (Z.shiftl (Z.land c 0x0f) 12) (Z.shiftl c1 6)) c2 :: units)
        | _ => None
        end
      else None
  end.

Definition decode_utf (b : list byte) : option Str := units ← decode_units b; from_utf16 units.

Definition encode_utf (s : Str) : list byte :=
  c ← s; if c =? 0 then [xc0; x80] else encode_utf8 c.

(** ** The reader *)

Record Reader := mkReader {
  rd_bytes : list byte;
  rd_at : Z;
  rd_interned : list Str;
}.

#[export] Instance Reader_eta : Settable Reader := fun r => mkReader (rd_bytes r) (rd_at r) (rd_interned r).

Abbreviation R A := (M Reader (result A AbxError)).

(** [slice], and [take] of a fixed size. *)
Definition Reader_slice (n : Z) : R (list byte) :=
  r ← get;
  match slice (rd_bytes r) (rd_at r) n with
  | None => mret (Err (Truncated (rd_at r)))
  | Some out => put (r <| rd_at := rd_at r + n |>);; mret (Ok out)
  end.

Definition Reader_u16 : R Z := b ←? Reader_slice 2; mret (Ok (of_be_bytes b)).

Definition Reader_utf : R Str :=
  len ←? Reader_u16;
  r ← get;
  b ←? Reader_slice len;
  mret (match decode_utf b with Some s => Ok s | None => Err (BadString (rd_at r)) end).

Definition Reader_interned : R Str :=
  i ←? Reader_u16;
  if i =? NEW then
    s ←? Reader_utf;
    r ← get;
    (if Z.of_nat (length (rd_interned r)) <? NEW
     then put (r <| rd_interned ::= (fun l => l ++ [s]) |>) else mret tt);;
    mret (Ok s)
  else
    r ← get;
    mret (match rd_interned r !! Z.to_nat i with Some s => Ok s | None => Err (NoInterned i) end).

Definition Reader_bytes : R (list byte) := len ←? Reader_u16; Reader_slice len.

Definition Reader_int (n : Z) : R Z := b ←? Reader_slice n; mret (Ok (as_i (8 * n) (of_be_bytes b))).
Definition Reader_bits (n : Z) : R Z := b ←? Reader_slice n; mret (Ok (of_be_bytes b)).

Definition Reader_value (kind : Z) : R Value :=
  if kind =? TYPE_NULL then mret (Ok VNull)
  else if kind =? TYPE_STRING then s ←? Reader_utf; mret (Ok (VString s))
  else if kind =? TYPE_STRING_INTERNED then s ←? Reader_interned; mret (Ok (VInterned s))
  else if kind =? TYPE_BYTES_HEX then b ←? Reader_bytes; mret (Ok (VBytesHex b))
  else if kind =? TYPE_BYTES_BASE64 then b ←? Reader_bytes; mret (Ok (VBytesBase64 b))
  else if kind =? TYPE_INT then v ←? Reader_int 4; mret (Ok (VInt v))
  else if kind =? TYPE_INT_HEX then v ←? Reader_int 4; mret (Ok (VIntHex v))
  else if kind =? TYPE_LONG then v ←? Reader_int 8; mret (Ok (VLong v))
  else if kind =? TYPE_LONG_HEX then v ←? Reader_int 8; mret (Ok (VLongHex v))
  else if kind =? TYPE_FLOAT then v ←? Reader_bits 4; mret (Ok (VFloat v))
  else if kind =? TYPE_DOUBLE then v ←? Reader_bits 8; mret (Ok (VDouble v))
  else if kind =? TYPE_BOOLEAN_TRUE then mret (Ok (VBool true))
  else if kind =? TYPE_BOOLEAN_FALSE then mret (Ok (VBool false))
  else mret (Err (BadValueType (Z.shiftr kind 4))).

(** The open elements, innermost first, and the roots read so far. *)
Definition Doc : Type := list Element * list Element.

Definition push_attr (name : Str) (value : Value) (e : Element) : Element :=
  let '(mkElement n attrs content) := e in mkElement n (attrs ++ [(name, value)]) content.
Definition push_node (node : Node Element) (e : Element) : Element :=
  let '(mkElement n attrs content) := e in mkElement n attrs (content ++ [node]).

(** An element ends: it joins its parent's content, or the roots. *)
Definition close (e : Element) (doc : Doc) : Doc :=
  let '(open, roots) := doc in
  match open with
  | parent :: open => (push_node (NElement e) parent :: open, roots)
  | [] => ([], roots ++ [e])
  end.

(** The arms of the loop of [read_sequence]: the document so far, or [None] at
    its end. *)
Definition read_event (doc : Doc) (event kind : Z) : R (option Doc) :=
  let '(open, roots) := doc in
  if event =? START_TAG then
    name ←? Reader_interned;
    mret (Ok (Some (mkElement name [] [] :: open, roots)))
  else if event =? ATTRIBUTE then
    name ←? Reader_interned;
    value ←? Reader_value kind;
    mret (match open with
          | e :: open => Ok (Some (push_attr name value e :: open, roots))
          | [] => Err AttributeOutside
          end)
  else if event =? END_TAG then
    name ←? Reader_interned;
    mret (match open with
          | [] => Err EndOutside
          | e :: open =>
              if decide (e_name e = name) then Ok (Some (close e (open, roots)))
              else Err (EndMismatch (e_name e) name)
          end)
  else if event =? START_DOCUMENT then mret (Ok (Some doc))
  else if event =? END_DOCUMENT then mret (Ok None)
  else
    value ←? Reader_value kind;
    text ←? mret (match value with
                  | VNull => Ok None
                  | VString s => Ok (Some s)
                  | other => Err (BadToken event other)
                  end);
    mret (Ok (Some (match open with
                    | parent :: open => (push_node (NToken event text) parent :: open, roots)
                    | [] => doc
                    end))).

Definition read_token (doc : Doc) : R (option Doc) :=
  b ←? Reader_slice 1;
  let token := of_be_bytes b in
  read_event doc (Z.land token 0x0f) (Z.land token 0xf0).

Fixpoint read_tokens (fuel : nat) (doc : Doc) : R Doc :=
  match fuel with
  | O => spin
  | S fuel =>
      next ←? read_token doc;
      match next with
      | Some doc => read_tokens fuel doc
      | None => mret (Ok doc)
      end
  end.

(** [bytes.starts_with(MAGIC)]. *)
Definition is_abx (bytes : list byte) : bool := bool_decide (take (length MAGIC) bytes = MAGIC).

(** Every turn reads a byte at least. *)
Definition read_sequence (bytes : list byte) : outcome (result (list Element) AbxError) :=
  if negb (is_abx bytes) then mret (Err NotAbx) else
  '(r, _) ← read_tokens (S (length bytes)) ([], []) (mkReader bytes (Z.of_nat (length MAGIC)) []);
  mret (match r with
        | Err e => Err e
        | Ok (open, roots) =>
            match list.last open with
            | Some e => Err (Unclosed (e_name e))
            | None => Ok roots
            end
        end).

Definition read_optional (bytes : list byte) : outcome (result (option Element) AbxError) :=
  r ← read_sequence bytes;
  mret (match r with
        | Err e => Err e
        | Ok roots => if (1 <? Z.of_nat (length roots)) then Err SecondRoot else Ok (list.last roots)
        end).

Definition read (bytes : list byte) : outcome (result Element AbxError) :=
  r ← read_optional bytes;
  mret (match r with
        | Err e => Err e
        | Ok (Some root) => Ok root
        | Ok None => Err NoRoot
        end).

(** ** The writer *)

Record Writer := mkWriter {
  wt_out : list byte;
  wt_interned : gmap Str Z;
}.

#[export] Instance Writer_eta : Settable Writer := fun w => mkWriter (wt_out w) (wt_interned w).

Abbreviation W A := (M Writer (result A AbxError)).

Definition Writer_default : Writer := mkWriter (MAGIC ++ [byte_of_Z (Z.lor START_DOCUMENT TYPE_NULL)]) ∅.

Definition push (token : Z) : M Writer unit := modify (set_field wt_out (fun o => o ++ [byte_of_Z token])).
Definition extend (bytes : list byte) : M Writer unit := modify (set_field wt_out (fun o => o ++ bytes)).

Definition Writer_finish (w : Writer) : list byte := wt_out w ++ [byte_of_Z (Z.lor END_DOCUMENT TYPE_NULL)].

Definition Writer_len (n : nat) : W unit :=
  let n := Z.of_nat n in
  if n <=? max_u 16 then extend (be_bytes 2 n);; mret (Ok tt) else mret (Err (TooLong n)).

Definition Writer_utf (s : Str) : W unit :=
  let bytes := encode_utf s in
  _ ←? Writer_len (length bytes);
  extend bytes;;
  mret (Ok tt).

Definition Writer_interned (s : Str) : W unit :=
  w ← get;
  match wt_interned w !! s with
  | Some i => extend (be_bytes 2 i);; mret (Ok tt)
  | None =>
      extend (be_bytes 2 NEW);;
      _ ←? Writer_utf s;
      w ← get;
      let next := Z.of_nat (size (wt_interned w)) in
      (if next <? NEW then put (w <| wt_interned ::= insert s next |>) else mret tt);;
      mret (Ok tt)
  end.

Definition value_kind (value : Value) : Z :=
  match value with
  | VNull => TYPE_NULL
  | VString _ => TYPE_STRING
  | VInterned _ => TYPE_STRING_INTERNED
  | VBytesHex _ => TYPE_BYTES_HEX
  | VBytesBase64 _ => TYPE_BYTES_BASE64
  | VInt _ => TYPE_INT
  | VIntHex _ => TYPE_INT_HEX
  | VLong _ => TYPE_LONG
  | VLongHex _ => TYPE_LONG_HEX
  | VFloat _ => TYPE_FLOAT
  | VDouble _ => TYPE_DOUBLE
  | VBool true => TYPE_BOOLEAN_TRUE
  | VBool false => TYPE_BOOLEAN_FALSE
  end.

Definition Writer_value (value : Value) : W unit :=
  match value with
  | VNull | VBool _ => mret (Ok tt)
  | VString s => Writer_utf s
  | VInterned s => Writer_interned s
  | VBytesHex b | VBytesBase64 b => _ ←? Writer_len (length b); extend b;; mret (Ok tt)
  | VInt v | VIntHex v => extend (be_bytes 4 v);; mret (Ok tt)
  | VLong v | VLongHex v => extend (be_bytes 8 v);; mret (Ok tt)
  | VFloat v => extend (be_bytes 4 v);; mret (Ok tt)
  | VDouble v => extend (be_bytes 8 v);; mret (Ok tt)
  end.

Definition Writer_attribute (name : Str) (value : Value) : W unit :=
  push (Z.lor ATTRIBUTE (value_kind value));;
  _ ←? Writer_interned name;
  Writer_value value.

Fixpoint Writer_attributes (attrs : list (Str * Value)) : W unit :=
  match attrs with
  | [] => mret (Ok tt)
  | (name, value) :: attrs => _ ←? Writer_attribute name value; Writer_attributes attrs
  end.

Definition Writer_start_element (name : Str) (attrs : list (Str * Value)) : W unit :=
  push (Z.lor START_TAG TYPE_STRING_INTERNED);;
  _ ←? Writer_interned name;
  Writer_attributes attrs.

Definition Writer_end_element (name : Str) : W unit :=
  push (Z.lor END_TAG TYPE_STRING_INTERNED);;
  Writer_interned name.

Definition Writer_token (event : Z) (text : option Str) : W unit :=
  match text with
  | None => push (Z.lor event TYPE_NULL);; mret (Ok tt)
  | Some text => push (Z.lor event TYPE_STRING);; Writer_utf text
  end.

(** The loop over an element's content, with the recursion as [element]. *)
Section content.
Variable element : Element -> W unit.

Definition Writer_node (node : Node Element) : W unit :=
  match node with
  | NElement child => element child
  | NToken event text => Writer_token event text
  end.

Fixpoint Writer_content (content : list (Node Element)) : W unit :=
  match content with
  | [] => mret (Ok tt)
  | node :: content => _ ←? Writer_node node; Writer_content content
  end.
End content.

Fixpoint Writer_element (e : Element) : W unit :=
  let '(mkElement name attrs content) := e in
  _ ←? Writer_start_element name attrs;
  _ ←? Writer_content Writer_element content;
  Writer_end_element name.

Fixpoint Writer_elements (roots : list Element) : W unit :=
  match roots with
  | [] => mret (Ok tt)
  | root :: roots => _ ←? Writer_element root; Writer_elements roots
  end.

Definition write_sequence (roots : list Element) : outcome (result (list byte) AbxError) :=
  '(r, w) ← Writer_elements roots Writer_default;
  mret (match r with Ok _ => Ok (Writer_finish w) | Err e => Err e end).

Definition write (root : Element) : outcome (result (list byte) AbxError) := write_sequence [root].

(** ** Modified UTF-8 *)

Lemma cont_byte x : 0 <= x < 64 -> cont (byte_of_Z (0x80 + x)) = Some x.
Proof.
  intros Hx. apply (bool_decide_unpack _), Is_true_true.
  exact (forall_below 64 (fun x => bool_decide (cont (byte_of_Z (0x80 + x)) = Some x)) x eq_refl Hx).
Qed.

(** The lead byte of a sequence, and the bits it carries. *)
Lemma lead_bits mask lead n x :
  forallb (fun x => Z.land (lead + x) mask =? x) (seqZ 0 n) = true -> 0 <= x < n -> Z.land (lead + x) mask = x.
Proof. intros Hall Hx. apply Z.eqb_eq. exact (forall_below n (fun x => Z.land (lead + x) mask =? x) x Hall Hx). Qed.

(** Groups of six bits put together. *)
Lemma join2 a b : 0 <= b < 64 -> Z.lor (Z.shiftl a 6) b = 64 * a + b.
Proof. intros. rewrite Z.shiftl_mul_pow2, (lor_add a _ _ 6) by lia. lia. Qed.
Lemma join3 a b c :
  0 <= b < 64 -> 0 <= c < 64 -> Z.lor (Z.lor (Z.shiftl a 12) (Z.shiftl b 6)) c = 64 * (64 * a + b) + c.
Proof.
  intros. rewrite !Z.shiftl_mul_pow2 by lia. rewrite (lor_add a (a * 2 ^ 12) _ 12) by lia.
  rewrite (lor_add (64 * a + b) _ _ 6) by lia. lia.
Qed.
Lemma join4 a b c d :
  0 <= b < 64 -> 0 <= c < 64 -> 0 <= d < 64 ->
  Z.lor (Z.lor (Z.lor (Z.shiftl a 18) (Z.shiftl b 12)) (Z.shiftl c 6)) d = 64 * (64 * (64 * a + b) + c) + d.
Proof.
  intros. rewrite !Z.shiftl_mul_pow2 by lia. rewrite (lor_add a (a * 2 ^ 18) _ 18) by lia.
  rewrite (lor_add (64 * a + b) (a * 2 ^ 18 + _) _ 12) by lia. rewrite (lor_add (64 * (64 * a + b) + c) _ _ 6) by lia. lia.
Qed.

Lemma decode_units_1 c rest :
  1 <= c <= 0x7f -> decode_units (byte_of_Z c :: rest) = cons c <$> decode_units rest.
Proof.
  intros Hc. cbn [decode_units]. rewrite byte_to_of_Z, Z.mod_small by lia.
  replace ((0xf0 <=? c) && _) with false by lia. by replace ((1 <=? c) && _) with true by lia.
Qed.

Lemma decode_units_2 a b rest :
  0 <= a < 32 -> 0 <= b < 64 ->
  decode_units (byte_of_Z (0xc0 + a) :: byte_of_Z (0x80 + b) :: rest) = cons (64 * a + b) <$> decode_units rest.
Proof.
  intros Ha Hb. cbn [decode_units]. rewrite byte_to_of_Z, Z.mod_small by lia.
  replace ((0xf0 <=? 0xc0 + a) && _) with false by lia.
  replace ((1 <=? 0xc0 + a) && _) with false by lia. replace ((0xc0 <=? 0xc0 + a) && _) with true by lia.
  rewrite cont_byte, (lead_bits 0x1f 0xc0 32) by done. cbn [mbind option_bind]. rewrite join2 by done.
  by destruct (decode_units rest).
Qed.

Lemma decode_units_3 a b c rest :
  0 <= a < 16 -> 0 <= b < 64 -> 0 <= c < 64 ->
  decode_units (byte_of_Z (0xe0 + a) :: byte_of_Z (0x80 + b) :: byte_of_Z (0x80 + c) :: rest) =
    cons (64 * (64 * a + b) + c) <$> decode_units rest.
Proof.
  intros Ha Hb Hc. cbn [decode_units]. rewrite byte_to_of_Z, Z.mod_small by lia.
  replace ((0xf0 <=? 0xe0 + a) && _) with false by lia.
  replace ((1 <=? 0xe0 + a) && _) with false by lia. replace ((0xc0 <=? 0xe0 + a) && _) with false by lia.
  replace ((0xe0 <=? 0xe0 + a) && _) with true by lia.
  rewrite !cont_byte, (lead_bits 0x0f 0xe0 16) by done. cbn [mbind option_bind]. rewrite join3 by done.
  by destruct (decode_units rest).
Qed.

Lemma decode_units_4 a b c d rest :
  let s := 64 * (64 * (64 * a + b) + c) + d in
  0 <= a < 5 -> 0 <= b < 64 -> 0 <= c < 64 -> 0 <= d < 64 -> 0x10000 <= s < 0x110000 ->
  decode_units (byte_of_Z (0xf0 + a) :: byte_of_Z (0x80 + b) :: byte_of_Z (0x80 + c) :: byte_of_Z (0x80 + d) :: rest) =
    app (encode_utf16 [s]) <$> decode_units rest.
Proof.
  intros s Ha Hb Hc Hd Hs. cbn [decode_units]. rewrite byte_to_of_Z, Z.mod_small by lia.
  replace ((0xf0 <=? 0xf0 + a) && _) with true by lia.
  rewrite !cont_byte, (lead_bits 7 0xf0 5) by done. cbn [mbind option_bind]. rewrite join4 by done.
  fold s. unfold char_from_u32. replace (_ || _) with true by lia. cbn [mbind option_bind].
  replace (s <? 0x10000) with false by lia. by destruct (decode_units rest).
Qed.

(** The digits of a code point in base 64. *)
Lemma base64_digit c : 0 <= c mod 64 < 64 /\ c = 64 * (c / 64) + c mod 64.
Proof. pose proof (Z.mod_pos_bound c 64 ltac:(lia)). pose proof (Z.div_mod c 64 ltac:(lia)). lia. Qed.

Lemma decode_units_char c rest :
  is_scalar c -> decode_units ((if c =? 0 then [xc0; x80] else encode_utf8 c) ++ rest) =
    app (encode_utf16 [c]) <$> decode_units rest.
Proof.
  intros Hc. unfold is_scalar in Hc. destruct (Z.eqb_spec c 0) as [->|Hc0].
  { apply (decode_units_2 0 0); lia. }
  pose proof (base64_digit c). pose proof (base64_digit (c / 64)). pose proof (base64_digit (c / 64 / 64)).
  unfold encode_utf8. change 262144 with (64 * 64 * 64). change 4096 with (64 * 64).
  rewrite <- !Z.div_div by lia. unfold encode_utf16; cbn [mbind list_bind].
  repeat case_match; try lia; cbn [fmap list_fmap app].
  - rewrite decode_units_1 by lia. done.
  - rewrite decode_units_2 by lia. by replace (64 * _ + _) with c by lia.
  - rewrite decode_units_3 by lia. by replace (64 * _ + _) with c by lia.
  - rewrite decode_units_4 by lia. replace (64 * _ + _) with c by lia.
    unfold encode_utf16; cbn [mbind list_bind]. by replace (c <? 0x10000) with false by lia.
Qed.

(** A string decodes to itself. *)
Lemma decode_encode_utf s : Forall is_scalar s -> decode_utf (encode_utf s) = Some s.
Proof.
  intros Hs. unfold decode_utf. rewrite <- (from_utf16_encode s) by done.
  assert (decode_units (encode_utf s) = Some (encode_utf16 s)) as ->; [|done].
  induction Hs as [|c s Hc _ IH]; [done|].
  unfold encode_utf; cbn [mbind list_bind]. rewrite decode_units_char by done. fold (encode_utf s).
  rewrite IH. unfold encode_utf16. cbn [mbind list_bind fmap option_fmap option_map]. by rewrite app_nil_r.
Qed.

(** ** Reading what was written

    [parses m l T T' x]: wherever [l] is in the input, [m] reads it, with [T]
    the strings interned before and [T'] after, and returns [x]. *)

Definition parses {A} (m : R A) (l : list byte) (T T' : list Str) (x : A) : Prop :=
  forall pre rest,
    m (mkReader (pre ++ l ++ rest) (Z.of_nat (length pre)) T) =
    Done (Ok x, mkReader (pre ++ l ++ rest) (Z.of_nat (length (pre ++ l))) T').

Lemma parses_ret {A} (x : A) T : parses (mret (Ok x)) [] T T x.
Proof. intros pre rest. by rewrite app_nil_r. Qed.

Lemma parses_bind {A B} (m : R A) (k : A -> R B) l1 l2 T T1 T2 x y :
  parses m l1 T T1 x -> parses (k x) l2 T1 T2 y -> parses (x ←? m; k x) (l1 ++ l2) T T2 y.
Proof.
  intros H1 H2 pre rest. unfold mbind, M_bind. rewrite <- app_assoc, (H1 pre (l2 ++ rest)).
  pose proof (H2 (pre ++ l1) rest) as H. rewrite <- !app_assoc in H. exact H.
Qed.

Lemma parses_map {A B} (m : R A) (f : A -> B) l T T' x :
  parses m l T T' x -> parses (x ←? m; mret (Ok (f x))) l T T' (f x).
Proof.
  intros H. rewrite <- (app_nil_r l).
  apply (parses_bind m (fun x => mret (Ok (f x))) l [] T T' T' x _ H (parses_ret _ _)).
Qed.

Lemma parses_slice l n T : n = Z.of_nat (length l) -> parses (Reader_slice n) l T T l.
Proof.
  intros -> pre rest. unfold Reader_slice, mbind, M_bind, get. cbn [rd_bytes rd_at].
  rewrite (slice_app pre l rest) by done. unfold put. cbn. by rewrite length_app, Nat2Z.inj_add.
Qed.

Lemma length_be_bytes n v : length (be_bytes n v) = n.
Proof. unfold be_bytes. by rewrite length_rev, length_le_bytes. Qed.

Lemma of_be_bytes_be_bytes n v : of_be_bytes (be_bytes n v) = v mod 256 ^ Z.of_nat n.
Proof. unfold of_be_bytes, be_bytes. by rewrite rev_involutive, of_le_bytes_le_bytes. Qed.

Lemma parses_bits n v T : 0 <= v < 256 ^ Z.of_nat n -> parses (Reader_bits (Z.of_nat n)) (be_bytes n v) T T v.
Proof.
  intros Hv. rewrite <- (Z.mod_small v _ Hv) at 2. rewrite <- of_be_bytes_be_bytes.
  apply parses_map, parses_slice. by rewrite length_be_bytes.
Qed.

Lemma parses_u16 v T : in_u 16 v -> parses Reader_u16 (be_bytes 2 v) T T v.
Proof. intros Hv. exact (parses_bits 2 v T Hv). Qed.

Lemma parses_int n v T : (0 < n)%nat -> in_i (8 * Z.of_nat n) v -> parses (Reader_int (Z.of_nat n)) (be_bytes n v) T T v.
Proof.
  intros Hn Hv. rewrite <- (as_i_of_mod (8 * Z.of_nat n) v) at 2 by (done || lia).
  rewrite Z.pow_mul_r by lia. change (2 ^ 8) with 256. rewrite <- of_be_bytes_be_bytes.
  apply (parses_map (Reader_slice (Z.of_nat n)) (fun b => as_i (8 * Z.of_nat n) (of_be_bytes b))), parses_slice.
  by rewrite length_be_bytes.
Qed.

Lemma parses_bytes b T :
  Z.of_nat (length b) <= max_u 16 -> parses Reader_bytes (be_bytes 2 (Z.of_nat (length b)) ++ b) T T b.
Proof.
  intros Hb. eapply parses_bind; [apply parses_u16|by apply parses_slice].
  unfold in_u, max_u in *. lia.
Qed.

Lemma parses_utf s T :
  Forall is_scalar s -> Z.of_nat (length (encode_utf s)) <= max_u 16 ->
  parses Reader_utf (be_bytes 2 (Z.of_nat (length (encode_utf s))) ++ encode_utf s) T T s.
Proof.
  intros Hs Hlen. eapply parses_bind; [apply parses_u16; unfold in_u, max_u in *; lia|].
  intros pre rest. pose proof (parses_slice (encode_utf s) _ T eq_refl pre rest) as H.
  unfold mbind, M_bind, get in *. rewrite H. by rewrite decode_encode_utf.
Qed.

(** The writer's table and the reader's hold the same strings at the same
    indexes. *)
Definition sync (G : gmap Str Z) (T : list Str) : Prop :=
  size G = length T /\ Z.of_nat (length T) <= NEW /\
  forall s i, G !! s = Some i -> 0 <= i /\ T !! Z.to_nat i = Some s.

(** [writes m Q L]: [m] appends bytes to the output, which relate by [Q] the
    strings interned before and after, or fails on a value of [L] too long for
    its length field. *)
Definition written (out : list byte) (T : list Str) (Q : list byte -> list Str -> list Str -> Prop) (L : list Z)
    (r : result unit AbxError) (w : Writer) : Prop :=
  match r with
  | Ok _ => exists l G T', w = mkWriter (out ++ l) G /\ sync G T' /\ Q l T T'
  | Err e => exists n, e = TooLong n /\ n ∈ L /\ max_u 16 < n
  end.

Definition writes (m : W unit) (Q : list byte -> list Str -> list Str -> Prop) (L : list Z) : Prop :=
  forall out G T, sync G T -> wp False m (written out T Q L) (mkWriter out G).

Lemma writes_bind m1 m2 Q1 Q2 (Q : list byte -> list Str -> list Str -> Prop) L1 L2 L :
  writes m1 Q1 L1 -> writes m2 Q2 L2 ->
  (forall l1 l2 T T1 T2, Q1 l1 T T1 -> Q2 l2 T1 T2 -> Q (l1 ++ l2) T T2) -> L1 ++ L2 ⊆ L ->
  writes (_ ←? m1; m2) Q L.
Proof.
  intros H1 H2 HQ HL out G T HT. apply wp_bind. eapply wp_mono; [apply (H1 out G T HT)|].
  intros [u|e] w1 Hw1; cycle 1.
  { apply wp_ret. destruct Hw1 as (n & -> & Hn & ?). exists n. set_solver. }
  destruct Hw1 as (l1 & G1 & T1 & -> & HT1 & HQ1). eapply wp_mono; [apply (H2 _ G1 T1 HT1)|].
  intros [v|e] w2 Hw2.
  - destruct Hw2 as (l2 & G2 & T2 & -> & HT2 & HQ2). exists (l1 ++ l2), G2, T2.
    split; [by rewrite app_assoc|]. eauto.
  - destruct Hw2 as (n & -> & Hn & ?). exists n. set_solver.
Qed.

Lemma writes_weaken m (Q Q' : list byte -> list Str -> list Str -> Prop) L L' :
  writes m Q L -> (forall l T T', Q l T T' -> Q' l T T') -> L ⊆ L' -> writes m Q' L'.
Proof.
  intros H HQ HL out G T HT. eapply wp_mono; [apply (H out G T HT)|].
  intros [u|e] w' Hw'; [destruct Hw' as (l & G' & T' & ? & ? & ?); exists l, G', T'; auto|].
  destruct Hw' as (n & -> & ? & ?). exists n. set_solver.
Qed.

Lemma writes_ret (Q : list byte -> list Str -> list Str -> Prop) L :
  (forall T, Q [] T T) -> writes (mret (Ok tt)) Q L.
Proof. intros HQ out G T HT. apply wp_ret. exists [], G, T. by rewrite app_nil_r. Qed.

Lemma writes_extend b m (Q : list byte -> list Str -> list Str -> Prop) L :
  writes m (fun l => Q (b ++ l)) L -> writes (extend b;; m) Q L.
Proof.
  intros H out G T HT. apply wp_bind, wp_modify. eapply wp_mono; [apply (H (out ++ b) G T HT)|].
  intros [u|e] w' Hw'; [|exact Hw']. destruct Hw' as (l & G' & T' & -> & HT' & HQ).
  exists (b ++ l), G', T'. by rewrite app_assoc.
Qed.

Lemma writes_extend_only b (Q : list byte -> list Str -> list Str -> Prop) L :
  (forall T, Q b T T) -> writes (extend b;; mret (Ok tt)) Q L.
Proof. intros HQ. apply writes_extend, writes_ret. intros T. by rewrite app_nil_r. Qed.

(** A length field, for what comes after it. *)
Lemma writes_len n m (Q : list byte -> list Str -> list Str -> Prop) L :
  Z.of_nat n ∈ L ->
  (Z.of_nat n <= max_u 16 -> writes m (fun l => Q (be_bytes 2 (Z.of_nat n) ++ l)) L) ->
  writes (_ ←? Writer_len n; m) Q L.
Proof.
  intros HL H. unfold Writer_len. destruct (Z.leb_spec (Z.of_nat n) (max_u 16)) as [Hle|Hgt].
  - intros out G T HT. exact (writes_extend _ _ _ _ (H Hle) out G T HT).
  - intros out G T HT. apply wp_bind, wp_ret, wp_ret. by exists (Z.of_nat n).
Qed.

Definition utf_bytes (s : Str) : list byte :=
  be_bytes 2 (Z.of_nat (length (encode_utf s))) ++ encode_utf s.

Lemma Writer_utf_short s w :
  Z.of_nat (length (encode_utf s)) <= max_u 16 ->
  Writer_utf s w = Done (Ok tt, mkWriter (wt_out w ++ utf_bytes s) (wt_interned w)).
Proof.
  intros Hn%Z.leb_le. unfold Writer_utf, Writer_len. rewrite Hn. cbn. unfold utf_bytes. by rewrite app_assoc.
Qed.

Lemma writes_utf s :
  Forall is_scalar s ->
  writes (Writer_utf s) (fun l T T' => parses Reader_utf l T T' s) [Z.of_nat (length (encode_utf s))].
Proof.
  intros Hs. apply writes_len; [set_solver|]. intros Hn. apply writes_extend_only.
  intros T. by apply parses_utf.
Qed.

Lemma sync_empty : sync ∅ [].
Proof. by split_and!. Qed.

Lemma sync_lookup G T s i : sync G T -> G !! s = Some i -> in_u 16 i /\ i <> NEW /\ T !! Z.to_nat i = Some s.
Proof.
  intros (_ & Hlen & Hidx) Hi. destruct (Hidx s i Hi) as [? HT]. apply lookup_lt_Some in HT as Hlt.
  unfold in_u, NEW, max_u in *. split_and!; [lia|lia|lia|done].
Qed.

Lemma sync_push G T s :
  sync G T -> G !! s = None -> Z.of_nat (length T) < NEW ->
  sync (<[s := Z.of_nat (size G)]> G) (T ++ [s]).
Proof.
  intros (Hsize & Hlen & Hidx) Hs Hlt. split_and!.
  - rewrite map_size_insert_None, length_app by done. simpl. lia.
  - rewrite length_app. simpl. lia.
  - intros s' i [[-> <-]|[Hne Hi]]%lookup_insert_Some.
    + split; [lia|]. rewrite Nat2Z.id, Hsize. by rewrite lookup_app_r, Nat.sub_diag by lia.
    + destruct (Hidx s' i Hi) as [? HT]. split; [done|]. by apply lookup_app_l_Some.
Qed.

(** A string's first use carries it, a later one its index. *)
Lemma parses_interned_old T s i :
  in_u 16 i -> i <> NEW -> T !! Z.to_nat i = Some s -> parses Reader_interned (be_bytes 2 i) T T s.
Proof.
  intros Hi Hnew HT. rewrite <- (app_nil_r (be_bytes 2 i)). eapply parses_bind; [by apply parses_u16|].
  intros pre rest. apply Z.eqb_neq in Hnew. rewrite Hnew. unfold mbind, M_bind, get. cbn [rd_interned].
  by rewrite HT, app_nil_r.
Qed.

Lemma parses_interned_new T s l :
  parses Reader_utf l T T s ->
  parses Reader_interned (be_bytes 2 NEW ++ l) T (if Z.of_nat (length T) <? NEW then T ++ [s] else T) s.
Proof.
  intros Hs. eapply parses_bind; [by apply parses_u16|]. intros pre rest. rewrite Z.eqb_refl.
  unfold mbind, M_bind. rewrite Hs. unfold get. cbn [rd_interned]. by destruct (_ <? _).
Qed.

Lemma writes_interned s :
  Forall is_scalar s ->
  writes (Writer_interned s) (fun l T T' => parses Reader_interned l T T' s) [Z.of_nat (length (encode_utf s))].
Proof.
  intros Hs out G T HT. unfold Writer_interned, extend. do 2 wp_step. cbn [wt_interned]. wp_step.
  - destruct (sync_lookup _ _ _ _ HT ltac:(eassumption)) as (? & ? & ?). do 3 wp_step.
    exists (be_bytes 2 z), G, T. split; [done|]. split; [done|]. by apply parses_interned_old.
  - do 3 wp_step. destruct (decide (Z.of_nat (length (encode_utf s)) <= max_u 16)) as [Hn|Hn]; cycle 1.
    { unfold Writer_utf, Writer_len. apply Z.leb_nle in Hn as Hn'. rewrite Hn'. do 3 wp_step.
      eexists. split; [done|]. split; [set_solver|lia]. }
    eapply wp_eq; [by apply Writer_utf_short|]. cbv beta iota. do 3 wp_step. cbn [wt_out wt_interned set_field].
    destruct HT as (Hsize & HT). rewrite Hsize.
    pose proof (parses_interned_new T s _ (parses_utf s T Hs Hn)) as Hp.
    destruct (Z.of_nat (length T) <? NEW) eqn:Hlt; repeat wp_step; exists (be_bytes 2 NEW ++ utf_bytes s).
    + eexists _, _. split; [|split; [|exact Hp]]; [by rewrite app_assoc|].
      rewrite <- Hsize. apply sync_push; [by split|done|lia].
    + eexists _, _. split; [|split; [|exact Hp]]; [by rewrite app_assoc|]. by split.
Qed.

(** ** Well-formed documents *)

(** The values the Rust types hold, and tokens of the events that are not the
    format's own. *)
Definition wf_str (s : Str) : Prop := Forall is_scalar s.

Definition wf_value (value : Value) : Prop :=
  match value with
  | VString s | VInterned s => wf_str s
  | VInt v | VIntHex v => in_i 32 v
  | VLong v | VLongHex v => in_i 64 v
  | VFloat v => in_u 32 v
  | VDouble v => in_u 64 v
  | _ => True
  end.

Definition wf_token (event : Z) (text : option Str) : Prop :=
  END_TAG < event < ATTRIBUTE /\ from_option wf_str True text.

Fixpoint wf_element (e : Element) : Prop :=
  let '(mkElement name attrs content) := e in
  wf_str name /\ Forall (fun '(name, value) => wf_str name /\ wf_value value) attrs /\
  foldr (fun node P => match node with
                       | NElement e => wf_element e
                       | NToken event text => wf_token event text
                       end /\ P) True content.

(** The lengths of the fields with a length of 16 bits. *)
Definition str_length (s : Str) : Z := Z.of_nat (length (encode_utf s)).

Definition value_lengths (value : Value) : list Z :=
  match value with
  | VString s | VInterned s => [str_length s]
  | VBytesHex b | VBytesBase64 b => [Z.of_nat (length b)]
  | _ => []
  end.

Definition token_lengths (text : option Str) : list Z := from_option (fun s => [str_length s]) [] text.

Fixpoint lengths (e : Element) : list Z :=
  let '(mkElement name attrs content) := e in
  str_length name :: flat_map (fun '(name, value) => str_length name :: value_lengths value) attrs ++
  flat_map (fun node => match node with NElement e => lengths e | NToken _ text => token_lengths text end) content.

Lemma Element_deep_ind (P : Element -> Prop) :
  (forall name attrs content,
     Forall (fun node => match node with NElement e => P e | NToken _ _ => True end) content ->
     P (mkElement name attrs content)) ->
  forall e, P e.
Proof.
  intros H. fix IH 1. intros [name attrs content]. apply H.
  induction content as [|[e|event text] content IHc]; constructor; auto.
Qed.

(** ** Tokens *)

Lemma writes_value value :
  wf_value value ->
  writes (Writer_value value) (fun l T T' => parses (Reader_value (value_kind value)) l T T' value)
    (value_lengths value).
Proof.
  destruct value as [|s|s|b|b|v|v|v|v|v|v|[]]; intros Hv; cbn [Writer_value value_kind value_lengths];
    try (apply writes_ret; intros T; apply parses_ret).
  - eapply writes_weaken; [by apply writes_utf| |done]. intros l T T'. apply (parses_map _ VString).
  - eapply writes_weaken; [by apply writes_interned| |done]. intros l T T'. apply (parses_map _ VInterned).
  - apply writes_len; [set_solver|]. intros Hb. apply writes_extend_only. intros T.
    by apply (parses_map _ VBytesHex), parses_bytes.
  - apply writes_len; [set_solver|]. intros Hb. apply writes_extend_only. intros T.
    by apply (parses_map _ VBytesBase64), parses_bytes.
  - apply writes_extend_only. intros T. by apply (parses_map _ VInt), (parses_int 4); [lia|].
  - apply writes_extend_only. intros T. by apply (parses_map _ VIntHex), (parses_int 4); [lia|].
  - apply writes_extend_only. intros T. by apply (parses_map _ VLong), (parses_int 8); [lia|].
  - apply writes_extend_only. intros T. by apply (parses_map _ VLongHex), (parses_int 8); [lia|].
  - apply writes_extend_only. intros T. by apply (parses_map _ VFloat), (parses_bits 4).
  - apply writes_extend_only. intros T. by apply (parses_map _ VDouble), (parses_bits 8).
Qed.

(** The byte of a token: its event in the low nibble, the type of its value in
    the high one. *)
Definition kinds : list Z :=
  [TYPE_NULL; TYPE_STRING; TYPE_STRING_INTERNED; TYPE_BYTES_HEX; TYPE_BYTES_BASE64; TYPE_INT; TYPE_INT_HEX;
   TYPE_LONG; TYPE_LONG_HEX; TYPE_FLOAT; TYPE_DOUBLE; TYPE_BOOLEAN_TRUE; TYPE_BOOLEAN_FALSE].

Lemma token_nibbles event kind :
  0 <= event < 16 -> kind ∈ kinds ->
  let token := Z.lor event kind mod 256 in Z.land token 0x0f = event /\ Z.land token 0xf0 = kind.
Proof.
  intros He Hk token.
  pose proof (forall_below 16 (fun event => forallb (fun kind =>
    let token := Z.lor event kind mod 256 in (Z.land token 0x0f =? event) && (Z.land token 0xf0 =? kind)) kinds)
    event eq_refl He) as Hall.
  cbv beta in Hall. rewrite forallb_forall in Hall.
  specialize (Hall kind ltac:(by apply list_elem_of_In)).
  by apply andb_true_iff in Hall as [?%Z.eqb_eq ?%Z.eqb_eq].
Qed.

Lemma parses_token doc event kind l T T' x :
  0 <= event < 16 -> kind ∈ kinds -> parses (read_event doc event kind) l T T' x ->
  parses (read_token doc) (byte_of_Z (Z.lor event kind) :: l) T T' x.
Proof.
  intros He Hk H. unfold read_token. eapply (parses_bind _ _ [byte_of_Z (Z.lor event kind)] l T T).
  - by apply parses_slice.
  - cbv zeta. replace (of_be_bytes _) with (Z.lor event kind mod 256).
    + by destruct (token_nibbles event kind He Hk) as [-> ->].
    + change (Z.lor event kind mod 256 = byte_to_Z (byte_of_Z (Z.lor event kind)) + 256 * 0).
      rewrite byte_to_of_Z. lia.
Qed.

(** The tokens of [l] take the loop of the reader from one document to
    another. *)
Definition advances (l : list byte) (T T' : list Str) (doc doc' : Doc) : Prop :=
  forall pre rest fuel, (length l <= fuel)%nat -> exists fuel', (fuel <= fuel' + length l)%nat /\
    read_tokens fuel doc (mkReader (pre ++ l ++ rest) (Z.of_nat (length pre)) T) =
    read_tokens fuel' doc' (mkReader (pre ++ l ++ rest) (Z.of_nat (length (pre ++ l))) T').

Lemma advances_refl T doc : advances [] T T doc doc.
Proof. intros pre rest fuel _. exists fuel. simpl. rewrite app_nil_r. split; [lia|done]. Qed.

Lemma advances_trans l1 l2 T T1 T2 doc doc1 doc2 :
  advances l1 T T1 doc doc1 -> advances l2 T1 T2 doc1 doc2 -> advances (l1 ++ l2) T T2 doc doc2.
Proof.
  intros H1 H2 pre rest fuel Hf. rewrite length_app in *. rewrite <- app_assoc.
  destruct (H1 pre (l2 ++ rest) fuel) as (fuel1 & ? & ->); [lia|].
  destruct (H2 (pre ++ l1) rest fuel1) as (fuel2 & Hf2 & Hrun); [lia|]. rewrite <- !app_assoc in Hrun.
  exists fuel2. split; [lia|]. by rewrite Hrun.
Qed.

Lemma advances_token b l T T' doc doc' :
  parses (read_token doc) (b :: l) T T' (Some doc') -> advances (b :: l) T T' doc doc'.
Proof.
  intros H pre rest [|fuel] Hf; simpl in Hf; [lia|]. exists fuel. split; [simpl; lia|].
  cbn [read_tokens]. unfold mbind at 1, M_bind at 1. by rewrite H.
Qed.

(** What the writer's calls do to the document the reader builds. *)
Lemma writes_push event kind m Q doc doc' L :
  0 <= event < 16 -> kind ∈ kinds -> writes m Q L ->
  (forall l T T', Q l T T' -> parses (read_event doc event kind) l T T' (Some doc')) ->
  writes (push (Z.lor event kind);; m) (fun l T T' => advances l T T' doc doc') L.
Proof.
  intros He Hk Hm HQ. apply (writes_extend [byte_of_Z (Z.lor event kind)]).
  eapply writes_weaken; [exact Hm| |done]. intros l T T' H. by apply advances_token, parses_token, HQ.
Qed.

Lemma value_kind_kinds value : value_kind value ∈ kinds.
Proof. apply list_elem_of_In. destruct value as [| | | | | | | | | | |[]]; simpl; tauto. Qed.

Lemma writes_attribute name value n attrs content open roots :
  wf_str name -> wf_value value ->
  writes (Writer_attribute name value)
    (fun l T T' => advances l T T' (mkElement n attrs content :: open, roots)
                     (mkElement n (attrs ++ [(name, value)]) content :: open, roots))
    (str_length name :: value_lengths value).
Proof.
  intros Hn Hv. eapply writes_push; [done|apply value_kind_kinds| |].
  - eapply (writes_bind _ _ _ _ (fun l T T' => exists l1 l2 T1, l = l1 ++ l2 /\
      parses Reader_interned l1 T T1 name /\ parses (Reader_value (value_kind value)) l2 T1 T' value));
      [by apply writes_interned|by apply writes_value|intros l1 l2 T T1 T2 ? ?; by exists l1, l2, T1|done].
  - intros l T T' (l1 & l2 & T1 & -> & H1 & H2). eapply parses_bind; [exact H1|].
    apply (parses_map _ (fun value => Some (push_attr name value (mkElement n attrs content) :: open, roots))), H2.
Qed.

Lemma writes_attributes more n attrs content open roots :
  Forall (fun '(name, value) => wf_str name /\ wf_value value) more ->
  writes (Writer_attributes more)
    (fun l T T' => advances l T T' (mkElement n attrs content :: open, roots)
                     (mkElement n (attrs ++ more) content :: open, roots))
    (flat_map (fun '(name, value) => str_length name :: value_lengths value) more).
Proof.
  intros Hm. revert attrs. induction Hm as [|[name value] more [Hn Hv] _ IH]; intros attrs.
  - apply writes_ret. intros T. rewrite app_nil_r. exact (advances_refl T _).
  - eapply writes_bind; [by apply (writes_attribute name value n attrs content open roots)|
      apply (IH (attrs ++ [(name, value)]))| |done].
    intros l1 l2 T T1 T2 H1 H2. rewrite <- app_assoc in H2. exact (advances_trans _ _ _ _ _ _ _ _ H1 H2).
Qed.

Lemma writes_start name attrs open roots :
  wf_str name -> Forall (fun '(name, value) => wf_str name /\ wf_value value) attrs ->
  writes (Writer_start_element name attrs)
    (fun l T T' => advances l T T' (open, roots) (mkElement name attrs [] :: open, roots))
    (str_length name :: flat_map (fun '(name, value) => str_length name :: value_lengths value) attrs).
Proof.
  intros Hn Ha. unfold Writer_start_element.
  change (writes (_ ←? (push (Z.lor START_TAG TYPE_STRING_INTERNED);; Writer_interned name); Writer_attributes attrs)
    (fun l T T' => advances l T T' (open, roots) (mkElement name attrs [] :: open, roots))
    (str_length name :: flat_map (fun '(name, value) => str_length name :: value_lengths value) attrs)).
  eapply (writes_bind _ _ (fun l T T' => advances l T T' (open, roots) (mkElement name [] [] :: open, roots)) _ _
    [str_length name]); [|by apply (writes_attributes attrs name [] [] open roots)|
    by intros l1 l2 T T1 T2; apply advances_trans|done].
  eapply writes_push; [done|set_solver|by apply writes_interned|].
  intros l T T'. apply (parses_map _ (fun name => Some (mkElement name [] [] :: open, roots))).
Qed.

Lemma writes_end name attrs content open roots :
  wf_str name ->
  writes (Writer_end_element name)
    (fun l T T' => advances l T T' (mkElement name attrs content :: open, roots)
                     (close (mkElement name attrs content) (open, roots)))
    [str_length name].
Proof.
  intros Hn. eapply writes_push; [done|set_solver|by apply writes_interned|].
  intros l T T' H. rewrite <- (app_nil_r l). eapply parses_bind; [exact H|]. cbn [e_name].
  rewrite decide_True by done. apply parses_ret.
Qed.

Lemma writes_node_token event text n attrs content open roots :
  wf_token event text ->
  writes (Writer_token event text)
    (fun l T T' => advances l T T' (mkElement n attrs content :: open, roots)
                     (mkElement n attrs (content ++ [NToken event text]) :: open, roots))
    (token_lengths text).
Proof.
  intros [He Ht]. unfold END_TAG, ATTRIBUTE in He.
  assert (forall kind l T T' value,
    parses (Reader_value kind) l T T' value ->
    (value = VNull /\ text = None \/ exists s, value = VString s /\ text = Some s) ->
    parses (read_event (mkElement n attrs content :: open, roots) event kind) l T T'
      (Some (mkElement n attrs (content ++ [NToken event text]) :: open, roots))) as Hread.
  { intros kind l T T' value Hp Hval. unfold read_event, START_TAG, ATTRIBUTE, END_TAG, START_DOCUMENT, END_DOCUMENT.
    repeat (rewrite (proj2 (Z.eqb_neq _ _)) by lia). rewrite <- (app_nil_r l).
    eapply parses_bind; [exact Hp|]. destruct Hval as [[-> ->]|(s & -> & ->)]; apply parses_ret. }
  destruct text as [s|].
  - eapply writes_push; [lia|set_solver|by apply writes_utf|]. intros l T T' H.
    apply (Hread _ _ _ _ (VString s)); [|eauto]. by apply (parses_map _ VString).
  - eapply writes_push; [lia|set_solver|by apply (writes_ret (fun l T T' => l = [] /\ T = T'))|].
    intros l T T' [-> ->]. apply (Hread _ _ _ _ VNull); [apply parses_ret|auto].
Qed.

(** ** Elements *)

Definition node_lengths (node : Node Element) : list Z :=
  match node with NElement e => lengths e | NToken _ text => token_lengths text end.
Definition wf_node (node : Node Element) : Prop :=
  match node with NElement e => wf_element e | NToken event text => wf_token event text end.

Lemma wf_content content : foldr (fun node P => wf_node node /\ P) True content <-> Forall wf_node content.
Proof.
  induction content as [|node content IH]; simpl; [by split; [constructor|]|].
  by rewrite list.Forall_cons, IH.
Qed.

Lemma wf_element_eq name attrs content :
  wf_element (mkElement name attrs content) <->
  wf_str name /\ Forall (fun '(name, value) => wf_str name /\ wf_value value) attrs /\ Forall wf_node content.
Proof. by rewrite <- wf_content. Qed.

Definition element_written (e : Element) : Prop :=
  forall open roots, wf_element e ->
    writes (Writer_element e) (fun l T T' => advances l T T' (open, roots) (close e (open, roots))) (lengths e).

Lemma writes_content more n attrs content open roots :
  Forall wf_node more ->
  Forall (fun node => match node with NElement e => element_written e | NToken _ _ => True end) more ->
  writes (Writer_content Writer_element more)
    (fun l T T' => advances l T T' (mkElement n attrs content :: open, roots)
                     (mkElement n attrs (content ++ more) :: open, roots))
    (flat_map node_lengths more).
Proof.
  intros Hm. revert content. induction Hm as [|node more Hn _ IH]; intros content Hmore.
  { apply writes_ret. intros T. rewrite app_nil_r. exact (advances_refl T _). }
  apply list.Forall_cons in Hmore as [Hnode Hmore].
  assert (writes (Writer_node Writer_element node)
    (fun l T T' => advances l T T' (mkElement n attrs content :: open, roots)
                     (mkElement n attrs (content ++ [node]) :: open, roots)) (node_lengths node)).
  { destruct node as [e|event text]; [exact (Hnode (mkElement n attrs content :: open) roots Hn)|].
    by apply writes_node_token. }
  eapply writes_bind; [eassumption|by apply (IH (content ++ [node]))| |done].
  intros l1 l2 T T1 T2 H1 H2. rewrite <- app_assoc in H2. exact (advances_trans _ _ _ _ _ _ _ _ H1 H2).
Qed.

Lemma writes_element e : element_written e.
Proof.
  induction e as [name attrs content IH] using Element_deep_ind. intros open roots (Hn & Ha & Hc)%wf_element_eq.
  eapply (writes_bind _ _ _ (fun l T T' => advances l T T' (mkElement name attrs [] :: open, roots) _) _ _
    (flat_map node_lengths content ++ [str_length name]));
    [by apply (writes_start name attrs open roots)| |intros l1 l2 T T1 T2; apply advances_trans|].
  - eapply writes_bind; [by apply (writes_content content name attrs [] open roots)|
      by apply (writes_end name attrs content open roots)|intros l1 l2 T T1 T2; apply advances_trans|done].
  - change (lengths _) with (str_length name ::
      flat_map (fun '(name, value) => str_length name :: value_lengths value) attrs ++ flat_map node_lengths content).
    set_solver.
Qed.

Lemma writes_elements more roots :
  Forall wf_element more ->
  writes (Writer_elements more) (fun l T T' => advances l T T' ([], roots) ([], roots ++ more)) (flat_map lengths more).
Proof.
  intros Hm. revert roots. induction Hm as [|e more He _ IH]; intros roots.
  { apply writes_ret. intros T. rewrite app_nil_r. apply advances_refl. }
  eapply writes_bind; [by apply (writes_element e [] roots)|apply (IH (roots ++ [e]))| |done].
  intros l1 l2 T T1 T2 H1 H2. rewrite <- app_assoc in H2. exact (advances_trans _ _ _ _ _ _ _ _ H1 H2).
Qed.

Lemma parses_end doc T : parses (read_token doc) [byte_of_Z (Z.lor END_DOCUMENT TYPE_NULL)] T T None.
Proof. apply parses_token; [done|set_solver|]. destruct doc. apply parses_ret. Qed.

Lemma advances_start doc T : advances [byte_of_Z (Z.lor START_DOCUMENT TYPE_NULL)] T T doc doc.
Proof. apply advances_token, parses_token; [done|set_solver|]. destruct doc. apply parses_ret. Qed.

(** The tokens between the start and the end of a document. *)
Lemma read_document l T roots :
  advances l [] T ([], []) ([], roots) -> read_sequence (Writer_finish (mkWriter (wt_out Writer_default ++ l) ∅)) = Done (Ok roots).
Proof.
  intros Hl. pose proof (advances_trans _ _ _ _ _ _ _ _ (advances_start _ _) Hl) as Hall.
  set (start := [byte_of_Z _]) in *. set (stop := [byte_of_Z (Z.lor END_DOCUMENT TYPE_NULL)]).
  assert (Writer_finish (mkWriter (wt_out Writer_default ++ l) ∅) = MAGIC ++ (start ++ l) ++ stop) as ->.
  { unfold Writer_finish, Writer_default. cbn [wt_out]. by rewrite <- !app_assoc. }
  unfold read_sequence. replace (is_abx _) with true by done. cbn [negb].
  destruct (Hall MAGIC stop (S (length (MAGIC ++ (start ++ l) ++ stop)))) as (fuel & Hf & ->).
  { rewrite !length_app. lia. }
  destruct fuel as [|fuel]; [rewrite !length_app in Hf; simpl in Hf; lia|].
  pose proof (parses_end ([], roots) T (MAGIC ++ start ++ l) []) as Hend.
  rewrite app_nil_r, <- !app_assoc in Hend. cbn [read_tokens]. unfold mbind, outcome_bind, M_bind.
  rewrite <- !app_assoc. unfold stop. by rewrite Hend.
Qed.

Lemma write_then_read roots :
  Forall wf_element roots ->
  match write_sequence roots with
  | Done (Ok bytes) => read_sequence bytes = Done (Ok roots)
  | Done (Err e) => exists n, e = TooLong n /\ n ∈ flat_map lengths roots /\ max_u 16 < n
  | _ => False
  end.
Proof.
  intros Hwf. unfold write_sequence, Writer_default.
  set (start := MAGIC ++ _). pose proof (writes_elements roots [] Hwf start ∅ [] sync_empty) as H.
  unfold wpx in H. unfold mbind, outcome_bind. destruct (Writer_elements _ _) as [[[u|e] w]| |]; [|exact H..].
  destruct H as (l & G & T' & -> & _ & Hadv).
  by apply (read_document l T').
Qed.

(** ** What the reader accepts

    Decoding never makes a string longer than the bytes it came from, so that
    what was read can be written. *)

(** The bytes that a UTF-16 unit takes when it is written again. *)
Definition unit_cost (u : Z) : Z :=
  if u =? 0 then 2 else if u <? 0x80 then 1 else if u <? 0x800 then 2
  else if (0xd800 <=? u) && (u <? 0xe000) then 2 else 3.

Definition units_cost (us : list Z) : Z := foldr (fun u n => unit_cost u + n) 0 us.

Lemma units_cost_app us vs : units_cost (us ++ vs) = units_cost us + units_cost vs.
Proof. induction us as [|u us IH]; [done|]. cbn [app units_cost foldr]. fold (units_cost (us ++ vs)) (units_cost us). lia. Qed.

Lemma land_ones_bound c k : 0 <= k -> 0 <= Z.land c (2 ^ k - 1) < 2 ^ k.
Proof.
  intros Hk. rewrite Z.sub_1_r, <- Z.ones_equiv, Z.land_ones by done. apply Z.mod_pos_bound. lia.
Qed.

Lemma cont_bound b x : cont b = Some x -> 0 <= x < 64.
Proof. unfold cont. case_match; [|done]. intros [= <-]. apply (land_ones_bound _ 6). lia. Qed.

Definition decodes (b : list byte) (us : list Z) : Prop :=
  Forall (in_u 16) us /\ units_cost us <= Z.of_nat (length b).

Lemma decodes_app b us b' us' : decodes b us -> decodes b' us' -> decodes (b ++ b') (us ++ us').
Proof.
  intros [H1 H2] [H3 H4]. split; [by apply Forall_app|]. rewrite units_cost_app, length_app. lia.
Qed.

Lemma decodes_unit b u :
  in_u 16 u -> unit_cost u <= Z.of_nat (length b) -> decodes b [u].
Proof. intros ? ?. split; [by constructor|]. cbn [units_cost foldr]. lia. Qed.

Lemma decodes_pair b c : length b = 4%nat -> 0x10000 <= c < 0x110000 -> decodes b (encode_utf16 [c]).
Proof.
  intros Hb Hc. unfold encode_utf16; cbn [mbind list_bind]. replace (c <? 0x10000) with false by lia.
  destruct (surrogate_halves c Hc) as (? & ? & _). cbn [app].
  split; [repeat constructor; unfold in_u; lia|]. rewrite Hb. cbn [units_cost foldr]. unfold unit_cost.
  repeat case_match; lia.
Qed.

Lemma decode_units_decodes b us : decode_units b = Some us -> decodes b us.
Proof.
  revert us. induction b as [b IH] using (induction_ltof1 _ (@length byte)). unfold ltof in IH. intros us Hus.
  destruct b as [|b0 b]; [injection Hus as <-; by split|]. cbn [decode_units] in Hus. revert Hus.
  pose proof (byte_to_Z_bound b0). set (c := byte_to_Z b0) in *. case_match.
  - destruct b as [|b1 [|b2 [|b3 b]]]; try done.
    intros (c1 & _ & (c2 & _ & (c3 & _ & (s & Hs & Hus)%bind_Some)%bind_Some)%bind_Some)%bind_Some.
    case_match; [done|]. apply bind_Some in Hus as (vs & Hvs & [= <-]).
    unfold char_from_u32 in Hs. case_match; [|done]. injection Hs as <-.
    apply (decodes_app [b0; b1; b2; b3]); [apply decodes_pair; [done|lia]|]. apply IH; [simpl; lia|done].
  - case_match.
    { intros (vs & Hvs & ->)%fmap_Some. apply (decodes_app [b0] [c]); [|apply IH; [simpl; lia|done]].
      apply decodes_unit; [unfold in_u; lia|]. unfold unit_cost. simpl. repeat case_match; lia. }
    case_match.
    { destruct b as [|b1 b]; [done|]. intros (c1 & Hc1%cont_bound & (vs & Hvs & [= <-])%bind_Some)%bind_Some.
      rewrite join2 by done. apply (decodes_app [b0; b1] [_]); [|apply IH; [simpl; lia|done]].
      pose proof (land_ones_bound c 5 ltac:(lia)). change (2 ^ 5 - 1) with 0x1f in *.
      apply decodes_unit; [unfold in_u; lia|]. unfold unit_cost. simpl length. repeat case_match; lia. }
    case_match; [|done].
    destruct b as [|b1 [|b2 b]]; try done.
    intros (c1 & Hc1%cont_bound & (c2 & Hc2%cont_bound & (vs & Hvs & [= <-])%bind_Some)%bind_Some)%bind_Some.
    rewrite join3 by done. apply (decodes_app [b0; b1; b2] [_]); [|apply IH; [simpl; lia|done]].
    pose proof (land_ones_bound c 4 ltac:(lia)). change (2 ^ 4 - 1) with 0x0f in *.
    apply decodes_unit; [unfold in_u; lia|]. unfold unit_cost. simpl length. repeat case_match; lia.
Qed.

Lemma encode_utf_char c :
  is_scalar c -> c < 0x10000 -> Z.of_nat (length (if c =? 0 then [xc0; x80] else encode_utf8 c)) = unit_cost c.
Proof.
  intros Hc Hlt. unfold is_scalar in Hc. unfold unit_cost, encode_utf8.
  destruct (Z.eqb_spec c 0); [done|]. rewrite length_fmap. repeat case_match; simpl; lia.
Qed.

Lemma from_utf16_cost us s :
  from_utf16 us = Some s -> Forall (in_u 16) us -> wf_str s /\ str_length s = units_cost us.
Proof.
  revert s. induction us as [us IH] using (induction_ltof1 _ (@length Z)). unfold ltof in IH. intros s Hs Hus.
  destruct us as [|u us]; [injection Hs as <-; by split; [constructor|]|].
  apply list.Forall_cons in Hus as [Hu Hus]. unfold in_u in Hu. cbn [from_utf16] in Hs. revert Hs. case_match.
  - destruct us as [|v us]; [done|]. apply list.Forall_cons in Hus as [Hv Hus]. case_match; [|done].
    intros (s' & Hs' & ->)%fmap_Some. destruct (IH us ltac:(simpl; lia) s' Hs' Hus) as [Hwf Hlen].
    set (c := 0x10000 + _ + _). split; [constructor; [right; lia|done]|].
    unfold str_length, encode_utf in *. cbn [mbind list_bind]. rewrite length_app, Nat2Z.inj_add, Hlen.
    cbn [units_cost foldr]. fold (units_cost us). unfold unit_cost, encode_utf8.
    destruct (Z.eqb_spec c 0); [lia|]. rewrite length_fmap. repeat case_match; simpl; lia.
  - case_match; [done|]. intros (s' & Hs' & ->)%fmap_Some. destruct (IH us ltac:(simpl; lia) s' Hs' Hus) as [Hwf Hlen].
    assert (is_scalar u) by (unfold is_scalar; lia). split; [by constructor|].
    unfold str_length, encode_utf in *. cbn [mbind list_bind]. rewrite length_app, Nat2Z.inj_add, Hlen.
    by rewrite encode_utf_char by (done || lia).
Qed.

(** A string that the format can hold. *)
Definition good_str (s : Str) : Prop := wf_str s /\ str_length s <= max_u 16.

Lemma decode_utf_good b s : decode_utf b = Some s -> Z.of_nat (length b) <= max_u 16 -> good_str s.
Proof.
  intros (us & [Hus Hcost]%decode_units_decodes & Hs)%bind_Some Hb.
  destruct (from_utf16_cost us s Hs Hus) as [? Hlen]. split; [done|lia].
Qed.

(** *** Documents that fit the format *)

Definition fits (n : Z) : Prop := n <= max_u 16.
Definition good_value (value : Value) : Prop := wf_value value /\ Forall fits (value_lengths value).
Definition good_node (node : Node Element) : Prop := wf_node node /\ Forall fits (node_lengths node).
Definition good_element (e : Element) : Prop := wf_element e /\ Forall fits (lengths e).
Definition good_doc (doc : Doc) : Prop := Forall good_element doc.1 /\ Forall good_element doc.2.

Lemma Forall_flat_map_and {A B} (P : A -> Prop) (Q : B -> Prop) (f : A -> list B) l :
  Forall P l /\ Forall Q (flat_map f l) <-> Forall (fun x => P x /\ Forall Q (f x)) l.
Proof.
  induction l as [|x l IH]; cbn [flat_map]; [by split; [constructor|by split; constructor]|].
  rewrite !list.Forall_cons, Forall_app, <- IH. tauto.
Qed.

Lemma good_element_eq name attrs content :
  good_element (mkElement name attrs content) <->
  good_str name /\ Forall (fun '(name, value) => good_str name /\ good_value value) attrs /\ Forall good_node content.
Proof.
  unfold good_element, good_str, good_node. rewrite wf_element_eq, <- Forall_flat_map_and.
  cbn [lengths]. fold node_lengths.
  assert (Forall (fun '(name, value) => (wf_str name /\ str_length name <= max_u 16) /\ good_value value) attrs <->
    Forall (fun '(name, value) => wf_str name /\ wf_value value) attrs /\
    Forall fits (flat_map (fun '(name, value) => str_length name :: value_lengths value) attrs)) as ->.
  { rewrite Forall_flat_map_and. apply Forall_iff. intros [n v]. unfold good_value.
    rewrite list.Forall_cons. unfold fits. tauto. }
  rewrite list.Forall_cons, Forall_app. unfold fits at 1. tauto.
Qed.

Lemma good_push_attr name value e :
  good_str name -> good_value value -> good_element e -> good_element (push_attr name value e).
Proof.
  intros ? ?. destruct e as [n attrs content]. cbn [push_attr]. rewrite !good_element_eq, Forall_app, Forall_singleton.
  tauto.
Qed.

Lemma good_push_node node e : good_node node -> good_element e -> good_element (push_node node e).
Proof.
  intros ?. destruct e as [n attrs content]. cbn [push_node]. rewrite !good_element_eq, Forall_app, Forall_singleton.
  tauto.
Qed.

Lemma good_close e doc : good_element e -> good_doc doc -> good_doc (close e doc).
Proof.
  intros He. destruct doc as [[|parent open] roots]; unfold good_doc; cbn [close fst snd];
    rewrite ?list.Forall_cons, ?Forall_app, ?Forall_singleton; [tauto|].
  intros [[Hp Ho] Hr]. split_and!; try done. by apply good_push_node.
Qed.

(** *** The reader on any input

    [reads m P n]: [m] neither panics nor loops, stays within the input and
    keeps the interned strings good; what it returns satisfies [P], and it has
    then read [n] bytes at least. *)

Definition reader_ok (r : Reader) : Prop :=
  0 <= rd_at r <= Z.of_nat (length (rd_bytes r)) /\ Forall good_str (rd_interned r).

Definition reads {A} (m : R A) (P : A -> Prop) (n : Z) : Prop :=
  forall r, reader_ok r -> wp False m (fun x r' =>
    reader_ok r' /\ rd_bytes r' = rd_bytes r /\
    match x with Ok x => P x /\ rd_at r + n <= rd_at r' | Err _ => True end) r.

Lemma reads_ret {A} (x : result A AbxError) (P : A -> Prop) :
  match x with Ok x => P x | Err _ => True end -> reads (mret x) P 0.
Proof. intros HP r Hr. apply wp_ret. split; [done|]. split; [done|]. destruct x; [split; [done|lia]|done]. Qed.

Lemma reads_weaken {A} (m : R A) (P Q : A -> Prop) n n' :
  reads m P n -> (forall x, P x -> Q x) -> n' <= n -> reads m Q n'.
Proof.
  intros H HPQ Hn r Hr. eapply wp_mono; [exact (H r Hr)|]. intros [x|e] r' (? & ? & Hx); [|done].
  split; [done|]. split; [done|]. destruct Hx. split; [auto|lia].
Qed.

Lemma reads_bind {A B} (m : R A) (k : A -> R B) (P : A -> Prop) (Q : B -> Prop) n n' :
  reads m P n -> (forall x, P x -> reads (k x) Q n') -> reads (x ←? m; k x) Q (n + n').
Proof.
  intros Hm Hk r Hr. apply wp_bind. eapply wp_mono; [exact (Hm r Hr)|].
  intros [x|e] r' (Hr' & Hb & Hx); [|by apply wp_ret]. destruct Hx as [HP Hn].
  eapply wp_mono; [exact (Hk x HP r' Hr')|]. intros [y|e] r'' (Hr'' & Hb' & Hy); rewrite Hb' in *; [|done].
  split; [done|]. split; [done|]. split; [apply Hy|lia].
Qed.

(** A step that ends the block, whatever it read before. *)
Lemma reads_then {A B} (m : R A) (k : A -> R B) (P : A -> Prop) (Q : B -> Prop) n :
  0 <= n -> reads m P n -> (forall x, P x -> reads (k x) Q 0) -> reads (x ←? m; k x) Q 0.
Proof. intros ? Hm Hk. eapply reads_weaken; [by apply (reads_bind m k P Q n 0)|done|lia]. Qed.

Lemma reads_slice n : 0 <= n -> reads (Reader_slice n) (fun b => Z.of_nat (length b) = n) n.
Proof.
  intros Hn r [Hat Hi]. unfold Reader_slice. do 2 wp_step. wp_step; [|by wp_step].
  do 3 wp_step. apply length_slice in Heqo as Hlen. unfold slice in Heqo. case_decide; [|done].
  unfold reader_ok. cbn. split_and!; try done; lia.
Qed.

Lemma of_be_bytes_bound b n : Z.of_nat (length b) = n -> 0 <= of_be_bytes b < 2 ^ (8 * n).
Proof.
  intros <-. unfold of_be_bytes. rewrite Z.pow_mul_r by lia. rewrite <- length_rev. apply of_le_bytes_bound.
Qed.

Lemma reads_bits n : 0 <= n -> reads (Reader_bits n) (in_u (8 * n)) 0.
Proof.
  intros Hn. eapply reads_then; [|by apply reads_slice|]; [done|]. intros b Hb. apply reads_ret.
  by apply of_be_bytes_bound.
Qed.

Lemma reads_u16 : reads Reader_u16 (in_u 16) 0.
Proof. exact (reads_bits 2 ltac:(lia)). Qed.

Lemma reads_int n : 0 < n -> reads (Reader_int n) (in_i (8 * n)) 0.
Proof.
  intros Hn. eapply reads_then; [|apply reads_slice; lia|]; [lia|]. intros b _. apply reads_ret.
  apply as_i_bound. lia.
Qed.

Lemma reads_bytes : reads Reader_bytes (fun b => fits (Z.of_nat (length b))) 0.
Proof.
  eapply reads_then; [|apply reads_u16|]; [done|]. intros len [Hlen Hmax].
  eapply reads_weaken; [by apply reads_slice|unfold fits, max_u; simpl; lia|done].
Qed.

(** [get] only looks. *)
Lemma reads_get {A} (k : Reader -> R A) (P : A -> Prop) n :
  (forall r, Forall good_str (rd_interned r) -> reads (k r) P n) -> reads (r ← get; k r) P n.
Proof. intros H r Hr. apply wp_bind, wp_get, H; [apply Hr|done]. Qed.

Lemma reads_utf : reads Reader_utf good_str 0.
Proof.
  eapply reads_then; [|apply reads_u16|]; [done|]. intros len [Hlen Hmax]. apply reads_get. intros r _.
  eapply reads_then; [exact Hlen|by apply reads_slice|]. intros b Hb. apply reads_ret.
  destruct (decode_utf b) as [s|] eqn:Hs; [|done]. apply (decode_utf_good b); [done|]. unfold max_u. cbv beta in Hb. lia.
Qed.

Lemma reads_intern s : good_str s ->
  reads (r ← get;
         (if Z.of_nat (length (rd_interned r)) <? NEW
          then put (r <| rd_interned ::= (fun l => l ++ [s]) |>) else mret tt);;
         mret (Ok s)) good_str 0.
Proof.
  intros Hs r [Hat Hi]. do 3 wp_step. wp_step; do 2 wp_step; (split; [|split; [done|split; [done|cbn; lia]]]); split; try done.
  cbn. apply Forall_app. by rewrite Forall_singleton.
Qed.

Lemma reads_interned : reads Reader_interned good_str 0.
Proof.
  eapply reads_then; [|apply reads_u16|]; [done|]. intros i _. destruct (_ =? _).
  - eapply reads_then; [|apply reads_utf|]; [done|]. apply reads_intern.
  - apply reads_get. intros r Hr. apply reads_ret. destruct (_ !! _) as [s|] eqn:Hs; [|done].
    by apply (list.Forall_lookup_1 _ _ _ _ Hr Hs).
Qed.

Lemma reads_value kind : reads (Reader_value kind) good_value 0.
Proof.
  unfold Reader_value. repeat (destruct (_ =? _));
    first [apply reads_ret; by repeat split
          |eapply reads_then; [|apply reads_utf|]; [done|]; intros s [? ?]
          |eapply reads_then; [|apply reads_interned|]; [done|]; intros s [? ?]
          |eapply reads_then; [|apply reads_bytes|]; [done|]; intros b ?
          |eapply reads_then; [|by apply reads_int|]; [done|]; intros b ?
          |eapply reads_then; [|by apply reads_bits|]; [done|]; intros b ?];
    apply reads_ret; split; cbn [value_lengths]; by rewrite ?Forall_singleton.
Qed.

Definition good_next (next : option Doc) : Prop := from_option good_doc True next.

Lemma reads_event doc event kind :
  good_doc doc -> 0 <= event -> event < 16 -> reads (read_event doc event kind) good_next 0.
Proof.
  intros Hdoc He0 He. destruct doc as [open roots]. pose proof Hdoc as [Ho Hr]. unfold read_event.
  destruct (Z.eqb_spec event START_TAG).
  { eapply reads_then; [|apply reads_interned|]; [done|]. intros name Hn. apply reads_ret.
    split; [|done]. constructor; [|done]. apply good_element_eq. split; [done|]. by split; constructor. }
  destruct (Z.eqb_spec event ATTRIBUTE).
  { eapply reads_then; [|apply reads_interned|]; [done|]. intros name Hn.
    eapply reads_then; [|apply reads_value|]; [done|]. intros value Hv. apply reads_ret.
    destruct open as [|el open]; [done|]. apply list.Forall_cons in Ho as [Hel Ho].
    split; [|done]. constructor; [by apply good_push_attr|done]. }
  destruct (Z.eqb_spec event END_TAG).
  { eapply reads_then; [|apply reads_interned|]; [done|]. intros name Hn. apply reads_ret.
    destruct open as [|el open]; [done|]. apply list.Forall_cons in Ho as [Hel Ho].
    case_decide; [|done]. by apply good_close. }
  destruct (Z.eqb_spec event START_DOCUMENT); [by apply reads_ret|].
  destruct (Z.eqb_spec event END_DOCUMENT); [by apply reads_ret|].
  eapply reads_then; [|apply reads_value|]; [done|]. intros value Hv.
  eapply (reads_then _ _ (fun text => good_node (NToken event text)) _ 0); [done|apply reads_ret|].
  - unfold START_TAG, ATTRIBUTE, END_TAG, START_DOCUMENT, END_DOCUMENT in *.
    destruct value; try done; (split; [split; [unfold END_TAG, ATTRIBUTE; lia|apply Hv]|apply Hv]).
  - intros text Ht. apply reads_ret. destruct open as [|parent open]; [done|].
    apply list.Forall_cons in Ho as [Hp Ho]. split; [|done]. constructor; [by apply good_push_node|done].
Qed.

Lemma reads_token doc : good_doc doc -> reads (read_token doc) good_next 1.
Proof.
  intros Hdoc. eapply (reads_bind _ _ _ _ 1 0); [by apply reads_slice|]. intros b _. cbv zeta.
  pose proof (land_ones_bound (of_be_bytes b) 4 ltac:(lia)). change (2 ^ 4 - 1) with 0x0f in *.
  apply reads_event; [done|lia..].
Qed.

(** Every token is a byte at least, so the loop ends with the input. *)
Lemma reads_tokens fuel doc r :
  good_doc doc -> reader_ok r -> Z.of_nat (length (rd_bytes r)) - rd_at r < Z.of_nat fuel ->
  wp False (read_tokens fuel doc) (fun x _ => match x with Ok doc => good_doc doc | Err _ => True end) r.
Proof.
  revert doc r. induction fuel as [|fuel IH]; intros doc r Hdoc Hr Hf; [destruct Hr; lia|].
  cbn [read_tokens]. apply wp_bind. eapply wp_mono; [exact (reads_token doc Hdoc r Hr)|].
  intros [[doc'|]|e] r' (Hr' & Hb & Hx); [|by apply wp_ret..].
  destruct Hx as [Hdoc' Hat]. apply IH; [done|done|]. rewrite Hb. lia.
Qed.

Lemma read_sequence_good bytes :
  match read_sequence bytes with
  | Done (Ok roots) => Forall good_element roots
  | Done (Err _) => True
  | _ => False
  end.
Proof.
  unfold read_sequence. destruct (is_abx bytes) eqn:Habx; [|done]. cbn [negb].
  apply bool_decide_eq_true in Habx. apply (f_equal length) in Habx. rewrite length_take in Habx.
  change (length MAGIC) with 4%nat in *.
  assert (wp False (read_tokens (S (length bytes)) ([], []))
    (fun x _ => match x with Ok doc => good_doc doc | Err _ => True end)
    (mkReader bytes (Z.of_nat (length MAGIC)) [])) as Hw.
  { apply reads_tokens; [by split|..]; unfold reader_ok; cbn [rd_at rd_bytes rd_interned];
      change (length MAGIC) with 4%nat; [split; [lia|done]|lia]. }
  unfold wpx in Hw. unfold mbind, outcome_bind.
  destruct (read_tokens _ _ _) as [[[[open roots]|e] r]| |]; cbn; try done.
  destruct (list.last open); [done|apply Hw].
Qed.

(** C31: A document is read back as it was written: writing a sequence of
    well-formed elements either gives bytes that the reader turns into the
    same elements, names, attributes with their types and content in order, or
    fails because one of its strings or byte arrays does not fit the format's
    16-bit length. *)
Theorem abx_round_trip roots :
  Forall wf_element roots ->
  match write_sequence roots with
  | Done (Ok bytes) => read_sequence bytes = Done (Ok roots)
  | Done (Err e) => exists n, e = TooLong n /\ n ∈ flat_map lengths roots /\ max_u 16 < n
  | _ => False
  end.
Proof. apply write_then_read. Qed.

(** Reading ends, without a panic, on every input; and a document that was
    read, whatever wrote it, can be written again and is then read back the
    same. *)
Theorem abx_rewrite bytes :
  match read_sequence bytes with
  | Done (Ok roots) =>
      exists bytes', write_sequence roots = Done (Ok bytes') /\ read_sequence bytes' = Done (Ok roots)
  | Done (Err _) => True
  | _ => False
  end.
Proof.
  pose proof (read_sequence_good bytes) as Hgood. destruct (read_sequence bytes) as [[roots|e]| |]; try done.
  unfold good_element in Hgood. apply Forall_flat_map_and in Hgood as [Hwf Hfit].
  pose proof (write_then_read roots Hwf) as Hw. destruct (write_sequence roots) as [[bytes'|e]| |]; try done; [eauto|].
  destruct Hw as (n & -> & Hn & Hmax). apply (proj1 (list.Forall_forall _ _) Hfit) in Hn. unfold fits in Hn. lia.
Qed.

(** ** A document

    [<a k="1">NUL<b/></a>], with an attribute name interned again as a value. *)

Definition sample : list Element :=
  [mkElement [97] [([107], VInt (-1)); ([107], VInterned [97])]
     [NToken 4 (Some [0; 0x1f600]); NElement (mkElement [98] [([99], VBytesHex [x30; x82])] [])]].

Lemma abx_round_trip_witness :
  match write_sequence sample with
  | Done (Ok bytes) => read_sequence bytes = Done (Ok sample)
  | Done (Err e) => exists n, e = TooLong n /\ n ∈ flat_map lengths sample /\ max_u 16 < n
  | _ => False
  end.
Proof.
  apply abx_round_trip. repeat constructor; unfold is_scalar, END_TAG, ATTRIBUTE; cbn; lia.
Defined.
