(* ===== verification/Base64.v ===== *)
(** [Base64.NO_WRAP] ([src/crates/aim-android-xml/src/base64.rs]): the standard
    alphabet with padding and no line breaks, and that what was encoded decodes
    to itself, with its padding or without. *)

From S2P Require Import Prelude.
From Stdlib Require Import ZArith Lia.
From Stdlib Require Import Strings.Byte Strings.String.
From stdpp Require Import base numbers list sets.

Open Scope Z_scope.

Definition ALPHABET : list byte :=
  list_byte_of_string "ABCDEFGHIJKLMNOPQRSTUVWXYZabcdefghijklmnopqrstuvwxyz0123456789+/".

(** [ALPHABET[v]]. *)
Definition digit (v : Z) : byte := default x00 (ALPHABET !! Z.to_nat v).

(** The four characters of a chunk of one to three bytes. *)
Definition encode_chunk (chunk : list byte) : list byte :=
  let b i := byte_to_Z (default x00 (chunk !! i)) in
  let n := b 0%nat * 65536 + b 1%nat * 256 + b 2%nat in
  (fun i => if i <=? Z.of_nat (length chunk) then digit (Z.land (Z.shiftr n (18 - 6 * i)) 63) else x3d) <$> [0; 1; 2; 3].

Fixpoint encode (bytes : list byte) : list byte :=
  match bytes with
  | [] => []
  | a :: b :: c :: bytes => encode_chunk [a; b; c] ++ encode bytes
  | chunk => encode_chunk chunk
  end.

(** [trim_end_matches('=')]. *)
Definition trim_end (s : list byte) : list byte :=
  reverse ((fix trim (s : list byte) : list byte :=
          match s with
          | b :: s' => if decide (b = x3d) then trim s' else s
          | [] => []
          end) (reverse s)).

(** The loop over the characters: [acc] is a [u32] that the shift lets
    overflow, of which [bits] are not yet written. *)
Fixpoint decode_from (acc bits : Z) (s : list byte) (out : list byte) : option (list byte) :=
  match s with
  | [] => if bits <? 6 then Some out else None
  | c :: s =>
      v ← position (fun a => bool_decide (a = c)) ALPHABET;
      let acc := Z.lor (as_u 32 (Z.shiftl acc 6)) (Z.of_nat v) in
      let bits := bits + 6 in
      if 8 <=? bits
      then decode_from acc (bits - 8) s (out ++ [byte_of_Z (Z.shiftr acc (bits - 8))])
      else decode_from acc bits s out
  end.

Definition decode (s : list byte) : option (list byte) := decode_from 0 0 (trim_end s) [].

(** ** Digits *)

Lemma digit_position v : 0 <= v < 64 -> position (fun a => bool_decide (a = digit v)) ALPHABET = Some (Z.to_nat v).
Proof.
  intros Hv. apply (bool_decide_unpack _), Is_true_true.
  exact (forall_below 64 (fun v =>
    bool_decide (position (fun a => bool_decide (a = digit v)) ALPHABET = Some (Z.to_nat v))) v eq_refl Hv).
Qed.

Lemma digit_not_pad v : 0 <= v < 64 -> digit v <> x3d.
Proof.
  intros Hv. apply (bool_decide_unpack _), Is_true_true.
  exact (forall_below 64 (fun v => bool_decide (digit v <> x3d)) v eq_refl Hv).
Qed.

Lemma sextet n k : 0 <= k -> Z.land (Z.shiftr n k) 63 = n / 2 ^ k mod 64.
Proof. intros Hk. change 63 with (Z.ones 6). by rewrite Z.land_ones, Z.shiftr_div_pow2 by lia. Qed.

(** One character. *)
Definition shifted (acc v : Z) : Z := as_u 32 (acc * 64) + v.

Lemma decode_step acc bits v s out :
  0 <= v < 64 -> 0 <= bits ->
  decode_from acc bits (digit v :: s) out =
  if 8 <=? bits + 6
  then decode_from (shifted acc v) (bits - 2) s (out ++ [byte_of_Z (shifted acc v / 2 ^ (bits - 2))])
  else decode_from (shifted acc v) (bits + 6) s out.
Proof.
  intros Hv Hb. cbn [decode_from]. rewrite digit_position by done. cbn [mbind option_bind].
  rewrite Z2Nat.id, Z.shiftl_mul_pow2 by lia. unfold shifted, as_u.
  rewrite (lor_add (acc mod 2 ^ 26) _ _ 6);
    [|change (2 ^ 32) with (2 ^ 26 * 2 ^ 6); by apply Z.mul_mod_distr_r|lia..].
  destruct (Z.leb_spec 8 (bits + 6)); [|done].
  replace (bits + 6 - 8) with (bits - 2) by lia. by rewrite Z.shiftr_div_pow2 by lia.
Qed.

Lemma decode_hold acc v s out :
  0 <= v < 64 -> decode_from acc 0 (digit v :: s) out = decode_from (shifted acc v) 6 s out.
Proof. intros Hv. by rewrite decode_step by done. Qed.

Lemma decode_out acc bits v s out b :
  0 <= v < 64 -> 2 <= bits -> byte_to_Z b = shifted acc v / 2 ^ (bits - 2) mod 256 ->
  decode_from acc bits (digit v :: s) out = decode_from (shifted acc v) (bits - 2) s (out ++ [b]).
Proof.
  intros Hv Hbits Hb. rewrite decode_step by lia. rewrite (proj2 (Z.leb_le _ _)) by lia.
  do 3 f_equal. rewrite <- (byte_of_to_Z b), Hb. unfold byte_of_Z. by rewrite Z.mod_mod by lia.
Qed.

(** The bits of the character before are below those of this one. *)
Lemma shifted_shifted acc u v k :
  0 <= u < 64 -> 0 <= v < 64 -> 0 <= k <= 4 -> 
  shifted (shifted acc u) v / 2 ^ k mod 256 = (u * 64 + v) / 2 ^ k mod 256.
Proof.
  intros Hu Hv Hk. unfold shifted, as_u.
  assert (k = 0 \/ k = 1 \/ k = 2 \/ k = 3 \/ k = 4) as Hc by lia.
  destruct Hc as [->|[->|[->|[->| ->]]]]; simpl Z.pow; Z.div_mod_to_equations; lia.
Qed.

(** The sextets of a chunk. *)
Definition s0 (a : byte) : Z := byte_to_Z a / 4.
Definition s1 (a b : byte) : Z := byte_to_Z a mod 4 * 16 + byte_to_Z b / 16.
Definition s2 (b c : byte) : Z := byte_to_Z b mod 16 * 4 + byte_to_Z c / 64.
Definition s3 (c : byte) : Z := byte_to_Z c mod 64.

Lemma sextets_bound a b : 0 <= s0 a < 64 /\ 0 <= s1 a b < 64 /\ 0 <= s2 a b < 64 /\ 0 <= s3 a < 64.
Proof.
  pose proof (byte_to_Z_bound a). pose proof (byte_to_Z_bound b). unfold s0, s1, s2, s3.
  Z.div_mod_to_equations. lia.
Qed.

Lemma sextets (a b c : byte) :
  let n := byte_to_Z a * 65536 + byte_to_Z b * 256 + byte_to_Z c in
  Z.land (Z.shiftr n (18 - 6 * 0)) 63 = s0 a /\ Z.land (Z.shiftr n (18 - 6 * 1)) 63 = s1 a b /\
  Z.land (Z.shiftr n (18 - 6 * 2)) 63 = s2 b c /\ Z.land (Z.shiftr n (18 - 6 * 3)) 63 = s3 c.
Proof.
  pose proof (byte_to_Z_bound a). pose proof (byte_to_Z_bound b). pose proof (byte_to_Z_bound c).
  intros n. rewrite !sextet by lia. unfold s0, s1, s2, s3, n. simpl Z.pow.
  split_and!; Z.div_mod_to_equations; lia.
Qed.

Lemma encode_chunk_3 a b c : encode_chunk [a; b; c] = [digit (s0 a); digit (s1 a b); digit (s2 b c); digit (s3 c)].
Proof. destruct (sextets a b c) as (<- & <- & <- & <-). done. Qed.
Lemma encode_chunk_2 a b : encode_chunk [a; b] = [digit (s0 a); digit (s1 a b); digit (s2 b x00); x3d].
Proof. destruct (sextets a b x00) as (<- & <- & <- & _). done. Qed.
Lemma encode_chunk_1 a : encode_chunk [a] = [digit (s0 a); digit (s1 a x00); x3d; x3d].
Proof. destruct (sextets a x00 x00) as (<- & <- & _). done. Qed.

(** The bytes of two sextets in a row. *)
Lemma joined a b c :
  byte_to_Z a = (s0 a * 64 + s1 a b) / 2 ^ 4 mod 256 /\
  byte_to_Z b = (s1 a b * 64 + s2 b c) / 2 ^ 2 mod 256 /\
  byte_to_Z c = (s2 b c * 64 + s3 c) / 2 ^ 0 mod 256.
Proof.
  pose proof (byte_to_Z_bound a). pose proof (byte_to_Z_bound b). pose proof (byte_to_Z_bound c).
  unfold s0, s1, s2, s3. simpl Z.pow. split_and!; Z.div_mod_to_equations; lia.
Qed.

Lemma decode_first a b acc s out :
  decode_from acc 0 (digit (s0 a) :: digit (s1 a b) :: s) out =
  decode_from (shifted (shifted acc (s0 a)) (s1 a b)) 4 s (out ++ [a]).
Proof.
  destruct (sextets_bound a b) as (? & ? & _ & _). rewrite decode_hold by done. apply decode_out; [done|lia|].
  rewrite shifted_shifted by lia. apply (joined a b x00).
Qed.

Lemma decode_second a b c acc s out :
  decode_from (shifted acc (s1 a b)) 4 (digit (s2 b c) :: s) out =
  decode_from (shifted (shifted acc (s1 a b)) (s2 b c)) 2 s (out ++ [b]).
Proof.
  destruct (sextets_bound a b) as (_ & ? & _ & _), (sextets_bound b c) as (_ & _ & ? & _).
  apply decode_out; [done|lia|]. rewrite shifted_shifted by lia. apply (joined a b c).
Qed.

Lemma decode_third b c acc s out :
  decode_from (shifted acc (s2 b c)) 2 (digit (s3 c) :: s) out =
  decode_from (shifted (shifted acc (s2 b c)) (s3 c)) 0 s (out ++ [c]).
Proof.
  destruct (sextets_bound b c) as (_ & _ & ? & _), (sextets_bound c c) as (_ & _ & _ & ?).
  apply decode_out; [done|lia|]. rewrite shifted_shifted by lia. apply (joined x00 b c).
Qed.

(** ** Padding *)

(** A text without its padding: what the loop reads. *)
Fixpoint digits (bytes : list byte) : list byte :=
  match bytes with
  | [] => []
  | [a] => [digit (s0 a); digit (s1 a x00)]
  | [a; b] => [digit (s0 a); digit (s1 a b); digit (s2 b x00)]
  | a :: b :: c :: bytes => digit (s0 a) :: digit (s1 a b) :: digit (s2 b c) :: digit (s3 c) :: digits bytes
  end.

(** Three at a time. *)
Lemma chunk_ind (P : list byte -> Prop) :
  P [] -> (forall a, P [a]) -> (forall a b, P [a; b]) ->
  (forall a b c bytes, P bytes -> P (a :: b :: c :: bytes)) -> forall bytes, P bytes.
Proof.
  intros H0 H1 H2 H3. fix IH 1. intros [|a [|b [|c bytes]]]; [done|done|done|]. apply H3, IH.
Qed.

Lemma decode_digits bytes acc out : decode_from acc 0 (digits bytes) out = Some (out ++ bytes).
Proof.
  revert acc out. induction bytes as [|a|a b|a b c bytes IH] using chunk_ind; intros acc out; cbn [digits].
  - by rewrite app_nil_r.
  - by rewrite decode_first.
  - rewrite decode_first, decode_second. simpl. by rewrite <- app_assoc.
  - rewrite decode_first, decode_second, decode_third, IH. by rewrite <- !app_assoc.
Qed.

Lemma encode_digits bytes : exists n, encode bytes = digits bytes ++ replicate n x3d.
Proof.
  induction bytes as [|a|a b|a b c bytes [n IH]] using chunk_ind.
  - by exists 0%nat.
  - exists 2%nat. apply encode_chunk_1.
  - exists 1%nat. apply encode_chunk_2.
  - exists n. cbn [encode]. rewrite encode_chunk_3, IH. done.
Qed.

Lemma digits_no_pad bytes : x3d ∉ digits bytes.
Proof.
  induction bytes as [|a|a b|a b c bytes IH] using chunk_ind; cbn [digits]; rewrite ?not_elem_of_cons;
    split_and?; try apply not_elem_of_nil; try done;
    (intros Heq; symmetry in Heq; revert Heq; apply digit_not_pad; 
     first [apply (sextets_bound a x00)|apply (sextets_bound a b)|apply (sextets_bound b x00)
           |apply (sextets_bound b c)|apply (sextets_bound c c)]).
Qed.

Lemma trim_end_pad s n : x3d ∉ s -> trim_end (s ++ replicate n x3d) = s.
Proof.
  intros Hs. unfold trim_end. rewrite reverse_app, reverse_replicate.
  assert (x3d ∉ reverse s) as Hr by (by rewrite elem_of_reverse).
  rewrite <- (reverse_involutive s) at 2. f_equal. induction n as [|n IH]; [|exact IH].
  destruct (reverse s) as [|b r]; [done|]. simpl. rewrite decide_False by set_solver. done.
Qed.

(** Base64 text decodes to the bytes it was encoded from, with its padding
    or without, and the text of [n] bytes has four characters for each three,
    rounded up. *)
Theorem base64_round_trip bytes :
  decode (encode bytes) = Some bytes /\ decode (trim_end (encode bytes)) = Some bytes /\
  Z.of_nat (length (encode bytes)) = 4 * ((Z.of_nat (length bytes) + 2) / 3).
Proof.
  assert (trim_end (encode bytes) = digits bytes) as Htrim.
  { destruct (encode_digits bytes) as [n ->]. apply trim_end_pad, digits_no_pad. }
  split_and!.
  - unfold decode. by rewrite Htrim, decode_digits.
  - unfold decode. rewrite Htrim. rewrite <- (app_nil_r (digits bytes)), (trim_end_pad _ 0) by apply digits_no_pad.
    by rewrite decode_digits.
  - clear. induction bytes as [|a|a b|a b c bytes IH] using chunk_ind; [done..|].
    cbn [encode]. rewrite length_app, encode_chunk_3. cbn [length]. rewrite !Nat2Z.inj_succ, Nat2Z.inj_add, IH.
    Z.div_mod_to_equations. lia.
Qed.
