(* ===== verification/Fmq.v ===== *)
(** Fast message queues ([src/hal/fmq/src/lib.rs]): the ring in shared memory
    with a producer on one side and a consumer on the other, as programs that
    interleave at each access to the shared memory and at each system call. *)

From S2P Require Import Prelude.
From Stdlib Require Import ZArith Lia.
From Stdlib Require Import Strings.Byte.
From stdpp Require Import base numbers list.

Open Scope Z_scope.

Definition NOT_FULL : Z := 0x01.
Definition NOT_EMPTY : Z := 0x02.
Definition SYNCHRONIZED_READ_WRITE : Z := 0x01.

(** ** The layout of a queue *)

Module Layout.

(** [(n + 7) & !7]. *)
Definition align8 `{Env} (n : Z) : outcome Z := n ← uadd 64 n 7; Done (Z.ldiff n 7).

(** [n.div_ceil(page) * page]. *)
Definition pages `{Env} (page n : Z) : outcome Z := umul 64 ((n + (page - 1)) / page) page.

Record Queue (Fd Base : Type) := mkQueue {
  fd : Fd;
  base : Base;
  length_ : Z;
  read : Z;
  write : Z;
  ring : Z;
  flag : option Z;
  size : Z;
  quantum : Z;
}.
Arguments mkQueue {Fd Base}.
Arguments fd {Fd Base}. Arguments base {Fd Base}. Arguments length_ {Fd Base}.
Arguments read {Fd Base}. Arguments write {Fd Base}. Arguments ring {Fd Base}.
Arguments flag {Fd Base}. Arguments size {Fd Base}. Arguments quantum {Fd Base}.

Record GrantorDescriptor := mkGrantor { fdIndex : Z; offset : Z; extent : Z }.

Record MQDescriptor (Fd : Type) := mkDescriptor {
  grantors : list GrantorDescriptor;
  fds : list Fd;
  d_quantum : Z;
  d_flags : Z;
}.
Arguments mkDescriptor {Fd}.
Arguments grantors {Fd}. Arguments fds {Fd}. Arguments d_quantum {Fd}. Arguments d_flags {Fd}.

Inductive Error (E : Type) := Os (e : E) | UnsupportedGrantors | NoFd | SizeMismatch.
Arguments Os {E}. Arguments UnsupportedGrantors {E}. Arguments NoFd {E}. Arguments SizeMismatch {E}.

(** The system's part: the page size, a new memory file of a length, a
    descriptor duplicated, a mapping of a length. *)
Class System := {
  Fd : Type;
  Base : Type;
  OsError : Type;
  page : Z;
  memfd : Z -> result Fd OsError;
  try_clone : Fd -> result Fd OsError;
  map : Fd -> Z -> result Base OsError;
}.

Definition os `{System} {A} (r : result A OsError) : result A (Error OsError) :=
  match r with Ok a => Ok a | Err e => Err (Os e) end.

Section queue.
Context `{Env} `{System}.

(** A queue of [count] elements of [quantum] bytes. *)
Definition new (quantum count : Z) (event_flag : bool) : outcome (result (Queue Fd Base) (Error OsError)) :=
  size ← umul 64 quantum count;
  let meta := 16 + if event_flag then 4 else 0 in
  aligned ← align8 size;
  used ← uadd 64 aligned meta;
  length ← pages page used;
  match os (memfd length) with
  | Err e => Done (Err e)
  | Ok fd =>
      match os (map fd length) with
      | Err e => Done (Err e)
      | Ok base =>
          after ← uadd 64 16 size;
          flag ← align8 after;
          Done (Ok (mkQueue fd base length 0 8 16 (if event_flag then Some flag else None) size quantum))
      end
  end.

Definition grantor (offset extent : Z) : GrantorDescriptor := mkGrantor 0 (as_i 32 offset) (as_i 64 extent).

Definition descriptor (q : Queue Fd Base) : result (MQDescriptor Fd) (Error OsError) :=
  let grantors := [grantor (read q) 8; grantor (write q) 8; grantor (ring q) (size q)] ++
                  match flag q with Some f => [grantor f 4] | None => [] end in
  match os (try_clone (fd q)) with
  | Err e => Err e
  | Ok fd => Ok (mkDescriptor grantors [fd] (as_i 32 (quantum q)) SYNCHRONIZED_READ_WRITE)
  end.

Definition bad_grantor (g : GrantorDescriptor) : bool :=
  negb (fdIndex g =? 0) || (offset g <? 0) || (extent g <? 0).

Definition from_descriptor (desc : MQDescriptor Fd) : result (Queue Fd Base) (Error OsError) :=
  let g := grantors desc in
  if (Z.of_nat (length g) <? 3) || existsb bad_grantor g then Err UnsupportedGrantors else
  match fds desc with
  | [] => Err NoFd
  | fd :: _ =>
      match os (try_clone fd) with
      | Err e => Err e
      | Ok fd =>
          let end_ := foldr Z.max 0 ((fun g => offset g + extent g) <$> g) in
          match os (map fd end_) with
          | Err e => Err e
          | Ok base =>
              match g with
              | g0 :: g1 :: g2 :: rest =>
                  Ok (mkQueue fd base end_ (offset g0) (offset g1) (offset g2) (offset <$> head rest)
                        (extent g2) (as_u 64 (d_quantum desc)))
              | _ => Err UnsupportedGrantors
              end
          end
      end
  end.

(** [TypedQueue] of an element type of [size_of] bytes. *)
Definition typed_new (size_of count : Z) : outcome (result (Queue Fd Base) (Error OsError)) := new size_of count true.

Definition typed_from_descriptor (size_of : Z) (desc : MQDescriptor Fd) : result (Queue Fd Base) (Error OsError) :=
  match from_descriptor desc with
  | Err e => Err e
  | Ok queue => if quantum queue =? size_of then Ok queue else Err SizeMismatch
  end.

End queue.
End Layout.

(** ** The queue in use *)

Inductive Side := Producer | Consumer.
#[export] Instance Side_eq_dec : EqDecision Side.
Proof. solve_decision. Defined.

Definition other (side : Side) : Side := match side with Producer => Consumer | Consumer => Producer end.

(** The bits a side waits for, and those that wake the other one. *)
Definition waits_for (side : Side) : Z := match side with Producer => NOT_FULL | Consumer => NOT_EMPTY end.
Definition wakes_with (side : Side) : Z := waits_for (other side).

(** A call of [read], [write] ([blocking] unset), [read_blocking] or
    [write_blocking] with its buffer. *)
Record Op := mkOp { blocking : bool; buf : list byte }.

(** Where a side is in its call. *)
Inductive Pc :=
| Idle
| LoadWrite                               (* [available_to_read]: the write counter *)
| LoadRead (w : Z)                        (* ... the read counter, and the comparison *)
| LoadOwn                                 (* the side's own counter *)
| Copying (at_ : Z) (i : nat)             (* [copy], [i] bytes done; then the store *)
| WakeOr                                  (* [wake]: [fetch_or] *)
| WakeCall                                (* ... the futex *)
| WaitAnd                                 (* [wait]: [fetch_and] *)
| WaitCall (expected : Z)                 (* ... in the futex call *)
| Asleep (woken : bool)
| Stopped.                                (* a panic, or an access outside of the ring *)

#[export] Instance Pc_eq_dec : EqDecision Pc.
Proof. solve_decision. Defined.

Record Thread := mkThread {
  pc : Pc;
  op : Op;
  todo : list Op;
  log : list (bool * list byte);          (* the calls that returned, with their buffers *)
}.
#[export] Instance Thread_eta : Settable Thread := fun t => mkThread (pc t) (op t) (todo t) (log t).

Record Shared := mkShared { ring : list byte; read_counter : Z; write_counter : Z; word : Z }.
#[export] Instance Shared_eta : Settable Shared :=
  fun s => mkShared (ring s) (read_counter s) (write_counter s) (word s).

Record State := mkState { shared : Shared; producer : Thread; consumer : Thread }.
#[export] Instance State_eta : Settable State := fun s => mkState (shared s) (producer s) (consumer s).

Definition thread (side : Side) (s : State) : Thread :=
  match side with Producer => producer s | Consumer => consumer s end.
Definition set_thread (side : Side) (t : Thread) (s : State) : State :=
  match side with Producer => s <| producer := t |> | Consumer => s <| consumer := t |> end.

Definition own (side : Side) (sh : Shared) : Z :=
  match side with Producer => write_counter sh | Consumer => read_counter sh end.
Definition set_own (side : Side) (v : Z) (sh : Shared) : Shared :=
  match side with Producer => sh <| write_counter := v |> | Consumer => sh <| read_counter := v |> end.

(** The kernel's futex: whether a wait puts its caller to sleep, from the word
    and the value the caller expects, and whether a wake reaches a sleeper,
    from their bit sets. *)
Class Futex := {
  sleeps : Z -> Z -> bool;
  reaches : Z -> Z -> bool;
}.

(** A wait sleeps when the word has the value it expects, and only then; a wake
    reaches the sleepers it shares a bit with. *)
Class FutexLaws (f : Futex) : Prop := {
  sleeps_expected : forall word expected, sleeps word expected = true <-> word = expected;
  reaches_shared : forall waiter waker, Z.land waiter waker <> 0 -> reaches waiter waker = true;
}.

(** What a wait does on its own: nothing, an interruption by a signal, another
    error. *)
Inductive Answer := Normal | Interrupt | Fail_.

Section queue.
Context `{Env} `{Futex}.
(** The ring's size and whether there is an event flag word. *)
Variables (size : Z) (flagged : bool).

Definition len (t : Thread) : Z := Z.of_nat (length (buf (op t))).

(** [w.wrapping_sub(r) as usize], and the room left. *)
Definition available_to_read (w r : Z) : Z := as_u 64 (w - r).
Definition available_to_write (w r : Z) : Z := saturating_sub size (available_to_read w r).

Definition available (side : Side) (w r : Z) : Z :=
  match side with Producer => available_to_write w r | Consumer => available_to_read w r end.

(** The place in the ring of byte [i] of a copy of [n] bytes at position [at_]:
    the first span runs to the end of the ring, the second from its start. *)
Definition copy_index (at_ n i : Z) : Z :=
  let offset := at_ mod size in
  let first := Z.min n (size - offset) in
  if i <? first then offset + i else i - first.

(** One byte of [copy], to the ring or from it. *)
Definition copy_byte (side : Side) (at_ : Z) (i : nat) (sh : Shared) (t : Thread) : option (Shared * Thread) :=
  let index := Z.to_nat (copy_index at_ (len t) (Z.of_nat i)) in
  match side with
  | Producer =>
      b ← buf (op t) !! i;
      if decide (index < length (ring sh))%nat
      then Some (sh <| ring ::= insert index b |>, t) else None
  | Consumer =>
      b ← ring sh !! index;
      Some (sh, t <| op := mkOp (blocking (op t)) (<[i := b]> (buf (op t))) |>)
  end.

(** The call returns. *)
Definition finish (r : bool) (t : Thread) : Thread :=
  t <| pc := Idle |> <| log ::= (fun l => l ++ [(r, buf (op t))]) |>.

(** [read] or [write] returned true: a blocking call wakes the other side. *)
Definition succeed (t : Thread) : Thread :=
  if blocking (op t) && flagged then t <| pc := WakeOr |> else finish true t.

(** It returned false: a blocking call waits. *)
Definition retry (t : Thread) : Thread :=
  if blocking (op t) && flagged then t <| pc := WaitAnd |> else finish false t.

(** A step of a side on the shared memory; [None] when it cannot move. *)
Definition local_step (side : Side) (answer : Answer) (sh : Shared) (t : Thread) : option (Shared * Thread) :=
  match pc t with
  | Idle =>
      match todo t with
      | [] => None
      | o :: rest =>
          let t := mkThread LoadWrite o rest (log t) in
          Some (sh, if len t =? 0 then succeed t else t)
      end
  | LoadWrite => Some (sh, t <| pc := LoadRead (write_counter sh) |>)
  | LoadRead w =>
      Some (sh, if available side w (read_counter sh) <? len t then retry t else t <| pc := LoadOwn |>)
  | LoadOwn => Some (sh, t <| pc := if size =? 0 then Stopped else Copying (own side sh) 0 |>)
  | Copying at_ i =>
      if Z.of_nat i <? len t then
        match copy_byte side at_ i sh t with
        | Some (sh, t) => Some (sh, t <| pc := Copying at_ (S i) |>)
        | None => Some (sh, t <| pc := Stopped |>)
        end
      else
        match uadd 64 at_ (len t) with
        | Done v => Some (set_own side v sh, succeed t)
        | _ => Some (sh, t <| pc := Stopped |>)
        end
  | WakeOr =>
      let bits := wakes_with side in
      Some (sh <| word := Z.lor (word sh) bits |>,
            if Z.ldiff bits (word sh) =? 0 then finish true t else t <| pc := WakeCall |>)
  | WakeCall => Some (sh, finish true t)
  | WaitAnd =>
      let bits := waits_for side in
      Some (sh <| word := Z.ldiff (word sh) bits |>,
            t <| pc := if Z.land (word sh) bits =? 0 then WaitCall (Z.ldiff (word sh) bits) else LoadWrite |>)
  | WaitCall expected =>
      match answer with
      | Normal => Some (sh, t <| pc := if sleeps (word sh) expected then Asleep false else WaitAnd |>)
      | Interrupt => Some (sh, t <| pc := WaitAnd |>)
      | Fail_ => Some (sh, finish false t)
      end
  | Asleep woken =>
      match answer with
      | Normal => if woken then Some (sh, t <| pc := WaitAnd |>) else None
      | Interrupt => Some (sh, t <| pc := WaitAnd |>)
      | Fail_ => Some (sh, finish false t)
      end
  | Stopped => None
  end.

(** The other side's sleep ends when the futex is woken. *)
Definition wake_other (side : Side) (before t : Thread) : Thread :=
  match pc before, pc t with
  | WakeCall, Asleep false =>
      if reaches (waits_for (other side)) (wakes_with side) then t <| pc := Asleep true |> else t
  | _, _ => t
  end.

Definition step (side : Side) (answer : Answer) (s : State) : option State :=
  '(sh, t) ← local_step side answer (shared s) (thread side s);
  Some (set_thread (other side) (wake_other side (thread side s) (thread (other side) s))
          (set_thread side t (s <| shared := sh |>))).

(** A schedule: which side moves, and the answer to its wait.  A side that
    cannot move is passed over. *)
Fixpoint run (schedule : list (Side * Answer)) (s : State) : State :=
  match schedule with
  | [] => s
  | (side, answer) :: schedule => run schedule (default s (step side answer s))
  end.

(** A new queue, and the calls each side is going to make. *)
Definition start (writes reads : list Op) : State :=
  mkState (mkShared (replicate (Z.to_nat size) x00) 0 0 0)
    (mkThread Idle (mkOp false []) writes []) (mkThread Idle (mkOp false []) reads []).

Definition reached (writes reads : list Op) (s : State) : Prop :=
  exists schedule, s = run schedule (start writes reads).

End queue.

(** ** The bytes that went through *)

(** The bytes of the calls that moved theirs: those that returned true, and one
    that has still to wake the other side. *)
Definition logged (t : Thread) : list byte := r ← log t; if r.1 : bool then r.2 else [].
Definition waking (p : Pc) : bool := match p with WakeOr | WakeCall => true | _ => false end.
Definition moved (t : Thread) : list byte := logged t ++ (if waking (pc t) then buf (op t) else []).

(** The bytes a side has still to move. *)
Definition sizes (ops : list Op) : Z := foldr (fun o n => Z.of_nat (length (buf o)) + n) 0 ops.
Definition holding (p : Pc) : bool := match p with Idle | WakeOr | WakeCall | Stopped => false | _ => true end.
Definition pending (t : Thread) : Z := sizes (todo t) + if holding (pc t) then len t else 0.

Section fifo.
Context `{Env} `{Futex}.
Variables (size : Z) (flagged : bool).
Hypothesis Hsize : 0 < size.

Abbreviation succeed := (succeed flagged).
Abbreviation retry := (retry flagged).

Definition slot (p : Z) : nat := Z.to_nat (p mod size).

Definition producer_ok (sh : Shared) (t : Thread) : Prop :=
  let w := write_counter sh in let room := size - (w - read_counter sh) in
  match pc t with
  | LoadRead w' => w' = w
  | LoadOwn => len t <= room
  | Copying at_ i =>
      at_ = w /\ Z.of_nat i <= len t <= room /\
      forall j, (j < i)%nat -> ring sh !! slot (w + Z.of_nat j) = buf (op t) !! j
  | Stopped => False
  | _ => True
  end.

Definition consumer_ok (sent : list byte) (sh : Shared) (t : Thread) : Prop :=
  let r := read_counter sh in let filled := write_counter sh - r in
  match pc t with
  | LoadRead w => r <= w <= write_counter sh
  | LoadOwn => len t <= filled
  | Copying at_ i =>
      at_ = r /\ Z.of_nat i <= len t <= filled /\
      forall j, (j < i)%nat -> buf (op t) !! j = sent !! (Z.to_nat r + j)%nat
  | Stopped => False
  | _ => True
  end.

Record Inv (sh : Shared) (p c : Thread) : Prop := mkInv {
  inv_ring : Z.of_nat (length (ring sh)) = size;
  inv_write : write_counter sh = Z.of_nat (length (moved p));
  inv_read : read_counter sh = Z.of_nat (length (moved c));
  inv_filled : read_counter sh <= write_counter sh <= read_counter sh + size;
  inv_contents : forall q, read_counter sh <= q < write_counter sh -> ring sh !! slot q = moved p !! Z.to_nat q;
  inv_received : moved c = take (length (moved c)) (moved p);
  inv_pending : write_counter sh + pending p < 2 ^ 64;
  inv_producer : producer_ok sh p;
  inv_consumer : consumer_ok (moved p) sh c;
}.

(** *** Slots *)

Lemma slot_index at_ n i : n <= size -> 0 <= i < n -> copy_index size at_ n i = (at_ + i) mod size.
Proof.
  intros Hn Hi. unfold copy_index. pose proof (Z.mod_pos_bound at_ size Hsize) as Hm.
  rewrite <- Z.add_mod_idemp_l by lia. set (o := at_ mod size) in *.
  destruct (Z.ltb_spec i (Z.min n (size - o))).
  - rewrite Z.mod_small; lia.
  - apply (Z.mod_unique _ _ 1); lia.
Qed.

Lemma slot_bound (l : list byte) q : Z.of_nat (length l) = size -> (slot q < length l)%nat.
Proof. intros Hl. pose proof (Z.mod_pos_bound q size Hsize). unfold slot. lia. Qed.

(** Positions less than a ring apart are in different places. *)
Lemma slot_ne p q : p < q < p + size -> slot p <> slot q.
Proof.
  intros Hpq Heq. unfold slot in Heq.
  pose proof (Z.mod_pos_bound p size Hsize). pose proof (Z.mod_pos_bound q size Hsize).
  assert (p mod size = q mod size) as Hm by lia.
  pose proof (Z.div_mod p size ltac:(lia)). pose proof (Z.div_mod q size ltac:(lia)).
  set (k := q / size - p / size). assert (size * k = q - p) by (unfold k; rewrite Z.mul_sub_distr_l; lia).
  assert (0 < k) by nia. assert (k < 1) by nia. lia.
Qed.

(** *** Calls *)

Lemma logged_finish r t : logged (finish r t) = logged t ++ (if r then buf (op t) else []).
Proof. unfold logged, finish. cbn. rewrite bind_app. cbn. by rewrite app_nil_r. Qed.

Lemma moved_finish r t : waking (pc t) = r -> moved (finish r t) = moved t.
Proof. intros Hw. unfold moved. rewrite logged_finish, Hw. cbn. by rewrite app_nil_r. Qed.

Lemma moved_succeed t : waking (pc t) = false -> moved (succeed t) = moved t ++ buf (op t).
Proof.
  intros Hw. unfold Fmq.succeed, moved. rewrite Hw, app_nil_r.
  case_match; [done|]. rewrite logged_finish. cbn. by rewrite app_nil_r.
Qed.

Lemma moved_retry t : waking (pc t) = false -> moved (retry t) = moved t.
Proof.
  intros Hw. unfold Fmq.retry. case_match; [|by apply moved_finish]. unfold moved. by rewrite Hw.
Qed.

Lemma pending_finish r t : pending (finish r t) = sizes (todo t).
Proof. change (sizes (todo t) + 0 = sizes (todo t)). lia. Qed.

Lemma pending_succeed t : pending (succeed t) = sizes (todo t).
Proof.
  unfold Fmq.succeed. case_match; [|apply pending_finish].
  change (sizes (todo t) + 0 = sizes (todo t)). lia.
Qed.

Lemma sizes_nonneg ops : 0 <= sizes ops.
Proof. induction ops as [|o ops IH]; cbn; [lia|]. fold (sizes ops). lia. Qed.

Lemma moved_pc q t : waking (pc t) = waking q -> moved (t <| pc := q |>) = moved t.
Proof. intros Hq. unfold moved. by rewrite Hq. Qed.

Lemma pending_pc q t : (holding q = true -> holding (pc t) = true) -> pending (t <| pc := q |>) <= pending t.
Proof.
  intros Hq. unfold pending. change (todo (t <| pc := q |>)) with (todo t). change (len (t <| pc := q |>)) with (len t).
  change (pc (t <| pc := q |>)) with q. unfold len. destruct (holding q); [by rewrite Hq|case_match; lia].
Qed.

Lemma pending_end r t : pending (finish r t) <= pending t.
Proof. rewrite pending_finish. unfold pending, len. case_match; lia. Qed.

(** Where a step that is not part of a copy leads. *)
Definition arrives (side : Side) (sh : Shared) (t t' : Thread) : Prop :=
  match pc t' with
  | LoadRead w => w = write_counter sh
  | LoadOwn => exists w, pc t = LoadRead w /\ len t' <= available size side w (read_counter sh)
  | Copying at_ i => pc t = LoadOwn /\ at_ = own side sh /\ i = O /\ len t' = len t
  | Stopped => False
  | _ => True
  end.

Lemma quiet_succeed t :
  waking (pc t) = false -> len t = 0 -> moved (succeed t) = moved t /\ pending (succeed t) <= pending t.
Proof.
  intros Hw Hl. rewrite moved_succeed, pending_succeed by done. unfold len in Hl.
  destruct (buf (op t)) eqn:Hb; [|done]. rewrite app_nil_r. split; [done|]. unfold pending, len. rewrite Hb.
  case_match; simpl; lia.
Qed.

Lemma quiet_retry t :
  waking (pc t) = false -> holding (pc t) = true -> moved (retry t) = moved t /\ pending (retry t) <= pending t.
Proof.
  intros Hw Hh. split; [by apply moved_retry|]. unfold Fmq.retry. case_match; [by apply pending_pc|apply pending_end].
Qed.

Local Ltac quiet Hpc := split; [apply moved_pc; by rewrite Hpc|apply pending_pc; by rewrite Hpc].

Lemma local_quiet side answer sh t sh' t' :
  local_step size flagged side answer sh t = Some (sh', t') -> (forall at_ i, pc t <> Copying at_ i) ->
  (exists w, sh' = sh <| word := w |>) /\ (moved t' = moved t /\ pending t' <= pending t) /\ arrives side sh t t'.
Proof.
  intros Hs Hc. assert (sh = sh <| word := word sh |>) as Hsh by by destruct sh.
  unfold local_step in Hs. destruct (pc t) as [| |w| |at_ i| | | |e|woken|] eqn:Hpc; [..|done].
  - destruct (todo t) as [|o rest] eqn:Htodo; [done|]. injection Hs as <- <-. split; [eauto|].
    set (t1 := mkThread LoadWrite o rest (log t)).
    assert (moved t1 = moved t /\ pending t1 <= pending t) as [Hm Hp].
    { unfold moved, pending. rewrite Hpc, Htodo. split; [done|]. cbn. fold (sizes rest). unfold len. cbn. lia. }
    destruct (Z.eqb_spec (len t1) 0) as [Hl|Hl]; [|done].
    destruct (quiet_succeed t1 eq_refl Hl). split; [split; [congruence|lia]|].
    unfold arrives, Fmq.succeed. by destruct (blocking (op t1) && flagged).
  - injection Hs as <- <-. split; [eauto|]. split; [|done].
    quiet Hpc.
  - injection Hs as <- <-. split; [eauto|]. destruct (Z.ltb_spec (available size side w (read_counter sh)) (len t)).
    + split; [apply quiet_retry; by rewrite Hpc|]. unfold arrives, Fmq.retry. by destruct (blocking (op t) && flagged).
    + split; [|unfold arrives; rewrite Hpc; cbn; eauto].
      quiet Hpc.
  - injection Hs as <- <-. rewrite (proj2 (Z.eqb_neq _ _)) by lia. split; [eauto|].
    split; [quiet Hpc|].
    unfold arrives. cbn. rewrite Hpc. done.
  - by destruct (Hc at_ i).
  - injection Hs as <- <-. split; [eauto|]. destruct (_ =? 0).
    + split; [|done]. split; [apply moved_finish; by rewrite Hpc|apply pending_end].
    + split; [|done]. quiet Hpc.
  - injection Hs as <- <-. split; [eauto|].
    split; [|done]. split; [apply moved_finish; by rewrite Hpc|apply pending_end].
  - injection Hs as <- <-. split; [eauto|]. destruct (_ =? 0); (split; [|done]);
      quiet Hpc.
  - destruct answer; injection Hs as <- <-; (split; [eauto|]).
    + destruct (sleeps _ _); (split; [|done]); quiet Hpc.
    + split; [|done]. quiet Hpc.
    + split; [|done]. split; [apply moved_finish; by rewrite Hpc|apply pending_end].
  - destruct answer; [destruct woken; [|done]| |]; injection Hs as <- <-; (split; [eauto|]); (split; [|done]).
    + quiet Hpc.
    + quiet Hpc.
    + split; [apply moved_finish; by rewrite Hpc|apply pending_end].
Qed.

(** *** The producer's steps *)

(** A step that moves nothing: the invariant but for the producer's part. *)
Lemma Inv_producer sh p p' c :
  Inv sh p c -> moved p' = moved p -> pending p' <= pending p -> producer_ok sh p' -> Inv sh p' c.
Proof. intros [] Hm Hp Hok. split; rewrite ?Hm; try done. lia. Qed.

Lemma Inv_word sh p c w : Inv sh p c -> Inv (sh <| word := w |>) p c.
Proof. intros []. by split. Qed.

Lemma pending_nonneg t : 0 <= pending t.
Proof. unfold pending, len. pose proof (sizes_nonneg (todo t)). case_match; lia. Qed.

Lemma Inv_counters sh p c w :
  Inv sh p c -> read_counter sh <= w <= write_counter sh -> available_to_read w (read_counter sh) = w - read_counter sh.
Proof.
  intros [] Hw. pose proof (pending_nonneg p). unfold available_to_read, as_u. apply Z.mod_small. lia.
Qed.

Lemma Inv_produce sh p c at_ i :
  Inv sh p c -> pc p = Copying at_ i -> Z.of_nat i < len p ->
  exists sh' p', copy_byte size Producer at_ i sh p = Some (sh', p') /\ Inv sh' (p' <| pc := Copying at_ (S i) |>) c.
Proof.
  intros HI Hpc Hi. pose proof (inv_producer _ _ _ HI) as Hok. unfold producer_ok in Hok. rewrite Hpc in Hok.
  destruct Hok as (-> & Hlen & Hcopied). destruct HI as [Hr Hw Hrc Hf Hc Hrec Hpend _ Hcons].
  destruct (lookup_lt_is_Some_2 (buf (op p)) i) as [b Hb]; [unfold len in Hi; lia|].
  unfold copy_byte. rewrite slot_index, Hb by lia. cbn [mbind option_bind].
  fold (slot (write_counter sh + Z.of_nat i)). set (k := slot (write_counter sh + Z.of_nat i)).
  assert (k < length (ring sh))%nat as Hk by by apply slot_bound. rewrite decide_True by done.
  assert (moved (p <| pc := Copying (write_counter sh) (S i) |>) = moved p) as Hm by (apply moved_pc; by rewrite Hpc).
  eexists _, _. split; [done|]. split; rewrite ?Hm; try done.
  - by rewrite <- Hr, <- (length_insert (ring sh) k b).
  - intros q Hq. change (<[k := b]> (ring sh) !! slot q = moved p !! Z.to_nat q).
    rewrite list_lookup_insert_ne; [by apply Hc|]. cbn in Hq. apply not_eq_sym, slot_ne. lia.
  - unfold pending in *. by rewrite Hpc in Hpend.
  - split; [done|]. split; [change (Z.of_nat (S i) <= len p <= size - (write_counter sh - read_counter sh)); lia|].
    intros j Hj. change (<[k := b]> (ring sh) !! slot (write_counter sh + Z.of_nat j) = buf (op p) !! j).
    destruct (decide (j = i)) as [->|Hne]; [by rewrite list_lookup_insert_eq|].
    rewrite list_lookup_insert_ne; [apply Hcopied; lia|]. apply not_eq_sym, slot_ne. lia.
Qed.

Lemma Inv_produced sh p c at_ i :
  Inv sh p c -> pc p = Copying at_ i -> len p <= Z.of_nat i ->
  uadd 64 at_ (len p) = Done (at_ + len p) /\ Inv (sh <| write_counter := at_ + len p |>) (succeed p) c.
Proof.
  intros HI Hpc Hi. pose proof (inv_producer _ _ _ HI) as Hok. unfold producer_ok in Hok. rewrite Hpc in Hok.
  destruct Hok as (-> & Hlen & Hcopied). destruct HI as [Hr Hw Hrc Hf Hc Hrec Hpend _ Hcons].
  unfold pending in Hpend. rewrite Hpc in Hpend. cbn [holding] in Hpend. pose proof (sizes_nonneg (todo p)).
  split; [apply uadd_small; lia|].
  assert (moved (succeed p) = moved p ++ buf (op p)) as Hm by (apply moved_succeed; by rewrite Hpc).
  assert (len p = Z.of_nat (length (buf (op p)))) as Hl by done.
  split; rewrite ?Hm, ?pending_succeed; try done; cbn [write_counter read_counter ring set_field].
  - rewrite length_app. lia.
  - lia.
  - intros q Hq. destruct (decide (q < write_counter sh)).
    + rewrite lookup_app_l by lia. apply Hc. lia.
    + rewrite lookup_app_r by lia. specialize (Hcopied (Z.to_nat (q - write_counter sh)) ltac:(lia)).
      replace (write_counter sh + Z.of_nat (Z.to_nat (q - write_counter sh))) with q in Hcopied by lia.
      rewrite Hcopied. f_equal. lia.
  - rewrite take_app_le; [done|]. rewrite Hrec, length_take. lia.
  - lia.
  - unfold producer_ok, Fmq.succeed. by destruct (blocking (op p) && flagged).
  - unfold consumer_ok in *. destruct (pc c); cbn; try done; try lia.
    destruct Hcons as (? & ? & Hcop). split; [done|]. split; [lia|]. intros j Hj.
    rewrite lookup_app_l by lia. by apply Hcop.
Qed.

Lemma Copying_dec q : {at_i | q = Copying at_i.1 at_i.2} + {forall at_ i, q <> Copying at_ i}.
Proof. destruct q as [| | | |at_ i| | | | | |]; try (right; done). left. by exists (at_, i). Defined.

Lemma producer_step answer sh p c sh' p' :
  Inv sh p c -> local_step size flagged Producer answer sh p = Some (sh', p') -> Inv sh' p' c.
Proof.
  intros HI Hs. destruct (Copying_dec (pc p)) as [[[at_ i] Hpc]|Hc].
  - simpl in Hpc. unfold local_step in Hs. rewrite Hpc in Hs. destruct (Z.ltb_spec (Z.of_nat i) (len p)) as [Hi|Hi].
    + destruct (Inv_produce sh p c at_ i HI Hpc Hi) as (sh1 & p1 & Hcopy & HI'). rewrite Hcopy in Hs.
      by injection Hs as <- <-.
    + destruct (Inv_produced sh p c at_ i HI Hpc Hi) as [Hadd HI']. rewrite Hadd in Hs. by injection Hs as <- <-.
  - destruct (local_quiet _ _ _ _ _ _ Hs Hc) as ([w ->] & [Hm Hp] & Harr). apply Inv_word.
    apply (Inv_producer _ p); [done..|]. pose proof (inv_producer _ _ _ HI) as Hok. pose proof (inv_filled _ _ _ HI).
    unfold arrives in Harr. unfold producer_ok in *. destruct (pc p') as [| |w'| |at_ i| | | | | |]; try done.
    + destruct Harr as (w' & Hpc & Hlen). rewrite Hpc in Hok. subst w'.
      unfold available, available_to_write in Hlen. rewrite (Inv_counters _ _ _ _ HI) in Hlen by lia.
      unfold saturating_sub in Hlen. lia.
    + destruct Harr as (Hpc & -> & -> & ->). rewrite Hpc in Hok. split; [done|]. split; [|lia]. unfold len in *. simpl. lia.
Qed.

(** *** The consumer's steps *)

Lemma Inv_consumer sh p c c' : Inv sh p c -> moved c' = moved c -> consumer_ok (moved p) sh c' -> Inv sh p c'.
Proof. intros [] Hm Hok. split; rewrite ?Hm; done. Qed.

Lemma Inv_consume sh p c at_ i :
  Inv sh p c -> pc c = Copying at_ i -> Z.of_nat i < len c ->
  exists sh' c', copy_byte size Consumer at_ i sh c = Some (sh', c') /\ Inv sh' p (c' <| pc := Copying at_ (S i) |>).
Proof.
  intros HI Hpc Hi. pose proof (inv_consumer _ _ _ HI) as Hok. unfold consumer_ok in Hok. rewrite Hpc in Hok.
  destruct Hok as (-> & Hlen & Hcopied). pose proof (inv_filled _ _ _ HI). pose proof (inv_read _ _ _ HI).
  unfold copy_byte. rewrite slot_index by lia. fold (slot (read_counter sh + Z.of_nat i)).
  destruct (lookup_lt_is_Some_2 (ring sh) (slot (read_counter sh + Z.of_nat i))) as [b Hb].
  { apply slot_bound, (inv_ring _ _ _ HI). }
  rewrite Hb. eexists _, _. split; [done|]. apply (Inv_consumer _ _ c); [done| |].
  - unfold moved. by rewrite Hpc.
  - rewrite (inv_contents _ _ _ HI) in Hb by lia. split; [done|].
    assert (len c = Z.of_nat (length (buf (op c)))) as Hl by done.
    split; [unfold len; cbn; rewrite length_insert; lia|]. cbn. intros j Hj. destruct (decide (j = i)) as [->|Hne].
    + rewrite list_lookup_insert_eq by lia. rewrite <- Hb. f_equal. lia.
    + rewrite list_lookup_insert_ne by done. apply Hcopied. lia.
Qed.

Lemma Inv_consumed sh p c at_ i :
  Inv sh p c -> pc c = Copying at_ i -> len c <= Z.of_nat i ->
  uadd 64 at_ (len c) = Done (at_ + len c) /\ Inv (sh <| read_counter := at_ + len c |>) p (succeed c).
Proof.
  intros HI Hpc Hi. pose proof (inv_consumer _ _ _ HI) as Hok. unfold consumer_ok in Hok. rewrite Hpc in Hok.
  destruct Hok as (-> & Hlen & Hcopied). destruct HI as [Hr Hw Hrc Hf Hc Hrec Hpend Hprod _].
  pose proof (pending_nonneg p). split; [apply uadd_small; lia|].
  assert (moved (succeed c) = moved c ++ buf (op c)) as Hm by (apply moved_succeed; by rewrite Hpc).
  assert (len c = Z.of_nat (length (buf (op c)))) as Hl by done.
  split; rewrite ?Hm; try done; cbn [write_counter read_counter ring set_field].
  - rewrite length_app. lia.
  - lia.
  - intros q Hq. apply Hc. lia.
  - rewrite length_app, <- take_take_drop, <- Hrec. f_equal. apply list_eq. intros k.
    destruct (decide (k < length (buf (op c)))%nat).
    + rewrite lookup_take_lt, lookup_drop, Hcopied by lia. f_equal. lia.
    + rewrite lookup_take_ge, lookup_ge_None_2 by lia. done.
  - unfold producer_ok in *. destruct (pc p); cbn; try done; try lia.
    destruct Hprod as (? & ? & ?). split; [done|]. split; [lia|done].
  - unfold consumer_ok, Fmq.succeed. by destruct (blocking (op c) && flagged).
Qed.

Lemma consumer_step answer sh p c sh' c' :
  Inv sh p c -> local_step size flagged Consumer answer sh c = Some (sh', c') -> Inv sh' p c'.
Proof.
  intros HI Hs. destruct (Copying_dec (pc c)) as [[[at_ i] Hpc]|Hc].
  - simpl in Hpc. unfold local_step in Hs. rewrite Hpc in Hs. destruct (Z.ltb_spec (Z.of_nat i) (len c)) as [Hi|Hi].
    + destruct (Inv_consume sh p c at_ i HI Hpc Hi) as (sh1 & c1 & Hcopy & HI'). rewrite Hcopy in Hs.
      by injection Hs as <- <-.
    + destruct (Inv_consumed sh p c at_ i HI Hpc Hi) as [Hadd HI']. rewrite Hadd in Hs. by injection Hs as <- <-.
  - destruct (local_quiet _ _ _ _ _ _ Hs Hc) as ([w ->] & [Hm Hp] & Harr). apply Inv_word.
    apply (Inv_consumer _ _ c); [done..|]. pose proof (inv_consumer _ _ _ HI) as Hok. pose proof (inv_filled _ _ _ HI).
    unfold arrives in Harr. unfold consumer_ok in *. destruct (pc c') as [| |w'| |at_ i| | | | | |]; try done.
    + lia.
    + destruct Harr as (w' & Hpc & Hlen). rewrite Hpc in Hok.
      unfold available in Hlen. rewrite (Inv_counters _ _ _ _ HI) in Hlen by lia. lia.
    + destruct Harr as (Hpc & -> & -> & ->). rewrite Hpc in Hok. split; [done|]. split; [|lia]. unfold len in *. simpl. lia.
Qed.

(** *** Runs *)

Definition Inv_state (s : State) : Prop := Inv (shared s) (producer s) (consumer s).

Lemma wake_other_cases side before t :
  wake_other side before t = t \/ (pc t = Asleep false /\ wake_other side before t = t <| pc := Asleep true |>).
Proof.
  unfold wake_other. destruct (pc before); auto. destruct (pc t) as [| | | | | | | | |[]|]; auto.
  destruct (reaches _ _); auto.
Qed.

Lemma step_inv side answer s s' : Inv_state s -> step size flagged side answer s = Some s' -> Inv_state s'.
Proof.
  intros HI ((sh & t) & Hl & [= <-])%bind_Some. unfold Inv_state in *.
  destruct s as [sh0 p c], side; cbn in *.
  - apply (producer_step _ _ _ _ _ _ HI) in Hl. destruct (wake_other_cases Producer p c) as [->|[Hpc ->]]; [done|].
    apply (Inv_consumer _ _ c); [done|apply moved_pc; by rewrite Hpc|done].
  - apply (consumer_step _ _ _ _ _ _ HI) in Hl. destruct (wake_other_cases Consumer c p) as [->|[Hpc ->]]; [done|].
    apply (Inv_producer _ p); [done|apply moved_pc; by rewrite Hpc|apply pending_pc; by rewrite Hpc|done].
Qed.

Lemma start_inv writes reads : sizes writes < 2 ^ 64 -> Inv_state (start size writes reads).
Proof.
  intros Hw. split; cbn; try done; try lia.
  - rewrite length_replicate. lia.
  - unfold pending. cbn. fold (sizes writes). lia.
Qed.

Lemma run_inv schedule s : Inv_state s -> Inv_state (run size flagged schedule s).
Proof.
  revert s. induction schedule as [|[side answer] schedule IH]; intros s HI; [done|]. apply IH.
  destruct (step size flagged side answer s) eqn:Hs; [by apply (step_inv side answer s)|done].
Qed.

(** C28: However the two sides of a queue interleave, access by access, and
    whatever the kernel answers to their waits: the bytes that the reads
    returned, then those between the read and the write counter in the ring,
    are the bytes written, in order, none lost, made up or overwritten; the
    ring never holds more than its size, and no side panics or leaves the
    ring. *)
Theorem queue_is_fifo writes reads s :
  sizes writes < 2 ^ 64 -> reached size flagged writes reads s ->
  exists contents,
    moved (producer s) = moved (consumer s) ++ contents /\ Z.of_nat (length contents) <= size /\
    (forall i, (i < length contents)%nat ->
       ring (shared s) !! slot (read_counter (shared s) + Z.of_nat i) = contents !! i) /\
    pc (producer s) <> Stopped /\ pc (consumer s) <> Stopped.
Proof.
  intros Hw [schedule ->]. set (s := run _ _ _ _).
  assert (Inv_state s) as HI by by apply run_inv, start_inv. destruct HI as [_ Hwc Hrc Hf Hc Hrec _ Hp Hcn].
  exists (drop (length (moved (consumer s))) (moved (producer s))). split_and!.
  - rewrite Hrec at 1. by rewrite take_drop.
  - rewrite length_drop. lia.
  - intros i Hi. rewrite length_drop in Hi. rewrite Hc, lookup_drop by lia. f_equal. lia.
  - intros Hpc. unfold producer_ok in Hp. by rewrite Hpc in Hp.
  - intros Hpc. unfold consumer_ok in Hcn. by rewrite Hpc in Hcn.
Qed.

End fifo.

(** ** Wakeups *)

(** A side's bit of the event flag word. *)
Definition flag_of (side : Side) (word : Z) : bool :=
  Z.testbit word (match side with Producer => 0 | Consumer => 1 end).

Lemma waits_for_bit side : waits_for side = 2 ^ (match side with Producer => 0 | Consumer => 1 end).
Proof. by destruct side. Qed.

Lemma land_flag side word : (Z.land word (waits_for side) =? 0) = negb (flag_of side word).
Proof.
  unfold flag_of. rewrite waits_for_bit. set (k := match side with Producer => 0 | Consumer => 1 end).
  assert (0 <= k) by by destruct side. destruct (Z.testbit word k) eqn:Hb; simpl.
  - apply Z.eqb_neq. intros Heq. apply (f_equal (fun z => Z.testbit z k)) in Heq.
    rewrite Z.land_spec, Z.pow2_bits_true, Hb, Z.bits_0 in Heq by done. done.
  - apply Z.eqb_eq, Z.bits_inj'. intros i Hi. rewrite Z.land_spec, Z.bits_0, Z.pow2_bits_eqb by done.
    destruct (Z.eqb_spec k i) as [<-|]; [by rewrite Hb|apply andb_false_r].
Qed.

Lemma ldiff_flag side word : (Z.ldiff (wakes_with side) word =? 0) = flag_of (other side) word.
Proof.
  unfold flag_of, wakes_with. rewrite waits_for_bit. set (k := match other side with Producer => 0 | Consumer => 1 end).
  assert (0 <= k) by by destruct side. destruct (Z.testbit word k) eqn:Hb; simpl.
  - apply Z.eqb_eq, Z.bits_inj'. intros i Hi. rewrite Z.ldiff_spec, Z.bits_0, Z.pow2_bits_eqb by done.
    destruct (Z.eqb_spec k i) as [<-|]; [by rewrite Hb|done].
  - apply Z.eqb_neq. intros Heq. apply (f_equal (fun z => Z.testbit z k)) in Heq.
    rewrite Z.ldiff_spec, Z.pow2_bits_true, Hb, Z.bits_0 in Heq by done. done.
Qed.

Lemma flag_lor_same side word : flag_of side (Z.lor word (waits_for side)) = true.
Proof. unfold flag_of. rewrite Z.lor_spec. destruct side; apply orb_true_r. Qed.
Lemma flag_lor_other side word : flag_of (other side) (Z.lor word (waits_for side)) = flag_of (other side) word.
Proof. unfold flag_of. rewrite Z.lor_spec. destruct side; apply orb_false_r. Qed.
Lemma flag_ldiff_same side word : flag_of side (Z.ldiff word (waits_for side)) = false.
Proof. unfold flag_of. rewrite Z.ldiff_spec. destruct side; apply andb_false_r. Qed.
Lemma flag_ldiff_other side word : flag_of (other side) (Z.ldiff word (waits_for side)) = flag_of (other side) word.
Proof. unfold flag_of. rewrite Z.ldiff_spec. destruct side; apply andb_true_r. Qed.

Section wakeups.
Context `{Env} `{FutexLaws}.
Variable size : Z.
Hypothesis Hsize : 0 < size.

Abbreviation local_step := (local_step size true).
Abbreviation step := (step size true).

(** The bytes or the room that a side's call needs are there. *)
Definition enough (side : Side) (sh : Shared) (t : Thread) : Prop :=
  let filled := write_counter sh - read_counter sh in
  len t <= match side with Producer => size - filled | Consumer => filled end.

(** A side's bit is set, or the other side is about to set it. *)
Definition signalled (side : Side) (sh : Shared) (o : Thread) : Prop :=
  flag_of side (word sh) = true \/ pc o = WakeOr.

(** A side that waits although it could go on has been signalled; and when it
    sleeps on a bit that was set since, its wake is on the way. *)
Definition Wake (side : Side) (sh : Shared) (t o : Thread) : Prop :=
  match pc t with
  | LoadRead w => side = Consumer -> w < write_counter sh -> signalled side sh o
  | WaitAnd => enough side sh t -> signalled side sh o
  | WaitCall e => flag_of side e = false /\ (enough side sh t -> signalled side sh o)
  | Asleep woken =>
      (enough side sh t -> signalled side sh o) /\
      (woken = false -> flag_of side (word sh) = true -> pc o = WakeCall)
  | _ => True
  end.

(** Every call blocks. *)
Definition Blocking (t : Thread) : Prop :=
  (pc t <> Idle -> blocking (op t) = true) /\ Forall (fun o => blocking o = true) (todo t).

Lemma copy_byte_frame side at_ i sh t sh' t' :
  copy_byte size side at_ i sh t = Some (sh', t') ->
  (write_counter sh' = write_counter sh /\ read_counter sh' = read_counter sh /\ word sh' = word sh) /\
  (todo t' = todo t /\ blocking (op t') = blocking (op t) /\ len t' = len t /\ log t' = log t).
Proof.
  unfold copy_byte. destruct side.
  - intros (b & _ & Hc)%bind_Some. case_decide; [|done]. by injection Hc as <- <-.
  - intros (b & _ & Hc)%bind_Some. injection Hc as <- <-. split; [done|]. split_and!; try done.
    unfold len. cbn. by rewrite length_insert.
Qed.

(** What stays during a call. *)
Lemma local_step_op side answer sh t sh' t' :
  local_step side answer sh t = Some (sh', t') -> pc t <> Idle ->
  todo t' = todo t /\ blocking (op t') = blocking (op t) /\ len t' = len t.
Proof.
  intros Hs Hpc. unfold Fmq.local_step in Hs.
  destruct (pc t) as [| |w| |at_ i| | | |e|woken|] eqn:Hpc'; try done; try (by injection Hs as <- <-).
  - injection Hs as <- <-. unfold retry. by repeat case_match.
  - destruct (_ <? _).
    + destruct (copy_byte size side at_ i sh t) as [[sh1 t1]|] eqn:Hc; [|by injection Hs as <- <-].
      injection Hs as <- <-. by destruct (copy_byte_frame _ _ _ _ _ _ _ Hc) as (_ & ? & ? & ? & _).
    + destruct (uadd _ _ _); injection Hs as <- <-; unfold succeed; by repeat case_match.
  - injection Hs as <- <-. by destruct (_ =? 0).
  - destruct answer; by injection Hs as <- <-.
  - destruct answer; [destruct woken; [|done]| |]; by injection Hs as <- <-.
Qed.

Lemma Blocking_step side answer sh t sh' t' :
  Blocking t -> local_step side answer sh t = Some (sh', t') -> Blocking t'.
Proof.
  intros [Hb Htodo] Hs. destruct (decide (pc t = Idle)) as [Hpc|Hpc]; cycle 1.
  { destruct (local_step_op _ _ _ _ _ _ Hs Hpc) as (Ht & Ho & _). split; [intros _; rewrite Ho; auto|by rewrite Ht]. }
  unfold Fmq.local_step in Hs. rewrite Hpc in Hs. destruct (todo t) as [|o rest]; [done|].
  apply list.Forall_cons in Htodo as [Ho Hrest]. injection Hs as <- <-.
  destruct (_ =? 0); [|by split]. unfold succeed. cbn. rewrite Ho. by split.
Qed.

(** The comparison that sends a side to wait. *)
Lemma short_side side sh p c w :
  Inv size sh p c -> let t := match side with Producer => p | Consumer => c end in
  pc t = LoadRead w -> available size side w (read_counter sh) < len t -> enough side sh t ->
  side = Consumer /\ w < write_counter sh.
Proof.
  intros HI t Hpc Hav Hen. pose proof (inv_filled _ _ _ _ HI). destruct side; cbn in *.
  - pose proof (inv_producer _ _ _ _ HI) as Hok. unfold producer_ok in Hok. unfold t in *. rewrite Hpc in Hok. subst w.
    unfold available, available_to_write in Hav. rewrite (Inv_counters _ _ _ _ _ HI) in Hav by lia.
    unfold saturating_sub, enough in *. lia.
  - pose proof (inv_consumer _ _ _ _ HI) as Hok. unfold consumer_ok in Hok. unfold t in *. rewrite Hpc in Hok.
    unfold available in Hav. rewrite (Inv_counters _ _ _ _ _ HI) in Hav by lia. unfold enough in Hen. split; [done|]. lia.
Qed.

(** A side's own step. *)
Lemma Wake_own side answer sh t o sh' t' :
  Wake side sh t o -> Blocking t ->
  (forall w, pc t = LoadRead w -> available size side w (read_counter sh) < len t -> enough side sh t ->
     side = Consumer /\ w < write_counter sh) ->
  local_step side answer sh t = Some (sh', t') -> Wake side sh' t' o.
Proof.
  intros HW [Hb _] Hshort Hs. unfold Fmq.local_step in Hs. unfold Wake in HW.
  destruct (pc t) as [| |w| |at_ i| | | |e|woken|] eqn:Hpc; [..|done].
  - destruct (todo t) as [|o' rest]; [done|]. injection Hs as <- <-. unfold succeed, Wake. by repeat case_match.
  - injection Hs as <- <-. cbn. lia.
  - injection Hs as <- <-. unfold retry. rewrite Hb by done. destruct (Z.ltb_spec (available size side w (read_counter sh)) (len t)); [|done].
    intros Hen. destruct (Hshort w eq_refl ltac:(done) Hen). by apply HW.
  - injection Hs as <- <-. unfold Wake. cbn. by destruct (_ =? 0).
  - destruct (_ <? _).
    + destruct (copy_byte _ _ _ _ _ _) as [[sh1 t1]|]; by injection Hs as <- <-.
    + destruct (uadd _ _ _); injection Hs as <- <-; try done. unfold succeed. by rewrite Hb.
  - injection Hs as <- <-. by destruct (_ =? 0).
  - by injection Hs as <- <-.
  - injection Hs as <- <-. rewrite land_flag. unfold Wake. cbn. destruct (flag_of side (word sh)) eqn:Hf; [done|]. cbn.
    split; [apply flag_ldiff_same|]. intros Hen. destruct (HW Hen) as [Hs|Hs]; [congruence|by right].
  - destruct HW as [He HW]. destruct answer; injection Hs as <- <-; try done. unfold Wake. cbn.
    destruct (sleeps (word sh) e) eqn:Hsl; [|done]. apply sleeps_expected in Hsl. subst e. split; [done|congruence].
  - destruct HW as [HW _]. destruct answer; [destruct woken; [|done]| |]; by injection Hs as <- <-.
Qed.
(** The other side's step, when it neither stores its counter nor wakes. *)
Lemma Wake_frame side sh sh' t o o' :
  Wake side sh t o -> pc o <> WakeOr -> pc o <> WakeCall ->
  write_counter sh' = write_counter sh -> read_counter sh' = read_counter sh ->
  flag_of side (word sh') = flag_of side (word sh) -> Wake side sh' t o'.
Proof.
  intros HW Ho1 Ho2 Hw Hr Hf.
  assert (forall P : Prop, (P -> signalled side sh o) -> P -> signalled side sh' o') as Hsig.
  { intros P HP HP'. destruct (HP HP') as [?|?]; [left; congruence|done]. }
  unfold Wake, enough in *. rewrite Hw, Hr, Hf.
  destruct (pc t); try done; eauto.
  - destruct HW as [He HW]. split; [done|]. eauto.
  - destruct HW as [HW Hwoken]. split; [eauto|]. intros ? ?. destruct Ho2. auto.
Qed.

Lemma Wake_other side answer sh t o sh' t' :
  Wake (other side) sh o t -> Blocking t -> local_step side answer sh t = Some (sh', t') ->
  Wake (other side) sh' (wake_other side t o) t'.
Proof.
  intros HW [Hb _] Hs. unfold Fmq.local_step in Hs. unfold wake_other.
  destruct (pc t) as [| |w| |at_ i| | | |e|woken|] eqn:Hpc; [..|done].
  - destruct (todo t); [done|]. injection Hs as <- <-. eapply Wake_frame; try done; by rewrite Hpc.
  - injection Hs as <- <-. eapply Wake_frame; try done; by rewrite Hpc.
  - injection Hs as <- <-. eapply Wake_frame; try done; by rewrite Hpc.
  - injection Hs as <- <-. eapply Wake_frame; try done; by rewrite Hpc.
  - destruct (_ <? _).
    + destruct (copy_byte size side at_ i sh t) as [[sh1 t1]|] eqn:Hc; injection Hs as <- <-.
      * apply copy_byte_frame in Hc as ((? & ? & ?) & _). eapply Wake_frame; try done; [by rewrite Hpc..|congruence].
      * eapply Wake_frame; try done; by rewrite Hpc.
    + destruct (uadd 64 at_ (len t)) as [v| |]; injection Hs as <- <-; [|eapply Wake_frame; try done; by rewrite Hpc..].
      assert (pc (succeed true t) = WakeOr) as Hp by (unfold succeed; by rewrite Hb).
      unfold Wake in *. rewrite Hpc in HW. assert (word (set_own side v sh) = word sh) as -> by by destruct side.
      destruct (pc o); try done; try (intros; by right).
      * split; [apply HW|by right].
      * destruct HW as [_ HW]. split; [by right|]. intros Hw Hf. by specialize (HW Hw Hf).
  - injection Hs as <- <-. rewrite ldiff_flag. unfold Wake in *. rewrite Hpc in HW.
    assert (flag_of (other side) (Z.lor (word sh) (wakes_with side)) = true) as Hf.
    { apply flag_lor_same. }
    destruct (pc o); cbn; try done; try (intros; by left).
    + split; [apply HW|by left].
    + destruct HW as [_ HW]. split; [by left|]. intros Hw _. destruct (flag_of (other side) (word sh)) eqn:Hold; [|done].
      by specialize (HW Hw eq_refl).
  - injection Hs as <- <-. unfold Wake, signalled in *. rewrite Hpc in HW.
    assert (forall P : Prop, (P -> flag_of (other side) (word sh) = true \/ WakeCall = WakeOr) -> P ->
      flag_of (other side) (word sh) = true \/ pc (finish true t) = WakeOr) as Hsig.
    { intros P HP HP'. destruct (HP HP'); [by left|done]. }
    destruct (pc o) as [| | | | | | | |e|woken|] eqn:Ho; rewrite ?Ho; try done; eauto.
    + destruct HW as [? HW]. split; [done|eauto].
    + destruct HW as [HW _]. destruct woken; rewrite ?Ho; [by split; eauto|].
      rewrite reaches_shared by by destruct side. cbn. by split; eauto.
  - injection Hs as <- <-. eapply Wake_frame; try done; [by rewrite Hpc..|].
    apply flag_ldiff_other.
  - destruct answer; injection Hs as <- <-; (eapply Wake_frame; try done; by rewrite Hpc).
  - destruct answer; [destruct woken; [|done]| |]; injection Hs as <- <-; (eapply Wake_frame; try done; by rewrite Hpc).
Qed.
Lemma Wake_woken side sh t o side' before : Wake side sh t o -> Wake side sh t (wake_other side' before o).
Proof.
  intros HW. destruct (wake_other_cases side' before o) as [->|[Hpc ->]]; [done|].
  unfold Wake, signalled in *. rewrite Hpc in HW. destruct (pc t); naive_solver.
Qed.

Lemma Blocking_woken side before t : Blocking t -> Blocking (wake_other side before t).
Proof.
  intros [Hb Ht]. destruct (wake_other_cases side before t) as [->|[Hpc ->]]; [done|].
  split; [|done]. intros _. apply Hb. by rewrite Hpc.
Qed.

Record WInv (s : State) : Prop := mkWInv {
  w_inv : Inv_state size s;
  w_producer : Blocking (producer s);
  w_consumer : Blocking (consumer s);
  w_wake_producer : Wake Producer (shared s) (producer s) (consumer s);
  w_wake_consumer : Wake Consumer (shared s) (consumer s) (producer s);
}.

Lemma WInv_step side answer s s' : WInv s -> step side answer s = Some s' -> WInv s'.
Proof.
  intros [HI Hp Hc HWp HWc] Hs. pose proof (step_inv size true Hsize _ _ _ _ HI Hs) as HI'.
  apply bind_Some in Hs as ((sh & t) & Hl & [= <-]). destruct s as [sh0 p c], side.
  - split; [done|exact (Blocking_step _ _ _ _ _ _ Hp Hl)|exact (Blocking_woken _ _ _ Hc)| |].
    + apply Wake_woken, (Wake_own Producer answer sh0 p c _ _ HWp Hp); [|exact Hl].
      intros w. apply (short_side Producer sh0 p c w HI).
    + exact (Wake_other Producer answer sh0 p c _ _ HWc Hp Hl).
  - split; [done|exact (Blocking_woken _ _ _ Hp)|exact (Blocking_step _ _ _ _ _ _ Hc Hl)| |].
    + exact (Wake_other Consumer answer sh0 c p _ _ HWp Hc Hl).
    + apply Wake_woken, (Wake_own Consumer answer sh0 c p _ _ HWc Hc); [|exact Hl].
      intros w. apply (short_side Consumer sh0 p c w HI).
Qed.

Lemma WInv_start writes reads :
  sizes writes < 2 ^ 64 -> Forall (fun o => blocking o = true) writes -> Forall (fun o => blocking o = true) reads ->
  WInv (start size writes reads).
Proof. intros. split; cbn; try done. by apply start_inv. Qed.

Lemma WInv_reached writes reads s :
  sizes writes < 2 ^ 64 -> Forall (fun o => blocking o = true) writes -> Forall (fun o => blocking o = true) reads ->
  reached size true writes reads s -> WInv s.
Proof.
  intros Hw Hbw Hbr [schedule ->]. pose proof (WInv_start writes reads Hw Hbw Hbr) as HI. revert HI.
  generalize (start size writes reads). induction schedule as [|[side answer] schedule IH]; intros s HI; [done|].
  apply IH. destruct (step side answer s) eqn:Hs; [by eapply WInv_step|done].
Qed.

(** No wakeup is lost: whenever a side of a queue in which both sides use
    the blocking calls sleeps in the futex with no wake on its way to it, and
    the other side is not about to send one, the bytes or the room that the
    sleeper needs are not there. *)
Theorem no_lost_wakeup writes reads s side :
  sizes writes < 2 ^ 64 -> Forall (fun o => blocking o = true) writes -> Forall (fun o => blocking o = true) reads ->
  reached size true writes reads s ->
  pc (thread side s) = Asleep false ->
  pc (thread (other side) s) <> WakeOr -> pc (thread (other side) s) <> WakeCall ->
  ~ enough side (shared s) (thread side s).
Proof.
  intros Hw Hbw Hbr Hs Hpc Ho1 Ho2 Hen. destruct (WInv_reached writes reads s Hw Hbw Hbr Hs) as [_ _ _ HWp HWc].
  assert (Wake side (shared s) (thread side s) (thread (other side) s)) as HW by by destruct side.
  unfold Wake in HW. rewrite Hpc in HW. destruct HW as [HW Hcall]. destruct (HW Hen) as [Hf|]; [|done]. auto.
Qed.
(** ** Progress *)

(** Steps in which the kernel interrupts no wait. *)
Inductive steps : nat -> State -> State -> Prop :=
| steps_refl s : steps 0 s s
| steps_step n side s s1 s2 : step side Normal s = Some s1 -> steps n s1 s2 -> steps (S n) s s2.

Definition cost (t : Thread) : Z := len t + 14.

(** What is left for a side to do. *)
Definition pc_weight (word : Z) (t : Thread) : Z :=
  match pc t with
  | Idle | Stopped => 0
  | LoadWrite => cost t + 2
  | LoadRead _ => cost t + 1
  | LoadOwn => cost t
  | Copying _ i => cost t - 1 - Z.of_nat i
  | WakeOr => 12
  | WakeCall => 4
  | WaitAnd => cost t
  | WaitCall e => if word =? e then cost t - 1 else cost t + 1
  | Asleep woken => if woken then cost t + 1 else cost t - 2
  end.

Definition todo_weight (ops : list Op) : Z := foldr (fun o n => Z.of_nat (length (buf o)) + 17 + n) 0 ops.
Definition weight (word : Z) (t : Thread) : Z := todo_weight (todo t) + pc_weight word t.

Definition flags_weight (word : Z) : Z := 5 * (Z.b2z (flag_of Producer word) + Z.b2z (flag_of Consumer word)).

Definition measure (s : State) : Z :=
  weight (word (shared s)) (producer s) + weight (word (shared s)) (consumer s) + flags_weight (word (shared s)).

(** The other side's part grows by what a change of the word gives it. *)
Lemma weight_word word word' t : weight word' t <= weight word t + 2.
Proof. unfold weight, pc_weight. destruct (pc t); try lia. repeat case_match; lia. Qed.

Lemma flags_weight_side side word :
  flags_weight word = 5 * (Z.b2z (flag_of side word) + Z.b2z (flag_of (other side) word)).
Proof. unfold flags_weight. destruct side; cbn [other]; lia. Qed.

Lemma flags_set side word :
  flag_of side word = false -> flags_weight (Z.lor word (waits_for side)) = flags_weight word + 5.
Proof. intros Hf. rewrite !(flags_weight_side side), flag_lor_same, flag_lor_other, Hf. cbn [Z.b2z]. lia. Qed.

Lemma flags_clear side word :
  flag_of side word = true -> flags_weight (Z.ldiff word (waits_for side)) = flags_weight word - 5.
Proof. intros Hf. rewrite !(flags_weight_side side), flag_ldiff_same, flag_ldiff_other, Hf. cbn [Z.b2z]. lia. Qed.

Lemma lor_same side word : flag_of side word = true -> Z.lor word (waits_for side) = word.
Proof.
  unfold flag_of. rewrite waits_for_bit. intros Hf. apply Z.bits_inj'. intros i Hi.
  rewrite Z.lor_spec, Z.pow2_bits_eqb by by destruct side.
  destruct (Z.eqb_spec (match side with Producer => 0 | Consumer => 1 end) i) as [<-|].
  - by rewrite Hf.
  - apply orb_false_r.
Qed.

Lemma ldiff_same side word : flag_of side word = false -> Z.ldiff word (waits_for side) = word.
Proof.
  unfold flag_of. rewrite waits_for_bit. intros Hf. apply Z.bits_inj'. intros i Hi.
  rewrite Z.ldiff_spec, Z.pow2_bits_eqb by by destruct side.
  destruct (Z.eqb_spec (match side with Producer => 0 | Consumer => 1 end) i) as [<-|].
  - by rewrite Hf.
  - apply andb_true_r.
Qed.

Lemma weight_pc word q t :
  weight word (t <| pc := q |>) = todo_weight (todo t) + pc_weight word (t <| pc := q |>).
Proof. done. Qed.

Lemma weight_finish word r t : weight word (finish r t) = todo_weight (todo t).
Proof. change (todo_weight (todo t) + 0 = todo_weight (todo t)). lia. Qed.

Lemma weight_succeed word t : weight word (succeed true t) <= todo_weight (todo t) + 12.
Proof. unfold succeed. case_match; [done|]. rewrite weight_finish. lia. Qed.

Lemma weight_retry word t : weight word (retry true t) <= todo_weight (todo t) + cost t.
Proof. unfold retry. case_match; [done|]. rewrite weight_finish. unfold cost, len. lia. Qed.

(** A step that leaves the word and does not wake. *)
Local Ltac weigh Hpc := unfold weight, pc_weight, cost, len; rewrite ?Hpc; simpl; lia.

(** Each step takes something off. *)
Lemma local_step_weight side sh t o sh' t' :
  (forall at_ i, pc t = Copying at_ i -> Z.of_nat i <= len t) ->
  local_step side Normal sh t = Some (sh', t') ->
  weight (word sh') t' + weight (word sh') (wake_other side t o) + flags_weight (word sh') <
  weight (word sh) t + weight (word sh) o + flags_weight (word sh).
Proof.
  intros Hcop Hs. unfold Fmq.local_step in Hs. unfold wake_other.
  destruct (pc t) as [| |w| |at_ i| | | |e|woken|] eqn:Hpc; [..|done].
  - destruct (todo t) as [|op' rest] eqn:Htodo; [done|]. injection Hs as <- <-.
    set (t1 := mkThread LoadWrite op' rest (log t)).
    assert (weight (word sh) t = todo_weight rest + len t1 + 17) as ->.
    { unfold weight, pc_weight. rewrite Hpc, Htodo. cbn. fold (todo_weight rest). unfold len. cbn. lia. }
    assert (weight (word sh) (if len t1 =? 0 then succeed true t1 else t1) <= todo_weight rest + len t1 + 16); [|lia].
    assert (0 <= len t1) by (unfold len; lia).
    case_match; [pose proof (weight_succeed (word sh) t1) as Hw; change (todo t1) with rest in Hw; lia|].
    change (todo_weight rest + (len t1 + 14 + 2) <= todo_weight rest + len t1 + 16). lia.
  - injection Hs as <- <-. assert (weight (word sh) (t <| pc := LoadRead (write_counter sh) |>) < weight (word sh) t) by weigh Hpc. lia.
  - injection Hs as <- <-. assert (weight (word sh) t = todo_weight (todo t) + cost t + 1) as -> by weigh Hpc.
    case_match; [pose proof (weight_retry (word sh) t); lia|].
    assert (weight (word sh) (t <| pc := LoadOwn |>) = todo_weight (todo t) + cost t) as -> by done. lia.
  - injection Hs as <- <-. assert (weight (word sh) t = todo_weight (todo t) + cost t) as -> by weigh Hpc.
    case_match; [weigh Hpc|]. weigh Hpc.
  - assert (weight (word sh) t = todo_weight (todo t) + (cost t - 1 - Z.of_nat i)) as -> by weigh Hpc.
    destruct (Z.ltb_spec (Z.of_nat i) (len t)) as [Hi|Hi].
    + destruct (copy_byte size side at_ i sh t) as [[sh1 t1]|] eqn:Hc; injection Hs as <- <-.
      * apply copy_byte_frame in Hc as ((_ & _ & ->) & Ht & _ & Hl & _). unfold weight at 1, pc_weight, cost.
        change (todo (t1 <| pc := Copying at_ (S i) |>)) with (todo t1). rewrite Ht.
        change (len (t1 <| pc := Copying at_ (S i) |>)) with (len t1). rewrite Hl. cbn [pc]. unfold cost in *. simpl pc. cbv iota. lia.
      * assert (weight (word sh) (t <| pc := Stopped |>) = todo_weight (todo t) + 0) as -> by done. unfold cost. lia.
    + specialize (Hcop at_ i eq_refl). destruct (uadd 64 at_ (len t)) as [v| |]; injection Hs as <- <-.
      * assert (word (set_own side v sh) = word sh) as -> by by destruct side.
        pose proof (weight_succeed (word sh) t). unfold cost. lia.
      * assert (weight (word sh) (t <| pc := Stopped |>) = todo_weight (todo t) + 0) as -> by done. unfold cost. lia.
      * assert (weight (word sh) (t <| pc := Stopped |>) = todo_weight (todo t) + 0) as -> by done. unfold cost. lia.
  - injection Hs as <- <-. rewrite ldiff_flag. assert (weight (word sh) t = todo_weight (todo t) + 12) as -> by weigh Hpc.
    cbn [word set_field]. unfold wakes_with. destruct (flag_of (other side) (word sh)) eqn:Hf.
    + rewrite lor_same, weight_finish by done. lia.
    + rewrite flags_set by done. pose proof (weight_word (word sh) (Z.lor (word sh) (waits_for (other side))) o).
      assert (weight (Z.lor (word sh) (waits_for (other side))) (t <| pc := WakeCall |>) = todo_weight (todo t) + 4) as -> by done.
      lia.
  - injection Hs as <- <-. rewrite weight_finish. assert (weight (word sh) t = todo_weight (todo t) + 4) as -> by weigh Hpc.
    destruct (pc o) as [| | | | | | | | |[]|] eqn:Ho; try lia. destruct (reaches _ _); [|lia].
    assert (weight (word sh) (o <| pc := Asleep true |>) = weight (word sh) o + 3) as -> by weigh Ho. lia.
  - injection Hs as <- <-. rewrite land_flag. assert (weight (word sh) t = todo_weight (todo t) + cost t) as -> by weigh Hpc.
    cbn [word set_field]. destruct (flag_of side (word sh)) eqn:Hf; cbn [negb].
    + rewrite flags_clear by done. pose proof (weight_word (word sh) (Z.ldiff (word sh) (waits_for side)) o).
      assert (weight (Z.ldiff (word sh) (waits_for side)) (t <| pc := LoadWrite |>) = todo_weight (todo t) + (cost t + 2)) as -> by done.
      lia.
    + rewrite ldiff_same by done. unfold weight at 1, pc_weight. simpl pc. cbv iota. rewrite Z.eqb_refl.
      change (cost (t <| pc := WaitCall (word sh) |>)) with (cost t).
      change (todo (t <| pc := WaitCall (word sh) |>)) with (todo t). lia.
  - injection Hs as <- <-. destruct (sleeps (word sh) e) eqn:Hsl.
    + apply sleeps_expected in Hsl as <-. unfold weight at 1 3, pc_weight. rewrite Hpc, Z.eqb_refl. simpl pc. cbv iota.
      change (cost (t <| pc := Asleep false |>)) with (cost t). change (todo (t <| pc := Asleep false |>)) with (todo t). lia.
    + assert (word sh <> e) as Hne by (rewrite <- sleeps_expected; congruence). apply Z.eqb_neq in Hne.
      unfold weight at 1 3, pc_weight. rewrite Hpc, Hne. simpl pc. cbv iota.
      change (cost (t <| pc := WaitAnd |>)) with (cost t). change (todo (t <| pc := WaitAnd |>)) with (todo t). lia.
  - destruct woken; [|done]. injection Hs as <- <-.
    assert (weight (word sh) t = weight (word sh) (t <| pc := WaitAnd |>) + 1) as -> by weigh Hpc. lia.
Qed.
Lemma step_measure side s s' : Inv_state size s -> step side Normal s = Some s' -> measure s' < measure s.
Proof.
  intros HI ((sh & t) & Hl & [= <-])%bind_Some.
  assert (forall at_ i, pc (thread side s) = Copying at_ i -> Z.of_nat i <= len (thread side s)) as Hcop.
  { intros at_ i Hpc. destruct side.
    - pose proof (inv_producer _ _ _ _ HI) as Hok. unfold producer_ok in Hok. simpl in Hpc. rewrite Hpc in Hok. apply Hok.
    - pose proof (inv_consumer _ _ _ _ HI) as Hok. unfold consumer_ok in Hok. simpl in Hpc. rewrite Hpc in Hok. apply Hok. }
  pose proof (local_step_weight side (shared s) _ (thread (other side) s) _ _ Hcop Hl) as Hw.
  unfold measure. destruct side; cbn [thread other set_thread] in *.
  - exact Hw.
  - change (weight (word sh) (wake_other Consumer (consumer s) (producer s)) + weight (word sh) t +
      flags_weight (word sh) < weight (word (shared s)) (producer s) + weight (word (shared s)) (consumer s) +
      flags_weight (word (shared s))). lia.
Qed.

Lemma weight_nonneg word t : (forall at_ i, pc t = Copying at_ i -> Z.of_nat i <= len t) -> 0 <= weight word t.
Proof.
  intros Hcop. assert (0 <= todo_weight (todo t)).
  { generalize (todo t). intros ops. induction ops as [|o ops IH]; cbn; [lia|]. fold (todo_weight ops). lia. }
  unfold weight, pc_weight, cost. assert (0 <= len t) by (unfold len; lia).
  destruct (pc t) as [| |w| |at_ i| | | |e|woken|]; try lia.
  - specialize (Hcop at_ i eq_refl). lia.
  - case_match; lia.
  - case_match; lia.
Qed.

Lemma measure_nonneg s : Inv_state size s -> 0 <= measure s.
Proof.
  intros HI. unfold measure, flags_weight.
  assert (0 <= weight (word (shared s)) (producer s)).
  { apply weight_nonneg. intros at_ i Hpc. pose proof (inv_producer _ _ _ _ HI) as Hok.
    unfold producer_ok in Hok. rewrite Hpc in Hok. apply Hok. }
  assert (0 <= weight (word (shared s)) (consumer s)).
  { apply weight_nonneg. intros at_ i Hpc. pose proof (inv_consumer _ _ _ _ HI) as Hok.
    unfold consumer_ok in Hok. rewrite Hpc in Hok. apply Hok. }
  destruct (flag_of Producer _), (flag_of Consumer _); cbn [Z.b2z]; lia.
Qed.

Lemma steps_measure n s s' : Inv_state size s -> steps n s s' -> Inv_state size s' /\ Z.of_nat n + measure s' <= measure s.
Proof.
  intros HI Hn. induction Hn as [s|n side s s1 s2 Hs _ IH]; [split; [done|lia]|].
  pose proof (step_measure _ _ _ HI Hs). destruct (IH (step_inv size true Hsize _ _ _ _ HI Hs)). split; [done|]. lia.
Qed.

Lemma WInv_steps n s s' : WInv s -> steps n s s' -> WInv s'.
Proof. intros HI Hn. induction Hn as [|n side s s1 s2 Hs _ IH]; [done|]. apply IH. by eapply WInv_step. Qed.

(** *** Messages of one size *)

Section typed.
Variable quantum : nat.

Definition busy (t : Thread) : nat := if decide (pc t = Idle) then 0 else 1.

(** A side that makes [n] calls of one size, all of which succeed. *)
Record Typed (n : nat) (t : Thread) : Prop := mkTyped {
  ty_log : Forall (fun r => r.1 = true /\ length r.2 = quantum) (log t);
  ty_op : pc t <> Idle -> length (buf (op t)) = quantum;
  ty_todo : Forall (fun o => length (buf o) = quantum) (todo t);
  ty_count : (length (log t) + busy t + length (todo t))%nat = n;
}.

(** The messages of a producer, those sent, the one under way and the rest. *)
Definition messages (t : Thread) : list (list byte) :=
  (snd <$> log t) ++ (if decide (pc t = Idle) then [] else [buf (op t)]) ++ (buf <$> todo t).

(** How a call goes on or returns. *)
Lemma local_step_log side sh t sh' t' :
  Blocking t -> local_step side Normal sh t = Some (sh', t') -> pc t <> Idle ->
  (pc t' <> Idle /\ log t' = log t) \/ (pc t' = Idle /\ log t' = log t ++ [(true, buf (op t))]).
Proof.
  intros [Hb _] Hs Hpc. unfold Fmq.local_step in Hs.
  destruct (pc t) as [| |w| |at_ i| | | |e|woken|] eqn:Hpc'; try done.
  - injection Hs as <- <-. by left.
  - injection Hs as <- <-. unfold retry. rewrite Hb by done. left. by destruct (_ <? _).
  - injection Hs as <- <-. left. cbn. by destruct (_ =? _).
  - destruct (_ <? _).
    + destruct (copy_byte size side at_ i sh t) as [[sh1 t1]|] eqn:Hc; injection Hs as <- <-; [|by left].
      left. apply copy_byte_frame in Hc as (_ & _ & _ & _ & Hlog). by rewrite <- Hlog.
    + destruct (uadd _ _ _); injection Hs as <- <-; try (by left). unfold succeed. rewrite Hb by done. by left.
  - injection Hs as <- <-. destruct (_ =? 0); [by right|by left].
  - injection Hs as <- <-. by right.
  - injection Hs as <- <-. left. cbn. by destruct (_ =? 0).
  - injection Hs as <- <-. left. cbn. by destruct (sleeps _ _).
  - destruct woken; [|done]. injection Hs as <- <-. by left.
Qed.

Lemma Typed_step n side sh t sh' t' :
  Blocking t -> Typed n t -> local_step side Normal sh t = Some (sh', t') -> Typed n t'.
Proof.
  intros Hb [Hlog Hop Htodo Hn] Hs. unfold busy in Hn. destruct (decide (pc t = Idle)) as [Hpc|Hpc].
  - unfold Fmq.local_step in Hs. rewrite Hpc in Hs. destruct (todo t) as [|o rest] eqn:Ht; [done|].
    destruct Hb as [_ Hb]. rewrite Ht in Hb. apply list.Forall_cons in Hb as [Hb _].
    apply list.Forall_cons in Htodo as [Ho Hrest]. injection Hs as <- <-.
    destruct (_ =? 0); [unfold succeed; cbn; rewrite Hb|]; (split; cbn; try done);
      unfold busy; (rewrite decide_False by done); simpl in Hn; lia.
  - destruct (local_step_op _ _ _ _ _ _ Hs Hpc) as (Ht & _ & Hl). unfold len in Hl.
    destruct (local_step_log _ _ _ _ _ Hb Hs Hpc) as [[Hpc' Hlog']|[Hpc' Hlog']].
    + split; rewrite ?Hlog', ?Ht; try done; [intros _; specialize (Hop Hpc); lia|].
      unfold busy. rewrite decide_False by done. lia.
    + split; rewrite ?Hlog', ?Ht; try done.
      * apply Forall_app. split; [done|]. apply Forall_singleton. split; [done|by apply Hop].
      * unfold busy. rewrite decide_True, length_app by done. simpl. lia.
Qed.
Lemma Typed_woken n side before t : Typed n t -> Typed n (wake_other side before t).
Proof.
  intros [Hlog Hop Htodo Hn]. destruct (wake_other_cases side before t) as [->|[Hpc ->]]; [by split|].
  unfold busy in Hn. rewrite Hpc in Hn. split; try done. intros _. apply Hop. by rewrite Hpc.
Qed.

Lemma messages_step sh t sh' t' :
  Blocking t -> local_step Producer Normal sh t = Some (sh', t') -> messages t' = messages t.
Proof.
  intros Hb Hs. unfold messages. destruct (decide (pc t = Idle)) as [Hpc|Hpc].
  - unfold Fmq.local_step in Hs. rewrite Hpc in Hs. destruct (todo t) as [|o rest] eqn:Ht; [done|].
    destruct Hb as [_ Hb]. rewrite Ht in Hb. apply list.Forall_cons in Hb as [Hb _]. injection Hs as <- <-.
    destruct (_ =? 0); [unfold succeed; cbn; rewrite Hb|]; by rewrite decide_False.
  - destruct (local_step_op _ _ _ _ _ _ Hs Hpc) as (-> & _ & _).
    assert (buf (op t') = buf (op t)) as ->.
    { clear Hb. unfold Fmq.local_step in Hs. destruct (pc t) as [| |w| |at_ i| | | |e|woken|] eqn:Hpc'; try done;
        try (by injection Hs as <- <-).
      - injection Hs as <- <-. unfold retry. by repeat case_match.
      - destruct (_ <? _); cbn in Hs; [|destruct (uadd _ _ _); injection Hs as <- <-; unfold succeed; by repeat case_match].
        destruct (buf (op t) !! i); cbn in Hs; [case_decide|]; by injection Hs as <- <-.
      - injection Hs as <- <-. by destruct (_ =? 0).
      - destruct woken; [|done]. by injection Hs as <- <-. }
    destruct (local_step_log _ _ _ _ _ Hb Hs Hpc) as [[Hpc' ->]|[Hpc' ->]].
    + by rewrite decide_False.
    + rewrite decide_True by done. rewrite fmap_app, <- app_assoc. done.
Qed.

Lemma messages_woken side before t : messages (wake_other side before t) = messages t.
Proof.
  destruct (wake_other_cases side before t) as [->|[Hpc ->]]; [done|]. unfold messages. by rewrite Hpc.
Qed.

Definition TInv (n : nat) (msgs : list (list byte)) (s : State) : Prop :=
  Typed n (producer s) /\ Typed n (consumer s) /\ messages (producer s) = msgs.

Lemma TInv_step n msgs side s s' : WInv s -> TInv n msgs s -> step side Normal s = Some s' -> TInv n msgs s'.
Proof.
  intros [_ Hp Hc _ _] (HTp & HTc & Hm) ((sh & t) & Hl & [= <-])%bind_Some. destruct s as [sh0 p c], side.
  - split_and!; [exact (Typed_step _ _ _ _ _ _ Hp HTp Hl)|exact (Typed_woken _ _ _ _ HTc)|].
    rewrite <- Hm. exact (messages_step _ _ _ _ Hp Hl).
  - split_and!; [exact (Typed_woken _ _ _ _ HTp)|exact (Typed_step _ _ _ _ _ _ Hc HTc Hl)|].
    rewrite <- Hm. exact (messages_woken _ _ _).
Qed.

Lemma TInv_steps n msgs k s s' : WInv s -> TInv n msgs s -> steps k s s' -> TInv n msgs s'.
Proof.
  intros HW HT Hk. induction Hk as [|k side s s1 s2 Hs _ IH]; [done|].
  apply IH; [by eapply WInv_step|by eapply TInv_step].
Qed.

(** The bytes of a side's calls. *)
Lemma logged_typed n t : Typed n t -> logged t = concat (snd <$> log t).
Proof.
  intros [Hlog _ _ _]. unfold logged. induction Hlog as [|[r b] l [Hr _] _ IH]; [done|]. simpl in Hr. subst r.
  cbn [mbind list_bind fmap list_fmap concat fst snd]. by f_equal.
Qed.

Lemma concat_length_typed (l : list (list byte)) :
  Forall (fun b => length b = quantum) l -> length (concat l) = (length l * quantum)%nat.
Proof. induction 1 as [|b l Hb _ IH]; [done|]. cbn [concat length]. rewrite length_app, IH, Hb. lia. Qed.

Lemma concat_inj_typed (l l' : list (list byte)) :
  (0 < quantum)%nat -> Forall (fun b => length b = quantum) l -> Forall (fun b => length b = quantum) l' ->
  concat l = concat l' -> l = l'.
Proof.
  intros Hq Hl. revert l'. induction Hl as [|b l Hb _ IH]; intros [|b' l'] Hl' Heq; try done.
  - apply list.Forall_cons in Hl' as [Hb' _]. apply (f_equal length) in Heq. cbn in Heq. rewrite length_app in Heq. lia.
  - apply (f_equal length) in Heq. cbn in Heq. rewrite length_app in Heq. lia.
  - apply list.Forall_cons in Hl' as [Hb' Hl']. cbn in Heq. apply app_inj_1 in Heq as [-> Heq]; [|lia].
    f_equal. by apply IH.
Qed.
(** A side that cannot move. *)
Definition at_rest (t : Thread) : Prop := (pc t = Idle /\ todo t = []) \/ pc t = Asleep false.

Lemma stuck_thread side s :
  WInv s -> step side Normal s = None -> at_rest (thread side s).
Proof.
  intros [HI _ _ _ _] Hs. unfold Fmq.step in Hs.
  destruct (local_step side Normal (shared s) (thread side s)) as [[sh t]|] eqn:Hl; [done|]. clear Hs.
  unfold Fmq.local_step in Hl. destruct (pc (thread side s)) as [| |w| |at_ i| | | |e|[]|] eqn:Hpc; try done.
  - destruct (todo (thread side s)) eqn:Ht; [|done]. by left.
  - repeat case_match; done.
  - by right.
  - exfalso. destruct side; simpl in Hpc.
    + pose proof (inv_producer _ _ _ _ HI) as Hok. unfold producer_ok in Hok. by rewrite Hpc in Hok.
    + pose proof (inv_consumer _ _ _ _ HI) as Hok. unfold consumer_ok in Hok. by rewrite Hpc in Hok.
Qed.

(** How far a side at rest is. *)
Lemma rest_moved n t :
  Typed n t -> at_rest t -> moved t = concat (snd <$> log t) /\ length (moved t) = (length (log t) * quantum)%nat.
Proof.
  intros HT Hr. assert (moved t = concat (snd <$> log t)) as Hm.
  { unfold moved. rewrite (logged_typed _ _ HT). destruct Hr as [[-> _]| ->]; apply app_nil_r. }
  split; [done|]. rewrite Hm, concat_length_typed, length_fmap; [done|]. apply Forall_fmap.
  eapply list.Forall_impl; [exact (ty_log _ _ HT)|]. by intros r [_ ?].
Qed.

Lemma rest_wakes n side s :
  WInv s -> Typed n (thread side s) -> pc (thread side s) = Asleep false -> at_rest (thread (other side) s) ->
  ~ enough side (shared s) (thread side s) /\ (length (log (thread side s)) < n)%nat /\ len (thread side s) = Z.of_nat quantum.
Proof.
  intros [_ _ _ HWp HWc] HT Hpc Ho.
  assert (Wake side (shared s) (thread side s) (thread (other side) s)) as HW by by destruct side.
  unfold Wake in HW. rewrite Hpc in HW. destruct HW as [HW Hcall]. destruct HT as [_ Hop _ Hn].
  unfold busy in Hn. rewrite Hpc in Hn. rewrite decide_False in Hn by done. split_and!; [|lia|].
  - intros Hen. destruct (HW Hen) as [Hf|Hf]; [specialize (Hcall eq_refl Hf)|]; destruct Ho as [[]|]; congruence.
  - unfold len. f_equal. apply Hop. by rewrite Hpc.
Qed.

(** Two sides at rest have made all of their calls. *)
Lemma both_done n s (k : Z) :
  (0 < quantum)%nat -> 0 < k -> size = Z.of_nat quantum * k -> WInv s ->
  Typed n (producer s) -> Typed n (consumer s) -> at_rest (producer s) -> at_rest (consumer s) ->
  (pc (producer s) = Idle /\ length (log (producer s)) = n) /\ (pc (consumer s) = Idle /\ length (log (consumer s)) = n).
Proof.
  intros Hq Hk Hsz HW HTp HTc Hp Hc. destruct (rest_moved _ _ HTp Hp) as [_ Hmp], (rest_moved _ _ HTc Hc) as [_ Hmc].
  destruct (w_inv _ HW) as [_ Hwc Hrc Hf _ _ _ _ _]. rewrite Hmp, Nat2Z.inj_mul in Hwc.
  rewrite Hmc, Nat2Z.inj_mul in Hrc.
  assert (forall t, Typed n t -> pc t = Idle -> todo t = [] -> pc t = Idle /\ length (log t) = n) as Hdone.
  { intros t HT Hi Ht. split; [done|]. destruct HT as [_ _ _ Hn]. unfold busy in Hn. rewrite Hi, Ht in Hn. simpl in Hn. lia. }
  destruct Hp as [[Hpi Hpt]|Hpa].
  - destruct (Hdone _ HTp Hpi Hpt) as [_ Hn]. split; [by apply Hdone|].
    destruct Hc as [[Hci Hct]|Hca]; [by apply Hdone|]. exfalso.
    destruct (rest_wakes n Consumer s HW HTc Hca (or_introl (conj Hpi Hpt))) as (Hen & Hlt & Hl).
    apply Hen. unfold enough. cbv zeta iota. cbn [thread] in *. rewrite Hl, Hwc, Hrc, Hn. nia.
  - destruct Hc as [[Hci Hct]|Hca].
    + exfalso. destruct (Hdone _ HTc Hci Hct) as [_ Hn].
      destruct (rest_wakes n Producer s HW HTp Hpa (or_introl (conj Hci Hct))) as (_ & Hlt & _).
      cbn [thread] in *. rewrite Hwc, Hrc, Hn in Hf. nia.
    + exfalso. destruct (rest_wakes n Producer s HW HTp Hpa (or_intror Hca)) as (Henp & _ & Hlp).
      destruct (rest_wakes n Consumer s HW HTc Hca (or_intror Hpa)) as (Henc & _ & Hlc).
      unfold enough in Henp, Henc. cbv zeta iota in Henp, Henc. cbn [thread] in *. rewrite Hlp in Henp. rewrite Hlc in Henc.
      rewrite Hwc, Hrc in *.
      assert (Z.of_nat (length (log (producer s))) = Z.of_nat (length (log (consumer s)))) as Heq by nia.
      rewrite Heq in Henp. nia.
Qed.

Lemma todo_weight_typed ops :
  Forall (fun o => length (buf o) = quantum) ops ->
  todo_weight ops = Z.of_nat (length ops) * (Z.of_nat quantum + 17).
Proof.
  induction 1 as [|o ops Ho _ IH]; [done|]. cbn [todo_weight foldr]. fold (todo_weight ops).
  rewrite IH, Ho. cbn [length]. lia.
Qed.

Lemma sizes_typed ops :
  Forall (fun o => length (buf o) = quantum) ops -> sizes ops = Z.of_nat (length ops) * Z.of_nat quantum.
Proof.
  induction 1 as [|o ops Ho _ IH]; [done|]. cbn [sizes foldr]. fold (sizes ops). rewrite IH, Ho. cbn [length]. lia.
Qed.

Lemma typed_log n t : Typed n t -> log t = pair true <$> (snd <$> log t).
Proof.
  intros [Hlog _ _ _]. induction Hlog as [|[r b] l [Hr _] _ IH]; [done|]. simpl in Hr. subst r.
  cbn [fmap list_fmap snd]. by f_equal.
Qed.

Lemma typed_sizes n t : Typed n t -> Forall (fun b => length b = quantum) (snd <$> log t).
Proof.
  intros HT. apply Forall_fmap. eapply list.Forall_impl; [exact (ty_log _ _ HT)|]. by intros r [_ ?].
Qed.

(** The messages of two sides that are done. *)
Lemma done_logs n msgs s :
  (0 < quantum)%nat -> Inv_state size s -> TInv n msgs s ->
  pc (producer s) = Idle /\ length (log (producer s)) = n -> pc (consumer s) = Idle /\ length (log (consumer s)) = n ->
  log (producer s) = pair true <$> msgs /\ log (consumer s) = pair true <$> msgs.
Proof.
  intros Hq HI (HTp & HTc & Hm) [Hp Hlp] [Hc Hlc].
  assert (todo (producer s) = []) as Htodo.
  { pose proof (ty_count _ _ HTp) as Hn. unfold busy in Hn. rewrite Hp in Hn. rewrite decide_True in Hn by done.
    destruct (todo (producer s)); [done|]. simpl in Hn. lia. }
  unfold messages in Hm. rewrite Hp, decide_True, Htodo in Hm by done. simpl in Hm. rewrite app_nil_r in Hm.
  rewrite (typed_log _ _ HTp), (typed_log _ _ HTc), Hm. split; [done|]. f_equal. rewrite <- Hm.
  apply concat_inj_typed; [done|by eapply typed_sizes..|].
  assert (forall t, Typed n t -> pc t = Idle -> moved t = concat (snd <$> log t)) as Hmv.
  { intros t HT Ht. unfold moved. rewrite Ht, (logged_typed _ _ HT). apply app_nil_r. }
  rewrite <- (Hmv _ HTp Hp), <- (Hmv _ HTc Hc). rewrite (inv_received _ _ _ _ HI). apply take_ge.
  rewrite (Hmv _ HTp Hp), (Hmv _ HTc Hc), !concat_length_typed, !length_fmap by (by eapply typed_sizes). lia.
Qed.

(** C29: A queue of elements of one size delivers: when one side writes
    messages and the other reads as many, with the blocking calls, every
    interleaving in which the kernel interrupts no wait ends, after a bounded
    number of steps, and where neither side can move any more all the messages
    have been written and read, in order. *)
Theorem typed_queue_delivers (msgs : list (list byte)) (reads : list Op) (k : Z) n s :
  (0 < quantum)%nat -> 0 < k -> size = Z.of_nat quantum * k ->
  Forall (fun m => length m = quantum) msgs -> Z.of_nat (length msgs) * Z.of_nat quantum < 2 ^ 64 ->
  length reads = length msgs -> Forall (fun o => blocking o = true /\ length (buf o) = quantum) reads ->
  steps n (start size (mkOp true <$> msgs) reads) s ->
  Z.of_nat n <= 2 * Z.of_nat (length msgs) * (Z.of_nat quantum + 17) /\
  ((forall side, step side Normal s = None) ->
   log (producer s) = pair true <$> msgs /\ log (consumer s) = pair true <$> msgs).
Proof.
  intros Hq Hk Hsz Hm Hbytes Hlen Hr Hn. set (writes := mkOp true <$> msgs) in *.
  assert (Forall (fun o => length (buf o) = quantum) writes) as Hw by by apply Forall_fmap.
  assert (length writes = length msgs) as Hlw by apply length_fmap.
  apply Forall_and in Hr as [Hbr Hlr].
  assert (sizes writes < 2 ^ 64) as Hsizes by (rewrite sizes_typed, Hlw by done; lia).
  assert (WInv (start size writes reads)) as HW.
  { apply WInv_start; [done| |done]. apply Forall_fmap, list.Forall_true. done. }
  split.
  - destruct (steps_measure n _ _ (w_inv _ HW) Hn) as [HI Hme]. apply measure_nonneg in HI.
    change (measure (start size writes reads)) with (todo_weight writes + 0 + (todo_weight reads + 0) + 0) in Hme.
    rewrite !todo_weight_typed in Hme by done. lia.
  - intros Hstuck. pose proof (WInv_steps _ _ _ HW Hn) as HWs.
    assert (TInv (length msgs) msgs (start size writes reads)) as HT.
    { split_and!; [split; cbn; try done; lia..|]. change (buf <$> writes = msgs). unfold writes.
      rewrite <- list_fmap_compose. apply list_fmap_id. }
    pose proof (TInv_steps _ _ _ _ _ HW HT Hn) as HTs. destruct HTs as (HTp & HTc & Hms).
    destruct (both_done _ s k Hq Hk Hsz HWs HTp HTc) as [? ?];
      [apply (stuck_thread Producer); auto|apply (stuck_thread Consumer); auto|].
    by apply (done_logs (length msgs) msgs s Hq (w_inv _ HWs)).
Qed.
End typed.
End wakeups.

(** ** Layouts *)

Module LayoutFacts.
Import Layout.

Section layout.
Context `{Env} `{System}.
Hypothesis Hpage : 0 < page < 2 ^ 32.

Lemma align8_layout n :
  0 <= n < 2 ^ 32 -> exists a, align8 n = Done a /\ n <= a < n + 8 /\ a mod 8 = 0.
Proof.
  intros Hn. unfold align8. rewrite uadd_small by lia. cbn [mbind outcome_bind].
  eexists. split; [done|]. change 7 with (Z.ones 3). rewrite Z.ldiff_ones_r, Z.shiftl_mul_pow2, Z.shiftr_div_pow2 by lia.
  change (Z.ones 3) with 7. change (2 ^ 3) with 8. Z.div_mod_to_equations. lia.
Qed.

Lemma align8_16 n a : 0 <= n < 2 ^ 31 -> align8 n = Done a -> align8 (16 + n) = Done (16 + a).
Proof.
  intros Hn. unfold align8. rewrite !uadd_small by lia. cbn [mbind outcome_bind]. intros [= <-]. f_equal.
  change 7 with (Z.ones 3). rewrite !Z.ldiff_ones_r, !Z.shiftl_mul_pow2, !Z.shiftr_div_pow2 by lia.
  change (Z.ones 3) with 7. change (2 ^ 3) with 8. Z.div_mod_to_equations. lia.
Qed.

Lemma pages_spec n : 0 <= n < 2 ^ 32 -> exists l, pages page n = Done l /\ n <= l.
Proof.
  intros Hn. unfold pages. revert Hpage. generalize page. intros p Hp. set (k := (n + (p - 1)) / p).
  assert (k * p <= n + (p - 1) < k * p + p) as Hk.
  { pose proof (Z.div_mod (n + (p - 1)) p ltac:(lia)).
    pose proof (Z.mod_pos_bound (n + (p - 1)) p ltac:(lia)). unfold k. lia. }
  rewrite umul_small by lia. eexists. split; [done|]. lia.
Qed.

(** The places of a queue's counters, ring and flag. *)
Record well_placed (q : Queue Fd Base) : Prop := mkPlaced {
  pl_read : read q = 0;
  pl_write : write q = 8;
  pl_ring : ring q = 16;
  pl_size : 0 <= size q /\ ring q + size q <= length_ q;
  pl_flag : forall f, flag q = Some f -> f mod 8 = 0 /\ ring q + size q <= f /\ f + 4 <= length_ q;
}.

Lemma new_placed quantum count event_flag q :
  0 <= quantum -> 0 <= count -> quantum * count + 24 < 2 ^ 31 ->
  new quantum count event_flag = Done (Ok q) ->
  well_placed q /\ size q = quantum * count /\ Layout.quantum q = quantum /\
  (forall f, flag q = Some f -> f < 16 + size q + 8).
Proof.
  intros Hq Hc Hb. unfold new. assert (0 <= quantum * count) by nia.
  rewrite umul_small by lia. cbn [mbind outcome_bind].
  destruct (align8_layout (quantum * count)) as (a & Ha & Ha1 & Ha8); [lia|]. rewrite Ha. cbn [mbind outcome_bind].
  cbv zeta. rewrite (uadd_small 64 a) by (destruct event_flag; lia). cbn [mbind outcome_bind].
  destruct (pages_spec (a + (16 + if event_flag then 4 else 0))) as (l & Hl & Hle); [destruct event_flag; lia|].
  rewrite Hl. cbn [mbind outcome_bind]. destruct (os (memfd l)) as [fd|]; [|done].
  destruct (os (map fd l)) as [base|]; [|done]. rewrite uadd_small by lia. cbn [mbind outcome_bind].
  rewrite (align8_16 _ a) by (done || lia). cbn [mbind outcome_bind]. intros [= <-].
  split; [|split; [done|split; [done|]]]; [split; cbn; try done|cbn].
  - destruct event_flag; lia.
  - destruct event_flag; [|done]. intros f [= <-]. split; [|lia]. Z.div_mod_to_equations. lia.
  - destruct event_flag; [|done]. intros f [= <-]. lia.
Qed.

Lemma os_error {A} (r : result A OsError) e : os r = Err e -> exists o, e = Os o.
Proof. destruct r; [done|]. intros [= <-]. eauto. Qed.

(** A new queue's counters, ring and flag word lie in its mapping, aligned
    and without overlap, and the peer that maps the descriptor finds each of
    them at the same place, within what it maps: only the system's own errors
    come between. *)
Theorem descriptor_round_trip quantum count event_flag q :
  0 <= quantum < 2 ^ 31 -> 0 <= count -> quantum * count + 24 < 2 ^ 31 ->
  new quantum count event_flag = Done (Ok q) ->
  well_placed q /\
  match descriptor q with
  | Err e => exists o, e = Os o
  | Ok d =>
      match from_descriptor d with
      | Err e => exists o, e = Os o
      | Ok q' =>
          (read q', write q', ring q', flag q') = (read q, write q, ring q, flag q) /\
          (size q', Layout.quantum q') = (size q, Layout.quantum q) /\ well_placed q'
      end
  end.
Proof.
  intros Hq Hc Hb Hnew. destruct (new_placed _ _ _ _ (proj1 Hq) Hc Hb Hnew) as (Hp & Hs & Hqq & Hf).
  split; [done|]. destruct Hp as [Hr Hw Hri [Hs0 _] Hfl].
  unfold descriptor. destruct (os (try_clone (fd q))) as [fd'|e] eqn:He; [|by apply os_error in He].
  assert (grantor (read q) 8 = mkGrantor 0 0 8) as -> by (unfold grantor; rewrite Hr, !as_i_small by lia; done).
  assert (grantor (write q) 8 = mkGrantor 0 8 8) as -> by (unfold grantor; rewrite Hw, !as_i_small by lia; done).
  assert (grantor (ring q) (size q) = mkGrantor 0 16 (size q)) as -> by (unfold grantor; rewrite Hri, !as_i_small by lia; done).
  assert (match flag q with Some f => [grantor f 4] | None => [] end =
          match flag q with Some f => [mkGrantor 0 f 4] | None => [] end) as ->.
  { destruct (flag q) as [f|]; [|done]. specialize (Hf f eq_refl). specialize (Hfl f eq_refl).
    unfold grantor. by rewrite !as_i_small by lia. }
  rewrite (as_i_small 32 (Layout.quantum q)) by lia. unfold from_descriptor. cbn [grantors fds d_quantum].
  replace (_ || _) with false.
  2: { symmetry. apply orb_false_iff. split; [by destruct (flag q)|]. destruct (flag q) as [f|]; cbn; unfold bad_grantor; cbn;
       [specialize (Hfl f eq_refl)|]; repeat rewrite (proj2 (Z.ltb_ge _ _)) by lia; done. }
  destruct (os (try_clone fd')) as [fd2|e] eqn:He2; [|by apply os_error in He2].
  destruct (os (map fd2 _)) as [b|e] eqn:He3; [|by apply os_error in He3].
  clear He He2 He3. cbn [app]. unfold as_u. rewrite Z.mod_small by lia. rewrite Hr, Hw, Hri.
  destruct (flag q) as [f|].
  - destruct (Hfl f eq_refl) as (? & ? & _). split; [done|]. split; [done|].
    split; cbn; try done; [lia|]. intros f' [= <-]. split; [done|]. lia.
  - split; [done|]. split; [done|]. split; cbn; try done. lia.
Qed.

End layout.
End LayoutFacts.

(** ** Runs on Linux *)

(** The futex as [futex(2)] documents it. *)
Definition linux_futex : Futex := {| sleeps := Z.eqb; reaches := fun waiter waker => negb (Z.land waiter waker =? 0) |}.
#[export] Instance linux_futex_laws : FutexLaws linux_futex.
Proof.
  split; cbn; [intros word expected; apply Z.eqb_eq|].
  intros waiter waker Hne. by rewrite (proj2 (Z.eqb_neq _ _)).
Qed.

(** A mapping that always succeeds, on pages of 4 KiB. *)
Definition demo_system : Layout.System :=
  {| Layout.Fd := unit; Layout.Base := unit; Layout.OsError := unit; Layout.page := 4096;
     Layout.memfd := fun _ => Ok tt; Layout.try_clone := fun _ => Ok tt; Layout.map := fun _ _ => Ok tt |}.

#[local] Existing Instances debug_env linux_futex demo_system.

Lemma descriptor_round_trip_witness :
  exists q, Layout.new 3 5 true = Done (Ok q) /\
    LayoutFacts.well_placed q /\
    match Layout.descriptor q with
    | Err e => exists o, e = Layout.Os o
    | Ok d =>
        match Layout.from_descriptor d with
        | Err e => exists o, e = Layout.Os o
        | Ok q' =>
            (Layout.read q', Layout.write q', Layout.ring q', Layout.flag q') =
              (Layout.read q, Layout.write q, Layout.ring q, Layout.flag q) /\
            (Layout.size q', Layout.quantum q') = (Layout.size q, Layout.quantum q) /\
            LayoutFacts.well_placed q'
        end
    end.
Proof.
  eexists. split; [vm_compute; reflexivity|].
  assert (0 < Layout.page < 2 ^ 32) as Hpage by (cbn; lia).
  apply (LayoutFacts.descriptor_round_trip Hpage 3 5 true); [lia|lia|lia|].
  vm_compute. reflexivity.
Defined.

(** Steps that the sides of a list make in turn. *)
Fixpoint follow (size : Z) (sides : list Side) (s : State) : option State :=
  match sides with
  | [] => Some s
  | side :: sides => s ← step size true side Normal s; follow size sides s
  end.

Lemma follow_steps size sides s s' : follow size sides s = Some s' -> steps size (length sides) s s'.
Proof.
  revert s. induction sides as [|side sides IH]; intros s Hf; [injection Hf as <-; constructor|].
  apply bind_Some in Hf as (s1 & Hs & Hf). econstructor; eauto.
Qed.

(** The producer when it can move, the consumer otherwise. *)
Fixpoint producer_first (size : Z) (fuel : nat) (s : State) : list Side :=
  match fuel with
  | O => []
  | S fuel =>
      match step size true Producer Normal s, step size true Consumer Normal s with
      | Some s, _ => Producer :: producer_first size fuel s
      | None, Some s => Consumer :: producer_first size fuel s
      | None, None => []
      end
  end.

(** Three messages of two bytes through a ring of four, so that the producer
    waits, and their reads. *)
Definition demo_messages : list (list byte) := [[x01; x02]; [x03; x04]; [x05; x06]].
Definition demo_reads : list Op := replicate 3 (mkOp true [x00; x00]).
Definition demo_start : State := start 4 (mkOp true <$> demo_messages) demo_reads.
Definition demo_sides : list Side := producer_first 4 200 demo_start.

Lemma queue_is_fifo_witness :
  exists s, s = run 4 true ((., Normal) <$> take 40 demo_sides) demo_start /\
  exists contents,
    moved (producer s) = moved (consumer s) ++ contents /\ Z.of_nat (length contents) <= 4 /\
    (forall i, (i < length contents)%nat ->
       ring (shared s) !! slot 4 (read_counter (shared s) + Z.of_nat i) = contents !! i) /\
    pc (producer s) <> Stopped /\ pc (consumer s) <> Stopped.
Proof.
  eexists. split; [reflexivity|].
  apply (queue_is_fifo 4 true ltac:(lia) (mkOp true <$> demo_messages) demo_reads); [vm_compute; reflexivity|].
  by exists ((., Normal) <$> take 40 demo_sides).
Defined.

(** The consumer sleeps on an empty queue. *)
Definition demo_asleep : State := run 4 true (replicate 6 (Consumer, Normal)) demo_start.

Lemma no_lost_wakeup_witness :
  pc (thread Consumer demo_asleep) = Asleep false /\ ~ enough 4 Consumer (shared demo_asleep) (thread Consumer demo_asleep).
Proof.
  assert (pc (thread Consumer demo_asleep) = Asleep false) as Hpc by (vm_compute; reflexivity).
  split; [exact Hpc|].
  apply (no_lost_wakeup 4 ltac:(lia) (mkOp true <$> demo_messages) demo_reads demo_asleep Consumer);
    [vm_compute; reflexivity|by repeat constructor|by repeat constructor| |exact Hpc|by vm_compute|by vm_compute].
  by exists (replicate 6 (Consumer, Normal)).
Defined.

Definition demo_end : State := default demo_start (follow 4 demo_sides demo_start).

Lemma typed_queue_delivers_witness :
  (forall side, step 4 true side Normal demo_end = None) /\
  log (producer demo_end) = pair true <$> demo_messages /\ log (consumer demo_end) = pair true <$> demo_messages.
Proof.
  assert (forall side, step 4 true side Normal demo_end = None) as Hstuck.
  { intros []; vm_compute; reflexivity. }
  split; [exact Hstuck|].
  apply (typed_queue_delivers 4 ltac:(lia) 2 demo_messages demo_reads 2 (length demo_sides) demo_end);
    [lia|lia|lia|by repeat constructor|vm_compute; reflexivity|done|by repeat constructor| |exact Hstuck].
  apply follow_steps. vm_compute. reflexivity.
Defined.

(** ** A ring too small for its elements *)

(** A peer's descriptor: elements of 16 bytes, a ring of 4. *)
Definition short_ring : Layout.MQDescriptor unit :=
  Layout.mkDescriptor [Layout.mkGrantor 0 0 8; Layout.mkGrantor 0 8 8; Layout.mkGrantor 0 16 4] [tt] 16
    SYNCHRONIZED_READ_WRITE.

(** The peer's counters claim 16 bytes; the queue's owner reads one element. *)
Definition short_ring_state : State :=
  mkState (mkShared [x00; x00; x00; x00] 0 16 0) (mkThread Idle (mkOp false []) [] [])
    (mkThread Idle (mkOp false []) [mkOp true (replicate 16 x00)] []).

(** A finding: a peer's descriptor with a ring smaller than an element is
    accepted, and when the peer's write counter says that an element is there
    the read leaves the ring: the two spans of the copy do not lie within
    it. *)
Theorem short_ring_read_escapes :
  (exists q, Layout.typed_from_descriptor 16 short_ring = Ok q /\ Layout.size q = 4) /\
  pc (consumer (run 4 true (replicate 20 (Consumer, Normal)) short_ring_state)) = Stopped.
Proof. split; [eexists; split; reflexivity|vm_compute; reflexivity]. Qed.
