(* ===== verification/Area.v ===== *)
(** The system properties' area ([src/crates/aim-android-init/src/props/area.rs],
    bionic's [prop_area]): a trie of names in a shared memory, written by init
    and read by every process.  The writer works on the bytes of the area as its
    state; the reader is a function of a snapshot of them. *)

From Stdlib Require Import ZArith Lia.
From Stdlib Require Import Strings.String Strings.Byte.
From stdpp Require Import base numbers list.
From S2P Require Import Prelude Text Bytes.

Open Scope Z_scope.

Definition PA_SIZE : Z := 128 * 1024.
Definition PROP_AREA_MAGIC : Z := 0x504f5250.
Definition PROP_AREA_VERSION : Z := 0xfc6ed0ab.
Definition PROP_VALUE_MAX : Z := 92.
Definition PROP_AREA_HEADER_SIZE : Z := 128.
Definition TRIE_NODE_SIZE : Z := 20.
Definition PROP_INFO_SIZE : Z := 96.
Definition LONG_FLAG : Z := Z.shiftl 1 16.
Definition LONG_LEGACY_ERROR : list byte := list_byte_of_string "Must use __system_property_read_callback() to read".
Definition LONG_OFFSET_FIELD : Z := 4 + 56.
Definition DIRTY_BACKUP_AREA : Z := TRIE_NODE_SIZE.

(** ** The writer *)

(** The memory of an area. *)
Abbreviation Area := (list byte).
Abbreviation A X := (M Area X).

Definition data_size (mem : Area) : Z := zlen mem - PROP_AREA_HEADER_SIZE.

(** A word of the area, at an offset of the memory. *)
Definition load (at_ : Z) : A Z :=
  mem ← get;
  match slice mem at_ 4 with Some b => mret (of_le_bytes b) | None => panic end.
Definition store (at_ v : Z) : A unit :=
  mem ← get;
  match splice mem at_ (le_bytes 4 v) with Some mem => put mem | None => panic end.

(** [header] words, and [word]s by their offset in the data. *)
Definition header (offset : Z) : Z := offset.
Definition load_word (offset : Z) : A Z :=
  if offset mod 4 =? 0 then load (PROP_AREA_HEADER_SIZE + offset) else panic.
Definition store_word (offset v : Z) : A unit :=
  if offset mod 4 =? 0 then store (PROP_AREA_HEADER_SIZE + offset) v else panic.

Definition write_bytes (offset : Z) (bytes : list byte) : A unit :=
  mem ← get;
  match splice mem (PROP_AREA_HEADER_SIZE + offset) bytes with Some mem => put mem | None => panic end.
Definition read_bytes (offset len : Z) : A (list byte) :=
  mem ← get;
  match slice mem (PROP_AREA_HEADER_SIZE + offset) len with Some b => mret b | None => panic end.

Definition c_string_at (offset : Z) : A (list byte) :=
  gets (fun mem => c_string (drop (Z.to_nat (PROP_AREA_HEADER_SIZE + offset)) mem)).

(** The area on [len] bytes of memory. *)
Definition create (len : Z) : outcome Area :=
  if len <? PROP_AREA_HEADER_SIZE + DIRTY_BACKUP_AREA + PROP_VALUE_MAX then Panicked else
  '(_, mem) ← (store (header 8) PROP_AREA_MAGIC;;
               store (header 12) PROP_AREA_VERSION;;
               store (header 4) 0;;
               store (header 0) (TRIE_NODE_SIZE + align4 PROP_VALUE_MAX)) (replicate (Z.to_nat len) x00);
  Done mem.

Definition bytes_used : A Z := load (header 0).

Definition allocate (size : Z) : A (option Z) :=
  let aligned := align4 size in
  used ← bytes_used;
  mem ← get;
  if data_size mem <? used + aligned then mret None
  else store (header 0) (used + aligned);; mret (Some used).

Definition new_trie_node (name : list byte) : A (option Z) :=
  offset ←! allocate (TRIE_NODE_SIZE + zlen name + 1);
  store_word offset (zlen name);;
  write_bytes (offset + TRIE_NODE_SIZE) name;;
  write_bytes (offset + TRIE_NODE_SIZE + zlen name) [x00];;
  mret (Some offset).

Definition new_prop_info (name value : list byte) : A (option Z) :=
  offset ←! allocate (PROP_INFO_SIZE + zlen name + 1);
  if PROP_VALUE_MAX <=? zlen value then
    long_offset ←! allocate (zlen value + 1);
    write_bytes long_offset value;;
    write_bytes (long_offset + zlen value) [x00];;
    write_bytes (offset + PROP_INFO_SIZE) name;;
    write_bytes (offset + PROP_INFO_SIZE + zlen name) [x00];;
    store_word offset (Z.lor (Z.shiftl (zlen LONG_LEGACY_ERROR) 24) LONG_FLAG);;
    write_bytes (offset + 4) LONG_LEGACY_ERROR;;
    write_bytes (offset + 4 + zlen LONG_LEGACY_ERROR) [x00];;
    store_word (offset + LONG_OFFSET_FIELD) (as_u 32 (long_offset - offset));;
    mret (Some offset)
  else
    write_bytes (offset + PROP_INFO_SIZE) name;;
    write_bytes (offset + PROP_INFO_SIZE + zlen name) [x00];;
    store_word offset (as_u 32 (Z.shiftl (zlen value) 24));;
    write_bytes (offset + 4) value;;
    write_bytes (offset + 4 + zlen value) [x00];;
    mret (Some offset).

Definition node_name (node : Z) : A (list byte) :=
  len ← load_word node;
  read_bytes (node + TRIE_NODE_SIZE) len.

(** Offsets past the data are null. *)
Definition valid (offset : Z) : A (option Z) :=
  gets (fun mem => if offset <=? data_size mem then Some offset else None).

(** [strncmp] of names of one length. *)
Fixpoint cmp_bytes (one two : list byte) : Z :=
  match one, two with
  | a :: one, b :: two =>
      if decide (a = b) then (if decide (a = x00) then 0 else cmp_bytes one two)
      else byte_to_Z a - byte_to_Z b
  | _, _ => 0
  end.

Definition cmp_prop_name (one two : list byte) : Z :=
  if zlen one <? zlen two then -1
  else if zlen two <? zlen one then 1
  else cmp_bytes one two.

Definition link_of (node ordering : Z) : Z := if ordering <? 0 then node + 8 else node + 12.

Fixpoint find_trie_node_loop (fuel : nat) (current : Z) (name : list byte) (alloc : bool) : A (option Z) :=
  match fuel with
  | O => spin
  | S fuel =>
      current_name ← node_name current;
      let ordering := cmp_prop_name name current_name in
      if ordering =? 0 then mret (Some current) else
      let link := link_of current ordering in
      offset ← load_word link;
      if negb (offset =? 0) then
        current ←! valid offset;
        find_trie_node_loop fuel current name alloc
      else if negb alloc then mret None
      else
        new_node ←! new_trie_node name;
        store_word link new_node;;
        mret (Some new_node)
  end.

(** A link leads to a later place: as many steps as bytes. *)
Definition find_trie_node (trie : Z) (name : list byte) (alloc : bool) : A (option Z) :=
  mem ← get;
  find_trie_node_loop (length mem) trie name alloc.

(** The part of the loop below for one segment: the node of that name among
    the children of [current]. *)
Definition find_child (current : Z) (segment : list byte) (alloc : bool) : A (option Z) :=
  children ← load_word (current + 16);
  root ←! (if negb (children =? 0) then valid children
           else if alloc then
             node ←! new_trie_node segment;
             store_word (current + 16) node;;
             mret (Some node)
           else mret None);
  find_trie_node root segment alloc.

(** The first segment of a name, and the rest after the separator. *)
Definition split_segment (remaining : list byte) : list byte * option (list byte) :=
  match position (fun b => bool_decide (b = x2e)) remaining with
  | Some sep => (take sep remaining, Some (drop (S sep) remaining))
  | None => (remaining, None)
  end.

(** The loop over the segments of a name; each takes a byte of it at least. *)
Fixpoint find_node_loop (fuel : nat) (current : Z) (remaining : list byte) (alloc : bool) : A (option Z) :=
  match fuel with
  | O => spin
  | S fuel =>
      let '(segment, rest) := split_segment remaining in
      if zlen segment =? 0 then mret None else
      current ←! find_child current segment alloc;
      match rest with
      | Some remaining => find_node_loop fuel current remaining alloc
      | None => mret (Some current)
      end
  end.

Definition find_property (name value : list byte) (alloc : bool) : A (option Z) :=
  current ←! find_node_loop (S (length name)) 0 name alloc;
  prop ← load_word (current + 4);
  if negb (prop =? 0) then valid prop
  else if negb alloc then mret None
  else
    info ←! new_prop_info name value;
    store_word (current + 4) info;;
    mret (Some info).

Definition find (name : list byte) : A (option Z) := find_property name [] false.

Definition add (name value : list byte) : A bool :=
  info ← find_property name value true;
  mret (bool_decide (is_Some info)).

Definition info_serial (info : Z) : A Z := load_word info.

(** ["ro."]. *)
Definition RO : list Z := [114; 111; 46].

Definition info_name (info : Z) : A (list Z) :=
  name ← c_string_at (info + PROP_INFO_SIZE);
  mret (utf8_lossy name).

Definition starts_with_ro (name : list Z) : bool := bool_decide (take 3 name = RO).

Definition info_value (info : Z) : A (list byte) :=
  serial ← info_serial info;
  name ← info_name info;
  if negb (Z.land serial LONG_FLAG =? 0) && starts_with_ro name then
    relative ← load_word (info + LONG_OFFSET_FIELD);
    c_string_at (info + relative)
  else read_bytes (info + 4) (Z.shiftr serial 24).

Definition new_serial (serial : Z) (value : list byte) : Z :=
  Z.lor (as_u 32 (Z.shiftl (zlen value) 24)) (Z.land (as_u 32 (serial + 1)) 0x00ffffff).

(** The stores of [update_value], in their order: a copy of bytes, that of an
    aligned word. *)
Inductive Store :=
| Copy (offset : Z) (bytes : list byte)
| Word (offset v : Z).

Definition run_store (s : Store) : A unit :=
  match s with
  | Copy offset bytes => write_bytes offset bytes
  | Word offset v => store_word offset v
  end.

Fixpoint run_stores (l : list Store) : A unit :=
  match l with
  | [] => mret tt
  | s :: l => run_store s;; run_stores l
  end.

Definition update_stores (info serial : Z) (old value : list byte) : list Store :=
  let copied := c_string value in
  [Copy DIRTY_BACKUP_AREA old;
   Word info (Z.lor serial 1);
   Copy (info + 4) copied;
   Copy (info + 4 + zlen copied) [x00];
   Word info (new_serial (Z.lor serial 1) value)].

Definition update_value (info : Z) (value : list byte) : A Z :=
  serial ← info_serial info;
  old ← read_bytes (info + 4) (Z.shiftr serial 24 + 1);
  run_stores (update_stores info serial old value);;
  mret (new_serial (Z.lor serial 1) value).

(** [foreach_node]: a subtree's properties, with the depth as fuel. *)
Fixpoint foreach_node (fuel : nat) (node : Z) : A (list Z) :=
  match fuel with
  | O => spin
  | S fuel =>
      let subtree (field : Z) : A (list Z) :=
        link ← load_word (node + field);
        if link =? 0 then mret [] else
        target ← valid link;
        match target with Some target => foreach_node fuel target | None => mret [] end in
      left ← subtree 8;
      prop ← load_word (node + 4);
      own ← (if prop =? 0 then mret [] else
             target ← valid prop;
             mret (match target with Some prop => [prop] | None => [] end));
      children ← subtree 16;
      right ← subtree 12;
      mret (left ++ own ++ children ++ right)
  end.

Definition foreach : A (list Z) := mem ← get; foreach_node (length mem) 0.

(** ** The reader *)

Record ReadProperty := mkReadProperty { rp_name : list Z; rp_value : list Z; rp_serial : Z }.

Module Reader.

Definition word_at (bytes : list byte) (offset : Z) : option Z := of_le_bytes <$> slice bytes offset 4.

(** [PropAreaReader::new]: at least the header, the magic and the version. *)
Definition accepts (bytes : list byte) : bool :=
  (PROP_AREA_HEADER_SIZE <=? zlen bytes) &&
  bool_decide (word_at bytes 8 = Some PROP_AREA_MAGIC) && bool_decide (word_at bytes 12 = Some PROP_AREA_VERSION).

Section reader.
Variable bytes : list byte.

Definition data : list byte := drop (Z.to_nat PROP_AREA_HEADER_SIZE) bytes.

Definition u32_at (offset : Z) : option Z := word_at data offset.

Definition obj (offset : Z) : option Z := if offset <=? zlen data then Some offset else None.

Definition c_str (offset : Z) : list byte := c_string (drop (Z.to_nat (Z.min offset (zlen data))) data).

Definition node_name (node : Z) : option (list byte) :=
  len ← u32_at node;
  slice data (node + TRIE_NODE_SIZE) len.

(** The search among siblings. *)
Fixpoint find_sibling (fuel : nat) (node : Z) (segment : list byte) : outcome (option Z) :=
  match fuel with
  | O => Spinning
  | S fuel =>
      match node_name node with
      | None => Done None
      | Some name =>
          let ordering := cmp_prop_name segment name in
          if ordering =? 0 then Done (Some node) else
          match u32_at (link_of node ordering) with
          | None => Done None
          | Some link =>
              if link =? 0 then Done None else
              match obj link with
              | None => Done None
              | Some node => find_sibling fuel node segment
              end
          end
      end
  end.

Fixpoint find_node (fuel : nat) (current : Z) (remaining : list byte) : outcome (option Z) :=
  match fuel with
  | O => Spinning
  | S fuel =>
      let '(segment, rest) := split_segment remaining in
      if zlen segment =? 0 then Done None else
      match u32_at (current + 16) with
      | None => Done None
      | Some children =>
          if children =? 0 then Done None else
          match obj children with
          | None => Done None
          | Some node =>
              found ← find_sibling (length bytes) node segment;
              match found, rest with
              | None, _ => Done None
              | Some current, Some remaining => find_node fuel current remaining
              | Some current, None => Done (Some current)
              end
          end
      end
  end.

Definition find (name : list byte) : outcome (option Z) :=
  found ← find_node (S (length name)) 0 name;
  Done (current ← found;
        prop ← u32_at (current + 4);
        if prop =? 0 then None else obj prop).

Definition read (info : Z) : option ReadProperty :=
  let name := utf8_lossy (c_str (info + PROP_INFO_SIZE)) in
  serial ← u32_at info;
  value ← (if starts_with_ro name then
             if negb (Z.land serial LONG_FLAG =? 0) then
               relative ← u32_at (info + LONG_OFFSET_FIELD);
               Some (c_str (info + relative))
             else Some (c_str (info + 4))
           else
             let len := Z.shiftr serial 24 in
             let source := if negb (Z.land serial 1 =? 0) then DIRTY_BACKUP_AREA else info + 4 in
             raw ← slice data source (len + 1);
             Some (c_string raw));
  Some (mkReadProperty name (utf8_lossy value) serial).

Definition get (name : list byte) : outcome (option ReadProperty) :=
  found ← find name;
  Done (info ← found; read info).

(** [walk], with the depth limit of the code. *)
Fixpoint walk (depth_left : nat) (node : Z) : list ReadProperty :=
  match depth_left with
  | O => []
  | S depth_left =>
      let field (o : Z) : Z := default 0 (u32_at (node + o)) in
      let subtree (o : Z) : list ReadProperty :=
        if field o =? 0 then [] else
        match obj (field o) with Some target => walk depth_left target | None => [] end in
      subtree 8 ++
      (if field 4 =? 0 then [] else option_list (info ← obj (field 4); read info)) ++
      subtree 16 ++ subtree 12
  end.

(** [depth > 4096] returns: 4097 levels. *)
Definition foreach : list ReadProperty := walk 4097 0.

End reader.
End Reader.
