(* ===== verification/AreaHeap.v ===== *)
(** The area's memory as a heap of objects: trie nodes, properties and raw
    bytes, each at its place and apart from the others.  Every access of the
    writer ([Area]) is an operation on the heap. *)

From Stdlib Require Import ZArith Lia.
From Stdlib Require Import Strings.Byte.
From stdpp Require Import base numbers list gmap.
From S2P Require Import Prelude Text Bytes Area.

Open Scope Z_scope.

(** ** Objects *)

(** A trie node with its links, a property with its serial and the 92 bytes of
    its value, other bytes. *)
Inductive Obj :=
| ONode (name : list byte) (prop lft rgt children : Z)
| OInfo (name : list byte) (serial : Z) (field : list byte)
| ORaw (bytes : list byte).

Definition encode (o : Obj) : list byte :=
  match o with
  | ONode name prop lft rgt children =>
      le_bytes 4 (zlen name) ++ le_bytes 4 prop ++ le_bytes 4 lft ++ le_bytes 4 rgt ++ le_bytes 4 children ++ name
  | OInfo name serial field => le_bytes 4 serial ++ field ++ name ++ [x00]
  | ORaw bytes => bytes
  end.

Definition obj_ok (o : Obj) : Prop :=
  match o with
  | ONode name prop lft rgt children => in_u 32 (zlen name) /\ Forall (in_u 32) [prop; lft; rgt; children]
  | OInfo name serial field => in_u 32 serial /\ zlen field = PROP_VALUE_MAX
  | ORaw _ => True
  end.

Definition obj_at (mem : Area) (off : Z) (o : Obj) : Prop :=
  slice mem (PROP_AREA_HEADER_SIZE + off) (zlen (encode o)) = Some (encode o).

Abbreviation heap := (gmap Z Obj).

Record heap_ok (mem : Area) (h : heap) (used : Z) : Prop := mkHeap {
  hk_used : slice mem 0 4 = Some (le_bytes 4 used);
  hk_magic : slice mem 8 8 = Some (le_bytes 4 PROP_AREA_MAGIC ++ le_bytes 4 PROP_AREA_VERSION);
  hk_range : 0 <= used <= data_size mem /\ used mod 4 = 0 /\ data_size mem < 2 ^ 32;
  hk_obj : forall off o, h !! off = Some o ->
    0 <= off /\ off mod 4 = 0 /\ (0 < zlen (encode o) /\ off + zlen (encode o) <= used) /\ obj_ok o /\ obj_at mem off o;
  hk_apart : forall off o off' o', h !! off = Some o -> h !! off' = Some o' -> off < off' -> off + zlen (encode o) <= off';
  hk_zero : forall i, used <= i < data_size mem -> mem !! Z.to_nat (PROP_AREA_HEADER_SIZE + i) = Some x00;
}.

Lemma zlen_node name prop lft rgt children :
  zlen (encode (ONode name prop lft rgt children)) = TRIE_NODE_SIZE + zlen name.
Proof. unfold encode. rewrite !zlen_app, !zlen_le_bytes. unfold TRIE_NODE_SIZE. lia. Qed.

Lemma zlen_info name serial field :
  zlen field = PROP_VALUE_MAX -> zlen (encode (OInfo name serial field)) = PROP_INFO_SIZE + zlen name + 1.
Proof.
  intros Hf. unfold encode. rewrite !zlen_app, zlen_le_bytes, Hf. unfold PROP_VALUE_MAX, PROP_INFO_SIZE.
  change (zlen [x00]) with 1. lia.
Qed.

(** ** Reading *)

(** A part of an object. *)
Lemma obj_part mem h used off o k m part :
  heap_ok mem h used -> h !! off = Some o -> 0 <= k -> 0 <= m -> k + m <= zlen (encode o) ->
  slice (encode o) k m = Some part -> slice mem (PROP_AREA_HEADER_SIZE + (off + k)) m = Some part.
Proof.
  intros HH Ho Hk Hm Hkm Hp. destruct (hk_obj _ _ _ HH off o Ho) as (_ & _ & _ & _ & Hat).
  rewrite Z.add_assoc, (slice_sub _ _ _ _ _ _ Hat) by done. done.
Qed.

Lemma load_word_ok mem off v :
  off mod 4 = 0 -> slice mem (PROP_AREA_HEADER_SIZE + off) 4 = Some (le_bytes 4 v) -> in_u 32 v ->
  load_word off mem = Done (v, mem).
Proof.
  intros Ho Hs Hv. unfold load_word, load. rewrite Ho. simpl. unfold mbind, M_bind, get. rewrite Hs.
  rewrite of_le_bytes_le_bytes. change (256 ^ Z.of_nat 4) with (2 ^ 32). by rewrite Z.mod_small.
Qed.

(** The fields of a node by their offset. *)
Definition node_field (o : Obj) (k : Z) : option Z :=
  match o with
  | ONode _ prop lft rgt children =>
      if k =? 4 then Some prop else if k =? 8 then Some lft
      else if k =? 12 then Some rgt else if k =? 16 then Some children else None
  | _ => None
  end.
Definition set_node_field (o : Obj) (k v : Z) : Obj :=
  match o with
  | ONode name prop lft rgt children =>
      if k =? 4 then ONode name v lft rgt children
      else if k =? 8 then ONode name prop v rgt children
      else if k =? 12 then ONode name prop lft v children
      else if k =? 16 then ONode name prop lft rgt v else o
  | _ => o
  end.

Lemma node_field_slice o k v : node_field o k = Some v -> slice (encode o) k 4 = Some (le_bytes 4 v).
Proof.
  destruct o as [name prop lft rgt children| |]; [|done..]. cbn [node_field encode].
  destruct (Z.eqb_spec k 4) as [->|]; [intros [= <-]; by apply (slice_at (le_bytes 4 _))|].
  destruct (Z.eqb_spec k 8) as [->|].
  { intros [= <-]. rewrite (app_assoc (le_bytes 4 (zlen name))). by apply slice_at. }
  destruct (Z.eqb_spec k 12) as [->|].
  { intros [= <-]. rewrite (app_assoc (le_bytes 4 (zlen name))), (app_assoc _ (le_bytes 4 lft)). by apply slice_at. }
  destruct (Z.eqb_spec k 16) as [->|]; [|done].
  intros [= <-]. rewrite (app_assoc (le_bytes 4 (zlen name))), (app_assoc _ (le_bytes 4 lft)),
    (app_assoc _ (le_bytes 4 rgt)). by apply slice_at.
Qed.

Lemma node_field_splice o k v v' :
  node_field o k = Some v -> splice (encode o) k (le_bytes 4 v') = Some (encode (set_node_field o k v')).
Proof.
  destruct o as [name prop lft rgt children| |]; [|done..]. cbn [node_field set_node_field].
  destruct (Z.eqb_spec k 4) as [->|]; [intros _; cbn [encode]; by apply (splice_at (le_bytes 4 _))|].
  destruct (Z.eqb_spec k 8) as [->|].
  { intros _. cbn [encode]. rewrite !(app_assoc (le_bytes 4 (zlen name))). by apply splice_at. }
  destruct (Z.eqb_spec k 12) as [->|].
  { intros _. cbn [encode]. rewrite !(app_assoc (le_bytes 4 (zlen name))), !(app_assoc _ (le_bytes 4 lft)). by apply splice_at. }
  destruct (Z.eqb_spec k 16) as [->|]; [|done].
  intros _. cbn [encode]. rewrite !(app_assoc (le_bytes 4 (zlen name))), !(app_assoc _ (le_bytes 4 lft)),
    !(app_assoc _ (le_bytes 4 rgt)). by apply splice_at.
Qed.

Lemma set_node_field_ok o k v v' : node_field o k = Some v -> obj_ok o -> in_u 32 v' -> obj_ok (set_node_field o k v').
Proof.
  destruct o as [name prop lft rgt children| |]; [|done..]. cbn [node_field set_node_field].
  intros _ [Hn Hall] Hv'. rewrite !list.Forall_cons in Hall.
  repeat case_match; (split; [done|]); rewrite !list.Forall_cons; tauto.
Qed.

Lemma node_field_range o k v : node_field o k = Some v -> 0 <= k /\ k mod 4 = 0 /\ k + 4 <= zlen (encode o).
Proof.
  destruct o as [name prop lft rgt children| |]; [|done..]. cbn [node_field]. rewrite zlen_node.
  pose proof (zlen_nonneg name). unfold TRIE_NODE_SIZE.
  destruct (Z.eqb_spec k 4) as [->|]; [|destruct (Z.eqb_spec k 8) as [->|]; [|destruct (Z.eqb_spec k 12) as [->|];
    [|destruct (Z.eqb_spec k 16) as [->|]; [|done]]]]; intros _; (split_and!; [lia|done|lia]).
Qed.

Lemma node_field_in o k v : node_field o k = Some v -> obj_ok o -> in_u 32 v.
Proof.
  destruct o as [name prop lft rgt children| |]; [|done..]. cbn [node_field]. intros Hv [_ Hall].
  rewrite !list.Forall_cons in Hall. repeat case_match; simplify_eq; tauto.
Qed.

(** ** The accesses of the writer on the heap

    Each rule is for what comes after the access. *)

Section rules.
Context {E : Prop}.
Implicit Types (mem : Area) (h : heap).

Lemma wp_load_field mem h used off o k v (Q : Z -> Area -> Prop) :
  heap_ok mem h used -> h !! off = Some o -> node_field o k = Some v -> Q v mem -> wp E (load_word (off + k)) Q mem.
Proof.
  intros HH Ho Hv HQ. destruct (hk_obj _ _ _ HH off o Ho) as (H0 & H4 & _ & Hok & _).
  destruct (node_field_range _ _ _ Hv) as (? & Hk4 & ?). pose proof (node_field_in _ _ _ Hv Hok).
  eapply wp_eq; [|exact HQ]. apply load_word_ok; [|by eapply obj_part, node_field_slice|done].
  rewrite Z.add_mod, H4, Hk4 by done. done.
Qed.

Lemma wp_node_name mem h used off name prop lft rgt children (Q : list byte -> Area -> Prop) :
  heap_ok mem h used -> h !! off = Some (ONode name prop lft rgt children) -> Q name mem -> wp E (node_name off) Q mem.
Proof.
  intros HH Ho HQ. destruct (hk_obj _ _ _ HH off _ Ho) as (H0 & H4 & _ & [Hn _] & _).
  pose proof (zlen_nonneg name). unfold node_name, read_bytes.
  apply wp_bind. eapply wp_eq; [apply load_word_ok; [done| |exact Hn]|].
  { rewrite <- (Z.add_0_r off). eapply obj_part; [done|done|done|done|rewrite zlen_node; unfold TRIE_NODE_SIZE; lia|].
    cbn [encode]. by apply (slice_at []). }
  apply wp_bind, wp_get. rewrite (obj_part _ _ _ _ _ TRIE_NODE_SIZE (zlen name) name HH Ho);
    [by apply wp_ret|done|done|rewrite zlen_node; lia|].
  cbn [encode]. rewrite !app_assoc, <- (app_nil_r (_ ++ name)), <- app_assoc. by apply slice_at.
Qed.

(** *** Writing *)

(** Bytes overwritten within one object. *)
Lemma heap_patch mem mem' h used off o o' k d :
  heap_ok mem h used -> h !! off = Some o -> 0 <= k -> k + zlen d <= zlen (encode o) ->
  splice mem (PROP_AREA_HEADER_SIZE + (off + k)) d = Some mem' -> splice (encode o) k d = Some (encode o') -> obj_ok o' ->
  heap_ok mem' (<[off := o']> h) used.
Proof.
  intros HH Ho Hk Hkd Hs He Hok'. destruct (hk_obj _ _ _ HH off o Ho) as (H0 & H4 & [Hlen Hused] & Hok & Hat).
  destruct HH as [Hu Hm Hr Hobj Hapart Hz]. apply length_splice in Hs as Hlm. apply length_splice in He as Hle.
  assert (zlen (encode o') = zlen (encode o)) as Hle' by (unfold zlen; lia).
  assert (data_size mem' = data_size mem) as Hds by (unfold data_size, zlen; lia).
  assert (0 <= PROP_AREA_HEADER_SIZE - 4) by (unfold PROP_AREA_HEADER_SIZE; lia).
  split; rewrite ?Hds; try done.
  - rewrite (slice_splice_ne _ _ _ _ _ _ Hs) by (unfold PROP_AREA_HEADER_SIZE in *; lia). done.
  - rewrite (slice_splice_ne _ _ _ _ _ _ Hs) by (unfold PROP_AREA_HEADER_SIZE in *; lia). done.
  - intros off1 o1 [[-> <-]|[Hne Ho1]]%lookup_insert_Some.
    + rewrite Hle'. split_and!; try done. unfold obj_at. rewrite Hle'. rewrite Z.add_assoc in Hs.
      destruct (slice_patch _ _ _ _ _ _ _ Hat Hs Hk Hkd) as (e' & He' & ->). congruence.
    + destruct (Hobj off1 o1 Ho1) as (? & ? & [? ?] & ? & Hat1). split_and!; try done.
      unfold obj_at. rewrite (slice_splice_ne _ _ _ _ _ _ Hs); [done|]. fold (zlen d).
      destruct (decide (off1 < off)); [pose proof (Hapart _ _ _ _ Ho1 Ho ltac:(lia))|pose proof (Hapart _ _ _ _ Ho Ho1 ltac:(lia))]; lia.
  - intros off1 o1 off2 o2 [[-> <-]|[Hne1 Ho1]]%lookup_insert_Some [[-> <-]|[Hne2 Ho2]]%lookup_insert_Some Hlt;
      rewrite ?Hle'; try lia; eauto.
  - intros i Hi. rewrite (lookup_splice _ _ _ _ _ Hs), decide_False; [by apply Hz|]. lia.
Qed.

(** The same bytes, or the first of them, as another object. *)
Lemma heap_recast mem h used off o o' rest :
  heap_ok mem h used -> h !! off = Some o -> encode o = encode o' ++ rest -> 0 < zlen (encode o') -> obj_ok o' ->
  heap_ok mem (<[off := o']> h) used.
Proof.
  intros HH Ho He Hpos Hok'. destruct (hk_obj _ _ _ HH off o Ho) as (H0 & H4 & [Hlen Hused] & Hok & Hat).
  destruct HH as [Hu Hm Hr Hobj Hapart Hz]. rewrite He, zlen_app in Hused. pose proof (zlen_nonneg rest).
  split; try done.
  - intros off1 o1 [[-> <-]|[Hne Ho1]]%lookup_insert_Some; [|by apply Hobj]. split_and!; try done; [lia|].
    unfold obj_at in *. rewrite <- (Z.add_0_r (_ + off1)), (slice_sub _ _ _ _ _ _ Hat);
      [|done|lia|rewrite He, zlen_app; lia].
    rewrite He. by apply (slice_at []).
  - intros off1 o1 off2 o2 [[-> <-]|[Hne1 Ho1]]%lookup_insert_Some [[-> <-]|[Hne2 Ho2]]%lookup_insert_Some Hlt;
      [lia| |by eauto..]. pose proof (Hapart _ _ _ _ Ho Ho2 Hlt) as Ha. rewrite He, zlen_app in Ha. lia.
Qed.

Lemma wp_store_field mem h used off o k v v' (Q : unit -> Area -> Prop) :
  heap_ok mem h used -> h !! off = Some o -> node_field o k = Some v -> in_u 32 v' ->
  (forall mem', heap_ok mem' (<[off := set_node_field o k v']> h) used -> Q tt mem') ->
  wp E (store_word (off + k) v') Q mem.
Proof.
  intros HH Ho Hv Hv' HQ. destruct (hk_obj _ _ _ HH off o Ho) as (H0 & H4 & [_ Hu] & Hok & _).
  destruct (node_field_range _ _ _ Hv) as (? & Hk4 & ?). destruct (hk_range _ _ _ HH) as (Hr & _).
  unfold store_word, store. rewrite Z.add_mod, H4, Hk4 by done. simpl. apply wp_bind, wp_get.
  destruct (splice_is_Some mem (le_bytes 4 v') (PROP_AREA_HEADER_SIZE + (off + k))) as [mem' Hs].
  { unfold PROP_AREA_HEADER_SIZE. lia. }
  { rewrite length_le_bytes. unfold data_size, zlen, PROP_AREA_HEADER_SIZE in *. lia. }
  rewrite Hs. apply wp_put, HQ. eapply heap_patch; [done|done|done| |done|by eapply node_field_splice|by eapply set_node_field_ok].
  rewrite zlen_le_bytes. lia.
Qed.

(** Raw bytes, written in parts. *)
Lemma wp_write_raw mem h used off l1 l2 l3 k d (Q : unit -> Area -> Prop) :
  heap_ok mem h used -> h !! off = Some (ORaw (l1 ++ l2 ++ l3)) -> k = zlen l1 -> zlen d = zlen l2 ->
  (forall mem', heap_ok mem' (<[off := ORaw (l1 ++ d ++ l3)]> h) used -> Q tt mem') ->
  wp E (write_bytes (off + k) d) Q mem.
Proof.
  intros HH Ho Hk Hd HQ. destruct (hk_obj _ _ _ HH off _ Ho) as (H0 & H4 & [_ Hu] & Hok & _).
  cbn [encode] in Hu. rewrite !zlen_app in Hu. pose proof (zlen_nonneg l1). pose proof (zlen_nonneg l3).
  destruct (hk_range _ _ _ HH) as (Hr & _). unfold write_bytes. apply wp_bind, wp_get.
  destruct (splice_is_Some mem d (PROP_AREA_HEADER_SIZE + (off + k))) as [mem' Hs].
  { unfold PROP_AREA_HEADER_SIZE. lia. }
  { unfold data_size, zlen, PROP_AREA_HEADER_SIZE in *. lia. }
  rewrite Hs. apply wp_put, HQ. apply (heap_patch mem mem' h used off (ORaw (l1 ++ l2 ++ l3)) (ORaw (l1 ++ d ++ l3)) k d);
    [done|done|rewrite Hk; apply zlen_nonneg|cbn [encode]; rewrite !zlen_app; lia|done|by apply splice_at|done].
Qed.

Lemma wp_store_raw mem h used off l1 l2 l3 k v (Q : unit -> Area -> Prop) :
  heap_ok mem h used -> h !! off = Some (ORaw (l1 ++ l2 ++ l3)) -> k = zlen l1 -> k mod 4 = 0 -> zlen l2 = 4 ->
  (forall mem', heap_ok mem' (<[off := ORaw (l1 ++ le_bytes 4 v ++ l3)]> h) used -> Q tt mem') ->
  wp E (store_word (off + k) v) Q mem.
Proof.
  intros HH Ho Hk Hk4 Hd HQ. destruct (hk_obj _ _ _ HH off _ Ho) as (_ & H4 & _).
  unfold store_word. rewrite Z.add_mod, H4, Hk4 by done. simpl.
  by eapply (wp_write_raw mem h used off l1 l2 l3 k (le_bytes 4 v)).
Qed.

Lemma wp_store_raw_first mem h used off l2 l3 v (Q : unit -> Area -> Prop) :
  heap_ok mem h used -> h !! off = Some (ORaw (l2 ++ l3)) -> zlen l2 = 4 ->
  (forall mem', heap_ok mem' (<[off := ORaw (le_bytes 4 v ++ l3)]> h) used -> Q tt mem') ->
  wp E (store_word off v) Q mem.
Proof. intros. rewrite <- (Z.add_0_r off). by eapply (wp_store_raw mem h used off [] l2 l3 0 v). Qed.

Lemma wp_write_raw_first mem h used off l2 l3 d (Q : unit -> Area -> Prop) :
  heap_ok mem h used -> h !! off = Some (ORaw (l2 ++ l3)) -> zlen d = zlen l2 ->
  (forall mem', heap_ok mem' (<[off := ORaw (d ++ l3)]> h) used -> Q tt mem') ->
  wp E (write_bytes off d) Q mem.
Proof. intros. rewrite <- (Z.add_0_r off). by eapply (wp_write_raw mem h used off [] l2 l3 0 d). Qed.

Lemma wp_bytes_used mem h used (Q : Z -> Area -> Prop) : heap_ok mem h used -> Q used mem -> wp E bytes_used Q mem.
Proof.
  intros [Hu _ Hr _ _ _] HQ. unfold bytes_used, load, header. apply wp_bind, wp_get. rewrite Hu. apply wp_ret.
  rewrite of_le_bytes_le_bytes. change (256 ^ Z.of_nat 4) with (2 ^ 32). rewrite Z.mod_small by lia. done.
Qed.

Lemma heap_grow mem mem' h used n :
  heap_ok mem h used -> 0 < n -> used + align4 n <= data_size mem ->
  splice mem 0 (le_bytes 4 (used + align4 n)) = Some mem' ->
  heap_ok mem' (<[used := ORaw (replicate (Z.to_nat n) x00)]> h) (used + align4 n).
Proof.
  intros [Hu Hm Hr Hobj Hapart Hz] Hn Hfit Hs. destruct (align4_spec n) as [Ha Ha4]; [lia|].
  apply length_splice in Hs as Hlm. assert (data_size mem' = data_size mem) as Hds by (unfold data_size, zlen; lia).
  assert (forall i, 0 <= i -> mem' !! Z.to_nat (PROP_AREA_HEADER_SIZE + i) = mem !! Z.to_nat (PROP_AREA_HEADER_SIZE + i)) as Hsame.
  { intros i Hi. rewrite (lookup_splice _ _ _ _ _ Hs), zlen_le_bytes, decide_False; [done|].
    unfold PROP_AREA_HEADER_SIZE. lia. }
  assert (zlen (encode (ORaw (replicate (Z.to_nat n) x00))) = n) as Hle.
  { cbn [encode]. unfold zlen. rewrite length_replicate. lia. }
  assert (forall off o, h !! off = Some o -> off < used /\ off + zlen (encode o) <= used) as Hbelow.
  { intros off o Ho. destruct (Hobj off o Ho) as (? & ? & ? & _). lia. }
  split; rewrite ?Hds.
  - exact (slice_splice_eq _ _ _ _ Hs).
  - rewrite (slice_splice_ne _ _ _ _ _ _ Hs) by (rewrite length_le_bytes; lia). done.
  - split_and!; try lia. rewrite Z.add_mod, (proj1 (proj2 Hr)), Ha4 by done. done.
  - intros off o [[-> <-]|[Hne Ho]]%lookup_insert_Some.
    + rewrite Hle. split_and!; try done; try lia. unfold obj_at. rewrite Hle. apply slice_Some.
      unfold data_size, zlen, PROP_AREA_HEADER_SIZE in *. cbn [encode]. split_and!; try lia.
      apply list_eq. intros i. destruct (decide (Z.of_nat i < n)).
      * rewrite lookup_take_lt, lookup_drop, lookup_replicate_2 by lia.
        specialize (Hsame (off + Z.of_nat i) ltac:(lia)). specialize (Hz (off + Z.of_nat i) ltac:(lia)).
        rewrite Hz in Hsame. rewrite <- Hsame. f_equal. lia.
      * rewrite lookup_take_ge by lia. apply lookup_ge_None_2. rewrite length_replicate. lia.
    + destruct (Hobj off o Ho) as (? & ? & ? & ? & Hat). split_and!; try done; try lia.
      unfold obj_at. rewrite (slice_splice_ne _ _ _ _ _ _ Hs); [done|]. rewrite length_le_bytes.
      unfold PROP_AREA_HEADER_SIZE. lia.
  - intros off o off' o' [[-> <-]|[Hne1 Ho1]]%lookup_insert_Some [[-> <-]|[Hne2 Ho2]]%lookup_insert_Some Hlt; try lia.
    + apply Hbelow in Ho2. lia.
    + apply Hbelow in Ho1. lia.
    + eauto.
  - intros i Hi. rewrite Hsame by lia. apply Hz. lia.
Qed.

(** A new object of zeros. *)
Lemma wp_allocate mem h used n (Q : option Z -> Area -> Prop) :
  heap_ok mem h used -> 0 < n -> (data_size mem < used + align4 n -> Q None mem) ->
  (forall mem', heap_ok mem' (<[used := ORaw (replicate (Z.to_nat n) x00)]> h) (used + align4 n) ->
     h !! used = None -> Q (Some used) mem') ->
  wp E (allocate n) Q mem.
Proof.
  intros HH Hn HNone HSome. unfold allocate. apply wp_bind. eapply wp_bytes_used; [done|]. apply wp_bind, wp_get.
  pose proof (hk_range _ _ _ HH) as (Hr & _). destruct (align4_spec n) as [Ha _]; [lia|].
  destruct (Z.ltb_spec (data_size mem) (used + align4 n)) as [Hlt|Hge]; [by apply wp_ret, HNone|].
  unfold store, header. apply wp_bind, wp_bind, wp_get.
  destruct (splice_is_Some mem (le_bytes 4 (used + align4 n)) 0) as [mem' Hs].
  { done. } { rewrite length_le_bytes. unfold data_size, zlen, PROP_AREA_HEADER_SIZE in *. lia. }
  rewrite Hs. apply wp_put, wp_ret, HSome; [by eapply heap_grow|].
  destruct (h !! used) eqn:Ho; [|done]. destruct (hk_obj _ _ _ HH _ _ Ho) as (_ & _ & ? & _). lia.
Qed.

(** *** New objects *)

Definition node_cost (name : list byte) : Z := align4 (TRIE_NODE_SIZE + zlen name + 1).

Lemma wp_new_trie_node mem h used name (Q : option Z -> Area -> Prop) :
  heap_ok mem h used -> name <> [] -> (data_size mem < used + node_cost name -> Q None mem) ->
  (forall mem', heap_ok mem' (<[used := ONode name 0 0 0 0]> h) (used + node_cost name) -> h !! used = None -> Q (Some used) mem') ->
  wp E (new_trie_node name) Q mem.
Proof.
  intros HH Hname HNone HSome. pose proof (zlen_nonneg name) as Hl0. unfold node_cost, new_trie_node, TRIE_NODE_SIZE in *.
  apply wp_bind. eapply wp_allocate; [done|lia|intros; by apply wp_ret, HNone|]. intros mem1 HH1 Hfresh.
  replace (20 + zlen name + 1) with (4 + (16 + (zlen name + 1))) in HH1 at 1 by lia.
  rewrite !zeros_split in HH1 by lia.
  apply wp_bind. eapply wp_store_raw_first; [exact HH1|apply lookup_insert_eq|done|].
  intros mem2 HH2. rewrite insert_insert_eq in HH2. apply wp_bind.
  eapply (wp_write_raw _ _ _ used (le_bytes 4 (zlen name) ++ replicate (Z.to_nat 16) x00));
    [exact HH2|rewrite lookup_insert_eq; by rewrite <- app_assoc|done|by rewrite zlen_zeros|].
  intros mem3 HH3. rewrite insert_insert_eq in HH3. apply wp_bind.
  replace (used + 20 + zlen name) with (used + (20 + zlen name)) by lia.
  eapply (wp_write_raw _ _ _ used ((le_bytes 4 (zlen name) ++ replicate (Z.to_nat 16) x00) ++ name) [x00] []);
    [exact HH3|rewrite lookup_insert_eq; by rewrite <- !app_assoc|by rewrite !zlen_app, zlen_le_bytes|done|].
  intros mem4 HH4. rewrite insert_insert_eq in HH4. apply wp_ret. eapply HSome; [|done].
  assert (in_u 32 (zlen name)) as Hin.
  { destruct (hk_obj _ _ _ HH4 used _ (lookup_insert_eq _ _ _)) as (? & _ & [_ Hu] & _). pose proof (hk_range _ _ _ HH4) as (? & _ & ?).
    cbn [encode] in Hu. rewrite !zlen_app in Hu. pose proof (zlen_nonneg (le_bytes 4 (zlen name))).
    pose proof (zlen_nonneg (replicate (Z.to_nat 16) x00)). change (zlen [x00]) with 1 in Hu. change (zlen []) with 0 in Hu.
    unfold in_u. lia. }
  rewrite <- (insert_insert_eq h used _ (ORaw (((le_bytes 4 (zlen name) ++ replicate (Z.to_nat 16) x00) ++ name) ++ [x00] ++ []))).
  eapply (heap_recast _ _ _ _ _ _ [x00]); [exact HH4|apply lookup_insert_eq| | |].
  - cbn [encode]. rewrite <- !app_assoc. done.
  - rewrite zlen_node. unfold TRIE_NODE_SIZE. lia.
  - split; [done|]. rewrite !list.Forall_cons. by repeat split.
Qed.

(** A property with a value in its place, and with one elsewhere. *)
Definition short_field (value : list byte) : list byte :=
  value ++ [x00] ++ replicate (Z.to_nat (PROP_VALUE_MAX - 1 - zlen value)) x00.
Definition short_serial (value : list byte) : Z := as_u 32 (Z.shiftl (zlen value) 24).
Definition long_field (relative : Z) : list byte :=
  LONG_LEGACY_ERROR ++ [x00] ++ replicate 5 x00 ++ le_bytes 4 relative ++ replicate 32 x00.
Definition long_serial : Z := Z.lor (Z.shiftl (zlen LONG_LEGACY_ERROR) 24) LONG_FLAG.

Lemma zlen_short_field value : zlen value < PROP_VALUE_MAX -> zlen (short_field value) = PROP_VALUE_MAX.
Proof.
  intros Hv. pose proof (zlen_nonneg value). unfold short_field. rewrite !zlen_app, zlen_zeros by lia.
  change (zlen [x00]) with 1. lia.
Qed.

Lemma heap_forget mem h used off o : heap_ok mem (<[off := o]> h) used -> h !! off = None -> heap_ok mem h used.
Proof.
  intros [Hu Hm Hr Hobj Hapart Hz] Hoff.
  assert (forall off' o', h !! off' = Some o' -> <[off := o]> h !! off' = Some o') as Hin.
  { intros off' o' Ho'. apply lookup_insert_Some. right. split; [congruence|done]. }
  split; try done; [intros off' o' Ho'; by apply Hobj, Hin|]. intros off1 o1 off2 o2 H1 H2. eauto.
Qed.

Lemma wp_short_info mem h used off name value (Q : option Z -> Area -> Prop) :
  heap_ok mem (<[off := ORaw (replicate (Z.to_nat (PROP_INFO_SIZE + zlen name + 1)) x00)]> h) used ->
  zlen value < PROP_VALUE_MAX ->
  (forall mem', heap_ok mem' (<[off := OInfo name (short_serial value) (short_field value)]> h) used -> Q (Some off) mem') ->
  wp E (write_bytes (off + PROP_INFO_SIZE) name;;
        write_bytes (off + PROP_INFO_SIZE + zlen name) [x00];;
        store_word off (as_u 32 (Z.shiftl (zlen value) 24));;
        write_bytes (off + 4) value;;
        write_bytes (off + 4 + zlen value) [x00];;
        mret (Some off)) Q mem.
Proof.
  intros HH Hv HQ. pose proof (zlen_nonneg name). pose proof (zlen_nonneg value). unfold PROP_INFO_SIZE, PROP_VALUE_MAX in *.
  set (pad := 91 - zlen value).
  replace (96 + zlen name + 1) with (4 + (zlen value + (1 + (pad + (zlen name + 1))))) in HH by (unfold pad; lia).
  rewrite !zeros_split in HH by (unfold pad; lia).
  set (z4 := replicate (Z.to_nat 4) x00) in *. set (zv := replicate (Z.to_nat (zlen value)) x00) in *.
  set (z1 := replicate (Z.to_nat 1) x00) in *. set (zp := replicate (Z.to_nat pad) x00) in *.
  assert (zlen z4 = 4) by done. assert (zlen zv = zlen value) by (by apply zlen_zeros).
  assert (zlen z1 = 1) by done. assert (zlen zp = pad) by (apply zlen_zeros; unfold pad; lia).
  assert (zp = replicate (Z.to_nat pad) x00) as Hzp by done.
  set (zn := replicate (Z.to_nat (zlen name)) x00) in *. assert (zlen zn = zlen name) by (by apply zlen_zeros).
  clearbody z4 zv z1 zp zn. apply wp_bind. eapply (wp_write_raw _ _ _ off (z4 ++ zv ++ z1 ++ zp) zn z1);
    [exact HH|rewrite lookup_insert_eq; by rewrite <- !app_assoc|rewrite !zlen_app; unfold pad in *; lia|done|].
  intros mem1 HH1. rewrite insert_insert_eq in HH1. apply wp_bind.
  replace (off + 96 + zlen name) with (off + (96 + zlen name)) by lia.
  eapply (wp_write_raw _ _ _ off ((z4 ++ zv ++ z1 ++ zp) ++ name) z1 []);
    [exact HH1|rewrite lookup_insert_eq; by rewrite <- !app_assoc, app_nil_r|rewrite !zlen_app; unfold pad in *; lia|done|].
  intros mem2 HH2. rewrite insert_insert_eq in HH2. apply wp_bind.
  eapply (wp_store_raw_first _ _ _ off z4 (zv ++ z1 ++ zp ++ name ++ [x00])); [exact HH2|rewrite lookup_insert_eq; by rewrite <- !app_assoc, ?app_nil_r|done|].
  intros mem3 HH3. rewrite insert_insert_eq in HH3. apply wp_bind.
  eapply (wp_write_raw _ _ _ off (le_bytes 4 _) zv (z1 ++ zp ++ name ++ [x00])); [exact HH3|by rewrite lookup_insert_eq|done|done|].
  intros mem4 HH4. rewrite insert_insert_eq in HH4. apply wp_bind.
  replace (off + 4 + zlen value) with (off + (4 + zlen value)) by lia.
  eapply (wp_write_raw _ _ _ off (le_bytes 4 (as_u 32 (Z.shiftl (zlen value) 24)) ++ value) z1 (zp ++ name ++ [x00]));
    [exact HH4|rewrite lookup_insert_eq; by rewrite <- !app_assoc|by rewrite zlen_app|done|].
  intros mem5 HH5. rewrite insert_insert_eq in HH5. apply wp_ret, HQ.
  rewrite <- (insert_insert_eq h off _ (ORaw ((le_bytes 4 (as_u 32 (Z.shiftl (zlen value) 24)) ++ value) ++ [x00] ++ zp ++ name ++ [x00]))).
  eapply (heap_recast _ _ _ _ _ _ []); [exact HH5|apply lookup_insert_eq| | |].
  - cbn [encode]. unfold short_field, short_serial. change (PROP_VALUE_MAX - 1 - zlen value) with pad.
    rewrite <- Hzp, <- !app_assoc, app_nil_r. done.
  - rewrite zlen_info by (by apply zlen_short_field). unfold PROP_INFO_SIZE. lia.
  - split; [|by apply zlen_short_field]. unfold short_serial, as_u, in_u. apply Z.mod_pos_bound. done.
Qed.

Lemma wp_long_value {B} mem h used long value (k : M Area B) (Q : B -> Area -> Prop) :
  heap_ok mem h used -> h !! long = Some (ORaw (replicate (Z.to_nat (zlen value + 1)) x00)) ->
  (forall mem', heap_ok mem' (<[long := ORaw (value ++ [x00])]> h) used -> wp E k Q mem') ->
  wp E (write_bytes long value;; write_bytes (long + zlen value) [x00];; k) Q mem.
Proof.
  intros HH Hlong HQ. pose proof (zlen_nonneg value). rewrite zeros_split in Hlong by lia.
  apply wp_bind. eapply wp_write_raw_first; [exact HH|exact Hlong|by rewrite zlen_zeros|]. intros mem1 HH1.
  apply wp_bind. eapply (wp_write_raw _ _ _ long value [x00] []); [exact HH1|by rewrite lookup_insert_eq|done|done|].
  intros mem2 HH2. rewrite insert_insert_eq in HH2. by apply HQ.
Qed.

Lemma zlen_long_field relative : zlen (long_field relative) = PROP_VALUE_MAX.
Proof. unfold long_field. rewrite !zlen_app, zlen_le_bytes. done. Qed.

Lemma wp_long_info mem h used off name relative (Q : option Z -> Area -> Prop) :
  heap_ok mem h used -> h !! off = Some (ORaw (replicate (Z.to_nat (PROP_INFO_SIZE + zlen name + 1)) x00)) ->
  (forall mem', heap_ok mem' (<[off := OInfo name long_serial (long_field relative)]> h) used -> Q (Some off) mem') ->
  wp E (write_bytes (off + PROP_INFO_SIZE) name;;
        write_bytes (off + PROP_INFO_SIZE + zlen name) [x00];;
        store_word off long_serial;;
        write_bytes (off + 4) LONG_LEGACY_ERROR;;
        write_bytes (off + 4 + zlen LONG_LEGACY_ERROR) [x00];;
        store_word (off + LONG_OFFSET_FIELD) relative;;
        mret (Some off)) Q mem.
Proof.
  intros HH Hoff HQ. pose proof (zlen_nonneg name). unfold PROP_INFO_SIZE, LONG_OFFSET_FIELD in *.
  change (zlen LONG_LEGACY_ERROR) with 50.
  replace (96 + zlen name + 1) with (4 + (50 + (1 + (5 + (4 + (32 + (zlen name + 1))))))) in Hoff by lia.
  rewrite !zeros_split in Hoff by lia. remember (replicate (Z.to_nat (zlen name)) x00) as zn eqn:Hzn.
  assert (zlen zn = zlen name) by (rewrite Hzn; by apply zlen_zeros). clear Hzn.
  change (replicate (Z.to_nat 5) x00) with (replicate 5 x00) in Hoff. change (replicate (Z.to_nat 32) x00) with (replicate 32 x00) in Hoff.
  remember (replicate (Z.to_nat 4) x00) as z4 eqn:Hz4. remember (replicate (Z.to_nat 50) x00) as z50 eqn:Hz50.
  remember (replicate (Z.to_nat 1) x00) as z1 eqn:Hz1. remember (replicate 5 x00) as z5 eqn:Hz5.
  remember (replicate 32 x00) as z32 eqn:Hz32. remember LONG_LEGACY_ERROR as err eqn:Herr.
  assert (zlen z4 = 4 /\ zlen z50 = 50 /\ zlen z1 = 1 /\ zlen z5 = 5 /\ zlen z32 = 32 /\ zlen err = 50) as (? & ? & ? & ? & ? & ?)
    by (by subst).
  apply wp_bind. eapply (wp_write_raw _ _ _ off (z4 ++ z50 ++ z1 ++ z5 ++ z4 ++ z32) zn z1);
    [exact HH|rewrite Hoff; by rewrite <- !app_assoc|rewrite !zlen_app; lia|done|].
  intros mem1 HH1. apply wp_bind. replace (off + 96 + zlen name) with (off + (96 + zlen name)) by lia.
  eapply (wp_write_raw _ _ _ off ((z4 ++ z50 ++ z1 ++ z5 ++ z4 ++ z32) ++ name) z1 []);
    [exact HH1|rewrite lookup_insert_eq; by rewrite <- !app_assoc, app_nil_r|rewrite !zlen_app; lia|done|].
  intros mem2 HH2. rewrite insert_insert_eq in HH2. apply wp_bind.
  eapply (wp_store_raw_first _ _ _ off z4 (z50 ++ z1 ++ z5 ++ z4 ++ z32 ++ name ++ [x00]));
    [exact HH2|rewrite lookup_insert_eq; by rewrite <- !app_assoc, ?app_nil_r|done|].
  intros mem3 HH3. rewrite insert_insert_eq in HH3. apply wp_bind.
  eapply (wp_write_raw _ _ _ off (le_bytes 4 long_serial) z50 (z1 ++ z5 ++ z4 ++ z32 ++ name ++ [x00]));
    [exact HH3|by rewrite lookup_insert_eq|done|lia|].
  intros mem4 HH4. rewrite insert_insert_eq in HH4. apply wp_bind. replace (off + 4 + 50) with (off + 54) by lia.
  eapply (wp_write_raw _ _ _ off (le_bytes 4 long_serial ++ err) z1 (z5 ++ z4 ++ z32 ++ name ++ [x00]));
    [exact HH4|rewrite lookup_insert_eq; by rewrite <- !app_assoc|rewrite zlen_app, zlen_le_bytes; lia|done|].
  intros mem5 HH5. rewrite insert_insert_eq in HH5. apply wp_bind.
  eapply (wp_store_raw _ _ _ off (le_bytes 4 long_serial ++ err ++ [x00] ++ z5) z4 (z32 ++ name ++ [x00]));
    [exact HH5|rewrite lookup_insert_eq; by rewrite <- !app_assoc|rewrite !zlen_app, zlen_le_bytes; change (zlen [x00]) with 1; lia|done|done|].
  intros mem6 HH6. rewrite insert_insert_eq in HH6. apply wp_ret, HQ.
  rewrite <- (insert_insert_eq h off _ (ORaw ((le_bytes 4 long_serial ++ err ++ [x00] ++ z5) ++ le_bytes 4 relative ++ z32 ++ name ++ [x00]))).
  eapply (heap_recast _ _ _ _ _ _ []); [exact HH6|apply lookup_insert_eq| | |].
  - cbn [encode]. unfold long_field. rewrite <- Hz5, <- Hz32, <- Herr, <- !app_assoc, app_nil_r. done.
  - rewrite zlen_info by apply zlen_long_field. unfold PROP_INFO_SIZE. lia.
  - split; [done|apply zlen_long_field].
Qed.

(** What a property takes. *)
Definition info_cost (name value : list byte) : Z :=
  align4 (PROP_INFO_SIZE + zlen name + 1) + if PROP_VALUE_MAX <=? zlen value then align4 (zlen value + 1) else 0.

Lemma wp_new_prop_info mem h used name value (Q : option Z -> Area -> Prop) :
  heap_ok mem h used ->
  (forall mem' used', heap_ok mem' h used' -> data_size mem' < used + info_cost name value -> Q None mem') ->
  (forall mem', zlen value < PROP_VALUE_MAX ->
     heap_ok mem' (<[used := OInfo name (short_serial value) (short_field value)]> h) (used + info_cost name value) ->
     h !! used = None -> Q (Some used) mem') ->
  (forall mem' long, PROP_VALUE_MAX <= zlen value -> used < long < 2 ^ 32 ->
     heap_ok mem' (<[used := OInfo name long_serial (long_field (long - used))]> (<[long := ORaw (value ++ [x00])]> h))
       (used + info_cost name value) ->
     h !! used = None -> h !! long = None -> Q (Some used) mem') ->
  wp E (new_prop_info name value) Q mem.
Proof.
  intros HH HNone Hshort Hlong. pose proof (zlen_nonneg name). pose proof (zlen_nonneg value). unfold new_prop_info, info_cost in *.
  apply wp_bind. eapply wp_allocate; [done|unfold PROP_INFO_SIZE; lia|intros Hfull|intros mem1 HH1 Hf1].
  { eapply wp_ret, HNone; [exact HH|]. pose proof (align4_spec (zlen value + 1)). case_match; lia. }
  set (n := PROP_INFO_SIZE + zlen name + 1) in *.
  destruct (Z.leb_spec PROP_VALUE_MAX (zlen value)) as [Hv|Hv]; cycle 1.
  { eapply wp_short_info; [exact HH1|done|]. intros mem2 HH2. eapply Hshort; [done| |done]. by rewrite Z.add_0_r. }
  apply wp_bind. eapply wp_allocate; [exact HH1|lia|intros; eapply wp_ret, HNone; [by eapply heap_forget|lia]|]. intros mem2 HH2 Hf2.
  destruct (align4_spec n) as [Ha _]; [unfold n, PROP_INFO_SIZE; lia|]. set (long := used + align4 n) in *.
  assert (used < long) as Hlt by (unfold long, n, PROP_INFO_SIZE in *; lia).
  assert (h !! long = None) as Hf2' by (by rewrite lookup_insert_ne in Hf2 by lia).
  assert (long < 2 ^ 32) as Hlong32.
  { destruct (hk_obj _ _ _ HH2 long _ (lookup_insert_eq _ _ _)) as (_ & _ & ? & _).
    pose proof (hk_range _ _ _ HH2) as (? & _ & ?). lia. }
  eapply wp_long_value; [exact HH2|apply lookup_insert_eq|]. intros mem3 HH3. rewrite insert_insert_eq in HH3.
  unfold as_u. rewrite (Z.mod_small (long - used)) by (pose proof (hk_range _ _ _ HH); lia).
  eapply wp_long_info; [exact HH3|rewrite lookup_insert_ne by lia; apply lookup_insert_eq|].
  intros mem4 HH4. rewrite (insert_insert_ne _ long used) in HH4 by lia. rewrite insert_insert_eq in HH4.
  apply (Hlong mem4 long); [done|done| |done|done]. by rewrite Z.add_assoc.
Qed.

End rules.
