(* ===== verification/AreaTrie.v ===== *)
(** The trie of an area's names on its heap: what the searches of [Area] find,
    and that adding a node or a property changes nothing else. *)

From Stdlib Require Import ZArith Lia.
From Stdlib Require Import Strings.Byte.
From stdpp Require Import base numbers list gmap.
From S2P Require Import Prelude Text Bytes Area AreaHeap.

Open Scope Z_scope.

(** ** Names *)

Lemma cmp_bytes_refl a : cmp_bytes a a = 0.
Proof. induction a as [|x a IH]; [done|]. cbn. rewrite decide_True by done. by case_decide. Qed.

Lemma cmp_bytes_eq a b : no_nul a -> length a = length b -> cmp_bytes a b = 0 -> a = b.
Proof.
  unfold no_nul. revert b. induction a as [|x a IH]; intros [|y b] Ha Hlen Hc; try done.
  apply not_elem_of_cons in Ha as [Hx Ha]. cbn in Hc. case_decide as Hxy.
  - rewrite decide_False in Hc by congruence. subst y. f_equal. apply IH; [done|by injection Hlen|done].
  - destruct Hxy. apply byte_to_Z_inj. lia.
Qed.

Lemma cmp_prop_name_0 a b : no_nul a -> cmp_prop_name a b = 0 <-> a = b.
Proof.
  intros Ha. unfold cmp_prop_name, zlen. split.
  - repeat case_match; try lia. intros Hc. apply cmp_bytes_eq; [done|lia|done].
  - intros ->. rewrite Z.ltb_irrefl. apply cmp_bytes_refl.
Qed.

(** The segments of a name. *)
Inductive segs_of : list byte -> list (list byte) -> Prop :=
| segs_last rem seg : split_segment rem = (seg, None) -> seg <> [] -> segs_of rem [seg]
| segs_more rem seg rest segs :
    split_segment rem = (seg, Some rest) -> seg <> [] -> segs_of rest segs -> segs_of rem (seg :: segs).

Lemma split_segment_eq rem seg rest :
  split_segment rem = (seg, rest) -> rem = seg ++ match rest with Some rest => x2e :: rest | None => [] end.
Proof.
  unfold split_segment, position. destruct (list_find _ rem) as [[i b]|] eqn:Hf; cbn; intros [= <- <-].
  - apply list_find_Some in Hf as (Hi & Hb & _). apply bool_decide_eq_true_1 in Hb. subst b.
    by rewrite take_drop_middle.
  - by rewrite app_nil_r.
Qed.

(** Two names with the same segments are the same. *)
Lemma segs_of_inj a b segs : segs_of a segs -> segs_of b segs -> a = b.
Proof.
  intros Ha. revert b. induction Ha as [a seg Ha _|a seg rest segs Ha _ Hr IH]; intros b Hb.
  - inversion Hb as [? ? Hs|? ? ? ? Hs ? Hs']; subst; [|inversion Hs'].
    apply split_segment_eq in Ha, Hs. by rewrite Ha, Hs.
  - inversion Hb as [? ? Hs|? ? ? ? Hs ? Hs']; subst; [inversion Hr|].
    apply split_segment_eq in Ha, Hs. rewrite Ha, Hs. do 2 f_equal. by apply IH.
Qed.

Lemma segs_of_det a segs segs' : segs_of a segs -> segs_of a segs' -> segs = segs'.
Proof.
  intros Ha. revert segs'. induction Ha as [a seg Ha Hne|a seg rest segs Ha Hne Hr IH]; intros segs' Hb;
    inversion Hb as [? ? Hs|? ? ? ? Hs ? Hs']; subst; rewrite Ha in Hs; simplify_eq; [done|].
  f_equal. by apply IH.
Qed.

(** ** The trie *)

(** A node's name and links. *)
Definition skel (h : heap) (n : Z) : option (list byte * (Z * Z * Z)) :=
  match h !! n with Some (ONode nm _ l r c) => Some (nm, (l, r, c)) | _ => None end.
Definition prop_of (h : heap) (n : Z) : Z := match h !! n with Some (ONode _ p _ _ _) => p | _ => 0 end.

(** The link that a comparison leads to. *)
Definition side (ordering : Z) (links : Z * Z * Z) : Z := let '(l, r, _) := links in if ordering <? 0 then l else r.
Definition side_field (ordering : Z) : Z := if ordering <? 0 then 8 else 12.

(** The link of a field. *)
Definition get_link (f : Z) (links : Z * Z * Z) : Z :=
  let '(l, r, c) := links in if f =? 8 then l else if f =? 12 then r else c.

(** A search among siblings that finds, and one that ends at an empty link. *)
Inductive finds (h : heap) (seg : list byte) : Z -> Z -> Prop :=
| finds_here n nm links : skel h n = Some (nm, links) -> cmp_prop_name seg nm = 0 -> finds h seg n n
| finds_side n nm links t :
    skel h n = Some (nm, links) -> cmp_prop_name seg nm <> 0 -> side (cmp_prop_name seg nm) links <> 0 ->
    finds h seg (side (cmp_prop_name seg nm) links) t -> finds h seg n t.

Inductive misses (h : heap) (seg : list byte) : Z -> Z -> Z -> Prop :=
| misses_here n nm links :
    skel h n = Some (nm, links) -> cmp_prop_name seg nm <> 0 -> side (cmp_prop_name seg nm) links = 0 ->
    misses h seg n n (side_field (cmp_prop_name seg nm))
| misses_side n nm links k f :
    skel h n = Some (nm, links) -> cmp_prop_name seg nm <> 0 -> side (cmp_prop_name seg nm) links <> 0 ->
    misses h seg (side (cmp_prop_name seg nm) links) k f -> misses h seg n k f.

(** A search by segments, from a node down. *)
Inductive walk (h : heap) : Z -> list (list byte) -> Z -> Prop :=
| walk_nil n : walk h n [] n
| walk_cons n nm l r c seg segs k t :
    skel h n = Some (nm, (l, r, c)) -> c <> 0 -> finds h seg c k -> walk h k segs t -> walk h n (seg :: segs) t.

Lemma finds_det h seg n t t' : finds h seg n t -> finds h seg n t' -> t = t'.
Proof.
  induction 1 as [n nm links Hs Hc|n nm links t Hs Hc Hl _ IH]; inversion 1 as [? ? ? Hs'|? ? ? ? Hs']; subst;
    rewrite Hs in Hs'; simplify_eq; eauto; done.
Qed.

Lemma finds_misses h seg n t k f : finds h seg n t -> misses h seg n k f -> False.
Proof.
  induction 1 as [n nm links Hs Hc|n nm links t Hs Hc Hl _ IH]; inversion 1 as [? ? ? Hs'|? ? ? ? ? Hs']; subst;
    rewrite Hs in Hs'; simplify_eq; eauto; done.
Qed.

Lemma walk_det h n segs t t' : walk h n segs t -> walk h n segs t' -> t = t'.
Proof.
  intros Hw. revert t'. induction Hw as [n|n nm l r c seg segs k t Hs Hc Hf _ IH]; intros t' Hw'.
  - by inversion Hw'.
  - inversion Hw' as [|? ? ? ? ? ? ? k' ? Hs' Hc' Hf' Hw'']; subst. rewrite Hs in Hs'. simplify_eq.
    rewrite (finds_det _ _ _ _ _ Hf Hf') in *. by apply IH.
Qed.

(** *** The invariant

    [dirs] maps a node to the one whose children it is among, and at most one link leads to a node. *)
Record trie_ok (h : heap) (dirs : gmap Z Z) : Prop := mkTrie {
  tr_root : exists c, h !! 0 = Some (ONode [] 0 0 0 c);
  tr_dir_root : dirs !! 0 = None;
  tr_name : forall n nm links, skel h n = Some (nm, links) -> no_nul nm;
  tr_dir : forall n nm links, skel h n = Some (nm, links) -> n <> 0 -> is_Some (dirs !! n) /\ nm <> [];
  tr_left : forall n nm l r c, skel h n = Some (nm, (l, r, c)) -> l <> 0 ->
    n < l /\ is_Some (skel h l) /\ dirs !! l = dirs !! n;
  tr_right : forall n nm l r c, skel h n = Some (nm, (l, r, c)) -> r <> 0 ->
    n < r /\ is_Some (skel h r) /\ dirs !! r = dirs !! n;
  tr_children : forall n nm l r c, skel h n = Some (nm, (l, r, c)) -> c <> 0 ->
    n < c /\ is_Some (skel h c) /\ dirs !! c = Some n;
  tr_unique : forall n nm links f n' nm' links' f',
    skel h n = Some (nm, links) -> skel h n' = Some (nm', links') ->
    f = 8 \/ f = 12 \/ f = 16 -> f' = 8 \/ f' = 12 \/ f' = 16 ->
    get_link f links <> 0 -> get_link f' links' = get_link f links -> n' = n /\ f' = f;
}.

(** Where a link leads. *)
Lemma tr_link h dirs n nm links f :
  trie_ok h dirs -> skel h n = Some (nm, links) -> f = 8 \/ f = 12 \/ f = 16 -> get_link f links <> 0 ->
  n < get_link f links /\ is_Some (skel h (get_link f links)).
Proof.
  intros HT Hs Hf Hne. destruct links as [[l r] c]. destruct Hf as [->|[->| ->]]; cbn in *.
  - destruct (tr_left _ _ HT _ _ _ _ _ Hs Hne) as (? & ? & _). done.
  - destruct (tr_right _ _ HT _ _ _ _ _ Hs Hne) as (? & ? & _). done.
  - destruct (tr_children _ _ HT _ _ _ _ _ Hs Hne) as (? & ? & _). done.
Qed.

Lemma tr_side h dirs n nm links ordering :
  trie_ok h dirs -> skel h n = Some (nm, links) -> side ordering links <> 0 ->
  n < side ordering links /\ is_Some (skel h (side ordering links)) /\ dirs !! side ordering links = dirs !! n.
Proof.
  intros HT Hs. destruct links as [[l r] c]. unfold side. case_match; intros Hne.
  - by eapply tr_left.
  - by eapply tr_right.
Qed.

Lemma finds_same h dirs seg n t :
  trie_ok h dirs -> no_nul seg -> finds h seg n t ->
  dirs !! t = dirs !! n /\ exists links, skel h t = Some (seg, links).
Proof.
  intros HT Hseg. induction 1 as [n nm links Hs Hc|n nm links t Hs Hc Hl _ [IH1 IH2]].
  - apply cmp_prop_name_0 in Hc; [|done]. subst nm. eauto.
  - split; [|done]. rewrite IH1. by eapply tr_side.
Qed.

(** The path of a node from the root. *)
Inductive path (h : heap) (dirs : gmap Z Z) : Z -> list (list byte) -> Prop :=
| path_root : path h dirs 0 []
| path_node n d nm links p :
    dirs !! n = Some d -> skel h n = Some (nm, links) -> path h dirs d p -> path h dirs n (p ++ [nm]).

Lemma path_det h dirs n p p' : trie_ok h dirs -> path h dirs n p -> path h dirs n p' -> p = p'.
Proof.
  intros HT Hp. revert p'. pose proof (tr_dir_root _ _ HT).
  induction Hp as [|n d nm links p Hd Hs _ IH]; intros p' Hp'; inversion Hp' as [|? d' nm' links' q Hd' Hs' Hq]; subst;
    try congruence. rewrite Hs in Hs'. rewrite Hd in Hd'. simplify_eq. by rewrite (IH q Hq).
Qed.

Lemma walk_path h dirs n segs t p :
  trie_ok h dirs -> Forall no_nul segs -> walk h n segs t -> path h dirs n p -> path h dirs t (p ++ segs).
Proof.
  intros HT Hsegs Hw. revert p. induction Hw as [n|n nm l r c seg segs k t Hs Hc Hf _ IH]; intros p Hp.
  - by rewrite app_nil_r.
  - apply list.Forall_cons in Hsegs as [Hseg Hsegs]. destruct (finds_same _ _ _ _ _ HT Hseg Hf) as [Hd [links Hk]].
    rewrite (cons_middle seg p segs), app_assoc. apply IH; [done|]. eapply path_node; [|exact Hk|exact Hp].
    rewrite Hd. by eapply tr_children.
Qed.

(** Different names lead to different nodes. *)
Lemma walk_inj h dirs segs segs' t :
  trie_ok h dirs -> Forall no_nul segs -> Forall no_nul segs' -> walk h 0 segs t -> walk h 0 segs' t -> segs = segs'.
Proof.
  intros HT H1 H2 W1 W2. eapply (path_det h dirs t); [done|..].
  - by apply (walk_path h dirs 0 segs t []); [..|constructor].
  - by apply (walk_path h dirs 0 segs' t []); [..|constructor].
Qed.

(** *** A new node at an empty link *)

Definition set_link (f v : Z) (links : Z * Z * Z) : Z * Z * Z :=
  let '(l, r, c) := links in if f =? 8 then (v, r, c) else if f =? 12 then (l, v, c) else (l, r, v).

Record grown (h : heap) (k f N : Z) (seg : list byte) (h' : heap) : Prop := mkGrown {
  gr_field : f = 8 \/ f = 12 \/ f = 16;
  gr_fresh : h !! N = None /\ N <> 0 /\ k < N;
  gr_link : exists nm links, skel h k = Some (nm, links) /\ get_link f links = 0 /\
    skel h' k = Some (nm, set_link f N links);
  gr_new : h' !! N = Some (ONode seg 0 0 0 0);
  gr_other : forall n, n <> k -> n <> N -> h' !! n = h !! n;
  gr_prop : prop_of h' k = prop_of h k;
}.

Lemma grown_store h k f N seg o :
  f = 8 \/ f = 12 \/ f = 16 -> h !! N = None -> N <> 0 -> k < N -> h !! k = Some o -> node_field o f = Some 0 ->
  grown h k f N seg (<[k := set_node_field o f N]> (<[N := ONode seg 0 0 0 0]> h)).
Proof.
  intros Hf HN HN0 Hk Ho Hz. destruct o as [nm p l r c| |]; try done. split; try done.
  - exists nm, (l, r, c). unfold skel. rewrite Ho, lookup_insert_eq. cbn in *.
    destruct Hf as [->|[->| ->]]; cbn in *; by simplify_eq.
  - by rewrite lookup_insert_ne, lookup_insert_eq by lia.
  - intros n Hn Hn'. by rewrite !lookup_insert_ne by done.
  - unfold prop_of. rewrite Ho, lookup_insert_eq. by destruct Hf as [->|[->| ->]].
Qed.

Section grown.
Context (h h' : heap) (dirs : gmap Z Z) (k f N : Z) (seg : list byte).
Hypotheses (HT : trie_ok h dirs) (Hg : grown h k f N seg h').

Lemma grown_skel_other n : n <> k -> n <> N -> skel h' n = skel h n.
Proof. intros. unfold skel. by rewrite (gr_other _ _ _ _ _ _ Hg). Qed.

Lemma grown_skel_new : skel h' N = Some (seg, (0, 0, 0)).
Proof. unfold skel. by rewrite (gr_new _ _ _ _ _ _ Hg). Qed.

Lemma grown_skel_old n s : skel h n = Some s -> n <> N.
Proof. intros Hs ->. unfold skel in Hs. destruct (gr_fresh _ _ _ _ _ _ Hg) as [HN _]. by rewrite HN in Hs. Qed.

(** What an old node becomes. *)
Lemma grown_skel n nm links :
  skel h n = Some (nm, links) ->
  skel h' n = Some (nm, if decide (n = k) then set_link f N links else links).
Proof.
  intros Hs. pose proof (grown_skel_old _ _ Hs). destruct (decide (n = k)) as [->|]; [|by rewrite grown_skel_other].
  destruct (gr_link _ _ _ _ _ _ Hg) as (nm' & links' & Hk & _ & Hk'). congruence.
Qed.

Lemma grown_side n nm links ordering :
  skel h n = Some (nm, links) -> side ordering links <> 0 ->
  side ordering (if decide (n = k) then set_link f N links else links) = side ordering links.
Proof.
  intros Hs Hne. case_decide; [|done]. subst n. destruct (gr_link _ _ _ _ _ _ Hg) as (nm' & links' & Hk & Hz & _).
  assert (links' = links) as -> by congruence. destruct links as [[l r] c]. unfold side, set_link, get_link in *.
  destruct (gr_field _ _ _ _ _ _ Hg) as [->|[->| ->]]; cbn in *; case_match; done.
Qed.

Lemma grown_children n nm l r c :
  skel h n = Some (nm, (l, r, c)) -> c <> 0 ->
  exists l' r', skel h' n = Some (nm, (l', r', c)).
Proof.
  intros Hs Hne. rewrite (grown_skel _ _ _ Hs). case_decide; [|eauto]. subst n.
  destruct (gr_link _ _ _ _ _ _ Hg) as (nm' & links' & Hk & Hz & _).
  assert (links' = (l, r, c)) as -> by congruence. unfold set_link, get_link in *.
  destruct (gr_field _ _ _ _ _ _ Hg) as [->|[->| ->]]; cbn in *; eauto; done.
Qed.

Lemma grown_finds s n t : finds h s n t -> finds h' s n t.
Proof.
  induction 1 as [n nm links Hs Hc|n nm links t Hs Hc Hl _ IH].
  - eapply finds_here; [by apply grown_skel|done].
  - pose proof (grown_side _ _ _ (cmp_prop_name s nm) Hs Hl) as Heq.
    eapply finds_side; [by apply grown_skel|done|by rewrite Heq|by rewrite Heq].
Qed.

Lemma grown_walk n segs t : walk h n segs t -> walk h' n segs t.
Proof.
  induction 1 as [n|n nm l r c s segs m t Hs Hc Hf _ IH]; [constructor|].
  destruct (grown_children _ _ _ _ _ Hs Hc) as (l' & r' & Hs').
  eapply walk_cons; [done|done|by apply grown_finds|done].
Qed.

(** From the new node nothing is found but itself. *)
Lemma grown_finds_new s t : finds h' s N t -> t = N.
Proof.
  inversion 1 as [|? ? ? ? Hs ? Hl]; subst; [done|]. rewrite grown_skel_new in Hs. simplify_eq.
  unfold side in Hl. by destruct (_ <? _).
Qed.

Lemma grown_walk_new segs t : walk h' N segs t -> t = N.
Proof.
  inversion 1 as [|? ? ? ? ? ? ? ? ? Hs Hc]; subst; [done|]. rewrite grown_skel_new in Hs. by simplify_eq.
Qed.

Lemma side_set ordering links :
  side ordering (set_link f N links) = N \/ side ordering (set_link f N links) = side ordering links.
Proof. destruct links as [[l r] c]. unfold side, set_link. repeat case_match; simplify_eq; auto. Qed.

Lemma grown_finds_inv s n t :
  finds h' s n t -> is_Some (skel h n) -> t <> N -> finds h s n t.
Proof.
  induction 1 as [n nm links Hs Hc|n nm links t Hs Hc Hl Hf IH]; intros [[nm' links'] Hn] Ht;
    pose proof (grown_skel _ _ _ Hn) as Hn'; rewrite Hs in Hn'; simplify_eq.
  - by eapply finds_here.
  - set (ord := cmp_prop_name s nm') in *.
    assert (side ord (if decide (n = k) then set_link f N links' else links') = side ord links') as Heq.
    { case_decide; [|done]. destruct (side_set ord links') as [HN|]; [|done].
      rewrite HN in Hf. by destruct Ht; apply grown_finds_new with s. }
    rewrite Heq in *. eapply finds_side; [exact Hn|done|done|]. apply IH; [|done]. by eapply tr_side.
Qed.

Lemma grown_walk_inv n segs t :
  walk h' n segs t -> is_Some (skel h n) -> t <> N -> walk h n segs t.
Proof.
  induction 1 as [n|n nm l r c s segs m t Hs Hc Hf Hw IH]; intros [[nm' [[l' r'] c']] Hn] Ht; [constructor|].
  pose proof (grown_skel _ _ _ Hn) as Hn'. rewrite Hs in Hn'.
  assert (m <> N) as Hm. { intros ->. apply Ht. by eapply grown_walk_new. }
  assert (c = N \/ c = c') as [->| ->].
  { case_decide; injection Hn' as _ Hlinks; [|right; congruence]. unfold set_link in Hlinks.
    repeat case_match; injection Hlinks; auto. }
  { destruct Hm. by apply grown_finds_new with s. }
  assert (is_Some (skel h c')) as Hc' by (by eapply tr_children).
  pose proof (grown_finds_inv _ _ _ Hf Hc' Hm) as Hfm. eapply walk_cons; [exact Hn|done|exact Hfm|]. apply IH; [|done].
  clear -Hfm. induction Hfm; [eauto|done].
Qed.

(** The missing name is found at the new node. *)
Lemma misses_link n k' f' : misses h seg n k' f' -> k' = k -> f' = f -> finds h' seg n N.
Proof.
  induction 1 as [n nm links Hs Hc Hl|n nm links k' f' Hs Hc Hl _ IH]; intros Hk Hf;
    pose proof (grown_skel _ _ _ Hs) as Hs'.
  - rewrite decide_True, <- Hf in Hs' by done.
    assert (side (cmp_prop_name seg nm) (set_link (side_field (cmp_prop_name seg nm)) N links) = N) as HN.
    { destruct links as [[l r] c]. unfold side, set_link, side_field. by destruct (_ <? 0). }
    eapply finds_side; [exact Hs'|done|rewrite HN; apply (gr_fresh _ _ _ _ _ _ Hg)|]. rewrite HN.
    eapply finds_here; [apply grown_skel_new|]. unfold cmp_prop_name. rewrite Z.ltb_irrefl. apply cmp_bytes_refl.
  - pose proof (grown_side _ _ _ (cmp_prop_name seg nm) Hs Hl) as Heq.
    eapply finds_side; [exact Hs'|done|by rewrite Heq|]. rewrite Heq. by apply IH.
Qed.

(** The new node among the others. *)
Definition grown_dir : option Z := if f =? 16 then Some k else dirs !! k.

(** An old node's links, and where they lead. *)
Lemma grown_back n nm links :
  skel h' n = Some (nm, links) -> n <> N ->
  exists links0, skel h n = Some (nm, links0) /\ links = if decide (n = k) then set_link f N links0 else links0.
Proof.
  intros Hs Hn. destruct (gr_link _ _ _ _ _ _ Hg) as (nmk & linksk & Hk & Hz & Hk').
  destruct (decide (n = k)) as [Heq|].
  - rewrite Heq in *. rewrite Hk' in Hs. injection Hs as <- <-. eauto.
  - rewrite grown_skel_other in Hs by done. eauto.
Qed.

Lemma grown_link n links links0 f0 :
  links = (if decide (n = k) then set_link f N links0 else links0) -> f0 = 8 \/ f0 = 12 \/ f0 = 16 ->
  (n = k /\ f0 = f /\ get_link f0 links = N) \/ get_link f0 links = get_link f0 links0.
Proof.
  intros -> Hf0. case_decide; [|auto]. pose proof (gr_field _ _ _ _ _ _ Hg) as Hf.
  destruct links0 as [[l r] c]. unfold get_link, set_link.
  destruct Hf0 as [-> |[->| ->]], Hf as [Hf|[Hf|Hf]]; rewrite Hf; cbn; auto.
Qed.

(** Where a link of the new trie leads. *)
Lemma grown_leads n nm links f0 d' d :
  grown_dir = Some d -> skel h' n = Some (nm, links) -> f0 = 8 \/ f0 = 12 \/ f0 = 16 -> get_link f0 links <> 0 ->
  (forall links0, skel h n = Some (nm, links0) -> get_link f0 links0 <> 0 ->
     n < get_link f0 links0 /\ is_Some (skel h (get_link f0 links0)) /\ dirs !! get_link f0 links0 = d') ->
  (n = k -> f0 = f -> Some d = d') ->
  n < get_link f0 links /\ is_Some (skel h' (get_link f0 links)) /\ <[N := d]> dirs !! get_link f0 links = d'.
Proof.
  intros Hd Hs Hf0 Hne Hold Hnew. destruct (gr_fresh _ _ _ _ _ _ Hg) as (HN & HN0 & HkN).
  destruct (decide (n = N)) as [Heq|Hn].
  { rewrite Heq, grown_skel_new in Hs. injection Hs as _ <-. destruct Hf0 as [->|[->| ->]]; done. }
  destruct (grown_back _ _ _ Hs Hn) as (links0 & Hs0 & Hl).
  destruct (grown_link n links links0 f0 Hl Hf0) as [(Hk & Hff & HlN)|Heq].
  - rewrite HlN. rewrite Hk, lookup_insert_eq, grown_skel_new. split; [done|]. split; [eauto|auto].
  - rewrite Heq in *. destruct (Hold links0 Hs0 Hne) as (? & [[nm' links'] Hs'] & ?). split; [done|].
    split; [rewrite (grown_skel _ _ _ Hs'); eauto|]. rewrite lookup_insert_ne; [done|].
    apply not_eq_sym. by eapply grown_skel_old.
Qed.

Lemma grown_root d : grown_dir = Some d -> exists c, h' !! 0 = Some (ONode [] 0 0 0 c).
Proof.
  intros Hd. destruct (gr_fresh _ _ _ _ _ _ Hg) as (HN & HN0 & HkN). destruct (tr_root _ _ HT) as [c0 Hr].
  destruct (decide (k = 0)) as [Hk|]; [|exists c0; by rewrite (gr_other _ _ _ _ _ _ Hg)].
  unfold grown_dir in Hd. destruct (Z.eqb_spec f 16) as [Hf|]; [|rewrite Hk, (tr_dir_root _ _ HT) in Hd; done].
  pose proof (gr_prop _ _ _ _ _ _ Hg) as Hp. rewrite Hk in Hp. unfold prop_of in Hp. rewrite Hr in Hp.
  assert (skel h 0 = Some ([], (0, 0, c0))) as Hs by (unfold skel; by rewrite Hr).
  apply grown_skel in Hs. rewrite decide_True, Hf in Hs by done. cbn in Hs. unfold skel in Hs.
  destruct (h' !! 0) as [[nm p l r c| |]|]; try done. simplify_eq. eauto.
Qed.

(** A link of the new trie is one of the old, or the one to the new node. *)
Lemma grown_source n nm links f0 :
  skel h' n = Some (nm, links) -> f0 = 8 \/ f0 = 12 \/ f0 = 16 -> get_link f0 links <> 0 ->
  (n = k /\ f0 = f /\ get_link f0 links = N) \/
  (get_link f0 links <> N /\ exists links0, skel h n = Some (nm, links0) /\ get_link f0 links = get_link f0 links0).
Proof.
  intros Hs Hf0 Hne. destruct (decide (n = N)) as [Heq|Hn].
  { rewrite Heq, grown_skel_new in Hs. injection Hs as _ <-. destruct Hf0 as [->|[->| ->]]; done. }
  destruct (grown_back _ _ _ Hs Hn) as (links0 & Hs0 & Hl).
  destruct (grown_link n links links0 f0 Hl Hf0) as [?|Heq]; [by left|right]. split; [|by exists links0].
  rewrite Heq in *. destruct (tr_link _ _ _ _ _ _ HT Hs0 Hf0 Hne) as [_ [s Hs']]. by eapply grown_skel_old.
Qed.

Lemma grown_ok d : grown_dir = Some d -> no_nul seg -> seg <> [] -> trie_ok h' (<[N := d]> dirs).
Proof.
  intros Hd Hseg Hne. destruct (gr_fresh _ _ _ _ _ _ Hg) as (HN & HN0 & HkN).
  assert (forall n, n <> N -> <[N:=d]> dirs !! n = dirs !! n) as Hdirs by (intros; by rewrite lookup_insert_ne).
  split.
  - by eapply grown_root.
  - rewrite Hdirs by done. apply HT.
  - intros n nm links Hs. destruct (decide (n = N)) as [->|Hn].
    + rewrite grown_skel_new in Hs. by simplify_eq.
    + destruct (grown_back _ _ _ Hs Hn) as (links0 & Hs0 & _). by eapply tr_name.
  - intros n nm links Hs Hn0. destruct (decide (n = N)) as [->|Hn].
    + rewrite grown_skel_new in Hs. simplify_eq. rewrite lookup_insert_eq. eauto.
    + destruct (grown_back _ _ _ Hs Hn) as (links0 & Hs0 & _). rewrite Hdirs by done. by eapply tr_dir.
  - intros n nm l r c Hs Hl. destruct (decide (n = N)) as [->|Hn]; [rewrite grown_skel_new in Hs; by simplify_eq|].
    rewrite (Hdirs n) by done. apply (grown_leads n nm (l, r, c) 8); try done; [auto| |].
    + intros [[l0 r0] c0]. apply (tr_left _ _ HT).
    + intros -> Hf. rewrite <- Hd. unfold grown_dir. by rewrite <- Hf.
  - intros n nm l r c Hs Hl. destruct (decide (n = N)) as [->|Hn]; [rewrite grown_skel_new in Hs; by simplify_eq|].
    rewrite (Hdirs n) by done. apply (grown_leads n nm (l, r, c) 12); try done; [auto| |].
    + intros [[l0 r0] c0]. apply (tr_right _ _ HT).
    + intros -> Hf. rewrite <- Hd. unfold grown_dir. by rewrite <- Hf.
  - intros n nm l r c Hs Hl. apply (grown_leads n nm (l, r, c) 16); try done; [auto| |].
    + intros [[l0 r0] c0]. apply (tr_children _ _ HT).
    + intros -> Hf. rewrite <- Hd. unfold grown_dir. by rewrite <- Hf.
  - intros n nm links f1 n' nm' links' f2 Hs Hs' Hf1 Hf2 Hl Heq.
    destruct (grown_source _ _ _ _ Hs Hf1 Hl) as [(-> & -> & H1)|(H1 & links0 & Hs0 & E1)],
      (grown_source _ _ _ _ Hs' Hf2 ltac:(by rewrite Heq)) as [(-> & -> & H2)|(H2 & links0' & Hs0' & E2)]; [done|congruence..|].
    eapply (tr_unique _ _ HT); [exact Hs0|exact Hs0'|done..|congruence|congruence].
Qed.
End grown.

(** *** The properties of a trie *)

Definition present (h : heap) (name : list byte) (info : Z) : Prop :=
  no_nul name /\ exists segs n, segs_of name segs /\ walk h 0 segs n /\ prop_of h n = info /\ info <> 0.

Lemma grown_prop h k f N seg h' n : grown h k f N seg h' -> prop_of h' n = prop_of h n.
Proof.
  intros Hg. destruct (decide (n = k)) as [->|]; [apply (gr_prop _ _ _ _ _ _ Hg)|].
  destruct (decide (n = N)) as [->|]; [|unfold prop_of; by rewrite (gr_other _ _ _ _ _ _ Hg)].
  unfold prop_of. rewrite (gr_new _ _ _ _ _ _ Hg). destruct (gr_fresh _ _ _ _ _ _ Hg) as [-> _]. done.
Qed.

Lemma root_skel h dirs : trie_ok h dirs -> is_Some (skel h 0).
Proof. intros HT. destruct (tr_root _ _ HT) as [c Hr]. unfold skel. rewrite Hr. eauto. Qed.

Lemma grown_present h dirs k f N seg h' name info :
  trie_ok h dirs -> grown h k f N seg h' -> present h' name info <-> present h name info.
Proof.
  intros HT Hg. split; intros (Hname & segs & n & Hsegs & Hw & Hp & Hi); (split; [done|]); exists segs, n; rewrite (grown_prop _ _ _ _ _ _ _ Hg) in *;
    (split; [done|]); (split; [|done]).
  - eapply grown_walk_inv; [done|done|done|by eapply root_skel|]. intros ->.
    destruct (gr_fresh _ _ _ _ _ _ Hg) as [HN _]. unfold prop_of in Hp. rewrite HN in Hp. congruence.
  - by eapply grown_walk.
Qed.

(** A heap that has grown by nodes only. *)
Record extends (h : heap) (dirs : gmap Z Z) (h' : heap) (dirs' : gmap Z Z) : Prop := mkExtends {
  ex_ok : trie_ok h' dirs';
  ex_walk : forall n segs t, walk h n segs t -> walk h' n segs t;
  ex_prop : forall n, prop_of h' n = prop_of h n;
  ex_present : forall name info, present h' name info <-> present h name info;
  ex_links : forall n nm links, skel h n = Some (nm, links) ->
    exists links', skel h' n = Some (nm, links') /\ forall f, get_link f links <> 0 -> get_link f links' = get_link f links;
  ex_data : forall off o, h !! off = Some o -> skel h off = None -> h' !! off = Some o;
}.

Lemma extends_refl h dirs : trie_ok h dirs -> extends h dirs h dirs.
Proof. split; eauto. Qed.

Lemma extends_trans h1 d1 h2 d2 h3 d3 : extends h1 d1 h2 d2 -> extends h2 d2 h3 d3 -> extends h1 d1 h3 d3.
Proof.
  intros [O1 W1 V1 P1 N1 D1] [O2 W2 V2 P2 N2 D2]. split; eauto.
  - intros n. by rewrite V2, V1.
  - intros name info. by rewrite P2, P1.
  - intros n nm links Hs. destruct (N1 _ _ _ Hs) as (links1 & Hs1 & Hl1), (N2 _ _ _ Hs1) as (links2 & Hs2 & Hl2).
    exists links2. split; [done|]. intros f Hf. rewrite <- Hl1 by done. apply Hl2. by rewrite Hl1.
  - intros off o Ho Hs. apply D2; [by apply D1|]. unfold skel in *. rewrite (D1 off o Ho Hs). by rewrite Ho in Hs.
Qed.

Lemma extends_grown h dirs k f N seg h' d :
  trie_ok h dirs -> grown h k f N seg h' -> grown_dir dirs k f = Some d -> no_nul seg -> seg <> [] ->
  extends h dirs h' (<[N := d]> dirs).
Proof.
  intros HT Hg Hd Hseg Hne. split.
  - by eapply grown_ok.
  - intros n segs t. by eapply grown_walk.
  - intros n. by eapply grown_prop.
  - intros name info. by eapply grown_present.
  - intros n nm links Hs. rewrite (grown_skel _ _ _ _ _ _ Hg _ _ _ Hs). eexists. split; [done|]. intros f0 Hf0.
    case_decide; [subst n|done]. destruct (gr_link _ _ _ _ _ _ Hg) as (nmk & linksk & Hk & Hz & _).
    rewrite Hs in Hk. injection Hk as <- <-. destruct links as [[l r] c]. unfold get_link, set_link in *. repeat case_match; lia.
  - intros off o Ho Hs. rewrite (gr_other _ _ _ _ _ _ Hg); [done|..].
    + intros ->. destruct (gr_link _ _ _ _ _ _ Hg) as (? & ? & Hk & _). congruence.
    + intros ->. destruct (gr_fresh _ _ _ _ _ _ Hg) as [HN _]. congruence.
Qed.

Lemma ex_node h dirs h' dirs' n : extends h dirs h' dirs' -> is_Some (skel h n) -> is_Some (skel h' n).
Proof. intros Hex [[nm links] Hs]. destruct (ex_links _ _ _ _ Hex _ _ _ Hs) as (links' & -> & _). eauto. Qed.

Lemma ex_side h dirs h' dirs' seg n nm links t :
  extends h dirs h' dirs' -> skel h n = Some (nm, links) -> cmp_prop_name seg nm <> 0 ->
  side (cmp_prop_name seg nm) links <> 0 -> finds h' seg (side (cmp_prop_name seg nm) links) t -> finds h' seg n t.
Proof.
  intros Hex Hs Hc Hl Hf. destruct (ex_links _ _ _ _ Hex _ _ _ Hs) as (links' & Hs' & Hlinks).
  assert (forall ls, side (cmp_prop_name seg nm) ls = get_link (side_field (cmp_prop_name seg nm)) ls) as Hside.
  { intros [[l r] c]. unfold side, side_field, get_link. by destruct (_ <? 0). }
  assert (side (cmp_prop_name seg nm) links' = side (cmp_prop_name seg nm) links) as Heq.
  { rewrite !Hside in *. by apply Hlinks. }
  eapply finds_side; [exact Hs'|done|by rewrite Heq|by rewrite Heq].
Qed.

Lemma ex_children h dirs h' dirs' n nm l r c seg segs k t :
  extends h dirs h' dirs' -> skel h n = Some (nm, (l, r, c)) -> c <> 0 -> finds h' seg c k -> walk h' k segs t ->
  walk h' n (seg :: segs) t.
Proof.
  intros Hex Hs Hc Hf Hw. destruct (ex_links _ _ _ _ Hex _ _ _ Hs) as ([[l' r'] c'] & Hs' & Hlinks).
  specialize (Hlinks 16 Hc). cbn in Hlinks. subst c'. by eapply walk_cons.
Qed.

(** ** The searches of the writer *)

Section searches.
Context {E : Prop}.

Lemma node_used mem h used n : heap_ok mem h used -> is_Some (skel h n) -> 0 <= n < used /\ used <= data_size mem.
Proof.
  intros HH [s Hs]. unfold skel in Hs. destruct (h !! n) as [o|] eqn:Ho; [|done].
  destruct (hk_obj _ _ _ HH n o Ho) as (? & _ & ? & _). pose proof (hk_range _ _ _ HH). lia.
Qed.

Lemma wp_valid mem (off : Z) (Q : option Z -> Area -> Prop) :
  off <= data_size mem -> Q (Some off) mem -> wp E (valid off) Q mem.
Proof. intros Hle HQ. unfold valid. apply wp_gets. by rewrite (proj2 (Z.leb_le _ _)). Qed.

Lemma skel_node h n nm l r c : skel h n = Some (nm, (l, r, c)) -> h !! n = Some (ONode nm (prop_of h n) l r c).
Proof. unfold skel, prop_of. destruct (h !! n) as [[]|]; try done. intros. by simplify_eq. Qed.

Lemma node_cost_pos seg : 0 <= node_cost seg.
Proof.
  unfold node_cost, TRIE_NODE_SIZE. pose proof (zlen_nonneg seg). pose proof (align4_spec (20 + zlen seg + 1)). lia.
Qed.

(** Among siblings. *)
Lemma wp_find_siblings fuel mem h used dirs cur d seg alloc (Q : option Z -> Area -> Prop) :
  heap_ok mem h used -> trie_ok h dirs -> is_Some (skel h cur) -> dirs !! cur = Some d -> used - cur <= Z.of_nat fuel ->
  no_nul seg -> seg <> [] ->
  (forall t mem' h' used' dirs', heap_ok mem' h' used' -> extends h dirs h' dirs' -> used' <= used + node_cost seg ->
     finds h' seg cur t -> is_Some (skel h' t) -> (alloc = false -> mem' = mem) -> Q (Some t) mem') ->
  (forall k f, misses h seg cur k f -> (alloc = true -> data_size mem < used + node_cost seg) -> Q None mem) ->
  wp E (find_trie_node_loop fuel cur seg alloc) Q mem.
Proof.
  intros HH HT Hcur Hd Hfuel Hseg Hne Hfound Hmiss.
  pose proof (node_cost_pos seg) as Hcost.
  revert cur Hcur Hd Hfuel Hfound Hmiss. induction fuel as [|fuel IH]; intros cur Hcur Hd Hfuel Hfound Hmiss.
  { pose proof (node_used _ _ _ _ HH Hcur). lia. }
  destruct Hcur as [[nm [[l r] c]] Hs]. pose proof (skel_node _ _ _ _ _ _ Hs) as Ho. cbn [find_trie_node_loop].
  apply wp_bind. eapply wp_node_name; [done|exact Ho|]. set (ord := cmp_prop_name seg nm).
  destruct (Z.eqb_spec ord 0) as [H0|H0].
  { eapply wp_ret, Hfound; [done|by apply extends_refl|lia|by eapply finds_here|eauto|done]. }
  assert (link_of cur ord = cur + side_field ord) as -> by (unfold link_of, side_field; by case_match).
  assert (node_field (ONode nm (prop_of h cur) l r c) (side_field ord) = Some (side ord (l, r, c))) as Hf.
  { unfold side_field, side. by case_match. }
  apply wp_bind. eapply wp_load_field; [done|exact Ho|exact Hf|].
  destruct (Z.eqb_spec (side ord (l, r, c)) 0) as [Hl|Hl]; cbn [negb]; cycle 1.
  { destruct (tr_side h dirs cur nm (l, r, c) ord HT Hs Hl) as (Hlt & Hn & Hd').
    pose proof (node_used _ _ _ _ HH Hn). apply wp_bind, wp_valid; [lia|]. apply IH; try done; [congruence|lia|..].
    - intros t mem' h' used' dirs' HH' Hex Hu Ht Hn' Ha. eapply Hfound; [exact HH'|exact Hex|done| |done|done].
      by eapply ex_side.
    - intros k f Hm. eapply Hmiss. by eapply misses_side. }
  assert (misses h seg cur cur (side_field ord)) as Hm by (by eapply misses_here).
  destruct alloc; cbn [negb]; [|by eapply wp_ret, Hmiss].
  apply wp_bind. eapply wp_new_trie_node; [done|done|intros; by eapply wp_ret, Hmiss|]. intros mem1 HH1 Hfresh.
  pose proof (node_used _ _ _ cur HH ltac:(eauto)) as Hcu.
  apply wp_bind. eapply (wp_store_field _ _ _ cur _ (side_field ord)); [exact HH1|by rewrite lookup_insert_ne by lia|exact Hf| |].
  { destruct (hk_obj _ _ _ HH1 used _ (lookup_insert_eq _ _ _)) as (? & _ & ? & _).
    pose proof (hk_range _ _ _ HH1). unfold in_u. lia. }
  intros mem2 HH2.
  match type of HH2 with heap_ok _ ?h2 _ => assert (grown h cur (side_field ord) used seg h2) as Hg end.
  { apply grown_store; try done; try lia; [unfold side_field; case_match; auto|congruence]. }
  eapply wp_ret, Hfound; [exact HH2|apply (extends_grown _ _ _ _ _ _ _ d HT Hg); [|done|done]|lia|by eapply misses_link|rewrite (grown_skel_new _ _ _ _ _ _ Hg); eauto|done].
  unfold grown_dir, side_field. by destruct (_ <? 0).
Qed.

Lemma walk_app h n one two m t : walk h n one m -> walk h m two t -> walk h n (one ++ two) t.
Proof. induction 1; [done|]. intros. cbn. eapply walk_cons; eauto. Qed.

Lemma walk_split h n one two t : walk h n (one ++ two) t -> exists m, walk h n one m /\ walk h m two t.
Proof.
  revert n. induction one as [|seg one IH]; intros n Hw; [exists n; split; [constructor|done]|].
  inversion Hw as [|? ? ? ? ? ? ? k ? Hs Hc Hf Hw']; subst. destruct (IH k Hw') as (m & H1 & H2).
  exists m. split; [by eapply walk_cons|done].
Qed.

(** A node found at once. *)
Lemma wp_find_here fuel mem h used cur seg p l r c alloc (Q : option Z -> Area -> Prop) :
  heap_ok mem h used -> h !! cur = Some (ONode seg p l r c) -> no_nul seg -> (0 < fuel)%nat -> Q (Some cur) mem ->
  wp E (find_trie_node_loop fuel cur seg alloc) Q mem.
Proof.
  intros HH Ho Hseg Hfuel HQ. destruct fuel; [lia|]. cbn [find_trie_node_loop]. apply wp_bind.
  eapply wp_node_name; [done|exact Ho|]. by rewrite (proj2 (cmp_prop_name_0 seg seg Hseg) eq_refl).
Qed.

Lemma fuel_enough mem h used cur : heap_ok mem h used -> is_Some (skel h cur) -> used - cur <= Z.of_nat (length mem) /\ (0 < length mem)%nat.
Proof.
  intros HH Hs. pose proof (node_used _ _ _ _ HH Hs). unfold data_size, zlen, PROP_AREA_HEADER_SIZE in *. lia.
Qed.

Lemma wp_find_child mem h used dirs cur seg alloc (Q : option Z -> Area -> Prop) :
  heap_ok mem h used -> trie_ok h dirs -> is_Some (skel h cur) -> no_nul seg -> seg <> [] ->
  (forall t mem' h' used' dirs', heap_ok mem' h' used' -> extends h dirs h' dirs' -> used' <= used + node_cost seg ->
     walk h' cur [seg] t -> is_Some (skel h' t) -> (alloc = false -> mem' = mem) -> Q (Some t) mem') ->
  ((alloc = true -> data_size mem < used + node_cost seg) -> (forall t, ~ walk h cur [seg] t) -> Q None mem) ->
  wp E (find_child cur seg alloc) Q mem.
Proof.
  intros HH HT [[nm [[l r] c]] Hs] Hseg Hne Hfound Hmiss. unfold find_child.
  pose proof (skel_node _ _ _ _ _ _ Hs) as Ho. apply wp_bind. eapply wp_load_field; [done|exact Ho|done|]. apply wp_bind.
  destruct (Z.eqb_spec c 0) as [->|Hc]; cbn [negb]; cycle 1.
  { destruct (tr_children _ _ HT _ _ _ _ _ Hs Hc) as (Hlt & Hn & Hd). pose proof (node_used _ _ _ _ HH Hn).
    apply wp_valid; [lia|]. unfold find_trie_node. apply wp_bind, wp_get.
    eapply wp_find_siblings; [done|done|done|exact Hd|by apply (fuel_enough _ _ _ _ HH)|done|done|..].
    - intros t mem' h' used' dirs' HH' Hex Hu Hf. eapply Hfound; [exact HH'|exact Hex|done|].
      eapply ex_children; [done..|constructor].
    - intros k f Hm Hfull. apply Hmiss; [done|]. intros t Hw. inversion Hw as [|? ? ? ? ? ? ? k' ? Hs' Hc' Hf' Hw']; subst.
      rewrite Hs in Hs'. simplify_eq. by eapply finds_misses. }
  assert (forall t, ~ walk h cur [seg] t) as Hno.
  { intros t Hw. inversion Hw as [|? ? ? ? ? ? ? k' ? Hs' Hc' Hf' Hw']; subst. congruence. }
  destruct alloc; [|by apply wp_ret, wp_ret, Hmiss].
  apply wp_bind. eapply wp_new_trie_node; [done|done|intros; by apply wp_ret, wp_ret, Hmiss|]. intros mem1 HH1 Hfresh.
  pose proof (node_used _ _ _ cur HH ltac:(eauto)) as Hcu. apply wp_bind.
  eapply (wp_store_field _ _ _ cur _ 16); [exact HH1|by rewrite lookup_insert_ne by lia|done| |].
  { destruct (hk_obj _ _ _ HH1 used _ (lookup_insert_eq _ _ _)) as (? & _ & ? & _).
    pose proof (hk_range _ _ _ HH1). unfold in_u. lia. }
  intros mem2 HH2. apply wp_ret.
  match type of HH2 with heap_ok _ ?h2 _ => assert (grown h cur 16 used seg h2) as Hg end.
  { apply grown_store; auto; lia. }
  pose proof (extends_grown _ _ _ _ _ _ _ cur HT Hg eq_refl Hseg Hne) as Hex.
  assert (is_Some (skel (<[cur := set_node_field (ONode nm (prop_of h cur) l r 0) 16 used]> (<[used := ONode seg 0 0 0 0]> h)) used)) as Hn.
  { rewrite (grown_skel_new _ _ _ _ _ _ Hg). eauto. }
  unfold find_trie_node. apply wp_bind, wp_get.
  eapply wp_find_here; [exact HH2|apply (gr_new _ _ _ _ _ _ Hg)|done|by apply (fuel_enough _ _ _ _ HH2 Hn)|].
  eapply Hfound; [exact HH2|exact Hex|lia| |exact Hn|done].
  eapply walk_cons; [by rewrite (grown_skel _ _ _ _ _ _ Hg _ _ _ Hs), decide_True by done|cbn; lia| |constructor].
  eapply finds_here; [apply (grown_skel_new _ _ _ _ _ _ Hg)|by apply cmp_prop_name_0].
Qed.

(** A node by the segments of its name. *)
Definition segs_cost (segs : list (list byte)) : Z := foldr (fun seg n => node_cost seg + n) 0 segs.

Lemma segs_cost_pos segs : 0 <= segs_cost segs.
Proof. induction segs as [|seg segs IH]; [done|]. cbn. pose proof (node_cost_pos seg). unfold segs_cost in IH. lia. Qed.

Lemma split_segment_nul rem seg rest :
  split_segment rem = (seg, rest) -> no_nul rem -> no_nul seg /\ forall r, rest = Some r -> no_nul r.
Proof.
  unfold no_nul. intros Hs Hr. rewrite (split_segment_eq _ _ _ Hs) in Hr. apply not_elem_of_app in Hr as [Hseg Hr].
  split; [done|]. intros r ->. by apply not_elem_of_cons in Hr as [_ ?].
Qed.

Lemma segs_of_nul name segs : segs_of name segs -> no_nul name -> Forall no_nul segs.
Proof.
  induction 1 as [rem seg Hs _|rem seg rest segs Hs _ _ IH]; intros Hn;
    destruct (split_segment_nul _ _ _ Hs Hn) as [? ?]; rewrite ?list.Forall_cons; auto.
Qed.

Lemma wp_find_node fuel mem h used dirs cur rem alloc (Q : option Z -> Area -> Prop) :
  heap_ok mem h used -> trie_ok h dirs -> is_Some (skel h cur) -> (length rem < fuel)%nat -> no_nul rem ->
  (forall t segs mem' h' used' dirs', heap_ok mem' h' used' -> extends h dirs h' dirs' -> used' <= used + segs_cost segs ->
     segs_of rem segs -> walk h' cur segs t -> is_Some (skel h' t) -> (alloc = false -> mem' = mem) -> Q (Some t) mem') ->
  (forall mem' h' used' dirs', heap_ok mem' h' used' -> extends h dirs h' dirs' -> (alloc = false -> mem' = mem) ->
     (forall segs, segs_of rem segs ->
        (alloc = true -> data_size mem' < used + segs_cost segs) /\
        forall t, ~ walk h cur segs t) -> Q None mem') ->
  wp E (find_node_loop fuel cur rem alloc) Q mem.
Proof.
  revert mem h used dirs cur rem. induction fuel as [|fuel IH]; intros mem h used dirs cur rem HH HT Hcur Hfuel Hrem Hfound Hmiss; [lia|].
  cbn [find_node_loop]. destruct (split_segment rem) as [seg rest] eqn:Hsplit.
  destruct (split_segment_nul _ _ _ Hsplit Hrem) as [Hseg Hrest].
  destruct (Z.eqb_spec (zlen seg) 0) as [Hz|Hz].
  { eapply wp_ret, Hmiss; [done|by apply extends_refl|done|]. intros segs Hsegs.
    assert (seg = []) by (destruct seg; [done|by unfold zlen in Hz; cbn in Hz; lia]).
    inversion Hsegs as [? ? Hs|? ? ? ? Hs]; subst; rewrite Hsplit in Hs; simplify_eq. }
  assert (seg <> []) as Hne by (by intros ->).
  apply wp_bind. eapply wp_find_child; [done..| |]; cycle 1.
  { intros Hfull Hno. eapply wp_ret, Hmiss; [done|by apply extends_refl|done|]. intros segs Hsegs.
    assert (exists segs', segs = [seg] ++ segs') as [segs' ->].
    { inversion Hsegs as [? ? Hs|? ? ? segs' Hs]; subst; rewrite Hsplit in Hs; simplify_eq; [by exists []|by exists segs']. }
    split.
    - intros Ha. cbn. pose proof (segs_cost_pos segs'). unfold segs_cost in *. specialize (Hfull Ha). lia.
    - intros t Hw. apply walk_split in Hw as (m & Hw & _). by eapply Hno. }
  intros t1 mem1 h1 used1 dirs1 HH1 Hex1 Hu1 Hw1 Hn1 Ha1. destruct rest as [rest|]; cycle 1.
  { eapply wp_ret, (Hfound t1 [seg]); [exact HH1|exact Hex1|cbn; lia|by apply segs_last|done|done|done]. }
  eapply IH; [exact HH1|apply (ex_ok _ _ _ _ Hex1)|done| |by apply Hrest|..].
  - rewrite (split_segment_eq _ _ _ Hsplit), length_app in Hfuel. cbn in Hfuel. lia.
  - intros t segs mem2 h2 used2 dirs2 HH2 Hex2 Hu2 Hsegs Hw Hn Ha.
    eapply (Hfound t (seg :: segs)); [exact HH2|by eapply extends_trans|cbn; unfold segs_cost in *; lia|
      by eapply segs_more| |done|intros; rewrite Ha, Ha1; auto].
    apply (walk_app _ _ [seg] _ t1); [by apply (ex_walk _ _ _ _ Hex2)|done].
  - intros mem2 h2 used2 dirs2 HH2 Hex2 Ha Hnone. eapply Hmiss; [exact HH2|by eapply extends_trans|intros; rewrite Ha, Ha1; auto|].
    intros segs Hsegs. inversion Hsegs as [? ? Hs|? ? ? segs' Hs ? Hsegs']; subst; rewrite Hsplit in Hs; simplify_eq.
    destruct (Hnone _ Hsegs') as [Hfull Hno]. split.
    + intros Hal. cbn. specialize (Hfull Hal). unfold segs_cost in *. lia.
    + intros t Hw. apply (ex_walk _ _ _ _ Hex1), (walk_split _ _ [_]) in Hw as (m & Hw & Hw').
      rewrite (walk_det _ _ _ _ _ Hw Hw1) in Hw'. by apply (Hno t).
Qed.

End searches.

(** ** Properties on the trie *)

Section same_skel.
Context (h h' : heap) (Hsame : forall n, skel h' n = skel h n).

Lemma same_finds seg n t : finds h seg n t -> finds h' seg n t.
Proof.
  induction 1 as [n nm links Hs Hc|n nm links t Hs Hc Hl _ IH]; rewrite <- Hsame in Hs;
    [by eapply finds_here|by eapply finds_side].
Qed.

Lemma same_walk n segs t : walk h n segs t -> walk h' n segs t.
Proof.
  induction 1 as [n|n nm l r c seg segs k t Hs Hc Hf _ IH]; [constructor|]. rewrite <- Hsame in Hs.
  eapply walk_cons; [done|done|by apply same_finds|done].
Qed.

Lemma same_ok dirs : prop_of h' 0 = 0 -> trie_ok h dirs -> trie_ok h' dirs.
Proof.
  intros H0 HT. destruct HT as [[c Hr] Hd0 Hname Hdir Hl Hrt Hc Hu]. split; try done.
  - exists c. assert (skel h' 0 = Some ([], (0, 0, c))) as Hs by (rewrite Hsame; unfold skel; by rewrite Hr).
    by rewrite (skel_node _ _ _ _ _ _ Hs), H0.
  - intros n nm links. rewrite Hsame. apply Hname.
  - intros n nm links. rewrite Hsame. apply Hdir.
  - intros n nm l r c'. rewrite !Hsame. apply Hl.
  - intros n nm l r c'. rewrite !Hsame. apply Hrt.
  - intros n nm l r c'. rewrite !Hsame. apply Hc.
  - intros n nm links f n' nm' links' f'. rewrite !Hsame. apply Hu.
Qed.
End same_skel.

Lemma same_present h h' :
  (forall n, skel h' n = skel h n) -> (forall n, prop_of h' n = prop_of h n) ->
  forall name info, present h' name info <-> present h name info.
Proof.
  intros Hs Hp name info. split; intros (Hn & segs & n & Hsegs & Hw & Hi & Hne); (split; [done|]); exists segs, n;
    (split; [done|]); (split; [eapply same_walk; [|exact Hw]; intros; by rewrite Hs|by rewrite ?Hp in *]).
Qed.

(** A property at a node that had none. *)
Lemma prop_store h h' dirs name segs t info :
  trie_ok h dirs -> (forall n, skel h' n = skel h n) -> (forall n, n <> t -> prop_of h' n = prop_of h n) ->
  no_nul name -> segs_of name segs -> walk h 0 segs t -> prop_of h t = 0 -> prop_of h' t = info -> info <> 0 ->
  trie_ok h' dirs /\
  forall name' info', present h' name' info' <-> present h name' info' \/ (name' = name /\ info' = info).
Proof.
  intros HT Hs Hp Hname Hsegs Hw H0 Ht Hinfo.
  assert (t <> 0) as Ht0.
  { intros ->. assert (segs = []) as ->; [|inversion Hsegs].
    eapply (walk_inj h dirs); [done|by eapply segs_of_nul|by constructor|done|constructor]. }
  split.
  { eapply same_ok; [exact Hs| |exact HT]. rewrite Hp by done. unfold prop_of. by destruct (tr_root _ _ HT) as [c ->]. }
  intros name' info'. split.
  - intros (Hn' & segs' & n & Hsegs' & Hw' & Hi & Hne).
    apply (same_walk h' h) in Hw'; [|done]. destruct (decide (n = t)) as [->|Hnt].
    + right. split; [|congruence]. eapply segs_of_inj; [exact Hsegs'|].
      by rewrite (walk_inj _ _ _ _ _ HT (segs_of_nul _ _ Hsegs' Hn') (segs_of_nul _ _ Hsegs Hname) Hw' Hw).
    + left. split; [done|]. exists segs', n. by rewrite <- Hp.
  - intros [(Hn' & segs' & n & Hsegs' & Hw' & Hi & Hne)|[-> ->]].
    + split; [done|]. exists segs', n. rewrite Hp by congruence. split; [done|]. split; [by eapply same_walk|done].
    + split; [done|]. exists segs, t. split; [done|]. split; [by eapply same_walk|done].
Qed.

Lemma present_det h name info info' : present h name info -> present h name info' -> info = info'.
Proof.
  intros (_ & segs & n & Hs & Hw & <- & _) (_ & segs' & n' & Hs' & Hw' & <- & _).
  rewrite (segs_of_det _ _ _ Hs Hs') in Hw. by rewrite (walk_det _ _ _ _ _ Hw Hw').
Qed.
