(* ===== verification/AreaMap.v ===== *)
(** A property area is a map from names to values: the writer's operations of
    [Area] as operations on the map, the space that adding a property needs. *)

From Stdlib Require Import ZArith Lia.
From Stdlib Require Import Strings.Byte.
From stdpp Require Import base numbers list gmap.
From S2P Require Import Prelude Text Bytes Area AreaHeap AreaTrie.

Open Scope Z_scope.

(** ** What an area holds *)

Record Entry := mkEntry { e_value : list byte; e_serial : Z }.
Abbreviation Props := (gmap (list byte) Entry).

Definition is_ro (name : list byte) : bool := starts_with_ro (utf8_lossy name).

(** A value of fewer than 92 bytes is in the property, another is elsewhere. *)
Definition short_at (h : heap) (info : Z) (name : list byte) (e : Entry) : Prop :=
  exists rest, h !! info = Some (OInfo name (e_serial e) (e_value e ++ [x00] ++ rest)) /\
    Z.shiftr (e_serial e) 24 = zlen (e_value e) /\ Z.land (e_serial e) 1 = 0 /\
    (is_ro name = true -> Z.land (e_serial e) LONG_FLAG = 0).

Definition long_at (h : heap) (info : Z) (name : list byte) (e : Entry) : Prop :=
  exists long, h !! info = Some (OInfo name long_serial (long_field (long - info))) /\
    h !! long = Some (ORaw (e_value e ++ [x00])) /\
    e_serial e = long_serial /\ PROP_VALUE_MAX <= zlen (e_value e) /\ info < long < 2 ^ 32.

Definition info_holds (h : heap) (info : Z) (name : list byte) (e : Entry) : Prop :=
  no_nul (e_value e) /\ (short_at h info name e \/ long_at h info name e).

Record represents (mem : Area) (m : Props) (h : heap) (used : Z) (dirs : gmap Z Z) : Prop := mkRepresents {
  rp_heap : heap_ok mem h used;
  rp_trie : trie_ok h dirs;
  rp_backup : exists b, h !! DIRTY_BACKUP_AREA = Some (ORaw b) /\ zlen b = PROP_VALUE_MAX;
  rp_present : forall name info, present h name info -> exists e, m !! name = Some e /\ info_holds h info name e;
  rp_stored : forall name e, m !! name = Some e -> exists info, present h name info;
  rp_props : forall n, prop_of h n <> 0 -> exists name segs, no_nul name /\ segs_of name segs /\ walk h 0 segs n;
}.

(** Objects other than nodes. *)
Definition keeps_data (h h' : heap) : Prop := forall off o, h !! off = Some o -> skel h off = None -> h' !! off = Some o.

Lemma info_holds_mono h h' info name e : keeps_data h h' -> info_holds h info name e -> info_holds h' info name e.
Proof.
  intros Hk [Hn Hi]. split; [done|]. destruct Hi as [(rest & Ho & H)|(long & Ho & Hl & H)]; [left|right].
  - exists rest. split; [|done]. apply Hk; [done|]. unfold skel. by rewrite Ho.
  - exists long. split; [apply Hk; [done|]; unfold skel; by rewrite Ho|].
    split; [|done]. apply Hk; [done|]. unfold skel. by rewrite Hl.
Qed.

Lemma keeps_backup h h' :
  keeps_data h h' -> (exists b, h !! DIRTY_BACKUP_AREA = Some (ORaw b) /\ zlen b = PROP_VALUE_MAX) ->
  exists b, h' !! DIRTY_BACKUP_AREA = Some (ORaw b) /\ zlen b = PROP_VALUE_MAX.
Proof. intros Hk (b & Hb & Hl). exists b. split; [|done]. apply Hk; [done|]. unfold skel. by rewrite Hb. Qed.

Lemma represents_extends mem m h used dirs mem' h' used' dirs' :
  represents mem m h used dirs -> heap_ok mem' h' used' -> extends h dirs h' dirs' -> represents mem' m h' used' dirs'.
Proof.
  intros [HH HT Hb Hp Hs Hn] HH' Hex. pose proof (ex_data _ _ _ _ Hex : keeps_data h h') as Hk.
  split; [done|by apply (ex_ok _ _ _ _ Hex)|by eapply keeps_backup|..].
  - intros name info Hi. apply (ex_present _ _ _ _ Hex) in Hi. destruct (Hp name info Hi) as (e & He & Hh).
    exists e. split; [done|]. by eapply info_holds_mono.
  - intros name e He. destruct (Hs name e He) as [info Hi]. exists info. by apply (ex_present _ _ _ _ Hex).
  - intros n. rewrite (ex_prop _ _ _ _ Hex). intros (name & segs & Hname & Hsegs & Hw)%Hn.
    exists name, segs. split_and!; [done|done|]. by apply (ex_walk _ _ _ _ Hex).
Qed.

Lemma represents_info mem m h used dirs name info :
  represents mem m h used dirs -> present h name info -> 0 <= info < used /\ used <= data_size mem.
Proof.
  intros HR Hi. destruct (rp_present _ _ _ _ _ HR name info Hi) as (e & _ & _ & Hh). pose proof (rp_heap _ _ _ _ _ HR) as HH.
  pose proof (hk_range _ _ _ HH). destruct Hh as [(? & Ho & _)|(? & Ho & _)];
    destruct (hk_obj _ _ _ HH info _ Ho) as (? & _ & ? & _); lia.
Qed.

Lemma represents_new mem m h used dirs mem' h' used' name segs t info e :
  represents mem m h used dirs -> heap_ok mem' h' used' -> keeps_data h h' ->
  (forall n, skel h' n = skel h n) -> (forall n, n <> t -> prop_of h' n = prop_of h n) ->
  no_nul name -> segs_of name segs -> walk h 0 segs t -> prop_of h t = 0 -> prop_of h' t = info -> info <> 0 ->
  info_holds h' info name e -> represents mem' (<[name := e]> m) h' used' dirs /\ present h' name info.
Proof.
  intros [HH HT Hb Hp Hs Hnodes] HH' Hk Hskel Hprop Hname Hsegs Hw H0 Ht Hi He.
  destruct (prop_store h h' dirs name segs t info) as [HT' Hpres]; try done. split; [split|]; try done.
  - by eapply keeps_backup.
  - intros name' info' [Hi'| [-> ->]]%Hpres; [|exists e; by rewrite lookup_insert_eq].
    destruct (Hp _ _ Hi') as (e' & He' & Hh'). exists e'. split; [|by eapply info_holds_mono].
    rewrite lookup_insert_ne; [done|]. intros <-.
    destruct Hi' as (_ & segs' & n' & Hsegs' & Hw' & Hpn & Hne).
    rewrite (segs_of_det _ _ _ Hsegs' Hsegs) in Hw'. rewrite (walk_det _ _ _ _ _ Hw' Hw) in Hpn. congruence.
  - intros name' e' [[<- _]|[Hne He']]%lookup_insert_Some; [exists info; apply Hpres; by right|].
    destruct (Hs _ _ He') as [info' Hi']. exists info'. apply Hpres. by left.
  - intros n Hn. destruct (decide (n = t)) as [->|Hnt].
    + exists name, segs. split_and!; [done|done|]. by eapply same_walk.
    + rewrite Hprop in Hn by done. destruct (Hnodes n Hn) as (name' & segs' & ? & ? & Hw').
      exists name', segs'. split_and!; [done|done|]. by eapply same_walk.
  - apply Hpres. by right.
Qed.

(** ** Searching and adding *)

Definition new_entry (value : list byte) : Entry :=
  mkEntry value (if PROP_VALUE_MAX <=? zlen value then long_serial else short_serial value).

Lemma short_serial_bits value : zlen value < PROP_VALUE_MAX ->
  Z.shiftr (short_serial value) 24 = zlen value /\ Z.land (short_serial value) 1 = 0 /\ Z.land (short_serial value) LONG_FLAG = 0.
Proof.
  intros Hl. pose proof (zlen_nonneg value). unfold PROP_VALUE_MAX in Hl.
  assert (forall n, 0 <= n < 92 ->
    Z.shiftr (as_u 32 (Z.shiftl n 24)) 24 = n /\ Z.land (as_u 32 (Z.shiftl n 24)) 1 = 0 /\
    Z.land (as_u 32 (Z.shiftl n 24)) LONG_FLAG = 0) as H92; [|by apply H92].
  intros n Hn. cut (forallb (fun n : nat =>
    (Z.shiftr (as_u 32 (Z.shiftl (Z.of_nat n) 24)) 24 =? Z.of_nat n) && (Z.land (as_u 32 (Z.shiftl (Z.of_nat n) 24)) 1 =? 0) &&
    (Z.land (as_u 32 (Z.shiftl (Z.of_nat n) 24)) LONG_FLAG =? 0)) (seq 0 92) = true); [|by vm_compute].
  rewrite forallb_forall. intros Hall. specialize (Hall (Z.to_nat n)).
  rewrite in_seq, Z2Nat.id, !andb_true_iff, !Z.eqb_eq in Hall by lia. destruct Hall as [[??]?]; [lia|done].
Qed.

Section wp.
Context {E : Prop}.
Implicit Types (mem : Area) (h : heap).

(** What a property's object changes of a heap: nothing of the rest. *)
Definition with_info (h : heap) (used : Z) (name : list byte) (e : Entry) (h1 : heap) : Prop :=
  (forall off o, h !! off = Some o -> h1 !! off = Some o) /\ is_Some (h1 !! used) /\
  (forall n, skel h1 n = skel h n /\ prop_of h1 n = prop_of h n) /\
  (forall h', keeps_data h1 h' -> info_holds h' used name e).

Lemma with_short h used name value :
  h !! used = None -> no_nul value -> zlen value < PROP_VALUE_MAX ->
  with_info h used name (new_entry value) (<[used := OInfo name (short_serial value) (short_field value)]> h).
Proof.
  intros Hfresh Hvalue Hshort. split_and!.
  - intros off o Hoff. rewrite lookup_insert_ne; [done|congruence].
  - rewrite lookup_insert_eq. eauto.
  - intros n. unfold skel, prop_of. destruct (decide (n = used)) as [->|].
    + by rewrite lookup_insert_eq, Hfresh.
    + by rewrite lookup_insert_ne.
  - intros h' Hk. destruct (short_serial_bits value Hshort) as (? & ? & ?). split; [done|left].
    eexists. unfold new_entry. rewrite (proj2 (Z.leb_gt _ _)) by done. cbn [e_value e_serial].
    split; [apply Hk; [apply lookup_insert_eq|unfold skel; by rewrite lookup_insert_eq]|done].
Qed.

Lemma with_long h used long name value :
  h !! used = None -> h !! long = None -> no_nul value -> PROP_VALUE_MAX <= zlen value -> used < long < 2 ^ 32 ->
  with_info h used name (new_entry value)
    (<[used := OInfo name long_serial (long_field (long - used))]> (<[long := ORaw (value ++ [x00])]> h)).
Proof.
  intros Hfresh Hfresh2 Hvalue Hlong Hrange. split_and!.
  - intros off o Hoff. rewrite !lookup_insert_ne; congruence.
  - rewrite lookup_insert_eq. eauto.
  - intros n. unfold skel, prop_of. destruct (decide (n = used)) as [->|]; [by rewrite lookup_insert_eq, Hfresh|].
    rewrite lookup_insert_ne by done. destruct (decide (n = long)) as [->|]; [by rewrite lookup_insert_eq, Hfresh2|].
    by rewrite lookup_insert_ne.
  - intros h' Hk. split; [done|right]. exists long. unfold new_entry. rewrite (proj2 (Z.leb_le _ _)) by done. cbn [e_value e_serial].
    split; [apply Hk; [apply lookup_insert_eq|unfold skel; by rewrite lookup_insert_eq]|].
    split; [|done]. apply Hk; [|unfold skel]; by rewrite lookup_insert_ne, lookup_insert_eq by lia.
Qed.

(** A property's object linked to its node. *)
Lemma wp_link_property mem m h used dirs name segs t e mem1 h1 used1 (Q : option Z -> Area -> Prop) :
  represents mem m h used dirs -> no_nul name -> segs_of name segs -> walk h 0 segs t ->
  is_Some (skel h t) -> prop_of h t = 0 -> heap_ok mem1 h1 used1 -> with_info h used name e h1 ->
  (forall mem' h', represents mem' (<[name := e]> m) h' used1 dirs -> present h' name used -> Q (Some used) mem') ->
  wp E (store_word (t + 4) used;; mret (Some used)) Q mem1.
Proof.
  intros HR Hname Hsegs Hw [[nm [[l r] c]] Hs] Hp HH1 (Hold & [oi Hoi] & Hnode & Hinfo) HSome.
  pose proof (rp_heap _ _ _ _ _ HR) as HH. pose proof (skel_node _ _ _ _ _ _ Hs) as Ho. rewrite Hp in Ho.
  pose proof (node_used _ _ _ _ HH (root_skel _ _ (rp_trie _ _ _ _ _ HR))) as Hused.
  apply wp_bind. eapply (wp_store_field _ _ _ t _ 4); [exact HH1|by apply Hold|done| |].
  { destruct (hk_obj _ _ _ HH1 used _ Hoi) as (? & _ & ? & _). pose proof (hk_range _ _ _ HH1). unfold in_u. lia. }
  intros mem2 HH2. apply wp_ret. cbn [set_node_field] in HH2. change (4 =? 4) with true in HH2. cbv iota in HH2.
  set (h2 := <[t := ONode nm used l r c]> h1) in *.
  assert (keeps_data h1 h2) as Hk1.
  { intros off o Hoff Hsk. unfold h2. rewrite lookup_insert_ne; [done|]. intros <-. unfold skel in Hsk.
    by rewrite (Hold _ _ Ho) in Hsk. }
  destruct (represents_new mem m h used dirs mem2 h2 used1 name segs t used e) as [HR' Hp']; try done.
  - intros off o Hoff Hsk. unfold h2. rewrite lookup_insert_ne; [by apply Hold|]. intros <-. congruence.
  - intros n. rewrite <- (proj1 (Hnode n)). unfold skel, h2. destruct (decide (n = t)) as [->|Hn].
    + by rewrite lookup_insert_eq, (Hold _ _ Ho).
    + by rewrite lookup_insert_ne.
  - intros n Hn. rewrite <- (proj2 (Hnode n)). unfold prop_of, h2. by rewrite lookup_insert_ne.
  - unfold prop_of, h2. by rewrite lookup_insert_eq.
  - lia.
  - by apply Hinfo.
  - by eapply HSome.
Qed.

(** A new property at its node. *)
Lemma wp_new_property mem m h used dirs name value segs t (Q : option Z -> Area -> Prop) :
  represents mem m h used dirs -> no_nul name -> no_nul value -> segs_of name segs -> walk h 0 segs t ->
  is_Some (skel h t) -> prop_of h t = 0 ->
  (forall mem' h' used', represents mem' m h' used' dirs -> data_size mem' < used + info_cost name value -> Q None mem') ->
  (forall info mem' h', represents mem' (<[name := new_entry value]> m) h' (used + info_cost name value) dirs -> present h' name info ->
     Q (Some info) mem') ->
  wp E (info ←! new_prop_info name value; store_word (t + 4) info;; mret (Some info)) Q mem.
Proof.
  intros HR Hname Hvalue Hsegs Hw Ht Hp HNone HSome. apply wp_bind.
  eapply wp_new_prop_info; [exact (rp_heap _ _ _ _ _ HR)|..].
  - intros mem' used' HH' Hfull. eapply wp_ret, HNone; [|exact Hfull].
    eapply represents_extends; [exact HR|exact HH'|]. by apply extends_refl, (rp_trie _ _ _ _ _ HR).
  - intros mem1 Hshort HH1 Hfresh. eapply wp_link_property; [exact HR|exact Hname|exact Hsegs|done|done|done|exact HH1|by apply with_short|]. eauto.
  - intros mem1 long Hlong Hrange HH1 Hf1 Hf2. eapply wp_link_property; [exact HR|exact Hname|exact Hsegs|done|done|done|exact HH1|by apply with_long|]. eauto.
Qed.

(** *** [find_property] *)

Definition add_cost (name value : list byte) (segs : list (list byte)) : Z := segs_cost segs + info_cost name value.

Lemma info_cost_pos name value : 0 <= info_cost name value.
Proof.
  unfold info_cost, PROP_INFO_SIZE. pose proof (zlen_nonneg name). pose proof (zlen_nonneg value).
  pose proof (align4_spec (96 + zlen name + 1)). pose proof (align4_spec (zlen value + 1)). case_match; lia.
Qed.

Lemma wp_find_property mem m h used dirs name value alloc (Q : option Z -> Area -> Prop) :
  represents mem m h used dirs -> no_nul name -> no_nul value ->
  (forall info e mem' h' used' dirs', m !! name = Some e -> represents mem' m h' used' dirs' -> present h' name info ->
     (alloc = false -> mem' = mem) -> (forall segs, segs_of name segs -> used' <= used + add_cost name value segs) ->
     Q (Some info) mem') ->
  (forall info mem' h' used' dirs', alloc = true -> m !! name = None ->
     represents mem' (<[name := new_entry value]> m) h' used' dirs' -> present h' name info ->
     (forall segs, segs_of name segs -> used' <= used + add_cost name value segs) -> Q (Some info) mem') ->
  (forall mem' h' used' dirs', m !! name = None -> represents mem' m h' used' dirs' -> (alloc = false -> mem' = mem) ->
     (alloc = true -> forall segs, segs_of name segs -> data_size mem' < used + add_cost name value segs) -> Q None mem') ->
  wp E (find_property name value alloc) Q mem.
Proof.
  intros HR Hname Hvalue Hfound Hnew HNone. pose proof (rp_heap _ _ _ _ _ HR) as HH. pose proof (rp_trie _ _ _ _ _ HR) as HT.
  unfold find_property. apply wp_bind. eapply wp_find_node; [done|done|by eapply root_skel|lia|done|..]; cycle 1.
  { intros mem' h' used' dirs' HH' Hex Ha Hmiss. pose proof (represents_extends _ _ _ _ _ _ _ _ _ HR HH' Hex) as HR'.
    destruct (m !! name) as [e|] eqn:Hm.
    - destruct (rp_stored _ _ _ _ _ HR _ _ Hm) as (i & _ & segs & n & Hsegs & Hw & _).
      by destruct (proj2 (Hmiss segs Hsegs) n).
    - eapply wp_ret, HNone; [done|exact HR'|done|]. intros Hal segs Hsegs. unfold add_cost.
      pose proof (info_cost_pos name value). destruct (Hmiss segs Hsegs) as [Hf _]. specialize (Hf Hal). lia. }
  intros t segs mem1 h1 used1 dirs1 HH1 Hex Hu1 Hsegs Hw [[nm [[l r] c]] Hs] Ha.
  pose proof (represents_extends _ _ _ _ _ _ _ _ _ HR HH1 Hex) as HR1.
  apply wp_bind. eapply wp_load_field; [exact HH1|exact (skel_node _ _ _ _ _ _ Hs)|done|].
  destruct (Z.eqb_spec (prop_of h1 t) 0) as [Hp|Hp]; cbn [negb]; cycle 1.
  { assert (present h1 name (prop_of h1 t)) as Hpres by (split; [done|]; by exists segs, t).
    destruct (rp_present _ _ _ _ _ HR1 _ _ Hpres) as (e & He & _).
    apply wp_valid; [pose proof (represents_info _ _ _ _ _ _ _ HR1 Hpres); lia|]. eapply Hfound; [done|exact HR1|done|done|].
    intros segs' Hs'. rewrite (segs_of_det _ _ _ Hs' Hsegs). unfold add_cost. pose proof (info_cost_pos name value). lia. }
  assert (m !! name = None) as Hm.
  { destruct (m !! name) as [e|] eqn:Hm; [|done]. destruct (rp_stored _ _ _ _ _ HR1 _ _ Hm) as (i & _ & segs' & n & Hs' & Hw' & Hi & ?).
    rewrite (segs_of_det _ _ _ Hs' Hsegs) in Hw'. rewrite (walk_det _ _ _ _ _ Hw' Hw) in Hi. congruence. }
  destruct alloc; cbn [negb]; [|by eapply wp_ret, HNone].
  eapply wp_new_property; [exact HR1|done|done|exact Hsegs|done|eauto|done|..].
  - intros mem' h' used' HR' Hfull. eapply HNone; [done|exact HR'|done|]. intros _ segs' Hsegs'.
    rewrite (segs_of_det _ _ _ Hsegs' Hsegs). unfold add_cost. lia.
  - intros info mem' h' HR' Hpres. eapply Hnew; [done|done|exact HR'|done|].
    intros segs' Hs'. rewrite (segs_of_det _ _ _ Hs' Hsegs). unfold add_cost. lia.
Qed.

End wp.

(** ** The size of an area does not change *)

Definition keeps_len {X} (c : M Area X) : Prop := forall mem, wpx True True c (fun _ mem' => length mem' = length mem) mem.

Lemma keeps_ret {X} (x : X) : keeps_len (mret x).
Proof. intros mem. by apply wp_ret. Qed.
Lemma keeps_gets {X} (f : Area -> X) : keeps_len (gets f).
Proof. intros mem. by apply wp_gets. Qed.
Lemma keeps_get : keeps_len get.
Proof. intros mem. by apply wp_get. Qed.
Lemma keeps_panic {X} : keeps_len (panic : M Area X).
Proof. intros mem. by apply wp_panic. Qed.
Lemma keeps_spin {X} : keeps_len (spin : M Area X).
Proof. intros mem. by apply wp_spin. Qed.
Lemma keeps_bind {X Y} (c : M Area X) (k : X -> M Area Y) : keeps_len c -> (forall x, keeps_len (k x)) -> keeps_len (x ← c; k x).
Proof. intros Hc Hk mem. apply wp_bind. eapply wp_mono; [apply Hc|]. intros x mem1 Hl. rewrite <- Hl. apply Hk. Qed.

Lemma keeps_store at_ v : keeps_len (store at_ v).
Proof.
  intros mem. unfold store. apply wp_bind, wp_get. destruct (splice _ _ _) eqn:Hs; [|by apply wp_panic].
  apply wp_put. by apply length_splice in Hs.
Qed.
Lemma keeps_write_bytes off d : keeps_len (write_bytes off d).
Proof.
  intros mem. unfold write_bytes. apply wp_bind, wp_get. destruct (splice _ _ _) eqn:Hs; [|by apply wp_panic].
  apply wp_put. by apply length_splice in Hs.
Qed.

Create HintDb keeps.
#[export] Hint Resolve keeps_ret keeps_gets keeps_get keeps_panic keeps_spin keeps_store keeps_write_bytes : keeps.

(** The steps of a program, one by one. *)
Ltac keeps :=
  repeat match goal with
  | |- keeps_len (mbind _ _) => apply keeps_bind; [|intros]
  | |- keeps_len (match ?x with _ => _ end) => destruct x
  | |- keeps_len _ => solve [auto with keeps]
  end.

Lemma keeps_load at_ : keeps_len (load at_).
Proof. unfold load. keeps. Qed.
Lemma keeps_store_word off v : keeps_len (store_word off v).
Proof. unfold store_word. keeps. Qed.
Lemma keeps_load_word off : keeps_len (load_word off).
Proof. unfold load_word. keeps. apply keeps_load. Qed.
#[export] Hint Resolve keeps_load keeps_load_word keeps_store_word : keeps.

Lemma keeps_allocate n : keeps_len (allocate n).
Proof. unfold allocate, bytes_used. keeps. Qed.
#[export] Hint Resolve keeps_allocate : keeps.
Lemma keeps_new_trie_node name : keeps_len (new_trie_node name).
Proof. unfold new_trie_node. keeps. Qed.
Lemma keeps_new_prop_info name value : keeps_len (new_prop_info name value).
Proof. unfold new_prop_info. keeps. Qed.
Lemma keeps_node_name n : keeps_len (node_name n).
Proof. unfold node_name, read_bytes. keeps. Qed.
Lemma keeps_valid n : keeps_len (valid n).
Proof. unfold valid. keeps. Qed.
#[export] Hint Resolve keeps_new_trie_node keeps_new_prop_info keeps_node_name keeps_valid : keeps.

Lemma keeps_find_trie_node_loop fuel n seg alloc : keeps_len (find_trie_node_loop fuel n seg alloc).
Proof. revert n. induction fuel; intros n; cbn [find_trie_node_loop]; keeps. Qed.
#[export] Hint Resolve keeps_find_trie_node_loop : keeps.
Lemma keeps_find_child n seg alloc : keeps_len (find_child n seg alloc).
Proof. unfold find_child, find_trie_node. keeps. Qed.
#[export] Hint Resolve keeps_find_child : keeps.
Lemma keeps_find_node_loop fuel n rem alloc : keeps_len (find_node_loop fuel n rem alloc).
Proof. revert n rem. induction fuel; intros n rem; cbn [find_node_loop]; keeps. Qed.
#[export] Hint Resolve keeps_find_node_loop : keeps.
Lemma keeps_find_property name value alloc : keeps_len (find_property name value alloc).
Proof. unfold find_property. keeps. Qed.

(** ** The operations on an area that holds a map *)

Definition area_holds (mem : Area) (m : Props) : Prop := exists h used dirs, represents mem m h used dirs.

(** What is left of an area. *)
Definition free (mem : Area) : Z := data_size mem - default 0 (Reader.word_at mem 0).

Lemma free_used mem h used : heap_ok mem h used -> free mem = data_size mem - used.
Proof.
  intros [Hu _ Hr _ _ _]. unfold free, Reader.word_at. rewrite Hu. cbn -[of_le_bytes le_bytes]. rewrite of_le_bytes_le_bytes.
  change (256 ^ Z.of_nat 4) with (2 ^ 32). rewrite Z.mod_small; lia.
Qed.

Definition add_spec (m : Props) (name value : list byte) : Props :=
  match m !! name with Some _ => m | None => <[name := new_entry value]> m end.

Lemma wp_run {S X} (c : M S X) (Q : X -> S -> Prop) s : wp False c Q s -> exists x s', c s = Done (x, s') /\ Q x s'.
Proof. unfold wpx. destruct (c s) as [[x s']| |]; [eauto|done..]. Qed.

Lemma find_ok mem m name :
  area_holds mem m -> no_nul name ->
  match m !! name with
  | None => find name mem = Done (None, mem)
  | Some e => exists info h used dirs, find name mem = Done (Some info, mem) /\ represents mem m h used dirs /\ present h name info
  end.
Proof.
  intros (h & used & dirs & HR) Hname.
  destruct (wp_run (find name) (fun r mem' => mem' = mem /\
    match r with
    | Some info => is_Some (m !! name) /\ exists h used dirs, represents mem m h used dirs /\ present h name info
    | None => m !! name = None
    end) mem) as (r & mem' & Hf & -> & Hr).
  - unfold find. eapply wp_find_property; [exact HR|done|by apply not_elem_of_nil|..].
    + intros info e mem' h' used' dirs' He HR' Hp Ha _. rewrite Ha in * by done. split; [done|]. split; [eauto|]. by exists h', used', dirs'.
    + done.
    + intros mem' h' used' dirs' Hm _ Ha _. rewrite Ha by done. done.
  - destruct r as [info|]; [|by rewrite Hr]. destruct Hr as [[e ->] (h' & used' & dirs' & HR' & Hp)].
    by exists info, h', used', dirs'.
Qed.

Lemma keeps_add name value : keeps_len (add name value).
Proof. unfold add. apply keeps_bind; [apply keeps_find_property|]. intros. apply keeps_ret. Qed.

Lemma add_ok mem m name value :
  area_holds mem m -> no_nul name -> no_nul value ->
  exists ok mem', add name value mem = Done (ok, mem') /\ length mem' = length mem /\
    area_holds mem' (if ok then add_spec m name value else m) /\
    (is_Some (m !! name) -> ok = true) /\
    (forall segs, segs_of name segs -> add_cost name value segs <= free mem -> ok = true) /\
    (ok = true -> exists segs, segs_of name segs /\ free mem - add_cost name value segs <= free mem').
Proof.
  intros (h & used & dirs & HR) Hname Hvalue.
  destruct (wp_run (add name value) (fun ok mem' =>
    area_holds mem' (if ok then add_spec m name value else m) /\ (is_Some (m !! name) -> ok = true) /\
    (ok = false -> forall segs, segs_of name segs -> data_size mem' < used + add_cost name value segs) /\
    (ok = true -> exists segs, segs_of name segs /\
       data_size mem' - used - add_cost name value segs <= free mem')) mem) as (ok & mem' & Hadd & Hm & Hsome & Hfull & Hsegs).
  - unfold add. apply wp_bind. eapply wp_find_property; [exact HR|done|done|..].
    + intros info e mem' h' used' dirs' He HR' (_ & segs & _ & Hs & _) _ Hu. apply wp_ret. cbn. unfold add_spec. rewrite He.
      split_and!; [by exists h', used', dirs'|eauto|done|]. exists segs. split; [done|]. specialize (Hu _ Hs).
      rewrite (free_used _ _ _ (rp_heap _ _ _ _ _ HR')). lia.
    + intros info mem' h' used' dirs' _ He HR' (_ & segs & _ & Hs & _) Hu. apply wp_ret. cbn. unfold add_spec. rewrite He.
      split_and!; [by exists h', used', dirs'|eauto|done|]. exists segs. split; [done|]. specialize (Hu _ Hs).
      rewrite (free_used _ _ _ (rp_heap _ _ _ _ _ HR')). lia.
    + intros mem' h' used' dirs' He HR' _ Hfull. apply wp_ret. cbn. rewrite He.
      split_and!; [by exists h', used', dirs'|by intros []|by intros _; apply Hfull|done].
  - exists ok, mem'. pose proof (keeps_add name value mem) as Hlen. unfold wpx in Hlen. rewrite Hadd in Hlen. split_and!; try done.
    + intros segs Hs Hc. destruct ok; [done|]. specialize (Hfull eq_refl segs Hs).
      rewrite (free_used _ _ _ (rp_heap _ _ _ _ _ HR)) in Hc. unfold data_size, zlen in *. lia.
    + intros Hok. destruct (Hsegs Hok) as (segs & Hs & Hf). exists segs. split; [done|].
      rewrite (free_used _ _ _ (rp_heap _ _ _ _ _ HR)). unfold data_size, zlen in *. lia.
Qed.

(** *** A new area *)

Definition new_mem (rest : list byte) : Area :=
  le_bytes 4 112 ++ le_bytes 4 0 ++ (le_bytes 4 PROP_AREA_MAGIC ++ le_bytes 4 PROP_AREA_VERSION) ++ rest.
Definition new_heap : heap := <[0 := ONode [] 0 0 0 0]> (<[20 := ORaw (replicate 92 x00)]> ∅).

Lemma store_at mem l1 l2 l3 at_ v :
  mem = l1 ++ l2 ++ l3 -> at_ = zlen l1 -> zlen l2 = 4 -> store at_ v mem = Done (tt, l1 ++ le_bytes 4 v ++ l3).
Proof. intros -> -> Hl. unfold store, mbind, M_bind, get. rewrite (splice_at l1 l2 l3); done. Qed.

Lemma create_eq len :
  PROP_AREA_HEADER_SIZE + DIRTY_BACKUP_AREA + PROP_VALUE_MAX <= len ->
  create len = Done (new_mem (replicate (Z.to_nat (len - 16)) x00)).
Proof.
  intros Hlen. unfold create. rewrite (proj2 (Z.ltb_ge _ _)) by done.
  unfold PROP_AREA_HEADER_SIZE, DIRTY_BACKUP_AREA, TRIE_NODE_SIZE, PROP_VALUE_MAX in Hlen.
  set (rest := replicate (Z.to_nat (len - 16)) x00).
  assert (replicate (Z.to_nat len) x00 = replicate 8 x00 ++ replicate 4 x00 ++ (replicate 4 x00 ++ rest)) as ->.
  { unfold rest. rewrite <- !replicate_add. f_equal. lia. }
  unfold mbind at 2, M_bind at 1. rewrite (store_at _ (replicate 8 x00) (replicate 4 x00) (replicate 4 x00 ++ rest)) by done.
  unfold mbind at 2, M_bind at 1.
  rewrite (store_at _ (replicate 8 x00 ++ le_bytes 4 PROP_AREA_MAGIC) (replicate 4 x00) rest) by (by rewrite <- ?app_assoc).
  unfold mbind at 2, M_bind at 1.
  erewrite (store_at _ (replicate 4 x00) (replicate 4 x00) (le_bytes 4 PROP_AREA_MAGIC ++ le_bytes 4 PROP_AREA_VERSION ++ rest))
    by (done || by rewrite <- ?app_assoc).
  by erewrite (store_at _ [] (replicate 4 x00) (le_bytes 4 0 ++ le_bytes 4 PROP_AREA_MAGIC ++ le_bytes 4 PROP_AREA_VERSION ++ rest)).
Qed.

Lemma new_heap_lookup off o : new_heap !! off = Some o ->
  (off = 0 /\ o = ONode [] 0 0 0 0) \/ (off = 20 /\ o = ORaw (replicate 92 x00)).
Proof.
  unfold new_heap. rewrite !lookup_insert_Some, lookup_empty. intros [[??]|[_ [[??]|[_ ?]]]]; [by left|by right|done].
Qed.

Lemma new_skel n s : skel new_heap n = Some s -> n = 0 /\ s = ([], (0, 0, 0)).
Proof.
  unfold skel. destruct (new_heap !! n) as [o|] eqn:Ho; [|done]. destruct (new_heap_lookup _ _ Ho) as [[-> ->]|[-> ->]]; [|done].
  by intros [= <-].
Qed.

Lemma new_trie_ok : trie_ok new_heap ∅.
Proof.
  split; try done.
  - exists 0. unfold new_heap. by rewrite lookup_insert_eq.
  - intros n nm links [_ [= -> ->]]%new_skel. apply not_elem_of_nil.
  - by intros n nm links [-> _]%new_skel.
  - by intros n nm l r c [_ [= -> -> -> ->]]%new_skel.
  - by intros n nm l r c [_ [= -> -> -> ->]]%new_skel.
  - by intros n nm l r c [_ [= -> -> -> ->]]%new_skel.
  - intros n nm links f n' nm' links' f' [_ [= -> ->]]%new_skel _ Hf _ Hl. destruct Hf as [->|[->| ->]]; done.
Qed.

Lemma new_prop n : prop_of new_heap n = 0.
Proof.
  unfold prop_of. destruct (new_heap !! n) as [o|] eqn:Ho; [|done].
  by destruct (new_heap_lookup _ _ Ho) as [[-> ->]|[-> ->]].
Qed.

Lemma new_present name info : ~ present new_heap name info.
Proof. intros (_ & segs & n & _ & _ & Hp & Hi). apply Hi. by rewrite <- Hp, new_prop. Qed.

Lemma new_heap_ok len :
  PROP_AREA_HEADER_SIZE + DIRTY_BACKUP_AREA + PROP_VALUE_MAX <= len < 2 ^ 32 ->
  zlen (new_mem (replicate (Z.to_nat (len - 16)) x00)) = len /\
  heap_ok (new_mem (replicate (Z.to_nat (len - 16)) x00)) new_heap 112.
Proof.
  unfold PROP_AREA_HEADER_SIZE, DIRTY_BACKUP_AREA, PROP_VALUE_MAX, TRIE_NODE_SIZE. intros Hlen.
  set (mem := new_mem _). assert (zlen mem = len) as Hl.
  { unfold mem, new_mem. rewrite !zlen_app, !zlen_le_bytes, zlen_zeros; lia. }
  assert (data_size mem = len - 128) as Hds by (unfold data_size, PROP_AREA_HEADER_SIZE; lia).
  assert (forall i, 0 <= i < len - 128 -> mem !! Z.to_nat (PROP_AREA_HEADER_SIZE + i) = Some x00) as Hzero.
  { intros i Hi. unfold mem, new_mem, PROP_AREA_HEADER_SIZE. rewrite !app_assoc, lookup_app_r; rewrite !length_app, !length_le_bytes; [|lia].
    apply lookup_replicate_2. lia. }
  assert (forall off n, 0 <= off -> off + Z.of_nat n <= len - 128 -> slice mem (PROP_AREA_HEADER_SIZE + off) (Z.of_nat n) = Some (replicate n x00)) as Hz.
  { intros off n Ho Hn. apply slice_Some. unfold PROP_AREA_HEADER_SIZE in *. split_and!; try lia. symmetry.
    apply list_eq. intros i. destruct (decide (i < n)%nat).
    - rewrite lookup_take_lt, lookup_drop, lookup_replicate_2 by lia. rewrite <- (Hzero (off + Z.of_nat i)) by lia. f_equal. lia.
    - rewrite lookup_take_ge by lia. symmetry. apply lookup_ge_None_2. rewrite length_replicate. lia. }
  split; [done|]. split; rewrite ?Hds.
  - by apply (slice_at []).
  - by apply (slice_at (le_bytes 4 112 ++ le_bytes 4 0)).
  - split_and!; [lia|lia|done|]. lia.
  - intros off o [[-> ->]|[-> ->]]%new_heap_lookup.
    + split_and!; try done; [by repeat constructor|]. apply (Hz 0 20%nat); lia.
    + split_and!; try done. apply (Hz 20 92%nat); lia.
  - intros off o off' o' [[-> ->]|[-> ->]]%new_heap_lookup [[-> ->]|[-> ->]]%new_heap_lookup Hlt; try lia; by vm_compute.
  - intros i Hi. apply Hzero. lia.
Qed.

Lemma create_ok len :
  PROP_AREA_HEADER_SIZE + DIRTY_BACKUP_AREA + PROP_VALUE_MAX <= len < 2 ^ 32 ->
  exists mem, create len = Done mem /\ zlen mem = len /\ area_holds mem ∅ /\
    free mem = len - (PROP_AREA_HEADER_SIZE + DIRTY_BACKUP_AREA + PROP_VALUE_MAX).
Proof.
  intros Hlen. destruct (new_heap_ok len Hlen) as [Hl HH]. eexists. split; [apply create_eq; lia|]. split; [done|]. split.
  - exists new_heap, 112, ∅. split; [done|apply new_trie_ok| | | |].
    + exists (replicate 92 x00). unfold new_heap. by rewrite lookup_insert_ne, lookup_insert_eq.
    + intros name info Hp. by apply new_present in Hp.
    + intros name e. by rewrite lookup_empty.
    + intros n. by rewrite new_prop.
  - rewrite (free_used _ _ _ HH). unfold data_size. rewrite Hl.
    unfold PROP_AREA_HEADER_SIZE, DIRTY_BACKUP_AREA, PROP_VALUE_MAX, TRIE_NODE_SIZE. lia.
Qed.
