(* ===== verification/AreaReader.v ===== *)
(** The reader of a property area finds and reads what the area holds. *)

From Stdlib Require Import ZArith Lia.
From Stdlib Require Import Strings.Byte.
From stdpp Require Import base numbers list gmap.
From S2P Require Import Prelude Text Bytes Area AreaHeap AreaTrie AreaMap.

Open Scope Z_scope.

(** What a reader sees of a value: that of a name that is not read-only is not
    read where a long one is. *)
Definition seen (name value : list byte) : list byte :=
  if (PROP_VALUE_MAX <=? zlen value) && negb (is_ro name) then LONG_LEGACY_ERROR else value.

Definition read_spec (name : list byte) (e : Entry) : ReadProperty :=
  mkReadProperty (utf8_lossy name) (utf8_lossy (seen name (e_value e))) (e_serial e).

Definition get_spec (m : Props) (name : list byte) : option ReadProperty := read_spec name <$> m !! name.

(** ** Accesses *)

Section reader.
Context (mem : Area) (h : heap) (used : Z) (HH : heap_ok mem h used).

Lemma data_slice off n : 0 <= off -> slice (Reader.data mem) off n = slice mem (PROP_AREA_HEADER_SIZE + off) n.
Proof.
  intros Hoff. unfold Reader.data. destruct (slice mem (PROP_AREA_HEADER_SIZE + off) n) as [e|] eqn:Hs.
  - apply slice_Some in Hs as (? & ? & Hn & ->). apply slice_Some. unfold zlen, PROP_AREA_HEADER_SIZE in *.
    rewrite length_drop, drop_drop. split_and!; try lia. do 2 f_equal. lia.
  - destruct (slice (drop _ _) off n) as [e|] eqn:He; [|done]. apply slice_Some in He as (? & ? & Hn & He).
    exfalso. cut (is_Some (slice mem (PROP_AREA_HEADER_SIZE + off) n)); [rewrite Hs; by intros []|].
    eexists. apply slice_Some. unfold zlen, PROP_AREA_HEADER_SIZE in *. rewrite length_drop in Hn.
    pose proof (hk_range _ _ _ HH) as Hr. unfold data_size, zlen, PROP_AREA_HEADER_SIZE in Hr. split_and!; try lia. done.
Qed.

Lemma data_len : zlen (Reader.data mem) = data_size mem.
Proof.
  unfold Reader.data, data_size, zlen. rewrite length_drop. pose proof (hk_range _ _ _ HH) as Hr.
  unfold data_size, zlen, PROP_AREA_HEADER_SIZE in *. lia.
Qed.

Lemma reader_part off o k n part :
  h !! off = Some o -> 0 <= k -> 0 <= n -> k + n <= zlen (encode o) -> slice (encode o) k n = Some part ->
  slice (Reader.data mem) (off + k) n = Some part.
Proof.
  intros Ho Hk Hn Hle Hs. destruct (hk_obj _ _ _ HH off o Ho) as (? & _). rewrite data_slice by lia.
  by eapply obj_part.
Qed.

Lemma reader_word off o k v :
  h !! off = Some o -> 0 <= k -> k + 4 <= zlen (encode o) -> slice (encode o) k 4 = Some (le_bytes 4 v) -> in_u 32 v ->
  Reader.u32_at mem (off + k) = Some v.
Proof.
  intros Ho Hk Hle Hs Hv. unfold Reader.u32_at, Reader.word_at. rewrite (reader_part off o k 4 _ Ho) by (done || lia).
  cbn. f_equal. rewrite of_le_bytes_le_bytes. change (256 ^ Z.of_nat 4) with (2 ^ 32). unfold in_u in Hv.
  rewrite Z.mod_small by lia. done.
Qed.

Lemma reader_field off o k v : h !! off = Some o -> node_field o k = Some v -> Reader.u32_at mem (off + k) = Some v.
Proof.
  intros Ho Hf. destruct (node_field_range _ _ _ Hf) as (? & _ & ?).
  eapply reader_word; [done|done|done|by apply node_field_slice|].
  eapply node_field_in; [done|]. apply (hk_obj _ _ _ HH off o Ho).
Qed.

Lemma reader_obj off : off <= used -> Reader.obj mem off = Some off.
Proof.
  intros Hle. unfold Reader.obj. rewrite data_len. pose proof (hk_range _ _ _ HH).
  by rewrite (proj2 (Z.leb_le _ _)) by lia.
Qed.

Lemma reader_node_name n nm links : skel h n = Some (nm, links) -> Reader.node_name mem n = Some nm.
Proof.
  intros Hs. destruct links as [[l r] c]. pose proof (skel_node _ _ _ _ _ _ Hs) as Ho. unfold Reader.node_name.
  destruct (hk_obj _ _ _ HH n _ Ho) as (? & _ & _ & [Hin _] & _). pose proof (zlen_nonneg nm).
  pose proof (zlen_node nm (prop_of h n) l r c) as Hlen. unfold TRIE_NODE_SIZE in *.
  rewrite <- (Z.add_0_r n) at 1. rewrite (reader_word n _ 0 (zlen nm) Ho); [|done|lia|by apply (slice_at [])|done].
  cbn [mbind option_bind]. eapply reader_part; [exact Ho|done|done|lia|].
  replace (encode (ONode nm (prop_of h n) l r c)) with
    ((le_bytes 4 (zlen nm) ++ le_bytes 4 (prop_of h n) ++ le_bytes 4 l ++ le_bytes 4 r ++ le_bytes 4 c) ++ nm ++ []).
  - apply slice_at; [|done]. by rewrite !zlen_app, !zlen_le_bytes.
  - cbn [encode]. by rewrite app_nil_r, <- !app_assoc.
Qed.

(** The C string at a part of an object. *)
Lemma reader_c_str off o k l1 s r :
  h !! off = Some o -> encode o = l1 ++ s ++ x00 :: r -> k = zlen l1 -> no_nul s -> Reader.c_str mem (off + k) = s.
Proof.
  intros Ho He -> Hs. unfold Reader.c_str. rewrite data_len. pose proof (zlen_nonneg l1).
  destruct (hk_obj _ _ _ HH off o Ho) as (? & _ & [_ Hu] & _ & Hat). pose proof (hk_range _ _ _ HH).
  rewrite He, !zlen_app in Hu. pose proof (zlen_nonneg s). pose proof (zlen_nonneg (x00 :: r)).
  rewrite Z.min_l by lia.
  assert (slice (Reader.data mem) (off + zlen l1) (zlen (s ++ x00 :: r)) = Some (s ++ x00 :: r)) as Hsl.
  { eapply reader_part; [exact Ho|lia|apply zlen_nonneg|rewrite He, !zlen_app; lia|].
    rewrite He. rewrite <- (app_nil_r (s ++ x00 :: r)) at 1. by apply slice_at. }
  apply slice_Some in Hsl as (_ & _ & _ & Heq).
  rewrite <- (take_drop (Z.to_nat (zlen (s ++ x00 :: r))) (drop _ _)), <- Heq, <- app_assoc. by apply c_string_app.
Qed.

(** ** Searching *)

Section trie.
Context (dirs : gmap Z Z) (HT : trie_ok h dirs).

Lemma reader_siblings fuel n seg :
  is_Some (skel h n) -> used - n <= Z.of_nat fuel ->
  exists r, Reader.find_sibling mem fuel n seg = Done r /\
    match r with Some t => finds h seg n t /\ is_Some (skel h t) | None => exists k f, misses h seg n k f end.
Proof.
  revert n. induction fuel as [|fuel IH]; intros n Hn Hfuel.
  { pose proof (node_used _ _ _ _ HH Hn). lia. }
  destruct Hn as [[nm [[l r] c]] Hs]. cbn [Reader.find_sibling]. rewrite (reader_node_name _ _ _ Hs).
  destruct (Z.eqb_spec (cmp_prop_name seg nm) 0) as [H0|H0].
  { exists (Some n). split; [done|]. split; [by eapply finds_here|eauto]. }
  assert (Reader.u32_at mem (link_of n (cmp_prop_name seg nm)) = Some (side (cmp_prop_name seg nm) (l, r, c))) as ->.
  { unfold link_of, side. case_match; by eapply reader_field; [eapply skel_node|]. }
  destruct (Z.eqb_spec (side (cmp_prop_name seg nm) (l, r, c)) 0) as [Hl|Hl].
  { exists None. split; [done|]. exists n, (side_field (cmp_prop_name seg nm)). by eapply misses_here. }
  destruct (tr_side h dirs n nm (l, r, c) _ HT Hs Hl) as (Hlt & Hn & _).
  pose proof (node_used _ _ _ _ HH Hn). rewrite reader_obj by lia.
  destruct (IH _ Hn ltac:(lia)) as (res & -> & Hres). exists res. split; [done|]. destruct res as [t|].
  - split; [|apply Hres]. by eapply finds_side; [..|apply Hres].
  - destruct Hres as (k & f & Hm). exists k, f. by eapply misses_side.
Qed.

Lemma reader_node fuel n rem :
  is_Some (skel h n) -> (length rem < fuel)%nat ->
  exists r, Reader.find_node mem fuel n rem = Done r /\
    match r with
    | Some t => is_Some (skel h t) /\ exists segs, segs_of rem segs /\ walk h n segs t
    | None => forall segs t, segs_of rem segs -> ~ walk h n segs t
    end.
Proof.
  revert n rem. induction fuel as [|fuel IH]; intros n rem [[nm [[l r] c]] Hs] Hfuel; [lia|].
  cbn [Reader.find_node]. destruct (split_segment rem) as [seg rest] eqn:Hsplit.
  assert (forall segs, segs_of rem segs -> seg <> [] /\ exists segs', segs = seg :: segs' /\
    match rest with Some rest => segs_of rest segs' | None => segs' = [] end) as Hinv.
  { intros segs Hsegs. inversion Hsegs as [? ? Hs'|? ? ? ? Hs']; subst; rewrite Hsplit in Hs'; simplify_eq; eauto. }
  destruct (Z.eqb_spec (zlen seg) 0) as [Hz|Hz].
  { exists None. split; [done|]. intros segs t Hsegs. destruct (Hinv _ Hsegs) as [Hne _]. by destruct seg. }
  assert (seg <> []) as Hne by (by intros ->).
  rewrite (reader_field n _ 16 c (skel_node _ _ _ _ _ _ Hs) eq_refl).
  destruct (Z.eqb_spec c 0) as [->|Hc].
  { exists None. split; [done|]. intros segs t Hsegs Hw. destruct (Hinv _ Hsegs) as (_ & segs' & -> & _).
    inversion Hw as [|? ? ? ? ? ? ? k' ? Hs' Hc' Hf' Hw']; subst. congruence. }
  destruct (tr_children _ _ HT _ _ _ _ _ Hs Hc) as (_ & Hn & _). pose proof (node_used _ _ _ _ HH Hn).
  rewrite reader_obj by lia. destruct (reader_siblings (length mem) c seg Hn) as (res & -> & Hres).
  { by apply (fuel_enough _ _ _ _ HH). }
  cbn [mbind outcome_bind]. destruct res as [t1|]; cycle 1.
  { exists None. split; [done|]. intros segs t Hsegs Hw. destruct (Hinv _ Hsegs) as (_ & segs' & -> & _).
    inversion Hw as [|? ? ? ? ? ? ? k' ? Hs' Hc' Hf' Hw']; subst. rewrite Hs in Hs'. simplify_eq.
    destruct Hres as (k & f & Hm). by eapply finds_misses. }
  destruct Hres as [Hf1 Hn1]. destruct rest as [rest|]; cycle 1.
  { exists (Some t1). split; [done|]. split; [done|]. exists [seg]. split; [by apply segs_last|].
    by eapply walk_cons; [..|constructor]. }
  destruct (IH t1 rest Hn1) as (res & -> & Hres).
  { rewrite (split_segment_eq _ _ _ Hsplit), length_app in Hfuel. cbn in Hfuel. lia. }
  exists res. split; [done|]. destruct res as [t|].
  - destruct Hres as (Ht & segs & Hsegs & Hw). split; [done|]. exists (seg :: segs).
    split; [by eapply segs_more|by eapply walk_cons].
  - intros segs t Hsegs Hw. destruct (Hinv _ Hsegs) as (_ & segs' & -> & Hsegs').
    inversion Hw as [|? ? ? ? ? ? ? k' ? Hs' Hc' Hf' Hw']; subst. rewrite Hs in Hs'. simplify_eq.
    rewrite (finds_det _ _ _ _ _ Hf' Hf1) in Hw'. by eapply Hres.
Qed.

Lemma reader_find name :
  no_nul name -> (forall info, present h name info -> info <= used) ->
  exists r, Reader.find mem name = Done r /\
    match r with Some info => present h name info | None => forall info, ~ present h name info end.
Proof.
  intros Hname Hrange. unfold Reader.find.
  destruct (reader_node (S (length name)) 0 name (root_skel _ _ HT) ltac:(lia)) as (r & -> & Hr). cbn [mbind outcome_bind].
  eexists. split; [done|]. destruct r as [t|]; cbn [mbind option_bind]; cycle 1.
  { intros info (_ & segs & n & Hsegs & Hw & _). by eapply Hr. }
  destruct Hr as ([[nm [[l r] c]] Hs] & segs & Hsegs & Hw).
  rewrite (reader_field t _ 4 (prop_of h t) (skel_node _ _ _ _ _ _ Hs) eq_refl). cbn [mbind option_bind].
  destruct (Z.eqb_spec (prop_of h t) 0) as [Hp|Hp].
  - intros info (_ & segs' & n & Hsegs' & Hw' & Hi & Hne). rewrite (segs_of_det _ _ _ Hsegs' Hsegs) in Hw'.
    rewrite (walk_det _ _ _ _ _ Hw' Hw) in Hi. congruence.
  - assert (present h name (prop_of h t)) as Hpres by (split; [done|]; by exists segs, t).
    by rewrite reader_obj by (by apply Hrange).
Qed.
End trie.
End reader.

(** ** Reading *)

(** The value of a property: elsewhere, in its place, or in the backup area. *)
Inductive reads_as (h : heap) (info : Z) (name v : list byte) (serial : Z) : Prop :=
| reads_long long :
    is_ro name = true -> Z.land serial LONG_FLAG <> 0 -> h !! info = Some (OInfo name serial (long_field (long - info))) ->
    h !! long = Some (ORaw (v ++ [x00])) -> info < long < 2 ^ 32 -> reads_as h info name v serial
| reads_ro rest :
    is_ro name = true -> Z.land serial LONG_FLAG = 0 -> h !! info = Some (OInfo name serial (v ++ [x00] ++ rest)) ->
    reads_as h info name v serial
| reads_clean rest :
    is_ro name = false -> Z.land serial 1 = 0 -> h !! info = Some (OInfo name serial (v ++ [x00] ++ rest)) ->
    Z.shiftr serial 24 = zlen v -> reads_as h info name v serial
| reads_dirty field rest :
    is_ro name = false -> Z.land serial 1 <> 0 -> h !! info = Some (OInfo name serial field) ->
    h !! DIRTY_BACKUP_AREA = Some (ORaw (v ++ [x00] ++ rest)) ->
    Z.shiftr serial 24 = zlen v -> reads_as h info name v serial.

Lemma reader_raw mem h used off o k l1 v r :
  heap_ok mem h used -> h !! off = Some o -> encode o = l1 ++ (v ++ [x00]) ++ r -> k = zlen l1 -> no_nul v ->
  exists raw, slice (Reader.data mem) (off + k) (zlen v + 1) = Some raw /\ c_string raw = v.
Proof.
  intros HH Ho He -> Hv. exists (v ++ [x00]). split; [|by apply c_string_app].
  pose proof (zlen_nonneg v). pose proof (zlen_nonneg r).
  eapply reader_part; [exact HH|exact Ho|apply zlen_nonneg|lia| |rewrite He; apply slice_at; [done|by rewrite zlen_app]].
  rewrite He, !zlen_app. change (zlen [x00]) with 1. lia.
Qed.

Lemma reader_long mem h used info name serial long :
  heap_ok mem h used -> h !! info = Some (OInfo name serial (long_field (long - info))) -> info < long < 2 ^ 32 ->
  Reader.u32_at mem (info + LONG_OFFSET_FIELD) = Some (long - info).
Proof.
  intros HH Ho Hl. destruct (hk_obj _ _ _ HH info _ Ho) as (Hi & _ & _ & [_ Hfield] & _).
  pose proof (zlen_info name serial _ Hfield) as Hlen. pose proof (zlen_nonneg name).
  eapply (reader_word _ _ _ HH); [exact Ho|done|unfold LONG_OFFSET_FIELD, PROP_INFO_SIZE in *; lia| |unfold in_u; lia].
  replace (encode (OInfo name serial (long_field (long - info)))) with
    ((le_bytes 4 serial ++ LONG_LEGACY_ERROR ++ [x00] ++ replicate 5 x00) ++ le_bytes 4 (long - info) ++
     (replicate 32 x00 ++ name ++ [x00])).
  - by apply slice_at; rewrite ?zlen_app, zlen_le_bytes.
  - cbn [encode]. unfold long_field. by rewrite <- !app_assoc.
Qed.

Lemma reader_read mem h used info name v serial :
  heap_ok mem h used -> reads_as h info name v serial -> no_nul name -> no_nul v ->
  Reader.read mem info = Some (mkReadProperty (utf8_lossy name) (utf8_lossy v) serial).
Proof.
  intros HH Hr Hname Hv.
  assert (exists field, h !! info = Some (OInfo name serial field)) as [field Ho] by (destruct Hr; eauto).
  destruct (hk_obj _ _ _ HH info _ Ho) as (Hi & _ & _ & [Hser Hfield] & _). pose proof (zlen_info name serial field Hfield) as Hlen.
  pose proof (zlen_nonneg name). unfold PROP_INFO_SIZE, PROP_VALUE_MAX in *.
  assert (Reader.c_str mem (info + PROP_INFO_SIZE) = name) as Hn.
  { eapply (reader_c_str _ _ _ HH info _ _ (le_bytes 4 serial ++ field) name []); [exact Ho| | |done].
    - cbn [encode]. by rewrite <- app_assoc.
    - rewrite zlen_app, zlen_le_bytes, Hfield. done. }
  assert (Reader.u32_at mem info = Some serial) as Hs.
  { rewrite <- (Z.add_0_r info). eapply (reader_word _ _ _ HH); [exact Ho|done|lia|by apply (slice_at [])|done]. }
  unfold Reader.read. rewrite Hn, Hs. cbn [mbind option_bind].
  destruct Hr as [long Hro Hf Ho1 Ho2 Hl|rest Hro Hf Ho1|rest Hro Hf Ho1 Hlen1|field1 rest Hro Hf Ho1 Ho2 Hlen1];
    unfold is_ro in Hro; rewrite Hro; rewrite Ho in Ho1; injection Ho1 as ->.
  - rewrite (proj2 (Z.eqb_neq _ _) Hf). cbn [negb].
    rewrite (reader_long _ _ _ _ _ _ _ HH Ho Hl). cbn [mbind option_bind].
    replace (info + (long - info)) with (long + 0) by lia. by rewrite (reader_c_str _ _ _ HH long _ 0 [] v [] Ho2).
  - rewrite (proj2 (Z.eqb_eq _ _) Hf). cbn [negb mbind option_bind].
    rewrite (reader_c_str _ _ _ HH info _ 4 (le_bytes 4 serial) v (rest ++ name ++ [x00]) Ho); [done| |done|done].
    cbn [encode]. by rewrite <- !app_assoc.
  - rewrite (proj2 (Z.eqb_eq _ _) Hf), Hlen1. cbn [negb].
    destruct (reader_raw mem h used info _ 4 (le_bytes 4 serial) v (rest ++ name ++ [x00]) HH Ho) as (raw & -> & Hc); try done.
    { cbn [encode]. by rewrite <- !app_assoc. }
    cbn [mbind option_bind]. by rewrite Hc.
  - rewrite (proj2 (Z.eqb_neq _ _) Hf), Hlen1. cbn [negb]. rewrite <- (Z.add_0_r DIRTY_BACKUP_AREA).
    destruct (reader_raw mem h used DIRTY_BACKUP_AREA _ 0 [] v rest HH Ho2) as (raw & -> & Hc); try done.
    { cbn [encode]. by rewrite <- !app_assoc. }
    cbn [mbind option_bind]. by rewrite Hc.
Qed.

(** *** What a reader of a memory is shown *)

Record shows (mem : Area) (m : Props) : Prop := mkShows {
  sh_accepts : Reader.accepts mem = true;
  sh_get : forall name, no_nul name -> Reader.get mem name = Done (get_spec m name);
}.

Lemma seen_no_nul name e : no_nul (e_value e) -> no_nul (seen name (e_value e)).
Proof. intros Hv. unfold seen. case_match; [|done]. unfold no_nul. by vm_compute; intros Hin%list_elem_of_In; repeat (destruct Hin as [?|Hin]; [done|]). Qed.

Lemma reader_shows mem m h used dirs :
  heap_ok mem h used -> trie_ok h dirs ->
  (forall name info, present h name info -> exists e, m !! name = Some e /\ no_nul (e_value e) /\
     reads_as h info name (seen name (e_value e)) (e_serial e)) ->
  (forall name e, m !! name = Some e -> exists info, present h name info) -> shows mem m.
Proof.
  intros HH HT Hp Hs. split.
  - pose proof (hk_range _ _ _ HH) as (Hr & _). pose proof (hk_magic _ _ _ HH) as Hm. unfold Reader.accepts, Reader.word_at.
    rewrite (proj2 (Z.leb_le _ _)) by (unfold data_size in Hr; lia).
    pose proof (slice_sub _ _ _ _ 0 4 Hm) as H8. pose proof (slice_sub _ _ _ _ 4 4 Hm) as H12.
    change (8 + 0) with 8 in H8. change (8 + 4) with 12 in H12. by rewrite H8, H12 by lia.
  - intros name Hname. unfold Reader.get.
    destruct (reader_find mem h used HH dirs HT name Hname) as (r & -> & Hr).
    { intros info Hi. destruct (Hp _ _ Hi) as (e & _ & _ & Hread). pose proof (hk_obj _ _ _ HH info) as Ho.
      destruct Hread as [? ? ? Hoi|? ? ? Hoi|? ? ? Hoi|? ? ? ? Hoi]; destruct (Ho _ Hoi) as (? & _ & ? & _); lia. }
    cbn [mbind outcome_bind]. f_equal. unfold get_spec. destruct r as [info|]; cbn [mbind option_bind].
    + destruct (Hp _ _ Hr) as (e & -> & Hv & Hread). cbn. unfold read_spec.
      eapply reader_read; [exact HH|exact Hread|done|by apply seen_no_nul].
    + destruct (m !! name) as [e|] eqn:Hm; [|done]. destruct (Hs _ _ Hm) as [info Hi]. by destruct (Hr info).
Qed.

Lemma info_holds_reads mem h used info name e :
  heap_ok mem h used -> info_holds h info name e -> reads_as h info name (seen name (e_value e)) (e_serial e).
Proof.
  intros HH [Hv [(rest & Ho & Hlen & Hclean & Hro)|(long & Ho & Hol & Hser & Hlen & Hl)]]; unfold seen.
  - destruct (hk_obj _ _ _ HH info _ Ho) as (_ & _ & _ & [_ Hf] & _). rewrite !zlen_app in Hf.
    change (zlen [x00]) with 1 in Hf. pose proof (zlen_nonneg rest).
    rewrite (proj2 (Z.leb_gt _ _)) by lia. cbn [andb]. destruct (is_ro name) eqn:Hr.
    + eapply reads_ro; [done|by apply Hro|exact Ho].
    + by eapply reads_clean.
  - rewrite (proj2 (Z.leb_le _ _)) by done. cbn [andb]. rewrite Hser. destruct (is_ro name) eqn:Hr; cbn [negb].
    + by eapply reads_long.
    + by eapply reads_clean.
Qed.

Lemma represents_shows mem m h used dirs : represents mem m h used dirs -> shows mem m.
Proof.
  intros [HH HT Hb Hp Hs]. eapply reader_shows; [exact HH|exact HT| |exact Hs].
  intros name info Hi. destruct (Hp _ _ Hi) as (e & He & Hh). exists e. split; [done|]. split; [apply Hh|].
  by eapply info_holds_reads.
Qed.
