(* ===== verification/AreaUpdate.v ===== *)
(** Updating a property in place: a reader of the area at any moment of it, also
    in the middle of a copy, reads the old value or the new one. *)

From Stdlib Require Import ZArith Lia.
From Stdlib Require Import Strings.Byte.
From stdpp Require Import base numbers list gmap.
From S2P Require Import Prelude Text Bytes Area AreaHeap AreaTrie AreaMap.
From S2P Require Import AreaReader.

Open Scope Z_scope.

(** A copy under way: every byte is the old or the new one. *)
Definition torn (before after snap : list byte) : Prop :=
  length snap = length before /\ forall i, snap !! i = before !! i \/ snap !! i = after !! i.

(** What there is to see of a memory while stores are made: what each leaves,
    and the copies under way.  A word is stored at once. *)
Inductive observed : list Store -> Area -> Area -> Prop :=
| observed_now l mem : observed l mem mem
| observed_torn offset bytes l mem mem' snap :
    run_store (Copy offset bytes) mem = Done (tt, mem') -> torn mem mem' snap ->
    observed (Copy offset bytes :: l) mem snap
| observed_later s l mem mem' snap :
    run_store s mem = Done (tt, mem') -> observed l mem' snap -> observed (s :: l) mem snap.

(** The entry of a property whose value is being replaced. *)
Definition dirty (e : Entry) : Entry := mkEntry (e_value e) (Z.lor (e_serial e) 1).

(** ** Copies *)

Lemma splice_Some {A} (l d : list A) from l' :
  splice l from d = Some l' <->
  0 <= from /\ from + zlen d <= zlen l /\ length l' = length l /\
  forall i, l' !! i = if decide (from <= Z.of_nat i < from + zlen d) then d !! (i - Z.to_nat from)%nat else l !! i.
Proof.
  split.
  - intros Hs. split_and!.
    + unfold splice in Hs. by case_decide; [lia|].
    + unfold splice in Hs. unfold zlen. by case_decide; [lia|].
    + by apply length_splice in Hs.
    + intros i. by apply lookup_splice.
  - intros (H0 & Hle & Hlen & Hi). destruct (splice_is_Some l d from) as [l2 Hs]; [done|unfold zlen in *; lia|].
    rewrite Hs. f_equal. apply list_eq. intros i. by rewrite Hi, (lookup_splice _ _ _ _ _ Hs).
Qed.

Lemma splice_app {A} (l d1 d2 l1 l2 : list A) from :
  splice l from d1 = Some l1 -> splice l1 (from + zlen d1) d2 = Some l2 -> splice l from (d1 ++ d2) = Some l2.
Proof.
  rewrite !splice_Some, zlen_app. intros (H0 & Hle & Hlen & H1) (_ & Hle2 & Hlen2 & H2). unfold zlen in *.
  split_and!; try lia. intros i. rewrite H2, H1. repeat case_decide; try lia; try done.
  - rewrite lookup_app_r by lia. f_equal. lia.
  - by rewrite lookup_app_l by lia.
Qed.

Lemma torn_splice (mem mem' snap : list byte) from d :
  splice mem from d = Some mem' -> torn mem mem' snap -> exists d', zlen d' = zlen d /\ splice mem from d' = Some snap.
Proof.
  rewrite splice_Some. intros (H0 & Hle & Hlen & Hi) [Hl Ht]. unfold zlen in *.
  exists (take (length d) (drop (Z.to_nat from) snap)).
  assert (length (take (length d) (drop (Z.to_nat from) snap)) = length d) as Hld.
  { rewrite length_take, length_drop. lia. }
  split; [by rewrite Hld|]. rewrite splice_Some. unfold zlen. rewrite Hld. split_and!; try done.
  intros i. case_decide as Hin.
  - rewrite lookup_take_lt, lookup_drop by lia. f_equal. lia.
  - destruct (Ht i) as [->| ->]; [done|]. by rewrite Hi, decide_False.
Qed.

Lemma write_bytes_splice mem off d mem' :
  splice mem (PROP_AREA_HEADER_SIZE + off) d = Some mem' -> write_bytes off d mem = Done (tt, mem').
Proof. intros Hs. unfold write_bytes, mbind, M_bind, get. by rewrite Hs. Qed.

Lemma store_word_splice mem off v mem' :
  off mod 4 = 0 -> splice mem (PROP_AREA_HEADER_SIZE + off) (le_bytes 4 v) = Some mem' -> store_word off v mem = Done (tt, mem').
Proof.
  intros H4 Hs. unfold store_word. rewrite (proj2 (Z.eqb_eq _ _)) by done. unfold store, mbind, M_bind, get. by rewrite Hs.
Qed.

Lemma observed_copy off d l mem mem' snap :
  splice mem (PROP_AREA_HEADER_SIZE + off) d = Some mem' -> observed (Copy off d :: l) mem snap ->
  snap = mem \/ (exists d', zlen d' = zlen d /\ splice mem (PROP_AREA_HEADER_SIZE + off) d' = Some snap) \/ observed l mem' snap.
Proof.
  intros Hs Ho. pose proof (write_bytes_splice _ _ _ _ Hs) as Hw.
  inversion Ho as [|? ? ? ? mem1 ? Hr Ht|? ? ? mem1 ? Hr Hl]; subst; [by left|right; left|right; right]; cbn [run_store] in Hr;
    rewrite Hw in Hr; injection Hr as <-; [by eapply torn_splice|done].
Qed.

Lemma observed_word off v l mem mem' snap :
  off mod 4 = 0 -> splice mem (PROP_AREA_HEADER_SIZE + off) (le_bytes 4 v) = Some mem' -> observed (Word off v :: l) mem snap ->
  snap = mem \/ observed l mem' snap.
Proof.
  intros H4 Hs Ho. pose proof (store_word_splice _ _ _ _ H4 Hs) as Hw.
  inversion Ho as [|? ? ? ? mem1 ? Hr Ht|? ? ? mem1 ? Hr Hl]; subst; [by left|right]. cbn [run_store] in Hr.
  rewrite Hw in Hr. by injection Hr as <-.
Qed.

(** ** A heap whose backup area and one property change *)

Definition patched (h h' : heap) (info : Z) (name : list byte) : Prop :=
  (exists serial field, h !! info = Some (OInfo name serial field)) /\
  (exists serial field, h' !! info = Some (OInfo name serial field)) /\
  (exists b, h !! DIRTY_BACKUP_AREA = Some (ORaw b) /\ zlen b = PROP_VALUE_MAX) /\
  (exists b, h' !! DIRTY_BACKUP_AREA = Some (ORaw b) /\ zlen b = PROP_VALUE_MAX) /\
  forall off, off <> info -> off <> DIRTY_BACKUP_AREA -> h' !! off = h !! off.

Section patched.
Context (mem : Area) (m : Props) (h : heap) (used : Z) (dirs : gmap Z Z) (h' : heap) (info : Z) (name : list byte) (e : Entry).
Context (HR : represents mem m h used dirs) (Hinfo : present h name info).
Context (Hp : patched h h' info name).

Lemma patched_nodes n : skel h' n = skel h n /\ prop_of h' n = prop_of h n.
Proof.
  destruct Hp as ((s & f & H1) & (s' & f' & H2) & (b & H3 & _) & (b' & H4 & _) & Ho). unfold skel, prop_of.
  destruct (decide (n = info)) as [Heq|]; [by rewrite Heq, H1, H2|].
  destruct (decide (n = DIRTY_BACKUP_AREA)) as [Heq|]; [by rewrite Heq, H3, H4|]. by rewrite Ho.
Qed.

Lemma patched_present name' info' : present h' name' info' <-> present h name' info'.
Proof. apply same_present; intros; apply patched_nodes. Qed.

Lemma patched_trie : trie_ok h' dirs.
Proof.
  pose proof (rp_trie _ _ _ _ _ HR) as HT. eapply same_ok; [intros; apply patched_nodes| |exact HT].
  rewrite (proj2 (patched_nodes 0)). unfold prop_of. by destruct (tr_root _ _ HT) as [c ->].
Qed.

(** The other properties are as they were. *)
Lemma patched_holds name' info' e' :
  info_holds h info' name' e' -> name' <> name -> info_holds h' info' name' e'.
Proof.
  destruct Hp as ((s & f & H1) & _ & (b & H3 & Hb) & _ & Ho). intros [Hv Hi] Hne. split; [done|].
  assert (forall s' f', h !! info' = Some (OInfo name' s' f') -> h' !! info' = Some (OInfo name' s' f')) as Hsame.
  { intros s' f' Hoi. rewrite Ho; [done|congruence..]. }
  destruct Hi as [(rest & Hoi & H)|(long & Hoi & Hol & Hs & Hlen & H)]; [left|right].
  - exists rest. split; [by apply Hsame|done].
  - exists long. split; [by apply Hsame|]. split; [|done]. rewrite Ho; [done|congruence|]. intros Heq. rewrite Heq, H3 in Hol.
    injection Hol as Hbe. rewrite Hbe, zlen_app in Hb. change (zlen [x00]) with 1 in Hb. lia.
Qed.

Lemma patched_other name' info' : present h' name' info' -> name' <> name \/ (name' = name /\ info' = info).
Proof.
  intros Hpres. apply patched_present in Hpres. destruct (decide (name' = name)) as [Heq|]; [right|by left].
  split; [done|]. rewrite Heq in Hpres. by eapply present_det.
Qed.

Lemma patched_represents snap used' :
  heap_ok snap h' used' -> info_holds h' info name e -> represents snap (<[name := e]> m) h' used' dirs.
Proof.
  intros HH He. split; [done|apply patched_trie|apply Hp|..].
  - intros name' info' Hpres. destruct (patched_other _ _ Hpres) as [Hne|[-> ->]]; [|exists e; by rewrite lookup_insert_eq].
    apply patched_present in Hpres. destruct (rp_present _ _ _ _ _ HR _ _ Hpres) as (e' & He' & Hh).
    exists e'. split; [by rewrite lookup_insert_ne|by apply patched_holds].
  - intros name' e' [[<- _]|[Hne He']]%lookup_insert_Some; [exists info; by apply patched_present|].
    destruct (rp_stored _ _ _ _ _ HR _ _ He') as [info' Hi]. exists info'. by apply patched_present.
  - intros n. rewrite (proj2 (patched_nodes n)). intros (name' & segs & Hname & Hsegs & Hw)%(rp_props _ _ _ _ _ HR).
    exists name', segs. split_and!; [done|done|]. eapply same_walk; [intros; apply patched_nodes|done].
Qed.

Lemma patched_shows snap used' :
  heap_ok snap h' used' -> no_nul (e_value e) -> reads_as h' info name (seen name (e_value e)) (e_serial e) ->
  shows snap (<[name := e]> m).
Proof.
  intros HH Hv Hr. eapply reader_shows; [exact HH|apply patched_trie|..].
  - intros name' info' Hpres. destruct (patched_other _ _ Hpres) as [Hne|[-> ->]]; [|exists e; by rewrite lookup_insert_eq].
    apply patched_present in Hpres. destruct (rp_present _ _ _ _ _ HR _ _ Hpres) as (e' & He' & Hh).
    exists e'. split; [by rewrite lookup_insert_ne|]. split; [apply Hh|].
    eapply info_holds_reads; [exact HH|by apply patched_holds].
  - intros name' e' [[<- _]|[Hne He']]%lookup_insert_Some; [exists info; by apply patched_present|].
    destruct (rp_stored _ _ _ _ _ HR _ _ He') as [info' Hi]. exists info'. by apply patched_present.
Qed.
End patched.

(** ** The steps of an update *)

Section parts.
Context (mem mem' : Area) (h : heap) (used : Z) (HH : heap_ok mem h used).

Lemma patch_backup b d :
  h !! DIRTY_BACKUP_AREA = Some (ORaw b) -> zlen d <= zlen b ->
  splice mem (PROP_AREA_HEADER_SIZE + DIRTY_BACKUP_AREA) d = Some mem' ->
  heap_ok mem' (<[DIRTY_BACKUP_AREA := ORaw (d ++ drop (length d) b)]> h) used.
Proof.
  intros Ho Hle Hs. rewrite <- (Z.add_0_r DIRTY_BACKUP_AREA) in Hs. eapply (heap_patch _ _ _ _ _ _ _ 0 d); [exact HH|exact Ho|done|done|exact Hs| |done].
  cbn [encode]. rewrite <- (take_drop (length d) b) at 1. apply (splice_at []); [done|]. unfold zlen in *. rewrite length_take. lia.
Qed.

Lemma patch_serial info name serial field serial' :
  h !! info = Some (OInfo name serial field) -> in_u 32 serial' ->
  splice mem (PROP_AREA_HEADER_SIZE + info) (le_bytes 4 serial') = Some mem' ->
  heap_ok mem' (<[info := OInfo name serial' field]> h) used.
Proof.
  intros Ho Hs' Hs. destruct (hk_obj _ _ _ HH info _ Ho) as (_ & _ & _ & [_ Hf] & _).
  pose proof (zlen_nonneg name). pose proof (zlen_info name serial field Hf). unfold PROP_INFO_SIZE in *.
  rewrite <- (Z.add_0_r info) in Hs. eapply (heap_patch _ _ _ _ _ _ _ 0 (le_bytes 4 serial')); [exact HH|exact Ho|done|rewrite zlen_le_bytes; lia|exact Hs| |done].
  cbn [encode]. by apply (splice_at []).
Qed.

Lemma patch_field info name serial field d :
  h !! info = Some (OInfo name serial field) -> zlen d <= PROP_VALUE_MAX ->
  splice mem (PROP_AREA_HEADER_SIZE + (info + 4)) d = Some mem' ->
  heap_ok mem' (<[info := OInfo name serial (d ++ drop (length d) field)]> h) used.
Proof.
  intros Ho Hle Hs. destruct (hk_obj _ _ _ HH info _ Ho) as (_ & _ & _ & [Hser Hf] & _).
  pose proof (zlen_nonneg name). pose proof (zlen_info name serial field Hf). unfold PROP_INFO_SIZE, PROP_VALUE_MAX in *.
  eapply (heap_patch _ _ _ _ _ _ _ 4 d); [exact HH|exact Ho|done|lia|exact Hs| |].
  - cbn [encode]. rewrite <- (take_drop (length d) field) at 1. rewrite <- !app_assoc.
    apply splice_at; [done|]. unfold zlen in *. rewrite length_take. lia.
  - split; [done|]. unfold zlen, PROP_VALUE_MAX in *. rewrite length_app, length_drop. lia.
Qed.
End parts.

(** The serial of a mutable property, dirty and new. *)
Lemma land_1 n : Z.land n 1 = n mod 2.
Proof. exact (Z.land_ones n 1 ltac:(done)). Qed.

Lemma dirty_serial serial : in_u 32 serial -> Z.land serial 1 = 0 ->
  in_u 32 (Z.lor serial 1) /\ Z.land (Z.lor serial 1) 1 <> 0 /\ Z.shiftr (Z.lor serial 1) 24 = Z.shiftr serial 24.
Proof.
  intros Hin Hc. rewrite land_1 in Hc.
  rewrite (lor_add (serial / 2) serial 1 1) by (change (2 ^ 1) with 2; Z.div_mod_to_equations; lia). rewrite land_1.
  rewrite !Z.shiftr_div_pow2 by done. change (2 ^ 1) with 2. change (2 ^ 24) with 16777216. unfold in_u in *. change (2 ^ 32) with 4294967296 in *.
  Z.div_mod_to_equations. lia.
Qed.

Lemma new_serial_bits serial value : in_u 32 serial -> Z.land serial 1 = 0 -> zlen value < PROP_VALUE_MAX ->
  in_u 32 (new_serial (Z.lor serial 1) value) /\ Z.land (new_serial (Z.lor serial 1) value) 1 = 0 /\
  Z.shiftr (new_serial (Z.lor serial 1) value) 24 = zlen value.
Proof.
  intros Hin Hc Hl. pose proof (zlen_nonneg value). unfold PROP_VALUE_MAX in Hl.
  rewrite land_1 in Hc.
  rewrite (lor_add (serial / 2) serial 1 1) by (change (2 ^ 1) with 2; Z.div_mod_to_equations; lia). unfold new_serial, as_u.
  rewrite Z.shiftl_mul_pow2, (Z.mod_small (zlen value * _)) by (change (2 ^ 24) with 16777216; lia).
  change 0x00ffffff with (Z.ones 24). rewrite Z.land_ones by done.
  rewrite (lor_add (zlen value) _ _ 24) by (done || by apply Z.mod_pos_bound).
  rewrite land_1, Z.shiftr_div_pow2 by done.
  change (2 ^ 1) with 2. change (2 ^ 24) with 16777216. unfold in_u in *. change (2 ^ 32) with 4294967296 in *.
  Z.div_mod_to_equations. lia.
Qed.

Section update.
Context (mem : Area) (m : Props) (h : heap) (used : Z) (dirs : gmap Z Z) (name : list byte) (info : Z) (e : Entry) (value : list byte).
Context (HR : represents mem m h used dirs) (Hinfo : present h name info) (He : m !! name = Some e).
Context (Hro : is_ro name = false) (Hvalue : no_nul value) (Hshort : zlen value < PROP_VALUE_MAX).

Lemma present_holds : info_holds h info name e.
Proof. destruct (rp_present _ _ _ _ _ HR _ _ Hinfo) as (e' & He' & Hh). congruence. Qed.

Lemma value_in_place : exists rest,
  h !! info = Some (OInfo name (e_serial e) (seen name (e_value e) ++ [x00] ++ rest)) /\
  Z.land (e_serial e) 1 = 0 /\ Z.shiftr (e_serial e) 24 = zlen (seen name (e_value e)) /\
  zlen (seen name (e_value e)) < PROP_VALUE_MAX /\ in_u 32 (e_serial e).
Proof.
  pose proof present_holds as Hh. pose proof (rp_heap _ _ _ _ _ HR) as HH.
  assert (Z.land (e_serial e) 1 = 0) as Hc.
  { destruct Hh as [_ [(rest & _ & _ & Hc & _)|(long & _ & _ & -> & _)]]; done. }
  destruct (info_holds_reads _ _ _ _ _ _ HH Hh) as [|rest Hr|rest _ _ Ho Hlen|]; try congruence.
  exists rest. destruct (hk_obj _ _ _ HH info _ Ho) as (_ & _ & _ & [Hs Hf] & _). rewrite !zlen_app in Hf.
  change (zlen [x00]) with 1 in Hf. pose proof (zlen_nonneg rest). split_and!; try done. lia.
Qed.

Lemma info_apart : info <> DIRTY_BACKUP_AREA /\ 0 <= info /\ info mod 4 = 0 /\ info + PROP_INFO_SIZE <= used.
Proof.
  destruct value_in_place as (rest & Ho & _). destruct (rp_backup _ _ _ _ _ HR) as (b & Hb & _).
  destruct (hk_obj _ _ _ (rp_heap _ _ _ _ _ HR) info _ Ho) as (? & ? & [_ Hu] & [_ Hf] & _).
  rewrite zlen_info in Hu by done. pose proof (zlen_nonneg name). split_and!; try done; [congruence|lia].
Qed.

Lemma load_serial : load_word info mem = Done (e_serial e, mem).
Proof.
  destruct value_in_place as (rest & Ho & _ & _ & _ & Hin). destruct info_apart as (_ & _ & Hm & _).
  apply load_word_ok; [done| |done]. rewrite <- (Z.add_0_r info).
  destruct (hk_obj _ _ _ (rp_heap _ _ _ _ _ HR) info _ Ho) as (_ & _ & _ & [_ Hf] & _).
  pose proof (zlen_info name (e_serial e) _ Hf) as Hl. pose proof (zlen_nonneg name). unfold PROP_INFO_SIZE in *.
  eapply obj_part; [exact (rp_heap _ _ _ _ _ HR)|exact Ho|done|done|lia|by apply (slice_at [])].
Qed.

(** The old value, for the backup area. *)
Lemma old_value : read_bytes (info + 4) (Z.shiftr (e_serial e) 24 + 1) mem = Done (seen name (e_value e) ++ [x00], mem).
Proof.
  destruct value_in_place as (rest & Ho & _ & Hlen & Hl & _). pose proof (rp_heap _ _ _ _ _ HR) as HH.
  destruct (hk_obj _ _ _ HH info _ Ho) as (_ & _ & _ & [_ Hf] & _). pose proof (zlen_info name (e_serial e) _ Hf) as Hi.
  pose proof (zlen_nonneg name). pose proof (zlen_nonneg (seen name (e_value e))). unfold PROP_VALUE_MAX, PROP_INFO_SIZE in *.
  assert (slice mem (PROP_AREA_HEADER_SIZE + (info + 4)) (zlen (seen name (e_value e)) + 1) = Some (seen name (e_value e) ++ [x00])) as Hr.
  { eapply obj_part; [exact HH|exact Ho|done|lia|lia|]. cbn [encode]. rewrite <- !app_assoc. rewrite (app_assoc (seen _ _)).
    apply slice_at; [done|]. by rewrite zlen_app. }
  unfold read_bytes, mbind, M_bind, get. by rewrite Hlen, Hr.
Qed.

Lemma backup_patched b' : zlen b' = PROP_VALUE_MAX -> patched h (<[DIRTY_BACKUP_AREA := ORaw b']> h) info name.
Proof.
  intros Hb'. destruct value_in_place as (rest & Ho & _). destruct info_apart as [Hne _].
  split_and!; [eauto|rewrite lookup_insert_ne; eauto|by apply (rp_backup _ _ _ _ _ HR)|exists b'; by rewrite lookup_insert_eq|].
  intros off _ Hoff. by rewrite lookup_insert_ne.
Qed.

(** While the backup is copied, nothing changes for a reader. *)
Lemma backup_torn snap d :
  splice mem (PROP_AREA_HEADER_SIZE + DIRTY_BACKUP_AREA) d = Some snap -> zlen d = zlen (seen name (e_value e) ++ [x00]) ->
  shows snap m.
Proof.
  intros Hs' Hd.
  destruct (rp_backup _ _ _ _ _ HR) as (b & Hb & Hbl). destruct value_in_place as (rest & Ho & Hc & Hlen & Hl & _).
  rewrite zlen_app in Hd. change (zlen [x00]) with 1 in Hd.
  rewrite <- (insert_id m name e) by done. eapply patched_shows; [exact HR|exact Hinfo| | |apply present_holds|].
  - eapply (backup_patched (d ++ drop (length d) b)). unfold zlen in *. rewrite length_app, length_drop. lia.
  - eapply patch_backup; [exact (rp_heap _ _ _ _ _ HR)|exact Hb|lia|exact Hs'].
  - eapply reads_clean; [done|done| |done]. rewrite lookup_insert_ne; [exact Ho|]. by apply not_eq_sym, info_apart.
Qed.

(** The heap while the value is replaced. *)
Lemma value_patched b' serial' field' :
  zlen b' = PROP_VALUE_MAX ->
  patched h (<[info := OInfo name serial' field']> (<[DIRTY_BACKUP_AREA := ORaw b']> h)) info name.
Proof.
  intros Hb'. destruct value_in_place as (rest & Ho & _). destruct info_apart as [Hne _].
  split_and!; [eauto|rewrite lookup_insert_eq; eauto|by apply (rp_backup _ _ _ _ _ HR)| |].
  - exists b'. by rewrite lookup_insert_ne, lookup_insert_eq.
  - intros off Hoff Hoff'. by rewrite !lookup_insert_ne.
Qed.

Lemma value_torn snap b' field' :
  zlen b' = PROP_VALUE_MAX -> (exists rest, b' = seen name (e_value e) ++ [x00] ++ rest) ->
  heap_ok snap (<[info := OInfo name (Z.lor (e_serial e) 1) field']> (<[DIRTY_BACKUP_AREA := ORaw b']> h)) used ->
  shows snap (<[name := dirty e]> m).
Proof.
  intros Hb' [r Hr] HH. destruct value_in_place as (rest & Ho & Hc & Hlen & Hl & Hin). destruct info_apart as [Hne _].
  destruct (dirty_serial (e_serial e) Hin Hc) as (_ & Hd & Hsh).
  eapply patched_shows; [exact HR|exact Hinfo|by apply value_patched|exact HH|apply present_holds|].
  eapply (reads_dirty _ _ _ _ _ field' r); [done|exact Hd|by rewrite lookup_insert_eq| |by cbn [dirty e_serial e_value]; rewrite Hsh].
  rewrite lookup_insert_ne, lookup_insert_eq by done. by rewrite Hr.
Qed.

(** The stores succeed. *)
Lemma update_steps : exists mem1 mem2 mem3 mem4 mem5,
  splice mem (PROP_AREA_HEADER_SIZE + DIRTY_BACKUP_AREA) (seen name (e_value e) ++ [x00]) = Some mem1 /\
  splice mem1 (PROP_AREA_HEADER_SIZE + info) (le_bytes 4 (Z.lor (e_serial e) 1)) = Some mem2 /\
  splice mem2 (PROP_AREA_HEADER_SIZE + (info + 4)) value = Some mem3 /\
  splice mem3 (PROP_AREA_HEADER_SIZE + (info + 4 + zlen value)) [x00] = Some mem4 /\
  splice mem4 (PROP_AREA_HEADER_SIZE + info) (le_bytes 4 (new_serial (Z.lor (e_serial e) 1) value)) = Some mem5.
Proof.
  destruct info_apart as (Hne & H0 & H4 & Hu). destruct value_in_place as (_ & _ & _ & _ & Hl & _).
  pose proof (rp_heap _ _ _ _ _ HR) as HH. destruct (rp_backup _ _ _ _ _ HR) as (b & Hb & Hbl).
  destruct (hk_obj _ _ _ HH _ _ Hb) as (_ & _ & [_ Hbu] & _). pose proof (hk_range _ _ _ HH) as (Hr & _).
  pose proof (zlen_nonneg value). cbn [encode] in Hbu. rewrite Hbl in Hbu.
  assert (forall (m1 : Area) off (d : list byte), length m1 = length mem -> 0 <= off -> off + zlen d <= used ->
    exists m2, splice m1 (PROP_AREA_HEADER_SIZE + off) d = Some m2 /\ length m2 = length mem) as Hsp.
  { intros m1 off d Hlen Hoff Hle. unfold data_size, zlen, PROP_AREA_HEADER_SIZE in *.
    destruct (splice_is_Some m1 d (128 + off)) as [m2 Hs]; [lia..|]. exists m2. split; [done|]. apply length_splice in Hs. lia. }
  unfold PROP_INFO_SIZE, PROP_VALUE_MAX in *.
  destruct (Hsp mem DIRTY_BACKUP_AREA (seen name (e_value e) ++ [x00])) as (mem1 & S1 & L1); [done|done| |].
  { rewrite zlen_app. change (zlen [x00]) with 1. lia. }
  destruct (Hsp mem1 info (le_bytes 4 (Z.lor (e_serial e) 1))) as (mem2 & S2 & L2); [done|done|rewrite zlen_le_bytes; lia|].
  destruct (Hsp mem2 (info + 4) value) as (mem3 & S3 & L3); [done|lia|lia|].
  destruct (Hsp mem3 (info + 4 + zlen value) [x00]) as (mem4 & S4 & L4); [done|lia|change (zlen [x00]) with 1; lia|].
  destruct (Hsp mem4 info (le_bytes 4 (new_serial (Z.lor (e_serial e) 1) value))) as (mem5 & S5 & _);
    [done|done|rewrite zlen_le_bytes; lia|].
  by exists mem1, mem2, mem3, mem4, mem5.
Qed.

(** The heap after the first two steps. *)
Lemma marked_heap mem1 mem2 :
  splice mem (PROP_AREA_HEADER_SIZE + DIRTY_BACKUP_AREA) (seen name (e_value e) ++ [x00]) = Some mem1 ->
  splice mem1 (PROP_AREA_HEADER_SIZE + info) (le_bytes 4 (Z.lor (e_serial e) 1)) = Some mem2 ->
  exists b' field, zlen b' = PROP_VALUE_MAX /\ (exists rest, b' = seen name (e_value e) ++ [x00] ++ rest) /\
    heap_ok mem2 (<[info := OInfo name (Z.lor (e_serial e) 1) field]> (<[DIRTY_BACKUP_AREA := ORaw b']> h)) used.
Proof.
  intros S1 S2. destruct (rp_backup _ _ _ _ _ HR) as (b & Hb & Hbl). destruct value_in_place as (rest & Ho & Hc & Hlen & Hl & Hin).
  destruct info_apart as [Hne _]. destruct (dirty_serial _ Hin Hc) as (Hin' & _).
  assert (zlen (seen name (e_value e) ++ [x00]) <= zlen b) as Hle.
  { rewrite zlen_app. change (zlen [x00]) with 1. lia. }
  pose proof (patch_backup _ _ _ _ (rp_heap _ _ _ _ _ HR) b _ Hb Hle S1) as HH1.
  eexists ((seen name (e_value e) ++ [x00]) ++ drop (length (seen name (e_value e) ++ [x00])) b), _.
  split; [|split; [eexists; by rewrite <- app_assoc|]].
  - unfold zlen in *. rewrite length_app, length_drop. lia.
  - eapply patch_serial; [exact HH1|by rewrite lookup_insert_ne by done|done|exact S2].
Qed.

(** The heap while the new value is copied, in parts. *)
Lemma copied_heap mem1 mem2 snap d :
  splice mem (PROP_AREA_HEADER_SIZE + DIRTY_BACKUP_AREA) (seen name (e_value e) ++ [x00]) = Some mem1 ->
  splice mem1 (PROP_AREA_HEADER_SIZE + info) (le_bytes 4 (Z.lor (e_serial e) 1)) = Some mem2 ->
  splice mem2 (PROP_AREA_HEADER_SIZE + (info + 4)) d = Some snap -> zlen d <= PROP_VALUE_MAX ->
  shows snap (<[name := dirty e]> m).
Proof.
  intros S1 S2 S3 Hd. destruct (marked_heap _ _ S1 S2) as (b' & field & Hb' & Hrest & HH2).
  pose proof (patch_field _ _ _ _ HH2 _ _ _ _ d (lookup_insert_eq _ _ _) Hd S3) as HH3.
  rewrite insert_insert_eq in HH3. by eapply value_torn.
Qed.

(** The property after the last store. *)
Lemma updated_heap mem1 mem2 mem4 mem5 :
  splice mem (PROP_AREA_HEADER_SIZE + DIRTY_BACKUP_AREA) (seen name (e_value e) ++ [x00]) = Some mem1 ->
  splice mem1 (PROP_AREA_HEADER_SIZE + info) (le_bytes 4 (Z.lor (e_serial e) 1)) = Some mem2 ->
  splice mem2 (PROP_AREA_HEADER_SIZE + (info + 4)) (value ++ [x00]) = Some mem4 ->
  splice mem4 (PROP_AREA_HEADER_SIZE + info) (le_bytes 4 (new_serial (Z.lor (e_serial e) 1) value)) = Some mem5 ->
  exists h', represents mem5 (<[name := mkEntry value (new_serial (Z.lor (e_serial e) 1) value)]> m) h' used dirs /\ present h' name info.
Proof.
  intros S1 S2 S3 S4. destruct (marked_heap _ _ S1 S2) as (b' & field & Hb' & Hrest & HH2).
  destruct value_in_place as (_ & _ & Hc & _ & _ & Hin). destruct (new_serial_bits _ _ Hin Hc Hshort) as (Hin' & Hc' & Hlen').
  assert (zlen (value ++ [x00]) <= PROP_VALUE_MAX) as Hle by (rewrite zlen_app; change (zlen [x00]) with 1; lia).
  pose proof (patch_field _ _ _ _ HH2 _ _ _ _ _ (lookup_insert_eq _ _ _) Hle S3) as HH3. rewrite insert_insert_eq in HH3.
  pose proof (patch_serial _ _ _ _ HH3 _ _ _ _ _ (lookup_insert_eq _ _ _) Hin' S4) as HH4. rewrite insert_insert_eq in HH4.
  eexists. split; [|eapply patched_present; [by apply (value_patched b')|exact Hinfo]].
  eapply patched_represents; [exact HR|exact Hinfo|by apply (value_patched b')|exact HH4|].
  split; [done|left]. eexists. rewrite lookup_insert_eq. cbn [e_serial e_value]. rewrite <- app_assoc. split; [done|].
  split; [done|]. split; [done|congruence].
Qed.

Lemma c_string_no_nul l : no_nul l -> c_string l = l.
Proof.
  unfold no_nul. induction l as [|b l IH]; [done|]. rewrite not_elem_of_cons. intros [??]. cbn.
  rewrite decide_False by congruence. f_equal. by apply IH.
Qed.

Lemma update_observed mem1 mem2 mem3 mem4 mem5 snap :
  splice mem (PROP_AREA_HEADER_SIZE + DIRTY_BACKUP_AREA) (seen name (e_value e) ++ [x00]) = Some mem1 ->
  splice mem1 (PROP_AREA_HEADER_SIZE + info) (le_bytes 4 (Z.lor (e_serial e) 1)) = Some mem2 ->
  splice mem2 (PROP_AREA_HEADER_SIZE + (info + 4)) value = Some mem3 ->
  splice mem3 (PROP_AREA_HEADER_SIZE + (info + 4 + zlen value)) [x00] = Some mem4 ->
  splice mem4 (PROP_AREA_HEADER_SIZE + info) (le_bytes 4 (new_serial (Z.lor (e_serial e) 1) value)) = Some mem5 ->
  observed (update_stores info (e_serial e) (seen name (e_value e) ++ [x00]) value) mem snap ->
  shows snap m \/ shows snap (<[name := dirty e]> m) \/ snap = mem5.
Proof.
  intros S1 S2 S3 S4 S5. destruct info_apart as (_ & _ & Hal & _). unfold update_stores. rewrite c_string_no_nul by done.
  assert (forall d, zlen d = 1 -> zlen (value ++ d) <= PROP_VALUE_MAX) as Hle by (intros d Hd; rewrite zlen_app; lia).
  assert (forall s d, splice mem3 (PROP_AREA_HEADER_SIZE + (info + 4 + zlen value)) d = Some s -> zlen d = 1 ->
    shows s (<[name := dirty e]> m)) as Hcopied.
  { intros s d Hs Hd. eapply copied_heap; [exact S1|exact S2| |by apply (Hle d)].
    eapply splice_app; [exact S3|]. by rewrite Z.add_assoc in Hs. }
  intros [->|[(d & Hd & Hs)|Ho]]%(observed_copy _ _ _ _ _ _ S1); [left; by eapply represents_shows|left; by eapply backup_torn|].
  apply (observed_word _ _ _ _ _ _ Hal S2) in Ho as [->|Ho]; [left; by eapply backup_torn|].
  apply (observed_copy _ _ _ _ _ _ S3) in Ho as [->|[(d & Hd & Hs)|Ho]].
  - right; left. destruct (marked_heap _ _ S1 S2) as (b' & field & Hb' & Hrest & HH2). by eapply value_torn.
  - right; left. eapply copied_heap; [exact S1|exact S2|exact Hs|lia].
  - apply (observed_copy _ _ _ _ _ _ S4) in Ho as [->|[(d & Hd & Hs)|Ho]].
    + right; left. eapply copied_heap; [exact S1|exact S2|exact S3|lia].
    + right; left. by eapply Hcopied.
    + apply (observed_word _ _ _ _ _ _ Hal S5) in Ho as [->|Ho]; [right; left; by eapply Hcopied|].
      inversion Ho; subst. auto.
Qed.

Lemma update_refines : exists mem',
  update_value info value mem = Done (new_serial (Z.lor (e_serial e) 1) value, mem') /\
  (exists h', represents mem' (<[name := mkEntry value (new_serial (Z.lor (e_serial e) 1) value)]> m) h' used dirs /\ present h' name info) /\
  forall snap, observed (update_stores info (e_serial e) (seen name (e_value e) ++ [x00]) value) mem snap ->
    shows snap m \/ shows snap (<[name := dirty e]> m) \/ snap = mem'.
Proof.
  destruct update_steps as (mem1 & mem2 & mem3 & mem4 & mem5 & S1 & S2 & S3 & S4 & S5).
  assert (splice mem2 (PROP_AREA_HEADER_SIZE + (info + 4)) (value ++ [x00]) = Some mem4) as S34.
  { eapply splice_app; [exact S3|]. by rewrite Z.add_assoc in S4. }
  destruct info_apart as (_ & _ & Hal & _).
  exists mem5. split; [|split; [by eapply updated_heap|intros snap; by eapply update_observed]].
  unfold update_value, info_serial, mbind, M_bind. rewrite load_serial, old_value. unfold update_stores. rewrite c_string_no_nul by done.
  cbn [run_stores run_store]. unfold mbind, M_bind.
  by rewrite (write_bytes_splice _ _ _ _ S1), (store_word_splice _ _ _ _ Hal S2), (write_bytes_splice _ _ _ _ S3),
    (write_bytes_splice _ _ _ _ S4), (store_word_splice _ _ _ _ Hal S5).
Qed.

End update.

(** ** The area as a store *)

Definition adds (l : list (list byte * list byte)) : A (list bool) :=
  foldr (fun '(name, value) rest => ok ← add name value; oks ← rest; mret (ok :: oks)) (mret []) l.

Definition has_segs (name : list byte) : Prop := exists segs, segs_of name segs.

(** The space that properties take, by the segments of their names. *)
Inductive costs : list (list byte * list byte) -> Z -> Prop :=
| costs_nil : costs [] 0
| costs_cons name value segs l n :
    segs_of name segs -> costs l n -> costs ((name, value) :: l) (add_cost name value segs + n).

Definition adds_spec (m : Props) (l : list (list byte * list byte)) : Props :=
  fold_left (fun m '(name, value) => add_spec m name value) l m.

Lemma area_holds_shows mem m : area_holds mem m -> shows mem m.
Proof. intros (h & used & dirs & HR). by eapply represents_shows. Qed.

Lemma adds_ok l n mem m :
  area_holds mem m -> Forall (fun '(name, value) => no_nul name /\ no_nul value) l -> costs l n -> n <= free mem ->
  exists mem', adds l mem = Done (replicate (length l) true, mem') /\ area_holds mem' (adds_spec m l).
Proof.
  intros Hm Hl Hc. revert mem m Hm Hl. induction Hc as [|name value segs l n Hs Hc IH]; intros mem m Hm Hl Hn.
  { by exists mem. }
  apply list.Forall_cons in Hl as [[Hname Hvalue] Hl].
  assert (0 <= n) as Hn0.
  { clear -Hc. induction Hc as [|name value segs l n _ _ IH]; [done|]. unfold add_cost.
    pose proof (segs_cost_pos segs). pose proof (info_cost_pos name value). lia. }
  destruct (add_ok mem m name value Hm Hname Hvalue) as (ok & mem1 & Hadd & _ & Hm1 & _ & Hok & Hfree).
  rewrite (Hok segs Hs) in * by lia. destruct (Hfree eq_refl) as (segs' & Hs' & Hf).
  rewrite (segs_of_det _ _ _ Hs' Hs) in Hf. destruct (IH mem1 _ Hm1 Hl ltac:(lia)) as (mem' & Hadds & Hm').
  exists mem'. split; [|done].
  change (adds ((name, value) :: l) mem) with ((ok ← add name value; oks ← adds l; mret (ok :: oks)) mem).
  unfold mbind, M_bind. by rewrite Hadd, Hadds.
Qed.

(** A new area takes every property there is space for, and nothing else is
    lost: after adding them, a reader of its bytes accepts the area, reads for
    every name the first value added under it (for a value of 92 bytes or more
    under a name that is not read-only, the error that stands for it) and finds
    no other name. *)
Theorem area_stores_properties (len n : Z) (l : list (list byte * list byte))
  (Hlen : PROP_AREA_HEADER_SIZE + DIRTY_BACKUP_AREA + PROP_VALUE_MAX <= len < 2 ^ 32)
  (Hl : Forall (fun '(name, value) => no_nul name /\ no_nul value) l)
  (Hcosts : costs l n) (Hspace : n <= len - (PROP_AREA_HEADER_SIZE + DIRTY_BACKUP_AREA + PROP_VALUE_MAX)) :
  exists mem0 mem, create len = Done mem0 /\ adds l mem0 = Done (replicate (length l) true, mem) /\
    Reader.accepts mem = true /\
    forall name, no_nul name -> Reader.get mem name = Done (get_spec (adds_spec ∅ l) name).
Proof.
  destruct (create_ok len Hlen) as (mem0 & Hcreate & _ & Hm0 & Hfree).
  destruct (adds_ok l n mem0 ∅ Hm0 Hl Hcosts ltac:(lia)) as (mem & Hadds & Hm).
  exists mem0, mem. destruct (area_holds_shows _ _ Hm) as [Ha Hg]. done.
Qed.

(** Adding a property to an area refines adding it to the map the area
    holds: it ends without a panic; what was there stays, also when it is out of
    space; a name that is there keeps its value; it fails only when the name has
    an empty segment or the area has no room for its nodes and the property. *)
Theorem add_refines_map (mem : Area) (m : Props) (name value : list byte)
  (Hm : area_holds mem m) (Hname : no_nul name) (Hvalue : no_nul value) :
  exists ok mem', add name value mem = Done (ok, mem') /\ length mem' = length mem /\
    area_holds mem' (if ok then add_spec m name value else m) /\ shows mem' (if ok then add_spec m name value else m) /\
    (ok = false -> m !! name = None /\ forall segs, segs_of name segs -> free mem < add_cost name value segs) /\
    (ok = true -> has_segs name).
Proof.
  destruct (add_ok mem m name value Hm Hname Hvalue) as (ok & mem' & Hadd & Hlen & Hm' & Hsome & Hspace & Hsegs).
  exists ok, mem'. split_and!; try done.
  - by apply area_holds_shows.
  - intros ->. split; [destruct (m !! name); [by discriminate Hsome|done]|]. intros segs Hs.
    apply Z.nle_gt. intros Hle. by discriminate (Hspace segs Hs Hle).
  - intros Hok. destruct (Hsegs Hok) as (segs & Hs & _). by exists segs.
Qed.

(** C30: Replacing a value is atomic for a reader of the area's bytes.  At every
    moment of the update's stores, in the order the code makes them and with the
    copies in any mixture of old and new bytes, the reader accepts the area and
    reads every name as before (the updated one possibly under its marked serial)
    or, when the last store is done, every name as before but the updated one
    with its new value and the next serial. *)
Theorem update_atomic (mem : Area) (m : Props) (name value : list byte) (e : Entry)
  (Hm : area_holds mem m) (Hname : no_nul name) (He : m !! name = Some e) (Hro : is_ro name = false)
  (Hvalue : no_nul value) (Hshort : zlen value < PROP_VALUE_MAX) :
  exists info old mem',
    find name mem = Done (Some info, mem) /\
    read_bytes (info + 4) (Z.shiftr (e_serial e) 24 + 1) mem = Done (old, mem) /\
    update_value info value mem = Done (new_serial (Z.lor (e_serial e) 1) value, mem') /\
    area_holds mem' (<[name := mkEntry value (new_serial (Z.lor (e_serial e) 1) value)]> m) /\
    forall snap, observed (update_stores info (e_serial e) old value) mem snap ->
      shows snap m \/ shows snap (<[name := dirty e]> m) \/
      (snap = mem' /\ shows snap (<[name := mkEntry value (new_serial (Z.lor (e_serial e) 1) value)]> m)).
Proof.
  pose proof (find_ok mem m name Hm Hname) as Hf. rewrite He in Hf. destruct Hf as (info & h & used & dirs & Hf & HR & Hp).
  destruct (update_refines mem m h used dirs name info e value HR Hp He Hro Hvalue Hshort) as (mem' & Hu & (h' & HR' & _) & Hobs).
  exists info, (seen name (e_value e) ++ [x00]), mem'. split_and!; try done.
  - by eapply old_value.
  - by exists h', used, dirs.
  - intros snap [Hs|[Hs| ->]]%Hobs; [auto..|]. right; right. split; [done|]. by eapply represents_shows.
Qed.

(** ** Examples *)

Definition example_name : list byte := [x61; x2e; x62].
Definition example_value : list byte := [x31].

Lemma example_segs : segs_of example_name [[x61]; [x62]].
Proof. apply (segs_more _ [x61] [x62]); [done|done|]. by apply segs_last. Qed.

Lemma example_no_nul : no_nul example_name /\ no_nul example_value.
Proof. unfold no_nul. split; by vm_compute; intros Hin%list_elem_of_In; repeat (destruct Hin as [?|Hin]; [done|]). Qed.

Lemma example_costs : costs [(example_name, example_value)] (add_cost example_name example_value [[x61]; [x62]] + 0).
Proof. apply costs_cons; [apply example_segs|apply costs_nil]. Qed.

Lemma example_fits : add_cost example_name example_value [[x61]; [x62]] + 0 <=
  1024 - (PROP_AREA_HEADER_SIZE + DIRTY_BACKUP_AREA + PROP_VALUE_MAX).
Proof. by vm_compute. Qed.

Lemma example_area : exists mem, area_holds mem (adds_spec ∅ [(example_name, example_value)]).
Proof.
  destruct (create_ok 1024) as (mem0 & _ & _ & Hm0 & Hfree); [done|].
  destruct (adds_ok [(example_name, example_value)] (add_cost example_name example_value [[x61]; [x62]] + 0) mem0 ∅ Hm0) as (mem & _ & Hm); [|exact example_costs| |by exists mem].
  - repeat constructor; apply example_no_nul.
  - rewrite Hfree. apply example_fits.
Qed.

Lemma area_stores_properties_witness : exists mem0 mem, create 1024 = Done mem0 /\
  adds [(example_name, example_value)] mem0 = Done ([true], mem) /\ Reader.accepts mem = true /\
  forall name, no_nul name -> Reader.get mem name = Done (get_spec (adds_spec ∅ [(example_name, example_value)]) name).
Proof.
  apply (area_stores_properties 1024 (add_cost example_name example_value [[x61]; [x62]] + 0) [(example_name, example_value)]).
  - done.
  - repeat constructor; apply example_no_nul.
  - apply example_costs.
  - apply example_fits.
Defined.

Lemma add_refines_map_witness : exists mem ok mem', area_holds mem ∅ /\
  add example_name example_value mem = Done (ok, mem') /\ shows mem' (if ok then add_spec ∅ example_name example_value else ∅).
Proof.
  destruct (create_ok 1024) as (mem0 & _ & _ & Hm0 & _); [done|].
  destruct (add_refines_map mem0 ∅ example_name example_value Hm0 (proj1 example_no_nul) (proj2 example_no_nul))
    as (ok & mem' & Hadd & _ & _ & Hs & _).
  by exists mem0, ok, mem'.
Defined.

Lemma update_atomic_witness : exists mem info mem',
  area_holds mem (adds_spec ∅ [(example_name, example_value)]) /\ find example_name mem = Done (Some info, mem) /\
  update_value info [x32; x33] mem = Done (new_serial (Z.lor (short_serial example_value) 1) [x32; x33], mem') /\
  area_holds mem' (<[example_name := mkEntry [x32; x33] (new_serial (Z.lor (short_serial example_value) 1) [x32; x33])]>
                     (adds_spec ∅ [(example_name, example_value)])).
Proof.
  destruct example_area as [mem Hm].
  destruct (update_atomic mem (adds_spec ∅ [(example_name, example_value)]) example_name [x32; x33]
              (mkEntry example_value (short_serial example_value)) Hm (proj1 example_no_nul))
    as (info & old & mem' & Hf & _ & Hu & Hm' & _).
  - by vm_compute.
  - by vm_compute.
  - unfold no_nul. by vm_compute; intros Hin%list_elem_of_In; repeat (destruct Hin as [?|Hin]; [done|]).
  - by vm_compute.
  - by exists mem, info, mem'.
Defined.
