(* ===== verification/AreaWalk.v ===== *)
(** The walks over an area: [foreach] of the writer and of the reader visit every
    property of the trie once. *)

From Stdlib Require Import ZArith Lia.
From Stdlib Require Import Strings.Byte.
From stdpp Require Import base numbers list gmap.
From S2P Require Import Prelude Text Bytes Area AreaHeap AreaTrie.
From S2P Require Import AreaMap AreaReader.

Open Scope Z_scope.

(** ** The nodes of a subtree, in the order of a walk *)

Definition link_field (f : Z) : Prop := f = 8 \/ f = 12 \/ f = 16.

Fixpoint nodes_from (h : heap) (fuel : nat) (n : Z) : list Z :=
  match fuel, skel h n with
  | S fuel, Some (_, links) =>
      let below (f : Z) : list Z := if get_link f links =? 0 then [] else nodes_from h fuel (get_link f links) in
      below 8 ++ [n] ++ below 16 ++ below 12
  | _, _ => []
  end.

Section nodes.
Context (h : heap) (dirs : gmap Z Z) (HT : trie_ok h dirs).

Definition below (fuel : nat) (links : Z * Z * Z) (f : Z) : list Z :=
  if get_link f links =? 0 then [] else nodes_from h fuel (get_link f links).

Lemma nodes_from_S fuel n nm links : skel h n = Some (nm, links) ->
  nodes_from h (S fuel) n = below fuel links 8 ++ [n] ++ below fuel links 16 ++ below fuel links 12.
Proof. intros Hs. cbn [nodes_from]. by rewrite Hs. Qed.

Lemma elem_of_below fuel links f x :
  x ∈ below fuel links f <-> get_link f links <> 0 /\ x ∈ nodes_from h fuel (get_link f links).
Proof.
  unfold below. destruct (Z.eqb_spec (get_link f links) 0) as [->|]; [|naive_solver].
  split; [by intros ?%not_elem_of_nil|by intros [? _]].
Qed.

Lemma elem_of_nodes fuel n x : x ∈ nodes_from h (S fuel) n <-> exists nm links, skel h n = Some (nm, links) /\
  (x = n \/ exists f, link_field f /\ x ∈ below fuel links f).
Proof.
  split.
  - destruct (skel h n) as [[nm links]|] eqn:Hs; [|by cbn [nodes_from]; rewrite Hs; intros ?%not_elem_of_nil].
    rewrite (nodes_from_S _ _ _ _ Hs), !elem_of_app, list_elem_of_singleton. intros Hx. exists nm, links. split; [done|].
    unfold link_field. destruct Hx as [Hx|[Hx|[Hx|Hx]]]; [right; exists 8|by left|right; exists 16|right; exists 12]; auto.
  - intros (nm & links & Hs & Hx). rewrite (nodes_from_S _ _ _ _ Hs), !elem_of_app, list_elem_of_singleton.
    destruct Hx as [->|(f & [->|[->| ->]] & Hx)]; auto.
Qed.

Lemma nodes_above fuel n x : x ∈ nodes_from h fuel n -> n <= x /\ is_Some (skel h x).
Proof.
  revert n. induction fuel as [|fuel IH]; intros n; [by intros ?%not_elem_of_nil|].
  intros (nm & links & Hs & [->|(f & Hf & [Hl Hx]%elem_of_below)])%elem_of_nodes; [eauto using Z.le_refl|].
  destruct (tr_link _ _ _ _ _ _ HT Hs Hf Hl). destruct (IH _ Hx). split; [lia|done].
Qed.

(** A visited node is the first one, or a link of a visited node leads to it. *)
Lemma nodes_parent fuel n x : x ∈ nodes_from h fuel n -> x = n \/
  exists p nm links f, p ∈ nodes_from h fuel n /\ skel h p = Some (nm, links) /\ link_field f /\ get_link f links <> 0 /\ x = get_link f links.
Proof.
  revert n. induction fuel as [|fuel IH]; intros n; [by intros ?%not_elem_of_nil|].
  intros (nm & links & Hs & [->|(f & Hf & Hx)])%elem_of_nodes; [by left|right]. pose proof Hx as [Hl Hx']%elem_of_below.
  destruct (IH _ Hx') as [->|(p & nmp & linksp & fp & Hp & Hsp & Hfp & Hlp & Heq)].
  - exists n, nm, links, f. split_and!; try done. apply elem_of_nodes. eauto 6.
  - exists p, nmp, linksp, fp. split_and!; try done. apply elem_of_nodes. exists nm, links. split; [done|]. right.
    exists f. split; [done|]. by apply elem_of_below.
Qed.

(** The subtrees of a node are apart: climb from a common node to the link that
    leads to the subtree. *)
Lemma nodes_apart n nm links f f' fuel fuel' x :
  skel h n = Some (nm, links) -> link_field f -> link_field f' -> f <> f' ->
  x ∈ below fuel links f -> x ∈ below fuel' links f' -> False.
Proof.
  intros Hs Hf Hf' Hne [Hl Hx]%elem_of_below [Hl' Hx']%elem_of_below.
  pose proof (tr_link _ _ _ _ _ _ HT Hs Hf Hl) as [Hn _]. pose proof (tr_link _ _ _ _ _ _ HT Hs Hf' Hl') as [Hn' _].
  remember (Z.to_nat (x - n)) as k eqn:Hk. revert x Hk Hx Hx'. induction k as [k IH] using lt_wf_ind. intros x -> Hx Hx'.
  pose proof (nodes_above _ _ _ Hx) as [Hge _]. pose proof (nodes_above _ _ _ Hx') as [Hge' _].
  destruct (nodes_parent _ _ _ Hx) as [H1|(p & nmp & linksp & fp & Hp & Hsp & Hfp & Hlp & H1)],
    (nodes_parent _ _ _ Hx') as [H2|(q & nmq & linksq & fq & Hq & Hsq & Hfq & Hlq & H2)].
  - destruct (tr_unique _ _ HT _ _ _ _ _ _ _ _ Hs Hs Hf Hf' Hl); congruence.
  - destruct (tr_unique _ _ HT _ _ _ _ _ _ _ _ Hs Hsq Hf Hfq Hl) as [-> _]; [congruence|].
    pose proof (nodes_above _ _ _ Hq). lia.
  - destruct (tr_unique _ _ HT _ _ _ _ _ _ _ _ Hs Hsp Hf' Hfp Hl') as [-> _]; [congruence|].
    pose proof (nodes_above _ _ _ Hp). lia.
  - destruct (tr_unique _ _ HT _ _ _ _ _ _ _ _ Hsp Hsq Hfp Hfq Hlp) as [-> _]; [congruence|].
    pose proof (tr_link _ _ _ _ _ _ HT Hsp Hfp Hlp) as [Hlt _]. pose proof (nodes_above _ _ _ Hp).
    refine (IH _ _ p eq_refl Hp Hq). lia.
Qed.

Lemma nodes_once fuel n : NoDup (nodes_from h fuel n).
Proof.
  revert n. induction fuel as [|fuel IH]; intros n; [constructor|].
  destruct (skel h n) as [[nm links]|] eqn:Hs; [|cbn [nodes_from]; rewrite Hs; constructor].
  assert (forall f, NoDup (below fuel links f)) as Hsub by (intros f; unfold below; case_match; [constructor|apply IH]).
  assert (forall f, link_field f -> n ∉ below fuel links f) as Hn.
  { intros f Hf [Hl Hx]%elem_of_below. pose proof (tr_link _ _ _ _ _ _ HT Hs Hf Hl). pose proof (nodes_above _ _ _ Hx). lia. }
  assert (forall f f' x, link_field f -> link_field f' -> f <> f' -> x ∈ below fuel links f -> x ∉ below fuel links f') as Hap.
  { intros f f' x ? ? ? ? ?. by eapply (nodes_apart n nm links f f'). }
  unfold link_field in *. rewrite (nodes_from_S _ _ _ _ Hs). apply NoDup_app. split_and!; [done| |].
  - intros x Hx. cbn. rewrite elem_of_cons, elem_of_app. intros [->|[Hx'|Hx']]; [by apply (Hn 8); auto|..].
    + by apply (Hap 8 16 x); auto.
    + by apply (Hap 8 12 x); auto.
  - apply NoDup_cons. rewrite elem_of_app. split; [intros [Hx|Hx]; [apply (Hn 16)|apply (Hn 12)]; auto|].
    apply NoDup_app. split_and!; [done| |done]. intros x Hx. by apply (Hap 16 12 x); auto.
Qed.
End nodes.

(** ** The nodes of a heap *)

Section visits.
Context (mem : Area) (h : heap) (used : Z) (dirs : gmap Z Z).
Context (HH : heap_ok mem h used) (HT : trie_ok h dirs).

(** A link leads past the node's own bytes, which bounds the depth. *)
Lemma link_far n nm links f :
  skel h n = Some (nm, links) -> link_field f -> get_link f links <> 0 -> n + TRIE_NODE_SIZE <= get_link f links.
Proof.
  intros Hs Hf Hl. destruct (tr_link _ _ _ _ _ _ HT Hs Hf Hl) as [Hlt [[nm' [[l' r'] c']] Hs']].
  destruct links as [[l r] c]. pose proof (skel_node _ _ _ _ _ _ Hs) as Ho. pose proof (skel_node _ _ _ _ _ _ Hs') as Ho'.
  pose proof (hk_apart _ _ _ HH _ _ _ _ Ho Ho' Hlt) as Hle. rewrite zlen_node in Hle. pose proof (zlen_nonneg nm). lia.
Qed.

Lemma nodes_first fuel n : is_Some (skel h n) -> used - n <= TRIE_NODE_SIZE * Z.of_nat fuel -> n ∈ nodes_from h fuel n.
Proof.
  intros [[nm links] Hs] Hfuel. destruct fuel as [|fuel]; [|apply elem_of_nodes; eauto].
  pose proof (node_used _ _ _ n HH ltac:(eauto)). lia.
Qed.

Lemma nodes_closed fuel n x nm links f :
  used - n <= TRIE_NODE_SIZE * Z.of_nat fuel -> x ∈ nodes_from h fuel n ->
  skel h x = Some (nm, links) -> link_field f -> get_link f links <> 0 -> get_link f links ∈ nodes_from h fuel n.
Proof.
  revert n. induction fuel as [|fuel IH]; intros n Hfuel; [by intros ?%not_elem_of_nil|].
  intros (nmn & linksn & Hn & Hx)%elem_of_nodes Hs Hf Hl. apply elem_of_nodes. exists nmn, linksn. split; [done|right].
  destruct Hx as [->|(f' & Hf' & [Hl' Hx]%elem_of_below)].
  - rewrite Hs in Hn. injection Hn as <- <-. exists f. split; [done|]. apply elem_of_below. split; [done|].
    pose proof (link_far _ _ _ _ Hs Hf Hl). apply nodes_first; [apply (tr_link _ _ _ _ _ _ HT Hs Hf Hl)|unfold TRIE_NODE_SIZE in *; lia].
  - exists f'. split; [done|]. apply elem_of_below. split; [done|]. pose proof (link_far _ _ _ _ Hn Hf' Hl').
    eapply IH; [unfold TRIE_NODE_SIZE in *; lia|done..].
Qed.

(** The searches stay among the nodes of a walk. *)
Lemma nodes_finds fuel n seg x t :
  used - n <= TRIE_NODE_SIZE * Z.of_nat fuel -> finds h seg x t -> x ∈ nodes_from h fuel n -> t ∈ nodes_from h fuel n.
Proof.
  intros Hfuel. induction 1 as [|x nm links t Hs _ Hl _ IH]; [done|]. intros Hx. apply IH.
  destruct links as [[l r] c]. unfold side in *. destruct (cmp_prop_name seg nm <? 0).
  - by apply (nodes_closed fuel n x nm (l, r, c) 8); [..|left|].
  - by apply (nodes_closed fuel n x nm (l, r, c) 12); [..|right; left|].
Qed.

Lemma nodes_walk fuel n x segs t :
  used - n <= TRIE_NODE_SIZE * Z.of_nat fuel -> walk h x segs t -> x ∈ nodes_from h fuel n -> t ∈ nodes_from h fuel n.
Proof.
  intros Hfuel. induction 1 as [|x nm l r c seg segs k t Hs Hc Hf _ IH]; [done|]. intros Hx. apply IH.
  eapply nodes_finds; [done|exact Hf|]. by apply (nodes_closed fuel n x nm (l, r, c) 16); [..|right; right|].
Qed.

(** *** The properties of the nodes *)

Definition own (n : Z) : list Z := if prop_of h n =? 0 then [] else [prop_of h n].

Lemma elem_of_own n info : info ∈ own n <-> prop_of h n = info /\ info <> 0.
Proof.
  unfold own. destruct (Z.eqb_spec (prop_of h n) 0) as [->|Hne].
  - split; [by intros ?%not_elem_of_nil|by intros [<- ?]].
  - rewrite list_elem_of_singleton. split; [by intros ->|by intros [-> _]].
Qed.

Context (Hprops : forall n, prop_of h n <= used).

Lemma wp_foreach_node {E} fuel n (Q : list Z -> Area -> Prop) :
  is_Some (skel h n) -> used - n <= TRIE_NODE_SIZE * Z.of_nat fuel -> Q (nodes_from h fuel n ≫= own) mem ->
  wp E (foreach_node fuel n) Q mem.
Proof.
  revert n Q. induction fuel as [|fuel IH]; intros n Q [[nm links] Hs] Hfuel HQ.
  { pose proof (node_used _ _ _ n HH ltac:(eauto)). lia. }
  pose proof (hk_range _ _ _ HH) as [[_ Hds] _].
  assert (forall f (Q' : list Z -> Area -> Prop), link_field f -> Q' (below h fuel links f ≫= own) mem ->
    wp E (link ← load_word (n + f); if link =? 0 then mret [] else target ← valid link;
      match target with Some target => foreach_node fuel target | None => mret [] end) Q' mem) as Hsub.
  { intros f Q' Hf HQ'. apply wp_bind. destruct links as [[l r] c].
    eapply (wp_load_field mem h used n _ f (get_link f (l, r, c))); [done|by apply skel_node|by destruct Hf as [->|[->| ->]]|].
    unfold below in HQ'. destruct (Z.eqb_spec (get_link f (l, r, c)) 0) as [|Hl]; [by apply wp_ret|].
    destruct (tr_link _ _ _ _ _ _ HT Hs Hf Hl) as [_ Hnode]. pose proof (node_used _ _ _ _ HH Hnode).
    apply wp_bind, wp_valid; [lia|]. apply IH; [done| |done].
    pose proof (link_far _ _ _ _ Hs Hf Hl). unfold TRIE_NODE_SIZE in *. lia. }
  rewrite (nodes_from_S _ _ _ _ _ Hs), !bind_app in HQ.
  cbn [foreach_node]. apply wp_bind, Hsub; [by left|]. apply wp_bind. destruct links as [[l r] c].
  eapply wp_load_field; [done|by apply skel_node|done|]. apply wp_bind.
  eapply wp_mono with (Q := fun x mem' => x = own n /\ mem' = mem).
  - unfold own. destruct (prop_of h n =? 0); [by apply wp_ret|]. apply wp_bind, wp_valid; [specialize (Hprops n); lia|by apply wp_ret].
  - intros x mem' [-> ->]. apply wp_bind, Hsub; [by right; right|]. apply wp_bind, Hsub; [by right; left|]. apply wp_ret.
    cbn [mbind list_bind] in HQ. by rewrite app_nil_r in HQ.
Qed.
End visits.

(** ** The properties of an area *)

Lemma Forall2_choose {A B} (P : A -> B -> Prop) l : (forall x, x ∈ l -> exists y, P x y) -> exists k, Forall2 P l k.
Proof.
  induction l as [|x l IH]; intros HP; [by exists []|]. destruct (HP x) as [y Hy]; [left|].
  destruct IH as [k Hk]; [intros; apply HP; by right|]. exists (y :: k). by constructor.
Qed.

Section listing.
Context (mem : Area) (m : Props) (h : heap) (used : Z) (dirs : gmap Z Z) (HR : represents mem m h used dirs).

Lemma prop_present n : prop_of h n <> 0 -> exists name, present h name (prop_of h n) /\ exists segs, segs_of name segs /\ walk h 0 segs n.
Proof.
  intros Hne. destruct (rp_props _ _ _ _ _ HR n Hne) as (name & segs & Hname & Hsegs & Hw). exists name. split; [|eauto].
  split; [done|]. exists segs, n. done.
Qed.

Lemma prop_used n : prop_of h n <= used.
Proof.
  destruct (decide (prop_of h n = 0)) as [->|Hne]; [pose proof (hk_range _ _ _ (rp_heap _ _ _ _ _ HR)); lia|].
  destruct (prop_present n Hne) as (name & Hp & _). pose proof (represents_info _ _ _ _ _ _ _ HR Hp). lia.
Qed.

Lemma holds_name info name e name' e' : info_holds h info name e -> info_holds h info name' e' -> name = name'.
Proof. intros [_ [(? & H1 & _)|(? & H1 & _)]] [_ [(? & H2 & _)|(? & H2 & _)]]; congruence. Qed.

Lemma present_name name name' info : present h name info -> present h name' info -> name = name'.
Proof.
  intros (e & _ & He)%(rp_present _ _ _ _ _ HR) (e' & _ & He')%(rp_present _ _ _ _ _ HR). by eapply holds_name.
Qed.

Lemma prop_inj n n' : prop_of h n = prop_of h n' -> prop_of h n <> 0 -> n = n'.
Proof.
  intros Heq Hne. destruct (prop_present n Hne) as (name & Hp & segs & Hsegs & Hw).
  destruct (prop_present n') as (name' & Hp' & segs' & Hsegs' & Hw'); [congruence|]. rewrite <- Heq in Hp'.
  rewrite (present_name _ _ _ Hp Hp') in Hsegs. rewrite (segs_of_det _ _ _ Hsegs Hsegs') in Hw. by eapply walk_det.
Qed.

Definition infos (fuel : nat) : list Z := nodes_from h fuel 0 ≫= own h.

Lemma infos_once fuel : NoDup (infos fuel).
Proof.
  apply NoDup_bind; [|intros n _; unfold own; case_match; [constructor|apply NoDup_singleton]|].
  - intros n n' info _ _ [<- Hne]%elem_of_own [Heq _]%elem_of_own. by apply prop_inj.
  - by eapply nodes_once, (rp_trie _ _ _ _ _ HR).
Qed.

Lemma infos_sound fuel info : info ∈ infos fuel -> exists name, present h name info.
Proof.
  intros (n & [<- Hne]%elem_of_own & _)%list_elem_of_bind. destruct (prop_present n Hne) as (name & Hp & _). eauto.
Qed.

Lemma infos_complete fuel name info :
  used <= TRIE_NODE_SIZE * Z.of_nat fuel -> present h name info -> info ∈ infos fuel.
Proof.
  intros Hfuel (_ & segs & n & _ & Hw & Hp & Hne). apply list_elem_of_bind. exists n. rewrite elem_of_own. split; [done|].
  pose proof (rp_trie _ _ _ _ _ HR) as HT. pose proof (rp_heap _ _ _ _ _ HR) as HH.
  eapply nodes_walk; [done|done|lia|exact Hw|]. eapply nodes_first; [done|by eapply root_skel|lia].
Qed.

(** The objects of a walk, and the properties of the map they hold. *)
Definition listed (info : Z) (property : list byte * Entry) : Prop :=
  present h property.1 info /\ m !! property.1 = Some property.2 /\ info_holds h info property.1 property.2.

Lemma infos_listed fuel : exists es, Forall2 listed (infos fuel) es /\ NoDup es /\ (forall p, p ∈ es -> m !! p.1 = Some p.2) /\
  (used <= TRIE_NODE_SIZE * Z.of_nat fuel -> es ≡ₚ map_to_list m).
Proof.
  destruct (Forall2_choose listed (infos fuel)) as [es Hes].
  { intros info (name & Hp)%infos_sound. destruct (rp_present _ _ _ _ _ HR _ _ Hp) as (e & ? & ?). by exists (name, e). }
  assert (NoDup es) as Hone.
  { apply NoDup_alt. intros i j p Hi Hj. destruct (Forall2_lookup_r _ _ _ _ _ Hes Hi) as (info & Hi' & Hp & _).
    destruct (Forall2_lookup_r _ _ _ _ _ Hes Hj) as (info' & Hj' & Hp' & _). rewrite <- (present_det _ _ _ _ Hp Hp') in Hj'.
    by eapply NoDup_lookup; [apply (infos_once fuel)|..]. }
  assert (forall p, p ∈ es -> m !! p.1 = Some p.2) as Hin.
  { intros p [i Hi]%list_elem_of_lookup. by destruct (Forall2_lookup_r _ _ _ _ _ Hes Hi) as (info & _ & _ & ? & _). }
  exists es. split_and!; try done. intros Hfuel. apply NoDup_Permutation; [done|apply NoDup_map_to_list|].
  intros [name e]. rewrite elem_of_map_to_list. split; [apply (Hin (name, e))|]. intros He.
  destruct (rp_stored _ _ _ _ _ HR _ _ He) as [info Hp]. pose proof (infos_complete fuel _ _ Hfuel Hp) as [i Hi]%list_elem_of_lookup.
  destruct (Forall2_lookup_l _ _ _ _ _ Hes Hi) as ([name' e'] & Hi' & Hp' & He' & _). cbn in *.
  rewrite (present_name _ _ _ Hp Hp') in *. apply list_elem_of_lookup. exists i. rewrite Hi'. congruence.
Qed.
End listing.

(** ** The two walks *)

Lemma foreach_ok mem m : area_holds mem m ->
  exists h used dirs infos es, represents mem m h used dirs /\ Area.foreach mem = Done (infos, mem) /\
    Forall2 (listed m h) infos es /\ es ≡ₚ map_to_list m.
Proof.
  intros (h & used & dirs & HR). exists h, used, dirs, (infos h (length mem)).
  pose proof (rp_heap _ _ _ _ _ HR) as HH. pose proof (rp_trie _ _ _ _ _ HR) as HT. pose proof (hk_range _ _ _ HH) as [Hu _].
  assert (used <= TRIE_NODE_SIZE * Z.of_nat (length mem)) as Hfuel.
  { unfold data_size, zlen, PROP_AREA_HEADER_SIZE, TRIE_NODE_SIZE in *. lia. }
  destruct (infos_listed _ _ _ _ _ HR (length mem)) as (es & Hes & _ & _ & Hp). exists es. split_and!; [done| |done|by apply Hp].
  assert (wp False Area.foreach (fun x mem' => x = infos h (length mem) /\ mem' = mem) mem) as Hwp.
  { unfold Area.foreach. apply wp_bind, wp_get.
    eapply wp_foreach_node; [done|done|by eapply prop_used|by eapply root_skel|lia|done]. }
  unfold wpx in Hwp. destruct (Area.foreach mem) as [[x mem']| |]; [by destruct Hwp as [-> ->]|done..].
Qed.

Section reader.
Context (mem : Area) (m : Props) (h : heap) (used : Z) (dirs : gmap Z Z) (HR : represents mem m h used dirs).

(** The reader's walk, as far down as it goes. *)
Lemma reader_walk depth n : is_Some (skel h n) ->
  Reader.walk mem depth n = (nodes_from h depth n ≫= own h) ≫= (fun info => option_list (Reader.read mem info)).
Proof.
  pose proof (rp_heap _ _ _ _ _ HR) as HH. pose proof (rp_trie _ _ _ _ _ HR) as HT.
  revert n. induction depth as [|depth IH]; intros n [[nm links] Hs]; [done|].
  assert (forall f v, node_field (ONode nm (prop_of h n) links.1.1 links.1.2 links.2) f = Some v -> Reader.u32_at mem (n + f) = Some v) as Hfield.
  { intros f v. apply (reader_field _ _ _ HH). destruct links as [[l r] c]. by apply skel_node. }
  rewrite (nodes_from_S _ _ _ _ _ Hs), !bind_app. cbn [Reader.walk]. destruct links as [[l r] c]. cbn [fst snd] in Hfield.
  rewrite (Hfield 8 l eq_refl), (Hfield 12 r eq_refl), (Hfield 16 c eq_refl), (Hfield 4 _ eq_refl). cbn [default from_option]. unfold id.
  assert (forall f, link_field f ->
    (if get_link f (l, r, c) =? 0 then [] else
     match Reader.obj mem (get_link f (l, r, c)) with Some target => Reader.walk mem depth target | None => [] end) =
    (below h depth (l, r, c) f ≫= own h) ≫= (fun info => option_list (Reader.read mem info))) as Hsub.
  { intros f Hf. unfold below. destruct (Z.eqb_spec (get_link f (l, r, c)) 0) as [|Hl]; [done|].
    destruct (tr_link _ _ _ _ _ _ HT Hs Hf Hl) as [_ Hnode]. pose proof (node_used _ _ _ _ HH Hnode).
    rewrite (reader_obj _ _ _ HH) by lia. by apply IH. }
  rewrite <- !Hsub by (unfold link_field; auto). f_equal. f_equal. change ([n] ≫= own h) with (own h n ++ []).
  rewrite app_nil_r. unfold own. destruct (prop_of h n =? 0); [done|]. rewrite (reader_obj _ _ _ HH) by (by eapply prop_used).
  symmetry. apply app_nil_r.
Qed.

Lemma reader_reads infos es : Forall2 (listed m h) infos es ->
  infos ≫= (fun info => option_list (Reader.read mem info)) = (fun p => read_spec p.1 p.2) <$> es.
Proof.
  pose proof (rp_heap _ _ _ _ _ HR) as HH. induction 1 as [|info [name e] infos es ([Hname _] & _ & He) _ IH]; [done|].
  cbn [mbind list_bind fmap list_fmap] in *. rewrite IH. cbn [fst snd] in *.
  rewrite (reader_read _ _ _ _ _ _ _ HH (info_holds_reads _ _ _ _ _ _ HH He) Hname); [done|].
  apply seen_no_nul, He.
Qed.
End reader.

Lemma reader_listed mem m h used dirs depth : represents mem m h used dirs ->
  exists es, Reader.walk mem depth 0 = (fun p => read_spec p.1 p.2) <$> es /\ NoDup es /\ (forall p, p ∈ es -> m !! p.1 = Some p.2) /\
    (used <= TRIE_NODE_SIZE * Z.of_nat depth -> es ≡ₚ map_to_list m).
Proof.
  intros HR. destruct (infos_listed _ _ _ _ _ HR depth) as (es & Hes & Hone & Hin & Hall). exists es.
  split_and!; [|done|done|done]. rewrite (reader_walk _ _ _ _ _ HR) by (eapply root_skel, (rp_trie _ _ _ _ _ HR)).
  by apply (reader_reads _ _ _ _ _ HR).
Qed.

(** What the reader lists is in the map, each property at most once; and in an
    area that is small enough for the depth limit it is all of the map. *)
Lemma reader_foreach_ok mem m : area_holds mem m ->
  exists es, Reader.foreach mem = (fun p => read_spec p.1 p.2) <$> es /\ NoDup es /\ (forall p, p ∈ es -> m !! p.1 = Some p.2) /\
    (data_size mem <= TRIE_NODE_SIZE * 4097 -> es ≡ₚ map_to_list m).
Proof.
  intros (h & used & dirs & HR). unfold Reader.foreach. change 4097 with (Z.of_nat 4097).
  destruct (reader_listed _ _ _ _ _ 4097 HR) as (es & Hes & Hone & Hin & Hall). exists es. split_and!; [exact Hes|exact Hone|exact Hin|].
  intros Hsize. apply Hall. pose proof (hk_range _ _ _ (rp_heap _ _ _ _ _ HR)) as [[_ Hu] _]. exact (Z.le_trans _ _ _ Hu Hsize).
Qed.
