(* ===== verification/Libbase.v ===== *)
(** The parsing helpers of libbase that init uses
    ([src/crates/aim-android-init/src/libbase.rs]): splitting, trimming and
    numbers.  Strings are their UTF-8 bytes; what is looked for is ASCII, which
    occurs in no other character. *)

From Stdlib Require Import ZArith Lia.
From Stdlib Require Import Strings.String Strings.Byte.
From stdpp Require Import base numbers list.
From S2P Require Import Prelude Text Bytes.

Open Scope Z_scope.

(** A string of the source. *)
Abbreviation str := (list byte).
Abbreviation lit s := (list_byte_of_string s).

(** [String::from_utf8_lossy], as the bytes of the string. *)
Definition from_utf8_lossy (bytes : list byte) : str := utf8_lossy bytes ≫= encode_utf8.

(** C's [isspace]. *)
Definition is_c_space (b : byte) : bool :=
  let c := byte_to_Z b in (c =? 0x20) || ((0x09 <=? c) && (c <=? 0x0d)).

Fixpoint take_while {A} (p : A -> bool) (l : list A) : list A :=
  match l with [] => [] | x :: l => if p x then x :: take_while p l else [] end.
Fixpoint drop_while {A} (p : A -> bool) (l : list A) : list A :=
  match l with [] => [] | x :: l' => if p x then drop_while p l' else l end.

Definition skip_c_space (s : str) : str := drop_while is_c_space s.

Definition starts_with (p s : str) : bool := bool_decide (take (length p) s = p).
Definition strip_prefix (p s : str) : option str := if starts_with p s then Some (drop (length p) s) else None.

(** [char::to_digit]. *)
Definition to_digit (base : Z) (b : byte) : option Z :=
  let c := byte_to_Z b in
  let d := if (0x30 <=? c) && (c <=? 0x39) then c - 0x30
           else if (0x61 <=? c) && (c <=? 0x7a) then c - 0x61 + 10
           else if (0x41 <=? c) && (c <=? 0x5a) then c - 0x41 + 10 else base in
  if d <? base then Some d else None.
Definition is_digit (base : Z) (b : byte) : bool := bool_decide (is_Some (to_digit base b)).

(** The loop over the digits. *)
Fixpoint scan_value (base value : Z) (digits : str) : option Z :=
  match digits with
  | [] => Some value
  | b :: digits =>
      scaled ← checked_mul 128 value base;
      digit ← to_digit base b;
      value ← checked_add 128 scaled digit;
      if max_u 64 * 2 <? value then None else scan_value base value digits
  end.

Definition scan_digits (s : str) (base : Z) : option (Z * bool) :=
  let digits :=
    if base =? 16 then
      match (match strip_prefix (lit "0x") s with Some rest => Some rest | None => strip_prefix (lit "0X") s end) with
      | Some (b :: rest) => if is_digit 16 b then b :: rest else s
      | _ => s
      end
    else s in
  let count := length (take_while (is_digit base) digits) in
  if (count =? 0)%nat then None else
  value ← scan_value base 0 (take count digits);
  Some (value, (count =? length digits)%nat).

Definition base_of (s : str) : Z := if starts_with (lit "0x") s || starts_with (lit "0X") s then 16 else 10.

Definition parse_int (s : str) (min max : Z) : option Z :=
  let s := skip_c_space s in
  let base := base_of s in
  let body := skip_c_space s in
  let '(negative, body) :=
    match body with
    | x2d :: rest => (true, rest)
    | x2b :: rest => (false, rest)
    | _ => (false, body)
    end in
  '(magnitude, complete) ← scan_digits body base;
  if negb complete then None else
  let value := if negative : bool then - magnitude else magnitude in
  if (value <? - 2 ^ 63) || (2 ^ 63 - 1 <? value) then None else
  if (min <=? value) && (value <=? max) then Some value else None.

Definition parse_uint (s : str) (max : Z) : option Z :=
  let s := skip_c_space s in
  if starts_with (lit "-") s then None else
  let base := base_of s in
  let body := default s (strip_prefix (lit "+") s) in
  '(value, complete) ← scan_digits body base;
  if negb complete || (max_u 64 <? value) then None else
  if value <=? max then Some value else None.

Definition parse_bool (s : str) : option bool :=
  if existsb (fun w => bool_decide (s = w)) [lit "1"; lit "y"; lit "yes"; lit "on"; lit "true"] then Some true
  else if existsb (fun w => bool_decide (s = w)) [lit "0"; lit "n"; lit "no"; lit "off"; lit "false"] then Some false
  else None.

(** The pieces between delimiters; there is always one. *)
Fixpoint split (s : str) (delimiter : byte) : list str :=
  match s with
  | [] => [[]]
  | b :: s =>
      if decide (b = delimiter) then [] :: split s delimiter
      else match split s delimiter with
           | piece :: pieces => (b :: piece) :: pieces
           | [] => [[b]]
           end
  end.

Definition trim (s : str) : str := rev (drop_while is_c_space (rev (drop_while is_c_space s))).

Lemma split_nonempty s d : split s d <> [].
Proof. destruct s; cbn; [done|]. repeat case_match; done. Qed.

(** UTF-8 is kept as it is. *)
Lemma is_cont_range b : is_cont b = true -> 0x80 <= byte_to_Z b < 0xc0.
Proof. destruct b; vm_compute; intros; (done || split; done). Qed.

Lemma encode_decoded c bytes : encode_utf8 c = byte_of_Z <$> (byte_to_Z <$> bytes) -> encode_utf8 c = bytes.
Proof.
  intros ->. rewrite <- list_fmap_compose. rewrite <- (list_fmap_id bytes) at 2. apply list_fmap_ext.
  intros i b _. apply byte_of_to_Z.
Qed.

Lemma between_range lo hi b : between lo hi b = true -> lo <= byte_to_Z b <= hi.
Proof. unfold between. rewrite andb_true_iff, !Z.leb_le. lia. Qed.

Lemma encode_two b0 b1 : 0xc2 <= byte_to_Z b0 <= 0xdf -> 0x80 <= byte_to_Z b1 < 0xc0 ->
  encode_utf8 (bits b0 5 * 64 + bits b1 6) = [b0; b1].
Proof.
  intros H0 H1. apply encode_decoded. unfold encode_utf8, bits. f_equal. cbn [fmap list_fmap].
  generalize dependent (byte_to_Z b0). generalize dependent (byte_to_Z b1). intros v1 H1 v0 H0.
  rewrite (proj2 (Z.ltb_ge _ _)), (proj2 (Z.ltb_lt _ _)) by (Z.to_euclidean_division_equations; lia).
  repeat f_equal; Z.to_euclidean_division_equations; lia.
Qed.

Lemma encode_three b0 b1 b2 : between 0xe0 0xef b0 = true -> second3 b0 b1 = true -> 0x80 <= byte_to_Z b2 < 0xc0 ->
  encode_utf8 (bits b0 4 * 4096 + bits b1 6 * 64 + bits b2 6) = [b0; b1; b2].
Proof.
  intros H0%between_range H1 H2. apply encode_decoded. unfold encode_utf8, bits, second3, between in *. f_equal. cbn [fmap list_fmap].
  generalize dependent (byte_to_Z b0). generalize dependent (byte_to_Z b1). generalize dependent (byte_to_Z b2).
  intros v2 H2 v1 v0 H0 H1.
  assert (0x80 <= v1 < 0xc0 /\ (v0 = 0xe0 -> 0xa0 <= v1)) as [Hv1 Hlo] by lia.
  rewrite !(proj2 (Z.ltb_ge _ _)), (proj2 (Z.ltb_lt _ _)) by (Z.to_euclidean_division_equations; lia).
  repeat f_equal; Z.to_euclidean_division_equations; lia.
Qed.

Lemma encode_four b0 b1 b2 b3 : between 0xf0 0xf4 b0 = true -> second4 b0 b1 = true ->
  0x80 <= byte_to_Z b2 < 0xc0 -> 0x80 <= byte_to_Z b3 < 0xc0 ->
  encode_utf8 (bits b0 3 * 262144 + bits b1 6 * 4096 + bits b2 6 * 64 + bits b3 6) = [b0; b1; b2; b3].
Proof.
  intros H0%between_range H1 H2 H3. apply encode_decoded. unfold encode_utf8, bits, second4, between in *. f_equal. cbn [fmap list_fmap].
  generalize dependent (byte_to_Z b0). generalize dependent (byte_to_Z b1). generalize dependent (byte_to_Z b2).
  generalize dependent (byte_to_Z b3). intros v3 H3 v2 H2 v1 v0 H0 H1.
  assert (0x80 <= v1 < 0xc0 /\ (v0 = 0xf0 -> 0x90 <= v1)) as [Hv1 Hlo] by lia.
  rewrite !(proj2 (Z.ltb_ge _ _)) by (Z.to_euclidean_division_equations; lia).
  repeat f_equal; Z.to_euclidean_division_equations; lia.
Qed.

Lemma encode_one b : between 0 0x7f b = true -> encode_utf8 (byte_to_Z b) = [b].
Proof.
  intros H%between_range. apply encode_decoded. unfold encode_utf8. by rewrite (proj2 (Z.ltb_lt _ _)) by lia.
Qed.

Lemma from_utf8_lossy_id s : is_utf8 s = true -> from_utf8_lossy s = s.
Proof.
  unfold from_utf8_lossy. remember (length s) as n eqn:Hn. revert s Hn. induction n as [n IH] using lt_wf_ind. intros s ->.
  destruct s as [|b0 s]; [done|]. cbn [is_utf8 utf8_lossy].
  assert (forall s', (length s' <= length s)%nat -> is_utf8 s' = true -> utf8_lossy s' ≫= encode_utf8 = s') as Hrest.
  { intros s' Hlen. apply (IH (length s')); [cbn; lia|done]. }
  assert (forall c l s', encode_utf8 c = l -> utf8_lossy s' ≫= encode_utf8 = s' -> (c :: utf8_lossy s') ≫= encode_utf8 = l ++ s') as Hcons.
  { intros c l s' <- Hs'. cbn. by rewrite Hs'. }
  destruct (between 0 0x7f b0) eqn:H1; [intros Hs; apply (Hcons _ [b0]); [by apply encode_one|by apply Hrest]|].
  destruct (between 0xc2 0xdf b0) eqn:H2.
  { destruct s as [|b1 s]; [done|]. intros [Hc Hs]%andb_true_iff. rewrite Hc. apply (Hcons _ [b0; b1]).
    - apply encode_two; [by apply between_range|by apply is_cont_range].
    - apply Hrest; [cbn; lia|done]. }
  destruct (between 0xe0 0xef b0) eqn:H3.
  { destruct s as [|b1 [|b2 s]]; [done..|]. intros [[Hb Hc]%andb_true_iff Hs]%andb_true_iff. rewrite Hb, Hc. apply (Hcons _ [b0; b1; b2]).
    - apply encode_three; [done|done|by apply is_cont_range].
    - apply Hrest; [cbn; lia|done]. }
  destruct (between 0xf0 0xf4 b0) eqn:H4; [|done].
  destruct s as [|b1 [|b2 [|b3 s]]]; [done..|]. intros [[[Hb Hc]%andb_true_iff Hd]%andb_true_iff Hs]%andb_true_iff.
  rewrite Hb, Hc, Hd. apply (Hcons _ [b0; b1; b2; b3]).
  - apply encode_four; [done|done|by apply is_cont_range..].
  - apply Hrest; [cbn; lia|done].
Qed.

(** ** Lossy conversion *)

(** The conversion keeps ASCII and makes none. *)
Lemma between_spec lo hi b : between lo hi b = true <-> lo <= byte_to_Z b <= hi.
Proof. unfold between. rewrite andb_true_iff, !Z.leb_le. lia. Qed.

Lemma lossy_ascii b rest : byte_to_Z b < 128 -> utf8_lossy (b :: rest) = byte_to_Z b :: utf8_lossy rest.
Proof. intros Hb. cbn [utf8_lossy]. pose proof (byte_to_Z_bound b). by rewrite (proj2 (between_spec 0 0x7f b)) by lia. Qed.

Lemma second3_range b0 b1 : second3 b0 b1 = true -> 224 <= byte_to_Z b0 < 240 /\ 128 <= byte_to_Z b1 < 192 /\ (byte_to_Z b0 = 224 -> 160 <= byte_to_Z b1).
Proof. unfold second3. rewrite !orb_true_iff, !andb_true_iff, !between_spec. lia. Qed.
Lemma second4_range b0 b1 : second4 b0 b1 = true -> 240 <= byte_to_Z b0 < 245 /\ 128 <= byte_to_Z b1 < 192 /\
  (byte_to_Z b0 = 240 -> 144 <= byte_to_Z b1) /\ (byte_to_Z b0 = 244 -> byte_to_Z b1 < 144).
Proof. unfold second4. rewrite !orb_true_iff, !andb_true_iff, !between_spec. lia. Qed.

Lemma bits_bound b : 0 <= bits b 6 < 64.
Proof. apply Z.mod_pos_bound. lia. Qed.

(** A character that is not ASCII, or the mark of an error, and what is after it. *)
Lemma lossy_wide b rest : 128 <= byte_to_Z b ->
  exists c rest', utf8_lossy (b :: rest) = c :: utf8_lossy rest' /\ 128 <= c < 0x110000 /\ rest' `suffix_of` rest.
Proof.
  intros Hb. pose proof (byte_to_Z_bound b). cbn [utf8_lossy]. rewrite (not_true_is_false (between 0 0x7f b)) by (rewrite between_spec; lia).
  assert (forall r, r `suffix_of` rest -> exists c rest', 0xfffd :: utf8_lossy r = c :: utf8_lossy rest' /\ 128 <= c < 0x110000 /\ rest' `suffix_of` rest) as Hbad.
  { intros r Hr. by exists 0xfffd, r. }
  destruct (between 0xc2 0xdf b) eqn:H2.
  { apply between_spec in H2. destruct rest as [|b1 rest]; [by apply (Hbad [])|]. destruct (is_cont b1); [|by apply Hbad].
    eexists _, rest. split; [done|]. split; [|by apply suffix_cons_r]. pose proof (bits_bound b1). unfold bits at 1 3. change (2 ^ 5) with 32.
    Z.div_mod_to_equations. lia. }
  destruct (between 0xe0 0xef b).
  { destruct rest as [|b1 rest]; [by apply (Hbad [])|]. destruct (second3 b b1) eqn:H3; [|by apply Hbad].
    destruct rest as [|b2 rest]; [by apply (Hbad []), suffix_nil|]. destruct (is_cont b2); [|by apply Hbad, suffix_cons_r].
    eexists _, rest. split; [done|]. split; [|by apply suffix_cons_r, suffix_cons_r]. pose proof (bits_bound b1). pose proof (bits_bound b2).
    apply second3_range in H3. unfold bits in *. change (2 ^ 4) with 16 in *. change (2 ^ 6) with 64 in *. Z.div_mod_to_equations. lia. }
  destruct (between 0xf0 0xf4 b); [|by apply Hbad].
  destruct rest as [|b1 rest]; [by apply (Hbad [])|]. destruct (second4 b b1) eqn:H4; [|by apply Hbad].
  destruct rest as [|b2 rest]; [by apply (Hbad []), suffix_nil|]. destruct (is_cont b2); [|by apply Hbad, suffix_cons_r].
  destruct rest as [|b3 rest]; [by apply (Hbad []), suffix_nil|]. destruct (is_cont b3); [|by apply Hbad, suffix_cons_r, suffix_cons_r].
  eexists _, rest. split; [done|]. split; [|by apply suffix_cons_r, suffix_cons_r, suffix_cons_r]. apply second4_range in H4.
  pose proof (bits_bound b2). pose proof (bits_bound b3). unfold bits in *. change (2 ^ 3) with 8 in *. change (2 ^ 6) with 64 in *. Z.div_mod_to_equations. lia.
Qed.

(** ** Text without NULs *)

Lemma lossy_positive bytes : no_nul bytes -> Forall (fun c => 0 < c < 0x110000) (utf8_lossy bytes).
Proof.
  remember (length bytes) as n eqn:Hn. assert (length bytes <= n)%nat as Hle by lia. clear Hn. revert bytes Hle.
  induction n as [|n IH]; intros [|b bytes] Hle Hnul; [by constructor|cbn in Hle; lia|by constructor|]. cbn in Hle.
  apply not_elem_of_cons in Hnul as [Hb Hnul]. pose proof (byte_to_Z_bound b).
  destruct (decide (byte_to_Z b < 128)) as [Hs|Hs].
  - rewrite lossy_ascii by done. constructor; [|apply IH; [lia|done]]. assert (byte_to_Z b <> 0); [|lia].
    intros H0. apply Hb. symmetry. by apply byte_to_Z_inj.
  - destruct (lossy_wide b bytes) as (c & rest & -> & Hc & [pre ->]); [lia|]. constructor; [lia|]. apply IH.
    + rewrite length_app in Hle. lia.
    + intros Hin. apply Hnul. apply elem_of_app. by right.
Qed.

Lemma byte_of_Z_nonzero z : 0 < z < 256 -> byte_of_Z z <> x00.
Proof. intros Hz H0. pose proof (byte_to_of_Z z) as Hb. rewrite H0, Z.mod_small in Hb by lia. change (byte_to_Z x00) with 0 in Hb. lia. Qed.

Lemma encode_utf8_no_nul c : 0 < c < 0x110000 -> no_nul (encode_utf8 c).
Proof.
  intros Hc Hin. unfold encode_utf8 in Hin. apply list_elem_of_fmap in Hin as (z & Hz & Hin). symmetry in Hz. revert Hz. apply byte_of_Z_nonzero.
  repeat case_match; rewrite ?elem_of_cons in Hin; Z.div_mod_to_equations;
    repeat match goal with H : (_ <? _) = true |- _ => apply Z.ltb_lt in H | H : (_ <? _) = false |- _ => apply Z.ltb_ge in H end;
    repeat destruct Hin as [-> | Hin]; try lia; by apply not_elem_of_nil in Hin.
Qed.

Lemma from_utf8_lossy_no_nul bytes : no_nul bytes -> no_nul (from_utf8_lossy bytes).
Proof.
  intros Hb Hin. apply list_elem_of_bind in Hin as (c & Hin & Hc). pose proof (lossy_positive bytes Hb) as Hp. rewrite list.Forall_forall in Hp.
  by destruct (encode_utf8_no_nul c (Hp _ Hc)).
Qed.
