(* ===== verification/Double.v ===== *)
(** [ParseDouble] ([src/crates/aim-android-init/src/libbase.rs]): the numbers of
    C's [strtod], as IEEE 754 doubles of the Standard Library. *)

From Stdlib Require Import ZArith Lia.
From Stdlib Require Import Strings.String Strings.Byte Floats.SpecFloat.
From stdpp Require Import base numbers list.
From S2P Require Import Prelude Bytes Libbase.

Open Scope Z_scope.

(** ** Doubles *)

Abbreviation f64 := spec_float.
Definition f64_of_Z (z : Z) : f64 := binary_normalize 53 1024 z 0 false.
Definition f64_add : f64 -> f64 -> f64 := SFadd 53 1024.
Definition f64_mul : f64 -> f64 -> f64 := SFmul 53 1024.
Definition f64_div : f64 -> f64 -> f64 := SFdiv 53 1024.
Definition is_infinite (v : f64) : bool := match v with S754_infinity _ => true | _ => false end.

(** The double nearest to a fraction. *)
Definition f64_ratio (n d : positive) : f64 :=
  let '(m, e, l) := SFdiv_core_binary 53 1024 (Zpos n) 0 (Zpos d) 0 in binary_round_aux 53 1024 false m e l.

(** [2f64.powi]: its precision depends on the platform. *)
Class Powi := powi2 : Z -> f64.

(** ** Numbers of the standard library's [parse] *)

Definition digits_value (base : Z) (digits : str) : Z := foldl (fun v b => v * base + default 0 (to_digit base b)) 0 digits.

Definition strip_sign (s : str) : bool * str :=
  match s with
  | x2d :: rest => (true, rest)
  | x2b :: rest => (false, rest)
  | _ => (false, s)
  end.

(** A sign and digits. *)
Definition parse_integer (s : str) : option Z :=
  let '(negative, digits) := strip_sign s in
  if bool_decide (digits = []) || negb (forallb (is_digit 10) digits) then None
  else Some (if negative : bool then - digits_value 10 digits else digits_value 10 digits).

Definition parse_i32 (s : str) : option Z :=
  v ← parse_integer s;
  if (- 2 ^ 31 <=? v) && (v <? 2 ^ 31) then Some v else None.

(** An exponent of ten, after its [e]. *)
Definition parse_exponent (s : str) : option Z :=
  match s with
  | [] => Some 0
  | b :: rest => if bool_decide (b = x65) || bool_decide (b = x45) then parse_integer rest else None
  end.

(** [m * 10 ^ e]. *)
Definition f64_of_decimal (m e : Z) : f64 :=
  match m with
  | Zpos m => if 0 <=? e then f64_of_Z (Zpos m * 10 ^ e) else f64_ratio m (Z.to_pos (10 ^ (- e)))
  | _ => S754_zero false
  end.

(** [str::parse::<f64>] on the characters of decimal numbers. *)
Definition parse_f64 (s : str) : option f64 :=
  let '(negative, s) := strip_sign s in
  let int_part := take_while (is_digit 10) s in
  let s := drop (length int_part) s in
  let '(frac_part, s) :=
    match s with
    | x2e :: rest => let frac_part := take_while (is_digit 10) rest in (frac_part, drop (length frac_part) rest)
    | _ => ([], s)
    end in
  if bool_decide (int_part ++ frac_part = []) then None else
  e ← parse_exponent s;
  let v := f64_of_decimal (digits_value 10 (int_part ++ frac_part)) (e - zlen frac_part) in
  Some (if negative : bool then SFopp v else v).

(** ** [parse_double] *)

Definition to_ascii_lowercase (s : str) : str :=
  (fun b => let c := byte_to_Z b in if (0x41 <=? c) && (c <=? 0x5a) then byte_of_Z (c + 32) else b) <$> s.

Definition split_once (d : byte) (s : str) : option (str * str) :=
  match position (fun b => bool_decide (b = d)) s with
  | Some i => Some (take i s, drop (S i) s)
  | None => None
  end.

Definition ends_with (p s : str) : bool := starts_with (rev p) (rev s).

(** The digits before the point. *)
Fixpoint hex_int (value : f64) (digits : str) : option f64 :=
  match digits with
  | [] => Some value
  | b :: digits =>
      digit ← to_digit 16 b;
      hex_int (f64_add (f64_mul value (f64_of_Z 16)) (f64_of_Z digit)) digits
  end.

(** The digits after it. *)
Fixpoint hex_frac (value scale : f64) (digits : str) : option f64 :=
  match digits with
  | [] => Some value
  | b :: digits =>
      digit ← to_digit 16 b;
      hex_frac (f64_add value (f64_mul (f64_of_Z digit) scale)) (f64_div scale (f64_of_Z 16)) digits
  end.

Section parse.
Context `{Powi}.

Definition parse_hex_float (hex : str) : option f64 :=
  '(mantissa, exponent) ← (match split_once x70 hex with
                           | Some (m, e) => exponent ← parse_i32 e; Some (m, exponent)
                           | None => Some (hex, 0)
                           end);
  let '(int_part, frac_part) := default (mantissa, []) (split_once x2e mantissa) in
  if bool_decide (int_part = []) && bool_decide (frac_part = []) then None else
  value ← hex_int (S754_zero false) int_part;
  value ← hex_frac value (f64_div (f64_of_Z 1) (f64_of_Z 16)) frac_part;
  let value := f64_mul value (powi2 exponent) in
  if negb (is_infinite value) then Some value else None.

(** [sign * value]. *)
Definition signed (negative : bool) (value : f64) : f64 := f64_mul (if negative then f64_of_Z (-1) else f64_of_Z 1) value.

Definition is_number_byte (b : byte) : bool := is_digit 10 b || existsb (fun c => bool_decide (b = c)) [x2e; x65; x45; x2b; x2d].

Definition parse_double (s : str) : option f64 :=
  if bool_decide (s = []) then None else
  let body := skip_c_space s in
  let '(negative, unsigned) := strip_sign body in
  let lower := to_ascii_lowercase unsigned in
  if bool_decide (lower = lit "inf") || bool_decide (lower = lit "infinity") then Some (signed negative (S754_infinity false)) else
  if bool_decide (lower = lit "nan") || (starts_with (lit "nan(") lower && ends_with (lit ")") lower) then Some S754_nan else
  match strip_prefix (lit "0x") lower with
  | Some hex => signed negative <$> parse_hex_float hex
  | None =>
      if bool_decide (unsigned = []) || negb (forallb is_number_byte unsigned) then None else
      value ← parse_f64 unsigned;
      if is_infinite value then None else Some (signed negative value)
  end.
End parse.

(** Powers of two, rounded once. *)
Definition exact_powi : Powi := fun e => binary_normalize 53 1024 1 e false.

(** The tests of the source. *)
Example parse_double_tests : @parse_double exact_powi (lit "1.5") = Some (f64_ratio 3 2) /\ @parse_double exact_powi (lit "1e999") = None /\
  @parse_double exact_powi (lit "0x1p4") = Some (f64_of_Z 16) /\ @parse_double exact_powi (lit "abc") = None.
Proof. vm_compute. done. Qed.

(** A second sign is taken, which [strtod] refuses. *)
Lemma parse_double_two_signs : @parse_double exact_powi (lit "--5") = Some (f64_of_Z 5).
Proof. vm_compute. done. Qed.
