(* ===== verification/Rules.v ===== *)
(** What names and values properties may have
    ([src/crates/aim-android-init/src/props/mod.rs]). *)

From Stdlib Require Import ZArith Lia.
From Stdlib Require Import Strings.String Strings.Byte.
From stdpp Require Import base numbers list.
From S2P Require Import Prelude Text Bytes Libbase Area Double.

Open Scope Z_scope.

Definition is_ascii_alphanumeric (b : byte) : bool :=
  let c := byte_to_Z b in
  (0x30 <=? c) && (c <=? 0x39) || (0x41 <=? c) && (c <=? 0x5a) || (0x61 <=? c) && (c <=? 0x7a).

(** The loop over the bytes of a name; [bytes[index - 1]] is the one before. *)
Fixpoint legal_bytes (bytes rest : str) (index : nat) : outcome bool :=
  match rest with
  | [] => Done true
  | b :: rest =>
      if bool_decide (b = x2e) then
        match index with
        | O => Panicked
        | S before =>
            match bytes !! before with
            | None => Panicked
            | Some p => if bool_decide (p = x2e) then Done false else legal_bytes bytes rest (S index)
            end
        end
      else if existsb (fun c => bool_decide (b = c)) [x5f; x2d; x40; x3a] || is_ascii_alphanumeric b
      then legal_bytes bytes rest (S index)
      else Done false
  end.

Definition is_legal_property_name (name : str) : outcome bool :=
  if bool_decide (name = []) || bool_decide (head name = Some x2e) || bool_decide (last name = Some x2e) then Done false
  else legal_bytes name name 0.

Inductive ValueError := TooLong | NotUtf8.

Definition is_legal_property_value (name : str) (value : list byte) : result unit ValueError :=
  if (PROP_VALUE_MAX <=? zlen value) && negb (starts_with (lit "ro.") name) then Err TooLong else
  let until_nul := c_string value in
  if negb (is_utf8 until_nul) then Err NotUtf8 else Ok tt.

Definition is_one_of (words : list str) (s : str) : bool := existsb (fun w => bool_decide (s = w)) words.

Section types.
Context `{Powi}.

Definition check_type (type_string value : str) : bool :=
  if bool_decide (value = []) then true else
  let type_strings := split type_string x20 in
  let kind := default [] (head type_strings) in
  if bool_decide (kind = lit "string") then true
  else if bool_decide (kind = lit "bool") then is_one_of [lit "true"; lit "false"; lit "1"; lit "0"] value
  else if bool_decide (kind = lit "int") then bool_decide (is_Some (parse_int value (- 2 ^ 63) (2 ^ 63 - 1)))
  else if bool_decide (kind = lit "uint") then negb (starts_with (lit "-") value) && bool_decide (is_Some (parse_uint value (max_u 64)))
  else if bool_decide (kind = lit "double") then bool_decide (is_Some (parse_double value))
  else if bool_decide (kind = lit "size") then
    let digits := length (take_while (fun b => (0x30 <=? byte_to_Z b) && (byte_to_Z b <=? 0x39)) value) in
    (0 <? digits)%nat && (digits + 1 =? length value)%nat &&
    match value !! digits with Some b => existsb (fun c => bool_decide (b = c)) [x67; x6b; x6d] | None => false end
  else if bool_decide (kind = lit "enum") then is_one_of (tail type_strings) value
  else false.
End types.

(** A name is legal when it is segments of the allowed characters, with a dot
    between two. *)
Definition name_byte (b : byte) : bool := existsb (fun c => bool_decide (b = c)) [x5f; x2d; x40; x3a] || is_ascii_alphanumeric b.
Definition legal (name : str) : Prop :=
  Forall (fun piece => piece <> [] /\ Forall (fun b => name_byte b = true) piece) (split name x2e).

Fixpoint legal_from (after_dot : bool) (s : str) : bool :=
  match s with
  | [] => true
  | b :: s => if bool_decide (b = x2e) then negb after_dot && legal_from true s else name_byte b && legal_from false s
  end.
Definition ends_well (after_dot : bool) (s : str) : Prop := match last s with Some b => b <> x2e | None => after_dot = false end.

Lemma legal_bytes_ok bytes pre rest : bytes = pre ++ rest -> (pre = [] -> head rest <> Some x2e) ->
  legal_bytes bytes rest (length pre) = Done (legal_from (bool_decide (last pre = Some x2e)) rest).
Proof.
  revert pre. induction rest as [|b rest IH]; intros pre Hb Hhead; [done|]. cbn [legal_bytes legal_from]. fold (name_byte b).
  assert (bytes = (pre ++ [b]) ++ rest) as Hb' by (by rewrite <- app_assoc).
  assert (forall d, bool_decide (b = x2e) = d -> legal_bytes bytes rest (S (length pre)) = Done (legal_from d rest)) as Hgo.
  { intros d <-. pose proof (IH (pre ++ [b]) Hb') as Hi. rewrite length_app, Nat.add_comm, last_snoc in Hi. cbn [length Nat.add] in Hi.
    rewrite Hi; [|by destruct pre]. do 2 f_equal. apply bool_decide_ext. split; congruence. }
  destruct (bool_decide (b = x2e)) eqn:Hdot; cycle 1.
  { destruct (name_byte b); [by rewrite (Hgo false)|done]. }
  destruct pre as [|p pre _] using rev_ind; [apply bool_decide_eq_true_1 in Hdot; by destruct Hhead; [|by subst]|].
  rewrite length_app, Nat.add_comm in *. cbn [length Nat.add] in *. rewrite Hb, lookup_app_l, lookup_app_r, Nat.sub_diag by (rewrite ?length_app; cbn; lia).
  cbn [lookup list_lookup]. rewrite last_snoc, <- Hb. rewrite (bool_decide_ext (p = x2e) (Some p = Some x2e)) by (split; congruence).
  destruct (bool_decide (Some p = Some x2e)); [done|]. by rewrite (Hgo true).
Qed.

Lemma legal_split after_dot s : legal_from after_dot s = true /\ ends_well after_dot s <->
  match split s x2e with
  | [] => False
  | piece :: pieces => Forall (fun b => name_byte b = true) piece /\ (after_dot = true -> piece <> []) /\
      Forall (fun piece => piece <> [] /\ Forall (fun b => name_byte b = true) piece) pieces
  end.
Proof.
  revert after_dot. induction s as [|b s IH]; intros d; cbn [legal_from split].
  { unfold ends_well. cbn. rewrite !list.Forall_nil. split; [intros [_ ->]; by split_and!|]. intros (_ & Hd & _). by destruct d; [destruct (Hd eq_refl)|]. }
  assert (ends_well d (b :: s) <-> ends_well (bool_decide (b = x2e)) s) as Hends.
  { unfold ends_well. destruct s as [|c s]; [cbn; by rewrite bool_decide_eq_false|].
    change (last (b :: c :: s)) with (last (c :: s)). destruct (last (c :: s)) eqn:Hl; [done|]. by apply last_None in Hl. }
  rewrite Hends. destruct (decide (b = x2e)) as [Hb|Hb].
  - rewrite bool_decide_true in * by done. rewrite andb_true_iff, <- (and_assoc (negb d = true)), (IH true). cbv beta iota. rewrite list.Forall_nil.
    destruct (split s x2e) as [|piece pieces] eqn:Hs; [by destruct (split_nonempty s x2e)|]. rewrite list.Forall_cons. split.
    + intros (Hd & Hp & Hne & Hps). split_and!; auto. by destruct d.
    + intros (_ & Hd & [Hne Hp] & Hps). split_and!; auto. destruct d; [by destruct (Hd eq_refl)|done].
  - rewrite bool_decide_false in * by done. rewrite andb_true_iff, <- (and_assoc (name_byte b = true)), (IH false).
    destruct (split s x2e) as [|piece pieces] eqn:Hs; [by destruct (split_nonempty s x2e)|]. cbv beta iota. rewrite (list.Forall_cons _ b piece). split.
    + intros (Hb' & Hp & _ & Hps). by split_and!.
    + intros ([Hb' Hp] & _ & Hps). by split_and!.
Qed.

Lemma legal_name_ok name : exists b, is_legal_property_name name = Done b /\ (b = true <-> legal name).
Proof.
  assert (legal name <-> legal_from true name = true /\ ends_well true name) as Hlegal.
  { rewrite legal_split. unfold legal. destruct (split name x2e) as [|piece pieces] eqn:Hs; [by destruct (split_nonempty name x2e)|].
    rewrite list.Forall_cons. split; [intros [[? ?] ?]; by split_and!|]. intros (? & Hd & ?). split_and!; auto. }
  unfold is_legal_property_name. destruct name as [|b name]; [exists false; split; [done|]; rewrite Hlegal; by split; [|intros [_ ?]]|].
  rewrite (bool_decide_false (b :: name = [])) by done. cbn [head orb].
  destruct (decide (b = x2e)) as [->|Hb].
  { rewrite bool_decide_true by done. exists false. split; [done|]. rewrite Hlegal. cbn. by split; [|intros [? _]]. }
  rewrite (bool_decide_false (Some b = Some x2e)) by congruence. cbn [orb].
  assert (legal_from true (b :: name) = legal_from false (b :: name)) as Heq by (cbn; by rewrite bool_decide_false).
  destruct (decide (last (b :: name) = Some x2e)) as [Hl|Hl].
  { rewrite bool_decide_true by done. exists false. split; [done|]. rewrite Hlegal. unfold ends_well. rewrite Hl. by split; [|intros [_ ?]]. }
  rewrite bool_decide_false by done. exists (legal_from false (b :: name)). split.
  - by apply (legal_bytes_ok (b :: name) []); [|intros _ [= ->]].
  - rewrite Hlegal, Heq. unfold ends_well. destruct (last (b :: name)) eqn:Hl'; [|by apply last_None in Hl'].
    split; [intros ->; split; congruence|by intros [-> _]].
Qed.
