(* ===== verification/CxxSort.v ===== *)
(** libc++'s [std::sort] ([src/crates/aim-android-init/src/cxx_sort.rs]):
    introsort with its networks for short ranges, insertion sorts, two
    partitions and heap sort, on a slice as the state.

    Indices are natural numbers.  Where the source decrements one, [dec] panics
    below zero: a build with overflow checks panics there, another wraps and
    panics at the access to the slice that follows. *)

From Stdlib Require Import ZArith Lia.
From stdpp Require Import base numbers list.
From S2P Require Import Prelude.

Open Scope nat_scope.

Section sort.
Context {T : Type} (c : T -> T -> bool).

Abbreviation V X := (M (list T) X).

(** ** Accesses to the slice *)

Definition at_ (i : nat) : V T := v ← get; match v !! i with Some x => mret x | None => panic end.
Definition set_ (i : nat) (x : T) : V unit := v ← get; if i <? length v then put (<[i := x]> v) else panic.
Definition swap (i j : nat) : V unit := x ← at_ i; y ← at_ j; set_ i y;; set_ j x.
Definition less_at (i j : nat) : V bool := x ← at_ i; y ← at_ j; mret (c x y).
Definition dec (i : nat) : V nat := match i with O => panic | S i => mret i end.

(** ** Networks *)

Definition sort3 (x y z : nat) : V unit :=
  yx ← less_at y x;
  if negb yx then
    zy ← less_at z y;
    if negb zy then mret tt else
    swap y z;;
    yx ← less_at y x;
    if yx : bool then swap x y else mret tt
  else
    zy ← less_at z y;
    if zy : bool then swap x z else
    swap x y;;
    zy ← less_at z y;
    if zy : bool then swap y z else mret tt.

Definition sort4 (x1 x2 x3 x4 : nat) : V unit :=
  sort3 x1 x2 x3;;
  b ← less_at x4 x3;
  if negb b then mret tt else
  swap x3 x4;;
  b ← less_at x3 x2;
  if negb b then mret tt else
  swap x2 x3;;
  b ← less_at x2 x1;
  if b : bool then swap x1 x2 else mret tt.

Definition sort5 (x1 x2 x3 x4 x5 : nat) : V unit :=
  sort4 x1 x2 x3 x4;;
  b ← less_at x5 x4;
  if negb b then mret tt else
  swap x4 x5;;
  b ← less_at x4 x3;
  if negb b then mret tt else
  swap x3 x4;;
  b ← less_at x3 x2;
  if negb b then mret tt else
  swap x2 x3;;
  b ← less_at x2 x1;
  if b : bool then swap x1 x2 else mret tt.

(** ** Insertion sorts *)

(** The inner loop: elements move up from [k] to [j] while they are after [t];
    [first], where there is one, ends it. *)
Fixpoint shift (fuel : nat) (first : option nat) (t : T) (j k : nat) : V nat :=
  match fuel with
  | O => spin
  | S fuel =>
      x ← at_ k;
      set_ j x;;
      let j := k in
      if bool_decide (first = Some j) then mret j else
      k ← dec k;
      x ← at_ k;
      if negb (c t x) then mret j else shift fuel first t j k
  end.

Fixpoint insertion_loop (fuel : nat) (guard : option nat) (last i : nat) : V unit :=
  match fuel with
  | O => spin
  | S fuel =>
      if i =? last then mret tt else
      j ← dec i;
      b ← less_at i j;
      (if b : bool then
         t ← at_ i;
         j ← shift i guard t i j;
         set_ j t
       else mret tt);;
      insertion_loop fuel guard last (S i)
  end.

Definition insertion_sort (first last : nat) : V unit :=
  if first =? last then mret tt else insertion_loop (last - first) (Some first) last (S first).

Definition insertion_sort_unguarded (first last : nat) : V unit :=
  if first =? last then mret tt else insertion_loop (last - first) None last (S first).

Fixpoint incomplete_loop (fuel : nat) (first last j i count : nat) : V bool :=
  match fuel with
  | O => spin
  | S fuel =>
      if i =? last then mret true else
      b ← less_at i j;
      if b : bool then
        t ← at_ i;
        j ← shift (S j) (Some first) t i j;
        set_ j t;;
        if S count =? 8 then mret (S i =? last) else incomplete_loop fuel first last i (S i) (S count)
      else incomplete_loop fuel first last i (S i) count
  end.

(** The networks for two to five elements, and what is done for more. *)
Definition sort_short (first last : nat) : option (V unit) :=
  match last - first with
  | 0 | 1 => Some (mret tt)
  | 2 => Some (b ← less_at (last - 1) first; if b : bool then swap first (last - 1) else mret tt)
  | 3 => Some (sort3 first (first + 1) (last - 1))
  | 4 => Some (sort4 first (first + 1) (first + 2) (last - 1))
  | 5 => Some (sort5 first (first + 1) (first + 2) (first + 3) (last - 1))
  | _ => None
  end.

Definition insertion_sort_incomplete (first last : nat) : V bool :=
  match sort_short first last with
  | Some sorts => sorts;; mret true
  | None =>
      sort3 first (first + 1) (first + 2);;
      incomplete_loop (last - first) first last (first + 2) (first + 3) 0
  end.

(** ** Partitions *)

(** [first += 1] until an element stops it, and [last -= 1]. *)
Fixpoint up (fuel : nat) (stop : T -> bool) (first : nat) : V nat :=
  match fuel with
  | O => spin
  | S fuel => x ← at_ (S first); if stop x then mret (S first) else up fuel stop (S first)
  end.

Fixpoint down (fuel : nat) (stop : T -> bool) (last : nat) : V nat :=
  match fuel with
  | O => spin
  | S fuel => last ← dec last; x ← at_ last; if stop x then mret last else down fuel stop last
  end.

(** With the other index as a bound. *)
Fixpoint down_to (fuel : nat) (stop : T -> bool) (first last : nat) : V nat :=
  match fuel with
  | O => spin
  | S fuel =>
      if negb (first <? last) then mret last else
      last ← dec last;
      x ← at_ last;
      if stop x then mret last else down_to fuel stop first last
  end.

Fixpoint up_to (fuel : nat) (stop : T -> bool) (first last : nat) : V nat :=
  match fuel with
  | O => spin
  | S fuel =>
      let first := S first in
      if last <=? first then mret first else
      x ← at_ first;
      if stop x then mret first else up_to fuel stop first last
  end.

(** The exchanges, [right] telling what belongs on the right. *)
Fixpoint exchange (fuel : nat) (right : T -> bool) (first last : nat) : V nat :=
  match fuel with
  | O => spin
  | S fuel =>
      if negb (first <? last) then mret first else
      swap first last;;
      v ← get;
      first ← up (length v) right first;
      last ← down (length v) (fun x => negb (right x)) last;
      exchange fuel right first last
  end.

(** The pivot to its place, before [first]. *)
Definition place_pivot (begin first : nat) (pivot : T) : V nat :=
  pivot_pos ← dec first;
  (if begin =? pivot_pos then mret tt else x ← at_ pivot_pos; set_ begin x);;
  set_ pivot_pos pivot;;
  mret pivot_pos.

Definition partition_with_equals_on_right (begin end_ : nat) : V (nat * bool) :=
  pivot ← at_ begin;
  v ← get;
  let right x := negb (c x pivot) in
  first ← up (length v) right begin;
  last ← (if begin =? first - 1 then down_to (S (length v)) (fun x => negb (right x)) first end_
          else down (S (length v)) (fun x => negb (right x)) end_);
  let already_partitioned := last <=? first in
  first ← exchange (S (length v)) right first last;
  pivot_pos ← place_pivot begin first pivot;
  mret (pivot_pos, already_partitioned).

Definition partition_with_equals_on_left (begin end_ : nat) : V nat :=
  pivot ← at_ begin;
  v ← get;
  let right x := c pivot x in
  back ← dec end_;
  x ← at_ back;
  first ← (if right x then up (length v) right begin else up_to (S (length v)) right begin end_);
  last ← (if first <? end_ then down (S (length v)) (fun x => negb (right x)) end_ else mret end_);
  first ← exchange (S (length v)) right first last;
  place_pivot begin first pivot;;
  mret first.

(** ** Heap sort *)

(** The larger of the children of a node; [first + child] is its place. *)
Definition pick_child (first len child : nat) : V nat :=
  if child + 1 <? len then
    b ← less_at (first + child) (first + child + 1);
    mret (if b : bool then child + 1 else child)
  else mret child.

Fixpoint sift_down_loop (fuel first len : nat) (top : T) (start child : nat) : V nat :=
  match fuel with
  | O => spin
  | S fuel =>
      x ← at_ (first + child);
      set_ start x;;
      let start := first + child in
      if (len - 2) / 2 <? child then mret start else
      child ← pick_child first len (2 * child + 1);
      x ← at_ (first + child);
      if c x top then mret start else sift_down_loop fuel first len top start child
  end.

Definition sift_down (first len start : nat) : V unit :=
  let child := start - first in
  if (len <? 2) || ((len - 2) / 2 <? child) then mret tt else
  child ← pick_child first len (2 * child + 1);
  b ← less_at (first + child) start;
  if b : bool then mret tt else
  top ← at_ start;
  start ← sift_down_loop len first len top start child;
  set_ start top.

Fixpoint floyd_loop (fuel first len hole child : nat) : V nat :=
  match fuel with
  | O => spin
  | S fuel =>
      child ← pick_child first len (2 * child + 1);
      x ← at_ (first + child);
      set_ hole x;;
      let hole := first + child in
      if (len - 2) / 2 <? child then mret hole else floyd_loop fuel first len hole child
  end.

Definition floyd_sift_down (first len : nat) : V nat := floyd_loop len first len first 0.

Fixpoint sift_up_loop (fuel first : nat) (t : T) (last len : nat) : V nat :=
  match fuel with
  | O => spin
  | S fuel =>
      x ← at_ (first + len);
      set_ last x;;
      let last := first + len in
      if len =? 0 then mret last else
      let len := (len - 1) / 2 in
      x ← at_ (first + len);
      if negb (c x t) then mret last else sift_up_loop fuel first t last len
  end.

Definition sift_up (first last len : nat) : V unit :=
  if 1 <? len then
    let len := (len - 2) / 2 in
    last ← dec last;
    b ← less_at (first + len) last;
    if b : bool then
      t ← at_ last;
      last ← sift_up_loop (S len) first t last len;
      set_ last t
    else mret tt
  else mret tt.

(** [start] down to zero. *)
Fixpoint make_heap (first n start : nat) : V unit :=
  sift_down first n (first + start);;
  match start with
  | O => mret tt
  | S start => make_heap first n start
  end.

(** [end_] is the end of the heap of [n] elements. *)
Fixpoint sort_heap (n first end_ : nat) : V unit :=
  match n with
  | O | 1 => mret tt
  | S n' =>
      top ← at_ first;
      hole ← floyd_sift_down first n;
      last_elem ← dec end_;
      (if hole =? last_elem then set_ hole top
       else
         x ← at_ last_elem;
         set_ hole x;;
         let hole_end := S hole in
         set_ last_elem top;;
         sift_up first hole_end (hole_end - first));;
      sort_heap n' first last_elem
  end.

Definition heap_sort (first last : nat) : V unit :=
  let n := last - first in
  (if 1 <? n then make_heap first n ((n - 2) / 2) else mret tt);;
  sort_heap n first last.

(** ** Introsort *)

Definition LIMIT : nat := 24.
Definition NINTHER_THRESHOLD : nat := 128.

(** The median of three, or of three medians, to the front. *)
Definition choose_pivot (first last : nat) : V unit :=
  let len := last - first in
  let half := len / 2 in
  if NINTHER_THRESHOLD <? len then
    sort3 first (first + half) (last - 1);;
    sort3 (first + 1) (first + (half - 1)) (last - 2);;
    sort3 (first + 2) (first + (half + 1)) (last - 3);;
    sort3 (first + (half - 1)) (first + half) (first + (half + 1));;
    swap first (first + half)
  else sort3 (first + half) first (last - 1).

(** The sides of the pivot at [i]; [sort] goes on with a part. *)
Definition sides (sort : nat -> nat -> bool -> V unit) (first last : nat) (leftmost : bool) (i : nat) (already_partitioned : bool) : V unit :=
  let go_on := sort first i leftmost;; sort (S i) last false in
  if already_partitioned then
    fs ← insertion_sort_incomplete first i;
    done ← insertion_sort_incomplete (S i) last;
    if done : bool then
      if fs : bool then mret tt else sort first i leftmost
    else if fs : bool then sort (S i) last leftmost
    else go_on
  else go_on.

(** A turn of the loop on a part that is not short. *)
Definition turn (sort : nat -> nat -> bool -> V unit) (first last : nat) (leftmost : bool) : V unit :=
  choose_pivot first last;;
  on_left ← (if leftmost then mret false
             else before ← dec first; b ← less_at before first; mret (negb b));
  if on_left : bool then
    first ← partition_with_equals_on_left first last;
    sort first last leftmost
  else
    '(i, already_partitioned) ← partition_with_equals_on_right first last;
    sides sort first last leftmost i already_partitioned.

(** Another turn, or a call of itself, takes one from [depth]. *)
Fixpoint introsort (depth first last : nat) (leftmost : bool) : V unit :=
  match sort_short first last with
  | Some sorts => sorts
  | None =>
      if last - first <? LIMIT then
        (if leftmost then insertion_sort first last else insertion_sort_unguarded first last)
      else
        match depth with
        | O => heap_sort first last
        | S depth => turn (introsort depth) first last leftmost
        end
  end.

Definition sort_by : V unit :=
  v ← get;
  let len := length v in
  if len =? 0 then mret tt else introsort (2 * Nat.log2 len) 0 len true.

End sort.
