(* ===== verification/CxxOrder.v ===== *)
(** Lists of which a part is permuted, the order between places of a list, and
    the sorting networks of [CxxSort]. *)

From Stdlib Require Import ZArith Lia.
From stdpp Require Import base numbers list sets.
From S2P Require Import Prelude CxxSort.

Open Scope nat_scope.

(** What [std::sort] asks of its comparison. *)
Class StrictWeak {T} (c : T -> T -> bool) : Prop := {
  less_asym : forall x y, c x y = true -> c y x = false;
  less_negtrans : forall x y z, c x y = false -> c y z = false -> c x z = false;
}.

(** ** Exchanges *)

(** [tr i j k] is where the element at [k] was before [i] and [j] were exchanged. *)
Definition tr (i j k : nat) : nat := if decide (k = i) then j else if decide (k = j) then i else k.

Lemma tr_l i j k : k = i -> tr i j k = j.
Proof. intros ->. unfold tr. by rewrite decide_True. Qed.
Lemma tr_r i j k : k = j -> tr i j k = i.
Proof. intros ->. unfold tr. case_decide; [done|]. by rewrite decide_True. Qed.
Lemma tr_ne i j k : k <> i -> k <> j -> tr i j k = k.
Proof. intros. unfold tr. by rewrite !decide_False. Qed.

(** Places of exchanges that are known to be the same or different. *)
Ltac tr_simpl :=
  repeat match goal with
  | |- context [tr ?i ?j ?k] =>
      lazymatch k with
      | context [tr _ _ _] => fail
      | _ => first [rewrite (tr_l i j k) by reflexivity | rewrite (tr_r i j k) by reflexivity
                   | rewrite (tr_ne i j k) by first [assumption | apply not_eq_sym; assumption | lia]
                   | rewrite (tr_l i j k) by lia | rewrite (tr_r i j k) by lia]
      end
  end.

Lemma tr_inj i j k l : tr i j k = tr i j l -> k = l.
Proof. unfold tr. repeat case_decide; lia. Qed.

Section lists.
Context {T : Type}.
Implicit Types (v w : list T).

Definition exch (i j : nat) v : list T :=
  match v !! i, v !! j with Some x, Some y => <[j := x]> (<[i := y]> v) | _, _ => v end.

Lemma length_exch i j v : length (exch i j v) = length v.
Proof. unfold exch. repeat case_match; by rewrite ?length_insert. Qed.

Lemma lookup_exch i j v k : i < length v -> j < length v -> exch i j v !! k = v !! tr i j k.
Proof.
  intros Hi Hj. unfold exch. destruct (lookup_lt_is_Some_2 v i Hi) as [x Hx]. destruct (lookup_lt_is_Some_2 v j Hj) as [y Hy].
  rewrite Hx, Hy. unfold tr. case_decide as Hki; [|case_decide as Hkj].
  - subst k. destruct (decide (i = j)) as [->|].
    + by rewrite list_lookup_insert_eq by (by rewrite length_insert).
    + by rewrite list_lookup_insert_ne, list_lookup_insert_eq.
  - subst k. by rewrite list_lookup_insert_eq by (by rewrite length_insert).
  - by rewrite !list_lookup_insert_ne by done.
Qed.

(** ** Parts of a list that are permuted *)

Definition within (a b : nat) v w : Prop := w ≡ₚ v /\ forall i, i < a \/ b <= i -> w !! i = v !! i.

Lemma within_refl a b v : within a b v v.
Proof. done. Qed.
Lemma within_trans a b v w u : within a b v w -> within a b w u -> within a b v u.
Proof. intros [P1 O1] [P2 O2]. split; [by rewrite P2|]. intros i Hi. by rewrite O2, O1. Qed.
Lemma within_weaken a b a' b' v w : within a b v w -> a' <= a -> b <= b' -> within a' b' v w.
Proof. intros [P1 O1] Ha Hb. split; [done|]. intros i Hi. apply O1. lia. Qed.
Lemma within_length a b v w : within a b v w -> length w = length v.
Proof. intros [P _]. by apply Permutation_length. Qed.

Lemma within_exch a b i j v : a <= i < b -> a <= j < b -> b <= length v -> within a b v (exch i j v).
Proof.
  intros Hi Hj Hb. split.
  - apply Permutation_inj. split; [by rewrite length_exch|]. exists (tr i j). split.
    + intros k l. apply tr_inj.
    + intros k. apply lookup_exch; lia.
  - intros k Hk. rewrite lookup_exch by lia. f_equal. by tr_simpl.
Qed.

Lemma within_mid a b v w : within a b v w -> a <= b -> take (b - a) (drop a w) ≡ₚ take (b - a) (drop a v).
Proof.
  intros [P O] Hab.
  assert (take a w = take a v) as Ht.
  { apply list_eq. intros i. destruct (decide (i < a)); [rewrite !lookup_take_lt by done; apply O; lia|by rewrite !lookup_take_ge by lia]. }
  assert (drop b w = drop b v) as Hd.
  { apply list_eq. intros i. rewrite !lookup_drop. apply O. lia. }
  rewrite <- (take_drop a w), <- (take_drop a v), Ht in P. apply (Permutation_app_inv_l (take a v)) in P.
  rewrite <- (take_drop (b - a) (drop a w)), <- (take_drop (b - a) (drop a v)), !drop_drop in P.
  replace (a + (b - a)) with b in P by lia. rewrite Hd in P. by apply Permutation_app_inv_r in P.
Qed.

(** What holds of every element of the part still does. *)
Definition all_in (a b : nat) (P : T -> Prop) v : Prop := forall k x, a <= k < b -> v !! k = Some x -> P x.

Lemma within_all a b P v w : within a b v w -> all_in a b P v -> all_in a b P w.
Proof.
  intros Hw Hall k x Hk Hx. pose proof (within_mid _ _ _ _ Hw ltac:(lia)) as HP.
  assert (x ∈ take (b - a) (drop a v)) as Hin.
  { rewrite <- HP. apply list_elem_of_lookup. exists (k - a). rewrite lookup_take_lt, lookup_drop by lia. rewrite <- Hx. f_equal. lia. }
  apply list_elem_of_lookup in Hin as [i Hi]. apply lookup_take_Some in Hi as [Hi Hlt]. rewrite lookup_drop in Hi.
  apply (Hall (a + i) x); [lia|done].
Qed.

(** A part that is not touched. *)
Lemma within_outside a b P v w a' b' : within a b v w -> b' <= a \/ b <= a' -> all_in a' b' P v -> all_in a' b' P w.
Proof. intros [_ O] Hout Hall k x Hk Hx. rewrite O in Hx by lia. by eapply Hall. Qed.

End lists.

Ltac nodup := rewrite !NoDup_cons, !not_elem_of_cons; repeat split; try (by apply not_elem_of_nil); try (by apply NoDup_nil_2); try lia.
Ltac nodup_in H := rewrite !NoDup_cons, !not_elem_of_cons in H; tauto.

(** The neighbours of a short part are the places of its network. *)
Ltac near i :=
  repeat match goal with
  | H : ?le ?x ?y |- ?le i (S i) =>
      destruct (decide (i = x)); [replace i with x by lia; replace (S x) with y by lia; exact H|clear H]
  end; lia.
Ltac places := rewrite !list.Forall_cons; repeat split; try lia; by apply list.Forall_nil_2.

(** ** The order on places *)

Section order.
Context {T : Type} (c : T -> T -> bool) `{!StrictWeak c}.
Implicit Types (v w : list T).

(** The element at [i] is before that at [j]; it is not after it. *)
Definition lt_ v (i j : nat) : bool := match v !! i, v !! j with Some x, Some y => c x y | _, _ => false end.
Definition le_ v (i j : nat) : Prop := lt_ v j i = false.

Lemma lt_le v i j : lt_ v i j = true -> le_ v i j.
Proof. unfold le_, lt_. destruct (v !! i), (v !! j); try done. apply less_asym. Qed.
Lemma le_refl v i : le_ v i i.
Proof. unfold le_. destruct (lt_ v i i) eqn:Hl; [|done]. pose proof (lt_le _ _ _ Hl). unfold le_ in *. congruence. Qed.
Lemma le_trans v i j k : j < length v -> le_ v i j -> le_ v j k -> le_ v i k.
Proof.
  intros Hj. destruct (lookup_lt_is_Some_2 v j Hj) as [y Hy]. unfold le_, lt_. rewrite Hy.
  destruct (v !! i), (v !! k); try done. intros. by eapply less_negtrans.
Qed.

Lemma lt_exch v i j k l : i < length v -> j < length v -> lt_ (exch i j v) k l = lt_ v (tr i j k) (tr i j l).
Proof. intros Hi Hj. unfold lt_. by rewrite !lookup_exch. Qed.

Lemma lt_same v w i j : v !! i = w !! i -> v !! j = w !! j -> lt_ v i j = lt_ w i j.
Proof. unfold lt_. by intros -> ->. Qed.

Definition sorted_in (a b : nat) v : Prop := forall i j, a <= i -> i < j -> j < b -> le_ v i j.

Lemma sorted_same a b v w : (forall i, a <= i < b -> v !! i = w !! i) -> sorted_in a b v -> sorted_in a b w.
Proof. intros Hs Hv i j Hi Hij Hj. unfold le_. rewrite <- (lt_same v w) by (apply Hs; lia). by apply Hv. Qed.

(** ** Accesses *)

Lemma wp_at v i (Q : T -> list T -> Prop) : i < length v -> (forall x, v !! i = Some x -> Q x v) -> wp False (at_ i) Q v.
Proof.
  intros Hi HQ. unfold at_. apply wp_bind, wp_get. destruct (lookup_lt_is_Some_2 v i Hi) as [x Hx]. rewrite Hx. apply wp_ret. by apply HQ.
Qed.

Lemma wp_set v i x (Q : unit -> list T -> Prop) : i < length v -> Q tt (<[i := x]> v) -> wp False (set_ i x) Q v.
Proof. intros Hi HQ. unfold set_. apply wp_bind, wp_get. rewrite (proj2 (Nat.ltb_lt _ _) Hi). by apply wp_put. Qed.

Lemma wp_swap v i j (Q : unit -> list T -> Prop) : i < length v -> j < length v -> Q tt (exch i j v) -> wp False (swap i j) Q v.
Proof.
  intros Hi Hj HQ. unfold swap. apply wp_bind, wp_at; [done|]. intros x Hx. apply wp_bind, wp_at; [done|]. intros y Hy.
  unfold exch in HQ. rewrite Hx, Hy in HQ. apply wp_bind, wp_set; [done|]. apply wp_set; [by rewrite length_insert|done].
Qed.

Lemma wp_less v i j (Q : bool -> list T -> Prop) :
  i < length v -> j < length v -> Q (lt_ v i j) v -> wp False (less_at c i j) Q v.
Proof.
  intros Hi Hj HQ. unfold less_at. apply wp_bind, wp_at; [done|]. intros x Hx. apply wp_bind, wp_at; [done|]. intros y Hy.
  apply wp_ret. unfold lt_ in HQ. by rewrite Hx, Hy in HQ.
Qed.

Lemma wp_dec v i (Q : nat -> list T -> Prop) : 0 < i -> Q (i - 1) v -> wp False (dec i) Q v.
Proof. intros Hi HQ. destruct i; [lia|]. replace (S i - 1) with i in HQ by lia. by apply wp_ret. Qed.

(** *** Networks *)

(** [v] with its elements at the places [l], all in the part, exchanged. *)
Definition mixed (a b : nat) (l : list nat) v w : Prop := within a b v w /\ forall k, k ∉ l -> w !! k = v !! k.

Lemma mixed_refl a b l v : mixed a b l v v.
Proof. done. Qed.

Lemma mixed_exch a b l v w i j :
  mixed a b l v w -> b <= length v -> Forall (fun k => a <= k < b) l -> i ∈ l -> j ∈ l -> mixed a b l v (exch i j w).
Proof.
  intros [Hw Hc] Hb Hl Hi Hj. rewrite list.Forall_forall in Hl. pose proof (Hl i Hi). pose proof (Hl j Hj).
  pose proof (within_length _ _ _ _ Hw). split; [eapply within_trans; [done|apply within_exch; lia]|].
  intros k Hk. rewrite lookup_exch by lia. rewrite <- Hc by done. f_equal. unfold tr. rewrite !decide_False; [done|congruence..].
Qed.

(** A place is in the list; the places' being different does not matter. *)
Ltac in_bounds := rewrite ?length_exch; repeat match goal with H : _ <> _ |- _ => clear H end; lia.

(** A comparison of places, the exchange of two, and the orders that follow. *)
Ltac step_less := apply wp_bind, wp_less; [in_bounds..|]; rewrite ?lt_exch by in_bounds; tr_simpl.
Ltac case_lt := match goal with |- context [lt_ ?v ?i ?j] => destruct (lt_ v i j) eqn:? end; cbn [negb].
Ltac step_swap := apply wp_swap; [in_bounds..|].
Ltac ordered := unfold le_; rewrite ?lt_exch by in_bounds; tr_simpl; first [assumption | apply lt_le; assumption].
Ltac mixed := repeat first [assumption | apply mixed_refl | apply mixed_exch; [|assumption|assumption|in_list|in_list]].

Lemma mixed_weaken a b l l' v w : mixed a b l v w -> (forall k, k ∈ l -> k ∈ l') -> mixed a b l' v w.
Proof. intros [Hw Hc] Hl. split; [done|]. intros k Hk. apply Hc. intros Hin. by apply Hk, Hl. Qed.

Lemma mixed_length a b l v w : mixed a b l v w -> length w = length v.
Proof. intros [Hw _]. by eapply within_length. Qed.

Lemma wp_sort3 a b x y z v (Q : unit -> list T -> Prop) :
  Forall (fun k => a <= k < b) [x; y; z] -> NoDup [x; y; z] -> b <= length v ->
  (forall w, mixed a b [x; y; z] v w -> le_ w x y -> le_ w y z -> Q tt w) -> wp False (sort3 c x y z) Q v.
Proof.
  intros Hl Hd Hb HQ. pose proof Hl as Hl'. rewrite !list.Forall_cons in Hl'. destruct Hl' as (Hx & Hy & Hz & _).
  assert (x <> y /\ y <> z /\ x <> z) as (Hxy & Hyz & Hxz).
  { nodup_in Hd. }
  unfold sort3. step_less. case_lt; (step_less; case_lt).
  - step_swap. apply HQ; [mixed|ordered..].
  - apply wp_bind. step_swap. step_less. case_lt; [step_swap|apply wp_ret]; (apply HQ; [mixed|ordered..]).
  - apply wp_bind. step_swap. step_less. case_lt; [step_swap|apply wp_ret]; (apply HQ; [mixed|ordered..]).
  - apply wp_ret, HQ; [mixed|ordered..].
Qed.

Lemma wp_sort4 a b x1 x2 x3 x4 v (Q : unit -> list T -> Prop) :
  Forall (fun k => a <= k < b) [x1; x2; x3; x4] -> NoDup [x1; x2; x3; x4] -> b <= length v ->
  (forall w, mixed a b [x1; x2; x3; x4] v w -> le_ w x1 x2 -> le_ w x2 x3 -> le_ w x3 x4 -> Q tt w) ->
  wp False (sort4 c x1 x2 x3 x4) Q v.
Proof.
  intros Hl Hd Hb HQ. pose proof Hl as Hl'. rewrite !list.Forall_cons in Hl'. destruct Hl' as (H1 & H2 & H3 & H4 & _).
  assert (x1 <> x2 /\ x1 <> x3 /\ x1 <> x4 /\ x2 <> x3 /\ x2 <> x4 /\ x3 <> x4) as (D1 & D2 & D3 & D4 & D5 & D6).
  { nodup_in Hd. }
  unfold sort4. apply wp_bind, (wp_sort3 a b); [by rewrite !list.Forall_cons|nodup|done|].
  intros w Hw O1 O2. pose proof (mixed_length _ _ _ _ _ Hw) as Hlen.
  apply (mixed_weaken _ _ _ [x1; x2; x3; x4]) in Hw; [|set_solver].
  assert (b <= length w) by lia. unfold le_ in O1, O2.
  step_less. case_lt; [|apply wp_ret, HQ; [mixed|ordered..]]. apply wp_bind. step_swap.
  step_less. case_lt; [|apply wp_ret, HQ; [mixed|ordered..]]. apply wp_bind. step_swap.
  step_less. case_lt; [step_swap|apply wp_ret]; (apply HQ; [mixed|ordered..]).
Qed.

Lemma wp_sort5 a b x1 x2 x3 x4 x5 v (Q : unit -> list T -> Prop) :
  Forall (fun k => a <= k < b) [x1; x2; x3; x4; x5] -> NoDup [x1; x2; x3; x4; x5] -> b <= length v ->
  (forall w, mixed a b [x1; x2; x3; x4; x5] v w -> le_ w x1 x2 -> le_ w x2 x3 -> le_ w x3 x4 -> le_ w x4 x5 -> Q tt w) ->
  wp False (sort5 c x1 x2 x3 x4 x5) Q v.
Proof.
  intros Hl Hd Hb HQ. pose proof Hl as Hl'. rewrite !list.Forall_cons in Hl'. destruct Hl' as (H1 & H2 & H3 & H4 & H5 & _).
  assert (x1 <> x2 /\ x1 <> x3 /\ x1 <> x4 /\ x1 <> x5 /\ x2 <> x3 /\ x2 <> x4 /\ x2 <> x5 /\ x3 <> x4 /\ x3 <> x5 /\ x4 <> x5)
    as (D1 & D2 & D3 & D4 & D5 & D6 & D7 & D8 & D9 & D10).
  { nodup_in Hd. }
  unfold sort5. apply wp_bind, (wp_sort4 a b); [by rewrite !list.Forall_cons|nodup|done|].
  intros w Hw O1 O2 O3. pose proof (mixed_length _ _ _ _ _ Hw) as Hlen.
  apply (mixed_weaken _ _ _ [x1; x2; x3; x4; x5]) in Hw; [|set_solver].
  assert (b <= length w) by lia. unfold le_ in O1, O2, O3.
  step_less. case_lt; [|apply wp_ret, HQ; [mixed|ordered..]]. apply wp_bind. step_swap.
  step_less. case_lt; [|apply wp_ret, HQ; [mixed|ordered..]]. apply wp_bind. step_swap.
  step_less. case_lt; [|apply wp_ret, HQ; [mixed|ordered..]]. apply wp_bind. step_swap.
  step_less. case_lt; [step_swap|apply wp_ret]; (apply HQ; [mixed|ordered..]).
Qed.

(** Neighbours in order. *)
Lemma sorted_steps a b v : b <= length v -> (forall i, a <= i -> S i < b -> le_ v i (S i)) -> sorted_in a b v.
Proof.
  intros Hb Hs i j Hi Hij. induction Hij as [|j Hij IH]; intros Hj; [by apply Hs|].
  apply (le_trans _ _ j); [lia|apply IH; lia|apply Hs; lia].
Qed.

Lemma wp_sort_short first last sorts v (Q : unit -> list T -> Prop) :
  sort_short c first last = Some sorts -> first <= last <= length v ->
  (forall w, within first last v w -> sorted_in first last w -> Q tt w) -> wp False sorts Q v.
Proof.
  intros Hs Hl HQ. unfold sort_short in Hs. remember (last - first) as n eqn:Hn.
  assert (forall w, (forall i, first <= i -> S i < last -> le_ w i (S i)) -> within first last v w -> Q tt w) as Hfin.
  { intros w Hw Hin. pose proof (within_length _ _ _ _ Hin). apply HQ; [done|]. apply sorted_steps; [lia|done]. }
  destruct n as [|[|[|[|[|[|]]]]]]; simplify_eq.
  - apply wp_ret, Hfin; [lia|apply within_refl].
  - apply wp_ret, Hfin; [lia|apply within_refl].
  - step_less. case_lt; [step_swap|apply wp_ret].
    + apply Hfin; [|apply within_exch; lia]. intros i Hi1 Hi2. replace i with first by lia. replace (S first) with (last - 1) by lia. ordered.
    + apply Hfin; [|apply within_refl]. intros i Hi1 Hi2. replace i with first by lia. replace (S first) with (last - 1) by lia. ordered.
  - apply (wp_sort3 first last); [places| |lia|].
    { nodup. }
    intros w [Hw _] O1 O2. apply Hfin; [|done]. intros i Hi1 Hi2.
    near i.
  - apply (wp_sort4 first last); [places|nodup|lia|].
    intros w [Hw _] O1 O2 O3. apply Hfin; [|done]. intros i Hi1 Hi2. near i.
  - apply (wp_sort5 first last); [places|nodup|lia|].
    intros w [Hw _] O1 O2 O3 O4. apply Hfin; [|done]. intros i Hi1 Hi2. near i.
Qed.
End order.
