(* ===== verification/CxxInsertion.v ===== *)
(** The insertion sorts of [CxxSort]: guarded by the front of the part, by an
    element before it, or ended after eight insertions. *)

From Stdlib Require Import ZArith Lia.
From stdpp Require Import base numbers list sets.
From S2P Require Import Prelude CxxSort CxxOrder.

Open Scope nat_scope.

Section insertion.
Context {T : Type} (c : T -> T -> bool) `{!StrictWeak c}.
Implicit Types (v w : list T).

(** No element of the part is before the one in front of it. *)
Definition floored (first last : nat) v : Prop :=
  1 <= first /\ exists b, v !! (first - 1) = Some b /\ all_in first last (fun x => c x b = false) v.

Lemma floored_within first last v w : floored first last v -> within first last v w -> floored first last w.
Proof.
  intros (H1 & b & Hb & Hall) Hw. split; [done|]. exists b. split; [|by eapply within_all].
  destruct Hw as [_ O]. rewrite O by lia. done.
Qed.

Lemma floored_le first last v k : floored first last v -> first <= k < last -> le_ c v (first - 1) k.
Proof.
  intros (H1 & b & Hb & Hall) Hk. unfold le_, lt_. rewrite Hb. destruct (v !! k) eqn:Hx; [|done]. by apply (Hall k).
Qed.

Lemma floored_sub first last first' last' v :
  floored first last v -> first' = first -> last' <= last -> floored first' last' v.
Proof.
  intros (H1 & b & Hb & Hall) -> Hl. split; [done|]. exists b. split; [done|]. intros k x Hk. apply Hall. lia.
Qed.

Lemma sorted_extend first i v : first < i -> i < length v -> sorted_in c first i v -> le_ c v (i - 1) i -> sorted_in c first (S i) v.
Proof.
  intros Hi Hlen Hs Hle a b Ha Hab Hb. destruct (decide (b = i)) as [->|]; [|apply Hs; lia].
  destruct (decide (a = i - 1)) as [->|]; [done|]. apply (le_trans c _ _ (i - 1)); [lia|apply Hs; lia|done].
Qed.

(** *** The inner loop *)

(** [w] is sorted from [first] to [i] but for the element at [j], which may
    belong further left. *)
Definition sinking (first i j : nat) w : Prop :=
  (forall a b, first <= a -> a < b -> b <= i -> a <> j -> b <> j -> le_ c w a b) /\ (forall b, j < b <= i -> le_ c w j b).

Lemma sinking_exch first i k w :
  sinking first i (S k) w -> first <= k -> S k <= i -> i < length w -> le_ c w (S k) k -> sinking first i k (exch (S k) k w).
Proof.
  intros [Hs Hj] Hk Hi Hlen Hle. split.
  - intros a b Ha Hab Hb Hak Hbk. unfold le_. rewrite lt_exch by lia.
    destruct (decide (a = S k)) as [->|]; [tr_simpl; apply Hs; lia|].
    destruct (decide (b = S k)) as [->|]; tr_simpl; apply Hs; lia.
  - intros b Hb. unfold le_. rewrite lt_exch by lia. destruct (decide (b = S k)) as [->|]; tr_simpl; [done|apply Hj; lia].
Qed.

Lemma sinking_sorted first i j w :
  sinking first i j w -> first <= j <= i -> i < length w -> (j = first \/ le_ c w (j - 1) j) -> sorted_in c first (S i) w.
Proof.
  intros [Hs Hj] Hji Hlen Hstop a b Ha Hab Hb. destruct (decide (a = j)) as [->|]; [apply Hj; lia|].
  destruct (decide (b = j)) as [->|]; [|apply Hs; lia]. destruct Hstop as [->|Hle]; [lia|].
  destruct (decide (a = j - 1)) as [->|]; [done|]. apply (le_trans c _ _ (j - 1)); [lia|apply Hs; lia|done].
Qed.

(** The slice with the element in hand at the hole is what is exchanged. *)
Lemma hole_exch v t x j k : v !! k = Some x -> j < length v -> k <> j -> <[k := t]> (<[j := x]> v) = exch j k (<[j := t]> v).
Proof.
  intros Hx Hj Hk. unfold exch. rewrite list_lookup_insert_eq, list_lookup_insert_ne, Hx by done. by rewrite list_insert_insert_eq.
Qed.

Definition guarded (guard : option nat) (first j : nat) w : Prop :=
  guard = Some first \/ (guard = None /\ 1 <= first /\ le_ c w (first - 1) j).

Lemma wp_shift fuel guard t first i v k w (Q : nat -> list T -> Prop) :
  k < fuel -> w = <[S k := t]> v -> first <= k -> S k <= i -> i < length v ->
  sinking first i (S k) w -> lt_ c w (S k) k = true -> guarded guard first (S k) w ->
  (forall j v', j < length v' -> within first (S i) w (<[j := t]> v') -> sorted_in c first (S i) (<[j := t]> v') -> Q j v') ->
  wp False (shift c fuel guard t (S k) k) Q v.
Proof.
  revert v k w. induction fuel as [|fuel IH]; intros v k w Hfuel Hw Hk Hi Hlen Hs Hlt Hg HQ; [lia|]. cbn [shift].
  apply wp_bind, wp_at; [lia|]. intros x Hx. apply wp_bind, wp_set; [lia|].
  pose proof (hole_exch v t x (S k) k Hx ltac:(lia) ltac:(lia)) as Hw'. rewrite <- Hw in Hw'.
  assert (length w = length v) as Hlw by (subst w; apply length_insert).
  assert (sinking first i k (exch (S k) k w)) as Hs' by (apply sinking_exch; [done..|lia|by apply lt_le]).
  assert (within first (S i) w (exch (S k) k w)) as Hin by (apply within_exch; lia).
  assert (forall j, le_ c w j (S k) -> j < k -> le_ c (exch (S k) k w) j k) as Hle.
  { intros j Hj Hjk. unfold le_. rewrite lt_exch by lia. by tr_simpl. }
  assert (forall (r : k = first \/ le_ c (exch (S k) k w) (k - 1) k), Q k (<[S k := x]> v)) as Hstop.
  { intros r. apply HQ; rewrite ?Hw'; [rewrite length_insert; lia|done|]. eapply sinking_sorted; [done|lia|rewrite length_exch; lia|done]. }
  case_bool_decide as Hgk.
  { apply wp_ret, Hstop. left. destruct Hg as [->|[-> _]]; congruence. }
  assert (0 < k) by (destruct Hg as [->|(-> & H1 & _)]; [assert (first <> k) by congruence|]; lia).
  apply wp_bind, wp_dec; [done|]. apply wp_bind, wp_at; [rewrite length_insert; lia|]. intros y Hy.
  assert (lt_ c (exch (S k) k w) k (k - 1) = c t y) as Hty.
  { rewrite <- Hw'. unfold lt_. rewrite list_lookup_insert_eq by (rewrite length_insert; lia).
    by rewrite list_lookup_insert_ne, Hy by lia. }
  destruct (c t y) eqn:Hc; cbn [negb]; [|apply wp_ret, Hstop; right; exact Hty].
  assert (first < k) as Hfk.
  { destruct (decide (first = k)) as [->|]; [|lia]. destruct Hg as [->|(-> & H1 & Hle1)]; [congruence|].
    specialize (Hle _ Hle1 ltac:(lia)). unfold le_ in Hle. congruence. }
  destruct k as [|k]; [lia|]. replace (S k - 1) with k in * by lia.
  apply (IH _ _ (exch (S (S k)) (S k) w)); try lia; try done.
  - rewrite length_insert. lia.
  - destruct Hg as [->|(-> & H1 & Hle1)]; [by left|right]. split_and!; [done..|]. apply Hle; [done|lia].
  - intros j v' Hj Hin' Hsort. apply HQ; [done| |done]. by eapply within_trans.
Qed.

Lemma wp_then {A B C} (m1 : M (list T) A) (m2 : A -> M (list T) B) (m3 : A -> B -> M (list T) unit) (m4 : M (list T) C) Q v :
  wp False (x ← m1; y ← m2 x; m3 x y) (fun _ => wp False m4 Q) v -> wp False (x ← m1; y ← m2 x; m3 x y;; m4) Q v.
Proof.
  unfold wpx, mbind, M_bind. destruct (m1 v) as [[x v1]| |]; [|done..].
  destruct (m2 x v1) as [[y v2]| |]; [|done..]. by destruct (m3 x y v2) as [[[] v3]| |].
Qed.

(** An element put in its place among those before it. *)
Lemma wp_insert fuel guard first i v (Q : unit -> list T -> Prop) :
  i <= fuel -> first < i -> i < length v -> sorted_in c first i v -> lt_ c v i (i - 1) = true -> guarded guard first i v ->
  (forall w, within first (S i) v w -> sorted_in c first (S i) w -> Q tt w) ->
  wp False (t ← at_ i; j ← shift c fuel guard t i (i - 1); set_ j t) Q v.
Proof.
  intros Hfuel Hi Hlen Hs Hlt Hg HQ. destruct i as [|k]; [lia|]. replace (S k - 1) with k in * by lia.
  apply wp_bind, wp_at; [lia|]. intros t Ht. apply wp_bind.
  apply (wp_shift _ _ _ first (S k) _ _ v); try done; try lia.
  - by rewrite list_insert_id.
  - split; [|lia]. intros a b Ha Hab Hb _ Hbk. apply Hs; lia.
  - intros j v' Hj Hin Hsort. apply wp_set; [done|]. by apply HQ.
Qed.

(** *** The outer loops *)

(** What ends the inner loop: the front of the part, or the element before it. *)
Definition fenced (guard : option nat) (first last : nat) v : Prop :=
  guard = Some first \/ (guard = None /\ floored first last v).

Lemma fenced_guarded guard first last i v : fenced guard first last v -> first <= i < last -> guarded guard first i v.
Proof.
  intros [->|[-> Hf]] Hi; [by left|right]. split_and!; [done|by destruct Hf|by eapply floored_le].
Qed.

Lemma fenced_within guard first last v w : fenced guard first last v -> within first last v w -> fenced guard first last w.
Proof. intros [->|[-> Hf]] Hw; [by left|right]. split; [done|]. by eapply floored_within. Qed.

Lemma wp_insertion_loop fuel guard first last i v (Q : unit -> list T -> Prop) :
  last - i < fuel -> first < i -> i <= last -> last <= length v -> sorted_in c first i v -> fenced guard first last v ->
  (forall w, within first last v w -> sorted_in c first last w -> Q tt w) ->
  wp False (insertion_loop c fuel guard last i) Q v.
Proof.
  revert i v. induction fuel as [|fuel IH]; intros i v Hfuel Hi Hil Hlen Hs Hg HQ; [lia|]. cbn [insertion_loop].
  destruct (Nat.eqb_spec i last) as [->|Hne]; [by apply wp_ret, HQ|].
  apply wp_bind, wp_dec; [lia|]. apply wp_bind, wp_less; [lia..|].
  assert (forall w, within first (S i) v w -> sorted_in c first (S i) w ->
            wp False (insertion_loop c fuel guard last (S i)) Q w) as Hgo.
  { intros w Hw Hsw. pose proof (within_length _ _ _ _ Hw). apply (within_weaken _ _ first last) in Hw; [|lia..].
    apply IH; try lia; try done; [by eapply fenced_within|]. intros u Hu. apply HQ. by eapply within_trans. }
  apply wp_bind. destruct (lt_ c v i (i - 1)) eqn:Hlt.
  - apply (wp_insert _ _ first); try done; [lia|eapply fenced_guarded; [done|lia]].
  - apply wp_ret, Hgo; [apply within_refl|]. by apply sorted_extend; [|lia|..].
Qed.

(** A part of one element. *)
Lemma sorted_one first v : sorted_in c first (S first) v.
Proof. intros i j. lia. Qed.

Lemma wp_insertion_sort first last v (Q : unit -> list T -> Prop) :
  first <= last <= length v -> (forall w, within first last v w -> sorted_in c first last w -> Q tt w) ->
  wp False (insertion_sort c first last) Q v.
Proof.
  intros Hl HQ. unfold insertion_sort. destruct (Nat.eqb_spec first last) as [->|Hne].
  - apply wp_ret, HQ; [apply within_refl|]. intros i j. lia.
  - apply (wp_insertion_loop _ _ first); try lia; [apply sorted_one|by left|done].
Qed.

Lemma wp_insertion_sort_unguarded first last v (Q : unit -> list T -> Prop) :
  first <= last <= length v -> floored first last v ->
  (forall w, within first last v w -> sorted_in c first last w -> Q tt w) ->
  wp False (insertion_sort_unguarded c first last) Q v.
Proof.
  intros Hl Hf HQ. unfold insertion_sort_unguarded. destruct (Nat.eqb_spec first last) as [->|Hne].
  - apply wp_ret, HQ; [apply within_refl|]. intros i j. lia.
  - apply (wp_insertion_loop _ _ first); try lia; [apply sorted_one|by right|done].
Qed.

Lemma wp_incomplete_loop fuel first last i count v (Q : bool -> list T -> Prop) :
  last - i < fuel -> first < i -> i <= last -> last <= length v -> sorted_in c first i v ->
  (forall r w, within first last v w -> (r = true -> sorted_in c first last w) -> Q r w) ->
  wp False (incomplete_loop c fuel first last (i - 1) i count) Q v.
Proof.
  revert i count v. induction fuel as [|fuel IH]; intros i count v Hfuel Hi Hil Hlen Hs HQ; [lia|]. cbn [incomplete_loop].
  destruct (Nat.eqb_spec i last) as [->|Hne]; [by apply wp_ret, HQ|].
  apply wp_bind, wp_less; [lia..|].
  assert (forall w count, within first (S i) v w -> sorted_in c first (S i) w ->
            wp False (incomplete_loop c fuel first last i (S i) count) Q w) as Hgo.
  { intros w n Hw Hsw. pose proof (within_length _ _ _ _ Hw). apply (within_weaken _ _ first last) in Hw; [|lia..].
    replace i with (S i - 1) at 1 by lia. apply IH; try lia; try done. intros r u Hu. apply HQ. by eapply within_trans. }
  destruct (lt_ c v i (i - 1)) eqn:Hlt.
  - apply wp_then. apply (wp_insert _ _ first); try done; [lia..|by left|]. intros w Hw Hsw.
    destruct (S count =? 8); [|by apply Hgo]. apply wp_ret, HQ; [eapply within_weaken; [done|lia..]|].
    intros Hr%Nat.eqb_eq. by rewrite <- Hr.
  - apply Hgo; [apply within_refl|]. by apply sorted_extend; [|lia|..].
Qed.

Lemma wp_insertion_sort_incomplete first last v (Q : bool -> list T -> Prop) :
  first <= last <= length v ->
  (forall r w, within first last v w -> (r = true -> sorted_in c first last w) -> Q r w) ->
  wp False (insertion_sort_incomplete c first last) Q v.
Proof.
  intros Hl HQ. unfold insertion_sort_incomplete. destruct (sort_short c first last) as [sorts|] eqn:Hs.
  - apply wp_bind, (wp_sort_short c first last); [done..|]. intros w Hw Hsw. apply wp_ret. by apply HQ.
  - assert (5 < last - first) as Hlong.
    { unfold sort_short in Hs. destruct (last - first) as [|[|[|[|[|[|]]]]]]; try done. lia. }
    apply wp_bind, (wp_sort3 c first last); [places|nodup|lia|]. intros w [Hw _] O1 O2.
    pose proof (within_length _ _ _ _ Hw). replace (first + 2) with (first + 3 - 1) by lia.
    apply wp_incomplete_loop; try lia.
    + apply sorted_steps; [done|lia|]. intros i H1 H2. replace (first + 3 - 1) with (first + 2) in * by lia. near i.
    + intros r u Hu. apply HQ. by eapply within_trans.
Qed.

End insertion.
