(* ===== verification/CxxPartition.v ===== *)
(** The partitions of [CxxSort]: the pivot between what belongs on its left and
    what belongs on its right. *)

From Stdlib Require Import ZArith Lia.
From stdpp Require Import base numbers list sets.
From S2P Require Import Prelude CxxSort CxxOrder CxxInsertion.

Open Scope nat_scope.

Section search.
Context {T : Type}.
Implicit Types (v w : list T) (p : T -> bool).

(** The element at a place satisfies [p]. *)
Definition sat v p (k : nat) : bool := match v !! k with Some x => p x | None => false end.

Lemma sat_lookup v p k x : v !! k = Some x -> sat v p k = p x.
Proof. unfold sat. by intros ->. Qed.
Lemma sat_exch v p i j k : i < length v -> j < length v -> sat (exch i j v) p k = sat v p (tr i j k).
Proof. intros Hi Hj. unfold sat. by rewrite lookup_exch. Qed.

(** *** The four searches *)

Lemma wp_up fuel stop first m v (Q : nat -> list T -> Prop) :
  first < m -> m < length v -> m - first <= fuel -> sat v stop m = true ->
  (forall j, first < j <= m -> sat v stop j = true -> (forall k, first < k < j -> sat v stop k = false) -> Q j v) ->
  wp False (up fuel stop first) Q v.
Proof.
  revert first. induction fuel as [|fuel IH]; intros first Hm Hlen Hfuel Hstop HQ; [lia|]. cbn [up].
  apply wp_bind, wp_at; [lia|]. intros x Hx. destruct (stop x) eqn:Hs.
  - apply wp_ret, HQ; [lia|by rewrite (sat_lookup _ _ _ x)|lia].
  - assert (S first <> m) by (intros <-; rewrite (sat_lookup _ _ _ x) in Hstop; congruence).
    apply IH; try lia; try done. intros j Hj Hsj Hk. apply HQ; [lia|done|]. intros k Hkj.
    destruct (decide (k = S first)) as [->|]; [by rewrite (sat_lookup _ _ _ x)|apply Hk; lia].
Qed.

(** Downwards, to what does not belong on the right. *)
Lemma wp_down fuel right last m v (Q : nat -> list T -> Prop) :
  m < last -> last <= length v -> last - m <= fuel -> sat v right m = false ->
  (forall j, m <= j < last -> sat v right j = false -> (forall k, j < k < last -> sat v right k = true) -> Q j v) ->
  wp False (down fuel (fun x => negb (right x)) last) Q v.
Proof.
  revert last. induction fuel as [|fuel IH]; intros last Hm Hlen Hfuel Hstop HQ; [lia|]. cbn [down].
  apply wp_bind, wp_dec; [lia|]. apply wp_bind, wp_at; [lia|]. intros x Hx. destruct (right x) eqn:Hs; cbn [negb].
  - assert (last - 1 <> m) by (intros <-; rewrite (sat_lookup _ _ _ x) in Hstop; congruence).
    apply IH; try lia; try done. intros j Hj Hsj Hk. apply HQ; [lia|done|]. intros k Hkj.
    destruct (decide (k = last - 1)) as [->|]; [by rewrite (sat_lookup _ _ _ x)|apply Hk; lia].
  - apply wp_ret, HQ; [lia|by rewrite (sat_lookup _ _ _ x)|lia].
Qed.

Lemma wp_down_to fuel right first last v (Q : nat -> list T -> Prop) :
  first <= last -> last <= length v -> last - first < fuel ->
  (forall j, first <= j <= last -> (j < last /\ sat v right j = false) \/ j = first ->
     (forall k, j < k < last -> sat v right k = true) -> Q j v) ->
  wp False (down_to fuel (fun x => negb (right x)) first last) Q v.
Proof.
  revert last. induction fuel as [|fuel IH]; intros last Hm Hlen Hfuel HQ; [lia|]. cbn [down_to].
  destruct (Nat.ltb_spec first last) as [Hlt|Hge]; cbn [negb]; [|apply wp_ret, HQ; lia].
  apply wp_bind, wp_dec; [lia|]. apply wp_bind, wp_at; [lia|]. intros x Hx. destruct (right x) eqn:Hs; cbn [negb].
  - apply IH; try lia. intros j Hj Hsj Hk. apply HQ; [lia|destruct Hsj as [[? ?]|?]; [left; split; [lia|done]|by right]|]. intros k Hkj.
    destruct (decide (k = last - 1)) as [->|]; [by rewrite (sat_lookup _ _ _ x)|apply Hk; lia].
  - apply wp_ret, HQ; [lia|left; split; [lia|by rewrite (sat_lookup _ _ _ x)]|lia].
Qed.

Lemma wp_up_to fuel stop first last v (Q : nat -> list T -> Prop) :
  first < last -> last <= length v -> last - first < fuel ->
  (forall j, first < j <= last -> (j < last /\ sat v stop j = true) \/ j = last ->
     (forall k, first < k < j -> sat v stop k = false) -> Q j v) ->
  wp False (up_to fuel stop first last) Q v.
Proof.
  revert first. induction fuel as [|fuel IH]; intros first Hm Hlen Hfuel HQ; [lia|]. cbn [up_to].
  destruct (Nat.leb_spec last (S first)) as [Hle|Hgt]; [apply wp_ret, HQ; lia|].
  apply wp_bind, wp_at; [lia|]. intros x Hx. destruct (stop x) eqn:Hs.
  - apply wp_ret, HQ; [lia|left; split; [lia|by rewrite (sat_lookup _ _ _ x)]|lia].
  - apply IH; try lia. intros j Hj Hsj Hk. apply HQ; [lia|done|]. intros k Hkj.
    destruct (decide (k = S first)) as [->|]; [by rewrite (sat_lookup _ _ _ x)|apply Hk; lia].
Qed.

(** *** The exchanges *)

(** What is left of [first] belongs there, what is right of [last] too; the two
    elements are on the wrong sides until they have crossed. *)
Record split_at right (begin end_ first last : nat) v : Prop := {
  split_first : begin < first <= end_;
  split_left : forall k, begin < k < first -> sat v right k = false;
  split_right : forall k, last < k < end_ -> sat v right k = true;
  split_pair : first < last -> last < end_ /\ sat v right first = true /\ sat v right last = false;
  split_done : last <= first -> forall k, first <= k < end_ -> sat v right k = true;
}.

Lemma wp_exchange fuel right begin end_ first last v (Q : nat -> list T -> Prop) :
  last - first < fuel -> end_ <= length v -> split_at right begin end_ first last v ->
  (forall i w, within (S begin) end_ v w -> begin < i <= end_ -> (forall k, begin < k < i -> sat w right k = false) ->
     (forall k, i <= k < end_ -> sat w right k = true) -> Q i w) ->
  wp False (exchange fuel right first last) Q v.
Proof.
  revert first last v. induction fuel as [|fuel IH]; intros first last v Hfuel Hlen [Hf HL HR Hp Hd] HQ; [lia|]. cbn [exchange].
  destruct (Nat.ltb_spec first last) as [Hlt|Hge]; cbn [negb].
  2: { apply wp_ret, HQ; [apply within_refl|done..|]. intros k Hk. by apply Hd. }
  destruct (Hp Hlt) as (Hle & Hrf & Hrl). apply wp_bind, wp_swap; [lia..|]. apply wp_bind, wp_get. rewrite length_exch.
  assert (forall k, sat (exch first last v) right k = sat v right (tr first last k)) as Hex by (intros k; apply sat_exch; lia).
  assert (sat (exch first last v) right last = true) as Hl by (rewrite Hex; by tr_simpl).
  assert (sat (exch first last v) right first = false) as Hfs by (rewrite Hex; by tr_simpl).
  assert (forall k, begin < k < first -> sat (exch first last v) right k = false) as HL'.
  { intros k Hk. rewrite Hex. tr_simpl. by apply HL. }
  assert (forall k, last < k < end_ -> sat (exch first last v) right k = true) as HR'.
  { intros k Hk. rewrite Hex. tr_simpl. by apply HR. }
  assert (within (S begin) end_ v (exch first last v)) as Hin by (apply within_exch; lia).
  revert Hl Hfs HL' HR' Hin. generalize (length_exch first last v). generalize (exch first last v). clear Hex. intros w Hlw Hl Hfs HL' HR' Hin.
  apply wp_bind, (wp_up _ _ _ last); try lia; [done|]. intros f' Hf' Hsf Hbf.
  apply wp_bind, (wp_down _ _ _ first); try lia; [done|]. intros l' Hl' Hsl Hbl.
  assert (f' <> l') by congruence.
  assert (forall k, l' < k < end_ -> sat w right k = true) as HR2.
  { intros k Hk. destruct (decide (k < last)); [apply Hbl; lia|]. destruct (decide (k = last)) as [->|]; [done|apply HR'; lia]. }
  apply IH; [lia|lia| |].
  - split; [lia| |done|intros; split_and!; [lia|done..]|intros; apply HR2; lia].
    intros k Hk. destruct (decide (k < first)); [apply HL'; lia|]. destruct (decide (k = first)) as [->|]; [done|apply Hbf; lia].
  - intros i u Hu. apply HQ. by eapply within_trans.
Qed.

Lemma wp_place_pivot begin first pivot v (Q : nat -> list T -> Prop) :
  begin < first <= length v -> v !! begin = Some pivot -> Q (first - 1) (exch begin (first - 1) v) ->
  wp False (place_pivot begin first pivot) Q v.
Proof.
  intros Hf Hb HQ. unfold place_pivot. apply wp_bind, wp_dec; [lia|].
  destruct (lookup_lt_is_Some_2 v (first - 1) ltac:(lia)) as [x Hx]. unfold exch in HQ. rewrite Hb, Hx in HQ.
  destruct (Nat.eqb_spec begin (first - 1)) as [He|Hne]; apply wp_bind.
  - apply wp_ret. apply wp_bind, wp_set; [lia|]. apply wp_ret. rewrite <- He in *. simplify_eq.
    by rewrite list_insert_insert_eq in HQ.
  - apply wp_bind, wp_at; [lia|]. intros y Hy. simplify_eq. apply wp_set; [lia|].
    apply wp_bind, wp_set; [rewrite length_insert; lia|]. by apply wp_ret.
Qed.

(** The pivot in its place, after the exchanges. *)
Lemma placed right begin end_ first pivot v :
  begin < first <= end_ -> end_ <= length v -> v !! begin = Some pivot ->
  (forall k, begin < k < first -> sat v right k = false) -> (forall k, first <= k < end_ -> sat v right k = true) ->
  let w := exch begin (first - 1) v in
  w !! (first - 1) = Some pivot /\ (forall k, begin <= k < first - 1 -> sat w right k = false) /\
  (forall k, first <= k < end_ -> sat w right k = true).
Proof.
  intros Hf Hlen Hp HL HR. cbn zeta. split_and!.
  - rewrite lookup_exch by lia. by tr_simpl.
  - intros k Hk. rewrite sat_exch by lia. destruct (decide (k = begin)) as [->|]; tr_simpl; apply HL; lia.
  - intros k Hk. rewrite sat_exch by lia. tr_simpl. by apply HR.
Qed.

(** The exchanges and the pivot. *)
Lemma wp_settle {A} fuel right begin end_ first last pivot v (go_on : nat -> nat -> M (list T) A) (Q : A -> list T -> Prop) :
  length v <= fuel -> end_ <= length v -> v !! begin = Some pivot -> split_at right begin end_ first last v ->
  (forall i w, within begin end_ v w -> begin < i <= end_ -> w !! (i - 1) = Some pivot ->
     (forall k, begin <= k < i - 1 -> sat w right k = false) -> (forall k, i <= k < end_ -> sat w right k = true) ->
     wp False (go_on i (i - 1)) Q w) ->
  wp False (first ← exchange fuel right first last; pivot_pos ← place_pivot begin first pivot; go_on first pivot_pos) Q v.
Proof.
  intros Hfuel Hlen Hp Hs HQ. assert (last - first < fuel).
  { destruct Hs as [? _ _ Hpair _]. destruct (decide (first < last)) as [Hlt|]; [specialize (Hpair Hlt)|]; lia. }
  apply wp_bind, (wp_exchange _ _ begin end_); [done..|]. intros i w Hw Hi HL HR.
  pose proof (within_length _ _ _ _ Hw). assert (w !! begin = Some pivot) as Hpw by (rewrite <- Hp; apply Hw; lia).
  apply wp_bind, wp_place_pivot; [lia|done|].
  destruct (placed right begin end_ i pivot w) as (Hpi & HL' & HR'); [lia..|done|done|done|].
  apply HQ; [|done..]. eapply within_trans; [eapply within_weaken; [done|lia..]|]. apply within_exch; lia.
Qed.

End search.

Section partition.
Context {T : Type} (c : T -> T -> bool) `{!StrictWeak c}.
Implicit Types (v w : list T).

Lemma less_irrefl x : c x x = false.
Proof. destruct (c x x) eqn:Hc; [|done]. by rewrite (less_asym x x) in Hc. Qed.

Lemma sat_le v k i pivot :
  v !! i = Some pivot -> k < length v -> sat v (fun x => negb (c x pivot)) k = true -> le_ c v i k.
Proof.
  intros Hi Hk. destruct (lookup_lt_is_Some_2 v k Hk) as [x Hx]. unfold sat, le_, lt_. rewrite Hi, Hx. apply negb_true_iff.
Qed.
Lemma unsat_le v k i pivot :
  v !! i = Some pivot -> k < length v -> sat v (fun x => negb (c x pivot)) k = false -> le_ c v k i.
Proof.
  intros Hi Hk. destruct (lookup_lt_is_Some_2 v k Hk) as [x Hx]. unfold sat, le_, lt_. rewrite Hi, Hx.
  intros Hc%negb_false_iff. by apply less_asym.
Qed.

Lemma le_at v i j x y : v !! i = Some x -> v !! j = Some y -> le_ c v i j <-> c y x = false.
Proof. intros Hx Hy. unfold le_, lt_. by rewrite Hx, Hy. Qed.

(** What a partition leaves: the pivot at [i], nothing after it on the left,
    nothing before it on the right. *)
Definition parted (begin end_ i : nat) w : Prop :=
  begin <= i < end_ /\ (forall k, begin <= k < i -> le_ c w k i) /\ (forall k, i < k < end_ -> le_ c w i k).

Lemma wp_partition_right begin end_ m v (Q : nat * bool -> list T -> Prop) :
  begin < m < end_ -> end_ <= length v -> le_ c v begin m ->
  (forall i r w, within begin end_ v w -> parted begin end_ i w -> Q (i, r) w) ->
  wp False (partition_with_equals_on_right c begin end_) Q v.
Proof.
  intros Hm Hlen Hle HQ. unfold partition_with_equals_on_right. apply wp_bind, wp_at; [lia|]. intros pivot Hp.
  apply wp_bind, wp_get. cbn zeta. set (right := fun x => negb (c x pivot)).
  destruct (lookup_lt_is_Some_2 v m ltac:(lia)) as [xm Hxm]. rewrite (le_at _ _ _ pivot xm) in Hle by done.
  apply wp_bind, (wp_up _ right _ m); try lia.
  { rewrite (sat_lookup _ _ _ xm) by done. unfold right. by rewrite Hle. }
  intros f Hf Hsf Hbf.
  assert (forall last, split_at right begin end_ f last v ->
    wp False (first ← exchange (S (length v)) right f last; pivot_pos ← place_pivot begin first pivot;
              mret (pivot_pos, last <=? f)) Q v) as Hgo.
  { intros l Hs. apply (wp_settle _ _ _ end_ _ _ _ _ (fun _ pivot_pos => mret (pivot_pos, l <=? f))); [lia|done..|].
    intros i w Hw Hi Hpi HL HR. pose proof (within_length _ _ _ _ Hw). apply wp_ret, HQ; [done|]. split_and!; [lia..| |]; intros k Hk.
    - eapply unsat_le; [done|lia|by apply HL].
    - eapply sat_le; [done|lia|apply HR; lia]. }
  destruct (Nat.eqb_spec begin (f - 1)) as [Hb|Hb]; apply wp_bind.
  - apply (wp_down_to _ right); try lia. intros l Hl Hstop Hk. apply Hgo. split; [lia| |intros; apply Hk; lia| |].
    + intros k Hkf. apply Hbf. lia.
    + intros Hfl. destruct Hstop as [[? Hs]| ->]; [done|lia].
    + intros Hfl k Hkf. replace l with f in * by lia. destruct (decide (k = f)) as [->|]; [done|apply Hk; lia].
  - apply (wp_down _ right _ (S begin)); try lia; [apply Hbf; lia|].
    intros l Hl Hs Hk. apply Hgo. assert (l <> f) by congruence.
    split; [lia|intros k Hkf; apply Hbf; lia|done|intros; split_and!; [lia|done..]|intros; apply Hk; lia].
Qed.

Lemma least_left begin end_ i pivot w (P : Prop) :
  begin < i <= end_ -> end_ <= length w -> w !! (i - 1) = Some pivot -> all_in begin end_ (fun x => c x pivot = false) w ->
  (forall k, begin <= k < i - 1 -> sat w (fun x => c pivot x) k = false) ->
  (sorted_in c begin i w -> floored c i end_ w -> (forall k, begin <= k < i -> le_ c w k (i - 1)) -> P) -> P.
Proof.
  intros Hi Hlen Hpi Hall HL HP.
  assert (forall k x, begin <= k < i -> w !! k = Some x -> c pivot x = false) as Hleft.
  { intros k x Hk Hx. destruct (decide (k = i - 1)) as [->|]; [simplify_eq; apply less_irrefl|].
    specialize (HL k ltac:(lia)). by rewrite (sat_lookup _ _ _ x) in HL. }
  apply HP.
  - intros k l Hk Hkl Hl. destruct (lookup_lt_is_Some_2 w k ltac:(lia)) as [x Hx].
    destruct (lookup_lt_is_Some_2 w l ltac:(lia)) as [y Hy]. rewrite (le_at _ _ _ x y) by done.
    eapply less_negtrans; [eapply (Hall l); [lia|done]|eapply (Hleft k); [lia|done]].
  - split; [lia|]. exists pivot. split; [done|]. intros k x Hk. apply Hall. lia.
  - intros k Hk. destruct (lookup_lt_is_Some_2 w k ltac:(lia)) as [x Hx]. rewrite (le_at _ _ _ x pivot) by done. by eapply Hleft.
Qed.

(** The pivot is not before the element in front of the part: it is among the
    least of the part, and what is not after it is its equal. *)
Lemma wp_partition_left begin end_ v (Q : nat -> list T -> Prop) :
  S begin < end_ -> end_ <= length v -> floored c begin end_ v -> le_ c v begin (begin - 1) ->
  (forall i w, within begin end_ v w -> begin < i <= end_ -> sorted_in c begin i w -> floored c i end_ w ->
     (forall k, begin <= k < i -> le_ c w k (i - 1)) -> Q i w) ->
  wp False (partition_with_equals_on_left c begin end_) Q v.
Proof.
  intros Hb Hlen (Hb1 & b & Hfb & Hall) Hle HQ. unfold partition_with_equals_on_left. apply wp_bind, wp_at; [lia|]. intros pivot Hp.
  apply wp_bind, wp_get. cbn zeta. set (right := fun x => c pivot x). rewrite (le_at _ _ _ pivot b) in Hle by done.
  assert (all_in begin end_ (fun x => c x pivot = false) v) as Hleast.
  { intros k x Hk Hx. eapply less_negtrans; [by eapply Hall|done]. }
  apply wp_bind, wp_dec; [lia|]. apply wp_bind, wp_at; [lia|]. intros x Hx.
  assert (forall f, begin < f <= end_ -> (f < end_ -> sat v right f = true) -> (forall k, begin < k < f -> sat v right k = false) ->
    wp False (last ← (if f <? end_ then down (S (length v)) (fun x => negb (right x)) end_ else mret end_);
              first ← exchange (S (length v)) right f last; place_pivot begin first pivot;; mret first) Q v) as Hgo.
  { intros f Hf Hsf Hbf. assert (forall last, split_at right begin end_ f last v ->
      wp False (first ← exchange (S (length v)) right f last; place_pivot begin first pivot;; mret first) Q v) as Hgo.
    { intros l Hs. apply (wp_settle _ _ _ end_ _ _ _ _ (fun first _ => mret first)); [lia|done..|].
      intros i w Hw Hi Hpi HL HR. pose proof (within_length _ _ _ _ Hw).
      apply wp_ret, (least_left begin end_ i pivot w); try done; [lia|by eapply within_all|]. intros; by apply HQ. }
    destruct (Nat.ltb_spec f end_) as [Hlt|Hge]; apply wp_bind.
    - apply (wp_down _ right _ begin); try lia; [rewrite (sat_lookup _ _ _ pivot) by done; apply less_irrefl|].
      intros l Hl Hs Hk. apply Hgo. specialize (Hsf Hlt). assert (l <> f) by congruence.
      split; [lia|done..|intros; split_and!; [lia|done..]|intros; apply Hk; lia].
    - apply wp_ret, Hgo. split; [lia|done|lia..]. }
  destruct (right x) eqn:Hr; apply wp_bind.
  - apply (wp_up _ right _ (end_ - 1)); try lia; [by rewrite (sat_lookup _ _ _ x)|].
    intros f Hf Hsf Hbf. apply Hgo; [lia|done..].
  - apply (wp_up_to _ right); try lia. intros f Hf Hsf Hbf. apply Hgo; [done| |done]. intros ?. by destruct Hsf as [[??]|?]; [|lia].
Qed.

End partition.
