(* ===== verification/CxxHeap.v ===== *)
(** The heap sort of [CxxSort]: sifting keeps the order of a heap, and taking
    the roots of heaps sorts. *)

From Stdlib Require Import ZArith Lia.
From stdpp Require Import base numbers list sets.
From S2P Require Import Prelude CxxSort CxxOrder CxxInsertion.

Open Scope nat_scope.

(** [i] is a child of [p]. *)
Definition kid (p i : nat) : Prop := i = 2 * p + 1 \/ i = 2 * p + 2.

Lemma kid_parent i : 0 < i -> kid ((i - 1) / 2) i.
Proof. intros Hi. pose proof (Nat.div_mod_eq (i - 1) 2). pose proof (Nat.mod_upper_bound (i - 1) 2). unfold kid. lia. Qed.

(** The last node with a child. *)
Lemma last_parent n p : 2 <= n -> (n - 2) / 2 < p <-> n <= 2 * p + 1.
Proof. intros Hn. pose proof (Nat.div_mod_eq (n - 2) 2). pose proof (Nat.mod_upper_bound (n - 2) 2). lia. Qed.

Lemma tr_add d i j k : tr (d + i) (d + j) (d + k) = d + tr i j k.
Proof. unfold tr. repeat case_decide; lia. Qed.

Section heap.
Context {T : Type} (c : T -> T -> bool) `{!StrictWeak c}.
Context (first : nat).
Implicit Types (v w : list T).

(** Node [i] is not after node [j]. *)
Definition under w (i j : nat) : Prop := le_ c w (first + i) (first + j).

Lemma under_exch w i j a b : first + i < length w -> first + j < length w ->
  under (exch (first + i) (first + j) w) a b <-> under w (tr i j a) (tr i j b).
Proof. intros Hi Hj. unfold under, le_. by rewrite lt_exch, !tr_add. Qed.

Lemma under_trans w i j k : first + j < length w -> under w i j -> under w j k -> under w i k.
Proof. intros Hj. by apply le_trans. Qed.

(** The nodes of [n] from [s] on are not before their children. *)
Definition heap_from (s n : nat) w : Prop := forall p i, kid p i -> s <= p -> i < n -> under w i p.

Lemma heap_root n w i : heap_from 0 n w -> first + n <= length w -> i < n -> under w i 0.
Proof.
  intros Hh Hlen. induction (lt_wf i) as [i _ IH]. intros Hi. destruct (decide (i = 0)) as [->|]; [apply le_refl; done|].
  pose proof (kid_parent i ltac:(lia)) as Hk. assert ((i - 1) / 2 < i) by (unfold kid in Hk; lia).
  apply (under_trans _ _ ((i - 1) / 2)); [lia|apply Hh; [done|lia..]|apply IH; lia].
Qed.

(** *** Downwards *)

(** As a heap from [s] on, but for what is at [h]; what is below it goes with
    what is above it. *)
Definition holed (s n h : nat) w : Prop :=
  (forall p i, kid p i -> s <= p -> i < n -> p <> h -> i <> h -> under w i p) /\
  (forall q i, kid q h -> kid h i -> s <= q -> i < n -> under w i q).

(** [k] is the greatest of the children of [p]. *)
Definition greatest_kid (n p k : nat) w : Prop := kid p k /\ k < n /\ forall i, kid p i -> i < n -> under w i k.

Lemma holed_exch s n h k w :
  holed s n h w -> greatest_kid n h k w -> first + n <= length w -> holed s n k (exch (first + h) (first + k) w).
Proof.
  intros [Hp Hg] (Hk & Hkn & Hmax) Hlen. assert (h < k) as Hhk by (unfold kid in Hk; lia).
  split.
  - intros p i Hpi Hs Hi Hpk Hik. rewrite under_exch by lia. destruct (decide (p = h)) as [->|].
    + assert (h <> i) by (unfold kid in Hpi; lia). tr_simpl. by apply Hmax.
    + destruct (decide (i = h)) as [->|]; [tr_simpl; by apply Hg|]. tr_simpl. by apply Hp.
  - intros q i Hqk Hki Hs Hi. replace q with h in * by (unfold kid in *; lia). assert (k < i) by (unfold kid in Hki; lia).
    rewrite under_exch by lia. tr_simpl. by apply Hp; [|lia..].
Qed.

Lemma wp_pick_child n p v (Q : nat -> list T -> Prop) :
  2 * p + 1 < n -> first + n <= length v ->
  (forall k, greatest_kid n p k v -> Q k v) -> wp False (pick_child c first n (2 * p + 1)) Q v.
Proof.
  intros Hp Hlen HQ. unfold pick_child. destruct (Nat.ltb_spec (2 * p + 1 + 1) n) as [Hlt|Hge].
  - apply wp_bind, wp_less; [lia..|]. apply wp_ret, HQ. destruct (lt_ c v _ _) eqn:Hl.
    + split_and!; [right; lia|lia|]. intros i [-> | ->] Hi; unfold under.
      * apply lt_le; [done|]. by replace (first + (2 * p + 1 + 1)) with (first + (2 * p + 1) + 1) by lia.
      * replace (2 * p + 2) with (2 * p + 1 + 1) by lia. by apply le_refl.
    + split_and!; [left; lia|lia|]. intros i [-> | ->] Hi; unfold under; [by apply le_refl|].
      unfold le_. by replace (first + (2 * p + 2)) with (first + (2 * p + 1) + 1) by lia.
  - apply wp_ret, HQ. split_and!; [left; lia|lia|]. intros i [-> | ->] Hi; [|lia]. by apply le_refl.
Qed.

(** The children are read from the slice, whose hole is elsewhere. *)
Lemma greatest_kid_hole n p k t v : greatest_kid n p k v -> greatest_kid n p k (<[first + p := t]> v).
Proof.
  intros (Hk & Hn & Hmax). split_and!; [done..|]. intros i Hi Hin. unfold under, le_.
  rewrite (lt_same c _ v); [by apply Hmax|..]; apply list_lookup_insert_ne; unfold kid in *; lia.
Qed.

Lemma holed_heap s n h w :
  holed s n h w -> (forall q, kid q h -> s <= q -> h < n -> under w h q) -> (forall i, kid h i -> s <= h -> i < n -> under w i h) -> heap_from s n w.
Proof.
  intros [Hp _] Hup Hdown p i Hk Hs Hi. destruct (decide (p = h)) as [->|]; [by apply Hdown|].
  destruct (decide (i = h)) as [->|]; [by apply Hup|by apply Hp].
Qed.

Lemma hole_under v t x h k : v !! (first + k) = Some x -> first + h < length v -> h <> k ->
  (lt_ c (<[first + h := t]> v) (first + k) (first + h) = c x t).
Proof. intros Hx Hh Hk. unfold lt_. by rewrite list_lookup_insert_eq, list_lookup_insert_ne, Hx by lia. Qed.

Lemma wp_sift_down_loop fuel s n h k top v w (Q : nat -> list T -> Prop) :
  n - k <= fuel -> w = <[first + h := top]> v -> 2 <= n -> first + n <= length v ->
  holed s n h w -> (forall q, kid q h -> s <= q -> under w h q) -> greatest_kid n h k w -> under w h k ->
  (forall j v', j < length v' -> within first (first + n) w (<[j := top]> v') -> heap_from s n (<[j := top]> v') -> Q j v') ->
  wp False (sift_down_loop c fuel first n top (first + h) k) Q v.
Proof.
  revert v h k w. induction fuel as [|fuel IH]; intros v h k w Hfuel Hw Hn Hlen Hho Hup Hgk Hhk HQ.
  { destruct Hgk as (_ & Hk & _). lia. }
  destruct (Hgk) as (Hk & Hkn & _). assert (h < k) as Hlt by (unfold kid in Hk; lia). cbn [sift_down_loop].
  apply wp_bind, wp_at; [lia|]. intros x Hx. apply wp_bind, wp_set; [lia|]. cbn zeta.
  pose proof (hole_exch v top x (first + h) (first + k) Hx ltac:(lia) ltac:(lia)) as Hw'. rewrite <- Hw in Hw'.
  assert (length w = length v) as Hlw by (subst w; apply length_insert).
  apply holed_exch with (k := k) in Hho; [|done|lia]. 
  assert (within first (first + n) w (exch (first + h) (first + k) w)) as Hin by (apply within_exch; lia).
  assert (forall q, kid q k -> s <= q -> under (exch (first + h) (first + k) w) k q) as Hup'.
  { intros q Hq _. replace q with h by (unfold kid in *; lia). rewrite under_exch by lia. by tr_simpl. }
  rewrite <- Hw' in *. set (v1 := <[first + h := x]> v) in *. assert (length v1 = length v) by apply length_insert.
  assert (forall Hdown : forall i, kid k i -> s <= k -> i < n -> under (<[first + k := top]> v1) i k, Q (first + k) v1) as Hstop.
  { intros Hdown. apply HQ; [lia|done|]. eapply holed_heap; [done| |done]. intros q Hq Hs _. by apply Hup'. }
  destruct (Nat.ltb_spec ((n - 2) / 2) k) as [Hleaf|Hin2].
  { rewrite last_parent in Hleaf by done. apply wp_ret, Hstop. intros i Hi. unfold kid in Hi. lia. }
  assert (2 * k + 1 < n) by (apply Nat.nle_gt; rewrite <- last_parent by done; lia).
  apply wp_bind, wp_pick_child; [done|lia|].
  intros k' Hgk'. apply greatest_kid_hole with (t := top) in Hgk'. destruct (Hgk') as (Hk' & Hkn' & Hmax).
  assert (k < k') by (unfold kid in Hk'; lia). apply wp_bind, wp_at; [lia|]. intros y Hy.
  pose proof (hole_under v1 top y k k' Hy ltac:(lia) ltac:(lia)) as Hty. destruct (c y top) eqn:Hc.
  - apply wp_ret, Hstop. intros i Hi _ Hin'. apply (under_trans _ _ k'); [rewrite length_insert; lia|by apply Hmax|by apply lt_le].
  - apply (IH _ _ _ (<[first + k := top]> v1)); try done; try lia.
    intros j v' Hj Hin' Hheap. apply HQ; [done| |done]. by eapply within_trans.
Qed.

Lemma wp_sift_down s n v (Q : unit -> list T -> Prop) :
  first + n <= length v -> heap_from (S s) n v ->
  (forall w, within first (first + n) v w -> heap_from s n w -> Q tt w) -> wp False (sift_down c first n (first + s)) Q v.
Proof.
  intros Hlen Hh HQ. unfold sift_down. replace (first + s - first) with s by lia.
  assert (holed s n s v) as Hho.
  { split; [|intros q i Hq Hi Hs; unfold kid in Hq; lia]. intros p i Hk Hs Hi Hp _. apply Hh; [done|lia|done]. }
  assert (forall q, kid q s -> s <= q -> under v s q) as Hup by (unfold kid; lia).
  assert (forall Hd : forall i, kid s i -> s <= s -> i < n -> under v i s, Q tt v) as Hstop.
  { intros Hd. apply HQ; [apply within_refl|]. eapply holed_heap; [done| |done]. intros q Hq Hs _. by apply Hup. }
  destruct (Nat.ltb_spec n 2) as [Hn|Hn]; cbn [orb].
  { apply wp_ret, Hstop. intros i Hi. unfold kid in Hi. lia. }
  destruct (Nat.ltb_spec ((n - 2) / 2) s) as [Hleaf|Hin].
  { rewrite last_parent in Hleaf by done. apply wp_ret, Hstop. intros i Hi. unfold kid in Hi. lia. }
  assert (2 * s + 1 < n) by (apply Nat.nle_gt; rewrite <- last_parent by done; lia).
  apply wp_bind, wp_pick_child; [done..|]. intros k Hgk. destruct (Hgk) as (Hk & Hkn & Hmax). assert (s < k) by (unfold kid in Hk; lia).
  apply wp_bind, wp_less; [lia..|]. destruct (lt_ c v (first + k) (first + s)) eqn:Hlt.
  - apply wp_ret, Hstop. intros i Hi _ Hin'. apply (under_trans _ _ k); [lia|by apply Hmax|by apply lt_le].
  - apply wp_bind, wp_at; [lia|]. intros top Ht. apply wp_bind.
    apply (wp_sift_down_loop _ s _ _ _ _ _ v); try done; try lia; [by rewrite list_insert_id|].
    intros j v' Hj Hin' Hheap. apply wp_set; [done|]. by apply HQ.
Qed.

Lemma wp_make_heap n start v (Q : unit -> list T -> Prop) :
  first + n <= length v -> heap_from (S start) n v ->
  (forall w, within first (first + n) v w -> heap_from 0 n w -> Q tt w) -> wp False (make_heap c first n start) Q v.
Proof.
  revert v. induction start as [|start IH]; intros v Hlen Hh HQ; cbn [make_heap]; apply wp_bind, wp_sift_down; [done|done| |done|done|]; intros w Hw Hhw.
  - apply wp_ret. by apply HQ.
  - pose proof (within_length _ _ _ _ Hw). apply IH; [lia|done|]. intros u Hu Hhu. apply HQ; [by eapply within_trans|done].
Qed.

(** The hole goes down to a leaf. *)
Lemma wp_floyd_loop fuel n h top v w (Q : nat -> list T -> Prop) :
  n - h <= fuel -> w = <[first + h := top]> v -> 2 * h + 1 < n -> first + n <= length v -> holed 0 n h w ->
  (forall k v', k < n -> n <= 2 * k + 1 -> length v' = length v ->
     within first (first + n) w (<[first + k := top]> v') -> holed 0 n k (<[first + k := top]> v') -> Q (first + k) v') ->
  wp False (floyd_loop c fuel first n (first + h) h) Q v.
Proof.
  revert v h w. induction fuel as [|fuel IH]; intros v h w Hfuel Hw Hh Hlen Hho HQ; [lia|]. cbn [floyd_loop].
  apply wp_bind, wp_pick_child; [done..|]. intros k Hgk. apply greatest_kid_hole with (t := top) in Hgk. rewrite <- Hw in Hgk.
  destruct (Hgk) as (Hk & Hkn & _). assert (h < k) as Hlt by (unfold kid in Hk; lia).
  apply wp_bind, wp_at; [lia|]. intros x Hx. apply wp_bind, wp_set; [lia|]. cbn zeta.
  pose proof (hole_exch v top x (first + h) (first + k) Hx ltac:(lia) ltac:(lia)) as Hw'. rewrite <- Hw in Hw'.
  assert (length w = length v) as Hlw by (subst w; apply length_insert).
  apply holed_exch with (k := k) in Hho; [|done|lia].
  assert (within first (first + n) w (exch (first + h) (first + k) w)) as Hin by (apply within_exch; lia).
  rewrite <- Hw' in *. set (v1 := <[first + h := x]> v) in *. assert (length v1 = length v) as Hl1 by apply length_insert.
  destruct (Nat.ltb_spec ((n - 2) / 2) k) as [Hleaf|Hin2].
  - rewrite last_parent in Hleaf by lia. by apply wp_ret, HQ.
  - assert (2 * k + 1 < n) by (apply Nat.nle_gt; rewrite <- last_parent by lia; lia).
    apply (IH _ _ (<[first + k := top]> v1)); try done; try lia. intros k' v' Hk' Hleaf Hl' Hin' Hho'.
    apply HQ; [done..|lia| |done]. by eapply within_trans.
Qed.

(** *** Upwards *)

(** A heap but for what is at [h], which may be after what is above it. *)
Definition rising (n h : nat) w : Prop :=
  (forall p i, kid p i -> i < n -> i <> h -> under w i p) /\ (forall q i, kid q h -> kid h i -> i < n -> under w i q).

Lemma rising_exch n h q w :
  rising n h w -> kid q h -> h < n -> first + n <= length w -> under w q h -> rising n q (exch (first + h) (first + q) w).
Proof.
  intros [Hp Hg] Hq Hh Hlen Hle. assert (q < h) by (unfold kid in Hq; lia). split.
  - intros p i Hpi Hi Hiq. rewrite under_exch by lia. destruct (decide (p = q)) as [->|].
    + destruct (decide (i = h)) as [->|]; tr_simpl; [done|]. apply (under_trans _ _ q); [lia|by apply Hp|done].
    + destruct (decide (i = h)) as [->|]; [unfold kid in *; lia|].
      destruct (decide (p = h)) as [->|]; tr_simpl; [by apply Hg|by apply Hp].
  - intros r i Hr Hi Hin. assert (r < q) by (unfold kid in Hr; lia). assert (under w q r) by (apply Hp; [done|lia..]).
    rewrite under_exch by lia. destruct (decide (i = h)) as [->|]; tr_simpl; [done|].
    assert (i <> q) by (unfold kid in Hi; lia). tr_simpl. apply (under_trans _ _ q); [lia|by apply Hp|done].
Qed.

Lemma wp_sift_up_loop fuel n h q t v w (Q : nat -> list T -> Prop) :
  q < fuel -> w = <[first + h := t]> v -> kid q h -> h < n -> first + n <= length v -> rising n h w ->
  lt_ c w (first + q) (first + h) = true ->
  (forall j v', j < length v' -> within first (first + n) w (<[j := t]> v') -> heap_from 0 n (<[j := t]> v') -> Q j v') ->
  wp False (sift_up_loop c fuel first t (first + h) q) Q v.
Proof.
  revert v h q w. induction fuel as [|fuel IH]; intros v h q w Hfuel Hw Hk Hh Hlen Hr Hlt HQ; [lia|]. cbn [sift_up_loop].
  assert (q < h) by (unfold kid in Hk; lia).
  apply wp_bind, wp_at; [lia|]. intros x Hx. apply wp_bind, wp_set; [lia|]. cbn zeta.
  pose proof (hole_exch v t x (first + h) (first + q) Hx ltac:(lia) ltac:(lia)) as Hw'. rewrite <- Hw in Hw'.
  assert (length w = length v) as Hlw by (subst w; apply length_insert).
  apply rising_exch with (q := q) in Hr; [|done|done|lia|by apply lt_le].
  assert (within first (first + n) w (exch (first + h) (first + q) w)) as Hin by (apply within_exch; lia).
  rewrite <- Hw' in *. set (v1 := <[first + h := x]> v) in *. assert (length v1 = length v) as Hl1 by apply length_insert.
  assert (forall Hup : forall p, kid p q -> under (<[first + q := t]> v1) q p, Q (first + q) v1) as Hstop.
  { intros Hup. apply HQ; [lia|done|]. intros p i Hpi _ Hi. destruct (decide (i = q)) as [->|]; [by apply Hup|by apply (proj1 Hr)]. }
  destruct (Nat.eqb_spec q 0) as [->|Hq0]; [apply wp_ret, Hstop; unfold kid; lia|].
  pose proof (kid_parent q ltac:(lia)) as Hpq. set (p := (q - 1) / 2) in *. assert (p < q) by (unfold kid in Hpq; lia).
  apply wp_bind, wp_at; [lia|]. intros y Hy. pose proof (hole_under v1 t y q p Hy ltac:(lia) ltac:(lia)) as Hty.
  destruct (c y t) eqn:Hc; cbn [negb].
  - apply (IH _ _ _ (<[first + q := t]> v1)); try done; try lia.
    intros j v' Hj Hin' Hheap. apply HQ; [done| |done]. by eapply within_trans.
  - apply wp_ret, Hstop. intros p' Hp'. replace p' with p by (unfold kid in *; lia). done.
Qed.

Lemma wp_sift_up n h v (Q : unit -> list T -> Prop) :
  h < n -> first + n <= length v -> rising n h v ->
  (forall w, within first (first + n) v w -> heap_from 0 n w -> Q tt w) ->
  wp False (sift_up c first (S (first + h)) (S (first + h) - first)) Q v.
Proof.
  intros Hh Hlen Hr HQ. unfold sift_up. replace (S (first + h) - first) with (S h) by lia.
  assert (forall Hup : forall p, kid p h -> under v h p, Q tt v) as Hstop.
  { intros Hup. apply HQ; [apply within_refl|]. intros p i Hpi _ Hi. destruct (decide (i = h)) as [->|]; [by apply Hup|by apply (proj1 Hr)]. }
  destruct (Nat.ltb_spec 1 (S h)) as [Hlt|Hge]; [|apply wp_ret, Hstop; unfold kid; lia].
  replace (S h - 2) with (h - 1) by lia. pose proof (kid_parent h ltac:(lia)) as Hk. set (q := (h - 1) / 2) in *.
  assert (q < h) by (unfold kid in Hk; lia). apply wp_bind, wp_dec; [lia|]. replace (S (first + h) - 1) with (first + h) by lia.
  apply wp_bind, wp_less; [lia..|]. destruct (lt_ c v _ _) eqn:Hl.
  - apply wp_bind, wp_at; [lia|]. intros t Ht. apply wp_bind.
    apply (wp_sift_up_loop _ n _ _ _ _ v); try done; try lia; [by rewrite list_insert_id|].
    intros j v' Hj Hin Hheap. apply wp_set; [done|]. by apply HQ.
  - apply wp_ret, Hstop. intros p' Hp'. replace p' with q by (unfold kid in *; lia). done.
Qed.

(** *** The sort *)

(** The root goes to the end, and the rest is a heap again. *)
Lemma wp_pop {A} n v (go_on : nat -> M (list T) A) (Q : A -> list T -> Prop) :
  1 < n -> first + n <= length v -> heap_from 0 n v ->
  (forall top w, v !! first = Some top -> within first (first + n) v w -> w !! (first + n - 1) = Some top ->
     heap_from 0 (n - 1) w -> wp False (go_on (first + n - 1)) Q w) ->
  wp False (top ← at_ first; hole ← floyd_sift_down c first n; last_elem ← dec (first + n);
            (if hole =? last_elem then set_ hole top
             else x ← at_ last_elem; set_ hole x;; set_ last_elem top;; sift_up c first (S hole) (S hole - first));;
            go_on last_elem) Q v.
Proof.
  intros Hn Hlen Hh HQ. apply wp_bind, wp_at; [lia|]. intros top Ht. apply wp_bind. unfold floyd_sift_down.
  replace first with (first + 0) at 2 by lia. apply (wp_floyd_loop _ _ _ top _ v); try lia.
  { rewrite Nat.add_0_r. by rewrite list_insert_id. }
  { split; [|unfold kid; lia]. intros p i Hk _ Hi _ _. apply Hh; [done|lia|done]. }
  intros k v' Hk Hleaf Hl' Hin [Hp _]. apply wp_bind, wp_dec; [lia|].
  apply wp_bind. destruct (Nat.eqb_spec (first + k) (first + n - 1)) as [He|Hne].
  - apply wp_set; [lia|]. apply (HQ top); [done..| |].
    + rewrite <- He. apply list_lookup_insert_eq. lia.
    + intros p i Hpi _ Hi. apply Hp; [done|unfold kid in Hpi; lia..].
  - apply wp_bind, wp_at; [lia|]. intros x Hx. apply wp_bind, wp_set; [lia|]. apply wp_bind, wp_set; [rewrite length_insert; lia|].
    pose proof (hole_exch v' top x (first + k) (first + n - 1) Hx ltac:(lia) ltac:(lia)) as Hw'.
    set (u := <[first + n - 1 := top]> (<[first + k := x]> v')) in *.
    assert (length u = length v) by (unfold u; rewrite !length_insert; lia).
    apply (wp_sift_up (n - 1)); [lia..| |].
    + split; [|intros q i _ Hi; unfold kid in Hi; lia]. intros p i Hpi Hi Hik. rewrite Hw'.
      replace (first + n - 1) with (first + (n - 1)) by lia. assert (p < n - 1 /\ p <> k) as [??] by (unfold kid in Hpi; lia).
      rewrite under_exch by (rewrite length_insert; lia). tr_simpl. apply Hp; [done|lia..].
    + intros w Hw Hheap. apply (HQ top); [done| | |done].
      * eapply within_trans; [done|]. eapply within_trans; [|eapply within_weaken; [done|lia..]]. rewrite Hw'.
        apply within_exch; rewrite ?length_insert; lia.
      * destruct Hw as [_ O]. rewrite O by lia. apply list_lookup_insert_eq. rewrite length_insert. lia.
Qed.

Lemma sorted_to_last a b w : sorted_in c a b w -> (forall i, a <= i < b -> le_ c w i b) -> sorted_in c a (S b) w.
Proof. intros Hs Hl i j Hi Hij Hj. destruct (decide (j = b)) as [->|]; [apply Hl; lia|apply Hs; lia]. Qed.

Lemma wp_sort_heap n v (Q : unit -> list T -> Prop) :
  first + n <= length v -> heap_from 0 n v ->
  (forall w, within first (first + n) v w -> sorted_in c first (first + n) w -> Q tt w) ->
  wp False (sort_heap c n first (first + n)) Q v.
Proof.
  revert v Q. induction n as [|n IH]; intros v Q Hlen Hh HQ.
  { apply wp_ret, HQ; [apply within_refl|]. intros i j. lia. }
  destruct n as [|n]; [apply wp_ret, HQ; [apply within_refl|]; intros i j; lia|]. set (m := S n) in *.
  apply (wp_pop (S m) v (sort_heap c m first)); [lia|done..|]. intros top w Ht Hw Hl Hhw.
  assert (all_in first (first + S m) (fun x => c top x = false) v) as Hall.
  { intros k x Hk Hx. pose proof (heap_root _ _ (k - first) Hh Hlen ltac:(lia)) as Hu. unfold under, le_, lt_ in Hu.
    replace (first + (k - first)) with k in Hu by lia. by rewrite Nat.add_0_r, Ht, Hx in Hu. }
  pose proof (within_length _ _ _ _ Hw) as Hlw. apply (within_all _ _ _ _ _ Hw) in Hall.
  replace (first + S m - 1) with (first + m) in * by lia. replace (S m - 1) with m in * by lia.
  apply IH; [lia|done|]. intros u Hu Hsu. apply (within_weaken _ _ first (first + S m)) in Hu as Hu'; [|lia..]. apply HQ; [by eapply within_trans|].
  replace (first + S m) with (S (first + m)) in * by lia. apply sorted_to_last; [done|]. intros i Hi. unfold le_, lt_.
  destruct Hu as [_ O]. rewrite O, Hl by lia. destruct (u !! i) as [x|] eqn:Hx; [|done].
  eapply (within_all _ _ _ _ _ Hu' Hall i); [lia|done].
Qed.

Lemma wp_heap_sort n v (Q : unit -> list T -> Prop) :
  first + n <= length v -> (forall w, within first (first + n) v w -> sorted_in c first (first + n) w -> Q tt w) ->
  wp False (heap_sort c first (first + n)) Q v.
Proof.
  intros Hlen HQ. unfold heap_sort. replace (first + n - first) with n by lia. apply wp_bind.
  destruct (Nat.ltb_spec 1 n) as [Hlt|Hge].
  - apply wp_make_heap; [done| |].
    { intros p i Hk Hs Hi. assert ((n - 2) / 2 < p) as Hp by lia. rewrite last_parent in Hp by lia. unfold kid in Hk. lia. }
    intros w Hw Hh. pose proof (within_length _ _ _ _ Hw). apply wp_sort_heap; [lia|done|]. intros u Hu Hsu.
    apply HQ; [by eapply within_trans|done].
  - apply wp_ret, wp_sort_heap; [done| |done]. intros p i Hk _ Hi. unfold kid in Hk. lia.
Qed.

End heap.
