(* ===== verification/CxxSorted.v ===== *)
(** [CxxSort.sort_by] sorts: for a strict weak order it ends without a panic,
    and leaves a sorted permutation of the slice. *)

From Stdlib Require Import ZArith Lia.
From stdpp Require Import base numbers list sets.
From S2P Require Import Prelude CxxSort CxxOrder CxxInsertion CxxPartition.
From S2P Require Import CxxHeap.

Open Scope nat_scope.

Section introsort.
Context {T : Type} (c : T -> T -> bool) `{!StrictWeak c}.
Implicit Types (v w : list T).

(** *** The pivot *)

Lemma wp_choose_pivot first last v (Q : unit -> list T -> Prop) :
  first + LIMIT <= last -> last <= length v ->
  (forall m w, within first last v w -> first < m < last -> le_ c w first m -> Q tt w) ->
  wp False (choose_pivot c first last) Q v.
Proof.
  unfold LIMIT. intros Hl Hlen HQ. unfold choose_pivot. set (half := (last - first) / 2).
  pose proof (Nat.div_mod_eq (last - first) 2) as Hd. pose proof (Nat.mod_upper_bound (last - first) 2). fold half in Hd.
  destruct (Nat.ltb_spec NINTHER_THRESHOLD (last - first)) as [Hn|_].
  - unfold NINTHER_THRESHOLD in Hn. apply wp_bind, (wp_sort3 c first last); [places|nodup|lia|]. intros w1 [Hw1 _] _ _.
    pose proof (within_length _ _ _ _ Hw1). apply wp_bind, (wp_sort3 c first last); [places|nodup|lia|]. intros w2 [Hw2 _] _ _.
    pose proof (within_length _ _ _ _ Hw2). apply wp_bind, (wp_sort3 c first last); [places|nodup|lia|]. intros w3 [Hw3 _] _ _.
    pose proof (within_length _ _ _ _ Hw3). apply wp_bind, (wp_sort3 c first last); [places|nodup|lia|]. intros w4 [Hw4 _] _ O.
    pose proof (within_length _ _ _ _ Hw4). apply wp_swap; [lia..|]. apply (HQ (first + (half + 1))); [|lia|].
    + repeat (eapply within_trans; [done|]). apply within_exch; lia.
    + unfold le_. rewrite lt_exch by lia. by tr_simpl.
  - apply (wp_sort3 c first last); [places|nodup|lia|]. intros w [Hw _] _ O. by apply (HQ (last - 1)); [|lia|].
Qed.

(** *** The two sides of a pivot *)

Lemma parted_iff a b i v p : b <= length v -> v !! i = Some p ->
  parted c a b i v <-> a <= i < b /\ all_in a i (fun x => c p x = false) v /\ all_in (S i) b (fun x => c x p = false) v.
Proof.
  intros Hb Hp. unfold parted, all_in, le_, lt_. rewrite Hp. split; intros (H1 & H2 & H3); (split_and!; [lia..| |]).
  - intros k x Hk Hx. specialize (H2 k Hk). by rewrite Hx in H2.
  - intros k x Hk Hx. specialize (H3 k ltac:(lia)). by rewrite Hx in H3.
  - intros k Hk. destruct (v !! k) eqn:Hx; [|done]. by eapply H2.
  - intros k Hk. destruct (v !! k) eqn:Hx; [|done]. eapply H3; [|done]. lia.
Qed.

Lemma parted_floor a b i v : b <= length v -> parted c a b i v -> floored c (S i) b v.
Proof.
  intros Hb Hp. assert (a <= i < b) by apply Hp. destruct (lookup_lt_is_Some_2 v i ltac:(lia)) as [p Hi].
  rewrite parted_iff in Hp by done. split; [lia|]. exists p. replace (S i - 1) with i by lia. by destruct Hp as (_ & _ & ?).
Qed.

(** Work on one side keeps the other, and the pivot between them. *)
Record kept_by (a b i : nat) v w : Prop := {
  kept_within : within a b v w;
  kept_parted : parted c a b i w;
}.

Lemma kept_left a b i v w u : b <= length v -> kept_by a b i v w -> within a i w u ->
  kept_by a b i v u /\ (sorted_in c (S i) b w -> sorted_in c (S i) b u).
Proof.
  intros Hb [Hw Hp] Hu. assert (a <= i < b) by apply Hp. pose proof (within_length _ _ _ _ Hw). pose proof (within_length _ _ _ _ Hu).
  destruct (lookup_lt_is_Some_2 w i ltac:(lia)) as [p Hi]. split; [split|].
  - eapply within_trans; [done|]. eapply within_weaken; [done|lia..].
  - rewrite parted_iff in Hp by (done || lia). rewrite (parted_iff _ _ _ _ p); [|lia|by rewrite (proj2 Hu) by lia].
    destruct Hp as (? & H2 & H3). split_and!; [lia..|by eapply within_all|]. eapply within_outside; [done|lia|done].
  - apply sorted_same. intros k Hk. symmetry. apply Hu. lia.
Qed.

Lemma kept_right a b i v w u : b <= length v -> kept_by a b i v w -> within (S i) b w u ->
  kept_by a b i v u /\ (sorted_in c a i w -> sorted_in c a i u).
Proof.
  intros Hb [Hw Hp] Hu. assert (a <= i < b) by apply Hp. pose proof (within_length _ _ _ _ Hw). pose proof (within_length _ _ _ _ Hu).
  destruct (lookup_lt_is_Some_2 w i ltac:(lia)) as [p Hi]. split; [split|].
  - eapply within_trans; [done|]. eapply within_weaken; [done|lia..].
  - rewrite parted_iff in Hp by (done || lia). rewrite (parted_iff _ _ _ _ p); [|lia|by rewrite (proj2 Hu) by lia].
    destruct Hp as (? & H2 & H3). split_and!; [lia..| |by eapply within_all]. eapply within_outside; [done|lia|done].
  - apply sorted_same. intros k Hk. symmetry. apply Hu. lia.
Qed.

Lemma parted_sorted a b i v :
  b <= length v -> parted c a b i v -> sorted_in c a i v -> sorted_in c (S i) b v -> sorted_in c a b v.
Proof.
  intros Hlen (Hi & HL & HR) Hl Hr k l Hk Hkl Hlb.
  destruct (decide (l < i)); [apply Hl; lia|]. destruct (decide (l = i)) as [->|]; [apply HL; lia|].
  destruct (decide (i < k)); [apply Hr; lia|]. destruct (decide (k = i)) as [->|]; [apply HR; lia|].
  apply (le_trans c _ _ i); [lia|apply HL; lia|apply HR; lia].
Qed.

(** *** The recursion *)

(** A part with nothing in front of it, or nothing greater. *)
Definition ready (leftmost : bool) (first last : nat) v : Prop := leftmost = true \/ floored c first last v.

Definition sorts (sort : M (list T) unit) (leftmost : bool) (first last : nat) : Prop := forall v (Q : unit -> list T -> Prop),
  first <= last <= length v -> ready leftmost first last v ->
  (forall w, within first last v w -> sorted_in c first last w -> Q tt w) -> wp False sort Q v.

Lemma ready_left leftmost first last i v w :
  last <= length v -> ready leftmost first last v -> kept_by first last i v w -> ready leftmost first i w.
Proof.
  intros Hl [->|Hf] [Hw Hp]; [by left|right]. assert (first <= i < last) by apply Hp.
  eapply floored_sub; [by eapply floored_within|done|lia].
Qed.

Lemma ready_right leftmost first last i v w :
  last <= length v -> kept_by first last i v w -> ready leftmost (S i) last w.
Proof.
  intros Hl [Hw Hp]. right. eapply parted_floor; [|done]. by rewrite (within_length _ _ _ _ Hw).
Qed.

(** One side sorted, the other being so; then both. *)
Section sides.
Context (first last i : nat) (leftmost : bool) (v : list T) (Q : unit -> list T -> Prop).
Context (Hlen : last <= length v) (Hready : ready leftmost first last v).
Context (HQ : forall w, within first last v w -> sorted_in c first last w -> Q tt w).

Lemma sides_done w : kept_by first last i v w -> sorted_in c first i w -> sorted_in c (S i) last w -> Q tt w.
Proof.
  intros [Hw Hp] Hl Hr. apply HQ; [done|]. eapply parted_sorted; [|done..]. by rewrite (within_length _ _ _ _ Hw).
Qed.

Lemma wp_left_side w sort : sorts sort leftmost first i -> kept_by first last i v w -> sorted_in c (S i) last w -> wp False sort Q w.
Proof.
  intros Hs Hk Hr. pose proof Hk as [Hw Hp]. assert (first <= i < last) by apply Hp. pose proof (within_length _ _ _ _ Hw).
  apply Hs; [lia|by eapply ready_left|]. intros u Hu Hsu. destruct (kept_left _ _ _ _ _ _ Hlen Hk Hu) as [Hk' Hr'].
  apply sides_done; [done..|]. by apply Hr'.
Qed.

Lemma wp_right_side w l sort : sorts sort l (S i) last -> kept_by first last i v w -> sorted_in c first i w -> wp False sort Q w.
Proof.
  intros Hs Hk Hl. pose proof Hk as [Hw Hp]. assert (first <= i < last) by apply Hp. pose proof (within_length _ _ _ _ Hw).
  apply Hs; [lia|by eapply ready_right|]. intros u Hu Hsu. destruct (kept_right _ _ _ _ _ _ Hlen Hk Hu) as [Hk' Hl'].
  apply sides_done; [done| |done]. by apply Hl'.
Qed.

Lemma wp_both_sides w l sort_left sort_right :
  sorts sort_left leftmost first i -> sorts sort_right l (S i) last -> kept_by first last i v w ->
  wp False (sort_left;; sort_right) Q w.
Proof.
  intros Hs1 Hs2 Hk. pose proof Hk as [Hw Hp]. assert (first <= i < last) by apply Hp. pose proof (within_length _ _ _ _ Hw).
  apply wp_bind, Hs1; [lia|by eapply ready_left|]. intros u Hu Hsu. destruct (kept_left _ _ _ _ _ _ Hlen Hk Hu) as [Hk' _].
  by eapply wp_right_side.
Qed.
End sides.

Lemma wp_short_insertion leftmost first last :
  sorts (if leftmost : bool then insertion_sort c first last else insertion_sort_unguarded c first last) leftmost first last.
Proof.
  intros v Q Hl Hready HQ. destruct leftmost; [by apply wp_insertion_sort|]. destruct Hready as [?|Hf]; [done|].
  by apply wp_insertion_sort_unguarded.
Qed.

Section turn.
Context (sort : nat -> nat -> bool -> M (list T) unit) (Hsort : forall first last leftmost, sorts (sort first last leftmost) leftmost first last).

Lemma wp_sides first last leftmost i already_partitioned v w (Q : unit -> list T -> Prop) :
  last <= length v -> ready leftmost first last v -> kept_by first last i v w ->
  (forall u, within first last v u -> sorted_in c first last u -> Q tt u) ->
  wp False (sides c sort first last leftmost i already_partitioned) Q w.
Proof.
  intros Hl Hready Hk HQ. unfold sides. destruct already_partitioned; [|by eapply wp_both_sides].
  assert (first <= i < last) by apply Hk. pose proof (within_length _ _ _ _ (kept_within _ _ _ _ _ Hk)).
  apply wp_bind, wp_insertion_sort_incomplete; [done|lia|]. intros fs w1 Hw1 Hfs.
  destruct (kept_left _ _ _ _ _ _ Hl Hk Hw1) as [Hk1 _]. pose proof (within_length _ _ _ _ Hw1).
  apply wp_bind, wp_insertion_sort_incomplete; [done|lia|]. intros done_ w2 Hw2 Hdone.
  destruct (kept_right _ _ _ _ _ _ Hl Hk1 Hw2) as [Hk2 Hl2].
  destruct done_, fs; [|by eapply wp_left_side; eauto|by eapply wp_right_side; eauto|by eapply wp_both_sides].
  apply wp_ret. eapply sides_done; eauto.
Qed.

(** The elements of the part up to the pivot are sorted; the rest is. *)
Lemma wp_rest first i last leftmost v w (Q : unit -> list T -> Prop) :
  last <= length v -> within first last v w -> first < i <= last -> sorted_in c first i w -> floored c i last w ->
  (forall k, first <= k < i -> le_ c w k (i - 1)) ->
  (forall u, within first last v u -> sorted_in c first last u -> Q tt u) ->
  wp False (sort i last leftmost) Q w.
Proof.
  intros Hl Hw Hi Hs Hf Hle HQ. pose proof (within_length _ _ _ _ Hw).
  apply Hsort; [lia|by right|]. intros u Hu Hsu. pose proof (within_length _ _ _ _ Hu). pose proof (floored_within _ _ _ _ _ Hf Hu) as Hfu.
  apply HQ; [eapply within_trans; [done|]; eapply within_weaken; [done|lia..]|].
  assert (forall k, first <= k < i -> u !! k = w !! k) as Hsame by (intros k Hk; apply Hu; lia).
  apply (parted_sorted _ _ (i - 1)); [lia|split_and!|..].
  - lia.
  - lia.
  - intros k Hk. unfold le_. rewrite (lt_same c u w) by (apply Hsame; lia). apply Hle. lia.
  - intros k Hk. apply floored_le with (last := last); [done|lia].
  - apply (sorted_same c first (i - 1) w); [intros k Hk; symmetry; apply Hsame; lia|]. intros a b Ha Hab Hb. apply Hs; lia.
  - by replace (S (i - 1)) with i by lia.
Qed.

Lemma wp_turn first last leftmost : first + LIMIT <= last -> sorts (turn c sort first last leftmost) leftmost first last.
Proof.
  intros Hge v Q Hl Hready HQ. unfold turn. apply wp_bind, wp_choose_pivot; [done|lia|]. intros m w Hw Hm Hle.
  unfold LIMIT in Hge. pose proof (within_length _ _ _ _ Hw) as Hlw.
  assert (ready leftmost first last w) as Hready' by (destruct Hready as [->|?]; [by left|right; by eapply floored_within]).
  assert (forall u, within first last w u -> sorted_in c first last u -> Q tt u) as HQ'.
  { intros u Hu. apply HQ. by eapply within_trans. }
  assert (wp False ('(i, already_partitioned) ← partition_with_equals_on_right c first last;
                    sides c sort first last leftmost i already_partitioned) Q w) as Hright.
  { apply wp_bind, (wp_partition_right c _ _ m); [done|lia|done|]. intros i r u Hu Hp.
    apply (wp_sides _ _ _ _ _ w); [lia|done|by split|done]. }
  destruct leftmost; [done|]. destruct Hready' as [?|Hf]; [done|]. assert (1 <= first) by apply Hf.
  apply wp_bind, wp_bind, wp_dec; [lia|]. apply wp_bind, wp_less; [lia..|]. apply wp_ret.
  destruct (lt_ c w (first - 1) first) eqn:Hlt; cbn [negb]; [done|].
  apply wp_bind, wp_partition_left; [done|lia|lia|done|done|]. intros i u Hu Hi Hsu Hfu Hleu.
  by apply (wp_rest first _ _ _ w); [lia|..].
Qed.
End turn.

Lemma wp_introsort depth first last leftmost : sorts (introsort c depth first last leftmost) leftmost first last.
Proof.
  revert first last leftmost. induction depth as [|depth IH]; intros first last leftmost v Q Hl Hready HQ; cbn [introsort].
  all: destruct (sort_short c first last) as [sort|] eqn:Hs; [by eapply wp_sort_short|].
  all: destruct (Nat.ltb_spec (last - first) LIMIT) as [Hlt|Hge]; [by apply wp_short_insertion|].
  - replace last with (first + (last - first)) in * by lia. apply wp_heap_sort; [done|lia|done].
  - apply wp_turn; [exact IH|lia|done..].
Qed.

End introsort.

Lemma wp_sort_by {T} (c : T -> T -> bool) (v : list T) :
  StrictWeak c -> wp False (sort_by c) (fun _ w => w ≡ₚ v /\ sorted_in c 0 (length v) w) v.
Proof.
  intros Hc. unfold sort_by. apply wp_bind, wp_get. destruct (Nat.eqb_spec (length v) 0) as [He|Hne].
  - apply wp_ret. split; [done|]. intros i j. lia.
  - apply wp_introsort; [done|lia|by left|]. intros w [Hp _] Hs. by split.
Qed.

(** C40: [sort_by] on any slice ends without a panic, whatever the depth of its
    recursion, and leaves a permutation of the slice in which no element is
    before one that it follows; the comparison is a strict weak order. *)
Theorem sort_by_sorts {T} (c : T -> T -> bool) (v : list T) :
  StrictWeak c ->
  exists w, sort_by c v = Done (tt, w) /\ w ≡ₚ v /\
    forall i j x y, i < j -> w !! i = Some x -> w !! j = Some y -> c y x = false.
Proof.
  intros Hc. pose proof (wp_sort_by c v Hc) as Hwp.
  unfold wpx in Hwp. destruct (sort_by c v) as [[[] w]| |]; [|done..]. exists w. destruct Hwp as [Hp Hs]. split_and!; [done..|].
  intros i j x y Hij Hx Hy. apply lookup_lt_Some in Hy as Hj. rewrite (Permutation_length Hp) in Hj.
  specialize (Hs i j ltac:(lia) Hij Hj). by rewrite (le_at c _ _ _ x y) in Hs.
Qed.

(** Prefixes as the serializer sorts them, the longer ones first. *)
Definition longer (x y : list nat) : bool := length y <? length x.

#[export] Instance longer_weak : StrictWeak longer.
Proof.
  split; unfold longer; intros *.
  - rewrite Nat.ltb_lt, Nat.ltb_ge. lia.
  - rewrite !Nat.ltb_ge. lia.
Qed.

Definition some_prefixes : list (list nat) := (fun n => repeat n (n * 7 mod 5)) <$> seq 0 40.

Lemma sort_by_sorts_witness :
  StrictWeak longer /\
  exists w, sort_by longer some_prefixes = Done (tt, w) /\ w ≡ₚ some_prefixes /\
    forall i j x y, i < j -> w !! i = Some x -> w !! j = Some y -> longer y x = false.
Proof. split; [exact longer_weak|]. exact (sort_by_sorts longer some_prefixes longer_weak). Defined.
