(* ===== verification/Info.v ===== *)
(** The map from property names to contexts and types
    ([src/crates/aim-android-init/src/props/info.rs]): parsing of the contexts
    files, the trie of entries, its serialization in an arena and the reader of
    the serialized bytes. *)

From Stdlib Require Import ZArith Lia.
From Stdlib Require Import Strings.String Strings.Byte.
From stdpp Require Import base numbers list.
From S2P Require Import Prelude Text Bytes Libbase CxxSort.

Open Scope Z_scope.

Definition DEFAULT_CONTEXT : str := lit "u:object_r:default_prop:s0".
Definition DEFAULT_TYPE : str := lit "string".

Definition dot : byte := x2e.

(** ** The contexts files *)

Record PropertyInfoEntry := mkPropertyInfoEntry {
  pe_name : str;
  pe_context : str;
  pe_type : str;
  pe_exact_match : bool;
}.

(** The errors' messages. *)
Inductive InfoError :=
| NoPropertyEntry (line : str)
| NoContextEntry (line : str)
| BadMatchOperation (operation : str)
| BadType (type_ : str)
| UnableToAdd (name : str)
| DuplicateExactMatch (name : str)
| DuplicatePrefixMatch (name : str)
| SmallerThanHeader
| NewerMinimumVersion
| SizeMismatch.

(** The token and the rest. *)
Definition next_token (rest : str) : str * str :=
  let token := take_while (fun b => negb (is_c_space b)) rest in
  (token, drop_while is_c_space (drop (length token) rest)).

Fixpoint join (sep : byte) (pieces : list str) : str :=
  match pieces with
  | [] => []
  | [piece] => piece
  | piece :: pieces => piece ++ sep :: join sep pieces
  end.

Definition is_type_valid (type_strings : list str) : bool :=
  match type_strings with
  | [] => false
  | first :: _ =>
      if bool_decide (first = lit "enum") then (1 <? length type_strings)%nat
      else (length type_strings =? 1)%nat &&
           existsb (fun t => bool_decide (first = t)) [lit "string"; lit "bool"; lit "int"; lit "uint"; lit "double"; lit "size"]
  end.

(** The loop over the types; every token takes a byte of [rest] at least. *)
Fixpoint type_tokens (fuel : nat) (rest : str) : list str :=
  match fuel with
  | O => []
  | S fuel =>
      let '(token, rest) := next_token rest in
      match token with [] => [] | _ => token :: type_tokens fuel rest end
  end.

Definition parse_property_info_line (line : str) (require_prefix_or_exact : bool) : result PropertyInfoEntry InfoError :=
  let '(property, rest) := next_token line in
  match property with
  | [] => Err (NoPropertyEntry line)
  | _ =>
      let '(context, rest) := next_token rest in
      match context with
      | [] => Err (NoContextEntry line)
      | _ =>
          let '(match_operation, rest) := next_token rest in
          let type_strings := type_tokens (S (length rest)) rest in
          let exact_match := bool_decide (match_operation = lit "exact") in
          if negb exact_match && negb (bool_decide (match_operation = lit "prefix")) &&
             negb (bool_decide (match_operation = [])) && require_prefix_or_exact
          then Err (BadMatchOperation match_operation)
          else if negb (bool_decide (type_strings = [])) && negb (is_type_valid type_strings)
          then Err (BadType (join x20 type_strings))
          else Ok (mkPropertyInfoEntry property context (join x20 type_strings) exact_match)
      end
  end.

(** The entries of a file and its errors, after those there are. *)
Definition parse_property_info_file (contents : str) (require_prefix_or_exact : bool)
    (entries : list PropertyInfoEntry) : list PropertyInfoEntry * list InfoError :=
  foldl (fun '(entries, errors) line =>
    let trimmed := trim line in
    if bool_decide (trimmed = []) || starts_with (lit "#") trimmed then (entries, errors)
    else match parse_property_info_line trimmed require_prefix_or_exact with
         | Ok entry => (entries ++ [entry], errors)
         | Err error => (entries, errors ++ [error])
         end) (entries, []) (split contents x0a).

(** ** The trie *)

Record EntryBuilder := mkEntryBuilder {
  eb_name : str;
  eb_context : option str;
  eb_type : option str;
}.

Inductive BuilderNode := mkBuilderNode {
  bn_entry : EntryBuilder;
  bn_children : list BuilderNode;
  bn_prefixes : list EntryBuilder;
  bn_exact_matches : list EntryBuilder;
}.

Definition BuilderNode_new (name : str) : BuilderNode := mkBuilderNode (mkEntryBuilder name None None) [] [] [].

Definition with_children (node : BuilderNode) (children : list BuilderNode) : BuilderNode :=
  mkBuilderNode (bn_entry node) children (bn_prefixes node) (bn_exact_matches node).

Definition child_index_or_add (node : BuilderNode) (name : str) : nat * BuilderNode :=
  match position (fun c => bool_decide (eb_name (bn_entry c) = name)) (bn_children node) with
  | Some index => (index, node)
  | None => (length (bn_children node), with_children node (bn_children node ++ [BuilderNode_new name]))
  end.

(** A step on the child of that name. *)
Definition at_child (node : BuilderNode) (name : str) (step : BuilderNode -> outcome (BuilderNode * result unit InfoError)) :
    outcome (BuilderNode * result unit InfoError) :=
  let '(index, node) := child_index_or_add node name in
  match bn_children node !! index with
  | None => Panicked
  | Some child =>
      '(child, r) ← step child;
      Done (with_children node (<[index := child]> (bn_children node)), r)
  end.

Definition has_name (name : str) (e : EntryBuilder) : bool := bool_decide (eb_name e = name).

(** The entry at the node of its last piece. *)
Definition add_last (entry : PropertyInfoEntry) (ends_with_dot : bool) (last : str) (node : BuilderNode) :
    outcome (BuilderNode * result unit InfoError) :=
  let context := Some (pe_context entry) in
  let type_ := Some (pe_type entry) in
  if pe_exact_match entry then
    if existsb (has_name last) (bn_exact_matches node) then Done (node, Err (DuplicateExactMatch (pe_name entry)))
    else Done (mkBuilderNode (bn_entry node) (bn_children node) (bn_prefixes node)
                 (bn_exact_matches node ++ [mkEntryBuilder last context type_]), Ok tt)
  else if negb ends_with_dot then
    if existsb (has_name last) (bn_prefixes node) then Done (node, Err (DuplicatePrefixMatch (pe_name entry)))
    else Done (mkBuilderNode (bn_entry node) (bn_children node) (bn_prefixes node ++ [mkEntryBuilder last context type_])
                 (bn_exact_matches node), Ok tt)
  else
    at_child node last (fun child =>
      if bool_decide (is_Some (eb_context (bn_entry child))) || bool_decide (is_Some (eb_type (bn_entry child)))
      then Done (child, Err (DuplicatePrefixMatch (pe_name entry)))
      else Done (mkBuilderNode (mkEntryBuilder (eb_name (bn_entry child)) context type_) (bn_children child)
                   (bn_prefixes child) (bn_exact_matches child), Ok tt)).

(** Down the pieces, to the last. *)
Fixpoint add_pieces (entry : PropertyInfoEntry) (ends_with_dot : bool) (piece : str) (pieces : list str) (node : BuilderNode) :
    outcome (BuilderNode * result unit InfoError) :=
  match pieces with
  | [] => add_last entry ends_with_dot piece node
  | next :: pieces => at_child node piece (add_pieces entry ends_with_dot next pieces)
  end.

(** [BTreeSet]s of strings, in order. *)
Fixpoint bytes_lt (a b : str) : bool :=
  match a, b with
  | _, [] => false
  | [], _ :: _ => true
  | x :: a, y :: b => if decide (x = y) then bytes_lt a b else byte_to_Z x <? byte_to_Z y
  end.

Fixpoint set_insert (s : str) (set : list str) : list str :=
  match set with
  | [] => [s]
  | x :: set' => if bytes_lt s x then s :: set else if bytes_lt x s then x :: set_insert s set' else set
  end.

Record TrieBuilder := mkTrieBuilder {
  tb_root : BuilderNode;
  tb_contexts : list str;
  tb_types : list str;
}.

Definition TrieBuilder_new (default_context default_type : str) : TrieBuilder :=
  mkTrieBuilder (mkBuilderNode (mkEntryBuilder (lit "root") (Some default_context) (Some default_type)) [] [] [])
    [default_context] [default_type].

(** The pieces of a name, and whether an empty last one was dropped. *)
Definition pieces_of (name : str) : list str * bool :=
  let pieces := split name dot in
  if bool_decide (last pieces = Some []) then (removelast pieces, true) else (pieces, false).

Definition TrieBuilder_add (entry : PropertyInfoEntry) : M TrieBuilder (result unit InfoError) :=
  b ← get;
  let b := mkTrieBuilder (tb_root b) (set_insert (pe_context entry) (tb_contexts b)) (set_insert (pe_type entry) (tb_types b)) in
  put b;;
  let '(pieces, ends_with_dot) := pieces_of (pe_name entry) in
  match pieces with
  | [] => mret (Err (UnableToAdd (pe_name entry)))
  | piece :: pieces =>
      '(root, r) ← call (add_pieces entry ends_with_dot piece pieces (tb_root b));
      put (mkTrieBuilder root (tb_contexts b) (tb_types b));;
      mret r
  end.

Fixpoint add_entries (entries : list PropertyInfoEntry) : M TrieBuilder (result unit InfoError) :=
  match entries with
  | [] => mret (Ok tt)
  | entry :: entries => _ ←? TrieBuilder_add entry; add_entries entries
  end.

(** ** The serialized form *)

(** [Arena]: the state is its data, the offsets are [u32]s. *)
Module Arena.

Definition allocate (size : Z) : M (list byte) Z :=
  data ← get;
  put (data ++ replicate (Z.to_nat (align4 size)) x00);;
  mret (as_u 32 (zlen data)).

Definition write_u32 (offset value : Z) : M (list byte) unit :=
  data ← get;
  match splice data offset (le_bytes 4 value) with Some data => put data | None => panic end.

Definition allocate_string (s : str) : M (list byte) Z :=
  offset ← allocate (zlen s + 1);
  data ← get;
  match splice data offset s with Some data => put data;; mret offset | None => panic end.

Definition size : M (list byte) Z := gets (fun data => as_u 32 (zlen data)).

End Arena.

Module Serializer.
Section serializer.
Context `{Env}.

Definition HEADER_SIZE : Z := 24.
Definition PROPERTY_ENTRY_SIZE : Z := 16.
Definition TRIE_NODE_SIZE : Z := 28.
Definition u32_MAX : Z := 2 ^ 32 - 1.

(** The loops that write what [write] does to the places of an array. *)
Fixpoint write_each {X} (write : X -> M (list byte) Z) (array index : Z) (xs : list X) : M (list byte) unit :=
  match xs with
  | [] => mret tt
  | x :: xs =>
      offset ← write x;
      step ← call (umul 32 4 (as_u 32 index));
      place ← call (uadd 32 array step);
      Arena.write_u32 place offset;;
      write_each write array (index + 1) xs
  end.

Definition serialize_strings (strings : list str) : M (list byte) unit :=
  count_offset ← Arena.allocate 4;
  Arena.write_u32 count_offset (as_u 32 (zlen strings));;
  array ← Arena.allocate (4 * zlen strings);
  write_each Arena.allocate_string array 0 strings.

Definition index_of (set : list str) (value : option str) : Z :=
  match value with
  | Some (b :: value) =>
      match position (fun s => bool_decide (s = b :: value)) set with
      | Some index => as_u 32 (Z.of_nat index)
      | None => u32_MAX
      end
  | _ => u32_MAX
  end.

Context (contexts types : list str).

Definition write_property_entry (entry : EntryBuilder) : M (list byte) Z :=
  let context_index := index_of contexts (eb_context entry) in
  let type_index := index_of types (eb_type entry) in
  offset ← Arena.allocate PROPERTY_ENTRY_SIZE;
  name_offset ← Arena.allocate_string (eb_name entry);
  Arena.write_u32 offset name_offset;;
  offset4 ← call (uadd 32 offset 4);
  Arena.write_u32 offset4 (as_u 32 (zlen (eb_name entry)));;
  offset8 ← call (uadd 32 offset 8);
  Arena.write_u32 offset8 context_index;;
  offset12 ← call (uadd 32 offset 12);
  Arena.write_u32 offset12 type_index;;
  mret offset.

(** [v] sorted. *)
Definition sort_by {T} (v : list T) (less : T -> T -> bool) : M (list byte) (list T) :=
  '(_, v) ← call (CxxSort.sort_by less v);
  mret v.

(** A count and an array at a node, and the array's elements. *)
Definition write_array {X} (trie at_count at_array : Z) (write : X -> M (list byte) Z) (xs : list X) : M (list byte) unit :=
  count_place ← call (uadd 32 trie at_count);
  Arena.write_u32 count_place (as_u 32 (zlen xs));;
  array ← Arena.allocate (4 * zlen xs);
  array_place ← call (uadd 32 trie at_array);
  Arena.write_u32 array_place array;;
  write_each write array 0 xs.

Definition longer_name (lhs rhs : EntryBuilder) : bool := zlen (eb_name rhs) <? zlen (eb_name lhs).
Definition name_before (lhs rhs : EntryBuilder) : bool := bytes_lt (eb_name lhs) (eb_name rhs).
Definition child_before (lhs rhs : BuilderNode) : bool := name_before (bn_entry lhs) (bn_entry rhs).

(** The children are written after they are sorted: [fuel] is the height of the tree. *)
Fixpoint write_trie_node (fuel : nat) (node : BuilderNode) : M (list byte) Z :=
  match fuel with
  | O => spin
  | S fuel =>
      trie ← Arena.allocate TRIE_NODE_SIZE;
      entry ← write_property_entry (bn_entry node);
      Arena.write_u32 trie entry;;
      prefixes ← sort_by (bn_prefixes node) longer_name;
      write_array trie 12 16 write_property_entry prefixes;;
      exact ← sort_by (bn_exact_matches node) name_before;
      write_array trie 20 24 write_property_entry exact;;
      children ← sort_by (bn_children node) child_before;
      write_array trie 4 8 (write_trie_node fuel) children;;
      mret trie
  end.

End serializer.

Fixpoint height (node : BuilderNode) : nat := S (foldr Nat.max O (height <$> bn_children node)).

Section build.
Context `{Env}.

(** The bytes of a trie. *)
Definition serialize (builder : TrieBuilder) : M (list byte) unit :=
  header ← Arena.allocate HEADER_SIZE;
  Arena.write_u32 header 1;;
  header4 ← call (uadd 32 header 4);
  Arena.write_u32 header4 1;;
  contexts_offset ← Arena.size;
  header12 ← call (uadd 32 header 12);
  Arena.write_u32 header12 contexts_offset;;
  serialize_strings (tb_contexts builder);;
  types_offset ← Arena.size;
  header16 ← call (uadd 32 header 16);
  Arena.write_u32 header16 types_offset;;
  serialize_strings (tb_types builder);;
  size ← Arena.size;
  header8 ← call (uadd 32 header 8);
  Arena.write_u32 header8 size;;
  root ← write_trie_node (tb_contexts builder) (tb_types builder) (height (tb_root builder)) (tb_root builder);
  header20 ← call (uadd 32 header 20);
  Arena.write_u32 header20 root;;
  size ← Arena.size;
  Arena.write_u32 header8 size.

Definition build_trie (entries : list PropertyInfoEntry) (default_context default_type : str) : outcome (result (list byte) InfoError) :=
  '(r, builder) ← add_entries entries (TrieBuilder_new default_context default_type);
  match r with
  | Err e => Done (Err e)
  | Ok _ => '(_, data) ← serialize builder []; Done (Ok data)
  end.

End build.
End Serializer.

(** ** The reader of the serialized form *)

Module InfoArea.
Import Serializer.
Section reader.
Context `{Env}.
Context (data : list byte).

Definition u32_at (offset : Z) : Z := match slice data offset 4 with Some b => of_le_bytes b | None => u32_MAX end.

Definition c_string (offset : Z) : list byte := Bytes.c_string (drop (Z.to_nat (Z.min offset (zlen data))) data).

Definition new : result unit InfoError :=
  if zlen data <? HEADER_SIZE then Err SmallerThanHeader
  else if 1 <? u32_at 4 then Err NewerMinimumVersion
  else if negb (u32_at 8 =? zlen data) then Err SizeMismatch
  else Ok tt.

Definition current_version : Z := u32_at 0.
Definition minimum_supported_version : Z := u32_at 4.
Definition size : Z := u32_at 8.
Definition num_contexts : Z := u32_at (u32_at 12).
Definition num_types : Z := u32_at (u32_at 16).

(** The word at [index] of an array. *)
Definition element (array index : Z) : outcome Z :=
  step ← umul 32 4 index;
  place ← uadd 32 array step;
  Done (u32_at place).
(** The word at an offset from [base]. *)
Definition field (base offset : Z) : outcome Z := place ← uadd 32 base offset; Done (u32_at place).

Definition string_of (table index : Z) : outcome str :=
  array ← uadd 32 table 4;
  offset ← element array index;
  Done (default [] (from_utf8 (c_string offset))).
Definition context (index : Z) : outcome str := string_of (u32_at 12) index.
Definition type_name (index : Z) : outcome str := string_of (u32_at 16) index.

Fixpoint contexts_from (n : nat) (index : Z) : outcome (list str) :=
  match n with
  | O => Done []
  | S n => s ← context index; rest ← contexts_from n (index + 1); Done (s :: rest)
  end.
Definition contexts : outcome (list str) := contexts_from (Z.to_nat num_contexts) 0.

Definition root : Z := u32_at 20.
Definition node_entry (node : Z) : Z := u32_at node.
Definition entry_name (entry : Z) : list byte := c_string (u32_at entry).

(** C's [strncmp]. *)
Fixpoint strncmp (a b : list byte) (n : nat) : Z :=
  match n with
  | O => 0
  | S n =>
      let x := hd x00 a in
      let y := hd x00 b in
      if negb (bool_decide (x = y)) then byte_to_Z x - byte_to_Z y
      else if bool_decide (x = x00) then 0 else strncmp (tl a) (tl b) n
  end.

(** The binary search. *)
Fixpoint find_child_loop (fuel : nat) (array : Z) (name : list byte) (bottom top : Z) : outcome (option Z) :=
  match fuel with
  | O => Spinning
  | S fuel =>
      if top <? bottom then Done None else
      let search := Z.quot (top + bottom) 2 in
      child ← element array (as_u 32 search);
      let child_name := entry_name (node_entry child) in
      let compare_len := Nat.min (length name) (length child_name + 1) in
      let cmp := strncmp child_name name compare_len in
      let cmp := if (cmp =? 0) && (length name <? length child_name)%nat then 1 else cmp in
      if cmp =? 0 then Done (Some child)
      else if cmp <? 0 then find_child_loop fuel array name (search + 1) top
      else find_child_loop fuel array name bottom (search - 1)
  end.

(** A count of at most 32 bits is halved 32 times. *)
Definition find_child (node : Z) (name : list byte) : outcome (option Z) :=
  count ← field node 4;
  array ← field node 8;
  find_child_loop 34 array name 0 (count - 1).

(** What is read from an entry in place of [old]. *)
Definition found (index old : Z) : Z := if negb (index =? u32_MAX) then index else old.

Fixpoint check_prefix_loop (n : nat) (array i : Z) (remaining : list byte) (ctx ty : Z) : outcome (Z * Z) :=
  match n with
  | O => Done (ctx, ty)
  | S n =>
      entry ← element array i;
      prefix_len ← field entry 4;
      if zlen remaining <? prefix_len then check_prefix_loop n array (i + 1) remaining ctx ty
      else if strncmp (entry_name entry) remaining (Z.to_nat prefix_len) =? 0 then
        context ← field entry 8;
        type_ ← field entry 12;
        Done (found context ctx, found type_ ty)
      else check_prefix_loop n array (i + 1) remaining ctx ty
  end.

Definition check_prefix_match (remaining : list byte) (node ctx ty : Z) : outcome (Z * Z) :=
  count ← field node 12;
  array ← field node 16;
  check_prefix_loop (Z.to_nat count) array 0 remaining ctx ty.

Fixpoint exact_loop (n : nat) (array i : Z) (remaining : list byte) (ctx ty : Z) : outcome (option (Z * Z)) :=
  match n with
  | O => Done None
  | S n =>
      entry ← element array i;
      if bool_decide (entry_name entry = remaining) then
        exact_context ← field entry 8;
        exact_type ← field entry 12;
        Done (Some (found exact_context ctx, found exact_type ty))
      else exact_loop n array (i + 1) remaining ctx ty
  end.

(** What follows the walk to the last node. *)
Definition at_last (node : Z) (remaining : list byte) (ctx ty : Z) : outcome (Z * Z) :=
  count ← field node 20;
  array ← field node 24;
  exact ← exact_loop (Z.to_nat count) array 0 remaining ctx ty;
  match exact with
  | Some r => Done r
  | None => check_prefix_match remaining node ctx ty
  end.

(** Every turn takes a piece of the name. *)
Fixpoint indexes_loop (fuel : nat) (node : Z) (remaining : list byte) (context_index type_index : Z) : outcome (Z * Z) :=
  match fuel with
  | O => Spinning
  | S fuel =>
      let entry := node_entry node in
      context ← field entry 8;
      type_ ← field entry 12;
      '(context_index, type_index) ← check_prefix_match remaining node (found context context_index) (found type_ type_index);
      match position (fun b => bool_decide (b = dot)) remaining with
      | None => at_last node remaining context_index type_index
      | Some sep =>
          child ← find_child node (take sep remaining);
          match child with
          | None => at_last node remaining context_index type_index
          | Some child => indexes_loop fuel child (drop (S sep) remaining) context_index type_index
          end
      end
  end.

Definition property_info_indexes (name : str) : outcome (Z * Z) := indexes_loop (S (length name)) root name u32_MAX u32_MAX.

Definition property_info (name : str) : outcome (option str * option str) :=
  '(context_index, type_index) ← property_info_indexes name;
  c ← (if negb (context_index =? u32_MAX) then c ← context context_index; Done (Some c) else Done None);
  t ← (if negb (type_index =? u32_MAX) then t ← type_name type_index; Done (Some t) else Done None);
  Done (c, t).

End reader.
End InfoArea.
