(* ===== verification/InfoEncode.v ===== *)
(** What the serializer of [Info] writes: every object is appended to the arena
    as its encoding at that place. *)

From Stdlib Require Import ZArith Lia.
From Stdlib Require Import Strings.Byte.
From stdpp Require Import base numbers list.
From S2P Require Import Prelude Text Bytes Libbase CxxSort CxxOrder Info.

Open Scope Z_scope.

(** ** Words *)

Definition words (ws : list Z) : list byte := concat (le_bytes 4 <$> ws).

Lemma words_app l k : words (l ++ k) = words l ++ words k.
Proof. unfold words. by rewrite fmap_app, concat_app. Qed.
Lemma words_cons w l : words (w :: l) = le_bytes 4 w ++ words l.
Proof. done. Qed.
Lemma zlen_words l : zlen (words l) = 4 * zlen l.
Proof.
  induction l as [|w l IH]; [done|]. rewrite words_cons, zlen_app, zlen_le_bytes, IH. unfold zlen. cbn [length]. lia.
Qed.
Lemma words_zeros n : replicate (4 * n) x00 = words (replicate n 0).
Proof. induction n as [|n IH]; [done|]. replace (4 * S n)%nat with (4 + 4 * n)%nat by lia. by rewrite replicate_add, IH. Qed.

Lemma align4_words n : 0 <= n -> align4 (4 * n) = 4 * n.
Proof. intros Hn. pose proof (align4_spec (4 * n) ltac:(lia)) as [Ha Hm]. Z.div_mod_to_equations. lia. Qed.

(** ** Encodings *)

Definition string_bytes (s : str) : list byte := s ++ replicate (Z.to_nat (align4 (zlen s + 1) - zlen s)) x00.

Section encode.
Context (contexts types : list str).
Import Serializer.

Definition entry_bytes (b : Z) (e : EntryBuilder) : list byte :=
  words [b + 16; zlen (eb_name e); index_of contexts (eb_context e); index_of types (eb_type e)] ++ string_bytes (eb_name e).

(** The objects of an array one after the other, from [b] on, and their offsets. *)
Section each.
Context {X : Type} (enc : Z -> X -> list byte).

Fixpoint offsets (b : Z) (xs : list X) : list Z :=
  match xs with [] => [] | x :: xs => b :: offsets (b + zlen (enc b x)) xs end.
Fixpoint bodies (b : Z) (xs : list X) : list byte :=
  match xs with [] => [] | x :: xs => enc b x ++ bodies (b + zlen (enc b x)) xs end.
Definition array_bytes (b : Z) (xs : list X) : list byte :=
  words (offsets (b + 4 * zlen xs) xs) ++ bodies (b + 4 * zlen xs) xs.

Lemma length_offsets b xs : length (offsets b xs) = length xs.
Proof. revert b. induction xs as [|x xs IH]; intros b; [done|]. cbn. by rewrite IH. Qed.
Lemma zlen_offsets b xs : zlen (offsets b xs) = zlen xs.
Proof. unfold zlen. by rewrite length_offsets. Qed.
End each.

(** What [sort_by] leaves. *)
Definition sorted {T} (less : T -> T -> bool) (v : list T) : list T :=
  match CxxSort.sort_by less v with Done (_, w) => w | _ => v end.

Definition sorted_prefixes (node : BuilderNode) := sorted longer_name (bn_prefixes node).
Definition sorted_exact (node : BuilderNode) := sorted name_before (bn_exact_matches node).
Definition sorted_children (node : BuilderNode) := sorted child_before (bn_children node).

Fixpoint node_bytes (fuel : nat) (b : Z) (node : BuilderNode) : list byte :=
  match fuel with
  | O => []
  | S fuel =>
      let entry := entry_bytes (b + 28) (bn_entry node) in
      let at_prefixes := b + 28 + zlen entry in
      let prefixes := array_bytes entry_bytes at_prefixes (sorted_prefixes node) in
      let at_exact := at_prefixes + zlen prefixes in
      let exact := array_bytes entry_bytes at_exact (sorted_exact node) in
      let at_children := at_exact + zlen exact in
      let children := array_bytes (node_bytes fuel) at_children (sorted_children node) in
      words [b + 28; zlen (sorted_children node); at_children; zlen (sorted_prefixes node); at_prefixes;
             zlen (sorted_exact node); at_exact] ++ entry ++ prefixes ++ exact ++ children
  end.

Definition strings_bytes (b : Z) (strings : list str) : list byte :=
  words [zlen strings] ++ array_bytes (fun _ => string_bytes) (b + 4) strings.
End encode.

Definition trie_bytes (builder : TrieBuilder) : list byte :=
  let contexts := strings_bytes 24 (tb_contexts builder) in
  let at_types := 24 + zlen contexts in
  let types := strings_bytes at_types (tb_types builder) in
  let at_root := at_types + zlen types in
  let root := node_bytes (tb_contexts builder) (tb_types builder) (Serializer.height (tb_root builder)) at_root (tb_root builder) in
  words [1; 1; at_root + zlen root; 24; at_types; at_root] ++ contexts ++ types ++ root.

Lemma height_child node child : child ∈ bn_children node -> (Serializer.height child < Serializer.height node)%nat.
Proof.
  intros Hc. destruct node as [e cs ps xs]. cbn [Serializer.height bn_children] in *.
  induction cs as [|c cs IH]; [by apply not_elem_of_nil in Hc|]. cbn. apply elem_of_cons in Hc as [->|Hc]; [lia|].
  specialize (IH Hc). cbn in IH. lia.
Qed.

(** ** The arena *)

Lemma wp_arena_allocate n d (Q : Z -> list byte -> Prop) :
  zlen d < 2 ^ 32 -> Q (zlen d) (d ++ replicate (Z.to_nat (align4 n)) x00) -> wp False (Arena.allocate n) Q d.
Proof.
  intros Hd HQ. unfold Arena.allocate. apply wp_bind, wp_get. apply wp_bind, wp_put. apply wp_ret.
  unfold as_u. rewrite Z.mod_small; [done|]. pose proof (zlen_nonneg d). lia.
Qed.

Lemma wp_allocate_words n d (Q : Z -> list byte -> Prop) :
  0 <= n -> zlen d < 2 ^ 32 -> Q (zlen d) (d ++ words (replicate (Z.to_nat n) 0) ++ []) -> wp False (Arena.allocate (4 * n)) Q d.
Proof.
  intros Hn Hd HQ. apply wp_arena_allocate; [done|]. rewrite align4_words by done. rewrite app_nil_r in HQ.
  replace (Z.to_nat (4 * n)) with (4 * Z.to_nat n)%nat by lia. by rewrite words_zeros.
Qed.

Lemma wp_write_word d1 ws d2 off (i : nat) v (Q : unit -> list byte -> Prop) :
  off = zlen d1 + 4 * Z.of_nat i -> (i < length ws)%nat -> Q tt (d1 ++ words (<[i := v]> ws) ++ d2) ->
  wp False (Arena.write_u32 off v) Q (d1 ++ words ws ++ d2).
Proof.
  intros -> Hi HQ. unfold Arena.write_u32. apply wp_bind, wp_get. rewrite insert_take_drop in HQ by done.
  destruct (lookup_lt_is_Some_2 ws i Hi) as [w Hw]. rewrite <- (take_drop_middle ws i w) by done.
  rewrite !words_app, !words_cons, <- !app_assoc in *.
  rewrite (app_assoc d1 (words (take i ws))) in *. rewrite splice_at.
  - by apply wp_put.
  - rewrite zlen_app, zlen_words. unfold zlen at 3. rewrite length_take. lia.
  - by rewrite !zlen_le_bytes.
Qed.

Lemma wp_allocate_string s d (Q : Z -> list byte -> Prop) :
  zlen d < 2 ^ 32 -> Q (zlen d) (d ++ string_bytes s) -> wp False (Arena.allocate_string s) Q d.
Proof.
  intros Hd HQ. unfold Arena.allocate_string. apply wp_bind, wp_arena_allocate; [done|]. apply wp_bind, wp_get.
  pose proof (zlen_nonneg s). pose proof (align4_spec (zlen s + 1)) as [Ha _]; [lia|].
  replace (align4 (zlen s + 1)) with (zlen s + (align4 (zlen s + 1) - zlen s)) by lia.
  rewrite zeros_split by lia. rewrite splice_at; [|done|by rewrite zlen_zeros]. apply wp_bind, wp_put. by apply wp_ret.
Qed.

(** [m] appends [enc] of its place, which it returns. *)
Definition emits (m : M (list byte) Z) (enc : Z -> list byte) : Prop := forall d (Q : Z -> list byte -> Prop),
  zlen d + zlen (enc (zlen d)) < 2 ^ 32 -> Q (zlen d) (d ++ enc (zlen d)) -> wp False m Q d.

Lemma emits_string s : emits (Arena.allocate_string s) (fun _ => string_bytes s).
Proof. intros d Q Hd HQ. pose proof (zlen_nonneg (string_bytes s)). apply wp_allocate_string; [lia|done]. Qed.

Section emits.
Context `{Env}.
Import Serializer.

Lemma wp_uadd (d : list byte) a b (Q : Z -> list byte -> Prop) : a + b < 2 ^ 32 -> Q (a + b) d -> wp False (call (uadd 32 a b)) Q d.
Proof. intros Hab HQ. rewrite uadd_small by done. done. Qed.
Lemma wp_umul (d : list byte) a b (Q : Z -> list byte -> Prop) : a * b < 2 ^ 32 -> Q (a * b) d -> wp False (call (umul 32 a b)) Q d.
Proof. intros Hab HQ. rewrite umul_small by done. done. Qed.

Lemma wp_write_each {X} (write : X -> M (list byte) Z) enc xs d0 done_ rest (Q : unit -> list byte -> Prop) :
  (forall x, x ∈ xs -> emits (write x) (fun b => enc b x)) ->
  let b := zlen d0 + 4 * (zlen done_ + zlen xs) + zlen rest in
  b + zlen (bodies enc b xs) < 2 ^ 32 ->
  Q tt (d0 ++ words (done_ ++ offsets enc b xs) ++ rest ++ bodies enc b xs) ->
  wp False (write_each write (zlen d0) (zlen done_) xs) Q (d0 ++ words (done_ ++ replicate (length xs) 0) ++ rest).
Proof.
  intros He. cbn zeta. revert done_ rest He. induction xs as [|x xs IH]; intros done_ rest He Hb HQ; cbn [write_each].
  { apply wp_ret. cbn in HQ. by rewrite !app_nil_r in *. }
  set (b := zlen d0 + 4 * (zlen done_ + zlen (x :: xs)) + zlen rest) in *. cbn [bodies offsets] in *. rewrite zlen_app in Hb.
  assert (zlen (d0 ++ words (done_ ++ replicate (length (x :: xs)) 0) ++ rest) = b) as Hlen.
  { rewrite !zlen_app, zlen_words, zlen_app. unfold b. unfold zlen at 3. rewrite length_replicate. unfold zlen. lia. }
  pose proof (zlen_nonneg d0). pose proof (zlen_nonneg done_). pose proof (zlen_nonneg xs). pose proof (zlen_nonneg rest).
  pose proof (zlen_nonneg (enc b x)). pose proof (zlen_nonneg (bodies enc (b + zlen (enc b x)) xs)).
  assert (zlen (x :: xs) = zlen xs + 1) as Hx by (unfold zlen; cbn [length]; lia).
  assert (zlen d0 + 4 * zlen done_ + 4 <= b) by (unfold b; lia).
  apply wp_bind, (He x); [in_list|rewrite Hlen; lia|]. rewrite Hlen.
  unfold as_u. rewrite (Z.mod_small (zlen done_)) by lia. apply wp_bind, wp_umul; [lia|]. apply wp_bind, wp_uadd; [lia|].
  rewrite <- !app_assoc. apply wp_bind, (wp_write_word _ _ _ _ (length done_)); [unfold zlen; lia|rewrite length_app, length_replicate; cbn; lia|].
  rewrite insert_app_r_alt, Nat.sub_diag by lia. cbn [length replicate].
  change (<[0%nat := b]> (0 :: replicate (length xs) 0)) with ([b] ++ replicate (length xs) 0). rewrite (app_assoc done_).
  replace (zlen done_ + 1) with (zlen (done_ ++ [b])) by (rewrite zlen_app; unfold zlen; cbn; lia).
  assert (zlen d0 + 4 * (zlen (done_ ++ [b]) + zlen xs) + zlen (rest ++ enc b x) = b + zlen (enc b x)) as Hb'.
  { rewrite !zlen_app. change (zlen [b]) with 1. unfold b at 2. lia. }
  apply IH; [intros y Hy; apply He; by right|rewrite Hb'; lia|]. rewrite Hb', <- !app_assoc. done.
Qed.

Lemma zlen_cons {A} (x : A) l : zlen (x :: l) = zlen l + 1.
Proof. unfold zlen. cbn [length]. lia. Qed.

Lemma emits_entry contexts types e : emits (write_property_entry contexts types e) (fun b => entry_bytes contexts types b e).
Proof.
  intros d Q Hd HQ. unfold entry_bytes in *. rewrite zlen_app, zlen_words in Hd. change (zlen [_; _; _; _]) with 4 in Hd.
  unfold write_property_entry, PROPERTY_ENTRY_SIZE. pose proof (zlen_nonneg (string_bytes (eb_name e))) as Hs.
  apply wp_bind, (wp_allocate_words 4); [done|lia|]. rewrite app_nil_r. change (replicate (Z.to_nat 4) 0) with [0; 0; 0; 0].
  apply wp_bind, wp_allocate_string; rewrite zlen_app, zlen_words; change (4 * zlen [0; 0; 0; 0]) with 16; [lia|]. rewrite <- app_assoc.
  apply wp_bind, (wp_write_word _ _ _ _ 0); [lia|cbn; lia|].
  apply wp_bind, wp_uadd; [lia|]. apply wp_bind, (wp_write_word _ _ _ _ 1); [lia|cbn; lia|].
  apply wp_bind, wp_uadd; [lia|]. apply wp_bind, (wp_write_word _ _ _ _ 2); [lia|cbn; lia|].
  apply wp_bind, wp_uadd; [lia|]. apply wp_bind, (wp_write_word _ _ _ _ 3); [lia|cbn; lia|].
  apply wp_ret. cbn -[words]. assert (zlen (eb_name e) <= zlen (string_bytes (eb_name e))).
  { unfold string_bytes. rewrite zlen_app. pose proof (zlen_nonneg (replicate (Z.to_nat (align4 (zlen (eb_name e) + 1) - zlen (eb_name e))) x00)). lia. }
  pose proof (zlen_nonneg (eb_name e)). pose proof (zlen_nonneg d). unfold as_u. rewrite Z.mod_small by lia. done.
Qed.

Lemma zlen_insert {A} i (x : A) l : zlen (<[i := x]> l) = zlen l.
Proof. unfold zlen. by rewrite length_insert. Qed.
Lemma zlen_replicate {A} n (x : A) : zlen (replicate n x) = Z.of_nat n.
Proof. unfold zlen. by rewrite length_replicate. Qed.

Lemma wp_write_array {X} (write : X -> M (list byte) Z) enc xs d1 ws d2 (i j : nat) (Q : unit -> list byte -> Prop) :
  (forall x, x ∈ xs -> emits (write x) (fun b => enc b x)) -> (i < length ws)%nat -> (j < length ws)%nat ->
  let b := zlen (d1 ++ words ws ++ d2) in
  b + zlen (array_bytes enc b xs) < 2 ^ 32 ->
  Q tt (d1 ++ words (<[j := b]> (<[i := zlen xs]> ws)) ++ d2 ++ array_bytes enc b xs) ->
  wp False (write_array (zlen d1) (4 * Z.of_nat i) (4 * Z.of_nat j) write xs) Q (d1 ++ words ws ++ d2).
Proof.
  intros He Hi Hj. cbn zeta. set (b := zlen (d1 ++ words ws ++ d2)). intros Hb HQ. unfold write_array.
  assert (b = zlen d1 + 4 * zlen ws + zlen d2) as Hbe by (unfold b; rewrite !zlen_app, zlen_words; lia).
  assert (zlen (array_bytes enc b xs) = 4 * zlen xs + zlen (bodies enc (b + 4 * zlen xs) xs)) as Ha.
  { unfold array_bytes. by rewrite zlen_app, zlen_words, zlen_offsets. }
  pose proof (zlen_nonneg d1). pose proof (zlen_nonneg d2). pose proof (zlen_nonneg xs). pose proof (zlen_nonneg (bodies enc (b + 4 * zlen xs) xs)).
  assert (Z.of_nat i < zlen ws /\ Z.of_nat j < zlen ws) as [??] by (unfold zlen; lia).
  apply wp_bind, wp_uadd; [lia|]. apply wp_bind, (wp_write_word _ _ _ _ i); [done..|].
  unfold as_u. rewrite (Z.mod_small (zlen xs)) by lia.
  assert (zlen (d1 ++ words (<[i := zlen xs]> ws) ++ d2) = b) as Hb1.
  { rewrite !zlen_app, zlen_words, zlen_insert. lia. }
  apply wp_bind, wp_allocate_words; [done|lia|]. rewrite Hb1. apply wp_bind, wp_uadd; [lia|]. rewrite <- !app_assoc.
  apply wp_bind, (wp_write_word _ _ _ _ j); [done|by rewrite length_insert|].
  assert (zlen (d1 ++ words (<[j := b]> (<[i := zlen xs]> ws)) ++ d2) = b) as Hb2.
  { rewrite !zlen_app, zlen_words, !zlen_insert. lia. }
  replace (Z.to_nat (zlen xs)) with (length xs) by (unfold zlen; lia).
  rewrite (app_assoc (words _)), (app_assoc d1), <- Hb2 at 1. apply (wp_write_each _ enc _ _ []); [done|..]; rewrite Hb2; change (zlen []) with 0.
  - rewrite Z.add_0_r, Z.add_0_l. lia.
  - rewrite Z.add_0_r, Z.add_0_l. cbn [app]. rewrite <- !app_assoc. done.
Qed.

End emits.
