(* ===== verification/InfoOrder.v ===== *)
(** The orders the serializer of [Info] sorts by, and what sorting leaves. *)

From Stdlib Require Import ZArith Lia.
From Stdlib Require Import Strings.Byte.
From stdpp Require Import base numbers list.
From S2P Require Import Prelude Text Bytes Libbase CxxSort CxxOrder.
From S2P Require Import CxxPartition CxxSorted Info InfoEncode.

Open Scope Z_scope.

Lemma bytes_lt_irrefl a : bytes_lt a a = false.
Proof. induction a as [|x a IH]; [done|]. cbn. by rewrite decide_True. Qed.

Lemma bytes_lt_asym a b : bytes_lt a b = true -> bytes_lt b a = false.
Proof.
  revert b. induction a as [|x a IH]; intros [|y b]; try done. cbn. destruct (decide (x = y)) as [->|Hne].
  - rewrite decide_True by done. apply IH.
  - rewrite decide_False by congruence. rewrite Z.ltb_lt, Z.ltb_ge. lia.
Qed.

Lemma bytes_lt_total a b : bytes_lt a b = false -> bytes_lt b a = false -> a = b.
Proof.
  revert b. induction a as [|x a IH]; intros [|y b]; try done. cbn. destruct (decide (x = y)) as [->|Hne].
  - rewrite decide_True by done. intros. f_equal. by apply IH.
  - rewrite decide_False by congruence. rewrite !Z.ltb_ge. intros. destruct Hne. apply byte_to_Z_inj. lia.
Qed.

Lemma bytes_lt_trans a b c : bytes_lt a b = true -> bytes_lt b c = true -> bytes_lt a c = true.
Proof.
  revert b c. induction a as [|x a IH]; intros [|y b] [|z c]; try done. cbn.
  destruct (decide (x = y)) as [->|]; destruct (decide (y = z)) as [->|]; rewrite ?Z.ltb_lt; intros H1 H2.
  - by eapply IH.
  - done.
  - rewrite decide_False by done. by apply Z.ltb_lt.
  - rewrite decide_False; [apply Z.ltb_lt; lia|]. intros ->. lia.
Qed.

Lemma bytes_lt_negtrans a b c : bytes_lt a b = false -> bytes_lt b c = false -> bytes_lt a c = false.
Proof.
  intros H1 H2. destruct (bytes_lt a c) eqn:Hac; [|done]. destruct (bytes_lt b a) eqn:Hba.
  - by rewrite (bytes_lt_trans b a c) in H2.
  - rewrite (bytes_lt_total a b) in Hac by done. congruence.
Qed.

#[export] Instance bytes_lt_weak : StrictWeak bytes_lt.
Proof. split; [exact bytes_lt_asym|exact bytes_lt_negtrans]. Qed.
#[export] Instance name_before_weak : StrictWeak Serializer.name_before.
Proof. split; unfold Serializer.name_before; intros *; [apply bytes_lt_asym|apply bytes_lt_negtrans]. Qed.
#[export] Instance child_before_weak : StrictWeak Serializer.child_before.
Proof. split; unfold Serializer.child_before; intros *; [apply less_asym|apply less_negtrans]. Qed.
#[export] Instance longer_name_weak : StrictWeak Serializer.longer_name.
Proof. split; unfold Serializer.longer_name; intros *; rewrite ?Z.ltb_lt, ?Z.ltb_ge; lia. Qed.

(** ** What sorting leaves *)

Section sorted.
Context {T : Type} (less : T -> T -> bool) `{!StrictWeak less}.

Lemma sort_by_sorted v : CxxSort.sort_by less v = Done (tt, sorted less v).
Proof.
  pose proof (wp_sort_by less v _) as Hwp. unfold wpx, sorted in *. by destruct (CxxSort.sort_by less v) as [[[] w]| |].
Qed.

Lemma sorted_perm v : sorted less v ≡ₚ v.
Proof. pose proof (wp_sort_by less v _) as Hwp. unfold wpx in Hwp. rewrite sort_by_sorted in Hwp. by destruct Hwp. Qed.

Lemma sorted_ordered v (i j : nat) x y :
  (i < j)%nat -> sorted less v !! i = Some x -> sorted less v !! j = Some y -> less y x = false.
Proof.
  pose proof (wp_sort_by less v _) as Hwp. unfold wpx in Hwp. rewrite sort_by_sorted in Hwp. destruct Hwp as [Hp Hs].
  intros Hij Hx Hy. apply lookup_lt_Some in Hy as Hj. rewrite (Permutation_length Hp) in Hj.
  specialize (Hs i j ltac:(lia) Hij Hj). by rewrite (le_at less _ _ _ x y) in Hs.
Qed.

End sorted.
