(* ===== verification/InfoWrite.v ===== *)
(** The serializer of [Info] writes the encoding of [InfoEncode]. *)

From Stdlib Require Import ZArith Lia.
From Stdlib Require Import Strings.Byte.
From stdpp Require Import base numbers list.
From S2P Require Import Prelude Text Bytes Libbase CxxSort CxxOrder.
From S2P Require Import Info InfoEncode InfoOrder.

Open Scope Z_scope.

Section write.
Context `{Env} (contexts types : list str).
Import Serializer.

Lemma wp_sort {T} (less : T -> T -> bool) `{!StrictWeak less} v d (Q : list T -> list byte -> Prop) :
  Q (sorted less v) d -> wp False (sort_by v less) Q d.
Proof. intros HQ. unfold sort_by. apply wp_bind. rewrite sort_by_sorted by done. by apply wp_ret. Qed.

Lemma emits_node fuel node : (height node <= fuel)%nat -> emits (write_trie_node contexts types fuel node) (fun b => node_bytes contexts types fuel b node).
Proof.
  revert node. induction fuel as [|fuel IH]; intros node Hh d Q; [destruct node; cbn in Hh; lia|].
  assert (forall child, child ∈ sorted_children node ->
    emits (write_trie_node contexts types fuel child) (fun b => node_bytes contexts types fuel b child)) as Hkids.
  { intros child Hc. apply IH. unfold sorted_children in Hc. rewrite (sorted_perm _) in Hc. pose proof (height_child _ _ Hc). lia. }
  cbn [node_bytes write_trie_node]. cbv zeta. set (b := zlen d).
  set (entry := entry_bytes contexts types (b + 28) (bn_entry node)).
  set (at_prefixes := b + 28 + zlen entry).
  set (prefixes := array_bytes (entry_bytes contexts types) at_prefixes (sorted_prefixes node)).
  set (at_exact := at_prefixes + zlen prefixes).
  set (exact := array_bytes (entry_bytes contexts types) at_exact (sorted_exact node)).
  set (at_children := at_exact + zlen exact).
  set (children := array_bytes (node_bytes contexts types fuel) at_children (sorted_children node)).
  rewrite !zlen_app, zlen_words. change (4 * zlen [_; _; _; _; _; _; _]) with 28. intros Hd HQ.
  pose proof (zlen_nonneg entry). pose proof (zlen_nonneg prefixes). pose proof (zlen_nonneg exact). pose proof (zlen_nonneg children).
  unfold TRIE_NODE_SIZE. apply wp_bind, (wp_allocate_words 7); [done|lia|]. rewrite app_nil_r. fold b.
  change (replicate (Z.to_nat 7) 0) with [0; 0; 0; 0; 0; 0; 0].
  assert (forall ws, zlen ws = 7 -> zlen (d ++ words ws) = b + 28) as Hw by (intros ws Hws; rewrite zlen_app, zlen_words, Hws; done).
  apply wp_bind, emits_entry; rewrite Hw by done; fold entry; [lia|]. rewrite <- app_assoc.
  apply wp_bind, (wp_write_word _ _ _ _ 0); [lia|cbn; lia|]. cbn [list_insert insert].
  apply wp_bind, wp_sort; [exact _|]. fold (sorted_prefixes node).
  assert (forall ws rest, zlen ws = 7 -> zlen (d ++ words ws ++ rest) = b + 28 + zlen rest) as Hwr.
  { intros ws rest Hws. rewrite app_assoc, zlen_app, Hw; done. }
  apply wp_bind, (wp_write_array _ (entry_bytes contexts types) _ d _ entry 3 4);
    [intros; apply emits_entry|cbn; lia|cbn; lia|..]; rewrite Hwr by done; fold at_prefixes prefixes; [lia|]. cbn [list_insert insert].
  apply wp_bind, wp_sort; [exact _|]. fold (sorted_exact node).
  assert (zlen (entry ++ prefixes) = zlen entry + zlen prefixes) by apply zlen_app.
  assert (b + 28 + zlen (entry ++ prefixes) = at_exact) as Hx by lia.
  apply wp_bind, (wp_write_array _ (entry_bytes contexts types) _ d _ (entry ++ prefixes) 5 6);
    [intros; apply emits_entry|cbn; lia|cbn; lia|..]; rewrite Hwr, Hx by done; fold exact; [lia|]. cbn [list_insert insert].
  apply wp_bind, wp_sort; [exact _|]. fold (sorted_children node).
  assert (b + 28 + zlen ((entry ++ prefixes) ++ exact) = at_children) as Hc by (rewrite zlen_app; lia).
  apply wp_bind, (wp_write_array _ (node_bytes contexts types fuel) _ d _ ((entry ++ prefixes) ++ exact) 1 2);
    [exact Hkids|cbn; lia|cbn; lia|..]; rewrite Hwr, Hc by done; fold children; [lia|]. cbn [list_insert insert].
  apply wp_ret. rewrite <- !app_assoc. exact HQ.
Qed.

Lemma wp_serialize_strings strings d (Q : unit -> list byte -> Prop) :
  zlen d + zlen (strings_bytes (zlen d) strings) < 2 ^ 32 -> Q tt (d ++ strings_bytes (zlen d) strings) ->
  wp False (serialize_strings strings) Q d.
Proof.
  unfold strings_bytes, array_bytes. rewrite !zlen_app, !zlen_words, zlen_offsets. change (4 * zlen [_]) with 4.
  set (b := zlen d + 4 + 4 * zlen strings). intros Hd HQ.
  pose proof (zlen_nonneg d). pose proof (zlen_nonneg strings). pose proof (zlen_nonneg (bodies (fun _ => string_bytes) b strings)).
  unfold serialize_strings. apply wp_bind, (wp_allocate_words 1); [done|lia|]. change (replicate (Z.to_nat 1) 0) with [0].
  apply wp_bind, (wp_write_word _ _ _ _ 0); [lia|cbn; lia|]. cbn [list_insert insert]. rewrite app_nil_r.
  unfold as_u. rewrite Z.mod_small by lia.
  assert (zlen (d ++ words [zlen strings]) = zlen d + 4) as Hl by (rewrite zlen_app, zlen_words; done).
  apply wp_bind, wp_allocate_words; rewrite ?Hl; [done|lia|]. rewrite <- Hl. replace (Z.to_nat (zlen strings)) with (length strings) by (unfold zlen; lia).
  apply (wp_write_each _ (fun _ => string_bytes) _ _ [] []); [intros; apply emits_string|..]; rewrite Hl; change (zlen (@nil Z)) with 0; change (zlen (@nil byte)) with 0;
    rewrite Z.add_0_l, Z.add_0_r; fold b; [lia|]. cbn [app]. by rewrite <- !app_assoc.
Qed.

Lemma wp_size d (Q : Z -> list byte -> Prop) : zlen d < 2 ^ 32 -> Q (zlen d) d -> wp False Arena.size Q d.
Proof. intros Hd HQ. pose proof (zlen_nonneg d). apply wp_gets. unfold as_u. by rewrite Z.mod_small by lia. Qed.

End write.

Lemma serialize_ok `{Env} builder : zlen (trie_bytes builder) < 2 ^ 32 -> Serializer.serialize builder [] = Done (tt, trie_bytes builder).
Proof.
  intros Hb. assert (wp False (Serializer.serialize builder) (fun _ d => d = trie_bytes builder) []) as Hwp; cycle 1.
  { unfold wpx in Hwp. destruct (Serializer.serialize builder []) as [[[] d]| |]; [by subst|done..]. }
  unfold trie_bytes in *. set (contexts := strings_bytes 24 _) in *. set (at_types := 24 + zlen contexts) in *.
  set (types := strings_bytes at_types _) in *. set (at_root := at_types + zlen types) in *. set (root := node_bytes _ _ _ _ _) in *.
  cbv zeta in *. rewrite !zlen_app, zlen_words in Hb. change (4 * zlen [_; _; _; _; _; _]) with 24 in Hb.
  pose proof (zlen_nonneg contexts). pose proof (zlen_nonneg types). pose proof (zlen_nonneg root).
  assert (forall ws rest, zlen ws = 6 -> zlen (words ws ++ rest) = 24 + zlen rest) as Hw by (intros ws rest Hws; rewrite zlen_app, zlen_words, Hws; done).
  assert (zlen (contexts ++ types) = zlen contexts + zlen types) by apply zlen_app.
  assert (zlen ((contexts ++ types) ++ root) = zlen contexts + zlen types + zlen root) as Hcr by (rewrite !zlen_app; lia).
  unfold Serializer.serialize, Serializer.HEADER_SIZE.
  apply wp_bind, (wp_allocate_words 6); [done|done|]. change (zlen []) with 0. change (replicate (Z.to_nat 6) 0) with [0; 0; 0; 0; 0; 0].
  apply wp_bind, (wp_write_word [] _ _ _ 0); [done|cbn; lia|]. cbn [list_insert insert].
  apply wp_bind, wp_uadd; [lia|]. apply wp_bind, (wp_write_word [] _ _ _ 1); [done|cbn; lia|]. cbn [list_insert insert].
  apply wp_bind, wp_size; [done|]. cbn [app]. rewrite Hw by done. change (24 + zlen []) with 24.
  apply wp_bind, wp_uadd; [lia|]. apply wp_bind, (wp_write_word [] _ _ _ 3); [done|cbn; lia|]. cbn [list_insert insert app].
  apply wp_bind, wp_serialize_strings; rewrite Hw by done; change (24 + zlen []) with 24; fold contexts; [lia|]. rewrite app_nil_r.
  apply wp_bind, wp_size; rewrite Hw by done; fold at_types; [lia|].
  apply wp_bind, wp_uadd; [lia|]. apply wp_bind, (wp_write_word [] _ _ _ 4); [done|cbn; lia|]. cbn [list_insert insert app].
  apply wp_bind, wp_serialize_strings; rewrite Hw by done; fold at_types types; [lia|]. rewrite <- app_assoc.
  apply wp_bind, wp_size; rewrite Hw by done; [lia|]. apply wp_bind, wp_uadd; [lia|].
  apply wp_bind, (wp_write_word [] _ _ _ 2); [done|cbn; lia|]. cbn [list_insert insert app].
  replace (24 + zlen (contexts ++ types)) with at_root in * by lia.
  apply wp_bind, emits_node; [done|..]; rewrite Hw by done; replace (24 + zlen (contexts ++ types)) with at_root by lia; fold root; [lia|]. rewrite <- app_assoc.
  apply wp_bind, wp_uadd; [lia|]. apply wp_bind, (wp_write_word [] _ _ _ 5); [done|cbn; lia|]. cbn [list_insert insert app].
  apply wp_bind, wp_size; rewrite Hw, Hcr by done; [lia|].
  apply (wp_write_word [] _ _ _ 2); [done|cbn; lia|]. cbn [list_insert insert app]. rewrite <- app_assoc.
  do 5 f_equal. lia.
Qed.

