(* ===== verification/InfoRead.v ===== *)
(** The reader of [Info] on encoded bytes: it looks a name up in the trie that
    was encoded. *)

From Stdlib Require Import ZArith Lia.
From Stdlib Require Import Strings.Byte.
From stdpp Require Import base numbers list.
From S2P Require Import Prelude Text Bytes Libbase CxxSort CxxOrder.
From S2P Require Import Info InfoEncode InfoOrder.

Open Scope Z_scope.

(** ** The trie as a map *)

(** A string that is not empty takes the place of another. *)
Definition pick (new old : option str) : option str :=
  match new with Some (_ :: _) => new | _ => old end.

Definition pick_entry (e : EntryBuilder) (ct : option str * option str) : option str * option str :=
  (pick (eb_context e) ct.1, pick (eb_type e) ct.2).

(** The longest of the node's prefixes that [remaining] has. *)
Definition prefix_match (node : BuilderNode) (remaining : str) (ct : option str * option str) : option str * option str :=
  match find (fun e => starts_with (eb_name e) remaining) (sorted_prefixes node) with
  | Some e => pick_entry e ct
  | None => ct
  end.

Definition last_match (node : BuilderNode) (remaining : str) (ct : option str * option str) : option str * option str :=
  match find (has_name remaining) (sorted_exact node) with
  | Some e => pick_entry e ct
  | None => prefix_match node remaining ct
  end.

Definition child_named (name : str) (node : BuilderNode) : option BuilderNode :=
  find (fun c => bool_decide (eb_name (bn_entry c) = name)) (bn_children node).

(** The walk from a node, with what was found above it. *)
Fixpoint lookup_from (fuel : nat) (node : BuilderNode) (remaining : str) (ct : option str * option str) : option str * option str :=
  match fuel with
  | O => ct
  | S fuel =>
      let ct := prefix_match node remaining (pick_entry (bn_entry node) ct) in
      match position (fun b => bool_decide (b = dot)) remaining with
      | None => last_match node remaining ct
      | Some sep =>
          match child_named (take sep remaining) node with
          | None => last_match node remaining ct
          | Some child => lookup_from fuel child (drop (S sep) remaining) ct
          end
      end
  end.

(** ** Encodings in the data *)

Section has.
Context (data : list byte).

Definition has (off : Z) (bs : list byte) : Prop := slice data off (zlen bs) = Some bs.

Lemma has_app off a b : has off (a ++ b) -> has off a /\ has (off + zlen a) b.
Proof.
  unfold has. intros Hs. pose proof (zlen_nonneg a). pose proof (zlen_nonneg b). rewrite zlen_app in Hs. split.
  - rewrite <- (Z.add_0_r off), (slice_sub _ _ _ _ 0 _ Hs) by lia. by apply (slice_at []).
  - rewrite (slice_sub _ _ _ _ (zlen a) _ Hs) by lia. rewrite <- (app_nil_r b) at 1. by apply slice_at.
Qed.

Lemma has_range off bs : has off bs -> 0 <= off /\ off + zlen bs <= zlen data.
Proof. intros (? & ? & ? & _)%slice_Some. done. Qed.

Lemma has_words off ws (i : nat) w : has off (words ws) -> ws !! i = Some w -> has (off + 4 * Z.of_nat i) (le_bytes 4 w).
Proof.
  intros Hs Hw. rewrite <- (take_drop_middle ws i w Hw), words_app, words_cons in Hs. apply has_app in Hs as [_ Hs].
  rewrite zlen_words in Hs. apply has_app in Hs as [Hs _]. unfold zlen in Hs at 1. rewrite length_take_le in Hs; [done|].
  apply lookup_lt_Some in Hw. lia.
Qed.

Lemma has_u32 off w : has off (le_bytes 4 w) -> 0 <= w < 2 ^ 32 -> InfoArea.u32_at data off = w.
Proof.
  unfold has, InfoArea.u32_at. rewrite zlen_le_bytes. change (Z.of_nat 4) with 4. intros -> Hw. rewrite of_le_bytes_le_bytes.
  by rewrite Z.mod_small.
Qed.

Lemma word_at off ws (i : nat) w : has off (words ws) -> ws !! i = Some w -> 0 <= w < 2 ^ 32 -> InfoArea.u32_at data (off + 4 * Z.of_nat i) = w.
Proof. intros Hs Hw. apply has_u32. by apply (has_words _ ws). Qed.

Lemma has_string off s : has off (string_bytes s) -> no_nul s -> InfoArea.c_string data off = s.
Proof.
  intros Hs Hn. pose proof (has_range _ _ Hs) as [Ho Hr]. unfold string_bytes in Hs, Hr.
  pose proof (zlen_nonneg s). pose proof (align4_spec (zlen s + 1)) as [Ha _]; [lia|].
  destruct (Z.to_nat (align4 (zlen s + 1) - zlen s)) as [|n] eqn:Hz; [lia|]. cbn [replicate] in *.
  pose proof (zlen_nonneg (s ++ x00 :: replicate n x00)).
  unfold InfoArea.c_string. rewrite Z.min_l by lia. apply slice_Some in Hs as (_ & _ & _ & Hs).
  rewrite <- (take_drop (Z.to_nat (zlen (s ++ x00 :: replicate n x00))) (drop (Z.to_nat off) data)), <- Hs, <- app_assoc. cbn [app].
  by apply c_string_app.
Qed.

(** The objects of an array. *)
Lemma has_array {X} (enc : Z -> X -> list byte) b xs : has b (array_bytes enc b xs) -> zlen data < 2 ^ 32 ->
  forall (i : nat) x, xs !! i = Some x -> exists off, InfoArea.u32_at data (b + 4 * Z.of_nat i) = off /\ has off (enc off x).
Proof.
  intros Hs Hd. pose proof (has_range _ _ Hs) as [Hb _]. apply has_app in Hs as [Hw Hbod].
  rewrite zlen_words, zlen_offsets in Hbod. set (b' := b + 4 * zlen xs) in *. assert (0 <= b') as Hb' by (unfold b'; pose proof (zlen_nonneg xs); lia).
  intros i x Hx. assert (exists off, offsets enc b' xs !! i = Some off /\ has off (enc off x)) as (off & Ho & Hh); cycle 1.
  { exists off. split; [|done]. apply (word_at b (offsets enc b' xs)); [done..|]. pose proof (has_range _ _ Hh) as [? ?].
    pose proof (zlen_nonneg (enc off x)). assert (off < 2 ^ 32) by lia. lia. }
  clear Hw. clearbody b'. clear Hb Hb'. revert b' i Hbod Hx. induction xs as [|y xs IH]; intros b' i Hbod Hx; [done|].
  cbn [bodies offsets] in *. apply has_app in Hbod as [Hy Hbod]. destruct i as [|i]; [injection Hx as ->; eauto|].
  by apply IH.
Qed.

End has.

(** ** Objects that are read *)

Section objects.
Import Serializer InfoArea.
Context `{Env} (data : list byte) (Hdata : zlen data < 2 ^ 32).
Context (cs ts : list str).

Lemma field_ok base k : base + k < 2 ^ 32 -> field data base k = Done (u32_at data (base + k)).
Proof. intros Hb. unfold field. by rewrite uadd_small. Qed.
Lemma element_ok array i : 0 <= array -> array + 4 * i < 2 ^ 32 -> element data array i = Done (u32_at data (array + 4 * i)).
Proof. intros Ha Hi. unfold element. rewrite umul_small by lia. cbn. by rewrite uadd_small. Qed.

Lemma index_of_bound set v : 0 <= index_of set v < 2 ^ 32.
Proof.
  unfold index_of, u32_MAX, as_u. assert (0 < 2 ^ 32) by lia.
  repeat case_match; try lia; by apply Z.mod_pos_bound.
Qed.

Abbreviation enc := (entry_bytes cs ts).

Lemma read_entry off e : has data off (enc off e) -> no_nul (eb_name e) ->
  entry_name data off = eb_name e /\ field data off 4 = Done (zlen (eb_name e)) /\
  field data off 8 = Done (index_of cs (eb_context e)) /\ field data off 12 = Done (index_of ts (eb_type e)).
Proof.
  intros Hs Hn. pose proof (has_range _ _ _ Hs) as [Ho Hr]. apply has_app in Hs as [Hw Hname].
  unfold entry_bytes in Hr. rewrite zlen_app in Hr. rewrite zlen_words in *. change (4 * zlen [_; _; _; _]) with 16 in *.
  pose proof (zlen_nonneg (eb_name e)). assert (zlen (eb_name e) <= zlen (string_bytes (eb_name e))) as Hl.
  { unfold string_bytes. rewrite zlen_app. pose proof (zlen_nonneg (replicate (Z.to_nat (align4 (zlen (eb_name e) + 1) - zlen (eb_name e))) x00)). lia. }
  pose proof (index_of_bound cs (eb_context e)). pose proof (index_of_bound ts (eb_type e)).
  rewrite !field_ok by lia. unfold entry_name. split_and!; try f_equal.
  - replace (u32_at data off) with (off + 16); [by apply has_string|].
    symmetry. rewrite <- (Z.add_0_r off) at 1. apply (word_at _ _ _ 0 _ Hw eq_refl). lia.
  - apply (word_at _ _ _ 1 _ Hw eq_refl). lia.
  - by apply (word_at _ _ _ 2 _ Hw eq_refl).
  - by apply (word_at _ _ _ 3 _ Hw eq_refl).
Qed.

(** An array of [xs] is where the two words of a node say. *)
Definition array_read {X} (node at_count at_array : Z) (enc : Z -> X -> list byte) (xs : list X) : Prop :=
  exists array, field data node at_count = Done (zlen xs) /\ field data node at_array = Done array /\ zlen xs < 2 ^ 32 /\
    forall (i : nat) x, xs !! i = Some x -> exists off, element data array (Z.of_nat i) = Done off /\ has data off (enc off x).

Lemma has_array_read {X} (enc : Z -> X -> list byte) node at_count at_array array xs :
  field data node at_count = Done (zlen xs) -> field data node at_array = Done array -> has data array (array_bytes enc array xs) ->
  array_read node at_count at_array enc xs.
Proof.
  intros Hc Ha Hs. pose proof (has_range _ _ _ Hs) as [? Hr]. unfold array_bytes in Hr. rewrite zlen_app, zlen_words, zlen_offsets in Hr.
  pose proof (zlen_nonneg (bodies enc (array + 4 * zlen xs) xs)). pose proof (zlen_nonneg xs).
  exists array. split_and!; [done..|lia|]. intros i x Hx.
  destruct (has_array _ _ _ _ Hs Hdata i x Hx) as (off & Ho & Hh). exists off. split; [|done]. apply lookup_lt_Some in Hx.
  rewrite element_ok, Ho; [done|lia|unfold zlen in *; lia].
Qed.

Lemma read_node fuel off node : has data off (node_bytes cs ts (S fuel) off node) ->
  has data (node_entry data off) (enc (node_entry data off) (bn_entry node)) /\
  array_read off 12 16 enc (sorted_prefixes node) /\ array_read off 20 24 enc (sorted_exact node) /\
  array_read off 4 8 (node_bytes cs ts fuel) (sorted_children node).
Proof.
  cbn [node_bytes]. cbv zeta.
  set (entry := enc (off + 28) (bn_entry node)).
  set (at_prefixes := off + 28 + zlen entry). set (prefixes := array_bytes enc at_prefixes (sorted_prefixes node)).
  set (at_exact := at_prefixes + zlen prefixes). set (exact := array_bytes enc at_exact (sorted_exact node)).
  set (at_children := at_exact + zlen exact). set (children := array_bytes (node_bytes cs ts fuel) at_children (sorted_children node)).
  intros Hs. pose proof (has_range _ _ _ Hs) as [Ho Hr]. apply has_app in Hs as [Hw Hs].
  rewrite !zlen_app in Hr. rewrite zlen_words in *. change (4 * zlen [_; _; _; _; _; _; _]) with 28 in *.
  apply has_app in Hs as [He Hs]. apply has_app in Hs as [Hp Hs]. apply has_app in Hs as [Hx Hc].
  fold at_prefixes at_exact at_children in Hp, Hx, Hc.
  pose proof (zlen_nonneg entry). pose proof (zlen_nonneg prefixes). pose proof (zlen_nonneg exact). pose proof (zlen_nonneg children).
  assert (forall X (e : Z -> X -> list byte) b (xs : list X), 4 * zlen xs <= zlen (array_bytes e b xs)) as Hcount.
  { intros X e b xs. unfold array_bytes. rewrite zlen_app, zlen_words, zlen_offsets. pose proof (zlen_nonneg (bodies e (b + 4 * zlen xs) xs)). lia. }
  assert (4 * zlen (sorted_prefixes node) <= zlen prefixes) by apply Hcount.
  assert (4 * zlen (sorted_exact node) <= zlen exact) by apply Hcount.
  assert (4 * zlen (sorted_children node) <= zlen children) by apply Hcount.
  pose proof (zlen_nonneg (sorted_prefixes node)). pose proof (zlen_nonneg (sorted_exact node)).
  pose proof (zlen_nonneg (sorted_children node)).
  assert (node_entry data off = off + 28) as ->.
  { unfold node_entry. rewrite <- (Z.add_0_r off) at 1. apply (word_at _ _ _ 0 _ Hw eq_refl). lia. }
  split_and!; [done|..]; (eapply has_array_read; [..|eassumption]); rewrite field_ok by lia; f_equal.
  - apply (word_at _ _ _ 3 _ Hw eq_refl). lia.
  - apply (word_at _ _ _ 4 _ Hw eq_refl). lia.
  - apply (word_at _ _ _ 5 _ Hw eq_refl). lia.
  - apply (word_at _ _ _ 6 _ Hw eq_refl). lia.
  - apply (word_at _ _ _ 1 _ Hw eq_refl). lia.
  - apply (word_at _ _ _ 2 _ Hw eq_refl). lia.
Qed.

End objects.

(** ** Searches *)

Section compare.
Import InfoArea.

Lemma byte_nonzero b : b <> x00 -> 0 < byte_to_Z b.
Proof.
  intros Hb. pose proof (byte_to_Z_bound b). destruct (decide (byte_to_Z b = 0)) as [He|]; [|lia].
  destruct Hb. by apply (byte_to_Z_inj _ x00).
Qed.

Lemma strncmp_prefix name remaining : no_nul name -> (length name <= length remaining)%nat ->
  (strncmp name remaining (length name) =? 0) = starts_with name remaining.
Proof.
  unfold no_nul, starts_with. revert remaining. induction name as [|x name IH]; intros remaining Hn Hl; [done|].
  apply not_elem_of_cons in Hn as [Hx Hn]. destruct remaining as [|y remaining]; [cbn in Hl; lia|]. cbn.
  case_bool_decide as Hxy; cbn.
  - subst y. rewrite bool_decide_false by congruence. rewrite IH by (done || (cbn in Hl; lia)). apply bool_decide_ext. split; [by intros ->|by intros [=]].
  - rewrite bool_decide_false by congruence. apply Z.eqb_neq. intros Hd. apply Hxy, byte_to_Z_inj. lia.
Qed.

(** The comparison of the binary search. *)
Definition search_cmp (child_name name : list byte) : Z :=
  let cmp := strncmp child_name name (Nat.min (length name) (length child_name + 1)) in
  if (cmp =? 0) && (length name <? length child_name)%nat then 1 else cmp.

Lemma search_cmp_spec c n : no_nul c -> no_nul n ->
  (c = n -> search_cmp c n = 0) /\ (bytes_lt c n = true -> search_cmp c n < 0) /\ (bytes_lt n c = true -> 0 < search_cmp c n).
Proof.
  unfold no_nul. revert n. induction c as [|x c IH]; intros [|y n] Hc Hn; try done.
  - apply not_elem_of_cons in Hn as [Hy _]. cbn. unfold search_cmp. cbn. rewrite bool_decide_false by done. cbn.
    pose proof (byte_nonzero y ltac:(congruence)). change (byte_to_Z x00) with 0. rewrite Z.sub_0_l, (proj2 (Z.eqb_neq (- byte_to_Z y) 0)) by lia.
    cbn. split_and!; [done|lia|done].
  - apply not_elem_of_cons in Hc as [Hx Hc]. apply not_elem_of_cons in Hn as [Hy Hn].
    destruct (IH n Hc Hn) as (I1 & I2 & I3). unfold search_cmp in *. cbn [length Nat.add Nat.min strncmp hd tl] in *.
    change (S (length n) <? S (length c))%nat with (length n <? length c)%nat. cbn [bytes_lt]. case_bool_decide as Hxy; cbn [negb].
    + subst y. rewrite bool_decide_false by congruence. rewrite !decide_True by done. split_and!; [naive_solver|done|done].
    + rewrite !decide_False by congruence. assert (byte_to_Z x <> byte_to_Z y) by (intros ?%byte_to_Z_inj; done).
      rewrite (proj2 (Z.eqb_neq (byte_to_Z x - byte_to_Z y) 0)) by lia. cbn [andb]. rewrite !Z.ltb_lt.
      split_and!; [congruence|lia|lia].
Qed.

End compare.

Section search.
Import Serializer InfoArea.
Context `{Env} (data : list byte) {X : Type} (xs : list X) (nm : X -> str) (array : Z) (P : Z -> X -> Prop).
Context (Hread : forall (i : nat) x, xs !! i = Some x ->
  exists off, element data array (Z.of_nat i) = Done off /\ entry_name data (node_entry data off) = nm x /\ P off x).
Context (Hsorted : forall (i j : nat) x y, (i < j)%nat -> xs !! i = Some x -> xs !! j = Some y -> bytes_lt (nm x) (nm y) = true).
Context (Hnul : forall x, x ∈ xs -> no_nul (nm x)) (Hlen : zlen xs < 2 ^ 32).

Lemma find_child_loop_ok fuel name bottom top :
  no_nul name -> 0 <= bottom -> top < zlen xs -> top - bottom + 1 < 2 ^ (Z.of_nat fuel - 1) -> (0 < fuel)%nat ->
  (forall (i : nat) x, xs !! i = Some x -> Z.of_nat i < bottom -> bytes_lt (nm x) name = true) ->
  (forall (i : nat) x, xs !! i = Some x -> top < Z.of_nat i -> bytes_lt name (nm x) = true) ->
  exists r, find_child_loop data fuel array name bottom top = Done r /\
    match r with
    | None => forall x, x ∈ xs -> nm x <> name
    | Some off => exists x, x ∈ xs /\ nm x = name /\ P off x
    end.
Proof.
  intros Hname. revert bottom top. induction fuel as [|fuel IH]; intros bottom top Hb Ht Hf Hpos Hlow Hhigh; [lia|]. cbn [find_child_loop].
  destruct (Z.ltb_spec top bottom) as [Hlt|Hge].
  { exists None. split; [done|]. intros x [i Hi]%list_elem_of_lookup Hx.
    destruct (decide (Z.of_nat i < bottom)); [pose proof (Hlow i x Hi ltac:(lia)) as Hl|pose proof (Hhigh i x Hi ltac:(lia)) as Hl];
      by rewrite Hx, bytes_lt_irrefl in Hl. }
  set (search := Z.quot (top + bottom) 2). assert (search = (top + bottom) / 2) as Hq by (unfold search; rewrite Z.quot_div_nonneg; lia).
  assert (bottom <= search <= top) as Hs by (rewrite Hq; Z.div_mod_to_equations; lia).
  assert (2 ^ (Z.of_nat (S fuel) - 1) = 2 * 2 ^ (Z.of_nat fuel - 1)) as Hpow.
  { destruct fuel as [|fuel]; [cbn in Hf; lia|]. rewrite <- Z.pow_succ_r by lia. f_equal. lia. }
  rewrite Hpow in Hf. assert (0 < fuel)%nat by (destruct fuel; [cbn in Hf; lia|lia]).
  assert (0 < 2 ^ (Z.of_nat fuel - 1)) by (apply Z.pow_pos_nonneg; lia).
  destruct (lookup_lt_is_Some_2 xs (Z.to_nat search)) as [x Hx]; [unfold zlen in *; lia|].
  destruct (Hread _ _ Hx) as (off & Ho & Hn & HP). rewrite Z2Nat.id in Ho by lia. unfold as_u. rewrite Z.mod_small by lia. rewrite Ho.
  cbn [mbind outcome_bind]. rewrite Hn.
  assert (x ∈ xs) as Hin by (apply list_elem_of_lookup; eauto).
  destruct (search_cmp_spec (nm x) name (Hnul x Hin) Hname) as (C1 & C2 & C3). unfold search_cmp in C1, C2, C3. cbv zeta in *.
  destruct (bytes_lt (nm x) name) eqn:L1; [specialize (C2 eq_refl)|destruct (bytes_lt name (nm x)) eqn:L2; [specialize (C3 eq_refl)|]].
  - rewrite (proj2 (Z.eqb_neq _ 0)), (proj2 (Z.ltb_lt _ 0)) by lia. apply IH; try lia; [rewrite Hq in *; Z.div_mod_to_equations; lia|..].
    + intros i y Hy Hi. destruct (decide (i = Z.to_nat search)) as [->|]; [congruence|]. eapply bytes_lt_trans; [|exact L1].
      eapply (Hsorted i (Z.to_nat search)); [lia|done..].
    + intros i y Hy Hi. apply (Hhigh i); [done|lia].
  - rewrite (proj2 (Z.eqb_neq _ 0)), (proj2 (Z.ltb_ge _ 0)) by lia. apply IH; try lia; [rewrite Hq in *; Z.div_mod_to_equations; lia|..].
    + intros i y Hy Hi. apply (Hlow i); [done|lia].
    + intros i y Hy Hi. destruct (decide (i = Z.to_nat search)) as [->|]; [congruence|]. eapply bytes_lt_trans; [exact L2|].
      eapply (Hsorted (Z.to_nat search) i); [lia|done..].
  - assert (nm x = name) as Heq by (by apply bytes_lt_total). rewrite (C1 Heq). exists (Some off). split; [done|]. by exists x.
Qed.

End search.

(** ** Looking a name up *)

Section entry_ok.
Context (cs ts : list str).

(** The strings of an entry are in the tables. *)
Definition listed (set : list str) (v : option str) : Prop := forall s, v = Some s -> s ∈ set.

Record entry_ok (e : EntryBuilder) : Prop := {
  ok_name : no_nul (eb_name e);
  ok_context : listed cs (eb_context e);
  ok_type : listed ts (eb_type e);
}.

Inductive node_ok : BuilderNode -> Prop :=
| node_ok_intro node :
    entry_ok (bn_entry node) -> Forall entry_ok (bn_prefixes node) -> Forall entry_ok (bn_exact_matches node) ->
    NoDup ((fun c => eb_name (bn_entry c)) <$> bn_children node) -> (forall c, c ∈ bn_children node -> node_ok c) -> node_ok node.

Lemma node_ok_inv node : node_ok node ->
  entry_ok (bn_entry node) /\ Forall entry_ok (bn_prefixes node) /\ Forall entry_ok (bn_exact_matches node) /\
  NoDup ((fun c => eb_name (bn_entry c)) <$> bn_children node) /\ (forall c, c ∈ bn_children node -> node_ok c).
Proof. intros [? ? ? ? ? ?]. done. Qed.

End entry_ok.

Section lookup.
Import Serializer InfoArea.
Context `{Env} (data : list byte) (Hdata : zlen data < 2 ^ 32).
Context (cs ts : list str) (Hcs : zlen cs < 2 ^ 31) (Hts : zlen ts < 2 ^ 31).

Abbreviation enc := (entry_bytes cs ts).
Abbreviation idx ct := (index_of cs ct.1, index_of ts ct.2).

Lemma found_pick set new old : zlen set < 2 ^ 31 -> listed set new -> found (index_of set new) (index_of set old) = index_of set (pick new old).
Proof.
  intros Hlen Hl. destruct new as [[|b s]|]; [done| |done]. cbn [pick].
  assert (index_of set (Some (b :: s)) <> u32_MAX) as Hi; [|unfold found; by rewrite (proj2 (Z.eqb_neq _ _)) by done].
  cbn [index_of]. destruct (position _ set) as [i|] eqn:Hp.
  - apply position_lt in Hp. unfold as_u, u32_MAX, zlen in *. rewrite Z.mod_small; lia.
  - exfalso. specialize (Hl _ eq_refl). unfold position in Hp. destruct (list_find _ set) as [[]|] eqn:Hf; [done|].
    apply list_find_None in Hf. rewrite list.Forall_forall in Hf. apply (Hf (b :: s)); [done|by rewrite bool_decide_true].
Qed.

Lemma found_entry e ct : entry_ok cs ts e ->
  (found (index_of cs (eb_context e)) (index_of cs ct.1), found (index_of ts (eb_type e)) (index_of ts ct.2)) = idx (pick_entry e ct).
Proof. intros [_ Hc Ht]. unfold pick_entry. cbn [fst snd]. by rewrite !found_pick. Qed.

(** The elements of an array from [i] on. *)
Definition reads_from (array i : Z) (es : list EntryBuilder) : Prop := forall (k : nat) e, es !! k = Some e ->
  exists off, element data array (i + Z.of_nat k) = Done off /\ has data off (enc off e).

Lemma reads_from_cons array i e es : reads_from array i (e :: es) ->
  (exists off, element data array i = Done off /\ has data off (enc off e)) /\ reads_from array (i + 1) es.
Proof.
  intros Hr. split.
  - destruct (Hr 0%nat e eq_refl) as (off & Ho & Hh). rewrite Z.add_0_r in Ho. eauto.
  - intros k x Hx. destruct (Hr (S k) x Hx) as (off & Ho & Hh). exists off. split; [|done]. rewrite <- Ho. f_equal. lia.
Qed.

Lemma check_prefix_loop_ok array i es remaining ct :
  reads_from array i es -> Forall (entry_ok cs ts) es ->
  check_prefix_loop data (length es) array i remaining (index_of cs ct.1) (index_of ts ct.2) =
  Done (idx (match find (fun e => starts_with (eb_name e) remaining) es with Some e => pick_entry e ct | None => ct end)).
Proof.
  revert i. induction es as [|e es IH]; intros i Hr Hok; [done|]. apply reads_from_cons in Hr as [(off & Ho & Hh) Hr].
  apply list.Forall_cons in Hok as [He Hok]. destruct (read_entry data Hdata cs ts off e Hh (ok_name _ _ _ He)) as (Hn & H4 & H8 & H12).
  cbn [length check_prefix_loop find]. rewrite Ho. cbn [mbind outcome_bind]. rewrite H4. cbn [mbind outcome_bind].
  destruct (Z.ltb_spec (zlen remaining) (zlen (eb_name e))) as [Hlt|Hge].
  - assert (starts_with (eb_name e) remaining = false) as ->; [|by apply IH].
    unfold starts_with. apply bool_decide_false. intros Heq. apply (f_equal length) in Heq. rewrite length_take in Heq. unfold zlen in Hlt. lia.
  - rewrite Hn. replace (Z.to_nat (zlen (eb_name e))) with (length (eb_name e)) by (unfold zlen; lia).
    rewrite strncmp_prefix by (apply He || (unfold zlen in Hge; lia)). destruct (starts_with (eb_name e) remaining); [|by apply IH].
    rewrite H8, H12. cbn [mbind outcome_bind]. by rewrite <- found_entry.
Qed.

Lemma exact_loop_ok array i es remaining ct :
  reads_from array i es -> Forall (entry_ok cs ts) es ->
  exact_loop data (length es) array i remaining (index_of cs ct.1) (index_of ts ct.2) =
  Done (match find (has_name remaining) es with Some e => Some (idx (pick_entry e ct)) | None => None end).
Proof.
  revert i. induction es as [|e es IH]; intros i Hr Hok; [done|]. apply reads_from_cons in Hr as [(off & Ho & Hh) Hr].
  apply list.Forall_cons in Hok as [He Hok]. destruct (read_entry data Hdata cs ts off e Hh (ok_name _ _ _ He)) as (Hn & H4 & H8 & H12).
  cbn [length exact_loop find]. rewrite Ho. cbn [mbind outcome_bind]. rewrite Hn. unfold has_name at 1.
  case_bool_decide; [|by apply IH]. rewrite H8, H12. cbn [mbind outcome_bind]. by rewrite <- found_entry.
Qed.

Lemma array_reads node at_count at_array es : array_read data node at_count at_array enc es ->
  exists array, field data node at_count = Done (zlen es) /\ field data node at_array = Done array /\ reads_from array 0 es.
Proof. intros (array & Hc & Ha & _ & Hr). exists array. split_and!; [done..|]. intros k e He. by apply Hr. Qed.

Lemma Forall_sorted {T} (less : T -> T -> bool) `{!StrictWeak less} (P : T -> Prop) v : Forall P v -> Forall P (sorted less v).
Proof. by rewrite (sorted_perm less v). Qed.

Section node.
Context (node : BuilderNode) (off : Z) (fuel : nat).
Context (Hhas : has data off (node_bytes cs ts (S fuel) off node)) (Hok : node_ok cs ts node).

Lemma check_prefix_match_ok remaining ct :
  check_prefix_match data remaining off (index_of cs ct.1) (index_of ts ct.2) = Done (idx (prefix_match node remaining ct)).
Proof.
  destruct (read_node data Hdata cs ts fuel off node Hhas) as (_ & Hp & _ & _). apply array_reads in Hp as (array & Hc & Ha & Hr).
  unfold check_prefix_match. rewrite Hc, Ha. cbn [mbind outcome_bind]. unfold zlen. rewrite Nat2Z.id.
  apply check_prefix_loop_ok; [done|]. apply Forall_sorted; [exact _|]. apply (node_ok_inv _ _ _ Hok).
Qed.

Lemma at_last_ok remaining ct :
  at_last data off remaining (index_of cs ct.1) (index_of ts ct.2) = Done (idx (last_match node remaining ct)).
Proof.
  destruct (read_node data Hdata cs ts fuel off node Hhas) as (_ & _ & Hx & _). apply array_reads in Hx as (array & Hc & Ha & Hr).
  unfold at_last. rewrite Hc, Ha. cbn [mbind outcome_bind]. unfold zlen. rewrite Nat2Z.id.
  rewrite exact_loop_ok; [|done|apply Forall_sorted; [exact _|]; apply (node_ok_inv _ _ _ Hok)]. cbn [mbind outcome_bind]. unfold last_match, sorted_exact.
  destruct (find _ _); [done|]. apply check_prefix_match_ok.
Qed.

Lemma found_node ct :
  exists c t, field data (node_entry data off) 8 = Done c /\ field data (node_entry data off) 12 = Done t /\
    (found c (index_of cs ct.1), found t (index_of ts ct.2)) = idx (pick_entry (bn_entry node) ct).
Proof.
  destruct (read_node data Hdata cs ts fuel off node Hhas) as (He & _). destruct (node_ok_inv _ _ _ Hok) as (Hoke & _).
  destruct (read_entry data Hdata cs ts _ _ He (ok_name _ _ _ Hoke)) as (_ & _ & H8 & H12).
  eexists _, _. split_and!; [done..|]. by apply found_entry.
Qed.

Lemma children_distinct (i j : nat) x y : (i < j)%nat -> sorted_children node !! i = Some x -> sorted_children node !! j = Some y ->
  bytes_lt (eb_name (bn_entry x)) (eb_name (bn_entry y)) = true.
Proof.
  intros Hij Hx Hy. destruct (node_ok_inv _ _ _ Hok) as (_ & _ & _ & Hnd & _).
  pose proof (sorted_ordered child_before _ i j x y Hij Hx Hy) as Hs. unfold child_before, name_before in Hs.
  destruct (bytes_lt (eb_name (bn_entry x)) (eb_name (bn_entry y))) eqn:Hl; [done|].
  rewrite <- (sorted_perm child_before (bn_children node)) in Hnd. pose proof (bytes_lt_total _ _ Hl Hs) as Heq.
  assert (i = j); [|lia]. apply (NoDup_lookup _ i j (eb_name (bn_entry x)) Hnd); rewrite list_lookup_fmap.
  - by replace (sorted child_before _ !! i) with (Some x).
  - replace (sorted child_before _ !! j) with (Some y). cbn. by rewrite Heq.
Qed.

Lemma child_named_eq name c : c ∈ bn_children node -> eb_name (bn_entry c) = name -> child_named name node = Some c.
Proof.
  intros Hc Hn. destruct (node_ok_inv _ _ _ Hok) as (_ & _ & _ & Hnd & _). unfold child_named. destruct (find _ _) as [d|] eqn:Hf.
  - apply find_some in Hf as [Hd Hdn]. apply bool_decide_eq_true_1 in Hdn. apply list_elem_of_In in Hd. f_equal.
    apply list_elem_of_lookup in Hc as [i Hi]. apply list_elem_of_lookup in Hd as [j Hj].
    assert (i = j); [|congruence]. apply (NoDup_lookup _ i j name Hnd); rewrite list_lookup_fmap; [rewrite Hi|rewrite Hj]; cbn; congruence.
  - pose proof (find_none _ _ Hf c ltac:(by apply list_elem_of_In)) as Hc'. by apply bool_decide_eq_false_1 in Hc'.
Qed.

Lemma child_named_none name : (forall c, c ∈ bn_children node -> eb_name (bn_entry c) <> name) -> child_named name node = None.
Proof.
  intros Hall. unfold child_named. destruct (find _ _) as [d|] eqn:Hf; [|done]. apply find_some in Hf as [Hd Hdn].
  apply bool_decide_eq_true_1 in Hdn. destruct (Hall d); [by apply list_elem_of_In|done].
Qed.

Lemma find_child_ok name : no_nul name -> (forall c, c ∈ bn_children node -> (0 < height c <= fuel)%nat) ->
  exists r, find_child data off name = Done r /\
    match r with
    | None => child_named name node = None
    | Some o => exists child, child ∈ bn_children node /\ child_named name node = Some child /\ has data o (node_bytes cs ts fuel o child)
    end.
Proof.
  intros Hname Hh. destruct (read_node data Hdata cs ts fuel off node Hhas) as (_ & _ & _ & (array & Hc & Ha & Hlen & Hr)).
  assert (forall c, c ∈ sorted_children node <-> c ∈ bn_children node) as Hin.
  { intros c. unfold sorted_children. by rewrite (sorted_perm child_before). }
  destruct (node_ok_inv _ _ _ Hok) as (_ & _ & _ & _ & Hkids). unfold find_child. rewrite Hc, Ha. cbn [mbind outcome_bind].
  destruct (find_child_loop_ok data (sorted_children node) (fun c => eb_name (bn_entry c)) array
    (fun o c => has data o (node_bytes cs ts fuel o c))) with (fuel := 34%nat) (name := name) (bottom := 0) (top := zlen (sorted_children node) - 1)
    as (r & Hrun & Hres); try done; try lia.
  - intros i x Hx. destruct (Hr i x Hx) as (o & Ho & Hh'). exists o. split_and!; [done| |done].
    assert (x ∈ bn_children node) as Hxin by (apply Hin, list_elem_of_lookup; eauto). specialize (Hh x Hxin).
    destruct fuel as [|f]; [lia|]. destruct (read_node data Hdata cs ts f o x Hh') as (He & _).
    destruct (node_ok_inv _ _ _ (Hkids x Hxin)) as (Hok' & _). by destruct (read_entry data Hdata cs ts _ _ He (ok_name _ _ _ Hok')) as (? & _).
  - intros. by eapply children_distinct.
  - intros x Hx%Hin. destruct (node_ok_inv _ _ _ (Hkids x Hx)) as ([] & _). done.
  - intros i x Hx Hi. apply lookup_lt_Some in Hx. unfold zlen in Hi. lia.
  - exists r. split; [done|]. destruct r as [o|].
    + destruct Hres as (c & Hc'%Hin & Hn & Hh'). exists c. split_and!; [done|by apply child_named_eq|done].
    + apply child_named_none. intros c Hc'. apply Hres. by apply Hin.
Qed.

End node.

Lemma indexes_loop_ok fuel node off nf remaining ct :
  has data off (node_bytes cs ts nf off node) -> (height node <= nf)%nat -> node_ok cs ts node -> no_nul remaining ->
  (length remaining < fuel)%nat ->
  indexes_loop data fuel off remaining (index_of cs ct.1) (index_of ts ct.2) = Done (idx (lookup_from fuel node remaining ct)).
Proof.
  revert node off nf remaining ct. induction fuel as [|fuel IH]; intros node off nf remaining ct Hh Hn Hok Hnul Hf; [lia|].
  destruct nf as [|nf]; [destruct node; cbn in Hn; lia|]. cbn [indexes_loop lookup_from].
  destruct (found_node node off nf Hh Hok ct) as (c & t & H8 & H12 & Hfd). rewrite H8, H12. cbn [mbind outcome_bind].
  pose proof (f_equal fst Hfd) as Hf1. pose proof (f_equal snd Hfd) as Hf2. cbn [fst snd] in Hf1, Hf2. rewrite Hf1, Hf2.
  rewrite (check_prefix_match_ok node off nf Hh Hok). cbn [mbind outcome_bind].
  set (ct' := prefix_match node remaining (pick_entry (bn_entry node) ct)).
  destruct (position _ remaining) as [sep|] eqn:Hsep; [|by eapply at_last_ok].
  destruct (find_child_ok node off nf Hh Hok (take sep remaining)) as (r & -> & Hr).
  { intros Hin. apply Hnul. rewrite <- (take_drop sep remaining). apply elem_of_app. by left. }
  { intros c' Hc'. pose proof (height_child _ _ Hc'). split; [destruct c'; cbn; lia|lia]. }
  cbn [mbind outcome_bind]. destruct r as [o|]; [|rewrite Hr; by eapply at_last_ok].
  destruct Hr as (child & Hc & -> & Hhc). apply (IH child o nf); [done|..].
  - pose proof (height_child _ _ Hc). lia.
  - by apply (node_ok_inv _ _ _ Hok).
  - intros Hin. apply Hnul. rewrite <- (take_drop (S sep) remaining). apply elem_of_app. by right.
  - apply position_lt in Hsep. rewrite length_drop. lia.
Qed.

End lookup.
