(* ===== verification/InfoTrie.v ===== *)
(** The reader of [Info] on what the serializer wrote for a trie. *)

From Stdlib Require Import ZArith Lia.
From Stdlib Require Import Strings.Byte.
From stdpp Require Import base numbers list.
From S2P Require Import Prelude Text Bytes Libbase CxxSort CxxOrder.
From S2P Require Import Info InfoEncode InfoOrder InfoWrite InfoRead.

Open Scope Z_scope.

(** ** Tables of strings *)

Definition text_ok (s : str) : Prop := no_nul s /\ is_utf8 s = true.

(** A string that was found is in the table and not empty. *)
Definition found_in (set : list str) (v : option str) : Prop := match v with None => True | Some s => s <> [] /\ s ∈ set end.

Lemma position_elem (s : str) set : s ∈ set -> exists i, position (fun t => bool_decide (t = s)) set = Some i /\ set !! i = Some s.
Proof.
  intros Hin. unfold position. destruct (list_find _ set) as [[i t]|] eqn:Hf.
  - apply list_find_Some in Hf as (Hi & Ht & _). apply bool_decide_eq_true_1 in Ht. subst. eauto.
  - apply list_find_None in Hf. rewrite list.Forall_forall in Hf. destruct (Hf s Hin). by rewrite bool_decide_true.
Qed.

Lemma index_of_elem set s : zlen set < 2 ^ 31 -> s <> [] -> s ∈ set ->
  exists i : nat, Serializer.index_of set (Some s) = Z.of_nat i /\ set !! i = Some s /\ Z.of_nat i <> Serializer.u32_MAX.
Proof.
  intros Hl Hne Hin. destruct s as [|b s]; [done|]. destruct (position_elem _ _ Hin) as (i & Hp & Hi). exists i. cbn [Serializer.index_of].
  rewrite Hp. apply lookup_lt_Some in Hi as Hlt. unfold as_u, Serializer.u32_MAX, zlen in *. rewrite Z.mod_small by lia. split_and!; [done..|lia].
Qed.

Section strings.
Context `{Env} (data : list byte) (Hdata : zlen data < 2 ^ 32).
Context (table : Z) (set : list str) (Hhas : has data table (strings_bytes table set)).

Lemma strings_len : zlen set < 2 ^ 31.
Proof.
  pose proof (has_range _ _ _ Hhas) as [? Hr]. unfold strings_bytes, array_bytes in Hr.
  rewrite !zlen_app, !zlen_words, zlen_offsets in Hr. change (4 * zlen [_]) with 4 in Hr.
  pose proof (zlen_nonneg (bodies (fun _ => string_bytes) (table + 4 + 4 * zlen set) set)). lia.
Qed.

Lemma string_of_ok (i : nat) s : set !! i = Some s -> text_ok s -> InfoArea.string_of data table (Z.of_nat i) = Done s.
Proof.
  intros Hi [Hnul Hutf]. pose proof (has_range _ _ _ Hhas) as [? Hr]. pose proof Hhas as Ha. unfold strings_bytes in Ha, Hr.
  apply has_app in Ha as [_ Ha]. rewrite zlen_words in Ha. change (4 * zlen [_]) with 4 in Ha. destruct (has_array _ _ _ _ Ha Hdata i s Hi) as (off & Ho & Hh).
  unfold array_bytes in Hr. rewrite !zlen_app, !zlen_words, zlen_offsets in Hr. change (4 * zlen [_]) with 4 in Hr.
  pose proof (zlen_nonneg (bodies (fun _ => string_bytes) (table + 4 + 4 * zlen set) set)). apply lookup_lt_Some in Hi as Hlt.
  unfold InfoArea.string_of. rewrite uadd_small by (unfold zlen in *; lia). cbn [mbind outcome_bind].
  rewrite element_ok by (unfold zlen in *; lia). cbn [mbind outcome_bind]. rewrite Ho, (has_string _ _ s Hh Hnul). unfold from_utf8. by rewrite Hutf.
Qed.

Lemma found_string v : found_in set v -> Forall text_ok set ->
  (if negb (Serializer.index_of set v =? Serializer.u32_MAX)
   then s ← InfoArea.string_of data table (Serializer.index_of set v); Done (Some s) else Done None) = Done v.
Proof.
  intros Hv Hok. destruct v as [s|]; [|done]. destruct Hv as [Hne Hin].
  destruct (index_of_elem set s strings_len Hne Hin) as (i & -> & Hi & Hm). rewrite (proj2 (Z.eqb_neq _ _)) by done. cbn [negb].
  rewrite (string_of_ok i s Hi); [done|]. rewrite list.Forall_forall in Hok. by apply Hok.
Qed.
End strings.

(** ** What a walk finds *)

Section found.
Context (cs ts : list str).

Definition both_found (ct : option str * option str) : Prop := found_in cs ct.1 /\ found_in ts ct.2.

Lemma pick_found set new old : listed set new -> found_in set old -> found_in set (pick new old).
Proof. intros Hn Ho. destruct new as [[|b s]|]; [done| |done]. split; [done|by apply Hn]. Qed.

Lemma pick_entry_found e ct : entry_ok cs ts e -> both_found ct -> both_found (pick_entry e ct).
Proof. intros [_ Hc Ht] [H1 H2]. split; by apply pick_found. Qed.

Lemma find_found {less} `{!StrictWeak less} (p : EntryBuilder -> bool) es e :
  Forall (entry_ok cs ts) es -> find p (sorted less es) = Some e -> entry_ok cs ts e.
Proof.
  intros Hok [Hin _]%find_some. apply list_elem_of_In in Hin. rewrite (sorted_perm less) in Hin. rewrite list.Forall_forall in Hok. by apply Hok.
Qed.

Lemma prefix_match_found node remaining ct : node_ok cs ts node -> both_found ct -> both_found (prefix_match node remaining ct).
Proof.
  intros (_ & Hp & _)%node_ok_inv Hct. unfold prefix_match, sorted_prefixes. destruct (find _ _) eqn:Hf; [|done].
  apply pick_entry_found; [|done]. exact (find_found (less := Serializer.longer_name) _ _ _ Hp Hf).
Qed.

Lemma last_match_found node remaining ct : node_ok cs ts node -> both_found ct -> both_found (last_match node remaining ct).
Proof.
  intros Hok Hct. pose proof (node_ok_inv _ _ _ Hok) as (_ & _ & Hx & _). unfold last_match, sorted_exact.
  destruct (find _ _) eqn:Hf; [|by apply prefix_match_found]. apply pick_entry_found; [|done]. exact (find_found (less := Serializer.name_before) _ _ _ Hx Hf).
Qed.

Lemma child_named_in name node c : child_named name node = Some c -> c ∈ bn_children node /\ eb_name (bn_entry c) = name.
Proof. intros [Hc Hn]%find_some. split; [by apply list_elem_of_In|by apply bool_decide_eq_true_1 in Hn]. Qed.

Lemma lookup_from_found fuel node remaining ct : node_ok cs ts node -> both_found ct -> both_found (lookup_from fuel node remaining ct).
Proof.
  revert node remaining ct. induction fuel as [|fuel IH]; intros node remaining ct Hok Hct; [done|]. cbn [lookup_from].
  pose proof (node_ok_inv _ _ _ Hok) as (He & _ & _ & _ & Hkids).
  assert (both_found (prefix_match node remaining (pick_entry (bn_entry node) ct))) by (by apply prefix_match_found, pick_entry_found).
  destruct (position _ _); [|by apply last_match_found]. destruct (child_named _ _) eqn:Hc; [|by apply last_match_found].
  apply IH; [|done]. apply Hkids. by apply child_named_in in Hc as [? _].
Qed.
End found.

(** ** The serialized trie *)

Record builder_ok (b : TrieBuilder) : Prop := {
  bo_root : node_ok (tb_contexts b) (tb_types b) (tb_root b);
  bo_contexts : Forall text_ok (tb_contexts b);
  bo_types : Forall text_ok (tb_types b);
}.

Definition lookup_trie (b : TrieBuilder) (name : str) : option str * option str :=
  lookup_from (S (length name)) (tb_root b) name (None, None).

Section trie.
Context `{Env} (b : TrieBuilder) (Hlen : zlen (trie_bytes b) < 2 ^ 32) (Hok : builder_ok b).

Lemma trie_parts : exists tab_types at_root,
  InfoArea.u32_at (trie_bytes b) 4 = 1 /\ InfoArea.u32_at (trie_bytes b) 8 = zlen (trie_bytes b) /\
  InfoArea.u32_at (trie_bytes b) 12 = 24 /\ InfoArea.u32_at (trie_bytes b) 16 = tab_types /\ InfoArea.u32_at (trie_bytes b) 20 = at_root /\
  has (trie_bytes b) 24 (strings_bytes 24 (tb_contexts b)) /\ has (trie_bytes b) tab_types (strings_bytes tab_types (tb_types b)) /\
  has (trie_bytes b) at_root (node_bytes (tb_contexts b) (tb_types b) (Serializer.height (tb_root b)) at_root (tb_root b)).
Proof.
  assert (has (trie_bytes b) 0 (trie_bytes b)) as Hall by (apply slice_Some; pose proof (zlen_nonneg (trie_bytes b));
    split_and!; try lia; unfold zlen; rewrite Nat2Z.id; by rewrite firstn_all).
  set (data := trie_bytes b) in *. assert (data = trie_bytes b) as Hd by done. unfold trie_bytes in Hd. cbv zeta in Hd.
  set (contexts := strings_bytes 24 _) in *. set (at_types := 24 + zlen contexts) in *.
  set (types := strings_bytes at_types _) in *. set (at_root := at_types + zlen types) in *. set (root := node_bytes _ _ _ _ _) in *.
  rewrite Hd in Hall at 2. apply has_app in Hall as [Hw Hall]. rewrite zlen_words in Hall. change (4 * zlen [_; _; _; _; _; _]) with 24 in Hall.
  apply has_app in Hall as [Hc Hall]. apply has_app in Hall as [Ht Hr]. change (0 + 24) with 24 in *. fold at_types at_root in Ht, Hr.
  pose proof (zlen_nonneg contexts). pose proof (zlen_nonneg types). pose proof (zlen_nonneg root).
  assert (zlen data = at_root + zlen root) as Hz.
  { rewrite Hd, !zlen_app, zlen_words. change (4 * zlen [_; _; _; _; _; _]) with 24. lia. }
  exists at_types, at_root. rewrite Hz. split_and!; try done.
  - by apply (word_at _ _ _ 1 _ Hw eq_refl).
  - apply (word_at _ _ _ 2 _ Hw eq_refl). lia.
  - by apply (word_at _ _ _ 3 _ Hw eq_refl).
  - apply (word_at _ _ _ 4 _ Hw eq_refl). lia.
  - apply (word_at _ _ _ 5 _ Hw eq_refl). lia.
Qed.

(** The bytes are accepted, and a name is looked up in the trie. *)
Lemma info_accepted : InfoArea.new (trie_bytes b) = Ok tt.
Proof.
  destruct trie_parts as (t & r & H4 & H8 & _ & _ & _ & Hc & _). unfold InfoArea.new. rewrite H4, H8, Z.eqb_refl.
  pose proof (has_range _ _ _ Hc) as [_ Hr]. pose proof (zlen_nonneg (strings_bytes 24 (tb_contexts b))).
  unfold Serializer.HEADER_SIZE. by rewrite (proj2 (Z.ltb_ge _ _)) by lia.
Qed.

Lemma indexes_ok name : no_nul name ->
  InfoArea.property_info_indexes (trie_bytes b) name =
  Done (Serializer.index_of (tb_contexts b) (lookup_trie b name).1, Serializer.index_of (tb_types b) (lookup_trie b name).2).
Proof.
  intros Hname. destruct trie_parts as (t & r & _ & _ & _ & _ & H20 & Hc & Ht & Hr). unfold InfoArea.property_info_indexes, InfoArea.root. rewrite H20.
  apply (indexes_loop_ok _ Hlen _ _ (strings_len _ Hlen _ _ Hc) (strings_len _ Hlen _ _ Ht) _ _ _ _ _ (None, None) Hr); [done| |done|lia].
  apply Hok.
Qed.

Lemma property_info_ok name : no_nul name -> InfoArea.property_info (trie_bytes b) name = Done (lookup_trie b name).
Proof.
  intros Hname. unfold InfoArea.property_info. rewrite indexes_ok by done. cbn [mbind outcome_bind].
  destruct trie_parts as (t & r & _ & _ & H12 & H16 & _ & Hc & Ht & _). unfold InfoArea.context, InfoArea.type_name. rewrite H12, H16.
  destruct Hok as [Hroot Hcs Hts].
  assert (both_found (tb_contexts b) (tb_types b) (lookup_trie b name)) as [H1 H2] by (by apply lookup_from_found).
  rewrite (found_string _ Hlen _ _ Hc), (found_string _ Hlen _ _ Ht) by done. cbn [mbind outcome_bind]. by rewrite <- surjective_pairing.
Qed.

End trie.
