(* ===== verification/InfoBuild.v ===== *)
(** The trie of [Info] as a function of the entries added to it: what every
    node holds. *)

From Stdlib Require Import ZArith Lia.
From Stdlib Require Import Strings.String Strings.Byte.
From stdpp Require Import base numbers list.
From S2P Require Import Prelude Text Bytes Libbase CxxSort CxxOrder.
From S2P Require Import Info InfoEncode InfoOrder InfoWrite InfoRead.
From S2P Require Import InfoTrie.

Open Scope Z_scope.

(** ** Nodes by their paths *)

(** What a node holds besides its children. *)
Definition View : Type := EntryBuilder * list EntryBuilder * list EntryBuilder.

Definition view_of (node : BuilderNode) : View := (bn_entry node, bn_prefixes node, bn_exact_matches node).

Fixpoint sub (node : BuilderNode) (path : list str) : option BuilderNode :=
  match path with
  | [] => Some node
  | name :: path => child ← child_named name node; sub child path
  end.

Definition view (node : BuilderNode) (path : list str) : option View := view_of <$> sub node path.

Lemma sub_snoc node q c n : sub node q = Some n -> sub node (q ++ [c]) = child_named c n.
Proof.
  revert node. induction q as [|d q IH]; intros node Hs; cbn in *; [injection Hs as ->; by destruct (child_named c n)|].
  destruct (child_named d node); [by apply IH|done].
Qed.

(** A node nothing was added to yet, under its name. *)
Definition fresh (name : str) (path : list str) : View := (mkEntryBuilder (default name (last path)) None None, [], []).

Abbreviation node_name n := (eb_name (bn_entry n)).

Definition names_ok (node : BuilderNode) : Prop := forall path n, sub node path = Some n -> NoDup ((fun c => node_name c) <$> bn_children n).

Lemma names_ok_child node name child : names_ok node -> child_named name node = Some child -> names_ok child.
Proof. intros Hok Hc path n Hn. apply (Hok (name :: path)). cbn. by rewrite Hc. Qed.

Lemma child_named_unique node name c : NoDup ((fun c => node_name c) <$> bn_children node) ->
  c ∈ bn_children node -> node_name c = name -> child_named name node = Some c.
Proof.
  intros Hnd Hc Hn. unfold child_named. destruct (find _ _) as [d|] eqn:Hf.
  - apply find_some in Hf as [Hd Hdn]. apply bool_decide_eq_true_1 in Hdn. apply list_elem_of_In in Hd. f_equal.
    apply list_elem_of_lookup in Hc as [i Hi]. apply list_elem_of_lookup in Hd as [j Hj].
    assert (i = j); [|congruence]. apply (NoDup_lookup _ i j name Hnd); rewrite list_lookup_fmap; [rewrite Hi|rewrite Hj]; cbn; congruence.
  - pose proof (find_none _ _ Hf c ltac:(by apply list_elem_of_In)) as Hc'. by apply bool_decide_eq_false_1 in Hc'.
Qed.

(** The list of children with the one of a name replaced, or one added. *)
Abbreviation named o := (find (fun c => bool_decide (node_name c = o))).

Lemma named_insert l (i : nat) x y o : l !! i = Some y -> node_name y = node_name x -> NoDup ((fun c => node_name c) <$> l) ->
  named o (<[i := x]> l) = if decide (o = node_name x) then Some x else named o l.
Proof.
  revert i. induction l as [|a l IH]; intros i Hi Hn Hnd; [done|]. cbn in Hnd. apply NoDup_cons in Hnd as [Ha Hnd].
  destruct i as [|i]; cbn in Hi.
  - injection Hi as ->. cbn. rewrite Hn. case_decide; [by rewrite bool_decide_true|by rewrite bool_decide_false].
  - change (named o (<[S i := x]> (a :: l))) with (if bool_decide (node_name a = o) then Some a else named o (<[i := x]> l)).
    change (named o (a :: l)) with (if bool_decide (node_name a = o) then Some a else named o l). rewrite (IH i Hi Hn Hnd). destruct (decide (node_name a = o)) as [Hao|Hao]; [|by rewrite bool_decide_false].
    rewrite bool_decide_true by done. rewrite decide_False; [done|]. intros ->. apply Ha. rewrite Hao, <- Hn.
    apply list_elem_of_fmap. exists y. split; [done|]. apply list_elem_of_lookup. eauto.
Qed.

Lemma named_snoc l x o : named (node_name x) l = None -> named o (l ++ [x]) = if decide (o = node_name x) then Some x else named o l.
Proof.
  induction l as [|a l IH]; cbn.
  - intros _. case_decide; [by rewrite bool_decide_true|by rewrite bool_decide_false].
  - case_bool_decide as Ha; [done|]. intros Hn. rewrite IH by done. case_decide as Ho; [|done]. subst o. by rewrite bool_decide_false.
Qed.

Lemma position_find {A} (p : A -> bool) l : find p l = i ← position p l; l !! i.
Proof.
  unfold position. induction l as [|a l IH]; [done|]. cbn. destruct (p a) eqn:Ha; [by rewrite decide_True|].
  rewrite decide_False by congruence. rewrite IH. by destruct (list_find _ l) as [[]|].
Qed.

Lemma at_child_ok node name step child r :
  step (default (BuilderNode_new name) (child_named name node)) = Done (child, r) -> node_name child = name ->
  NoDup ((fun c => node_name c) <$> bn_children node) ->
  exists node', at_child node name step = Done (node', r) /\ view_of node' = view_of node /\
    NoDup ((fun c => node_name c) <$> bn_children node') /\
    (forall other, child_named other node' = if decide (other = name) then Some child else child_named other node).
Proof.
  intros Hstep Hname Hnd. unfold at_child, child_index_or_add, child_named in *. pose proof (position_find (fun c => bool_decide (node_name c = name)) (bn_children node)) as Hf.
  rewrite Hf in Hstep. destruct (position _ _) as [i|] eqn:Hp; cbn in Hf, Hstep.
  - destruct (bn_children node !! i) as [c|] eqn:Hi; cbn in Hstep; [|apply position_lt in Hp; apply lookup_ge_None in Hi; lia].
    assert (node_name c = node_name child) as Hc by (apply find_some in Hf as [_ Hf]; apply bool_decide_eq_true_1 in Hf; congruence).
    rewrite Hstep. eexists. split_and!; [done|done| |].
    + cbn. rewrite list_fmap_insert, list_insert_id; [done|]. rewrite list_lookup_fmap, Hi. cbn. by rewrite Hc.
    + intros o. cbn [bn_children with_children]. rewrite (named_insert _ _ _ c) by done. by rewrite Hname.
  - cbn [bn_children with_children]. rewrite lookup_app_r, Nat.sub_diag by lia. cbn. rewrite Hstep. eexists. split_and!; [done|done| |].
    + cbn. rewrite insert_app_r_alt, Nat.sub_diag by lia. cbn. rewrite fmap_app. cbn. apply NoDup_app. split_and!; [done| |apply NoDup_singleton].
      intros x (c & Hx & Hc)%list_elem_of_fmap Hx'%list_elem_of_singleton. apply list_elem_of_In in Hc.
      pose proof (find_none _ _ Hf c Hc) as Hcn. apply bool_decide_eq_false_1 in Hcn. congruence.
    + intros o. cbn [bn_children with_children]. rewrite insert_app_r_alt, Nat.sub_diag by lia.
      change (<[0%nat := child]> [BuilderNode_new name]) with [child].
      rewrite named_snoc by (rewrite Hname; exact Hf). by rewrite Hname.
Qed.

(** ** Where an entry goes *)

Inductive Kind := Exact (last : str) | Prefix (last : str) | Dir.

Definition kind_of (e : PropertyInfoEntry) (ends_with_dot : bool) (piece : str) (pieces : list str) : list str * Kind :=
  let ps := piece :: pieces in
  let l := default [] (last ps) in
  if pe_exact_match e then (removelast ps, Exact l)
  else if negb ends_with_dot then (removelast ps, Prefix l)
  else (ps, Dir).

(** The view of the node with the entry, unless it has one like it. *)
Definition set_view (e : PropertyInfoEntry) (k : Kind) (v : View) : option View :=
  let '(entry, prefixes, exact) := v in
  let context := Some (pe_context e) in
  let type_ := Some (pe_type e) in
  match k with
  | Exact l => if existsb (has_name l) exact then None else Some (entry, prefixes, exact ++ [mkEntryBuilder l context type_])
  | Prefix l => if existsb (has_name l) prefixes then None else Some (entry, prefixes ++ [mkEntryBuilder l context type_], exact)
  | Dir => if bool_decide (is_Some (eb_context entry)) || bool_decide (is_Some (eb_type entry)) then None
           else Some (mkEntryBuilder (eb_name entry) context type_, prefixes, exact)
  end.

(** The views after the one at [path] was set. *)
Definition set_at (name : str) (old : list str -> option View) (path : list str) (v : View) (q : list str) : option View :=
  if decide (q = path) then Some v
  else if decide (q `prefix_of` path) then Some (default (fresh name q) (old q)) else old q.

Definition added (node : BuilderNode) (path : list str) (v : option View) (out : outcome (BuilderNode * result unit InfoError)) : Prop :=
  exists node' r, out = Done (node', r) /\ node_name node' = node_name node /\
    match v with
    | None => exists err, r = Err err
    | Some v => r = Ok tt /\ names_ok node' /\ forall q, view node' q = set_at (node_name node) (view node) path v q
    end.

Lemma view_cons node c q : view node (c :: q) = child ← child_named c node; view child q.
Proof. unfold view. cbn. by destruct (child_named c node). Qed.

Lemma view_new name q : default (fresh name q) (view (BuilderNode_new name) q) = fresh name q.
Proof. by destruct q. Qed.

Lemma names_ok_new name : names_ok (BuilderNode_new name).
Proof. intros [|c q] n Hn; [injection Hn as <-; apply NoDup_nil_2|done]. Qed.

Lemma names_ok_default node name : names_ok node -> names_ok (default (BuilderNode_new name) (child_named name node)).
Proof. intros Hok. destruct (child_named name node) eqn:Hc; [by eapply names_ok_child|apply names_ok_new]. Qed.

Lemma default_name node name : node_name (default (BuilderNode_new name) (child_named name node)) = name.
Proof. destruct (child_named name node) eqn:Hc; [by apply child_named_in in Hc as [_ ?]|done]. Qed.

Lemma default_view node name q :
  default (fresh name q) (view (default (BuilderNode_new name) (child_named name node)) q) =
  default (fresh (node_name node) (name :: q)) (view node (name :: q)).
Proof.
  rewrite view_cons. assert (fresh (node_name node) (name :: q) = fresh name q) as ->.
  { unfold fresh. rewrite last_cons. by destruct (last q). }
  destruct (child_named name node); [done|]. apply view_new.
Qed.

Lemma added_child node name path v step :
  names_ok node -> added (default (BuilderNode_new name) (child_named name node)) path v (step (default (BuilderNode_new name) (child_named name node))) ->
  added node (name :: path) v (at_child node name step).
Proof.
  intros Hok (child & r & Hstep & Hn & Hv). rewrite default_name in Hn.
  destruct (at_child_ok node name step child r) as (node' & -> & Hview & Hnd & Hchild); [done|done|by apply (Hok [])|].
  exists node', r. injection Hview as He Hp Hx. split_and!; [done|by rewrite He|].
  destruct v as [v|]; [|done]. destruct Hv as (-> & Hok' & Hq). split_and!; [done|..].
  - intros [|c q] n Hsub; [by injection Hsub as <-|]. cbn in Hsub. rewrite Hchild in Hsub. case_decide; [by apply (Hok' q)|].
    apply (Hok (c :: q)). done.
  - intros [|c q].
    + unfold set_at. rewrite decide_False, decide_True; [|apply prefix_nil|done]. unfold view. cbn. unfold view_of. by rewrite He, Hp, Hx.
    + rewrite view_cons, Hchild. case_decide as Hc.
      * subst c. cbn. rewrite Hq, default_name. unfold set_at. rewrite default_view.
        destruct (decide (q = path)) as [->|]; [by rewrite decide_True|]. rewrite (decide_False (P := name :: q = name :: path)) by congruence.
        destruct (decide (q `prefix_of` path)) as [|Hnp]; [rewrite decide_True; [done|by apply prefix_cons]|].
        rewrite decide_False by (by intros ?%prefix_cons_inv_2). rewrite view_cons. destruct (child_named name node); [done|].
        destruct q; [by destruct Hnp; apply prefix_nil|done].
      * unfold set_at. rewrite decide_False, decide_False; [by rewrite view_cons|..]; [by intros ?%prefix_cons_inv_1|congruence].
Qed.

Lemma set_here_ok node v node' : node_name node' = node_name node -> bn_children node' = bn_children node -> view_of node' = v ->
  names_ok node -> added node [] (Some v) (Done (node', Ok tt)).
Proof.
  intros Hn Hc Hv Hok.
  assert (forall c q, sub node' (c :: q) = sub node (c :: q)) as Hsub by (intros c q; cbn; unfold child_named; by rewrite Hc).
  exists node', (Ok tt). split_and!; [done|done|done|..].
  - intros [|c q] n Hs; [injection Hs as <-; rewrite Hc; by apply (Hok [])|]. rewrite Hsub in Hs. by eapply Hok.
  - intros [|c q]; unfold set_at; [by rewrite decide_True by done; unfold view; cbn; rewrite Hv|].
    rewrite !decide_False; [by unfold view; rewrite Hsub|by intros ?%prefix_nil_inv|done].
Qed.

Lemma add_last_ok e d piece node : names_ok node ->
  let '(path, k) := kind_of e d piece [] in
  added node path (set_view e k (default (fresh (node_name node) path) (view node path))) (add_last e d piece node).
Proof.
  intros Hok. unfold kind_of, add_last. cbn [removelast last default]. destruct (pe_exact_match e); [|destruct d; cbn [negb]].
  - cbn. destruct (existsb _ _); [|by apply set_here_ok]. exists node, (Err (DuplicateExactMatch (pe_name e))). naive_solver.
  - rewrite <- default_view. apply added_child; [done|]. set (child := default _ _).
    assert (default (fresh piece []) (view child []) = view_of child) as -> by done.
    cbn. destruct (_ || _).
    + exists child, (Err (DuplicatePrefixMatch (pe_name e))). naive_solver.
    + apply set_here_ok; [done|done|done|]. by apply names_ok_default.
  - cbn. destruct (existsb _ _); [|by apply set_here_ok]. exists node, (Err (DuplicatePrefixMatch (pe_name e))). naive_solver.
Qed.

Lemma add_pieces_ok e d piece pieces node : names_ok node ->
  let '(path, k) := kind_of e d piece pieces in
  added node path (set_view e k (default (fresh (node_name node) path) (view node path))) (add_pieces e d piece pieces node).
Proof.
  revert piece node. induction pieces as [|next pieces IH]; intros piece node Hok; [by apply add_last_ok|].
  assert (kind_of e d piece (next :: pieces) = (piece :: (kind_of e d next pieces).1, (kind_of e d next pieces).2)) as ->.
  { unfold kind_of. destruct (pe_exact_match e); [|destruct d]; cbn [negb fst snd]; [| |]; rewrite ?last_cons_cons; done. }
  specialize (IH next _ (names_ok_default node piece Hok)). destruct (kind_of e d next pieces) as [path k]. cbn [fst snd].
  cbn [add_pieces]. rewrite <- default_view. apply added_child; [done|]. by rewrite default_name in IH.
Qed.

(** ** The trie of a list of entries *)

Definition place (e : PropertyInfoEntry) : option (list str * Kind) :=
  match pieces_of (pe_name e) with
  | ([], _) => None
  | (piece :: pieces, d) => Some (kind_of e d piece pieces)
  end.

Definition strings_of (name : str) (e : PropertyInfoEntry) : EntryBuilder := mkEntryBuilder name (Some (pe_context e)) (Some (pe_type e)).

Definition exact_at (q : list str) (e : PropertyInfoEntry) : option EntryBuilder :=
  match place e with Some (path, Exact l) => if decide (path = q) then Some (strings_of l e) else None | _ => None end.
Definition prefix_at (q : list str) (e : PropertyInfoEntry) : option EntryBuilder :=
  match place e with Some (path, Prefix l) => if decide (path = q) then Some (strings_of l e) else None | _ => None end.
Definition dir_at (q : list str) (e : PropertyInfoEntry) : option EntryBuilder :=
  match place e with Some (path, Dir) => if decide (path = q) then Some (strings_of (default [] (last q)) e) else None | _ => None end.
Definition passes (q : list str) (e : PropertyInfoEntry) : bool :=
  match place e with Some (path, _) => bool_decide (q `prefix_of` path) | None => false end.

Section spec.
Context (default_context default_type : str).

Definition raw_view (es : list PropertyInfoEntry) (q : list str) : View :=
  (match q with
   | [] => mkEntryBuilder (lit "root") (Some default_context) (Some default_type)
   | _ => default (mkEntryBuilder (default [] (last q)) None None) (head (omap (dir_at q) es))
   end, omap (prefix_at q) es, omap (exact_at q) es).

Definition spec_view (es : list PropertyInfoEntry) (q : list str) : option View :=
  if bool_decide (q = []) || existsb (passes q) es then Some (raw_view es q) else None.

Lemma absent_raw es q : q <> [] -> existsb (passes q) es = false -> raw_view es q = fresh (lit "root") q.
Proof.
  intros Hq Hno. assert (forall e, e ∈ es -> passes q e = false) as Hp.
  { intros e He. apply not_true_is_false. intros Ht. apply not_true_iff_false in Hno. apply Hno, existsb_exists. exists e. split; [by apply list_elem_of_In|done]. }
  assert (forall f : PropertyInfoEntry -> option EntryBuilder, (forall e, passes q e = false -> f e = None) -> omap f es = []) as Homap.
  { intros f Hf. clear Hno. induction es as [|e es IH]; [done|]. cbn. rewrite Hf by (apply Hp; by left). apply IH. intros. apply Hp. by right. }
  unfold raw_view. rewrite !Homap.
  { destruct q as [|c q]; [done|]. unfold fresh. destruct (last (c :: q)) eqn:Hl; [done|]. by apply last_None in Hl. }
  all: intros e; unfold passes, exact_at, prefix_at, dir_at; destruct (place e) as [[path []]|]; try done.
  all: intros He; destruct (decide (path = q)) as [->|]; [by rewrite bool_decide_true in He|done].
Qed.

Lemma default_spec es q : default (fresh (lit "root") q) (spec_view es q) = raw_view es q.
Proof.
  unfold spec_view. destruct (decide (q = [])) as [->|Hq]; [done|]. rewrite bool_decide_false by done. cbn [orb].
  destruct (existsb _ _) eqn:He; [done|]. symmetry. by apply absent_raw.
Qed.

(** An entry that is elsewhere. *)
Lemma raw_snoc_ne es e q path k : place e = Some (path, k) -> q <> path -> raw_view (es ++ [e]) q = raw_view es q.
Proof.
  intros Hp Hq. unfold raw_view. rewrite !omap_app. cbn. unfold dir_at at 2, prefix_at at 2, exact_at at 2. rewrite Hp.
  by destruct k; rewrite ?decide_False, !app_nil_r by congruence.
Qed.

Lemma raw_snoc_eq es e path k v : place e = Some (path, k) -> (k = Dir -> path <> []) ->
  set_view e k (raw_view es path) = Some v -> raw_view (es ++ [e]) path = v.
Proof.
  intros Hp Hroot. unfold raw_view. rewrite !omap_app.
  assert (omap (exact_at path) [e] = match k with Exact l => [strings_of l e] | _ => [] end) as ->.
  { cbn. unfold exact_at. rewrite Hp. destruct k; by rewrite ?decide_True. }
  assert (omap (prefix_at path) [e] = match k with Prefix l => [strings_of l e] | _ => [] end) as ->.
  { cbn. unfold prefix_at. rewrite Hp. destruct k; by rewrite ?decide_True. }
  assert (omap (dir_at path) [e] = match k with Dir => [strings_of (default [] (last path)) e] | _ => [] end) as ->.
  { cbn. unfold dir_at. rewrite Hp. destruct k; by rewrite ?decide_True. }
  destruct k as [l|l|]; cbn [set_view].
  - destruct (existsb _ _); [done|]. intros [= <-]. by rewrite !app_nil_r.
  - destruct (existsb _ _); [done|]. intros [= <-]. by rewrite !app_nil_r.
  - destruct path as [|c path]; [by destruct Hroot|]. rewrite !app_nil_r. destruct (omap (dir_at (c :: path)) es) as [|x xs] eqn:Ho; cbn.
    + intros [= <-]. done.
    + assert (x ∈ omap (dir_at (c :: path)) es) as Hx by (rewrite Ho; by left).
      apply list_elem_of_omap in Hx as (e' & _ & He'). unfold dir_at in He'. destruct (place e') as [[p' []]|]; try done. case_decide; [|done].
      injection He' as <-. done.
Qed.

Lemma spec_snoc es e path k v : place e = Some (path, k) -> (k = Dir -> path <> []) ->
  set_view e k (default (fresh (lit "root") path) (spec_view es path)) = Some v ->
  forall q, set_at (lit "root") (spec_view es) path v q = spec_view (es ++ [e]) q.
Proof.
  intros Hp Hroot Hv q. rewrite default_spec in Hv. unfold set_at. rewrite default_spec.
  assert (passes q e = bool_decide (q `prefix_of` path)) as Hpass by (unfold passes; by rewrite Hp).
  destruct (decide (q = path)) as [->|Hq]; [|destruct (decide (q `prefix_of` path)) as [Hpre|Hpre]].
  - unfold spec_view. rewrite existsb_app. cbn [existsb]. rewrite Hpass, (bool_decide_true (path `prefix_of` path)) by done. rewrite !orb_true_r.
    by rewrite (raw_snoc_eq _ _ _ k v).
  - unfold spec_view. rewrite existsb_app. cbn [existsb]. rewrite Hpass, (bool_decide_true (q `prefix_of` path)) by done. rewrite !orb_true_r.
    by rewrite (raw_snoc_ne _ _ _ _ _ Hp).
  - unfold spec_view. rewrite existsb_app. cbn [existsb]. rewrite Hpass, (bool_decide_false (q `prefix_of` path)) by done.
    rewrite !orb_false_r. by rewrite (raw_snoc_ne _ _ _ _ _ Hp).
Qed.

(** Two entries at one place cannot be added. *)
Lemma set_view_taken es e path k : place e = Some (path, k) -> (k = Dir -> path <> []) ->
  set_view e k (raw_view es path) = None <-> exists e', e' ∈ es /\ place e' = Some (path, k).
Proof.
  intros Hp Hroot. unfold raw_view, set_view. destruct k as [l|l|].
  - destruct (existsb _ _) eqn:He.
    + split; [intros _|done]. apply existsb_exists in He as (x & Hx%list_elem_of_In & Hl%bool_decide_eq_true_1).
      apply list_elem_of_omap in Hx as (e' & Hin & He'). exists e'. split; [done|]. unfold exact_at in He'.
      destruct (place e') as [[p' []]|]; try done. destruct (decide (p' = path)); [|done]. injection He' as <-. cbn in Hl. by subst.
    + split; [done|]. intros (e' & Hin & He'). apply not_true_iff_false in He. destruct He. apply existsb_exists. exists (strings_of l e').
      split; [|by apply bool_decide_true]. apply list_elem_of_In, list_elem_of_omap. exists e'. split; [done|]. unfold exact_at. rewrite He'. by rewrite decide_True.
  - destruct (existsb _ _) eqn:He.
    + split; [intros _|done]. apply existsb_exists in He as (x & Hx%list_elem_of_In & Hl%bool_decide_eq_true_1).
      apply list_elem_of_omap in Hx as (e' & Hin & He'). exists e'. split; [done|]. unfold prefix_at in He'.
      destruct (place e') as [[p' []]|]; try done. destruct (decide (p' = path)); [|done]. injection He' as <-. cbn in Hl. by subst.
    + split; [done|]. intros (e' & Hin & He'). apply not_true_iff_false in He. destruct He. apply existsb_exists. exists (strings_of l e').
      split; [|by apply bool_decide_true]. apply list_elem_of_In, list_elem_of_omap. exists e'. split; [done|]. unfold prefix_at. rewrite He'. by rewrite decide_True.
  - destruct path as [|c path]; [by destruct Hroot|]. destruct (omap (dir_at (c :: path)) es) as [|x xs] eqn:Ho; cbn.
    + split; [done|]. intros (e' & Hin & He'). assert (strings_of (default [] (last (c :: path))) e' ∈ omap (dir_at (c :: path)) es) as Hx.
      { apply list_elem_of_omap. exists e'. split; [done|]. unfold dir_at. rewrite He'. by rewrite decide_True. }
      rewrite Ho in Hx. by apply not_elem_of_nil in Hx.
    + assert (x ∈ omap (dir_at (c :: path)) es) as Hx by (rewrite Ho; by left).
      apply list_elem_of_omap in Hx as (e' & Hin & He'). unfold dir_at in He'. destruct (place e') as [[p' []]|] eqn:Hp'; try done.
      destruct (decide (p' = c :: path)); [|done]. injection He' as <-. cbn. split; [intros _; exists e'; by subst|done].
Qed.

(** ** Building *)

(** What a builder is after some entries. *)
Record holds (b : TrieBuilder) (es : list PropertyInfoEntry) : Prop := {
  ho_names : names_ok (tb_root b);
  ho_root : node_name (tb_root b) = lit "root";
  ho_view : forall q, view (tb_root b) q = spec_view es q;
  ho_contexts : tb_contexts b = foldl (fun set e => set_insert (pe_context e) set) [default_context] es;
  ho_types : tb_types b = foldl (fun set e => set_insert (pe_type e) set) [default_type] es;
}.

Lemma holds_new : holds (TrieBuilder_new default_context default_type) [].
Proof.
  split; [|done| |done|done].
  - intros [|c q] n Hn; [injection Hn as <-; apply NoDup_nil_2|done].
  - intros [|c q]; done.
Qed.

Lemma place_dir e path : place e = Some (path, Dir) -> path <> [].
Proof.
  unfold place. destruct (pieces_of _) as [[|p ps] d]; [done|]. unfold kind_of. destruct (pe_exact_match e); [done|]. destruct d; [|done]. by intros [= <-].
Qed.

Lemma trie_add_ok b es e : holds b es ->
  match place e with
  | None => exists b' err, TrieBuilder_add e b = Done (Err err, b')
  | Some p =>
      (exists e', e' ∈ es /\ place e' = Some p) /\ (exists b' err, TrieBuilder_add e b = Done (Err err, b')) \/
      (~ exists e', e' ∈ es /\ place e' = Some p) /\ (exists b', TrieBuilder_add e b = Done (Ok tt, b') /\ holds b' (es ++ [e]))
  end.
Proof.
  intros [Hn Hr Hv Hc Ht]. destruct (place e) as [[path k]|] eqn:Hp.
  - assert (k = Dir -> path <> []) as Hroot by (intros ->; by eapply place_dir).
    pose proof Hp as Hp'. unfold place in Hp'. unfold TrieBuilder_add, mbind, M_bind, get, put, call.
    destruct (pieces_of (pe_name e)) as [[|piece pieces] d]; [done|]. injection Hp' as Hk.
    pose proof (add_pieces_ok e d piece pieces (tb_root b) Hn) as Ha. rewrite Hk in Ha. destruct Ha as (node' & r & Hrun & Hname & Hres).
    cbn [tb_root]. rewrite Hrun. rewrite Hr, Hv, default_spec in Hres.
    destruct (set_view e k (raw_view es path)) as [v|] eqn:Hs.
    + right. split; [intros Hex; by rewrite (proj2 (set_view_taken es e path k Hp Hroot) Hex) in Hs|]. destruct Hres as (-> & Hok' & Hq).
      eexists. split; [done|]. split; cbn.
      * done.
      * by rewrite Hname.
      * intros q. rewrite Hq. unfold set_at at 1. rewrite Hv.
        rewrite <- (spec_snoc es e path k v); [done|done|done|by rewrite default_spec].
      * rewrite foldl_app. cbn. by rewrite Hc.
      * rewrite foldl_app. cbn. by rewrite Ht.
    + left. split; [by apply (set_view_taken es e path k)|]. destruct Hres as [err ->]. eauto.
  - unfold place in Hp. unfold TrieBuilder_add, mbind, M_bind, get, put. destruct (pieces_of _) as [[|] d]; [|done]. cbn. eauto.
Qed.

(** The entries are all added unless one has no place or the place of another. *)
Definition placed_apart (es : list PropertyInfoEntry) : Prop := Forall is_Some (place <$> es) /\ NoDup (place <$> es).

Lemma add_entries_ok es b done_ : holds b done_ -> Forall is_Some (place <$> done_) -> NoDup (place <$> done_) ->
  (placed_apart (done_ ++ es) /\ exists b', add_entries es b = Done (Ok tt, b') /\ holds b' (done_ ++ es)) \/
  (~ placed_apart (done_ ++ es) /\ exists b' err, add_entries es b = Done (Err err, b')).
Proof.
  revert b done_. induction es as [|e es IH]; intros b done_ Hh Hs Hnd.
  { left. rewrite app_nil_r. split; [done|]. by exists b. }
  pose proof (trie_add_ok b done_ e Hh) as Ha. cbn [add_entries]. unfold mbind, M_bind.
  assert (placed_apart (done_ ++ e :: es) -> is_Some (place e) /\ ~ exists e', e' ∈ done_ /\ place e' = place e) as Hapart.
  { intros [Hs' Hnd']. rewrite fmap_app in *. cbn in *. apply list.Forall_app in Hs' as [_ Hs']. apply list.Forall_cons in Hs' as [He _].
    split; [done|]. intros (e' & Hin & Heq). apply NoDup_app in Hnd' as (_ & Hd & _). apply (Hd (place e)); [|by left].
    rewrite <- Heq. by apply list_elem_of_fmap_2. }
  destruct (place e) as [p|] eqn:Hp.
  - destruct Ha as [(Hex & b' & err & ->)|(Hno & b' & -> & Hh')].
    + right. split; [intros Hpa; by apply (Hapart Hpa)|eauto].
    + replace (done_ ++ e :: es) with ((done_ ++ [e]) ++ es) by (by rewrite <- app_assoc).
      apply IH; [done|rewrite fmap_app; cbn; apply list.Forall_app; split; [done|]; rewrite Hp; by apply list.Forall_singleton|].
      rewrite fmap_app. cbn. apply NoDup_app. split_and!; [done| |apply NoDup_singleton].
      intros x (e' & -> & Hin)%list_elem_of_fmap Hx%list_elem_of_singleton. apply Hno. exists e'. split; [done|]. congruence.
  - destruct Ha as (b' & err & ->). right. split; [intros Hpa; destruct (Hapart Hpa) as [[? ?] _]; done|eauto].
Qed.

End spec.
