(* ===== verification/InfoMatch.v ===== *)
(** The serialized trie of [Info] answers with the entry that matches best: an
    exact one, or else the longest prefix. *)

From Stdlib Require Import ZArith Lia.
From Stdlib Require Import Strings.String Strings.Byte.
From stdpp Require Import base numbers list.
From S2P Require Import Prelude Text Bytes Libbase CxxSort CxxOrder.
From S2P Require Import Info InfoEncode InfoOrder InfoWrite InfoRead.
From S2P Require Import InfoTrie InfoBuild.

Open Scope Z_scope.

(** ** Names and their pieces *)

Lemma split_pieces s d piece b : piece ∈ split s d -> b ∈ piece -> b ∈ s /\ b <> d.
Proof.
  revert piece. induction s as [|x s IH]; intros piece; cbn.
  - intros ->%list_elem_of_singleton Hb. by apply not_elem_of_nil in Hb.
  - case_decide as Hx.
    + intros [->|Hp]%elem_of_cons Hb; [by apply not_elem_of_nil in Hb|]. destruct (IH _ Hp Hb). split; [by right|done].
    + destruct (split s d) as [|p ps] eqn:Hs.
      * intros ->%list_elem_of_singleton ->%list_elem_of_singleton. split; [by left|done].
      * intros [->|Hp]%elem_of_cons Hb.
        -- apply elem_of_cons in Hb as [->|Hb]; [split; [by left|done]|]. destruct (IH p) as [? ?]; [by left|done|]. split; [by right|done].
        -- destruct (IH piece) as [? ?]; [by right|done|]. split; [by right|done].
Qed.

(** The pieces before the last with their dots. *)
Definition dotted (q : list str) : str := concat ((fun c => c ++ [dot]) <$> q).
Definition dot_free (s : str) : Prop := dot ∉ s.

Lemma split_free p : dot_free p -> split p dot = [p].
Proof.
  unfold dot_free. induction p as [|b p IH]; intros Hp; [done|]. apply not_elem_of_cons in Hp as [Hb Hp]. cbn.
  rewrite decide_False by congruence. by rewrite IH.
Qed.

Lemma split_piece c r : dot_free c -> split (c ++ dot :: r) dot = c :: split r dot.
Proof.
  unfold dot_free. induction c as [|b c IH]; intros Hc; cbn.
  - by rewrite decide_True.
  - apply not_elem_of_cons in Hc as [Hb Hc]. rewrite decide_False by congruence. by rewrite IH.
Qed.

Lemma split_dotted q r : Forall dot_free q -> split (dotted q ++ r) dot = q ++ split r dot.
Proof.
  induction q as [|c q IH]; intros Hq; [done|]. apply list.Forall_cons in Hq as [Hc Hq].
  change (dotted (c :: q)) with ((c ++ [dot]) ++ dotted q). rewrite <- !app_assoc. cbn [app]. rewrite split_piece by done. by rewrite IH.
Qed.


Lemma split_join s : exists q r, s = dotted q ++ r /\ Forall dot_free q /\ dot_free r.
Proof.
  induction s as [|b s IH].
  - exists [], []. split_and!; [done|by apply list.Forall_nil_2|by apply not_elem_of_nil].
  - destruct IH as (q & r & -> & Hq & Hr). destruct (decide (b = dot)) as [->|Hb].
    + exists ([] :: q), r. split_and!; [done| |done]. apply list.Forall_cons. split; [by apply not_elem_of_nil|done].
    + destruct q as [|c q].
      * exists [], (b :: r). split_and!; [done..|]. by apply not_elem_of_cons.
      * apply list.Forall_cons in Hq as [Hc Hq]. exists ((b :: c) :: q), r. split_and!; [done| |done].
        apply list.Forall_cons. split; [by apply not_elem_of_cons|done].
Qed.

(** The two forms of a name: with a dot at its end and without. *)
Lemma pieces_dotted q : q <> [] -> Forall dot_free q -> pieces_of (dotted q) = (q, true).
Proof.
  intros Hne Hq. unfold pieces_of. rewrite <- (app_nil_r (dotted q)), split_dotted by done. cbn [split].
  rewrite last_snoc, bool_decide_true by done. by rewrite removelast_last.
Qed.

Lemma pieces_plain q r : r <> [] -> Forall dot_free q -> dot_free r -> pieces_of (dotted q ++ r) = (q ++ [r], false).
Proof.
  intros Hne Hq Hr. unfold pieces_of. rewrite split_dotted, split_free by done. rewrite last_snoc.
  rewrite bool_decide_false; [done|congruence].
Qed.

Lemma name_forms name : name <> [] ->
  (exists q, q <> [] /\ Forall dot_free q /\ name = dotted q) \/
  (exists q r, r <> [] /\ Forall dot_free q /\ dot_free r /\ name = dotted q ++ r).
Proof.
  intros Hne. destruct (split_join name) as (q & r & -> & Hq & Hr). destruct (decide (r = [])) as [->|Hr0].
  - left. exists q. rewrite app_nil_r in *. split_and!; [by intros ->|done..].
  - right. by exists q, r.
Qed.

Lemma dotted_app q q' : dotted (q ++ q') = dotted q ++ dotted q'.
Proof. unfold dotted. by rewrite fmap_app, concat_app. Qed.
Lemma dotted_snoc q c : dotted (q ++ [c]) = dotted q ++ c ++ [dot].
Proof. rewrite dotted_app. cbn. by rewrite app_nil_r. Qed.

Lemma dotted_inj q q' r r' : Forall dot_free q -> Forall dot_free q' -> dot_free r -> dot_free r' -> dotted q ++ r = dotted q' ++ r' -> q = q' /\ r = r'.
Proof.
  intros Hq Hq' Hr Hr' Heq. apply (f_equal (fun s => split s dot)) in Heq. rewrite !split_dotted, !split_free in Heq by done.
  by apply app_inj_tail in Heq.
Qed.

Lemma dotted_prefix q q' r r' : Forall dot_free q -> Forall dot_free q' -> dot_free r -> dotted q ++ r = dotted q' ++ r' -> q' `prefix_of` q.
Proof.
  intros Hq Hq' Hr Heq. apply (f_equal (fun s => split s dot)) in Heq. rewrite !split_dotted, split_free in Heq by done.
  revert Heq. generalize (split_nonempty r' dot). generalize (split r' dot) as l. intros l Hne Heq.
  destruct l as [|x xs _] using rev_ind; [done|].
  rewrite app_assoc in Heq. apply app_inj_tail in Heq as [-> _]. by exists xs.
Qed.

(** ** The place of an entry *)

Definition exact_name (name : str) : str := if bool_decide (last name = Some dot) then removelast name else name.

(** What an entry's place says of its name. *)
Definition at_place (e : PropertyInfoEntry) (path : list str) (k : Kind) : Prop :=
  Forall dot_free path /\
  match k with
  | Exact l => pe_exact_match e = true /\ dot_free l /\ exact_name (pe_name e) = dotted path ++ l
  | Prefix l => pe_exact_match e = false /\ dot_free l /\ l <> [] /\ pe_name e = dotted path ++ l
  | Dir => pe_exact_match e = false /\ path <> [] /\ pe_name e = dotted path
  end.

Lemma last_dotted q r : dot_free r -> last (dotted q ++ r) = Some dot -> r = [].
Proof.
  intros Hr Hl. destruct r as [|b r _] using rev_ind; [done|]. rewrite app_assoc, last_snoc in Hl. injection Hl as ->.
  destruct Hr. apply elem_of_app. right. by left.
Qed.

Lemma place_eq e q c d : pieces_of (pe_name e) = (q ++ [c], d) ->
  place e = Some (if pe_exact_match e then (q, Exact c) else if negb d then (q, Prefix c) else (q ++ [c], Dir)).
Proof.
  intros Hp. unfold place. rewrite Hp. destruct (q ++ [c]) as [|p ps] eqn:Hps; [by destruct q|]. unfold kind_of.
  rewrite <- Hps, last_snoc, removelast_last. done.
Qed.

Lemma place_ok e : pe_name e <> [] -> exists path k, place e = Some (path, k) /\ at_place e path k.
Proof.
  intros Hne. unfold at_place. destruct (name_forms _ Hne) as [(q & Hq0 & Hq & Hn)|(q & r & Hr0 & Hq & Hr & Hn)].
  - destruct q as [|c q _] using rev_ind; [done|]. pose proof Hq as [Hq' Hc]%list.Forall_app. rewrite list.Forall_singleton in Hc.
    rewrite (place_eq e q c true) by (rewrite Hn; by apply pieces_dotted). destruct (pe_exact_match e); eexists _, _; (split; [done|]); cbn.
    + split_and!; [done..|]. unfold exact_name. rewrite Hn, dotted_snoc, app_assoc, last_snoc, bool_decide_true by done. by rewrite removelast_last.
    + done.
  - rewrite (place_eq e q r false) by (rewrite Hn; by apply pieces_plain). destruct (pe_exact_match e); eexists _, _; (split; [done|]); cbn.
    + split_and!; [done..|]. unfold exact_name. rewrite bool_decide_false; [done|]. rewrite Hn. by intros ?%last_dotted.
    + done.
Qed.

Lemma place_none e : pe_name e = [] -> place e = None.
Proof. unfold place. by intros ->. Qed.

(** ** The entry that matches *)

Definition is_exact (name : str) (e : PropertyInfoEntry) : bool := pe_exact_match e && bool_decide (exact_name (pe_name e) = name).
Definition is_prefix (name : str) (e : PropertyInfoEntry) : bool := negb (pe_exact_match e) && starts_with (pe_name e) name.

Fixpoint longest (name : str) (best : PropertyInfoEntry) (es : list PropertyInfoEntry) : PropertyInfoEntry :=
  match es with
  | [] => best
  | e :: es => longest name (if is_prefix name e && (length (pe_name best) <? length (pe_name e))%nat then e else best) es
  end.

(** An exact match, or the longest prefix, or else the default. *)
Definition winner (fallback : PropertyInfoEntry) (es : list PropertyInfoEntry) (name : str) : PropertyInfoEntry :=
  match find (is_exact name) es with Some e => e | None => longest name fallback es end.

Lemma longest_spec name best es (w := longest name best es) :
  (w = best \/ w ∈ es /\ is_prefix name w = true) /\ (length (pe_name best) <= length (pe_name w))%nat /\
  forall e, e ∈ es -> is_prefix name e = true -> (length (pe_name e) <= length (pe_name w))%nat.
Proof.
  unfold w. clear w. revert best. induction es as [|e es IH]; intros best; cbn [longest].
  { split_and!; [by left|done|]. by intros e ?%not_elem_of_nil. }
  destruct (is_prefix name e) eqn:He; cbn [andb].
  - destruct (Nat.ltb_spec (length (pe_name best)) (length (pe_name e))) as [Hlt|Hge].
    + destruct (IH e) as (Hw & Hb & Hall). split_and!.
      * right. destruct Hw as [->|[Hin Hp]]; [split; [by left|done]|split; [by right|done]].
      * lia.
      * intros x [->|Hx]%elem_of_cons Hxp; [done|by apply Hall].
    + destruct (IH best) as (Hw & Hb & Hall). split_and!.
      * destruct Hw as [->|[Hin Hp]]; [by left|right; split; [by right|done]].
      * done.
      * intros x [->|Hx]%elem_of_cons Hxp; [lia|by apply Hall].
  - destruct (IH best) as (Hw & Hb & Hall). split_and!; [destruct Hw as [->|[Hin Hp]]; [by left|right; split; [by right|done]]|done|].
    intros x [->|Hx]%elem_of_cons Hxp; [congruence|by apply Hall].
Qed.

Lemma starts_with_app p s : starts_with p s = true <-> exists r, s = p ++ r.
Proof.
  unfold starts_with. rewrite bool_decide_eq_true. split.
  - intros Ht. exists (drop (length p) s). rewrite <- Ht at 1. by rewrite take_drop.
  - intros [r ->]. by rewrite take_app_length.
Qed.

Lemma find_longest (p : EntryBuilder -> bool) es x : find p (sorted Serializer.longer_name es) = Some x ->
  x ∈ es /\ p x = true /\ forall y, y ∈ es -> p y = true -> (length (eb_name y) <= length (eb_name x))%nat.
Proof.
  intros Hf. pose proof Hf as [Hin Hp]%find_some. apply list_elem_of_In in Hin. rewrite (sorted_perm Serializer.longer_name) in Hin.
  split_and!; [done..|]. intros y Hy Hpy. rewrite <- (sorted_perm Serializer.longer_name) in Hy. apply list_elem_of_lookup in Hy as [j Hj].
  rewrite position_find in Hf. destruct (position p _) as [i|] eqn:Hi; [|done]. cbn in Hf.
  assert (i <= j)%nat as Hij.
  { unfold position in Hi. destruct (list_find _ _) as [[i' z]|] eqn:Hl; [|done]. injection Hi as <-.
    apply list_find_Some in Hl as (_ & _ & Hbefore). destruct (decide (i' <= j)%nat); [done|]. destruct (Hbefore j y Hj ltac:(lia)). done. }
  destruct (decide (i = j)) as [->|]; [rewrite Hf in Hj; injection Hj as ->; done|].
  pose proof (sorted_ordered Serializer.longer_name es i j x y ltac:(lia) Hf Hj) as Hs. unfold Serializer.longer_name, zlen in Hs.
  apply Z.ltb_ge in Hs. lia.
Qed.

(** The first dot of a name. *)
Lemma dot_at s sep : position (fun b => bool_decide (b = dot)) s = Some sep ->
  exists h rest, s = h ++ dot :: rest /\ dot_free h /\ length h = sep.
Proof.
  unfold position. destruct (list_find _ s) as [[i x]|] eqn:Hf; [|done]. intros [= <-].
  apply list_find_Some in Hf as (Hi & Hx & Hbefore). apply bool_decide_eq_true_1 in Hx. subst x.
  exists (take i s), (drop (S i) s). split_and!; [by rewrite take_drop_middle| |].
  - intros [j Hj]%list_elem_of_lookup. apply lookup_take_Some in Hj as [Hj Hlt]. destruct (Hbefore j dot Hj Hlt). by rewrite bool_decide_true.
  - apply lookup_lt_Some in Hi. rewrite length_take. lia.
Qed.

Lemma no_dot s : position (fun b => bool_decide (b = dot)) s = None -> dot_free s.
Proof.
  unfold position. destruct (list_find _ s) as [[i x]|] eqn:Hf; [done|]. intros _. apply list_find_None in Hf. intros Hin.
  rewrite list.Forall_forall in Hf. apply (Hf dot Hin). by rewrite bool_decide_true.
Qed.

(** ** The walk *)

Section walk.
Context (default_context default_type : str) (es : list PropertyInfoEntry) (b : TrieBuilder).
Context (Hholds : holds default_context default_type b es) (Hapart : placed_apart es) (name : str).

Definition fallback : PropertyInfoEntry := mkPropertyInfoEntry [] default_context default_type false.

Lemma entry_placed e : e ∈ es -> exists path k, place e = Some (path, k) /\ at_place e path k.
Proof.
  intros He. apply place_ok. intros Hn. destruct Hapart as [Hs _]. rewrite list.Forall_fmap, list.Forall_forall in Hs.
  destruct (Hs e He) as [p Hp]. cbn in Hp. by rewrite place_none in Hp.
Qed.

Lemma same_place e e' : e ∈ es -> e' ∈ es -> place e = place e' -> e = e'.
Proof.
  intros [i Hi]%list_elem_of_lookup [j Hj]%list_elem_of_lookup Heq. destruct Hapart as [_ Hnd].
  assert (i = j); [|congruence]. apply (NoDup_lookup _ i j (place e) Hnd); rewrite list_lookup_fmap; [by rewrite Hi|rewrite Hj; cbn; congruence].
Qed.

(** The strings found are those of [w]. *)
Definition shows (w : PropertyInfoEntry) (ct : option str * option str) : Prop :=
  (Forall (fun e => pe_context e <> []) (fallback :: es) -> ct.1 = Some (pe_context w)) /\
  (Forall (fun e => pe_type e <> []) (fallback :: es) -> ct.2 = Some (pe_type w)).

Lemma pick_shows l w ct : w ∈ fallback :: es -> shows w (pick_entry (strings_of l w) ct).
Proof.
  intros Hw. split; intros Hall; rewrite list.Forall_forall in Hall; specialize (Hall w Hw); cbn.
  - by destruct (pe_context w).
  - by destruct (pe_type w).
Qed.

Lemma pick_nothing l ct : pick_entry (mkEntryBuilder l None None) ct = ct.
Proof. by destruct ct. Qed.

(** [w] is the longest prefix among those shorter than [bound]. *)
Definition best (bound : nat) (w : PropertyInfoEntry) : Prop :=
  (w = fallback \/ w ∈ es /\ is_prefix name w = true) /\
  forall e, e ∈ es -> is_prefix name e = true -> (length (pe_name e) < bound)%nat -> (length (pe_name e) <= length (pe_name w))%nat.

Lemma best_longest bound w : best bound w -> (length name < bound)%nat -> w = longest name fallback es.
Proof.
  intros [Hw Hmax] Hb. destruct (longest_spec name fallback es) as (Hl & _ & Hlmax). set (l := longest name fallback es) in *.
  assert (forall e, e ∈ es -> is_prefix name e = true -> (0 < length (pe_name e) <= length name)%nat) as Hlen.
  { intros e He Hp. apply andb_true_iff in Hp as [_ Hp]. apply starts_with_app in Hp as [r Hr]. rewrite Hr, length_app. split; [|lia].
    destruct (entry_placed e He) as (path & k & Hpl & _). destruct (pe_name e) eqn:Hn; [by rewrite place_none in Hpl|cbn; lia]. }
  destruct Hw as [->|[Hw Hwp]]; destruct Hl as [->|[Hl Hlp]]; [done|..].
  - pose proof (Hmax l Hl Hlp ltac:(pose proof (Hlen l Hl Hlp); lia)) as H1. pose proof (Hlen l Hl Hlp). cbn in H1. lia.
  - pose proof (Hlmax w Hw Hwp) as H1. pose proof (Hlen w Hw Hwp). cbn in H1. lia.
  - assert (length (pe_name l) = length (pe_name w)) as Heq.
    { pose proof (Hmax l Hl Hlp ltac:(pose proof (Hlen l Hl Hlp); lia)). pose proof (Hlmax w Hw Hwp). lia. }
    apply andb_true_iff in Hwp as [Hwe Hwp]. apply andb_true_iff in Hlp as [Hle Hlp]. apply negb_true_iff in Hwe, Hle.
    apply starts_with_app in Hwp as [r Hr]. apply starts_with_app in Hlp as [r' Hr']. rewrite Hr in Hr'. apply app_inj_1 in Hr' as [Hn _]; [|done].
    apply same_place; [done..|]. unfold place. rewrite Hn. destruct (pieces_of _) as [[|p ps] d]; [done|]. unfold kind_of. by rewrite Hwe, Hle.
Qed.

Lemma prefix_is e : is_prefix name e = true -> pe_exact_match e = false /\ pe_name e = take (length (pe_name e)) name.
Proof.
  intros [He Hp]%andb_true_iff. apply negb_true_iff in He. split; [done|]. apply starts_with_app in Hp as [r ->]. by rewrite take_app_length.
Qed.

Section node.
Context (q : list str) (n : BuilderNode) (remaining : str).
Context (Hsub : sub (tb_root b) q = Some n) (Hfree : Forall dot_free q) (Hname : name = dotted q ++ remaining).

Lemma node_view : view_of n = raw_view default_context default_type es q.
Proof.
  pose proof (ho_view _ _ _ _ Hholds q) as Hv. unfold view in Hv. rewrite Hsub in Hv. cbn in Hv. unfold spec_view in Hv.
  destruct (_ || _); [by apply (inj Some)|done].
Qed.

Lemma step_dir w ct : q <> [] -> best (length (dotted q)) w -> shows w ct ->
  exists w', best (S (length (dotted q))) w' /\ shows w' (pick_entry (bn_entry n) ct).
Proof.
  intros Hq [Hw Hmax] Hct. pose proof node_view as Hv. unfold view_of, raw_view in Hv. injection Hv as Hent _ _.
  assert (bn_entry n = default (mkEntryBuilder (default [] (last q)) None None) (head (omap (dir_at q) es))) as ->.
  { rewrite Hent. clear -Hq. by destruct q. }
  assert (forall e, e ∈ es -> is_prefix name e = true -> length (pe_name e) = length (dotted q) -> place e = Some (q, Dir)) as Hdir.
  { intros e He Hp Hl. destruct (prefix_is e Hp) as [Hex Hn]. rewrite Hl, Hname, take_app_length in Hn.
    pose proof (app_removelast_last [] Hq) as Hq'.
    rewrite (place_eq e (removelast q) (List.last q []) true), Hex, <- Hq'; [done|]. rewrite Hn, <- Hq'. by apply pieces_dotted. }
  destruct (omap (dir_at q) es) as [|x xs] eqn:Ho; cbn [head default].
  - rewrite pick_nothing. exists w. split; [|done]. split; [done|]. intros e He Hp Hl.
    destruct (decide (length (pe_name e) = length (dotted q))) as [Hl'|]; [|apply Hmax; [done..|lia]].
    exfalso. pose proof (Hdir e He Hp Hl') as Hd. assert (strings_of (default [] (last q)) e ∈ omap (dir_at q) es) as Hin.
    { apply list_elem_of_omap. exists e. split; [done|]. unfold dir_at. rewrite Hd. by rewrite decide_True. }
    rewrite Ho in Hin. by apply not_elem_of_nil in Hin.
  - assert (x ∈ omap (dir_at q) es) as (e & Hin & He)%list_elem_of_omap by (rewrite Ho; by left).
    unfold dir_at in He. destruct (place e) as [[p []]|] eqn:Hp; try done. destruct (decide (p = q)) as [->|]; [|done]. injection He as <-.
    exists e. split; [|apply pick_shows; by right]. destruct (entry_placed e Hin) as (p' & k' & Hp' & Hat). rewrite Hp in Hp'. injection Hp' as <- <-.
    destruct Hat as (_ & Hex & _ & Hn). split.
    + right. split; [done|]. unfold is_prefix. rewrite Hex. cbn. apply starts_with_app. exists remaining. by rewrite Hn.
    + intros e' _ _ Hl. rewrite Hn. lia.
Qed.

Lemma step_prefix w ct h t :
  remaining = h ++ t -> dot_free h -> best (S (length (dotted q))) w -> shows w ct ->
  exists w', best (S (length (dotted q) + length h)) w' /\ shows w' (prefix_match n remaining ct) /\
    shows w' (prefix_match n remaining (prefix_match n remaining ct)).
Proof.
  intros Hrem Hh [Hw Hmax] Hct. pose proof node_view as Hv. unfold view_of, raw_view in Hv. injection Hv as _ Hpre _.
  unfold prefix_match, sorted_prefixes. rewrite Hpre. clear Hpre.
  assert (forall e, e ∈ es -> is_prefix name e = true -> (length (dotted q) < length (pe_name e) <= length (dotted q) + length h)%nat ->
    exists l, strings_of l e ∈ omap (prefix_at q) es /\ starts_with l remaining = true /\ length (pe_name e) = (length (dotted q) + length l)%nat) as Hin.
  { intros e He Hp Hl. destruct (prefix_is e Hp) as [Hex Hn].
    set (k := (length (pe_name e) - length (dotted q))%nat). assert (pe_name e = dotted q ++ take k h) as Hn'.
    { rewrite Hn, Hname, Hrem, take_app_ge by lia. f_equal. fold k. rewrite take_app_le by lia. done. }
    exists (take k h). split_and!.
    - apply list_elem_of_omap. exists e. split; [done|]. unfold prefix_at.
      rewrite (place_eq e q (take k h) false), Hex; [cbn; by rewrite decide_True|]. rewrite Hn'. apply pieces_plain; [|done|].
      + intros He0. apply (f_equal length) in He0. rewrite length_take in He0. cbn in He0. lia.
      + intros Hd. apply Hh. rewrite <- (take_drop k h). apply elem_of_app. by left.
    - apply starts_with_app. exists (drop k h ++ t). by rewrite app_assoc, take_drop.
    - rewrite length_take. lia. }
  destruct (find _ _) as [x|] eqn:Hf.
  - destruct (find_longest _ _ _ Hf) as (Hx & Hs & Hlong). apply list_elem_of_omap in Hx as (e & He & Hpx).
    unfold prefix_at in Hpx. destruct (place e) as [[p [l0|l0|]]|] eqn:Hp; try done. destruct (decide (p = q)) as [->|]; [|done]. injection Hpx as <-.
    exists e. destruct (entry_placed e He) as (p' & k' & Hp' & Hat). rewrite Hp in Hp'. injection Hp' as <- <-. destruct Hat as (_ & Hex & Hl & Hne & Hn).
    assert (shows e (pick_entry (strings_of l0 e) ct)) by (apply pick_shows; by right). cbn in Hs.
    split_and!; [|done|apply pick_shows; by right]. split.
    + right. split; [done|]. unfold is_prefix. rewrite Hex. cbn. apply starts_with_app in Hs as [u Hu]. apply starts_with_app. exists u.
      by rewrite Hn, Hname, Hu, app_assoc.
    + intros e' He' Hp' Hb. destruct (decide (length (pe_name e') <= length (dotted q))%nat); [rewrite Hn, length_app; lia|].
      destruct (Hin e' He' Hp' ltac:(lia)) as (l & Hl' & Hsl & Hlen). specialize (Hlong _ Hl' Hsl). cbn in Hlong. rewrite Hn, length_app. lia.
  - exists w. split_and!; [|done..]. split; [done|]. intros e He Hp Hl.
    destruct (decide (length (pe_name e) <= length (dotted q))%nat); [apply Hmax; [done..|lia]|].
    destruct (Hin e He Hp ltac:(lia)) as (l & Hl' & Hsl & _). exfalso.
    pose proof (find_none _ _ Hf (strings_of l e)) as Hno. cbn in Hno. rewrite Hsl in Hno. discriminate Hno.
    apply list_elem_of_In. by rewrite (sorted_perm Serializer.longer_name).
Qed.

(** At the root the default is found first. *)
Lemma step_entry ct : q = [] \/ (exists w, best (length (dotted q)) w /\ shows w ct) ->
  exists w, best (S (length (dotted q))) w /\ shows w (pick_entry (bn_entry n) ct).
Proof.
  intros Hct. destruct (decide (q = [])) as [Hq|Hq]; [|destruct Hct as [|(w & Hw & Hs)]; [done|by apply (step_dir w)]].
  exists fallback. pose proof node_view as Hv. unfold view_of, raw_view in Hv. injection Hv as He _ _.
  assert (bn_entry n = strings_of (lit "root") fallback) as ->; [by rewrite He, Hq|]. split; [|apply pick_shows; by left].
  split; [by left|]. intros e He' _ Hl. rewrite Hq in Hl. cbn in Hl.
  destruct (entry_placed e He') as (path & k & Hp & _). destruct (pe_name e) eqn:Hn; [by rewrite place_none in Hp|cbn in Hl; lia].
Qed.

(** *** Exact matches *)

Lemma exact_place e : e ∈ es -> is_exact name e = true ->
  exists path l, place e = Some (path, Exact l) /\ Forall dot_free path /\ dot_free l /\ dotted path ++ l = name.
Proof.
  intros He [Hex Hn]%andb_true_iff. apply bool_decide_eq_true_1 in Hn. destruct (entry_placed e He) as (path & k & Hp & Hpath & Hk).
  destruct k as [l|l|]; destruct Hk as (Hex' & Hl & Hk); [|congruence..]. exists path, l. split_and!; [done..|congruence].
Qed.

Lemma exact_found x : find (has_name remaining) (sorted_exact n) = Some x ->
  exists e, e ∈ es /\ is_exact name e = true /\ x = strings_of remaining e.
Proof.
  intros [Hin Hx]%find_some. apply list_elem_of_In in Hin. unfold sorted_exact in Hin. rewrite (sorted_perm Serializer.name_before) in Hin.
  apply bool_decide_eq_true_1 in Hx. pose proof node_view as Hv. unfold view_of, raw_view in Hv. injection Hv as _ _ Hex. rewrite Hex in Hin.
  apply list_elem_of_omap in Hin as (e & He & Hpx). unfold exact_at in Hpx. destruct (place e) as [[p [l|l|]]|] eqn:Hp; try done.
  destruct (decide (p = q)) as [->|]; [|done]. injection Hpx as <-. cbn in Hx. subst l. exists e. split_and!; [done| |done].
  destruct (entry_placed e He) as (p' & k' & Hp' & Hat). rewrite Hp in Hp'. injection Hp' as <- <-. destruct Hat as (_ & Hexe & _ & Hn).
  unfold is_exact. rewrite Hexe, Hn. cbn. by apply bool_decide_true.
Qed.

Lemma exact_missed : find (has_name remaining) (sorted_exact n) = None -> dot_free remaining ->
  forall e, e ∈ es -> is_exact name e = false.
Proof.
  intros Hf Hr e He. destruct (is_exact name e) eqn:Hex; [|done]. destruct (exact_place e He Hex) as (path & l & Hp & Hpath & Hl & Hn).
  rewrite Hname in Hn. apply dotted_inj in Hn as [-> ->]; [|done..].
  pose proof (find_none _ _ Hf (strings_of remaining e)) as Hno. unfold has_name in Hno. cbn in Hno. rewrite bool_decide_true in Hno by done.
  discriminate Hno. apply list_elem_of_In. unfold sorted_exact. rewrite (sorted_perm Serializer.name_before).
  pose proof node_view as Hv. unfold view_of, raw_view in Hv. injection Hv as _ _ ->. apply list_elem_of_omap. exists e. split; [done|].
  unfold exact_at. rewrite Hp. by rewrite decide_True.
Qed.

(** Without the child no entry goes on there. *)
Lemma no_child c rest : child_named c n = None -> dot_free c -> remaining = c ++ dot :: rest ->
  (forall e, e ∈ es -> is_exact name e = false) /\
  (forall e, e ∈ es -> is_prefix name e = true -> (length (pe_name e) <= length (dotted q) + length c)%nat).
Proof.
  intros Hc Hfc Hrem. assert (Forall dot_free (q ++ [c])) as Hq' by (apply list.Forall_app; split; [done|by apply list.Forall_singleton]).
  assert (name = dotted (q ++ [c]) ++ rest) as Hn by (by rewrite dotted_snoc, Hname, Hrem, <- !app_assoc).
  assert (forall e, e ∈ es -> passes (q ++ [c]) e = false) as Hno.
  { intros e He. destruct (passes (q ++ [c]) e) eqn:Hp; [|done]. exfalso. pose proof (ho_view _ _ _ _ Hholds (q ++ [c])) as Hv.
    unfold spec_view in Hv. rewrite (proj2 (existsb_exists (passes (q ++ [c])) es)) in Hv by (exists e; split; [by apply list_elem_of_In|done]).
    rewrite orb_true_r in Hv. unfold view in Hv. assert (sub (tb_root b) (q ++ [c]) = None) as Hs; [|by rewrite Hs in Hv].
    by rewrite (sub_snoc _ _ _ n). }
  split.
  - intros e He. destruct (is_exact name e) eqn:Hex; [|done]. destruct (exact_place e He Hex) as (path & l & Hp & Hpath & Hl & Hen).
    rewrite Hn in Hen. apply dotted_prefix in Hen; [|done..]. specialize (Hno e He). unfold passes in Hno. rewrite Hp in Hno.
    by rewrite bool_decide_true in Hno.
  - intros e He Hp. destruct (decide (length (pe_name e) <= length (dotted q) + length c)%nat) as [|Hgt]; [done|]. exfalso.
    destruct (prefix_is e Hp) as [Hex Hen]. assert (exists u, pe_name e = dotted (q ++ [c]) ++ u) as [u Hu].
    { exists (take (length (pe_name e) - length (dotted (q ++ [c]))) rest). rewrite Hen at 1. rewrite Hn, take_app_ge; [done|].
      rewrite dotted_snoc, !length_app. cbn. lia. }
    specialize (Hno e He). unfold passes in Hno. destruct (entry_placed e He) as (path & k & Hpl & Hpath & Hk). rewrite Hpl in Hno.
    apply bool_decide_eq_false_1 in Hno. destruct Hno. destruct k as [l|l|].
    + destruct Hk as (? & _). congruence.
    + destruct Hk as (_ & Hl & _ & Hk). rewrite Hk in Hu. by apply dotted_prefix in Hu.
    + destruct Hk as (_ & _ & Hk). rewrite Hk in Hu. rewrite <- (app_nil_r (dotted path)) in Hu.
      apply dotted_prefix in Hu; [done..|by apply not_elem_of_nil].
Qed.

Lemma winner_longest : (forall e, e ∈ es -> is_exact name e = false) -> winner fallback es name = longest name fallback es.
Proof.
  intros Hno. unfold winner. destruct (find _ _) as [e|] eqn:Hf; [|done]. apply find_some in Hf as [Hin He].
  apply list_elem_of_In in Hin. by rewrite Hno in He.
Qed.

Lemma winner_exact e : e ∈ es -> is_exact name e = true -> winner fallback es name = e.
Proof.
  intros He Hex. unfold winner. destruct (find _ _) as [e'|] eqn:Hf.
  - apply find_some in Hf as [Hin He']. apply list_elem_of_In in Hin. destruct (exact_place e He Hex) as (p & l & Hp & H1 & H2 & Hn).
    destruct (exact_place e' Hin He') as (p' & l' & Hp' & H1' & H2' & Hn'). rewrite <- Hn in Hn'. apply dotted_inj in Hn' as [-> ->]; [|done..].
    apply same_place; [done..|congruence].
  - pose proof (find_none _ _ Hf e) as Hno. rewrite Hex in Hno. discriminate Hno. by apply list_elem_of_In.
Qed.

(** The last node: an exact match, or the longest prefix found. *)
Lemma step_last w ct : (dot_free remaining \/ forall e, e ∈ es -> is_exact name e = false) -> w = longest name fallback es ->
  shows w (prefix_match n remaining ct) -> shows (winner fallback es name) (last_match n remaining ct).
Proof.
  intros Hfr -> Hs. unfold last_match. destruct (find _ _) as [x|] eqn:Hf.
  - destruct (exact_found x Hf) as (e & He & Hex & ->). rewrite (winner_exact e) by done. apply pick_shows. by right.
  - rewrite winner_longest; [done|]. destruct Hfr as [Hfr|?]; [by apply exact_missed|done].
Qed.

End node.

Lemma walk_ok fuel q n remaining ct :
  sub (tb_root b) q = Some n -> Forall dot_free q -> name = dotted q ++ remaining -> (length remaining < fuel)%nat ->
  q = [] \/ (exists w, best (length (dotted q)) w /\ shows w ct) ->
  shows (winner fallback es name) (lookup_from fuel n remaining ct).
Proof.
  revert q n remaining ct. induction fuel as [|fuel IH]; intros q n remaining ct Hsub Hq Hn Hfuel Hct; [lia|]. cbn [lookup_from].
  destruct (step_entry q n remaining Hsub Hq Hn ct Hct) as (w & Hw & Hs).
  set (ct1 := pick_entry (bn_entry n) ct) in *. destruct (position _ remaining) as [sep|] eqn:Hsep.
  - destruct (dot_at remaining sep Hsep) as (h & rest & Hrem & Hh & Hl). rewrite Hrem, <- Hl, take_app_length in *.
    destruct (step_prefix q n (h ++ dot :: rest) Hsub Hq Hn w ct1 h (dot :: rest)) as (w' & Hw' & Hs1 & Hs2); [done..|].
    assert (drop (S (length h)) (h ++ dot :: rest) = rest) as Hd.
    { rewrite drop_app_ge by lia. by replace (S (length h) - length h)%nat with 1%nat by lia. }
    destruct (child_named h n) as [child|] eqn:Hc.
    + rewrite Hd. apply (IH (q ++ [h])).
      * by rewrite (sub_snoc _ _ _ n).
      * apply list.Forall_app; split; [done|by apply list.Forall_singleton].
      * by rewrite dotted_snoc, Hn, <- !app_assoc.
      * rewrite length_app in Hfuel. cbn in Hfuel. lia.
      * right. exists w'. split; [|done]. rewrite dotted_snoc, !length_app. cbn. by replace (length (dotted q) + (length h + 1))%nat with (S (length (dotted q) + length h)) by lia.
    + destruct (no_child q n (h ++ dot :: rest) Hsub Hq Hn h rest) as [Hne Hnp]; [done..|].
      eapply step_last; [exact Hsub|exact Hq|exact Hn|by right| |exact Hs2]. apply (best_longest (S (length name))); [|lia].
      destruct Hw' as [Hk Hmax]. split; [done|]. intros e He Hp _. apply Hmax; [done..|]. specialize (Hnp e He Hp). lia.
  - assert (dot_free remaining) as Hfr by (by apply no_dot).
    destruct (step_prefix q n remaining Hsub Hq Hn w ct1 remaining []) as (w' & Hw' & Hs1 & Hs2); [by rewrite app_nil_r|done..|].
    eapply step_last; [exact Hsub|exact Hq|exact Hn|by left| |exact Hs2]. eapply best_longest; [exact Hw'|]. rewrite Hn, length_app. lia.
Qed.

End walk.

(** ** The strings of a builder *)

Lemma elem_of_set_insert s x set : x ∈ set_insert s set <-> x = s \/ x ∈ set.
Proof.
  induction set as [|y set IH]; cbn; [by rewrite list_elem_of_singleton, elem_of_nil; tauto|].
  destruct (bytes_lt s y) eqn:H1; [by rewrite !elem_of_cons|]. destruct (bytes_lt y s) eqn:H2.
  - rewrite !elem_of_cons, IH. tauto.
  - rewrite (bytes_lt_total s y H1 H2). rewrite elem_of_cons. tauto.
Qed.

Lemma elem_of_inserted (f : PropertyInfoEntry -> str) es set x :
  x ∈ foldl (fun set e => set_insert (f e) set) set es <-> x ∈ set \/ exists e, e ∈ es /\ x = f e.
Proof.
  revert set. induction es as [|e es IH]; intros set; cbn.
  - split; [by left|]. intros [?|(e & ?%not_elem_of_nil & _)]; done.
  - rewrite IH, elem_of_set_insert. setoid_rewrite elem_of_cons. naive_solver.
Qed.

Record entry_text_ok (e : PropertyInfoEntry) : Prop := {
  et_name : no_nul (pe_name e);
  et_context : text_ok (pe_context e);
  et_type : text_ok (pe_type e);
}.

Section texts.
Context (default_context default_type : str) (es : list PropertyInfoEntry) (b : TrieBuilder).
Context (Hholds : holds default_context default_type b es).
Context (Htext : Forall entry_text_ok es) (Hdc : text_ok default_context) (Hdt : text_ok default_type).

Lemma strings_ok (f : PropertyInfoEntry -> str) d : text_ok d -> (forall e, e ∈ es -> text_ok (f e)) ->
  Forall text_ok (foldl (fun set e => set_insert (f e) set) [d] es).
Proof.
  intros Hd Hf. apply list.Forall_forall. intros x [->%list_elem_of_singleton|(e & He & ->)]%elem_of_inserted; [done|by apply Hf].
Qed.

Lemma path_no_nul e path k piece : e ∈ es -> place e = Some (path, k) -> piece ∈ path \/ (exists l, (k = Exact l \/ k = Prefix l) /\ piece = l) -> no_nul piece.
Proof.
  intros He Hp Hin Hnul. rewrite list.Forall_forall in Htext. destruct (Htext e He) as [Hn _ _]. apply Hn.
  unfold place in Hp. destruct (pieces_of (pe_name e)) as [[|p ps] d] eqn:Hps; [done|]. injection Hp as Hk.
  assert (piece ∈ p :: ps) as Hpiece.
  { destruct (list.last (p :: ps)) as [l|] eqn:Hl; [|by apply last_None in Hl].
    apply last_Some in Hl as [q Hq]. unfold kind_of in Hk. rewrite Hq in Hk |- *. rewrite last_snoc, removelast_last in Hk. cbn in Hk.
    destruct (pe_exact_match e); [|destruct d]; injection Hk as <- <-; destruct Hin as [Hin|(l' & [Hl'|Hl'] & ->)];
      try discriminate Hl'; try (injection Hl' as ->); apply elem_of_app; first [by left|right; by left|by apply elem_of_app in Hin]. }
  assert (forall x, x ∈ p :: ps -> x ∈ split (pe_name e) dot) as Hsub.
  { unfold pieces_of in Hps. destruct (bool_decide _); injection Hps as Hps _; rewrite <- Hps; [|done]. intros x Hx.
    rewrite (app_removelast_last [] (split_nonempty (pe_name e) dot)). apply elem_of_app. by left. }
  by destruct (split_pieces _ _ _ _ (Hsub _ Hpiece) Hnul).
Qed.

Lemma listed_entry l e : e ∈ es -> no_nul l -> entry_ok (tb_contexts b) (tb_types b) (strings_of l e).
Proof.
  intros He Hl. rewrite (ho_contexts _ _ _ _ Hholds), (ho_types _ _ _ _ Hholds).
  split; cbn; [done|..]; intros s [= <-]; apply elem_of_inserted; right; eauto.
Qed.

Lemma nodes_ok k q n : (Serializer.height n < k)%nat -> sub (tb_root b) q = Some n -> node_ok (tb_contexts b) (tb_types b) n.
Proof.
  revert q n. induction k as [|k IH]; intros q n Hk Hs; [lia|].
  pose proof (ho_view _ _ _ _ Hholds q) as Hv. unfold view in Hv. rewrite Hs in Hv. cbn in Hv. unfold spec_view in Hv.
  destruct (bool_decide (q = []) || existsb (passes q) es) eqn:Hhere; [|done]. unfold view_of, raw_view in Hv. injection Hv as He Hp Hx.
  pose proof (ho_names _ _ _ _ Hholds q n Hs) as Hnd. split.
  - rewrite He. destruct q as [|c q'].
    + rewrite (ho_contexts _ _ _ _ Hholds), (ho_types _ _ _ _ Hholds). split; cbn.
      * by apply (bool_decide_unpack _).
      * intros s [= <-]. apply elem_of_inserted. left. by left.
      * intros s [= <-]. apply elem_of_inserted. left. by left.
    + assert (no_nul (default [] (last (c :: q')))) as Hl.
      { cbn [bool_decide orb] in Hhere. apply existsb_exists in Hhere as (e & Hin%list_elem_of_In & Hpass). unfold passes in Hpass.
        destruct (place e) as [[path kd]|] eqn:Hpl; [|done]. apply bool_decide_eq_true_1 in Hpass as [r ->].
        apply (path_no_nul e ((c :: q') ++ r) kd); [done|done|left]. apply elem_of_app. left. destruct (last (c :: q')) as [l|] eqn:Hl; [|by apply last_None in Hl].
        apply last_Some in Hl as [l' Hl']. rewrite Hl'. apply elem_of_app. right. by left. }
      destruct (omap (dir_at (c :: q')) es) as [|x xs] eqn:Ho; cbn [head default]; [by split|].
      assert (x ∈ omap (dir_at (c :: q')) es) as (e & Hin & Hd)%list_elem_of_omap by (rewrite Ho; by left).
      unfold dir_at in Hd. destruct (place e) as [[p []]|]; try done. destruct (decide _); [|done]. injection Hd as <-. by apply listed_entry.
  - rewrite Hp. apply list.Forall_forall. intros x (e & Hin & Hd)%list_elem_of_omap. unfold prefix_at in Hd.
    destruct (place e) as [[p [l|l|]]|] eqn:Hpl; try done. destruct (decide _); [|done]. injection Hd as <-. apply listed_entry; [done|].
    eapply path_no_nul; [done|exact Hpl|right; eauto].
  - rewrite Hx. apply list.Forall_forall. intros x (e & Hin & Hd)%list_elem_of_omap. unfold exact_at in Hd.
    destruct (place e) as [[p [l|l|]]|] eqn:Hpl; try done. destruct (decide _); [|done]. injection Hd as <-. apply listed_entry; [done|].
    eapply path_no_nul; [done|exact Hpl|right; eauto].
  - done.
  - intros c Hc. apply (IH (q ++ [eb_name (bn_entry c)])); [pose proof (height_child _ _ Hc); lia|].
    rewrite (sub_snoc _ _ _ n) by done. by apply child_named_unique.
Qed.

Lemma builder_text_ok : builder_ok b.
Proof.
  pose proof Htext as Ht. rewrite list.Forall_forall in Ht. split.
  - by apply (nodes_ok (S (Serializer.height (tb_root b))) []); [lia|].
  - rewrite (ho_contexts _ _ _ _ Hholds). apply strings_ok; [done|]. intros e He. apply (Ht e He).
  - rewrite (ho_types _ _ _ _ Hholds). apply strings_ok; [done|]. intros e He. apply (Ht e He).
Qed.

End texts.

(** ** From the entries to the answers *)

(** What tells entries apart: an exact one's name without a last dot. *)
Definition entry_key (e : PropertyInfoEntry) : bool * str :=
  (pe_exact_match e, if pe_exact_match e then exact_name (pe_name e) else pe_name e).

Definition distinct_names (es : list PropertyInfoEntry) : Prop :=
  Forall (fun e => pe_name e <> []) es /\ NoDup (entry_key <$> es).

Lemma place_key e e' : pe_name e <> [] -> pe_name e' <> [] -> place e = place e' <-> entry_key e = entry_key e'.
Proof.
  intros Hn Hn'. unfold entry_key. split.
  - destruct (place_ok e Hn) as (p & k & -> & Hp & Hk). destruct (place_ok e' Hn') as (p' & k' & -> & Hp' & Hk'). intros [= <- <-].
    destruct k as [l|l|]; destruct Hk as (-> & _ & Hk), Hk' as (-> & _ & Hk'); f_equal; [congruence| |congruence].
    destruct Hk as [_ ->], Hk' as [_ ->]. done.
  - destruct (pe_exact_match e) eqn:He, (pe_exact_match e') eqn:He'; try done; intros [= Heq].
    + destruct (place_ok e Hn) as (p & k & -> & Hp & Hk). destruct (place_ok e' Hn') as (p' & k' & -> & Hp' & Hk').
      destruct k as [l|l|]; destruct Hk as (Hx & Hl & Hk); [|congruence..]. destruct k' as [l'|l'|]; destruct Hk' as (Hx' & Hl' & Hk'); [|congruence..].
      rewrite Hk, Hk' in Heq. by apply dotted_inj in Heq as [-> ->].
    + unfold place, kind_of. by rewrite Heq, He, He'.
Qed.

Lemma distinct_placed es : distinct_names es <-> placed_apart es.
Proof.
  unfold distinct_names, placed_apart. rewrite list.Forall_fmap.
  assert (Forall (fun e => pe_name e <> []) es <-> Forall (is_Some ∘ place) es) as Hnames.
  { rewrite !list.Forall_forall. split; intros Hall e He; specialize (Hall e He); cbn in *.
    - destruct (place_ok e Hall) as (p & k & -> & _). eauto.
    - intros Hn. rewrite place_none in Hall by done. by destruct Hall. }
  rewrite <- Hnames. split; intros [Hn Hnd]; (split; [done|]); rewrite list.Forall_forall in Hn.
  all: apply NoDup_alt; intros i j x; rewrite !list_lookup_fmap; intros (e & Hi & ->)%fmap_Some (e' & Hj & Heq)%fmap_Some.
  - apply (NoDup_lookup _ i j (entry_key e) Hnd); rewrite list_lookup_fmap; [by rewrite Hi|rewrite Hj; cbn; f_equal].
    symmetry. apply place_key; [eapply Hn, list_elem_of_lookup_2; eauto..|done].
  - apply (NoDup_lookup _ i j (place e) Hnd); rewrite list_lookup_fmap; [by rewrite Hi|rewrite Hj; cbn; f_equal].
    symmetry. apply place_key; [eapply Hn, list_elem_of_lookup_2; eauto..|done].
Qed.

(** The trie of the entries, and the bytes it is written as. *)
Definition builder_of (entries : list PropertyInfoEntry) (default_context default_type : str) : TrieBuilder :=
  match add_entries entries (TrieBuilder_new default_context default_type) with
  | Done (_, b) => b
  | _ => TrieBuilder_new default_context default_type
  end.

Lemma build_ok entries dc dt : distinct_names entries ->
  add_entries entries (TrieBuilder_new dc dt) = Done (Ok tt, builder_of entries dc dt) /\ holds dc dt (builder_of entries dc dt) entries.
Proof.
  intros Hd%distinct_placed. unfold builder_of.
  destruct (add_entries_ok dc dt entries _ [] (holds_new dc dt)) as [(_ & b & -> & Hh)|(Hn & _)]; [by apply list.Forall_nil_2|by apply NoDup_nil_2|done|done].
Qed.

(** Building the trie of property contexts fails exactly when an entry has
    no name or two entries of a kind have one name; an exact entry's name goes
    without a last dot. *)
Theorem build_trie_errors `{Env} entries default_context default_type :
  (exists err, Serializer.build_trie entries default_context default_type = Done (Err err)) <-> ~ distinct_names entries.
Proof.
  rewrite distinct_placed. unfold Serializer.build_trie.
  destruct (add_entries_ok default_context default_type entries _ [] (holds_new default_context default_type))
    as [(Ha & b & -> & _)|(Hn & b & err & ->)]; [by apply list.Forall_nil_2|by apply NoDup_nil_2|..]; cbn [app] in *; cbn [mbind outcome_bind].
  - split; [|done]. intros [err Hr]. exfalso. destruct (Serializer.serialize b []) as [[[] d]| |]; discriminate Hr.
  - split; [done|]. intros _. by exists err.
Qed.

(** What is built, and what is found in it. *)
Lemma built_trie `{Env} entries dc dt :
  distinct_names entries -> Forall entry_text_ok entries -> text_ok dc -> text_ok dt -> zlen (trie_bytes (builder_of entries dc dt)) < 2 ^ 32 ->
  Serializer.build_trie entries dc dt = Done (Ok (trie_bytes (builder_of entries dc dt))) /\ builder_ok (builder_of entries dc dt) /\
  forall name, shows dc dt entries (winner (fallback dc dt) entries name) (lookup_trie (builder_of entries dc dt) name).
Proof.
  intros Hd Htext Hdc Hdt Hlen. destruct (build_ok entries dc dt Hd) as [Hadd Hh]. apply distinct_placed in Hd.
  set (b := builder_of entries dc dt) in *. split; [|split; [by eapply builder_text_ok|]].
  - unfold Serializer.build_trie. rewrite Hadd. cbn [mbind outcome_bind]. by rewrite serialize_ok.
  - intros name. unfold lookup_trie. apply (walk_ok dc dt entries b Hh Hd name _ []); [done|by apply list.Forall_nil_2|done|lia|by left].
Qed.

(** C39: The trie built from the entries of the contexts files is one the reader
    accepts, and looking a property up in its bytes gives the context and the
    type of the entry that matches best: the exact entry of that name, or else
    the longest that is a prefix of it, or else the defaults.  Entries without
    contexts, or without types, leave the other unaffected. *)
Theorem property_info_best `{Env} entries default_context default_type :
  distinct_names entries -> Forall entry_text_ok entries -> text_ok default_context -> text_ok default_type ->
  zlen (trie_bytes (builder_of entries default_context default_type)) < 2 ^ 32 ->
  exists data, Serializer.build_trie entries default_context default_type = Done (Ok data) /\ InfoArea.new data = Ok tt /\
    forall name, no_nul name -> exists context type_, InfoArea.property_info data name = Done (context, type_) /\
      (Forall (fun e => pe_context e <> []) (fallback default_context default_type :: entries) ->
       context = Some (pe_context (winner (fallback default_context default_type) entries name))) /\
      (Forall (fun e => pe_type e <> []) (fallback default_context default_type :: entries) ->
       type_ = Some (pe_type (winner (fallback default_context default_type) entries name))).
Proof.
  intros Hd Htext Hdc Hdt Hlen. destruct (built_trie entries default_context default_type) as (Hb & Hok & Hbest); [done..|].
  eexists. split; [exact Hb|]. split; [by apply info_accepted|]. intros name Hname.
  eexists _, _. split; [|exact (Hbest name)]. rewrite property_info_ok by done. apply f_equal, surjective_pairing.
Qed.

Definition some_entries : list PropertyInfoEntry :=
  [mkPropertyInfoEntry (lit "ro.") (lit "ro_context") (lit "string") false;
   mkPropertyInfoEntry (lit "ro.build") (lit "build_context") (lit "int") false;
   mkPropertyInfoEntry (lit "ro.build.id") (lit "id_context") (lit "bool") true;
   mkPropertyInfoEntry (lit "sys.boot.") (lit "boot_context") [] false].

Lemma property_info_best_witness :
  distinct_names some_entries /\ Forall entry_text_ok some_entries /\
  exists data, @Serializer.build_trie debug_env some_entries DEFAULT_CONTEXT DEFAULT_TYPE = Done (Ok data) /\ InfoArea.new data = Ok tt /\
    forall name, no_nul name -> exists context type_, @InfoArea.property_info debug_env data name = Done (context, type_) /\
      (Forall (fun e => pe_context e <> []) (fallback DEFAULT_CONTEXT DEFAULT_TYPE :: some_entries) ->
       context = Some (pe_context (winner (fallback DEFAULT_CONTEXT DEFAULT_TYPE) some_entries name))) /\
      (Forall (fun e => pe_type e <> []) (fallback DEFAULT_CONTEXT DEFAULT_TYPE :: some_entries) ->
       type_ = Some (pe_type (winner (fallback DEFAULT_CONTEXT DEFAULT_TYPE) some_entries name))).
Proof.
  assert (distinct_names some_entries) as Hd by (split; apply (bool_decide_eq_true_1 _); vm_compute; reflexivity).
  assert (forall s, bool_decide (x00 ∉ s) = true -> is_utf8 s = true -> text_ok s) as Htext.
  { intros s Hn Hu. split; [exact (bool_decide_eq_true_1 _ Hn)|exact Hu]. }
  assert (Forall entry_text_ok some_entries) as Ht.
  { unfold some_entries. repeat (apply list.Forall_cons; split; [split; [unfold no_nul; apply (bool_decide_eq_true_1 _); vm_compute; reflexivity|apply Htext; vm_compute; reflexivity..]|]).
    apply list.Forall_nil_2. }
  split; [exact Hd|]. split; [exact Ht|].
  apply (@property_info_best debug_env some_entries DEFAULT_CONTEXT DEFAULT_TYPE Hd Ht); [apply Htext; vm_compute; reflexivity..|].
  vm_compute. reflexivity.
Defined.
