(* ===== verification/InfoParse.v ===== *)
(** The contexts files of [Info]: what is written as lines is read as entries. *)

From Stdlib Require Import ZArith Lia.
From Stdlib Require Import Strings.String Strings.Byte.
From stdpp Require Import base numbers list.
From S2P Require Import Prelude Text Bytes Libbase CxxSort Info.

Open Scope Z_scope.

(** ** Tokens *)

(** A token has a byte, and none that is a space. *)
Definition token (t : str) : Prop := t <> [] /\ forallb (fun b => negb (is_c_space b)) t = true.

Lemma take_while_app {A} (p : A -> bool) l r : forallb p l = true -> (forall x r', r = x :: r' -> p x = false) -> take_while p (l ++ r) = l.
Proof.
  intros Hl Hr. induction l as [|a l IH]; cbn.
  - destruct r as [|x r]; [done|]. cbn. by rewrite (Hr x r).
  - cbn in Hl. apply andb_true_iff in Hl as [-> Hl]. f_equal. by apply IH.
Qed.

Lemma token_head t : token t -> exists b r, t = b :: r /\ is_c_space b = false.
Proof. intros [Hne Hall]. destruct t as [|b r]; [done|]. apply andb_true_iff in Hall as [Hb _]. exists b, r. split; [done|]. by apply negb_true_iff. Qed.

Lemma token_last t : token t -> exists b r, t = r ++ [b] /\ is_c_space b = false.
Proof.
  intros [Hne Hall]. destruct t as [|b r _] using rev_ind; [done|]. rewrite forallb_app in Hall. apply andb_true_iff in Hall as [_ Hb].
  cbn in Hb. rewrite andb_true_r in Hb. exists b, r. split; [done|]. by apply negb_true_iff.
Qed.

Lemma join_head ts t : token t -> exists b r, join x20 (t :: ts) = b :: r /\ is_c_space b = false.
Proof. intros (b & r & -> & Hb)%token_head. destruct ts; cbn; eauto. Qed.

Lemma next_token_join t ts : token t -> Forall token ts -> next_token (join x20 (t :: ts)) = (t, join x20 ts).
Proof.
  intros Ht Hts. pose proof Ht as [_ Hall]. unfold next_token. destruct ts as [|t' ts].
  - cbn [join]. pose proof (take_while_app _ t [] Hall) as Ht0. rewrite app_nil_r in Ht0. rewrite Ht0, drop_all by done. done.
  - cbn [join]. rewrite (take_while_app _ t (x20 :: _)), drop_app_length; [|done|by intros x r [= <- _]].
    apply list.Forall_cons in Hts as [Ht' _]. destruct (join_head ts t' Ht') as (b & r & Hj & Hb). cbn [join] in Hj. rewrite Hj.
    cbn [drop_while]. change (is_c_space x20) with true. cbn. by rewrite Hb.
Qed.

Lemma type_tokens_join ts fuel : Forall token ts -> (length (join x20 ts) < fuel)%nat -> type_tokens fuel (join x20 ts) = ts.
Proof.
  revert fuel. induction ts as [|t ts IH]; intros fuel Hts Hf; (destruct fuel as [|fuel]; [lia|]); [done|].
  apply list.Forall_cons in Hts as [Ht Hts]. cbn [type_tokens]. rewrite next_token_join by done.
  pose proof Ht as (b & r & Hb & _)%token_head. rewrite Hb at 1. f_equal. apply IH; [done|].
  destruct ts as [|t' ts]; [cbn; rewrite Hb in Hf; cbn in Hf; lia|]. cbn [join] in Hf |- *. rewrite length_app in Hf. cbn in Hf. lia.
Qed.

(** ** Lines *)

(** A line of a contexts file. *)
Record Line := mkLine { l_name : str; l_context : str; l_exact : bool; l_types : list str }.

Definition line_tokens (l : Line) : list str :=
  l_name l :: l_context l :: (if l_exact l then lit "exact" else lit "prefix") :: l_types l.
Definition print_line (l : Line) : str := join x20 (line_tokens l).
Definition print_file (ls : list Line) : str := join x0a (print_line <$> ls).

Definition entry_of (l : Line) : PropertyInfoEntry :=
  mkPropertyInfoEntry (l_name l) (l_context l) (join x20 (l_types l)) (l_exact l).

Record line_ok (l : Line) : Prop := {
  lk_name : token (l_name l);
  lk_comment : head (l_name l) <> Some x23;
  lk_context : token (l_context l);
  lk_types : Forall token (l_types l);
  lk_valid : l_types l = [] \/ is_type_valid (l_types l) = true;
}.

Lemma operation_token (exact : bool) : token (if exact then lit "exact" else lit "prefix").
Proof. by destruct exact. Qed.

Lemma parse_print_line l require : line_ok l -> parse_property_info_line (print_line l) require = Ok (entry_of l).
Proof.
  intros [Hn _ Hc Hts Hv]. pose proof (operation_token (l_exact l)) as Hop. unfold parse_property_info_line, print_line, line_tokens.
  rewrite next_token_join; [|done|by rewrite !list.Forall_cons]. destruct (token_head _ Hn) as (b & r & Hb & _). rewrite Hb at 1.
  rewrite next_token_join; [|done|by rewrite !list.Forall_cons]. destruct (token_head _ Hc) as (b' & r' & Hb' & _). rewrite Hb' at 1.
  rewrite next_token_join by done. rewrite type_tokens_join by (done || lia).
  assert (bool_decide ((if l_exact l then lit "exact" else lit "prefix") = lit "exact") = l_exact l) as -> by (by destruct (l_exact l)).
  assert (negb (l_exact l) && negb (bool_decide ((if l_exact l then lit "exact" else lit "prefix") = lit "prefix")) = false) as ->
    by (by destruct (l_exact l)).
  cbn [andb]. assert (negb (bool_decide (l_types l = [])) && negb (is_type_valid (l_types l)) = false) as ->; [|done].
  destruct Hv as [-> | ->]; [done|by rewrite andb_false_r].
Qed.

Lemma drop_while_none {A} (p : A -> bool) x l : p x = false -> drop_while p (x :: l) = x :: l.
Proof. cbn. by intros ->. Qed.

Lemma join_last ts : Forall token ts -> ts <> [] -> exists b r, join x20 ts = r ++ [b] /\ is_c_space b = false.
Proof.
  induction ts as [|t ts IH]; [done|]. intros [Ht Hts]%list.Forall_cons _. destruct ts as [|t' ts].
  - cbn. by apply token_last.
  - destruct IH as (b & r & Hj & Hb); [done|done|]. exists b, (t ++ x20 :: r). split; [|done].
    change (join x20 (t :: t' :: ts)) with (t ++ x20 :: join x20 (t' :: ts)). by rewrite Hj, <- app_assoc.
Qed.

Lemma trim_line l : line_ok l -> trim (print_line l) = print_line l.
Proof.
  intros [Hn _ Hc Hts _]. assert (Forall token (line_tokens l)) as Hall by (unfold line_tokens; rewrite !list.Forall_cons; by split_and!; [..|apply operation_token|]).
  destruct (join_head (tl (line_tokens l)) (l_name l) Hn) as (b & r & Hj & Hb). destruct (join_last (line_tokens l) Hall) as (b' & r' & Hj' & Hb'); [done|].
  unfold trim. change (join x20 (l_name l :: tl (line_tokens l))) with (print_line l) in Hj. change (join x20 (line_tokens l)) with (print_line l) in Hj'.
  rewrite Hj, drop_while_none, <- Hj, Hj', rev_app_distr by done. cbn [rev app]. rewrite drop_while_none by done. cbn [rev]. by rewrite rev_involutive.
Qed.

Lemma no_newline_token t b : token t -> b ∈ t -> b <> x0a.
Proof.
  intros [_ Hall] Hb ->. rewrite forallb_forall in Hall. specialize (Hall x0a ltac:(by apply list_elem_of_In)). done.
Qed.

Lemma join_elem ts sep b : b ∈ join sep ts -> b = sep \/ exists t, t ∈ ts /\ b ∈ t.
Proof.
  induction ts as [|t ts IH]; cbn; [by intros ?%not_elem_of_nil|]. destruct ts as [|t' ts].
  - intros Hb. right. exists t. split; [by left|done].
  - intros [Hb|[->|Hb]%elem_of_cons]%elem_of_app; [right; exists t; split; [by left|done]|by left|].
    destruct (IH Hb) as [?|(x & Hx & Hbx)]; [by left|right]. exists x. split; [by right|done].
Qed.

Lemma split_lines lines : lines <> [] -> Forall (fun l => x0a ∉ l) lines -> split (join x0a lines) x0a = lines.
Proof.
  assert (forall p, x0a ∉ p -> split p x0a = [p]) as Hone.
  { induction p as [|b p IH]; intros Hp; [done|]. apply not_elem_of_cons in Hp as [Hb Hp]. cbn. rewrite decide_False by congruence. by rewrite IH. }
  assert (forall p r, x0a ∉ p -> split (p ++ x0a :: r) x0a = p :: split r x0a) as Hmore.
  { induction p as [|b p IH]; intros r Hp; cbn; [by rewrite decide_True|]. apply not_elem_of_cons in Hp as [Hb Hp].
    rewrite decide_False by congruence. by rewrite IH. }
  induction lines as [|l lines IH]; [done|]. intros _ [Hl Hls]%list.Forall_cons. destruct lines as [|l' lines]; [by apply Hone|].
  change (join x0a (l :: l' :: lines)) with (l ++ x0a :: join x0a (l' :: lines)). rewrite Hmore by done. by rewrite IH.
Qed.

Lemma print_line_newline l : line_ok l -> x0a ∉ print_line l.
Proof.
  intros [Hn _ Hc Hts _] [Hb|(t & Ht & Hb)]%join_elem; [done|].
  assert (token t) as Htok; [|by destruct (no_newline_token t x0a Htok Hb)].
  unfold line_tokens in Ht. rewrite !elem_of_cons in Ht. rewrite list.Forall_forall in Hts.
  destruct Ht as [->|[->|[->|Ht]]]; [done|done|apply operation_token|by apply Hts].
Qed.

(** A contexts file written from lines, each with a name, a context, a match
    operation and types, is read back as their entries, without an error and
    after the entries read before. *)
Theorem info_file_round_trip (ls : list Line) (require : bool) (before : list PropertyInfoEntry) :
  Forall line_ok ls -> parse_property_info_file (print_file ls) require before = (before ++ (entry_of <$> ls), []).
Proof.
  intros Hls. unfold parse_property_info_file, print_file.
  destruct (decide (ls = [])) as [->|Hne]; [cbn; by rewrite app_nil_r|].
  rewrite split_lines; [|by destruct ls|rewrite list.Forall_fmap; eapply Forall_impl; [done|]; intros; by apply print_line_newline].
  clear Hne. revert before. induction Hls as [|l ls Hl Hls IH]; intros before; [cbn; by rewrite app_nil_r|]. cbn [fmap list_fmap foldl].
  rewrite trim_line by done. destruct Hl as [Hn Hc Hctx Hts Hv] eqn:El. clear El.
  destruct (join_head (tl (line_tokens l)) (l_name l) Hn) as (b & r & Hj & Hb). change (join x20 (l_name l :: tl (line_tokens l))) with (print_line l) in Hj.
  assert (starts_with (lit "#") (print_line l) = false) as Hhash.
  { unfold starts_with. apply bool_decide_false. destruct (token_head _ Hn) as (b0 & r0 & Hn0 & _). unfold print_line, line_tokens.
    rewrite Hn0. cbn. intros [= ->]. apply Hc. by rewrite Hn0. }
  rewrite Hhash, bool_decide_false by (by rewrite Hj). cbn [orb]. rewrite parse_print_line by done. rewrite IH, <- app_assoc. done.
Qed.

Definition some_lines : list Line :=
  [mkLine (lit "ro.") (lit "u:object_r:ro_prop:s0") false [lit "string"];
   mkLine (lit "ro.debuggable") (lit "u:object_r:build_prop:s0") true [lit "bool"];
   mkLine (lit "sys.boot.reason") (lit "u:object_r:boot_prop:s0") false [lit "enum"; lit "cold"; lit "hard"];
   mkLine (lit "log.") (lit "u:object_r:log_prop:s0") false []].

Lemma info_file_round_trip_witness :
  Forall line_ok some_lines /\
  parse_property_info_file (print_file some_lines) true [] = ([] ++ (entry_of <$> some_lines), []).
Proof.
  assert (Forall line_ok some_lines) as Hok.
  { repeat (apply list.Forall_cons; split; [split; [done|done|done|repeat (apply list.Forall_cons; split; [done|]); by apply list.Forall_nil_2|by (left + right)]|]).
    by apply list.Forall_nil_2. }
  split; [exact Hok|]. exact (info_file_round_trip some_lines true [] Hok).
Defined.
