(* ===== verification/Areas.v ===== *)
(** The set of property areas init creates in [/dev/__properties__]
    ([src/crates/aim-android-init/src/props/areas.rs]): an area for every context
    of the [property_info], the global serial, and the futex wakes.  The state
    is the areas and the wakes made so far; the memory of an area is its bytes. *)

From Stdlib Require Import ZArith Lia.
From Stdlib Require Import Strings.String Strings.Byte.
From stdpp Require Import base numbers list.
From S2P Require Import Prelude Text Bytes Libbase Area Info.

Open Scope Z_scope.

Definition PROPERTIES_SERIAL : str := lit "properties_serial".

(** A futex word: a file and an offset in it. *)
Record WakeTarget := mkWakeTarget { wt_area : str; wt_offset : Z }.

Inductive AreaError :=
| EmptyName
| ValueTooLong
| NoContext (name : str)
| AreaFull (context : str)
| NotFound (name : str).

Record PropertyAreas := mkPropertyAreas {
  pa_info : list byte;
  pa_contexts : list str;
  pa_areas : list Area;
  pa_serial : Area;
  pa_wakes : list WakeTarget;
}.

Abbreviation PA X := (M PropertyAreas X).

Definition with_areas (pa : PropertyAreas) (areas : list Area) : PropertyAreas :=
  mkPropertyAreas (pa_info pa) (pa_contexts pa) areas (pa_serial pa) (pa_wakes pa).
Definition with_serial (pa : PropertyAreas) (serial : Area) : PropertyAreas :=
  mkPropertyAreas (pa_info pa) (pa_contexts pa) (pa_areas pa) serial (pa_wakes pa).

(** An operation on the area of that index, and on the global one. *)
Definition at_area {X} (index : nat) (c : M Area X) : PA X := fun pa =>
  match pa_areas pa !! index with
  | None => Panicked
  | Some area => '(x, area) ← c area; Done (x, with_areas pa (<[index := area]> (pa_areas pa)))
  end.
Definition at_serial {X} (c : M Area X) : PA X := fun pa =>
  '(x, serial) ← c (pa_serial pa); Done (x, with_serial pa serial).

Definition wake_all (area : str) (offset : Z) : PA unit := fun pa =>
  Done (tt, mkPropertyAreas (pa_info pa) (pa_contexts pa) (pa_areas pa) (pa_serial pa) (pa_wakes pa ++ [mkWakeTarget area offset])).

(** [self.contexts[index]]. *)
Definition context_at (index : nat) : PA str := fun pa =>
  match pa_contexts pa !! index with None => Panicked | Some context => Done (context, pa) end.

Module PropAreas.
Section areas.
Context `{Env}.

(** The areas, one after the other, on memory of [memory_for]'s sizes. *)
Fixpoint create_all (memory_for : str -> Z) (contexts : list str) : outcome (list Area) :=
  match contexts with
  | [] => Done []
  | context :: contexts =>
      area ← create (memory_for context);
      areas ← create_all memory_for contexts;
      Done (area :: areas)
  end.

Definition with_memory (property_info : list byte) (memory_for : str -> Z) : outcome (result PropertyAreas InfoError) :=
  match InfoArea.new property_info with
  | Err e => Done (Err e)
  | Ok _ =>
      contexts ← InfoArea.contexts property_info;
      areas ← create_all memory_for contexts;
      serial ← create (memory_for PROPERTIES_SERIAL);
      Done (Ok (mkPropertyAreas property_info contexts areas serial []))
  end.

(** [HeapMemory::new]: whole words. *)
Definition heap_len (len : Z) : Z := (len + 3) / 4 * 4.

Definition new (property_info : list byte) : outcome (result PropertyAreas InfoError) :=
  with_memory property_info (fun _ => heap_len PA_SIZE).

Definition info_area : PA (list byte) := fun pa =>
  match InfoArea.new (pa_info pa) with Ok _ => Done (pa_info pa, pa) | Err _ => Panicked end.

(** The area of that context. *)
Definition area (context : str) : PA (option Area) := fun pa =>
  match position (fun c => bool_decide (c = context)) (pa_contexts pa) with
  | None => Done (None, pa)
  | Some index => match pa_areas pa !! index with None => Panicked | Some area => Done (Some area, pa) end
  end.

Definition area_index_for (name : str) : PA (option nat) :=
  info ← info_area;
  '(index, _) ← call (InfoArea.property_info_indexes info name);
  areas ← gets pa_areas;
  mret (if index <? zlen areas then Some (Z.to_nat index) else None).

Definition get (name : str) : PA (option (list Z)) :=
  index ←! area_index_for name;
  info ←! at_area index (Area.find name);
  value ← at_area index (info_value info);
  mret (Some (utf8_lossy value)).

Definition contains (name : str) : PA bool :=
  index ← area_index_for name;
  match index with
  | None => mret false
  | Some index => info ← at_area index (Area.find name); mret (bool_decide (is_Some info))
  end.

Definition property_serial (name : str) : PA (option Z) :=
  index ←! area_index_for name;
  info ←! at_area index (Area.find name);
  serial ← at_area index (info_serial info);
  mret (Some serial).

(** [PropArea::serial]. *)
Definition SERIAL : Z := header 4.

Definition area_serial : PA Z := at_serial (load SERIAL).

Definition bump_global_serial : PA unit :=
  serial ← at_serial (load SERIAL);
  at_serial (store SERIAL (as_u 32 (serial + 1)));;
  wake_all PROPERTIES_SERIAL 4.

Definition add (name : str) (value : list byte) : PA (result unit AreaError) :=
  if bool_decide (name = []) then mret (Err EmptyName) else
  if (PROP_VALUE_MAX <=? zlen value) && negb (starts_with (lit "ro.") name) then mret (Err ValueTooLong) else
  index ← area_index_for name;
  match index with
  | None => mret (Err (NoContext name))
  | Some index =>
      ok ← at_area index (Area.add name value);
      if negb ok then context ← context_at index; mret (Err (AreaFull context))
      else bump_global_serial;; mret (Ok tt)
  end.

(** [PropArea::file_offset]. *)
Definition file_offset (info : Z) : Z := PROP_AREA_HEADER_SIZE + info.

Definition update (name : str) (value : list byte) : PA (result unit AreaError) :=
  if PROP_VALUE_MAX <=? zlen value then mret (Err ValueTooLong) else
  index ← area_index_for name;
  match index with
  | None => mret (Err (NoContext name))
  | Some index =>
      info ← at_area index (Area.find name);
      match info with
      | None => mret (Err (NotFound name))
      | Some info =>
          _ ← at_area index (update_value info value);
          context ← context_at index;
          wake_all context (file_offset info);;
          bump_global_serial;;
          mret (Ok tt)
      end
  end.

(** An area's properties, by their objects. *)
Fixpoint read_infos (infos : list Z) : M Area (list (list Z * list Z)) :=
  match infos with
  | [] => mret []
  | info :: infos =>
      name ← info_name info;
      value ← info_value info;
      rest ← read_infos infos;
      mret ((name, utf8_lossy value) :: rest)
  end.

Fixpoint foreach_from (index n : nat) : PA (list (list Z * list Z)) :=
  match n with
  | O => mret []
  | S n =>
      infos ← at_area index Area.foreach;
      properties ← at_area index (read_infos infos);
      rest ← foreach_from (S index) n;
      mret (properties ++ rest)
  end.

Definition foreach : PA (list (list Z * list Z)) :=
  areas ← gets pa_areas;
  foreach_from 0 (length areas).

End areas.
End PropAreas.
