(* ===== verification/AreasMap.v ===== *)
(** The property areas as one map: the operations of [Areas] against an interface
    to the [property_info], which [Info]'s tries implement. *)

From Stdlib Require Import ZArith Lia.
From Stdlib Require Import Strings.String Strings.Byte.
From stdpp Require Import base numbers list gmap.
From S2P Require Import Prelude Text Bytes Libbase Area AreaHeap AreaTrie.
From S2P Require Import AreaMap AreaReader AreaUpdate AreaWalk Info Areas.

Open Scope Z_scope.

(** ** An area's values, as its writer reads them *)

Lemma lossy_prefix (p : list byte) s : Forall (fun b => byte_to_Z b < 128) p ->
  take (length p) (utf8_lossy s) = byte_to_Z <$> p <-> take (length p) s = p.
Proof.
  intros Hp. revert s. induction Hp as [|a p Ha Hp IH]; intros s; [done|]. cbn [length fmap list_fmap].
  destruct s as [|b s]; [done|]. destruct (decide (byte_to_Z b < 128)) as [Hb|Hb].
  - rewrite lossy_ascii by done. cbn [take]. split; [intros [= Hz Heq]; f_equal; [by apply byte_to_Z_inj|by apply IH]|].
    intros [= -> Heq]. f_equal. by apply IH.
  - destruct (lossy_wide b s) as (c & tail & -> & Hc & _); [lia|]. cbn [take]. split; [intros [= Hz _]; lia|intros [= -> _]; lia].
Qed.

Lemma is_ro_prefix name : is_ro name = starts_with (lit "ro.") name.
Proof.
  apply eq_true_iff_eq. unfold is_ro, starts_with_ro, starts_with. rewrite !bool_decide_eq_true.
  apply (lossy_prefix (lit "ro.") name). by repeat constructor.
Qed.

Section values.
Context (mem : Area) (h : heap) (used : Z) (HH : heap_ok mem h used).

(** The C string at a part of an object, for the writer. *)
Lemma writer_c_str off o k l1 s r :
  h !! off = Some o -> encode o = l1 ++ s ++ x00 :: r -> k = zlen l1 -> no_nul s -> c_string_at (off + k) mem = Done (s, mem).
Proof.
  intros Ho He Hk Hs. unfold c_string_at, gets. do 2 f_equal.
  rewrite <- (reader_c_str mem h used HH off o k l1 s r Ho He Hk Hs). unfold Reader.c_str, Reader.data.
  destruct (hk_obj _ _ _ HH off o Ho) as (? & _ & [_ Hu] & _). pose proof (hk_range _ _ _ HH) as (Hr & _). rewrite He, !zlen_app in Hu.
  pose proof (zlen_nonneg l1). pose proof (zlen_nonneg s). pose proof (zlen_nonneg (x00 :: r)).
  unfold data_size, PROP_AREA_HEADER_SIZE in *. rewrite drop_drop. f_equal. f_equal. unfold zlen in *. rewrite length_drop. lia.
Qed.

Lemma writer_part off o l1 d r k :
  h !! off = Some o -> encode o = l1 ++ d ++ r -> k = zlen l1 -> read_bytes (off + k) (zlen d) mem = Done (d, mem).
Proof.
  intros Ho He ->. pose proof (zlen_nonneg l1). pose proof (zlen_nonneg d). pose proof (zlen_nonneg r).
  assert (slice mem (PROP_AREA_HEADER_SIZE + (off + zlen l1)) (zlen d) = Some d) as Hs.
  { eapply obj_part; [exact HH|exact Ho|done|done|rewrite He, !zlen_app; lia|rewrite He; by apply slice_at]. }
  unfold read_bytes, mbind, M_bind. cbn. by rewrite Hs.
Qed.

Lemma writer_word off o l1 v r k :
  h !! off = Some o -> encode o = l1 ++ le_bytes 4 v ++ r -> k = zlen l1 -> k mod 4 = 0 -> in_u 32 v -> load_word (off + k) mem = Done (v, mem).
Proof.
  intros Ho He -> Hal Hv. pose proof (zlen_nonneg l1). pose proof (zlen_nonneg r).
  destruct (hk_obj _ _ _ HH off o Ho) as (_ & Hm & _).
  apply load_word_ok; [Z.div_mod_to_equations; lia| |done].
  eapply obj_part; [exact HH|exact Ho|done|done|rewrite He, !zlen_app, zlen_le_bytes; lia|rewrite He; by apply slice_at].
Qed.

Lemma writer_name info name serial field :
  h !! info = Some (OInfo name serial field) -> no_nul name -> info_name info mem = Done (utf8_lossy name, mem).
Proof.
  intros Ho Hn. destruct (hk_obj _ _ _ HH info _ Ho) as (_ & _ & _ & [_ Hf] & _). unfold info_name, mbind, M_bind.
  rewrite (writer_c_str info _ PROP_INFO_SIZE (le_bytes 4 serial ++ field) name [] Ho); [done|cbn [encode]; by rewrite <- app_assoc| |done].
  by rewrite zlen_app, zlen_le_bytes, Hf.
Qed.

Lemma writer_serial info name serial field : h !! info = Some (OInfo name serial field) -> info_serial info mem = Done (serial, mem).
Proof.
  intros Ho. destruct (hk_obj _ _ _ HH info _ Ho) as (_ & _ & _ & [Hs _] & _). unfold info_serial. rewrite <- (Z.add_0_r info).
  by apply (writer_word info _ [] serial (field ++ name ++ [x00]) 0 Ho).
Qed.

Lemma writer_value info name e : info_holds h info name e -> no_nul name ->
  info_value info mem = Done (seen name (e_value e), mem) /\ info_serial info mem = Done (e_serial e, mem).
Proof.
  intros [Hv Hh] Hn. unfold info_value, seen.
  destruct Hh as [(rest & Ho & Hlen & _ & Hro)|(long & Ho & Hl & Hser & Hlen & Hr)].
  - split; [|by eapply writer_serial]. unfold mbind, M_bind. rewrite (writer_serial _ _ _ _ Ho), (writer_name _ _ _ _ Ho Hn), Hlen.
    destruct (hk_obj _ _ _ HH info _ Ho) as (_ & _ & _ & [_ Hf] & _). rewrite !zlen_app in Hf. change (zlen [x00]) with 1 in Hf.
    pose proof (zlen_nonneg rest). rewrite (proj2 (Z.leb_gt _ _)) by lia. cbn [andb]. fold (is_ro name).
    assert (negb (Z.land (e_serial e) LONG_FLAG =? 0) && is_ro name = false) as ->.
    { destruct (is_ro name); [by rewrite Hro|by rewrite andb_false_r]. }
    apply (writer_part info _ (le_bytes 4 (e_serial e)) (e_value e) ([x00] ++ rest ++ name ++ [x00]) 4 Ho); [|done].
    cbn [encode]. by rewrite <- !app_assoc.
  - rewrite Hser. split; [|by eapply writer_serial]. unfold mbind, M_bind. rewrite (writer_serial _ _ _ _ Ho), (writer_name _ _ _ _ Ho Hn).
    rewrite (proj2 (Z.leb_le _ _)) by done. cbn [andb]. fold (is_ro name). change (Z.land long_serial LONG_FLAG =? 0) with false. cbn [negb andb].
    destruct (is_ro name); cbn [negb].
    + rewrite (writer_word info _ (le_bytes 4 long_serial ++ LONG_LEGACY_ERROR ++ [x00] ++ replicate 5 x00) (long - info)
        (replicate 32 x00 ++ name ++ [x00]) LONG_OFFSET_FIELD Ho); [|cbn [encode]; unfold long_field; by rewrite <- !app_assoc|done|done|].
      * replace (info + (long - info)) with (long + 0) by lia. by apply (writer_c_str long _ 0 [] (e_value e) [] Hl).
      * destruct (hk_obj _ _ _ HH info _ Ho) as (? & _). unfold in_u. lia.
    + change (Z.shiftr long_serial 24) with (zlen LONG_LEGACY_ERROR).
      apply (writer_part info _ (le_bytes 4 long_serial) LONG_LEGACY_ERROR ([x00] ++ replicate 5 x00 ++ le_bytes 4 (long - info) ++ replicate 32 x00 ++ name ++ [x00]) 4 Ho); [|done].
      cbn [encode]. unfold long_field. by rewrite <- !app_assoc.
Qed.

End values.

(** ** The interface to the contexts *)

(** What the areas rely on of the [property_info]: the contexts, and the one of
    every name. *)
Class Lookup `{Env} (data : list byte) (contexts : list str) (slot : str -> option nat) : Prop := {
  lk_accepted : InfoArea.new data = Ok tt;
  lk_contexts : InfoArea.contexts data = Done contexts;
  lk_index name : no_nul name -> exists i type_index, InfoArea.property_info_indexes data name = Done (i, type_index) /\
    match slot name with Some n => i = Z.of_nat n /\ (n < length contexts)%nat | None => zlen contexts <= i end;
}.

Section areas.
Context `{HL : Lookup data contexts slot}.
Implicit Types (pa : PropertyAreas) (m : Props).

(** The areas hold a map: every property in the area of its name's context. *)
Record areas_hold pa m (serial : Z) : Prop := {
  ah_info : pa_info pa = data;
  ah_contexts : pa_contexts pa = contexts;
  ah_areas : exists ms, Forall2 area_holds (pa_areas pa) ms /\ length ms = length contexts /\
    (forall name, m !! name = i ← slot name; mi ← ms !! i; mi !! name) /\
    (forall i mi name, ms !! i = Some mi -> is_Some (mi !! name) -> slot name = Some i);
  ah_serial : slice (pa_serial pa) 4 4 = Some (le_bytes 4 serial) /\ in_u 32 serial;
  ah_long : forall name e, m !! name = Some e -> PROP_VALUE_MAX <= zlen (e_value e) -> is_ro name = true;
}.

(** The area of a name, and what happens to the map when it changes. *)
Lemma hold_area pa m serial name i :
  areas_hold pa m serial -> slot name = Some i -> (i < length contexts)%nat ->
  exists mem mi, pa_areas pa !! i = Some mem /\ area_holds mem mi /\ mi !! name = m !! name /\
    (forall mem', area_holds mem' mi -> areas_hold (with_areas pa (<[i := mem']> (pa_areas pa))) m serial) /\
    (forall mem' e, area_holds mem' (<[name := e]> mi) -> (PROP_VALUE_MAX <= zlen (e_value e) -> is_ro name = true) ->
       areas_hold (with_areas pa (<[i := mem']> (pa_areas pa))) (<[name := e]> m) serial).
Proof.
  intros [Hi Hc (ms & Hms & Hlen & Hm & Hown) Hser Hlong] Hidx Hlt.
  destruct (lookup_lt_is_Some_2 ms i) as [mi Hmi]; [lia|].
  destruct (Forall2_lookup_r _ _ _ _ _ Hms Hmi) as (mem & Hmem & Hh). exists mem, mi.
  split_and!; [done|done|by rewrite Hm, Hidx; cbn; rewrite Hmi|..].
  - intros mem' Hh'. split; try done. exists ms. split_and!; try done. cbn. rewrite <- (list_insert_id ms i mi) by done. by apply Forall2_insert.
  - intros mem' e Hh' Hro. split; try done.
    + exists (<[i := <[name := e]> mi]> ms). cbn. split_and!; [by apply Forall2_insert|by rewrite length_insert|..].
      * intros name'. destruct (decide (name' = name)) as [->|Hne].
        { rewrite lookup_insert_eq, Hidx. cbn. rewrite list_lookup_insert_eq by (apply lookup_lt_Some in Hmi; done). cbn. by rewrite lookup_insert_eq. }
        rewrite lookup_insert_ne, Hm by done. destruct (slot name') as [j|]; cbn; [|done].
        destruct (decide (j = i)) as [->|Hj]; [|by rewrite list_lookup_insert_ne by done].
        rewrite list_lookup_insert_eq, Hmi by (apply lookup_lt_Some in Hmi; done). cbn. by rewrite lookup_insert_ne.
      * intros j mj name' Hj Hs. destruct (decide (j = i)) as [->|Hne].
        { rewrite list_lookup_insert_eq in Hj by (apply lookup_lt_Some in Hmi; done). injection Hj as <-.
          destruct (decide (name' = name)) as [->|]; [done|]. rewrite lookup_insert_ne in Hs by done. by eapply Hown. }
        rewrite list_lookup_insert_ne in Hj by done. by eapply Hown.
    + intros name' e' [[<- <-]|[_ He]]%lookup_insert_Some; [done|by apply Hlong].
Qed.

Lemma at_area_run {X} pa i mem (c : M Area X) x mem' :
  pa_areas pa !! i = Some mem -> c mem = Done (x, mem') -> at_area i c pa = Done (x, with_areas pa (<[i := mem']> (pa_areas pa))).
Proof. intros Hi Hc. unfold at_area. by rewrite Hi, Hc. Qed.

Lemma at_area_read {X} pa i mem (c : M Area X) x : pa_areas pa !! i = Some mem -> c mem = Done (x, mem) -> at_area i c pa = Done (x, pa).
Proof. intros Hi Hc. rewrite (at_area_run _ _ _ _ _ _ Hi Hc), list_insert_id by done. by destruct pa. Qed.

Lemma index_ok pa m serial name : areas_hold pa m serial -> no_nul name ->
  PropAreas.area_index_for name pa = Done (slot name, pa) /\ match slot name with Some i => (i < length contexts)%nat | None => True end.
Proof.
  intros Hh Hname. destruct (lk_index name Hname) as (i & ty & Hi & Hidx). pose proof (ah_info _ _ _ Hh) as Hinfo.
  unfold PropAreas.area_index_for, PropAreas.info_area, mbind, M_bind, call. rewrite Hinfo, lk_accepted. cbv beta iota. rewrite Hi. cbv beta iota.
  unfold gets.
  destruct (ah_areas _ _ _ Hh) as (ms & Hms & Hlen & _). apply Forall2_length in Hms. unfold mret, M_ret, zlen in *. rewrite Hms, Hlen.
  destruct (slot name) as [n|].
  - destruct Hidx as [-> Hlt]. rewrite (proj2 (Z.ltb_lt _ _)), Nat2Z.id by lia. done.
  - by rewrite (proj2 (Z.ltb_ge _ _)) by lia.
Qed.

(** ** Reading *)

(** A reader sees all of a value: only read-only ones are long. *)
Lemma seen_all pa m serial name e : areas_hold pa m serial -> m !! name = Some e -> seen name (e_value e) = e_value e.
Proof.
  intros Hh He. unfold seen. destruct (Z.leb_spec PROP_VALUE_MAX (zlen (e_value e))); [|done]. by rewrite (ah_long _ _ _ Hh name e).
Qed.

Lemma find_slot pa m serial name : areas_hold pa m serial -> no_nul name ->
  match m !! name with
  | Some e => exists i mem info, slot name = Some i /\ pa_areas pa !! i = Some mem /\ Area.find name mem = Done (Some info, mem) /\
      info_value info mem = Done (e_value e, mem) /\ info_serial info mem = Done (e_serial e, mem)
  | None => slot name = None \/ exists i mem, slot name = Some i /\ pa_areas pa !! i = Some mem /\ Area.find name mem = Done (None, mem)
  end.
Proof.
  intros Hh Hname. destruct (index_ok _ _ _ _ Hh Hname) as [_ Hi]. destruct (slot name) as [i|] eqn:Hs.
  - destruct (hold_area _ _ _ _ _ Hh Hs Hi) as (mem & mi & Hmem & Hmi & Hm & _). pose proof (find_ok mem mi name Hmi Hname) as Hf.
    rewrite Hm in Hf. destruct (m !! name) as [e|] eqn:He; [|right; eauto].
    destruct Hf as (info & h & used & dirs & Hf & HR & Hp). exists i, mem, info.
    destruct (rp_present _ _ _ _ _ HR _ _ Hp) as (e' & He' & Hinfo). rewrite Hm in He'. injection He' as <-.
    destruct (writer_value _ _ _ (rp_heap _ _ _ _ _ HR) info name e Hinfo Hname) as [Hv Hser].
    by rewrite (seen_all _ _ _ _ _ Hh He) in Hv.
  - destruct (ah_areas _ _ _ Hh) as (ms & _ & _ & Hm & _). rewrite Hm, Hs. by left.
Qed.

Lemma get_ok pa m serial name : areas_hold pa m serial -> no_nul name ->
  PropAreas.get name pa = Done ((fun e => utf8_lossy (e_value e)) <$> m !! name, pa) /\
  PropAreas.contains name pa = Done (bool_decide (is_Some (m !! name)), pa) /\
  PropAreas.property_serial name pa = Done (e_serial <$> m !! name, pa).
Proof.
  intros Hh Hname. destruct (index_ok _ _ _ _ Hh Hname) as [Hidx _]. pose proof (find_slot _ _ _ _ Hh Hname) as Hf.
  unfold PropAreas.get, PropAreas.contains, PropAreas.property_serial, mbind, M_bind. rewrite Hidx.
  destruct (m !! name) as [e|].
  - destruct Hf as (i & mem & info & -> & Hmem & Hfind & Hv & Hser).
    by rewrite (at_area_read _ _ _ _ _ Hmem Hfind), (at_area_read _ _ _ _ _ Hmem Hv), (at_area_read _ _ _ _ _ Hmem Hser).
  - destruct Hf as [->|(i & mem & -> & Hmem & Hfind)]; [done|]. by rewrite (at_area_read _ _ _ _ _ Hmem Hfind).
Qed.

Lemma serial_loads pa m serial : areas_hold pa m serial -> PropAreas.area_serial pa = Done (serial, pa).
Proof.
  intros Hh. destruct (ah_serial _ _ _ Hh) as [Hs Hin]. unfold PropAreas.area_serial, at_serial, load, mbind, M_bind, get.
  change PropAreas.SERIAL with 4. rewrite Hs. cbn -[of_le_bytes le_bytes]. rewrite of_le_bytes_le_bytes. change (256 ^ Z.of_nat 4) with (2 ^ 32).
  rewrite Z.mod_small by done. by destruct pa.
Qed.

(** ** Changing *)

Lemma hold_wakes pa m serial wakes : areas_hold pa m serial ->
  areas_hold (mkPropertyAreas (pa_info pa) (pa_contexts pa) (pa_areas pa) (pa_serial pa) wakes) m serial.
Proof. by intros [? ? ? ? ?]. Qed.

Definition serial_wake : WakeTarget := mkWakeTarget PROPERTIES_SERIAL 4.

Lemma bump_ok pa m serial : areas_hold pa m serial ->
  exists pa', PropAreas.bump_global_serial pa = Done (tt, pa') /\ areas_hold pa' m (as_u 32 (serial + 1)) /\
    pa_wakes pa' = pa_wakes pa ++ [serial_wake] /\ pa_areas pa' = pa_areas pa.
Proof.
  intros Hh. pose proof (serial_loads _ _ _ Hh) as Hload. unfold PropAreas.area_serial in Hload. destruct Hh as [Hi Hc Ha [Hs Hin] Hl].
  pose proof Hs as (_ & _ & Hlen & _)%slice_Some.
  destruct (splice_is_Some (pa_serial pa) (le_bytes 4 (as_u 32 (serial + 1))) 4) as [mem' Hsp].
  { lia. } { rewrite length_le_bytes. unfold zlen in *. lia. }
  exists (mkPropertyAreas (pa_info pa) (pa_contexts pa) (pa_areas pa) mem' (pa_wakes pa ++ [serial_wake])).
  split; [|split; [|done]].
  - unfold PropAreas.bump_global_serial. unfold mbind, M_bind. rewrite Hload. unfold at_serial, store, mbind, M_bind, get. change PropAreas.SERIAL with 4.
    by rewrite Hsp.
  - split; try done. cbn. apply slice_splice_eq in Hsp. rewrite length_le_bytes in Hsp. split; [done|]. unfold as_u, in_u. by apply Z.mod_pos_bound.
Qed.

Definition is_read_only (name : str) : bool := starts_with (lit "ro.") name.
Definition fits (name : str) (value : list byte) : Prop := PROP_VALUE_MAX <= zlen value -> is_read_only name = true.

(** When [add] answers what. *)
Definition add_answer pa m (name : str) (value : list byte) (r : result unit AreaError) : Prop :=
  match r with
  | Ok _ => name <> [] /\ fits name value /\ is_Some (slot name) /\ has_segs name
  | Err EmptyName => name = []
  | Err ValueTooLong => name <> [] /\ PROP_VALUE_MAX <= zlen value /\ is_read_only name = false
  | Err (NoContext n) => n = name /\ name <> [] /\ fits name value /\ slot name = None
  | Err (AreaFull context) => name <> [] /\ fits name value /\ m !! name = None /\
      exists i mem, slot name = Some i /\ contexts !! i = Some context /\ pa_areas pa !! i = Some mem /\
        forall segs, segs_of name segs -> free mem < add_cost name value segs
  | Err (NotFound _) => False
  end.

(** The state after a change, and the wakes that went with it. *)
Definition changed pa m serial (r : result unit AreaError) pa' m' (wakes : list WakeTarget) : Prop :=
  match r with
  | Ok _ => areas_hold pa' m' (as_u 32 (serial + 1)) /\ pa_wakes pa' = pa_wakes pa ++ wakes
  | Err _ => areas_hold pa' m serial /\ pa_wakes pa' = pa_wakes pa
  end.

Lemma add_spec_insert m name value e : m !! name = Some e -> add_spec m name value = <[name := e]> m.
Proof. intros He. unfold add_spec. by rewrite He, insert_id. Qed.

(** The area takes the property, or is full. *)
Lemma area_add_ok pa m serial name value i : areas_hold pa m serial -> no_nul name -> no_nul value -> fits name value ->
  slot name = Some i -> (i < length contexts)%nat ->
  exists mem ok pa', pa_areas pa !! i = Some mem /\ at_area i (Area.add name value) pa = Done (ok, pa') /\
    areas_hold pa' (if ok then add_spec m name value else m) serial /\ pa_wakes pa' = pa_wakes pa /\
    (ok = true -> has_segs name) /\
    (ok = false -> m !! name = None /\ forall segs, segs_of name segs -> free mem < add_cost name value segs).
Proof.
  intros Hh Hname Hvalue Hfits Hs Hlt. destruct (hold_area _ _ _ _ _ Hh Hs Hlt) as (mem & mi & Hmem & Hmi & Hm & Hsame & Hins).
  destruct (AreaMap.add_ok mem mi name value Hmi Hname Hvalue) as (ok & mem' & Hadd & _ & Hmi' & Hsome & Hspace & Hsegs).
  exists mem, ok, (with_areas pa (<[i := mem']> (pa_areas pa))). split_and!; [done|by eapply at_area_run| |done|..].
  - destruct ok; [|by apply Hsame]. unfold add_spec in *. rewrite <- Hm. destruct (mi !! name) as [e|] eqn:He; [by apply Hsame|].
    apply Hins; [done|]. unfold new_entry. cbn [e_value]. by rewrite is_ro_prefix.
  - intros Hok. destruct (Hsegs Hok) as (segs & Hsg & _). by exists segs.
  - intros ->. rewrite <- Hm. split; [destruct (mi !! name); [by discriminate Hsome|done]|]. intros segs Hsg.
    apply Z.nle_gt. intros Hle. by discriminate (Hspace segs Hsg Hle).
Qed.

Lemma areas_add_ok pa m serial name value : areas_hold pa m serial -> no_nul name -> no_nul value ->
  exists r pa', PropAreas.add name value pa = Done (r, pa') /\ add_answer pa m name value r /\
    changed pa m serial r pa' (add_spec m name value) [serial_wake].
Proof.
  intros Hh Hname Hvalue. destruct (index_ok _ _ _ _ Hh Hname) as [Hidx Hlt]. unfold PropAreas.add. fold (is_read_only name).
  destruct (decide (name = [])) as [Hn|Hn]; [rewrite bool_decide_true by done|rewrite bool_decide_false by done].
  { exists (Err EmptyName), pa. done. }
  destruct ((PROP_VALUE_MAX <=? zlen value) && negb (is_read_only name)) eqn:Hlong.
  { apply andb_true_iff in Hlong as [Hl%Z.leb_le Hro%negb_true_iff]. by exists (Err ValueTooLong), pa. }
  assert (fits name value) as Hfits.
  { intros Hl%Z.leb_le. rewrite Hl in Hlong. by apply negb_false_iff in Hlong. }
  unfold mbind, M_bind. rewrite Hidx. destruct (slot name) as [i|] eqn:Hs; [|exists (Err (NoContext name)), pa; by cbn; rewrite Hs].
  destruct (area_add_ok _ _ _ _ _ _ Hh Hname Hvalue Hfits Hs Hlt) as (mem & ok & pa1 & Hmem & -> & Hh1 & Hw1 & Hok & Hfull).
  destruct ok; cbn [negb].
  - destruct (bump_ok _ _ _ Hh1) as (pa' & -> & Hh' & Hw' & _). exists (Ok tt), pa'. rewrite Hw1 in Hw'.
    split; [done|]. split; [|done]. cbn. rewrite Hs. eauto.
  - destruct (lookup_lt_is_Some_2 _ _ Hlt) as [context Hc]. unfold context_at. rewrite (ah_contexts _ _ _ Hh1), Hc.
    exists (Err (AreaFull context)), pa1. destruct (Hfull eq_refl) as [Hm Hroom]. split; [done|]. split; [|done]. split_and!; try done. eauto 10.
Qed.

(** *** Updates *)

Definition update_spec m (name : str) (value : list byte) : Props :=
  match m !! name with Some e => <[name := mkEntry value (new_serial (Z.lor (e_serial e) 1) value)]> m | None => m end.

Definition update_answer m (name : str) (value : list byte) (r : result unit AreaError) : Prop :=
  match r with
  | Ok _ => zlen value < PROP_VALUE_MAX /\ is_Some (m !! name)
  | Err ValueTooLong => PROP_VALUE_MAX <= zlen value
  | Err (NoContext n) => n = name /\ zlen value < PROP_VALUE_MAX /\ slot name = None
  | Err (NotFound n) => n = name /\ zlen value < PROP_VALUE_MAX /\ is_Some (slot name) /\ m !! name = None
  | Err _ => False
  end.

(** The word that readers of the property sleep on. *)
Definition property_wake pa (name : str) (w : WakeTarget) : Prop :=
  exists i context mem info, slot name = Some i /\ contexts !! i = Some context /\ pa_areas pa !! i = Some mem /\
    Reader.find mem name = Done (Some info) /\ w = mkWakeTarget context (PROP_AREA_HEADER_SIZE + info).

Lemma represents_find mem mi h used dirs name info :
  represents mem mi h used dirs -> present h name info -> Reader.find mem name = Done (Some info).
Proof.
  intros HR Hp. destruct (reader_find mem h used (rp_heap _ _ _ _ _ HR) dirs (rp_trie _ _ _ _ _ HR) name) as (r & -> & Hr).
  - apply Hp.
  - intros info' Hp'. pose proof (represents_info _ _ _ _ _ _ _ HR Hp'). lia.
  - destruct r as [info'|]; [|by destruct (Hr info)]. do 2 f_equal. by eapply present_det.
Qed.

(** The area's property changes. *)
Lemma area_update_ok pa m serial name value e i : areas_hold pa m serial -> no_nul name -> no_nul value -> is_read_only name = false ->
  zlen value < PROP_VALUE_MAX -> slot name = Some i -> (i < length contexts)%nat -> m !! name = Some e ->
  exists mem info pa' s, pa_areas pa !! i = Some mem /\ Area.find name mem = Done (Some info, mem) /\
    at_area i (update_value info value) pa = Done (s, pa') /\ areas_hold pa' (update_spec m name value) serial /\ pa_wakes pa' = pa_wakes pa /\
    exists mem', pa_areas pa' !! i = Some mem' /\ Reader.find mem' name = Done (Some info).
Proof.
  intros Hh Hname Hvalue Hro Hshort Hs Hlt He. destruct (hold_area _ _ _ _ _ Hh Hs Hlt) as (mem & mi & Hmem & Hmi & Hm & _ & Hins).
  pose proof (find_ok mem mi name Hmi Hname) as Hf. rewrite Hm, He in Hf. destruct Hf as (info & h & used & dirs & Hf & HR & Hp).
  unfold is_read_only in Hro. rewrite <- is_ro_prefix in Hro.
  destruct (update_refines mem mi h used dirs name info e value) as (mem' & Hu & (h' & HR' & Hp') & _); [done|done|by rewrite Hm|done..|].
  exists mem, info. eexists _, _. split_and!; [done|done|by eapply at_area_run| |done|].
  - unfold update_spec. rewrite He. apply Hins; [by exists h', used, dirs|cbn [e_value]; lia].
  - exists mem'. cbn. rewrite list_lookup_insert_eq by (by apply lookup_lt_Some in Hmem). split; [done|]. by eapply represents_find.
Qed.

Lemma areas_update_ok pa m serial name value : areas_hold pa m serial -> no_nul name -> no_nul value -> is_read_only name = false ->
  exists r pa' w, PropAreas.update name value pa = Done (r, pa') /\ update_answer m name value r /\
    changed pa m serial r pa' (update_spec m name value) [w; serial_wake] /\ (r = Ok tt -> property_wake pa' name w).
Proof.
  intros Hh Hname Hvalue Hro. destruct (index_ok _ _ _ _ Hh Hname) as [Hidx Hlt]. unfold PropAreas.update.
  destruct (Z.leb_spec PROP_VALUE_MAX (zlen value)) as [Hlong|Hshort].
  { by exists (Err ValueTooLong), pa, serial_wake. }
  unfold mbind, M_bind. rewrite Hidx. pose proof (find_slot _ _ _ _ Hh Hname) as Hf.
  destruct (slot name) as [i|] eqn:Hs; [|exists (Err (NoContext name)), pa, serial_wake; by cbn; rewrite Hs].
  destruct (m !! name) as [e|] eqn:He; cycle 1.
  { destruct Hf as [?|(i' & mem & [= <-] & Hmem & Hfind)]; [done|]. rewrite (at_area_read _ _ _ _ _ Hmem Hfind).
    exists (Err (NotFound name)), pa, serial_wake. cbn. rewrite He, Hs. by eauto. }
  destruct (area_update_ok _ _ _ _ _ _ _ Hh Hname Hvalue Hro Hshort Hs Hlt He) as (mem & info & pa1 & s & Hmem & Hfind & Hu & Hh1 & Hw1 & mem' & Hmem' & Hr).
  rewrite (at_area_read _ _ _ _ _ Hmem Hfind), Hu. destruct (lookup_lt_is_Some_2 _ _ Hlt) as [context Hc].
  unfold context_at. rewrite (ah_contexts _ _ _ Hh1), Hc. unfold wake_all.
  pose proof (hold_wakes _ _ _ (pa_wakes pa1 ++ [mkWakeTarget context (PropAreas.file_offset info)]) Hh1) as Hh2.
  destruct (bump_ok _ _ _ Hh2) as (pa' & -> & Hh' & Hw' & Ha').
  exists (Ok tt), pa', (mkWakeTarget context (PropAreas.file_offset info)). split; [done|]. split; [cbn; rewrite He; by eauto|]. split.
  - split; [done|]. rewrite Hw'. cbn. by rewrite Hw1, <- app_assoc.
  - intros _. exists i, context, mem', info. by rewrite Ha'.
Qed.

(** ** Listing *)

Definition shown (property : str * Entry) : list Z * list Z := (utf8_lossy property.1, utf8_lossy (e_value property.2)).

Lemma read_infos_ok mem m h used dirs infos es :
  represents mem m h used dirs -> Forall2 (listed m h) infos es ->
  PropAreas.read_infos infos mem = Done ((fun p => (utf8_lossy p.1, utf8_lossy (seen p.1 (e_value p.2)))) <$> es, mem).
Proof.
  intros HR. induction 1 as [|info [name e] infos es ([Hname _] & _ & He) _ IH]; [done|]. cbn [fst snd] in *.
  pose proof (rp_heap _ _ _ _ _ HR) as HH. cbn [PropAreas.read_infos]. unfold mbind, M_bind.
  assert (exists serial field, h !! info = Some (OInfo name serial field)) as (serial & field & Ho).
  { destruct He as [_ [(? & Ho & _)|(? & Ho & _)]]; eauto. }
  rewrite (writer_name _ _ _ HH _ _ _ _ Ho Hname), (proj1 (writer_value _ _ _ HH _ _ _ He Hname)), IH. done.
Qed.

(** What the walk over the areas shows of one area: all of its map. *)
Lemma area_listed pa m serial i mem mi : areas_hold pa m serial -> pa_areas pa !! i = Some mem -> area_holds mem mi ->
  (forall name e, mi !! name = Some e -> m !! name = Some e) ->
  exists infos es, at_area i Area.foreach pa = Done (infos, pa) /\
    at_area i (PropAreas.read_infos infos) pa = Done (shown <$> es, pa) /\ es ≡ₚ map_to_list mi.
Proof.
  intros Hh Hi Hmem Hsub. destruct (foreach_ok _ _ Hmem) as (h & used & dirs & infos & es & HR & Hf & Hes & Hp). exists infos, es.
  split_and!; [by eapply at_area_read|..|done]. rewrite (at_area_read _ _ _ _ _ Hi (read_infos_ok _ _ _ _ _ _ _ HR Hes)).
  do 2 f_equal. apply list_fmap_ext. intros j [name e] Hj. unfold shown. cbn. do 2 f_equal. eapply seen_all; [done|].
  apply Hsub, elem_of_map_to_list. rewrite <- Hp. by eapply list_elem_of_lookup_2.
Qed.

Definition map_at (ms : list Props) (i : nat) : Props := default ∅ (ms !! i).

Lemma foreach_from_ok pa m serial ms n index : areas_hold pa m serial -> Forall2 area_holds (pa_areas pa) ms ->
  (forall i mi name e, ms !! i = Some mi -> mi !! name = Some e -> m !! name = Some e) -> (index + n = length ms)%nat ->
  exists es, PropAreas.foreach_from index n pa = Done (shown <$> es, pa) /\ es ≡ₚ seq index n ≫= (fun i => map_to_list (map_at ms i)).
Proof.
  intros Hh Hms Hsub. revert index. induction n as [|n IH]; intros index Hn; [by exists []|].
  destruct (lookup_lt_is_Some_2 ms index) as [mi Hmi]; [lia|]. destruct (Forall2_lookup_r _ _ _ _ _ Hms Hmi) as (mem & Hmem & Ha).
  destruct (area_listed _ _ _ _ _ _ Hh Hmem Ha ltac:(eauto)) as (infos & es & Hf & Hr & Hes).
  destruct (IH (S index)) as (rest & Hrest & Hp); [lia|]. exists (es ++ rest). split.
  - cbn [PropAreas.foreach_from]. unfold mbind, M_bind. rewrite Hf, Hr, Hrest. by rewrite fmap_app.
  - cbn. unfold map_at at 1. rewrite Hmi. cbn. by rewrite Hes, Hp.
Qed.

(** The maps of the areas are the parts of the map. *)
Lemma parts_listed m ms :
  (forall name, m !! name = i ← slot name; mi ← ms !! i; mi !! name) ->
  (forall i mi name, ms !! i = Some mi -> is_Some (mi !! name) -> slot name = Some i) ->
  seq 0 (length ms) ≫= (fun i => map_to_list (map_at ms i)) ≡ₚ map_to_list m.
Proof.
  intros Hm Hown.
  assert (forall i name e, map_at ms i !! name = Some e -> exists mi, ms !! i = Some mi /\ mi !! name = Some e /\ slot name = Some i) as Hat.
  { unfold map_at. intros i name e He. destruct (ms !! i) as [mi|] eqn:Hi; [|cbn in He; by rewrite lookup_empty in He].
    exists mi. split_and!; [done|done|]. by eapply Hown. }
  apply NoDup_Permutation; [|apply NoDup_map_to_list|].
  - apply NoDup_bind; [|intros; apply NoDup_map_to_list|apply NoDup_seq].
    intros i j [name e] _ _ Hi%elem_of_map_to_list Hj%elem_of_map_to_list.
    destruct (Hat _ _ _ Hi) as (? & _ & _ & Hsi), (Hat _ _ _ Hj) as (? & _ & _ & Hsj). congruence.
  - intros [name e]. rewrite list_elem_of_bind, elem_of_map_to_list, Hm. split.
    + intros (i & Hi%elem_of_map_to_list & _). destruct (Hat _ _ _ Hi) as (mi & Hmi & He & ->). cbn. by rewrite Hmi.
    + intros (i & Hs & (mi & Hmi & He)%bind_Some)%bind_Some. exists i. rewrite elem_of_map_to_list, elem_of_seq.
      unfold map_at. rewrite Hmi. split; [done|]. apply lookup_lt_Some in Hmi. lia.
Qed.

Lemma areas_foreach_ok pa m serial : areas_hold pa m serial ->
  exists es, PropAreas.foreach pa = Done (shown <$> es, pa) /\ es ≡ₚ map_to_list m.
Proof.
  intros Hh. destruct (ah_areas _ _ _ Hh) as (ms & Hms & Hlen & Hm & Hown).
  destruct (foreach_from_ok _ _ _ ms (length ms) 0 Hh Hms) as (es & Hf & Hes); [|done|].
  - intros i mi name e Hi He. rewrite Hm, (Hown _ _ name Hi) by eauto. cbn. by rewrite Hi.
  - exists es. split; [|by rewrite Hes, parts_listed]. unfold PropAreas.foreach, mbind, M_bind, gets.
    by rewrite (Forall2_length _ _ _ Hms).
Qed.

End areas.

Arguments areas_hold data contexts slot pa m serial : clear implicits.
