(* ===== verification/AreasSystem.v ===== *)
(** The property areas over a serialized [property_info]: what init and its
    readers see of the properties, from the contexts files' entries on. *)

From Stdlib Require Import ZArith Lia.
From Stdlib Require Import Strings.String Strings.Byte.
From stdpp Require Import base numbers list gmap.
From S2P Require Import Prelude Text Bytes Libbase Info InfoEncode InfoOrder.
From S2P Require Import InfoWrite InfoRead InfoTrie InfoBuild InfoMatch.
From S2P Require Import Area AreaHeap AreaTrie AreaMap AreaReader AreaUpdate.
From S2P Require Import AreaWalk Areas AreasMap.

Open Scope Z_scope.

(** ** A trie is a [Lookup] *)

Section trie.
Context `{Env} (b : TrieBuilder) (Hlen : zlen (trie_bytes b) < 2 ^ 32) (Hok : builder_ok b).

Lemma contexts_from_ok (n i : nat) : (i + n = length (tb_contexts b))%nat ->
  InfoArea.contexts_from (trie_bytes b) n (Z.of_nat i) = Done (drop i (tb_contexts b)).
Proof.
  destruct (trie_parts b Hlen) as (t & r & _ & _ & H12 & _ & _ & Hc & _).
  revert i. induction n as [|n IH]; intros i Hi; cbn [InfoArea.contexts_from].
  { by rewrite drop_ge by lia. }
  destruct (lookup_lt_is_Some_2 (tb_contexts b) i) as [s Hs]; [lia|].
  unfold InfoArea.context. rewrite H12, (string_of_ok _ Hlen _ _ Hc i s Hs).
  - cbn [mbind outcome_bind]. replace (Z.of_nat i + 1) with (Z.of_nat (S i)) by lia. rewrite IH by lia. cbn. by rewrite (drop_S _ _ _ Hs).
  - eapply list.Forall_forall; [exact (bo_contexts _ Hok)|]. by eapply list_elem_of_lookup_2.
Qed.

Lemma contexts_ok : InfoArea.contexts (trie_bytes b) = Done (tb_contexts b).
Proof.
  destruct (trie_parts b Hlen) as (t & r & _ & _ & H12 & _ & _ & Hc & _). pose proof (strings_len _ Hlen _ _ Hc) as Hl.
  unfold InfoArea.contexts, InfoArea.num_contexts. rewrite H12. unfold strings_bytes in Hc. apply has_app in Hc as [Hn _].
  pose proof (zlen_nonneg (tb_contexts b)) as H0. pose proof (word_at _ 24 _ 0 _ Hn eq_refl ltac:(lia)) as Hw.
  change (24 + 4 * Z.of_nat 0) with 24 in Hw. rewrite Hw.
  unfold zlen. rewrite Nat2Z.id. by apply (contexts_from_ok _ 0).
Qed.

(** The place of a context among the contexts. *)
Definition slot_of (best : str -> str) (name : str) : option nat :=
  position (fun c => bool_decide (c = best name)) (tb_contexts b).

Lemma trie_lookup best : (forall name, best name <> [] /\ (lookup_trie b name).1 = Some (best name)) ->
  Lookup (trie_bytes b) (tb_contexts b) (slot_of best).
Proof.
  intros Hbest. split; [by apply info_accepted|apply contexts_ok|].
  intros name Hname. rewrite indexes_ok by done. eexists _, _. split; [done|]. destruct (Hbest name) as [Hne Hl]. rewrite Hl.
  assert (both_found (tb_contexts b) (tb_types b) (lookup_trie b name)) as [Hin _] by (by apply lookup_from_found; [apply Hok|]).
  rewrite Hl in Hin. destruct Hin as [_ Hin]. destruct (position_elem _ _ Hin) as (i & Hp & Hi). unfold slot_of. rewrite Hp.
  destruct (trie_parts b Hlen) as (t & r & _ & _ & _ & _ & _ & Hc & _). pose proof (strings_len _ Hlen _ _ Hc) as Hz.
  apply lookup_lt_Some in Hi as Hlt. split; [|done]. destruct (best name) as [|x s] eqn:Hb; [done|]. cbn [Serializer.index_of]. rewrite Hp.
  unfold as_u, zlen in *. by rewrite Z.mod_small by lia.
Qed.
End trie.

(** ** New areas *)

Definition size_ok (len : Z) : Prop := PROP_AREA_HEADER_SIZE + DIRTY_BACKUP_AREA + PROP_VALUE_MAX <= len < 2 ^ 32.

Lemma create_all_ok memory_for contexts : (forall file, size_ok (memory_for file)) ->
  exists areas, PropAreas.create_all memory_for contexts = Done areas /\ Forall2 area_holds areas (replicate (length contexts) ∅).
Proof.
  intros Hsize. induction contexts as [|context contexts (areas & IH & Hh)]; [by exists []|]. cbn [PropAreas.create_all].
  destruct (create_ok _ (Hsize context)) as (mem & -> & _ & Hm & _). rewrite IH. exists (mem :: areas). split; [done|]. by constructor.
Qed.

Lemma create_serial len : size_ok len -> exists mem, create len = Done mem /\ slice mem 4 4 = Some (le_bytes 4 0).
Proof. intros Hlen. eexists. split; [apply create_eq, Hlen|]. unfold new_mem. by apply (slice_at (le_bytes 4 112)). Qed.

Lemma with_memory_ok `{HL : Lookup data contexts slot} memory_for : (forall file, size_ok (memory_for file)) ->
  exists pa, PropAreas.with_memory data memory_for = Done (Ok pa) /\ areas_hold data contexts slot pa ∅ 0 /\ pa_wakes pa = [].
Proof.
  intros Hsize. unfold PropAreas.with_memory. rewrite (lk_accepted (Lookup := HL)), (lk_contexts (Lookup := HL)). cbn [mbind outcome_bind].
  destruct (create_all_ok memory_for contexts Hsize) as (areas & -> & Hh). cbn [mbind outcome_bind].
  destruct (create_serial _ (Hsize PROPERTIES_SERIAL)) as (mem & -> & Hs). cbn [mbind outcome_bind].
  eexists. split; [done|]. split; [|done]. split; try done. exists (replicate (length contexts) ∅). split_and!; [done|by rewrite length_replicate|..].
  - intros name. rewrite lookup_empty. destruct (slot name) as [i|]; [|done]. cbn.
    destruct (replicate _ _ !! i) as [mi|] eqn:Hi; [|done]. apply lookup_replicate in Hi as [-> _]. cbn. by rewrite lookup_empty.
  - intros i mi name [-> _]%lookup_replicate. rewrite lookup_empty. by intros [].
Qed.

(** ** The states of the properties *)

Section system.
Context `{Env} (entries : list PropertyInfoEntry) (default_context default_type : str) (memory_for : str -> Z).

(** The contexts files' entries: apart, with contexts, text. *)
Record config_ok : Prop := {
  co_names : distinct_names entries;
  co_entries : Forall entry_text_ok entries;
  co_contexts : Forall (fun e => pe_context e <> []) (fallback default_context default_type :: entries);
  co_default_context : text_ok default_context;
  co_default_type : text_ok default_type;
  co_len : zlen (trie_bytes (builder_of entries default_context default_type)) < 2 ^ 32;
  co_sizes : forall file, size_ok (memory_for file);
}.

(** The context of a property. *)
Definition context_of (name : str) : str := pe_context (winner (fallback default_context default_type) entries name).

Definition after_add (m : Props) (serial : Z) (name : str) (value : list byte) (r : result unit AreaError) : Props * Z :=
  match r with Ok _ => (add_spec m name value, as_u 32 (serial + 1)) | Err _ => (m, serial) end.
Definition after_update (m : Props) (serial : Z) (name : str) (value : list byte) (r : result unit AreaError) : Props * Z :=
  match r with Ok _ => (update_spec m name value, as_u 32 (serial + 1)) | Err _ => (m, serial) end.

(** The areas that init gets to, with the map and the serial its operations
    make; init updates no read-only property. *)
Inductive reaches : PropertyAreas -> Props * Z -> Prop :=
| reaches_new data pa :
    Serializer.build_trie entries default_context default_type = Done (Ok data) ->
    PropAreas.with_memory data memory_for = Done (Ok pa) -> reaches pa (∅, 0)
| reaches_add pa m serial name value r pa' :
    reaches pa (m, serial) -> no_nul name -> no_nul value -> PropAreas.add name value pa = Done (r, pa') ->
    reaches pa' (after_add m serial name value r)
| reaches_update pa m serial name value r pa' :
    reaches pa (m, serial) -> no_nul name -> no_nul value -> is_read_only name = false -> PropAreas.update name value pa = Done (r, pa') ->
    reaches pa' (after_update m serial name value r).

Context (Hc : config_ok).
Let b := builder_of entries default_context default_type.

Lemma config_built : Serializer.build_trie entries default_context default_type = Done (Ok (trie_bytes b)) /\ builder_ok b.
Proof. destruct Hc. by destruct (built_trie entries default_context default_type) as (? & ? & _). Qed.

#[local] Instance config_lookup : Lookup (trie_bytes b) (tb_contexts b) (slot_of b context_of).
Proof.
  destruct Hc as [Hn He Hne Hdc Hdt Hlen _]. destruct (built_trie entries default_context default_type) as (_ & Hok & Hbest); [done..|].
  apply trie_lookup; [done|done|]. intros name. split; [|by apply Hbest].
  unfold context_of. set (w := winner _ _ _). assert (w ∈ fallback default_context default_type :: entries) as Hin.
  { unfold w, winner. destruct (List.find (is_exact name) entries) as [e|] eqn:Hf.
    - apply find_some in Hf as [Hf _]. right. by apply list_elem_of_In.
    - destruct (longest_spec name (fallback default_context default_type) entries) as [[->|[Hin _]] _]; [left|by right]. }
  rewrite list.Forall_forall in Hne. by apply Hne.
Qed.

Lemma reaches_holds pa g : reaches pa g -> areas_hold (trie_bytes b) (tb_contexts b) (slot_of b context_of) pa g.1 g.2.
Proof.
  induction 1 as [data pa Hb Hm|pa m serial name value r pa' _ IH Hn Hv Ha|pa m serial name value r pa' _ IH Hn Hv Hro Hu].
  - rewrite (proj1 config_built) in Hb. injection Hb as <-. destruct (with_memory_ok memory_for (co_sizes Hc)) as (pa' & Hm' & Hh & _).
    rewrite Hm' in Hm. by injection Hm as <-.
  - destruct (areas_add_ok _ _ _ _ _ IH Hn Hv) as (r' & pa1 & Ha' & _ & Hch). rewrite Ha' in Ha. injection Ha as <- <-.
    by destruct r' as [[]|]; apply Hch.
  - destruct (areas_update_ok _ _ _ _ _ IH Hn Hv Hro) as (r' & pa1 & w & Ha' & _ & Hch & _). rewrite Ha' in Hu. injection Hu as <- <-.
    by destruct r' as [[]|]; apply Hch.
Qed.

(** The area of a property's context. *)
Lemma context_area pa g name : reaches pa g -> no_nul name ->
  exists i mem mi, slot_of b context_of name = Some i /\ tb_contexts b !! i = Some (context_of name) /\ pa_areas pa !! i = Some mem /\
    PropAreas.area (context_of name) pa = Done (Some mem, pa) /\ area_holds mem mi /\ mi !! name = g.1 !! name.
Proof.
  intros Hr Hname. pose proof (reaches_holds _ _ Hr) as Hh. destruct (index_ok _ _ _ _ Hh Hname) as [_ Hlt].
  assert (is_Some (slot_of b context_of name)) as [i Hs].
  { destruct config_built as [_ Hok]. destruct (built_trie entries default_context default_type) as (_ & _ & Hbest); [apply Hc..|].
    assert (both_found (tb_contexts b) (tb_types b) (lookup_trie b name)) as [Hin _] by (by apply lookup_from_found; [apply Hok|]).
    pose proof (proj1 (Hbest name) (co_contexts Hc)) as Hl. fold b in Hl. rewrite Hl in Hin. destruct (position_elem _ _ (proj2 Hin)) as (i & Hp & _). by exists i. }
  rewrite Hs in Hlt. destruct (hold_area _ _ _ _ _ Hh Hs Hlt) as (mem & mi & Hmem & Hmi & Hm & _). exists i, mem, mi.
  split_and!; [done| |done| |done|done].
  - apply position_found in Hs as (c & Hi & Hb). apply bool_decide_eq_true_1 in Hb. by subst c.
  - unfold PropAreas.area. rewrite (ah_contexts _ _ _ Hh). unfold slot_of in Hs. by rewrite Hs, Hmem.
Qed.

(** The properties of a context's area are those of the map with that context. *)
Lemma area_context pa g context mem : reaches pa g -> PropAreas.area context pa = Done (Some mem, pa) ->
  exists mi, area_holds mem mi /\ forall name e, mi !! name = Some e <-> g.1 !! name = Some e /\ context_of name = context.
Proof.
  intros Hr Ha. pose proof (reaches_holds _ _ Hr) as Hh. unfold PropAreas.area in Ha. rewrite (ah_contexts _ _ _ Hh) in Ha.
  destruct (position _ _) as [i|] eqn:Hp; [|done]. destruct (pa_areas pa !! i) as [mem'|] eqn:Hi; [|done]. injection Ha as ->.
  destruct (ah_areas _ _ _ Hh) as (ms & Hms & Hlen & Hm & Hown). destruct (Forall2_lookup_l _ _ _ _ _ Hms Hi) as (mi & Hmi & Hholds).
  exists mi. split; [done|]. intros name e. rewrite Hm. split.
  - intros He. assert (slot_of b context_of name = Some i) as Hs by eauto. rewrite Hs. cbn. rewrite Hmi. split; [done|].
    apply position_found in Hs as (c & Hc1 & Hb1), Hp as (c' & Hc2 & Hb2). rewrite Hc1 in Hc2. injection Hc2 as ->.
    apply bool_decide_eq_true_1 in Hb1, Hb2. congruence.
  - intros [He <-]. unfold slot_of in He. rewrite Hp in He. cbn in He. by rewrite Hmi in He.
Qed.

End system.

(** What a reader of a property is given. *)
Definition property_read (m : Props) (name : str) : option ReadProperty :=
  (fun e => mkReadProperty (utf8_lossy name) (utf8_lossy (e_value e)) (e_serial e)) <$> m !! name.

(** C35: From the contexts files to the readers, the properties are one map.
    After any adds and updates init makes, reading a property through the areas
    gives its value and serial in the map those operations make, and the
    global serial counts the changes; and a process that maps only the
    area file of the context that matches the property best finds the same
    property in its bytes. *)
Theorem properties_refine_map `{Env} entries default_context default_type memory_for pa m serial :
  config_ok entries default_context default_type memory_for ->
  reaches entries default_context default_type memory_for pa (m, serial) ->
  PropAreas.area_serial pa = Done (serial, pa) /\
  forall name, no_nul name ->
    PropAreas.get name pa = Done ((fun e => utf8_lossy (e_value e)) <$> m !! name, pa) /\
    PropAreas.contains name pa = Done (bool_decide (is_Some (m !! name)), pa) /\
    PropAreas.property_serial name pa = Done (e_serial <$> m !! name, pa) /\
    exists mem, PropAreas.area (context_of entries default_context default_type name) pa = Done (Some mem, pa) /\
      Reader.accepts mem = true /\ Reader.get mem name = Done (property_read m name).
Proof.
  intros Hc Hr. pose proof (reaches_holds _ _ _ _ Hc _ _ Hr) as Hh. pose proof (config_lookup _ _ _ _ Hc) as HL.
  split; [by eapply serial_loads|]. intros name Hname. destruct (get_ok _ _ _ _ Hh Hname) as (Hget & Hcont & Hser). split_and!; [done..|].
  destruct (context_area _ _ _ _ Hc _ _ name Hr Hname) as (i & mem & mi & _ & _ & _ & Ha & Hmi & Hm). exists mem. split; [done|].
  destruct (area_holds_shows _ _ Hmi) as [Hacc Hreads]. split; [done|]. rewrite (Hreads name Hname). unfold get_spec, property_read. rewrite Hm.
  cbn [fst]. destruct (m !! name) as [e|] eqn:He; [|done]. cbn. unfold read_spec. by rewrite (seen_all _ _ _ _ _ Hh He).
Qed.

(** C37: Listing the properties shows each of them once.  After any adds and
    updates, [foreach] over the areas ends without a panic, changes nothing and gives
    exactly the properties of the map, with their values; and what a process reads
    when it walks over one area file is properties of that file's context, none
    twice, and all of them where the file is too small for its trie to
    be deeper than the limit of the reader. *)
Theorem properties_listed `{Env} entries default_context default_type memory_for pa m serial :
  config_ok entries default_context default_type memory_for ->
  reaches entries default_context default_type memory_for pa (m, serial) ->
  (exists properties, PropAreas.foreach pa = Done (shown <$> properties, pa) /\ properties ≡ₚ map_to_list m) /\
  forall context mem, PropAreas.area context pa = Done (Some mem, pa) ->
    exists properties, Some <$> Reader.foreach mem = property_read m <$> properties /\ NoDup properties /\
      (forall name, name ∈ properties -> context_of entries default_context default_type name = context) /\
      (data_size mem <= TRIE_NODE_SIZE * 4097 -> forall name, is_Some (m !! name) ->
         context_of entries default_context default_type name = context -> name ∈ properties).
Proof.
  intros Hc Hr. pose proof (reaches_holds _ _ _ _ Hc _ _ Hr) as Hh. pose proof (config_lookup _ _ _ _ Hc) as HL.
  split; [by eapply areas_foreach_ok|]. intros context mem Ha.
  destruct (area_context _ _ _ _ Hc _ _ _ _ Hr Ha) as (mi & Hmi & Hin). cbn [fst] in Hin.
  destruct (reader_foreach_ok _ _ Hmi) as (es & -> & Hone & Hes & Hall). exists es.*1. split_and!.
  - rewrite <- !list_fmap_compose. apply list_fmap_ext. intros i [name e] Hi%list_elem_of_lookup_2%Hes%Hin. cbn in *. destruct Hi as [He _].
    unfold property_read. rewrite He. cbn. unfold read_spec. by rewrite (seen_all _ _ _ _ _ Hh He).
  - apply NoDup_fmap_fst; [|done]. intros name e e' He%Hes He'%Hes. cbn in *. congruence.
  - intros name ([name' e] & -> & He%Hes%Hin)%list_elem_of_fmap. apply He.
  - intros Hsize name [e He] Hctx. apply list_elem_of_fmap. exists (name, e). split; [done|].
    rewrite Hall by done. apply elem_of_map_to_list, Hin. done.
Qed.

(** When adds and updates answer what; [context] is the name's. *)
Definition add_answers (context : str) (pa : PropertyAreas) (m : Props) (name : str) (value : list byte) (r : result unit AreaError) : Prop :=
  match r with
  | Ok _ => name <> [] /\ fits name value /\ has_segs name
  | Err EmptyName => name = []
  | Err ValueTooLong => name <> [] /\ ~ fits name value
  | Err (AreaFull c) => c = context /\ name <> [] /\ fits name value /\ m !! name = None /\
      exists mem, PropAreas.area context pa = Done (Some mem, pa) /\ forall segs, segs_of name segs -> free mem < add_cost name value segs
  | Err _ => False
  end.

Definition update_answers (m : Props) (name : str) (value : list byte) (r : result unit AreaError) : Prop :=
  match r with
  | Ok _ => zlen value < PROP_VALUE_MAX /\ is_Some (m !! name)
  | Err ValueTooLong => PROP_VALUE_MAX <= zlen value
  | Err (NotFound n) => n = name /\ zlen value < PROP_VALUE_MAX /\ m !! name = None
  | Err _ => False
  end.

(** The wakes of an update: the word that the readers of the property find, and
    the global serial. *)
Definition update_wakes (context : str) (pa pa' : PropertyAreas) (name : str) (r : result unit AreaError) : Prop :=
  match r with
  | Ok _ => exists mem info, PropAreas.area context pa' = Done (Some mem, pa') /\ Reader.find mem name = Done (Some info) /\
      pa_wakes pa' = pa_wakes pa ++ [mkWakeTarget context (PROP_AREA_HEADER_SIZE + info); serial_wake]
  | Err _ => pa_wakes pa' = pa_wakes pa
  end.

Section answers.
Context `{Env} entries default_context default_type memory_for (Hc : config_ok entries default_context default_type memory_for).
Context pa m serial (Hr : reaches entries default_context default_type memory_for pa (m, serial)).
Context (name : str) (value : list byte) (Hname : no_nul name) (Hvalue : no_nul value).
Let context := context_of entries default_context default_type name.

Lemma add_answers_ok : exists r pa', PropAreas.add name value pa = Done (r, pa') /\ add_answers context pa m name value r /\
  pa_wakes pa' = pa_wakes pa ++ match r with Ok _ => [serial_wake] | Err _ => [] end.
Proof.
  pose proof (reaches_holds _ _ _ _ Hc _ _ Hr) as Hh. pose proof (config_lookup _ _ _ _ Hc) as HL.
  destruct (context_area _ _ _ _ Hc _ _ name Hr Hname) as (i & mem & mi & Hs & Hi & Hmem & Ha & _).
  destruct (areas_add_ok _ _ _ _ _ Hh Hname Hvalue) as (r & pa' & Hadd & Hans & Hch). exists r, pa'. split; [done|].
  destruct r as [[]|err]; (split; [|destruct Hch as [_ ->]; by rewrite ?app_nil_r]).
  - destruct Hans as (? & ? & _ & ?). done.
  - destruct err as [| |n|c|n]; cbn in Hans |- *; try done.
    + destruct Hans as (? & Hl & Hro). split; [done|]. intros Hf. by rewrite (Hf Hl) in Hro.
    + destruct Hans as (_ & _ & _ & Hno). by rewrite Hs in Hno.
    + destruct Hans as (? & ? & ? & i' & mem' & Hs' & Hc' & Hm' & Hroom). rewrite Hs in Hs'. injection Hs' as <-.
      rewrite Hi in Hc'. rewrite Hmem in Hm'. injection Hc' as <-. injection Hm' as <-. split_and!; try done. by exists mem.
Qed.

Lemma update_answers_ok : is_read_only name = false ->
  exists r pa', PropAreas.update name value pa = Done (r, pa') /\ update_answers m name value r /\ update_wakes context pa pa' name r.
Proof.
  intros Hro. pose proof (reaches_holds _ _ _ _ Hc _ _ Hr) as Hh. pose proof (config_lookup _ _ _ _ Hc) as HL.
  destruct (context_area _ _ _ _ Hc _ _ name Hr Hname) as (i & mem & mi & Hs & Hi & Hmem & Ha & _).
  destruct (areas_update_ok _ _ _ _ _ Hh Hname Hvalue Hro) as (r & pa' & w & Hu & Hans & Hch & Hw). exists r, pa'. split; [done|].
  destruct r as [[]|err].
  - split; [done|]. destruct Hch as [Hh' Hwakes]. destruct (Hw eq_refl) as (i' & c & mem' & info & Hs' & Hc' & Hm' & Hf & ->).
    rewrite Hs in Hs'. injection Hs' as <-. rewrite Hi in Hc'. injection Hc' as <-. exists mem', info. split_and!; try done.
    unfold PropAreas.area, context. rewrite (ah_contexts _ _ _ Hh'). unfold slot_of in Hs. by rewrite Hs, Hm'.
  - split; [|by destruct Hch]. destruct err as [| |n|c|n]; cbn in Hans |- *; try done.
    + destruct Hans as (_ & _ & Hno). by rewrite Hs in Hno.
    + by destruct Hans as (? & ? & _ & ?).
Qed.
End answers.


(** ** An example *)

Definition some_memory (file : str) : Z := 512.

Lemma some_config : config_ok some_entries DEFAULT_CONTEXT DEFAULT_TYPE some_memory.
Proof.
  assert (forall s, bool_decide (x00 ∉ s) = true -> is_utf8 s = true -> text_ok s) as Htext.
  { intros s Hn Hu. split; [exact (bool_decide_eq_true_1 _ Hn)|exact Hu]. }
  split; [split; apply (bool_decide_eq_true_1 _); vm_compute; reflexivity| | |apply Htext; vm_compute; reflexivity..|vm_compute; reflexivity|].
  - unfold some_entries. repeat (apply list.Forall_cons; split; [split; [unfold no_nul; apply (bool_decide_eq_true_1 _); vm_compute; reflexivity|apply Htext; vm_compute; reflexivity..]|]).
    apply list.Forall_nil_2.
  - by repeat constructor.
  - intros file. unfold size_ok, some_memory. by vm_compute.
Qed.

Definition some_name : str := lit "ro.build.id".
Definition some_value : list byte := lit "A1".

Definition some_data : list byte :=
  match @Serializer.build_trie debug_env some_entries DEFAULT_CONTEXT DEFAULT_TYPE with Done (Ok data) => data | _ => [] end.
Definition no_areas : PropertyAreas := mkPropertyAreas [] [] [] [] [].
Definition some_new : PropertyAreas :=
  match @PropAreas.with_memory debug_env some_data some_memory with Done (Ok pa) => pa | _ => no_areas end.
Definition some_areas : PropertyAreas :=
  match @PropAreas.add debug_env some_name some_value some_new with Done (_, pa) => pa | _ => no_areas end.

Lemma some_reached : reaches (H := debug_env) some_entries DEFAULT_CONTEXT DEFAULT_TYPE some_memory some_areas (add_spec ∅ some_name some_value, 1).
Proof.
  apply (reaches_add (H := debug_env) _ _ _ _ some_new ∅ 0 some_name some_value (Ok tt) some_areas).
  - apply (reaches_new (H := debug_env) _ _ _ _ some_data); vm_compute; reflexivity.
  - unfold no_nul. apply (bool_decide_eq_true_1 _). vm_compute. reflexivity.
  - unfold no_nul. apply (bool_decide_eq_true_1 _). vm_compute. reflexivity.
  - vm_compute. reflexivity.
Qed.

Lemma properties_refine_map_witness : exists pa,
  reaches (H := debug_env) some_entries DEFAULT_CONTEXT DEFAULT_TYPE some_memory pa (add_spec ∅ some_name some_value, 1) /\
  @PropAreas.get debug_env some_name pa = Done (Some [65; 49], pa) /\
  exists mem, PropAreas.area (lit "id_context") pa = Done (Some mem, pa) /\
    Reader.get mem some_name = Done (Some (mkReadProperty (utf8_lossy some_name) [65; 49] 33554432)).
Proof.
  exists some_areas. split; [exact some_reached|].
  destruct (@properties_refine_map debug_env _ _ _ _ _ _ _ some_config some_reached) as [_ Hread].
  destruct (Hread some_name) as (Hget & _ & _ & mem & Ha & _ & Hm).
  - unfold no_nul. apply (bool_decide_eq_true_1 _). vm_compute. reflexivity.
  - split; [exact Hget|]. exists mem. split; [exact Ha|exact Hm].
Defined.


Lemma properties_listed_witness : exists pa,
  reaches (H := debug_env) some_entries DEFAULT_CONTEXT DEFAULT_TYPE some_memory pa (add_spec ∅ some_name some_value, 1) /\
  exists properties, @PropAreas.foreach pa = Done (shown <$> properties, pa) /\ properties ≡ₚ map_to_list (add_spec ∅ some_name some_value).
Proof.
  exists some_areas. split; [exact some_reached|].
  exact (proj1 (@properties_listed debug_env _ _ _ _ _ _ _ some_config some_reached)).
Defined.
