(* ===== verification/Service.v ===== *)
(** The rules of init's property service
    ([src/crates/aim-android-init/src/props/service.rs]): who may set what, the
    set itself, and what is left to the caller.  The policy is a parameter. *)

From Stdlib Require Import ZArith Lia.
From Stdlib Require Import Strings.String Strings.Byte.
From stdpp Require Import base numbers list.
From S2P Require Import Prelude Text Bytes Libbase Double Area Info Areas Rules.

Open Scope Z_scope.

Definition PROP_SUCCESS : Z := 0.
Definition PROP_ERROR_READ_CMD : Z := 0x0004.
Definition PROP_ERROR_READ_DATA : Z := 0x0008.
Definition PROP_ERROR_READ_ONLY_PROPERTY : Z := 0x000B.
Definition PROP_ERROR_INVALID_NAME : Z := 0x0010.
Definition PROP_ERROR_INVALID_VALUE : Z := 0x0014.
Definition PROP_ERROR_PERMISSION_DENIED : Z := 0x0018.
Definition PROP_ERROR_INVALID_CMD : Z := 0x001B.
Definition PROP_ERROR_HANDLE_CONTROL_MESSAGE : Z := 0x0020.
Definition PROP_ERROR_SET_FAILED : Z := 0x0024.

Definition INIT_CONTEXT : str := lit "u:r:init:s0".
Definition RESTORECON_PROPERTY : str := lit "selinux.restorecon_recursive".

Record Ucred := mkUcred { uc_pid : Z; uc_uid : Z; uc_gid : Z }.
Definition Ucred_INIT : Ucred := mkUcred 1 0 0.

Record ControlMessage := mkControlMessage { cm_action : str; cm_target : str; cm_from_pid : Z }.

Inductive SetEffect :=
| Changed (name value : str)
| Control (message : ControlMessage)
| Restorecon (path : str)
| Persist (name value : str).

(** The log texts. *)
Inductive SetError :=
| IllegalName
| InvalidPermissions (action value : str)
| CheckFailed
| TypeMismatch (type_ : str)
| UserspaceReboot
| AfterShutdown
| IllegalValue (error : ValueError)
| AlreadySet
| UpdateFailed (error : AreaError)
| AddFailed (error : AreaError)
| PeerUnknown.

Record SetOutcome := mkSetOutcome {
  so_reply : option Z;
  so_error : option SetError;
  so_effects : list SetEffect;
}.
Definition SetOutcome_code (code : Z) : SetOutcome := mkSetOutcome (Some code) None [].
Definition SetOutcome_failure (code : Z) (error : SetError) : SetOutcome := mkSetOutcome (Some code) (Some error) [].
Definition is_success (o : SetOutcome) : bool := bool_decide (so_reply o = Some PROP_SUCCESS).

(** [PropertyPolicy::can_set]: source and target context, name, peer. *)
Abbreviation Policy := (str -> option str -> str -> Ucred -> bool).
Definition Permissive : Policy := fun _ _ _ _ => true.

Record PropertyService := mkPropertyService {
  ps_areas : PropertyAreas;
  ps_policy : Policy;
  ps_persistent_properties_loaded : bool;
  ps_async_persist_writes : bool;
  ps_accept_messages : bool;
  ps_deferred_control_replies : bool;
}.

Abbreviation SV X := (M PropertyService X).

Module PropService.

Definition with_areas (areas : PropertyAreas) : PropertyService :=
  mkPropertyService areas Permissive false false true true.

(** An operation on the areas. *)
Definition on_areas {X} (c : M PropertyAreas X) : SV X := fun ps =>
  '(x, areas) ← c (ps_areas ps);
  Done (x, mkPropertyService areas (ps_policy ps) (ps_persistent_properties_loaded ps) (ps_async_persist_writes ps)
             (ps_accept_messages ps) (ps_deferred_control_replies ps)).

Definition set_policy (policy : Policy) (ps : PropertyService) : PropertyService :=
  mkPropertyService (ps_areas ps) policy (ps_persistent_properties_loaded ps) (ps_async_persist_writes ps)
    (ps_accept_messages ps) (ps_deferred_control_replies ps).

Section service.
Context `{Env, Powi}.

Definition new (property_info : list byte) : outcome (result PropertyService InfoError) :=
  areas ← PropAreas.new property_info;
  Done (match areas with Ok areas => Ok (with_areas areas) | Err e => Err e end).

Definition mac_allows (name : str) (target : option str) (source : str) (cred : Ucred) : SV bool :=
  if bool_decide (target = None) || bool_decide (source = []) then mret false
  else policy ← gets ps_policy; mret (policy source target name cred).

Definition property_info (name : str) : SV (option str * option str) :=
  info ← on_areas PropAreas.info_area;
  call (InfoArea.property_info info name).

Definition check_control_perms (name value source : str) (cred : Ucred) : SV bool :=
  legacy_allowed ←
    (if is_one_of [lit "ctl.start"; lit "ctl.stop"; lit "ctl.restart"] name then
       let legacy := lit "ctl." ++ value in
       '(target, _) ← property_info legacy;
       mac_allows legacy target source cred
     else mret false);
  if legacy_allowed : bool then mret true else
  let full := name ++ lit "$" ++ value in
  '(target, _) ← property_info full;
  mac_allows full target source cred.

Definition check_permissions (name value source_context : str) (cred : Ucred) : SV (result unit (Z * SetError)) :=
  legal ← call (is_legal_property_name name);
  if negb legal then mret (Err (PROP_ERROR_INVALID_NAME, IllegalName)) else
  match strip_prefix (lit "ctl.") name with
  | Some action =>
      allowed ← check_control_perms name value source_context cred;
      if negb allowed then mret (Err (PROP_ERROR_HANDLE_CONTROL_MESSAGE, InvalidPermissions action value)) else mret (Ok tt)
  | None =>
      '(target, type_) ← property_info name;
      allowed ← mac_allows name target source_context cred;
      if negb allowed then mret (Err (PROP_ERROR_PERMISSION_DENIED, CheckFailed)) else
      let type_ := default (lit "(null)") type_ in
      if negb (check_type type_ value) then mret (Err (PROP_ERROR_INVALID_VALUE, TypeMismatch type_)) else mret (Ok tt)
  end.

Definition send_control_message (action target : str) (cred : Ucred) (from_socket : bool) : SV SetOutcome :=
  accept ← gets ps_accept_messages;
  if negb accept then
    if bool_decide (action = lit "stop") then mret (SetOutcome_code PROP_SUCCESS)
    else mret (SetOutcome_failure PROP_ERROR_HANDLE_CONTROL_MESSAGE AfterShutdown)
  else
    deferred_replies ← gets ps_deferred_control_replies;
    let deferred := from_socket && deferred_replies in
    mret (mkSetOutcome (if deferred then None else Some PROP_SUCCESS) None
            [Control (mkControlMessage action target (uc_pid cred))]).

(** The end of [property_set]: the change is told. *)
Definition notify (name value_str : str) (outcome : SetOutcome) : SV SetOutcome :=
  accept ← gets ps_accept_messages;
  mret (if accept : bool then mkSetOutcome (so_reply outcome) (so_error outcome) (so_effects outcome ++ [Changed name value_str])
        else outcome).

(** The part after the value is stored. *)
Definition persist (name value_str : str) (from_socket : bool) (outcome : SetOutcome) : SV SetOutcome :=
  let need_persist := starts_with (lit "persist.") name || starts_with (lit "next_boot.") name in
  loaded ← gets ps_persistent_properties_loaded;
  if from_socket && loaded && need_persist then
    let effects := so_effects outcome ++ [Persist name value_str] in
    async ← gets ps_async_persist_writes;
    if async : bool then mret (mkSetOutcome None (so_error outcome) effects)
    else notify name value_str (mkSetOutcome (so_reply outcome) (so_error outcome) effects)
  else notify name value_str outcome.

Definition property_set (name : str) (value : list byte) (from_socket : bool) : SV SetOutcome :=
  legal ← call (is_legal_property_name name);
  if negb legal then mret (SetOutcome_failure PROP_ERROR_INVALID_NAME IllegalName) else
  match is_legal_property_value name value with
  | Err error => mret (SetOutcome_failure PROP_ERROR_INVALID_VALUE (IllegalValue error))
  | Ok _ =>
      let value_str := from_utf8_lossy value in
      let outcome := SetOutcome_code PROP_SUCCESS in
      if bool_decide (name = lit "sys.powerctl") then notify name value_str outcome else
      present ← on_areas (PropAreas.contains name);
      if present : bool then
        if starts_with (lit "ro.") name then mret (SetOutcome_failure PROP_ERROR_READ_ONLY_PROPERTY AlreadySet) else
        r ← on_areas (PropAreas.update name value);
        let outcome := match r with
                       | Ok _ => outcome
                       | Err error => mkSetOutcome (so_reply outcome) (Some (UpdateFailed error)) (so_effects outcome)
                       end in
        persist name value_str from_socket outcome
      else
        r ← on_areas (PropAreas.add name value);
        match r with
        | Err error => mret (SetOutcome_failure PROP_ERROR_SET_FAILED (AddFailed error))
        | Ok _ => persist name value_str from_socket outcome
        end
  end.

Definition handle_set (name : str) (value : list byte) (source_context : str) (cred : Ucred) (from_socket : bool) : SV SetOutcome :=
  let value_str := from_utf8_lossy value in
  checked ← check_permissions name value_str source_context cred;
  match checked with
  | Err (code, error) => mret (SetOutcome_failure code error)
  | Ok _ =>
      match strip_prefix (lit "ctl.") name with
      | Some action => send_control_message action value_str cred from_socket
      | None =>
          if bool_decide (name = lit "sys.powerctl") && bool_decide (value_str = lit "reboot,userspace") then
            mret (SetOutcome_failure PROP_ERROR_INVALID_VALUE UserspaceReboot)
          else if bool_decide (name = RESTORECON_PROPERTY) && negb (uc_pid cred =? 1) && negb (bool_decide (value = [])) then
            mret (mkSetOutcome (Some PROP_SUCCESS) None [Restorecon value_str])
          else property_set name value from_socket
      end
  end.

Definition init_set (name value : str) : SV SetOutcome := handle_set name value INIT_CONTEXT Ucred_INIT false.
Definition builtin_set (name value : str) : SV SetOutcome := handle_set name value INIT_CONTEXT Ucred_INIT true.
Definition set_no_socket (name value : str) : SV SetOutcome := property_set name value false.
Definition get (name : str) : SV (option (list Z)) := on_areas (PropAreas.get name).

End service.
End PropService.
