(* ===== verification/Protocol.v ===== *)
(** The protocol of the property service's sockets
    ([src/crates/aim-android-init/src/props/protocol.rs]). *)

From Stdlib Require Import ZArith Lia.
From Stdlib Require Import Strings.String Strings.Byte.
From stdpp Require Import base numbers list.
From S2P Require Import Prelude Text Bytes Libbase Double Area Info Areas Rules Service.

Open Scope Z_scope.

Definition PROP_NAME_MAX : Z := 32.
Definition PROP_MSG_SETPROP : Z := 1.
Definition PROP_MSG_SETPROP2 : Z := 0x00020001.
Definition MAX_STRING_LEN : Z := 0xffff.

Inductive Request :=
| SetProp2 (name value : list byte)
| SetProp (name value : list byte).

Inductive Decoded :=
| Incomplete
| Complete (request : Request) (used : Z)
| Reject (code : Z).

Definition read_u32 (bytes : list byte) (at_ : Z) : option Z := of_le_bytes <$> slice bytes at_ 4.

(** A string after its length, and where it ends. *)
Definition read_string (bytes : list byte) (at_ : Z) : result (list byte * Z) Decoded :=
  match read_u32 bytes at_ with
  | None => Err Incomplete
  | Some len =>
      if MAX_STRING_LEN <? len then Err (Reject PROP_ERROR_READ_DATA) else
      match slice bytes (at_ + 4) len with
      | None => Err Incomplete
      | Some string => Ok (string, at_ + 4 + len)
      end
  end.

(** The bytes of a fixed field, the last of them cleared. *)
Definition field_string (bytes : list byte) : list byte := c_string (<[(length bytes - 1)%nat := x00]> bytes).

Definition decode_request (bytes : list byte) : outcome Decoded :=
  match read_u32 bytes 0 with
  | None => Done Incomplete
  | Some cmd =>
      if cmd =? PROP_MSG_SETPROP then
        let total := 4 + PROP_NAME_MAX + PROP_VALUE_MAX in
        if zlen bytes <? total then Done Incomplete else
        name ← unwrap (slice bytes 4 PROP_NAME_MAX);
        value ← unwrap (slice bytes (4 + PROP_NAME_MAX) PROP_VALUE_MAX);
        Done (Complete (SetProp (field_string name) (field_string value)) total)
      else if cmd =? PROP_MSG_SETPROP2 then
        Done (match read_string bytes 4 with
              | Err stop => stop
              | Ok (name, at_) =>
                  match read_string bytes at_ with
                  | Err stop => stop
                  | Ok (value, at_) => Complete (SetProp2 name value) at_
                  end
              end)
      else Done (Reject PROP_ERROR_INVALID_CMD)
  end.

Definition truncated_reply (bytes : list byte) : option Z :=
  match read_u32 bytes 0 with
  | None => Some PROP_ERROR_READ_CMD
  | Some cmd =>
      if cmd =? PROP_MSG_SETPROP2 then Some PROP_ERROR_READ_DATA
      else if cmd =? PROP_MSG_SETPROP then None
      else Some PROP_ERROR_INVALID_CMD
  end.

Definition encode_setprop2 (name value : list byte) : list byte :=
  le_bytes 4 PROP_MSG_SETPROP2 ++ le_bytes 4 (as_u 32 (zlen name)) ++ name ++ le_bytes 4 (as_u 32 (zlen value)) ++ value.

Definition encode_setprop (name value : list byte) : outcome (list byte) :=
  let out := replicate (Z.to_nat (4 + PROP_NAME_MAX + PROP_VALUE_MAX)) x00 in
  out ← unwrap (splice out 0 (le_bytes 4 PROP_MSG_SETPROP));
  let n := Z.min (zlen name) (PROP_NAME_MAX - 1) in
  out ← unwrap (splice out 4 (take (Z.to_nat n) name));
  let v := Z.min (zlen value) (PROP_VALUE_MAX - 1) in
  unwrap (splice out (4 + PROP_NAME_MAX) (take (Z.to_nat v) value)).

Definition encode_reply (code : Z) : list byte := le_bytes 4 code.

Record Served := mkServed {
  sd_reply : option Z;
  sd_deferred : bool;
  sd_error : option SetError;
  sd_effects : list SetEffect;
}.

Definition serve `{Env, Powi} (request : Request) (source_context : option str) (cred : Ucred) : SV Served :=
  match request with
  | SetProp2 name value =>
      match source_context with
      | None => mret (mkServed (Some PROP_ERROR_PERMISSION_DENIED) false (Some PeerUnknown) [])
      | Some source_context =>
          outcome ← PropService.handle_set (from_utf8_lossy name) value source_context cred true;
          mret (mkServed (so_reply outcome) (bool_decide (so_reply outcome = None)) (so_error outcome) (so_effects outcome))
      end
  | SetProp name value =>
      match source_context with
      | None => mret (mkServed None false (Some PeerUnknown) [])
      | Some source_context =>
          outcome ← PropService.handle_set (from_utf8_lossy name) value source_context cred false;
          mret (mkServed None false (so_error outcome) (so_effects outcome))
      end
  end.

(** ** Requests as they arrive *)

Lemma slice_more {A} (l more e : list A) a n : slice l a n = Some e -> slice (l ++ more) a n = Some e.
Proof.
  rewrite !slice_Some. intros (Ha & Hn & Hlen & ->). rewrite zlen_app. pose proof (zlen_nonneg more). split_and!; [done|done|lia|].
  unfold zlen in *. rewrite drop_app_le, take_app_le by (rewrite ?length_drop; lia). done.
Qed.

Lemma read_u32_more bytes more at_ v : read_u32 bytes at_ = Some v -> read_u32 (bytes ++ more) at_ = Some v.
Proof. unfold read_u32. intros (b & Hs & ->)%fmap_Some. by rewrite (slice_more _ _ _ _ _ Hs). Qed.

Lemma read_string_more bytes more at_ r : read_string bytes at_ = r -> r <> Err Incomplete -> read_string (bytes ++ more) at_ = r.
Proof.
  unfold read_string. destruct (read_u32 bytes at_) as [len|] eqn:Hl; [|by intros <-]. rewrite (read_u32_more _ _ _ _ Hl).
  destruct (MAX_STRING_LEN <? len); [done|]. destruct (slice bytes (at_ + 4) len) as [string|] eqn:Hs; [|by intros <-].
  by rewrite (slice_more _ _ _ _ _ Hs).
Qed.

Lemma read_string_used bytes at_ s n : read_string bytes at_ = Ok (s, n) -> n <= zlen bytes.
Proof.
  unfold read_string. destruct (read_u32 _ _) as [len|]; [|done]. destruct (_ <? len); [done|].
  destruct (slice _ _ _) eqn:Hs; [|done]. intros [= -> <-]. apply slice_Some in Hs as (_ & _ & ? & _). done.
Qed.

Lemma read_string_stop bytes at_ d : read_string bytes at_ = Err d -> d = Incomplete \/ d = Reject PROP_ERROR_READ_DATA.
Proof. unfold read_string. destruct (read_u32 _ _); [|naive_solver]. repeat case_match; naive_solver. Qed.

(** Decoding ends without a panic; an answer stays when more bytes arrive, and a
    request takes bytes that are there. *)
Lemma decode_stable bytes : exists d, decode_request bytes = Done d /\
  match d with
  | Incomplete => True
  | Complete _ used => used <= zlen bytes /\ forall more, decode_request (bytes ++ more) = Done d
  | Reject _ => forall more, decode_request (bytes ++ more) = Done d
  end.
Proof.
  unfold decode_request. destruct (read_u32 bytes 0) as [cmd|] eqn:Hc; [|by eexists].
  assert (forall more, read_u32 (bytes ++ more) 0 = Some cmd) as Hmore by (intros more; by apply read_u32_more).
  destruct (Z.eqb_spec cmd PROP_MSG_SETPROP) as [->|H1].
  - destruct (Z.ltb_spec (zlen bytes) (4 + PROP_NAME_MAX + PROP_VALUE_MAX)) as [Hlt|Hle]; [by eexists|]. unfold PROP_NAME_MAX, PROP_VALUE_MAX in *.
    destruct (slice_is_Some bytes 4 32) as [name Hn]; [lia|lia|unfold zlen in *; lia|].
    destruct (slice_is_Some bytes (4 + 32) 92) as [value Hv]; [lia|lia|unfold zlen in *; lia|]. rewrite Hn, Hv. cbn [unwrap mbind outcome_bind].
    eexists. split; [done|]. split; [done|]. intros more. rewrite Hmore. rewrite zlen_app. pose proof (zlen_nonneg more).
    change (PROP_MSG_SETPROP =? PROP_MSG_SETPROP) with true. cbv iota.
    rewrite (proj2 (Z.ltb_ge _ _)), (slice_more _ _ _ _ _ Hn), (slice_more _ _ _ _ _ Hv) by lia. done.
  - destruct (Z.eqb_spec cmd PROP_MSG_SETPROP2) as [->|H2].
    + eexists. split; [done|]. destruct (read_string bytes 4) as [[name at_]|d] eqn:Hn.
      * destruct (read_string bytes at_) as [[value used]|d] eqn:Hv.
        { split; [by eapply read_string_used|]. intros more. rewrite Hmore. cbv iota. change (PROP_MSG_SETPROP2 =? PROP_MSG_SETPROP) with false.
          cbv iota. by rewrite (read_string_more _ _ _ _ Hn), (read_string_more _ _ _ _ Hv). }
        destruct (read_string_stop _ _ _ Hv) as [-> | ->]; [done|]. intros more. rewrite Hmore. change (PROP_MSG_SETPROP2 =? PROP_MSG_SETPROP) with false.
        cbv iota. by rewrite (read_string_more _ _ _ _ Hn), (read_string_more _ _ _ _ Hv).
      * destruct (read_string_stop _ _ _ Hn) as [-> | ->]; [done|]. intros more. rewrite Hmore. change (PROP_MSG_SETPROP2 =? PROP_MSG_SETPROP) with false.
        cbv iota. by rewrite (read_string_more _ _ _ _ Hn).
    + eexists. split; [done|]. intros more. rewrite Hmore. by rewrite !(proj2 (Z.eqb_neq _ _)).
Qed.

(** A message is a request that takes all of its bytes: its parts are not. *)
Lemma parts_incomplete message request part rest :
  decode_request message = Done (Complete request (zlen message)) -> message = part ++ rest -> rest <> [] ->
  decode_request part = Done Incomplete.
Proof.
  intros Hd -> Hr. destruct (decode_stable part) as (d & Hp & Hst). rewrite Hp. destruct d as [|r used|code]; [done| |].
  - destruct Hst as [Hu Hst]. rewrite Hst in Hd. injection Hd as _ Hlen. rewrite zlen_app in Hlen. unfold zlen in *. destruct rest; [done|cbn in *; lia].
  - by rewrite Hst in Hd.
Qed.

(** ** What clients send *)

Lemma read_u32_at l1 v l3 at_ : in_u 32 v -> at_ = zlen l1 -> read_u32 (l1 ++ le_bytes 4 v ++ l3) at_ = Some v.
Proof.
  intros Hv ->. unfold read_u32. rewrite (slice_at l1 (le_bytes 4 v) l3) by done. cbn -[of_le_bytes le_bytes].
  rewrite of_le_bytes_le_bytes. change (256 ^ Z.of_nat 4) with (2 ^ 32). by rewrite Z.mod_small.
Qed.

Lemma read_command v l3 : in_u 32 v -> read_u32 (le_bytes 4 v ++ l3) 0 = Some v.
Proof. intros Hv. by apply (read_u32_at []). Qed.

Lemma read_string_at l1 s l3 at_ : zlen s <= MAX_STRING_LEN -> at_ = zlen l1 ->
  read_string (l1 ++ le_bytes 4 (as_u 32 (zlen s)) ++ s ++ l3) at_ = Ok (s, at_ + 4 + zlen s).
Proof.
  intros Hs ->. pose proof (zlen_nonneg s). unfold MAX_STRING_LEN in *. unfold read_string, as_u.
  rewrite (Z.mod_small (zlen s)) by lia. rewrite read_u32_at by (done || unfold in_u; lia).
  rewrite (proj2 (Z.ltb_ge _ _)) by (unfold MAX_STRING_LEN; lia). rewrite app_assoc.
  rewrite (slice_at (l1 ++ le_bytes 4 (zlen s)) s l3); [done|by rewrite zlen_app, zlen_le_bytes|done].
Qed.

Lemma decode_setprop2 name value : zlen name <= MAX_STRING_LEN -> zlen value <= MAX_STRING_LEN ->
  decode_request (encode_setprop2 name value) = Done (Complete (SetProp2 name value) (zlen (encode_setprop2 name value))).
Proof.
  intros Hn Hv. unfold decode_request, encode_setprop2. rewrite read_command by done.
  change (PROP_MSG_SETPROP2 =? PROP_MSG_SETPROP) with false. cbv iota. change (PROP_MSG_SETPROP2 =? PROP_MSG_SETPROP2) with true. cbv iota.
  rewrite (read_string_at (le_bytes 4 PROP_MSG_SETPROP2) name) by done.
  replace (le_bytes 4 PROP_MSG_SETPROP2 ++ le_bytes 4 (as_u 32 (zlen name)) ++ name ++ le_bytes 4 (as_u 32 (zlen value)) ++ value)
    with ((le_bytes 4 PROP_MSG_SETPROP2 ++ le_bytes 4 (as_u 32 (zlen name)) ++ name) ++ le_bytes 4 (as_u 32 (zlen value)) ++ value ++ [])
    by (by rewrite app_nil_r, <- !app_assoc).
  rewrite read_string_at; [|done|rewrite !zlen_app, !zlen_le_bytes; change (zlen (le_bytes 4 PROP_MSG_SETPROP2)) with 4; lia]. do 2 f_equal. rewrite !zlen_app, !zlen_le_bytes.
  change (zlen []) with 0. lia.
Qed.

Definition legacy_field (n : nat) (s : list byte) : list byte := take n s ++ replicate (S n - length (take n s)) x00.

Lemma zlen_legacy n s : zlen (legacy_field n s) = Z.of_nat (S n).
Proof. unfold zlen, legacy_field. rewrite length_app, length_replicate, length_take. lia. Qed.

(** What a legacy field is read as. *)
Lemma legacy_field_string n s : no_nul s -> field_string (legacy_field n s) = take n s.
Proof.
  intros Hs. unfold field_string, legacy_field. set (t := take n s). assert (length t <= n)%nat as Ht by (unfold t; rewrite length_take; lia).
  rewrite list_insert_id.
  - destruct (S n - length t)%nat eqn:Hk; [lia|]. cbn [replicate]. apply c_string_app. unfold t, no_nul. intros Hin. apply Hs. apply elem_of_take in Hin as (i & Hi & _). by eapply list_elem_of_lookup_2.
  - rewrite length_app, length_replicate, lookup_app_r by lia. apply lookup_replicate_2. lia.
Qed.

Lemma encode_setprop_eq name value :
  encode_setprop name value = Done (le_bytes 4 PROP_MSG_SETPROP ++ legacy_field 31 name ++ legacy_field 91 value).
Proof.
  assert (forall (n : nat) (s : list byte), take (Z.to_nat (Z.min (zlen s) (Z.of_nat n))) s = take n s) as Htake.
  { intros n s. unfold zlen. destruct (decide (length s <= n)%nat).
    - rewrite !take_ge by lia. done.
    - f_equal. lia. }
  unfold encode_setprop, PROP_NAME_MAX, PROP_VALUE_MAX, legacy_field. change (32 - 1) with (Z.of_nat 31). change (92 - 1) with (Z.of_nat 91). rewrite !Htake.
  change (4 + 32) with 36. set (n := take 31 name). set (v := take 91 value).
  assert (length n <= 31)%nat as Hn by (unfold n; rewrite length_take; lia). assert (length v <= 91)%nat as Hv by (unfold v; rewrite length_take; lia).
  replace (replicate (Z.to_nat (36 + 92)) x00) with (replicate 4 x00 ++ replicate (length n) x00 ++ replicate (32 - length n) x00 ++ replicate (length v) x00 ++ replicate (92 - length v) x00)
    by (rewrite <- !replicate_add; f_equal; lia).
  assert (forall l : list byte, splice (replicate 4 x00 ++ l) 0 (le_bytes 4 PROP_MSG_SETPROP) = Some (le_bytes 4 PROP_MSG_SETPROP ++ l)) as ->
    by (intros l; by apply (splice_at [] (replicate 4 x00) l)).
  cbn [unwrap mbind outcome_bind].
  rewrite (splice_at (le_bytes 4 PROP_MSG_SETPROP) (replicate (length n) x00)); [|done|unfold zlen; by rewrite length_replicate]. cbn [unwrap mbind outcome_bind].
  rewrite !app_assoc, <- (app_assoc _ (replicate (length v) x00)).
  rewrite (splice_at ((le_bytes 4 PROP_MSG_SETPROP ++ n) ++ replicate (32 - length n) x00) (replicate (length v) x00)).
  - cbn [unwrap]. by rewrite <- !app_assoc.
  - unfold zlen. rewrite !length_app, length_le_bytes, length_replicate. lia.
  - unfold zlen. by rewrite length_replicate.
Qed.

Lemma decode_setprop name value message : no_nul name -> no_nul value -> encode_setprop name value = Done message ->
  decode_request message = Done (Complete (SetProp (take 31 name) (take 91 value)) (zlen message)).
Proof.
  intros Hn Hv Hm. rewrite encode_setprop_eq in Hm.
  assert (message = le_bytes 4 PROP_MSG_SETPROP ++ legacy_field 31 name ++ legacy_field 91 value) as -> by congruence. unfold decode_request. rewrite read_command by done.
  change (PROP_MSG_SETPROP =? PROP_MSG_SETPROP) with true. cbv iota. unfold PROP_NAME_MAX, PROP_VALUE_MAX.
  assert (zlen (le_bytes 4 PROP_MSG_SETPROP ++ legacy_field 31 name ++ legacy_field 91 value) = 128) as Hlen
    by (rewrite !zlen_app, zlen_le_bytes, !zlen_legacy; done).
  rewrite Hlen. cbn [Z.ltb]. change (128 <? 4 + 32 + 92) with false. cbv iota.
  assert (slice (le_bytes 4 PROP_MSG_SETPROP ++ legacy_field 31 name ++ legacy_field 91 value) 4 32 = Some (legacy_field 31 name)) as ->
    by (apply slice_at; by rewrite ?zlen_le_bytes, ?zlen_legacy).
  cbn [unwrap mbind outcome_bind].
  assert (slice (le_bytes 4 PROP_MSG_SETPROP ++ legacy_field 31 name ++ legacy_field 91 value) (4 + 32) 92 = Some (legacy_field 91 value)) as ->.
  { rewrite <- (app_nil_r (legacy_field 91 value)) at 1. rewrite app_assoc. apply slice_at; by rewrite ?zlen_app, ?zlen_le_bytes, zlen_legacy. }
  cbn [unwrap mbind outcome_bind]. by rewrite !legacy_field_string.
Qed.

(** A message is read as its request, and not before all of it is there. *)
Definition arrives (message : list byte) (request : Request) : Prop :=
  (forall more, decode_request (message ++ more) = Done (Complete request (zlen message))) /\
  (forall part rest, message = part ++ rest -> rest <> [] -> decode_request part = Done Incomplete).

Lemma arrives_ok message request : decode_request message = Done (Complete request (zlen message)) -> arrives message request.
Proof.
  intros Hd. split; [|intros part rest; by eapply parts_incomplete]. intros more. destruct (decode_stable message) as (d & Hd' & Hst).
  rewrite Hd in Hd'. injection Hd' as <-. apply Hst.
Qed.

(** C38: The service reads what clients send, in whatever pieces it arrives.  A
    message of either protocol is decoded as its request once it is there,
    with its length and whatever follows, and every part of it asks for more
    (a legacy message holds the first 31 and 91 bytes of its strings); for all
    bytes decoding ends without a panic, and what it answers other than that more is
    needed stays the answer when more arrives. *)
Theorem requests_arrive (name value : list byte) :
  (zlen name <= MAX_STRING_LEN -> zlen value <= MAX_STRING_LEN -> arrives (encode_setprop2 name value) (SetProp2 name value)) /\
  (no_nul name -> no_nul value -> exists message, encode_setprop name value = Done message /\ zlen message = 128 /\
     arrives message (SetProp (take 31 name) (take 91 value))) /\
  forall bytes, exists d, decode_request bytes = Done d /\ (d <> Incomplete -> forall more, decode_request (bytes ++ more) = Done d).
Proof.
  split_and!.
  - intros Hn Hv. by apply arrives_ok, decode_setprop2.
  - intros Hn Hv. eexists. split; [apply encode_setprop_eq|]. split; [by rewrite !zlen_app, zlen_le_bytes, !zlen_legacy|].
    apply arrives_ok, (decode_setprop name value); [done|done|apply encode_setprop_eq].
  - intros bytes. destruct (decode_stable bytes) as (d & Hd & Hst). exists d. split; [done|]. by destruct d; [|destruct Hst|].
Qed.
