(* ===== verification/ServiceSpec.v ===== *)
(** What the property service of [Service] does with the properties: sets on the
    map of [AreasSystem], who may change it and how. *)

From Stdlib Require Import ZArith Lia.
From Stdlib Require Import Strings.String Strings.Byte.
From stdpp Require Import base numbers list gmap.
From S2P Require Import Prelude Text Bytes Libbase Info InfoEncode InfoTrie.
From S2P Require Import InfoBuild InfoMatch Double Rules.
From S2P Require Import Area AreaHeap AreaTrie AreaMap AreaReader AreaUpdate.
From S2P Require Import Areas AreasMap AreasSystem Service Protocol.

Open Scope Z_scope.

(** ** Legal names *)

Lemma name_byte_range b : name_byte b = true -> b <> x00 /\ b <> x2e.
Proof. intros Hb. split; intros ->; discriminate Hb. Qed.

Lemma split_bytes s d b : b ∈ s -> b = d \/ exists piece, piece ∈ split s d /\ b ∈ piece.
Proof.
  induction s as [|a s IH]; [by intros ?%not_elem_of_nil|]. rewrite elem_of_cons. cbn [split].
  destruct (decide (a = d)) as [->|Ha].
  - intros [->|Hb]; [by left|]. destruct (IH Hb) as [->|(p & Hp & Hbp)]; [by left|]. right. exists p. split; [by right|done].
  - destruct (split s d) as [|p ps] eqn:Hs; [by destruct (split_nonempty s d)|]. intros [->|Hb]; [right; exists (a :: p); split; by left|].
    destruct (IH Hb) as [->|(q & [->|Hq]%elem_of_cons & Hbq)]; [by left|right; exists (a :: p); split; [by left|by right]|right; exists q; split; [by right|done]].
Qed.

Lemma split_segments s : split s x2e = let '(seg, rest) := split_segment s in seg :: match rest with Some rest => split rest x2e | None => [] end.
Proof.
  induction s as [|b s IH]; [done|]. cbn [split]. unfold split_segment, position in *. cbn [list_find].
  destruct (decide (b = x2e)) as [->|Hb].
  - rewrite decide_True by done. done.
  - rewrite decide_False by (by rewrite bool_decide_false). rewrite IH. by destruct (list_find _ s) as [[i c]|].
Qed.

Lemma legal_segs name : Forall (fun piece => piece <> []) (split name x2e) -> segs_of name (split name x2e).
Proof.
  remember (length name) as n eqn:Hn. assert (length name <= n)%nat as Hle by lia. clear Hn. revert name Hle.
  induction n as [|n IH]; intros name Hle Hne; rewrite split_segments in *; destruct (split_segment name) as [seg rest] eqn:Hs;
    pose proof (split_segment_eq _ _ _ Hs) as Heq; apply list.Forall_cons in Hne as [Hseg Hrest].
  - destruct name; [|cbn in Hle; lia]. destruct seg; [done|discriminate Heq].
  - destruct rest as [rest|]; [|by apply segs_last]. apply (segs_more _ _ rest); [done|done|]. apply IH; [|done].
    rewrite Heq, length_app in Hle. cbn in Hle. destruct seg; [done|cbn in Hle; lia].
Qed.

Lemma legal_facts name : legal name -> name <> [] /\ no_nul name /\ has_segs name.
Proof.
  intros Hl. unfold legal in Hl. rewrite list.Forall_forall in Hl. split_and!.
  - intros ->. destruct (Hl []) as [? _]; [by left|done].
  - intros Hin. destruct (split_bytes name x2e x00 Hin) as [?|(piece & Hp & Hb)]; [done|]. destruct (Hl _ Hp) as [_ Hbytes].
    rewrite list.Forall_forall in Hbytes. by destruct (name_byte_range x00 (Hbytes _ Hb)).
  - exists (split name x2e). apply legal_segs. rewrite list.Forall_forall. intros piece Hp. by apply Hl.
Qed.

(** ** Setting *)

(** The value of a property after a set that stores it. *)
Definition stored (m : Props) (name : str) (value : list byte) : Props :=
  match m !! name with Some _ => update_spec m name value | None => add_spec m name value end.

(** What is left to the caller after a value is stored. *)
Definition told (ps : PropertyService) (name value_str : str) : list SetEffect :=
  if ps_accept_messages ps then [Changed name value_str] else [].
Definition needs_persist (name : str) : bool := starts_with (lit "persist.") name || starts_with (lit "next_boot.") name.
Definition stored_outcome (ps : PropertyService) (name value_str : str) (from_socket : bool) : SetOutcome :=
  if from_socket && ps_persistent_properties_loaded ps && needs_persist name then
    if ps_async_persist_writes ps then mkSetOutcome None None [Persist name value_str]
    else mkSetOutcome (Some PROP_SUCCESS) None (Persist name value_str :: told ps name value_str)
  else mkSetOutcome (Some PROP_SUCCESS) None (told ps name value_str).

Inductive set_result (ps : PropertyService) (m : Props) (serial : Z) (name : str) (value : list byte) (from_socket : bool) :
    SetOutcome -> Props * Z -> Prop :=
| set_illegal_name :
    ~ legal name -> set_result ps m serial name value from_socket (SetOutcome_failure PROP_ERROR_INVALID_NAME IllegalName) (m, serial)
| set_illegal_value error :
    legal name -> is_legal_property_value name value = Err error ->
    set_result ps m serial name value from_socket (SetOutcome_failure PROP_ERROR_INVALID_VALUE (IllegalValue error)) (m, serial)
| set_powerctl :
    name = lit "sys.powerctl" -> is_legal_property_value name value = Ok tt ->
    set_result ps m serial name value from_socket
      (mkSetOutcome (Some PROP_SUCCESS) None (told ps name (from_utf8_lossy value))) (m, serial)
| set_read_only :
    legal name -> is_legal_property_value name value = Ok tt -> is_Some (m !! name) -> is_read_only name = true ->
    set_result ps m serial name value from_socket (SetOutcome_failure PROP_ERROR_READ_ONLY_PROPERTY AlreadySet) (m, serial)
| set_full context mem :
    legal name -> is_legal_property_value name value = Ok tt -> m !! name = None ->
    PropAreas.area context (ps_areas ps) = Done (Some mem, ps_areas ps) ->
    (forall segs, segs_of name segs -> free mem < add_cost name value segs) ->
    set_result ps m serial name value from_socket (SetOutcome_failure PROP_ERROR_SET_FAILED (AddFailed (AreaFull context))) (m, serial)
| set_stored :
    legal name -> is_legal_property_value name value = Ok tt -> name <> lit "sys.powerctl" ->
    (is_Some (m !! name) -> is_read_only name = false) ->
    set_result ps m serial name value from_socket (stored_outcome ps name (from_utf8_lossy value) from_socket)
      (stored m name value, as_u 32 (serial + 1)).

(** Everything but the areas. *)
Definition same_rules (ps ps' : PropertyService) : Prop :=
  ps_policy ps' = ps_policy ps /\ ps_persistent_properties_loaded ps' = ps_persistent_properties_loaded ps /\
  ps_async_persist_writes ps' = ps_async_persist_writes ps /\ ps_accept_messages ps' = ps_accept_messages ps /\
  ps_deferred_control_replies ps' = ps_deferred_control_replies ps.

Lemma same_rules_refl ps : same_rules ps ps.
Proof. done. Qed.

Definition put_areas (ps : PropertyService) (areas : PropertyAreas) : PropertyService :=
  mkPropertyService areas (ps_policy ps) (ps_persistent_properties_loaded ps) (ps_async_persist_writes ps)
    (ps_accept_messages ps) (ps_deferred_control_replies ps).

Lemma on_areas_run {X} ps (c : M PropertyAreas X) x areas : c (ps_areas ps) = Done (x, areas) -> PropService.on_areas c ps = Done (x, put_areas ps areas).
Proof. intros Hr. unfold PropService.on_areas. by rewrite Hr. Qed.

Lemma on_areas_read {X} ps (c : M PropertyAreas X) x : c (ps_areas ps) = Done (x, ps_areas ps) -> PropService.on_areas c ps = Done (x, ps).
Proof. intros Hr. rewrite (on_areas_run _ _ _ _ Hr). by destruct ps. Qed.

Lemma notify_ok ps name value_str reply effects :
  PropService.notify name value_str (mkSetOutcome reply None effects) ps = Done (mkSetOutcome reply None (effects ++ told ps name value_str), ps).
Proof. unfold PropService.notify, told, mbind, M_bind. cbn. destruct (ps_accept_messages ps); cbn; by rewrite ?app_nil_r. Qed.

Lemma persist_ok ps name value_str from_socket :
  PropService.persist name value_str from_socket (SetOutcome_code PROP_SUCCESS) ps = Done (stored_outcome ps name value_str from_socket, ps).
Proof.
  unfold PropService.persist, stored_outcome, mbind, M_bind. cbn [gets]. fold (needs_persist name). unfold gets.
  destruct (from_socket && ps_persistent_properties_loaded ps && needs_persist name); [|apply notify_ok].
  destruct (ps_async_persist_writes ps); [done|]. apply (notify_ok ps name value_str (Some PROP_SUCCESS) [Persist name value_str]).
Qed.

Lemma stored_put ps areas name value_str from_socket :
  stored_outcome (put_areas ps areas) name value_str from_socket = stored_outcome ps name value_str from_socket.
Proof. done. Qed.

Lemma legal_value_fits name value : is_legal_property_value name value = Ok tt -> fits name value.
Proof.
  unfold is_legal_property_value. fold (is_read_only name). destruct (Z.leb_spec PROP_VALUE_MAX (zlen value)) as [Hl|Hl]; [|intros _ ?; lia].
  destruct (is_read_only name) eqn:Hro; [by intros _ _|done].
Qed.

Section service.
Context `{Env, Powi} entries default_context default_type memory_for (Hc : config_ok entries default_context default_type memory_for).
Abbreviation reached ps g := (reaches entries default_context default_type memory_for (ps_areas ps) g).

(** A value that is stored: an update of what is there, or an add. *)
Lemma store_update ps m serial name value :
  reached ps (m, serial) -> no_nul name -> no_nul value -> fits name value -> is_Some (m !! name) -> is_read_only name = false ->
  exists areas, PropAreas.update name value (ps_areas ps) = Done (Ok tt, areas) /\
    reached (put_areas ps areas) (stored m name value, as_u 32 (serial + 1)).
Proof.
  intros Hr Hn Hv Hf [e He] Hro. destruct (update_answers_ok _ _ _ _ Hc _ _ _ Hr name value Hn Hv Hro) as (r & areas & Hu & Hans & _).
  destruct r as [[]|[| |n|c|n]]; cbn in Hans; try done.
  - exists areas. split; [done|]. unfold stored. rewrite He. exact (reaches_update _ _ _ _ _ _ _ _ _ _ _ Hr Hn Hv Hro Hu).
  - rewrite (Hf Hans) in Hro. done.
  - destruct Hans as (_ & _ & Hno). by rewrite He in Hno.
Qed.

Lemma store_add ps m serial name value : reached ps (m, serial) -> no_nul name -> no_nul value -> fits name value -> name <> [] -> m !! name = None ->
  exists r areas, PropAreas.add name value (ps_areas ps) = Done (r, areas) /\
    match r with
    | Ok _ => reached (put_areas ps areas) (stored m name value, as_u 32 (serial + 1))
    | Err error => reached (put_areas ps areas) (m, serial) /\ exists context mem, error = AreaFull context /\
        PropAreas.area context (ps_areas ps) = Done (Some mem, ps_areas ps) /\ forall segs, segs_of name segs -> free mem < add_cost name value segs
    end.
Proof.
  intros Hr Hn Hv Hf Hne Hm. destruct (add_answers_ok _ _ _ _ Hc _ _ _ Hr name value Hn Hv) as (r & areas & Ha & Hans & _).
  exists r, areas. split; [done|]. pose proof (reaches_add _ _ _ _ _ _ _ _ _ _ _ Hr Hn Hv Ha) as Hr'.
  destruct r as [[]|[| |n|c|n]]; cbn in Hans; try done.
  - unfold stored. by rewrite Hm.
  - by destruct Hans as [_ []].
  - destruct Hans as (-> & _ & _ & _ & mem & Hmem & Hroom). split; [done|]. eauto.
Qed.

Lemma property_set_ok ps m serial name value from_socket : reached ps (m, serial) -> no_nul value ->
  exists o ps' g, PropService.property_set name value from_socket ps = Done (o, ps') /\ reached ps' g /\ same_rules ps ps' /\
    set_result ps m serial name value from_socket o g.
Proof.
  intros Hr Hv. unfold PropService.property_set, mbind, M_bind, call. destruct (legal_name_ok name) as (legal_ & -> & Hlegal).
  destruct legal_; cbn [negb]; cycle 1.
  { eexists _, ps, _. split; [done|]. split; [exact Hr|]. split; [done|]. apply set_illegal_name. intros Hl. by apply Hlegal in Hl. }
  assert (legal name) as Hl by (by apply Hlegal). destruct (legal_facts _ Hl) as (Hne & Hn & _).
  destruct (is_legal_property_value name value) as [[]|error] eqn:Hval; cycle 1.
  { eexists _, ps, _. split; [done|]. split; [exact Hr|]. split; [done|]. by apply set_illegal_value. }
  pose proof (legal_value_fits _ _ Hval) as Hf.
  destruct (decide (name = lit "sys.powerctl")) as [Hpc|Hpc]; [rewrite bool_decide_true by done|rewrite bool_decide_false by done].
  { unfold SetOutcome_code. rewrite notify_ok. eexists _, ps, _. split; [done|]. split; [exact Hr|]. split; [done|]. by apply set_powerctl. }
  pose proof (reaches_holds _ _ _ _ Hc _ _ Hr) as Hh. pose proof (config_lookup _ _ _ _ Hc) as HL.
  destruct (get_ok _ _ _ _ Hh Hn) as (_ & Hcont & _). rewrite (on_areas_read _ _ _ Hcont). cbn [fst].
  destruct (m !! name) as [e|] eqn:He; [rewrite bool_decide_true by eauto|rewrite bool_decide_false by (by intros [])].
  - fold (is_read_only name). destruct (is_read_only name) eqn:Hro.
    { eexists _, ps, _. split; [done|]. split; [exact Hr|]. split; [done|]. by apply set_read_only; eauto. }
    destruct (store_update _ _ _ _ _ Hr Hn Hv Hf ltac:(eauto) Hro) as (areas & Hu & Hr'). rewrite (on_areas_run _ _ _ _ Hu).
    cbv beta iota zeta. rewrite persist_ok, stored_put. eexists _, _, _. split; [done|]. split; [exact Hr'|]. split; [done|]. by apply set_stored.
  - destruct (store_add _ _ _ _ _ Hr Hn Hv Hf Hne He) as (r & areas & Ha & Hr'). rewrite (on_areas_run _ _ _ _ Ha). destruct r as [[]|error].
    + rewrite persist_ok, stored_put. eexists _, _, _. split; [done|]. split; [exact Hr'|]. split; [done|]. apply set_stored; try done. rewrite He. by intros [].
    + destruct Hr' as (Hr' & context & mem & -> & Hmem & Hroom). eexists _, _, _. split; [done|]. split; [exact Hr'|]. split; [done|].
      by apply (set_full _ _ _ _ _ _ context mem).
Qed.
(** ** Permissions *)

Let b := builder_of entries default_context default_type.
Abbreviation context_of := (context_of entries default_context default_type).

(** The type that the entries give a property. *)
Definition type_of (name : str) : str := default (lit "(null)") (lookup_trie b name).2.

Definition may_set (ps : PropertyService) (source : str) (cred : Ucred) (name value : str) : Prop :=
  source <> [] /\ ps_policy ps source (Some (context_of name)) name cred = true /\ check_type (type_of name) value = true.

(** Control messages are labelled by what they ask for. *)
Definition may_control (ps : PropertyService) (source : str) (cred : Ucred) (name value : str) : Prop :=
  source <> [] /\
  ((is_one_of [lit "ctl.start"; lit "ctl.stop"; lit "ctl.restart"] name = true /\
    ps_policy ps source (Some (context_of (lit "ctl." ++ value))) (lit "ctl." ++ value) cred = true) \/
   ps_policy ps source (Some (context_of (name ++ lit "$" ++ value))) (name ++ lit "$" ++ value) cred = true).

Definition permitted (ps : PropertyService) (source : str) (cred : Ucred) (name value : str) : Prop :=
  legal name /\ match strip_prefix (lit "ctl.") name with Some _ => may_control ps source cred name value | None => may_set ps source cred name value end.

Lemma service_info_ok ps g name : reached ps g -> no_nul name ->
  PropService.property_info name ps = Done ((Some (context_of name), (lookup_trie b name).2), ps).
Proof.
  intros Hr Hn. pose proof (reaches_holds _ _ _ _ Hc _ _ Hr) as Hh. destruct (config_built _ _ _ _ Hc) as [_ Hok].
  assert (PropAreas.info_area (ps_areas ps) = Done (trie_bytes b, ps_areas ps)) as Hi.
  { unfold PropAreas.info_area. rewrite (ah_info _ _ _ Hh), info_accepted by apply Hc. done. }
  unfold PropService.property_info, mbind, M_bind, call. rewrite (on_areas_read _ _ _ Hi), property_info_ok by (done || apply Hc).
  destruct (built_trie entries default_context default_type) as (_ & _ & Hbest); [apply Hc..|].
  pose proof (proj1 (Hbest name) (co_contexts _ _ _ _ Hc)) as Hl. fold b in Hl. destruct (lookup_trie b name) as [c t]. cbn in *. by rewrite Hl.
Qed.

Lemma mac_allows_ok ps name target source cred : exists allowed, PropService.mac_allows name (Some target) source cred ps = Done (allowed, ps) /\
  (allowed = true <-> source <> [] /\ ps_policy ps source (Some target) name cred = true).
Proof.
  unfold PropService.mac_allows. rewrite (bool_decide_false (Some target = None)) by done. cbn [orb].
  destruct (decide (source = [])) as [->|Hs]; [rewrite bool_decide_true by done|rewrite bool_decide_false by done].
  - exists false. split; [done|]. by split; [|intros [? _]].
  - exists (ps_policy ps source (Some target) name cred). split; [done|]. by split; [|intros [_ ?]].
Qed.

Lemma no_nul_app l1 l2 : no_nul l1 -> no_nul l2 -> no_nul (l1 ++ l2).
Proof. unfold no_nul. intros H1 H2 [?|?]%elem_of_app; auto. Qed.

Lemma check_control_ok ps g name value source cred : reached ps g -> no_nul name -> no_nul value ->
  exists allowed, PropService.check_control_perms name value source cred ps = Done (allowed, ps) /\ (allowed = true <-> may_control ps source cred name value).
Proof.
  intros Hr Hn Hv. assert (no_nul (lit "ctl." ++ value)) as Hlegacy by (apply no_nul_app; [by apply (bool_decide_eq_true_1 _)|done]).
  assert (no_nul (name ++ lit "$" ++ value)) as Hfull by (apply no_nul_app; [done|apply no_nul_app; [by apply (bool_decide_eq_true_1 _)|done]]).
  unfold PropService.check_control_perms, mbind, M_bind, may_control.
  destruct (mac_allows_ok ps (name ++ lit "$" ++ value) (context_of (name ++ lit "$" ++ value)) source cred) as (full & Hf & Hfi).
  destruct (is_one_of _ name).
  - rewrite (service_info_ok _ _ _ Hr Hlegacy). destruct (mac_allows_ok ps (lit "ctl." ++ value) (context_of (lit "ctl." ++ value)) source cred) as (legacy & -> & Hli).
    destruct legacy; [exists true; split; [done|]; split; [intros _|done]; destruct Hli as [Hl _]; destruct (Hl eq_refl); auto|].
    rewrite (service_info_ok _ _ _ Hr Hfull), Hf. exists full. split; [done|]. rewrite Hfi. split; [intros [? ?]; auto|].
    intros [Hs [[_ Hl]|Hl]]; [|done]. by destruct Hli as [_ Hli]; discriminate Hli.
  - unfold mret, M_ret. cbv beta iota zeta. rewrite (service_info_ok _ _ _ Hr Hfull), Hf. exists full. split; [done|]. rewrite Hfi. split; [intros [? ?]; auto|].
    by intros [Hs [[? _]|Hl]].
Qed.

Lemma check_permissions_ok ps g name value source cred : reached ps g -> no_nul value ->
  exists r, PropService.check_permissions name value source cred ps = Done (r, ps) /\ (r = Ok tt <-> permitted ps source cred name value).
Proof.
  intros Hr Hv. unfold PropService.check_permissions, permitted, mbind, M_bind, call. destruct (legal_name_ok name) as (legal_ & -> & Hlegal).
  destruct legal_; cbn [negb]; cycle 1.
  { eexists. split; [done|]. split; [done|]. intros [Hl _]. by apply Hlegal in Hl. }
  assert (legal name) as Hl by (by apply Hlegal). destruct (legal_facts _ Hl) as (_ & Hn & _).
  destruct (strip_prefix (lit "ctl.") name) as [action|].
  - destruct (check_control_ok ps g name value source cred Hr Hn Hv) as (allowed & -> & Ha). destruct allowed; cbn [negb]; eexists; (split; [done|]).
    + split; [intros _; split; [done|]; by apply Ha|done].
    + split; [done|]. intros [_ Hm]. by apply Ha in Hm.
  - rewrite (service_info_ok _ _ _ Hr Hn). destruct (mac_allows_ok ps name (context_of name) source cred) as (allowed & -> & Ha). fold (type_of name). unfold may_set.
    destruct allowed; cbn [negb]; [destruct (check_type (type_of name) value) eqn:Ht; cbn [negb]|]; eexists; (split; [done|]).
    + destruct Ha as [Ha _]. destruct (Ha eq_refl). done.
    + split; [done|]. by intros (_ & _ & _ & ?).
    + split; [done|]. intros (_ & ? & ? & _). by assert (false = true) by (by apply Ha).
Qed.

Lemma refusal_codes name value source cred : gives (PropService.check_permissions name value source cred)
  (fun r => match r with Ok _ => True | Err (code, _) => code <> PROP_SUCCESS end).
Proof. unfold PropService.check_permissions. repeat gives_step; done. Qed.

(** ** Requests *)

Definition control_outcome (ps : PropertyService) (action target : str) (cred : Ucred) (from_socket : bool) : SetOutcome :=
  if ps_accept_messages ps then
    mkSetOutcome (if from_socket && ps_deferred_control_replies ps then None else Some PROP_SUCCESS) None
      [Control (mkControlMessage action target (uc_pid cred))]
  else if bool_decide (action = lit "stop") then SetOutcome_code PROP_SUCCESS
  else SetOutcome_failure PROP_ERROR_HANDLE_CONTROL_MESSAGE AfterShutdown.

Inductive handle_result (ps : PropertyService) (m : Props) (serial : Z) (name : str) (value : list byte) (source : str) (cred : Ucred)
    (from_socket : bool) : SetOutcome -> Props * Z -> Prop :=
| handle_refused code error :
    ~ permitted ps source cred name (from_utf8_lossy value) -> code <> PROP_SUCCESS ->
    handle_result ps m serial name value source cred from_socket (SetOutcome_failure code error) (m, serial)
| handle_control action :
    permitted ps source cred name (from_utf8_lossy value) -> strip_prefix (lit "ctl.") name = Some action ->
    handle_result ps m serial name value source cred from_socket
      (control_outcome ps action (from_utf8_lossy value) cred from_socket) (m, serial)
| handle_reboot :
    permitted ps source cred name (from_utf8_lossy value) -> name = lit "sys.powerctl" -> from_utf8_lossy value = lit "reboot,userspace" ->
    handle_result ps m serial name value source cred from_socket (SetOutcome_failure PROP_ERROR_INVALID_VALUE UserspaceReboot) (m, serial)
| handle_restorecon :
    permitted ps source cred name (from_utf8_lossy value) -> name = RESTORECON_PROPERTY -> uc_pid cred <> 1 -> value <> [] ->
    handle_result ps m serial name value source cred from_socket
      (mkSetOutcome (Some PROP_SUCCESS) None [Restorecon (from_utf8_lossy value)]) (m, serial)
| handle_stored o g :
    permitted ps source cred name (from_utf8_lossy value) -> strip_prefix (lit "ctl.") name = None ->
    set_result ps m serial name value from_socket o g -> handle_result ps m serial name value source cred from_socket o g.

Lemma send_control_ok ps action target cred from_socket :
  PropService.send_control_message action target cred from_socket ps = Done (control_outcome ps action target cred from_socket, ps).
Proof.
  unfold PropService.send_control_message, control_outcome, mbind, M_bind, gets. destruct (ps_accept_messages ps); [done|]. cbn. by case_match.
Qed.

Lemma handle_set_ok ps m serial name value source cred from_socket : reached ps (m, serial) -> no_nul value ->
  exists o ps' g, PropService.handle_set name value source cred from_socket ps = Done (o, ps') /\ reached ps' g /\ same_rules ps ps' /\
    handle_result ps m serial name value source cred from_socket o g.
Proof.
  intros Hr Hv. unfold PropService.handle_set. unfold mbind at 1, M_bind at 1.
  destruct (check_permissions_ok ps _ name (from_utf8_lossy value) source cred Hr (from_utf8_lossy_no_nul _ Hv)) as (r & Hchecked & Hp).
  pose proof (refusal_codes name (from_utf8_lossy value) source cred ps) as Hcode. unfold wpx in Hcode. rewrite Hchecked in Hcode |- *.
  destruct r as [[]|[code error]]; cycle 1.
  { eexists _, ps, _. split; [done|]. split; [exact Hr|]. split; [done|]. apply handle_refused; [|done]. intros Hperm. by apply Hp in Hperm. }
  destruct Hp as [Hp _]. specialize (Hp eq_refl). destruct (strip_prefix (lit "ctl.") name) as [action|] eqn:Hctl.
  { rewrite send_control_ok. eexists _, ps, _. split; [done|]. split; [exact Hr|]. split; [done|]. by apply handle_control. }
  destruct (_ && bool_decide (from_utf8_lossy value = _)) eqn:Hreboot.
  { apply andb_true_iff in Hreboot as [H1%bool_decide_eq_true_1 H2%bool_decide_eq_true_1].
    eexists _, ps, _. split; [done|]. split; [exact Hr|]. split; [done|]. by apply handle_reboot. }
  destruct (_ && negb (bool_decide (value = []))) eqn:Hrest.
  { apply andb_true_iff in Hrest as [[H1%bool_decide_eq_true_1 H2%negb_true_iff%Z.eqb_neq]%andb_true_iff H3%negb_true_iff%bool_decide_eq_false_1].
    eexists _, ps, _. split; [done|]. split; [exact Hr|]. split; [done|]. by apply handle_restorecon. }
  destruct (property_set_ok ps m serial name value from_socket Hr Hv) as (o & ps' & g & Hset & Hr' & Hsame & Hres).
  exists o, ps', g. split_and!; try done. by apply handle_stored.
Qed.

End service.
