(* ===== verification/PropertySystem.v ===== *)
(** The properties of the system, from a client's message to what a reader of an
    area finds: what [Protocol.serve] and init's own sets do to them, however
    many there are. *)

From Stdlib Require Import ZArith Lia.
From Stdlib Require Import Strings.String Strings.Byte.
From stdpp Require Import base numbers list gmap relations.
From S2P Require Import Prelude Text Bytes Libbase Info InfoEncode InfoTrie.
From S2P Require Import InfoBuild InfoMatch Double Rules.
From S2P Require Import Area AreaHeap AreaTrie AreaMap AreaReader AreaUpdate.
From S2P Require Import Areas AreasMap AreasSystem Service Protocol ServiceSpec.

Open Scope Z_scope.

(** ** Sequences of sets *)

Section sets.
Context `{Env, Powi}.

(** A request of a client or of init, a set without checks, or a change of the
    policy and the flags. *)
Inductive handles (ps ps' : PropertyService) : Prop :=
| handles_set name value source cred from_socket o :
    no_nul value -> PropService.handle_set name value source cred from_socket ps = Done (o, ps') -> handles ps ps'
| handles_rules : ps_areas ps' = ps_areas ps -> handles ps ps'.

Inductive sets (ps ps' : PropertyService) : Prop :=
| sets_handled : handles ps ps' -> sets ps ps'
| sets_direct name value from_socket o :
    no_nul value -> PropService.property_set name value from_socket ps = Done (o, ps') -> sets ps ps'.
End sets.

(** What a set does to the map. *)
Lemma stored_other m name value name' : name' <> name -> stored m name value !! name' = m !! name'.
Proof. intros Hne. unfold stored, update_spec, add_spec. repeat case_match; try done; by rewrite lookup_insert_ne. Qed.

Lemma stored_value m name value : exists e, stored m name value !! name = Some e /\ e_value e = value.
Proof. unfold stored, update_spec, add_spec. destruct (m !! name) eqn:Hm; eexists; by rewrite lookup_insert_eq. Qed.

Lemma set_result_changes ps m serial name value from_socket o g : set_result ps m serial name value from_socket o g ->
  g = (m, serial) \/
  (legal name /\ (is_Some (m !! name) -> is_read_only name = false) /\ g = (stored m name value, as_u 32 (serial + 1))).
Proof. destruct 1; auto. Qed.

Section states.
Context `{Env, Powi} entries default_context default_type memory_for (Hc : config_ok entries default_context default_type memory_for).
Abbreviation reached ps g := (reaches entries default_context default_type memory_for (ps_areas ps) g).

Lemma handles_step ps ps' m serial : reached ps (m, serial) -> handles ps ps' ->
  exists g, reached ps' g /\ (g = (m, serial) \/ exists name value source cred,
    permitted entries default_context default_type ps source cred name (from_utf8_lossy value) /\ strip_prefix (lit "ctl.") name = None /\
    (is_Some (m !! name) -> is_read_only name = false) /\ g.1 = stored m name value).
Proof.
  intros Hr [name value source cred from_socket o Hv Hh|Ha]; [|exists (m, serial); rewrite Ha; auto].
  destruct (handle_set_ok _ _ _ _ Hc ps m serial name value source cred from_socket Hr Hv) as (o' & ps1 & g & Hh' & Hr' & _ & Hres).
  rewrite Hh' in Hh. injection Hh as <- <-. exists g. split; [done|]. destruct Hres as [| | | |o1 g Hp Hctl Hset]; auto.
  apply set_result_changes in Hset as [->|(_ & Hro & ->)]; [auto|]. right. by exists name, value, source, cred.
Qed.

Lemma sets_step ps ps' m serial : reached ps (m, serial) -> sets ps ps' ->
  exists g, reached ps' g /\ (g = (m, serial) \/ exists name value, (is_Some (m !! name) -> is_read_only name = false) /\ g.1 = stored m name value).
Proof.
  intros Hr [Hh|name value from_socket o Hv Hs].
  - destruct (handles_step _ _ _ _ Hr Hh) as (g & Hr' & [->|(name & value & _ & _ & _ & _ & Hro & Hg)]); [by eauto|].
    exists g. split; [done|]. right. by exists name, value.
  - destruct (property_set_ok _ _ _ _ Hc ps m serial name value from_socket Hr Hv) as (o' & ps1 & g & Hs' & Hr' & _ & Hres).
    rewrite Hs' in Hs. injection Hs as <- <-. exists g. split; [done|]. apply set_result_changes in Hres as [->|(_ & Hro & ->)]; [by left|]. right. by exists name, value.
Qed.

Lemma sets_keep ps ps' m serial name e : reached ps (m, serial) -> rtc sets ps ps' -> is_read_only name = true -> m !! name = Some e ->
  exists g, reached ps' g /\ g.1 !! name = Some e.
Proof.
  intros Hr Hs Hro. revert m serial Hr. induction Hs as [ps|ps ps1 ps' Hstep _ IH]; intros m serial Hr He; [by exists (m, serial)|].
  destruct (sets_step _ _ _ _ Hr Hstep) as ([m1 serial1] & Hr1 & Hg). apply (IH m1 serial1); [done|].
  destruct Hg as [[= -> ->]|(name' & value & Hok & Hm1)]; [done|]. cbn in Hm1. subst m1.
  rewrite stored_other; [done|]. intros <-. by rewrite (Hok ltac:(eauto)) in Hro.
Qed.

(** Every value is of its property's type. *)
Definition typed (m : Props) : Prop := forall name e, m !! name = Some e ->
  legal name /\ check_type (type_of entries default_context default_type name) (from_utf8_lossy (e_value e)) = true.

Lemma handles_typed ps ps' m serial : reached ps (m, serial) -> rtc handles ps ps' -> typed m -> exists g, reached ps' g /\ typed g.1.
Proof.
  intros Hr Hs. revert m serial Hr. induction Hs as [ps|ps ps1 ps' Hstep _ IH]; intros m serial Hr Ht; [by exists (m, serial)|].
  destruct (handles_step _ _ _ _ Hr Hstep) as ([m1 serial1] & Hr1 & Hg). apply (IH m1 serial1); [done|].
  destruct Hg as [[= -> ->]|(name & value & source & cred & [Hl Hp] & Hctl & _ & Hm1)]; [done|]. cbn in Hm1. subst m1.
  rewrite Hctl in Hp. destruct Hp as (_ & _ & Hty). intros name' e' He'. destruct (decide (name' = name)) as [->|Hne].
  - destruct (stored_value m name value) as (e & He & <-). rewrite He in He'. injection He' as <-. done.
  - rewrite stored_other in He' by done. by apply Ht.
Qed.

Lemma reached_get ps g name : reached ps g -> no_nul name ->
  PropAreas.get name (ps_areas ps) = Done ((fun e => utf8_lossy (e_value e)) <$> g.1 !! name, ps_areas ps).
Proof.
  intros Hr Hn. pose proof (reaches_holds _ _ _ _ Hc _ _ Hr) as Hh. pose proof (config_lookup _ _ _ _ Hc) as HL. by apply (get_ok _ _ _ _ Hh Hn).
Qed.

Lemma type_of_winner name : Forall (fun e => pe_type e <> []) (fallback default_context default_type :: entries) ->
  type_of entries default_context default_type name = pe_type (winner (fallback default_context default_type) entries name).
Proof.
  intros Ht. unfold type_of. destruct (built_trie entries default_context default_type) as (_ & _ & Hbest); [apply Hc..|].
  by rewrite (proj2 (Hbest name) Ht).
Qed.
End states.

(** ** What clients and readers see *)

Definition request_name (request : Request) : list byte := match request with SetProp2 name _ | SetProp name _ => name end.
Definition request_value (request : Request) : list byte := match request with SetProp2 _ value | SetProp _ value => value end.
Definition wants_reply (request : Request) : bool := match request with SetProp2 _ _ => true | SetProp _ _ => false end.

(** What the socket does with the outcome: a legacy request gets no reply. *)
Definition served_as (request : Request) (o : SetOutcome) : Served :=
  if wants_reply request then mkServed (so_reply o) (bool_decide (so_reply o = None)) (so_error o) (so_effects o)
  else mkServed None false (so_error o) (so_effects o).


(** C33: A read-only property keeps its value: once one is there, no request of
    any client, no set of init's own, with checks or without, and no change of
    the policy or the flags changes what is read under its name. *)
Theorem read_only_once `{Env, Powi} entries default_context default_type memory_for ps g ps' name value :
  config_ok entries default_context default_type memory_for ->
  reaches entries default_context default_type memory_for (ps_areas ps) g -> rtc sets ps ps' ->
  no_nul name -> starts_with (lit "ro.") name = true ->
  PropAreas.get name (ps_areas ps) = Done (Some value, ps_areas ps) ->
  PropAreas.get name (ps_areas ps') = Done (Some value, ps_areas ps').
Proof.
  intros Hc Hr Hs Hn Hro Hget. rewrite (reached_get _ _ _ _ Hc _ _ _ Hr Hn) in Hget. destruct g as [m serial].
  cbn [fst] in Hget. destruct (m !! name) as [e|] eqn:He; [|done].
  destruct (sets_keep _ _ _ _ Hc ps ps' m serial name e Hr Hs Hro He) as (g' & Hr' & He').
  rewrite (reached_get _ _ _ _ Hc _ _ _ Hr' Hn), He'. cbn in Hget |- *. congruence.
Qed.

(** C34: What requests store is typed.  In a service that has only handled requests,
    of clients or of init, under any policies, every property has a legal name
    and a value of the type that the entry matching it best declares. *)
Theorem stored_values_typed `{Env, Powi} entries default_context default_type memory_for pa ps name value :
  config_ok entries default_context default_type memory_for ->
  Forall (fun e => pe_type e <> []) (fallback default_context default_type :: entries) ->
  reaches entries default_context default_type memory_for pa (∅, 0) -> rtc handles (PropService.with_areas pa) ps ->
  no_nul name -> PropAreas.get name (ps_areas ps) = Done (Some value, ps_areas ps) ->
  legal name /\ check_type (pe_type (winner (fallback default_context default_type) entries name)) (value ≫= encode_utf8) = true.
Proof.
  intros Hc Hty Hr Hs Hn Hget.
  destruct (handles_typed _ _ _ _ Hc (PropService.with_areas pa) ps ∅ 0 Hr Hs) as ([m serial] & Hr' & Ht); [by intros ? ? ?|].
  rewrite (reached_get _ _ _ _ Hc _ _ _ Hr' Hn) in Hget. cbn [fst] in *. destruct (m !! name) as [e|] eqn:He; [|done].
  injection Hget as <-. rewrite <- (type_of_winner _ _ _ _ Hc) by done. by apply (Ht _ _ He).
Qed.

(** ** Examples *)

Definition shell : Ucred := mkUcred 1234 2000 2000.
Definition some_service : PropertyService := PropService.with_areas some_areas.
Definition refused_service : PropertyService :=
  match @PropService.handle_set debug_env exact_powi some_name (lit "true") (lit "u:r:shell:s0") shell true some_service with
  | Done (_, ps) => ps
  | _ => some_service
  end.


Lemma read_only_once_witness :
  @PropService.handle_set debug_env exact_powi some_name (lit "true") (lit "u:r:shell:s0") shell true some_service =
    Done (SetOutcome_failure PROP_ERROR_READ_ONLY_PROPERTY AlreadySet, refused_service) /\
  @PropAreas.get debug_env some_name (ps_areas refused_service) = Done (Some [65; 49], ps_areas refused_service).
Proof.
  assert (@PropService.handle_set debug_env exact_powi some_name (lit "true") (lit "u:r:shell:s0") shell true some_service =
    Done (SetOutcome_failure PROP_ERROR_READ_ONLY_PROPERTY AlreadySet, refused_service)) as Hset by (vm_compute; reflexivity).
  split; [exact Hset|].
  apply (@read_only_once debug_env exact_powi _ _ _ _ some_service _ refused_service some_name [65; 49] some_config some_reached).
  - apply rtc_once, sets_handled. eapply handles_set; [|exact Hset]. unfold no_nul. apply (bool_decide_eq_true_1 _). vm_compute. reflexivity.
  - unfold no_nul. apply (bool_decide_eq_true_1 _). vm_compute. reflexivity.
  - vm_compute. reflexivity.
  - vm_compute. reflexivity.
Defined.

Definition typed_entries : list PropertyInfoEntry := [mkPropertyInfoEntry (lit "sys.count") (lit "count_context") (lit "int") true].
Definition typed_data : list byte :=
  match @Serializer.build_trie debug_env typed_entries DEFAULT_CONTEXT DEFAULT_TYPE with Done (Ok data) => data | _ => [] end.
Definition typed_new : PropertyAreas :=
  match @PropAreas.with_memory debug_env typed_data some_memory with Done (Ok pa) => pa | _ => no_areas end.
Definition typed_service : PropertyService :=
  match @PropService.init_set debug_env exact_powi (lit "sys.count") (lit "12") (PropService.with_areas typed_new) with
  | Done (_, ps) => ps
  | _ => PropService.with_areas typed_new
  end.

Lemma typed_config : config_ok typed_entries DEFAULT_CONTEXT DEFAULT_TYPE some_memory.
Proof.
  assert (forall s, bool_decide (x00 ∉ s) = true -> is_utf8 s = true -> text_ok s) as Htext.
  { intros s Hn Hu. split; [exact (bool_decide_eq_true_1 _ Hn)|exact Hu]. }
  split; [split; apply (bool_decide_eq_true_1 _); vm_compute; reflexivity| | |apply Htext; vm_compute; reflexivity..|vm_compute; reflexivity|].
  - apply list.Forall_singleton. split; [unfold no_nul; apply (bool_decide_eq_true_1 _); vm_compute; reflexivity|apply Htext; vm_compute; reflexivity..].
  - by repeat constructor.
  - intros file. unfold size_ok, some_memory. by vm_compute.
Qed.

Lemma stored_values_typed_witness :
  @PropAreas.get debug_env (lit "sys.count") (ps_areas typed_service) = Done (Some [49; 50], ps_areas typed_service) /\
  legal (lit "sys.count") /\ @check_type exact_powi (lit "int") (lit "12") = true.
Proof.
  assert (@PropAreas.get debug_env (lit "sys.count") (ps_areas typed_service) = Done (Some [49; 50], ps_areas typed_service)) as Hget
    by (vm_compute; reflexivity).
  split; [exact Hget|].
  apply (@stored_values_typed debug_env exact_powi typed_entries DEFAULT_CONTEXT DEFAULT_TYPE some_memory typed_new typed_service (lit "sys.count") [49; 50] typed_config).
  - by repeat constructor.
  - apply (reaches_new (H := debug_env) _ _ _ _ typed_data); vm_compute; reflexivity.
  - apply rtc_once. eapply (@handles_set debug_env exact_powi _ _ (lit "sys.count") (lit "12") INIT_CONTEXT Ucred_INIT false
      (mkSetOutcome (Some PROP_SUCCESS) None [Changed (lit "sys.count") (lit "12")])).
    + unfold no_nul. apply (bool_decide_eq_true_1 _). vm_compute. reflexivity.
    + vm_compute. reflexivity.
  - unfold no_nul. apply (bool_decide_eq_true_1 _). vm_compute. reflexivity.
  - exact Hget.
Defined.

(** A value with a NUL in it is legal, and of a property that is there only the
    part before the NUL is stored: init then reads the rest of its length from the
    old value, and readers of the area stop at the NUL. *)
Definition nul_name : str := lit "sys.boot.mode".
Definition nul_set (value : list byte) (ps : PropertyService) : PropertyService :=
  match @PropService.init_set debug_env exact_powi nul_name value ps with Done (_, ps) => ps | _ => ps end.
Definition nul_service : PropertyService := nul_set [x71; x00; x77] (nul_set (lit "abc") some_service).

Lemma nul_value_mixes :
  is_legal_property_value nul_name [x71; x00; x77] = Ok tt /\
  @PropAreas.get debug_env nul_name (ps_areas nul_service) = Done (Some [0x71; 0; 0x63], ps_areas nul_service) /\
  (mem ← PropAreas.area (lit "boot_context") (ps_areas nul_service); Reader.get (default [] mem.1) nul_name) =
    Done (Some (mkReadProperty (utf8_lossy nul_name) [0x71] 0x03000002)).
Proof. vm_compute. done. Qed.
