(* ===== verification/Tokenizer.v ===== *)
(** The tokenizer of init's scripts
    ([src/crates/aim-android-init/src/rc/tokenizer.rs]), that it ends on all
    bytes, and that it gives back the words of a script written in quotes. *)

From Stdlib Require Import ZArith Lia.
From Stdlib Require Import Strings.String Strings.Byte.
From stdpp Require Import base numbers list.
From S2P Require Import Prelude Text Bytes Libbase.

Open Scope Z_scope.

Inductive Token := Eof | Text (text : str) | Newline.

Record Tokenizer := mkTokenizer {
  tk_data : list byte;
  tk_ptr : nat;
  tk_line : Z;
  tk_next_newline : bool;
}.

Definition Tokenizer_new (contents : list byte) : Tokenizer := mkTokenizer (contents ++ [x0a; x00]) 0 0 false.

Definition byte_at (data : list byte) (index : nat) : byte := default x00 (data !! index).

(** The bytes that the tokenizer knows. *)
Definition is_blank (b : byte) : bool := bool_decide (b = x20) || bool_decide (b = x09) || bool_decide (b = x0d).

(** Where a token starts: at the end, past a newline, or at its text. *)
Inductive Start := StartEof (x : nat) | StartNewline (x : nat) | StartText (x : nat).

(** How a text ended: in a quoted part, or before [x], perhaps at a newline. *)
Inductive Ended := Unterminated (x : nat) (line : Z) | Ended_at (x : nat) (text : list byte) (line : Z) (newline : bool).

Section tokens.
Context (data : list byte).

(** The loops move forward, and end where the data does. *)
Definition fuel : nat := S (length data).

(** The [while] loop over a comment. *)
Fixpoint comment_end (fuel : nat) (x : nat) : outcome nat :=
  match fuel with
  | O => Spinning
  | S fuel =>
      if negb (bool_decide (byte_at data x = x00)) && negb (bool_decide (byte_at data x = x0a))
      then comment_end fuel (S x) else Done x
  end.

Fixpoint token_start (n : nat) (x : nat) : outcome Start :=
  match n with
  | O => Spinning
  | S n =>
      let byte := byte_at data x in
      if bool_decide (byte = x00) then Done (StartEof x)
      else if bool_decide (byte = x0a) then Done (StartNewline (S x))
      else if is_blank byte then token_start n (S x)
      else if bool_decide (byte = x23) then
        x ← comment_end fuel x;
        if bool_decide (byte_at data x = x0a) then Done (StartNewline (S x)) else Done (StartEof x)
      else Done (StartText x)
  end.

(** The loop over a quoted part; [None] when it does not end. *)
Fixpoint quoted (n : nat) (x : nat) (text : list byte) : outcome (nat * option (list byte)) :=
  match n with
  | O => Spinning
  | S n =>
      let byte := byte_at data x in
      if bool_decide (byte = x00) then Done (x, None)
      else if bool_decide (byte = x22) then Done (S x, Some text)
      else quoted n (S x) (text ++ [byte])
  end.

(** [continue_line]'s loop. *)
Fixpoint blanks_end (n : nat) (x : nat) : outcome nat :=
  match n with
  | O => Spinning
  | S n =>
      if bool_decide (byte_at data x = x20) || bool_decide (byte_at data x = x09)
      then blanks_end n (S x) else Done x
  end.

Definition continue_line (x : nat) (line : Z) : outcome (nat * Z) :=
  x ← blanks_end fuel (S x);
  Done (x, line + 1).

Fixpoint token_text (n : nat) (x : nat) (text : list byte) (line : Z) : outcome Ended :=
  match n with
  | O => Spinning
  | S n =>
      let byte := byte_at data x in
      if bool_decide (byte = x00) then Done (Ended_at x text line false)
      else if is_blank byte then Done (Ended_at (S x) text line false)
      else if bool_decide (byte = x0a) then Done (Ended_at (S x) text line true)
      else if bool_decide (byte = x22) then
        '(x, closed) ← quoted fuel (S x) text;
        match closed with
        | None => Done (Unterminated x line)
        | Some text => token_text n x text line
        end
      else if bool_decide (byte = x5c) then
        let x := S x in
        let byte := byte_at data x in
        if bool_decide (byte = x00) then Done (Ended_at x text line false)
        else if bool_decide (byte = x6e) then token_text n (S x) (text ++ [x0a]) line
        else if bool_decide (byte = x72) then token_text n (S x) (text ++ [x0d]) line
        else if bool_decide (byte = x74) then token_text n (S x) (text ++ [x09]) line
        else if bool_decide (byte = x5c) then token_text n (S x) (text ++ [x5c]) line
        else if bool_decide (byte = x0d) then
          if negb (bool_decide (byte_at data (S x) = x0a)) then token_text n (S x) text line
          else '(x, line) ← continue_line (S x) line; token_text n x text line
        else if bool_decide (byte = x0a) then
          '(x, line) ← continue_line x line; token_text n x text line
        else token_text n (S x) (text ++ [byte]) line
      else token_text n (S x) (text ++ [byte]) line
  end.
End tokens.

Definition next_token : M Tokenizer Token :=
  t ← get;
  if tk_next_newline t then
    put (mkTokenizer (tk_data t) (tk_ptr t) (tk_line t) false);;
    mret Newline
  else
    let data := tk_data t in
    let at_ (x : nat) : Tokenizer := mkTokenizer data x (tk_line t) false in
    start ← call (token_start data (fuel data) (tk_ptr t));
    match start with
    | StartEof x => put (at_ x);; mret Eof
    | StartNewline x => put (at_ x);; mret Newline
    | StartText x =>
        ended ← call (token_text data (fuel data) x [] (tk_line t));
        match ended with
        | Unterminated x line => put (mkTokenizer data x line false);; mret Eof
        | Ended_at x text line newline =>
            put (mkTokenizer data x line newline);;
            mret (Text (from_utf8_lossy text))
        end
    end.

(** ** The tokenizer ends *)

Section ends.
Context (data : list byte).
Let len := length data.

Lemma byte_at_lt x : byte_at data x <> x00 -> (x < len)%nat.
Proof. unfold byte_at. destruct (data !! x) eqn:Hx; [|done]. intros _. by apply lookup_lt_Some in Hx. Qed.

(** Decides what the byte at hand is, and that it is within the data. *)
Ltac look :=
  repeat match goal with
  | |- context [bool_decide (?b = ?c)] =>
      destruct (decide (b = c)); [rewrite (bool_decide_true (b = c)) by done|rewrite (bool_decide_false (b = c)) by done];
      cbn [negb andb orb]
  end;
  repeat match goal with
  | H : byte_at data ?x = ?c |- _ =>
      lazymatch c with x00 => fail | _ => lazymatch goal with _ : (x < len)%nat |- _ => fail | _ => assert (x < len)%nat by (apply byte_at_lt; by rewrite H) end end
  | H : byte_at data ?x <> x00 |- _ =>
      lazymatch goal with _ : (x < len)%nat |- _ => fail | _ => pose proof (byte_at_lt x H) end
  end.

Lemma comment_end_ok n x : (len < n + x)%nat -> (x <= len)%nat ->
  exists y, comment_end data n x = Done y /\ (x <= y <= len)%nat.
Proof.
  revert x. induction n as [|n IH]; intros x Hn Hx; [lia|]. cbn [comment_end]. look; try (by exists x; split; [|lia]).
  destruct (IH (S x)) as (y & -> & Hy); [lia..|]. exists y. split; [done|lia].
Qed.

Definition start_in (x : nat) (s : Start) : Prop :=
  match s with
  | StartEof y => x <= y <= len
  | StartNewline y => x < y <= len
  | StartText y => x <= y < len /\ byte_at data y <> x00
  end%nat.

Lemma token_start_ok n x : (len < n + x)%nat -> (x <= len)%nat -> exists s, token_start data n x = Done s /\ start_in x s.
Proof.
  revert x. induction n as [|n IH]; intros x Hn Hx; [lia|]. cbn [token_start]. unfold is_blank.
  assert (byte_at data x <> x00 -> exists s, token_start data n (S x) = Done s /\ start_in x s) as Hskip.
  { intros Hb. pose proof (byte_at_lt _ Hb). destruct (IH (S x)) as (s & -> & Hs); [lia..|]. exists s. split; [done|].
    destruct s; cbn in *; [lia|lia|]. split; [lia|apply Hs]. }
  look; try (by apply Hskip; congruence); try (eexists; split; [done|]; cbn; lia).
  - destruct (comment_end_ok (fuel data) x) as (y & -> & Hy); [unfold fuel, len in *; lia|lia|]. cbn. look; eexists; (split; [done|]); cbn; lia.
  - eexists. split; [done|]. cbn. split; [lia|done].
Qed.

Lemma quoted_ok n x text : (len < n + x)%nat -> (x <= len)%nat ->
  exists y r, quoted data n x text = Done (y, r) /\ (x <= y <= len)%nat.
Proof.
  revert x text. induction n as [|n IH]; intros x text Hn Hx; [lia|]. cbn [quoted]. look.
  - exists x, None. split; [done|lia].
  - exists (S x), (Some text). split; [done|lia].
  - destruct (IH (S x) (text ++ [byte_at data x])) as (y & r & -> & Hy); [lia..|]. exists y, r. split; [done|lia].
Qed.

Lemma blanks_end_ok n x : (len < n + x)%nat -> (x <= len)%nat -> exists y, blanks_end data n x = Done y /\ (x <= y <= len)%nat.
Proof.
  revert x. induction n as [|n IH]; intros x Hn Hx; [lia|]. cbn [blanks_end]. look; try (by exists x; split; [|lia]).
  all: destruct (IH (S x)) as (y & -> & Hy); [lia..|]; exists y; (split; [done|lia]).
Qed.

Definition ended_in (x : nat) (line : Z) (e : Ended) : Prop :=
  match e with
  | Unterminated y line' => (x < y <= len)%nat /\ line <= line'
  | Ended_at y _ line' newline => (x <= y <= len)%nat /\ (byte_at data x <> x00 -> x < y)%nat /\ line <= line'
  end.

Lemma token_text_ok n x text line : (len < n + x)%nat -> (x <= len)%nat ->
  exists e, token_text data n x text line = Done e /\ ended_in x line e.
Proof.
  revert x text line. induction n as [|n IH]; intros x text line Hn Hx; [lia|]. cbn [token_text]. unfold is_blank.
  assert (forall y text' line', (x < y <= len)%nat -> line <= line' ->
    exists e, token_text data n y text' line' = Done e /\ ended_in x line e) as Hnext.
  { intros y text' line' Hy Hl. destruct (IH y text' line') as (e & -> & He); [lia..|]. exists e. split; [done|].
    destruct e; cbn in *; [lia|]. destruct He as (? & _ & ?). split_and!; lia. }
  assert (forall y, (x <= y < len)%nat -> exists z, continue_line data y line = Done (z, line + 1) /\ (x < z <= len)%nat) as Hcont.
  { intros y Hy. unfold continue_line. destruct (blanks_end_ok (fuel data) (S y)) as (z & -> & Hz); [unfold fuel, len in *; lia|lia|].
    exists z. split; [done|lia]. }
  assert (forall r, ended_in x line r -> exists e, Done r = Done e /\ ended_in x line e) as Hdone by eauto.
  look; try (apply Hdone; cbn; split_and!; (lia || done)); try (apply Hnext; lia).
  - destruct (quoted_ok (fuel data) (S x) text) as (y & r & -> & Hy); [unfold fuel, len in *; lia|lia|].
    cbn. destruct r as [text'|]; [apply Hnext; lia|]. apply Hdone. cbn. lia.
  - destruct (Hcont (S (S x))) as (z & -> & Hz); [lia|]. cbn. apply Hnext; lia.
  - destruct (Hcont (S x)) as (z & -> & Hz); [lia|]. cbn. apply Hnext; lia.
Qed.
End ends.

(** The data is not left, and every token but the last takes something. *)
Definition tokenizer_ok (t : Tokenizer) : Prop := (tk_ptr t <= length (tk_data t))%nat.
Definition tokens_left (t : Tokenizer) : nat :=
  2 * (length (tk_data t) - tk_ptr t) + (if tk_next_newline t then 1 else 0).

Lemma next_token_ok t : tokenizer_ok t -> exists token t', next_token t = Done (token, t') /\
  tk_data t' = tk_data t /\ tokenizer_ok t' /\ tk_line t <= tk_line t' /\ (token <> Eof -> (tokens_left t' < tokens_left t)%nat).
Proof.
  unfold tokenizer_ok, tokens_left. destruct t as [data ptr line nl]. cbn. intros Hok.
  assert (forall token t', tk_data t' = data -> (tk_ptr t' <= length data)%nat -> line <= tk_line t' ->
    (token <> Eof -> (2 * (length data - tk_ptr t') + (if tk_next_newline t' then 1 else 0) < 2 * (length data - ptr) + (if nl then 1 else 0))%nat) ->
    exists token' t'', Done (token, t') = Done (token', t'') /\ tk_data t'' = data /\ (tk_ptr t'' <= length (tk_data t''))%nat /\ line <= tk_line t'' /\
      (token' <> Eof -> (2 * (length (tk_data t'') - tk_ptr t'') + (if tk_next_newline t'' then 1 else 0) < 2 * (length data - ptr) + (if nl then 1 else 0))%nat)) as Hdone.
  { intros token t' <- ? ? ?. exists token, t'. done. }
  unfold next_token, mbind, M_bind, get. cbn [tk_next_newline tk_data tk_ptr tk_line]. destruct nl; [apply Hdone; cbn; (done || lia)|].
  destruct (token_start_ok data (fuel data) ptr) as (s & Hs & Hin); [unfold fuel; lia|done|]. unfold call. rewrite Hs.
  destruct s as [y|y|y]; cbn in Hin; [apply Hdone; cbn; (done || lia)..|]. destruct Hin as [Hy Hb].
  destruct (token_text_ok data (fuel data) y [] line) as (e & He & Hend); [unfold fuel; lia|lia|]. rewrite He.
  destruct e as [z line'|z text line' newline]; cbn in Hend; apply Hdone; cbn; try done; try lia.
  intros _. destruct Hend as (? & Hlt & _). specialize (Hlt Hb). destruct newline; lia.
Qed.

(** ** Words in quotes *)

Definition quote (word : str) : list byte := [x22] ++ word ++ [x22].

Fixpoint quote_line (words : list str) : list byte :=
  match words with
  | [] => [x0a]
  | [word] => quote word ++ [x0a]
  | word :: words => quote word ++ [x20] ++ quote_line words
  end.

Definition script (lines : list (list str)) : list byte := mbind quote_line lines.

(** A word that can be written in quotes. *)
Definition word_ok (word : str) : Prop := no_nul word /\ (x22 ∉ word) /\ is_utf8 word = true.

Section words.
Context (data : list byte).

Lemma byte_at_here x b rest : drop x data = b :: rest -> byte_at data x = b /\ drop (S x) data = rest.
Proof.
  intros Hd. unfold byte_at. rewrite <- (Nat.add_0_r x) at 1. rewrite <- lookup_drop, Hd. split; [done|].
  by rewrite <- Nat.add_1_r, <- drop_drop, Hd.
Qed.

Lemma quoted_word word n x text rest :
  no_nul word -> x22 ∉ word -> drop x data = word ++ x22 :: rest -> (length word < n)%nat ->
  quoted data n x text = Done (x + length word + 1, Some (text ++ word))%nat /\ drop (x + length word + 1) data = rest.
Proof.
  revert n x text. induction word as [|b word IH]; intros n x text Hn Hq Hd Hlen; (destruct n as [|n]; [cbn in Hlen; lia|]); cbn [quoted].
  - destruct (byte_at_here _ _ _ Hd) as [-> Hd']. rewrite bool_decide_false, bool_decide_true by done.
    rewrite app_nil_r, Nat.add_0_r, Nat.add_1_r. done.
  - destruct (byte_at_here _ _ _ Hd) as [-> Hd']. apply not_elem_of_cons in Hq as [Hq Hq']. unfold no_nul in Hn. apply not_elem_of_cons in Hn as [Hn Hn'].
    rewrite !bool_decide_false by done. destruct (IH n (S x) (text ++ [b]) Hn' Hq' Hd') as [-> Hrest]; [cbn in Hlen; lia|].
    rewrite <- app_assoc. cbn [length app]. replace (S x + length word + 1)%nat with (x + S (length word) + 1)%nat in * by lia. done.
Qed.

(** The token of a quoted word, and whether the newline after it comes next. *)
Lemma word_token word x line (newline : bool) rest :
  word_ok word -> drop x data = quote word ++ (if newline then x0a else x20) :: rest ->
  exists y, next_token (mkTokenizer data x line false) = Done (Text word, mkTokenizer data y line newline) /\ drop y data = rest.
Proof.
  intros (Hn & Hq & Hutf) Hd. unfold quote in Hd. rewrite <- !app_assoc in Hd. cbn [app] in Hd.
  destruct (byte_at_here _ _ _ Hd) as [Hb Hd1].
  assert (length word + 3 + x <= length data)%nat as Hlen.
  { apply (f_equal length) in Hd. rewrite length_drop in Hd. cbn in Hd. rewrite length_app in Hd. cbn in Hd. lia. }
  destruct (quoted_word word (fuel data) (S x) [] _ Hn Hq Hd1) as [Hquoted Hd2]; [unfold fuel; lia|].
  destruct (byte_at_here _ _ _ Hd2) as [Hb2 Hd3]. exists (S (S x + length word + 1))%nat. split; [|done].
  unfold next_token, mbind, M_bind, get, call. cbn [tk_next_newline tk_data tk_ptr tk_line].
  assert (token_start data (fuel data) x = Done (StartText x)) as ->.
  { unfold fuel. cbn [token_start]. rewrite Hb. done. }
  assert (token_text data (fuel data) x [] line = Done (Ended_at (S (S x + length word + 1)) word line newline)) as ->.
  { unfold fuel at 1. cbn [token_text]. rewrite Hb. rewrite bool_decide_false by done. cbn [is_blank bool_decide].
    change (is_blank x22) with false. rewrite bool_decide_false, bool_decide_true by done. rewrite Hquoted.
    cbn [mbind outcome_bind]. destruct (length data) as [|n] eqn:Hl; [lia|]. cbn [token_text]. rewrite Hb2. by destruct newline. }
  unfold put, mret, M_ret. by rewrite from_utf8_lossy_id.
Qed.

Lemma newline_token x line rest : drop x data = x0a :: rest ->
  next_token (mkTokenizer data x line false) = Done (Newline, mkTokenizer data (S x) line false) /\ drop (S x) data = rest.
Proof.
  intros Hd. destruct (byte_at_here _ _ _ Hd) as [Hb Hd']. split; [|done].
  unfold next_token, mbind, M_bind, get, call. cbn [tk_next_newline tk_data tk_ptr tk_line]. unfold fuel. cbn [token_start]. by rewrite Hb.
Qed.

Lemma eof_token x line rest : drop x data = x00 :: rest ->
  next_token (mkTokenizer data x line false) = Done (Eof, mkTokenizer data x line false).
Proof.
  intros Hd. destruct (byte_at_here _ _ _ Hd) as [Hb Hd'].
  unfold next_token, mbind, M_bind, get, call. cbn [tk_next_newline tk_data tk_ptr tk_line]. unfold fuel. cbn [token_start]. by rewrite Hb.
Qed.
End words.

(** ** All the tokens *)

Inductive reads : Tokenizer -> list Token -> Tokenizer -> Prop :=
| reads_nil t : reads t [] t
| reads_cons t token t1 tokens t2 :
    next_token t = Done (token, t1) -> token <> Eof -> reads t1 tokens t2 -> reads t (token :: tokens) t2.

Lemma reads_app t ts t1 ts' t2 : reads t ts t1 -> reads t1 ts' t2 -> reads t (ts ++ ts') t2.
Proof. induction 1 as [|t token t1' ts t1 Hn He _ IH]; [done|]. intros Hr. eapply reads_cons; [done|done|by apply IH]. Qed.

Definition line_tokens (words : list str) : list Token := (Text <$> words) ++ [Newline].

Lemma line_reads data words x line rest : Forall word_ok words -> drop x data = quote_line words ++ rest ->
  exists y, reads (mkTokenizer data x line false) (line_tokens words) (mkTokenizer data y line false) /\ drop y data = rest.
Proof.
  intros Hok. revert x. induction Hok as [|word words Hw Hok IH]; intros x Hd.
  - destruct (newline_token data x line rest Hd) as [Hn Hr]. exists (S x). split; [|done]. by eapply reads_cons; [..|constructor].
  - destruct words as [|word' words].
    + cbn [quote_line] in Hd. rewrite <- app_assoc in Hd. destruct (word_token data word x line true rest Hw Hd) as (y & Hn & Hr).
      exists y. split; [|done]. eapply reads_cons; [done..|]. by eapply reads_cons; [done|done|constructor].
    + change (quote_line (word :: word' :: words)) with (quote word ++ [x20] ++ quote_line (word' :: words)) in Hd.
      rewrite <- !app_assoc in Hd. destruct (word_token data word x line false _ Hw Hd) as (y & Hn & Hr).
      destruct (IH y Hr) as (z & Hz & Hrz). exists z. split; [|done]. by eapply reads_cons.
Qed.

Lemma lines_read data lines x line rest : Forall (Forall word_ok) lines -> drop x data = script lines ++ rest ->
  exists y, reads (mkTokenizer data x line false) (mbind line_tokens lines) (mkTokenizer data y line false) /\ drop y data = rest.
Proof.
  intros Hok. revert x. induction Hok as [|words lines Hw Hok IH]; intros x Hd; [by exists x; split; [constructor|]|].
  unfold script in Hd. cbn [mbind list_bind] in Hd. rewrite <- app_assoc in Hd.
  destruct (line_reads data words x line _ Hw Hd) as (y & Hy & Hry). destruct (IH y Hry) as (z & Hz & Hrz).
  exists z. split; [|done]. cbn. by eapply reads_app.
Qed.

(** The tokens up to the end of the file. *)
Fixpoint tokens (n : nat) : M Tokenizer (list Token) :=
  match n with
  | O => spin
  | S n =>
      token ← next_token;
      match token with
      | Eof => mret []
      | _ => rest ← tokens n; mret (token :: rest)
      end
  end.

Definition tokenize (contents : list byte) : outcome (list Token) :=
  '(ts, _) ← tokens (2 * length contents + 5) (Tokenizer_new contents);
  Done ts.

Lemma tokens_end n t : tokenizer_ok t -> (tokens_left t < n)%nat -> exists ts t', tokens n t = Done (ts, t').
Proof.
  revert t. induction n as [|n IH]; intros t Hok Hn; [lia|]. cbn [tokens].
  destruct (next_token_ok t Hok) as (token & t1 & Ht & _ & Hok1 & _ & Hleft). unfold mbind, M_bind. rewrite Ht.
  destruct token; [by eexists _, _| |]; (destruct (IH t1 Hok1) as (ts & t' & ->); [unfold lt in *; assert (tokens_left t1 < tokens_left t)%nat by (by apply Hleft); lia|]; by eexists _, _).
Qed.

Lemma tokens_reads t ts t1 n : reads t ts t1 -> (length ts <= n)%nat ->
  tokens n t = '(rest, t2) ← tokens (n - length ts) t1; Done (ts ++ rest, t2).
Proof.
  intros Hr. revert n. induction Hr as [t|t token t1 ts t2 Ht He _ IH]; intros n Hn.
  - rewrite Nat.sub_0_r. by destruct (tokens n t) as [[??]| |].
  - cbn in Hn. destruct n as [|n]; [lia|]. cbn [tokens length Nat.sub]. unfold mbind at 1, M_bind. rewrite Ht.
    destruct token; [done|..]; unfold mbind at 1, M_bind; rewrite IH by lia; by destruct (tokens _ t2) as [[??]| |].
Qed.

Lemma reads_left t ts t' : reads t ts t' -> tokenizer_ok t -> (length ts + tokens_left t' <= tokens_left t)%nat.
Proof.
  induction 1 as [|t token t1 ts t2 Ht He _ IH]; intros Hok; [done|].
  destruct (next_token_ok t Hok) as (token' & t1' & Ht' & _ & Hok1 & _ & Hleft). rewrite Ht in Ht'. injection Ht' as <- <-.
  specialize (Hleft He). specialize (IH Hok1). cbn -[Nat.mul]. lia.
Qed.

(** The tokenizer of scripts ends on all bytes; and for lines of words
    written in quotes, whatever other bytes the words hold, it gives the words of
    every line and the end of the line, then the newline that is added to every
    script. *)
Theorem scripts_tokenize :
  (forall contents, exists ts, tokenize contents = Done ts) /\
  (forall lines, Forall (Forall word_ok) lines -> tokenize (script lines) = Done (mbind line_tokens lines ++ [Newline])).
Proof.
  split.
  - intros contents. unfold tokenize. destruct (tokens_end (2 * length contents + 5) (Tokenizer_new contents)) as (ts & t' & ->).
    + unfold tokenizer_ok. cbn. lia.
    + unfold tokens_left. cbn [tk_data tk_ptr tk_next_newline Tokenizer_new]. rewrite length_app. cbn. lia.
    + by exists ts.
  - intros lines Hok. unfold tokenize, Tokenizer_new.
    destruct (lines_read (script lines ++ [x0a; x00]) lines 0 0 [x0a; x00] Hok eq_refl) as (y & Hr & Hd).
    destruct (newline_token _ _ 0 _ Hd) as [Hn Hd'].
    assert (reads (mkTokenizer (script lines ++ [x0a; x00]) 0 0 false) (mbind line_tokens lines ++ [Newline]) (mkTokenizer (script lines ++ [x0a; x00]) (S y) 0 false)) as Hall.
    { eapply reads_app; [exact Hr|]. by eapply reads_cons; [..|constructor]. }
    pose proof (reads_left _ _ _ Hall ltac:(unfold tokenizer_ok; cbn; lia)) as Hleft. unfold tokens_left in Hleft.
    cbn [tk_data tk_ptr tk_next_newline] in Hleft. rewrite (length_app (script lines)) in Hleft. cbn [length] in Hleft.
    rewrite (tokens_reads _ _ _ _ Hall) by lia. destruct (2 * length (script lines) + 5 - _)%nat as [|n] eqn:Hn'; [lia|].
    assert (tokens (S n) (mkTokenizer (script lines ++ [x0a; x00]) (S y) 0 false) = Done ([], mkTokenizer (script lines ++ [x0a; x00]) (S y) 0 false)) as ->.
    { cbn [tokens]. unfold mbind, M_bind. by rewrite (eof_token _ _ 0 _ Hd'). }
    cbn. by rewrite app_nil_r.
Qed.

Definition some_lines : list (list str) := [[lit "on"; lit "boot"]; []; [lit "write"; lit "/proc/a b"; lit "\n # x"]].

Lemma scripts_tokenize_witness :
  tokenize (script some_lines) =
    Done [Text (lit "on"); Text (lit "boot"); Newline; Newline; Text (lit "write"); Text (lit "/proc/a b"); Text (lit "\n # x"); Newline; Newline].
Proof.
  apply (proj2 scripts_tokenize some_lines). unfold some_lines, word_ok, no_nul.
  repeat (apply list.Forall_cons; split); try apply list.Forall_nil_2; (split_and!; apply (bool_decide_eq_true_1 _); vm_compute; reflexivity).
Defined.
