(* ===== verification/Expand.v ===== *)
(** Property expansion ([src/crates/aim-android-init/src/rc/expand.rs]) and the
    interface through which init reads properties ([PropertyLookup] of
    [src/crates/aim-android-init/src/lib.rs]). *)

From Stdlib Require Import ZArith Lia.
From Stdlib Require Import Strings.String Strings.Byte.
From stdpp Require Import base numbers list gmap.
From S2P Require Import Prelude Text Bytes Libbase.

Open Scope Z_scope.

(** ** Reading properties *)

Class PropertyLookup (P : Type) := property : P -> str -> outcome (option str).

Definition property_or `{PropertyLookup P} (properties : P) (name default_ : str) : outcome str :=
  value ← property properties name;
  Done (match value with
        | Some value => if bool_decide (value = []) then default_ else value
        | None => default_
        end).

(** A map of properties, and none. *)
Definition map_lookup : PropertyLookup (gmap str str) := fun m name => Done (m !! name).
#[export] Existing Instance map_lookup.
Definition NoProperties : Type := unit.
Definition no_lookup : PropertyLookup NoProperties := fun _ _ => Done None.
#[export] Existing Instance no_lookup.

(** ** Expansion *)

Definition ANDROID_API_P : Z := 28.
Definition ANDROID_API_Q : Z := 29.
Definition ANDROID_API_R : Z := 30.

(** The error texts. *)
Inductive ExpandError :=
| UnexpectedEnd (src : str)
| DeprecatedSyntax (after : str)
| ZeroLengthName (src : str)
| NoSuchProperty (name src : str).

(** [str::find] of a character and of a string. *)
Definition find_byte (c : byte) (s : str) : option nat := position (fun b => bool_decide (b = c)) s.

Fixpoint find_str (p s : str) : option nat :=
  if starts_with p s then Some 0%nat else
  match s with
  | [] => None
  | _ :: s => S <$> find_str p s
  end.

Section expand.
Context `{PropertyLookup P} (properties : P) (vendor_api_level : Z) (src : str).

(** The name, the default and what comes after, of what follows a [$]. *)
Definition prop_of_src (after : str) : result (str * str * str) ExpandError :=
  match strip_prefix (lit "{") after with
  | Some braced =>
      match find_byte x7d braced with
      | None => Err (UnexpectedEnd src)
      | Some end_ =>
          let prop_name := take end_ braced in
          let remaining := drop (S end_) braced in
          match find_str (lit ":-") prop_name with
          | Some def => Ok (take def prop_name, drop (def + 2) prop_name, remaining)
          | None => Ok (prop_name, [], remaining)
          end
      end
  | None => if ANDROID_API_R <=? vendor_api_level then Err (DeprecatedSyntax after) else Ok (after, [], [])
  end.

Fixpoint expand_loop (fuel : nat) (dst rest : str) : outcome (result str ExpandError) :=
  match fuel with
  | O => Spinning
  | S fuel =>
      match find_byte x24 rest with
      | None => Done (Ok (dst ++ rest))
      | Some dollar =>
          let dst := dst ++ take dollar rest in
          let after := drop (S dollar) rest in
          match strip_prefix (lit "$") after with
          | Some stripped => expand_loop fuel (dst ++ lit "$") stripped
          | None =>
              if bool_decide (after = []) then Done (Ok dst) else
              match prop_of_src after with
              | Err e => Done (Err e)
              | Ok (prop_name, default_value, remaining) =>
                  if bool_decide (prop_name = []) then Done (Err (ZeroLengthName src)) else
                  value ← property_or properties prop_name [];
                  if bool_decide (value = []) then
                    if bool_decide (default_value = []) then Done (Err (NoSuchProperty prop_name src))
                    else expand_loop fuel (dst ++ default_value) remaining
                  else expand_loop fuel (dst ++ value) remaining
              end
          end
      end
  end.

(** Every turn takes a [$]. *)
Definition expand_props : outcome (result str ExpandError) := expand_loop (S (length src)) [] src.
End expand.

(** ** Templates *)

(** The parts of a string to expand. *)
Inductive Piece := Literal (s : str) | Dollar | Prop_ (name : str) (default_ : option str).

Definition print_piece (p : Piece) : str :=
  match p with
  | Literal s => s
  | Dollar => lit "$$"
  | Prop_ name None => lit "${" ++ name ++ lit "}"
  | Prop_ name (Some default_) => lit "${" ++ name ++ lit ":-" ++ default_ ++ lit "}"
  end.
Definition print (t : list Piece) : str := mbind print_piece t.

Definition piece_ok (p : Piece) : Prop :=
  match p with
  | Literal s => x24 ∉ s
  | Dollar => True
  | Prop_ name default_ => name <> [] /\ (x7d ∉ name) /\ find_str (lit ":-") name = None /\ (x7d ∉ default [] default_)
  end.

Section eval.
Context `{PropertyLookup P} (properties : P) (src : str).

Definition eval_piece (p : Piece) : outcome (result str ExpandError) :=
  match p with
  | Literal s => Done (Ok s)
  | Dollar => Done (Ok (lit "$"))
  | Prop_ name default_ =>
      value ← property_or properties name [];
      Done (if bool_decide (value = []) then
              if bool_decide (default [] default_ = []) then Err (NoSuchProperty name src) else Ok (default [] default_)
            else Ok value)
  end.

(** The pieces in order, up to the first error. *)
Fixpoint eval (t : list Piece) : outcome (result str ExpandError) :=
  match t with
  | [] => Done (Ok [])
  | p :: t =>
      r ← eval_piece p;
      match r with
      | Err e => Done (Err e)
      | Ok s =>
          r ← eval t;
          Done (match r with Err e => Err e | Ok rest => Ok (s ++ rest) end)
      end
  end.
End eval.

Lemma find_byte_none c s : c ∉ s -> find_byte c s = None.
Proof.
  intros Hc. unfold find_byte, position. assert (list_find (fun b => bool_decide (b = c) = true) s = None) as ->; [|done].
  apply list_find_None, list.Forall_forall. intros b Hb ->%bool_decide_eq_true_1. done.
Qed.

Lemma find_byte_lt c s n : find_byte c s = Some n -> (n < length s)%nat.
Proof. apply position_lt. Qed.

Lemma strip_prefix_length p s rest : strip_prefix p s = Some rest -> length s = (length p + length rest)%nat.
Proof.
  unfold strip_prefix. destruct (starts_with p s) eqn:Hs; [|done]. intros [= <-]. apply bool_decide_eq_true_1 in Hs.
  apply (f_equal length) in Hs. rewrite length_take in Hs. rewrite length_drop. lia.
Qed.

Lemma find_byte_app c s rest : c ∉ s -> find_byte c (s ++ c :: rest) = Some (length s).
Proof.
  intros Hc. unfold find_byte, position. rewrite (proj2 (list_find_Some _ _ (length s) c)); [done|]. split_and!.
  - by rewrite list_lookup_middle.
  - by apply bool_decide_eq_true_2.
  - intros j y Hj Hlt. rewrite lookup_app_l in Hj by done. intros ->%bool_decide_eq_true_1. by apply Hc; eapply list_elem_of_lookup_2.
Qed.

Lemma starts_with_self p s : starts_with p (p ++ s) = true.
Proof. apply bool_decide_eq_true_2. by rewrite take_app_length. Qed.

Lemma strip_prefix_app p s : strip_prefix p (p ++ s) = Some s.
Proof. unfold strip_prefix. by rewrite starts_with_self, drop_app_length. Qed.

Lemma find_default name default_ :
  find_str (lit ":-") name = None -> find_str (lit ":-") (name ++ lit ":-" ++ default_) = Some (length name).
Proof.
  induction name as [|b name IH]; intros Hn; [done|]. cbn [find_str app length] in *.
  destruct (starts_with (lit ":-") (b :: name)) eqn:Hs; [done|]. destruct (find_str _ name) eqn:Hf; [done|].
  destruct (starts_with (lit ":-") (b :: name ++ lit ":-" ++ default_)) eqn:Hs'.
  - exfalso. apply bool_decide_eq_true_1 in Hs'. apply bool_decide_eq_false_1 in Hs. destruct name as [|b' name]; [done|]. apply Hs. exact Hs'.
  - rewrite IH by done. done.
Qed.

Section template.
Context `{PropertyLookup P} (properties : P) (vendor_api_level : Z) (src : str).
Abbreviation loop := (expand_loop properties vendor_api_level src).

(** A string before the next [$]. *)
Lemma expand_literal fuel dst s rest : x24 ∉ s -> loop fuel dst (s ++ rest) = loop fuel (dst ++ s) rest.
Proof.
  intros Hs. destruct fuel as [|fuel]; [done|]. cbn [expand_loop]. 
  assert (find_byte x24 (s ++ rest) = (fun n => n + length s)%nat <$> find_byte x24 rest) as ->.
  { unfold find_byte, position. rewrite list_find_app_r; [|apply list_find_None, list.Forall_forall; intros b Hb ->%bool_decide_eq_true_1; done].
    by destruct (list_find _ rest) as [[]|]. }
  destruct (find_byte x24 rest) as [n|]; cbn [fmap option_fmap option_map]; [|by rewrite <- app_assoc].
  rewrite take_app_ge, drop_app_ge by lia. replace (S (n + length s) - length s)%nat with (S n) by lia.
  replace (n + length s - length s)%nat with n by lia. by rewrite (app_assoc dst s).
Qed.

Lemma prop_of_piece name default_ rest : piece_ok (Prop_ name default_) ->
  prop_of_src vendor_api_level src (drop 1 (print_piece (Prop_ name default_)) ++ rest) = Ok (name, default [] default_, rest).
Proof.
  intros (Hne & Hb & Hf & Hd). unfold prop_of_src. destruct default_ as [d|]; cbn [default] in Hd; cbn [print_piece].
  - change (drop 1 (lit "${" ++ name ++ lit ":-" ++ d ++ lit "}") ++ rest) with (lit "{" ++ ((name ++ lit ":-" ++ d ++ lit "}") ++ rest)).
    rewrite strip_prefix_app. replace ((name ++ lit ":-" ++ d ++ lit "}") ++ rest) with ((name ++ lit ":-" ++ d) ++ x7d :: rest)
      by (rewrite <- !app_assoc; done).
    rewrite find_byte_app, take_app_length by (rewrite !not_elem_of_app; split_and!; [done|by apply (bool_decide_eq_true_1 _)|done]).
    rewrite drop_app_ge, Nat.sub_succ_l, Nat.sub_diag by lia. rewrite find_default by done. rewrite take_app_length.
    rewrite drop_app_ge by lia. replace (length name + 2 - length name)%nat with 2%nat by lia. done.
  - change (drop 1 (lit "${" ++ name ++ lit "}") ++ rest) with (lit "{" ++ ((name ++ lit "}") ++ rest)).
    rewrite strip_prefix_app. rewrite <- app_assoc. change (lit "}" ++ rest) with (x7d :: rest). rewrite find_byte_app, take_app_length by done.
    rewrite drop_app_ge, Nat.sub_succ_l, Nat.sub_diag by lia. by rewrite Hf.
Qed.

(** The turns a template takes. *)
Fixpoint turns (t : list Piece) : nat :=
  match t with [] => 0 | Literal _ :: t => turns t | _ :: t => S (turns t) end.

Lemma turns_print t : (turns t <= length (print t))%nat.
Proof.
  unfold print. induction t as [|p t IH]; [done|]. cbn [mbind list_bind]. rewrite length_app.
  destruct p as [s| |name [d|]]; cbn [turns print_piece]; rewrite ?length_app; cbn [length lit list_byte_of_string]; try lia; cbn; lia.
Qed.

Lemma expand_pieces t fuel dst : Forall piece_ok t -> (turns t < fuel)%nat ->
  loop fuel dst (print t) =
    r ← eval properties src t;
    Done (match r with Err e => Err e | Ok s => Ok (dst ++ s) end).
Proof.
  intros Ht. revert fuel dst. induction Ht as [|p t Hp Ht IH]; intros fuel dst Hfuel.
  { destruct fuel; [cbn in Hfuel; lia|]. cbn. by rewrite !app_nil_r. }
  unfold print. cbn [mbind list_bind]. fold (print t).
  assert (forall fuel s, (turns t < fuel)%nat -> loop fuel (dst ++ s) (print t) =
    r ← (r ← eval properties src t; Done (match r with Err e => Err e | Ok rest => Ok (s ++ rest) end));
    Done (match r with Err e => Err e | Ok s => Ok (dst ++ s) end)) as Hnext.
  { intros n s Hn. rewrite IH by done. destruct (eval properties src t) as [[r|e]| |]; cbn; [by rewrite <- app_assoc|done..]. }
  destruct p as [s| |name default_]; cbn [print_piece eval eval_piece turns] in *.
  - rewrite expand_literal by done. apply Hnext. lia.
  - destruct fuel as [|fuel]; [lia|]. cbn [expand_loop]. change (find_byte x24 (lit "$$" ++ print t)) with (Some 0%nat).
    cbv iota. change (drop 1 (lit "$$" ++ print t)) with (lit "$" ++ print t). rewrite strip_prefix_app.
    change (take 0 (lit "$$" ++ print t)) with (@nil byte). rewrite app_nil_r. apply Hnext. lia.
  - destruct fuel as [|fuel]; [lia|]. cbn [expand_loop].
    assert (exists tail, print_piece (Prop_ name default_) = x24 :: x7b :: tail) as [tail Htail] by (destruct default_; by eexists).
    pose proof (prop_of_piece name default_ (print t) Hp) as Hsrc. cbn [print_piece] in Htail, Hsrc. rewrite Htail in *.
    change (find_byte x24 ((x24 :: x7b :: tail) ++ print t)) with (Some 0%nat). cbv iota.
    change (drop 1 (x24 :: x7b :: tail) ++ print t) with (x7b :: tail ++ print t) in Hsrc.
    change (drop 1 ((x24 :: x7b :: tail) ++ print t)) with (x7b :: tail ++ print t).
    change (strip_prefix (lit "$") (x7b :: tail ++ print t)) with (@None str).
    rewrite (bool_decide_false (_ :: _ = [])) by done. rewrite Hsrc. destruct Hp as (Hne & _). rewrite (bool_decide_false (name = [])) by done.
    change (take 0 ((x24 :: x7b :: tail) ++ print t)) with (@nil byte). rewrite app_nil_r.
    destruct (property_or properties name []) as [value| |]; cbn [mbind outcome_bind]; [|done..].
    destruct (bool_decide (value = [])); [destruct (bool_decide (default [] default_ = [])); [done|]|]; apply Hnext; lia.
Qed.

Lemma prop_of_src_shorter after name default_ remaining :
  prop_of_src vendor_api_level src after = Ok (name, default_, remaining) -> (length remaining <= length after)%nat.
Proof.
  unfold prop_of_src. destruct (strip_prefix (lit "{") after) as [braced|] eqn:Hs; [|case_match; [done|]; intros [= _ _ <-]; cbn; lia].
  apply strip_prefix_length in Hs. destruct (find_byte x7d braced) as [e|]; [|done].
  destruct (find_str _ _); intros [= _ _ <-]; rewrite length_drop; lia.
Qed.

Lemma expand_ends fuel dst rest :
  (forall name, exists value, property properties name = Done value) -> (length rest < fuel)%nat -> exists r, loop fuel dst rest = Done r.
Proof.
  intros Hp. revert dst rest. induction fuel as [|fuel IH]; intros dst rest Hfuel; [lia|]. cbn [expand_loop].
  destruct (find_byte x24 rest) as [n|] eqn:Hn; [|eauto]. apply find_byte_lt in Hn.
  destruct (strip_prefix (lit "$") _) as [stripped|] eqn:Hs.
  { apply strip_prefix_length in Hs. rewrite length_drop in Hs. apply IH. cbn in Hs. lia. }
  case_bool_decide; [eauto|]. destruct (prop_of_src _ _ _) as [[[name default_] remaining]|e] eqn:Hsrc; [|eauto].
  apply prop_of_src_shorter in Hsrc. rewrite length_drop in Hsrc. case_bool_decide; [eauto|].
  unfold property_or. destruct (Hp name) as [value ->]. cbn [mbind outcome_bind].
  case_bool_decide; [case_bool_decide; [eauto|]|]; apply IH; lia.
Qed.
End template.

(** C22: Expanding a string of literal parts, of [$$] and of properties with or
    without a default gives the parts in order: the value of a property, or its
    default where it is unset or empty; and the first property that has neither
    is the error.  It ends without a panic when the lookups do, and on every
    other string as well. *)
Theorem expand_template `{PropertyLookup P} (properties : P) vendor_api_level :
  (forall t, Forall piece_ok t -> expand_props properties vendor_api_level (print t) = eval properties (print t) t) /\
  ((forall name, exists value, property properties name = Done value) ->
   forall src, exists r, expand_props properties vendor_api_level src = Done r).
Proof.
  split.
  - intros t Ht. unfold expand_props. pose proof (turns_print t). rewrite expand_pieces by (done || lia).
    by destruct (eval properties (print t) t) as [[]| |].
  - intros Hp src. by apply expand_ends; [|lia].
Qed.

Definition some_props : gmap str str := {[ lit "ro.hardware" := lit "ranchu"; lit "ro.empty" := [] ]}.
Definition some_template : list Piece :=
  [Literal (lit "/init."); Prop_ (lit "ro.hardware") None; Dollar; Prop_ (lit "ro.empty") (Some (lit "x:-y"))].

Lemma expand_template_witness :
  expand_props some_props 36 (lit "/init.${ro.hardware}$$${ro.empty:-x:-y}") = Done (Ok (lit "/init.ranchu$x:-y")).
Proof.
  change (lit "/init.${ro.hardware}$$${ro.empty:-x:-y}") with (print some_template).
  rewrite (proj1 (expand_template some_props 36) some_template).
  - vm_compute. reflexivity.
  - unfold some_template, piece_ok.
    repeat (apply list.Forall_cons; split); try apply list.Forall_nil_2; (done || (split_and!; apply (bool_decide_eq_true_1 _); vm_compute; reflexivity) || (apply (bool_decide_eq_true_1 _); vm_compute; reflexivity)).
Defined.
