(* ===== verification/Builtins.v ===== *)
(** The commands of init's scripts: their keywords and arity
    ([src/crates/aim-android-init/src/rc/keywords.rs], [rc/builtins.rs]), and the
    typed command that the arguments give when it runs ([engine/command.rs], with
    [parse_rlimit] of [rc/service.rs]). *)

From Stdlib Require Import ZArith Lia.
From Stdlib Require Import Strings.String Strings.Byte.
From stdpp Require Import base numbers list.
From S2P Require Import Prelude Text Bytes Libbase.

Open Scope Z_scope.

(** ** Keywords *)

Definition UNBOUNDED : Z := max_u 64.

(** The error texts. *)
Inductive KeywordError :=
| KeywordNeeded
| InvalidKeyword (keyword : str)
| RequiresExactly (keyword : str) (min_args : Z)
| RequiresAtLeast (keyword : str) (min_args : Z)
| RequiresBetween (keyword : str) (min_args max_args : Z).

Definition find_keyword {T} (table : list (str * Z * Z * T)) (args : list str) : result T KeywordError :=
  match args with
  | [] => Err KeywordNeeded
  | keyword :: _ =>
      let num_args := zlen args - 1 in
      match List.find (fun row => bool_decide (row.1.1.1 = keyword)) table with
      | None => Err (InvalidKeyword keyword)
      | Some (_, min_args, max_args, value) =>
          if (min_args =? max_args) && negb (num_args =? min_args) then Err (RequiresExactly keyword min_args)
          else if (num_args <? min_args) || (max_args <? num_args) then
            if max_args =? UNBOUNDED then Err (RequiresAtLeast keyword min_args)
            else Err (RequiresBetween keyword min_args max_args)
          else Ok value
      end
  end.

(** ** Builtins *)

Inductive Builtin :=
  | BBootchart | BChmod | BChown | BClassReset | BClassRestart | BClassStart | BClassStop | BCopy
  | BCopyPerLine | BDomainname | BEnable | BExec | BExecBackground | BExecStart | BExport | BHostname | BIfup
  | BInitUser0 | BInsmod | BInstallkey | BInterfaceRestart | BInterfaceStart | BInterfaceStop | BLoadExports
  | BLoadPersistProps | BLoadSystemProps | BLoglevel | BMarkPostData | BMkdir | BMountAll | BMount
  | BPerformApexConfig | BUmount | BUmountAll | BUpdateLinkerConfig | BReadahead | BRestart | BRestorecon
  | BRestoreconRecursive | BRm | BRmdir | BSetprop | BSetrlimit | BStart | BStop | BSwaponAll | BSwapoff
  | BEnterDefaultMountNs | BSymlink | BSysclktz | BTrigger | BVerityUpdateState | BWait | BWaitForProp
  | BWrite.

#[export] Instance builtin_eq_dec : EqDecision Builtin.
Proof. solve_decision. Defined.

Definition BUILTIN_TABLE : list (str * Z * Z * (Builtin * bool)) := [
  (lit "bootchart", 1, 1, (BBootchart, false));
  (lit "chmod", 2, 2, (BChmod, true));
  (lit "chown", 2, 3, (BChown, true));
  (lit "class_reset", 1, 1, (BClassReset, false));
  (lit "class_restart", 1, 2, (BClassRestart, false));
  (lit "class_start", 1, 1, (BClassStart, false));
  (lit "class_stop", 1, 1, (BClassStop, false));
  (lit "copy", 2, 2, (BCopy, true));
  (lit "copy_per_line", 2, 2, (BCopyPerLine, true));
  (lit "domainname", 1, 1, (BDomainname, true));
  (lit "enable", 1, 1, (BEnable, false));
  (lit "exec", 1, UNBOUNDED, (BExec, false));
  (lit "exec_background", 1, UNBOUNDED, (BExecBackground, false));
  (lit "exec_start", 1, 1, (BExecStart, false));
  (lit "export", 2, 2, (BExport, false));
  (lit "hostname", 1, 1, (BHostname, true));
  (lit "ifup", 1, 1, (BIfup, true));
  (lit "init_user0", 0, 0, (BInitUser0, false));
  (lit "insmod", 1, UNBOUNDED, (BInsmod, true));
  (lit "installkey", 1, 1, (BInstallkey, false));
  (lit "interface_restart", 1, 1, (BInterfaceRestart, false));
  (lit "interface_start", 1, 1, (BInterfaceStart, false));
  (lit "interface_stop", 1, 1, (BInterfaceStop, false));
  (lit "load_exports", 1, 1, (BLoadExports, false));
  (lit "load_persist_props", 0, 0, (BLoadPersistProps, false));
  (lit "load_system_props", 0, 0, (BLoadSystemProps, false));
  (lit "loglevel", 1, 1, (BLoglevel, false));
  (lit "mark_post_data", 0, 0, (BMarkPostData, false));
  (lit "mkdir", 1, 6, (BMkdir, true));
  (lit "mount_all", 0, UNBOUNDED, (BMountAll, false));
  (lit "mount", 3, UNBOUNDED, (BMount, false));
  (lit "perform_apex_config", 0, 1, (BPerformApexConfig, false));
  (lit "umount", 1, 1, (BUmount, false));
  (lit "umount_all", 0, 1, (BUmountAll, false));
  (lit "update_linker_config", 0, 0, (BUpdateLinkerConfig, false));
  (lit "readahead", 1, 2, (BReadahead, true));
  (lit "restart", 1, 2, (BRestart, false));
  (lit "restorecon", 1, UNBOUNDED, (BRestorecon, true));
  (lit "restorecon_recursive", 1, UNBOUNDED, (BRestoreconRecursive, true));
  (lit "rm", 1, 1, (BRm, true));
  (lit "rmdir", 1, 1, (BRmdir, true));
  (lit "setprop", 2, 2, (BSetprop, true));
  (lit "setrlimit", 3, 3, (BSetrlimit, false));
  (lit "start", 1, 1, (BStart, false));
  (lit "stop", 1, 1, (BStop, false));
  (lit "swapon_all", 0, 1, (BSwaponAll, false));
  (lit "swapoff", 1, 1, (BSwapoff, false));
  (lit "enter_default_mount_ns", 0, 0, (BEnterDefaultMountNs, false));
  (lit "symlink", 2, 2, (BSymlink, true));
  (lit "sysclktz", 1, 1, (BSysclktz, false));
  (lit "trigger", 1, 1, (BTrigger, false));
  (lit "verity_update_state", 0, 0, (BVerityUpdateState, false));
  (lit "wait", 1, 2, (BWait, true));
  (lit "wait_for_prop", 2, 2, (BWaitForProp, false));
  (lit "write", 2, 2, (BWrite, true))].

Definition Builtin_keyword (builtin : Builtin) : outcome str :=
  unwrap ((fun row => row.1.1.1) <$> List.find (fun row => bool_decide (row.2.1 = builtin)) BUILTIN_TABLE).
Definition runs_in_subcontext (builtin : Builtin) : bool :=
  default false ((fun row => row.2.2) <$> List.find (fun row => bool_decide (row.2.1 = builtin)) BUILTIN_TABLE).

Record CommandSpec := mkCommandSpec { cs_builtin : Builtin; cs_args : list str; cs_line : Z }.

Definition CommandSpec_parse (args : list str) (line : Z) : result CommandSpec KeywordError :=
  match find_keyword BUILTIN_TABLE args with
  | Ok (builtin, _) => Ok (mkCommandSpec builtin args line)
  | Err e => Err e
  end.

Fixpoint join (separator : str) (pieces : list str) : str :=
  match pieces with
  | [] => []
  | [piece] => piece
  | piece :: pieces => piece ++ separator ++ join separator pieces
  end.

Definition command_string (spec : CommandSpec) : str := join (lit " ") (cs_args spec).

(** ** Arguments *)

(** Indexing panics out of range, and so does a slice. *)
Definition arg (args : list str) (i : nat) : outcome str := unwrap (args !! i).
Definition args_from (args : list str) (i : nat) : outcome (list str) :=
  if (i <=? length args)%nat then Done (drop i args) else Panicked.

Inductive CommandError :=
| UnexpectedArgument (arg : str)
| UnknownRestartArgument (arg : str)
| TooManyGroups
| NoCommand
| MissingModule
| OverMaximumResource (arg : str)
| BelowMinimumResource (arg : str)
| BadResource (arg : str)
| BadLimit (soft : bool) (arg : str).

(** *** Resource limits *)

Record Rlimit := mkRlimit { rl_resource : Z; rl_soft : Z; rl_hard : Z }.

Definition RLIMIT_NAMES : list (str * Z) := [
  (lit "cpu", 0); (lit "fsize", 1); (lit "data", 2); (lit "stack", 3); (lit "core", 4); (lit "rss", 5);
  (lit "nproc", 6); (lit "nofile", 7); (lit "memlock", 8); (lit "as", 9); (lit "locks", 10); (lit "sigpending", 11);
  (lit "msgqueue", 12); (lit "nice", 13); (lit "rtprio", 14); (lit "rttime", 15)].
Definition RLIM_NLIMITS : Z := 16.

(** [eq_ignore_ascii_case]. *)
Definition to_ascii_lowercase (b : byte) : byte :=
  if (0x41 <=? byte_to_Z b) && (byte_to_Z b <=? 0x5a) then byte_of_Z (byte_to_Z b + 32) else b.
Definition eq_ignore_ascii_case (a b : str) : bool := bool_decide (to_ascii_lowercase <$> a = to_ascii_lowercase <$> b).

Definition I32_MIN : Z := - 2 ^ 31.
Definition I32_MAX : Z := 2 ^ 31 - 1.

Definition limit (soft : bool) (text : str) : result Z CommandError :=
  if bool_decide (text = lit "-1") || bool_decide (text = lit "unlimited") then Ok (max_u 64) else
  match parse_uint text (max_u 64) with Some v => Ok v | None => Err (BadLimit soft text) end.

Definition resource (text : str) : result Z CommandError :=
  match parse_int text I32_MIN I32_MAX with
  | Some number =>
      if RLIM_NLIMITS <=? number then Err (OverMaximumResource text)
      else if number <? 0 then Err (BelowMinimumResource text) else Ok number
  | None =>
      let name := match strip_prefix (lit "RLIM_") text with
                  | Some name => name
                  | None => default text (strip_prefix (lit "RLIMIT_") text)
                  end in
      match List.find (fun row => eq_ignore_ascii_case row.1 name) RLIMIT_NAMES with
      | Some (_, resource) => Ok resource
      | None => Err (BadResource text)
      end
  end.

Definition parse_rlimit (args : list str) : outcome (result Rlimit CommandError) :=
  text ← arg args 1;
  match resource text with
  | Err e => Done (Err e)
  | Ok resource =>
      soft ← arg args 2;
      match limit true soft with
      | Err e => Done (Err e)
      | Ok soft =>
          hard ← arg args 3;
          Done (match limit false hard with Err e => Err e | Ok hard => Ok (mkRlimit resource soft hard) end)
      end
  end.

(** *** [exec] *)

Record ExecSpec := mkExecSpec {
  ex_seclabel : option str;
  ex_user : option str;
  ex_group : option str;
  ex_supplementary_groups : list str;
  ex_args : list str;
}.

Definition ExecSpec_parse (args : list str) : outcome (result ExecSpec CommandError) :=
  let command_arg := match position (fun a => bool_decide (a = lit "--")) (drop 1 args) with
                     | Some index => (index + 2)%nat
                     | None => 1%nat
                     end in
  if (4 + 32 <? command_arg)%nat then Done (Err TooManyGroups) else
  if (length args <=? command_arg)%nat then Done (Err NoCommand) else
  seclabel ← (if (2 <? command_arg)%nat then
                label ← arg args 1;
                Done (if bool_decide (label = lit "-") then None else Some label)
              else Done None);
  user ← (if (3 <? command_arg)%nat then user ← arg args 2; Done (Some user) else Done None);
  '(group, groups) ← (if (4 <? command_arg)%nat then
                        group ← arg args 3;
                        groups ← args_from (take (command_arg - 1) args) 4;
                        Done (Some group, groups)
                      else Done (None, []));
  rest ← args_from args command_arg;
  Done (Ok (mkExecSpec seclabel user group groups rest)).

(** ** Commands *)

Inductive InitAction :=
| SetupCgroups | SetKptrRestrict | TestPerfEventSelinux | ConnectEarlyStageSnapuserd | WaitForColdbootDone
| CheckTradeInModeStatus | SetMmapRndBits | KeychordInit | QueuePropertyTriggers | EnablePropertyTrigger.

Definition InitAction_name (action : InitAction) : str :=
  match action with
  | SetupCgroups => lit "SetupCgroups"
  | SetKptrRestrict => lit "SetKptrRestrict"
  | TestPerfEventSelinux => lit "TestPerfEventSelinux"
  | ConnectEarlyStageSnapuserd => lit "ConnectEarlyStageSnapuserd"
  | WaitForColdbootDone => lit "wait_for_coldboot_done"
  | CheckTradeInModeStatus => lit "CheckTradeInModeStatus"
  | SetMmapRndBits => lit "SetMmapRndBits"
  | KeychordInit => lit "KeychordInit"
  | QueuePropertyTriggers => lit "queue_property_triggers"
  | EnablePropertyTrigger => lit "enable_property_trigger"
  end.

Module Cmd.

Inductive Command :=
| Bootchart (action : str)
| Chmod (mode : str) (path : str)
| Chown (owner : str) (group : option str) (path : str)
| ClassReset (class_ : str)
| ClassRestart (class_ : str) (only_enabled : bool)
| ClassStart (class_ : str)
| ClassStop (class_ : str)
| Copy (source : str) (target : str)
| CopyPerLine (source : str) (target : str)
| Domainname (name : str)
| Enable (service : str)
| Exec (x : ExecSpec)
| ExecBackground (x : ExecSpec)
| ExecStart (service : str)
| Export (name : str) (value : str)
| Hostname (name : str)
| Ifup (interface : str)
| InitUser0
| Insmod (force : bool) (path : str) (options : str)
| Installkey (dir : str)
| InterfaceRestart (interface : str)
| InterfaceStart (interface : str)
| InterfaceStop (interface : str)
| LoadExports (path : str)
| LoadPersistProps
| LoadSystemProps
| Loglevel (level : str)
| MarkPostData
| Mkdir (path : str) (mode : option str) (owner : option str) (group : option str) (options : list str)
| MountAll (args_ : list str)
| Mount (fs_type : str) (device : str) (target : str) (options : list str)
| PerformApexConfig (bootstrap : bool)
| Umount (path : str)
| UmountAll (fstab : option str)
| UpdateLinkerConfig
| Readahead (path : str) (fully : bool)
| Restart (service : str) (only_if_running : bool)
| Restorecon (args_ : list str)
| RestoreconRecursive (args_ : list str)
| Rm (path : str)
| Rmdir (path : str)
| Setprop (name : str) (value : str)
| Setrlimit (x : Rlimit)
| Start (service : str)
| Stop (service : str)
| SwaponAll (fstab : option str)
| Swapoff (path : str)
| EnterDefaultMountNs
| Symlink (target : str) (link : str)
| Sysclktz (minutes_west : str)
| Trigger (event : str)
| VerityUpdateState
| Wait (path : str) (timeout : option str)
| WaitForProp (name : str) (value : str)
| Write (path : str) (content : str)
| Init (x : InitAction).

Definition ok (command : Command) : outcome (result Command CommandError) := Done (Ok command).

Definition from_args (builtin : Builtin) (args : list str) : outcome (result Command CommandError) :=
  let a (i : nat) : outcome str := arg args i in
  let opt (i : nat) : option str := args !! i in
  let one (f : str -> Command) : outcome (result Command CommandError) := x ← a 1%nat; ok (f x) in
  let two (f : str -> str -> Command) : outcome (result Command CommandError) := x ← a 1%nat; y ← a 2%nat; ok (f x y) in
  match builtin with
  | BBootchart => one Bootchart
  | BChmod => two Chmod
  | BChown =>
      if (length args =? 3)%nat then two (fun owner path => Chown owner None path)
      else owner ← a 1%nat; group ← a 2%nat; path ← a 3%nat; ok (Chown owner (Some group) path)
  | BClassReset => one ClassReset
  | BClassRestart =>
      if (length args =? 3)%nat then
        flag ← a 1%nat;
        if negb (bool_decide (flag = lit "--only-enabled")) then Done (Err (UnexpectedArgument flag))
        else class ← a 2%nat; ok (ClassRestart class true)
      else one (fun class => ClassRestart class false)
  | BClassStart => one ClassStart
  | BClassStop => one ClassStop
  | BCopy => two Copy
  | BCopyPerLine => two CopyPerLine
  | BDomainname => one Domainname
  | BEnable => one Enable
  | BExec => r ← ExecSpec_parse args; Done (match r with Ok spec => Ok (Exec spec) | Err e => Err e end)
  | BExecBackground => r ← ExecSpec_parse args; Done (match r with Ok spec => Ok (ExecBackground spec) | Err e => Err e end)
  | BExecStart => one ExecStart
  | BExport => two Export
  | BHostname => one Hostname
  | BIfup => one Ifup
  | BInitUser0 => ok InitUser0
  | BInsmod =>
      flag ← a 1%nat;
      let force := bool_decide (flag = lit "-f") in
      let first := if force then 2%nat else 1%nat in
      match opt first with
      | None => Done (Err MissingModule)
      | Some path => options ← args_from args (S first); ok (Insmod force path (join (lit " ") options))
      end
  | BInstallkey => one Installkey
  | BInterfaceRestart => one InterfaceRestart
  | BInterfaceStart => one InterfaceStart
  | BInterfaceStop => one InterfaceStop
  | BLoadExports => one LoadExports
  | BLoadPersistProps => ok LoadPersistProps
  | BLoadSystemProps => ok LoadSystemProps
  | BLoglevel => one Loglevel
  | BMarkPostData => ok MarkPostData
  | BMkdir => path ← a 1%nat; ok (Mkdir path (opt 2%nat) (opt 3%nat) (opt 4%nat) (drop 5 args))
  | BMountAll => rest ← args_from args 1; ok (MountAll rest)
  | BMount =>
      fs_type ← a 1%nat; device ← a 2%nat; target ← a 3%nat; options ← args_from args 4;
      ok (Mount fs_type device target options)
  | BPerformApexConfig =>
      match opt 1%nat with
      | None => ok (PerformApexConfig false)
      | Some other => if bool_decide (other = lit "--bootstrap") then ok (PerformApexConfig true) else Done (Err (UnexpectedArgument other))
      end
  | BUmount => one Umount
  | BUmountAll => ok (UmountAll (opt 1%nat))
  | BUpdateLinkerConfig => ok UpdateLinkerConfig
  | BReadahead =>
      path ← a 1%nat;
      fully ← (if (length args =? 3)%nat then flag ← a 2%nat; Done (bool_decide (flag = lit "--fully")) else Done false);
      ok (Readahead path fully)
  | BRestart =>
      if (length args =? 3)%nat then
        flag ← a 1%nat;
        if negb (bool_decide (flag = lit "--only-if-running")) then Done (Err (UnknownRestartArgument flag))
        else service ← a 2%nat; ok (Restart service true)
      else one (fun service => Restart service false)
  | BRestorecon => rest ← args_from args 1; ok (Restorecon rest)
  | BRestoreconRecursive => rest ← args_from args 1; ok (RestoreconRecursive rest)
  | BRm => one Rm
  | BRmdir => one Rmdir
  | BSetprop => two Setprop
  | BSetrlimit => r ← parse_rlimit args; Done (match r with Ok limit => Ok (Setrlimit limit) | Err e => Err e end)
  | BStart => one Start
  | BStop => one Stop
  | BSwaponAll => ok (SwaponAll (opt 1%nat))
  | BSwapoff => one Swapoff
  | BEnterDefaultMountNs => ok EnterDefaultMountNs
  | BSymlink => two Symlink
  | BSysclktz => one Sysclktz
  | BTrigger => one Trigger
  | BVerityUpdateState => ok VerityUpdateState
  | BWait => path ← a 1%nat; ok (Wait path (opt 2%nat))
  | BWaitForProp => two WaitForProp
  | BWrite => two Write
  end.

End Cmd.

(** ** Arity

    What the table admits is enough for every argument that a builtin takes. *)

Definition row_admits {T} (row : str * Z * Z * T) (args : list str) : Prop :=
  row.1.1.2 <= zlen args - 1 <= row.1.2.

Lemma find_keyword_ok {T} (table : list (str * Z * Z * T)) args value :
  find_keyword table args = Ok value -> exists row, row ∈ table /\ row.2 = value /\ head args = Some row.1.1.1 /\ row_admits row args.
Proof.
  destruct args as [|keyword args]; [done|]. cbn [find_keyword]. set (n := zlen (keyword :: args) - 1).
  destruct (List.find _ table) as [[[[k min_args] max_args] v]|] eqn:Hf; [|done].
  apply find_some in Hf as [Hin Hk]. apply bool_decide_eq_true_1 in Hk. cbn in Hk. subst k.
  destruct ((min_args =? max_args) && negb (n =? min_args)) eqn:H1; [done|].
  destruct ((n <? min_args) || (max_args <? n)) eqn:H2; [by case_match|]. intros [= ->].
  exists (keyword, min_args, max_args, value). split; [by apply list_elem_of_In|]. split_and!; try done. unfold row_admits. cbn [fst snd]. fold n. lia.
Qed.

Lemma arg_ok args i : (i < length args)%nat -> exists x, arg args i = Done x.
Proof. intros Hi. unfold arg. destruct (lookup_lt_is_Some_2 _ _ Hi) as [x ->]. by exists x. Qed.

Lemma args_from_ok args i : (i <= length args)%nat -> args_from args i = Done (drop i args).
Proof. intros Hi. unfold args_from. by rewrite (proj2 (Nat.leb_le _ _)). Qed.

Lemma exec_parse_ok args : exists r, ExecSpec_parse args = Done r.
Proof.
  unfold ExecSpec_parse. set (command_arg := match position _ _ with Some _ => _ | None => _ end).
  destruct (Nat.ltb_spec (4 + 32) command_arg); [by eexists|]. destruct (Nat.leb_spec (length args) command_arg); [by eexists|].
  destruct (arg_ok args 1) as [x1 H1]; [assert (1 <= command_arg)%nat; [unfold command_arg; case_match; lia|lia]|].
  rewrite H1. destruct (Nat.ltb_spec 2 command_arg); cbn [mbind outcome_bind].
  all: destruct (Nat.ltb_spec 3 command_arg); [destruct (arg_ok args 2) as [x2 ->]; [lia|]|]; cbn [mbind outcome_bind];
    (destruct (Nat.ltb_spec 4 command_arg);
      [destruct (arg_ok args 3) as [x3 ->]; [lia|]; cbn [mbind outcome_bind]; rewrite (args_from_ok (take _ _)) by (rewrite length_take; lia)|]);
    cbn [mbind outcome_bind]; rewrite args_from_ok by lia; by eexists.
Qed.

Lemma parse_rlimit_ok args : (4 <= length args)%nat -> exists r, parse_rlimit args = Done r.
Proof.
  intros Hlen. unfold parse_rlimit.
  destruct (arg_ok args 1) as [x1 ->]; [lia|]. destruct (arg_ok args 2) as [x2 ->]; [lia|]. destruct (arg_ok args 3) as [x3 ->]; [lia|].
  cbn [mbind outcome_bind]. destruct (resource x1); [|by eexists]. destruct (limit true x2); by eexists.
Qed.

(** The builtin of a row runs on as many arguments as the row admits. *)
Lemma row_runs row args : row ∈ BUILTIN_TABLE -> row_admits row args -> exists r, Cmd.from_args row.2.1 args = Done r.
Proof.
  intros Hin. unfold row_admits, zlen. apply list_elem_of_In in Hin. revert Hin. unfold BUILTIN_TABLE.
  repeat (intros [<-|Hin]; [clear; cbn [fst snd]; unfold UNBOUNDED, max_u; intros Hn; shelve|revert Hin]). by intros [].
  Unshelve.
  all: cbn [Cmd.from_args]; try (by eexists).
  all: try (destruct (exec_parse_ok args) as [r ->]; by eexists).
  all: try (destruct (parse_rlimit_ok args ltac:(lia)) as [r ->]; by eexists).
  all: try (rewrite args_from_ok by lia; by eexists).
  all: try (destruct (Nat.eqb_spec (length args) 3)).
  all: try (case_match; [case_bool_decide|]; by eexists).
  all: destruct (arg_ok args 1 ltac:(lia)) as [x1 ->]; cbn [mbind outcome_bind]; try (by eexists).
  all: try (destruct (arg_ok args 2 ltac:(lia)) as [x2 ->]; cbn [mbind outcome_bind]; try (case_match; by eexists); try (by eexists)).
  all: try (destruct (arg_ok args 3 ltac:(lia)) as [x3 ->]; cbn [mbind outcome_bind]; rewrite ?args_from_ok by lia; by eexists).
  all: case_match eqn:Hpath; [|by eexists]; apply lookup_lt_Some in Hpath; rewrite args_from_ok by lia; by eexists.
Qed.

(** A command that was accepted when its line was parsed does not panic when it
    is built from as many arguments. *)
Lemma command_runs args line spec args' :
  CommandSpec_parse args line = Ok spec -> length args' = length args -> exists r, Cmd.from_args (cs_builtin spec) args' = Done r.
Proof.
  unfold CommandSpec_parse. destruct (find_keyword BUILTIN_TABLE args) as [[builtin subcontext]|] eqn:Hf; [|done]. intros [= <-] Hlen.
  apply find_keyword_ok in Hf as (row & Hin & Hrow & _ & Hadm). cbn. replace builtin with row.2.1 by (by rewrite Hrow).
  apply row_runs; [done|]. unfold row_admits, zlen in *. by rewrite Hlen.
Qed.
