(* ===== verification/Image.v ===== *)
(** The guest's files as init reads them
    ([src/crates/aim-android-init/src/image.rs]): links are followed inside the
    image.  The host's file system is a parameter. *)

From Stdlib Require Import ZArith Lia.
From Stdlib Require Import Strings.String Strings.Byte.
From stdpp Require Import base numbers list.
From S2P Require Import Prelude Text Bytes Libbase Info.

Open Scope Z_scope.

(** A path on the host: the components below the image's root. *)
Abbreviation HostPath := (list str).

Inductive FileKind := IsFile | IsDir | IsOther.

(** What is asked of the host: [read_link], [read], [exists], [is_dir],
    [is_file], and [read_dir] with the type of every entry. *)
Class HostFs := {
  IoError : Type;
  fs_read_link : HostPath -> option (list byte);
  fs_read : HostPath -> result (list byte) IoError;
  fs_exists : HostPath -> bool;
  fs_is_dir : HostPath -> bool;
  fs_is_file : HostPath -> bool;
  fs_read_dir : HostPath -> result (list (result (list byte * result FileKind IoError) IoError)) IoError;
}.

Definition MAX_SYMLINKS : nat := 40.

(** The nonempty pieces between slashes. *)
Definition components (path : str) : list str := List.filter (fun c => negb (bool_decide (c = []))) (split path x2f).

Module ImageRoot.
Section image.
Context `{HostFs}.

(** The loop of [host_path], by the links that may still be followed; the first
    of [pending] is the next component. *)
Fixpoint resolve (links_left : nat) : list str -> HostPath -> HostPath :=
  fix walk (pending : list str) (done_ : HostPath) {struct pending} : HostPath :=
    match pending with
    | [] => done_
    | component :: pending =>
        if bool_decide (component = lit ".") then walk pending done_
        else if bool_decide (component = lit "..") then walk pending (removelast done_)
        else
          let host := done_ ++ [component] in
          match fs_read_link host with
          | None => walk pending host
          | Some target =>
              match links_left with
              | O => host
              | S links_left =>
                  let target := from_utf8_lossy target in
                  resolve links_left (components target ++ pending) (if starts_with (lit "/") target then [] else done_)
              end
          end
    end.

Definition host_path (guest : str) : HostPath := resolve MAX_SYMLINKS (components guest) [].

Definition read (guest : str) : result (list byte) IoError := fs_read (host_path guest).
Definition exists_ (guest : str) : bool := fs_exists (host_path guest).
Definition is_dir (guest : str) : bool := fs_is_dir (host_path guest).

(** [trim_end_matches('/')]. *)
Definition trim_slashes (s : str) : str := rev (drop_while (fun b => bool_decide (b = x2f)) (rev s)).

(** The names of the entries of a kind, up to the first error. *)
Fixpoint entries_of (kind : FileKind -> bool) (entries : list (result (list byte * result FileKind IoError) IoError)) :
    result (list str) IoError :=
  match entries with
  | [] => Ok []
  | Err e :: _ => Err e
  | Ok (name, Err e) :: _ => Err e
  | Ok (name, Ok k) :: entries =>
      match entries_of kind entries with
      | Err e => Err e
      | Ok names => Ok (if kind k then from_utf8_lossy name :: names else names)
      end
  end.

Definition regular_files (guest_dir : str) : result (list str) IoError :=
  match fs_read_dir (host_path guest_dir) with
  | Err e => Err e
  | Ok entries =>
      match entries_of (fun k => match k with IsFile => true | _ => false end) entries with
      | Err e => Err e
      | Ok names => Ok ((fun name => trim_slashes guest_dir ++ lit "/" ++ name) <$> names)
      end
  end.

Definition subdirectories (guest_dir : str) : result (list str) IoError :=
  match fs_read_dir (host_path guest_dir) with
  | Err e => Err e
  | Ok entries => entries_of (fun k => match k with IsDir => true | _ => false end) entries
  end.
End image.
End ImageRoot.

(** ** Paths stay inside the image *)

(** A component that names an entry of the directory it is in. *)
Definition plain (c : str) : Prop := c <> [] /\ c <> lit "." /\ c <> lit ".." /\ x2f ∉ c.

Lemma split_without s d piece : piece ∈ split s d -> d ∉ piece.
Proof.
  revert piece. induction s as [|b s IH]; intros piece; cbn [split].
  - intros ->%list_elem_of_singleton. apply not_elem_of_nil.
  - case_decide as Hb.
    + intros [->|Hp]%elem_of_cons; [apply not_elem_of_nil|by apply IH].
    + destruct (split s d) as [|p ps] eqn:Hs; [by apply split_nonempty in Hs|]. intros [->|Hp]%elem_of_cons.
      * apply not_elem_of_cons. split; [congruence|]. apply IH. left.
      * apply IH. by right.
Qed.

Definition piece_of_path (c : str) : Prop := c <> [] /\ x2f ∉ c.

Lemma components_ok path : Forall piece_of_path (components path).
Proof.
  apply list.Forall_forall. intros c Hc. unfold components in Hc. apply list_elem_of_In, filter_In in Hc as [Hin Hne].
  split; [|apply list_elem_of_In in Hin; by eapply split_without]. intros ->. done.
Qed.

Section inside.
Context `{HostFs}.

(** The proper prefixes of a path are no links. *)
Definition parents_real (p : HostPath) : Prop := forall a c b, p = a ++ c :: b -> a <> [] -> fs_read_link a = None.
Definition is_real (p : HostPath) : Prop := parents_real p /\ (p <> [] -> fs_read_link p = None).

Lemma is_real_snoc p c : is_real p -> parents_real (p ++ [c]).
Proof.
  intros [Hp Hl] a d b Heq Hne. destruct b as [|x b] using rev_ind.
  - apply app_inj_tail in Heq as [-> _]. by apply Hl.
  - clear IHb. rewrite app_comm_cons, app_assoc in Heq. apply app_inj_tail in Heq as [Heq _]. by eapply Hp.
Qed.

Lemma is_real_init p : is_real p -> is_real (removelast p).
Proof.
  intros [Hp Hl]. destruct p as [|c p] using rev_ind; [done|]. clear IHp. rewrite removelast_last. split.
  - intros a d b -> Hne. by apply (Hp a d (b ++ [c])); [rewrite <- app_assoc|].
  - intros Hne. by apply (Hp p c []).
Qed.

Lemma resolve_inside links pending done_ :
  Forall piece_of_path pending -> Forall plain done_ -> is_real done_ ->
  Forall plain (ImageRoot.resolve links pending done_) /\ parents_real (ImageRoot.resolve links pending done_).
Proof.
  revert pending done_. induction links as [|links IHl]; intros pending.
  all: induction pending as [|c pending IH]; intros done_ Hp Hd Hr; [by split; [|apply Hr]|].
  all: apply list.Forall_cons in Hp as [[Hc Hs] Hp]; cbn [ImageRoot.resolve].
  all: case_bool_decide; [by apply IH|]; case_bool_decide; [apply IH; [done| |by apply is_real_init]|].
  1, 3: destruct done_ as [|x done_ _] using rev_ind; [done|]; rewrite removelast_last; by apply list.Forall_app in Hd as [? _].
  all: assert (Forall plain (done_ ++ [c])) as Hd' by (apply list.Forall_app; split; [done|]; by apply list.Forall_singleton).
  all: destruct (fs_read_link (done_ ++ [c])) as [target|] eqn:Hlink; [|apply IH; [done|done|split; [by apply is_real_snoc|done]]].
  - split; [done|by apply is_real_snoc].
  - apply IHl; [apply list.Forall_app; split; [apply components_ok|done]|by destruct (starts_with _ _)|].
    destruct (starts_with _ _); [|done]. split; [intros a c' b Heq; by destruct a|done].
Qed.

End inside.

(** An image with a chain of 41 links, the last of which names a file of the
    host: link [n] is named by [n] letters. *)
Definition chain_link (p : HostPath) : option (list byte) :=
  match p with
  | [name] =>
      if (length name =? 41)%nat then Some (lit "/etc/shadow")
      else if (length name <? 41)%nat then Some (name ++ lit "l") else None
  | _ => None
  end.
Definition chain_fs : HostFs := {|
  IoError := unit;
  fs_read_link := chain_link;
  fs_read := fun _ => Err tt;
  fs_exists := fun _ => false;
  fs_is_dir := fun _ => false;
  fs_is_file := fun _ => false;
  fs_read_dir := fun _ => Err tt;
|}.

