(* ===== verification/Ids.v ===== *)
(** User and group names as init resolves them
    ([src/crates/aim-android-init/src/rc/ids.rs]). *)

From Stdlib Require Import ZArith Lia.
From Stdlib Require Import Strings.String Strings.Byte.
From stdpp Require Import base numbers list.
From S2P Require Import Prelude Text Bytes Libbase Expand Image.

Open Scope Z_scope.

Definition ANDROID_IDS : list (str * Z) := [
  (lit "root", 0); (lit "daemon", 1); (lit "bin", 2); (lit "sys", 3); (lit "system", 1000); (lit "radio", 1001);
  (lit "bluetooth", 1002); (lit "graphics", 1003); (lit "input", 1004); (lit "audio", 1005); (lit "camera", 1006);
  (lit "log", 1007); (lit "compass", 1008); (lit "mount", 1009); (lit "wifi", 1010); (lit "adb", 1011);
  (lit "install", 1012); (lit "media", 1013); (lit "dhcp", 1014); (lit "sdcard_rw", 1015); (lit "vpn", 1016);
  (lit "keystore", 1017); (lit "usb", 1018); (lit "drm", 1019); (lit "mdnsr", 1020); (lit "gps", 1021);
  (lit "media_rw", 1023); (lit "mtp", 1024); (lit "drmrpc", 1026); (lit "nfc", 1027); (lit "sdcard_r", 1028);
  (lit "clat", 1029); (lit "loop_radio", 1030); (lit "mediadrm", 1031); (lit "package_info", 1032);
  (lit "sdcard_pics", 1033); (lit "sdcard_av", 1034); (lit "sdcard_all", 1035); (lit "logd", 1036);
  (lit "shared_relro", 1037); (lit "dbus", 1038); (lit "tlsdate", 1039); (lit "mediaex", 1040);
  (lit "audioserver", 1041); (lit "metrics_coll", 1042); (lit "metricsd", 1043); (lit "webserv", 1044);
  (lit "debuggerd", 1045); (lit "mediacodec", 1046); (lit "cameraserver", 1047); (lit "firewall", 1048);
  (lit "trunks", 1049); (lit "nvram", 1050); (lit "dns", 1051); (lit "dns_tether", 1052);
  (lit "webview_zygote", 1053); (lit "vehicle_network", 1054); (lit "media_audio", 1055); (lit "media_video", 1056);
  (lit "media_image", 1057); (lit "tombstoned", 1058); (lit "media_obb", 1059); (lit "ese", 1060);
  (lit "ota_update", 1061); (lit "automotive_evs", 1062); (lit "lowpan", 1063); (lit "hsm", 1064);
  (lit "reserved_disk", 1065); (lit "statsd", 1066); (lit "incidentd", 1067); (lit "secure_element", 1068);
  (lit "lmkd", 1069); (lit "llkd", 1070); (lit "iorapd", 1071); (lit "gpu_service", 1072);
  (lit "network_stack", 1073); (lit "gsid", 1074); (lit "fsverity_cert", 1075); (lit "credstore", 1076);
  (lit "external_storage", 1077); (lit "ext_data_rw", 1078); (lit "ext_obb_rw", 1079); (lit "context_hub", 1080);
  (lit "virtualizationservice", 1081); (lit "artd", 1082); (lit "uwb", 1083); (lit "thread_network", 1084);
  (lit "diced", 1085); (lit "dmesgd", 1086); (lit "jc_weaver", 1087); (lit "jc_strongbox", 1088);
  (lit "jc_identitycred", 1089); (lit "sdk_sandbox", 1090); (lit "security_log_writer", 1091);
  (lit "prng_seeder", 1092); (lit "uprobestats", 1093); (lit "cros_ec", 1094); (lit "mmd", 1095);
  (lit "update_engine_log", 1096); (lit "shell", 2000); (lit "cache", 2001); (lit "diag", 2002);
  (lit "net_bt_admin", 3001); (lit "net_bt", 3002); (lit "inet", 3003); (lit "net_raw", 3004);
  (lit "net_admin", 3005); (lit "net_bw_stats", 3006); (lit "net_bw_acct", 3007); (lit "readproc", 3009);
  (lit "wakelock", 3010); (lit "uhid", 3011); (lit "readtracefs", 3012); (lit "virtualmachine", 3013);
  (lit "everybody", 9997); (lit "misc", 9998); (lit "nobody", 9999); (lit "overflowuid", 65534)].

Definition AID_OEM_RESERVED_START : Z := 2900.
Definition AID_OEM_RESERVED_END : Z := 2999.
Definition AID_OEM_RESERVED_2_START : Z := 5000.
Definition AID_OEM_RESERVED_2_END : Z := 5999.
Definition AID_EVERYBODY : Z := 9997.
Definition AID_APP_START : Z := 10000.
Definition AID_CACHE_GID_START : Z := 20000.
Definition AID_EXT_GID_START : Z := 30000.
Definition AID_EXT_CACHE_GID_START : Z := 40000.
Definition AID_SHARED_GID_START : Z := 50000.
Definition AID_SHARED_GID_END : Z := 59999.
Definition AID_ISOLATED_START : Z := 90000.
Definition AID_USER_OFFSET : Z := 100000.

Definition SECONDARY_USER_PLATFORM_IDS : list Z := [1000; 1001; 1007; 1027; 1002; 2000; 1068; 1073].

Definition PASSWD_FILES : list (str * str) := [
  (lit "/system/etc/passwd", lit "system_");
  (lit "/vendor/etc/passwd", lit "vendor_");
  (lit "/odm/etc/passwd", lit "odm_");
  (lit "/product/etc/passwd", lit "product_");
  (lit "/system_ext/etc/passwd", lit "system_ext_")].
Definition GROUP_FILES : list (str * str) := [
  (lit "/system/etc/group", lit "system_");
  (lit "/vendor/etc/group", lit "vendor_");
  (lit "/odm/etc/group", lit "odm_");
  (lit "/product/etc/group", lit "product_");
  (lit "/system_ext/etc/group", lit "system_ext_")].

Record DatabaseEntry := mkDatabaseEntry { de_name : str; de_id : Z }.

Record IdResolver := mkIdResolver {
  ir_passwd : list DatabaseEntry;
  ir_group : list DatabaseEntry;
  ir_launched_before_api_29 : bool;
}.

Definition IdResolver_builtin : IdResolver := mkIdResolver [] [] false.

Definition builtin_id (name : str) : option Z :=
  snd <$> List.find (fun row => bool_decide (row.1 = name)) ANDROID_IDS.

(** ** Numbers *)

(** [str::parse] of an unsigned integer of [w] bits: digits, perhaps after a
    plus sign. *)
Fixpoint digits_value (w value : Z) (digits : str) : option Z :=
  match digits with
  | [] => Some value
  | b :: digits =>
      digit ← to_digit 10 b;
      scaled ← checked_mul w value 10;
      value ← checked_add w scaled digit;
      digits_value w value digits
  end.
Definition parse_unsigned (w : Z) (s : str) : option Z :=
  let digits := default s (strip_prefix (lit "+") s) in
  if bool_decide (digits = []) then None else digits_value w 0 digits.

Definition scan_unsigned (s : str) : option (Z * str) :=
  let end_ := length (take_while (is_digit 10) s) in
  if (end_ =? 0)%nat then None
  else Some (default (max_u 64) (parse_unsigned 64 (take end_ s)), drop end_ s).

(** [strtoul(name, 0, 0)]. *)
Definition is_strtoul_space (b : byte) : bool :=
  existsb (fun c => bool_decide (b = c)) [x20; x09; x0a; x0d; x0b; x0c].

Fixpoint strtoul_loop (radix value : Z) (digits : str) : option Z :=
  match digits with
  | [] => Some value
  | b :: digits =>
      match to_digit radix b with
      | None => Some value
      | Some digit =>
          scaled ← checked_mul 64 value radix;
          value ← checked_add 64 scaled digit;
          strtoul_loop radix value digits
      end
  end.

Definition strtoul (name : str) : option Z :=
  let s := drop_while is_strtoul_space name in
  let '(negative, s) := match s with
                        | x2d :: rest => (true, rest)
                        | x2b :: rest => (false, rest)
                        | _ => (false, s)
                        end in
  let '(radix, digits) :=
    if (starts_with (lit "0x") s || starts_with (lit "0X") s) &&
       match s !! 2%nat with Some b => is_digit 16 b | None => false end then (16, drop 2 s)
    else if starts_with (lit "0") s then (8, s)
    else (10, s) in
  value ← strtoul_loop radix 0 digits;
  Some (as_u 32 (if negative : bool then as_u 64 (- value) else value)).

(** ** The image's databases *)

(** [str::lines]: the lines without their ends. *)
Definition strip_cr (line : str) : str := if bool_decide (last line = Some x0d) then removelast line else line.
Definition lines (s : str) : list str :=
  let pieces := split s x0a in
  strip_cr <$> (if bool_decide (last pieces = Some []) then removelast pieces else pieces).

Definition database_entry (prefix line : str) : option DatabaseEntry :=
  let fields := split line x3a in
  let name := default [] (head fields) in
  if negb (starts_with prefix name) then None else
  field ← fields !! 2%nat;
  id ← parse_unsigned 32 field;
  Some (mkDatabaseEntry name id).

Definition read_database `{HostFs} (files : list (str * str)) : list DatabaseEntry :=
  '(path, prefix) ← files;
  match ImageRoot.read path with
  | Err _ => []
  | Ok bytes =>
      if negb (bool_decide (last bytes = Some x0a)) then []
      else omap (database_entry prefix) (lines (from_utf8_lossy bytes))
  end.

(** [str::parse] of an [i64]. *)
Definition parse_i64 (s : str) : option Z :=
  match s with
  | x2d :: (_ :: _) =>
      value ← digits_value 64 0 (tl s);
      if 2 ^ 63 <? value then None else Some (- value)
  | _ => value ← parse_unsigned 64 s; if 2 ^ 63 - 1 <? value then None else Some value
  end.

Definition from_image `{HostFs} `{PropertyLookup P} (properties : P) : outcome IdResolver :=
  level ← property_or properties (lit "ro.product.first_api_level") [];
  let first_api_level := default 0 (parse_i64 level) in
  Done (mkIdResolver (read_database PASSWD_FILES) (read_database GROUP_FILES)
          (negb (first_api_level =? 0) && (first_api_level <? 29))).

(** ** Names of applications *)

Section ids.
Context `{Env}.

(** The application's id and the rest of the name, of what follows the user. *)
Definition app_part (tail : str) (is_group is_shared_gid : bool) : outcome (option (Z * str)) :=
  match tail with
  | [] => Done None
  | first :: after =>
      let digit_next := match after with b :: _ => is_digit 10 b | [] => false end in
      if bool_decide (first = x61) && digit_next then
        match scan_unsigned after with
        | None => Done None
        | Some (number, rest) =>
            if is_shared_gid then
              appid ← uadd 64 number AID_SHARED_GID_START;
              Done (if AID_SHARED_GID_END <? appid then None else Some (appid, rest))
            else if is_group then
              if bool_decide (rest = lit "_ext_cache") then appid ← uadd 64 number AID_EXT_CACHE_GID_START; Done (Some (appid, []))
              else if bool_decide (rest = lit "_ext") then appid ← uadd 64 number AID_EXT_GID_START; Done (Some (appid, []))
              else if bool_decide (rest = lit "_cache") then appid ← uadd 64 number AID_CACHE_GID_START; Done (Some (appid, []))
              else appid ← uadd 64 number AID_APP_START; Done (Some (appid, rest))
            else appid ← uadd 64 number AID_APP_START; Done (Some (appid, rest))
        end
      else if bool_decide (first = x69) && digit_next then
        match scan_unsigned after with
        | None => Done None
        | Some (number, rest) => appid ← uadd 64 number AID_ISOLATED_START; Done (Some (appid, rest))
        end
      else
        match builtin_id tail with
        | None => Done None
        | Some id => Done (if existsb (Z.eqb id) SECONDARY_USER_PLATFORM_IDS then Some (id, []) else None)
        end
  end.

(** The user, whether the group is shared, and the rest of the name. *)
Definition user_part (name : str) (is_group : bool) : option (Z * bool * str) :=
  if is_group && starts_with (lit "all") name then Some (0, true, drop 3 name)
  else match name with
       | x75 :: b :: rest =>
           if is_digit 10 b then '(userid, rest) ← scan_unsigned (b :: rest); Some (userid, false, rest) else None
       | _ => None
       end.

Definition app_id_from_name (name : str) (is_group : bool) : outcome (option Z) :=
  match (p ← user_part name is_group; tail ← strip_prefix (lit "_") p.2; Some (p.1, tail)) with
  | None => Done None
  | Some ((userid, is_shared_gid), tail) =>
      part ← app_part tail is_group is_shared_gid;
      match part with
      | None => Done None
      | Some (appid, rest) =>
          if negb (bool_decide (rest = [])) || (1000 <? userid) || (AID_USER_OFFSET <=? appid) then Done None
          else
            offset ← umul 64 userid AID_USER_OFFSET;
            id ← uadd 64 appid offset;
            Done (Some (as_u 32 id))
      end
  end.

(** ** Lookups *)

Section resolver.
Context (ids : IdResolver).

Definition is_oem_id (id : Z) : bool :=
  (ir_launched_before_api_29 ids && (AID_OEM_RESERVED_START <=? id) && (id <? AID_EVERYBODY) &&
     negb (existsb (fun row : str * Z => row.2 =? id) ANDROID_IDS)) ||
  ((AID_OEM_RESERVED_START <=? id) && (id <=? AID_OEM_RESERVED_END)) ||
  ((AID_OEM_RESERVED_2_START <=? id) && (id <=? AID_OEM_RESERVED_2_END)).

Definition oem_id_from_name (name : str) : option Z :=
  digits ← strip_prefix (lit "oem_") name;
  '(id, _) ← scan_unsigned digits;
  if (max_u 32 <? id) || (id =? 0) || negb (is_oem_id id) then None else Some id.

Definition lookup_id (entries : list DatabaseEntry) (name : str) (is_group : bool) : outcome (option Z) :=
  match builtin_id name with
  | Some id => Done (Some id)
  | None =>
      match List.find (fun e => bool_decide (de_name e = name)) entries with
      | Some entry => Done (Some (de_id entry))
      | None =>
          match oem_id_from_name name with
          | Some id => Done (Some id)
          | None => app_id_from_name name is_group
          end
      end
  end.

Definition getpwnam (login : str) : outcome (option Z) := lookup_id (ir_passwd ids) login false.
Definition getgrnam (name : str) : outcome (option Z) := lookup_id (ir_group ids) name true.

Definition is_ascii_alphabetic (b : byte) : bool :=
  ((0x41 <=? byte_to_Z b) && (byte_to_Z b <=? 0x5a)) || ((0x61 <=? byte_to_Z b) && (byte_to_Z b <=? 0x7a)).

Inductive IdError := GetpwnamFailed | StrtoulFailed.

Definition decode_uid (name : str) : outcome (result Z IdError) :=
  if is_ascii_alphabetic (default x00 (head name)) then
    id ← getpwnam name;
    Done (match id with Some id => Ok id | None => Err GetpwnamFailed end)
  else Done (match strtoul name with Some id => Ok id | None => Err StrtoulFailed end).

End resolver.
End ids.
