(* ===== verification/Actions.v ===== *)
(** The actions of init's scripts and their triggers
    ([src/crates/aim-android-init/src/rc/action.rs]). *)

From Stdlib Require Import ZArith Lia.
From Stdlib Require Import Strings.String Strings.Byte.
From stdpp Require Import base numbers list.
From S2P Require Import Prelude Text Bytes Libbase Rules Info Expand Builtins.

Open Scope Z_scope.

(** ** Ordered maps

    A [BTreeMap] with strings as keys is the list of its entries in the order of
    the keys. *)

Abbreviation BTreeMap V := (list (str * V)).

Fixpoint bt_get {V} (key : str) (m : BTreeMap V) : option V :=
  match m with
  | [] => None
  | (k, v) :: m => if bool_decide (k = key) then Some v else bt_get key m
  end.

Fixpoint bt_insert {V} (key : str) (value : V) (m : BTreeMap V) : BTreeMap V :=
  match m with
  | [] => [(key, value)]
  | (k, v) :: m' =>
      if bytes_lt key k then (key, value) :: m
      else if bool_decide (k = key) then (key, value) :: m'
      else (k, v) :: bt_insert key value m'
  end.

(** The order of the keys. *)
Fixpoint keys_sorted {V} (m : BTreeMap V) : Prop :=
  match m with
  | [] => True
  | (k, _) :: m => Forall (fun row => bytes_lt k row.1 = true) m /\ keys_sorted m
  end.

(** ** Actions *)

Record Action := mkAction {
  ac_event_trigger : str;
  ac_property_triggers : BTreeMap str;
  ac_commands : list CommandSpec;
  ac_filename : str;
  ac_line : Z;
  ac_vendor_subcontext : bool;
}.

Definition triggers_string (a : Action) : str :=
  let triggers := (fun p : str * str => p.1 ++ lit "=" ++ p.2) <$> ac_property_triggers a in
  join (lit " && ") (triggers ++ if bool_decide (ac_event_trigger a = []) then [] else [ac_event_trigger a]).

(** The error texts. *)
Inductive TriggerError :=
| EmptyTrigger
| NotAnd
| NoEqualSign
| SamePropertyTwice
| SeveralEvents
| IllegalCharacter (arg : str).

Definition event_byte (b : byte) : bool :=
  bool_decide (b = x5f) || bool_decide (b = x2d) || is_ascii_alphanumeric b.

Section triggers.
Context (vendor_api_level : Z).

(** One trigger of the list. *)
Definition add_trigger (arg : str) (event : str) (properties : BTreeMap str) : result (str * BTreeMap str) TriggerError :=
  match strip_prefix (lit "property:") arg with
  | Some property =>
      match find_byte x3d property with
      | None => Err NoEqualSign
      | Some equal =>
          let name := take equal property in
          let value := drop (S equal) property in
          if bool_decide (is_Some (bt_get name properties)) then Err SamePropertyTwice
          else Ok (event, bt_insert name value properties)
      end
  | None =>
      if negb (bool_decide (event = [])) then Err SeveralEvents
      else if (ANDROID_API_R <=? vendor_api_level) && negb (forallb event_byte arg) then Err (IllegalCharacter arg)
      else Ok (arg, properties)
  end.

Fixpoint triggers_loop (index : nat) (args : list str) (event : str) (properties : BTreeMap str) :
    result (str * BTreeMap str) TriggerError :=
  match args with
  | [] => Ok (event, properties)
  | arg :: args =>
      if bool_decide (arg = []) then Err EmptyTrigger
      else if Nat.odd index then
        if negb (bool_decide (arg = lit "&&")) then Err NotAnd else triggers_loop (S index) args event properties
      else
        match add_trigger arg event properties with
        | Err e => Err e
        | Ok (event, properties) => triggers_loop (S index) args event properties
        end
  end.

Definition parse_triggers (args : list str) : result (str * BTreeMap str) TriggerError := triggers_loop 0 args [] [].
End triggers.
