(* ===== verification/RcService.v ===== *)
(** The service sections of init's scripts
    ([src/crates/aim-android-init/src/rc/service.rs], with the capability names of
    [rc/caps.rs]). *)

From Stdlib Require Import ZArith Lia.
From Stdlib Require Import Strings.String Strings.Byte.
From stdpp Require Import base numbers list.
From S2P Require Import Prelude Text Bytes Libbase Rules Info Expand Builtins Ids.

Open Scope Z_scope.
Open Scope binder_scope.

(** ** Services *)

Definition NR_SVC_SUPP_GIDS : Z := 32.
Definition MIN_OOM_SCORE_ADJUST : Z := -1000.
Definition MAX_OOM_SCORE_ADJUST : Z := 1000.
Definition DEFAULT_OOM_SCORE_ADJUST : Z := -1000.
Definition ANDROID_PRIORITY_HIGHEST : Z := -20.
Definition ANDROID_PRIORITY_LOWEST : Z := 19.
Definition KEY_MAX : Z := 0x2ff.
Definition SERVICE_NAME_MAX : Z := 92.

Record Id := mkId { id_name : str; id_id : Z }.

Inductive SocketType := Stream | Dgram | Seqpacket.
Record SocketDescriptor := mkSocketDescriptor {
  sd_name : str;
  sd_socket_type : SocketType;
  sd_passcred : bool;
  sd_listen : bool;
  sd_perm : Z;
  sd_uid : option Id;
  sd_gid : option Id;
  sd_context : str;
}.

Inductive FileMode := FileRead | FileWrite | FileReadWrite.
Record FileDescriptor := mkFileDescriptor { fd_name : str; fd_mode : FileMode }.

Inductive IoSchedClass := IoNone | IoRt | IoBe | IoIdle.
Record Namespaces := mkNamespaces { ns_new_pid : bool; ns_new_mount : bool; ns_enter_net : option str }.
Record Critical := mkCritical { cr_window_minutes : Z; cr_reboot_target : option str }.
Record RawOption := mkRawOption { ro_args : list str; ro_line : Z }.

Record Service := mkService {
  sv_name : str;
  sv_args : list str;
  sv_filename : str;
  sv_line : Z;
  sv_classnames : list str;
  sv_disabled : bool;
  sv_oneshot : bool;
  sv_critical : option Critical;
  sv_user : option Id;
  sv_group : option Id;
  sv_supplementary_groups : list Id;
  sv_capabilities : option Z;
  sv_sockets : list SocketDescriptor;
  sv_files : list FileDescriptor;
  sv_onrestart : list CommandSpec;
  sv_seclabel : option str;
  sv_writepid_files : list str;
  sv_task_profiles : list str;
  sv_interfaces : list str;
  sv_ioprio_class : IoSchedClass;
  sv_ioprio_priority : Z;
  sv_priority : Z;
  sv_rlimits : list Rlimit;
  sv_environment : list (str * str);
  sv_namespaces : Namespaces;
  sv_updatable : bool;
  sv_is_override : bool;
  sv_restart_period : Z;
  sv_timeout_period : option Z;
  sv_oom_score_adjust : Z;
  sv_console : option str;
  sv_stdio_to_kmsg : bool;
  sv_gentle_kill : bool;
  sv_sigstop : bool;
  sv_shutdown_critical : bool;
  sv_reboot_on_failure : option str;
  sv_other_options : list RawOption;
  sv_vendor_subcontext : bool;
}.

#[export] Instance Service_eta : Settable Service := fun r =>
  mkService (sv_name r) (sv_args r) (sv_filename r) (sv_line r) (sv_classnames r) (sv_disabled r) (sv_oneshot r)
    (sv_critical r) (sv_user r) (sv_group r) (sv_supplementary_groups r) (sv_capabilities r) (sv_sockets r)
    (sv_files r) (sv_onrestart r) (sv_seclabel r) (sv_writepid_files r) (sv_task_profiles r) (sv_interfaces r)
    (sv_ioprio_class r) (sv_ioprio_priority r) (sv_priority r) (sv_rlimits r) (sv_environment r)
    (sv_namespaces r) (sv_updatable r) (sv_is_override r) (sv_restart_period r) (sv_timeout_period r)
    (sv_oom_score_adjust r) (sv_console r) (sv_stdio_to_kmsg r) (sv_gentle_kill r) (sv_sigstop r)
    (sv_shutdown_critical r) (sv_reboot_on_failure r) (sv_other_options r) (sv_vendor_subcontext r).

Definition Service_new (name : str) (args : list str) (filename : str) (line : Z) (vendor : bool) : Service :=
  mkService name args filename line [lit "default"] false false None None None [] None [] [] [] None [] [] [] IoNone 0
    0 [] [] (mkNamespaces false false None) false false 5 None DEFAULT_OOM_SCORE_ADJUST None false false false
    false None [] vendor.

Definition Service_uid (service : Service) : Z := match sv_user service with Some id => id_id id | None => 0 end.
Definition Service_gid (service : Service) : Z := match sv_group service with Some id => id_id id | None => 0 end.

(** ** Capabilities *)

Definition CAPABILITY_NAMES : list str := [
  lit "CHOWN"; lit "DAC_OVERRIDE"; lit "DAC_READ_SEARCH"; lit "FOWNER"; lit "FSETID"; lit "KILL"; lit "SETGID";
  lit "SETUID"; lit "SETPCAP"; lit "LINUX_IMMUTABLE"; lit "NET_BIND_SERVICE"; lit "NET_BROADCAST"; lit "NET_ADMIN";
  lit "NET_RAW"; lit "IPC_LOCK"; lit "IPC_OWNER"; lit "SYS_MODULE"; lit "SYS_RAWIO"; lit "SYS_CHROOT"; lit "SYS_PTRACE";
  lit "SYS_PACCT"; lit "SYS_ADMIN"; lit "SYS_BOOT"; lit "SYS_NICE"; lit "SYS_RESOURCE"; lit "SYS_TIME";
  lit "SYS_TTY_CONFIG"; lit "MKNOD"; lit "LEASE"; lit "AUDIT_WRITE"; lit "AUDIT_CONTROL"; lit "SETFCAP";
  lit "MAC_OVERRIDE"; lit "MAC_ADMIN"; lit "SYSLOG"; lit "WAKE_ALARM"; lit "BLOCK_SUSPEND"; lit "AUDIT_READ";
  lit "PERFMON"; lit "BPF"; lit "CHECKPOINT_RESTORE"].

Definition lookup_cap (name : str) : option Z := Z.of_nat <$> position (fun cap => bool_decide (cap = name)) CAPABILITY_NAMES.

Fixpoint names_from (index : Z) (names : list str) (mask : Z) : list str :=
  match names with
  | [] => []
  | name :: names => (if Z.testbit mask index then [name] else []) ++ names_from (index + 1) names mask
  end.
Definition capability_names (mask : Z) : list str := names_from 0 CAPABILITY_NAMES mask.

(** ** Options *)

Inductive Opt :=
  | OCapabilities | OClass | OConsole | OCritical | ODisabled | OEnterNamespace | OFile | OGentleKill | OGroup
  | OInterface | OIoprio | OKeycodes | OMemcg | ONamespace | OOneshot | OOnrestart | OOomScoreAdjust
  | OOverride | OPriority | ORebootOnFailure | ORestartPeriod | ORlimit | OSeclabel | OSetenv | OSharedKallsyms
  | OShutdown | OSigstop | OSocket | OStdioToKmsg | OTaskProfiles | OTimeoutPeriod | OUpdatable | OUser
  | OWritepid.

Definition OPTIONS : list (str * Z * Z * Opt) := [
  (lit "capabilities", 0, UNBOUNDED, OCapabilities);
  (lit "class", 1, UNBOUNDED, OClass);
  (lit "console", 0, 1, OConsole);
  (lit "critical", 0, 2, OCritical);
  (lit "disabled", 0, 0, ODisabled);
  (lit "enter_namespace", 2, 2, OEnterNamespace);
  (lit "file", 2, 2, OFile);
  (lit "gentle_kill", 0, 0, OGentleKill);
  (lit "group", 1, NR_SVC_SUPP_GIDS + 1, OGroup);
  (lit "interface", 2, 2, OInterface);
  (lit "ioprio", 2, 2, OIoprio);
  (lit "keycodes", 1, UNBOUNDED, OKeycodes);
  (lit "memcg.limit_in_bytes", 1, 1, OMemcg);
  (lit "memcg.limit_percent", 1, 1, OMemcg);
  (lit "memcg.limit_property", 1, 1, OMemcg);
  (lit "memcg.soft_limit_in_bytes", 1, 1, OMemcg);
  (lit "memcg.swappiness", 1, 1, OMemcg);
  (lit "namespace", 1, 2, ONamespace);
  (lit "oneshot", 0, 0, OOneshot);
  (lit "onrestart", 1, UNBOUNDED, OOnrestart);
  (lit "oom_score_adjust", 1, 1, OOomScoreAdjust);
  (lit "override", 0, 0, OOverride);
  (lit "priority", 1, 1, OPriority);
  (lit "reboot_on_failure", 1, 1, ORebootOnFailure);
  (lit "restart_period", 1, 1, ORestartPeriod);
  (lit "rlimit", 3, 3, ORlimit);
  (lit "seclabel", 1, 1, OSeclabel);
  (lit "setenv", 2, 2, OSetenv);
  (lit "shared_kallsyms", 0, 0, OSharedKallsyms);
  (lit "shutdown", 1, 1, OShutdown);
  (lit "sigstop", 0, 0, OSigstop);
  (lit "socket", 3, 6, OSocket);
  (lit "stdio_to_kmsg", 0, 0, OStdioToKmsg);
  (lit "task_profiles", 1, UNBOUNDED, OTaskProfiles);
  (lit "timeout_period", 1, 1, OTimeoutPeriod);
  (lit "updatable", 0, 0, OUpdatable);
  (lit "user", 1, 1, OUser);
  (lit "writepid", 1, UNBOUNDED, OWritepid)].

(** The texts of errors and warnings. *)
Inductive OptionError :=
| BadKeyword (error : KeywordError)
| InvalidCapability (arg : str)
| ConsoleExclusive
| CriticalArgument (arg : str)
| CriticalExpand (arg : str)
| CriticalWindow
| OnlyNetNamespace
| OneNetNamespace
| FileType
| FileExpand (error : ExpandError)
| FileRelative
| DuplicateFile (name : str)
| UndecodedGid (name : str) (error : IdError)
| InterfaceRedefined (interface name owner : str)
| IoprioValue
| IoprioUsage
| KeycodeExpand (error : ExpandError)
| InvalidKeycode (code : str)
| DuplicateKeycode (code : str)
| MemcgValue (keyword : str)
| NamespaceKind
| OnrestartCommand (error : KeywordError)
| OomScoreRange
| PriorityRange
| OneRebootCommand
| RebootCommand
| RestartPeriodValue
| RlimitFailed (error : CommandError)
| ShutdownOption
| BadSocketType (type_ : str)
| SocketDecoration (decoration : str)
| SocketPermissions (arg : str)
| UnknownUid (name : str) (error : IdError)
| UnknownGid (name : str) (error : IdError)
| DuplicateSocket (name : str)
| StdioExclusive
| TimeoutPeriodValue.

Inductive OptionWarning :=
| KeptVerbatim (keyword : str)
| WritepidConverted (service : str) (files : list (str * str)).

Inductive OptionOutcome := OptOk | OptWarning (warning : OptionWarning) | OptError (error : OptionError).

(** What init reads while it parses. *)
Record ParseEnv (P : Type) := mkParseEnv { en_properties : P; en_vendor_api_level : Z; en_ids : IdResolver }.
Arguments mkParseEnv {P}.
Arguments en_properties {P}.
Arguments en_vendor_api_level {P}.
Arguments en_ids {P}.

Definition convert_task_file_to_profile (file : str) : option str :=
  if bool_decide (file = lit "/dev/cpuset/camera-daemon/tasks") then Some (lit "CameraServiceCapacity")
  else if bool_decide (file = lit "/dev/cpuset/foreground/tasks") then Some (lit "ProcessCapacityHigh")
  else if bool_decide (file = lit "/dev/cpuset/system-background/tasks") then Some (lit "ServiceCapacityLow")
  else if bool_decide (file = lit "/dev/blkio/background/tasks") then Some (lit "LowIoPriority")
  else None.

(** [i64::from_str_radix] on octal digits. *)
Fixpoint octal_value (value : Z) (digits : str) : option Z :=
  match digits with
  | [] => Some value
  | b :: digits =>
      digit ← to_digit 8 b;
      let value := value * 8 + digit in
      if 2 ^ 63 - 1 <? value then None else octal_value value digits
  end.

Definition strtol_octal (s : str) : option Z :=
  let trimmed := drop_while is_c_space s in
  let '(negative, digits) := match trimmed with
                             | x2d :: rest => (true, rest)
                             | x2b :: rest => (false, rest)
                             | _ => (false, trimmed)
                             end in
  if bool_decide (digits = []) || negb (forallb (is_digit 8) digits) then None else
  value ← octal_value 0 digits;
  Some (as_u 32 (if negative : bool then - value else value)).

Abbreviation SM X := (M Service (result X OptionError)).
Definition fail_option {X} (e : OptionError) : SM X := mret (Err e).
Definition accepted : SM (option OptionWarning) := mret (Ok None).
Definition alter_service (f : Service -> Service) : SM (option OptionWarning) := modify f;; accepted.

(** The loops of the options over their arguments. *)
Fixpoint add_capabilities (args : list str) (set : Z) : SM (option OptionWarning) :=
  match args with
  | [] => accepted
  | arg :: args =>
      match lookup_cap arg with
      | None => fail_option (InvalidCapability arg)
      | Some cap =>
          let set := Z.lor set (Z.shiftl 1 cap) in
          modify (fun s => s <| sv_capabilities := Some set |>);;
          add_capabilities args set
      end
  end.

Fixpoint add_namespaces (args : list str) : SM (option OptionWarning) :=
  match args with
  | [] => accepted
  | arg :: args =>
      if bool_decide (arg = lit "pid") then
        modify (fun s => s <| sv_namespaces := mkNamespaces true true (ns_enter_net (sv_namespaces s)) |>);; add_namespaces args
      else if bool_decide (arg = lit "mnt") then
        modify (fun s => s <| sv_namespaces := mkNamespaces (ns_new_pid (sv_namespaces s)) true (ns_enter_net (sv_namespaces s)) |>);;
        add_namespaces args
      else fail_option NamespaceKind
  end.

Fixpoint writepid_loop (args files : list str) (warnings : list (str * str)) : M Service (list str * list (str * str)) :=
  match args with
  | [] => mret (files, warnings)
  | file :: args =>
      match convert_task_file_to_profile file with
      | Some profile =>
          modify (fun s => s <| sv_task_profiles ::= fun l => l ++ [profile] |>);;
          writepid_loop args files (warnings ++ [(file, profile)])
      | None => writepid_loop args (files ++ [file]) warnings
      end
  end.

Section options.
Context `{Env} `{PropertyLookup P} (env : ParseEnv P).

Definition expand (s : str) : outcome (result str ExpandError) := expand_props (en_properties env) (en_vendor_api_level env) s.

Definition decode (name : str) : outcome (result Id IdError) :=
  id ← decode_uid (en_ids env) name;
  Done (match id with Ok id => Ok (mkId name id) | Err e => Err e end).

Fixpoint add_groups (names : list str) : SM (option OptionWarning) :=
  match names with
  | [] => accepted
  | name :: names =>
      gid ← call (decode name);
      match gid with
      | Err e => fail_option (UndecodedGid name e)
      | Ok gid => modify (fun s => s <| sv_supplementary_groups ::= fun l => l ++ [gid] |>);; add_groups names
      end
  end.

(** [critical]'s arguments: the reboot target and the window, or [off]. *)
Fixpoint critical_args (args : list str) (target : option str) (window : option Z) :
    outcome (result (option (option str * option Z)) OptionError) :=
  match args with
  | [] => Done (Ok (Some (target, window)))
  | arg :: args =>
      match split arg x3d with
      | [key; value] =>
          if bool_decide (key = lit "target") then critical_args args (Some value) window
          else if bool_decide (key = lit "window") then
            expanded ← expand value;
            match expanded with
            | Err _ => Done (Err (CriticalExpand value))
            | Ok expanded =>
                if bool_decide (expanded = lit "off") then Done (Ok None) else
                match parse_int expanded 0 I32_MAX with
                | None => Done (Err CriticalWindow)
                | Some minutes => critical_args args target (Some minutes)
                end
            end
          else Done (Err (CriticalArgument arg))
      | _ => Done (Err (CriticalArgument arg))
      end
  end.

Fixpoint keycodes_loop (codes : list str) (seen : list Z) : result unit OptionError :=
  match codes with
  | [] => Ok tt
  | code :: codes =>
      match parse_int code 0 KEY_MAX with
      | None => Err (InvalidKeycode code)
      | Some value => if existsb (Z.eqb value) seen then Err (DuplicateKeycode code) else keycodes_loop codes (seen ++ [value])
      end
  end.

Definition validate_keycodes (args : list str) : outcome (result unit OptionError) :=
  codes ← args_from args 1;
  match codes with
  | [code] =>
      if starts_with (lit "$") code then
        expanded ← expand code;
        Done (match expanded with
              | Err e => Err (KeycodeExpand e)
              | Ok expanded => if bool_decide (expanded = lit "none") then Ok tt else keycodes_loop (split expanded x2c) []
              end)
      else Done (keycodes_loop codes [])
  | _ => Done (keycodes_loop codes [])
  end.

Definition socket_type (s : str) : option SocketType :=
  if bool_decide (s = lit "stream") then Some Stream
  else if bool_decide (s = lit "dgram") then Some Dgram
  else if bool_decide (s = lit "seqpacket") then Some Seqpacket else None.

Fixpoint socket_decorations (decorations : list str) (passcred listen : bool) : result (bool * bool) OptionError :=
  match decorations with
  | [] => Ok (passcred, listen)
  | d :: decorations =>
      if bool_decide (d = lit "passcred") then socket_decorations decorations true listen
      else if bool_decide (d = lit "listen") then socket_decorations decorations passcred true
      else Err (SocketDecoration d)
  end.

(** An optional owner. *)
Definition decode_owner (name : option str) (error : str -> IdError -> OptionError) : outcome (result (option Id) OptionError) :=
  match name with
  | None => Done (Ok None)
  | Some name =>
      id ← decode name;
      Done (match id with Ok id => Ok (Some id) | Err e => Err (error name e) end)
  end.

Definition parse_socket (args : list str) : outcome (result SocketDescriptor OptionError) :=
  types ← arg args 2;
  match split types x2b with
  | [] => Panicked
  | type_ :: decorations =>
      match socket_type type_ with
      | None => Done (Err (BadSocketType type_))
      | Some type_ =>
          match socket_decorations decorations false false with
          | Err e => Done (Err e)
          | Ok (passcred, listen) =>
              perm ← arg args 3;
              match strtol_octal perm with
              | None => Done (Err (SocketPermissions perm))
              | Some perm =>
                  uid ← decode_owner (args !! 4%nat) UnknownUid;
                  match uid with
                  | Err e => Done (Err e)
                  | Ok uid =>
                      gid ← decode_owner (args !! 5%nat) UnknownGid;
                      match gid with
                      | Err e => Done (Err e)
                      | Ok gid =>
                          name ← arg args 1;
                          Done (Ok (mkSocketDescriptor name type_ passcred listen perm uid gid (default [] (args !! 6%nat))))
                      end
                  end
              end
          end
      end
  end.

Definition file_mode (s : str) : option FileMode :=
  if bool_decide (s = lit "r") then Some FileRead
  else if bool_decide (s = lit "w") then Some FileWrite
  else if bool_decide (s = lit "rw") then Some FileReadWrite else None.

Definition io_class (s : str) : option IoSchedClass :=
  if bool_decide (s = lit "rt") then Some IoRt
  else if bool_decide (s = lit "be") then Some IoBe
  else if bool_decide (s = lit "idle") then Some IoIdle else None.

(** A number within bounds. *)
Definition with_int (text : str) (min max : Z) (error : OptionError) (f : Z -> Service -> Service) : SM (option OptionWarning) :=
  match parse_int text min max with
  | None => fail_option error
  | Some value => alter_service (f value)
  end.

Definition keep_verbatim (args : list str) (line : Z) (keyword : str) : SM (option OptionWarning) :=
  modify (fun s => s <| sv_other_options ::= fun l => l ++ [mkRawOption args line] |>);;
  mret (Ok (Some (KeptVerbatim keyword))).

Definition apply_option (opt : Opt) (args : list str) (line : Z) (existing : list Service) : SM (option OptionWarning) :=
  let a (i : nat) : M Service str := call (arg args i) in
  match opt with
  | OCapabilities =>
      modify (fun s => s <| sv_capabilities := Some 0 |>);;
      rest ← call (args_from args 1);
      add_capabilities rest 0
  | OClass =>
      rest ← call (args_from args 1);
      alter_service (fun s => s <| sv_classnames := foldr set_insert [] rest |>)
  | OConsole =>
      stdio ← gets sv_stdio_to_kmsg;
      if stdio : bool then fail_option ConsoleExclusive else
      alter_service (fun s => s <| sv_console := Some (match args !! 1%nat with Some tty => lit "/dev/" ++ tty | None => [] end) |>)
  | OCritical =>
      rest ← call (args_from args 1);
      r ← call (critical_args rest None None);
      match r with
      | Err e => fail_option e
      | Ok None => accepted
      | Ok (Some (target, window)) =>
          alter_service (fun s =>
            let critical := default (mkCritical 4 None) (sv_critical s) in
            s <| sv_critical := Some (mkCritical (default (cr_window_minutes critical) window)
                                        (match target with Some t => Some t | None => cr_reboot_target critical end)) |>)
      end
  | ODisabled => alter_service (fun s => s <| sv_disabled := true |>)
  | OEnterNamespace =>
      kind ← a 1%nat;
      if negb (bool_decide (kind = lit "net")) then fail_option OnlyNetNamespace else
      entered ← gets (fun s => ns_enter_net (sv_namespaces s));
      if bool_decide (is_Some entered) then fail_option OneNetNamespace else
      modify (fun s => s <| sv_namespaces := mkNamespaces (ns_new_pid (sv_namespaces s)) true (ns_enter_net (sv_namespaces s)) |>);;
      path ← a 2%nat;
      alter_service (fun s => s <| sv_namespaces := mkNamespaces (ns_new_pid (sv_namespaces s)) (ns_new_mount (sv_namespaces s)) (Some path) |>)
  | OFile =>
      mode ← a 2%nat;
      match file_mode mode with
      | None => fail_option FileType
      | Some mode =>
          path ← a 1%nat;
          name ← call (expand path);
          match name with
          | Err e => fail_option (FileExpand e)
          | Ok name =>
              if negb (starts_with (lit "/") name) || bool_decide (is_Some (find_str (lit "../") name)) then fail_option FileRelative else
              files ← gets sv_files;
              if existsb (fun file => bool_decide (fd_name file = name)) files then fail_option (DuplicateFile name) else
              alter_service (fun s => s <| sv_files ::= fun l => l ++ [mkFileDescriptor name mode] |>)
          end
      end
  | OGentleKill => alter_service (fun s => s <| sv_gentle_kill := true |>)
  | OGroup =>
      name ← a 1%nat;
      group ← call (decode name);
      match group with
      | Err e => fail_option (UndecodedGid name e)
      | Ok group =>
          modify (fun s => s <| sv_group := Some group |>);;
          rest ← call (args_from args 2);
          add_groups rest
      end
  | OInterface =>
      interface ← a 1%nat;
      instance ← a 2%nat;
      let fullname := interface ++ lit "/" ++ instance in
      s ← get;
      match List.find (fun svc => is_one_of (sv_interfaces svc) fullname) existing with
      | Some owner =>
          if negb (sv_is_override s) then fail_option (InterfaceRedefined fullname (sv_name s) (sv_name owner))
          else alter_service (fun s => s <| sv_interfaces ::= set_insert fullname |>)
      | None => alter_service (fun s => s <| sv_interfaces ::= set_insert fullname |>)
      end
  | OIoprio =>
      text ← a 2%nat;
      match parse_int text 0 7 with
      | None => fail_option IoprioValue
      | Some priority =>
          modify (fun s => s <| sv_ioprio_priority := priority |>);;
          class ← a 1%nat;
          match io_class class with
          | None => fail_option IoprioUsage
          | Some class => alter_service (fun s => s <| sv_ioprio_class := class |>)
          end
      end
  | OKeycodes =>
      r ← call (validate_keycodes args);
      match r with
      | Err e => fail_option e
      | Ok _ => keep_verbatim args line (lit "keycodes")
      end
  | OMemcg =>
      keyword ← a 0%nat;
      valid ← (if bool_decide (keyword = lit "memcg.limit_property") then mret true
               else text ← a 1%nat; mret (bool_decide (is_Some (parse_int text 0 I32_MAX))));
      if negb valid then fail_option (MemcgValue keyword) else keep_verbatim args line keyword
  | ONamespace => rest ← call (args_from args 1); add_namespaces rest
  | OOneshot => alter_service (fun s => s <| sv_oneshot := true |>)
  | OOnrestart =>
      rest ← call (args_from args 1);
      commands ← gets sv_onrestart;
      match CommandSpec_parse rest (zlen commands + 1) with
      | Err e => fail_option (OnrestartCommand e)
      | Ok command => alter_service (fun s => s <| sv_onrestart ::= fun l => l ++ [command] |>)
      end
  | OOomScoreAdjust =>
      text ← a 1%nat;
      with_int text MIN_OOM_SCORE_ADJUST MAX_OOM_SCORE_ADJUST OomScoreRange (fun v s => s <| sv_oom_score_adjust := v |>)
  | OOverride => alter_service (fun s => s <| sv_is_override := true |>)
  | OPriority =>
      modify (fun s => s <| sv_priority := 0 |>);;
      text ← a 1%nat;
      with_int text ANDROID_PRIORITY_HIGHEST ANDROID_PRIORITY_LOWEST PriorityRange (fun v s => s <| sv_priority := v |>)
  | ORebootOnFailure =>
      command ← gets sv_reboot_on_failure;
      if bool_decide (is_Some command) then fail_option OneRebootCommand else
      target ← a 1%nat;
      if negb (starts_with (lit "shutdown") target) && negb (starts_with (lit "reboot") target) then fail_option RebootCommand
      else alter_service (fun s => s <| sv_reboot_on_failure := Some target |>)
  | ORestartPeriod =>
      text ← a 1%nat;
      with_int text 0 I32_MAX RestartPeriodValue (fun v s => s <| sv_restart_period := v |>)
  | ORlimit =>
      r ← call (parse_rlimit args);
      match r with
      | Err e => fail_option (RlimitFailed e)
      | Ok rlimit => alter_service (fun s => s <| sv_rlimits ::= fun l => l ++ [rlimit] |>)
      end
  | OSeclabel => label ← a 1%nat; alter_service (fun s => s <| sv_seclabel := Some label |>)
  | OSetenv =>
      value ← call (unwrap (last args));
      name ← call (unwrap (last (removelast args)));
      alter_service (fun s => s <| sv_environment ::= fun l => l ++ [(name, value)] |>)
  | OSharedKallsyms => keep_verbatim args line (lit "shared_kallsyms")
  | OShutdown =>
      kind ← a 1%nat;
      if negb (bool_decide (kind = lit "critical")) then fail_option ShutdownOption
      else alter_service (fun s => s <| sv_shutdown_critical := true |>)
  | OSigstop => alter_service (fun s => s <| sv_sigstop := true |>)
  | OSocket =>
      r ← call (parse_socket args);
      match r with
      | Err e => fail_option e
      | Ok socket =>
          sockets ← gets sv_sockets;
          if existsb (fun other => bool_decide (sd_name other = sd_name socket)) sockets then fail_option (DuplicateSocket (sd_name socket))
          else alter_service (fun s => s <| sv_sockets ::= fun l => l ++ [socket] |>)
      end
  | OStdioToKmsg =>
      console ← gets sv_console;
      if bool_decide (is_Some console) then fail_option StdioExclusive
      else alter_service (fun s => s <| sv_stdio_to_kmsg := true |>)
  | OTaskProfiles =>
      rest ← call (args_from args 1);
      alter_service (fun s => s <| sv_task_profiles ::= fun l => l ++ rest |>)
  | OTimeoutPeriod =>
      text ← a 1%nat;
      with_int text 1 I32_MAX TimeoutPeriodValue (fun v s => s <| sv_timeout_period := Some v |>)
  | OUpdatable => alter_service (fun s => s <| sv_updatable := true |>)
  | OUser =>
      name ← a 1%nat;
      user ← call (decode name);
      match user with
      | Err e => fail_option (UnknownUid name e)
      | Ok user => alter_service (fun s => s <| sv_user := Some user |>)
      end
  | OWritepid =>
      rest ← call (args_from args 1);
      '(files, warnings) ← writepid_loop rest [] [];
      modify (fun s => s <| sv_writepid_files := files |>);;
      name ← gets sv_name;
      mret (Ok (if bool_decide (warnings = []) then None else Some (WritepidConverted name warnings)))
  end.

Definition parse_option (args : list str) (line : Z) (existing : list Service) : M Service OptionOutcome :=
  match find_keyword OPTIONS args with
  | Err error =>
      (match error with
       | InvalidKeyword _ => modify (fun s => s <| sv_other_options ::= fun l => l ++ [mkRawOption args line] |>)
       | _ => mret tt
       end);;
      mret (OptError (BadKeyword error))
  | Ok opt =>
      r ← apply_option opt args line existing;
      mret (match r with Ok None => OptOk | Ok (Some warning) => OptWarning warning | Err error => OptError error end)
  end.

(** ** The start and the end of a section *)

Definition is_valid_service_name (name : str) : outcome bool :=
  legal ← is_legal_property_name (lit "init.svc." ++ name);
  Done (legal && (zlen name <=? SERVICE_NAME_MAX)).

Inductive SectionError := TooFewArguments | InvalidServiceName (name : str).

(** The old paths of two programs. *)
Definition rename_program (program : list str) : list str :=
  let rename (old new : str) (level : Z) (program : list str) : list str :=
    match program with
    | first :: rest => if (en_vendor_api_level env <=? level) && bool_decide (first = old) then new :: rest else program
    | [] => []
    end in
  rename (lit "/charger") (lit "/system/bin/charger") ANDROID_API_Q
    (rename (lit "/sbin/watchdogd") (lit "/system/bin/watchdogd") ANDROID_API_P program).

Definition begin_service (args : list str) (filename : str) (line : Z) (vendor_subcontext : bool) :
    outcome (result Service SectionError) :=
  if zlen args <? 3 then Done (Err TooFewArguments) else
  name ← arg args 1;
  valid ← is_valid_service_name name;
  if negb valid then Done (Err (InvalidServiceName name)) else
  program ← args_from args 2;
  Done (Ok (Service_new name (rename_program program) filename line vendor_subcontext)).

Inductive EndError := NoUser (service : str) | CriticalOneshot (service : str).

Definition end_service_checks (service : Service) : outcome (result (option str) EndError) :=
  let checked (warning : option str) : outcome (result (option str) EndError) :=
    Done (if (ANDROID_API_R <=? en_vendor_api_level env) && bool_decide (is_Some (sv_critical service)) && sv_oneshot service
          then Err (CriticalOneshot (sv_name service)) else Ok warning) in
  match sv_user service with
  | Some _ => checked None
  | None =>
      level ← property_or (en_properties env) (lit "ro.vendor.api_level") (lit "0");
      let level := default 0 (parse_int level I32_MIN I32_MAX) in
      if 202404 <? level then Done (Err (NoUser (sv_name service))) else checked (Some (sv_name service))
  end.

End options.
