(* ===== verification/Options.v ===== *)
(** What the options of a service's section keep
    ([src/crates/aim-android-init/src/rc/service.rs]): no option panics but for
    the sums of [rc/ids.rs], and a service stays well formed whatever lines its
    section has, rejected ones included. *)

From Stdlib Require Import ZArith Lia.
From Stdlib Require Import Strings.String Strings.Byte.
From stdpp Require Import base numbers list.
From S2P Require Import Prelude Text Bytes Libbase Rules Info Expand Builtins.
From S2P Require Import Ids RcService.

Open Scope Z_scope.
Open Scope binder_scope.

(** ** Outcomes

    [ends E o Q]: [o] is a value with [Q], or a panic and [E] holds. *)
Definition ends {A} (E : Prop) (o : outcome A) (Q : A -> Prop) : Prop :=
  match o with Done a => Q a | Panicked => E | Spinning => False end.

Section ends.
Context (E : Prop).

Lemma ends_done {A} (a : A) (Q : A -> Prop) : Q a -> ends E (Done a) Q.
Proof. done. Qed.

Lemma ends_bind {A B} (o : outcome A) (f : A -> outcome B) Q : ends E o (fun a => ends E (f a) Q) -> ends E (o ≫= f) Q.
Proof. by destruct o. Qed.

Lemma ends_mono {A} (o : outcome A) (Q Q' : A -> Prop) : ends E o Q -> (forall a, Q a -> Q' a) -> ends E o Q'.
Proof. destruct o; cbn; auto. Qed.

Lemma wp_ends {S A} (o : outcome A) (Q : A -> S -> Prop) s : ends E o (fun a => Q a s) -> wp E (call o) Q s.
Proof. unfold wpx, call. by destruct o. Qed.

Lemma ends_arg args i (Q : str -> Prop) : (i < length args)%nat -> (forall x, Q x) -> ends E (arg args i) Q.
Proof. intros Hi HQ. destruct (arg_ok args i Hi) as [x ->]. apply HQ. Qed.

Lemma ends_args_from args i (Q : list str -> Prop) : (i <= length args)%nat -> Q (drop i args) -> ends E (args_from args i) Q.
Proof. intros Hi HQ. by rewrite args_from_ok. Qed.

Lemma ends_any {A} (o : outcome A) (Q : A -> Prop) : (exists a, o = Done a) -> (forall a, Q a) -> ends E o Q.
Proof. intros [a ->] HQ. apply HQ. Qed.
End ends.

(** ** Well-formed services *)

(** A command that [CommandSpec::parse] made. *)
Definition spec_ok (c : CommandSpec) : Prop := CommandSpec_parse (cs_args c) (cs_line c) = Ok c.

Definition service_ok (s : Service) : Prop :=
  is_valid_service_name (sv_name s) = Done true /\
  sv_args s <> [] /\
  Forall spec_ok (sv_onrestart s) /\
  NoDup (sd_name <$> sv_sockets s) /\
  NoDup (fd_name <$> sv_files s) /\
  Forall (fun file => starts_with (lit "/") (fd_name file) = true) (sv_files s) /\
  ~ (is_Some (sv_console s) /\ sv_stdio_to_kmsg s = true) /\
  0 <= default 0 (sv_capabilities s) < 2 ^ zlen CAPABILITY_NAMES /\
  0 <= sv_ioprio_priority s <= 7 /\
  ANDROID_PRIORITY_HIGHEST <= sv_priority s <= ANDROID_PRIORITY_LOWEST /\
  0 <= sv_restart_period s <= I32_MAX /\
  (forall period, sv_timeout_period s = Some period -> 1 <= period <= I32_MAX) /\
  MIN_OOM_SCORE_ADJUST <= sv_oom_score_adjust s <= MAX_OOM_SCORE_ADJUST.

(** What a section's first line fixes. *)
Definition same_service (s s' : Service) : Prop :=
  sv_name s' = sv_name s /\ sv_args s' = sv_args s /\ sv_filename s' = sv_filename s /\ sv_line s' = sv_line s /\
  sv_vendor_subcontext s' = sv_vendor_subcontext s.

Section options.
Context `{Env} `{PropertyLookup P} (env : ParseEnv P).
Hypothesis lookups : forall name, exists value, property (en_properties env) name = Done value.
Abbreviation E := (overflow_checks = true).

Lemma ends_uadd w a b (Q : Z -> Prop) : (forall c, Q c) -> ends E (uadd w a b) Q.
Proof. intros HQ. unfold uadd, ends. destruct (checked_add w a b); [apply HQ|]. by destruct overflow_checks eqn:?; [|apply HQ]. Qed.

Lemma ends_umul w a b (Q : Z -> Prop) : (forall c, Q c) -> ends E (umul w a b) Q.
Proof. intros HQ. unfold umul, ends. destruct (_ <? _); [apply HQ|]. by destruct overflow_checks eqn:?; [|apply HQ]. Qed.

Lemma ends_app_id name is_group (Q : option Z -> Prop) : (forall r, Q r) -> ends E (app_id_from_name name is_group) Q.
Proof.
  intros HQ. unfold app_id_from_name. destruct (user_part name is_group ≫= _) as [[[userid shared] tail]|]; [|apply HQ].
  apply ends_bind. assert (forall Q' : option (Z * str) -> Prop, (forall r, Q' r) -> ends E (app_part tail is_group shared) Q') as Hpart.
  { intros Q' HQ'. unfold app_part. destruct tail as [|first after]; [apply HQ'|]. 
    repeat case_match; try apply HQ'; apply ends_bind, ends_uadd; intros c; apply HQ'. }
  apply Hpart. intros [[appid rest]|]; [|apply HQ]. destruct (_ || _); [apply HQ|].
  apply ends_bind, ends_umul. intros c. apply ends_bind, ends_uadd. intros d. apply HQ.
Qed.

Lemma ends_decode name (Q : result Id IdError -> Prop) : (forall r, Q r) -> ends E (decode env name) Q.
Proof.
  intros HQ. unfold decode, decode_uid, getpwnam, lookup_id. apply ends_bind. destruct (is_ascii_alphabetic _); [|apply HQ].
  apply ends_bind. repeat case_match; try apply HQ. apply ends_app_id. intros r. apply HQ.
Qed.

Lemma expand_total s : exists r, expand env s = Done r.
Proof. apply expand_ends; [apply lookups|lia]. Qed.

Lemma ends_expand s (Q : result str ExpandError -> Prop) : (forall r, Q r) -> ends E (expand env s) Q.
Proof. intros HQ. by apply ends_any; [apply expand_total|]. Qed.

Lemma ends_critical args target window (Q : _ -> Prop) : (forall r, Q r) -> ends E (critical_args env args target window) Q.
Proof.
  intros HQ. revert target window. induction args as [|a args IH]; intros target window; [apply HQ|]. cbn [critical_args].
  repeat case_match; try apply HQ; try apply IH. apply ends_bind, ends_expand. intros [e|e]; [|apply HQ].
  destruct (bool_decide (e = _)); [apply HQ|]. destruct (parse_int e _ _); [apply IH|apply HQ].
Qed.

Lemma ends_keycodes args (Q : _ -> Prop) : (1 <= length args)%nat -> (forall r, Q r) -> ends E (validate_keycodes env args) Q.
Proof.
  intros Hlen HQ. unfold validate_keycodes. apply ends_bind, ends_args_from; [done|]. repeat case_match; try apply HQ.
  apply ends_bind, ends_expand. intros r. apply HQ.
Qed.

Lemma ends_owner name error (Q : _ -> Prop) : (forall r, Q r) -> ends E (decode_owner env name error) Q.
Proof. intros HQ. destruct name; [|apply HQ]. apply ends_bind, ends_decode. intros r. apply HQ. Qed.

Lemma ends_socket args (Q : _ -> Prop) : (4 <= length args)%nat -> (forall r, Q r) -> ends E (parse_socket env args) Q.
Proof.
  intros Hlen HQ. unfold parse_socket. apply ends_bind, ends_arg; [lia|]. intros types.
  destruct (split types x2b) as [|type_ decorations] eqn:Hs; [by apply split_nonempty in Hs|].
  destruct (socket_type type_); [|apply HQ]. destruct (socket_decorations _ _ _) as [[passcred listen]|]; [|apply HQ].
  apply ends_bind, ends_arg; [lia|]. intros perm. destruct (strtol_octal perm); [|apply HQ].
  apply ends_bind, ends_owner. intros [uid|]; [|apply HQ]. apply ends_bind, ends_owner. intros [gid|]; [|apply HQ].
  apply ends_bind, ends_arg; [lia|]. intros x. apply HQ.
Qed.

Lemma parse_int_range s min max v : parse_int s min max = Some v -> min <= v <= max.
Proof.
  unfold parse_int. intros Hp. repeat (case_match; try done); simplify_option_eq; repeat case_match; simplify_eq;
    match goal with H : (_ && _)%bool = true |- _ => apply andb_true_iff in H end; lia.
Qed.

(** ** The options keep a service well formed *)

Definition kept (s0 s : Service) : Prop := service_ok s /\ same_service s0 s.
Abbreviation keeps m s0 := (forall s, kept s0 s -> wp E m (fun _ => kept s0) s).

Lemma lookup_cap_range name cap : lookup_cap name = Some cap -> 0 <= cap < zlen CAPABILITY_NAMES.
Proof. unfold lookup_cap. intros (i & Hi & ->)%fmap_Some. apply position_lt in Hi. unfold zlen. lia. Qed.

Lemma lor_range a b n : 0 <= n -> 0 <= a < 2 ^ n -> 0 <= b < 2 ^ n -> 0 <= Z.lor a b < 2 ^ n.
Proof.
  intros Hn Ha Hb. replace (Z.lor a b) with (Z.lor a b mod 2 ^ n); [apply Z.mod_pos_bound; lia|].
  by rewrite <- !Z.land_ones, Z.land_lor_distr_l, !Z.land_ones, !Z.mod_small by done.
Qed.

(** Splits the fields of a service that an option changes. *)
Ltac fields :=
  match goal with
  | Hs : kept _ ?s |- kept _ _ =>
      let Hok := fresh in let Hsame := fresh in
      destruct Hs as [Hok Hsame]; unfold service_ok in Hok; unfold same_service in Hsame; destruct_and! Hok; destruct_and! Hsame;
      unfold kept, service_ok, same_service; repeat match goal with |- _ /\ _ => split end; try assumption
  end.

Lemma add_capabilities_keeps args set s0 : 0 <= set < 2 ^ zlen CAPABILITY_NAMES -> keeps (add_capabilities args set) s0.
Proof.
  revert set. induction args as [|a args IH]; intros set Hset s Hs; [done|]. cbn [add_capabilities].
  destruct (lookup_cap a) as [cap|] eqn:Hcap; [|done]. apply lookup_cap_range in Hcap. do 2 wp_step.
  assert (0 <= Z.lor set (Z.shiftl 1 cap) < 2 ^ zlen CAPABILITY_NAMES) as Hnew.
  { rewrite Z.shiftl_1_l. apply lor_range; [lia|done|]. split; [lia|]. apply Z.pow_lt_mono_r; lia. }
  apply IH; [done|]. destruct Hnew. fields.
Qed.

Lemma add_namespaces_keeps args s0 : keeps (add_namespaces args) s0.
Proof. induction args as [|a args IH]; intros s Hs; [done|]. cbn [add_namespaces]. repeat wp_step; [apply IH; fields..|done]. Qed.

Lemma writepid_keeps args files warnings s0 : keeps (writepid_loop args files warnings) s0.
Proof.
  revert files warnings. induction args as [|a args IH]; intros files warnings s Hs; [done|]. cbn [writepid_loop].
  repeat wp_step; apply IH; fields.
Qed.

Lemma add_groups_keeps names s0 : keeps (add_groups env names) s0.
Proof.
  induction names as [|a names IH]; intros s Hs; [done|]. cbn [add_groups]. wp_step. apply wp_ends, ends_decode.
  intros [gid|e]; [|done]. do 2 wp_step. apply IH. fields.
Qed.

Lemma spec_parsed args line c : CommandSpec_parse args line = Ok c -> spec_ok c.
Proof. intros Hc. unfold spec_ok. assert (cs_args c = args /\ cs_line c = line) as [-> ->]; [|done].
  revert Hc. unfold CommandSpec_parse. destruct (find_keyword _ _) as [[??]|]; [|done]. by intros [= <-]. Qed.

Lemma existsb_not_in {A} (name : A -> str) l x :
  existsb (fun other => bool_decide (name other = name x)) l = false -> NoDup (name <$> l) -> NoDup (name <$> (l ++ [x])).
Proof.
  intros Hx Hl. rewrite fmap_app. apply NoDup_app. split_and!; [done| |by apply NoDup_singleton].
  intros y (z & Hy & Hz)%list_elem_of_fmap Hx'. apply list_elem_of_singleton in Hx' as ->. apply not_true_iff_false in Hx. destruct Hx. apply existsb_exists.
  exists z. split; [by apply list_elem_of_In|]. by apply bool_decide_eq_true_2.
Qed.

Lemma ends_last (args : list str) (Q : str -> Prop) : (1 <= length args)%nat -> (forall x, Q x) -> ends E (unwrap (last args)) Q.
Proof. intros Hlen HQ. destruct args as [|a args _] using rev_ind; [cbn in Hlen; lia|]. rewrite last_snoc. apply HQ. Qed.

Lemma removelast_length (args : list str) : length (removelast args) = (length args - 1)%nat.
Proof. rewrite removelast_firstn_len, length_take. lia. Qed.

Ltac opt_call :=
  apply wp_ends;
  first [ apply ends_arg; [lia|intros ?] | apply ends_args_from; [lia|] | apply ends_decode; intros ? | apply ends_expand; intros ?
        | apply ends_critical; intros ? | apply ends_keycodes; [lia|intros ?] | apply ends_socket; [lia|intros ?]
        | apply ends_any; [apply parse_rlimit_ok; lia|intros ?]
        | apply ends_last; [rewrite ?removelast_length; lia|intros ?] ].
Ltac opt_step :=
  first [ assumption | opt_call | wp_step | apply add_capabilities_keeps; [done|] | apply add_namespaces_keeps | apply add_groups_keeps
        | eapply wp_mono; [eapply writepid_keeps; eassumption|cbv beta; intros [? ?] ? ?] ].

Lemma apply_option_keeps row args line existing s0 :
  row ∈ OPTIONS -> row_admits row args -> keeps (apply_option env row.2 args line existing) s0.
Proof.
  intros Hin. unfold row_admits, zlen. apply list_elem_of_In in Hin. revert Hin. unfold OPTIONS.
  repeat (intros [<-|Hin]; [clear -lookups; cbn [fst snd]; unfold UNBOUNDED, max_u; intros Hn s Hs; shelve|revert Hin]). by intros [].
  Unshelve.
  all: unfold apply_option, with_int, keep_verbatim, alter_service, accepted, fail_option.
  all: repeat opt_step.
  all: try (fields; fail).
  all: repeat match goal with Hp : parse_int _ _ _ = Some _ |- _ => apply parse_int_range in Hp end.
  all: fields.
  all: try (cbn -[Z.pow]; unfold ANDROID_PRIORITY_HIGHEST, ANDROID_PRIORITY_LOWEST in *; lia).
  - cbn. intros [_ ?]. congruence.
  - by apply (existsb_not_in fd_name _ (mkFileDescriptor _ _)).
  - apply Forall_app. split; [done|]. apply list.Forall_singleton. cbn [fd_name].
    match goal with Hb : (negb _ || _)%bool = false |- _ => apply orb_false_iff in Hb as [Hb _]; by apply negb_false_iff in Hb end.
  - apply Forall_app. split; [done|]. apply list.Forall_singleton. by eapply spec_parsed.
  - by apply (existsb_not_in sd_name).
  - cbn. intros [? _]. by match goal with Hb : bool_decide _ = false |- _ => apply bool_decide_eq_false_1 in Hb end.
  - intros period [= <-]. lia.
Qed.

Lemma parse_option_keeps args line existing s0 : keeps (parse_option env args line existing) s0.
Proof.
  intros s Hs. unfold parse_option. destruct (find_keyword OPTIONS args) as [opt|error] eqn:Hf.
  - apply find_keyword_ok in Hf as (row & Hin & <- & _ & Hadm). wp_step. eapply wp_mono; [by apply apply_option_keeps|].
    intros r s' Hs'. by wp_step.
  - repeat wp_step; (done || fields).
Qed.

(** ** The first line and the end of a section *)

Lemma valid_name_total name : exists b, is_valid_service_name name = Done b.
Proof. unfold is_valid_service_name. destruct (legal_name_ok (lit "init.svc." ++ name)) as (b & -> & _). by eexists. Qed.

Lemma begin_service_ok args filename line vendor : (1 <= length args)%nat -> exists r, begin_service env args filename line vendor = Done r /\
  forall s, r = Ok s -> service_ok s /\ sv_filename s = filename /\ sv_vendor_subcontext s = vendor.
Proof.
  intros Hlen. unfold begin_service, zlen. destruct (Z.ltb_spec (Z.of_nat (length args)) 3) as [|Hlong]; [by eexists|].
  destruct (arg_ok args 1) as [name ->]; [lia|]. cbn [mbind outcome_bind]. destruct (valid_name_total name) as [valid Hv]. rewrite Hv.
  cbn [mbind outcome_bind]. destruct valid; [|by eexists]. rewrite args_from_ok by lia. eexists. split; [done|]. intros s [= <-].
  split; [|done]. unfold service_ok. cbn [negb Service_new sv_name sv_args]. split_and!; try done; try (cbn; lia); try constructor.
  - unfold rename_program. destruct (drop 2 args) as [|first rest] eqn:Hd; [apply (f_equal length) in Hd; rewrite length_drop in Hd; cbn in Hd; lia|].
    cbn. repeat case_match; done.
Qed.

Lemma end_checks_total s : exists r, end_service_checks env s = Done r.
Proof.
  unfold end_service_checks. destruct (sv_user s); [by eexists|]. unfold property_or.
  destruct (lookups (lit "ro.vendor.api_level")) as [value ->]. cbn. case_match; by eexists.
Qed.
End options.
