(* ===== verification/Script.v ===== *)
(** The parser of init's scripts
    ([src/crates/aim-android-init/src/rc/parser.rs]) over the sections of
    [Actions] and [RcService], the tokens of [Tokenizer] and the files of
    [Image]. *)

From Stdlib Require Import ZArith Lia.
From Stdlib Require Import Strings.String Strings.Byte.
From stdpp Require Import base numbers list.
From S2P Require Import Prelude Text Bytes Libbase Info Expand Builtins Actions.
From S2P Require Import Ids RcService Image Tokenizer.

Open Scope Z_scope.
Open Scope binder_scope.

Inductive SectionKind := Boot | Apex.

(** The texts of errors and diagnostics. *)
Inductive ParseError :=
| InvalidSection
| ServiceFailed (error : SectionError)
| NeedsTrigger
| OnlyVendorApex
| TriggersFailed (error : TriggerError)
| ImportArguments
| ImportFailed (error : ExpandError)
| OptionFailed (error : OptionError)
| CommandFailed (error : KeywordError)
| AfterImport
| EndFailed (error : EndError)
| DuplicateService (name : str)
| NotUpdatable (name : str)
| TrebleBoundary (name : str).

Inductive Severity := Warning | Error.

Section parser.
Context `{Env} `{HostFs} `{PropertyLookup P} (env : ParseEnv P).

Inductive Message :=
| ParseFailed (error : ParseError)
| OptionWarned (warning : OptionWarning)
| RunsAsRoot (service : str)
| NoImage
| UnreadableConfig (path : str) (error : IoError)
| UnreadableDirectory (path : str) (error : IoError)
| UnreadableImport (path : str) (error : IoError)
| ApexFailed (path : str) (error : option IoError).

Record Diagnostic := mkDiagnostic { dg_severity : Severity; dg_file : str; dg_line : Z; dg_message : Message }.

Record ParsedScripts := mkParsedScripts {
  sc_services : list Service;
  sc_actions : list Action;
  sc_files : list str;
  sc_diagnostics : list Diagnostic;
  sc_parse_error_count : Z;
}.
Definition no_scripts : ParsedScripts := mkParsedScripts [] [] [] [] 0.

Inductive Section_ := InService (service : Service) | InAction (action : Action) | InImport.

(** The parser's own state. *)
Record Parser := mkParser { pr_scripts : ParsedScripts; pr_pending_imports : list (str * Z) }.

Context (kind : SectionKind) (has_image : bool) (vendor_apexes : list str).
Abbreviation PM X := (M Parser X).

Definition alter_scripts (f : ParsedScripts -> ParsedScripts) : PM unit :=
  modify (fun p => mkParser (f (pr_scripts p)) (pr_pending_imports p)).

Definition log (severity : Severity) (file : str) (line : Z) (message : Message) : PM unit :=
  alter_scripts (fun s => mkParsedScripts (sc_services s) (sc_actions s) (sc_files s)
    (sc_diagnostics s ++ [mkDiagnostic severity file line message]) (sc_parse_error_count s)).

Definition error (file : str) (line : Z) (e : ParseError) : PM unit :=
  alter_scripts (fun s => mkParsedScripts (sc_services s) (sc_actions s) (sc_files s) (sc_diagnostics s) (sc_parse_error_count s + 1));;
  log Error file line (ParseFailed e).

Definition apex_name_from_file_name (path : str) : option str :=
  rest ← strip_prefix (lit "/apex/") path;
  Some (default rest (head (split rest x2f))).

Definition path_in_vendor_subcontext (path : str) : bool :=
  if en_vendor_api_level env <? ANDROID_API_P then false else
  match apex_name_from_file_name path with
  | Some apex => existsb (fun name => bool_decide (name = apex)) vendor_apexes
  | None => starts_with (lit "/vendor") path || starts_with (lit "/odm") path
  end.

Definition is_section_keyword (keyword : str) : bool :=
  bool_decide (keyword = lit "service") || bool_decide (keyword = lit "on") ||
  (bool_decide (keyword = lit "import") && match kind with Boot => true | Apex => false end).

Definition begin_section (args : list str) (filename : str) (line : Z) : PM (result Section_ ParseError) :=
  keyword ← call (arg args 0);
  if bool_decide (keyword = lit "service") then
    let vendor := path_in_vendor_subcontext filename in
    r ← call (begin_service env args filename line vendor);
    mret (match r with Ok service => Ok (InService service) | Err e => Err (ServiceFailed e) end)
  else if bool_decide (keyword = lit "on") then
    triggers ← call (args_from args 1);
    if bool_decide (triggers = []) then mret (Err NeedsTrigger) else
    let vendor := path_in_vendor_subcontext filename in
    if starts_with (lit "/apex/") filename && negb vendor then mret (Err OnlyVendorApex) else
    mret (match parse_triggers (en_vendor_api_level env) triggers with
          | Err e => Err (TriggersFailed e)
          | Ok (event_trigger, property_triggers) =>
              Ok (InAction (mkAction event_trigger property_triggers [] filename line vendor))
          end)
  else
    if negb (length args =? 2)%nat then mret (Err ImportArguments) else
    path ← call (arg args 1);
    r ← call (expand env path);
    match r with
    | Err e => mret (Err (ImportFailed e))
    | Ok path =>
        modify (fun p => mkParser (pr_scripts p) (pr_pending_imports p ++ [(path, line)]));;
        mret (Ok InImport)
    end.

(** A line of a section, which stays as the line leaves it. *)
Definition parse_line (section : Section_) (args : list str) (line : Z) : PM (Section_ * result unit ParseError) :=
  match section with
  | InService service =>
      services ← gets (fun p => sc_services (pr_scripts p));
      '(outcome, service') ← call (parse_option env args line services service);
      match outcome with
      | OptOk => mret (InService service', Ok tt)
      | OptWarning warning =>
          log Warning (sv_filename service) line (OptionWarned warning);;
          mret (InService service', Ok tt)
      | OptError e => mret (InService service', Err (OptionFailed e))
      end
  | InAction action =>
      mret (match CommandSpec_parse args line with
            | Err e => (section, Err (CommandFailed e))
            | Ok command =>
                (InAction (mkAction (ac_event_trigger action) (ac_property_triggers action) (ac_commands action ++ [command])
                             (ac_filename action) (ac_line action) (ac_vendor_subcontext action)), Ok tt)
            end)
  | InImport => mret (section, Err AfterImport)
  end.

Definition remove_nth {A} (i : nat) (l : list A) : list A := take i l ++ drop (S i) l.

Definition set_services (services : list Service) : PM unit :=
  alter_scripts (fun s => mkParsedScripts services (sc_actions s) (sc_files s) (sc_diagnostics s) (sc_parse_error_count s)).

Definition end_service (service : Service) (filename : str) (line : Z) : PM (result unit ParseError) :=
  checks ← call (end_service_checks env service);
  match checks with
  | Err e => mret (Err (EndFailed e))
  | Ok warning =>
      (match warning with Some name => log Warning filename line (RunsAsRoot name) | None => mret tt end);;
      services ← gets (fun p => sc_services (pr_scripts p));
      match position (fun old => bool_decide (sv_name old = sv_name service)) services with
      | None => set_services (services ++ [service]);; mret (Ok tt)
      | Some index =>
          if negb (sv_is_override service) then mret (Err (DuplicateService (sv_name service))) else
          old ← call (unwrap (services !! index));
          if starts_with (lit "/apex/") filename && negb (sv_updatable old) then mret (Err (NotUpdatable (sv_name service)))
          else if negb (Bool.eqb (sv_vendor_subcontext old) (sv_vendor_subcontext service)) then mret (Err (TrebleBoundary (sv_name service)))
          else set_services (remove_nth index services ++ [service]);; mret (Ok tt)
      end
  end.

Definition end_section (filename : str) (start_line : Z) (section : option Section_) : PM unit :=
  match section with
  | None | Some InImport => mret tt
  | Some (InAction action) =>
      if bool_decide (length (ac_commands action) = 0%nat) then mret tt
      else alter_scripts (fun s => mkParsedScripts (sc_services s) (sc_actions s ++ [action]) (sc_files s) (sc_diagnostics s) (sc_parse_error_count s))
  | Some (InService service) =>
      r ← end_service service filename start_line;
      match r with Ok _ => mret tt | Err e => error filename start_line e end
  end.

(** The variables of [parse_data]'s loop, besides the tokenizer. *)
Record Loop := mkLoop { lp_section : option Section_; lp_start : Z; lp_bad : bool; lp_args : list str }.

(** The end of a line with words. *)
Definition end_line (filename : str) (line : Z) (l : Loop) : PM Loop :=
  keyword ← call (arg (lp_args l) 0);
  if is_section_keyword keyword then
    end_section filename (lp_start l) (lp_section l);;
    r ← begin_section (lp_args l) filename line;
    match r with
    | Ok section => mret (mkLoop (Some section) line false [])
    | Err e => error filename line e;; mret (mkLoop None line true [])
    end
  else
    match lp_section l with
    | Some current =>
        '(current, r) ← parse_line current (lp_args l) line;
        (match r with Ok _ => mret tt | Err e => error filename line e end);;
        mret (mkLoop (Some current) (lp_start l) (lp_bad l) [])
    | None =>
        (if negb (lp_bad l) then error filename line InvalidSection else mret tt);;
        mret (mkLoop None (lp_start l) (lp_bad l) [])
    end.

Fixpoint parse_loop (n : nat) (filename : str) (t : Tokenizer) (l : Loop) : PM Loop :=
  match n with
  | O => spin
  | S n =>
      '(token, t) ← call (next_token t);
      match token with
      | Eof => mret l
      | Newline =>
          let t := mkTokenizer (tk_data t) (tk_ptr t) (tk_line t + 1) (tk_next_newline t) in
          if bool_decide (lp_args l = []) then parse_loop n filename t l
          else l ← end_line filename (tk_line t) l; parse_loop n filename t l
      | Text text => parse_loop n filename t (mkLoop (lp_section l) (lp_start l) (lp_bad l) (lp_args l ++ [text]))
      end
  end.

(** The sections of one file; a token takes a byte or a pending newline. *)
Definition parse_sections (filename : str) (contents : list byte) : PM unit :=
  alter_scripts (fun s => mkParsedScripts (sc_services s) (sc_actions s) (sc_files s ++ [filename]) (sc_diagnostics s) (sc_parse_error_count s));;
  l ← parse_loop (2 * length contents + 5) filename (Tokenizer_new contents) (mkLoop None 0 false []);
  end_section filename (lp_start l) (lp_section l).

(** [files.sort()]. *)
Fixpoint insert_sorted (s : str) (l : list str) : list str :=
  match l with
  | [] => [s]
  | x :: l' => if bytes_lt x s then x :: insert_sorted s l' else s :: l
  end.
Definition sort_files (files : list str) : list str := foldr insert_sorted [] files.

(** The files of a directory or one file, with [parse] for their contents. *)
Fixpoint each_file {A} (f : A -> PM unit) (l : list A) : PM unit :=
  match l with
  | [] => mret tt
  | x :: l => f x;; each_file f l
  end.

Section config.
Context (parse : str -> list byte -> PM unit).

Definition parse_config_dir (path : str) : PM bool :=
  if negb has_image then mret false else
  match ImageRoot.regular_files path with
  | Err e => log Warning path 0 (UnreadableDirectory path e);; mret false
  | Ok files =>
      each_file (fun file =>
        match ImageRoot.read file with
        | Ok contents => parse file contents
        | Err e => log Error file 0 (UnreadableImport file e)
        end) (sort_files files);;
      mret true
  end.

Definition parse_config_with (path : str) : PM bool :=
  if negb has_image then log Error path 0 NoImage;; mret false else
  if ImageRoot.is_dir path then parse_config_dir path else
  match ImageRoot.read path with
  | Ok contents => parse path contents;; mret true
  | Err e => log Warning path 0 (UnreadableConfig path e);; mret false
  end.

(** [end_file]: the imports of the file that was just parsed. *)
Definition end_file_with : PM unit :=
  imports ← gets pr_pending_imports;
  modify (fun p => mkParser (pr_scripts p) []);;
  each_file (fun import => _ ← parse_config_with import.1; mret tt) imports.
End config.

(** [parse_data], with the depth of nested imports as fuel. *)
Fixpoint parse_data (depth : nat) (filename : str) (contents : list byte) : PM unit :=
  match depth with
  | O => spin
  | S depth =>
      parse_sections filename contents;;
      end_file_with (parse_data depth)
  end.

Definition parse_config (depth : nat) (path : str) : PM bool := parse_config_with (parse_data depth) path.

Definition parse_config_file (depth : nat) (path : str) : PM (result unit (option IoError)) :=
  if negb has_image then mret (Err None) else
  match ImageRoot.read path with
  | Err e => mret (Err (Some e))
  | Ok contents => parse_data depth path contents;; mret (Ok tt)
  end.

End parser.
