(* ===== verification/Scripts.v ===== *)
(** What the parser of scripts keeps: it does not panic but for the sums of
    [rc/ids.rs], its services and actions are well formed whatever bytes the
    files hold, it ends when the imports do, and it reads the files in the order
    of a depth-first walk over the imports. *)

From Stdlib Require Import ZArith Lia.
From Stdlib Require Import Strings.String Strings.Byte.
From stdpp Require Import base numbers list sets gmap.
From S2P Require Import Prelude Text Bytes Libbase Info Expand Builtins Actions.
From S2P Require Import Ids RcService Options Image Tokenizer Script.

Open Scope Z_scope.
Open Scope binder_scope.

(** ** Triggers *)

Lemma bt_insert_nonempty {V} key (value : V) m : bt_insert key value m <> [].
Proof. destruct m as [|[k v] m]; cbn; [done|]. by repeat case_match. Qed.

Lemma add_trigger_some level arg event properties event' properties' : arg <> [] ->
  add_trigger level arg event properties = Ok (event', properties') -> event' <> [] \/ properties' <> [].
Proof.
  intros Harg. unfold add_trigger. repeat (case_match; try done); intros [= <- <-]; [right; apply bt_insert_nonempty|by left].
Qed.

Lemma triggers_loop_some level index args event properties event' properties' :
  (event <> [] \/ properties <> [] \/ (args <> [] /\ Nat.odd index = false)) ->
  triggers_loop level index args event properties = Ok (event', properties') -> event' <> [] \/ properties' <> [].
Proof.
  revert index event properties. induction args as [|arg args IH]; intros index event properties Hsome; cbn [triggers_loop].
  { intros [= <- <-]. naive_solver. }
  case_bool_decide as Harg; [done|]. destruct (Nat.odd index) eqn:Hodd.
  - destruct (negb _); [done|]. apply IH. naive_solver.
  - destruct (add_trigger _ _ _ _) as [[e p]|] eqn:Ha; [|done]. apply IH. apply add_trigger_some in Ha; [naive_solver|done].
Qed.

(** ** Lines do not matter to the tokens *)

Definition same_text (t t' : Tokenizer) : Prop :=
  tk_data t' = tk_data t /\ tk_ptr t' = tk_ptr t /\ tk_next_newline t' = tk_next_newline t.

Definition forget_line (e : Ended) : Ended :=
  match e with Unterminated x _ => Unterminated x 0 | Ended_at x text _ newline => Ended_at x text 0 newline end.

Lemma token_text_line data n x text line line' e : token_text data n x text line = Done e ->
  exists e', token_text data n x text line' = Done e' /\ forget_line e' = forget_line e.
Proof.
  revert x text line line'. induction n as [|n IH]; intros x text line line'; [done|]. cbn [token_text]. unfold continue_line.
  repeat match goal with |- context [if ?b then _ else _] => destruct b end;
    try (intros [= <-]; by eexists); try apply IH.
  - destruct (quoted _ _ _ _) as [[y [closed|]]| |]; cbn [mbind outcome_bind]; try done; [apply IH|intros [= <-]; by eexists].
  - destruct (blanks_end _ _ _) as [y| |]; cbn [mbind outcome_bind]; try done; apply IH.
  - destruct (blanks_end _ _ _) as [y| |]; cbn [mbind outcome_bind]; try done; apply IH.
Qed.

Lemma next_token_line t t' token t1 : same_text t t' -> next_token t = Done (token, t1) ->
  exists t1', next_token t' = Done (token, t1') /\ same_text t1 t1'.
Proof.
  destruct t as [data ptr line nl], t' as [data' ptr' line' nl']. intros (Hd & Hp & Hn). cbn in Hd, Hp, Hn. subst.
  unfold next_token, mbind, M_bind, get, call. cbn [tk_next_newline tk_data tk_ptr tk_line].
  destruct nl; [intros [= <- <-]; by eexists|]. destruct (token_start _ _ _) as [[]| |]; try done; [intros [= <- <-]; by eexists..|].
  destruct (token_text data (fuel data) x [] line) as [e| |] eqn:He; try done. destruct (token_text_line _ _ _ _ _ line' _ He) as (e' & -> & Hf).
  destruct e, e'; try done; cbn in Hf; injection Hf as -> ; subst; intros [= <- <-]; by eexists.
Qed.

(** ** Words hold no NULs *)

Lemma no_nul_snoc text b : no_nul text -> b <> x00 -> no_nul (text ++ [b]).
Proof. unfold no_nul. rewrite elem_of_app, list_elem_of_singleton. naive_solver. Qed.

Lemma quoted_clean data n x text y closed : no_nul text -> quoted data n x text = Done (y, Some closed) -> no_nul closed.
Proof.
  revert x text. induction n as [|n IH]; intros x text Ht; [done|]. cbn [quoted].
  destruct (bool_decide (byte_at data x = x00)) eqn:Hz; [done|]. destruct (bool_decide (byte_at data x = x22)); [intros ?; by simplify_eq|].
  apply IH, no_nul_snoc; [done|]. by apply bool_decide_eq_false_1 in Hz.
Qed.

Lemma token_text_clean data n x text line y text' line' newline : no_nul text ->
  token_text data n x text line = Done (Ended_at y text' line' newline) -> no_nul text'.
Proof.
  revert x text line. induction n as [|n IH]; intros x text line Ht; [done|]. cbn [token_text]. unfold continue_line.
  repeat match goal with |- context [if ?b then _ else _] => destruct b eqn:? end;
    repeat match goal with Hb : bool_decide _ = false |- _ => apply bool_decide_eq_false_1 in Hb end;
    try (by intros [= _ <- _ _]); try (apply IH; (done || by apply no_nul_snoc)).
  - destruct (quoted _ _ _ _) as [[z [closed|]]| |] eqn:Hq; cbn [mbind outcome_bind]; try done. apply IH. by eapply quoted_clean.
  - destruct (blanks_end _ _ _) as [z| |]; cbn [mbind outcome_bind]; try done. by apply IH.
  - destruct (blanks_end _ _ _) as [z| |]; cbn [mbind outcome_bind]; try done. by apply IH.
Qed.

Lemma next_token_clean t word t1 : next_token t = Done (Text word, t1) -> no_nul word.
Proof.
  unfold next_token, mbind, M_bind, get, call. destruct (tk_next_newline t); [done|]. destruct (token_start _ _ _) as [[]| |]; try done.
  destruct (token_text _ _ _ _ _) as [[]| |] eqn:He; try done. intros [= <- _]. apply from_utf8_lossy_no_nul. eapply token_text_clean, He. apply not_elem_of_nil.
Qed.

Lemma strip_prefix_clean p s rest : strip_prefix p s = Some rest -> no_nul s -> no_nul rest.
Proof.
  unfold strip_prefix. destruct (starts_with p s); [|done]. intros [= <-] Hs Hin. apply Hs. rewrite <- (take_drop (length p) s). apply elem_of_app. by right.
Qed.

Lemma bt_insert_keys {V} (G : str -> Prop) key (value : V) m : G key -> Forall (fun p => G p.1) m -> Forall (fun p => G p.1) (bt_insert key value m).
Proof.
  intros Hk. induction 1 as [|[k v] m Hkv Hm IH]; cbn [bt_insert]; [by constructor|]. repeat case_match; repeat constructor; done.
Qed.

Lemma triggers_loop_clean level index args event properties event' properties' : Forall no_nul args -> Forall (fun p => no_nul p.1) properties ->
  triggers_loop level index args event properties = Ok (event', properties') -> Forall (fun p => no_nul p.1) properties'.
Proof.
  intros Hargs. revert index event properties. induction Hargs as [|arg args Harg _ IH]; intros index event properties Hp; cbn [triggers_loop].
  { by intros [= _ <-]. }
  destruct (bool_decide _); [done|]. destruct (Nat.odd index); [destruct (negb _); [done|by apply IH]|].
  unfold add_trigger. destruct (strip_prefix _ arg) as [property|] eqn:Hs.
  - apply strip_prefix_clean in Hs; [|done]. destruct (find_byte _ _) as [equal|]; [|done]. destruct (bool_decide _); [done|].
    apply IH, bt_insert_keys; [|done]. intros Hin. apply Hs. rewrite <- (take_drop equal property). apply elem_of_app. by left.
  - destruct (negb _); [done|]. destruct (_ && _); [done|]. by apply IH.
Qed.

Section parser.
Context `{Env} `{HostFs} `{PropertyLookup P} (env : ParseEnv P).
Context (kind : SectionKind) (has_image : bool) (vendor_apexes : list str).
Hypothesis lookups : forall name, exists value, property (en_properties env) name = Done value.
Abbreviation E := (overflow_checks = true).

(** ** Well-formed scripts *)

Definition triggered (a : Action) : Prop := ac_event_trigger a <> [] \/ ac_property_triggers a <> [].

Definition clean (a : Action) : Prop :=
  Forall (fun c => Forall no_nul (cs_args c)) (ac_commands a) /\ Forall (fun p => no_nul p.1) (ac_property_triggers a).

Definition action_ok (a : Action) : Prop := ac_commands a <> [] /\ Forall spec_ok (ac_commands a) /\ triggered a /\ clean a.

Definition is_parse_error (d : Diagnostic) : bool := match dg_message d with ParseFailed _ => true | _ => false end.

Definition scripts_ok (s : ParsedScripts) : Prop :=
  NoDup (sv_name <$> sc_services s) /\ Forall service_ok (sc_services s) /\ Forall action_ok (sc_actions s) /\
  sc_parse_error_count s = zlen (List.filter is_parse_error (sc_diagnostics s)).

Definition section_ok (section : Section_) : Prop :=
  match section with
  | InService service => service_ok service
  | InAction action => Forall spec_ok (ac_commands action) /\ triggered action /\ clean action
  | InImport => True
  end.

(** What parsing only adds to: the files and the actions; and no service goes. *)
Definition grows (s s' : ParsedScripts) : Prop :=
  sc_files s `prefix_of` sc_files s' /\ sc_actions s `prefix_of` sc_actions s' /\ sc_diagnostics s `prefix_of` sc_diagnostics s' /\
  (sv_name <$> sc_services s) ⊆ (sv_name <$> sc_services s').

#[export] Instance grows_preorder : PreOrder grows.
Proof.
  split; [intros s; by split_and!|]. intros s1 s2 s3 (? & ? & ? & ?) (? & ? & ? & ?). split_and!; by etrans.
Qed.

(** The scripts stay well formed and grow; [pending] holds of the imports. *)
Definition runs {X} (m : M Parser X) (Q : Parser -> X -> Parser -> Prop) : Prop :=
  forall p, scripts_ok (pr_scripts p) ->
  wp E m (fun x p' => scripts_ok (pr_scripts p') /\ grows (pr_scripts p) (pr_scripts p') /\ Q p x p') p.

(** The list of files stays, and [imports] wait to be read. *)
Definition adds {X} (imports : list str) (Q : X -> Prop) (p : Parser) (x : X) (p' : Parser) : Prop :=
  (pr_pending_imports p').*1 = (pr_pending_imports p).*1 ++ imports /\ sc_files (pr_scripts p') = sc_files (pr_scripts p) /\ Q x.
Abbreviation quiet Q := (adds [] Q).

Lemma runs_ret {X} (x : X) (Q : X -> Prop) : Q x -> runs (mret x) (quiet Q).
Proof. intros Hx p Hp. apply wp_ret. split_and!; [done..|]. split_and!; [by rewrite app_nil_r|done..]. Qed.

Lemma runs_bind {X Y} (m : M Parser X) (f : X -> M Parser Y) l1 l2 (Q : X -> Prop) (R : Y -> Prop) :
  runs m (adds l1 Q) -> (forall x, Q x -> runs (f x) (adds l2 R)) -> runs (m ≫= f) (adds (l1 ++ l2) R).
Proof.
  intros Hm Hf p Hp. apply wp_bind. eapply wp_mono; [by apply Hm|]. cbv beta. intros x p1 (Hok1 & Hg1 & Hpend & Hfiles & Hx).
  eapply wp_mono; [by apply (Hf x Hx)|]. cbv beta. intros y p2 (Hok2 & Hg2 & Hpend2 & Hfiles2 & Hy).
  split_and!; [done|by etrans|]. split_and!; [by rewrite Hpend2, Hpend, app_assoc|congruence|done].
Qed.

Lemma runs_mono {X} (m : M Parser X) l (Q R : X -> Prop) : runs m (adds l Q) -> (forall x, Q x -> R x) -> runs m (adds l R).
Proof.
  intros Hm HQR p Hp. eapply wp_mono; [by apply Hm|]. cbv beta. intros x p1 (? & ? & ? & ? & Hx). split_and!; [done..|]. split_and!; auto.
Qed.

Lemma runs_then {X Y} (m : M Parser X) (f : X -> M Parser Y) l (Q : X -> Prop) (R : Y -> Prop) :
  runs m (quiet Q) -> (forall x, Q x -> runs (f x) (adds l R)) -> runs (m ≫= f) (adds l R).
Proof. apply (runs_bind m f [] l). Qed.

Lemma runs_ends {X Y} (o : outcome X) (f : X -> M Parser Y) l (Q : X -> Prop) (R : Y -> Prop) :
  ends E o Q -> (forall x, Q x -> runs (f x) (adds l R)) -> runs (call o ≫= f) (adds l R).
Proof.
  intros Ho. apply runs_then. intros p Hp. apply wp_ends. eapply ends_mono; [done|]. intros x Hx.
  split_and!; [done..|]. split_and!; [by rewrite app_nil_r|done..].
Qed.

Lemma runs_gets {X Y} (f : Parser -> X) (g : X -> M Parser Y) l (R : Y -> Prop) :
  (forall x, runs (g x) (adds l R)) -> runs (gets f ≫= g) (adds l R).
Proof. intros Hg p Hp. apply wp_bind, wp_gets. by apply Hg. Qed.

(** ** Diagnostics *)

Lemma parse_errors_snoc l d : zlen (List.filter is_parse_error (l ++ [d])) =
  zlen (List.filter is_parse_error l) + if is_parse_error d then 1 else 0.
Proof. unfold zlen. rewrite List.filter_app, length_app. cbn. destruct (is_parse_error d); cbn; lia. Qed.

Lemma log_runs severity file line message : is_parse_error (mkDiagnostic severity file line message) = false ->
  runs (log severity file line message) (quiet (fun _ => True)).
Proof.
  intros Hm p (Hnd & Hsv & Hac & Hcount). unfold log, alter_scripts. wp_step. split; [split_and!; try done|split; [|split_and!; [by rewrite app_nil_r|done..]]].
  - refine (eq_trans Hcount (eq_sym (eq_trans (parse_errors_snoc _ _) _))). rewrite Hm. lia.
  - split_and!; try done. by apply prefix_app_r.
Qed.

Lemma error_runs file line e : runs (error file line e) (quiet (fun _ => True)).
Proof.
  intros p (Hnd & Hsv & Hac & Hcount). unfold error, log, alter_scripts. repeat wp_step. split; [split_and!; try done|split; [|split_and!; [by rewrite app_nil_r|done..]]].
  - refine (eq_sym (eq_trans (parse_errors_snoc _ _) _)). cbn [is_parse_error dg_message pr_scripts sc_parse_error_count sc_diagnostics]. lia.
  - split_and!; try done. by apply prefix_app_r.
Qed.

(** ** Sections *)

(** The path a line imports. *)
Definition import_of (args : list str) : list str :=
  match args with
  | [keyword; path] =>
      if bool_decide (keyword = lit "import") && match kind with Boot => true | Apex => false end then
        match expand env path with Done (Ok path) => [path] | _ => [] end
      else []
  | _ => []
  end.

Definition result_ok {X Err} (Q : X -> Prop) (r : result X Err) : Prop := match r with Ok x => Q x | _ => True end.

Lemma begin_section_runs args filename line : (forall keyword, head args = Some keyword -> is_section_keyword kind keyword = true) -> args <> [] -> Forall no_nul args ->
  runs (begin_section env vendor_apexes args filename line) (adds (import_of args) (result_ok section_ok)).
Proof.
  intros Hkey Hne Hclean. destruct args as [|keyword args]; [done|]. specialize (Hkey _ eq_refl). unfold begin_section.
  apply (runs_ends _ _ _ (fun x => x = keyword)); [done|]. intros ? ->.
  unfold is_section_keyword in Hkey.
  case_bool_decide as Hservice; [|case_bool_decide as Hon].
  - assert (import_of (keyword :: args) = []) as -> by (by subst; destruct args as [|? []]).
    destruct (begin_service_ok env (keyword :: args) filename line (path_in_vendor_subcontext env vendor_apexes filename)) as (r & -> & Hr); [cbn; lia|].
    apply (runs_ends _ _ _ (eq r)); [done|]. intros ? <-. apply runs_ret. destruct r as [s|e]; [|done]. by apply Hr.
  - assert (import_of (keyword :: args) = []) as -> by (by subst; destruct args as [|? []]).
    apply (runs_ends _ _ _ (eq args)); [by apply ends_args_from; [cbn; lia|]|]. intros ? <-.
    destruct (bool_decide (args = [])) eqn:Hargs; [by apply runs_ret|]. apply bool_decide_eq_false_1 in Hargs.
    destruct (starts_with _ _ && _); [by apply runs_ret|]. apply runs_ret.
    destruct (parse_triggers _ args) as [[event properties]|] eqn:Ht; [|done]. split; [constructor|].
    split; [eapply triggers_loop_some; [|exact Ht]; by right; right|]. split; [constructor|].
    eapply triggers_loop_clean; [|constructor|exact Ht]. by apply list.Forall_cons in Hclean as [_ ?].
  - cbn [orb] in Hkey. apply andb_true_iff in Hkey as [Himp Hk]. destruct (Nat.eqb_spec (length (keyword :: args)) 2) as [Hlen|Hlen]; cycle 1.
    { assert (import_of (keyword :: args) = []) as -> by (by destruct args as [|? []]; cbn in Hlen). by apply runs_ret. }
    destruct args as [|path [|]]; [done| |done]. cbn [negb]. apply (runs_ends _ _ _ (eq path)); [done|]. intros ? <-.
    cbn [import_of]. rewrite Himp, Hk. cbn [andb]. destruct (expand_total env lookups path) as [r ->].
    apply (runs_ends _ _ _ (eq r)); [done|]. intros ? <-. destruct r as [q|e]; [|by apply runs_ret].
    intros p Hp. repeat wp_step. split_and!; [done..|]. split_and!; [|done..].
    cbn [pr_pending_imports]. by rewrite fmap_app.
Qed.

Lemma parse_line_runs section args line : section_ok section -> Forall no_nul args ->
  runs (parse_line env section args line) (quiet (fun r => section_ok r.1)).
Proof.
  intros Hs Hclean. destruct section as [service|action|]; cbn [parse_line]; [|apply runs_ret|by apply runs_ret].
  - apply runs_gets. intros services. apply (runs_ends _ _ _ (fun r => service_ok r.2)).
    + pose proof (parse_option_keeps env lookups args line services service service) as Hk. unfold wpx in Hk.
      assert (kept service service) as Hself by (split; [done|by split_and!]). specialize (Hk Hself). unfold ends.
      by destruct (parse_option _ _ _ _ _) as [[o s']| |]; [destruct Hk| |].
    + intros [o s'] Hs'. destruct o; [by apply runs_ret| |by apply runs_ret].
      apply (runs_then _ _ _ (fun _ => True)); [by apply log_runs|]. intros _ _. by apply runs_ret.
  - destruct (CommandSpec_parse args line) as [c|e] eqn:Hc; [|done]. destruct Hs as (Hcs & Ht & Hcl & Htr). split_and!; [|done|split; [|done]].
    + apply Forall_app. split; [done|]. apply list.Forall_singleton. by eapply spec_parsed.
    + apply Forall_app. split; [done|]. apply list.Forall_singleton. revert Hc. unfold CommandSpec_parse.
      destruct (find_keyword _ _) as [[? ?]|]; [|done]. by intros [= <-].
Qed.

Lemma remove_nth_perm {A} i (l : list A) x : l !! i = Some x -> l ≡ₚ x :: remove_nth i l.
Proof. intros Hi. unfold remove_nth. rewrite <- (take_drop_middle l i x Hi) at 1. by rewrite Permutation_middle. Qed.

Lemma set_services_runs service rest p :
  scripts_ok (pr_scripts p) -> service_ok service -> sv_name service ∉ sv_name <$> rest ->
  (rest = sc_services (pr_scripts p) \/ exists old, sv_name old = sv_name service /\ sc_services (pr_scripts p) ≡ₚ old :: rest) ->
  wp E (set_services (rest ++ [service]))
    (fun _ p' => scripts_ok (pr_scripts p') /\ grows (pr_scripts p) (pr_scripts p') /\ quiet (fun _ => True) p tt p') p.
Proof.
  intros (Hnd & Hsv & Hac & Hcount) Hs Hnew Hrest. unfold set_services, alter_scripts. wp_step.
  assert (NoDup (sv_name <$> rest) /\ Forall service_ok rest) as [Hnd' Hsv'].
  { destruct Hrest as [->|(old & _ & Hperm)]; [done|]. rewrite Hperm in Hnd, Hsv. apply NoDup_cons in Hnd as [_ ?]. by apply list.Forall_cons in Hsv as [_ ?]. }
  split; [split_and!; cbn [pr_scripts sc_services]|split; [split_and!; cbn [pr_scripts sc_services]|split_and!; [by rewrite app_nil_r|done..]]]; try done.
  - rewrite fmap_app. apply NoDup_app. split_and!; [done| |by apply NoDup_singleton]. intros x Hx Hx'%list_elem_of_singleton. by subst.
  - apply Forall_app. split; [done|by apply list.Forall_singleton].
  - intros x. rewrite fmap_app. destruct Hrest as [->|(old & Ho & Hperm)]; [set_solver|]. rewrite Hperm. cbn. set_solver.
Qed.

Lemma end_service_runs service filename line : service_ok service ->
  runs (end_service env service filename line) (quiet (fun _ => True)).
Proof.
  intros Hs. unfold end_service. destruct (end_checks_total env lookups service) as [r ->].
  apply (runs_ends _ _ _ (eq r)); [done|]. intros ? <-. destruct r as [warning|e]; [|by apply runs_ret].
  apply (runs_then _ _ _ (fun _ => True)); [destruct warning; [by apply log_runs|by apply runs_ret]|]. intros _ _ p Hp.
  apply wp_bind, wp_gets. pose proof Hp as (Hnd & _).
  destruct (position _ _) as [index|] eqn:Hpos; cycle 1.
  - wp_step. eapply wp_mono; [eapply set_services_runs; [done|done| |by left]|by intros]. 
    intros (old & Hname & Hold)%list_elem_of_fmap. unfold position in Hpos.
    destruct (list_find _ _) as [|] eqn:Hf; [done|]. apply list_find_None in Hf. rewrite list.Forall_forall in Hf.
    apply (Hf old); [done|]. by apply bool_decide_eq_true_2.
  - apply position_found in Hpos as (old & Hold & Hname). apply bool_decide_eq_true_1 in Hname.
    destruct (negb (sv_is_override service)); [by apply runs_ret|]. rewrite Hold. wp_step.
    apply wp_ends, ends_done. destruct (_ && _); [by apply runs_ret|]. destruct (negb _); [by apply runs_ret|].
    apply remove_nth_perm in Hold as Hperm. wp_step. eapply wp_mono; [eapply set_services_runs; [done|done| |right; by exists old]|by intros].
    rewrite Hperm in Hnd. cbn in Hnd. apply NoDup_cons in Hnd as [Hnot _]. by rewrite Hname in Hnot.
Qed.

Definition loop_ok (l : Loop) : Prop :=
  match lp_section l with Some section => section_ok section | None => True end /\ Forall no_nul (lp_args l).

Lemma end_section_runs filename line section : (forall s, section = Some s -> section_ok s) ->
  runs (end_section env filename line section) (quiet (fun _ => True)).
Proof.
  intros Hs. destruct section as [[service|action|]|]; cbn [end_section]; [..|by apply runs_ret|by apply runs_ret]; specialize (Hs _ eq_refl).
  - apply (runs_then _ _ _ (fun _ => True)); [by apply end_service_runs|]. intros [] _; [by apply runs_ret|apply error_runs].
  - case_bool_decide as Hempty; [by apply runs_ret|]. intros p (Hnd & Hsv & Hac & Hcount). unfold alter_scripts. wp_step.
    split; [|split; [|split_and!; [by rewrite app_nil_r|done..]]].
    + split_and!; try done. apply Forall_app. split; [done|]. apply list.Forall_singleton. destruct Hs as (? & ? & ? & ?). split_and!; try done.
      intros Hc. by rewrite Hc in Hempty.
    + split_and!; try done. by apply prefix_app_r.
Qed.

Lemma end_line_runs filename line l : loop_ok l -> lp_args l <> [] ->
  runs (end_line env kind vendor_apexes filename line l) (adds (import_of (lp_args l)) (fun l' => loop_ok l' /\ lp_args l' = [])).
Proof.
  intros [Hl Hclean] Hne. unfold end_line. destruct (lp_args l) as [|keyword args] eqn:Hargs; [done|].
  apply (runs_ends _ _ _ (eq keyword)); [done|]. intros ? <-. destruct (is_section_keyword kind keyword) eqn:Hkey.
  - apply (runs_then _ _ _ (fun _ => True)).
    { apply end_section_runs. intros s Hs. by rewrite Hs in Hl. }
    intros _ _. rewrite <- (app_nil_r (import_of _)). eapply runs_bind.
    { apply begin_section_runs; [|done..]. by intros k [= <-]. }
    intros [section|e] Hsec; [apply runs_ret; by repeat constructor|].
    apply (runs_then _ _ _ (fun _ => True)); [apply error_runs|]. intros _ _. apply runs_ret. by repeat constructor.
  - assert (import_of (keyword :: args) = []) as ->.
    { cbn [import_of]. destruct args as [|path []]; try done. unfold is_section_keyword in Hkey. apply orb_false_iff in Hkey as [_ Hkey]. by rewrite Hkey. }
    destruct (lp_section l) as [current|].
    + apply (runs_then _ _ _ (fun r => section_ok r.1)); [by apply parse_line_runs|]. intros [current' r] Hcur.
      apply (runs_then _ _ _ (fun _ => True)); [destruct r; [by apply runs_ret|apply error_runs]|]. intros _ _. apply runs_ret. by repeat constructor.
    + apply (runs_then _ _ _ (fun _ => True)); [destruct (negb _); [apply error_runs|by apply runs_ret]|]. intros _ _. apply runs_ret. by repeat constructor.
Qed.

(** ** One file *)

(** The paths that the lines of a file import. *)
Fixpoint import_lines (ts : list Token) (words : list str) : list str :=
  match ts with
  | Text word :: ts => import_lines ts (words ++ [word])
  | Newline :: ts => import_of words ++ import_lines ts []
  | _ => []
  end.
Definition file_imports (contents : list byte) : list str :=
  match tokenize contents with Done ts => import_lines ts [] | _ => [] end.

Lemma parse_loop_runs n filename t t0 l ts t0' : tokens n t0 = Done (ts, t0') -> same_text t0 t -> loop_ok l ->
  runs (parse_loop env kind vendor_apexes n filename t l) (adds (import_lines ts (lp_args l)) loop_ok).
Proof.
  revert t t0 l ts. induction n as [|n IH]; intros t t0 l ts Ht Hsame Hl; [done|]. cbn [tokens parse_loop] in *.
  unfold mbind at 1, M_bind in Ht. destruct (next_token t0) as [[token t1]| |] eqn:Hn; try done.
  destruct (next_token_line _ _ _ _ Hsame Hn) as (t1' & Hn' & Hsame'). rewrite Hn'.
  apply (runs_ends _ _ _ (eq (token, t1'))); [done|]. intros ? <-.
  destruct token as [|text|]; [by injection Ht as <- <-; apply runs_ret|..];
    unfold mbind, M_bind in Ht; destruct (tokens n t1) as [[rest t2]| |] eqn:Hr; try done; injection Ht as <- <-; cbn [import_lines].
  - eapply (IH _ t1 (mkLoop _ _ _ _)); [done|done|]. destruct Hl as [? ?]. split; [done|]. cbn [lp_args].
    apply Forall_app. split; [done|]. apply list.Forall_singleton. by eapply next_token_clean.
  - cbv zeta. case_bool_decide as Hargs; [rewrite Hargs; cbn [import_of app]; rewrite <- Hargs; by eapply IH|].
    eapply runs_bind; [by apply end_line_runs|]. intros l' [Hl' Hempty]. rewrite <- Hempty. by eapply IH.
Qed.

Lemma tokenize_total contents : exists ts t, tokens (2 * length contents + 5) (Tokenizer_new contents) = Done (ts, t).
Proof.
  apply tokens_end; unfold tokenizer_ok, tokens_left; cbn [Tokenizer_new tk_data tk_ptr tk_next_newline]; rewrite ?length_app; cbn; lia.
Qed.

Lemma parse_sections_ok filename contents p : scripts_ok (pr_scripts p) -> pr_pending_imports p = [] ->
  wp E (parse_sections env kind vendor_apexes filename contents)
    (fun _ p' => scripts_ok (pr_scripts p') /\ grows (pr_scripts p) (pr_scripts p') /\
      (pr_pending_imports p').*1 = file_imports contents /\ sc_files (pr_scripts p') = sc_files (pr_scripts p) ++ [filename]) p.
Proof.
  intros (Hnd & Hsv & Hac & Hcount) Hpend. unfold parse_sections, alter_scripts. do 2 wp_step.
  destruct (tokenize_total contents) as (ts & t & Ht).
  assert (file_imports contents = import_lines ts []) as -> by (unfold file_imports, tokenize; by rewrite Ht).
  set (p1 := mkParser _ _).
  assert (runs (l ← parse_loop env kind vendor_apexes (2 * length contents + 5) filename (Tokenizer_new contents) (mkLoop None 0 false []);
                end_section env filename (lp_start l) (lp_section l)) (adds (import_lines ts [] ++ []) (fun _ => True))) as Hruns.
  { eapply runs_bind; [eapply parse_loop_runs; [done|done|by repeat constructor]|]. intros l [Hl _]. apply end_section_runs. intros s Hs. by rewrite Hs in Hl. }
  eapply wp_mono; [apply Hruns; by split_and!|]. cbv beta. intros _ p' (Hok & Hg & Hp & Hf & _).
  split_and!; [done| |unfold p1 in Hp; cbn [pr_pending_imports] in Hp; by rewrite Hp, Hpend, app_nil_r|done].
  etrans; [|done]. split_and!; try done. by apply prefix_app_r.
Qed.

(** ** Imports *)

(** The files that a path names. *)
Definition load (path : str) : list (str * list byte) :=
  if negb has_image then [] else
  let contents (file : str) : option (str * list byte) :=
    match ImageRoot.read file with Ok contents => Some (file, contents) | Err _ => None end in
  if ImageRoot.is_dir path then
    match ImageRoot.regular_files path with Ok files => omap contents (sort_files files) | Err _ => [] end
  else match contents path with Some file => [file] | None => [] end.

Definition imported (contents : list byte) : list (str * list byte) := file_imports contents ≫= load.

(** The walk over the imports, and that it is not deeper than [depth]. *)
Fixpoint visit (depth : nat) (file : str * list byte) : list str :=
  match depth with
  | O => []
  | S depth => file.1 :: (imported file.2 ≫= visit depth)
  end.
Fixpoint shallow (depth : nat) (file : str * list byte) : Prop :=
  match depth with
  | O => False
  | S depth => Forall (shallow depth) (imported file.2)
  end.

Definition ready (p : Parser) : Prop := scripts_ok (pr_scripts p) /\ pr_pending_imports p = [].
Definition reads_files (files : list str) (p p' : Parser) : Prop :=
  ready p' /\ grows (pr_scripts p) (pr_scripts p') /\ sc_files (pr_scripts p') = sc_files (pr_scripts p) ++ files.

(** [m] reads [files], and ends only if [G] holds, which it does if [m] spins. *)
Definition walks {X} (m : M Parser X) (G : Prop) (files : list str) : Prop :=
  forall p, ready p -> wpx E (~ G) m (fun _ p' => reads_files files p p' /\ G) p.

Lemma walks_ret {X} (x : X) : walks (mret x) True [].
Proof. intros p Hp. apply wp_ret. split; [|done]. split_and!; [done..|by rewrite app_nil_r]. Qed.

Lemma walks_bind {X Y} (m : M Parser X) (f : X -> M Parser Y) G1 G2 l1 l2 :
  walks m G1 l1 -> (forall x, walks (f x) G2 l2) -> walks (m ≫= f) (G1 /\ G2) (l1 ++ l2).
Proof.
  intros Hm Hf p Hp. apply wp_bind. eapply wp_weaken; [by apply Hm|done|tauto|]. cbv beta. intros x p1 [(Hr1 & Hg1 & Hf1) HG1].
  eapply wp_weaken; [by apply (Hf x)|done|tauto|]. cbv beta. intros y p2 [(Hr2 & Hg2 & Hf2) HG2].
  split; [|done]. split_and!; [apply Hr2..|by etrans|by rewrite Hf2, Hf1, app_assoc].
Qed.

Lemma walks_iff {X} (m : M Parser X) (G G' : Prop) l l' : walks m G l -> (G <-> G') -> l = l' -> walks m G' l'.
Proof. intros Hm HG <- p Hp. eapply wp_weaken; [by apply Hm|done|tauto|]. cbv beta. tauto. Qed.

Lemma walks_then {X Y} (m : M Parser X) (y : Y) G l : walks m G l -> walks (m;; mret y) G l.
Proof. intros Hm. eapply walks_iff; [by eapply walks_bind; [|intros; apply walks_ret]|tauto|by rewrite app_nil_r]. Qed.

Lemma walks_each {A} (f : A -> M Parser unit) (G : A -> Prop) (files : A -> list str) l :
  (forall x, walks (f x) (G x) (files x)) -> walks (each_file f l) (Forall G l) (l ≫= files).
Proof.
  intros Hf. induction l as [|x l IH]; cbn [each_file].
  - eapply walks_iff; [apply walks_ret| |done]. split; [constructor|done].
  - eapply walks_iff; [eapply walks_bind; [apply Hf|intros; apply IH]| |done]. by rewrite list.Forall_cons.
Qed.

Lemma walks_log severity file line message : is_parse_error (mkDiagnostic severity file line message) = false ->
  walks (log severity file line message) True [].
Proof.
  intros Hm p [Hok Hp]. eapply wp_weaken; [by apply log_runs|done|done|]. cbv beta. intros x p' (? & ? & Hp' & ? & _). split; [|done].
  split_and!; [split; [done|]|done|by rewrite app_nil_r]. rewrite Hp in Hp'. by destruct (pr_pending_imports p').
Qed.

(** A path, with [parse] for the contents of its files. *)
Lemma walks_config parse G files path : (forall file contents, walks (parse file contents) (G (file, contents)) (files (file, contents))) ->
  walks (parse_config_with has_image parse path) (Forall G (load path)) (load path ≫= files).
Proof.
  intros Hparse. unfold parse_config_with, parse_config_dir, load. destruct (negb has_image) eqn:Him.
  { eapply walks_iff; [apply walks_then; by apply walks_log| |done]. split; [constructor|done]. }
  destruct (ImageRoot.is_dir path).
  - destruct (ImageRoot.regular_files path) as [dir|e]; cycle 1.
    { eapply walks_iff; [apply walks_then; by apply walks_log| |done]. split; [constructor|done]. }
    apply walks_then. induction (sort_files dir) as [|file l IH]; cbn [each_file omap list_omap].
    + eapply walks_iff; [apply walks_ret| |done]. split; [constructor|done].
    + destruct (ImageRoot.read file) as [contents|e].
      * eapply walks_iff; [eapply walks_bind; [apply Hparse|intros; apply IH]| |done]. by rewrite list.Forall_cons.
      * eapply walks_iff; [eapply walks_bind; [by apply walks_log|intros; apply IH]| |done]. tauto.
  - destruct (ImageRoot.read path) as [contents|e].
    + eapply walks_iff; [apply walks_then, Hparse| |]; [by rewrite list.Forall_singleton|]. cbn. by rewrite app_nil_r.
    + eapply walks_iff; [apply walks_then; by apply walks_log| |done]. split; [constructor|done].
Qed.

Lemma Forall_load (G : str * list byte -> Prop) (l : list (str * Z)) :
  Forall G (l.*1 ≫= load) <-> Forall (fun import => Forall G (load import.1)) l.
Proof. induction l as [|x l IH]; cbn; [by split; constructor|]. by rewrite Forall_app, list.Forall_cons, IH. Qed.

Lemma visit_load depth (l : list (str * Z)) : (l.*1 ≫= load) ≫= visit depth = l ≫= fun import => load import.1 ≫= visit depth.
Proof. induction l as [|x l IH]; [done|]. cbn. by rewrite bind_app, IH. Qed.

Lemma walks_data depth filename contents :
  walks (parse_data env kind has_image vendor_apexes depth filename contents) (shallow depth (filename, contents)) (visit depth (filename, contents)).
Proof.
  revert filename contents. induction depth as [|depth IH]; intros filename contents; [intros p Hp; cbn; tauto|]. cbn [parse_data shallow visit].
  intros p [Hok Hpend]. apply wp_bind. eapply wp_weaken; [by apply parse_sections_ok|done|done|]. cbv beta.
  intros _ p1 (Hok1 & Hg1 & Hpend1 & Hfiles1). unfold end_file_with. apply wp_bind, wp_gets. do 2 wp_step.
  unfold imported. cbn [fst snd]. rewrite <- Hpend1. set (l := pr_pending_imports p1). eapply wp_weaken.
  - apply (walks_each (fun import => _ ← parse_config_with has_image (parse_data env kind has_image vendor_apexes depth) import.1; mret tt)
      (fun import => Forall (shallow depth) (load import.1)) (fun import => load import.1 ≫= visit depth) l); [|by split].
    intros import. apply walks_then. by apply walks_config.
  - done.
  - by rewrite Forall_load.
  - cbv beta. intros _ p' [(Hr & Hg & Hf) HG]. rewrite Forall_load, visit_load. split; [|done].
    split_and!; [apply Hr..|by etrans|]. rewrite Hf. cbn [pr_scripts]. by rewrite Hfiles1, <- app_assoc.
Qed.

(** Without panics, the parser ends iff the imports do. *)
Lemma shallow_rank (rank : str * list byte -> nat) (G : str * list byte -> Prop) :
  (forall file file', G file -> file' ∈ imported file.2 -> G file' /\ (rank file' < rank file)%nat) ->
  forall depth file, G file -> (rank file < depth)%nat -> shallow depth file.
Proof.
  intros Hrank. induction depth as [|depth IH]; intros file HG Hd; [lia|]. cbn [shallow]. apply list.Forall_forall. intros file' Hin.
  destruct (Hrank _ _ HG Hin). apply IH; [done|lia].
Qed.

Lemma shallow_loop file : file ∈ imported file.2 -> forall depth, ~ shallow depth file.
Proof. intros Hin. induction depth as [|depth IH]; [by intros []|]. cbn [shallow]. rewrite list.Forall_forall. intros Hall. by apply IH, Hall. Qed.
End parser.

(** C20: Whatever bytes the scripts of an image hold, the parser does not panic,
    unless a sum of [rc/ids.rs] overflows where overflow is checked; it ends exactly
    if the tree of imports has an end, which it has when a rank decreases along the
    imports and has not when a file imports itself; it reads the files in the order
    of the depth-first walk; and what it keeps is well formed: services have
    distinct, valid names and options within their bounds, actions have triggers
    and commands with as many arguments as these take, every parse error is counted
    and logged once, and no file, action, diagnostic or service of before is lost. *)
Theorem scripts_parse `{Env} `{HostFs} `{PropertyLookup P} (env : ParseEnv P) kind has_image vendor_apexes :
  (forall name, exists value, property (en_properties env) name = Done value) ->
  (forall depth filename contents p, ready p ->
    wpx (overflow_checks = true) (~ shallow env kind has_image depth (filename, contents))
      (parse_data env kind has_image vendor_apexes depth filename contents)
      (fun _ p' => reads_files (visit env kind has_image depth (filename, contents)) p p' /\
        shallow env kind has_image depth (filename, contents)) p) /\
  (forall rank G, (forall file file', G file -> file' ∈ imported env kind has_image file.2 -> G file' /\ (rank file' < rank file)%nat) ->
    forall file, G file -> shallow env kind has_image (S (rank file)) file) /\
  (forall file, file ∈ imported env kind has_image file.2 -> forall depth, ~ shallow env kind has_image depth file).
Proof.
  intros Hlookups. split_and!.
  - intros depth filename contents p. by apply walks_data.
  - intros rank G Hrank file HG. apply (shallow_rank env kind has_image rank G Hrank); [done|lia].
  - apply shallow_loop.
Qed.

(** A script that imports another. *)
Definition import_b : list byte := lit "import /b.rc" ++ [x0a].
Definition boot_b : list byte := lit "on boot" ++ [x0a] ++ lit "start x" ++ [x0a].
Definition one_file : HostFs := {|
  IoError := unit;
  fs_read_link := fun _ => None;
  fs_read := fun path => if bool_decide (path = [lit "b.rc"]) then Ok boot_b else Err tt;
  fs_exists := fun path => bool_decide (path = [lit "b.rc"]);
  fs_is_dir := fun _ => false;
  fs_is_file := fun _ => false;
  fs_read_dir := fun _ => Err tt;
|}.
Definition plain_env : ParseEnv (gmap str str) := mkParseEnv ∅ 36 (mkIdResolver [] [] false).

Lemma scripts_parse_witness :
  exists p', @parse_data release_env one_file _ _ plain_env Boot true [] 2 (lit "/a.rc") import_b (mkParser no_scripts []) = Done (tt, p') /\
    @reads_files one_file [lit "/a.rc"; lit "/b.rc"] (mkParser no_scripts []) p'.
Proof.
  pose proof (proj1 (@scripts_parse release_env one_file _ _ plain_env Boot true [] (fun name => ex_intro _ _ eq_refl)) 2%nat (lit "/a.rc") import_b
    (mkParser no_scripts [])) as Hw.
  assert (@imported one_file _ _ plain_env Boot true import_b = [(lit "/b.rc", boot_b)]) as Ha by (vm_compute; reflexivity).
  assert (@imported one_file _ _ plain_env Boot true boot_b = []) as Hb by (vm_compute; reflexivity).
  cbn [shallow visit snd fst] in Hw. rewrite Ha in Hw. cbn [mbind list_bind snd fst app shallow visit] in Hw. rewrite Hb in Hw. cbn [mbind list_bind app] in Hw.
  unfold wpx in Hw. destruct (parse_data _ _ _ _ _ _ _ _) as [[[] p']| |].
  - exists p'. split; [reflexivity|]. apply Hw. split; [|reflexivity]. split_and!; (reflexivity || constructor).
  - discriminate Hw. split; [|reflexivity]. split_and!; (reflexivity || constructor).
  - destruct Hw; [split; [split_and!; (reflexivity || constructor)|reflexivity]|]. repeat constructor.
Defined.
