(* ===== verification/ScriptText.v ===== *)
(** The actions of a script and their text: a script printed from actions, with
    every word in quotes, is parsed to these actions, with their lines. *)

From Stdlib Require Import ZArith Lia.
From Stdlib Require Import Strings.String Strings.Byte.
From stdpp Require Import base numbers list sets.
From S2P Require Import Prelude Text Bytes Libbase Info InfoOrder Expand Builtins.
From S2P Require Import Actions Ids RcService Options Image Tokenizer Script Scripts.

Open Scope Z_scope.
Open Scope binder_scope.

(** ** Printing *)

Definition property_word (p : str * str) : str := lit "property:" ++ p.1 ++ lit "=" ++ p.2.

Definition trigger_words (a : Action) : list str :=
  (property_word <$> ac_property_triggers a) ++ (if bool_decide (ac_event_trigger a = []) then [] else [ac_event_trigger a]).

Fixpoint and_words (words : list str) : list str :=
  match words with
  | [] => []
  | [word] => [word]
  | word :: words => word :: lit "&&" :: and_words words
  end.

Definition action_lines (a : Action) : list (list str) := (lit "on" :: and_words (trigger_words a)) :: (cs_args <$> ac_commands a).
Definition print_actions (l : list Action) : list byte := script (l ≫= action_lines).

(** ** Actions that can be printed *)

Definition triggers_ok (level : Z) (a : Action) : Prop :=
  keys_sorted (ac_property_triggers a) /\ Forall (fun p => x3d ∉ p.1) (ac_property_triggers a) /\
  strip_prefix (lit "property:") (ac_event_trigger a) = None /\
  (ANDROID_API_R <= level -> forallb event_byte (ac_event_trigger a) = true).

(** The command of line [line], and the lines that follow. *)
Fixpoint lines_from (line : Z) (l : list CommandSpec) : Prop :=
  match l with
  | [] => True
  | c :: l => cs_line c = line /\ lines_from (line + 1) l
  end.

Fixpoint actions_from (line : Z) (l : list Action) : Prop :=
  match l with
  | [] => True
  | a :: l => ac_line a = line /\ lines_from (line + 1) (ac_commands a) /\ actions_from (line + 1 + zlen (ac_commands a)) l
  end.

Definition printable (level : Z) (filename : str) (vendor : bool) (a : Action) : Prop :=
  action_ok a /\ triggers_ok level a /\ ac_filename a = filename /\ ac_vendor_subcontext a = vendor /\
  Forall (Forall word_ok) (action_lines a).

(** ** Triggers *)

Section triggers.
Context (level : Z).

Lemma bt_get_above key (m : BTreeMap str) : Forall (fun p => bytes_lt p.1 key = true) m -> bt_get key m = None.
Proof.
  induction 1 as [|[k v] m Hk _ IH]; [done|]. cbn [bt_get]. case_bool_decide as He; [|done]. subst. cbn in Hk. by rewrite bytes_lt_irrefl in Hk.
Qed.

Lemma bt_insert_above key value (m : BTreeMap str) : Forall (fun p => bytes_lt p.1 key = true) m -> bt_insert key value m = m ++ [(key, value)].
Proof.
  induction 1 as [|[k v] m Hk _ IH]; [done|]. cbn [bt_insert]. cbn in Hk. rewrite bytes_lt_asym by done.
  case_bool_decide as He; [subst; by rewrite bytes_lt_irrefl in Hk|]. by rewrite IH.
Qed.

Lemma add_property key value event m : x3d ∉ key -> Forall (fun p => bytes_lt p.1 key = true) m ->
  add_trigger level (property_word (key, value)) event m = Ok (event, m ++ [(key, value)]).
Proof.
  intros Hk Hm. unfold add_trigger, property_word. cbn [fst snd]. rewrite strip_prefix_app.
  change (lit "=" ++ value) with (x3d :: value). rewrite find_byte_app by done. rewrite take_app_length.
  rewrite (cons_middle x3d key value), app_assoc, drop_app_length' by (rewrite length_app; cbn; lia). rewrite bt_get_above by done.
  rewrite bool_decide_false by (intros [? ?]; done). by rewrite bt_insert_above.
Qed.

Lemma add_event event m : event <> [] -> strip_prefix (lit "property:") event = None ->
  (ANDROID_API_R <= level -> forallb event_byte event = true) -> add_trigger level event [] m = Ok (event, m).
Proof.
  intros Hne Hp Hb. unfold add_trigger. rewrite Hp. cbn [negb]. rewrite bool_decide_true by done. cbn [negb].
  destruct (Z.leb_spec ANDROID_API_R level); [|done]. by rewrite Hb.
Qed.

Lemma triggers_loop_and index word words event event' m m' : word <> [] -> Nat.odd index = false ->
  add_trigger level word event m = Ok (event', m') ->
  triggers_loop level index (and_words (word :: words)) event m = triggers_loop level (if bool_decide (words = []) then S index else S (S index)) (and_words words) event' m'.
Proof.
  intros Hne Hodd Ha. destruct words as [|w words]; [cbn [and_words]|change (and_words (word :: w :: words)) with (word :: lit "&&" :: and_words (w :: words))];
    cbn [triggers_loop]; rewrite (bool_decide_false (word = [])), Hodd, Ha by done; [done|].
  rewrite Nat.odd_succ, <- Nat.negb_odd, Hodd. done.
Qed.

Lemma triggers_printed index event rest m : Nat.odd index = false ->
  keys_sorted rest -> Forall (fun p => x3d ∉ p.1) rest -> Forall (fun q => Forall (fun p => bytes_lt p.1 q.1 = true) m) rest ->
  strip_prefix (lit "property:") event = None -> (ANDROID_API_R <= level -> forallb event_byte event = true) ->
  triggers_loop level index (and_words ((property_word <$> rest) ++ if bool_decide (event = []) then [] else [event])) [] m = Ok (event, m ++ rest).
Proof.
  intros Hodd Hsorted Heq. revert index m Hodd. induction rest as [|[k v] rest IH]; intros index m Hodd Hm Hp Hb.
  - rewrite app_nil_r. cbn [fmap list_fmap app]. case_bool_decide as He; [by subst|].
    rewrite (triggers_loop_and _ _ _ _ event m m) by (done || by apply add_event). by case_bool_decide.
  - cbn [keys_sorted] in Hsorted. destruct Hsorted as [Hk Hsorted]. apply list.Forall_cons in Heq as [Hk' Heq]. apply list.Forall_cons in Hm as [Hmk Hm].
    cbn [fmap list_fmap app]. rewrite (triggers_loop_and _ _ _ _ [] m (m ++ [(k, v)])) by (done || by apply add_property).
    assert (Forall (fun q => Forall (fun p => bytes_lt p.1 q.1 = true) (m ++ [(k, v)])) rest) as Hm'.
    { apply list.Forall_forall. intros q Hq. rewrite list.Forall_forall in Hk, Hm. apply Forall_app. split; [by apply Hm|].
      apply list.Forall_singleton. by apply Hk. }
    rewrite (cons_middle (k, v) m rest), app_assoc. destruct (bool_decide (_ ++ _ = [])) eqn:Hnil; [|by apply (IH Hsorted Heq (S (S index)) _ Hodd)].
    apply bool_decide_eq_true_1 in Hnil. apply app_eq_nil in Hnil as [Hr He]. apply fmap_nil_inv in Hr as ->. rewrite He. cbn. 
    rewrite app_nil_r. by case_bool_decide; subst.
Qed.

Lemma triggers_parsed a : triggers_ok level a -> parse_triggers level (and_words (trigger_words a)) = Ok (ac_event_trigger a, ac_property_triggers a).
Proof.
  intros (Hs & Hk & Hp & Hb). apply (triggers_printed 0 (ac_event_trigger a) (ac_property_triggers a) []); try done.
  apply list.Forall_forall. intros. constructor.
Qed.
End triggers.

(** ** The parser's loop on lines of words *)

Lemma reads_app_inv t ts ts' t2 : reads t (ts ++ ts') t2 -> exists t1, reads t ts t1 /\ reads t1 ts' t2.
Proof.
  revert t. induction ts as [|token ts IH]; intros t Hr; [by exists t; split; [constructor|]|].
  cbn [app] in Hr. inversion Hr as [|? ? t1 ? ? Hn He Hr']; subst. destruct (IH _ Hr') as (t3 & H1 & H2). exists t3. split; [|done]. by eapply reads_cons.
Qed.

Section loop.
Context `{Env} `{HostFs} `{PropertyLookup P} (env : ParseEnv P).
Context (kind : SectionKind) (vendor_apexes : list str) (filename : str).
Abbreviation loop := (parse_loop env kind vendor_apexes).

(** The loop gets from one point to another, with a turn for every token. *)
Definition steps (t : Tokenizer) (l : Loop) (p : Parser) (t' : Tokenizer) (l' : Loop) (p' : Parser) : Prop :=
  tokenizer_ok t -> tokenizer_ok t' /\
  exists k, (k + tokens_left t' <= tokens_left t)%nat /\ forall n, loop (k + n) filename t l p = loop n filename t' l' p'.

Lemma steps_refl t l p : steps t l p t l p.
Proof. intros Hok. split; [done|]. by exists 0%nat. Qed.

Lemma steps_trans t l p t1 l1 p1 t2 l2 p2 : steps t l p t1 l1 p1 -> steps t1 l1 p1 t2 l2 p2 -> steps t l p t2 l2 p2.
Proof.
  intros Ha Hb Hok. destruct (Ha Hok) as [Hok1 (k1 & Hk1 & He1)]. destruct (Hb Hok1) as [Hok2 (k2 & Hk2 & He2)].
  split; [done|]. exists (k1 + k2)%nat. split; [lia|]. intros n. by rewrite <- Nat.add_assoc, He1.
Qed.

Lemma token_left t token t1 : tokenizer_ok t -> next_token t = Done (token, t1) -> token <> Eof ->
  tokenizer_ok t1 /\ (S (tokens_left t1) <= tokens_left t)%nat.
Proof.
  intros Hok Hn He. destruct (next_token_ok t Hok) as (token' & t1' & Hn' & _ & Hok1 & _ & Hleft). rewrite Hn in Hn'. injection Hn' as <- <-.
  split; [done|]. by apply Hleft.
Qed.

Definition with_args (l : Loop) (args : list str) : Loop := mkLoop (lp_section l) (lp_start l) (lp_bad l) args.

Lemma steps_words t words t1 l p : reads t (Text <$> words) t1 -> steps t l p t1 (with_args l (lp_args l ++ words)) p.
Proof.
  revert t l. induction words as [|word words IH]; intros t l Hr; inversion Hr as [|? ? t2 ? ? Hn He Hr']; subst.
  { rewrite app_nil_r. destruct l. apply steps_refl. }
  eapply steps_trans; [|rewrite (cons_middle word), app_assoc; by apply (IH t2 (with_args l (lp_args l ++ [word])))].
  intros Hok. destruct (token_left _ _ _ Hok Hn He) as [Hok2 Hleft]. split; [done|]. exists 1%nat. split; [lia|]. intros n.
  cbn [Nat.add parse_loop]. unfold mbind at 1, M_bind, call. by rewrite Hn.
Qed.

Definition bump (t : Tokenizer) : Tokenizer := mkTokenizer (tk_data t) (tk_ptr t) (tk_line t + 1) (tk_next_newline t).

Lemma steps_end t t1 l p l' p' : next_token t = Done (Newline, t1) -> lp_args l <> [] ->
  end_line env kind vendor_apexes filename (tk_line t1 + 1) l p = Done (l', p') -> steps t l p (bump t1) l' p'.
Proof.
  intros Hn Hne He Hok. destruct (token_left _ _ _ Hok Hn) as [Hok1 Hleft]; [done|]. split; [done|]. exists 1%nat. split; [exact Hleft|].
  intros n. cbn [Nat.add parse_loop]. unfold mbind at 1, M_bind, call. rewrite Hn. cbv zeta. rewrite bool_decide_false by done.
  unfold mbind, M_bind. cbn [tk_line]. by rewrite He.
Qed.

(** A line of words, up to what [end_line] makes of it. *)
Lemma steps_line data x line words rest l p l' p' : Forall word_ok words -> words <> [] -> lp_args l = [] ->
  drop x data = quote_line words ++ rest ->
  end_line env kind vendor_apexes filename (line + 1) (with_args l words) p = Done (l', p') ->
  exists y, drop y data = rest /\ steps (mkTokenizer data x line false) l p (mkTokenizer data y (line + 1) false) l' p'.
Proof.
  intros Hok Hne Hargs Hd He. destruct (line_reads data words x line rest Hok Hd) as (y & Hr & Hy). exists y. split; [done|].
  apply reads_app_inv in Hr as (t1 & Hw & Hn). inversion Hn as [|? ? t2 ? ? Hn' _ Hr']; subst. inversion Hr'; subst.
  eapply steps_trans; [by apply steps_words|]. rewrite Hargs. by apply (steps_end _ (mkTokenizer data y line false)).
Qed.

(** ** Commands and actions *)

Lemma no_section_keyword args builtin : find_keyword BUILTIN_TABLE args = Ok builtin -> forall keyword, head args = Some keyword ->
  is_section_keyword kind keyword = false.
Proof.
  intros (row & Hin & _ & Hh & _)%find_keyword_ok keyword Hk. rewrite Hk in Hh. injection Hh as ->.
  assert (forallb (fun row : str * Z * Z * (Builtin * bool) => negb (is_section_keyword Boot row.1.1.1)) BUILTIN_TABLE = true) as Hall by (vm_compute; reflexivity).
  rewrite forallb_forall in Hall. apply list_elem_of_In in Hin. specialize (Hall _ Hin). apply negb_true_iff in Hall.
  unfold is_section_keyword in *. destruct kind; [done|]. rewrite andb_false_r. rewrite andb_true_r in Hall. 
  apply orb_false_iff in Hall as [Hall _]. by rewrite Hall.
Qed.

Definition with_commands (a : Action) (l : list CommandSpec) : Action :=
  mkAction (ac_event_trigger a) (ac_property_triggers a) l (ac_filename a) (ac_line a) (ac_vendor_subcontext a).

Definition in_action (a : Action) (start : Z) (bad : bool) : Loop := mkLoop (Some (InAction a)) start bad [].

Lemma command_line a start bad c p : spec_ok c ->
  end_line env kind vendor_apexes filename (cs_line c) (with_args (in_action a start bad) (cs_args c)) p =
    Done (in_action (with_commands a (ac_commands a ++ [c])) start bad, p) /\ cs_args c <> [].
Proof.
  unfold spec_ok. intros Hc. assert (exists builtin, find_keyword BUILTIN_TABLE (cs_args c) = Ok builtin) as [builtin Hf].
  { revert Hc. unfold CommandSpec_parse. destruct (find_keyword _ _); [by eexists|done]. }
  destruct (cs_args c) as [|keyword args] eqn:Ha; [done|]. split; [|done].
  unfold end_line. cbn [with_args in_action lp_args lp_section lp_start lp_bad]. unfold mbind at 1, M_bind, call, arg. cbn [lookup list_lookup unwrap].
  rewrite (no_section_keyword _ _ Hf _ eq_refl). cbn [parse_line]. unfold mbind at 1, M_bind. cbn [mret M_ret]. by rewrite Hc.
Qed.

Lemma steps_commands data cs a start bad x line rest p :
  Forall spec_ok cs -> Forall (Forall word_ok) (cs_args <$> cs) -> lines_from (line + 1) cs -> drop x data = script (cs_args <$> cs) ++ rest ->
  exists y, drop y data = rest /\
    steps (mkTokenizer data x line false) (in_action a start bad) p
      (mkTokenizer data y (line + zlen cs) false) (in_action (with_commands a (ac_commands a ++ cs)) start bad) p.
Proof.
  intros Hspec. revert a x line. induction Hspec as [|c cs Hc Hspec IH]; intros a x line Hw Hl Hd.
  { exists x. split; [done|]. rewrite app_nil_r, Z.add_0_r. destruct a. apply steps_refl. }
  cbn [fmap list_fmap] in Hw, Hd. apply list.Forall_cons in Hw as [Hwc Hw]. destruct Hl as [Hline Hl].
  unfold script in Hd. cbn [mbind list_bind] in Hd. rewrite <- app_assoc in Hd. destruct (command_line a start bad c p Hc) as [He Hne]. rewrite Hline in He.
  destruct (steps_line data x line _ _ (in_action a start bad) p _ _ Hwc Hne eq_refl Hd He) as (y & Hy & Hs).
  destruct (IH (with_commands a (ac_commands a ++ [c])) y (line + 1) Hw Hl Hy) as (z & Hz & Hs').
  exists z. split; [done|]. eapply steps_trans; [exact Hs|]. replace (line + zlen (c :: cs)) with (line + 1 + zlen cs) by (unfold zlen; cbn; lia).
  cbn [with_commands ac_commands] in Hs'. by rewrite <- app_assoc in Hs'.
Qed.

(** What the end of the section before adds. *)
Definition pushed (before : option Action) (p : Parser) : Parser :=
  match before with
  | None => p
  | Some a =>
      let s := pr_scripts p in
      mkParser (mkParsedScripts (sc_services s) (sc_actions s ++ [a]) (sc_files s) (sc_diagnostics s) (sc_parse_error_count s)) (pr_pending_imports p)
  end.

Lemma end_section_pushed before line p : (forall a, before = Some a -> ac_commands a <> []) ->
  end_section env filename line (InAction <$> before) p = Done (tt, pushed before p).
Proof.
  intros Hb. destruct before as [a|]; [|done]. cbn [fmap option_fmap option_map end_section]. specialize (Hb _ eq_refl).
  rewrite bool_decide_false; [done|]. by intros Hz%length_zero_iff_nil.
Qed.

Section actions.
Let vendor := path_in_vendor_subcontext env vendor_apexes filename.
Hypothesis allowed : (starts_with (lit "/apex/") filename && negb vendor)%bool = false.

Lemma action_line a before start bad p : printable (en_vendor_api_level env) filename vendor a -> (forall b, before = Some b -> ac_commands b <> []) ->
  end_line env kind vendor_apexes filename (ac_line a)
    (with_args (mkLoop (InAction <$> before) start bad []) (lit "on" :: and_words (trigger_words a))) p =
    Done (in_action (with_commands a []) (ac_line a) false, pushed before p).
Proof.
  intros ((Hne & _ & Htr & _) & Ht & Hf & Hv & _) Hb. unfold end_line. cbn [with_args lp_args lp_section lp_start lp_bad].
  unfold mbind at 1, M_bind, call, arg. cbn [lookup list_lookup unwrap]. assert (is_section_keyword kind (lit "on") = true) as -> by done.
  unfold mbind at 1, M_bind. rewrite end_section_pushed by done. unfold begin_section. 
  unfold mbind, M_bind, call, arg. cbn [lookup list_lookup unwrap]. rewrite (bool_decide_false (lit "on" = lit "service")) by done.
  rewrite (bool_decide_true (lit "on" = lit "on")) by done. rewrite args_from_ok by (cbn; lia). cbn [drop].
  rewrite bool_decide_false; cycle 1.
  { intros Hnil. destruct Htr as [He|Hp]; destruct a as [event props]; cbn in *; destruct props as [|? []]; try done; cbn in Hnil;
      destruct (bool_decide (event = [])) eqn:Hbd; try done. by apply bool_decide_eq_true_1 in Hbd. }
  fold vendor. rewrite allowed, drop_0, (triggers_parsed _ a Ht). cbn [mret M_ret]. unfold in_action, with_commands. by rewrite Hf, Hv.
Qed.

Lemma steps_actions data l before start bad x line rest p :
  Forall (printable (en_vendor_api_level env) filename vendor) l -> actions_from (line + 1) l ->
  (forall b, before = Some b -> ac_commands b <> []) -> drop x data = script (l ≫= action_lines) ++ rest ->
  exists y line' before' start' bad' p', drop y data = rest /\ (forall b, before' = Some b -> ac_commands b <> []) /\
    foldl (fun p a => pushed (Some a) p) (pushed before p) l = pushed before' p' /\
    steps (mkTokenizer data x line false) (mkLoop (InAction <$> before) start bad []) p
      (mkTokenizer data y line' false) (mkLoop (InAction <$> before') start' bad' []) p'.
Proof.
  intros Hall. revert before start bad x line p. induction Hall as [|a l Ha Hall IH]; intros before start bad x line p Hl Hb Hd.
  { exists x, line, before, start, bad, p. split_and!; try done. apply steps_refl. }
  destruct Hl as (Hline & Hcl & Hl). unfold script in Hd. cbn [mbind list_bind] in Hd. rewrite bind_app in Hd.
  change (action_lines a) with ((lit "on" :: and_words (trigger_words a)) :: (cs_args <$> ac_commands a)) in Hd. cbn [mbind list_bind] in Hd.
  rewrite <- !app_assoc in Hd. pose proof Ha as ((Hne & Hspec & _) & _ & _ & _ & Hw). apply list.Forall_cons in Hw as [Hwt Hwc].
  pose proof (action_line a before start bad p Ha Hb) as He. rewrite Hline in He.
  destruct (steps_line data x line _ _ (mkLoop (InAction <$> before) start bad []) p _ _ Hwt ltac:(done) eq_refl Hd He) as (y & Hy & Hs1).
  destruct (steps_commands data (ac_commands a) (with_commands a []) (line + 1) false y (line + 1) _ (pushed before p) Hspec Hwc Hcl Hy) as (z & Hz & Hs2).
  assert (with_commands (with_commands a []) (ac_commands (with_commands a []) ++ ac_commands a) = a) as Hsame by (by destruct a). rewrite Hsame in Hs2.
  destruct (IH (Some a) (line + 1) false z (line + 1 + zlen (ac_commands a)) (pushed before p)) as (u & line' & before' & start' & bad' & p' & Hu & Hb' & Hp & Hs3).
  - by replace (line + 1 + zlen (ac_commands a) + 1) with (line + 1 + 1 + zlen (ac_commands a)) by lia.
  - by intros b [= <-].
  - done.
  - exists u, line', before', start', bad', p'. split_and!; try done. by eapply steps_trans; [|eapply steps_trans].
Qed.

Lemma pushed_all l p : foldl (fun p a => pushed (Some a) p) p l =
  mkParser (mkParsedScripts (sc_services (pr_scripts p)) (sc_actions (pr_scripts p) ++ l) (sc_files (pr_scripts p))
    (sc_diagnostics (pr_scripts p)) (sc_parse_error_count (pr_scripts p))) (pr_pending_imports p).
Proof.
  revert p. induction l as [|a l IH]; intros p; cbn [foldl]; [rewrite app_nil_r; by destruct p as [[] ?]|].
  rewrite IH. cbn. by rewrite <- app_assoc.
Qed.

Lemma parse_printed l p :
  Forall (printable (en_vendor_api_level env) filename vendor) l -> actions_from 1 l ->
  parse_sections env kind vendor_apexes filename (print_actions l) p =
    Done (tt, mkParser (mkParsedScripts (sc_services (pr_scripts p)) (sc_actions (pr_scripts p) ++ l) (sc_files (pr_scripts p) ++ [filename])
      (sc_diagnostics (pr_scripts p)) (sc_parse_error_count (pr_scripts p))) (pr_pending_imports p)).
Proof.
  intros Hall Hl. unfold parse_sections, alter_scripts. unfold mbind at 1, M_bind, modify. set (p1 := mkParser _ _). unfold Tokenizer_new.
  set (data := print_actions l ++ [x0a; x00]).
  destruct (steps_actions data l None 0 false 0 0 [x0a; x00] p1 Hall Hl) as (y & line & before & start & bad & p2 & Hy & Hb & Hp & Hs); [done|done|].
  destruct Hs as [Hok (k & Hk & Hloop)]; [unfold tokenizer_ok; cbn; lia|].
  destruct (newline_token data y line [x00] Hy) as [Hn Hy']. destruct (token_left _ _ _ Hok Hn) as [_ Hleft]; [done|].
  assert (tokens_left (mkTokenizer data 0 0 false) <= 2 * length (print_actions l) + 4)%nat as Hfuel.
  { unfold tokens_left, data. cbn [tk_data tk_ptr tk_next_newline]. rewrite length_app. cbn. lia. }
  replace (2 * length (print_actions l) + 5)%nat with (k + S (S (2 * length (print_actions l) + 3 - k)))%nat by lia.
  unfold mbind, M_bind. rewrite Hloop. cbn [parse_loop]. unfold mbind, M_bind, call. rewrite Hn. cbv zeta. cbn [lp_args tk_data tk_ptr tk_line tk_next_newline].
  rewrite bool_decide_true by done. rewrite (eof_token data (S y) (line + 1) [] Hy'). cbn [mret M_ret lp_start lp_section].
  rewrite end_section_pushed, <- Hp, pushed_all by done. done.
Qed.
End actions.
End loop.

(** C21: A script printed from actions, with every word in quotes, is parsed to
    exactly these actions after those of before, in order and with the line of every
    action and command, and nothing is logged; whatever bytes but quotes and NULs
    their words hold. *)
Theorem actions_round_trip `{Env} `{HostFs} `{PropertyLookup P} (env : ParseEnv P) kind has_image vendor_apexes depth filename l p :
  Forall (printable (en_vendor_api_level env) filename (path_in_vendor_subcontext env vendor_apexes filename)) l -> actions_from 1 l ->
  (starts_with (lit "/apex/") filename && negb (path_in_vendor_subcontext env vendor_apexes filename))%bool = false ->
  pr_pending_imports p = [] ->
  parse_data env kind has_image vendor_apexes (S depth) filename (print_actions l) p =
    Done (tt, mkParser (mkParsedScripts (sc_services (pr_scripts p)) (sc_actions (pr_scripts p) ++ l) (sc_files (pr_scripts p) ++ [filename])
      (sc_diagnostics (pr_scripts p)) (sc_parse_error_count (pr_scripts p))) []).
Proof.
  intros Hall Hl Hallowed Hp. cbn [parse_data]. unfold mbind at 1, M_bind. rewrite parse_printed by done.
  unfold end_file_with, mbind, M_bind, gets, modify. cbn [pr_pending_imports pr_scripts]. by rewrite Hp.
Qed.

Definition some_action : Action :=
  mkAction (lit "boot") [(lit "a.b", lit "1 2"); (lit "c", lit "*")]
    [mkCommandSpec BWrite [lit "write"; lit "/proc/x"; lit "a b # \"] 2; mkCommandSpec BStart [lit "start"; lit "x"] 3]
    (lit "/vendor/etc/x.rc") 1 true.

Lemma actions_round_trip_witness :
  @parse_data release_env one_file _ _ plain_env Boot false [] 1 (lit "/vendor/etc/x.rc") (print_actions [some_action]) (mkParser no_scripts []) =
    Done (tt, mkParser (mkParsedScripts [] [some_action] [lit "/vendor/etc/x.rc"] [] 0) []).
Proof.
  apply (@actions_round_trip release_env one_file _ _ plain_env Boot false [] 0 (lit "/vendor/etc/x.rc") [some_action] (mkParser no_scripts []));
    [|cbn; lia|vm_compute; reflexivity|reflexivity].
  apply list.Forall_singleton. split; [split_and!|split; [split_and!|split_and!]]; try reflexivity.
  - discriminate.
  - repeat (apply list.Forall_cons; split); [vm_compute; reflexivity..|apply list.Forall_nil_2].
  - left. discriminate.
  - split; repeat (apply list.Forall_cons; split); try apply list.Forall_nil_2; apply (bool_decide_eq_true_1 _); vm_compute; reflexivity.
  - cbn [keys_sorted some_action ac_property_triggers]. split_and!; repeat (apply list.Forall_cons; split); try apply list.Forall_nil_2; vm_compute; reflexivity || exact I.
  - repeat (apply list.Forall_cons; split); try apply list.Forall_nil_2; apply (bool_decide_eq_true_1 _); vm_compute; reflexivity.
  - repeat (apply list.Forall_cons; split); try apply list.Forall_nil_2; (split_and!; apply (bool_decide_eq_true_1 _); vm_compute; reflexivity).
Defined.
