(* ===== verification/Engine.v ===== *)
(** init's action engine ([src/crates/aim-android-init/src/engine/mod.rs]) and
    the executor that only records ([engine/dry_run.rs]).  The properties and the
    executor are interfaces, as in the source; the properties of [Service] and maps
    of strings implement the one, [DryRunExecutor] the other. *)

From Stdlib Require Import ZArith Lia.
From Stdlib Require Import Strings.String Strings.Byte.
From stdpp Require Import base numbers list gmap.
From S2P Require Import Prelude Text Bytes Libbase Double Area Info Areas Rules.
From S2P Require Import Service Expand Builtins Actions Ids RcService.
From S2P Require Import Image Script.

Open Scope Z_scope.
Open Scope binder_scope.

Definition COLD_BOOT_DONE_PROP : str := lit "ro.cold_boot_done".
Definition PERSISTENT_PROPERTIES_READY_PROP : str := lit "ro.persistent_properties.ready".
Definition VENDOR_INIT_CONTEXT : str := lit "u:r:vendor_init:s0".

(** ** Properties *)

Class InitProperties (P : Type) `{PropertyLookup P} := init_set : str -> str -> M P (result (list SetEffect) (option SetError)).

Definition map_set : InitProperties (gmap str str) := fun name value m =>
  if starts_with (lit "ro.") name && bool_decide (is_Some (m !! name)) then Done (Err (Some AlreadySet), m)
  else Done (Ok [Changed name value], <[name := value]> m).
#[export] Existing Instance map_set.

Section property_service.
Context `{Env, Powi}.

Definition service_lookup : PropertyLookup PropertyService := fun ps name =>
  '(value, _) ← PropAreas.get name (ps_areas ps);
  Done (option_map (fun chars : list Z => chars ≫= encode_utf8) value).
#[export] Existing Instance service_lookup.

Definition service_set : InitProperties PropertyService := fun name value =>
  outcome ← PropService.builtin_set name value;
  if negb (is_success outcome) then mret (Err (so_error outcome)) else mret (Ok (so_effects outcome)).
#[export] Existing Instance service_set.
End property_service.

(** ** The engine's data *)

(** [rc::InitScripts]. *)
Record InitScripts `{HostFs} := mkInitScripts { is_boot : ParsedScripts; is_bootstrap_apex : ParsedScripts; is_apex : ParsedScripts }.

Record Invocation := mkInvocation {
  iv_command : Cmd.Command;
  iv_action : str;
  iv_file : str;
  iv_line : Z;
  iv_context : str;
  iv_services : list Service;
}.

Inductive CommandFlow := FlowDone | ExecServiceRunning.

Class CommandExecutor (X : Type) := execute : Invocation -> M X (result CommandFlow str).

Inductive Event :=
| OnTrigger (trigger : str)
| PropertyChange (name value : str)
| OnBuiltin (id : nat).

Record ActionEntry := mkActionEntry { ae_id : nat; ae_action : Action; ae_oneshot : bool; ae_init_action : option InitAction }.

(** The texts of a failed command. *)
Inductive RunError :=
| ExpandFailed (error : ExpandError)
| BadCommand (error : CommandError)
| SetsControl
| SetsRestorecon
| IllegalWaitName (name : str)
| WaitValueTooLong
| AlreadyWaiting
| ExecutorFailed (error : str).

Record ExecutedCommand := mkExecutedCommand {
  xc_action : str;
  xc_file : str;
  xc_line : Z;
  xc_command : str;
  xc_expanded : list str;
  xc_result : result unit RunError;
}.

Inductive Step :=
| Ran (command : ExecutedCommand)
| Idle
| WaitingForProperty (name value : str)
| WaitingForExec.

(** The identifiers of actions are counted without a width. *)
Record ActionManager `{HostFs} := mkActionManager {
  am_actions : list ActionEntry;
  am_next_id : nat;
  am_event_queue : list Event;
  am_executing : list nat;
  am_current_command : nat;
  am_property_triggers_enabled : bool;
  am_waiting_for : option (str * str);
  am_exec_running : bool;
  am_services : list Service;
  am_pending_bootstrap_apex : option ParsedScripts;
  am_pending_apex : option ParsedScripts;
  am_vendor_api_level : Z;
  am_shutdown : option str;
}.

#[export] Instance ActionManager_eta `{HostFs} : Settable ActionManager := fun r =>
  mkActionManager _ (am_actions r) (am_next_id r) (am_event_queue r) (am_executing r) (am_current_command r)
    (am_property_triggers_enabled r) (am_waiting_for r) (am_exec_running r) (am_services r)
    (am_pending_bootstrap_apex r) (am_pending_apex r) (am_vendor_api_level r) (am_shutdown r).

(** ** The queues *)

Section manager.
Context `{HostFs}.

Definition add_action (action : Action) (oneshot : bool) (init_action : option InitAction) (am : ActionManager) : ActionManager :=
  am <| am_next_id ::= S |> <| am_actions ::= fun l => l ++ [mkActionEntry (am_next_id am) action oneshot init_action] |>.

Definition add_actions (actions : list Action) (am : ActionManager) : ActionManager :=
  foldl (fun am action => add_action action false None am) am actions.

Definition ActionManager_new (scripts : InitScripts) (vendor_api_level : Z) : ActionManager :=
  add_actions (sc_actions (is_boot scripts))
    (mkActionManager _ [] 0 [] [] 0 false None false (sc_services (is_boot scripts)) (Some (is_bootstrap_apex scripts))
       (Some (is_apex scripts)) vendor_api_level None).

Definition queue_event_trigger (trigger : str) (am : ActionManager) : ActionManager :=
  am <| am_event_queue ::= fun q => q ++ [OnTrigger trigger] |>.

Definition queue_property_change (name value : str) (am : ActionManager) : ActionManager :=
  am <| am_event_queue ::= fun q => q ++ [PropertyChange name value] |>.

Definition builtin_action (init_action : InitAction) : Action :=
  mkAction (InitAction_name init_action) [] [mkCommandSpec BTrigger [InitAction_name init_action] 0] (lit "<Builtin Action>") 0 false.

Definition queue_builtin_action (init_action : InitAction) (am : ActionManager) : ActionManager :=
  (add_action (builtin_action init_action) true (Some init_action) am) <| am_event_queue ::= fun q => q ++ [OnBuiltin (am_next_id am)] |>.

Definition queue_boot `{PropertyLookup P} (properties : P) (am : ActionManager) : outcome ActionManager :=
  let am := queue_builtin_action SetupCgroups am in
  let am := queue_builtin_action SetKptrRestrict am in
  let am := queue_builtin_action TestPerfEventSelinux am in
  let am := queue_event_trigger (lit "early-init") am in
  let am := queue_builtin_action ConnectEarlyStageSnapuserd am in
  let am := queue_builtin_action WaitForColdbootDone am in
  let am := queue_builtin_action CheckTradeInModeStatus am in
  let am := queue_builtin_action SetMmapRndBits am in
  let am := queue_builtin_action KeychordInit am in
  let am := queue_event_trigger (lit "init") am in
  mode ← property_or properties (lit "ro.bootmode") [];
  let am := queue_event_trigger (if bool_decide (mode = lit "charger") then lit "charger" else lit "late-init") am in
  Done (queue_builtin_action QueuePropertyTriggers am).

Definition property_changed (name value : str) (am : ActionManager) : ActionManager :=
  let am := if bool_decide (name = lit "sys.powerctl") then am <| am_shutdown := Some value |> else am in
  let am := if am_property_triggers_enabled am then queue_property_change name value am else am in
  if bool_decide (am_waiting_for am = Some (name, value)) then am <| am_waiting_for := None |> else am.

Definition take_shutdown_request : M ActionManager (option str) :=
  request ← gets am_shutdown;
  modify (fun am => am <| am_shutdown := None |>);;
  mret request.

Definition exec_finished (am : ActionManager) : ActionManager := am <| am_exec_running := false |>.

Definition has_more_commands (am : ActionManager) : bool :=
  negb (bool_decide (am_executing am = [])) || negb (bool_decide (length (am_event_queue am) = 0%nat)).

(** ** Events and triggers *)

Section lookups.
Context `{PropertyLookup P} (properties : P).

Definition start_waiting (name value : str) : M ActionManager bool :=
  waiting ← gets am_waiting_for;
  if bool_decide (is_Some waiting) then mret false else
  current ← call (property_or properties name []);
  (if negb (bool_decide (current = value)) then modify (fun am => am <| am_waiting_for := Some (name, value) |>) else mret tt);;
  mret true.

(** The triggers but the one of the change, against the properties. *)
Fixpoint other_triggers (name : str) (triggers : BTreeMap str) : outcome bool :=
  match triggers with
  | [] => Done true
  | (trigger_name, trigger_value) :: triggers =>
      if bool_decide (trigger_name = name) then other_triggers name triggers else
      current ← property_or properties trigger_name [];
      if bool_decide (trigger_value = lit "*") && negb (bool_decide (current = [])) then other_triggers name triggers
      else if negb (bool_decide (trigger_value = current)) then Done false
      else other_triggers name triggers
  end.

Definition check_property_triggers (action : Action) (name value : str) : outcome bool :=
  let triggers := ac_property_triggers action in
  if bool_decide (triggers = []) then Done true
  else if negb (bool_decide (name = [])) &&
          match bt_get name triggers with
          | None => true
          | Some trigger_value => negb (bool_decide (trigger_value = lit "*")) && negb (bool_decide (trigger_value = value))
          end then Done false
  else other_triggers name triggers.

Definition check_event (entry : ActionEntry) (event : Event) : outcome bool :=
  match event with
  | OnTrigger trigger =>
      if bool_decide (trigger = ac_event_trigger (ae_action entry)) then check_property_triggers (ae_action entry) [] [] else Done false
  | PropertyChange name value =>
      if bool_decide (ac_event_trigger (ae_action entry) = []) then check_property_triggers (ae_action entry) name value else Done false
  | OnBuiltin id => Done (ae_id entry =? id)%nat
  end.

(** The actions that an event starts. *)
Fixpoint started (event : Event) (actions : list ActionEntry) : outcome (list nat) :=
  match actions with
  | [] => Done []
  | entry :: actions =>
      starts ← check_event entry event;
      ids ← started event actions;
      Done (if starts : bool then ae_id entry :: ids else ids)
  end.

(** The loop over the events while nothing executes: what executes then, and
    the events that are left. *)
Fixpoint next_events (actions : list ActionEntry) (queue : list Event) : outcome (list nat * list Event) :=
  match queue with
  | [] => Done ([], [])
  | event :: queue =>
      ids ← started event actions;
      if bool_decide (ids = []) then next_events actions queue else Done (ids, queue)
  end.
End lookups.
End manager.

(** ** Commands *)

Section engine.
Context `{HostFs} `{InitProperties P} `{CommandExecutor X}.

(** The engine, the properties and the executor of its calls. *)
Record World := mkWorld { w_manager : ActionManager; w_properties : P; w_executor : X }.

Definition on_manager {Y} (m : M ActionManager Y) : M World Y := fun w =>
  '(y, am) ← m (w_manager w);
  Done (y, mkWorld am (w_properties w) (w_executor w)).
Definition alter (f : ActionManager -> ActionManager) : M World unit := on_manager (modify f).
Definition set_property (name value : str) : M World (result (list SetEffect) (option SetError)) := fun w =>
  '(r, properties) ← init_set name value (w_properties w);
  Done (r, mkWorld (w_manager w) properties (w_executor w)).
Definition call_executor (invocation : Invocation) : M World (result CommandFlow str) := fun w =>
  '(r, executor) ← execute invocation (w_executor w);
  Done (r, mkWorld (w_manager w) (w_properties w) executor).

Definition changes (effects : list SetEffect) (am : ActionManager) : ActionManager :=
  foldl (fun am effect => match effect with Changed name value => property_changed name value am | _ => am end) am effects.

Definition run_internal (command : Cmd.Command) : M World (result unit RunError) :=
  match command with
  | Cmd.Trigger event => alter (queue_event_trigger event);; mret (Ok tt)
  | Cmd.Setprop name value =>
      if starts_with (lit "ctl.") name then mret (Err SetsControl)
      else if bool_decide (name = RESTORECON_PROPERTY) then mret (Err SetsRestorecon)
      else
        r ← set_property name value;
        (match r with Ok effects => alter (changes effects) | Err _ => mret tt end);;
        mret (Ok tt)
  | Cmd.WaitForProp name value =>
      legal ← call (is_legal_property_name name);
      if negb legal then mret (Err (IllegalWaitName name))
      else if PROP_VALUE_MAX <=? zlen value then mret (Err WaitValueTooLong)
      else
        properties ← gets w_properties;
        started ← on_manager (start_waiting properties name value);
        mret (if started : bool then Ok tt else Err AlreadyWaiting)
  | Cmd.Init WaitForColdbootDone =>
      properties ← gets w_properties;
      _ ← on_manager (start_waiting properties COLD_BOOT_DONE_PROP (lit "true"));
      mret (Ok tt)
  | Cmd.Init QueuePropertyTriggers =>
      alter (queue_builtin_action EnablePropertyTrigger);;
      alter (queue_property_change [] []);;
      mret (Ok tt)
  | Cmd.Init EnablePropertyTrigger =>
      alter (fun am => am <| am_property_triggers_enabled := true |>);;
      mret (Ok tt)
  | Cmd.PerformApexConfig bootstrap =>
      pending ← gets (fun w => (if bootstrap : bool then am_pending_bootstrap_apex else am_pending_apex) (w_manager w));
      alter (fun am => if bootstrap then am <| am_pending_bootstrap_apex := None |> else am <| am_pending_apex := None |>);;
      (match pending with
       | Some apex => alter (fun am => add_actions (sc_actions apex) (am <| am_services := sc_services apex |>))
       | None => mret tt
       end);;
      mret (Ok tt)
  | _ => mret (Ok tt)
  end.

Definition after_executor (command : Cmd.Command) : M World unit :=
  match command with
  | Cmd.LoadPersistProps =>
      properties ← gets w_properties;
      _ ← on_manager (start_waiting properties PERSISTENT_PROPERTIES_READY_PROP (lit "true"));
      mret tt
  | _ => mret tt
  end.

(** The arguments after the first, expanded up to the first error. *)
Fixpoint expand_args (properties : P) (vendor_api_level : Z) (args : list str) : outcome (result (list str) ExpandError) :=
  match args with
  | [] => Done (Ok [])
  | arg :: args =>
      r ← expand_props properties vendor_api_level arg;
      match r with
      | Err e => Done (Err e)
      | Ok value =>
          rest ← expand_args properties vendor_api_level args;
          Done (match rest with Ok values => Ok (value :: values) | Err e => Err e end)
      end
  end.

(** The command to run, and the arguments to record. *)
Definition build_command (entry : ActionEntry) (spec : CommandSpec) : M World (list str * result Cmd.Command RunError) :=
  match ae_init_action entry with
  | Some init_action => mret ([], Ok (Cmd.Init init_action))
  | None =>
      w ← get;
      first ← call (arg (cs_args spec) 0);
      rest ← call (args_from (cs_args spec) 1);
      r ← call (expand_args (w_properties w) (am_vendor_api_level (w_manager w)) rest);
      match r with
      | Err e => mret ([], Err (ExpandFailed e))
      | Ok values =>
          command ← call (Cmd.from_args (cs_builtin spec) (first :: values));
          mret (first :: values, match command with Ok command => Ok command | Err e => Err (BadCommand e) end)
      end
  end.

(** What runs once the command is built. *)
Definition run_command (entry : ActionEntry) (spec : CommandSpec) (command : Cmd.Command) : M World (result unit RunError) :=
  r ← run_internal command;
  match r with
  | Err e => mret (Err e)
  | Ok _ =>
      services ← gets (fun w => am_services (w_manager w));
      let context := if ac_vendor_subcontext (ae_action entry) then VENDOR_INIT_CONTEXT else INIT_CONTEXT in
      r ← call_executor (mkInvocation command (triggers_string (ae_action entry)) (ac_filename (ae_action entry)) (cs_line spec) context services);
      match r with
      | Err e => mret (Err (ExecutorFailed e))
      | Ok flow =>
          (match flow with
           | FlowDone => mret tt
           | ExecServiceRunning => alter (fun am => am <| am_exec_running := true |>)
           end);;
          after_executor command;;
          mret (Ok tt)
      end
  end.

Definition execute_command (entry : ActionEntry) (index : nat) : M World ExecutedCommand :=
  spec ← call (unwrap (ac_commands (ae_action entry) !! index));
  let record (expanded : list str) (r : result unit RunError) : ExecutedCommand :=
    mkExecutedCommand (triggers_string (ae_action entry)) (ac_filename (ae_action entry)) (cs_line spec) (command_string spec) expanded r in
  '(expanded, command) ← build_command entry spec;
  match command with
  | Err e => mret (record expanded (Err e))
  | Ok command => r ← run_command entry spec command; mret (record expanded r)
  end.

(** Every turn that finds an action gone takes one that executes. *)
Fixpoint execute_one_command (fuel : nat) : M World Step :=
  match fuel with
  | O => spin
  | S fuel =>
      w ← get;
      match am_waiting_for (w_manager w) with
      | Some (name, value) => mret (WaitingForProperty name value)
      | None =>
          if am_exec_running (w_manager w) then mret WaitingForExec else
          (if bool_decide (am_executing (w_manager w) = []) then
             '(ids, queue) ← call (next_events (w_properties w) (am_actions (w_manager w)) (am_event_queue (w_manager w)));
             alter (fun am => am <| am_executing := ids |> <| am_event_queue := queue |>)
           else mret tt);;
          executing ← gets (fun w => am_executing (w_manager w));
          match executing with
          | [] => mret Idle
          | id :: rest =>
              actions ← gets (fun w => am_actions (w_manager w));
              match List.find (fun entry => (ae_id entry =? id)%nat) actions with
              | None =>
                  alter (fun am => am <| am_executing := rest |> <| am_current_command := 0%nat |>);;
                  execute_one_command fuel
              | Some entry =>
                  index ← gets (fun w => am_current_command (w_manager w));
                  executed ← execute_command entry index;
                  alter (fun am => am <| am_current_command ::= S |>);;
                  current ← gets (fun w => am_current_command (w_manager w));
                  (if (current =? length (ac_commands (ae_action entry)))%nat then
                     alter (fun am => am <| am_executing ::= tl |> <| am_current_command := 0%nat |>);;
                     (if ae_oneshot entry then alter (fun am => am <| am_actions ::= List.filter (fun e => negb (ae_id e =? id)%nat) |>) else mret tt)
                   else mret tt);;
                  mret (Ran executed)
              end
          end
      end
  end.

(** [run_until_blocked], with the bound on the commands as in the source. *)
Fixpoint run_until_blocked (fuel limit : nat) : M World (list ExecutedCommand * Step) :=
  match limit with
  | O => mret ([], Idle)
  | S limit =>
      step ← execute_one_command fuel;
      match step with
      | Ran command => '(ran, last) ← run_until_blocked fuel limit; mret (command :: ran, last)
      | other => mret ([], other)
      end
  end.
End engine.

(** ** The executor that records *)

(** The log's text is the debug format of the command, and is left out. *)
Record DryRunExecutor := mkDryRunExecutor { dr_log : list (Cmd.Command * str * str * Z * str); dr_commands : list Cmd.Command }.

Definition dry_run : CommandExecutor DryRunExecutor := fun invocation executor =>
  Done (Ok FlowDone, mkDryRunExecutor
    (dr_log executor ++ [(iv_command invocation, iv_action invocation, iv_file invocation, iv_line invocation, iv_context invocation)])
    (dr_commands executor ++ [iv_command invocation])).
#[export] Existing Instance dry_run.
