(* ===== verification/EngineRun.v ===== *)
(** What the action engine keeps: it does not panic, the action of every queued
    identifier is there, and commands run in the order of an agenda. *)

From Stdlib Require Import ZArith Lia.
From Stdlib Require Import Strings.String Strings.Byte.
From stdpp Require Import base numbers list gmap sets.
From S2P Require Import Prelude Text Bytes Libbase Area Rules Info Service.
From S2P Require Import Expand Builtins Actions Ids RcService Options.
From S2P Require Import Image Script Scripts Engine.

Open Scope Z_scope.
Open Scope binder_scope.

(** ** Expansion without NULs *)

Lemma no_nul_app2 a b : no_nul a -> no_nul b -> no_nul (a ++ b).
Proof. unfold no_nul. rewrite elem_of_app. naive_solver. Qed.
Lemma no_nul_take n s : no_nul s -> no_nul (take n s).
Proof. intros Hs Hin. apply Hs. rewrite <- (take_drop n s). apply elem_of_app. by left. Qed.
Lemma no_nul_drop n s : no_nul s -> no_nul (drop n s).
Proof. intros Hs Hin. apply Hs. rewrite <- (take_drop n s). apply elem_of_app. by right. Qed.
Lemma no_nul_nil : no_nul [].
Proof. apply not_elem_of_nil. Qed.

Create HintDb clean.
#[export] Hint Resolve no_nul_app2 no_nul_take no_nul_drop no_nul_nil : clean.

(** The interface of the properties: lookups and sets end, and values hold no
    NULs. *)
Class PropertiesOk {P : Type} `{InitProperties P} (ok : P -> Prop) := {
  lookup_ends : forall p name, ok p -> no_nul name -> exists value, property p name = Done value /\ forall s, value = Some s -> no_nul s;
  set_ends : forall p name value, ok p -> no_nul value -> exists r p', init_set name value p = Done (r, p') /\ ok p';
}.

Section properties.
Context `{PropertiesOk P ok}.

Lemma property_or_ends p name default_ : ok p -> no_nul name -> no_nul default_ ->
  exists value, property_or p name default_ = Done value /\ no_nul value.
Proof.
  intros Hp Hn Hd. unfold property_or. destruct (lookup_ends p name Hp Hn) as (value & -> & Hv). eexists. split; [done|].
  destruct value as [s|]; [|done]. case_bool_decide; [done|]. by apply Hv.
Qed.

Lemma prop_of_src_clean level src after name default_ remaining : no_nul after ->
  prop_of_src level src after = Ok (name, default_, remaining) -> no_nul name /\ no_nul default_ /\ no_nul remaining.
Proof.
  intros Ha. unfold prop_of_src. destruct (strip_prefix _ after) as [braced|] eqn:Hs.
  - apply strip_prefix_clean in Hs; [|done]. repeat (case_match; try done); intros [= <- <- <-]; auto 6 with clean.
  - case_match; [done|]. intros [= <- <- <-]. auto with clean.
Qed.

Lemma expand_loop_clean p level src fuel dst rest : ok p -> no_nul dst -> no_nul rest -> (length rest < fuel)%nat ->
  exists r, expand_loop p level src fuel dst rest = Done r /\ forall s, r = Ok s -> no_nul s.
Proof.
  intros Hp. revert dst rest. induction fuel as [|fuel IH]; intros dst rest Hdst Hrest Hfuel; [lia|]. cbn [expand_loop].
  destruct (find_byte x24 rest) as [dollar|] eqn:Hf; [|eexists; split; [done|]; intros s [= <-]; by apply no_nul_app2].
  apply find_byte_lt in Hf. assert (length (drop (S dollar) rest) < fuel)%nat as Hlen by (rewrite length_drop; lia).
  pose proof (no_nul_take dollar rest Hrest) as Ht. pose proof (no_nul_drop (S dollar) rest Hrest) as Hd. revert Hd Hlen. generalize (drop (S dollar) rest).
  intros after Ha Hlen. destruct (strip_prefix (lit "$") after) as [stripped|] eqn:Hs.
  { pose proof (strip_prefix_length _ _ _ Hs) as Hl. apply strip_prefix_clean in Hs; [|done]. apply IH; [|done|cbn in Hl; lia].
    apply no_nul_app2; [by apply no_nul_app2|]. by apply (bool_decide_eq_true_1 _). }
  case_bool_decide; [eexists; split; [done|]; intros s [= <-]; by apply no_nul_app2|].
  destruct (prop_of_src level src after) as [[[name default_] remaining]|e] eqn:Hps; [|by eexists].
  apply prop_of_src_shorter in Hps as Hshort. apply prop_of_src_clean in Hps as (Hn & Hdef & Hrem); [|done].
  case_bool_decide; [by eexists|]. destruct (property_or_ends p name [] Hp Hn no_nul_nil) as (value & -> & Hv). cbn [mbind outcome_bind].
  case_bool_decide; [case_bool_decide; [by eexists|]|]; apply IH; auto with clean; lia.
Qed.

Lemma expand_clean p level src : ok p -> no_nul src -> exists r, expand_props p level src = Done r /\ forall s, r = Ok s -> no_nul s.
Proof. intros Hp Hs. apply expand_loop_clean; [done|apply no_nul_nil|done|lia]. Qed.

Lemma expand_args_clean p level args : ok p -> Forall no_nul args -> exists r, expand_args p level args = Done r /\
  forall values, r = Ok values -> Forall no_nul values /\ length values = length args.
Proof.
  intros Hp. induction 1 as [|arg args Harg _ IH]; cbn [expand_args]; [eexists; split; [done|]; by intros values [= <-]|].
  destruct (expand_clean p level arg Hp Harg) as (r & -> & Hr). cbn [mbind outcome_bind]. destruct r as [value|e]; [|by eexists].
  destruct IH as (rest & -> & Hrest). cbn [mbind outcome_bind]. eexists. split; [done|]. intros values. destruct rest as [vs|]; [|done].
  intros [= <-]. destruct (Hrest _ eq_refl). split; [|cbn; lia]. constructor; [by apply Hr|done].
Qed.

(** Triggers. *)
Lemma other_triggers_ends p name triggers : ok p -> Forall (fun q => no_nul q.1) triggers -> exists b, other_triggers p name triggers = Done b.
Proof.
  intros Hp. induction 1 as [|[k v] triggers Hk _ IH]; cbn [other_triggers]; [by eexists|]. case_bool_decide; [done|].
  destruct (property_or_ends p k [] Hp Hk no_nul_nil) as (current & -> & _). cbn [mbind outcome_bind]. destruct (_ && _); [done|]. by destruct (negb _); [eexists|].
Qed.

Lemma check_event_ends p entry event : ok p -> Forall (fun q => no_nul q.1) (ac_property_triggers (ae_action entry)) ->
  exists b, check_event p entry event = Done b.
Proof.
  intros Hp Hc. destruct event; cbn [check_event]; [..|by eexists]; (case_bool_decide; [|by eexists]); unfold check_property_triggers;
    (case_bool_decide; [by eexists|]); (destruct (_ && _); [by eexists|]); by apply other_triggers_ends.
Qed.
End properties.

#[export] Instance map_properties_ok : PropertiesOk (P := gmap str str) (fun m => map_Forall (fun _ value => no_nul value) m).
Proof.
  split.
  - intros m name Hm _. eexists. split; [done|]. intros s Hs. by apply (Hm name).
  - intros m name value Hm Hv. unfold init_set, map_set. destruct (_ && _); [by eexists _, _|]. eexists _, _. split; [done|].
    by apply map_Forall_insert_2.
Qed.

(** ** The engine's invariant *)

Section invariant.
Context `{HostFs}.

(** An action of the scripts, or one of init's own. *)
Definition entry_ok (entry : ActionEntry) : Prop :=
  match ae_init_action entry with
  | Some init_action => ae_action entry = builtin_action init_action
  | None => action_ok (ae_action entry)
  end.

Definition pending_ok (scripts : option ParsedScripts) : Prop := forall s, scripts = Some s -> Forall action_ok (sc_actions s).

Record engine_ok (am : ActionManager) : Prop := {
  eo_entries : Forall entry_ok (am_actions am);
  eo_ids : NoDup (ae_id <$> am_actions am);
  eo_next : Forall (fun e => (ae_id e < am_next_id am)%nat) (am_actions am);
  eo_executing : NoDup (am_executing am);
  eo_known : Forall (fun id => id ∈ ae_id <$> am_actions am) (am_executing am);
  eo_empty : am_executing am = [] -> am_current_command am = 0%nat;
  eo_current : forall entry rest, entry ∈ am_actions am -> am_executing am = ae_id entry :: rest ->
    (am_current_command am < length (ac_commands (ae_action entry)))%nat;
  eo_bootstrap : pending_ok (am_pending_bootstrap_apex am);
  eo_apex : pending_ok (am_pending_apex am);
}.

(** What a command may do to the engine: add actions and events. *)
Definition extends (am am' : ActionManager) : Prop :=
  engine_ok am' /\ am_executing am' = am_executing am /\ am_current_command am' = am_current_command am /\
  am_actions am `prefix_of` am_actions am' /\ am_event_queue am `prefix_of` am_event_queue am' /\
  am_vendor_api_level am' = am_vendor_api_level am.

Lemma engine_extends_refl am : engine_ok am -> extends am am.
Proof. intros Hok. by split_and!. Qed.

Lemma engine_extends_trans am am1 am2 : extends am am1 -> extends am1 am2 -> extends am am2.
Proof.
  intros (Hok1 & He1 & Hc1 & Ha1 & Hq1 & Hl1) (Hok2 & He2 & Hc2 & Ha2 & Hq2 & Hl2).
  split_and!; [done|congruence|congruence|by etrans|by etrans|congruence].
Qed.

Lemma entry_commands entry : entry_ok entry -> ac_commands (ae_action entry) <> [].
Proof. unfold entry_ok. destruct (ae_init_action entry); [by intros ->|by intros [? _]]. Qed.

Lemma entry_triggers entry : entry_ok entry -> Forall (fun q => no_nul q.1) (ac_property_triggers (ae_action entry)).
Proof. unfold entry_ok. destruct (ae_init_action entry); [by intros ->; constructor|]. by intros (_ & _ & _ & _ & ?). Qed.

Lemma add_action_extends action oneshot init_action am : engine_ok am -> entry_ok (mkActionEntry (am_next_id am) action oneshot init_action) ->
  extends am (add_action action oneshot init_action am).
Proof.
  intros Hok He. destruct Hok as [Hen Hids Hnext Hex Hknown Hempty Hcur Hb Ha]. split_and!; try done; [|by apply prefix_app_r].
  constructor; cbn [add_action am_actions am_next_id am_executing am_current_command am_pending_bootstrap_apex am_pending_apex]; try done.
  - apply Forall_app. split; [done|by apply list.Forall_singleton].
  - unfold add_action. cbn. rewrite fmap_app. apply NoDup_app. split_and!; [done| |by apply NoDup_singleton]. intros id (e & -> & Hin)%list_elem_of_fmap Hin'.
    apply list_elem_of_singleton in Hin'. rewrite list.Forall_forall in Hnext. specialize (Hnext _ Hin). cbn in Hin'. lia.
  - apply Forall_app. split; [|apply list.Forall_singleton; cbn; lia]. eapply list.Forall_impl; [exact Hnext|]. cbn. intros; lia.
  - eapply list.Forall_impl; [exact Hknown|]. cbn. intros id Hid. rewrite fmap_app. apply elem_of_app. by left.
  - intros entry rest [Hin|Hin%list_elem_of_singleton]%elem_of_app Hexec; [by eapply Hcur|]. subst entry. exfalso. cbn in Hexec.
    rewrite Hexec in Hknown. apply list.Forall_cons in Hknown as [Hk _]. apply list_elem_of_fmap in Hk as (e & Heq & Hin).
    rewrite list.Forall_forall in Hnext. specialize (Hnext _ Hin). lia.
Qed.

Lemma add_actions_extends actions am : engine_ok am -> Forall action_ok actions -> extends am (add_actions actions am).
Proof.
  intros Hok Ha. revert am Hok. induction Ha as [|a actions Ha _ IH]; intros am Hok; [by apply engine_extends_refl|]. cbn.
  pose proof (add_action_extends a false None am Hok Ha) as Hx. eapply engine_extends_trans; [done|]. apply IH. apply Hx.
Qed.

(** Changes of the other fields. *)
Definition same_actions (am am' : ActionManager) : Prop :=
  am_actions am' = am_actions am /\ am_next_id am' = am_next_id am /\ am_executing am' = am_executing am /\
  am_current_command am' = am_current_command am /\ am_event_queue am `prefix_of` am_event_queue am' /\
  am_vendor_api_level am' = am_vendor_api_level am /\
  (am_pending_bootstrap_apex am' = am_pending_bootstrap_apex am \/ am_pending_bootstrap_apex am' = None) /\
  (am_pending_apex am' = am_pending_apex am \/ am_pending_apex am' = None).

Lemma same_extends am am' : engine_ok am -> same_actions am am' -> extends am am'.
Proof.
  intros [Hen Hids Hnext Hex Hknown Hempty Hcur Hb Ha] (Hac & Hn & He & Hc & Hq & Hl & Hpb & Hpa). split_and!; try done; [|by rewrite Hac].
  constructor; rewrite ?Hac, ?Hn, ?He, ?Hc; try done; [destruct Hpb as [->| ->]|destruct Hpa as [->| ->]]; done.
Qed.

Ltac same := split_and!; (reflexivity || (by left) || (by right) || (by apply prefix_app_r) || done).

Lemma queue_event_same trigger am : same_actions am (queue_event_trigger trigger am).
Proof. same. Qed.
Lemma queue_change_same name value am : same_actions am (queue_property_change name value am).
Proof. same. Qed.
Lemma same_trans am am1 am2 : same_actions am am1 -> same_actions am1 am2 -> same_actions am am2.
Proof.
  intros (? & ? & ? & ? & ? & ? & Hb1 & Ha1) (? & ? & ? & ? & ? & ? & Hb2 & Ha2). split_and!; try congruence; [by etrans|..].
  - destruct Hb2 as [->| ->]; auto.
  - destruct Ha2 as [->| ->]; auto.
Qed.

Lemma property_changed_same name value am : same_actions am (property_changed name value am).
Proof. unfold property_changed. repeat case_match; same. Qed.

Lemma changes_same effects am : same_actions am (changes effects am).
Proof.
  revert am. induction effects as [|effect effects IH]; intros am; [same|]. cbn. eapply same_trans; [|apply IH].
  destruct effect; [apply property_changed_same|same..].
Qed.

Lemma merge_apex apex am am1 : extends am am1 -> Forall action_ok (sc_actions apex) ->
  extends am (add_actions (sc_actions apex) (am1 <| am_services := sc_services apex |>)).
Proof.
  intros Hx Ha. assert (extends am1 (am1 <| am_services := sc_services apex |>)) as Hs by (apply same_extends; [apply Hx|same]).
  eapply engine_extends_trans; [done|]. eapply engine_extends_trans; [done|]. apply add_actions_extends; [apply Hs|done].
Qed.

Lemma queue_builtin_extends init_action am : engine_ok am -> extends am (queue_builtin_action init_action am).
Proof.
  intros Hok. eapply engine_extends_trans; [by apply (add_action_extends (builtin_action init_action) true (Some init_action))|].
  apply same_extends; [by apply add_action_extends|same].
Qed.
End invariant.

(** ** The agenda *)

Section agenda.
Context `{HostFs}.

Definition find_action (id : nat) (actions : list ActionEntry) : option ActionEntry := List.find (fun entry => (ae_id entry =? id)%nat) actions.

(** The commands of an action, and those that are left of the executing ones. *)
Definition commands_of (am : ActionManager) (id : nat) : list (ActionEntry * CommandSpec) :=
  match find_action id (am_actions am) with
  | Some entry => (fun spec => (entry, spec)) <$> ac_commands (ae_action entry)
  | None => []
  end.
Definition agenda (am : ActionManager) : list (ActionEntry * CommandSpec) :=
  drop (am_current_command am) (am_executing am ≫= commands_of am).

Lemma find_known id actions : id ∈ ae_id <$> actions -> exists entry, find_action id actions = Some entry /\ ae_id entry = id /\ entry ∈ actions.
Proof.
  intros (e & -> & He)%list_elem_of_fmap. unfold find_action. destruct (List.find _ _) as [entry|] eqn:Hf.
  - apply List.find_some in Hf as [Hin Hid]. apply Nat.eqb_eq in Hid. exists entry. split_and!; [done|done|]. by apply list_elem_of_In.
  - apply list_elem_of_In in He. pose proof (List.find_none _ _ Hf _ He) as Hid. cbn in Hid. by rewrite Nat.eqb_refl in Hid.
Qed.

Lemma find_prefix id actions actions' entry : actions `prefix_of` actions' -> find_action id actions = Some entry -> find_action id actions' = Some entry.
Proof.
  intros [more ->]. unfold find_action. induction actions as [|e actions IH]; [done|]. cbn. by destruct (_ =? _)%nat.
Qed.

Lemma find_filter id id' actions : id' <> id -> find_action id' (List.filter (fun e => negb (ae_id e =? id)%nat) actions) = find_action id' actions.
Proof.
  intros Hne. unfold find_action. induction actions as [|e actions IH]; [done|]. cbn. destruct (Nat.eqb_spec (ae_id e) id); cbn; [|by rewrite IH].
  destruct (Nat.eqb_spec (ae_id e) id'); [congruence|done].
Qed.

Lemma bind_ext_in {A B} (f g : A -> list B) l : (forall x, x ∈ l -> f x = g x) -> l ≫= f = l ≫= g.
Proof. induction l as [|x l IH]; intros Hfg; [done|]. cbn. rewrite (Hfg x) by (by left). f_equal. apply IH. intros y Hy. apply Hfg. by right. Qed.

Lemma agenda_extends am am' : engine_ok am -> extends am am' -> agenda am' = agenda am.
Proof.
  intros Hok (_ & He & Hc & Ha & _ & _). unfold agenda. rewrite He, Hc. f_equal. apply bind_ext_in. intros id Hid.
  pose proof (eo_known _ Hok) as Hk. rewrite list.Forall_forall in Hk. destruct (find_known _ _ (Hk _ Hid)) as (entry & Hf & _ & _).
  unfold commands_of. by rewrite Hf, (find_prefix _ _ _ _ Ha Hf).
Qed.

(** The command that runs next. *)
Lemma agenda_head am id rest : engine_ok am -> am_executing am = id :: rest ->
  exists entry spec, find_action id (am_actions am) = Some entry /\ entry ∈ am_actions am /\ ae_id entry = id /\
    ac_commands (ae_action entry) !! am_current_command am = Some spec /\
    agenda am = (entry, spec) :: drop (S (am_current_command am)) (am_executing am ≫= commands_of am).
Proof.
  intros Hok Hex. pose proof (eo_known _ Hok) as Hk. rewrite Hex in Hk. apply list.Forall_cons in Hk as [Hid _].
  destruct (find_known _ _ Hid) as (entry & Hf & Heq & Hin). pose proof (eo_current _ Hok entry rest Hin) as Hcur. rewrite Heq in Hcur. specialize (Hcur Hex).
  destruct (lookup_lt_is_Some_2 _ _ Hcur) as [spec Hspec]. exists entry, spec. split_and!; try done. unfold agenda. apply drop_S.
  rewrite Hex. cbn. unfold commands_of at 1. rewrite Hf, lookup_app_l by (by rewrite length_fmap). by rewrite list_lookup_fmap, Hspec.
Qed.

(** What follows a command. *)
Definition finish (id : nat) (entry : ActionEntry) (am : ActionManager) : ActionManager :=
  let am := am <| am_current_command ::= S |> in
  if (am_current_command am =? length (ac_commands (ae_action entry)))%nat then
    let am := am <| am_executing ::= tl |> <| am_current_command := 0%nat |> in
    if ae_oneshot entry then am <| am_actions ::= List.filter (fun e => negb (ae_id e =? id)%nat) |> else am
  else am.

Lemma filter_elem {A} (p : A -> bool) l x : x ∈ List.filter p l -> x ∈ l.
Proof. rewrite !list_elem_of_In, List.filter_In. tauto. Qed.

Lemma filter_Forall {A} (p : A -> bool) (G : A -> Prop) l : Forall G l -> Forall G (List.filter p l).
Proof. rewrite !list.Forall_forall. intros Hl x Hx. by apply Hl, (filter_elem p). Qed.

Lemma filter_NoDup {A B} (f : A -> B) (p : A -> bool) l : NoDup (f <$> l) -> NoDup (f <$> List.filter p l).
Proof.
  induction l as [|x l IH]; cbn; [done|]. intros [Hx Hl]%NoDup_cons. destruct (p x); [|by apply IH]. apply NoDup_cons. split; [|by apply IH].
  intros (y & Hy & Hin)%list_elem_of_fmap. apply Hx, list_elem_of_fmap. exists y. split; [done|]. by eapply filter_elem.
Qed.

Lemma NoDup_fmap_elem {A B} (f : A -> B) l x y : NoDup (f <$> l) -> x ∈ l -> y ∈ l -> f x = f y -> x = y.
Proof.
  intros Hnd [i Hi]%list_elem_of_lookup [j Hj]%list_elem_of_lookup Hf. assert (i = j) as ->; [|congruence].
  eapply NoDup_lookup; [exact Hnd|by rewrite list_lookup_fmap, Hi|]. by rewrite list_lookup_fmap, Hj, Hf.
Qed.

Lemma filter_all {A} (l : list A) : List.filter (fun _ => true) l = l.
Proof. induction l as [|x l IH]; [done|]. cbn. by rewrite IH. Qed.

(** An action ends, and may go. *)
Lemma pop_ok am id rest actions keep : engine_ok am -> am_executing am = id :: rest -> actions = List.filter keep (am_actions am) ->
  (forall id', id' <> id -> find_action id' actions = find_action id' (am_actions am)) ->
  engine_ok (am <| am_executing := rest |> <| am_current_command := 0%nat |> <| am_actions := actions |>) /\
  agenda (am <| am_executing := rest |> <| am_current_command := 0%nat |> <| am_actions := actions |>) = rest ≫= commands_of am.
Proof.
  intros [Hen Hids Hnext Hnd Hknown Hempty Hcur Hb Ha] Hex Hact Hfind. rewrite Hex in Hnd, Hknown. apply NoDup_cons in Hnd as [Hnot Hnd].
  apply list.Forall_cons in Hknown as [_ Hknown]. split.
  - constructor; cbn; try done.
    + rewrite Hact. by apply filter_Forall.
    + rewrite Hact. by apply filter_NoDup.
    + rewrite Hact. by apply filter_Forall.
    + rewrite list.Forall_forall in Hknown |- *. intros id' Hid'. destruct (find_known _ _ (Hknown _ Hid')) as (e & Hf & He & _).
      rewrite <- Hfind in Hf by (intros ->; done). apply List.find_some in Hf as [Hin _]. apply list_elem_of_fmap. exists e. split; [done|]. by apply list_elem_of_In.
    + intros e rest' Hin _. assert (ac_commands (ae_action e) <> []) as Hne.
      { apply entry_commands. rewrite list.Forall_forall in Hen. apply Hen. rewrite Hact in Hin. by eapply filter_elem. }
      destruct (ac_commands (ae_action e)); [done|]. cbn. lia.
  - unfold agenda. cbn. rewrite drop_0. apply bind_ext_in. intros id' Hid'. unfold commands_of. cbn -[find_action]. rewrite (Hfind id'); [done|]. by intros ->.
Qed.

Lemma finish_eq am id rest entry : am_executing am = id :: rest -> finish id entry am =
  if (S (am_current_command am) =? length (ac_commands (ae_action entry)))%nat then
    am <| am_executing := rest |> <| am_current_command := 0%nat |>
       <| am_actions := if ae_oneshot entry then List.filter (fun e => negb (ae_id e =? id)%nat) (am_actions am) else am_actions am |>
  else am <| am_current_command ::= S |>.
Proof. intros Hex. destruct am as [f0 f1 f2 f3 f4 f5 f6 f7 f8 f9 f10 f11 f12]. simpl in Hex. subst. unfold finish. by destruct (ae_oneshot entry). Qed.

Lemma finish_ok am id rest entry : engine_ok am -> am_executing am = id :: rest -> find_action id (am_actions am) = Some entry ->
  engine_ok (finish id entry am) /\ agenda (finish id entry am) = drop (S (am_current_command am)) (am_executing am ≫= commands_of am) /\
  am_event_queue (finish id entry am) = am_event_queue am.
Proof.
  intros Hok Hex Hf. destruct (agenda_head _ _ _ Hok Hex) as (entry' & spec & Hf' & Hin & Hid & Hspec & _). rewrite Hf in Hf'. injection Hf' as <-.
  apply lookup_lt_Some in Hspec. rewrite (finish_eq am id rest entry Hex).
  destruct (Nat.eqb_spec (S (am_current_command am)) (length (ac_commands (ae_action entry)))) as [Hlast|Hmore].
  - assert (drop (S (am_current_command am)) (am_executing am ≫= commands_of am) = rest ≫= commands_of am) as ->.
    { rewrite Hex. cbn. apply drop_app_length'. unfold commands_of. by rewrite Hf, length_fmap. }
    destruct (ae_oneshot entry).
    + destruct (pop_ok am id rest _ (fun e => negb (ae_id e =? id)%nat) Hok Hex eq_refl) as [Hok' Hag]; [intros id' Hne; by apply find_filter|done].
    + destruct (pop_ok am id rest _ (fun _ => true) Hok Hex (eq_sym (filter_all _))) as [Hok' Hag]; done.
  - split_and!; try done. destruct Hok as [Hen Hids Hnext Hnd Hknown Hempty Hcur Hb Ha]. constructor; cbn; try done.
    + intros Hnil. by rewrite Hex in Hnil.
    + intros e rest' He Hrest. rewrite Hex in Hrest. injection Hrest as Hide _. assert (e = entry) as ->; [|lia].
      eapply (NoDup_fmap_elem ae_id); [exact Hids|done|done|congruence].
Qed.
End agenda.

(** ** Commands *)

(** The strings of a command that are set or looked up. *)
Definition command_clean (command : Cmd.Command) : Prop :=
  match command with
  | Cmd.Setprop _ value => no_nul value
  | Cmd.WaitForProp name _ => no_nul name
  | _ => True
  end.

Lemma arg_clean args i x : Forall no_nul args -> arg args i = Done x -> no_nul x.
Proof.
  intros Hall. unfold arg. destruct (args !! i) as [y|] eqn:Hi; [|done]. intros [= <-]. rewrite list.Forall_forall in Hall. apply Hall. by eapply list_elem_of_lookup_2.
Qed.

Lemma from_args_clean builtin args command : Forall no_nul args -> Cmd.from_args builtin args = Done (Ok command) -> command_clean command.
Proof.
  intros Hall Hf. unfold Cmd.from_args, Cmd.ok, mbind, outcome_bind in Hf.
  destruct builtin; repeat (case_match; try done); simplify_eq; try done; by eapply arg_clean.
Qed.

Section engine.
Context `{HostFs} `{PropertiesOk P ok} `{CommandExecutor X}.
Hypothesis executor_ends : forall invocation x, exists r x', execute invocation x = Done (r, x').
Abbreviation World := (World (P := P) (X := X)).

Definition world_ok (w : World) : Prop := engine_ok (w_manager w) /\ ok (w_properties w).
Definition moves (w w' : World) : Prop := extends (w_manager w) (w_manager w') /\ ok (w_properties w').

Lemma moves_refl w : world_ok w -> moves w w.
Proof. intros [? ?]. split; [by apply engine_extends_refl|done]. Qed.
Lemma moves_trans w w1 w2 : moves w w1 -> moves w1 w2 -> moves w w2.
Proof. intros [? ?] [? ?]. split; [by eapply engine_extends_trans|done]. Qed.
Lemma moves_ok w w' : moves w w' -> world_ok w'.
Proof. intros [[? _] ?]. by split. Qed.

(** [m] ends, and moves the engine. *)
Definition acts {Y} (m : M World Y) (Q : Y -> Prop) : Prop := forall w, world_ok w -> wp False m (fun y w' => moves w w' /\ Q y) w.

Lemma acts_ret {Y} (y : Y) (Q : Y -> Prop) : Q y -> acts (mret y) Q.
Proof. intros Hy w Hw. apply wp_ret. split; [by apply moves_refl|done]. Qed.

Lemma acts_bind {Y Z} (m : M World Y) (f : Y -> M World Z) Q R : acts m Q -> (forall y, Q y -> acts (f y) R) -> acts (m ≫= f) R.
Proof.
  intros Hm Hf w Hw. apply wp_bind. eapply wp_mono; [by apply Hm|]. cbv beta. intros y w1 [Hw1 Hy].
  eapply wp_mono; [apply (Hf y Hy); by eapply moves_ok|]. cbv beta. intros z w2 [Hw2 Hz]. split; [by eapply moves_trans|done].
Qed.

Lemma acts_then {Y Z} (m : M World Y) (f : Y -> M World Z) R : acts m (fun _ => True) -> (forall y, acts (f y) R) -> acts (m ≫= f) R.
Proof. intros Hm Hf. by apply (acts_bind _ _ (fun _ => True)); [|intros]. Qed.

Lemma acts_alter f : (forall am, engine_ok am -> extends am (f am)) -> acts (alter f) (fun _ => True).
Proof. intros Hf w [Hm Hp]. unfold alter, on_manager, wpx, modify. cbn. split; [|done]. split; [by apply Hf|done]. Qed.

Lemma acts_same f : (forall am, same_actions am (f am)) -> acts (alter f) (fun _ => True).
Proof. intros Hf. apply acts_alter. intros am Hok. by apply same_extends. Qed.

Lemma start_waiting_acts name value : no_nul name ->
  acts (properties ← gets w_properties; on_manager (start_waiting properties name value)) (fun _ => True).
Proof.
  intros Hn w [Hm Hp]. apply wp_bind, wp_gets. unfold on_manager, wpx, start_waiting, mbind, M_bind, gets. cbn.
  case_bool_decide; [split; [split; [by apply engine_extends_refl|done]|done]|].
  destruct (property_or_ends (w_properties w) name [] Hp Hn no_nul_nil) as (current & Hcur & _). unfold call. rewrite Hcur.
  destruct (negb _); (split; [split; [|done]|done]); [|by apply engine_extends_refl]. apply same_extends; [done|]. by split_and!; auto.
Qed.

Lemma gets_acts {Y Z} (f : World -> Y) (g : Y -> M World Z) Q : (forall y, acts (g y) Q) -> acts (gets f ≫= g) Q.
Proof. intros Hg w Hw. apply wp_bind, wp_gets. by apply Hg. Qed.

Lemma bind_assoc_acts {Y Z V} (m : M World Y) (f : Y -> M World Z) (g : Z -> M World V) Q :
  acts ((m ≫= f) ≫= g) Q -> acts (m ≫= fun y => f y ≫= g) Q.
Proof. intros Ha w Hw. specialize (Ha w Hw). unfold wpx, mbind, M_bind in *. by destruct (m w) as [[y w1]| |]. Qed.

Lemma run_internal_acts command : command_clean command -> acts (run_internal command) (fun _ => True).
Proof.
  intros Hclean. destruct command; cbn [run_internal]; try (by apply acts_ret).
  - (* PerformApexConfig *)
    intros w [Hok Hp]. apply wp_bind, wp_gets. unfold alter, on_manager, modify, wpx, mbind, M_bind. cbn.
    assert (forall apex am1, am1 = ((w_manager w) <| am_pending_bootstrap_apex := None |>) \/ am1 = ((w_manager w) <| am_pending_apex := None |>) ->
      pending_ok apex -> extends (w_manager w) (match apex with Some s => add_actions (sc_actions s) (am1 <| am_services := sc_services s |>) | None => am1 end)) as Hx.
    { intros apex am1 Ham Hpend. assert (extends (w_manager w) am1) by (apply same_extends; [done|]; destruct Ham as [-> | ->]; split_and!; auto).
      destruct apex as [s|]; [apply merge_apex; [done|by apply Hpend]|done]. }
    destruct bootstrap.
    + specialize (Hx _ _ (or_introl eq_refl) (eo_bootstrap _ Hok)). destruct (am_pending_bootstrap_apex (w_manager w)); by split.
    + specialize (Hx _ _ (or_intror eq_refl) (eo_apex _ Hok)). destruct (am_pending_apex (w_manager w)); by split.
  - (* Setprop *)
    destruct (starts_with _ _); [by apply acts_ret|]. destruct (bool_decide _); [by apply acts_ret|]. apply acts_then.
    + intros w [Hok Hp]. unfold set_property, wpx. destruct (set_ends (w_properties w) name value Hp Hclean) as (r & p' & -> & Hp'). cbn.
      split; [split; [by apply engine_extends_refl|done]|done].
    + intros r. apply acts_then; [|intros; by apply acts_ret]. destruct r; [|by apply acts_ret]. apply acts_same. intros am. apply changes_same.
  - (* Trigger *)
    apply acts_then; [|intros; by apply acts_ret]. apply acts_same. intros am. apply queue_event_same.
  - (* WaitForProp *)
    intros w Hw. apply wp_bind. destruct (legal_name_ok name) as (legal & -> & _). apply wp_ends, ends_done. revert w Hw. 
    change (acts (if negb legal then mret (Err (IllegalWaitName name)) else if PROP_VALUE_MAX <=? zlen value then mret (Err WaitValueTooLong) else
      properties ← gets w_properties; started ← on_manager (start_waiting properties name value);
      mret (if started : bool then Ok tt else Err AlreadyWaiting)) (fun _ => True)).
    destruct (negb legal); [by apply acts_ret|]. destruct (_ <=? _); [by apply acts_ret|]. apply bind_assoc_acts.
    apply acts_then; [by apply start_waiting_acts|]. intros. by apply acts_ret.
  - (* Init *)
    destruct x; try (by apply acts_ret).
    + apply bind_assoc_acts. apply acts_then; [apply start_waiting_acts; by apply (bool_decide_eq_true_1 _)|]. intros. by apply acts_ret.
    + apply acts_then; [apply acts_alter; intros; by apply queue_builtin_extends|]. intros _.
      apply acts_then; [apply acts_same; intros; apply queue_change_same|]. intros _. by apply acts_ret.
    + apply acts_then; [apply acts_same; intros; by split_and!; auto|]. intros. by apply acts_ret.
Qed.

Lemma after_executor_acts command : acts (after_executor command) (fun _ => True).
Proof.
  destruct command; cbn [after_executor]; try (by apply acts_ret). apply bind_assoc_acts.
  apply acts_then; [apply start_waiting_acts; by apply (bool_decide_eq_true_1 _)|]. intros. by apply acts_ret.
Qed.

Lemma run_command_acts entry spec command : command_clean command -> acts (run_command entry spec command) (fun _ => True).
Proof.
  intros Hc. apply acts_then; [by apply run_internal_acts|]. intros [[]|e]; [|by apply acts_ret]. apply gets_acts. intros services. apply acts_then.
  - intros w Hw. unfold call_executor, wpx. destruct (executor_ends (mkInvocation command (triggers_string (ae_action entry)) (ac_filename (ae_action entry))
      (cs_line spec) (if ac_vendor_subcontext (ae_action entry) then VENDOR_INIT_CONTEXT else INIT_CONTEXT) services) (w_executor w)) as (r & x' & ->).
    cbn. destruct Hw as [Hm Hp]. split; [split; [by apply engine_extends_refl|done]|done].
  - intros [flow|e]; [|by apply acts_ret]. apply acts_then; [destruct flow; [by apply acts_ret|]|].
    + apply acts_same. intros am. by split_and!; auto.
    + intros _. apply acts_then; [apply after_executor_acts|]. intros. by apply acts_ret.
Qed.

Lemma build_command_acts entry spec : entry_ok entry -> spec ∈ ac_commands (ae_action entry) ->
  acts (build_command entry spec) (fun r => forall command, r.2 = Ok command -> command_clean command).
Proof.
  intros He Hin. unfold build_command. unfold entry_ok in He. destruct (ae_init_action entry) as [init_action|].
  { apply acts_ret. by intros command [= <-]. }
  destruct He as (_ & Hspec & _ & Hclean & _). rewrite list.Forall_forall in Hspec, Hclean. specialize (Hspec _ Hin). specialize (Hclean _ Hin). cbv beta in Hclean.
  intros w Hw. apply wp_bind, wp_get, wp_bind. assert (cs_args spec <> []) as Hne.
  { intros Hnil. unfold spec_ok, CommandSpec_parse in Hspec. by rewrite Hnil in Hspec. }
  destruct (cs_args spec) as [|first rest] eqn:Hargs; [done|]. apply wp_ends, ends_done, wp_bind, wp_ends, ends_done, wp_bind. cbn [drop].
  apply list.Forall_cons in Hclean as [Hf Hr].
  destruct (expand_args_clean (w_properties w) (am_vendor_api_level (w_manager w)) rest (proj2 Hw) Hr) as (r & Hexp & Hvalues). rewrite drop_0, Hexp. apply wp_ends, ends_done.
  destruct r as [values|e]; [|by apply acts_ret]. destruct (Hvalues _ eq_refl) as [Hvc Hlen].
  destruct (command_runs (first :: rest) (cs_line spec) spec (first :: values)) as [c Hc]; [by rewrite <- Hargs|cbn; lia|].
  apply wp_bind. rewrite Hc. apply wp_ends, ends_done, acts_ret; [|done]. cbn [snd]. intros command Hok. destruct c; [|done]. injection Hok as <-.
  eapply from_args_clean; [|exact Hc]. by constructor.
Qed.

(** What the engine records of a command. *)
Definition records (entry : ActionEntry) (spec : CommandSpec) (x : ExecutedCommand) : Prop :=
  xc_action x = triggers_string (ae_action entry) /\ xc_file x = ac_filename (ae_action entry) /\ xc_line x = cs_line spec /\
  xc_command x = command_string spec.

Lemma execute_command_acts entry index spec : entry_ok entry -> ac_commands (ae_action entry) !! index = Some spec ->
  acts (execute_command entry index) (records entry spec).
Proof.
  intros He Hi. unfold execute_command. rewrite Hi. intros w Hw. apply wp_bind, wp_ends, ends_done. revert w Hw. 
  apply (acts_bind _ _ (fun r => forall command, r.2 = Ok command -> command_clean command)).
  { apply build_command_acts; [done|]. by eapply list_elem_of_lookup_2. }
  intros [expanded [command|e]] Hc; [|by apply acts_ret]. apply acts_then; [apply run_command_acts; by apply Hc|]. intros r. by apply acts_ret.
Qed.

(** ** Events *)

Lemma started_ends p event actions : ok p -> Forall entry_ok actions ->
  exists keep, started p event actions = Done (ae_id <$> List.filter keep actions).
Proof.
  intros Hp Hall. assert (exists keep, Forall (fun e => check_event p e event = Done (keep e)) actions) as [keep Hkeep].
  { exists (fun e => match check_event p e event with Done b => b | _ => false end). eapply list.Forall_impl; [exact Hall|].
    intros e He. by destruct (check_event_ends p e event Hp (entry_triggers _ He)) as [b ->]. }
  exists keep. clear Hall. induction Hkeep as [|e actions He _ IH]; [done|]. cbn [started]. rewrite He. cbn [mbind outcome_bind]. rewrite IH.
  cbn. by destruct (keep e).
Qed.

Lemma next_events_ends p actions queue : ok p -> Forall entry_ok actions ->
  exists keep rest, next_events p actions queue = Done (ae_id <$> List.filter keep actions, rest) /\
    (ae_id <$> List.filter keep actions = [] -> rest = []).
Proof.
  intros Hp Hall. induction queue as [|event queue IH]; cbn [next_events].
  { exists (fun _ => false), []. assert (List.filter (fun _ : ActionEntry => false) actions = []) as -> by (clear; by induction actions). done. }
  destruct (started_ends p event actions Hp Hall) as [keep ->]. cbn [mbind outcome_bind]. case_bool_decide as Hnil; [done|]. by exists keep, queue.
Qed.

Lemma load_ok am keep rest : engine_ok am -> am_executing am = [] ->
  engine_ok (am <| am_executing := ae_id <$> List.filter keep (am_actions am) |> <| am_event_queue := rest |>).
Proof.
  intros [Hen Hids Hnext Hnd Hknown Hempty Hcur Hb Ha] Hex. constructor; cbn; try done.
  - by apply filter_NoDup.
  - apply list.Forall_forall. intros id (e & -> & He)%list_elem_of_fmap. apply list_elem_of_fmap. exists e. split; [done|]. by eapply filter_elem.
  - intros _. by apply Hempty.
  - intros e rest' Hin _. rewrite (Hempty Hex). assert (ac_commands (ae_action e) <> []) as Hne.
    { apply entry_commands. rewrite list.Forall_forall in Hen. by apply Hen. }
    destruct (ac_commands (ae_action e)); [done|]. cbn. lia.
Qed.

(** The engine before a command: what executes, or the next event with actions
    to start. *)
Inductive loads (w : World) : ActionManager -> Prop :=
| loads_executing : am_executing (w_manager w) <> [] -> loads w (w_manager w)
| loads_event ids queue :
    am_executing (w_manager w) = [] -> next_events (w_properties w) (am_actions (w_manager w)) (am_event_queue (w_manager w)) = Done (ids, queue) ->
    loads w ((w_manager w) <| am_executing := ids |> <| am_event_queue := queue |>).

Definition with_manager (w : World) (am : ActionManager) : World := mkWorld am (w_properties w) (w_executor w).

Lemma loads_ends w : world_ok w -> exists am, loads w am /\ engine_ok am /\ (agenda am = [] -> am_executing am = [] /\ am_event_queue am = []) /\
  am_waiting_for am = am_waiting_for (w_manager w) /\ am_exec_running am = am_exec_running (w_manager w).
Proof.
  intros [Hok Hp]. destruct (am_executing (w_manager w)) as [|id ids] eqn:Hex.
  - destruct (next_events_ends (w_properties w) (am_actions (w_manager w)) (am_event_queue (w_manager w)) Hp (eo_entries _ Hok)) as (keep & rest & Hn & Hrest).
    pose proof (load_ok _ keep rest Hok Hex) as Hok'. eexists. split; [by eapply loads_event|]. split_and!; try done. intros Hag. cbn.
    destruct (ae_id <$> List.filter keep (am_actions (w_manager w))) as [|id ids] eqn:Hids; [split; [done|by apply Hrest]|].
    destruct (agenda_head _ id ids Hok' eq_refl) as (? & ? & _ & _ & _ & _ & Hag'). by rewrite Hag in Hag'.
  - exists (w_manager w). split_and!; try done; [by apply loads_executing; rewrite Hex|].
    destruct (agenda_head _ _ _ Hok Hex) as (? & ? & _ & _ & _ & _ & Hag). by rewrite Hag.
Qed.

(** ** Steps *)

(** What is left of a step once the executing action is known. *)
Definition run_entry (id : nat) (entry : ActionEntry) : M World Step :=
  index ← gets (fun w => am_current_command (w_manager w));
  executed ← execute_command entry index;
  alter (finish id entry);;
  mret (Ran executed).

Lemma run_entry_ok w id rest : world_ok w -> am_executing (w_manager w) = id :: rest -> exists entry spec more,
  find_action id (am_actions (w_manager w)) = Some entry /\ agenda (w_manager w) = (entry, spec) :: more /\
  exists x w', run_entry id entry w = Done (Ran x, w') /\ world_ok w' /\ records entry spec x /\ agenda (w_manager w') = more /\
    am_event_queue (w_manager w) `prefix_of` am_event_queue (w_manager w').
Proof.
  intros Hw Hex. pose proof Hw as [Hok Hp]. destruct (agenda_head _ _ _ Hok Hex) as (entry & spec & Hf & Hin & Hid & Hspec & Hag).
  eexists entry, spec, _. split_and!; [done|exact Hag|]. assert (entry_ok entry) as He by (pose proof (eo_entries _ Hok) as Hall; rewrite list.Forall_forall in Hall; by apply Hall).
  pose proof (execute_command_acts entry (am_current_command (w_manager w)) spec He Hspec w Hw) as Hx. unfold wpx in Hx.
  unfold run_entry, mbind, M_bind, gets. destruct (execute_command entry _ w) as [[x w1]| |]; try done.
  destruct Hx as [[Hext Hp1] Hrec]. pose proof (agenda_extends _ _ Hok Hext) as Hag1. destruct Hext as (Hok1 & Hex1 & Hc1 & Ha1 & Hq1 & _).
  rewrite Hex in Hex1. destruct (finish_ok (w_manager w1) id rest entry Hok1 Hex1 (find_prefix _ _ _ _ Ha1 Hf)) as (Hok2 & Hag2 & Hq2).
  exists x, (with_manager w1 (finish id entry (w_manager w1))). split; [done|]. split; [by split|]. split; [done|]. split; [|by cbn [with_manager w_manager]; rewrite Hq2].
  cbn [with_manager w_manager]. rewrite Hag2. change (drop ?n ?l) with (drop n l). destruct (agenda_head _ _ _ Hok1 Hex1) as (e1 & s1 & _ & _ & _ & _ & Hag1').
  rewrite Hag1', Hag in Hag1. by injection Hag1.
Qed.

Lemma loads_actions w am : loads w am -> am_actions am = am_actions (w_manager w) /\ am_waiting_for am = am_waiting_for (w_manager w) /\
  am_exec_running am = am_exec_running (w_manager w).
Proof. by destruct 1. Qed.

Lemma bind_run {S Y Z} (m : M S Y) (f : Y -> M S Z) s y s' : m s = Done (y, s') -> (m ≫= f) s = f y s'.
Proof. unfold mbind, M_bind. by intros ->. Qed.

(** One turn, up to the executing action. *)
Lemma step_unfold w am : loads w am -> am_waiting_for (w_manager w) = None -> am_exec_running (w_manager w) = false ->
  execute_one_command 1 w =
    match am_executing am with
    | [] => Done (Idle, with_manager w am)
    | id :: rest =>
        match find_action id (am_actions am) with
        | Some entry => run_entry id entry (with_manager w am)
        | None => Spinning
        end
    end.
Proof.
  intros Hl Hw Hr. cbn [execute_one_command]. rewrite (bind_run get _ w w w eq_refl), Hw, Hr. destruct (loads_actions _ _ Hl) as (Hact & _ & _).
  assert ((if bool_decide (am_executing (w_manager w) = []) then
      '(ids, queue) ← call (next_events (w_properties w) (am_actions (w_manager w)) (am_event_queue (w_manager w)));
      alter (fun am => am <| am_executing := ids |> <| am_event_queue := queue |>) else mret tt) w = Done (tt, with_manager w am)) as Hload.
  { destruct Hl as [Hne|ids queue Hnil Hn].
    - rewrite bool_decide_false by done. by destruct w.
    - rewrite bool_decide_true by done. unfold mbind, M_bind, call. by rewrite Hn. }
  rewrite (bind_run _ _ _ _ _ Hload), (bind_run (gets _) _ _ _ _ eq_refl). cbn [with_manager w_manager]. destruct (am_executing am) as [|id rest]; [done|].
  rewrite (bind_run (gets _) _ _ _ _ eq_refl). cbn [with_manager w_manager]. unfold find_action. destruct (List.find _ (am_actions am)) as [entry|]; [|done].
  unfold run_entry. rewrite !(bind_run (gets _) _ _ _ _ eq_refl). unfold mbind, M_bind. destruct (execute_command entry _ _) as [[x w1]| |]; [|done..].
  unfold alter, on_manager, modify, finish. cbn -[Nat.eqb]. by destruct (_ =? _)%nat; [destruct (ae_oneshot entry)|].
Qed.

(** A step runs the first command of the agenda, which is that of the next event
    with actions to start when nothing executes; and the engine idles only when
    nothing is left. *)
Lemma step_ok w : world_ok w -> am_waiting_for (w_manager w) = None -> am_exec_running (w_manager w) = false ->
  exists am, loads w am /\
  match agenda am with
  | [] => execute_one_command 1 w = Done (Idle, with_manager w am) /\ has_more_commands am = false /\ world_ok (with_manager w am)
  | (entry, spec) :: more => exists x w', execute_one_command 1 w = Done (Ran x, w') /\ world_ok w' /\ records entry spec x /\
      agenda (w_manager w') = more /\ am_event_queue am `prefix_of` am_event_queue (w_manager w')
  end.
Proof.
  intros Hw Hwait Hexec. destruct (loads_ends w Hw) as (am & Hl & Hok & Hnil & _ & _). exists am. split; [done|].
  rewrite (step_unfold w am Hl Hwait Hexec). assert (world_ok (with_manager w am)) as Hw' by (split; [done|apply Hw]).
  destruct (am_executing am) as [|id rest] eqn:Hex.
  - assert (agenda am = []) as Hag by (unfold agenda; rewrite Hex; apply drop_nil). rewrite Hag. destruct (Hnil Hag) as [_ Hq].
    split; [done|]. split; [|done]. unfold has_more_commands. by rewrite Hex, Hq.
  - destruct (run_entry_ok (with_manager w am) id rest Hw' Hex) as (entry & spec & more & Hf & Hag & Hrun). cbn [with_manager w_manager] in *.
    by rewrite Hf, Hag.
Qed.

(** The engine is blocked. *)
Lemma blocked_step w : 
  (forall name value, am_waiting_for (w_manager w) = Some (name, value) -> execute_one_command 1 w = Done (WaitingForProperty name value, w)) /\
  (am_waiting_for (w_manager w) = None -> am_exec_running (w_manager w) = true -> execute_one_command 1 w = Done (WaitingForExec, w)).
Proof. split; [intros name value Hw|intros Hw Hr]; cbn [execute_one_command]; rewrite (bind_run get _ w w w eq_refl), Hw; [done|]. by rewrite Hr. Qed.

Lemma step_ends w : world_ok w -> exists step w', execute_one_command 1 w = Done (step, w') /\ world_ok w'.
Proof.
  intros Hw. destruct (blocked_step w) as [Hwait Hexec]. destruct (am_waiting_for (w_manager w)) as [[name value]|] eqn:Hwf.
  { eexists _, w. by split; [apply Hwait|]. }
  destruct (am_exec_running (w_manager w)) eqn:Hr; [eexists _, w; by split; [apply Hexec|]|].
  destruct (step_ok w Hw Hwf Hr) as (am & Hl & Hs). destruct (agenda am) as [|[entry spec] more].
  - destruct Hs as (Hs & _ & Hok). by eexists _, _.
  - destruct Hs as (x & w' & Hs & Hok & _). by eexists _, _.
Qed.

(** The commands of an agenda, against those recorded. *)
Definition follows (agenda : list (ActionEntry * CommandSpec)) (ran : list ExecutedCommand) : Prop :=
  Forall2 (fun item x => records item.1 item.2 x) (take (length ran) agenda) (take (length agenda) ran).

Lemma run_follows limit w : world_ok w -> exists ran last w', run_until_blocked 1 limit w = Done ((ran, last), w') /\ world_ok w' /\
  follows (agenda (w_manager w)) ran.
Proof.
  revert w. induction limit as [|limit IH]; intros w Hw; [eexists [], _, w; (split; [done|]); (split; [done|]); unfold follows; rewrite take_nil; constructor|].
  cbn [run_until_blocked]. destruct (step_ends w Hw) as (step & w1 & Hs & Hw1). rewrite (bind_run _ _ _ _ _ Hs).
  destruct step as [x| |name value|]; [|eexists [], _, w1; (split; [done|]); (split; [done|]); unfold follows; rewrite take_nil; constructor..].
  destruct (IH w1 Hw1) as (ran & last & w2 & Hr & Hw2 & Hfol). rewrite (bind_run _ _ _ _ _ Hr). eexists (x :: ran), last, w2. split; [done|]. split; [done|].
  destruct (blocked_step w) as [Hwait Hexec]. destruct (am_waiting_for (w_manager w)) as [[name value]|] eqn:Hwf; [by rewrite (Hwait _ _ eq_refl) in Hs|].
  destruct (am_exec_running (w_manager w)) eqn:Hrun; [by rewrite (Hexec eq_refl eq_refl) in Hs|].
  destruct (step_ok w Hw Hwf Hrun) as (am & Hl & Hstep). destruct Hl as [Hne|ids queue Hnil _]; cycle 1.
  { unfold follows, agenda. rewrite Hnil. cbn [mbind list_bind]. rewrite drop_nil, take_nil. constructor. }
  destruct (agenda (w_manager w)) as [|[entry spec] more]; [unfold follows; rewrite take_nil; constructor|].
  destruct Hstep as (x' & w' & Hs' & _ & Hrec & Hmore & _). rewrite Hs in Hs'. injection Hs' as <- <-. unfold follows in *. cbn. rewrite Hmore in Hfol. by constructor.
Qed.

(** ** Everything that happens to the engine *)

(** A command of the engine's, a property that changes, an [exec] service that
    ends, a shutdown request that is taken, or an event that is queued. *)
Inductive engine_step (w w' : World) : Prop :=
| runs_command step : execute_one_command 1 w = Done (step, w') -> engine_step w w'
| property_change name value p : ok p -> w' = mkWorld (property_changed name value (w_manager w)) p (w_executor w) -> engine_step w w'
| exec_ends : w' = with_manager w (exec_finished (w_manager w)) -> engine_step w w'
| shutdown_taken : w' = with_manager w ((w_manager w) <| am_shutdown := None |>) -> engine_step w w'
| event_queued trigger : w' = with_manager w (queue_event_trigger trigger (w_manager w)) -> engine_step w w'
| change_queued name value : w' = with_manager w (queue_property_change name value (w_manager w)) -> engine_step w w'
| builtin_queued init_action : w' = with_manager w (queue_builtin_action init_action (w_manager w)) -> engine_step w w'.

Lemma engine_step_ok w w' : world_ok w -> engine_step w w' -> world_ok w'.
Proof.
  intros Hw Hs. pose proof Hw as [Hok Hp]. destruct Hs as [step Hs|name value p Hp' ->| -> | -> |trigger ->|name value ->|init_action ->].
  - destruct (step_ends w Hw) as (step' & w1 & Hs' & Hw1). rewrite Hs in Hs'. by injection Hs' as <- <-.
  - split; [|done]. apply (same_extends _ _ Hok), property_changed_same.
  - split; [|done]. apply (same_extends _ _ Hok). split_and!; auto.
  - split; [|done]. apply (same_extends _ _ Hok). split_and!; auto.
  - split; [|done]. apply (same_extends _ _ Hok), queue_event_same.
  - split; [|done]. apply (same_extends _ _ Hok), queue_change_same.
  - split; [|done]. by apply queue_builtin_extends.
Qed.

Lemma engine_steps_ok w w' : world_ok w -> rtc engine_step w w' -> world_ok w'.
Proof. intros Hw. induction 1 as [w|w w1 w' Hs _ IH]; [done|]. apply IH. by eapply engine_step_ok. Qed.
End engine.

(** ** The start *)

Section boot.
Context `{HostFs} `{PropertiesOk P ok}.

Definition init_scripts_ok (scripts : InitScripts) : Prop :=
  scripts_ok (is_boot scripts) /\ scripts_ok (is_bootstrap_apex scripts) /\ scripts_ok (is_apex scripts).

Lemma manager_new_ok scripts level : init_scripts_ok scripts -> engine_ok (ActionManager_new scripts level).
Proof.
  intros ((_ & _ & Hboot & _) & (_ & _ & Hbootstrap & _) & (_ & _ & Hapex & _)). apply add_actions_extends; [|done].
  constructor; cbn; try constructor; try done; by intros s [= <-].
Qed.

Lemma queue_boot_ok p am : engine_ok am -> ok p -> exists am', queue_boot p am = Done am' /\ engine_ok am'.
Proof.
  intros Hok Hp. unfold queue_boot. cbv zeta.
  destruct (property_or_ends p (lit "ro.bootmode") [] Hp) as (mode & -> & _); [by apply (bool_decide_eq_true_1 _)|apply no_nul_nil|].
  eexists. split; [done|].
  assert (forall i am, engine_ok am -> engine_ok (queue_builtin_action i am)) as Hb by (intros; by apply queue_builtin_extends).
  assert (forall t am, engine_ok am -> engine_ok (queue_event_trigger t am)) as Ht by (intros t am' Ham; apply (same_extends _ _ Ham), queue_event_same).
  repeat first [apply Hb | apply Ht]. done.
Qed.
End boot.
