(* ===== verification/Loader.v ===== *)
(** The discovery of scripts
    ([src/crates/aim-android-init/src/rc/loader.rs] and [rc/mod.rs]): the boot
    scripts, those of the APEXes active at bootstrap, and those of the others. *)

From Stdlib Require Import ZArith Lia.
From Stdlib Require Import Strings.String Strings.Byte.
From stdpp Require Import base numbers list gmap.
From S2P Require Import Prelude Text Bytes Libbase Info InfoOrder Expand Builtins.
From S2P Require Import Actions Ids RcService Options Image Tokenizer Script.
From S2P Require Import Scripts Engine EngineRun.

Open Scope Z_scope.
Open Scope binder_scope.

Definition ANDROID_API_FUTURE : Z := 10000.

Definition BOOT_SCRIPT_DIRS : list str :=
  [lit "/system/etc/init"; lit "/system_ext/etc/init"; lit "/vendor/etc/init"; lit "/odm/etc/init"; lit "/product/etc/init"].

(** ** APEXes *)

Record ApexInfo := mkApexInfo { ai_module_name : str; ai_partition : str; ai_is_active : bool }.

(** [str::split] by a pattern that is not empty. *)
Fixpoint split_str (fuel : nat) (pattern s : str) : list str :=
  match fuel with
  | O => [s]
  | S fuel =>
      match find_str pattern s with
      | None => [s]
      | Some i => take i s :: split_str fuel pattern (drop (i + length pattern) s)
      end
  end.

Definition attribute (tag name : str) : option str :=
  let needle := name ++ lit "=" ++ [x22] in
  start ← find_str needle tag;
  let rest := drop (start + length needle) tag in
  end_ ← find_byte x22 rest;
  Some (take end_ rest).

Definition apex_info (element : str) : option ApexInfo :=
  let tag := default [] (head (split element x3e)) in
  module_name ← attribute tag (lit "moduleName");
  Some (mkApexInfo module_name (default [] (attribute tag (lit "partition")))
          (negb (bool_decide (attribute tag (lit "isActive") = Some (lit "false"))))).

Definition read_apex_info_list (xml : str) : list ApexInfo := omap apex_info (drop 1 (split_str (length xml) (lit "<apex-info ") xml)).

(** ** Versioned scripts *)

(** A number, with a sign, and what follows it. *)
Definition digits_end (suffix : str) : nat :=
  match suffix with
  | [] => 0%nat
  | b :: rest =>
      if is_digit 10 b || bool_decide (b = x2d) || bool_decide (b = x2b) then S (length (take_while (is_digit 10) rest)) else 0%nat
  end.

Definition config_sdk (suffix : str) : option Z :=
  if bool_decide (suffix = lit "rc") then Some 0 else
  let end_ := digits_end suffix in
  number ← parse_i64 (take end_ suffix);
  if negb (bool_decide (drop end_ suffix = lit "rc")) then None else Some number.

(** The base name and the version of a script that [active_sdk] may use. *)
Definition config_version (active_sdk : Z) (config : str) : option (str * Z) :=
  let parts := split config x2e in
  if (length parts <? 2)%nat then None else
  suffix ← last parts;
  sdk ← config_sdk suffix;
  if (sdk <? 0) || (active_sdk <? sdk) then None
  else Some (join (lit ".") (removelast parts), sdk).

Definition add_config (active_sdk : Z) (script_map : BTreeMap (str * Z)) (config : str) : BTreeMap (str * Z) :=
  match config_version active_sdk config with
  | None => script_map
  | Some (base, sdk) =>
      match bt_get base script_map with
      | Some (_, existing) => if sdk <=? existing then script_map else bt_insert base (config, sdk) script_map
      | None => bt_insert base (config, sdk) script_map
      end
  end.

Definition filter_versioned_configs (configs : list str) (active_sdk : Z) : list str :=
  (fun row : str * (str * Z) => row.2.1) <$> foldl (add_config active_sdk) [] configs.

(** ** Loading *)

Section loader.
Context `{Env} `{HostFs} `{PropertyLookup P}.

Inductive VersionError := UnreadableVersion (error : IoError) | NoVersion | BadVersion (major : str).

Definition vendor_android_version : result Z VersionError :=
  if negb (ImageRoot.exists_ (lit "/system/etc/selinux/plat_sepolicy.cil")) then Ok ANDROID_API_FUTURE else
  match ImageRoot.read (lit "/vendor/etc/selinux/plat_sepolicy_vers.txt") with
  | Err e => Err (UnreadableVersion e)
  | Ok bytes =>
      let first_line := default [] (head (split (from_utf8_lossy bytes) x0a)) in
      if bool_decide (first_line = []) then Err NoVersion else
      let major := default [] (head (split first_line x2e)) in
      match parse_int major I32_MIN I32_MAX with
      | Some v => Ok (as_u 32 v)
      | None => Err (BadVersion major)
      end
  end.

Record ScriptLoader := mkScriptLoader {
  sl_properties : P;
  sl_ids : IdResolver;
  sl_vendor_api_level : Z;
  sl_vendor_apexes : option (list str);
  sl_bootstrap_apexes : list str;
}.

Context (loader : ScriptLoader) (depth : nat).

Definition env : ParseEnv P := mkParseEnv (sl_properties loader) (sl_vendor_api_level loader) (sl_ids loader).

(** The parser's calls, in order. *)
Definition load_boot : M Parser unit :=
  bootscript ← call (property_or (sl_properties loader) (lit "ro.boot.init_rc") []);
  if bool_decide (bootscript = []) then
    _ ← parse_config env Boot true [] depth (lit "/system/etc/init/hw/init.rc");
    each_file (fun dir => _ ← parse_config env Boot true [] depth dir; mret tt) BOOT_SCRIPT_DIRS
  else
    _ ← parse_config env Boot true [] depth bootscript;
    mret tt.

Definition load_boot_scripts : outcome ParsedScripts :=
  '(_, parser) ← load_boot (mkParser no_scripts []);
  Done (pr_scripts parser).

Definition current_sdk : outcome Z :=
  codename ← property_or (sl_properties loader) (lit "ro.build.version.codename") [];
  if negb (bool_decide (codename = lit "REL")) then Done ANDROID_API_FUTURE else
  sdk ← property_or (sl_properties loader) (lit "ro.build.version.sdk") [];
  Done (default ANDROID_API_FUTURE (parse_int sdk I32_MIN I32_MAX)).

Definition is_hidden (name : str) : bool := starts_with (lit ".") name.

(** The scripts of one APEX. *)
Definition apex_configs (apex : str) : list str :=
  let etc := lit "/apex/" ++ apex ++ lit "/etc" in
  match fs_read_dir (ImageRoot.host_path etc) with
  | Err _ => []
  | Ok entries =>
      let names := omap (fun entry : result (list byte * result FileKind IoError) IoError =>
        match entry with
        | Err _ => None
        | Ok (name, _) =>
            let text := from_utf8_lossy name in
            if fs_is_file (ImageRoot.host_path etc ++ [name]) && bool_decide (drop (length text - 2) text = lit "rc") && negb (is_hidden text)
            then Some text else None
        end) entries in
      (fun name => etc ++ lit "/" ++ name) <$> sort_files names
  end.

Definition collect_apex_scripts (skip_apexes : list str) : list str :=
  match ImageRoot.subdirectories (lit "/apex") with
  | Err _ => []
  | Ok apexes =>
      let apexes := sort_files (List.filter (fun name => negb (is_hidden name)) apexes) in
      let kept := List.filter (fun apex => negb (bool_decide (x40 ∈ apex)) && negb (bool_decide (apex ∈ skip_apexes))) apexes in
      sort_files (kept ≫= apex_configs)
  end.

Definition loaded_vendor_apexes : list str :=
  match sl_vendor_apexes loader with
  | Some apexes => apexes
  | None =>
      let infos := match ImageRoot.read (lit "/apex/apex-info-list.xml") with
                   | Ok bytes => read_apex_info_list (from_utf8_lossy bytes)
                   | Err _ => []
                   end in
      ai_module_name <$> List.filter (fun info => bool_decide (ai_partition info = lit "VENDOR") || bool_decide (ai_partition info = lit "ODM")) infos
  end.

Definition load_apex_config (vendor_apexes : list str) (config : str) : M Parser unit :=
  r ← parse_config_file env Apex true vendor_apexes depth config;
  match r with
  | Ok _ => mret tt
  | Err error => log Error config 0 (ApexFailed config error)
  end.

Definition load_apex_scripts (boot : ParsedScripts) (skip : list str) : outcome ParsedScripts :=
  sdk ← current_sdk;
  let filtered := filter_versioned_configs (collect_apex_scripts skip) sdk in
  '(_, parser) ← each_file (load_apex_config loaded_vendor_apexes) filtered (mkParser (mkParsedScripts (sc_services boot) [] [] [] 0) []);
  Done (pr_scripts parser).

Definition load_scripts : outcome InitScripts :=
  boot ← load_boot_scripts;
  let others := List.filter (fun name => negb (bool_decide (name ∈ sl_bootstrap_apexes loader)))
                  (match ImageRoot.subdirectories (lit "/apex") with Ok names => names | Err _ => [] end) in
  bootstrap_apex ← load_apex_scripts boot others;
  apex ← load_apex_scripts bootstrap_apex (sl_bootstrap_apexes loader);
  Done (mkInitScripts _ boot bootstrap_apex apex).
End loader.

(** ** The scripts of an image *)

Section loads.
Context `{Env} `{HostFs} `{PropertyLookup P} (loader : ScriptLoader (P := P)) (depth : nat).
Hypothesis lookups : forall name, exists value, property (sl_properties loader) name = Done value.
Hypothesis checks : overflow_checks = false.
Hypothesis imports_end : forall path, Forall (shallow (env loader) Boot true depth) (load true path).
Hypothesis positive : (0 < depth)%nat.

(** From a parser with well-formed scripts to one with more. *)
Definition goes {X} (m : M Parser X) : Prop := forall p, ready p -> exists x p', m p = Done (x, p') /\ ready p' /\ grows (pr_scripts p) (pr_scripts p').

Lemma goes_ret {X} (x : X) : goes (mret x).
Proof. intros p Hp. exists x, p. by split_and!. Qed.

Lemma goes_bind {X Y} (m : M Parser X) (f : X -> M Parser Y) : goes m -> (forall x, goes (f x)) -> goes (m ≫= f).
Proof.
  intros Hm Hf p Hp. destruct (Hm p Hp) as (x & p1 & Hm1 & Hp1 & Hg1). destruct (Hf x p1 Hp1) as (y & p2 & Hf2 & Hp2 & Hg2).
  exists y, p2. rewrite (bind_run _ _ _ _ _ Hm1). split_and!; [done|apply Hp2..|by etrans].
Qed.

Lemma goes_each {A} (f : A -> M Parser unit) l : (forall x, goes (f x)) -> goes (each_file f l).
Proof. intros Hf. induction l as [|x l IH]; [apply goes_ret|]. by apply goes_bind; [|intros]. Qed.

Lemma walks_goes {X} (m : M Parser X) (G : Prop) files : walks m G files -> G -> goes m.
Proof.
  intros Hm HG p Hp. specialize (Hm p Hp). unfold wpx in Hm. destruct (m p) as [[x p']| |]; [|congruence|done].
  destruct Hm as [(Hr & Hg & _) _]. by exists x, p'.
Qed.

Lemma parse_config_goes path : goes (parse_config (env loader) Boot true [] depth path).
Proof.
  eapply walks_goes; [|apply (imports_end path)]. apply (walks_config true _ _ (visit (env loader) Boot true depth)).
  intros file contents. by apply walks_data.
Qed.

(** The parser of APEXes' scripts takes no imports. *)
Lemma apex_imports contents : imported (env loader) Apex true contents = [].
Proof.
  unfold imported, file_imports. destruct (tokenize contents) as [ts| |]; [|done..]. 
  assert (forall words, import_lines (env loader) Apex ts words = []) as Hnone; [|by rewrite Hnone].
  induction ts as [|[|word|] ts IH]; intros words; cbn [import_lines]; [done|done|apply IH|]. rewrite IH, app_nil_r.
  unfold import_of. destruct words as [|? [|? []]]; try done. by rewrite andb_false_r.
Qed.

Lemma apex_config_goes vendor_apexes config : goes (load_apex_config loader depth vendor_apexes config).
Proof.
  unfold load_apex_config, parse_config_file. destruct (ImageRoot.read config) as [contents|e]; cbn [negb].
  - apply goes_bind; [|intros [[]|e]; [apply goes_ret|]].
    + apply goes_bind; [|intros; apply goes_ret]. eapply walks_goes; [by apply walks_data|].
      destruct depth as [|d]; [lia|]. cbn [shallow snd]. rewrite apex_imports. constructor.
    + eapply walks_goes; [by apply walks_log|done].
  - apply goes_bind; [apply goes_ret|]. intros [[]|e']; [apply goes_ret|]. eapply walks_goes; [by apply walks_log|done].
Qed.

Lemma lookup_or name default_ : exists value, property_or (sl_properties loader) name default_ = Done value.
Proof. unfold property_or. destruct (lookups name) as [value ->]. by eexists. Qed.

Lemma boot_scripts_ok : exists boot, load_boot_scripts loader depth = Done boot /\ scripts_ok boot.
Proof.
  assert (goes (load_boot loader depth)) as Hgo.
  { unfold load_boot. destruct (lookup_or (lit "ro.boot.init_rc") []) as [script ->].
    intros p Hp. rewrite (bind_run (call (Done script)) _ p script p eq_refl). revert p Hp. case_bool_decide.
    - apply goes_bind; [apply parse_config_goes|]. intros _. apply goes_each. intros dir. apply goes_bind; [apply parse_config_goes|]. intros. apply goes_ret.
    - apply goes_bind; [apply parse_config_goes|]. intros. apply goes_ret. }
  unfold load_boot_scripts. destruct (Hgo (mkParser no_scripts [])) as (x & p & -> & [Hp _] & _).
  - split; [|done]. split_and!; (constructor || reflexivity).
  - exists (pr_scripts p). by split.
Qed.

Lemma apex_scripts_ok boot skip : scripts_ok boot -> exists apex, load_apex_scripts loader depth boot skip = Done apex /\ scripts_ok apex /\
  (sv_name <$> sc_services boot) ⊆ (sv_name <$> sc_services apex).
Proof.
  intros (Hnd & Hsv & _). unfold load_apex_scripts, current_sdk.
  destruct (lookup_or (lit "ro.build.version.codename") []) as [codename ->]. cbn [mbind outcome_bind].
  destruct (lookup_or (lit "ro.build.version.sdk") []) as [sdk ->]. cbn [mbind outcome_bind].
  assert (forall sdk, exists apex, ('(_, parser) ← each_file (load_apex_config loader depth (loaded_vendor_apexes loader))
      (filter_versioned_configs (collect_apex_scripts skip) sdk) (mkParser (mkParsedScripts (sc_services boot) [] [] [] 0) []);
      Done (pr_scripts parser)) = Done apex /\ scripts_ok apex /\ (sv_name <$> sc_services boot) ⊆ (sv_name <$> sc_services apex)) as Hall.
  { intros sdk'. destruct (goes_each (load_apex_config loader depth (loaded_vendor_apexes loader)) (filter_versioned_configs (collect_apex_scripts skip) sdk')
      (apex_config_goes _) (mkParser (mkParsedScripts (sc_services boot) [] [] [] 0) [])) as (x & p & -> & [Hp _] & (_ & _ & _ & Hg)).
    - split; [|done]. split_and!; (done || constructor || reflexivity).
    - exists (pr_scripts p). by split_and!. }
  destruct (negb _); apply Hall.
Qed.
End loads.

(** C24: The scripts of an image load, whatever its files hold, when no imports go
    round and overflow is not checked: the loader ends without a panic, and the boot
    scripts, those of the bootstrap APEXes and those of the others are well formed,
    with every service of the former kept by the latter; so the engine starts with
    them. *)
Theorem image_scripts_load `{Env} `{HostFs} `{PropertyLookup P} (loader : ScriptLoader (P := P)) (depth : nat) :
  (forall name, exists value, property (sl_properties loader) name = Done value) ->
  overflow_checks = false -> (0 < depth)%nat ->
  (forall path, Forall (shallow (env loader) Boot true depth) (load true path)) ->
  exists scripts, load_scripts loader depth = Done scripts /\ init_scripts_ok scripts /\
    (sv_name <$> sc_services (is_boot scripts)) ⊆ (sv_name <$> sc_services (is_bootstrap_apex scripts)) /\
    (sv_name <$> sc_services (is_bootstrap_apex scripts)) ⊆ (sv_name <$> sc_services (is_apex scripts)).
Proof.
  intros Hlookups Hchecks Hdepth Himports. unfold load_scripts.
  destruct (boot_scripts_ok loader depth Hlookups Hchecks Himports) as (boot & -> & Hboot). cbn [mbind outcome_bind].
  destruct (apex_scripts_ok loader depth Hlookups Hchecks Himports Hdepth boot
    (List.filter (fun name => negb (bool_decide (name ∈ sl_bootstrap_apexes loader)))
      (match ImageRoot.subdirectories (lit "/apex") with Ok names => names | Err _ => [] end)) Hboot) as (bootstrap & -> & Hbs & Hs1).
  cbn [mbind outcome_bind]. destruct (apex_scripts_ok loader depth Hlookups Hchecks Himports Hdepth bootstrap (sl_bootstrap_apexes loader) Hbs) as (apex & -> & Hap & Hs2).
  eexists. split; [done|]. split; [by split_and!|]. by split.
Qed.

(** An image with one script and no APEX. *)
Definition init_image : HostFs := {|
  IoError := unit;
  fs_read_link := fun _ => None;
  fs_read := fun path => if bool_decide (path = components (lit "/system/etc/init/hw/init.rc")) then Ok boot_b else Err tt;
  fs_exists := fun _ => false;
  fs_is_dir := fun _ => false;
  fs_is_file := fun _ => false;
  fs_read_dir := fun _ => Err tt;
|}.
Definition plain_loader : ScriptLoader (P := gmap str str) := mkScriptLoader ∅ (mkIdResolver [] [] false) 36 None [].

Lemma image_scripts_load_witness : exists scripts,
  @load_scripts release_env init_image _ _ plain_loader 1 = Done scripts /\ @init_scripts_ok init_image scripts.
Proof.
  destruct (@image_scripts_load release_env init_image _ _ plain_loader 1 (fun name => ex_intro _ _ eq_refl) eq_refl Nat.lt_0_1) as (scripts & Hl & Hok & _).
  - intros path. unfold load, ImageRoot.is_dir, ImageRoot.read. cbn [negb fs_is_dir init_image fs_read]. 
    destruct (bool_decide _); [|constructor]. apply list.Forall_singleton. cbn [shallow snd].
    assert (@imported init_image _ _ (env plain_loader) Boot true boot_b = []) as -> by (vm_compute; reflexivity). constructor.
  - exists scripts. split; [exact Hl|exact Hok].
Defined.

(** ** The versions of scripts *)

Section maps.
Context {V : Type}.
Implicit Types m : BTreeMap V.

Lemma bt_get_insert key key' value m : bt_get key' (bt_insert key value m) = if bool_decide (key = key') then Some value else bt_get key' m.
Proof.
  induction m as [|[k v] m IH]; cbn [bt_insert bt_get]; [done|]. destruct (bytes_lt key k); [done|]. destruct (decide (k = key)) as [->|Hk].
  - rewrite (bool_decide_true (key = key)) by done. cbn [bt_get]. by destruct (bool_decide (key = key')).
  - rewrite (bool_decide_false (k = key)) by done. cbn [bt_get]. rewrite IH. destruct (decide (key = key')) as [->|]; [|by rewrite !(bool_decide_false (key = key'))].
    rewrite (bool_decide_true (key' = key')) by done. by rewrite (bool_decide_false (k = key')).
Qed.

Lemma keys_above key m : keys_sorted m -> Forall (fun row => bytes_lt key row.1 = true) m -> bt_get key m = None.
Proof.
  intros _. induction 1 as [|[k v] m Hk _ IH]; [done|]. cbn [bt_get]. case_bool_decide; [|done]. subst. cbn in Hk. by rewrite bytes_lt_irrefl in Hk.
Qed.

Lemma bt_insert_sorted key value m : keys_sorted m -> keys_sorted (bt_insert key value m).
Proof.
  induction m as [|[k v] m IH]; cbn [keys_sorted bt_insert]; [done|]. intros [Hk Hm]. destruct (bytes_lt key k) eqn:Hlt.
  - cbn [keys_sorted]. split; [|done]. constructor; [done|]. eapply list.Forall_impl; [exact Hk|]. cbn. intros row Hrow. by eapply bytes_lt_trans.
  - case_bool_decide as He; [subst; done|]. cbn [keys_sorted]. split; [|by apply IH]. apply (bt_insert_keys (fun k' => bytes_lt k k' = true)); [|done].
    destruct (bytes_lt k key) eqn:Hgt; [done|]. destruct He. by apply bytes_lt_total.
Qed.

Lemma bt_get_elem key value m : keys_sorted m -> ((key, value) ∈ m <-> bt_get key m = Some value).
Proof.
  induction m as [|[k v] m IH]; cbn [keys_sorted bt_get]; [intros _; split; [by intros ?%not_elem_of_nil|done]|]. intros [Hk Hm].
  rewrite elem_of_cons, (IH Hm). case_bool_decide as He; [subst|naive_solver]. rewrite (keys_above key m Hm Hk). naive_solver.
Qed.
End maps.

(** The best script of a base name among some. *)
Definition best_config (active_sdk : Z) (configs : list str) (base config : str) (sdk : Z) : Prop :=
  config ∈ configs /\ config_version active_sdk config = Some (base, sdk) /\
  forall other sdk', other ∈ configs -> config_version active_sdk other = Some (base, sdk') -> sdk' <= sdk.

(** A script of another base name changes nothing. *)
Lemma best_snoc active_sdk configs config base r : (forall sdk, config_version active_sdk config <> Some (base, sdk)) ->
  match r with
  | Some (c, v) => best_config active_sdk configs base c v
  | None => forall c v, c ∈ configs -> config_version active_sdk c <> Some (base, v)
  end ->
  match r with
  | Some (c, v) => best_config active_sdk (configs ++ [config]) base c v
  | None => forall c v, c ∈ configs ++ [config] -> config_version active_sdk c <> Some (base, v)
  end.
Proof.
  intros Hconfig. destruct r as [[c v]|].
  - intros (Hin & Hc & Hbest). split_and!; [by apply elem_of_app; left|done|].
    intros other sdk' [Ho|Ho%list_elem_of_singleton]%elem_of_app Hov; [by eapply Hbest|]. subst. by destruct (Hconfig sdk').
  - intros Hnone c v [Hin|Hin%list_elem_of_singleton]%elem_of_app; [by apply Hnone|]. subst. apply Hconfig.
Qed.

Lemma add_configs_ok active_sdk configs : keys_sorted (foldl (add_config active_sdk) [] configs) /\
  forall base, match bt_get base (foldl (add_config active_sdk) [] configs) with
               | Some (config, sdk) => best_config active_sdk configs base config sdk
               | None => forall config sdk, config ∈ configs -> config_version active_sdk config <> Some (base, sdk)
               end.
Proof.
  induction configs as [|config configs [Hsorted IH]] using rev_ind; [split; [done|]; intros base config sdk Hin; by apply not_elem_of_nil in Hin|].
  rewrite foldl_snoc. set (m := foldl (add_config active_sdk) [] configs) in *. unfold add_config.
  destruct (config_version active_sdk config) as [[b sdk]|] eqn:Hv.
  - assert (forall base, base <> b -> match bt_get base m with
        | Some (c, v) => best_config active_sdk (configs ++ [config]) base c v
        | None => forall c v, c ∈ configs ++ [config] -> config_version active_sdk c <> Some (base, v) end) as Hother.
    { intros base Hb. apply best_snoc; [|apply IH]. intros v Hc. congruence. }
    assert (forall v, (forall c' v', c' ∈ configs -> config_version active_sdk c' = Some (b, v') -> v' <= v) -> v = sdk ->
      best_config active_sdk (configs ++ [config]) b config sdk) as Hnew.
    { intros v Hle ->. split_and!; [by apply elem_of_app; right; left|done|]. intros other sdk' [Ho|Ho%list_elem_of_singleton]%elem_of_app Hov; [by eapply Hle|].
      subst. rewrite Hv in Hov. injection Hov as <-. done. }
    assert (forall base, match bt_get base (bt_insert b (config, sdk) m) with
        | Some (c, v) => best_config active_sdk (configs ++ [config]) base c v
        | None => forall c v, c ∈ configs ++ [config] -> config_version active_sdk c <> Some (base, v) end <->
        (base = b -> best_config active_sdk (configs ++ [config]) b config sdk)) as Hins.
    { intros base. rewrite bt_get_insert. destruct (decide (b = base)) as [->|Hne]; [rewrite bool_decide_true by done; naive_solver|].
      rewrite bool_decide_false by done. split; [by intros _ ->|]. intros _. by apply Hother. }
    pose proof (IH b) as Hb. destruct (bt_get b m) as [[c v]|] eqn:Hget; cycle 1.
    { split; [by apply bt_insert_sorted|]. intros base. apply Hins. intros _. apply (Hnew sdk); [|done]. intros c' v' Hin Hc'. by destruct (Hb c' v' Hin). }
    destruct Hb as (Hin & Hc & Hbest). destruct (Z.leb_spec sdk v) as [Hle|Hlt].
    + split; [done|]. intros base. destruct (decide (base = b)) as [->|Hne]; [|by apply Hother]. rewrite Hget.
      split_and!; [by apply elem_of_app; left|done|]. intros other sdk' [Ho|Ho%list_elem_of_singleton]%elem_of_app Hov; [by eapply Hbest|].
      subst. rewrite Hv in Hov. by injection Hov as <-.
    + split; [by apply bt_insert_sorted|]. intros base. apply Hins. intros _. apply (Hnew sdk); [|done]. intros c' v' Hin' Hc'. specialize (Hbest c' v' Hin' Hc'). lia.
  - split; [done|]. intros base. apply best_snoc; [|apply IH]. by rewrite Hv.
Qed.

(** Of the scripts of an APEX that differ only in their version, exactly the
    one with the highest version that the running SDK admits is kept, and every
    base name with such a version is represented once, in the order of the names. *)
Theorem versions_filtered configs active_sdk :
  exists bases, filter_versioned_configs configs active_sdk = (fun row : str * (str * Z) => row.2.1) <$> bases /\ keys_sorted bases /\
    (forall base config sdk, (base, (config, sdk)) ∈ bases -> best_config active_sdk configs base config sdk) /\
    (forall config base sdk, config ∈ configs -> config_version active_sdk config = Some (base, sdk) ->
       exists best, (base, best) ∈ bases /\ best.1 ∈ filter_versioned_configs configs active_sdk).
Proof.
  destruct (add_configs_ok active_sdk configs) as [Hsorted Hall]. eexists. split_and!; [done|done|..].
  - intros base config sdk Hin%(bt_get_elem _ _ _ Hsorted). specialize (Hall base). by rewrite Hin in Hall.
  - intros config base sdk Hin Hv. specialize (Hall base). destruct (bt_get base _) as [best|] eqn:Hget; [|by destruct (Hall config sdk Hin)].
    apply (bt_get_elem _ _ _ Hsorted) in Hget. exists best. split; [done|]. apply list_elem_of_fmap. by exists (base, best).
Qed.
