(* ===== verification/EngineSystem.v ===== *)
(** Scripts, the action engine and the property service together: what the engine
    does from the start on, in which order, when actions start, and that no wait for
    a property is missed. *)

From Stdlib Require Import ZArith Lia.
From Stdlib Require Import Strings.String Strings.Byte.
From stdpp Require Import base numbers list gmap sets relations.
From S2P Require Import Prelude Text Bytes Libbase Info InfoEncode InfoTrie.
From S2P Require Import InfoBuild InfoMatch Double Rules.
From S2P Require Import Area AreaHeap AreaTrie AreaMap AreaReader AreaUpdate.
From S2P Require Import Areas AreasMap AreasSystem Service Protocol ServiceSpec.
From S2P Require Import PropertySystem Expand Builtins Actions Ids RcService.
From S2P Require Import Options Image Script Scripts Engine EngineRun.

Open Scope Z_scope.
Open Scope binder_scope.

(** ** The property service as the engine's properties *)

Section service.
Context `{Env, Powi} entries default_context default_type memory_for (Hc : config_ok entries default_context default_type memory_for).
Abbreviation reached ps g := (reaches entries default_context default_type memory_for (ps_areas ps) g).

Lemma reaches_clean pa g : reaches entries default_context default_type memory_for pa g -> map_Forall (fun _ e => no_nul (e_value e)) g.1.
Proof.
  induction 1 as [data pa|pa m serial name value r pa' _ IH _ Hv _|pa m serial name value r pa' _ IH _ Hv _ _]; cbn.
  - apply map_Forall_empty.
  - destruct r; [|done]. unfold after_add, add_spec. cbn. case_match; [done|]. by apply map_Forall_insert_2.
  - destruct r; [|done]. unfold after_update, update_spec. cbn. case_match; [|done]. by apply map_Forall_insert_2.
Qed.

Definition service_state (ps : PropertyService) : Prop := exists g, reached ps g.

Lemma service_property ps g name : reached ps g -> no_nul name -> property ps name = Done (from_utf8_lossy ∘ e_value <$> g.1 !! name).
Proof.
  intros Hr Hn. unfold property, service_lookup. rewrite (reached_get _ _ _ _ Hc ps g name Hr Hn). cbn. by destruct (g.1 !! name).
Qed.

#[export] Instance service_properties_ok : PropertiesOk service_state.
Proof.
  split.
  - intros ps name [g Hr] Hn. rewrite (service_property ps g name Hr Hn). eexists. split; [done|]. intros s (e & He & ->)%fmap_Some.
    apply from_utf8_lossy_no_nul. by apply (reaches_clean _ _ Hr name).
  - intros ps name value [[m serial] Hr] Hv.
    destruct (handle_set_ok _ _ _ _ Hc ps m serial name value INIT_CONTEXT Ucred_INIT true Hr Hv) as (o & ps' & g & Hh & Hr' & _ & _).
    unfold init_set, service_set, PropService.builtin_set. unfold mbind, M_bind. rewrite Hh. destruct (negb _); eexists _, _; (split; [done|]); by exists g.
Qed.
End service.

(** ** The engine from the start *)

(** C16: With scripts as the parser makes them, init's engine starts and never
    panics: after any sequence of its own commands, property changes, ended
    [exec] services, taken shutdown requests and queued events, the next step ends
    in one turn, because every queued identifier still names an action with a
    command at hand and every command has the arguments it indexes; whatever the
    executor answers and the expansion of the properties gives. *)
Theorem engine_never_panics `{HostFs} `{PropertiesOk P ok} `{CommandExecutor X} scripts vendor_api_level (p : P) (x : X) :
  (forall invocation x, exists r x', execute invocation x = Done (r, x')) ->
  init_scripts_ok scripts -> ok p ->
  exists am, queue_boot p (ActionManager_new scripts vendor_api_level) = Done am /\
    forall w, rtc (engine_step (ok := ok)) (mkWorld am p x) w -> exists step w', execute_one_command 1 w = Done (step, w').
Proof.
  intros Hx Hs Hp. destruct (queue_boot_ok p _ (manager_new_ok scripts vendor_api_level Hs) Hp) as (am & Hq & Ham). exists am. split; [done|].
  intros w Hsteps. destruct (step_ends Hx w) as (step & w' & Hstep & _); [|by eauto]. by eapply (engine_steps_ok Hx); [|exact Hsteps].
Qed.


(** ** When actions start *)

(** A trigger's value against a property's: [*] stands for any but none. *)
Definition trigger_met (value current : str) : Prop := value = current \/ (value = lit "*" /\ current <> []).

Section starts.
Context `{PropertyLookup P} (p : P).

Definition holds (name : str) (trigger : str * str) : Prop :=
  trigger.1 = name \/ exists current, property_or p trigger.1 [] = Done current /\ trigger_met trigger.2 current.

(** What an event means for an action. *)
Definition starts (event : Event) (entry : ActionEntry) : Prop :=
  let a := ae_action entry in
  match event with
  | OnTrigger trigger => trigger = ac_event_trigger a /\ Forall (holds []) (ac_property_triggers a)
  | PropertyChange name value =>
      ac_event_trigger a = [] /\
      (name = [] \/ exists v, bt_get name (ac_property_triggers a) = Some v /\ (v = lit "*" \/ v = value)) /\
      Forall (holds name) (ac_property_triggers a)
  | OnBuiltin id => ae_id entry = id
  end.
End starts.

Section starts_ok.
Context `{PropertiesOk P ok} (p : P) (Hp : ok p).

Lemma other_triggers_spec name triggers : Forall (fun q => no_nul q.1) triggers ->
  exists b, other_triggers p name triggers = Done b /\ (b = true <-> Forall (holds p name) triggers).
Proof.
  induction 1 as [|[k v] triggers Hk _ IH]; cbn [other_triggers]; [exists true; by split; [|split; constructor]|].
  destruct IH as (b & IH & Hb). setoid_rewrite list.Forall_cons. unfold holds at 1. cbn [fst snd]. case_bool_decide as Hkn.
  { exists b. split; [done|]. rewrite Hb. naive_solver. }
  destruct (property_or_ends p k [] Hp Hk no_nul_nil) as (current & Hcur & _). rewrite Hcur. cbn [mbind outcome_bind]. unfold trigger_met.
  destruct (bool_decide (v = lit "*") && negb (bool_decide (current = []))) eqn:Hstar.
  { apply andb_true_iff in Hstar as [Hv%bool_decide_eq_true_1 Hc%negb_true_iff%bool_decide_eq_false_1]. exists b. split; [done|]. rewrite Hb. naive_solver. }
  destruct (decide (v = current)) as [Hv|Hv]; [rewrite (bool_decide_true (v = current)) by done|rewrite (bool_decide_false (v = current)) by done];
    [exists b; split; [done|]; rewrite Hb; naive_solver|].
  exists false. split; [done|]. split; [done|]. intros [[?|(c & Hc & [->|[-> Hne]])] _]; simplify_eq; try done.
  apply andb_false_iff in Hstar as [?%bool_decide_eq_false_1|?%negb_false_iff%bool_decide_eq_true_1]; done.
Qed.

Lemma check_event_spec entry event : entry_ok entry -> exists b, check_event p entry event = Done b /\ (b = true <-> starts p event entry).
Proof.
  intros He. pose proof (entry_triggers _ He) as Ht. destruct event as [trigger|name value|id]; cbn [check_event starts].
  - case_bool_decide as Hev; [|exists false; naive_solver]. unfold check_property_triggers. case_bool_decide as Hnil.
    { exists true. rewrite Hnil. naive_solver. }
    rewrite bool_decide_true by done. cbn [negb andb]. destruct (other_triggers_spec [] _ Ht) as (b & -> & Hb). exists b. rewrite Hb. naive_solver.
  - case_bool_decide as Hev; [|exists false; naive_solver].
    assert (ac_property_triggers (ae_action entry) <> []) as Hne.
    { unfold entry_ok in He. destruct (ae_init_action entry) as [i|]; [rewrite He in Hev; by destruct i|]. destruct He as (_ & _ & [?|?] & _); done. }
    unfold check_property_triggers. rewrite (bool_decide_false (_ = [])) by done. destruct (other_triggers_spec name _ Ht) as (b & Hother & Hb).
    case_bool_decide as Hname; cbn [negb andb]; [exists b; rewrite Hother, Hb; naive_solver|].
    destruct (bt_get name _) as [v|] eqn:Hv; [|exists false; split; [done|]; split; [done|]; intros (_ & [?|(v & ? & _)] & _); done].
    destruct (decide (v = lit "*" \/ v = value)) as [Hok|Hnot].
    + assert (negb (bool_decide (v = lit "*")) && negb (bool_decide (v = value)) = false) as ->.
      { destruct Hok as [-> | ->]; [by rewrite bool_decide_true|]. rewrite (bool_decide_true (value = value)) by done. apply andb_false_r. }
      exists b. rewrite Hother, Hb. naive_solver.
    + rewrite !bool_decide_false by tauto. exists false. split; [done|]. split; [done|]. intros (_ & [?|(v' & [= <-] & ?)] & _); tauto.
  - exists (ae_id entry =? id)%nat. split; [done|]. apply Nat.eqb_eq.
Qed.
End starts_ok.

(** C18: An event starts exactly the actions whose triggers it meets, in the order
    of their definition: an event trigger starts the actions of that name whose
    property triggers all hold; a property change starts actions without event
    trigger that name the property with this value or any, and whose other
    triggers hold; the change without a name, which init queues once property
    triggers are enabled, starts every such action whose triggers hold. *)
Theorem events_start_actions `{PropertiesOk P ok} (p : P) event actions :
  ok p -> Forall entry_ok actions ->
  exists keep, started p event actions = Done (ae_id <$> List.filter keep actions) /\
    forall entry, entry ∈ actions -> (keep entry = true <-> starts p event entry).
Proof.
  intros Hp Hall. exists (fun e => match check_event p e event with Done b => b | _ => false end). split.
  - induction Hall as [|e actions He _ IH]; [done|]. cbn [started]. destruct (check_event_spec p Hp e event He) as (b & Hb & _). rewrite Hb, IH.
    cbn. rewrite Hb. by destruct b.
  - intros entry Hin. rewrite list.Forall_forall in Hall. by destruct (check_event_spec p Hp entry event (Hall _ Hin)) as (b & -> & Hb).
Qed.

(** ** Waiting for properties *)

(** The engine waits only for a value that the property does not have. *)
Definition awaits `{HostFs} `{PropertyLookup P} (am : ActionManager) (p : P) : Prop :=
  forall name value, am_waiting_for am = Some (name, value) -> no_nul name /\ exists current, property_or p name [] = Done current /\ current <> value.

Section waits.
Context `{HostFs} `{PropertiesOk P ok} `{CommandExecutor X}.
Abbreviation World := (World (P := P) (X := X)).
Abbreviation waits w := (awaits (w_manager w) (w_properties w)).
Abbreviation idle w := (am_waiting_for (w_manager w) = None).

(** [m] waits in vain from no state with [Q]. *)
Definition careful {Y} (Q : World -> Prop) (m : M World Y) : Prop := forall w, Q w -> wpx True True m (fun _ w' => waits w') w.

Lemma idle_waits (w : World) : idle w -> waits w.
Proof. intros Hw name value Hn. by rewrite Hw in Hn. Qed.

Lemma careful_ret {Y} (y : Y) : careful (fun w => waits w) (mret y).
Proof. by intros w Hw. Qed.

Lemma careful_bind {Y Z} Q (m : M World Y) (f : Y -> M World Z) : careful Q m -> (forall y, careful (fun w => waits w) (f y)) -> careful Q (m ≫= f).
Proof. intros Hm Hf w Hw. apply wp_bind. eapply wp_mono; [by apply Hm|]. cbv beta. intros y w' Hw'. by apply Hf. Qed.

Lemma careful_weaken {Y} (m : M World Y) : careful (fun w => waits w) m -> careful (fun w => idle w) m.
Proof. intros Hm w Hw. apply Hm. by apply idle_waits. Qed.

Lemma careful_alter f : (forall am : ActionManager, am_waiting_for (f am) = am_waiting_for am) -> careful (fun w => waits w) (alter f).
Proof. intros Hf w Hw name value. cbn. rewrite Hf. apply Hw. Qed.

Lemma careful_gets {Y} (f : World -> Y) : careful (fun w => waits w) (gets f).
Proof. by intros w Hw. Qed.

Lemma careful_call {Y} (o : outcome Y) : careful (fun w => waits w) (call o).
Proof. intros w Hw. unfold wpx, call. by destruct o. Qed.

Lemma careful_start name value : no_nul name -> careful (fun w => waits w) (properties ← gets w_properties; on_manager (start_waiting properties name value)).
Proof.
  intros Hn w Hw. apply wp_bind, wp_gets. unfold wpx, on_manager, start_waiting, mbind, M_bind, gets, call. cbn.
  case_bool_decide; [done|]. destruct (property_or (w_properties w) name []) as [current| |] eqn:Hcur; try done.
  destruct (negb (bool_decide (current = value))) eqn:Hne; [|done]. intros name' value'. cbn. intros [= <- <-]. split; [done|].
  exists current. split; [done|]. by apply negb_true_iff, bool_decide_eq_false_1 in Hne.
Qed.

Lemma property_changed_waiting name value am : am_waiting_for am = None -> am_waiting_for (property_changed name value am) = None.
Proof. intros Hw. unfold property_changed. repeat (case_match; cbn; try done). Qed.

Lemma changes_waiting effects am : am_waiting_for am = None -> am_waiting_for (changes effects am) = None.
Proof.
  revert am. induction effects as [|e effects IH]; intros am Hw; [done|]. cbn. apply IH. destruct e; try done. by apply property_changed_waiting.
Qed.

Lemma property_changed_left name value am n v : am_waiting_for (property_changed name value am) = Some (n, v) ->
  am_waiting_for am = Some (n, v) /\ (n, v) <> (name, value).
Proof.
  unfold property_changed. set (am1 := if bool_decide (name = _) then _ else _). set (am2 := if am_property_triggers_enabled am1 then _ else _).
  assert (am_waiting_for am2 = am_waiting_for am) as Ham by (unfold am2, am1; by repeat case_match). rewrite Ham.
  case_bool_decide as Hc; [done|]. rewrite Ham. intros Hw. split; [done|]. intros [= <- <-]. done.
Qed.

Lemma changes_shrink effects am : am_waiting_for (changes effects am) = am_waiting_for am \/ am_waiting_for (changes effects am) = None.
Proof.
  revert am. induction effects as [|e effects IH]; intros am; [by left|]. cbn. destruct e as [name value| | |]; try apply IH.
  destruct (IH (property_changed name value am)) as [He|He]; [|by right]. destruct (am_waiting_for (property_changed name value am)) as [[n v]|] eqn:Hp.
  - apply property_changed_left in Hp as [Hp _]. left. unfold changes in He. by rewrite He, Hp.
  - right. unfold changes in He. by rewrite He.
Qed.

Lemma add_actions_waiting actions am : am_waiting_for (add_actions actions am) = am_waiting_for am.
Proof. revert am. induction actions as [|a actions IH]; intros am; [done|]. exact (IH (add_action a false None am)). Qed.

Lemma run_internal_careful command : command_clean command -> careful (fun w => idle w) (run_internal command).
Proof.
  intros Hclean. destruct command; cbn [run_internal]; try (apply careful_weaken, careful_ret).
  - apply careful_weaken. apply careful_bind; [apply careful_gets|]. intros pending.
    apply careful_bind; [apply careful_alter; intros am; by destruct bootstrap|]. intros _.
    apply careful_bind; [|intros; apply careful_ret]. destruct pending; [|apply careful_ret]. apply careful_alter. intros am. by rewrite add_actions_waiting.
  - destruct (starts_with _ _); [apply careful_weaken, careful_ret|]. destruct (bool_decide _); [apply careful_weaken, careful_ret|].
    intros w Hw. apply wp_bind. unfold wpx at 1, set_property. destruct (init_set name value (w_properties w)) as [[r p']| |]; try done. cbn.
    apply wp_bind. destruct r as [effects|]; cbn; intros name' value' Hn; cbn in Hn; [by rewrite changes_waiting in Hn|by rewrite Hw in Hn].
  - apply careful_weaken. apply careful_bind; [by apply careful_alter|]. intros. apply careful_ret.
  - apply careful_weaken. apply careful_bind; [apply careful_call|]. intros legal. destruct (negb legal); [apply careful_ret|].
    destruct (_ <=? _); [apply careful_ret|]. intros w Hw. 
    assert (careful (fun w => waits w) ((properties ← gets w_properties; on_manager (start_waiting properties name value)) ≫=
      fun started : bool => mret (if started then Ok tt else Err AlreadyWaiting))) as Hc.
    { apply careful_bind; [by apply careful_start|]. intros. apply careful_ret. }
    specialize (Hc w Hw). unfold wpx, mbind, M_bind in *. done.
  - destruct x; try (apply careful_weaken, careful_ret); apply careful_weaken.
    + intros w Hw. assert (careful (fun w => waits w) ((properties ← gets w_properties; on_manager (start_waiting properties COLD_BOOT_DONE_PROP (lit "true"))) ≫=
        fun _ => mret (Ok (E := RunError) tt))) as Hc.
      { apply careful_bind; [apply careful_start; by apply (bool_decide_eq_true_1 _)|]. intros. apply careful_ret. }
      specialize (Hc w Hw). unfold wpx, mbind, M_bind in *. done.
    + apply careful_bind; [by apply careful_alter|]. intros. apply careful_bind; [by apply careful_alter|]. intros. apply careful_ret.
    + apply careful_bind; [by apply careful_alter|]. intros. apply careful_ret.
Qed.

Lemma after_executor_careful command : careful (fun w => waits w) (after_executor command).
Proof.
  destruct command; cbn [after_executor]; try apply careful_ret. intros w Hw.
  assert (careful (fun w => waits w) ((properties ← gets w_properties; on_manager (start_waiting properties PERSISTENT_PROPERTIES_READY_PROP (lit "true"))) ≫=
    fun _ => mret tt)) as Hc.
  { apply careful_bind; [apply careful_start; by apply (bool_decide_eq_true_1 _)|]. intros. apply careful_ret. }
  specialize (Hc w Hw). unfold wpx, mbind, M_bind in *. done.
Qed.

Lemma run_command_careful entry spec command : command_clean command -> careful (fun w => idle w) (run_command entry spec command).
Proof.
  intros Hc. apply careful_bind; [by apply run_internal_careful|]. intros [[]|e]; [|apply careful_ret].
  apply careful_bind; [apply careful_gets|]. intros services. apply careful_bind.
  - intros w Hw. unfold wpx, call_executor. destruct (execute _ (w_executor w)) as [[r x']| |]; done.
  - intros [flow|e]; [|apply careful_ret]. apply careful_bind; [destruct flow; [apply careful_ret|by apply careful_alter]|]. intros _.
    apply careful_bind; [apply after_executor_careful|]. intros. apply careful_ret.
Qed.

Lemma build_command_reads entry spec (w : World) r w' : build_command entry spec w = Done (r, w') -> w' = w.
Proof.
  unfold build_command. destruct (ae_init_action entry); [by intros [= _ <-]|]. unfold mbind, M_bind, get, call. intros Hb.
  unfold mret, M_ret in Hb. repeat (case_match; try done); by simplify_eq.
Qed.

Lemma execute_command_careful entry index spec (w : World) : entry_ok entry -> ac_commands (ae_action entry) !! index = Some spec ->
  world_ok (ok := ok) w -> idle w -> wpx True True (execute_command entry index) (fun _ w' => waits w') w.
Proof.
  intros He Hi Hw Hidle. unfold execute_command. rewrite Hi. apply wp_bind. cbn [unwrap]. unfold wpx at 1, call. apply wp_bind.
  pose proof (build_command_acts entry spec He (list_elem_of_lookup_2 _ _ _ Hi) w Hw) as Hb. unfold wpx in Hb. unfold wpx at 1.
  destruct (build_command entry spec w) as [[[expanded command] w1]| |] eqn:Hbuild; try done. apply build_command_reads in Hbuild as ->.
  destruct Hb as [_ Hclean]. destruct command as [command|e]; [|by apply idle_waits]. apply wp_bind.
  eapply wp_mono; [apply run_command_careful; [by apply Hclean|done]|]. by intros.
Qed.

Lemma finish_waiting id entry am : am_waiting_for (finish id entry am) = am_waiting_for am.
Proof. unfold finish. by repeat case_match. Qed.

Lemma step_careful (w : World) step w' : world_ok (ok := ok) w -> waits w ->
  execute_one_command 1 w = Done (step, w') -> waits w'.
Proof.
  intros Hw Hwaits Hs. destruct (blocked_step w) as [Hwait Hexec]. destruct (am_waiting_for (w_manager w)) as [[name value]|] eqn:Hwf.
  { rewrite (Hwait _ _ eq_refl) in Hs. by injection Hs as _ <-. }
  destruct (am_exec_running (w_manager w)) eqn:Hr; [rewrite (Hexec eq_refl eq_refl) in Hs; by injection Hs as _ <-|].
  destruct (loads_ends w Hw) as (am & Hl & Hok & _ & Hwam & _). rewrite (step_unfold w am Hl Hwf Hr) in Hs. rewrite Hwf in Hwam.
  destruct (am_executing am) as [|id rest] eqn:Hex; [injection Hs as _ <-; by apply idle_waits|].
  destruct (agenda_head am id rest Hok Hex) as (entry & spec & Hf & Hin & _ & Hspec & _). rewrite Hf in Hs. revert Hs.
  assert (entry_ok entry) as He by (pose proof (eo_entries _ Hok) as Hall; rewrite list.Forall_forall in Hall; by apply Hall).
  pose proof (execute_command_careful entry (am_current_command am) spec (with_manager w am) He Hspec (conj Hok (proj2 Hw)) Hwam) as Hx. unfold wpx in Hx.
  unfold run_entry. rewrite (bind_run (gets _) _ _ _ _ eq_refl). cbn [with_manager w_manager]. unfold mbind, M_bind.
  destruct (execute_command entry _ _) as [[x w1]| |]; try done. intros [= _ <-]. intros name value. cbn. rewrite finish_waiting. apply Hx.
Qed.
End waits.

(** ** The engine over the property service *)

Section system.
Context `{HostFs} `{Env, Powi} `{CommandExecutor X}.
Abbreviation World := (World (P := PropertyService) (X := X)).

(** Changes are told to the engine at once. *)
Definition tells (ps : PropertyService) : Prop := ps_accept_messages ps = true /\ ps_async_persist_writes ps = false.

(** A step of the engine, the request of a client with its effects, or the end of an
    [exec] service. *)
Inductive system_step (w w' : World) : Prop :=
| system_command step : execute_one_command 1 w = Done (step, w') -> system_step w w'
| system_request name value source cred from_socket o ps :
    no_nul value -> PropService.handle_set name value source cred from_socket (w_properties w) = Done (o, ps) ->
    w' = mkWorld (changes (so_effects o) (w_manager w)) ps (w_executor w) -> system_step w w'
| system_exec_ends : w' = with_manager w (exec_finished (w_manager w)) -> system_step w w'.

Context entries default_context default_type memory_for (Hc : config_ok entries default_context default_type memory_for).
Hypothesis executor_ends : forall invocation (x : X), exists r x', execute invocation x = Done (r, x').
Abbreviation state := (service_state entries default_context default_type memory_for).

Definition telling (ps : PropertyService) : Prop := state ps /\ tells ps.

#[local] Instance telling_ok : PropertiesOk telling.
Proof.
  split.
  - intros ps name [Hs _] Hn. by apply (@lookup_ends _ _ _ _ (service_properties_ok _ _ _ _ Hc)).
  - intros ps name value [[[m serial] Hr] [Hacc Hasync]] Hv.
    destruct (handle_set_ok _ _ _ _ Hc ps m serial name value INIT_CONTEXT Ucred_INIT true Hr Hv) as (o & ps' & g & Hh & Hr' & (_ & _ & Ha' & Hm' & _) & _).
    unfold init_set, service_set, PropService.builtin_set. unfold mbind, M_bind. rewrite Hh.
    destruct (negb _); eexists _, _; (split; [done|]); (split; [by exists g|split; congruence]).
Qed.

Lemma value_of ps g name : reaches entries default_context default_type memory_for (ps_areas ps) g -> no_nul name ->
  property_or ps name [] = Done (default [] (from_utf8_lossy ∘ e_value <$> g.1 !! name)).
Proof.
  intros Hr Hn. unfold property_or. rewrite (service_property _ _ _ _ Hc ps g name Hr Hn). cbn. destruct (g.1 !! name); cbn; [|done].
  by case_bool_decide as He; [rewrite He|].
Qed.

(** A request that gives the property its value ends the wait. *)
Lemma request_waits name value source cred from_socket ps o ps' am :
  state ps -> tells ps -> no_nul value -> PropService.handle_set name value source cred from_socket ps = Done (o, ps') -> awaits am ps ->
  state ps' /\ tells ps' /\ awaits (changes (so_effects o) am) ps'.
Proof.
  intros [[m serial] Hr] [Hacc Hasync] Hv Hh Hwaits.
  destruct (handle_set_ok _ _ _ _ Hc ps m serial name value source cred from_socket Hr Hv) as (o' & ps1 & g & Hh' & Hr' & Hrules & Hres).
  rewrite Hh in Hh'. injection Hh' as <- <-. destruct Hrules as (_ & _ & Hasync' & Hacc' & _).
  split; [by exists g|]. split; [split; congruence|].
  assert (forall am', (am_waiting_for am' = am_waiting_for am \/ am_waiting_for am' = None) -> g = (m, serial) -> awaits am' ps') as Hsame.
  { intros am' [Ham|Ham] -> n v Hn; rewrite Ham in Hn; [|done]. destruct (Hwaits n v Hn) as (Hnn & current & Hcur & Hne). split; [done|].
    exists current. split; [|done]. rewrite (value_of ps' (m, serial) n Hr' Hnn). by rewrite (value_of ps (m, serial) n Hr Hnn) in Hcur. }
  pose proof (changes_shrink (so_effects o) am) as Hshrink.
  destruct Hres as [| | | |o g _ _ Hset]; [by apply Hsame..|].
  destruct Hset as [| | | | |_ _ _ _]; [by apply Hsame..|]. clear Hsame Hshrink.
  assert (changes (so_effects (stored_outcome ps name (from_utf8_lossy value) from_socket)) am = property_changed name (from_utf8_lossy value) am) as ->.
  { unfold stored_outcome, told. rewrite Hacc, Hasync. by destruct (_ && needs_persist name)%bool. }
  intros n v Hn. apply property_changed_left in Hn as [Hn Hne]. destruct (Hwaits n v Hn) as (Hnn & current & Hcur & Hcv). split; [done|].
  rewrite (value_of ps' _ n Hr' Hnn). cbn [fst]. eexists. split; [done|]. rewrite (value_of ps _ n Hr Hnn) in Hcur. injection Hcur as <-.
  destruct (decide (n = name)) as [->|Hnm].
  - destruct (stored_value m name value) as (e & -> & He). cbn. rewrite He. intros <-. done.
  - by rewrite stored_other.
Qed.

Lemma system_steps_wait (w w' : World) : rtc system_step w w' ->
  world_ok (ok := telling) w -> awaits (w_manager w) (w_properties w) -> awaits (w_manager w') (w_properties w').
Proof.
  intros Hs. induction Hs as [w|w w1 w' Hstep _ IH]; [done|]. intros Hw Hwaits. pose proof Hw as [Hok [Hst Ht]].
  destruct Hstep as [step Hs|name value source cred from_socket o ps Hv Hh ->| ->].
  - destruct (step_ends executor_ends w Hw) as (step' & w2 & Hs' & Hw2). rewrite Hs in Hs'. injection Hs' as <- <-.
    apply IH; [done|by apply (step_careful (ok := telling) w step)].
  - destruct (request_waits _ _ _ _ _ _ _ _ _ Hst Ht Hv Hh Hwaits) as (Hst' & Ht' & Hwaits'). apply IH; [|done].
    split; [|done]. apply (same_extends _ _ Hok), changes_same.
  - apply IH; [|done]. split; [|done]. apply (same_extends _ _ Hok). split_and!; auto.
Qed.
End system.

(** C19: No wait for a property is missed: whatever commands the engine runs and
    clients set, the engine is never blocked on a property that has the value it
    waits for.  A wait is not begun when the value is there, and the set that gives
    the property the value tells the engine, as long as the service tells changes
    at once, which it does not after a shutdown or with asynchronous persistent
    writes. *)
Theorem no_wait_is_missed `{HostFs} `{Env, Powi} `{CommandExecutor X} entries default_context default_type memory_for
    (w w' : World (P := PropertyService) (X := X)) name value :
  config_ok entries default_context default_type memory_for ->
  (forall invocation (x : X), exists r x', execute invocation x = Done (r, x')) ->
  engine_ok (w_manager w) -> am_waiting_for (w_manager w) = None ->
  (exists g, reaches entries default_context default_type memory_for (ps_areas (w_properties w)) g) -> tells (w_properties w) ->
  rtc system_step w w' -> am_waiting_for (w_manager w') = Some (name, value) ->
  exists current, property_or (w_properties w') name [] = Done current /\ current <> value.
Proof.
  intros Hc Hx Hok Hidle Hst Ht Hs Hwait. eapply (system_steps_wait _ _ _ _ Hc Hx w w' Hs); [by split; [|split]| |exact Hwait].
  intros n v Hn. by rewrite Hidle in Hn.
Qed.

(** ** Examples *)

(** An action that waits, and one that it triggers. *)
Definition wait_action : Action :=
  mkAction (lit "early-init") [] [mkCommandSpec BTrigger [lit "trigger"; lit "go"] 2; mkCommandSpec BWaitForProp [lit "wait_for_prop"; lit "sys.a"; lit "1"] 3]
    (lit "/a.rc") 1 false.
Definition go_action : Action := mkAction (lit "go") [(lit "sys.b", lit "*")] [mkCommandSpec BStart [lit "start"; lit "x"] 5] (lit "/a.rc") 4 false.
Definition two_actions : @ParsedScripts one_file := mkParsedScripts [] [wait_action; go_action] [lit "/a.rc"] [] 0.
Definition wait_scripts : @InitScripts one_file := mkInitScripts _ two_actions no_scripts no_scripts.

Lemma two_actions_ok : @scripts_ok one_file two_actions.
Proof.
  split_and!; [constructor..| |reflexivity]. repeat (apply list.Forall_cons; split); try apply list.Forall_nil_2;
    (split; [discriminate|split; [repeat (apply list.Forall_cons; split); try apply list.Forall_nil_2; reflexivity|split; [left; discriminate|]]]);
    split; apply (bool_decide_eq_true_1 _); vm_compute; reflexivity.
Qed.

Lemma wait_scripts_ok : @init_scripts_ok one_file wait_scripts.
Proof. split; [apply two_actions_ok|split; split_and!; (constructor || reflexivity)]. Qed.

Definition no_commands : DryRunExecutor := mkDryRunExecutor [] [].
Lemma dry_run_ends invocation (x : DryRunExecutor) : exists r x', execute invocation x = Done (r, x').
Proof. by eexists _, _. Qed.

Lemma engine_never_panics_witness :
  exists am, @queue_boot one_file _ map_lookup (∅ : gmap str str) (ActionManager_new wait_scripts 36) = Done am /\
    exists step w', execute_one_command 1 (mkWorld am (∅ : gmap str str) no_commands) = Done (step, w').
Proof.
  destruct (@engine_never_panics one_file _ _ _ _ map_properties_ok _ _ wait_scripts 36 ∅ no_commands dry_run_ends wait_scripts_ok) as (am & Hq & Hrun).
  - apply map_Forall_empty.
  - exists am. split; [exact Hq|]. apply Hrun. apply rtc_refl.
Defined.

Definition wait_manager : @ActionManager one_file := queue_event_trigger (lit "early-init") (ActionManager_new wait_scripts 36).
Definition map_world : World (P := gmap str str) (X := DryRunExecutor) := mkWorld wait_manager ∅ no_commands.

Lemma wait_manager_ok : engine_ok wait_manager.
Proof. apply (same_extends _ _ (manager_new_ok wait_scripts 36 wait_scripts_ok)), queue_event_same. Qed.


Lemma events_start_actions_witness : exists keep,
  started (∅ : gmap str str) (OnTrigger (lit "early-init")) (am_actions wait_manager) = Done (ae_id <$> List.filter keep (am_actions wait_manager)) /\
  List.filter keep (am_actions wait_manager) = [mkActionEntry 0 wait_action false None].
Proof.
  destruct (@events_start_actions _ _ _ _ map_properties_ok (∅ : gmap str str) (OnTrigger (lit "early-init")) (am_actions wait_manager)) as (keep & Hs & Hkeep).
  - apply map_Forall_empty.
  - exact (eo_entries _ wait_manager_ok).
  - exists keep. split; [exact Hs|]. cbn. 
    assert (keep (mkActionEntry 0 wait_action false None) = true) as -> by (apply Hkeep; [left|split; [reflexivity|constructor]]).
    assert (keep (mkActionEntry 1 go_action false None) = false) as ->; [|reflexivity].
    apply not_true_is_false. intros Hk. apply Hkeep in Hk as [Heq _]; [discriminate Heq|right; left].
Defined.

Definition service_world : World (P := PropertyService) (X := DryRunExecutor) := mkWorld wait_manager some_service no_commands.
Definition after_commands (n : nat) (w : World (P := PropertyService) (X := DryRunExecutor)) : World (P := PropertyService) (X := DryRunExecutor) :=
  Nat.iter n (fun w => match @execute_one_command one_file _ (@service_lookup debug_env) (@service_set debug_env exact_powi) _ _ 1 w with Done (_, w) => w | _ => w end) w.

Lemma no_wait_is_missed_witness :
  am_waiting_for (w_manager (after_commands 2 service_world)) = Some (lit "sys.a", lit "1") /\
  exists current, @property_or _ (@service_lookup debug_env) (w_properties (after_commands 2 service_world)) (lit "sys.a") [] = Done current /\ current <> lit "1".
Proof.
  assert (am_waiting_for (w_manager (after_commands 2 service_world)) = Some (lit "sys.a", lit "1")) as Hwait by (vm_compute; reflexivity).
  split; [exact Hwait|].
  apply (@no_wait_is_missed one_file debug_env exact_powi _ _ some_entries DEFAULT_CONTEXT DEFAULT_TYPE some_memory service_world _ _ (lit "1") some_config
    dry_run_ends wait_manager_ok eq_refl (ex_intro _ _ some_reached) (conj eq_refl eq_refl)); [|exact Hwait].
  apply (rtc_l _ _ (after_commands 1 service_world)); [|apply rtc_once]; eapply system_command; vm_compute; reflexivity.
Defined.

(** ** A set that is lost *)

Definition async_service : PropertyService :=
  mkPropertyService some_areas Permissive true true true true.
Definition async_world : World (P := PropertyService) (X := DryRunExecutor) :=
  mkWorld (wait_manager <| am_property_triggers_enabled := true |>) async_service no_commands.

