(* ===== verification/PropLoad.v ===== *)
(** The properties that init sets at boot
    ([src/crates/aim-android-init/src/props/load.rs]): the serialized contexts
    of an image, what the kernel gives, the [.prop] files of the partitions and
    the properties derived of them. *)

From Stdlib Require Import ZArith Lia.
From Stdlib Require Import Strings.String Strings.Byte.
From stdpp Require Import base numbers list gmap.
From S2P Require Import Prelude Text Bytes Libbase Double Area Info Areas Rules.
From S2P Require Import Service Expand Actions Image Script Loader Engine.

Open Scope Z_scope.
Open Scope binder_scope.

Definition SECOND_STAGE_RAMDISK_PROP : str := lit "/second_stage_resources/system/etc/ramdisk/build.prop".
Definition DEBUG_RAMDISK_PROP : str := lit "/debug_ramdisk/adb_debug.prop".
Definition ANDROID_VENDOR_API_MAX : Z := 1000000.
Definition ANDROID_API_V : Z := 35.

Definition PROPERTY_CONTEXTS_FILES : list str := [
  lit "/system/etc/selinux/plat_property_contexts";
  lit "/system_ext/etc/selinux/system_ext_property_contexts";
  lit "/vendor/etc/selinux/vendor_property_contexts";
  lit "/product/etc/selinux/product_property_contexts";
  lit "/odm/etc/selinux/odm_property_contexts"].

Definition PROPERTY_CONTEXTS_FILES_RAMDISK : list str := [
  lit "/plat_property_contexts";
  lit "/system_ext_property_contexts";
  lit "/vendor_property_contexts";
  lit "/product_property_contexts";
  lit "/odm_property_contexts"].

(** ** Text *)

(** The white space at the end, but never the first byte. *)
Definition trim_tail (s : str) : str :=
  match s with
  | [] => []
  | b :: s => b :: rev (drop_while is_c_space (rev s))
  end.

(** A line up to its first NUL, without the white space around it; nothing for
    a comment. *)
Definition prop_line (raw : list byte) : option str :=
  let raw := take (default (length raw) (position (fun b => bool_decide (b = x00)) raw)) raw in
  let line := skip_c_space raw in
  if starts_with (lit "#") line then None else Some (from_utf8_lossy (trim_tail line)).

(** The file and the filter of an [import]. *)
Definition import_of (line : str) : option (str * option str) :=
  match strip_prefix (lit "import ") line with
  | None => None
  | Some rest =>
      let rest := skip_c_space rest in
      match find_byte x20 rest with
      | Some space =>
          let filter := skip_c_space (drop (S space) rest) in
          Some (take space rest, if bool_decide (filter = []) then None else Some filter)
      | None => Some (rest, None)
      end
  end.

(** The key and the value of a line. *)
Definition key_value (line : str) : option (str * str) :=
  match find_byte x3d line with
  | None => None
  | Some equal => Some (trim_tail (take equal line), skip_c_space (drop (S equal) line))
  end.

Definition strip_star (filter : str) : option str :=
  match last filter with
  | Some b => if bool_decide (b = x2a) then Some (removelast filter) else None
  | None => None
  end.

Definition filter_admits (filter : option str) (key : str) : bool :=
  match filter with
  | None => true
  | Some filter =>
      match strip_star filter with
      | Some prefix => starts_with prefix key
      | None => bool_decide (key = filter)
      end
  end.

Definition special_meaning (key : str) : bool :=
  starts_with (lit "ctl.") key || bool_decide (key = lit "sys.powerctl") || bool_decide (key = RESTORECON_PROPERTY).

(** [to_string] of a number that is not negative; twenty digits are enough for
    64 bits. *)
Fixpoint digits_of (fuel : nat) (n : Z) : str :=
  match fuel with
  | O => []
  | S fuel => (if n <? 10 then [] else digits_of fuel (n / 10)) ++ [byte_of_Z (48 + n mod 10)]
  end.
Definition to_string (n : Z) : str := digits_of 20 n.

Fixpoint bt_remove {V} (key : str) (m : BTreeMap V) : BTreeMap V :=
  match m with
  | [] => []
  | (k, v) :: m => if bool_decide (k = key) then m else (k, v) :: bt_remove key m
  end.

(** The rows of a file, without a service. *)
Definition read_prop_file (contents : str) : list (str * str) :=
  split contents x0a ≫= fun raw =>
    let line := skip_c_space raw in
    if starts_with (lit "#") line || starts_with (lit "import ") line then [] else
    let line := rev (drop_while is_c_space (rev line)) in
    match split_once x3d line with
    | None => []
    | Some (key, value) => [(rev (drop_while is_c_space (rev key)), skip_c_space value)]
    end.

(** ** What is logged *)

Section log.
Context `{HostFs}.

Record LoadError := CouldNotLoad { le_file : str; le_error : IoError }.

Inductive LoadMessage :=
| BadContextsLine (error : InfoError)
| InitCannotSet (name value : str) (error : option SetError)
| CouldNotSet (name value what : str) (error : option SetError)
| CannotExpandFile (error : ExpandError)
| FileFailed (error : LoadError)
| SpecialProperty (key : str)
| NoPermission (key value : str) (error : SetError)
| Overriding (key existing value : str)
| LegacyNotLoaded (legacy1 legacy2 version_prop version : str) (until : Z)
| UnexpectedSource
| DigestTooSmall (digest : str)
| UnexpectedApiLevel
| CannotSetVersion (error : option SetError).

Record LoadDiagnostic := mkLoadDiagnostic { ld_severity : Severity; ld_file : str; ld_message : LoadMessage }.

(** The loader's service and what it has logged; the image is that of
    [ImageRoot], and the level of the vendor a parameter. *)
Record PropLoader := mkPropLoader { pl_service : PropertyService; pl_diagnostics : list LoadDiagnostic }.

(** ** The contexts of an image *)

Inductive ContextsError := UnreadableContexts (file : str) (error : IoError) | CannotSerialize (error : InfoError).
End log.

Section contexts.
Context `{Env} `{HostFs}.

(** One of the files; the first must be there. *)
Definition read_contexts_file (require_prefix_or_exact : bool) (index : nat) (file : str) (entries : list PropertyInfoEntry)
    (diagnostics : list LoadDiagnostic) : result (list PropertyInfoEntry * list LoadDiagnostic) ContextsError :=
  match ImageRoot.read file with
  | Err error => if (index =? 0)%nat then Err (UnreadableContexts file error) else Ok (entries, diagnostics)
  | Ok bytes =>
      let '(entries, errors) := parse_property_info_file (from_utf8_lossy bytes) require_prefix_or_exact entries in
      Ok (entries, diagnostics ++ ((fun error => mkLoadDiagnostic Error file (BadContextsLine error)) <$> errors))
  end.

Fixpoint read_contexts_files (require_prefix_or_exact : bool) (index : nat) (files : list str) (entries : list PropertyInfoEntry)
    (diagnostics : list LoadDiagnostic) : result (list PropertyInfoEntry) ContextsError * list LoadDiagnostic :=
  match files with
  | [] => (Ok entries, diagnostics)
  | file :: files =>
      match read_contexts_file require_prefix_or_exact index file entries diagnostics with
      | Err error => (Err error, diagnostics)
      | Ok (entries, diagnostics) => read_contexts_files require_prefix_or_exact (S index) files entries diagnostics
      end
  end.

Definition create_serialized_property_info (vendor_api_level : Z) (diagnostics : list LoadDiagnostic) :
    outcome (result (list byte) ContextsError * list LoadDiagnostic) :=
  let require_prefix_or_exact := ANDROID_API_R <=? vendor_api_level in
  let files := if ImageRoot.exists_ (lit "/system/etc/selinux/plat_property_contexts") then PROPERTY_CONTEXTS_FILES
               else PROPERTY_CONTEXTS_FILES_RAMDISK in
  match read_contexts_files require_prefix_or_exact 0 files [] diagnostics with
  | (Err error, diagnostics) => Done (Err error, diagnostics)
  | (Ok entries, diagnostics) =>
      r ← Serializer.build_trie entries DEFAULT_CONTEXT DEFAULT_TYPE;
      Done (match r with Ok data => Ok data | Err error => Err (CannotSerialize error) end, diagnostics)
  end.
End contexts.

(** ** Loading files *)

Record KernelBootProperties := mkKernelBootProperties {
  kb_device_tree : list (str * str);
  kb_cmdline : list (str * str);
  kb_bootconfig : list (str * str);
}.

Record PropertyInitOptions := mkPropertyInitOptions {
  po_kernel : KernelBootProperties;
  po_build_incremental : option str;
  po_recovery : bool;
  po_page_size : Z;
  po_vendor_api_level : Z;
}.
Definition PropertyInitOptions_default : PropertyInitOptions :=
  mkPropertyInitOptions (mkKernelBootProperties [] [] []) None false 16384 ANDROID_API_FUTURE.

Section load.
Context `{Env, Powi} `{HostFs} (vendor_api_level : Z).
Abbreviation PL X := (M PropLoader X).

Definition log (severity : Severity) (file : str) (message : LoadMessage) : PL unit :=
  modify (fun l => mkPropLoader (pl_service l) (pl_diagnostics l ++ [mkLoadDiagnostic severity file message])).

Definition on_service {X} (c : M PropertyService X) : PL X := fun l =>
  '(x, service) ← c (pl_service l);
  Done (x, mkPropLoader service (pl_diagnostics l)).

Definition init_set (name value : str) : PL unit :=
  outcome ← on_service (PropService.init_set name value);
  if negb (is_success outcome) then log Error (lit "<init>") (InitCannotSet name value (so_error outcome)) else mret tt.

Definition set_no_socket (name value what : str) : PL unit :=
  outcome ← on_service (PropService.set_no_socket name value);
  if negb (is_success outcome) then log Error (lit "<init>") (CouldNotSet name value what (so_error outcome)) else mret tt.

Definition get (name default_ : str) : PL str :=
  service ← gets pl_service;
  call (property_or service name default_).

Definition file_context (filename : str) : str :=
  if (ANDROID_API_P <=? vendor_api_level) &&
     existsb (fun prefix => starts_with prefix filename) [lit "/vendor"; lit "/odm"; lit "/vendor_dlkm"; lit "/odm_dlkm"]
  then VENDOR_INIT_CONTEXT else INIT_CONTEXT.

(** A line with a key and a value: the properties after it. *)
Definition add_property (filename : str) (filter : option str) (key value : str) (properties : BTreeMap str) : PL (BTreeMap str) :=
  if negb (filter_admits filter key) then mret properties else
  if special_meaning key then log Error filename (SpecialProperty key);; mret properties else
  checked ← on_service (PropService.check_permissions key value (file_context filename) Ucred_INIT);
  match checked with
  | Err (_, error) => log Error filename (NoPermission key value error);; mret properties
  | Ok _ =>
      match bt_get key properties with
      | None => mret (bt_insert key value properties)
      | Some existing =>
          if bool_decide (existing = value) then mret properties else
          log Warning filename (Overriding key existing value);;
          mret (bt_insert key value properties)
      end
  end.

(** The lines of a file, by what loads an imported one. *)
Section lines.
Context (load_file : str -> option str -> BTreeMap str -> PL (BTreeMap str * result unit LoadError)).

Definition load_import (filename file : str) (filter : option str) (properties : BTreeMap str) : PL (BTreeMap str) :=
  service ← gets pl_service;
  expanded ← call (expand_props service vendor_api_level file);
  match expanded with
  | Err error => log Error filename (CannotExpandFile error);; mret properties
  | Ok expanded =>
      '(properties, r) ← load_file expanded filter properties;
      (match r with Ok _ => mret tt | Err error => log Warning filename (FileFailed error) end);;
      mret properties
  end.

Definition load_line (filename : str) (filter : option str) (raw : list byte) (properties : BTreeMap str) : PL (BTreeMap str) :=
  match prop_line raw with
  | None => mret properties
  | Some line =>
      match (if bool_decide (default [] filter = []) then import_of line else None) with
      | Some (file, filter) => load_import filename file filter properties
      | None =>
          match key_value line with
          | None => mret properties
          | Some (key, value) => add_property filename filter key value properties
          end
      end
  end.

Fixpoint load_lines (filename : str) (filter : option str) (lines : list (list byte)) (properties : BTreeMap str) : PL (BTreeMap str) :=
  match lines with
  | [] => mret properties
  | raw :: lines =>
      properties ← load_line filename filter raw properties;
      load_lines filename filter lines properties
  end.

Definition load_properties (data : list byte) (filter : option str) (filename : str) (properties : BTreeMap str) : PL (BTreeMap str) :=
  load_lines filename filter (removelast (split data x0a)) properties.
End lines.

(** By the depth of the imports. *)
Fixpoint load_file (depth : nat) (filename : str) (filter : option str) (properties : BTreeMap str) :
    PL (BTreeMap str * result unit LoadError) :=
  match depth with
  | O => spin
  | S depth =>
      match ImageRoot.read filename with
      | Err error => mret (properties, Err (CouldNotLoad filename error))
      | Ok contents =>
          properties ← load_properties (load_file depth) (contents ++ [x0a]) filter filename properties;
          mret (properties, Ok tt)
      end
  end.
Context (depth : nat).

(** A file of which it does not matter whether it is there. *)
Definition load_optional (filename : str) (properties : BTreeMap str) : PL (BTreeMap str) :=
  '(properties, _) ← load_file depth filename None properties;
  mret properties.

(** A file that is missed with a message. *)
Definition load_logged (severity : Severity) (filename : str) (properties : BTreeMap str) : PL (BTreeMap str) :=
  '(properties, r) ← load_file depth filename None properties;
  (match r with Ok _ => mret tt | Err error => log severity filename (FileFailed error) end);;
  mret properties.

Definition load_partition (partition : str) (support_legacy_path_until : Z) (properties : BTreeMap str) : PL (BTreeMap str) :=
  let path := lit "/" ++ partition ++ lit "/etc/build.prop" in
  '(properties, r) ← load_file depth path None properties;
  match r with
  | Ok _ => mret properties
  | Err _ =>
      let legacy1 := lit "/" ++ partition ++ lit "/default.prop" in
      let legacy2 := lit "/" ++ partition ++ lit "/build.prop" in
      temp ← load_optional legacy1 [];
      temp ← load_optional legacy2 temp;
      let version_prop := lit "ro." ++ partition ++ lit ".build.version.sdk" in
      let support_legacy :=
        match bt_get version_prop temp with
        | None => true
        | Some value =>
            match parse_int value (- 2 ^ 31) (2 ^ 31 - 1) with
            | Some v => v <=? support_legacy_path_until
            | None => false
            end
        end in
      if support_legacy : bool then
        properties ← load_optional legacy1 properties;
        load_optional legacy2 properties
      else
        version ← call (unwrap (bt_get version_prop temp));
        log Error legacy1 (LegacyNotLoaded legacy1 legacy2 version_prop version support_legacy_path_until);;
        mret properties
  end.

(** The files of [load_boot_defaults], in its order. *)
Definition load_boot_files (recovery : bool) : PL (BTreeMap str) :=
  properties ← (if recovery then load_logged Error (lit "/prop.default") [] else mret []);
  properties ← (if ImageRoot.exists_ SECOND_STAGE_RAMDISK_PROP then load_logged Warning SECOND_STAGE_RAMDISK_PROP properties
                else mret properties);
  properties ← load_logged Warning (lit "/system/build.prop") properties;
  properties ← load_partition (lit "system_ext") 30 properties;
  properties ← load_optional (lit "/system_dlkm/etc/build.prop") properties;
  properties ← load_optional (lit "/vendor/default.prop") properties;
  properties ← load_optional (lit "/vendor/build.prop") properties;
  properties ← load_optional (lit "/vendor_dlkm/etc/build.prop") properties;
  properties ← load_optional (lit "/odm_dlkm/etc/build.prop") properties;
  properties ← load_partition (lit "odm") 28 properties;
  properties ← load_partition (lit "product") 30 properties;
  if ImageRoot.exists_ DEBUG_RAMDISK_PROP then load_logged Warning DEBUG_RAMDISK_PROP properties else mret properties.

(** ** Derived properties *)

Definition PRODUCT_PROPS : list str := [lit "brand"; lit "device"; lit "manufacturer"; lit "model"; lit "name"].
Definition ALLOWED_SOURCES : list str := [lit "odm"; lit "product"; lit "system_ext"; lit "system"; lit "vendor"].
Definition DEFAULT_ORDER : str := lit "product,odm,vendor,system_ext,system".

(** The first of the sources that gives the property. *)
Fixpoint product_prop (base prop : str) (sources : list str) : PL unit :=
  match sources with
  | [] => mret tt
  | source :: sources =>
      value ← get (lit "ro.product." ++ source ++ lit "." ++ prop) [];
      if bool_decide (value = []) then product_prop base prop sources
      else set_no_socket base value (lit "(product property)")
  end.

Definition source_order : PL str :=
  order ← get (lit "ro.product.property_source_order") [];
  if bool_decide (order = []) then mret DEFAULT_ORDER else
  if existsb (fun source => negb (bool_decide (source ∈ ALLOWED_SOURCES))) (split order x2c) then
    log Error (lit "<init>") UnexpectedSource;; mret DEFAULT_ORDER
  else mret order.

Definition initialize_ro_product_props : PL unit :=
  order ← source_order;
  for_each (fun prop =>
    let base := lit "ro.product." ++ prop in
    current ← get base [];
    if bool_decide (current = []) then product_prop base prop (split order x2c) else mret tt) PRODUCT_PROPS.

Definition initialize_build_id : PL unit :=
  current ← get (lit "ro.build.id") [];
  if negb (bool_decide (current = [])) then mret tt else
  legacy ← get (lit "ro.build.legacy.id") [];
  digest ← get (lit "ro.boot.vbmeta.digest") [];
  build_id ← (if (length digest <? 8)%nat then log Error (lit "<init>") (DigestTooSmall digest);; mret legacy
              else mret (legacy ++ lit "." ++ from_utf8_lossy (take 8 digest)));
  set_no_socket (lit "ro.build.id") build_id (lit "(build id)").

Definition unknown : str := lit "unknown".

Definition construct_fingerprint (legacy : bool) : PL str :=
  brand ← get (lit "ro.product.brand") unknown;
  name ← get (lit "ro.product.name") unknown;
  device ← get (lit "ro.product.device") unknown;
  release ← get (lit "ro.build.version.release_or_codename") unknown;
  id ← get (if legacy then lit "ro.build.legacy.id" else lit "ro.build.id") unknown;
  incremental ← get (lit "ro.build.version.incremental") unknown;
  type_ ← get (lit "ro.build.type") unknown;
  tags ← get (lit "ro.build.tags") unknown;
  mret (brand ++ lit "/" ++ name ++ lit "/" ++ device ++ lit ":" ++ release ++ lit "/" ++ id ++ lit "/" ++ incremental ++
        lit ":" ++ type_ ++ lit "/" ++ tags).

Definition derive_build_fingerprint : PL unit :=
  current ← get (lit "ro.build.fingerprint") [];
  if negb (bool_decide (current = [])) then mret tt else
  fingerprint ← construct_fingerprint false;
  set_no_socket (lit "ro.build.fingerprint") fingerprint (lit "(fingerprint)").

Definition derive_legacy_build_fingerprint : PL unit :=
  current ← get (lit "ro.build.legacy.fingerprint") [];
  if negb (bool_decide (current = [])) then mret tt else
  id ← get (lit "ro.build.legacy.id") [];
  if bool_decide (id = []) then mret tt else
  fingerprint ← construct_fingerprint true;
  set_no_socket (lit "ro.build.legacy.fingerprint") fingerprint (lit "(legacy fingerprint)").

(** The lists of the first source that has one. *)
Fixpoint abilists (abilist32 abilist64 : str) (sources : list str) : PL (str * str) :=
  match sources with
  | [] => mret (abilist32, abilist64)
  | source :: sources =>
      abilist32 ← get (lit "ro." ++ source ++ lit ".product.cpu.abilist32") [];
      abilist64 ← get (lit "ro." ++ source ++ lit ".product.cpu.abilist64") [];
      if negb (bool_decide (abilist32 = [])) || negb (bool_decide (abilist64 = [])) then mret (abilist32, abilist64)
      else abilists abilist32 abilist64 sources
  end.

Definition initialize_ro_cpu_abilist : PL unit :=
  current ← get (lit "ro.product.cpu.abilist") [];
  if negb (bool_decide (current = [])) then mret tt else
  '(abilist32, abilist64) ← abilists [] [] [lit "product"; lit "odm"; lit "vendor"; lit "system"];
  let abilist :=
    if bool_decide (abilist32 = []) then abilist64
    else (if bool_decide (abilist64 = []) then abilist64 else abilist64 ++ lit ",") ++ abilist32 in
  set_no_socket (lit "ro.product.cpu.abilist") abilist (lit "(abilist)");;
  set_no_socket (lit "ro.product.cpu.abilist32") abilist32 (lit "(abilist)");;
  set_no_socket (lit "ro.product.cpu.abilist64") abilist64 (lit "(abilist)").

Definition int_property (name : str) (default_ : Z) : PL Z :=
  value ← get name [];
  mret (default default_ (parse_int value (- 2 ^ 31) (2 ^ 31 - 1))).

(** [AVendorSupport_getVendorApiLevelOf]. *)
Definition vendor_api_level_of (product_first : Z) : Z :=
  if product_first <? ANDROID_API_V then product_first
  else if product_first <? ANDROID_API_FUTURE then 202404 + (product_first - ANDROID_API_V) * 100
  else -1.

Definition initialize_ro_vendor_api_level : PL unit :=
  present ← on_service (PropService.on_areas (PropAreas.contains (lit "ro.vendor.api_level")));
  if present : bool then mret tt else
  first ← int_property (lit "ro.board.first_api_level") ANDROID_VENDOR_API_MAX;
  level ← (if first =? ANDROID_VENDOR_API_MAX then mret first else int_property (lit "ro.board.api_level") first);
  product_first ← int_property (lit "ro.product.first_api_level") ANDROID_API_FUTURE;
  product_first ← (if product_first =? ANDROID_API_FUTURE then int_property (lit "ro.build.version.sdk") ANDROID_API_FUTURE
                   else mret product_first);
  let level := Z.min (vendor_api_level_of product_first) level in
  level ← (if level <? 0 then log Error (lit "<init>") UnexpectedApiLevel;; mret ANDROID_VENDOR_API_MAX else mret level);
  set_no_socket (lit "ro.vendor.api_level") (to_string level) (lit "(vendor api level)").

Definition update_sys_usb_config : PL unit :=
  text ← get (lit "ro.debuggable") [];
  let debuggable := default false (parse_bool text) in
  config ← get (lit "persist.sys.usb.config") [];
  if bool_decide (config = []) || bool_decide (config = lit "none") then
    init_set (lit "persist.sys.usb.config") (if debuggable : bool then lit "adb" else lit "none")
  else if debuggable && negb (bool_decide (is_Some (find_str (lit "adb") config))) && (zlen config + 4 <? PROP_VALUE_MAX) then
    init_set (lit "persist.sys.usb.config") (config ++ lit ",adb")
  else mret tt.

Definition with_incremental (build_incremental : option str) (properties : BTreeMap str) : BTreeMap str :=
  match build_incremental with
  | None => properties
  | Some incremental =>
      bt_remove (lit "ro.build.legacy.fingerprint")
        (bt_remove (lit "ro.build.fingerprint") (bt_insert (lit "ro.build.version.incremental") incremental properties))
  end.

Definition derive_properties : PL unit :=
  initialize_ro_product_props;;
  initialize_build_id;;
  derive_build_fingerprint;;
  derive_legacy_build_fingerprint;;
  initialize_ro_cpu_abilist;;
  initialize_ro_vendor_api_level;;
  update_sys_usb_config.

Definition load_boot_defaults (recovery : bool) (build_incremental : option str) : PL unit :=
  properties ← load_boot_files recovery;
  for_each (fun '(name, value) => set_no_socket name value (lit "while loading .prop files")) (with_incremental build_incremental properties);;
  derive_properties.

(** ** The start *)

Definition KERNEL_EXPORTS : list (str * str * str) := [
  (lit "ro.boot.serialno", lit "ro.serialno", []);
  (lit "ro.boot.mode", lit "ro.bootmode", lit "unknown");
  (lit "ro.boot.baseband", lit "ro.baseband", lit "unknown");
  (lit "ro.boot.bootloader", lit "ro.bootloader", lit "unknown");
  (lit "ro.boot.hardware", lit "ro.hardware", lit "unknown");
  (lit "ro.boot.revision", lit "ro.revision", lit "0")].

Definition export_kernel_boot_props : PL unit :=
  for_each (fun '(source, target, default_) =>
    value ← get source default_;
    if bool_decide (value = []) then mret tt else init_set target value) KERNEL_EXPORTS.

Definition kernel_prop (row : str * str) : PL unit :=
  match strip_prefix (lit "androidboot.") row.1 with
  | Some rest => init_set (lit "ro.boot." ++ rest) row.2
  | None => mret tt
  end.

Definition kernel_props (kernel : KernelBootProperties) : PL unit :=
  for_each (fun '(name, value) => init_set name value) (kb_device_tree kernel);;
  for_each kernel_prop (kb_cmdline kernel);;
  for_each kernel_prop (kb_bootconfig kernel).
End load.

Section init.
Context `{Env, Powi} `{HostFs}.

Definition property_init (depth : nat) (options : PropertyInitOptions) (service : PropertyService) :
    outcome (list LoadDiagnostic * PropertyService) :=
  '(_, loader) ←
    (kernel_props (po_kernel options);;
     export_kernel_boot_props;;
     load_boot_defaults (po_vendor_api_level options) depth (po_recovery options) (po_build_incremental options);;
     page_size ← get (lit "ro.boot.hardware.cpu.pagesize") [];
     if bool_decide (page_size = []) then
       set_no_socket (lit "ro.boot.hardware.cpu.pagesize") (to_string (po_page_size options)) (lit "(page size)")
     else mret tt) (mkPropLoader service []);
  Done (pl_diagnostics loader, pl_service loader).

Definition start_property_service (service : PropertyService) : outcome (list LoadDiagnostic * PropertyService) :=
  '(outcome, service) ← PropService.init_set (lit "ro.property_service.version") (lit "2") service;
  Done (if is_success outcome then [] else [mkLoadDiagnostic Error (lit "<init>") (CannotSetVersion (so_error outcome))], service).
End init.
