(* ===== verification/PropBoot.v ===== *)
(** What booting does to the properties: the stages of [PropLoad] on the
    properties that readers see. *)

From Stdlib Require Import ZArith Lia.
From Stdlib Require Import Strings.String Strings.Byte.
From stdpp Require Import base numbers list gmap.
From S2P Require Import Prelude Text Bytes Libbase Double Area Info Areas Rules.
From S2P Require Import InfoMatch AreasMap AreasSystem Service ServiceSpec PropertySystem.
From S2P Require Import Expand Actions Image Script Scripts Loader.
From S2P Require Import Engine EngineRun EngineSystem PropLoad.

Open Scope Z_scope.
Open Scope binder_scope.

(** Texts without NULs. *)
#[export] Hint Extern 1 (no_nul (list_byte_of_string _)) => apply (bool_decide_eq_true_1 _); vm_compute; reflexivity : clean.
#[export] Hint Resolve from_utf8_lossy_no_nul : clean.
Lemma default_order_clean : no_nul DEFAULT_ORDER.
Proof. by apply (bool_decide_eq_true_1 _). Qed.
Lemma unknown_clean : no_nul unknown.
Proof. by apply (bool_decide_eq_true_1 _). Qed.
#[export] Hint Resolve default_order_clean unknown_clean : clean.

Lemma drop_while_sub {A} (p : A -> bool) x l : x ∈ drop_while p l -> x ∈ l.
Proof. induction l as [|y l IH]; [done|]. cbn. destruct (p y); [|done]. intros Hin. right. auto. Qed.

Lemma trim_tail_sub x s : x ∈ trim_tail s -> x ∈ s.
Proof.
  destruct s as [|b s]; [done|]. cbn [trim_tail]. rewrite !elem_of_cons. intros [->|Hin]; [by left|right].
  apply list_elem_of_In, in_rev, list_elem_of_In, drop_while_sub, list_elem_of_In, in_rev, list_elem_of_In in Hin. done.
Qed.

(** A line ends before its first NUL. *)
Lemma cut_clean raw : no_nul (take (default (length raw) (position (fun b => bool_decide (b = x00)) raw)) raw).
Proof.
  unfold position. destruct (list_find _ raw) as [[i b]|] eqn:Hf; cbn [fmap option_fmap option_map default fst].
  - apply list_find_Some in Hf as (_ & _ & Hbefore). intros (j & Hj)%list_elem_of_lookup. apply lookup_take_Some in Hj as [Hj Hlt].
    by apply (Hbefore j x00 Hj Hlt).
  - rewrite take_ge by done. apply list_find_None in Hf. rewrite list.Forall_forall in Hf. intros Hin. by apply (Hf x00 Hin).
Qed.

Section boot.
Context `{Env, Powi} `{HostFs} entries default_context default_type memory_for (Hc : config_ok entries default_context default_type memory_for).
Abbreviation reached ps g := (reaches entries default_context default_type memory_for (ps_areas ps) g).
Abbreviation state := (service_state entries default_context default_type memory_for).

(** ** Sets, as readers see them *)

(** Nothing changes but the name, and not even that when it is read-only and
    there. *)
Definition only_sets (name : str) (ps ps' : PropertyService) : Prop :=
  forall n, no_nul n -> n <> name \/ (is_read_only n = true /\ property ps n <> Done None) -> property ps' n = property ps n.

Lemma only_sets_refl name ps : only_sets name ps ps.
Proof. by intros n. Qed.

Lemma stored_only_sets ps ps' m serial name value serial' : reached ps (m, serial) -> reached ps' (stored m name value, serial') ->
  (is_Some (m !! name) -> is_read_only name = false) -> only_sets name ps ps'.
Proof.
  intros Hr Hr' Hro n Hn Hcase. rewrite (service_property _ _ _ _ Hc _ _ _ Hr Hn), (service_property _ _ _ _ Hc _ _ _ Hr' Hn). cbn [fst].
  destruct (decide (n = name)) as [->|Hne]; [|by rewrite stored_other]. destruct Hcase as [?|[Hn_ro Hsome]]; [done|].
  rewrite (service_property _ _ _ _ Hc _ _ _ Hr Hn) in Hsome. cbn [fst] in Hsome. destruct (m !! name) eqn:Hm; [|done].
  by rewrite (Hro ltac:(eauto)) in Hn_ro.
Qed.

(** A name that readers find with the value. *)
Definition read_back (name : str) (value : list byte) (ps : PropertyService) : Prop :=
  no_nul name /\ property ps name = Done (Some (from_utf8_lossy value)).

Lemma stored_reads ps' m name value serial' : reached ps' (stored m name value, serial') -> no_nul name ->
  read_back name value ps'.
Proof.
  intros Hr Hn. split; [done|]. rewrite (service_property _ _ _ _ Hc _ _ _ Hr Hn). cbn [fst]. destruct (stored_value m name value) as (e & -> & <-). done.
Qed.

Lemma reads_same ps ps' m serial serial' : reached ps (m, serial) -> reached ps' (m, serial') -> forall n, no_nul n -> property ps' n = property ps n.
Proof. intros Hr Hr' n Hn. by rewrite (service_property _ _ _ _ Hc _ _ _ Hr Hn), (service_property _ _ _ _ Hc _ _ _ Hr' Hn). Qed.

(** A set that succeeds is read back, but for the property that asks for a
    shutdown. *)
Lemma set_result_reads ps ps' m serial name value o g : reached ps (m, serial) -> reached ps' g ->
  set_result ps m serial name value false o g ->
  only_sets name ps ps' /\ (is_success o = true -> name <> lit "sys.powerctl" -> read_back name value ps').
Proof.
  intros Hr Hr' Hset. destruct Hset as [Hl|error Hl Hv|Hpc Hv|Hl Hv Hm Hro|context mem Hl Hv Hm Ha Hroom|Hl Hv Hpc Hro];
    try (split; [intros n Hn _; by apply (reads_same _ _ _ _ _ Hr Hr')|by intros Hs]).
  - split; [by apply (stored_only_sets _ _ _ _ _ _ _ Hr Hr')|]. intros _ _. apply (stored_reads _ _ _ _ _ Hr'). apply (legal_facts _ Hl).
Qed.

Lemma property_set_reads ps name value : state ps -> no_nul value -> exists o ps',
  PropService.property_set name value false ps = Done (o, ps') /\ state ps' /\ same_rules ps ps' /\ only_sets name ps ps' /\
  (is_success o = true -> name <> lit "sys.powerctl" -> read_back name value ps').
Proof.
  intros [[m serial] Hr] Hv. destruct (property_set_ok _ _ _ _ Hc ps m serial name value false Hr Hv) as (o & ps' & g & Hs & Hr' & Hsame & Hres).
  destruct (set_result_reads _ _ _ _ _ _ _ _ Hr Hr' Hres) as [Honly Hread]. exists o, ps'. split_and!; try done. by exists g.
Qed.

Lemma handle_set_reads ps name value source cred : state ps -> no_nul value -> exists o ps',
  PropService.handle_set name value source cred false ps = Done (o, ps') /\ state ps' /\ same_rules ps ps' /\ only_sets name ps ps' /\
  (is_success o = true -> is_read_only name = true -> read_back name value ps').
Proof.
  intros [[m serial] Hr] Hv. destruct (handle_set_ok _ _ _ _ Hc ps m serial name value source cred false Hr Hv) as (o & ps' & g & Hs & Hr' & Hsame & Hres).
  exists o, ps'. split; [done|]. split; [by exists g|]. split; [done|].
  destruct Hres as [code error Hp Hcode|action Hp Hctl|Hp Hpc Hre|Hp Hre Hpid Hne|o g Hp Hctl Hset].
  5: { destruct (set_result_reads _ _ _ _ _ _ _ _ Hr Hr' Hset) as [Honly Hread]. split; [done|]. intros Hok Hro. apply Hread; [done|]. by intros ->. }
  all: split; [intros n Hn _; by apply (reads_same _ _ _ _ _ Hr Hr')|].
  - intros Hok%bool_decide_eq_true_1. by injection Hok as ->.
  - intros _ Hro%bool_decide_eq_true_1. unfold strip_prefix in Hctl. destruct (starts_with _ name) eqn:Hp2; [|done].
    apply bool_decide_eq_true_1 in Hp2. destruct name; [done|]. cbn in Hp2, Hro. congruence.
  - by subst name.
  - by subst name.
Qed.

(** ** Stages of the loader *)

Abbreviation reads l name := (property (pl_service l) name).

(** A stage may touch the names [T] only, and none of these that is read-only
    and there; it keeps what is logged and the rules of the service. *)
Record evolves (T : str -> Prop) (l l' : PropLoader) : Prop := mkEvolves {
  ev_state : state (pl_service l');
  ev_log : pl_diagnostics l `prefix_of` pl_diagnostics l';
  ev_rules : same_rules (pl_service l) (pl_service l');
  ev_keeps : forall name, no_nul name -> ~ T name \/ (is_read_only name = true /\ reads l name <> Done None) -> reads l' name = reads l name;
}.

Lemma evolves_refl T l : state (pl_service l) -> evolves T l l.
Proof. intros Hs. by split. Qed.

Lemma evolves_trans T l1 l2 l3 : evolves T l1 l2 -> evolves T l2 l3 -> evolves T l1 l3.
Proof.
  intros [_ Hl1 Hr1 Hk1] [Hs Hl2 Hr2 Hk2]. split; [done|by etrans|unfold same_rules in *; naive_solver congruence|].
  intros name Hn Hcase. rewrite Hk2, Hk1; try done. destruct Hcase as [?|[? ?]]; [by left|right]. rewrite Hk1; auto.
Qed.

Lemma evolves_weaken (T T' : str -> Prop) l l' : (forall name, T name -> T' name) -> evolves T l l' -> evolves T' l l'.
Proof. intros HT [Hs Hl Hr Hk]. split; [done..|]. intros name Hn [?|?]; apply Hk; auto. Qed.

(** A stage from any state, and what holds of its result. *)
Definition stage {X} (T : str -> Prop) (c : M PropLoader X) (Q : X -> Prop) : Prop :=
  forall l, state (pl_service l) -> wp False c (fun x l' => evolves T l l' /\ Q x) l.

Lemma stage_ret {X} T (x : X) (Q : X -> Prop) : Q x -> stage T (mret x) Q.
Proof. intros HQ l Hl. split; [by apply evolves_refl|done]. Qed.

Lemma stage_bind {X Y} T (m : M PropLoader X) (f : X -> M PropLoader Y) Q R :
  stage T m Q -> (forall x, Q x -> stage T (f x) R) -> stage T (m ≫= f) R.
Proof.
  intros Hm Hf l Hl. apply wp_bind. eapply wp_mono; [by apply Hm|]. intros x l1 [Hx HQ]. eapply wp_mono; [apply (Hf x HQ), (ev_state _ _ _ Hx)|].
  intros y l2 [Hy HR]. split; [by eapply evolves_trans|done].
Qed.

Lemma stage_for_each {A} T (f : A -> M PropLoader unit) rows : (forall row, row ∈ rows -> stage T (f row) (fun _ => True)) ->
  stage T (for_each f rows) (fun _ => True).
Proof.
  induction rows as [|row rows IH]; intros Hf; [by apply stage_ret|]. cbn [for_each].
  apply (stage_bind T _ _ (fun _ => True)); [apply Hf; by left|]. intros _ _. apply IH. intros r Hr. apply Hf. by right.
Qed.

Lemma stage_log T severity file message : stage T (log severity file message) (fun _ => True).
Proof. intros l Hl. split; [|done]. split; [done|by apply prefix_app_r|done|done]. Qed.

Lemma get_value l name default_ : state (pl_service l) -> no_nul name -> no_nul default_ ->
  exists v, get name default_ l = Done (v, l) /\ property_or (pl_service l) name default_ = Done v /\ no_nul v.
Proof.
  intros Hs Hn Hd. destruct (lookup_ends (PropertiesOk := service_properties_ok _ _ _ _ Hc) _ name Hs Hn) as (v & Hv & Hclean).
  unfold get, property_or, mbind, M_bind, gets, call. rewrite Hv. cbn. eexists. split; [done|]. split; [done|].
  destruct v as [v|]; [case_bool_decide|]; auto.
Qed.

Lemma stage_get T name default_ : no_nul name -> no_nul default_ -> stage T (get name default_) no_nul.
Proof. intros Hn Hd l Hl. destruct (get_value l name default_ Hl Hn Hd) as (v & Hg & _ & Hv). apply (wp_eq _ _ _ _ _ _ _ Hg). split; [by apply evolves_refl|done]. Qed.

(** A set that is logged when it fails. *)
Lemma set_evolves (T : str -> Prop) l ps' name diagnostics : state (pl_service l) -> state ps' -> same_rules (pl_service l) ps' -> only_sets name (pl_service l) ps' -> T name ->
  evolves T l (mkPropLoader ps' (pl_diagnostics l ++ diagnostics)).
Proof.
  intros Hs Hs' Hrules Honly HT. split; [done|by apply prefix_app_r|done|]. intros n Hn Hcase. apply Honly; [done|].
  destruct Hcase as [Hnot|?]; [left; by intros ->|by right].
Qed.

(** A row that was set, or whose set was refused and logged. *)
Definition refused (row : str * str) (d : LoadDiagnostic) : Prop :=
  exists error, ld_message d = InitCannotSet row.1 row.2 error \/ exists what, ld_message d = CouldNotSet row.1 row.2 what error.
Definition settled (row : str * str) (l : PropLoader) : Prop :=
  read_back row.1 row.2 (pl_service l) \/ exists d, d ∈ pl_diagnostics l /\ refused row d.

Lemma settled_evolves T row l l' : evolves T l l' -> ~ T row.1 \/ is_read_only row.1 = true -> settled row l -> settled row l'.
Proof.
  intros [_ Hlog _ Hkeep] Hcase [[Hn Hread]|(d & Hd & Hr)].
  - left. split; [done|]. rewrite Hkeep; [done|done|]. destruct Hcase; [by left|right]. by rewrite Hread.
  - right. exists d. split; [|done]. destruct Hlog as [more ->]. apply elem_of_app. by left.
Qed.

Lemma logged_last l d row : refused row d -> settled row (mkPropLoader (pl_service l) (pl_diagnostics l ++ [d])).
Proof. intros Hd. right. exists d. split; [|done]. apply elem_of_app. right. by left. Qed.

Lemma set_no_socket_row (T : str -> Prop) l name value what : state (pl_service l) -> no_nul value -> T name ->
  wp False (set_no_socket name value what) (fun _ l' => evolves T l l' /\ (name <> lit "sys.powerctl" -> settled (name, value) l')) l.
Proof.
  intros Hl Hv HT. destruct (property_set_reads (pl_service l) name value Hl Hv) as (o & ps' & Hset & Hs & Hrules & Honly & Hread).
  unfold set_no_socket, on_service, PropService.set_no_socket. unfold wpx. unfold mbind, M_bind, outcome_bind. rewrite Hset.
  destruct (is_success o) eqn:Hok; cbn [negb].
  - pose proof (set_evolves T l ps' name [] Hl Hs Hrules Honly HT) as Hev. rewrite app_nil_r in Hev. split; [done|]. intros Hpc. left. by apply Hread.
  - split; [by apply (set_evolves T l ps' name [_])|]. intros _. apply (logged_last (mkPropLoader ps' _)). exists (so_error o). right. by exists what.
Qed.

Lemma init_set_row (T : str -> Prop) l name value : state (pl_service l) -> no_nul value -> T name ->
  wp False (init_set name value) (fun _ l' => evolves T l l' /\ (is_read_only name = true -> settled (name, value) l')) l.
Proof.
  intros Hl Hv HT. destruct (handle_set_reads (pl_service l) name value INIT_CONTEXT Ucred_INIT Hl Hv) as (o & ps' & Hset & Hs & Hrules & Honly & Hread).
  unfold init_set, on_service, PropService.init_set. unfold wpx. unfold mbind, M_bind, outcome_bind. rewrite Hset.
  destruct (is_success o) eqn:Hok; cbn [negb].
  - pose proof (set_evolves T l ps' name [] Hl Hs Hrules Honly HT) as Hev. rewrite app_nil_r in Hev. split; [done|]. intros Hro. left. by apply Hread.
  - split; [by apply (set_evolves T l ps' name [_])|]. intros _. apply (logged_last (mkPropLoader ps' _)). exists (so_error o). by left.
Qed.

Lemma stage_set_no_socket (T : str -> Prop) name value what : no_nul value -> T name -> stage T (set_no_socket name value what) (fun _ => True).
Proof. intros Hv HT l Hl. eapply wp_mono; [by apply set_no_socket_row|]. by intros _ l' [? _]. Qed.
Lemma stage_init_set (T : str -> Prop) name value : no_nul value -> T name -> stage T (init_set name value) (fun _ => True).
Proof. intros Hv HT l Hl. eapply wp_mono; [by apply init_set_row|]. by intros _ l' [? _]. Qed.

(** ** Derived properties *)

(** What is derived is read-only, but for one. *)
Definition derived (name : str) : Prop := is_read_only name = true \/ name = lit "persist.sys.usb.config".

Ltac clean := by auto 40 with clean.
Ltac stage_step :=
  lazymatch goal with
  | |- stage _ (mbind _ (get _ _)) _ => eapply stage_bind; [apply stage_get; clean|intros ? ?]
  | |- stage _ (mbind _ (log _ _ _)) _ => eapply stage_bind; [apply stage_log|intros _ _]
  | |- stage _ (mbind _ (set_no_socket _ _ _)) _ => eapply stage_bind; [apply stage_set_no_socket; [clean|by left]|intros _ _]
  | |- stage _ (match ?x with _ => _ end) _ => destruct x eqn:?
  | |- stage _ (let _ := _ in _) _ => cbv zeta
  | |- stage _ (mret _) _ => apply stage_ret
  | |- stage _ (log _ _ _) _ => apply stage_log
  | |- stage _ (set_no_socket _ _ _) _ => apply stage_set_no_socket; [clean|by left]
  end.

Lemma product_prop_stage base prop sources : is_read_only base = true -> no_nul prop -> Forall no_nul sources ->
  stage derived (product_prop base prop sources) (fun _ => True).
Proof.
  intros Hbase Hprop. induction 1 as [|source sources Hs _ IH]; [by apply stage_ret|]. cbn [product_prop]. repeat stage_step; done.
Qed.

Lemma split_clean s d : no_nul s -> Forall no_nul (split s d).
Proof. intros Hs. apply list.Forall_forall. intros piece Hp Hin. apply Hs. by apply (split_pieces s d piece). Qed.

Lemma source_order_stage : stage derived source_order no_nul.
Proof. unfold source_order. repeat stage_step; try clean. Qed.

Lemma product_props_stage : stage derived initialize_ro_product_props (fun _ => True).
Proof.
  unfold initialize_ro_product_props. eapply stage_bind; [apply source_order_stage|]. intros order Ho. apply stage_for_each. intros prop Hprop.
  assert (no_nul prop) as Hn by (revert prop Hprop; apply list.Forall_forall; by apply (bool_decide_eq_true_1 _)).
  repeat stage_step; [|done]. apply product_prop_stage; [done|done|by apply split_clean].
Qed.

Lemma build_id_stage : stage derived initialize_build_id (fun _ => True).
Proof.
  unfold initialize_build_id. repeat stage_step; [done|]. apply (stage_bind _ _ _ no_nul); [|intros ? ?]; repeat stage_step; clean.
Qed.

Lemma fingerprint_stage T legacy : stage T (construct_fingerprint legacy) no_nul.
Proof. unfold construct_fingerprint. destruct legacy; repeat stage_step; clean. Qed.

Lemma build_fingerprint_stage : stage derived derive_build_fingerprint (fun _ => True).
Proof.
  unfold derive_build_fingerprint. repeat stage_step; [done|]. eapply stage_bind; [apply fingerprint_stage|]. intros ? ?. by repeat stage_step.
Qed.

Lemma legacy_fingerprint_stage : stage derived derive_legacy_build_fingerprint (fun _ => True).
Proof.
  unfold derive_legacy_build_fingerprint. repeat stage_step; [done..|]. eapply stage_bind; [apply fingerprint_stage|]. intros ? ?. by repeat stage_step.
Qed.

Lemma abilists_stage T abilist32 abilist64 sources : no_nul abilist32 -> no_nul abilist64 -> Forall no_nul sources ->
  stage T (abilists abilist32 abilist64 sources) (fun lists => no_nul lists.1 /\ no_nul lists.2).
Proof.
  intros H32 H64 Hs. revert abilist32 abilist64 H32 H64. induction Hs as [|source sources Hs _ IH]; intros; [by apply stage_ret|].
  cbn [abilists]. repeat stage_step; [done|]. by apply IH.
Qed.

Lemma cpu_abilist_stage : stage derived initialize_ro_cpu_abilist (fun _ => True).
Proof.
  unfold initialize_ro_cpu_abilist. repeat stage_step; [done|]. eapply stage_bind.
  - apply abilists_stage; [clean..|]. by apply (bool_decide_eq_true_1 _).
  - intros [abilist32 abilist64] [H32 H64]. cbn [fst snd] in *. cbv zeta.
    assert (no_nul (if bool_decide (abilist32 = []) then abilist64
      else (if bool_decide (abilist64 = []) then abilist64 else abilist64 ++ lit ",") ++ abilist32)) by (repeat case_bool_decide; clean).
    by repeat stage_step.
Qed.

Lemma int_property_stage T name default_ : no_nul name -> stage T (int_property name default_) (fun _ => True).
Proof. intros Hn. unfold int_property. by repeat stage_step. Qed.

Lemma to_string_clean n : no_nul (to_string n).
Proof.
  unfold to_string. generalize 20%nat as fuel. intros fuel. revert n. induction fuel as [|fuel IH]; intros n; cbn [digits_of]; [clean|].
  apply no_nul_app2; [destruct (n <? 10); [clean|apply IH]|]. intros Hin%list_elem_of_singleton. symmetry in Hin. revert Hin. apply byte_of_Z_nonzero.
  pose proof (Z.mod_pos_bound n 10). lia.
Qed.

Lemma contains_ok l name : state (pl_service l) -> no_nul name -> exists b,
  on_service (PropService.on_areas (PropAreas.contains name)) l = Done (b, l) /\ (b = true <-> reads l name <> Done None).
Proof.
  intros [[m serial] Hr] Hn. pose proof (reaches_holds _ _ _ _ Hc _ _ Hr) as Hh. pose proof (config_lookup _ _ _ _ Hc) as HL.
  destruct (get_ok _ _ _ _ Hh Hn) as (_ & Hcont & _). unfold on_service, mbind, outcome_bind. rewrite (on_areas_read _ _ _ Hcont). eexists. split; [by destruct l|].
  rewrite (service_property _ _ _ _ Hc _ _ _ Hr Hn). cbn [fst]. rewrite bool_decide_eq_true. destruct (m !! name); cbn; split; try done; by intros [].
Qed.

Lemma contains_stage T name : no_nul name -> stage T (on_service (PropService.on_areas (PropAreas.contains name))) (fun _ => True).
Proof. intros Hn l Hl. destruct (contains_ok l name Hl Hn) as (b & Hb & _). apply (wp_eq _ _ _ _ _ _ _ Hb). split; [by apply evolves_refl|done]. Qed.

Lemma vendor_api_stage : stage derived initialize_ro_vendor_api_level (fun _ => True).
Proof.
  unfold initialize_ro_vendor_api_level. eapply stage_bind; [apply contains_stage; clean|]. intros present _. stage_step; [by apply stage_ret|].
  eapply stage_bind; [apply int_property_stage; clean|]. intros first_level _.
  apply (stage_bind _ _ _ (fun _ => True)); [stage_step; [by apply stage_ret|apply int_property_stage; clean]|]. intros level _.
  eapply stage_bind; [apply int_property_stage; clean|]. intros product_first _.
  apply (stage_bind _ _ _ (fun _ => True)); [stage_step; [apply int_property_stage; clean|by apply stage_ret]|]. intros product _. cbv zeta.
  apply (stage_bind _ _ _ (fun _ => True)); [by repeat stage_step|]. intros ? _. apply stage_set_no_socket; [apply to_string_clean|by left].
Qed.

Lemma usb_config_stage : stage derived update_sys_usb_config (fun _ => True).
Proof.
  unfold update_sys_usb_config. repeat stage_step; try done; apply stage_init_set; try (by right); [|clean].
  case_match; clean.
Qed.

Lemma derive_stage : stage derived derive_properties (fun _ => True).
Proof.
  unfold derive_properties. repeat (eapply stage_bind; [first [apply product_props_stage|apply build_id_stage|apply build_fingerprint_stage|
    apply legacy_fingerprint_stage|apply cpu_abilist_stage|apply vendor_api_stage]|intros _ _]). apply usb_config_stage.
Qed.

(** ** Rows that are set one after the other *)

Lemma rows_settle (f : str * str -> M PropLoader unit) (ok : str -> Prop) rows :
  (forall row l, row ∈ rows -> state (pl_service l) -> wp False (f row) (fun _ l' => evolves (eq row.1) l l' /\ (ok row.1 -> settled row l')) l) ->
  NoDup rows.*1 \/ (forall name, ok name -> is_read_only name = true) ->
  forall l, state (pl_service l) -> wp False (for_each f rows)
    (fun _ l' => evolves (fun name => name ∈ rows.*1) l l' /\ Forall (fun row => ok row.1 -> settled row l') rows) l.
Proof.
  intros Hf Hkeep. induction rows as [|row rows IH]; intros l Hl; [split; [by apply evolves_refl|constructor]|].
  cbn [for_each]. apply wp_bind. eapply wp_mono; [by apply Hf; [by left|]|]. intros _ l1 [Hx Hset].
  eapply wp_mono; [apply IH; [intros r l' Hr; apply Hf; by right| |apply (ev_state _ _ _ Hx)]|].
  { destruct Hkeep as [Hnd|?]; [left|by right]. by apply NoDup_cons in Hnd as [_ ?]. }
  intros _ l2 [Hy Hrows]. split.
  - apply (evolves_trans _ _ l1); [apply (evolves_weaken (eq row.1)); [intros name <-; by left|done]|].
    apply (evolves_weaken (fun name => name ∈ rows.*1)); [intros name; by right|done].
  - constructor; [|done]. intros Hok. apply (settled_evolves _ _ _ _ Hy); [|auto]. destruct Hkeep as [Hnd|Hro]; [|auto].
    left. by apply NoDup_cons in Hnd as [? _].
Qed.

(** What the kernel sets. *)
Definition boot_row (row : str * str) : option (str * str) := (fun rest => (lit "ro.boot." ++ rest, row.2)) <$> strip_prefix (lit "androidboot.") row.1.
Definition kernel_rows (kernel : KernelBootProperties) : list (str * str) :=
  kb_device_tree kernel ++ omap boot_row (kb_cmdline kernel ++ kb_bootconfig kernel).
Definition set_row (row : str * str) : M PropLoader unit := init_set row.1 row.2.

Lemma for_each_app {S A} (f : A -> M S unit) l1 l2 s : for_each f (l1 ++ l2) s = (for_each f l1;; for_each f l2) s.
Proof.
  revert s. induction l1 as [|a l1 IH]; intros s; [done|]. cbn [for_each app]. unfold mbind, M_bind at 1 2 3. destruct (f a s) as [[[] s1]| |]; [|done..].
  apply IH.
Qed.

Lemma for_each_kernel rows l : for_each kernel_prop rows l = for_each set_row (omap boot_row rows) l.
Proof.
  revert l. induction rows as [|row rows IH]; intros l; [done|]. cbn [for_each omap list_omap]. unfold mbind, M_bind.
  assert (kernel_prop row l = match boot_row row with Some r => set_row r l | None => Done (tt, l) end) as ->.
  { unfold kernel_prop, boot_row. by destruct (strip_prefix _ _). }
  destruct (boot_row row) as [r|]; [|apply IH]. cbn [for_each]. unfold mbind, M_bind. destruct (set_row r l) as [[[] l1]| |]; [apply IH|done..].
Qed.

Lemma kernel_props_rows kernel l : kernel_props kernel l = for_each set_row (kernel_rows kernel) l.
Proof.
  unfold kernel_rows. rewrite omap_app, for_each_app. unfold kernel_props, mbind, M_bind.
  assert (for_each (fun '(name, value) => init_set name value) (kb_device_tree kernel) l = for_each set_row (kb_device_tree kernel) l) as ->.
  { generalize (kb_device_tree kernel) as rows. intros rows. revert l. induction rows as [|[name value] rows IH]; intros l; [done|].
    cbn [for_each]. unfold mbind, M_bind. unfold set_row at 1. cbn [fst snd]. destruct (init_set name value l) as [[[] l1]| |]; [apply IH|done..]. }
  destruct (for_each _ _ l) as [[[] l1]| |]; [|done..]. rewrite for_each_app, for_each_kernel. unfold mbind, M_bind.
  destruct (for_each _ _ l1) as [[[] l2]| |]; [|done..]. apply for_each_kernel.
Qed.

Lemma kernel_settles kernel l : Forall (fun row => no_nul row.2) (kernel_rows kernel) -> state (pl_service l) ->
  wp False (kernel_props kernel) (fun _ l' => evolves (fun _ => True) l l' /\ Forall (fun row => is_read_only row.1 = true -> settled row l') (kernel_rows kernel)) l.
Proof.
  intros Hclean Hl. unfold wpx. rewrite kernel_props_rows. apply (wp_mono False False _ (fun _ l' => evolves (fun name => name ∈ (kernel_rows kernel).*1) l l' /\ 
    Forall (fun row => is_read_only row.1 = true -> settled row l') (kernel_rows kernel))).
  - apply (rows_settle set_row (fun name => is_read_only name = true)); [|by right|done]. intros row l1 Hrow Hl1. rewrite list.Forall_forall in Hclean.
    eapply wp_mono; [apply (init_set_row (eq row.1)); [done|by apply Hclean|done]|]. by destruct row.
  - intros _ l' [Hev Hrows]. split; [|done]. by apply (evolves_weaken (fun name => name ∈ (kernel_rows kernel).*1)).
Qed.

Lemma exports_stage : stage derived export_kernel_boot_props (fun _ => True).
Proof.
  unfold export_kernel_boot_props. apply stage_for_each. intros row Hrow.
  assert (Forall (fun row : str * str * str => no_nul row.1.1 /\ no_nul row.2 /\ is_read_only row.1.2 = true) KERNEL_EXPORTS) as Hall
    by (repeat constructor; by apply (bool_decide_eq_true_1 _)).
  rewrite list.Forall_forall in Hall. destruct (Hall _ Hrow) as (Hsource & Hdefault & Hro). destruct row as [[source target] default_]. cbn [fst snd] in *.
  repeat stage_step; [done|]. apply stage_init_set; [done|by left].
Qed.

(** ** Files *)

(** Reading files only logs. *)
Definition quiet (l l' : PropLoader) : Prop := pl_service l' = pl_service l /\ pl_diagnostics l `prefix_of` pl_diagnostics l'.

Lemma quiet_refl l : quiet l l.
Proof. done. Qed.
Lemma quiet_trans l1 l2 l3 : quiet l1 l2 -> quiet l2 l3 -> quiet l1 l3.
Proof. intros [Hs1 Hl1] [Hs2 Hl2]. split; [congruence|by etrans]. Qed.
Lemma quiet_log l severity file message : wp False (log severity file message) (fun _ => quiet l) l.
Proof. split; [done|by apply prefix_app_r]. Qed.

Lemma quiet_evolves T l l' : state (pl_service l) -> quiet l l' -> evolves T l l'.
Proof. intros Hs [Heq Hlog]. split; by rewrite ?Heq. Qed.

(** The rows that files give. *)
Definition row_ok (row : str * str) : Prop := legal row.1 /\ special_meaning row.1 = false /\ no_nul row.2.
Definition rows_ok (m : BTreeMap str) : Prop := keys_sorted m /\ Forall row_ok m.

Lemma rows_ok_insert key value m : rows_ok m -> row_ok (key, value) -> rows_ok (bt_insert key value m).
Proof.
  intros [Hs Hf] Hrow. split; [by apply bt_insert_sorted|]. induction Hf as [|[k v] m Hk Hf IH]; cbn [bt_insert]; [by constructor|].
  destruct Hs as [_ Hs]. destruct (bytes_lt key k); [by repeat (constructor; [done|])|]. case_bool_decide; (constructor; [done|]); [done|by apply IH].
Qed.

Lemma key_value_clean line key value : no_nul line -> key_value line = Some (key, value) -> no_nul value.
Proof.
  intros Hl. unfold key_value. destruct (find_byte _ _); [|done]. intros [= _ <-] Hin. apply drop_while_sub in Hin. by apply (no_nul_drop (S n) line Hl).
Qed.
Lemma prop_line_clean raw line : prop_line raw = Some line -> no_nul line.
Proof.
  unfold prop_line. destruct (starts_with _ _); [done|]. intros [= <-]. apply from_utf8_lossy_no_nul. intros Hin.
  apply trim_tail_sub, drop_while_sub in Hin. by apply cut_clean in Hin.
Qed.

Lemma loader_eta l : mkPropLoader (pl_service l) (pl_diagnostics l) = l.
Proof. by destruct l. Qed.

Section loads.
Context (level : Z).

Lemma add_property_ok l filename filter key value m : state (pl_service l) -> rows_ok m -> no_nul value ->
  wp False (add_property level filename filter key value m) (fun m' l' => quiet l l' /\ rows_ok m') l.
Proof.
  intros [g Hr] Hm Hv. unfold add_property. destruct (negb _); [by apply wp_ret|]. destruct (special_meaning key) eqn:Hspecial.
  { apply wp_bind. eapply wp_mono; [apply quiet_log|]. intros [] l' Hl'. by apply wp_ret. }
  destruct (check_permissions_ok _ _ _ _ Hc _ _ key value (file_context level filename) Ucred_INIT Hr Hv) as (r & Hchk & Hperm).
  apply wp_bind. apply (wp_eq _ _ _ _ _ r l). { unfold on_service, mbind, outcome_bind. rewrite Hchk. by rewrite loader_eta. }
  destruct r as [[]|[code error]]; cycle 1.
  { apply wp_bind. eapply wp_mono; [apply quiet_log|]. intros [] l' Hl'. by apply wp_ret. }
  assert (row_ok (key, value)) as Hrow by (destruct Hperm as [Hp _]; destruct (Hp eq_refl) as [Hlegal _]; done).
  destruct (bt_get key m) as [existing|]; [case_bool_decide; [by apply wp_ret|]|].
  - apply wp_bind. eapply wp_mono; [apply quiet_log|]. intros [] l' Hl'. apply wp_ret. split; [done|by apply rows_ok_insert].
  - apply wp_ret. split; [done|by apply rows_ok_insert].
Qed.

(** The files that the lines of a file import, with the properties there are. *)
Definition import_in (ps : PropertyService) (raw : list byte) : option (str * option str) :=
  match prop_line raw with
  | None => None
  | Some line =>
      match import_of line with
      | None => None
      | Some (file, filter) => match expand_props ps level file with Done (Ok path) => Some (path, filter) | _ => None end
      end
  end.

(** The imports of a file end within the depth; a file that is loaded by a
    filter imports nothing. *)
Fixpoint reads_end (ps : PropertyService) (depth : nat) (filename : str) (filter : option str) : Prop :=
  match depth with
  | O => False
  | S depth =>
      match ImageRoot.read filename with
      | Err _ => True
      | Ok contents => default [] filter = [] ->
          Forall (fun raw => match import_in ps raw with Some f => reads_end ps depth f.1 f.2 | None => True end) (removelast (split (contents ++ [x0a]) x0a))
      end
  end.

Section lines.
Context (ps : PropertyService) (Hps : state ps) (R : str -> option str -> Prop)
  (lf : str -> option str -> BTreeMap str -> M PropLoader (BTreeMap str * result unit LoadError)).
Hypothesis lf_ok : forall f flt m l, pl_service l = ps -> rows_ok m ->
  wpx False (~ R f flt) (lf f flt m) (fun r l' => quiet l l' /\ rows_ok r.1 /\ R f flt) l.

Lemma load_import_ok l filename file flt m : pl_service l = ps -> rows_ok m -> no_nul file ->
  wpx False (~ forall path, expand_props ps level file = Done (Ok path) -> R path flt) (load_import level lf filename file flt m)
    (fun m' l' => quiet l l' /\ rows_ok m' /\ forall path, expand_props ps level file = Done (Ok path) -> R path flt) l.
Proof.
  intros Hl Hm Hfile. unfold load_import. apply wp_bind, wp_gets, wp_bind. rewrite Hl.
  destruct (expand_clean (H1 := service_properties_ok _ _ _ _ Hc) ps level file Hps Hfile) as (r & Hexp & _). rewrite Hexp.
  apply (wp_eq _ _ _ _ _ r l eq_refl). destruct r as [path|error].
  - apply wp_bind. eapply wp_weaken; [by apply (lf_ok path flt m l)|done|naive_solver|]. intros [m' r] l1 (Hq & Hm' & HR). cbn [fst] in Hm'.
    apply wp_bind. apply (wp_mono _ _ _ (fun _ l' => quiet l l')).
    + destruct r; [by apply wp_ret|]. eapply wp_weaken; [apply quiet_log|done|done|]. intros [] l2 Hq2. by eapply quiet_trans.
    + intros _ l2 Hq2. apply wp_ret. split_and!; [done|done|]. by intros ? [= <-].
  - apply wp_bind. eapply wp_weaken; [apply quiet_log|done|done|]. intros [] l1 Hq. by apply wp_ret.
Qed.

Definition import_ends (filter : option str) (raw : list byte) : Prop :=
  default [] filter = [] -> match import_in ps raw with Some f => R f.1 f.2 | None => True end.

Lemma import_of_clean line file flt : no_nul line -> import_of line = Some (file, flt) -> no_nul file.
Proof.
  intros Hline. unfold import_of, strip_prefix. destruct (starts_with _ line); [|done].
  assert (no_nul (skip_c_space (drop (length (lit "import ")) line))) as Hrest by (intros Hin; apply drop_while_sub in Hin; by apply (no_nul_drop _ _ Hline) in Hin).
  destruct (find_byte _ _); intros [= <- _]; [by apply no_nul_take|done].
Qed.

Lemma load_line_ok l filename filter raw m : pl_service l = ps -> rows_ok m ->
  wpx False (~ import_ends filter raw) (load_line level lf filename filter raw m) (fun m' l' => quiet l l' /\ rows_ok m' /\ import_ends filter raw) l.
Proof.
  intros Hl Hm. unfold load_line, import_ends, import_in. destruct (prop_line raw) as [line|] eqn:Hline; [|by apply wp_ret].
  pose proof (prop_line_clean _ _ Hline) as Hclean. case_bool_decide as Hf; [destruct (import_of line) as [[file flt]|] eqn:Himp|].
  - eapply wp_weaken; [apply load_import_ok; [done|done|by eapply import_of_clean]|done| |].
    + intros Hnot Hend. apply Hnot. intros path Hpath. specialize (Hend Hf). by rewrite Hpath in Hend.
    + intros m' l' (Hq & Hm' & HR). split_and!; [done|done|]. intros _. destruct (expand_props ps level file) as [[path|]| |]; try done. by apply HR.
  - destruct (key_value line) as [[key value]|] eqn:Hkv; [|by apply wp_ret]. eapply wp_weaken; [apply add_property_ok; [by rewrite Hl|done|by eapply key_value_clean]|done|done|].
    intros m' l' [Hq Hm']. by split_and!.
  - destruct (key_value line) as [[key value]|] eqn:Hkv; [|by apply wp_ret]. eapply wp_weaken; [apply add_property_ok; [by rewrite Hl|done|by eapply key_value_clean]|done|done|].
    intros m' l' [Hq Hm']. by split_and!.
Qed.

Lemma load_lines_ok l filename filter lines m : pl_service l = ps -> rows_ok m ->
  wpx False (~ Forall (import_ends filter) lines) (load_lines level lf filename filter lines m)
    (fun m' l' => quiet l l' /\ rows_ok m' /\ Forall (import_ends filter) lines) l.
Proof.
  revert l m. induction lines as [|raw lines IH]; intros l m Hl Hm; [by apply wp_ret|]. cbn [load_lines].
  apply wp_bind. eapply wp_weaken; [by apply load_line_ok|done|by intros Hnot ?%list.Forall_cons; naive_solver|].
  intros m1 l1 (Hq & Hm1 & Hend). eapply wp_weaken; [apply (IH l1 m1); [by rewrite (proj1 Hq)|done]|done|by intros Hnot ?%list.Forall_cons; naive_solver|].
  intros m2 l2 (Hq2 & Hm2 & Hends). split_and!; [by eapply quiet_trans|done|by constructor].
Qed.
End lines.

Lemma load_file_ok depth filename filter m l : state (pl_service l) -> rows_ok m ->
  wpx False (~ reads_end (pl_service l) depth filename filter) (load_file level depth filename filter m)
    (fun r l' => quiet l l' /\ rows_ok r.1 /\ reads_end (pl_service l) depth filename filter) l.
Proof.
  revert filename filter m l. induction depth as [|depth IH]; intros filename filter m l Hl Hm; [apply wp_spin; by intros []|]. cbn [load_file reads_end].
  destruct (ImageRoot.read filename) as [contents|error]; [|by apply wp_ret]. unfold load_properties. apply wp_bind.
  eapply wp_weaken; [apply (load_lines_ok (pl_service l) Hl (reads_end (pl_service l) depth) (load_file level depth)); [|done|done]|done| |].
  - intros f flt m1 l1 Hl1 Hm1. rewrite <- Hl1. apply IH; [by rewrite Hl1|done].
  - intros Hnot Hend. apply Hnot. apply list.Forall_forall. intros raw Hraw Hf. specialize (Hend Hf). rewrite list.Forall_forall in Hend. by apply Hend.
  - intros m' l' (Hq & Hm' & Hends). apply wp_ret. split_and!; [done|done|]. intros Hf. eapply list.Forall_impl; [exact Hends|]. intros raw Hraw. by apply Hraw.
Qed.

(** With imports that end, the files of the partitions load. *)
Section files.
Context (depth : nat) (ps : PropertyService) (Hps : state ps) (Hends : forall filename, reads_end ps depth filename None).

Definition adds_rows (c : BTreeMap str -> M PropLoader (BTreeMap str)) : Prop := forall m l, pl_service l = ps -> rows_ok m ->
  wp False (c m) (fun m' l' => quiet l l' /\ rows_ok m') l.

Lemma load_file_rows filename m l : pl_service l = ps -> rows_ok m ->
  wp False (load_file level depth filename None m) (fun r l' => quiet l l' /\ rows_ok r.1) l.
Proof.
  intros Hl Hm. eapply wp_weaken; [apply load_file_ok; [by rewrite Hl|done]|done| |].
  - intros Hnot. apply Hnot. rewrite Hl. apply Hends.
  - intros r l' (Hq & Hm' & _). done.
Qed.

Lemma adds_bind c d : adds_rows c -> adds_rows d -> adds_rows (fun m => c m ≫= d).
Proof.
  intros Hfirst Hd m l Hl Hm. apply wp_bind. eapply wp_mono; [by apply Hfirst|]. intros m1 l1 [Hq Hm1].
  eapply wp_mono; [apply (Hd m1 l1); [by rewrite (proj1 Hq)|done]|]. intros m2 l2 [Hq2 Hm2]. split; [by eapply quiet_trans|done].
Qed.

Lemma adds_if (b : bool) c : adds_rows c -> adds_rows (fun m => if b then c m else mret m).
Proof. intros Hc' m l Hl Hm. destruct b; [by apply Hc'|by apply wp_ret]. Qed.

Lemma adds_optional filename : adds_rows (load_optional level depth filename).
Proof. intros m l Hl Hm. unfold load_optional. apply wp_bind. eapply wp_mono; [by apply load_file_rows|]. intros [m' r] l' [Hq Hm']. by apply wp_ret. Qed.

Lemma adds_logged severity filename : adds_rows (load_logged level depth severity filename).
Proof.
  intros m l Hl Hm. unfold load_logged. apply wp_bind. eapply wp_mono; [by apply load_file_rows|]. intros [m' r] l1 [Hq Hm'].
  apply wp_bind. apply (wp_mono _ _ _ (fun _ l' => quiet l l')); [|intros _ l2 Hq2; by apply wp_ret].
  destruct r; [by apply wp_ret|]. eapply wp_mono; [apply quiet_log|]. intros [] l2 Hq2. by eapply quiet_trans.
Qed.

Lemma adds_partition partition until : adds_rows (load_partition level depth partition until).
Proof.
  intros m l Hl Hm. unfold load_partition. apply wp_bind. eapply wp_mono; [by apply load_file_rows|]. intros [m1 r] l1 [Hq Hm1]. cbn [fst] in Hm1.
  destruct r as [|error]; [by apply wp_ret|]. cbv zeta. assert (pl_service l1 = ps) as Hl1 by (by rewrite (proj1 Hq)).
  apply wp_bind. eapply wp_mono; [by apply adds_optional|]. intros temp l2 [Hq2 Htemp]. assert (pl_service l2 = ps) as Hl2 by (by rewrite (proj1 Hq2)).
  apply wp_bind. eapply wp_mono; [by apply adds_optional|]. intros temp' l3 [Hq3 Htemp']. assert (pl_service l3 = ps) as Hl3 by (by rewrite (proj1 Hq3)).
  assert (quiet l l3) as Hq13 by (eapply quiet_trans; [done|]; by eapply quiet_trans).
  destruct (bt_get _ temp') as [version|]; [destruct (match parse_int _ _ _ with Some _ => _ | None => _ end)|].
  - eapply wp_mono; [by apply (adds_bind _ _ (adds_optional _) (adds_optional _))|]. intros m2 l4 [Hq4 Hm2]. split; [by eapply quiet_trans|done].
  - cbn [unwrap]. apply wp_bind, (wp_eq _ _ _ _ _ version l3 eq_refl), wp_bind. eapply wp_mono; [apply quiet_log|]. intros [] l4 Hq4. apply wp_ret.
    split; [by eapply quiet_trans|done].
  - eapply wp_mono; [by apply (adds_bind _ _ (adds_optional _) (adds_optional _))|]. intros m2 l4 [Hq4 Hm2]. split; [by eapply quiet_trans|done].
Qed.

Lemma adds_then c d m l0 l : adds_rows c -> quiet l0 l -> pl_service l0 = ps -> rows_ok m ->
  (forall m' l', quiet l0 l' -> rows_ok m' -> wp False (d m') (fun m'' l'' => quiet l0 l'' /\ rows_ok m'') l') ->
  wp False (c m ≫= d) (fun m'' l'' => quiet l0 l'' /\ rows_ok m'') l.
Proof.
  intros Hfirst Hq Hl Hm Hd. apply wp_bind. eapply wp_mono; [apply Hfirst; [by rewrite (proj1 Hq)|done]|]. intros m1 l1 [Hq1 Hm1]. apply Hd; [by eapply quiet_trans|done].
Qed.

Lemma load_boot_files_ok recovery l : pl_service l = ps ->
  wp False (load_boot_files level depth recovery) (fun m l' => quiet l l' /\ rows_ok m) l.
Proof.
  intros Hl. assert (rows_ok []) as Hnil by (by split). unfold load_boot_files.
  apply (adds_then (fun m => if recovery then load_logged level depth Error (lit "/prop.default") m else mret m) _ [] l l); [apply adds_if, adds_logged|done..|].
  intros m1 l1 Hq1 Hm1. apply (adds_then (fun m => if ImageRoot.exists_ SECOND_STAGE_RAMDISK_PROP then load_logged level depth Warning SECOND_STAGE_RAMDISK_PROP m else mret m)); [apply adds_if, adds_logged|done..|].
  do 9 (clear dependent m1 l1; intros m1 l1 Hq1 Hm1; apply adds_then; [first [apply adds_logged|apply adds_optional|apply adds_partition]|done..|]).
  intros m2 l2 Hq2 Hm2. eapply wp_mono; [apply (adds_if _ _ (adds_logged Warning DEBUG_RAMDISK_PROP)); [by rewrite (proj1 Hq2)|done]|].
  intros m3 l3 [Hq3 Hm3]. split; [by eapply quiet_trans|done].
Qed.
End files.
End loads.

(** ** The start *)

Lemma bt_remove_sub {V} key (m : BTreeMap V) row : row ∈ bt_remove key m -> row ∈ m.
Proof. induction m as [|[k v] m IH]; [done|]. cbn [bt_remove]. case_bool_decide; [by right|]. rewrite !elem_of_cons. naive_solver. Qed.

Lemma rows_ok_remove key m : rows_ok m -> rows_ok (bt_remove key m).
Proof.
  intros [Hs Hf]. split.
  - clear Hf. induction m as [|[k v] m IH]; [done|]. destruct Hs as [Hk Hs]. cbn [bt_remove]. case_bool_decide; [done|]. split; [|by apply IH].
    rewrite list.Forall_forall in *. intros row Hrow. by eapply Hk, bt_remove_sub.
  - rewrite list.Forall_forall in *. intros row Hrow. by eapply Hf, bt_remove_sub.
Qed.

Lemma rows_ok_incremental incremental m : rows_ok m -> (forall value, incremental = Some value -> no_nul value) -> rows_ok (with_incremental incremental m).
Proof.
  intros Hm Hclean. destruct incremental as [value|]; [|done]. cbn [with_incremental]. do 2 apply rows_ok_remove. apply rows_ok_insert; [done|].
  split; [by apply (bool_decide_eq_true_1 _)|]. split; [done|by apply Hclean].
Qed.

Lemma sorted_keys_unique {V} (m : BTreeMap V) : keys_sorted m -> NoDup m.*1.
Proof.
  induction m as [|[k v] m IH]; cbn; [constructor|]. intros [Hk Hs]. constructor; [|by apply IH]. intros ([k' v'] & -> & Hin)%list_elem_of_fmap.
  rewrite list.Forall_forall in Hk. specialize (Hk _ Hin). cbn in Hk. by rewrite InfoOrder.bytes_lt_irrefl in Hk.
Qed.

Lemma file_rows_settle rows l : rows_ok rows -> state (pl_service l) ->
  wp False (for_each (fun '(name, value) => set_no_socket name value (lit "while loading .prop files")) rows)
    (fun _ l' => evolves (fun name => name ∈ rows.*1) l l' /\ Forall (fun row => settled row l') rows) l.
Proof.
  intros [Hs Hf] Hl. eapply wp_mono; [apply (rows_settle _ (fun _ => True)); [|left; by apply sorted_keys_unique|done]|].
  - intros [name value] l1 Hrow Hl1. rewrite list.Forall_forall in Hf. destruct (Hf _ Hrow) as (_ & Hspecial & Hv). cbn [fst snd] in *.
    eapply wp_mono; [by apply (set_no_socket_row (eq name))|]. intros _ l2 [Hev Hset]. split; [done|]. intros _. apply Hset.
    intros ->. done.
  - intros _ l' [Hev Hrows]. split; [done|]. eapply list.Forall_impl; [exact Hrows|]. naive_solver.
Qed.
End boot.

(** A property that readers find with the value it was set to, or a refusal of
    this set among the diagnostics. *)
Definition came_true `{Env} `{HostFs} (ps : PropertyService) (diagnostics : list LoadDiagnostic) (row : str * str) : Prop :=
  property ps row.1 = Done (Some (from_utf8_lossy row.2)) \/ exists d, d ∈ diagnostics /\ refused row d.

Lemma settled_true `{Env} `{HostFs} row l : settled row l -> came_true (pl_service l) (pl_diagnostics l) row.
Proof. intros [[_ Hread]|Hlog]; [by left|by right]. Qed.

(** What comes after the files are read. *)
Definition set_files `{Env, Powi} `{HostFs} (page_size : Z) (rows : BTreeMap str) : M PropLoader unit :=
  for_each (fun '(name, value) => set_no_socket name value (lit "while loading .prop files")) rows;;
  derive_properties;;
  current ← get (lit "ro.boot.hardware.cpu.pagesize") [];
  if bool_decide (current = []) then set_no_socket (lit "ro.boot.hardware.cpu.pagesize") (to_string page_size) (lit "(page size)")
  else mret tt.

Lemma set_files_ok `{Env, Powi} `{HostFs} entries default_context default_type memory_for (Hc : config_ok entries default_context default_type memory_for)
    page_size rows l : rows_ok rows -> service_state entries default_context default_type memory_for (pl_service l) ->
  wp False (set_files page_size rows) (fun _ l' => evolves entries default_context default_type memory_for (fun _ => True) l l' /\
    Forall (fun row => row.1 <> lit "persist.sys.usb.config" -> settled row l') rows) l.
Proof.
  intros Hrows Hl. unfold set_files. apply wp_bind. eapply wp_mono; [by apply file_rows_settle|]. intros _ l1 [Hx Hset].
  assert (stage entries default_context default_type memory_for derived (derive_properties;;
    current ← get (lit "ro.boot.hardware.cpu.pagesize") [];
    if bool_decide (current = []) then set_no_socket (lit "ro.boot.hardware.cpu.pagesize") (to_string page_size) (lit "(page size)") else mret tt) (fun _ => True)) as Hstage.
  { eapply stage_bind; [by apply derive_stage|]. intros _ _. eapply stage_bind; [apply stage_get; [done|auto with clean..]|]. intros current _.
    case_bool_decide; [apply stage_set_no_socket; [done|apply to_string_clean|by left]|by apply stage_ret]. }
  eapply wp_mono; [apply Hstage, (ev_state _ _ _ _ _ _ _ Hx)|]. intros _ l2 [Hy _]. split.
  - eapply evolves_trans; eapply evolves_weaken; done.
  - eapply list.Forall_impl; [exact Hset|]. intros row Hrow Hne. apply (settled_evolves _ _ _ _ _ _ _ _ Hy); [|done].
    destruct (is_read_only row.1) eqn:Hro; [by right|left]. by intros [?|?]; [congruence|].
Qed.

Lemma property_init_run `{Env, Powi} `{HostFs} options depth service started rows read l :
  (kernel_props (po_kernel options);; export_kernel_boot_props) (mkPropLoader service []) = Done (tt, started) ->
  load_boot_files (po_vendor_api_level options) depth (po_recovery options) started = Done (rows, read) ->
  set_files (po_page_size options) (with_incremental (po_build_incremental options) rows) read = Done (tt, l) ->
  property_init depth options service = Done (pl_diagnostics l, pl_service l).
Proof.
  unfold property_init, load_boot_defaults, set_files, mbind, M_bind, outcome_bind. intros Hstart Hread Hset.
  destruct (kernel_props _ _) as [[[] l1]| |]; [|done..]. rewrite Hstart, Hread.
  destruct (for_each _ _ read) as [[[] l2]| |]; [|done..]. destruct (derive_properties l2) as [[[] l3]| |]; [|done..]. by rewrite Hset.
Qed.


Definition build_prop : list byte := lit "sys.a = b" ++ [x0a] ++ lit "# c" ++ [x0a] ++ lit "ro.build.type=user" ++ [x0a].
Definition prop_image : HostFs := {|
  IoError := unit;
  fs_read_link := fun _ => None;
  fs_read := fun path => if bool_decide (path = components (lit "/system/build.prop")) then Ok build_prop else Err tt;
  fs_exists := fun _ => false;
  fs_is_dir := fun _ => false;
  fs_is_file := fun _ => false;
  fs_read_dir := fun _ => Err tt;
|}.
Definition boot_options : PropertyInitOptions :=
  mkPropertyInitOptions (mkKernelBootProperties [] [(lit "androidboot.mode", lit "normal")] []) None false 4096 36.

