(* ===== verification/PropFiles.v ===== *)
(** What a [.prop] file says: files printed from rows are read back, and reading
    ends exactly if the imports do. *)

From Stdlib Require Import ZArith Lia.
From Stdlib Require Import Strings.String Strings.Byte.
From stdpp Require Import base numbers list gmap.
From S2P Require Import Prelude Text Bytes Libbase Double Area Info Areas Rules.
From S2P Require Import InfoMatch AreasMap AreasSystem.
From S2P Require Import Service ServiceSpec PropertySystem.
From S2P Require Import Expand Actions Image Script Scripts Loader.
From S2P Require Import Engine EngineRun EngineSystem PropLoad PropBoot.

Open Scope Z_scope.
Open Scope binder_scope.

(** ** Printed files *)

Definition print_row (row : str * str) : list byte := row.1 ++ x3d :: row.2.
Definition print_props (rows : list (str * str)) : list byte := rows ≫= fun row => print_row row ++ [x0a].

(** No white space around. *)
Definition bare (s : str) : Prop := skip_c_space s = s /\ skip_c_space (rev s) = rev s.

(** A row that a file can have in a line. *)
Record printable (row : str * str) : Prop := mkPrintable {
  pw_key : row.1 <> [];
  pw_bare_key : bare row.1;
  pw_bare_value : bare row.2;
  pw_equal : x3d ∉ row.1;
  pw_line : x0a ∉ print_row row;
  pw_clean : no_nul (print_row row);
  pw_text : from_utf8_lossy (print_row row) = print_row row;
  pw_no_comment : starts_with (lit "#") (print_row row) = false;
  pw_no_import : starts_with (lit "import ") (print_row row) = false;
}.

Lemma split_one p d : d ∉ p -> split p d = [p].
Proof. induction p as [|b p IH]; intros Hp; [done|]. apply not_elem_of_cons in Hp as [Hb Hp]. cbn. rewrite decide_False by congruence. by rewrite IH. Qed.

Lemma split_more p r d : d ∉ p -> split (p ++ d :: r) d = p :: split r d.
Proof.
  induction p as [|b p IH]; intros Hp; cbn; [by rewrite decide_True|]. apply not_elem_of_cons in Hp as [Hb Hp].
  rewrite decide_False by congruence. by rewrite IH.
Qed.

Lemma split_print rows rest : Forall printable rows -> split (print_props rows ++ rest) x0a = (print_row <$> rows) ++ split rest x0a.
Proof.
  induction 1 as [|row rows Hrow _ IH]; [done|]. cbn [print_props mbind list_bind fmap list_fmap app]. fold (print_props rows).
  rewrite <- !app_assoc. cbn [app]. rewrite split_more by apply Hrow. by rewrite IH.
Qed.

Lemma skip_bare s : skip_c_space s = s <-> match s with [] => True | b :: _ => is_c_space b = false end.
Proof.
  destruct s as [|b s]; [done|]. unfold skip_c_space. cbn [drop_while]. destruct (is_c_space b); [|done]. split; [|done]. intros Hs.
  assert (forall l : str, (length (drop_while is_c_space l) <= length l)%nat) as Hle by (induction l as [|y l IH]; cbn; [done|destruct (is_c_space y); cbn; lia]).
  specialize (Hle s). rewrite Hs in Hle. cbn in Hle. lia.
Qed.

Lemma skip_head s r : s <> [] -> skip_c_space s = s -> skip_c_space (s ++ r) = s ++ r.
Proof. rewrite !skip_bare. by destruct s. Qed.

Lemma trim_tail_bare s : skip_c_space (rev s) = rev s -> trim_tail s = s.
Proof.
  destruct s as [|b s]; [done|]. cbn [trim_tail rev]. intros Hs. f_equal. fold (skip_c_space (rev s)).
  assert (skip_c_space (rev s) = rev s) as ->; [|by rewrite rev_involutive]. apply skip_bare in Hs. apply skip_bare. by destruct (rev s).
Qed.

Section printed.
Context (row : str * str) (Hrow : printable row).

(** A printed row has no white space around it. *)
Lemma print_bare : bare (print_row row).
Proof.
  unfold print_row. split.
  - apply skip_head; apply Hrow.
  - rewrite rev_app_distr. cbn [rev]. destruct (decide (row.2 = [])) as [->|Hne]; [done|]. rewrite <- app_assoc. apply skip_head; [|apply Hrow].
    intros Hr. apply Hne. apply (f_equal (@rev byte)) in Hr. by rewrite rev_involutive in Hr.
Qed.

Lemma print_line_read : prop_line (print_row row) = Some (print_row row).
Proof.
  unfold prop_line. assert (position (fun b => bool_decide (b = x00)) (print_row row) = None) as -> by apply (find_byte_none x00), Hrow.
  cbn [default]. rewrite take_ge by done. rewrite (proj1 print_bare), (pw_no_comment _ Hrow). f_equal.
  rewrite trim_tail_bare by apply print_bare. apply Hrow.
Qed.

Lemma print_no_import : import_of (print_row row) = None.
Proof. unfold import_of, strip_prefix. by rewrite (pw_no_import _ Hrow). Qed.

Lemma print_split : split_once x3d (print_row row) = Some row.
Proof.
  unfold split_once, print_row. fold (find_byte x3d (row.1 ++ x3d :: row.2)). rewrite find_byte_app by apply Hrow. rewrite take_app_length.
  assert (drop (S (length row.1)) (row.1 ++ x3d :: row.2) = row.2) as -> by (by rewrite cons_middle, app_assoc, drop_app_length' by (rewrite length_app; cbn; lia)).
  by destruct row.
Qed.

Lemma print_key_value : key_value (print_row row) = Some row.
Proof.
  pose proof print_split as Hs. unfold split_once in Hs. unfold key_value. fold (find_byte x3d (print_row row)) in Hs.
  destruct (find_byte x3d (print_row row)); [|done]. injection Hs as Hs. rewrite <- Hs in Hrow. destruct Hrow as [_ [_ Hkey] [Hvalue _] _ _ _ _ _ _]. cbn [fst snd] in *.
  rewrite trim_tail_bare, Hvalue by done. by rewrite Hs.
Qed.
End printed.

Lemma read_printed rows : Forall printable rows -> read_prop_file (print_props rows) = rows.
Proof.
  intros Hrows. unfold read_prop_file. rewrite <- (app_nil_r (print_props rows)), split_print by done. rewrite bind_app.
  change (split [] x0a) with [[] : list byte]. cbn [mbind list_bind]. rewrite app_nil_r.
  induction Hrows as [|row rows Hrow _ IH]; [done|]. cbn [fmap list_fmap mbind list_bind]. rewrite IH. change (row :: rows) with ([row] ++ rows). f_equal.
  rewrite (proj1 (print_bare row Hrow)), (pw_no_comment _ Hrow), (pw_no_import _ Hrow). cbn [orb].
  assert (forall s, bare s -> rev (drop_while is_c_space (rev s)) = s) as Hrev by (intros s [_ Hs]; unfold skip_c_space in Hs; by rewrite Hs, rev_involutive).
  rewrite Hrev by (by apply print_bare). rewrite print_split by done. destruct row as [key value]. rewrite Hrev by apply Hrow.
  pose proof (proj1 (pw_bare_value _ Hrow)) as Hv. cbn [snd] in Hv. by rewrite Hv.
Qed.

Lemma bt_insert_same {V} key (value : V) m : keys_sorted m -> bt_get key m = Some value -> bt_insert key value m = m.
Proof.
  induction m as [|[k v] m IH]; [done|]. cbn [keys_sorted bt_get bt_insert]. intros [Hk Hs]. case_bool_decide as Heq.
  - intros [= ->]. subst k. by rewrite InfoOrder.bytes_lt_irrefl.
  - intros Hg. destruct (bytes_lt key k) eqn:Hlt; [|by rewrite IH]. exfalso. apply bt_get_elem in Hg; [|done]. rewrite list.Forall_forall in Hk.
    pose proof (Hk _ Hg) as Hbad. cbn in Hbad. pose proof (InfoOrder.bytes_lt_trans _ _ _ Hlt Hbad) as Hself. by rewrite InfoOrder.bytes_lt_irrefl in Hself.
Qed.

(** ** Loading a printed file *)

(** A row that a file may set, under a filter. *)
Definition admitted `{Env, Powi} entries default_context default_type (level : Z) (ps : PropertyService) (filename : str) (filter : option str) (row : str * str) : Prop :=
  filter_admits filter row.1 = true /\ special_meaning row.1 = false /\
  permitted entries default_context default_type ps (file_context level filename) Ucred_INIT row.1 row.2.

Section load.
Context `{Env, Powi} `{HostFs} entries default_context default_type memory_for (Hc : config_ok entries default_context default_type memory_for).
Context (level : Z) (filename : str) (filter : option str) (lf : str -> option str -> BTreeMap str -> M PropLoader (BTreeMap str * result unit LoadError)).
Abbreviation state := (service_state entries default_context default_type memory_for).

(** Whether the loader takes a row. *)
Definition takes (ps : PropertyService) (row : str * str) : bool :=
  filter_admits filter row.1 && negb (special_meaning row.1) &&
  match PropService.check_permissions row.1 row.2 (file_context level filename) Ucred_INIT ps with Done (Ok _, _) => true | _ => false end.

Lemma takes_admitted ps row : state ps -> no_nul row.2 ->
  takes ps row = true <-> admitted entries default_context default_type level ps filename filter row.
Proof.
  intros [g Hr] Hv. destruct (check_permissions_ok _ _ _ _ Hc _ _ row.1 row.2 (file_context level filename) Ucred_INIT Hr Hv) as (r & Hchk & Hperm).
  unfold takes, admitted. rewrite Hchk, !andb_true_iff, negb_true_iff, <- Hperm. destruct r as [[]|]; naive_solver.
Qed.

Lemma printable_clean row : printable row -> no_nul row.2.
Proof. intros Hrow Hin. apply (pw_clean _ Hrow). unfold print_row. apply elem_of_app. right. by right. Qed.

Lemma load_row row m l : printable row -> state (pl_service l) -> keys_sorted m -> exists l',
  load_line level lf filename filter (print_row row) m l = Done (if takes (pl_service l) row then bt_insert row.1 row.2 m else m, l') /\ quiet l l'.
Proof.
  intros Hrow [g Hr] Hm. unfold load_line. rewrite print_line_read, print_no_import, print_key_value by done.
  pose proof (printable_clean row Hrow) as Hv. unfold takes, add_property. 
  replace (if bool_decide (default [] filter = []) then None else None) with (@None (str * option str)) by (by destruct (bool_decide _)).
  destruct row as [key value]. cbn [fst snd] in *. destruct (filter_admits filter key); cbn [negb andb]; [|by exists l].
  destruct (special_meaning key); cbn [negb andb].
  { eexists. split; [done|apply (quiet_log l)]. }
  destruct (check_permissions_ok _ _ _ _ Hc _ _ key value (file_context level filename) Ucred_INIT Hr Hv) as (r & Hchk & _).
  assert (on_service (PropService.check_permissions key value (file_context level filename) Ucred_INIT) l = Done (r, l)) as Hon
    by (unfold on_service, mbind, outcome_bind; by rewrite Hchk, loader_eta).
  unfold mbind, M_bind. rewrite Hon, Hchk. destruct r as [[]|[code error]]; [|eexists; split; [done|apply (quiet_log l)]].
  destruct (bt_get key m) as [existing|] eqn:Hget; [case_bool_decide as Heq|].
  - exists l. split; [|done]. subst existing. by rewrite bt_insert_same.
  - eexists. split; [done|apply (quiet_log l)].
  - by exists l.
Qed.

Lemma load_rows rows m l : Forall printable rows -> state (pl_service l) -> keys_sorted m -> exists l',
  load_lines level lf filename filter (print_row <$> rows) m l =
    Done (foldl (fun m row => bt_insert row.1 row.2 m) m (List.filter (takes (pl_service l)) rows), l') /\ quiet l l'.
Proof.
  intros Hrows. revert m l. induction Hrows as [|row rows Hrow _ IH]; intros m l Hl Hm; [by exists l|].
  destruct (load_row row m l Hrow Hl Hm) as (l1 & Hline & Hq).
  destruct (IH (if takes (pl_service l) row then bt_insert row.1 row.2 m else m) l1) as (l2 & Hlines & Hq2).
  { by rewrite (proj1 Hq). } { destruct (takes _ row); [by apply bt_insert_sorted|done]. }
  exists l2. split; [|by eapply quiet_trans]. cbn [fmap list_fmap load_lines List.filter]. unfold mbind, M_bind. rewrite Hline, Hlines, (proj1 Hq).
  by destruct (takes (pl_service l) row).
Qed.
End load.

Lemma load_lines_app `{Env, Powi} `{HostFs} level lf filename filter lines1 lines2 m l :
  load_lines level lf filename filter (lines1 ++ lines2) m l =
  (m' ← load_lines level lf filename filter lines1 m; load_lines level lf filename filter lines2 m') l.
Proof.
  revert m l. induction lines1 as [|raw lines1 IH]; intros m l; [done|]. cbn [app load_lines]. unfold mbind, M_bind at 1 2 3.
  destruct (load_line _ _ _ _ _ _ l) as [[m1 l1]| |]; [|done..]. apply IH.
Qed.

Lemma load_line_empty `{Env, Powi} `{HostFs} level lf filename filter m l : load_line level lf filename filter [] m l = Done (m, l).
Proof. unfold load_line. change (prop_line []) with (Some ([] : str)). by destruct (bool_decide _). Qed.

(** A file that imports itself is never read to its end. *)
Lemma self_import_endless `{Env} `{HostFs} level ps filename contents raw depth : ImageRoot.read filename = Ok contents ->
  raw ∈ removelast (split (contents ++ [x0a]) x0a) -> import_in level ps raw = Some (filename, None) -> ~ reads_end level ps depth filename None.
Proof.
  intros Hread Hraw Himp. induction depth as [|depth IH]; [by intros []|]. cbn [reads_end]. rewrite Hread. intros Hends. specialize (Hends eq_refl).
  rewrite list.Forall_forall in Hends. specialize (Hends _ Hraw). rewrite Himp in Hends. by apply IH.
Qed.

(** C26: Reading a [.prop] file that was printed from rows gives exactly the rows
    that its filter, the rules for special names and the permissions of its
    partition admit, the later ones over the earlier ones, and changes no property;
    [read_prop_file] gives all rows back.  On any files, reading ends exactly if the
    imports do, which those of a file that imports itself do not. *)
Theorem prop_files_read `{Env, Powi} `{HostFs} entries default_context default_type memory_for level l :
  config_ok entries default_context default_type memory_for ->
  (exists g, reaches entries default_context default_type memory_for (ps_areas (pl_service l)) g) ->
  (forall filename filter rows m depth, Forall printable rows -> keys_sorted m -> ImageRoot.read filename = Ok (print_props rows) ->
    exists taken l', load_file level (S depth) filename filter m l =
        Done ((foldl (fun m row => bt_insert row.1 row.2 m) m (List.filter taken rows), Ok tt), l') /\ pl_service l' = pl_service l /\
      (forall row, row ∈ rows -> (taken row = true <-> admitted entries default_context default_type level (pl_service l) filename filter row)) /\
      read_prop_file (print_props rows) = rows) /\
  (forall filename filter m depth, rows_ok m ->
    (reads_end level (pl_service l) depth filename filter -> exists r l', load_file level depth filename filter m l = Done (r, l')) /\
    (~ reads_end level (pl_service l) depth filename filter -> load_file level depth filename filter m l = Spinning)) /\
  (forall filename contents raw depth, ImageRoot.read filename = Ok contents -> raw ∈ removelast (split (contents ++ [x0a]) x0a) ->
    import_in level (pl_service l) raw = Some (filename, None) -> ~ reads_end level (pl_service l) depth filename None).
Proof.
  intros Hc Hl. split_and!.
  - intros filename filter rows m depth Hrows Hm Hread. exists (takes level filename filter (pl_service l)).
    destruct (load_rows _ _ _ _ Hc level filename filter (load_file level depth) rows m l Hrows Hl Hm) as (l' & Hload & Hq).
    exists l'. split_and!; [|apply Hq| |by apply read_printed].
    + cbn [load_file]. rewrite Hread. unfold load_properties. rewrite split_print by done. change (split [x0a] x0a) with ([[] : list byte] ++ [[]]).
      rewrite app_assoc, removelast_last. unfold mbind, M_bind. rewrite load_lines_app. unfold mbind, M_bind. rewrite Hload. cbn [load_lines].
      unfold mbind, M_bind. by rewrite load_line_empty.
    + intros row Hrow. rewrite list.Forall_forall in Hrows. apply (takes_admitted _ _ _ _ Hc level filename filter (load_file level depth)); [exact Hl|]. by apply printable_clean, Hrows.
  - intros filename filter m depth Hm. pose proof (load_file_ok _ _ _ _ Hc level depth filename filter m l Hl Hm) as Hload. unfold wpx in Hload.
    destruct (load_file _ _ _ _ _ l) as [[r l']| |]; [|done|].
    + destruct Hload as (_ & _ & Hends). split; [by eexists _, _|by intros []].
    + split; [by intros ?%Hload|done].
  - intros filename contents raw depth. apply self_import_endless.
Qed.

Definition two_rows : list (str * str) := [(lit "ro.x", lit "1 2"); (lit "sys.y", [])].
Definition rows_image : HostFs := {|
  IoError := unit;
  fs_read_link := fun _ => None;
  fs_read := fun path => if bool_decide (path = [lit "a.prop"]) then Ok (print_props two_rows) else Err tt;
  fs_exists := fun _ => false;
  fs_is_dir := fun _ => false;
  fs_is_file := fun _ => false;
  fs_read_dir := fun _ => Err tt;
|}.

Lemma prop_files_read_witness :
  (exists rows l', @load_file debug_env exact_powi rows_image 36 1 (lit "/a.prop") (Some (lit "ro.*")) [] (mkPropLoader some_service []) = Done ((rows, Ok tt), l')) /\
  read_prop_file (print_props two_rows) = two_rows.
Proof.
  destruct (@prop_files_read debug_env exact_powi rows_image _ _ _ _ 36 (mkPropLoader some_service []) some_config (ex_intro _ _ some_reached)) as (Hload & _).
  destruct (Hload (lit "/a.prop") (Some (lit "ro.*")) two_rows [] 0%nat) as (taken & l' & Hrun & _ & _ & Hback).
  - repeat (constructor; [split; try (vm_compute; discriminate); try (apply (bool_decide_eq_true_1 _); vm_compute; reflexivity); vm_compute; reflexivity|]). constructor.
  - exact I.
  - vm_compute. reflexivity.
  - split; [eexists _, l'; exact Hrun|exact Hback].
Defined.
